(* ===== verification/_CoqProject ===== *)
-Q . S2P
Prelude.v
Digits.v
DigitDiv.v
BigNat.v
BigMul.v
BigDiv.v
DoubleDigit.v
LongDiv.v
LongDivSpec.v
BigBits.v
BigShift.v
BigNum.v
ErlArith.v
BigConv.v
BigText.v
IntegerProps.v
TimerWheel.v
TimerLinks.v
TimerBump.v
TimerInv.v
TimerOps.v
TimerSpec.v
TimerProps.v
Calendar.v
CalendarProps.v
Avl.v
TermOrder.v
Monitors.v
MonitorProps.v
Memory.v
HashTable.v
HashSpec.v
IndexTable.v
Utf8.v
Atoms.v
AtomSpec.v
AtomProps.v
TableProps.v
ProcessDict.v
PacketLength.v
PacketHttp.v
CodeIx.v
Catches.v
Ranges.v
FunctionInfo.v
Modules.v
CodeLoad.v
CodeSpec.v
CodeOps.v
CodeProps.v
ExtTerm.v
ExtEncode.v
ExtDecode.v
ExtSpec.v
ExtSize.v
ExtSizer.v
ExtBytes.v
ExtSized.v
ExtRep.v
BitCompare.v
TermCompare.v
TermKey.v
TermCmpProof.v
ExtFill.v
ExtObjects.v
ExtTrip.v
ExtProps.v
BoyerMoore.v
BmSearch.v
AhoCorasick.v
AcTrie.v
AcSearch.v
CopyBits.v
BinTerm.v
BinaryMatch.v
MatchSpec.v
BinaryParts.v
BinaryCommon.v
UnsignedSpec.v
BinaryProps.v
