(* ===== verification/Prelude.v ===== *)
(** The core of the Erlang emulator (erts/src/beam, Erlang/OTP 17)

The emulator is a C program: a register machine that runs BEAM code in many processes, and a
run-time system around it. This library models the parts of the run-time system whose logic is
their own - arithmetic on integers of any size, timers, monitors and links, tables and atoms, the
loading of code, the external format and the order of terms, binaries, process dictionaries,
packets - as executable definitions on the data the C code has, and proves what they promise. The
target is a 64-bit build without HALFWORD_HEAP and without a double-width digit type.

** How C is modelled

Machine words are integers, and each operation wraps around where the C operation does ([w64],
[wadd], [wmul], [u32], [s32], [s64] in [Prelude]). Memory that is shared or reused is a finite map
from addresses, or a list of slots, with the aliasing of the C code; memory that is only read or
written once is a list. A function that can go wrong returns an [outcome] ([Memory]): [Ok],
[Erl_exit] where the emulator ends itself, and [Undef] where the C code would touch memory that is
not its own or read a variable before it is assigned. A theorem that a sequence of operations is
[Ok] says so of all of its memory accesses. An error that the C code returns is a value of the
result. Loops that are not structural have fuel, and running out of fuel is [Undef] or [None], so
that a theorem about the result also says that the fuel is enough.

** The parts, their files and their sources

Integers (big.c, big.h, erl_arith.c). [Digits], [DigitDiv] and [DoubleDigit] are the macros on one
and two digits, [BigNat], [BigMul], [BigDiv], [LongDiv], [LongDivSpec], [BigBits] and [BigShift]
the routines on digit vectors, [BigNum] the exported operations on terms, [BigConv] and [BigText]
the conversions to words, bytes and text, and [ErlArith] the operators of the language on small
and big operands. [IntegerProps] has the properties. Digit vectors have the least significant
digit first, as in memory. The fuel of the long division is 3 * length + 3 rounds, of [D2DIVREM]
112 rounds; [I_div_spec] and [d2divrem_loop_spec] show that they are enough.

Time (time.c, erl_time.h, erl_time_sup.c). [TimerWheel] is the wheel with its cells as records on
a heap, [TimerLinks], [TimerBump], [TimerInv] and [TimerOps] its invariant and operations,
[TimerSpec] the timer service it implements and the clock that drives it, [TimerProps] the
properties. [Calendar] and [CalendarProps] are the conversion of times to dates.

Monitors and links (erl_monitors.c, utils.c). [Avl] is the balanced tree, an algorithm over a
class of ordered keys; [TermOrder] is the order of the keys, [Monitors] the three kinds of trees
with the work stacks of their sweeps, [MonitorProps] the properties.

Tables and atoms (hash.c, index.c, atom.c, erl_unicode.c, bif.c). [Memory] has the heap and the
outcomes; [HashTable] is the hash table, a client of the record of functions its user passes;
[HashSpec] is its abstract map; [IndexTable] is the index table over it, [Utf8] the analysis and
the conversion of text, [Atoms] the atom table and the built-in functions over them, [AtomSpec]
its invariant; [AtomProps] and [TableProps] have the properties.

Code (code_ix.c, beam_catches.c, beam_ranges.c, module.c, beam_bif_load.c, the end of
beam_load.c). [CodeIx] has the code indices and the permission to write code, as functions and as
a step relation of readers and writers; [Catches], [Ranges] and [Modules] are the three structures
of which each code index has one, [FunctionInfo] the lookup of functions and lines by an address;
[CodeLoad] composes them to the operations that load, delete and purge code; [CodeSpec] is the
abstract list of modules with their versions, [CodeOps] the simulation, [CodeProps] the
properties. The module tables are index tables of [IndexTable], with modules hashed by their
atoms.

External terms (external.c, erl_map.c, sys_float.c) and their order (utils.c, erl_bits.c).
[ExtTerm] has the tags, terms and integers in bytes, [ExtEncode] the encoder and the computation
of the size of its result, [ExtSizer] the computation of the words of a decoded term, [ExtDecode]
the decoder. It builds a term on a heap of words, on which the places that are still to be filled
are a chain; this heap is also what [TermCompare] compares, as jumps between the labels of
erts_cmp, with [BitCompare] for bits. [ExtSpec] is the format as a recursive definition, [TermKey]
the order as lists of numbers, and [ExtRep] says which words represent a term; [ExtProps] has the
properties, the other files the proofs. The fuel of the encoder is the size of the term, of the
decoder the number of bytes, of the comparison 2 + 5 * size. The properties say that it is enough.
Text of floats, strtod, the export table and the node table are arguments.

Binaries (erl_bif_binary.c, erts_copy_bits in erl_bits.c). [BoyerMoore] and [AhoCorasick] are the
two algorithms with their tables and tries, [BmSearch], [AcTrie] and [AcSearch] their proofs.
[CopyBits] copies bits, [BinTerm] has binaries, their bytes and the reductions of a call.
[BinaryMatch] has the functions that search, [BinaryParts] parts, bytes, lists and copies,
[BinaryCommon] common prefixes and unsigned integers, with their proofs over any number of calls,
as [MatchSpec] and [UnsignedSpec] have them; [BinaryProps] has the properties. A function that
traps is called again with its state; the reductions of each call are an argument, about which
only [scheduled] is assumed. The fuel is the number of bytes or copies that are left.

Process dictionaries and packets (erl_process_dict.c, packet_parser.c). [ProcessDict] is the table
of a process, with the invariant that ties it to a map and the refinement; the hash function of
terms is an argument. [PacketLength] cuts packets off a stream of bytes, [PacketHttp] parses lines
of HTTP and records of SSL; both have their properties. Buffers are lists of bytes, a pointer into
one is an index, and a read behind its end is [Undef]. The loops over lines have the number of
bytes as fuel.

** What the theorems show

Functional: binaries are searched for the first, longest or all matches; the integer operators
return the canonical term of the mathematical result, or the documented error, whatever path the
code takes and whatever the memory held before; long division, shifts and word conversions are
exact, and a text is read as the number it denotes digit by digit. Types and bounds: compiled
patterns have the structure their tag says, parts of binaries are inside of them, and the length
of a packet is found without a look behind what has arrived. Where the code deviates (the lost
borrow of band and bxor, the radix above 10, the sign without digits), the theorem states the
exact deviation, next to the promise and not inside of it. Refinement: timers, links, hash tables,
process dictionaries and code loading implement an abstract service for any sequence of
operations, and the invariants that this needs are those of the C structures. Safety: such
sequences never touch memory that was freed; a code index that is staged is not in use. Liveness
and termination: active timers fire, the sweeps of trees and all loops end, a staged change can be
committed. The comparison on the heap computes the lexicographic order of the keys of terms, which
is total, as long as the differences of the numbers in references and funs fit their types. Round
trips: bytes, decimal text, dates, atoms, encoded terms, unsigned integers, packets, messages of
HTTP. Errors: bad UTF-8, dates that do not exist, integers out of range are refused, exactly; for
four inputs the decoder of external terms leaves its memory, and so does the copy of a binary when
the size wraps around.

** Not modelled

The interpreter and the loader's transformation of BEAM files (beam_emu.c, beam_load.c but its
end): the instructions are generated from tables at build time (genop.tab, the ops tables), and
the files they expand to are not in the repository. Processes, scheduling, messages and garbage
collection (erl_process.c, erl_message.c, erl_gc.c, erl_process_lock.c, erl_thr_progress.c,
erl_ptab.c): they are written against atomics with memory orders, and a sequential model would
leave out what makes them hard; the part of thread progress that code loading relies on is a step
of [CodeIx.cix_step]. Allocators (erl_alloc*.c): every allocation succeeds in the model and
addresses are fresh. Floats: the C library's arithmetic and conversions. ETS (erl_db*.c), ports,
drivers and input/output (io.c, inet_drv.c, erl_poll.c), distribution (dist.c), tracing, NIFs,
HiPE, the regular expressions of lib/pcre and the programs around the emulator (epmd, erlexec,
heart, run_erl), the construction and matching of bit strings are not modelled; they are listed
with the reasons in the manifest's components. Printing functions and memory accounting of the
modelled files are left out. *)

From Stdlib Require Export ZArith Lia List Bool.
Export ListNotations.
#[global] Open Scope Z_scope.

Ltac Zify.zify_post_hook ::= Z.to_euclidean_division_equations.

Declare Scope erts_scope.
Delimit Scope erts_scope with erts.
#[global] Open Scope erts_scope.

Notation "'β'" := 18446744073709551616%Z : erts_scope.

Definition w64 (z : Z) : Z := z mod β.
Definition wadd (a b : Z) : Z := w64 (a + b).
Definition wsub (a b : Z) : Z := w64 (a - b).
Definition wmul (a b : Z) : Z := w64 (a * b).
Definition wshl (a n : Z) : Z := w64 (Z.shiftl a n).
Definition wshr (a n : Z) : Z := Z.shiftr a n.
Definition wnot (a : Z) : Z := β - 1 - a.
Definition s64 (z : Z) : Z := let u := w64 z in if u <? 2^63 then u else u - β.
Definition u32 (z : Z) : Z := z mod 2 ^ 32.
Definition s32 (z : Z) : Z := let u := u32 z in if u <? 2 ^ 31 then u else u - 2 ^ 32.
Definition b2z (b : bool) : Z := if b then 1 else 0.

Notation is_digit d := (0 <= d < β).

Ltac zbool :=
  repeat match goal with
  | |- context [?x <? ?y] => destruct (Z.ltb_spec x y)
  | |- context [?x <=? ?y] => destruct (Z.leb_spec x y)
  | |- context [?x >? ?y] => rewrite (Z.gtb_ltb x y); destruct (Z.ltb_spec y x)
  | |- context [?x >=? ?y] => rewrite (Z.geb_leb x y); destruct (Z.leb_spec y x)
  | |- context [?x =? ?y] => destruct (Z.eqb_spec x y)
  end.

Ltac unw := unfold wadd, wsub, wmul, w64, b2z, wnot in *; cbv zeta in *.
Ltac wsolve := unw; zbool; simpl; try lia.

Lemma w64_range z : is_digit (w64 z). Proof. unfold w64; lia. Qed.
Lemma w64_id z : is_digit z -> w64 z = z. Proof. unfold w64; lia. Qed.
Lemma u32_id z : 0 <= z < 2 ^ 32 -> u32 z = z.
Proof. intros. unfold u32. now apply Z.mod_small. Qed.
Lemma s32_id z : - 2 ^ 31 <= z < 2 ^ 31 -> s32 z = z.
Proof. intros H. unfold s32, u32. destruct (Z.ltb_spec (z mod 2 ^ 32) (2 ^ 31)); lia. Qed.
Lemma wadd_range a b : is_digit (wadd a b). Proof. apply w64_range. Qed.
Lemma wsub_range a b : is_digit (wsub a b). Proof. apply w64_range. Qed.
Lemma wmul_range a b : is_digit (wmul a b). Proof. apply w64_range. Qed.
Lemma wshl_range a b : is_digit (wshl a b). Proof. apply w64_range. Qed.
#[global] Arguments Z.mul : simpl never.
#[global] Arguments Z.add : simpl never.
#[global] Arguments Z.sub : simpl never.
#[global] Arguments Z.pow : simpl never.
#[global] Arguments Z.of_nat : simpl never.
#[global] Arguments Z.modulo : simpl never.
#[global] Arguments Z.div : simpl never.
#[global] Arguments Z.shiftl : simpl never.
#[global] Arguments Z.shiftr : simpl never.
Ltac splits := repeat match goal with |- _ /\ _ => split end.
