(* ===== verification/Digits.v ===== *)
(** Digits of a bignum: the single-digit macros of big.c (add, subtract and multiply with carry)
    on 64-bit words, each with the equation between its inputs and its two results. *)

From S2P Require Import Prelude.

(** [DSUMc(a,b,c,s)]: add two digits and a carry; the result is (carry out, digit). *)
Definition DSUMc (a b c : Z) : Z * Z :=
  let cr := c in
  let xr := wadd a cr in
  let yr := b in
  let cr := b2z (xr <? cr) in
  let xr := wadd yr xr in
  let cr := wadd cr (b2z (xr <? yr)) in
  (cr, xr).

(** [DSUM(a,b,c,s)]: add two digits; (carry out, digit). *)
Definition DSUM (a b : Z) : Z * Z :=
  let xr := a in
  let yr := b in
  let xr := wadd yr xr in
  (b2z (xr <? yr), xr).

(** [DSUBb(a,b,r,d)]: subtract with a borrow in; (borrow out, digit). *)
Definition DSUBb (a b r : Z) : Z * Z :=
  let cr := r in
  let xr := a in
  let yr := wadd b cr in
  let cr := b2z (yr <? cr) in
  let yr := wsub xr yr in
  let cr := wadd cr (b2z (yr >? xr)) in
  (cr, yr).

(** [DSUB(a,b,r,d)]: subtract; (borrow out, digit). *)
Definition DSUB (a b : Z) : Z * Z :=
  let xr := a in
  let yr := b in
  let yr := wsub xr yr in
  (b2z (yr >? xr), yr).

(** Bits of a half digit. *)
Definition H_EXP : Z := 32.
(** The low half of a digit. *)
Definition LO_MASK : Z := wsub (wshl 1 H_EXP) 1.
(** The high half of a digit. *)
Definition HI_MASK : Z := wshl LO_MASK H_EXP.
(** A digit assigned to an [ErtsHalfDigit] (32 bits) keeps its low half. *)
Definition half (a : Z) : Z := a mod 2^32.

(** [DMULc(a,b,d1,d0)]: a*b + d1 as a pair of digits (high, low), by half digits. *)
Definition DMULc (a b d1 : Z) : Z * Z :=
  let a0 := half a in
  let a1 := half (wshr a H_EXP) in
  let b0 := half b in
  let b1 := half (wshr b H_EXP) in
  let a0b0 := wmul a0 b0 in
  let a0b1 := wmul a0 b1 in
  let a1b0 := wmul a1 b0 in
  let a1b1 := wmul a1 b1 in
  let '(c0, p0) := DSUM a0b0 d1 in
  let '(p2, p1) := DSUM (wshl c0 H_EXP) (wshr p0 H_EXP) in
  let '(c0, p1) := DSUM p1 a0b1 in
  let p2 := wadd p2 c0 in
  let '(c0, p1) := DSUM p1 a1b0 in
  let p2 := wadd p2 c0 in
  let '(c0, p1) := DSUM p1 (wshl a1b1 H_EXP) in
  let p2 := wadd p2 c0 in
  let '(c0, p2) := DSUM a1b1 (wshl p2 H_EXP) in
  (Z.lor (Z.land p2 HI_MASK) (wshr p1 H_EXP),
   Z.lor (wshl p1 H_EXP) (Z.land p0 LO_MASK)).

Lemma DSUMc_spec a b c :
  is_digit a -> is_digit b -> is_digit c ->
  let '(c', s) := DSUMc a b c in s + β * c' = a + b + c /\ is_digit s /\ 0 <= c' <= 2.
Proof. intros. unfold DSUMc. wsolve. Qed.

Lemma DSUM_spec a b :
  is_digit a -> is_digit b ->
  let '(c', s) := DSUM a b in s + β * c' = a + b /\ is_digit s /\ 0 <= c' <= 1.
Proof. intros. unfold DSUM. wsolve. Qed.

Lemma DSUBb_spec a b r :
  is_digit a -> is_digit b -> is_digit r ->
  let '(r', d) := DSUBb a b r in d = a - b - r + β * r' /\ is_digit d /\ 0 <= r' <= 2.
Proof. intros. unfold DSUBb. wsolve. Qed.

Lemma DSUB_spec a b :
  is_digit a -> is_digit b ->
  let '(r', d) := DSUB a b in d = a - b + β * r' /\ is_digit d /\ 0 <= r' <= 1.
Proof. intros. unfold DSUB. wsolve. Qed.

Lemma lor_disjoint_32 h l : 0 <= h -> 0 <= l < 2^32 -> Z.lor (h * 2^32) l = h * 2^32 + l.
Proof.
  intros. rewrite <- Z.lxor_lor, Z.add_nocarry_lxor; trivial;
  apply Z.bits_inj'; intros n Hn; rewrite Z.land_spec, Z.bits_0;
  destruct (Z.lt_ge_cases n 32).
  1,3: rewrite Z.mul_pow2_bits_low; auto.
  all: replace l with (l mod 2^32) by (apply Z.mod_small; auto);
    rewrite (Z.mod_pow2_bits_high l 32 n) by lia; apply andb_false_r.
Qed.

Lemma land_LO p : Z.land p LO_MASK = p mod 2^32.
Proof. change LO_MASK with (Z.ones 32). apply Z.land_ones. lia. Qed.

Lemma land_HI p : is_digit p -> Z.land p HI_MASK = (p / 2^32) * 2^32.
Proof.
  intros. change HI_MASK with (Z.shiftl (Z.ones 32) 32).
  rewrite <- Z.shiftr_div_pow2, <- Z.shiftl_mul_pow2 by lia.
  apply Z.bits_inj'; intros n Hn. rewrite Z.land_spec.
  destruct (Z.lt_ge_cases n 32).
  - rewrite !Z.shiftl_spec_low by lia. apply andb_false_r.
  - rewrite !Z.shiftl_spec by lia.
    rewrite Z.shiftr_spec by lia. replace (n - 32 + 32) with n by lia.
    destruct (Z.lt_ge_cases n 64).
    + rewrite Z.ones_spec_low by lia. apply andb_true_r.
    + rewrite Z.ones_spec_high by lia. rewrite andb_false_r.
      symmetry. rewrite <- (Z.mod_small p (2^64)) by lia.
      apply Z.mod_pow2_bits_high; lia.
Qed.

Lemma wshr_32 p : wshr p H_EXP = p / 2^32.
Proof. apply Z.shiftr_div_pow2. unfold H_EXP; lia. Qed.
Lemma wshl_32 p : wshl p H_EXP = (p * 2^32) mod β.
Proof. unfold wshl, w64. now rewrite Z.shiftl_mul_pow2. Qed.

Lemma half_prod x y : 0 <= x < 2^32 -> 0 <= y < 2^32 -> 0 <= x * y <= (2^32-1)*(2^32-1).
Proof. nia. Qed.

Lemma DMULc_spec a b c :
  is_digit a -> is_digit b -> is_digit c ->
  let '(d1, d0) := DMULc a b c in d0 + β * d1 = a * b + c /\ is_digit d0 /\ is_digit d1.
Proof.
  intros Ha Hb Hc. unfold DMULc, half. rewrite !wshr_32.
  pose proof (Z.div_mod a (2^32) ltac:(lia)) as Ea.
  pose proof (Z.div_mod b (2^32) ltac:(lia)) as Eb.
  rewrite !(Z.mod_small (_ / 2^32)) by lia.
  assert (0 <= a mod 2^32 < 2^32) by lia. assert (0 <= a / 2^32 < 2^32) by lia.
  assert (0 <= b mod 2^32 < 2^32) by lia. assert (0 <= b / 2^32 < 2^32) by lia.
  set (a0 := a mod 2^32) in *. set (a1 := a / 2^32) in *.
  set (b0 := b mod 2^32) in *. set (b1 := b / 2^32) in *. clearbody a0 a1 b0 b1.
  assert (Eab : a * b = a0*b0 + 2^32 * (a0*b1 + a1*b0) + β * (a1*b1)) by (subst; ring).
  clear Ea Eb. unfold wmul.
  pose proof (half_prod a0 b0 ltac:(lia) ltac:(lia)). pose proof (half_prod a0 b1 ltac:(lia) ltac:(lia)).
  pose proof (half_prod a1 b0 ltac:(lia) ltac:(lia)). pose proof (half_prod a1 b1 ltac:(lia) ltac:(lia)).
  rewrite !w64_id by lia. rewrite Eab.
  set (P00 := a0*b0) in *. set (P01 := a0*b1) in *. set (P10 := a1*b0) in *. set (P11 := a1*b1) in *.
  clearbody P00 P01 P10 P11.
  pose proof (DSUM_spec P00 c ltac:(lia) ltac:(lia)) as S1.
  destruct (DSUM P00 c) as [c0 p0]. rewrite !wshl_32, !wshr_32.
  rewrite (Z.mod_small (c0 * _)) by lia.
  pose proof (DSUM_spec (c0 * 2^32) (p0 / 2^32) ltac:(lia) ltac:(lia)) as S2.
  destruct (DSUM (c0 * 2^32) (p0 / 2^32)) as [p2 p1].
  pose proof (DSUM_spec p1 P01 ltac:(lia) ltac:(lia)) as S3.
  destruct (DSUM p1 P01) as [c1 p1'].
  pose proof (DSUM_spec p1' P10 ltac:(lia) ltac:(lia)) as S4.
  destruct (DSUM p1' P10) as [c2 p1''].
  pose proof (DSUM_spec p1'' ((P11 * 2^32) mod β) ltac:(lia) ltac:(lia)) as S5.
  destruct (DSUM p1'' _) as [c3 p1'''].
  rewrite !wshl_32, !wshr_32. unw.
  match goal with |- context [DSUM P11 ?z] => 
    pose proof (DSUM_spec P11 z ltac:(lia) ltac:(lia)) as S6; destruct (DSUM P11 z) as [c4 p2'] end.
  rewrite land_HI, land_LO by lia.
  rewrite lor_disjoint_32 by lia.
  replace ((p1''' * 2^32) mod β) with ((p1''' mod 2^32) * 2^32) by lia.
  rewrite lor_disjoint_32 by lia.
  split; [|lia].
  clear Eab.
  lia.
Qed.
