(* ===== verification/DigitDiv.v ===== *)
(** Division of a two-digit number by a digit: the macros [D2PF] and [DDIVREM] of big.c, which
    work on half digits. [DDIVREM_spec]: the quotient and the remainder are exact. *)

From S2P Require Import Prelude Digits.

(** [D2PF(a,s)]: the left shift that sets the top bit of a digit. *)
Definition D2PF (a : Z) : Z :=
  let x := a in
  let s := 0 in
  let '(s, x) := if x <=? 0x00000000FFFFFFFF then (s + 32, wshl x 32) else (s, x) in
  let '(s, x) := if x <=? 0x0000FFFFFFFFFFFF then (s + 16, wshl x 16) else (s, x) in
  let '(s, x) := if x <=? 0x00FFFFFFFFFFFFFF then (s + 8, wshl x 8) else (s, x) in
  let '(s, x) := if x <=? 0x0FFFFFFFFFFFFFFF then (s + 4, wshl x 4) else (s, x) in
  let '(s, x) := if x <=? 0x3FFFFFFFFFFFFFFF then (s + 2, wshl x 2) else (s, x) in
  if x <=? 0x7FFFFFFFFFFFFFFF then s + 1 else s.

(** The loop that corrects an estimated half digit of the quotient; at most two rounds are
    needed. *)
Fixpoint ddiv_adjust (fuel : nat) (q rh vn1 vn0 un : Z) : Z :=
  match fuel with
  | O => q
  | S fuel =>
      if (q >=? wshl 1 H_EXP) || (wmul q vn0 >? wadd (wshl rh H_EXP) un) then
        let q := wsub q 1 in
        let rh := wadd rh vn1 in
        if rh >=? wshl 1 H_EXP then q else ddiv_adjust fuel q rh vn1 vn0 un
      else q
  end.

(** [DDIVREM(a1,a0,b,q,r)]: quotient and remainder of the two-digit number a1,a0 by the digit b
    (a1 < b). *)
Definition DDIVREM (a1 a0 b : Z) : Z * Z :=
  let s := D2PF b in
  let b := wshl b s in
  let vn1 := half (wshr b H_EXP) in
  let vn0 := half (Z.land b LO_MASK) in
  let un32 := Z.lor (wshl a1 s) (Z.land (wshr a0 (64 - s)) (w64 (Z.shiftr (- s) 63))) in
  let un10 := wshl a0 s in
  let un1 := half (wshr un10 H_EXP) in
  let un0 := half (Z.land un10 LO_MASK) in
  let q1 := un32 / vn1 in
  let rh := wsub un32 (wmul q1 vn1) in
  let q1 := ddiv_adjust 2 q1 rh vn1 vn0 un1 in
  let un21 := wsub (wadd (wshl un32 H_EXP) un1) (wmul q1 b) in
  let q0 := un21 / vn1 in
  let rh := wsub un21 (wmul q0 vn1) in
  let q0 := ddiv_adjust 2 q0 rh vn1 vn0 un0 in
  let r := wshr (wsub (wadd (wshl un21 H_EXP) un0) (wmul q0 b)) s in
  let q := wadd (wshl q1 H_EXP) q0 in
  (q, r).
Example dd1 : DDIVREM 5 7 9 = ((5 * β + 7) / 9, (5 * β + 7) mod 9). Proof. reflexivity. Qed.
Example dd2 : let b := 0xF123456789ABCDEF in DDIVREM (b-1) (β-1) b = (((b-1) * β + (β-1)) / b, ((b-1) * β + β-1) mod b). Proof. reflexivity. Qed.
Example dd3 : let b := 0x8000000000000001 in DDIVREM (b-1) (β-1) b = (((b-1) * β + (β-1)) / b, ((b-1) * β + β-1) mod b). Proof. reflexivity. Qed.

Lemma D2PF_step x k m : 0 <= k -> 0 < x < 2^m -> 0 <= m ->  m + k <= 64 -> wshl x k = x * 2^k.
Proof.
  intros. unfold wshl. rewrite Z.shiftl_mul_pow2 by lia. apply w64_id.
  assert (x * 2^k < 2^m * 2^k) by (apply Z.mul_lt_mono_pos_r; lia).
  rewrite <- Z.pow_add_r in * by lia.
  assert (2^(m+k) <= 2^64) by (apply Z.pow_le_mono_r; lia). lia.
Qed.

Lemma D2PF_spec b : 0 < b < β ->
  0 <= D2PF b < 64 /\ 2^63 <= b * 2^(D2PF b) < 2^64.
Proof.
  intros Hb. unfold D2PF.
  repeat match goal with
  | |- context [if ?x <=? ?y then (?s, wshl ?x ?k) else _] =>
      let H := fresh in
      destruct (Z.leb_spec x y) as [H|H]; 
      [rewrite (D2PF_step x k (64 - k)) in * by (simpl Z.sub; lia)|]; cbv zeta beta iota
  | |- context [if ?x <=? ?y then _ else _] => destruct (Z.leb_spec x y)
  end; simpl Z.add; match goal with |- context [2^?n] => let v := eval vm_compute in (2^n) in change (2^n) with v end; lia.
Qed.

Lemma div_unique_le q n v : 0 < v -> n / v <= q -> q * v <= n -> q = n / v.
Proof. intros Hv Hlow Hup. pose proof (Z.div_le_lower_bound n v q Hv ltac:(lia)). lia. Qed.

Lemma ddiv_adjust_spec fuel q rh u v1 v0 d :
  let v := v1 * 2^32 + v0 in
  2^31 <= v1 < 2^32 -> 0 <= v0 < 2^32 -> 0 <= d < 2^32 ->
  0 <= u < v -> rh = u - q * v1 -> 0 <= rh < 2^32 -> 0 <= q <= 2^32 + 1 ->
  (u * 2^32 + d) / v <= q -> 2^32 <= rh + Z.of_nat fuel * 2^31 ->
  ddiv_adjust fuel q rh v1 v0 d = (u * 2^32 + d) / v.
Proof.
  intros v Hv1 Hv0 Hd Hu. revert q rh.
  assert (Hv : 0 < v) by lia.
  assert (HQ : (u * 2^32 + d) / v < 2^32) by (apply Z.div_lt_upper_bound; lia).
  assert (HQ0 : 0 <= (u * 2^32 + d) / v) by (apply Z.div_pos; lia).
  assert (Hex : forall q, (u * 2^32 + d) / v <= q -> q * v <= u * 2^32 + d ->
            q = (u * 2^32 + d) / v) by (intros; apply div_unique_le; auto).
  assert (Hgt : forall q, u * 2^32 + d < q * v -> (u * 2^32 + d) / v < q)
    by (intros; apply Z.div_lt_upper_bound; lia).
  set (Q := (u * 2^32 + d) / v) in *. clearbody Q.
  induction fuel as [|fuel IH]; intros q rh Erh Hrh Hq Hlow Hf; [lia|].
  assert (Hkey : q * v - (u * 2^32 + d) = q * v0 - (rh * 2^32 + d)) by (unfold v; subst rh; ring).
  assert (Hdec : Q <= q - 1 ->
     (if wadd rh v1 >=? 2^32 then wsub q 1 else ddiv_adjust fuel (wsub q 1) (wadd rh v1) v1 v0 d) = Q).
  { intros Hq1. unfold wsub, wadd. rewrite !w64_id by lia.
    destruct (Z.geb_spec (rh + v1) (2^32)); [|apply IH; lia].
    apply Hex; [lia|].
    assert ((q - 1) * v0 <= 2^32 * (2^32 - 1)) by (apply Z.mul_le_mono_nonneg; lia).
    assert ((q - 1) * v - (u * 2^32 + d) = (q - 1) * v0 - ((rh + v1) * 2^32 + d))
      by (unfold v; subst rh; ring).
    lia. }
  cbn [ddiv_adjust]. rewrite !wshl_32. change ((1 * 2^32) mod β) with (2^32).
  destruct (Z.geb_spec q (2^32)) as [Hbig|Hsmall]; simpl orb; cbv iota zeta.
  - apply Hdec; lia.
  - assert (0 <= q * v0 <= (2^32 - 1) * (2^32 - 1))
      by (split; [apply Z.mul_nonneg_nonneg | apply Z.mul_le_mono_nonneg]; lia).
    unfold wadd at 1, wmul. rewrite (Z.mod_small (rh * 2^32)), !w64_id by lia.
    rewrite Z.gtb_ltb. destruct (Z.ltb_spec (rh * 2^32 + d) (q * v0)).
    + apply Hdec. assert (Q < q) by (apply Hgt; lia). lia.
    + apply Hex; lia.
Qed.

Lemma ddiv_half u v1 v0 d :
  let v := v1 * 2^32 + v0 in
  2^31 <= v1 < 2^32 -> 0 <= v0 < 2^32 -> 0 <= d < 2^32 -> 0 <= u < v ->
  let q := u / v1 in
  let q' := ddiv_adjust 2 q (wsub u (wmul q v1)) v1 v0 d in
  q' = (u * 2^32 + d) / v /\
  wsub (wadd (wshl u H_EXP) d) (wmul q' v) = (u * 2^32 + d) mod v /\ 0 <= q' < 2^32.
Proof.
  intros v Hv1 Hv0 Hd Hu q q'.
  assert (Hv : 0 < v) by lia.
  pose proof (Z.div_mod u v1 ltac:(lia)) as Eu. pose proof (Z.mod_pos_bound u v1 ltac:(lia)) as Hm.
  fold q in Eu.
  assert (Hq0 : 0 <= q) by (apply Z.div_pos; lia).
  assert (Hq1 : q <= 2^32 + 1).
  { enough (q < 2^32 + 2) by lia. apply Z.div_lt_upper_bound; lia. }
  assert (Hq' : q' = (u * 2^32 + d) / v).
  { unfold q'. unfold wsub, wmul. rewrite (w64_id (q * v1)) by lia. rewrite w64_id by lia.
    apply ddiv_adjust_spec; fold v; try lia.
    enough ((u * 2^32 + d) / v < q + 1) by lia.
    apply Z.div_lt_upper_bound; [lia|].
    assert (0 <= (q + 1) * v0) by (apply Z.mul_nonneg_nonneg; lia).
    assert (v * (q + 1) = ((q + 1) * v1) * 2^32 + (q + 1) * v0) by (unfold v; ring).
    lia. }
  split; [exact Hq'|]. rewrite Hq'. split.
  - rewrite wshl_32. unfold wsub, wadd, wmul, w64.
    rewrite Zplus_mod_idemp_l, <- Zminus_mod.
    rewrite (Z.mul_comm (_ / v) v), <- Z.mod_eq by lia. apply Z.mod_small.
    pose proof (Z.mod_pos_bound (u * 2^32 + d) v Hv). lia.
  - split; [apply Z.div_pos; lia | apply Z.div_lt_upper_bound; lia].
Qed.

Lemma lor_disjoint k h l : 0 <= k -> 0 <= h -> 0 <= l < 2^k -> Z.lor (h * 2^k) l = h * 2^k + l.
Proof.
  intros. rewrite <- Z.lxor_lor, Z.add_nocarry_lxor; trivial;
  apply Z.bits_inj'; intros n Hn; rewrite Z.land_spec, Z.bits_0;
  destruct (Z.lt_ge_cases n k).
  1,3: rewrite Z.mul_pow2_bits_low; auto.
  all: replace l with (l mod 2^k) by (apply Z.mod_small; auto);
    rewrite (Z.mod_pow2_bits_high l k n) by lia; apply andb_false_r.
Qed.

Lemma pow2_split k : 0 <= k <= 64 -> 2^k * 2^(64-k) = β.
Proof. intros. rewrite <- Z.pow_add_r by lia. now replace (k + (64 - k)) with 64 by lia. Qed.

(** Shifting the double digit (a1, a0) left by s < 64 bits. *)
Lemma shift_double a1 a0 b s :
  0 <= s < 64 -> is_digit a0 -> 0 <= a1 < b -> b * 2^s < β ->
  let un32 := Z.lor (wshl a1 s) (Z.land (wshr a0 (64 - s)) (w64 (Z.shiftr (- s) 63))) in
  un32 * β + wshl a0 s = (a1 * β + a0) * 2^s /\ 0 <= un32 < b * 2^s.
Proof.
  intros Hs Ha0 Ha1 Hb un32.
  assert (Hp : 0 < 2^s) by (apply Z.pow_pos_nonneg; lia).
  assert (Hp' : 0 < 2^(64-s)) by (apply Z.pow_pos_nonneg; lia).
  pose proof (pow2_split s ltac:(lia)) as Hpp.
  assert (Ha1s : a1 * 2^s + 2^s <= b * 2^s) by nia.
  assert (Ehi : 0 <= a0 / 2^(64-s) < 2^s).
  { split; [apply Z.div_pos; lia|]. apply Z.div_lt_upper_bound; lia. }
  assert (Eun : un32 = a1 * 2^s + a0 / 2^(64-s)).
  { unfold un32, wshl, wshr. rewrite Z.shiftl_mul_pow2, w64_id by nia.
    rewrite Z.shiftr_div_pow2 by lia.
    destruct (Z.eq_dec s 0) as [->|].
    - rewrite Z.land_0_r, Z.lor_0_r. change (2^(64-0)) with β. rewrite Z.div_small by lia. lia.
    - replace (w64 (Z.shiftr (- s) 63)) with (Z.ones 64)
        by (rewrite Z.shiftr_div_pow2 by lia; unfold w64; change (Z.ones 64) with (β-1); lia).
      rewrite Z.land_ones, Z.mod_small by lia. apply lor_disjoint; lia. }
  split; [|lia].
  rewrite Eun. unfold wshl, w64. rewrite Z.shiftl_mul_pow2 by lia.
  rewrite <- Hpp at 2. rewrite (Z.mul_comm (2^s)), Z.mul_mod_distr_r by lia.
  pose proof (Z.div_mod a0 (2^(64-s)) ltac:(lia)). nia.
Qed.

Lemma DDIVREM_spec a1 a0 b :
  0 <= a1 < b -> is_digit a0 -> b < β ->
  DDIVREM a1 a0 b = ((a1 * β + a0) / b, (a1 * β + a0) mod b).
Proof.
  intros Ha1 Ha0 Hb.
  destruct (D2PF_spec b ltac:(lia)) as [Hs Hv].
  unfold DDIVREM. set (s := D2PF b) in *. clearbody s.
  assert (Hps : 0 < 2^s) by (apply Z.pow_pos_nonneg; lia).
  destruct (shift_double a1 a0 b s ltac:(lia) ltac:(lia) ltac:(lia) ltac:(lia)) as [EN Hun].
  set (un32 := Z.lor _ _) in *. clearbody un32. cbv zeta.
  replace (wshl b s) with (b * 2^s) by (unfold wshl; rewrite Z.shiftl_mul_pow2, w64_id by lia; reflexivity).
  set (v := b * 2^s) in *.
  pose proof (wshl_range a0 s) as Hun10. set (un10 := wshl a0 s) in *. clearbody un10.
  unfold half. rewrite !land_LO, !wshr_32, !Z.mod_mod by lia.
  rewrite !(Z.mod_small (_ / 2^32)) by lia.
  pose proof (Z.div_mod v (2^32) ltac:(lia)) as Ev. pose proof (Z.div_mod un10 (2^32) ltac:(lia)) as Eu.
  assert (Hv1 : 2^31 <= v / 2^32 < 2^32) by lia. assert (Hv0 : 0 <= v mod 2^32 < 2^32) by lia.
  assert (Hu1 : 0 <= un10 / 2^32 < 2^32) by lia. assert (Hu0 : 0 <= un10 mod 2^32 < 2^32) by lia.
  set (v1 := v / 2^32) in *. set (v0 := v mod 2^32) in *.
  set (u1 := un10 / 2^32) in *. set (u0 := un10 mod 2^32) in *.
  assert (Ev' : v = v1 * 2^32 + v0) by lia.
  destruct (ddiv_half un32 v1 v0 u1 Hv1 Hv0 Hu1 ltac:(lia)) as (E1 & R1 & Q1).
  rewrite <- Ev' in *. rewrite R1.
  set (q1 := ddiv_adjust _ _ _ _ _ u1) in *. clearbody q1.
  pose proof (Z.div_mod (un32 * 2^32 + u1) v ltac:(lia)) as D1.
  pose proof (Z.mod_pos_bound (un32 * 2^32 + u1) v ltac:(lia)) as M1.
  set (un21 := (un32 * 2^32 + u1) mod v) in *.
  destruct (ddiv_half un21 v1 v0 u0 Hv1 Hv0 Hu0 ltac:(lia)) as (E0 & R0 & Q0).
  rewrite <- Ev' in *. rewrite R0.
  set (q0 := ddiv_adjust _ _ _ _ _ u0) in *. clearbody q0.
  pose proof (Z.div_mod (un21 * 2^32 + u0) v ltac:(lia)) as D0.
  pose proof (Z.mod_pos_bound (un21 * 2^32 + u0) v ltac:(lia)) as M0.
  set (rr := (un21 * 2^32 + u0) mod v) in *.
  rewrite wshl_32. unfold wadd. rewrite (Z.mod_small (q1 * _)), w64_id by lia.
  rewrite <- E1 in D1. rewrite <- E0 in D0.
  assert (EV : (a1 * β + a0) * 2^s = (b * 2^s) * (q1 * 2^32 + q0) + rr) by (fold v; lia).
  unfold wshr. rewrite Z.shiftr_div_pow2 by lia.
  assert (Hmod : rr = ((a1 * β + a0) mod b) * 2^s).
  { rewrite <- Z.mul_mod_distr_r by lia. apply Z.mod_unique with (q := q1 * 2^32 + q0); lia. }
  assert (Hdiv : q1 * 2^32 + q0 = (a1 * β + a0) / b).
  { rewrite <- (Z.div_mul_cancel_r _ b (2^s)) by lia. apply Z.div_unique with (r := rr); lia. }
  rewrite <- Hdiv, Hmod, Z.div_mul by lia. reflexivity.
Qed.
