(* ===== verification/BigNat.v ===== *)
(** Digit vectors (least significant digit first, as in memory): comparison, addition and
    subtraction of big.c, with the value [val] of a vector and the property [normal] (no leading
    zero digit). *)

From S2P Require Import Prelude Digits DigitDiv.

Definition digits (xs : list Z) : Prop := Forall (fun d => is_digit d) xs.
Fixpoint val (xs : list Z) : Z :=
  match xs with [] => 0 | d :: xs => d + β * val xs end.
Definition normal (xs : list Z) : Prop := xs <> [] /\ (length xs = 1%nat \/ last xs 0 <> 0).

(** The loop of [I_comp], on the digits listed from the most significant. *)
Fixpoint I_comp_high (x y : list Z) : Z :=
  match x, y with
  | a :: x, b :: y => if a =? b then I_comp_high x y else if a <? b then -1 else 1
  | _, _ => 0
  end.
(** [I_comp]: compare two digit vectors. *)
Definition I_comp (x y : list Z) : Z :=
  if (length x <? length y)%nat then -1
  else if (length y <? length x)%nat then 1
  else I_comp_high (rev x) (rev y).

(** The carry loop shared by [D_add] and the tail of [I_add]. *)
Fixpoint D_add_loop (x : list Z) (c : Z) : list Z :=
  match x with
  | [] => if c =? 0 then [] else [1]
  | xd :: x => let xr := wadd xd c in xr :: D_add_loop x (b2z (xr <? c))
  end.
(** The loop of [I_add] over the digits of the shorter operand, then the carry loop. *)
Fixpoint I_add_loop (x y : list Z) (c : Z) : list Z :=
  match x, y with
  | xd :: x, yd :: y =>
      let xr := wadd xd c in
      let c := b2z (xr <? c) in
      let xr := wadd yd xr in
      let c := wadd c (b2z (xr <? yd)) in
      xr :: I_add_loop x y c
  | x, _ => D_add_loop x c
  end.
(** [I_add]: sum of two digit vectors, the first one at least as long. *)
Definition I_add (x y : list Z) : list Z := I_add_loop x y 0.
(** [D_add]: add one digit to a digit vector. *)
Definition D_add (x : list Z) (c : Z) : list Z := D_add_loop x c.

(** Remove the high zero digits. *)
Fixpoint drop_high (xs : list Z) : list Z :=
  match xs with
  | [] => []
  | d :: xs => match drop_high xs with
               | [] => if d =? 0 then [] else [d]
               | t => d :: t
               end
  end.
(** The loop that ends every subtraction: high zero digits are removed, one digit is always kept. *)
Definition trim (xs : list Z) : list Z :=
  match drop_high xs with [] => firstn 1 xs | t => t end.

(** The borrow loop shared by [D_sub] and the tail of [I_sub]. *)
Fixpoint D_sub_loop (x : list Z) (c : Z) : list Z :=
  match x with
  | [] => []
  | xr :: x => let yr := wsub xr c in yr :: D_sub_loop x (b2z (yr >? xr))
  end.
(** The loops of [I_sub]. *)
Fixpoint I_sub_loop (x y : list Z) (c : Z) : list Z :=
  match x, y with
  | xr :: x, yd :: y =>
      let yr := wadd yd c in
      let c := b2z (yr <? c) in
      let yr := wsub xr yr in
      let c := wadd c (b2z (yr >? xr)) in
      yr :: I_sub_loop x y c
  | x, _ => D_sub_loop x c
  end.
(** [I_sub]: difference of two digit vectors, the first one at least as large. *)
Definition I_sub (x y : list Z) : list Z := trim (I_sub_loop x y 0).
(** [D_sub]: subtract one digit. *)
Definition D_sub (x : list Z) (c : Z) : list Z := trim (D_sub_loop x c).

(** The loop of [Z_sub]. *)
Fixpoint Z_sub_loop (y : list Z) (c : Z) : list Z :=
  match y with
  | [] => []
  | yd :: y =>
      let yr := wadd yd c in
      let c := b2z (yr <? c) in
      let yr := wsub 0 yr in
      let c := wadd c (b2z (yr >? 0)) in
      yr :: Z_sub_loop y c
  end.
(** [Z_sub]: 0 - y modulo the length of y. *)
Definition Z_sub (y : list Z) : list Z := trim (Z_sub_loop y 0).

Lemma digits_cons d xs : digits (d :: xs) <-> is_digit d /\ digits xs.
Proof. apply Forall_cons_iff. Qed.
Lemma digits_app xs ys : digits (xs ++ ys) <-> digits xs /\ digits ys.
Proof. apply Forall_app. Qed.

Lemma digits_rev xs : digits xs -> digits (rev xs).
Proof. apply Forall_rev. Qed.

Lemma pow_pos n : 0 < β ^ Z.of_nat n.
Proof. apply Z.pow_pos_nonneg; lia. Qed.
Lemma pow_S n : β ^ Z.of_nat (S n) = β * β ^ Z.of_nat n.
Proof. rewrite Nat2Z.inj_succ, Z.pow_succ_r by lia. reflexivity. Qed.

Lemma val_bound xs : digits xs -> 0 <= val xs < β ^ Z.of_nat (length xs).
Proof.
  induction 1 as [|d xs Hd _ IH]; [simpl; lia|]; cbv beta in *.
  cbn [val length]. rewrite pow_S. lia.
Qed.
Lemma val_app xs ys : val (xs ++ ys) = val xs + β ^ Z.of_nat (length xs) * val ys.
Proof.
  induction xs as [|d xs IH]; cbn [app length val]; [change (Z.of_nat 0) with 0; rewrite Z.pow_0_r; ring|].
  rewrite IH, pow_S. ring.
Qed.

Lemma I_comp_high_spec x y :
  digits x -> digits y -> length x = length y ->
  I_comp_high x y = match val (rev x) ?= val (rev y) with Lt => -1 | Eq => 0 | Gt => 1 end.
Proof.
  intros Hx; revert y. induction Hx as [|a x Ha Hx IH]; cbv beta in *; intros y Hy Hl;
    destruct y as [|b y]; try discriminate; [reflexivity|].
  apply digits_cons in Hy as [Hb Hy]. simpl in Hl. injection Hl as Hl.
  cbn [I_comp_high rev]. rewrite IH by auto. rewrite !val_app, !length_rev, Hl. simpl val.
  pose proof (val_bound (rev x) (Forall_rev Hx)) as Bx.
  pose proof (val_bound (rev y) (Forall_rev Hy)) as By.
  rewrite length_rev in *. rewrite Hl in Bx. pose proof (pow_pos (length y)) as Hp.
  set (P := β ^ Z.of_nat (length y)) in *.
  destruct (Z.eqb_spec a b) as [->|Hne].
  - now rewrite !(Z.add_comm (val (rev _))), Z.add_compare_mono_l.
  - destruct (Z.ltb_spec a b);
    match goal with |- context [?u ?= ?v] => destruct (Z.compare_spec u v) end; nia.
Qed.

Lemma last_app_val xs d : last xs d <> 0 -> xs <> [] -> digits xs ->
  β ^ (Z.of_nat (length xs) - 1) <= val xs.
Proof.
  intros Hl Hne Hd. destruct (exists_last Hne) as (ys & e & ->).
  rewrite last_last in Hl. apply digits_app in Hd as [Hys He].
  rewrite val_app, length_app. simpl length. replace (Z.of_nat (length ys + 1) - 1) with (Z.of_nat (length ys)) by lia.
  pose proof (val_bound ys Hys). apply digits_cons in He as [He _]. simpl. nia.
Qed.

Lemma I_comp_spec x y : digits x -> digits y -> normal x -> normal y ->
  I_comp x y = match val x ?= val y with Lt => -1 | Eq => 0 | Gt => 1 end.
Proof.
  assert (Hlen : forall x y, digits x -> digits y -> normal y -> (0 < length x < length y)%nat -> val x < val y).
  { clear. intros x y Hx Hy [Hne Hn] Hl. destruct Hn as [Hn|Hn]; [lia|].
    pose proof (last_app_val y 0 Hn Hne Hy). pose proof (val_bound x Hx).
    assert (β ^ Z.of_nat (length x) <= β ^ (Z.of_nat (length y) - 1)) by (apply Z.pow_le_mono_r; lia). lia. }
  intros Hx Hy Nx Ny. unfold I_comp.
  assert (forall z, normal z -> (0 < length z)%nat) as Hpos by (intros [|] [? _]; simpl; try lia; congruence).
  pose proof (Hpos x Nx). pose proof (Hpos y Ny).
  destruct (Nat.ltb_spec (length x) (length y)).
  - assert (val x < val y) by (apply Hlen; auto; lia). now rewrite (proj2 (Z.compare_lt_iff _ _)).
  - destruct (Nat.ltb_spec (length y) (length x)).
    + assert (val y < val x) by (apply Hlen; auto; lia). now rewrite (proj2 (Z.compare_gt_iff _ _)).
    + rewrite I_comp_high_spec, !rev_involutive; rewrite ?length_rev; auto using digits_rev; lia.
Qed.

Lemma digits_firstn n x : digits x -> digits (firstn n x).
Proof. intros H. rewrite <- (firstn_skipn n x) in H. now apply digits_app in H. Qed.
Lemma digits_skipn n x : digits x -> digits (skipn n x).
Proof. intros H. rewrite <- (firstn_skipn n x) in H. now apply digits_app in H. Qed.
Lemma digits_nil : digits [].
Proof. constructor. Qed.
Create HintDb bignat.
#[export] Hint Resolve digits_nil : bignat.
#[export] Hint Resolve digits_firstn digits_skipn : bignat.
#[export] Hint Rewrite digits_cons digits_app : bignat.

(** Addition *)
Lemma D_add_loop_spec x c : digits x -> is_digit c ->
  (x <> [] \/ c <= 1) ->
  val (D_add_loop x c) = val x + c /\ digits (D_add_loop x c).
Proof.
  intros Hx; revert c; induction Hx as [|d x Hd Hx IH]; cbv beta in *; intros c Hc Hs; cbn [D_add_loop].
  - destruct (Z.eqb_spec c 0); simpl; rewrite ?digits_cons; splits; auto with bignat; destruct Hs; try congruence; lia.
  - set (c' := b2z (wadd d c <? c)).
    assert (Ec : wadd d c + β * c' = d + c /\ is_digit (wadd d c) /\ 0 <= c' <= 1) by (subst c'; wsolve).
    destruct (IH c' ltac:(lia) ltac:(right; lia)) as [E1 E2].
    cbn [val]. rewrite digits_cons, E1. splits; try tauto; lia.
Qed.

Lemma I_add_loop_spec x y c : digits x -> digits y -> (length y <= length x)%nat -> 0 <= c <= 1 ->
  val (I_add_loop x y c) = val x + val y + c /\ digits (I_add_loop x y c).
Proof.
  intros Hx; revert y c; induction Hx as [|d x Hd Hx IH]; cbv beta in *; intros y c Hy Hl Hc.
  - destruct y; [|simpl in Hl; lia]. simpl I_add_loop.
    destruct (D_add_loop_spec [] c ltac:(constructor) ltac:(lia) ltac:(right; lia)); simpl val in *; split; auto; lia.
  - destruct y as [|e y].
    + cbn [I_add_loop]. destruct (D_add_loop_spec (d :: x) c ltac:(constructor; auto) ltac:(lia) ltac:(right; lia)) as [E1 E2].
      rewrite E1. split; auto. simpl; lia.
    + apply digits_cons in Hy as [He Hy]. cbn [I_add_loop].
      set (c' := wadd (b2z (wadd d c <? c)) (b2z (wadd e (wadd d c) <? e))).
      assert (Ec : wadd e (wadd d c) + β * c' = d + e + c /\ is_digit (wadd e (wadd d c)) /\ 0 <= c' <= 1)
        by (subst c'; wsolve).
      destruct (IH y c' Hy ltac:(simpl in Hl; lia) ltac:(lia)) as [E1 E2].
      cbn [val]. rewrite digits_cons, E1. splits; try tauto; lia.
Qed.

(** Trimming *)
Lemma drop_high_spec x : digits x ->
  val (drop_high x) = val x /\ digits (drop_high x) /\ (drop_high x = [] \/ last (drop_high x) 0 <> 0).
Proof.
  induction 1 as [|d x Hd Hx IH]; cbv beta in *; [simpl; auto using digits_nil|].
  destruct IH as (E & D & L). cbn [drop_high]. destruct (drop_high x) as [|e t].
  - cbn [val] in *. destruct (Z.eqb_spec d 0); cbn [val last]; rewrite ?digits_cons; splits; auto with bignat; lia.
  - cbn [val] in *. rewrite digits_cons. splits; try tauto; [lia|].
    right. destruct L as [|L]; [discriminate|]. exact L.
Qed.

Lemma trim_spec x : digits x -> x <> [] ->
  val (trim x) = val x /\ digits (trim x) /\ normal (trim x).
Proof.
  intros Hx Hne. destruct (drop_high_spec x Hx) as (E & D & L). unfold trim, normal.
  destruct (drop_high x) as [|e t].
  - destruct x as [|d x]; [congruence|]. apply digits_cons in Hx as [Hd Hx].
    simpl in E. pose proof (val_bound x Hx).
    simpl. rewrite digits_cons. splits; auto using digits_nil; try lia; congruence.
  - destruct L as [|L]; [discriminate|]. splits; auto. congruence.
Qed.

Lemma D_sub_loop_spec x c : digits x -> is_digit c -> c <= val x ->
  val (D_sub_loop x c) = val x - c /\ digits (D_sub_loop x c) /\ length (D_sub_loop x c) = length x.
Proof.
  intros Hx; revert c; induction Hx as [|d x Hd Hx IH]; cbv beta in *; intros c Hc Hs; cbn [D_sub_loop].
  - simpl in *. splits; auto with bignat. lia.
  - set (c' := b2z (wsub d c >? d)).
    assert (Ec : wsub d c = d - c + β * c' /\ is_digit (wsub d c) /\ 0 <= c' <= 1) by (subst c'; wsolve).
    cbn [val] in Hs. pose proof (val_bound x Hx).
    destruct (IH c' ltac:(lia) ltac:(lia)) as (E1 & E2 & E3).
    cbn [val length]. rewrite digits_cons, E1, E3. splits; try tauto; lia.
Qed.

Lemma I_sub_loop_spec x y c : digits x -> digits y -> (length y <= length x)%nat -> 0 <= c <= 1 ->
  val y + c <= val x ->
  val (I_sub_loop x y c) = val x - val y - c /\ digits (I_sub_loop x y c) /\
  length (I_sub_loop x y c) = length x.
Proof.
  intros Hx; revert y c; induction Hx as [|d x Hd Hx IH]; cbv beta in *; intros y c Hy Hl Hc Hs.
  - destruct y; [|simpl in Hl; lia]. simpl in *. splits; auto with bignat; lia.
  - destruct y as [|e y].
    + cbn [I_sub_loop]. destruct (D_sub_loop_spec (d :: x) c ltac:(constructor; auto) ltac:(lia) ltac:(simpl in *; lia)) as (E1 & E2 & E3).
      rewrite E1, E3. splits; auto. simpl; lia.
    + apply digits_cons in Hy as [He Hy]. cbn [I_sub_loop].
      set (c' := wadd (b2z (wadd e c <? c)) (b2z (wsub d (wadd e c) >? d))).
      assert (Ec : wsub d (wadd e c) = d - e - c + β * c' /\ is_digit (wsub d (wadd e c)) /\ 0 <= c' <= 1)
        by (subst c'; wsolve).
      cbn [val] in Hs. pose proof (val_bound x Hx). pose proof (val_bound y Hy).
      destruct (IH y c' Hy ltac:(simpl in Hl; lia) ltac:(lia) ltac:(lia)) as (E1 & E2 & E3).
      cbn [val length]. rewrite digits_cons, E1, E3. splits; try tauto; lia.
Qed.

Lemma Z_sub_loop_spec y c : digits y -> 0 <= c <= 1 ->
  exists b, 0 <= b <= 1 /\ val (Z_sub_loop y c) = b * β ^ Z.of_nat (length y) - val y - c /\
  digits (Z_sub_loop y c) /\ length (Z_sub_loop y c) = length y.
Proof.
  intros Hy; revert c; induction Hy as [|d y Hd Hy IH]; cbv beta in *; intros c Hc; cbn [Z_sub_loop].
  - exists c. simpl. splits; auto with bignat; try lia.
  - set (c' := wadd (b2z (wadd d c <? c)) (b2z (wsub 0 (wadd d c) >? 0))).
    assert (Ec : wsub 0 (wadd d c) = β * c' - d - c /\ is_digit (wsub 0 (wadd d c)) /\ 0 <= c' <= 1)
      by (subst c'; wsolve).
    destruct (IH c' ltac:(lia)) as (b & Hb & E1 & E2 & E3). exists b.
    cbn [val length]. rewrite digits_cons, E1, E3, pow_S. splits; try tauto; lia.
Qed.
