(* ===== verification/BigMul.v ===== *)
(** Multiplication and squaring of digit vectors ([I_mul], [I_sqr]). The result vector is part
    of the state, since the C code relies on its low digits being zeroed and overwrites the others.
    *)

From S2P Require Import Prelude Digits DigitDiv BigNat.

(** [DMUL]: the two-digit product. *)
Definition DMUL (a b : Z) : Z * Z := DMULc a b 0.

(** One row of the schoolbook product. *)
Fixpoint mul_row (d : Z) (y r : list Z) (cp c : Z) : list Z :=
  match y, r with
  | yd :: y, rd :: r =>
      match d with
      | 1 => let '(c, p) := DSUMc yd rd c in p :: mul_row d y r cp c
      | 2 => let '(cp, p) := DSUMc yd yd cp in
             let '(c, p) := DSUMc p rd c in p :: mul_row d y r cp c
      | _ => let '(cp, p) := DMULc d yd cp in
             let '(c, p) := DSUMc p rd c in p :: mul_row d y r cp c
      end
  | [], _ :: r => wadd c cp :: r
  | _, [] => []
  end.

(** One turn of the outer loop of [I_mul], with the case of a zero digit. *)
Definition mul_digit (d : Z) (y r : list Z) : list Z :=
  match d with
  | 0 => firstn (length y) r ++ 0 :: skipn (S (length y)) r
  | _ => mul_row d y r 0 0
  end.

(** The outer loop of [I_mul]: the result pointer advances by one digit per row. *)
Fixpoint I_mul_loop (x y r : list Z) : list Z :=
  match x with
  | [] => r
  | d :: x => match mul_digit d y r with
              | [] => []
              | lo :: r => lo :: I_mul_loop x y r
              end
  end.

(** [I_mul]: product into the zeroed vector r. *)
Definition I_mul (x y r : list Z) : list Z :=
  let r := I_mul_loop x y r in
  let rt := (length x + length y - 1)%nat in
  if nth rt r 0 =? 0 then firstn rt r else firstn (S rt) r.

Lemma mul_row_spec d y r cp c :
  is_digit d -> d <> 0 -> digits y -> digits (firstn (length y) r) -> (length y < length r)%nat ->
  is_digit cp -> is_digit c -> c <= 2 -> (d = 1 -> cp = 0) ->
  d * val y + val (firstn (length y) r) + c + cp < β * β ^ Z.of_nat (length y) ->
  let r' := mul_row d y r cp c in
  val (firstn (S (length y)) r') = d * val y + val (firstn (length y) r) + c + cp /\
  digits (firstn (S (length y)) r') /\ length r' = length r /\
  skipn (S (length y)) r' = skipn (S (length y)) r.
Proof.
  intros Hd Hd0 Hy. revert r cp c. induction Hy as [|yd y Hyd Hy IH]; cbv beta in *; intros r cp c Hr Hl Hcp Hc Hc2 H1 Hb.
  - destruct r as [|rd r]; [simpl in Hl; lia|]. cbn [length mul_row firstn skipn val] in *.
    rewrite Z.pow_0_r in Hb. unfold wadd. rewrite w64_id by lia.
    splits; auto with bignat; [lia|]. rewrite digits_cons. split; auto with bignat. lia.
  - destruct r as [|rd r]; [simpl in Hl; lia|]. cbn [length] in *. cbn [firstn] in Hr, Hb.
    apply digits_cons in Hr as [Hrd Hr]. cbn [val] in Hb. rewrite pow_S in Hb.
    pose proof (val_bound y Hy). pose proof (val_bound _ Hr).
    assert (Hstep : exists cp' c' p, mul_row d (yd :: y) (rd :: r) cp c = p :: mul_row d y r cp' c' /\
       is_digit cp' /\ 0 <= c' <= 2 /\ is_digit p /\ (d = 1 -> cp' = 0) /\
       p + β * (cp' + c') = d * yd + rd + c + cp).
    { cbn [mul_row].
      destruct d as [|[q|q|]|q]; try lia; try destruct q;
      try (match goal with |- context [DMULc ?a ?b ?c] => 
          pose proof (DMULc_spec a b c ltac:(lia) ltac:(lia) ltac:(lia)) as S1; destruct (DMULc a b c) as [cp' p0] end);
      repeat (match goal with |- context [DSUMc ?a ?b ?c] => 
          let S2 := fresh "HS" in
          pose proof (DSUMc_spec a b c ltac:(lia) ltac:(lia) ltac:(lia)) as S2; destruct (DSUMc a b c) as [? ?] end);
      do 3 eexists; split; try reflexivity; lia. }
    destruct Hstep as (cp' & c' & p & -> & Hcp' & Hc' & Hp & H1' & E).
    destruct (IH r cp' c' Hr ltac:(lia) Hcp' ltac:(lia) ltac:(lia) H1') as (E1 & E2 & E3 & E4).
    { pose proof (pow_pos (length y)). set (P := β ^ Z.of_nat (length y)) in *.
      set (V := val y) in *. clearbody V P. nia. }
    cbv zeta. rewrite !firstn_cons, !skipn_cons. cbn [val length]. rewrite digits_cons, E1, E3, E4.
    splits; auto; lia.
Qed.

Lemma mul_digit_spec d y r :
  is_digit d -> digits y -> digits (firstn (length y) r) -> (length y < length r)%nat ->
  let r' := mul_digit d y r in
  val (firstn (S (length y)) r') = d * val y + val (firstn (length y) r) /\
  digits (firstn (S (length y)) r') /\ length r' = length r.
Proof.
  intros Hd Hy Hr Hl. unfold mul_digit.
  pose proof (val_bound y Hy). pose proof (val_bound _ Hr) as Hb. rewrite firstn_length_le in Hb by lia.
  destruct d as [|q|q]; [| |lia].
  - cbv zeta. replace (S (length y)) with (length (firstn (length y) r) + 1)%nat at 1 3
      by (rewrite firstn_length_le; lia).
    rewrite !firstn_app_2. cbn [firstn]. rewrite val_app, digits_app, digits_cons. cbn [val].
    splits; auto with bignat; try lia.
    rewrite length_app, firstn_length_le by lia. cbn [length]. rewrite length_skipn. lia.
  - destruct (mul_row_spec (Zpos q) y r 0 0) as (E1 & E2 & E3 & _); auto; try lia.
    { set (P := β ^ Z.of_nat (length y)) in *. set (V := val y) in *. clearbody V P. nia. }
    cbv zeta. rewrite E1. splits; auto. lia.
Qed.

Lemma I_mul_loop_spec x y r :
  digits x -> digits y -> (0 < length y)%nat -> digits (firstn (length y) r) ->
  (length x + length y <= length r)%nat ->
  let r' := I_mul_loop x y r in
  let n := (length x + length y)%nat in
  val (firstn n r') = val x * val y + val (firstn (length y) r) /\
  digits (firstn n r') /\ length r' = length r.
Proof.
  intros Hx Hy Hly. revert r. induction Hx as [|d x Hd Hx IH]; cbv beta in *; intros r Hr Hl.
  - cbn [I_mul_loop length Nat.add val]. cbv zeta. splits; auto.
  - cbn [I_mul_loop length] in *.
    destruct (mul_digit_spec d y r Hd Hy Hr ltac:(lia)) as (E1 & E2 & E3). cbv zeta in *.
    destruct (mul_digit d y r) as [|lo r']; [cbn [length] in E3; lia|].
    cbn [firstn val length] in E1, E2, E3. apply digits_cons in E2 as [Hlo Hr'].
    destruct (IH r' Hr' ltac:(lia)) as (F1 & F2 & F3).
    cbn [Nat.add firstn val length]. rewrite digits_cons, F1, F3. splits; auto; lia.
Qed.

(** The most significant of [n] digits, dropped when it is zero. *)
Lemma drop_top_spec n r : digits (firstn (S n) r) -> (n < length r)%nat -> (0 < n)%nat ->
  β ^ Z.of_nat (n - 1) <= val (firstn (S n) r) \/ n = 1%nat ->
  let r' := if nth n r 0 =? 0 then firstn n r else firstn (S n) r in
  val r' = val (firstn (S n) r) /\ digits r' /\ normal r'.
Proof.
  intros Hd Hl Hn Hlow r'.
  assert (Es : firstn (S n) r = firstn n r ++ [nth n r 0]).
  { clear -Hl. revert r Hl. induction n as [|n IH]; intros [|a r] Hl; cbn [length] in Hl; try lia; [reflexivity|].
    cbn [firstn nth app] in *. f_equal. apply IH. lia. }
  assert (Hn0 : firstn n r <> []) by (intros E; apply (f_equal (@length Z)) in E; rewrite firstn_length_le in E; cbn in E; lia).
  unfold r'. rewrite Es in *. apply digits_app in Hd as [Hd1 Hd2]. apply digits_cons in Hd2 as [Hd2 _].
  rewrite val_app in *. cbn [val] in *. rewrite firstn_length_le in * by lia.
  destruct (Z.eqb_spec (nth n r 0) 0) as [E|E].
  - rewrite E in *. split; [lia|]. split; auto. split; auto.
    destruct Hlow as [Hlow| ->]; [|left; rewrite firstn_length_le; lia].
    destruct (exists_last Hn0) as (t & e & Et). rewrite Et, length_app, last_last in *.
    destruct t as [|t0 t]; [left; reflexivity|]. right. intros ->.
    apply digits_app in Hd1 as [Hd1 _]. pose proof (val_bound _ Hd1). rewrite val_app in Hlow.
    change (val [0]) with 0 in Hlow.
    assert (length (t0 :: t) = (n - 1)%nat).
    { apply (f_equal (@length Z)) in Et. rewrite firstn_length_le, length_app in Et by lia. cbn in *; lia. }
    rewrite H0 in *. lia.
  - rewrite val_app, digits_app, digits_cons. cbn [val]. rewrite firstn_length_le by lia.
    splits; auto with bignat; try lia. split.
    + intros F. apply app_eq_nil in F as [_ F]. discriminate.
    + right. rewrite last_last. exact E.
Qed.

Lemma normal_low x : digits x -> normal x -> val x <> 0 -> β ^ (Z.of_nat (length x) - 1) <= val x.
Proof.
  intros Hd [Hne [H|H]] Hv.
  - destruct x as [|d [|]]; cbn [length] in *; try lia. apply digits_cons in Hd as [Hd _].
    change (Z.of_nat 1 - 1) with 0. cbn [val] in *. rewrite Z.pow_0_r. lia.
  - apply last_app_val with (d := 0); auto.
Qed.


Lemma val_repeat0 n : val (repeat 0 n) = 0.
Proof. induction n; cbn [repeat val]; lia. Qed.
Lemma digits_repeat0 n : digits (repeat 0 n).
Proof. induction n; cbn [repeat]; [apply digits_nil | apply digits_cons; split; auto; lia]. Qed.

Lemma normal_len x : normal x -> (0 < length x)%nat.
Proof. intros [H _]. destruct x; [congruence | cbn; lia]. Qed.

Lemma I_mul_spec x y r :
  digits x -> digits y -> normal x -> normal y -> val x <> 0 -> val y <> 0 ->
  firstn (length y) r = repeat 0 (length y) -> (length x + length y <= length r)%nat ->
  val (I_mul x y r) = val x * val y /\ digits (I_mul x y r) /\ normal (I_mul x y r).
Proof.
  intros Hx Hy Nx Ny Vx Vy Hr Hl. pose proof (normal_len x Nx). pose proof (normal_len y Ny).
  destruct (I_mul_loop_spec x y r) as (E1 & E2 & E3); auto.
  { rewrite Hr. apply digits_repeat0. }
  unfold I_mul. rewrite Hr, val_repeat0 in E1. cbv zeta in *.
  set (r' := I_mul_loop x y r) in *. set (n := (length x + length y - 1)%nat).
  replace (length x + length y)%nat with (S n) in * by lia.
  pose proof (normal_low x Hx Nx Vx). pose proof (normal_low y Hy Ny Vy).
  destruct (drop_top_spec n r' E2 ltac:(lia) ltac:(lia)) as (F1 & F2 & F3).
  { left. rewrite E1, Z.add_0_r.
    replace (Z.of_nat (n - 1)) with ((Z.of_nat (length x) - 1) + (Z.of_nat (length y) - 1)) by lia.
    rewrite Z.pow_add_r by lia. apply Z.mul_le_mono_nonneg; auto; apply Z.pow_nonneg; lia. }
  cbv zeta in *. rewrite F1, E1. splits; auto; lia.
Qed.

(** The inner loop of [I_sqr] and the carries stored after it. *)
Fixpoint sqr_inner (more : bool) (d : Z) (y r : list Z) (z1 y0 y1 y2 y3 : Z) : list Z :=
  match y, r with
  | yd :: y, rd :: r =>
      let '(b1, b0) := DMUL d yd in
      let '(y0, z0) := DSUMc b0 b0 y0 in
      let '(y2, z2) := DSUMc z0 z1 y2 in
      let '(y3, t) := DSUMc rd z2 y3 in
      let '(y1, z1) := DSUMc b1 b1 y1 in
      t :: sqr_inner more d y r z1 y0 y1 y2 y3
  | [], rd :: r =>
      let z0 := y0 in
      let '(y2, z2) := DSUMc z0 z1 y2 in
      let '(y3, t) := DSUMc rd z2 y3 in
      t :: (if more then match r with
                         | [] => []
                         | _ :: r => wadd (wadd y1 y2) y3 :: r
                         end
            else r)
  | _, [] => []
  end.

(** One turn of the outer loop of [I_sqr]. *)
Definition sqr_digit (d : Z) (x r : list Z) : list Z :=
  match r with
  | [] => []
  | rd :: r =>
      let '(b1, b0) := DMUL d d in
      let '(y3, t) := DSUMc rd b0 0 in
      t :: sqr_inner (negb (length x =? 0)%nat) d x r b1 0 0 0 y3
  end.

(** The outer loop of [I_sqr]: the result pointer advances by two digits. *)
Fixpoint I_sqr_loop (x r : list Z) : list Z :=
  match x with
  | [] => r
  | d :: x => match sqr_digit d x r with
              | t0 :: t1 :: r => t0 :: t1 :: I_sqr_loop x r
              | r => r
              end
  end.

(** [I_sqr]: square into the zeroed vector r. *)
Definition I_sqr (x r : list Z) : list Z :=
  let r := I_sqr_loop x r in
  let s := (2 * length x - 1)%nat in
  if nth s r 0 =? 0 then firstn s r else firstn (S s) r.

Ltac dstep :=
  match goal with
  | |- context [DMUL ?a ?b] => unfold DMUL
  | |- context [DMULc ?a ?b ?c] =>
      let S1 := fresh "HS" in
      pose proof (DMULc_spec a b c ltac:(lia) ltac:(lia) ltac:(lia)) as S1; destruct (DMULc a b c) as [? ?]
  | |- context [DSUMc ?a ?b ?c] =>
      let S1 := fresh "HS" in
      pose proof (DSUMc_spec a b c ltac:(lia) ltac:(lia) ltac:(lia)) as S1; destruct (DSUMc a b c) as [? ?]
  | |- context [DSUBb ?a ?b ?c] =>
      let S1 := fresh "HS" in
      pose proof (DSUBb_spec a b c ltac:(lia) ltac:(lia) ltac:(lia)) as S1; destruct (DSUBb a b c) as [? ?]
  | |- context [DSUB ?a ?b] =>
      let S1 := fresh "HS" in
      pose proof (DSUB_spec a b ltac:(lia) ltac:(lia)) as S1; destruct (DSUB a b) as [? ?]
  end.

Lemma sqr_inner_spec (more : bool) d y r z1 y0 y1 y2 y3 :
  is_digit d -> digits y -> digits (firstn (S (length y)) r) ->
  (length y + (if more then 2 else 1) <= length r)%nat ->
  is_digit z1 -> 0 <= y0 <= 1 -> 0 <= y1 <= 1 -> 0 <= y2 <= 1 -> 0 <= y3 <= 1 ->
  exists t c, length t = S (length y) /\ digits t /\ 0 <= c <= 3 /\
    val t + β ^ Z.of_nat (S (length y)) * c =
      val (firstn (S (length y)) r) + 2 * d * val y + z1 + y0 + y2 + y3 + β * y1 /\
    sqr_inner more d y r z1 y0 y1 y2 y3 =
      t ++ (if more then c :: skipn (S (S (length y))) r else skipn (S (length y)) r).
Proof.
  intros Hd Hy. revert r z1 y0 y1 y2 y3.
  induction Hy as [|yd y Hyd Hy IH]; cbv beta in *; intros r z1 y0 y1 y2 y3 Hr Hl Hz H0 H1 H2 H3.
  - destruct r as [|rd r]; [destruct more; cbn in Hl; lia|]. cbn [length firstn] in *.
    apply digits_cons in Hr as [Hrd _]. cbn [sqr_inner]. repeat dstep.
    match goal with |- context [?t :: (if more then match r with _ => _ end else _)] => exists [t] end.
    exists (y1 + z + z2). cbn [length val skipn app]. rewrite digits_cons.
    change (Z.of_nat 1) with 1. rewrite Z.pow_1_r.
    splits; auto with bignat; try lia.
    f_equal. destruct more; [|reflexivity]. destruct r; [cbn in Hl; lia|].
    f_equal. unw. lia.
  - destruct r as [|rd r]; [destruct more; cbn in Hl; lia|]. cbn [length] in Hl.
    cbn [length] in Hr. rewrite firstn_cons in Hr. apply digits_cons in Hr as [Hrd Hr].
    cbn [sqr_inner]. repeat dstep.
    match goal with |- context [sqr_inner more d y r ?a ?b ?c ?e ?f] =>
      destruct (IH r a b c e f Hr ltac:(lia) ltac:(lia) ltac:(lia) ltac:(lia) ltac:(lia) ltac:(lia))
        as (t & k & E1 & E2 & E3 & E4 & ->) end.
    match goal with |- context [?a :: t ++ _] => exists (a :: t) end. exists k.
    cbn [length]. rewrite firstn_cons, !skipn_cons, digits_cons. cbn [val].
    rewrite (pow_S (S (length y))). splits; auto; lia.
Qed.

Lemma sqr_digit_spec d x r :
  is_digit d -> digits x -> digits (firstn (S (S (length x))) r) ->
  (length x + (if (length x =? 0)%nat then 2 else 3) <= length r)%nat ->
  exists t c, length t = S (S (length x)) /\ digits t /\ 0 <= c <= 3 /\
    val t + β ^ Z.of_nat (S (S (length x))) * c =
      val (firstn (S (S (length x))) r) + d * d + β * (2 * d * val x) /\
    sqr_digit d x r = t ++ (if (length x =? 0)%nat then skipn (S (S (length x))) r
                            else c :: skipn (S (S (S (length x)))) r).
Proof.
  intros Hd Hx Hr Hl. destruct r as [|rd r]; [destruct (length x =? 0)%nat; cbn in Hl; lia|].
  rewrite firstn_cons in *. apply digits_cons in Hr as [Hrd Hr]. cbn [length] in Hl.
  unfold sqr_digit. repeat dstep.
  match goal with |- context [sqr_inner ?m d x r ?a ?b ?c ?e ?f] =>
    destruct (sqr_inner_spec m d x r a b c e f Hd Hx Hr) as (t & k & E1 & E2 & E3 & E4 & ->) end; try lia.
  { destruct (length x =? 0)%nat; cbn [negb]; lia. }
  match goal with |- context [?a :: t ++ _] => exists (a :: t) end. exists k.
  cbn [length]. rewrite !skipn_cons, digits_cons. cbn [val]. rewrite (pow_S (S (length x))).
  splits; auto; try lia. destruct (length x =? 0)%nat; reflexivity.
Qed.

Lemma I_sqr_loop_spec x r :
  digits x -> x <> [] -> digits (firstn (S (length x)) r) -> (2 * length x <= length r)%nat ->
  val x * val x + val (firstn (S (length x)) r) < β ^ Z.of_nat (2 * length x) ->
  let r' := I_sqr_loop x r in
  let n := (2 * length x)%nat in
  val (firstn n r') = val x * val x + val (firstn (S (length x)) r) /\
  digits (firstn n r') /\ length r' = length r.
Proof.
  intros Hx. revert r. induction Hx as [|d x Hd Hx IH]; cbv beta in *; intros r Hne Hr Hl Hb; [congruence|].
  cbn [length] in *. cbn [I_sqr_loop].
  destruct (sqr_digit_spec d x r Hd Hx Hr) as (t & c & E1 & E2 & E3 & E4 & E5).
  { destruct x; cbn [length Nat.eqb] in *; lia. }
  destruct t as [|t0 [|t1 t]]; cbn [length] in E1; try lia.
  apply digits_cons in E2 as [Ht0 E2]. apply digits_cons in E2 as [Ht1 Ht].
  rewrite E5. cbn [app val] in *. pose proof (val_bound t Ht). pose proof (val_bound x Hx).
  replace (2 * S (length x))%nat with (S (S (2 * length x))) in * by lia.
  rewrite !pow_S in Hb.
  destruct x as [|d' x].
  - cbn [length Nat.eqb Nat.mul Nat.add I_sqr_loop] in *. destruct t; [|cbn in E1; lia].
    cbv zeta. cbn [app firstn val] in *. rewrite !digits_cons.
    rewrite !pow_S in E4. change (Z.of_nat 0) with 0 in *. rewrite !Z.pow_0_r in *.
    rewrite length_skipn. cbn [length].
    assert (c = 0) by lia. subst c. splits; auto with bignat; lia.
  - assert (Hne' : d' :: x <> []) by discriminate.
    assert (El : (length (d' :: x) =? 0)%nat = false) by reflexivity. rewrite El in *. clear El.
    assert (Hl' : (0 < length (d' :: x))%nat) by (cbn; lia).
    remember (d' :: x) as xx eqn:Exx. clear Exx.
    assert (Hlen : length t = length xx) by lia.
    assert (Hfs : firstn (S (length xx)) (t ++ c :: skipn (S (S (S (length xx)))) r) = t ++ [c]).
    { rewrite <- Hlen at 1. replace (S (length t)) with (length t + 1)%nat by lia.
      rewrite firstn_app_2. reflexivity. }
    assert (Hrow : val (t ++ [c]) = val t + β ^ Z.of_nat (length xx) * c)
      by (rewrite val_app, Hlen; cbn [val]; lia).
    rewrite !pow_S in E4.
    destruct (IH (t ++ c :: skipn (S (S (S (length xx)))) r)) as (F1 & F2 & F3).
    + exact Hne'.
    + rewrite Hfs, digits_app, digits_cons. splits; auto with bignat; lia.
    + rewrite length_app, Hlen. cbn [length]. rewrite length_skipn. lia.
    + rewrite Hfs, Hrow. nia.
    + cbv zeta in *. rewrite !firstn_cons, !digits_cons. cbn [val].
      rewrite F1, Hfs, Hrow. cbn [length]. rewrite F3, length_app, Hlen. cbn [length]. rewrite length_skipn.
      splits; auto; lia.
Qed.

Lemma I_sqr_spec x r :
  digits x -> normal x -> val x <> 0 ->
  firstn (S (length x)) r = repeat 0 (S (length x)) -> (2 * length x <= length r)%nat ->
  val (I_sqr x r) = val x * val x /\ digits (I_sqr x r) /\ normal (I_sqr x r).
Proof.
  intros Hx Nx Vx Hr Hl. pose proof (normal_len x Nx).
  destruct (I_sqr_loop_spec x r) as (E1 & E2 & E3); auto.
  { apply Nx. }
  { rewrite Hr. apply digits_repeat0. }
  { rewrite Hr, val_repeat0, Z.add_0_r. pose proof (val_bound x Hx).
    replace (Z.of_nat (2 * length x)) with (Z.of_nat (length x) + Z.of_nat (length x)) by lia.
    rewrite Z.pow_add_r by lia. nia. }
  unfold I_sqr. rewrite Hr, val_repeat0 in E1. cbv zeta in *.
  set (r' := I_sqr_loop x r) in *. set (n := (2 * length x - 1)%nat).
  replace (2 * length x)%nat with (S n) in * by lia.
  pose proof (normal_low x Hx Nx Vx).
  destruct (drop_top_spec n r' E2 ltac:(lia) ltac:(lia)) as (F1 & F2 & F3).
  { left. rewrite E1, Z.add_0_r.
    replace (Z.of_nat (n - 1)) with ((Z.of_nat (length x) - 1) + (Z.of_nat (length x) - 1)) by lia.
    rewrite Z.pow_add_r by lia. apply Z.mul_le_mono_nonneg; auto; apply Z.pow_nonneg; lia. }
  cbv zeta in *. rewrite F1, E1. splits; auto; lia.
Qed.

Lemma normal_of_low x : digits x -> x <> [] -> β ^ (Z.of_nat (length x) - 1) <= val x -> normal x.
Proof.
  intros Hd Hne Hlow. split; auto. destruct (exists_last Hne) as (t & e & ->).
  apply digits_app in Hd as [Ht _]. pose proof (val_bound t Ht).
  rewrite last_last, length_app, val_app in *. cbn [length val] in *.
  replace (Z.of_nat (length t + 1) - 1) with (Z.of_nat (length t)) in Hlow by lia.
  right. intros ->. lia.
Qed.
