(* ===== verification/BigDiv.v ===== *)
(** Multiplication, division and remainder by one digit ([D_mul], [D_div], [D_rem]). *)

From S2P Require Import Prelude Digits DigitDiv BigNat BigMul.

(** [D_mul] by 2. *)
Fixpoint D_mul_loop2 (x : list Z) (c : Z) : list Z :=
  match x with
  | [] => if c =? 0 then [] else [c]
  | p :: x => let '(c, p) := DSUMc p p c in p :: D_mul_loop2 x c
  end.
(** [D_mul] by any other digit. *)
Fixpoint D_mul_loop (d : Z) (x : list Z) (c : Z) : list Z :=
  match x with
  | [] => if c =? 0 then [] else [c]
  | xd :: x => let '(c, p) := DMULc d xd c in p :: D_mul_loop d x c
  end.
(** [D_mul]: multiply a digit vector with a digit. *)
Definition D_mul (x : list Z) (d : Z) : list Z :=
  match d with
  | 0 => [0]
  | 1 => x
  | 2 => D_mul_loop2 x 0
  | _ => D_mul_loop d x 0
  end.

Lemma D_mul_loop2_spec x c : digits x -> 0 <= c <= 1 ->
  exists t c', length t = length x /\ digits t /\ 0 <= c' <= 1 /\
    val t + β ^ Z.of_nat (length x) * c' = 2 * val x + c /\
    D_mul_loop2 x c = t ++ (if c' =? 0 then [] else [c']).
Proof.
  intros Hx; revert c; induction Hx as [|d x Hd Hx IH]; cbv beta in *; intros c Hc.
  - exists [], c. cbn. splits; auto with bignat; lia.
  - cbn [D_mul_loop2]. dstep.
    destruct (IH z ltac:(lia)) as (t & c' & E1 & E2 & E3 & E4 & ->).
    exists (z0 :: t), c'. cbn [length val]. rewrite digits_cons, pow_S. splits; auto; lia.
Qed.

Lemma D_mul_loop_spec d x c : digits x -> is_digit d -> is_digit c ->
  exists t c', length t = length x /\ digits t /\ is_digit c' /\
    val t + β ^ Z.of_nat (length x) * c' = d * val x + c /\
    D_mul_loop d x c = t ++ (if c' =? 0 then [] else [c']).
Proof.
  intros Hx Hdd; revert c; induction Hx as [|e x He Hx IH]; cbv beta in *; intros c Hc.
  - exists [], c. cbn. splits; auto with bignat; lia.
  - cbn [D_mul_loop]. dstep.
    destruct (IH z ltac:(lia)) as (t & c' & E1 & E2 & E3 & E4 & ->).
    exists (z0 :: t), c'. cbn [length val]. rewrite digits_cons, pow_S. splits; auto; lia.
Qed.

(** A digit string [t] followed by a carry that is dropped when it is zero. *)
Lemma carry_out_spec t c k x : digits t -> is_digit c -> normal x -> digits x -> length t = length x -> 1 <= k ->
  val t + β ^ Z.of_nat (length x) * c = k * val x ->
  let r := t ++ (if c =? 0 then [] else [c]) in
  val r = k * val x /\ digits r /\ normal r.
Proof.
  intros Ht Hc Nx Hx Hl Hk E. cbv zeta.
  assert (Hne : t <> []) by (intros ->; destruct Nx as [Hx0 _]; destruct x; cbn in Hl; congruence).
  destruct (Z.eqb_spec c 0) as [->|Hc0].
  - rewrite app_nil_r. splits; auto; [lia|].
    destruct Nx as [Hx0 [H1|H1]]; [split; auto; left; congruence|].
    apply normal_of_low; auto. rewrite Hl. pose proof (last_app_val x 0 H1 Hx0 Hx).
    pose proof (val_bound x Hx). nia.
  - rewrite val_app, digits_app, digits_cons. cbn [val]. rewrite Hl. splits; auto with bignat; try lia.
    split; [intros F; apply app_eq_nil in F as [_ F]; discriminate|].
    right. rewrite last_last. exact Hc0.
Qed.

Lemma D_mul_spec x d : digits x -> normal x -> is_digit d ->
  val (D_mul x d) = d * val x /\ digits (D_mul x d) /\ normal (D_mul x d).
Proof.
  intros Hx Nx Hd.
  assert (Hgen : d <> 0 -> let r := D_mul_loop d x 0 in val r = d * val x /\ digits r /\ normal r).
  { intros Hd0. destruct (D_mul_loop_spec d x 0 Hx Hd ltac:(lia)) as (t & c & E1 & E2 & E3 & E4 & E5).
    cbv zeta. rewrite E5. apply carry_out_spec with (x := x); auto; lia. }
  assert (H2 : let r := D_mul_loop2 x 0 in val r = 2 * val x /\ digits r /\ normal r).
  { destruct (D_mul_loop2_spec x 0 Hx ltac:(lia)) as (t & c & E1 & E2 & E3 & E4 & E5).
    cbv zeta. rewrite E5. apply carry_out_spec with (x := x); auto; lia. }
  unfold D_mul. destruct d as [|p|p]; [|destruct p as [p|p|]; [| destruct p | ] |lia];
    try (apply Hgen; lia); auto.
  - cbn [val]. rewrite digits_cons. splits; auto with bignat; try lia. split; [discriminate|left; reflexivity].
  - splits; auto. lia.
Qed.

(** One quotient digit of [D_div] and the partial remainder. *)
Definition D_div_step (d a1 a0 : Z) : Z * Z :=
  let q0 := fst (DDIVREM a1 a0 d) in
  let '(b1, b0) := DMUL d q0 in
  let '(b, a1) := DSUB a0 b0 in
  (q0, a1).

(** The loop of [D_div]; xp is listed from the most significant digit. *)
Fixpoint D_div_loop (fuel : nat) (d a1 : Z) (xp q : list Z) : list Z * Z :=
  match fuel with
  | O => (q, a1)
  | S fuel =>
      let '(a1, a0, xp) := if d >? a1 then (a1, hd 0 xp, tl xp) else (0, a1, xp) in
      let '(q0, a1) := D_div_step d a1 a0 in
      match xp with
      | [] => (q0 :: q, a1)
      | _ => D_div_loop fuel d a1 xp (q0 :: q)
      end
  end.

(** [D_div]: quotient and remainder by one digit. *)
Definition D_div (x : list Z) (d : Z) : list Z * Z :=
  match rev x with
  | [] => ([], 0)
  | a1 :: xp =>
      if (d >? a1) && (length x =? 1)%nat then ([0], a1)
      else D_div_loop (length x) d a1 xp []
  end.

(** [DREM]: remainder of a two-digit number by a digit. *)
Definition DREM (a1 a0 b : Z) : Z := snd (DDIVREM (a1 mod b) a0 b).
(** [D_rem]: remainder of a digit vector by a digit. *)
Definition D_rem (x : list Z) (d : Z) : Z :=
  fold_left (fun rem xd => if negb (rem =? 0) then DREM rem xd d else DREM 0 xd d) (rev x) 0.

Lemma D_div_step_spec d a1 a0 : 0 <= a1 < d -> is_digit a0 -> d < β ->
  D_div_step d a1 a0 = ((a1 * β + a0) / d, (a1 * β + a0) mod d).
Proof.
  intros. unfold D_div_step. rewrite DDIVREM_spec by lia. cbn [fst].
  pose proof (Z.div_mod (a1 * β + a0) d ltac:(lia)) as E.
  pose proof (Z.mod_pos_bound (a1 * β + a0) d ltac:(lia)) as M.
  assert (0 <= (a1 * β + a0) / d < β).
  { split; [apply Z.div_pos; lia | apply Z.div_lt_upper_bound; nia]. }
  set (q := (a1 * β + a0) / d) in *. set (r := (a1 * β + a0) mod d) in *. clearbody q r.
  repeat dstep. f_equal. lia.
Qed.

(** High-first digit lists, as the division loops walk them. *)
Lemma val_rev_cons a xp : val (rev (a :: xp)) = a * β ^ Z.of_nat (length xp) + val (rev xp).
Proof. cbn [rev]. rewrite val_app, length_rev. cbn [val]. lia. Qed.

Lemma D_div_loop_spec fuel d a1 xp q :
  0 <= a1 < d -> d < β -> digits xp -> digits q -> xp <> [] -> (length xp <= fuel)%nat ->
  let n := a1 * β ^ Z.of_nat (length xp) + val (rev xp) in
  exists t, D_div_loop fuel d a1 xp q = (t ++ q, n mod d) /\
    length t = length xp /\ digits t /\ val t = n / d.
Proof.
  revert a1 xp q. induction fuel as [|fuel IH]; intros a1 xp q Ha Hd Hxp Hq Hne Hf;
    destruct xp as [|a0 xp]; cbn [length] in Hf; try congruence; [lia|].
  apply digits_cons in Hxp as [Ha0 Hxp]. cbn [D_div_loop hd tl].
  rewrite Z.gtb_ltb. destruct (Z.ltb_spec a1 d); [|lia].
  rewrite D_div_step_spec by lia.
  pose proof (Z.div_mod (a1 * β + a0) d ltac:(lia)) as E.
  pose proof (Z.mod_pos_bound (a1 * β + a0) d ltac:(lia)) as M.
  assert (Hq0 : 0 <= (a1 * β + a0) / d < β).
  { split; [apply Z.div_pos; lia | apply Z.div_lt_upper_bound; nia]. }
  set (q0 := (a1 * β + a0) / d) in *. set (r := (a1 * β + a0) mod d) in *. clearbody q0 r.
  rewrite val_rev_cons. cbn [length]. rewrite pow_S.
  set (P := β ^ Z.of_nat (length xp)). pose proof (val_bound (rev xp) (digits_rev _ Hxp)) as Hv.
  rewrite length_rev in Hv. fold P in Hv.
  replace (a1 * (β * P) + (a0 * P + val (rev xp))) with (d * (q0 * P) + (r * P + val (rev xp)))
    by (replace (a1 * (β * P) + (a0 * P + val (rev xp))) with ((a1 * β + a0) * P + val (rev xp)) by ring; rewrite E; ring).
  cbv zeta. rewrite (Z.mul_comm d (q0 * P)), Z.add_comm, Z.mod_add, Z.div_add by lia.
  destruct xp as [|a0' xp].
  - exists [q0]. subst P. cbn [rev val length app] in *. change (Z.of_nat 0) with 0 in *. rewrite Z.pow_0_r in *.
    rewrite Z.mod_small, Z.div_small by lia. rewrite digits_cons. splits; auto with bignat; first [lia | f_equal; lia].
  - destruct (IH r (a0' :: xp) (q0 :: q) ltac:(lia) ltac:(lia) Hxp ltac:(apply digits_cons; auto) ltac:(discriminate) ltac:(lia))
      as (t & E1 & E2 & E3 & E4).
    fold P in E1, E4. exists (t ++ [q0]). rewrite E1, <- app_assoc. cbn [app].
    rewrite length_app, digits_app, digits_cons, val_app, E2, E4. fold P. cbn [length val].
    splits; auto with bignat; try lia. 
Qed.

Lemma D_div_loop_first fuel d a1 xp :
  d <= a1 -> 0 < d -> is_digit a1 -> digits xp -> (length xp < fuel)%nat ->
  let n := a1 * β ^ Z.of_nat (length xp) + val (rev xp) in
  exists q, D_div_loop fuel d a1 xp [] = (q, n mod d) /\
    length q = S (length xp) /\ digits q /\ val q = n / d.
Proof.
  intros Hle Hd Ha Hxp Hf. destruct fuel as [|fuel]; [lia|]. cbn [D_div_loop].
  rewrite Z.gtb_ltb. destruct (Z.ltb_spec a1 d); [lia|].
  rewrite D_div_step_spec by lia. rewrite Z.mul_0_l, Z.add_0_l.
  pose proof (Z.div_mod a1 d ltac:(lia)) as E. pose proof (Z.mod_pos_bound a1 d ltac:(lia)) as M.
  assert (Hq0 : 0 <= a1 / d < β) by (split; [apply Z.div_pos; lia | apply Z.div_lt_upper_bound; nia]).
  set (q0 := a1 / d) in *. set (r := a1 mod d) in *. clearbody q0 r.
  set (P := β ^ Z.of_nat (length xp)).
  replace (a1 * P + val (rev xp)) with ((r * P + val (rev xp)) + (q0 * P) * d) by (rewrite E; ring).
  cbv zeta. rewrite Z.mod_add, Z.div_add by lia.
  destruct xp as [|a0 xp].
  - exists [q0]. subst P. cbn [rev val length]. change (Z.of_nat 0) with 0. rewrite Z.pow_0_r.
    rewrite Z.mod_small, Z.div_small by lia. rewrite digits_cons. splits; auto with bignat; first [lia | f_equal; lia].
  - destruct (D_div_loop_spec fuel d r (a0 :: xp) [q0]) as (t & E1 & E2 & E3 & E4); try lia; auto.
    { rewrite digits_cons; auto with bignat. }
    { discriminate. }
    fold P in E1, E4. exists (t ++ [q0]). rewrite E1.
    rewrite length_app, digits_app, digits_cons, val_app, E2, E4. fold P. cbn [length val].
    splits; auto with bignat; lia.
Qed.

Lemma D_div_spec x d : digits x -> normal x -> 0 < d < β ->
  let '(q, r) := D_div x d in
  val q = val x / d /\ r = val x mod d /\ digits q /\ normal q.
Proof.
  intros Hx Nx Hd. unfold D_div. pose proof (normal_len x Nx).
  pose proof (digits_rev x Hx) as Hr.
  assert (Hlow : length x = 1%nat \/ β ^ (Z.of_nat (length x) - 1) <= val x).
  { destruct Nx as [Hne [H0|H0]]; auto. right. apply last_app_val with (d := 0); auto. }
  assert (Ev : val x = val (rev (rev x))) by (now rewrite rev_involutive).
  rewrite <- (length_rev x) in *.
  destruct (rev x) as [|a1 xp]; [cbn in *; lia|].
  rewrite Ev in *. clear Ev Hx Nx x. cbn [length] in *.
  apply digits_cons in Hr as [Ha1 Hxp]. rewrite val_rev_cons in *.
  pose proof (val_bound _ (digits_rev _ Hxp)) as Hv. rewrite length_rev in Hv.
  set (n := a1 * β ^ Z.of_nat (length xp) + val (rev xp)) in *.
  rewrite Z.gtb_ltb. destruct (Z.ltb_spec a1 d).
  - destruct xp as [|a0 xp].
    + cbn [length Nat.eqb andb rev val] in *. change (Z.of_nat 0) with 0 in *. rewrite Z.pow_0_r in *.
      rewrite Z.mod_small, Z.div_small by lia.
      rewrite digits_cons. splits; auto with bignat; try lia. split; [discriminate|left; reflexivity].
    + cbn [length Nat.eqb andb].
      destruct (D_div_loop_spec (S (S (length xp))) d a1 (a0 :: xp) []) as (t & -> & E2 & E3 & E4);
        try lia; auto with bignat; try discriminate; cbn [length] in *; try lia.
      rewrite app_nil_r. fold n in E4 |- *. splits; auto.
      apply normal_of_low; auto; [intros ->; discriminate|]. rewrite E4, E2.
      apply Z.div_le_lower_bound; [lia|].
      replace (Z.of_nat (S (length xp)) - 1) with (Z.of_nat (length xp)) by lia.
      destruct Hlow as [Hlow|Hlow]; [lia|].
      replace (Z.of_nat (S (S (length xp))) - 1) with (Z.of_nat (S (length xp))) in Hlow by lia.
      rewrite pow_S in Hlow. pose proof (pow_pos (length xp)). nia.
  - cbn [andb].
    destruct (D_div_loop_first (S (length xp)) d a1 xp) as (t & -> & E2 & E3 & E4); auto; try lia.
    fold n in E4 |- *. splits; auto.
    apply normal_of_low; auto; [intros ->; discriminate|]. rewrite E4, E2.
    apply Z.div_le_lower_bound; [lia|].
    replace (Z.of_nat (S (length xp)) - 1) with (Z.of_nat (length xp)) by lia.
    pose proof (pow_pos (length xp)). nia.
Qed.

Lemma D_rem_spec x d : digits x -> 0 < d < β -> D_rem x d = val x mod d.
Proof.
  intros Hx Hd. unfold D_rem. rewrite <- (rev_involutive x) at 2.
  apply digits_rev in Hx. set (xr := rev x) in *. clearbody xr.
  enough (G : forall r, 0 <= r < d -> fold_left (fun rem xd => if negb (rem =? 0) then DREM rem xd d else DREM 0 xd d) xr r
     = (r * β ^ Z.of_nat (length xr) + val (rev xr)) mod d).
  { rewrite G by lia. f_equal. }
  induction Hx as [|a xr Ha Hx IH]; cbv beta in *; intros r Hr.
  - cbn [fold_left length rev val]. change (Z.of_nat 0) with 0. rewrite Z.pow_0_r, Z.mul_1_r, Z.add_0_r, Z.mod_small; lia.
  - cbn [fold_left length].
    assert (Es : (if negb (r =? 0) then DREM r a d else DREM 0 a d) = (r * β + a) mod d).
    { unfold DREM. destruct (Z.eqb_spec r 0) as [->|]; cbn [negb]; rewrite ?Z.mod_0_l, ?(Z.mod_small r) by lia;
        rewrite DDIVREM_spec by lia; reflexivity. }
    rewrite Es, IH by (apply Z.mod_pos_bound; lia).
    rewrite val_rev_cons, pow_S.
    rewrite <- Zplus_mod_idemp_l, Zmult_mod_idemp_l, Zplus_mod_idemp_l. f_equal. ring.
Qed.
