(* ===== verification/DoubleDigit.v ===== *)
(** Two-digit numbers: comparison, subtraction and the division [D2DIVREM], whose loop replaces
    the remainder by its distance to a multiple and keeps a sign. The loop has fuel 112;
    [d2divrem_loop_spec] shows that the remainder halves in each round, so that the fuel is enough.
    *)

From S2P Require Import Prelude Digits DigitDiv BigNat BigMul.

(** Comparison of two-digit numbers. *)
Definition D2GT (a1 a0 b1 b0 : Z) : bool := (a1 >? b1) || ((a1 =? b1) && (a0 >? b0)).
(** Comparison of two-digit numbers. *)
Definition D2LT (a1 a0 b1 b0 : Z) : bool := D2GT b1 b0 a1 a0.
(** Comparison of two-digit numbers. *)
Definition D2GTE (a1 a0 b1 b0 : Z) : bool := negb (D2LT a1 a0 b1 b0).
(** Difference of two-digit numbers. *)
Definition D2SUB (a1 a0 b1 b0 : Z) : Z * Z :=
  let '(bi, c0) := DSUB a0 b0 in
  let '(_, c1) := DSUBb a1 b1 bi in
  (c1, c0).
(** [D2MULc]: a*(b1,b0) + d2 as three digits. *)
Definition D2MULc (a b1 b0 d2 : Z) : Z * Z * Z :=
  let '(d2, d0) := DMULc a b0 d2 in
  let '(d2, d1) := DMULc a b1 d2 in
  (d2, d1, d0).
(** The limit that selects the quotient estimate. *)
Definition QUOT_LIM : Z := 0x7FFFFFFFFFFFFFFF.

(** One turn of the loop of D2DIVREM; [as_] is the sign of the running remainder. *)
Definition d2divrem_body (a1 a0 b1 b0 q as_ : Z) : Z * Z * Z * Z :=
  let q1 := if (b1 =? 1) && (a1 >? 1) then a1 / 2
            else if (a1 >? QUOT_LIM) && (b1 <? a1) then a1 / wadd b1 1
            else a1 / b1 in
  let q := if as_ <? 0 then wsub q q1 else wadd q q1 in
  let '(_, t1, t0) := D2MULc q1 b1 b0 0 in
  if D2GT t1 t0 a1 a0 then
    let '(a1, a0) := D2SUB t1 t0 a1 a0 in (a1, a0, q, - as_)
  else
    let '(a1, a0) := D2SUB a1 a0 t1 t0 in (a1, a0, q, as_).

(** The loop of [D2DIVREM], with fuel. *)
Fixpoint d2divrem_loop (fuel : nat) (a1 a0 b1 b0 q as_ : Z) : option (Z * Z * Z * Z) :=
  if D2GTE a1 a0 b1 b0 then
    match fuel with
    | O => None
    | S fuel => let '(a1, a0, q, as_) := d2divrem_body a1 a0 b1 b0 q as_ in
                d2divrem_loop fuel a1 a0 b1 b0 q as_
    end
  else Some (a1, a0, q, as_).

(** [D2DIVREM]: quotient and remainder of two-digit numbers. *)
Definition D2DIVREM (a1 a0 b1 b0 : Z) : option (Z * Z * Z) :=
  match d2divrem_loop 112 a1 a0 b1 b0 0 1 with
  | None => None
  | Some (a1, a0, q, as_) =>
      if as_ <? 0 then let '(a1, a0) := D2SUB b1 b0 a1 a0 in Some (wsub q 1, a1, a0)
      else Some (q, a1, a0)
  end.
Definition d2v (a1 a0 : Z) : Z := a1 * β + a0.


Lemma D2GT_spec a1 a0 b1 b0 : is_digit a0 -> is_digit b0 ->
  D2GT a1 a0 b1 b0 = (d2v b1 b0 <? d2v a1 a0).
Proof. intros. unfold D2GT, d2v. zbool; simpl; lia. Qed.

Lemma D2SUB_spec a1 a0 b1 b0 : is_digit a0 -> is_digit b0 -> is_digit a1 -> is_digit b1 ->
  d2v b1 b0 <= d2v a1 a0 ->
  let '(c1, c0) := D2SUB a1 a0 b1 b0 in
  d2v c1 c0 = d2v a1 a0 - d2v b1 b0 /\ is_digit c1 /\ is_digit c0.
Proof. intros. unfold D2SUB, d2v in *. repeat dstep. lia. Qed.

Lemma D2MULc_spec a b1 b0 : is_digit a -> is_digit b1 -> is_digit b0 -> a * d2v b1 b0 < β * β ->
  let '(d2, d1, d0) := D2MULc a b1 b0 0 in
  d2 = 0 /\ d2v d1 d0 = a * d2v b1 b0 /\ is_digit d1 /\ is_digit d0.
Proof.
  intros. unfold D2MULc, d2v in *. repeat dstep.
  replace (a * (b1 * β + b0)) with ((a * b1) * β + a * b0) in * by ring.
  set (p := a * b1) in *. set (p' := a * b0) in *. clearbody p p'. lia.
Qed.

Lemma mul_le_bound g c m : 0 <= g -> 0 <= c <= m -> 0 <= g * c <= g * m.
Proof. intros; split; [apply Z.mul_nonneg_nonneg | apply Z.mul_le_mono_nonneg_l]; lia. Qed.

(** The quotient digit guessed by one turn of the loop. *)
Definition d2_guess (a1 b1 : Z) : Z :=
  if (b1 =? 1) && (a1 >? 1) then a1 / 2
  else if (a1 >? QUOT_LIM) && (b1 <? a1) then a1 / wadd b1 1
  else a1 / b1.

Lemma d2_guess_spec a1 a0 b1 b0 :
  is_digit a1 -> is_digit a0 -> 1 <= b1 < β -> is_digit b0 -> d2v b1 b0 <= d2v a1 a0 ->
  let q := d2_guess a1 b1 in let t := q * d2v b1 b0 in let a := d2v a1 a0 in let b := d2v b1 b0 in
  1 <= q < β /\ t < β * β /\ Z.abs (a - t) < a /\
  (Z.abs (a - t) < b \/ 3 * (Z.abs (a - t) / β) <= 2 * a1).
Proof.
  intros Ha1 Ha0 Hb1 Hb0 Hle q t a b.
  assert (Hba : b1 <= a1) by (unfold d2v in *; lia).
  assert (Et : t = q * b1 * β + q * b0) by (unfold t, d2v; ring).
  assert (Ea : a = a1 * β + a0) by reflexivity. assert (Eb : b = b1 * β + b0) by reflexivity.
  fold a b in Hle.
  assert (Hsmall : q = 1 -> b1 = a1 -> 1 <= q < β /\ t < β * β /\ Z.abs (a - t) < a /\
                   (Z.abs (a - t) < b \/ 3 * (Z.abs (a - t) / β) <= 2 * a1)).
  { intros -> ->. splits; try left; lia. }
  assert (Hdn : 1 <= q -> t <= a1 * β -> 3 * (a1 - q * b1) <= 2 * a1 -> q < β ->
     1 <= q < β /\ t < β * β /\ Z.abs (a - t) < a /\
     (Z.abs (a - t) < b \/ 3 * (Z.abs (a - t) / β) <= 2 * a1)).
  { intros Hq Hta H3 Hqb. pose proof (mul_le_bound q b0 (β - 1) ltac:(lia) ltac:(lia)).
    assert (1 <= q * b1) by (apply (Z.mul_le_mono_nonneg 1 q 1 b1); lia).
    set (p := q * b1) in *. set (p' := q * b0) in *. clearbody p p' t a b.
    rewrite Z.abs_eq by lia. splits; try right; lia. }
  clearbody t a b. unfold d2_guess in q. cbv zeta.
  assert (Hcases : (q = 1 /\ b1 = a1) \/ (2 <= a1 /\ b1 = 1 /\ q = a1 / 2) \/
     (2 <= b1 /\ b1 < a1 /\ q = a1 / (b1 + 1)) \/ (2 <= b1 /\ a1 < 2^63 /\ q = a1 / b1)).
  { unfold q, QUOT_LIM. clear -Ha1 Hb1 Hba. rewrite !Z.gtb_ltb.
    destruct (Z.eqb_spec b1 1) as [->|E1]; cbn [andb].
    - destruct (Z.ltb_spec 1 a1); cbn [andb]; [right; left; lia|left].
      assert (a1 = 1) as -> by lia. split; reflexivity.
    - destruct (Z.ltb_spec 0x7FFFFFFFFFFFFFFF a1); [destruct (Z.ltb_spec b1 a1)|]; cbn [andb].
      + unfold wadd. rewrite w64_id by lia. lia.
      + left. assert (b1 = a1) as -> by lia. split; auto. apply Z.div_same; lia.
      + right; right; right. lia. }
  clearbody q. destruct Hcases as [[Hq Hb]|[(H2 & -> & Hq)|[(H2 & Hlt & Hq)|(H2 & Hlt & Hq)]]].
  - auto.
  - pose proof (mul_le_bound q b0 (β - 1) ltac:(lia) ltac:(lia)). apply Hdn; lia.
  - pose proof (Z.div_mod a1 (b1 + 1) ltac:(lia)) as Ed. pose proof (Z.mod_pos_bound a1 (b1 + 1) ltac:(lia)).
    assert (Hg : 1 <= q) by (rewrite Hq; apply Z.div_le_lower_bound; lia).
    rewrite <- Hq in Ed. set (m := a1 mod (b1 + 1)) in *. clearbody m. clear Hq.
    assert (0 <= (q - 1) * (b1 - 1)) by (apply Z.mul_nonneg_nonneg; lia).
    replace ((q - 1) * (b1 - 1)) with (q * b1 - q - b1 + 1) in * by ring.
    replace ((b1 + 1) * q) with (q * b1 + q) in Ed by ring.
    pose proof (mul_le_bound q b0 (β - 1) ltac:(lia) ltac:(lia)).
    set (p := q * b1) in *. set (p' := q * b0) in *. clearbody p p'.
    apply Hdn; lia.
  - pose proof (Z.div_mod a1 b1 ltac:(lia)) as Ed. pose proof (Z.mod_pos_bound a1 b1 ltac:(lia)).
    assert (Hg : 1 <= q) by (rewrite Hq; apply Z.div_le_lower_bound; lia).
    rewrite <- Hq in Ed. set (m := a1 mod b1) in *. clearbody m. clear Hq.
    assert (0 <= (b1 - 2) * q) by (apply Z.mul_nonneg_nonneg; lia).
    replace ((b1 - 2) * q) with (q * b1 - 2 * q) in * by ring.
    replace (b1 * q) with (q * b1) in Ed by ring.
    pose proof (mul_le_bound q b0 (β - 1) ltac:(lia) ltac:(lia)).
    set (p := q * b1) in *. set (p' := q * b0) in *. clearbody p p'. clear Hdn Hsmall.
    destruct (Z.le_gt_cases t a).
    + rewrite Z.abs_eq by lia. splits; try left; lia.
    + rewrite Z.abs_neq by lia. splits; try right; lia.
Qed.

Lemma d2divrem_body_spec a1 a0 b1 b0 q s :
  is_digit a1 -> is_digit a0 -> 1 <= b1 < β -> is_digit b0 -> d2v b1 b0 <= d2v a1 a0 ->
  s = 1 \/ s = -1 ->
  let '(a1', a0', q', s') := d2divrem_body a1 a0 b1 b0 q s in
  exists g, 1 <= g /\ q' = w64 (q + s * g) /\ (s' = 1 \/ s' = -1) /\ is_digit a1' /\ is_digit a0' /\
    s * d2v a1 a0 = s * g * d2v b1 b0 + s' * d2v a1' a0' /\
    (d2v a1' a0' < d2v b1 b0 \/ 3 * a1' <= 2 * a1).
Proof.
  intros Ha1 Ha0 Hb1 Hb0 Hle Hs.
  destruct (d2_guess_spec a1 a0 b1 b0 Ha1 Ha0 Hb1 Hb0 Hle) as (Hg & Ht & Hlt & Hcase).
  unfold d2divrem_body. fold (d2_guess a1 b1). set (g := d2_guess a1 b1) in *. clearbody g.
  pose proof (D2MULc_spec g b1 b0 ltac:(lia) ltac:(lia) Hb0 Ht) as M.
  destruct (D2MULc g b1 b0 0) as [[t2 t1] t0]. destruct M as (_ & Et & Ht1 & Ht0).
  rewrite <- Et in *. rewrite D2GT_spec by assumption.
  assert (Eq : (if s <? 0 then wsub q g else wadd q g) = w64 (q + s * g))
    by (destruct Hs as [-> | ->]; cbn [Z.ltb Z.compare]; unfold wsub, wadd; f_equal; lia).
  assert (Ed : forall a1' a0', is_digit a1' -> is_digit a0' -> d2v a1' a0' / β = a1')
    by (intros; unfold d2v; lia).
  destruct (Z.ltb_spec (d2v a1 a0) (d2v t1 t0)).
  - pose proof (D2SUB_spec t1 t0 a1 a0 Ht0 Ha0 Ht1 Ha1 ltac:(lia)) as S1.
    destruct (D2SUB t1 t0 a1 a0) as [c1 c0]. destruct S1 as (E1 & Hc1 & Hc0).
    rewrite Z.abs_neq in Hcase by lia.
    replace (- (d2v a1 a0 - d2v t1 t0)) with (d2v c1 c0) in Hcase by lia. rewrite Ed in Hcase by auto.
    exists g. splits; auto; try lia.
  - pose proof (D2SUB_spec a1 a0 t1 t0 Ha0 Ht0 Ha1 Ht1 ltac:(lia)) as S1.
    destruct (D2SUB a1 a0 t1 t0) as [c1 c0]. destruct S1 as (E1 & Hc1 & Hc0).
    rewrite Z.abs_eq in Hcase by lia. rewrite <- E1, Ed in Hcase by auto.
    exists g. splits; auto; try lia.
Qed.

Lemma d2divrem_loop_spec fuel a1 a0 b1 b0 q s n :
  is_digit a1 -> is_digit a0 -> 1 <= b1 < β -> is_digit b0 -> (s = 1 \/ s = -1) ->
  n = q * d2v b1 b0 + s * d2v a1 a0 -> a1 * 2 ^ Z.of_nat fuel < 3 ^ Z.of_nat fuel ->
  exists a1' a0' q' s', d2divrem_loop fuel a1 a0 b1 b0 (w64 q) s = Some (a1', a0', w64 q', s') /\
    is_digit a1' /\ is_digit a0' /\ (s' = 1 \/ s' = -1) /\
    n = q' * d2v b1 b0 + s' * d2v a1' a0' /\ d2v a1' a0' < d2v b1 b0.
Proof.
  revert a1 a0 q s. induction fuel as [|fuel IH]; intros a1 a0 q s Ha1 Ha0 Hb1 Hb0 Hs En Hf;
    cbn [d2divrem_loop]; unfold D2GTE, D2LT; rewrite D2GT_spec by assumption;
    destruct (Z.ltb_spec (d2v a1 a0) (d2v b1 b0)); cbn [negb].
  1,3: exists a1, a0, q, s; splits; auto; lia.
  - change (Z.of_nat 0) with 0 in Hf. rewrite !Z.pow_0_r in Hf. unfold d2v in *; lia.
  - pose proof (d2divrem_body_spec a1 a0 b1 b0 (w64 q) s Ha1 Ha0 Hb1 Hb0 ltac:(lia) Hs) as S1.
    destruct (d2divrem_body a1 a0 b1 b0 (w64 q) s) as [[[a1' a0'] q'] s'].
    destruct S1 as (g & Hg & -> & Hs' & Ha1' & Ha0' & E & Hcase).
    replace (w64 (w64 q + s * g)) with (w64 (q + s * g))
      by (unfold w64; rewrite Zplus_mod_idemp_l; reflexivity).
    assert (En' : n = (q + s * g) * d2v b1 b0 + s' * d2v a1' a0') by (rewrite En, E; ring).
    destruct Hcase as [Hdone|Hdec].
    + exists a1', a0', (q + s * g), s'.
      assert (Hstop : D2GTE a1' a0' b1 b0 = false).
      { unfold D2GTE, D2LT. rewrite D2GT_spec by assumption. destruct (Z.ltb_spec (d2v a1' a0') (d2v b1 b0)); auto; lia. }
      destruct fuel; cbn [d2divrem_loop]; rewrite Hstop; splits; auto; lia.
    + apply IH; auto. rewrite Nat2Z.inj_succ, !Z.pow_succ_r in Hf by lia.
      pose proof (Z.pow_pos_nonneg 2 (Z.of_nat fuel) ltac:(lia) ltac:(lia)).
      set (p2 := 2 ^ Z.of_nat fuel) in *. set (p3 := 3 ^ Z.of_nat fuel) in *. clearbody p2 p3. nia.
Qed.

Lemma d2_quot_digit q b r : β <= b -> 0 <= r <= b -> 0 <= q * b + r < β * β -> b <= q * b + r -> is_digit q.
Proof.
  intros Hb Hr Hn Hge.
  assert (0 <= q) by (apply Z.le_ngt; intros C; pose proof (Z.mul_le_mono_nonneg_r q (-1) b ltac:(lia) ltac:(lia)); lia).
  split; auto. apply Z.lt_nge. intros C. pose proof (Z.mul_le_mono_nonneg β q β b ltac:(lia) C ltac:(lia) Hb). lia.
Qed.

Lemma D2DIVREM_spec a1 a0 b1 b0 :
  is_digit a1 -> is_digit a0 -> 1 <= b1 < β -> is_digit b0 -> d2v b1 b0 <= d2v a1 a0 ->
  exists q r1 r0, D2DIVREM a1 a0 b1 b0 = Some (q, r1, r0) /\ is_digit q /\
    d2v a1 a0 = q * d2v b1 b0 + d2v r1 r0 /\ 0 <= d2v r1 r0 <= d2v b1 b0.
Proof.
  intros Ha1 Ha0 Hb1 Hb0 Hle.
  destruct (d2divrem_loop_spec 112 a1 a0 b1 b0 0 1 (d2v a1 a0)) as (a1' & a0' & q & s & E & Ha1' & Ha0' & Hs & En & Hlt);
    auto; try lia.
  unfold D2DIVREM. change 0 with (w64 0) at 1. rewrite E.
  assert (Hb : β <= d2v b1 b0) by (unfold d2v; lia).
  assert (Ha : d2v a1 a0 < β * β) by (unfold d2v; lia).
  assert (H0 : 0 <= d2v a1' a0') by (unfold d2v; lia).
  destruct Hs as [-> | ->]; cbn [Z.ltb Z.compare].
  - assert (is_digit q) by (apply d2_quot_digit with (d2v b1 b0) (d2v a1' a0'); lia). exists q, a1', a0'. rewrite w64_id by lia. splits; auto; lia.
  - pose proof (D2SUB_spec b1 b0 a1' a0' Hb0 Ha0' ltac:(lia) Ha1' ltac:(lia)) as S1.
    destruct (D2SUB b1 b0 a1' a0') as [c1 c0]. destruct S1 as (E1 & Hc1 & Hc0).
    assert (is_digit (q - 1)) by (apply d2_quot_digit with (d2v b1 b0) (d2v c1 c0); lia).
    exists (q - 1), c1, c0. splits; try lia.
    do 3 f_equal. unfold wsub. replace (w64 (w64 q - 1)) with (w64 (q - 1)); [apply w64_id; lia|].
    unfold w64. rewrite Zminus_mod_idemp_l. reflexivity.
Qed.
