(* ===== verification/LongDiv.v ===== *)
(** Long division of digit vectors: the definitions of [I_div] and [I_rem], and the lemmas on
    [D_mulsub] and on the reduction of the remainder. A vector is the part of the C array that is
    still significant; the size variables of the C code are its length. *)

From S2P Require Import Prelude Digits DigitDiv BigNat BigMul BigDiv DoubleDigit.

(** The loop of [D_mulsub]. *)
Fixpoint mulsub_loop (d : Z) (x y : list Z) (c b : Z) : list Z * list Z * Z * Z :=
  match y, x with
  | yd :: y, xd :: x =>
      let '(c, c0) := DMULc d yd c in
      let '(b, s) := DSUBb xd c0 b in
      let '(r, x, c, b) := mulsub_loop d x y c b in
      (s :: r, x, c, b)
  | _, _ => ([], x, c, b)
  end.

(** [D_mulsub]: x - d*y into x; the size 0 reports a borrow. *)
Definition D_mulsub (x : list Z) (d : Z) (y : list Z) : list Z * nat :=
  let '(r, x, c, b) := mulsub_loop d x y 0 0 in
  match x with
  | [] => if negb (c =? 0) || negb (b =? 0) then (r, 0%nat) else (r, length (trim r))
  | xd :: _ =>
      let '(b, s) := DSUBb xd c b in
      let r := r ++ [s] in
      if negb (b =? 0) then (r, 0%nat) else (r, length (trim r))
  end.

(** The estimate of the next quotient digit from the two top digits, and whether the window
    moves down by one digit. *)
Definition quot_est (b1 b2 a1 a2 : Z) : option (Z * bool) :=
  if b1 <? a1 then
    match D2DIVREM a1 a2 b1 b2 with Some (q0, _, _) => Some (q0, false) | None => None end
  else if b1 >? a1 then Some (fst (DDIVREM a1 a2 b1), true)
  else if b2 <=? a2 then Some (1, false)
  else Some (β - 1, true).

(** Subtract q0 * y from the top [nsz] digits of the remainder; a negative
    difference is negated and the sign flag flipped. *)
Definition red_apply (y r : list Z) (r_signed : bool) (q0 : Z) (shift : bool) : nat * list Z * bool :=
  let yl := length y in
  let rl := length r in
  let nsz := if shift then S yl else yl in
  let k := (rl - nsz)%nat in
  let '(w, nnsz) := D_mulsub (skipn k r) q0 y in
  let r := firstn k r ++ w in
  let '(r, nnsz, r_signed) :=
    if (nnsz =? 0)%nat then
      let r := Z_sub_loop r 0 in
      let nnsz := length (trim r) in
      (r, if (rl - nnsz <? nsz)%nat then (nsz - (rl - nnsz))%nat else 1%nat, negb r_signed)
    else (r, nnsz, r_signed) in
  let nnsz := if (nnsz =? 1)%nat && (nth k r 0 =? 0) then 0%nat else nnsz in
  (nnsz, firstn (k + nnsz) r, r_signed).

(** One round of the division loop, as far as the remainder goes. *)
Definition red_step (y r : list Z) (r_signed : bool) : option (Z * bool * nat * list Z * bool) :=
  let yl := length y in
  let rl := length r in
  match quot_est (nth (yl - 1) y 0) (nth (yl - 2) y 0) (nth (rl - 1) r 0) (nth (rl - 2) r 0) with
  | None => None
  | Some (q0, shift) =>
      let '(nnsz, r, r_signed) := red_apply y r r_signed q0 shift in
      Some (q0, shift, nnsz, r, r_signed)
  end.

(** The division loop with the quotient digits. *)
Fixpoint I_div_loop (fuel : nat) (y r q : list Z) (r_signed : bool) : option (list Z * list Z * bool) :=
  match fuel with
  | O => None
  | S fuel =>
      match red_step y r r_signed with
      | None => None
      | Some (q0, shift, nnsz, r', r_signed') =>
          let q := if shift then 0 :: q else q in
          let q := if r_signed then D_sub q q0 else D_add q q0 in
          let q := repeat 0 (length y - nnsz) ++ q in
          if I_comp r' y >=? 0 then I_div_loop fuel y r' q r_signed' else Some (r', q, r_signed')
      end
  end.

(** [I_div]: long division, quotient and remainder. *)
Definition I_div (x y : list Z) : option (list Z * list Z) :=
  let yl := length y in
  let xl := length x in
  let b1 := nth (yl - 1) y 0 in
  let b2 := nth (yl - 2) y 0 in
  let a1 := nth (xl - 1) x 0 in
  let a2 := nth (xl - 2) x 0 in
  let q := if (b1 <? a1) || ((b1 =? a1) && (b2 <=? a2)) then [0] else [] in
  match I_div_loop (3 * xl + 3) y x q false with
  | None => None
  | Some (r, q, r_signed) =>
      let q := skipn (yl - length r) q in
      let r := trim (match r with [] => [0] | _ => r end) in
      if r_signed && ((1 <? length r)%nat || negb (hd 0 r =? 0))
      then Some (D_sub q 1, I_sub y r)
      else Some (q, r)
  end.

(** The loop of [I_rem]. *)
Fixpoint I_rem_loop (fuel : nat) (y r : list Z) (r_signed : bool) : option (list Z * bool) :=
  match fuel with
  | O => None
  | S fuel =>
      match red_step y r r_signed with
      | None => None
      | Some (_, _, _, r', r_signed') =>
          if I_comp r' y >=? 0 then I_rem_loop fuel y r' r_signed' else Some (r', r_signed')
      end
  end.
(** [I_rem]: long division, remainder only. *)
Definition I_rem (x y : list Z) : option (list Z) :=
  match I_rem_loop (3 * length x + 3) y x false with
  | None => None
  | Some (r, r_signed) =>
      let r := trim (match r with [] => [0] | _ => r end) in
      if r_signed && ((1 <? length r)%nat || negb (hd 0 r =? 0)) then Some (I_sub y r) else Some r
  end.


(** ** Size lemmas *)
Lemma val_split k x : (k <= length x)%nat ->
  val x = val (firstn k x) + β ^ Z.of_nat k * val (skipn k x).
Proof. intros. rewrite <- (firstn_skipn k x) at 1. now rewrite val_app, firstn_length_le. Qed.

Lemma firstn_val m x : digits x -> val x < β ^ Z.of_nat m -> val (firstn m x) = val x /\ digits (firstn m x).
Proof.
  intros Hx Hv. rewrite <- (firstn_skipn m x) in Hx. apply digits_app in Hx as [H1 H2]. split; auto.
  destruct (Nat.le_gt_cases (length x) m) as [Hl|Hl]; [now rewrite firstn_all2|].
  pose proof (val_bound _ H1). pose proof (val_bound _ H2).
  rewrite <- (firstn_skipn m x), val_app in Hv. rewrite <- (firstn_skipn m x) at 2. rewrite val_app.
  rewrite firstn_length_le in * by lia. pose proof (pow_pos m).
  assert (val (skipn m x) = 0) as -> by nia. lia.
Qed.

Lemma trim_length_le x n : digits x -> x <> [] -> val x < β ^ Z.of_nat n -> (0 < n)%nat ->
  (0 < length (trim x) <= n)%nat /\ val x < β ^ Z.of_nat (length (trim x)).
Proof.
  intros Hx Hne Hv Hn. destruct (trim_spec x Hx Hne) as (E & D & N).
  pose proof (normal_len _ N). pose proof (val_bound _ D). rewrite E in *. split; [|lia].
  split; auto. destruct (Z.eq_dec (val x) 0) as [E0|E0].
  - destruct N as [_ [N|N]]; [lia|]. pose proof (last_app_val _ 0 N ltac:(intros C; rewrite C in *; cbn in *; lia) D).
    rewrite E, E0 in *. pose proof (Z.pow_pos_nonneg β (Z.of_nat (length (trim x)) - 1)). lia.
  - pose proof (normal_low _ D N ltac:(lia)) as Hlow. rewrite E in Hlow.
    apply Nat.le_ngt. intros C. pose proof (Z.pow_le_mono_r β (Z.of_nat n) (Z.of_nat (length (trim x)) - 1)). lia.
Qed.

Lemma val_top_zero k x : digits x -> val x < β ^ Z.of_nat (S k) -> nth k x 0 = 0 -> val x < β ^ Z.of_nat k.
Proof.
  intros Hx Hv H0. destruct (Nat.le_gt_cases (length x) k) as [Hl|Hl].
  - pose proof (val_bound x Hx). pose proof (Z.pow_le_mono_r β (Z.of_nat (length x)) (Z.of_nat k)). lia.
  - destruct (firstn_val (S k) x Hx Hv) as [E D].
    assert (Es : firstn (S k) x = firstn k x ++ [nth k x 0]).
    { clear -Hl. revert x Hl. induction k as [|n IH]; intros [|a r] Hl; cbn [length] in Hl; try lia; [reflexivity|].
      rewrite firstn_cons, (IH r ltac:(lia)). reflexivity. }
    rewrite Es, H0, val_app in E. rewrite Es in D. apply digits_app in D as [D _].
    pose proof (val_bound _ D) as B. rewrite firstn_length_le in * by lia. change (val [0]) with 0 in E. lia.
Qed.

Lemma nth_digit k x : digits x -> is_digit (nth k x 0).
Proof.
  intros Hx. destruct (Nat.le_gt_cases (length x) k).
  - rewrite nth_overflow by auto. lia.
  - unfold digits in Hx. rewrite Forall_forall in Hx. apply (Hx (nth k x 0)), nth_In. auto.
Qed.

Lemma val_high_zero k x : digits x -> val x < β ^ Z.of_nat k -> nth k x 0 = 0.
Proof.
  intros Hx Hv. destruct (Nat.le_gt_cases (length x) k) as [Hl|Hl]; [apply nth_overflow; auto|].
  destruct (firstn_val k x Hx Hv) as [E D].
  pose proof (firstn_skipn k x) as Ex. 
  assert (val (skipn k x) = 0).
  { rewrite (val_split k x) in E by lia. pose proof (pow_pos k). nia. }
  assert (nth k x 0 = nth 0 (skipn k x) 0) as ->.
  { rewrite <- Ex at 1. rewrite app_nth2; rewrite firstn_length_le by lia; [|lia]. f_equal. lia. }
  rewrite <- Ex in Hx. apply digits_app in Hx as [_ Hs].
  destruct (skipn k x) as [|d t]; cbn [nth val] in *; auto. apply digits_cons in Hs as [Hd Ht].
  pose proof (val_bound t Ht). lia.
Qed.

(** ** Multiply and subtract *)
Lemma mulsub_loop_spec d x y c b :
  is_digit d -> digits x -> digits y -> (length y <= length x)%nat -> is_digit c -> 0 <= b <= 1 ->
  exists r c' b', mulsub_loop d x y c b = (r, skipn (length y) x, c', b') /\
    length r = length y /\ digits r /\ is_digit c' /\ 0 <= b' <= 1 /\
    val r = val (firstn (length y) x) - d * val y - c - b + β ^ Z.of_nat (length y) * (c' + b').
Proof.
  intros Hd Hx Hy. revert x Hx c b. induction Hy as [|yd y Hyd Hy IH]; cbv beta in *; intros x Hx c b Hl Hc Hb.
  - exists [], c, b. cbn [length skipn firstn val]. change (Z.of_nat 0) with 0. rewrite Z.pow_0_r.
    splits; auto with bignat; try lia. destruct x; reflexivity.
  - destruct x as [|xd x]; [cbn in Hl; lia|]. apply digits_cons in Hx as [Hxd Hx]. cbn [length] in Hl.
    cbn [mulsub_loop]. repeat dstep.
    match goal with |- context [mulsub_loop d x y ?c ?b] =>
      destruct (IH x Hx c b ltac:(lia) ltac:(lia) ltac:(lia)) as (r & c' & b' & -> & E1 & E2 & E3 & E4 & E5) end.
    match goal with |- context [(?s :: r, _, _, _)] => exists (s :: r) end. exists c', b'.
    cbn [length]. rewrite skipn_cons, firstn_cons, digits_cons. cbn [val]. rewrite E5, pow_S.
    splits; auto; lia.
Qed.

(** [D_mulsub] computes x - d*y modulo β^n, and answers 0 exactly when the
    true difference is negative. *)
Lemma D_mulsub_spec x d y :
  is_digit d -> digits x -> digits y -> y <> [] ->
  (length x = length y \/ length x = S (length y)) ->
  - β ^ Z.of_nat (length x) <= val x - d * val y ->
  let '(r, nsz) := D_mulsub x d y in
  length r = length x /\ digits r /\
  (0 <= val x - d * val y -> val r = val x - d * val y /\ nsz = length (trim r)) /\
  (val x - d * val y < 0 -> val r = β ^ Z.of_nat (length x) + (val x - d * val y) /\ nsz = 0%nat).
Proof.
  intros Hd Hx Hy Hne Hl Hlow. unfold D_mulsub. pose proof (val_bound x Hx) as Bx.
  destruct (mulsub_loop_spec d x y 0 0 Hd Hx Hy ltac:(lia) ltac:(lia) ltac:(lia))
    as (r & c & b & -> & E1 & E2 & E3 & E4 & E5).
  set (m := d * val y) in *. clearbody m.
  pose proof (val_bound r E2) as Br. rewrite E1 in Br.
  assert (Hly : (0 < length y)%nat) by (destruct y; cbn; [congruence|lia]).
  destruct Hl as [Hl|Hl].
  - rewrite skipn_all2 by lia. rewrite firstn_all2 in E5 by lia. rewrite <- Hl in *.
    pose proof (pow_pos (length x)). set (P := β ^ Z.of_nat (length x)) in *.
    assert (Hcb : c + b = 0 \/ c + b = 1) by nia.
    destruct Hcb as [Hcb|Hcb].
    + assert (c = 0) as -> by lia. assert (b = 0) as -> by lia. cbn [Z.eqb negb orb].
      splits; auto; intros; split; auto; lia.
    + assert (Eb : negb (c =? 0) || negb (b =? 0) = true) by (zbool; simpl; auto; lia).
      rewrite Eb. splits; auto; intros; try split; auto; lia.
  - destruct (skipn (length y) x) as [|xd t] eqn:Es.
    { apply (f_equal (@length Z)) in Es. rewrite length_skipn in Es. cbn in Es; lia. }
    assert (t = []) as ->.
    { apply (f_equal (@length Z)) in Es. rewrite length_skipn in Es. destruct t; cbn in Es; auto; lia. }
    assert (Ex : x = firstn (length y) x ++ [xd]) by (rewrite <- Es; symmetry; apply firstn_skipn).
    assert (Hxd : is_digit xd) by (rewrite Ex in Hx; apply digits_app in Hx as [_ Hx]; apply digits_cons in Hx; tauto).
    dstep.
    assert (Evx : val x = val (firstn (length y) x) + β ^ Z.of_nat (length y) * xd).
    { rewrite Ex at 1. rewrite val_app, firstn_length_le by lia. cbn [val]. lia. }
    assert (Er : val (r ++ [z0]) = val r + β ^ Z.of_nat (length y) * z0) by (rewrite val_app, E1; cbn [val]; lia).
    assert (Dr : digits (r ++ [z0])) by (rewrite digits_app, digits_cons; splits; auto with bignat; lia).
    assert (Lr : length (r ++ [z0]) = length x) by (rewrite length_app, E1, Hl; cbn; lia).
    rewrite Hl, pow_S in *. pose proof (pow_pos (length y)).
    set (P := β ^ Z.of_nat (length y)) in *. clearbody P.
    set (v := val (firstn (length y) x)) in *. clearbody v.
    destruct HS as (Hz0 & Hz0' & Hz).
    assert (Hbr : val r + P * z0 = val x - m + β * P * z) by (rewrite Hz0, E5, Evx; ring).
    assert (Htop : 0 <= val r + P * z0 < β * P) by nia.
    assert (Hz01 : z = 0 \/ z = 1) by nia.
    destruct Hz01 as [-> | ->]; cbn [Z.eqb negb]; splits; auto; intros; splits; auto; lia.
Qed.

Lemma red_apply_spec y r (sg : bool) q0 (shift : bool) :
  digits y -> digits r -> is_digit q0 -> (0 < length y)%nat ->
  let nsz := if shift then S (length y) else length y in
  (nsz <= length r)%nat ->
  let k := (length r - nsz)%nat in
  let D := val (skipn k r) - q0 * val y in
  - β ^ Z.of_nat (length y) < D < β ^ Z.of_nat (length y) ->
  let '(nnsz, r', sg') := red_apply y r sg q0 shift in
  (nnsz <= length y)%nat /\ length r' = (k + nnsz)%nat /\ digits r' /\
  let d := val r - q0 * val y * β ^ Z.of_nat k in
  (0 <= D /\ sg' = sg /\ val r' = d \/ D < 0 /\ sg' = negb sg /\ val r' = - d /\ d < 0).
Proof.
  intros Hy Hr Hq Hyl nsz Hn k D HD. unfold red_apply. fold nsz. fold k.
  assert (Hny : (length y <= nsz)%nat) by (subst nsz; destruct shift; lia).
  assert (Hw : length (skipn k r) = nsz) by (rewrite length_skipn; lia).
  assert (Hlo : length (firstn k r) = k) by (rewrite firstn_length_le; lia).
  assert (Dw : digits (skipn k r)) by (rewrite <- (firstn_skipn k r) in Hr; apply digits_app in Hr; tauto).
  assert (Dl : digits (firstn k r)) by (rewrite <- (firstn_skipn k r) in Hr; apply digits_app in Hr; tauto).
  pose proof (val_bound _ Dl) as Bl. rewrite Hlo in Bl. pose proof (pow_pos k) as Pk.
  assert (Hp : β ^ Z.of_nat (length y) <= β ^ Z.of_nat nsz) by (apply Z.pow_le_mono_r; subst nsz; destruct shift; lia).
  pose proof (D_mulsub_spec (skipn k r) q0 y Hq Dw Hy) as M. rewrite Hw in M.
  specialize (M ltac:(destruct y; cbn in Hyl; [lia|discriminate]) ltac:(subst nsz; destruct shift; lia) ltac:(fold D; lia)).
  fold D in M. destruct (D_mulsub (skipn k r) q0 y) as [w n0]. destruct M as (Lw & Dgw & Mpos & Mneg).
  assert (Er : val r - q0 * val y * β ^ Z.of_nat k = val (firstn k r) + β ^ Z.of_nat k * D)
    by (rewrite (val_split k r) by lia; unfold D; ring).
  assert (Erw : val (firstn k r ++ w) = val (firstn k r) + β ^ Z.of_nat k * val w) by (rewrite val_app, Hlo; reflexivity).
  assert (Drw : digits (firstn k r ++ w)) by (apply digits_app; auto).
  assert (Lrw : length (firstn k r ++ w) = length r) by (rewrite length_app, Hlo, Lw; lia).
  assert (Hwne : w <> []) by (intros ->; cbn in Lw; subst nsz; destruct shift; lia).
  rewrite Er. destruct (Z.le_gt_cases 0 D) as [HD0|HD0].
  - destruct (Mpos HD0) as [Ew ->]. clear Mpos Mneg.
    destruct (trim_length_le w (length y) Dgw Hwne ltac:(lia) Hyl) as [Hlen Hvw].
    destruct (Nat.eqb_spec (length (trim w)) 0) as [|_]; [lia|].
    set (n1 := if (length (trim w) =? 1)%nat && (nth k (firstn k r ++ w) 0 =? 0) then 0%nat else length (trim w)).
    assert (Hv : val (firstn k r ++ w) < β ^ Z.of_nat (k + n1)).
    { assert (Hb : val (firstn k r ++ w) < β ^ Z.of_nat (k + length (trim w))).
      { rewrite Erw, Nat2Z.inj_add, Z.pow_add_r by lia. nia. }
      subst n1. destruct (Nat.eqb_spec (length (trim w)) 1) as [E1|]; cbn [andb]; auto.
      destruct (Z.eqb_spec (nth k (firstn k r ++ w) 0) 0); [|exact Hb].
      rewrite E1 in Hb. rewrite Nat.add_0_r. apply val_top_zero; auto. now rewrite <- Nat.add_1_r. }
    assert (Hn1 : (n1 <= length (trim w))%nat) by (subst n1; destruct (_ && _); lia).
    destruct (firstn_val _ _ Drw Hv) as [E' D'].
    splits; auto; [lia| |left; splits; auto; lia].
    rewrite firstn_length_le; lia.
  - destruct (Mneg HD0) as [Ew ->]. clear Mpos Mneg. cbn [Nat.eqb].
    set (rr := firstn k r ++ w) in *.
    destruct (Z_sub_loop_spec rr 0 Drw ltac:(lia)) as (b & Hb & Ez & Dz & Lz).
    assert (Hrp : β ^ Z.of_nat (length r) = β ^ Z.of_nat k * β ^ Z.of_nat nsz)
      by (rewrite <- Z.pow_add_r by lia; f_equal; lia).
    assert (Hneg : val (firstn k r) + β ^ Z.of_nat k * D < 0) by nia.
    assert (Ez' : val (Z_sub_loop rr 0) = - (val (firstn k r) + β ^ Z.of_nat k * D)).
    { rewrite Ez, Lrw. rewrite Erw, Ew. rewrite Hrp in *.
      pose proof (val_bound _ Dz) as Bz. rewrite Lz, Lrw, Hrp, Ez, Lrw, Hrp, Erw, Ew in Bz.
      set (P := β ^ Z.of_nat k * β ^ Z.of_nat nsz) in *.
      replace (val (firstn k r) + β ^ Z.of_nat k * (β ^ Z.of_nat nsz + D))
        with (P + (val (firstn k r) + β ^ Z.of_nat k * D)) in * by (unfold P; ring).
      assert (b = 0 \/ b = 1) as [-> | ->] by lia; [|lia]. 
      assert (- P < val (firstn k r) + β ^ Z.of_nat k * D); [|lia].
      assert (- β ^ Z.of_nat k * β ^ Z.of_nat nsz <= β ^ Z.of_nat k * D) by nia. unfold P. nia. }
    set (z := Z_sub_loop rr 0) in *. clearbody z.
    assert (Hzv : val z < β ^ Z.of_nat (k + length y)).
    { rewrite Ez', Nat2Z.inj_add, Z.pow_add_r by lia. nia. }
    destruct (trim_length_le z (k + length y) Dz ltac:(intros ->; cbn in Lz; rewrite Lrw in Lz; subst nsz; destruct shift; lia) Hzv ltac:(lia)) as [Hlen Hvz].
    set (n0 := if (length r - length (trim z) <? nsz)%nat then (nsz - (length r - length (trim z)))%nat else 1%nat).
    set (n1 := if (n0 =? 1)%nat && (nth k z 0 =? 0) then 0%nat else n0).
    assert (Hlt : (length (trim z) <= length r)%nat).
    { rewrite <- Lrw, <- Lz. apply Nat.le_ngt. intros C.
      destruct (trim_length_le z (length z) Dz) as [Q _].
      - intros ->; cbn in *. subst nsz; destruct shift; lia.
      - apply val_bound; auto.
      - rewrite Lz, Lrw. subst nsz; destruct shift; lia.
      - lia. }
    assert (Hcase : (k < length (trim z) /\ n0 = length (trim z) - k \/ length (trim z) <= k /\ n0 = 1)%nat).
    { subst n0. destruct (Nat.ltb_spec (length r - length (trim z)) nsz); lia. }
    assert (Hb0 : val z < β ^ Z.of_nat (k + n0)).
    { eapply Z.lt_le_trans; [exact Hvz|]. apply Z.pow_le_mono_r; lia. }
    assert (Hb1 : val z < β ^ Z.of_nat (k + n1)).
    { subst n1. destruct (Nat.eqb_spec n0 1) as [E1|]; cbn [andb]; auto.
      destruct (Z.eqb_spec (nth k z 0) 0); auto. rewrite E1 in Hb0. rewrite Nat.add_0_r.
      apply val_top_zero; auto. now rewrite <- Nat.add_1_r. }
    assert (Hn1 : (n1 <= length y)%nat).
    { subst n1. destruct Hcase as [[? ?]|[? ?]].
      - destruct (_ && _); lia.
      - rewrite H0. cbn [Nat.eqb andb]. rewrite (val_high_zero k z Dz); [cbn; lia|].
        eapply Z.lt_le_trans; [exact Hvz|]. apply Z.pow_le_mono_r; lia. }
    destruct (firstn_val _ _ Dz Hb1) as [E' D'].
    splits; auto.
    + rewrite firstn_length_le; auto. rewrite Lz, Lrw. subst nsz; destruct shift; lia.
    + right. splits; auto; lia.
Qed.
