(* ===== verification/LongDivSpec.v ===== *)
(** One step of the long division, and the long division as a whole: [I_div_spec] (termination
    within 3 * length + 3 rounds, exact quotient and remainder, both normal) and [I_rem_div]. *)

From S2P Require Import Prelude.
From S2P Require Import Digits DigitDiv BigNat BigMul BigDiv DoubleDigit LongDiv.

Lemma quot_est_spec b1 b2 a1 a2 :
  1 <= b1 < β -> is_digit b2 -> is_digit a1 -> is_digit a2 ->
  let A := d2v a1 a2 in let Bd := d2v b1 b2 in
  exists q0 shift, quot_est b1 b2 a1 a2 = Some (q0, shift) /\ is_digit q0 /\
    (shift = false /\ Bd <= A /\ 1 <= q0 /\ 0 <= A - q0 * Bd <= Bd \/
     shift = true /\ A < Bd /\
       (a1 < b1 /\ 0 <= A - q0 * b1 < b1 \/ a1 = b1 /\ a2 < b2 /\ q0 = β - 1)).
Proof.
  intros Hb1 Hb2 Ha1 Ha2 A Bd. unfold quot_est.
  destruct (Z.ltb_spec b1 a1).
  - destruct (D2DIVREM_spec a1 a2 b1 b2 Ha1 Ha2 Hb1 Hb2 ltac:(unfold d2v; lia)) as (q & r1 & r0 & E & Hq & EA & Hr).
    rewrite E. exists q, false. fold A Bd in EA, Hr. splits; auto; try lia. left.
    assert (Hle : β <= Bd /\ Bd < A) by (unfold A, Bd, d2v; lia).
    splits; auto; lia.
  - rewrite Z.gtb_ltb. destruct (Z.ltb_spec a1 b1).
    + rewrite DDIVREM_spec by lia. cbn [fst].
      pose proof (Z.div_mod A b1 ltac:(lia)) as E. pose proof (Z.mod_pos_bound A b1 ltac:(lia)).
      assert (is_digit (A / b1)).
      { split; [apply Z.div_pos; unfold A, d2v; lia | apply Z.div_lt_upper_bound; unfold A, d2v; lia]. }
      exists (A / b1), true. splits; try reflexivity; try lia. right. splits; auto; [unfold A, Bd, d2v; lia|].
      left. splits; auto; lia.
    + assert (a1 = b1) as -> by lia. destruct (Z.leb_spec b2 a2).
      * exists 1, false. splits; try lia; auto. left. unfold A, Bd, d2v. lia.
      * exists (β - 1), true. splits; try lia; auto. right. unfold A, Bd, d2v. lia.
Qed.

Lemma top2_val r : digits r -> (2 <= length r)%nat ->
  exists lo, 0 <= lo < β ^ Z.of_nat (length r - 2) /\
    val r = lo + β ^ Z.of_nat (length r - 2) * d2v (nth (length r - 1) r 0) (nth (length r - 2) r 0).
Proof.
  intros Hr Hl. set (n := (length r - 2)%nat).
  assert (Es : skipn n r = [nth n r 0; nth (length r - 1) r 0]).
  { replace (length r - 1)%nat with (n + 1)%nat by lia.
    rewrite <- (nth_skipn n r 1). rewrite <- (Nat.add_0_r n) at 2. rewrite <- (nth_skipn n r 0).
    assert (L : length (skipn n r) = 2%nat) by (rewrite length_skipn; lia).
    destruct (skipn n r) as [|a [|b [|]]]; cbn in L; try lia. reflexivity. }
  exists (val (firstn n r)). rewrite (val_split n r) by lia. rewrite Es.
  assert (D : digits (firstn n r)) by (rewrite <- (firstn_skipn n r) in Hr; apply digits_app in Hr; tauto).
  pose proof (val_bound _ D) as B. rewrite firstn_length_le in B by lia. split; auto.
  cbn [val]. unfold d2v. ring.
Qed.

Lemma est_noshift P A Bd wl yl q0 :
  0 < P -> 0 <= wl < P -> 0 <= yl < P -> β <= Bd -> 1 <= q0 < β -> 0 <= A - q0 * Bd <= Bd ->
  let D := wl + P * A - q0 * (yl + P * Bd) in
  - (β * P) < D <= Bd * P + wl /\ (A = Bd -> -P < D < P).
Proof.
  intros HP Hwl Hyl HB Hq HR D.
  assert (ED : D = (A - q0 * Bd) * P + wl - q0 * yl) by (unfold D; ring). clearbody D. subst D.
  pose proof (mul_le_bound q0 yl (P - 1) ltac:(lia) ltac:(lia)).
  assert (q0 * (P - 1) < β * P) by nia.
  split.
  - set (R := A - q0 * Bd) in *. clearbody R. nia.
  - intros ->. assert (q0 = 1) as -> by nia. lia.
Qed.

Lemma est_shift P A b1 b2 a1 a2 wl yl q0 :
  0 < P -> 0 <= wl < β * P -> 0 <= yl < P -> 1 <= b1 < β -> is_digit b2 -> is_digit q0 ->
  is_digit a2 -> A = d2v a1 a2 ->
  (a1 < b1 /\ 0 <= A - q0 * b1 < b1 \/ a1 = b1 /\ a2 < b2 /\ q0 = β - 1) ->
  let D := wl + β * P * A - q0 * (yl + P * d2v b1 b2) in
  - (β * (β * P)) < D < β * (β * P).
Proof.
  intros HP Hwl Hyl Hb1 Hb2 Hq Ha2 EA Hc D.
  set (vl := b2 * P + yl). assert (Hvl : b2 * P <= vl < β * P) by (subst vl; nia).
  assert (Hb2P : 0 <= b2 * P) by nia.
  assert (ED : D = (A - q0 * b1) * (β * P) + wl - q0 * vl) by (unfold D, vl, d2v; ring). clearbody D vl. subst D.
  pose proof (mul_le_bound q0 vl (β * P - 1) ltac:(lia) ltac:(lia)).
  destruct Hc as [[Ha HR]|(-> & Ha & ->)].
  - assert (q0 * (β * P - 1) < β * (β * P)) by nia. set (R := A - q0 * b1) in *. clearbody R.
    assert (0 <= R * P <= (β - 2) * P) by nia. lia.
  - subst A. unfold d2v.
    replace (b1 * β + a2 - (β - 1) * b1) with (a2 + b1) by ring.
    assert (0 <= b1 * P <= (β - 1) * P) by nia. assert (0 <= a2 * P) by nia.
    assert ((a2 + 1) * P <= b2 * P) by nia. assert ((a2 + 1) * P <= (β - 1) * P) by nia. lia.
Qed.

Definition top2 (r : list Z) : Z := d2v (nth (length r - 1) r 0) (nth (length r - 2) r 0).
Definition phi (y r : list Z) : Z :=
  if top2 y <? top2 r then 2 else if top2 r =? top2 y then 1 else 0.

Lemma phi_bounds y r : 0 <= phi y r <= 2.
Proof. unfold phi. zbool; lia. Qed.

Lemma top2_le r B n : digits r -> (2 <= length r)%nat -> length r = n ->
  val r < B * β ^ Z.of_nat (n - 2) -> top2 r < B.
Proof.
  intros Hr Hl <- Hv. destruct (top2_val r Hr Hl) as (lo & Hlo & E). fold (top2 r) in E.
  pose proof (pow_pos (length r - 2)). nia.
Qed.

Lemma skipn_top2 k r : (k + 2 <= length r)%nat -> top2 (skipn k r) = top2 r.
Proof.
  intros H. unfold top2. rewrite length_skipn, !nth_skipn.
  do 2 f_equal; lia.
Qed.

Lemma red_step_spec y r sg :
  digits y -> digits r -> nth (length y - 1) y 0 <> 0 -> (2 <= length y <= length r)%nat ->
  (length r = length y -> val y <= val r) ->
  exists q0 shift nnsz r' sg', red_step y r sg = Some (q0, shift, nnsz, r', sg') /\
    is_digit q0 /\ digits r' /\ (nnsz <= length y)%nat /\
    let nsz := if shift then S (length y) else length y in
    (nsz <= length r)%nat /\
    let k := (length r - nsz)%nat in
    length r' = (k + nnsz)%nat /\
    (let d := val r - q0 * val y * β ^ Z.of_nat k in
     sg' = sg /\ val r' = d \/ sg' = negb sg /\ val r' = - d /\ d < 0 /\
       (shift = false -> val r' < β ^ Z.of_nat (length y - 1 + k))) /\
    (shift = false -> top2 y <= top2 r /\ 1 <= q0) /\
    (shift = true -> top2 r < top2 y /\ (nth (length r - 1) r 0 <> 0 -> 1 <= q0)) /\
    3 * Z.of_nat (length r') + phi y r' < 3 * Z.of_nat (length r) + phi y r.
Proof.
  intros Hy Hr Htop Hl Hge.
  destruct (top2_val y Hy ltac:(lia)) as (yl & Hyl & EV).
  pose proof (nth_digit (length y - 1) y Hy) as D1. pose proof (nth_digit (length y - 2) y Hy) as D2.
  pose proof (nth_digit (length r - 1) r Hr) as D3. pose proof (nth_digit (length r - 2) r Hr) as D4.
  destruct (quot_est_spec (nth (length y - 1) y 0) (nth (length y - 2) y 0)
     (nth (length r - 1) r 0) (nth (length r - 2) r 0) ltac:(lia) D2 D3 D4) as (q0 & shift & E & Hq & Hcase).
  fold (top2 y) (top2 r) in Hcase. 
  assert (HB : β <= top2 y) by (unfold top2, d2v; lia).
  set (P := β ^ Z.of_nat (length y - 2)) in *.
  assert (HPy : β ^ Z.of_nat (length y) = β * (β * P)).
  { replace (length y) with (S (S (length y - 2))) by lia. now rewrite !pow_S. }
  assert (HP : 0 < P) by apply pow_pos.
  set (nsz := if shift then S (length y) else length y).
  assert (Hn : (nsz <= length r)%nat).
  { subst nsz. destruct shift; [|lia]. destruct Hcase as [(? & _)|(_ & Hlt & _)]; [discriminate|].
    destruct (Nat.eq_dec (length r) (length y)) as [El|]; [|lia]. specialize (Hge El).
    destruct (top2_val r Hr ltac:(lia)) as (lo & Hlo & Er). fold (top2 r) in Er. rewrite El in *. fold P in Er, Hlo.
    fold (top2 y) in EV. exfalso. nia. }
  set (k := (length r - nsz)%nat).
  set (w := skipn k r). set (D := val w - q0 * val y).
  assert (Dw : digits w) by (apply digits_skipn; auto).
  assert (Lw : length w = nsz) by (unfold w; rewrite length_skipn; lia).
  assert (Hw2 : (2 <= length w)%nat) by (rewrite Lw; subst nsz; destruct shift; lia).
  destruct (top2_val w Dw Hw2) as (wl & Hwl & EW). fold (top2 w) in EW.
  assert (Etw : top2 w = top2 r) by (apply skipn_top2; unfold k; subst nsz; destruct shift; lia).
  rewrite Lw in Hwl, EW. rewrite Etw in EW.
  fold (top2 y) in EV.
  assert (HD : - β ^ Z.of_nat (length y) < D < β ^ Z.of_nat (length y) /\
    (shift = false -> - (β * P) < D <= top2 y * P + wl /\ (top2 r = top2 y -> - P < D < P))).
  { unfold D. rewrite EV, EW, HPy. destruct Hcase as [(-> & Hle & Hq1 & HR)|(-> & Hlt & Hc)]; unfold nsz in *.
    - fold P in Hwl |- *. destruct (est_noshift P (top2 r) (top2 y) wl yl q0) as [F1 F2]; auto; try lia.
      assert (top2 y <= β * β - 1) by (unfold top2, d2v; lia). 
      assert (top2 y * P <= (β * β - 1) * P) by (apply Z.mul_le_mono_nonneg_r; lia).
      split; [lia|]. intros _. split; auto.
    - replace (S (length y) - 2)%nat with (S (length y - 2)) in * by lia. rewrite pow_S in *. fold P in Hwl |- *.
      split; [|discriminate]. 
      apply (est_shift P (top2 r) _ _ (nth (length r - 1) r 0) (nth (length r - 2) r 0) wl yl q0); auto; lia. }
  destruct HD as [HD HDns].
  pose proof (red_apply_spec y r sg q0 shift Hy Hr Hq ltac:(lia) Hn HD) as RA.
  unfold red_step. rewrite E. destruct (red_apply y r sg q0 shift) as [[nnsz r'] sg'].
  fold nsz k in RA. fold w D in RA. destruct RA as (Hnn & Lr' & Dr' & RA).
  set (d := val r - q0 * val y * β ^ Z.of_nat k) in *.
  exists q0, shift, nnsz, r', sg'. fold nsz k. 
  pose proof (pow_pos k) as Pk.
  assert (Hneg : shift = false -> D < 0 -> val r' = - d -> val r' < β * P * β ^ Z.of_nat k).
  { intros Hs HD0 Ev. specialize (HDns Hs) as [HDl _].
    assert (d = val (firstn k r) + β ^ Z.of_nat k * D) as Ed
      by (unfold d, D, w; rewrite (val_split k r) by lia; ring).
    assert (Df : digits (firstn k r)) by (rewrite <- (firstn_skipn k r) in Hr; apply digits_app in Hr; tauto).
    pose proof (val_bound _ Df).
    assert (β ^ Z.of_nat k * - D < β ^ Z.of_nat k * (β * P)) by (apply Z.mul_lt_mono_pos_l; lia). lia. }
  split; [reflexivity|]. split; [exact Hq|]. split; [exact Dr'|]. split; [exact Hnn|].
  split; [exact Hn|]. split; [exact Lr'|]. splits.
  - destruct RA as [(? & ? & ?)|(HD0 & ? & Ev & ?)]; [left; auto|right].
    splits; auto. intros Hs. replace (length y - 1 + k)%nat with (S (length y - 2 + k)) by lia.
    rewrite pow_S, Nat2Z.inj_add, Z.pow_add_r by lia. fold P.
    specialize (Hneg Hs HD0 Ev). lia.
  - intros ->. destruct Hcase as [(_ & ? & ? & _)|(? & _)]; [auto|discriminate].
  - intros ->. destruct Hcase as [(? & _)|(_ & ? & Hc)]; [discriminate|]. split; auto.
    intros Ha. destruct Hc as [[? ?]|(? & ? & ?)]; [|lia].
    assert (β <= top2 r) by (unfold top2, d2v; lia). nia.
  - pose proof (phi_bounds y r). pose proof (phi_bounds y r').
    assert (Hlr : (length r' <= length r)%nat /\ (shift = true -> length r' < length r)%nat)
      by (rewrite Lr'; unfold k; subst nsz; destruct shift; split; intros; try discriminate; lia).
    destruct (Nat.eq_dec (length r') (length r)) as [El|]; [|lia].
    assert (shift = false) as -> by (destruct shift; auto; lia).
    destruct Hcase as [(_ & Hle & Hq1 & HR)|(? & _)]; [|discriminate].
    specialize (HDns eq_refl) as [HD1 HD2]. cbv beta iota delta [nsz] in Hwl. fold P in Hwl.
    assert (EK : β ^ Z.of_nat (length r - 2) = β ^ Z.of_nat k * P).
    { unfold P. rewrite <- Z.pow_add_r by lia. f_equal. unfold k, nsz. lia. }
    assert (Hlow : forall B, val r' < B * (β ^ Z.of_nat k * P) -> top2 r' < B).
    { intros B HB'. apply (top2_le r' B (length r)); auto; [lia|]. rewrite EK. exact HB'. }
    assert (Hphi0 : top2 r' < top2 y -> phi y r' < phi y r) by (unfold phi; zbool; lia).
    destruct RA as [(HD0 & _ & Ev)|(HD0 & _ & Ev & _)].
    + assert (Ed : d = val (firstn k r) + β ^ Z.of_nat k * D)
        by (unfold d, D, w; rewrite (val_split k r) by lia; ring).
      assert (Df : digits (firstn k r)) by (rewrite <- (firstn_skipn k r) in Hr; apply digits_app in Hr; tauto).
      pose proof (val_bound _ Df) as Bf. rewrite firstn_length_le in Bf by lia.
      assert (Hbd : forall M, D <= M - 1 -> val r' < β ^ Z.of_nat k * M).
      { intros M HM. assert (β ^ Z.of_nat k * D <= β ^ Z.of_nat k * (M - 1)) by (apply Z.mul_le_mono_nonneg_l; lia). lia. }
      destruct (Z.eq_dec (top2 r) (top2 y)) as [Et|Et].
      * apply Z.add_lt_mono_r with (p := 0). rewrite !Z.add_0_r. rewrite El.
        enough (phi y r' < phi y r) by lia. apply Hphi0.
        apply Z.lt_le_trans with 1; [|lia]. apply Hlow. specialize (HD2 Et). specialize (Hbd P ltac:(lia)). lia.
      * assert (top2 r' < top2 y + 1).
        { apply Hlow. specialize (Hbd ((top2 y + 1) * P) ltac:(lia)). lia. }
        rewrite El. unfold phi in *. revert H H0. zbool; lia.
    + rewrite El. enough (phi y r' < phi y r) by lia. apply Hphi0.
      apply Z.lt_le_trans with β; [|lia]. apply Hlow. specialize (Hneg eq_refl HD0 Ev). lia.
Qed.

Lemma mul_ge_1 a b : 0 < a -> 1 <= b -> 1 <= a * b.
Proof. nia. Qed.

Lemma D_add_loop_shape x c : digits x -> x <> [] -> is_digit c ->
  exists t b, (b = 0 \/ b = 1) /\ D_add_loop x c = t ++ (if b =? 0 then [] else [b]) /\
    length t = length x /\ digits t /\ val t + β ^ Z.of_nat (length x) * b = val x + c.
Proof.
  intros Hx. revert c. induction Hx as [|d x Hd Hx IH]; cbv beta in *; intros c Hne Hc; [congruence|].
  cbn [D_add_loop]. set (c' := b2z (wadd d c <? c)).
  assert (Ec : wadd d c + β * c' = d + c /\ is_digit (wadd d c) /\ (c' = 0 \/ c' = 1)) by (subst c'; wsolve).
  destruct Ec as (Ec & Hs & Hc'). destruct x as [|d' x].
  - exists [wadd d c], c'. cbn [D_add_loop length val app]. change (Z.of_nat 1) with 1. rewrite Z.pow_1_r.
    rewrite digits_cons. splits; auto with bignat; try lia.
    destruct Hc' as [-> | ->]; reflexivity.
  - destruct (IH c' ltac:(discriminate) ltac:(lia)) as (t & b & Hb & -> & E1 & E2 & E3).
    exists (wadd d c :: t), b. remember (d' :: x) as xx. cbn [length val app]. rewrite digits_cons, pow_S.
    splits; auto; lia.
Qed.

Lemma D_add_normal x c : digits x -> normal x -> is_digit c -> normal (D_add x c).
Proof.
  intros Hx [Hne Hn] Hc. unfold D_add.
  destruct (D_add_loop_shape x c Hx Hne Hc) as (t & b & Hb & -> & E1 & E2 & E3).
  destruct Hb as [-> | ->]; cbn [Z.eqb].
  - rewrite app_nil_r. assert (Ht : t <> []) by (intros ->; destruct x; cbn in *; congruence).
    destruct Hn as [Hn|Hn]; [split; auto; left; congruence|].
    apply normal_of_low; auto. rewrite E1. pose proof (last_app_val x 0 Hn Hne Hx). lia.
  - split; [intros F; apply app_eq_nil in F as [_ F]; discriminate|].
    right. rewrite last_last. lia.
Qed.

Lemma normal_zeros n x : digits x -> normal x -> 1 <= val x ->
  normal (repeat 0 n ++ x) /\ val (repeat 0 n ++ x) = β ^ Z.of_nat n * val x /\ digits (repeat 0 n ++ x).
Proof.
  intros Hx [Hne Hn] Hv.
  assert (E : val (repeat 0 n ++ x) = β ^ Z.of_nat n * val x) by (rewrite val_app, repeat_length, val_repeat0; lia).
  assert (D : digits (repeat 0 n ++ x)) by (apply digits_app; split; auto using digits_repeat0).
  splits; auto. apply normal_of_low; auto.
  - intros F; apply app_eq_nil in F as [_ F]; congruence.
  - rewrite E, length_app, repeat_length.
    pose proof (normal_low x Hx (conj Hne Hn) ltac:(lia)).
    assert (0 < length x)%nat by (destruct x; cbn; [congruence|lia]).
    replace (Z.of_nat (n + length x) - 1) with (Z.of_nat n + (Z.of_nat (length x) - 1)) by lia.
    rewrite Z.pow_add_r by lia. apply Z.mul_le_mono_nonneg_l; auto. pose proof (pow_pos n); lia.
Qed.

Lemma I_comp_nonneg x y : digits x -> digits y -> nth (length y - 1) y 0 <> 0 -> (0 < length y)%nat ->
  if I_comp x y >=? 0 then (length y <= length x)%nat /\ (length x = length y -> val y <= val x)
  else (length x <= length y)%nat /\ val x < val y.
Proof.
  intros Hx Hy Ht Hl. unfold I_comp.
  destruct (Nat.ltb_spec (length x) (length y)).
  - cbn. split; [lia|]. pose proof (val_bound x Hx).
    assert (Hne : y <> []) by (intros ->; cbn in Hl; lia).
    pose proof (last_app_val y 0) as L.
    destruct (exists_last Hne) as (t & e & ->). rewrite length_app in Ht. cbn [length] in Ht.
    rewrite app_nth2 in Ht by lia. replace (length t + 1 - 1 - length t)%nat with 0%nat in Ht by lia. cbn [nth] in Ht.
    rewrite last_last in L. specialize (L Ht Hne Hy).
    pose proof (Z.pow_le_mono_r β (Z.of_nat (length x)) (Z.of_nat (length (t ++ [e])) - 1)). lia.
  - destruct (Nat.ltb_spec (length y) (length x)); [cbn; lia|].
    rewrite I_comp_high_spec, !rev_involutive; rewrite ?length_rev; auto using digits_rev; [|lia].
    destruct (Z.compare_spec (val x) (val y)); cbn; lia.
Qed.

Definition sgnz (sg : bool) : Z := if sg then -1 else 1.

(** The quotient digits before the first step and after it. *)
Definition q_ready (y r q : list Z) (sg : bool) : Prop :=
  (nth (length r - 1) r 0 <> 0 /\ sg = false /\
     (q = [] /\ top2 r < top2 y \/ q = [0] /\ top2 y <= top2 r)) \/
  (digits q /\ normal q /\ 1 <= val q).

Lemma q_step y r q sg (shift : bool) q0 k' X d :
  digits y -> q_ready y r q sg -> is_digit q0 -> (0 < length y)%nat ->
  (shift = false -> top2 y <= top2 r /\ 1 <= q0) ->
  (shift = true -> top2 r < top2 y /\ (nth (length r - 1) r 0 <> 0 -> 1 <= q0)) ->
  let k := (if shift then S k' else k') in
  X = val y * val q * β ^ Z.of_nat k + sgnz sg * val r -> 0 < X -> 0 <= val r ->
  d = val r - q0 * val y * β ^ Z.of_nat k' ->
  (shift = false -> sg = true -> q0 < val q) ->
  let q1 := if shift then 0 :: q else q in
  let q2 := if sg then D_sub q1 q0 else D_add q1 q0 in
  digits q2 /\ normal q2 /\ 1 <= val q2 /\ X = val y * val q2 * β ^ Z.of_nat k' + sgnz sg * d.
Proof.
  intros Hy Hq Hq0 Hly Hns Hs k EX HX Hr Ed Hlt q1 q2.
  assert (E1 : digits q1 /\ normal q1 /\ val q1 * β ^ Z.of_nat k' = val q * β ^ Z.of_nat k /\
     (if sg then q0 < val q1 else 1 <= val q1 + q0)).
  { unfold q1, k. destruct Hq as [(Ht & -> & Hq)|(Dq & Nq & Hv)].
    - destruct Hq as [[-> Htp]|[-> Htp]]; destruct shift; try (destruct (Hns eq_refl)); try (destruct (Hs eq_refl)); try lia.
      + rewrite digits_cons. cbn [val]. splits; auto with bignat; try lia. split; [discriminate|left; reflexivity].
      + rewrite digits_cons. cbn [val]. splits; auto with bignat; try lia. split; [discriminate|left; reflexivity].
    - destruct (normal_zeros 1 q Dq Nq Hv) as (N1 & V1 & D1). cbn [repeat app] in *.
      destruct shift; [rewrite pow_S|]; change (Z.of_nat 1) with 1 in V1; rewrite ?Z.pow_1_r in *.
      + splits; auto; [rewrite V1; ring|]. destruct sg; lia.
      + splits; auto. destruct sg; [auto|lia]. }
  destruct E1 as (D1 & N1 & V1 & Hb). clearbody q1.
  assert (E2 : digits q2 /\ normal q2 /\ val q2 = val q1 + sgnz sg * q0 /\ 1 <= val q2).
  { unfold q2. destruct sg; cbn [sgnz].
    - unfold D_sub. destruct (D_sub_loop_spec q1 q0 D1 Hq0 ltac:(lia)) as (V & D & L).
      destruct (trim_spec (D_sub_loop q1 q0) D) as (V' & D' & N').
      { intros F; rewrite F in L. destruct N1 as [N1 _]. destruct q1; cbn in *; congruence. }
      splits; auto; lia.
    - destruct (D_add_loop_spec q1 q0 D1 Hq0 (or_introl (proj1 N1))) as (V & D).
      splits; auto; try (apply D_add_normal; auto); unfold D_add; lia. }
  destruct E2 as (D2 & N2 & V2 & H1). splits; auto.
  rewrite EX, V2, Ed. set (s := sgnz sg).
  replace (val y * val q * β ^ Z.of_nat k) with (val y * (val q * β ^ Z.of_nat k)) by ring.
  rewrite <- V1. ring.
Qed.

Lemma I_div_loop_spec fuel y r q sg X :
  digits y -> digits r -> nth (length y - 1) y 0 <> 0 -> (2 <= length y <= length r)%nat ->
  (length r = length y -> val y <= val r) ->
  q_ready y r q sg -> β ^ Z.of_nat (length r - 1) <= X ->
  X = val y * val q * β ^ Z.of_nat (length r - length y) + sgnz sg * val r ->
  3 * Z.of_nat (length r) + phi y r < Z.of_nat fuel ->
  exists r' q' sg', I_div_loop fuel y r q sg = Some (r', q', sg') /\
    digits r' /\ (length r' <= length y)%nat /\ val r' < val y /\
    let qf := skipn (length y - length r') q' in
    digits qf /\ normal qf /\ 1 <= val qf /\ X = val y * val qf + sgnz sg' * val r'.
Proof.
  intros Hy. revert r q sg. induction fuel as [|fuel IH]; intros r q sg Hr Ht Hl Hge Hq HX EX Hf.
  { pose proof (phi_bounds y r). lia. }
  cbn [I_div_loop].
  destruct (red_step_spec y r sg Hy Hr Ht Hl Hge) as (q0 & shift & nnsz & r' & sg' & -> & Hq0 & Dr' & Hnn & Hns & Lr' & Hd & Hnsh & Hsh & Hphi).
  set (k' := (length r - (if shift then S (length y) else length y))%nat) in *.
  assert (Hk : (length r - length y)%nat = if shift then S k' else k') by (unfold k'; destruct shift; lia).
  set (d := val r - q0 * val y * β ^ Z.of_nat k') in *. cbv zeta in Hd.
  pose proof (val_bound r Hr) as Br. pose proof (pow_pos (length r - 1)).
  destruct (q_step y r q sg shift q0 k' X d) as (D2 & N2 & V2 & E2); auto; try lia.
  { rewrite <- Hk. exact EX. }
  { intros -> ->. rewrite Hk in EX. cbn [sgnz] in EX.
    apply Z.lt_nge. intros C.
    assert (val q * (val y * β ^ Z.of_nat k') <= q0 * (val y * β ^ Z.of_nat k')).
    { apply Z.mul_le_mono_nonneg_r; auto. pose proof (val_bound y Hy). pose proof (pow_pos k'). nia. }
    assert (Hdn : X <= - d) by (unfold d; lia).
    destruct Hd as [(_ & Ev)|(_ & Ev & Hneg & Hup)].
    - pose proof (val_bound r' Dr'). lia.
    - specialize (Hup eq_refl). rewrite Ev in Hup.
      replace (length y - 1 + k')%nat with (length r - 1)%nat in Hup by (unfold k'; lia). lia. }
  set (q2 := if sg then _ else _) in *. clearbody q2.
  assert (E3 : X = val y * val q2 * β ^ Z.of_nat k' + sgnz sg' * val r').
  { rewrite E2. f_equal. destruct Hd as [(-> & ->)|(-> & -> & _)]; [reflexivity|]. destruct sg; cbn; lia. }
  assert (Hlen : (length r' <= length r)%nat) by (rewrite Lr'; unfold k'; destruct shift; lia).
  pose proof (I_comp_nonneg r' y Dr' Hy Ht ltac:(lia)) as IC.
  destruct (I_comp r' y >=? 0).
  - destruct (normal_zeros (length y - nnsz) q2 D2 N2 V2) as (N3 & V3 & D3).
    apply IH; auto; try lia.
    + right. splits; auto. rewrite V3. apply mul_ge_1; auto using pow_pos.
    + eapply Z.le_trans; [|exact HX]. apply Z.pow_le_mono_r; lia.
    + rewrite E3, V3. f_equal.
      replace (Z.of_nat k') with (Z.of_nat (length y - nnsz) + Z.of_nat (length r' - length y)) by lia.
      rewrite Z.pow_add_r by lia. ring.
  - destruct IC as [Hle Hlt].
    assert (Eqf : skipn (length y - length r') (repeat 0 (length y - nnsz) ++ q2) = repeat 0 k' ++ q2).
    { rewrite skipn_app, repeat_length.
      replace (length y - length r' - (length y - nnsz))%nat with 0%nat by lia. rewrite skipn_O. f_equal.
      replace (length y - nnsz)%nat with ((length y - length r') + k')%nat by lia.
      rewrite repeat_app, skipn_app, repeat_length, Nat.sub_diag, skipn_all2 by (rewrite repeat_length; lia).
      reflexivity. }
    exists r', (repeat 0 (length y - nnsz) ++ q2), sg'. rewrite Eqf.
    destruct (normal_zeros k' q2 D2 N2 V2) as (N3 & V3 & D3).
    splits; auto; cbv zeta; splits; auto; rewrite V3; first [solve [apply mul_ge_1; auto using pow_pos] | rewrite E3; ring].
Qed.

Lemma normal_top x : normal x -> (2 <= length x)%nat -> nth (length x - 1) x 0 <> 0.
Proof.
  intros [Hne [H|H]] Hl; [lia|]. destruct (exists_last Hne) as (t & e & ->).
  rewrite last_last in H. rewrite length_app. cbn [length].
  rewrite app_nth2 by lia. replace (length t + 1 - 1 - length t)%nat with 0%nat by lia. exact H.
Qed.

(** What is left of the running remainder when the loop stops. *)
Lemma final_rem r : digits r ->
  let t := trim (match r with [] => [0] | _ => r end) in
  digits t /\ normal t /\ val t = val r /\
  ((1 <? length t)%nat || negb (hd 0 t =? 0)) = negb (val r =? 0).
Proof.
  intros Hr t. set (r0 := match r with [] => [0] | _ => r end) in *.
  assert (H0 : digits r0 /\ r0 <> [] /\ val r0 = val r).
  { unfold r0. destruct r; splits; auto; try discriminate. rewrite digits_cons. splits; auto with bignat; lia. }
  destruct H0 as (D0 & Hne & E0). destruct (trim_spec r0 D0 Hne) as (E & D & N). fold t in E, D, N.
  splits; auto; [lia|]. rewrite <- E0, <- E.
  destruct t as [|d [|d' t]]; [destruct N; congruence| |].
  - cbn [length Nat.ltb Nat.leb hd val orb]. rewrite Z.mul_0_r, Z.add_0_r. reflexivity.
  - cbn [length Nat.ltb Nat.leb orb]. destruct (Z.eqb_spec (val (d :: d' :: t)) 0) as [F|F]; [|reflexivity].
    destruct N as [_ [N|N]]; [cbn in N; lia|].
    pose proof (last_app_val _ 0 N ltac:(discriminate) D) as L. rewrite F in L.
    pose proof (Z.pow_pos_nonneg β (Z.of_nat (length (d :: d' :: t)) - 1) ltac:(lia) ltac:(cbn; lia)). lia.
Qed.

Lemma I_div_spec x y :
  digits x -> digits y -> normal x -> normal y -> (2 <= length y)%nat -> val y <= val x ->
  exists q r, I_div x y = Some (q, r) /\ digits q /\ normal q /\ digits r /\ normal r /\
    val q = val x / val y /\ val r = val x mod val y.
Proof.
  intros Hx Hy Nx Ny Hl Hge.
  pose proof (normal_top y Ny Hl) as Hty.
  pose proof (normal_low y Hy Ny) as Hly. pose proof (val_bound x Hx) as Bx.
  assert (Hvy : 0 < val y).
  { destruct Ny as [Hne [N|N]]; [lia|]. pose proof (last_app_val _ 0 N Hne Hy) as L.
    pose proof (Z.pow_pos_nonneg β (Z.of_nat (length y) - 1) ltac:(lia) ltac:(lia)). lia. }
  assert (Hlx : (length y <= length x)%nat).
  { apply Nat.le_ngt; intros C. specialize (Hly ltac:(lia)).
    pose proof (Z.pow_le_mono_r β (Z.of_nat (length x)) (Z.of_nat (length y) - 1)). lia. }
  pose proof (normal_top x Nx ltac:(lia)) as Htx. pose proof (normal_low x Hx Nx ltac:(lia)) as Hlowx.
  pose proof (nth_digit (length y - 1) y Hy). pose proof (nth_digit (length y - 2) y Hy).
  pose proof (nth_digit (length x - 1) x Hx). pose proof (nth_digit (length x - 2) x Hx).
  set (q0 := if (nth (length y - 1) y 0 <? nth (length x - 1) x 0)
      || ((nth (length y - 1) y 0 =? nth (length x - 1) x 0) && (nth (length y - 2) y 0 <=? nth (length x - 2) x 0))
      then [0] else []).
  assert (Hq : q_ready y x q0 false).
  { left. splits; auto. unfold q0, top2, d2v. zbool; cbn [orb andb]; lia || (left; split; [reflexivity|lia]) || (right; split; [reflexivity|lia]). }
  pose proof (phi_bounds y x).
  destruct (I_div_loop_spec (3 * length x + 3) y x q0 false (val x)) as (r & q & sg & E & Dr & Lr & Hr & Dq & Nq & Vq & EX); auto; try lia.
  { replace (Z.of_nat (length x - 1)) with (Z.of_nat (length x) - 1) by lia. exact Hlowx. }
  { assert (val q0 = 0) as -> by (unfold q0; destruct (_ || _); reflexivity). cbn [sgnz]. lia. }
  unfold I_div. fold q0. rewrite E.
  set (qf := skipn (length y - length r) q) in *. clearbody qf. clear E Hq.
  pose proof (val_bound r Dr) as Br.
  destruct (final_rem r Dr) as (Dt & Nt & Et & ->).
  set (t := trim _) in *. clearbody t.
  assert (Hfin : forall q' r', val x = val y * q' + r' -> 0 <= r' < val y -> q' = val x / val y /\ r' = val x mod val y).
  { intros q' r' E1 E2. split; [apply Z.div_unique with (r := r')|apply Z.mod_unique with (q := q')]; lia. }
  destruct sg; cbn [andb sgnz] in *.
  - destruct (Z.eqb_spec (val r) 0) as [Ez|Ez]; cbn [negb].
    + exists qf, t. destruct (Hfin (val qf) (val t)); splits; auto; lia.
    + destruct (D_sub_loop_spec qf 1 Dq ltac:(lia) ltac:(lia)) as (V & D & L).
      destruct (trim_spec (D_sub_loop qf 1) D) as (V' & D' & N').
      { intros F; rewrite F in L. destruct Nq as [Nq _]. destruct qf; cbn in *; congruence. }
      assert (Hlt : (length t <= length y)%nat).
      { apply Nat.le_ngt; intros C. pose proof (normal_low t Dt Nt ltac:(lia)).
        pose proof (val_bound y Hy). pose proof (Z.pow_le_mono_r β (Z.of_nat (length y)) (Z.of_nat (length t) - 1)). lia. }
      destruct (I_sub_loop_spec y t 0 Hy Dt Hlt ltac:(lia) ltac:(lia)) as (W & DW & LW).
      destruct (trim_spec (I_sub_loop y t 0) DW) as (W' & DW' & NW').
      { intros F; rewrite F in LW. cbn in LW. lia. }
      exists (D_sub qf 1), (I_sub y t). unfold D_sub, I_sub.
      destruct (Hfin (val qf - 1) (val y - val t)); try lia. splits; auto; lia.
  - exists qf, t. destruct (Hfin (val qf) (val t)); splits; auto; lia.
Qed.

(** I_rem runs the same reduction as I_div without recording quotient digits. *)
Lemma I_rem_loop_div fuel y r q sg :
  I_rem_loop fuel y r sg = option_map (fun '(r, _, sg) => (r, sg)) (I_div_loop fuel y r q sg).
Proof.
  revert r q sg. induction fuel as [|fuel IH]; intros r q sg; [reflexivity|].
  cbn [I_rem_loop I_div_loop].
  destruct (red_step y r sg) as [[[[[q0 shift] nnsz] r'] sg']|]; [|reflexivity].
  destruct (I_comp r' y >=? 0); [apply IH|reflexivity].
Qed.

Lemma I_rem_div x y : I_rem x y = option_map snd (I_div x y).
Proof.
  unfold I_rem, I_div.
  match goal with |- context [I_div_loop ?f y x ?q false] => rewrite (I_rem_loop_div f y x q) end.
  destruct (I_div_loop _ _ _ _ _) as [[[r q] sg]|]; [|reflexivity]. cbn [option_map].
  destruct (sg && _); reflexivity.
Qed.
