(* ===== verification/BigBits.v ===== *)
(** Bitwise and, or, xor and not of signed digit vectors. The four loops of each operation are
    instances of [bit_loop], whose lemma is about any bitwise operation (class [BitOp]). *)

From S2P Require Import Prelude Digits DigitDiv BigNat BigMul LongDiv LongDivSpec.

(** Remove the high digits that are all ones. *)
Fixpoint drop_ones (xs : list Z) : list Z :=
  match xs with
  | [] => []
  | d :: xs => match drop_ones xs with
               | [] => if d =? β - 1 then [] else [d]
               | t => d :: t
               end
  end.
(** The loop that finds the run of ones at the top of the high digit; 64 rounds are enough
    ([top_mask_fuel]). *)
Fixpoint top_mask (fuel : nat) (d mask prev_mask : Z) : Z :=
  match fuel with
  | O => prev_mask
  | S fuel =>
      if Z.land d mask =? mask
      then top_mask fuel d (Z.lor (wshr mask 1) (wshl 1 63)) mask
      else prev_mask
  end.
(** The complement of the high digit. *)
Definition btrail_top (d : Z) : Z :=
  if d =? β - 1 then 0 else Z.land (wnot d) (wnot (top_mask 64 d (wshl 1 63) 0)).

(** [I_btrail]: the result of a bitwise loop as sign and magnitude. *)
Definition I_btrail (r : list Z) (sign : bool) : list Z :=
  if sign then
    let r := match drop_ones r with [] => firstn 1 r | t => t end in
    D_add (map wnot (removelast r) ++ [btrail_top (last r 0)]) 1
  else trim r.

Section BitLoops.
Variable f : Z -> Z -> Z.
(** The loop of two positive operands; [tl] handles the high digits of the longer one. *)
Fixpoint bit_pp (tl : list Z -> list Z) (x y : list Z) : list Z :=
  match x, y with
  | xd :: x, yd :: y => f xd yd :: bit_pp tl x y
  | x, _ => tl x
  end.
(** The loop that reads y as the complement of y - 1. *)
Fixpoint bit_pn (tl : list Z -> list Z) (x y : list Z) (b : Z) : list Z :=
  match x, y with
  | xd :: x, yd :: y => let '(b, c) := DSUBb yd 0 b in f xd (wnot c) :: bit_pn tl x y b
  | x, _ => tl x
  end.
(** The loop that reads x as the complement of x - 1. *)
Fixpoint bit_np (tl : list Z -> Z -> list Z) (x y : list Z) (b : Z) : list Z :=
  match x, y with
  | xd :: x, yd :: y => let '(b, c) := DSUBb xd 0 b in f (wnot c) yd :: bit_np tl x y b
  | x, _ => tl x b
  end.
(** The loop that reads both operands as complements. *)
Fixpoint bit_nn (tl : list Z -> Z -> list Z) (x y : list Z) (b1 b2 : Z) : list Z :=
  match x, y with
  | xd :: x, yd :: y =>
      let '(b1, c1) := DSUBb xd 0 b1 in
      let '(b2, c2) := DSUBb yd 0 b2 in
      f (wnot c1) (wnot c2) :: bit_nn tl x y b1 b2
  | x, _ => tl x b1
  end.
(** The first digit, where 1 is subtracted. *)
Definition first_pn tl (x y : list Z) : list Z :=
  match x, y with
  | xd :: x, yd :: y => let '(b, c) := DSUB yd 1 in f xd (wnot c) :: bit_pn tl x y b
  | _, _ => []
  end.
(** The first digit, where 1 is subtracted. *)
Definition first_np tl (x y : list Z) : list Z :=
  match x, y with
  | xd :: x, yd :: y => let '(b, c) := DSUB xd 1 in f (wnot c) yd :: bit_np tl x y b
  | _, _ => []
  end.
(** The first digits, where 1 is subtracted from both. *)
Definition first_nn tl (x y : list Z) : list Z :=
  match x, y with
  | xd :: x, yd :: y =>
      let '(b1, c1) := DSUB xd 1 in
      let '(b2, c2) := DSUB yd 1 in
      f (wnot c1) (wnot c2) :: bit_nn tl x y b1 b2
  | _, _ => []
  end.
End BitLoops.

(** The tail loop of [I_bor] that carries the borrow on. *)
Fixpoint borrow_not (x : list Z) (b : Z) : list Z :=
  match x with
  | [] => []
  | xd :: x => let '(b, c) := DSUBb xd 0 b in wnot c :: borrow_not x b
  end.

(** No loop over the high digits. *)
Definition drop_rest (x : list Z) : list Z := [].
(** The high digits are copied. *)
Definition copy_rest (x : list Z) : list Z := x.
(** The high digits are complemented, without the borrow. *)
Definition not_rest (x : list Z) : list Z := map wnot x.

(** [I_band]: bitwise and of two signed digit vectors, the first one at least as long. *)
Definition I_band (x : list Z) (xsgn : bool) (y : list Z) (ysgn : bool) : list Z :=
  let r :=
    match xsgn, ysgn with
    | false, false => bit_pp Z.land drop_rest x y
    | false, true => first_pn Z.land copy_rest x y
    | true, false => first_np Z.land (fun x _ => drop_rest x) x y
    | true, true => first_nn Z.land (fun x _ => not_rest x) x y
    end in
  I_btrail r (xsgn && ysgn).
(** [I_bor]. *)
Definition I_bor (x : list Z) (xsgn : bool) (y : list Z) (ysgn : bool) : list Z :=
  let r :=
    match xsgn, ysgn with
    | false, false => bit_pp Z.lor copy_rest x y
    | false, true => first_pn Z.lor drop_rest x y
    | true, false => first_np Z.lor borrow_not x y
    | true, true => first_nn Z.lor (fun x _ => drop_rest x) x y
    end in
  I_btrail r (xsgn || ysgn).
(** [I_bxor]. *)
Definition I_bxor (x : list Z) (xsgn : bool) (y : list Z) (ysgn : bool) : list Z :=
  let r :=
    match xsgn, ysgn with
    | false, false => bit_pp Z.lxor copy_rest x y
    | false, true => first_pn Z.lxor not_rest x y
    | true, false => first_np Z.lxor (fun x _ => not_rest x) x y
    | true, true => first_nn Z.lxor (fun x _ => copy_rest x) x y
    end in
  I_btrail r (xorb xsgn ysgn).
(** [I_bnot]; the flag is the sign of the result. *)
Definition I_bnot (x : list Z) (xsgn : bool) : list Z :=
  if xsgn then D_add x 1 else D_sub x 1.

(** The signed value of a sign and a magnitude. *)
Definition sv (s : bool) (x : list Z) : Z := if s then - val x else val x.
(** The value a bitwise loop leaves in the result vector: with the sign set it
    is in two's complement over the length of the vector. *)
Definition tv (s : bool) (r : list Z) : Z := if s then val r - β ^ Z.of_nat (length r) else val r.

(** ** Bitwise operations, bit by bit *)

Class BitOp (f : Z -> Z -> Z) (g : bool -> bool -> bool) : Prop := {
  bitop_spec a b i : 0 <= i -> Z.testbit (f a b) i = g (Z.testbit a i) (Z.testbit b i);
  bitop_ff : g false false = false }.
#[global] Instance BitOp_land : BitOp Z.land andb.
Proof. split; [intros; apply Z.land_spec|reflexivity]. Qed.
#[global] Instance BitOp_lor : BitOp Z.lor orb.
Proof. split; [intros; apply Z.lor_spec|reflexivity]. Qed.
#[global] Instance BitOp_lxor : BitOp Z.lxor xorb.
Proof. split; [intros; apply Z.lxor_spec|reflexivity]. Qed.

Lemma testbit_join k a u i : 0 <= k -> 0 <= i -> 0 <= a < 2^k ->
  Z.testbit (a + 2^k * u) i = if i <? k then Z.testbit a i else Z.testbit u (i - k).
Proof.
  intros Hk Hi Ha. assert (0 < 2^k) by lia. destruct (Z.ltb_spec i k).
  - rewrite <- (Z.mod_pow2_bits_low (a + 2^k * u) k i) by lia. f_equal. 
    rewrite Z.mul_comm, Z.mod_add, Z.mod_small; lia.
  - replace i with (i - k + k) at 1 by lia. rewrite <- Z.div_pow2_bits by lia. f_equal.
    rewrite Z.mul_comm, Z.div_add, Z.div_small; lia.
Qed.

Lemma bits_in_range k a : 0 <= k -> (forall i, k <= i -> Z.testbit a i = false) -> 0 <= a < 2^k.
Proof.
  intros Hk H. replace a with (a mod 2^k); [apply Z.mod_pos_bound; lia|].
  apply Z.bits_inj'. intros i Hi. destruct (Z.lt_ge_cases i k).
  - now rewrite Z.mod_pow2_bits_low.
  - rewrite Z.mod_pow2_bits_high, H by lia. reflexivity.
Qed.
Lemma testbit_high k a i : 0 <= a < 2^k -> k <= i -> 0 <= k -> Z.testbit a i = false.
Proof.
  intros Ha Hi Hk. rewrite <- (Z.mod_small a (2^k)) by lia. apply Z.mod_pow2_bits_high; lia.
Qed.

Section BitOps.
Context (f : Z -> Z -> Z) (g : bool -> bool -> bool) `{Hf : !BitOp f g}.

Lemma bitop_range k a b : 0 <= k -> 0 <= a < 2^k -> 0 <= b < 2^k -> 0 <= f a b < 2^k.
Proof.
  intros Hk Ha Hb. apply bits_in_range; auto. intros i Hi.
  rewrite bitop_spec, (testbit_high k a), (testbit_high k b) by lia. apply bitop_ff.
Qed.
Lemma bitop_join k a b u v : 0 <= k -> 0 <= a < 2^k -> 0 <= b < 2^k ->
  f (a + 2^k * u) (b + 2^k * v) = f a b + 2^k * f u v.
Proof.
  intros Hk Ha Hb. pose proof (bitop_range k a b Hk Ha Hb).
  apply Z.bits_inj'. intros i Hi. rewrite bitop_spec, !testbit_join by auto.
  destruct (Z.ltb_spec i k); rewrite bitop_spec by lia; reflexivity.
Qed.
Lemma bitop_digit a b : is_digit a -> is_digit b -> is_digit (f a b).
Proof. change β with (2^64). intros. apply bitop_range; lia. Qed.
Lemma bitop_digit_join a b u v : is_digit a -> is_digit b -> f (a + β * u) (b + β * v) = f a b + β * f u v.
Proof. change β with (2^64). intros. apply bitop_join; lia. Qed.
End BitOps.

Lemma wnot_digit a : is_digit a -> is_digit (wnot a).
Proof. unfold wnot. lia. Qed.
Lemma lnot_join a u : Z.lnot (a + β * u) = wnot a + β * Z.lnot u.
Proof. unfold wnot, Z.lnot. lia. Qed.
Lemma wnot_val x : val (map wnot x) = β ^ Z.of_nat (length x) - 1 - val x.
Proof.
  induction x as [|d x IH]; [reflexivity|]. cbn [map val length]. rewrite IH, pow_S. unfold wnot. lia.
Qed.
Lemma digits_wnot x : digits x -> digits (map wnot x).
Proof. induction 1; constructor; auto using wnot_digit. Qed.
#[export] Hint Resolve digits_wnot wnot_digit : bignat.


(** ** The four loops as one

    A negative operand -X is read as the digits of lnot (X - 1), borrow
    included; a positive one is read as it is. *)
Definition sdig (s : bool) (d b : Z) : Z * Z :=
  if s then let '(b, c) := DSUBb d 0 b in (b, wnot c) else (b, d).
Definition sval (s : bool) (X b : Z) : Z := if s then Z.lnot (X - b) else X.

Lemma sdig_spec s d b X : is_digit d -> 0 <= b <= 1 ->
  let '(b', e) := sdig s d b in
  is_digit e /\ 0 <= b' <= 1 /\ sval s (d + β * X) b = e + β * sval s X b' /\
  b' = if s then b2z (d <? b) else b.
Proof.
  intros Hd Hb. destruct s; [|cbn; splits; auto; lia]. unfold sdig, DSUBb, sval, Z.lnot.
  unw. zbool; cbn; splits; lia.
Qed.

Fixpoint bit_loop (f : Z -> Z -> Z) (sx sy : bool) (tl : list Z -> Z -> list Z) (x y : list Z) (b1 b2 : Z) : list Z :=
  match x, y with
  | xd :: x, yd :: y =>
      let '(b1, c1) := sdig sx xd b1 in
      let '(b2, c2) := sdig sy yd b2 in
      f c1 c2 :: bit_loop f sx sy tl x y b1 b2
  | x, _ => tl x b1
  end.

Lemma bit_loop_spec f g `{!BitOp f g} (sx sy : bool) tl x y b1 b2 :
  digits x -> digits y -> (length y <= length x)%nat -> 0 <= b1 <= 1 -> 0 <= b2 <= 1 ->
  let b1' := if sx then b2z (val (firstn (length y) x) <? b1) else b1 in
  let b2' := if sy then b2z (val y <? b2) else b2 in
  exists zs, bit_loop f sx sy tl x y b1 b2 = zs ++ tl (skipn (length y) x) b1' /\
    length zs = length y /\ digits zs /\
    f (sval sx (val x) b1) (sval sy (val y) b2) =
      val zs + β ^ Z.of_nat (length y) * f (sval sx (val (skipn (length y) x)) b1') (sval sy 0 b2').
Proof.
  intros Hx Hy. revert x b1 b2 Hx. induction Hy as [|yd y Hyd Hy IH]; cbv beta in *; intros x b1 b2 Hx Hl H1 H2.
  - exists []. cbn [length firstn skipn val]. change (Z.of_nat 0) with 0. rewrite Z.pow_0_r.
    assert (E1 : b1 = if sx then b2z (0 <? b1) else b1) by (destruct sx; unfold b2z; zbool; lia).
    assert (E2 : b2 = if sy then b2z (0 <? b2) else b2) by (destruct sy; unfold b2z; zbool; lia).
    rewrite <- E1, <- E2. splits; auto with bignat; [destruct x; reflexivity|]. lia.
  - destruct x as [|xd x]; [cbn in Hl; lia|]. apply digits_cons in Hx as [Hxd Hx]. cbn in Hl.
    cbn [bit_loop length firstn skipn val].
    pose proof (sdig_spec sx xd b1 (val x) Hxd H1) as S1. destruct (sdig sx xd b1) as [b1' c1].
    pose proof (sdig_spec sy yd b2 (val y) Hyd H2) as S2. destruct (sdig sy yd b2) as [b2' c2].
    destruct S1 as (D1 & B1 & V1 & E1), S2 as (D2 & B2 & V2 & E2).
    destruct (IH x b1' b2' Hx ltac:(lia) B1 B2) as (zs & Hz & Lz & Dz & Vz). exists (f c1 c2 :: zs).
    pose proof (val_bound _ (digits_firstn (length y) _ Hx)) as Bx. pose proof (val_bound y Hy) as By.
    assert (F1 : (if sx then b2z (xd + β * val (firstn (length y) x) <? b1) else b1) =
                 (if sx then b2z (val (firstn (length y) x) <? b1') else b1')).
    { subst b1'. destruct sx; [|reflexivity]. unfold b2z. destruct (Z.ltb_spec xd b1); zbool; lia. }
    assert (F2 : (if sy then b2z (yd + β * val y <? b2) else b2) = (if sy then b2z (val y <? b2') else b2')).
    { subst b2'. destruct sy; [|reflexivity]. unfold b2z. destruct (Z.ltb_spec yd b2); zbool; lia. }
    rewrite F1, F2, V1, V2, (bitop_digit_join f g), Vz, pow_S by auto. cbn [val length]. splits.
    + rewrite Hz. reflexivity.
    + lia.
    + apply digits_cons. split; auto. now apply (bitop_digit f g).
    + ring.
Qed.

(** ** The loops of the source are instances *)
Section Instances.
Context (f : Z -> Z -> Z).
Lemma bit_pp_loop tl x y b1 b2 : bit_pp f tl x y = bit_loop f false false (fun x _ => tl x) x y b1 b2.
Proof. revert y; induction x as [|a x IH]; intros [|b y]; cbn; auto. now rewrite IH. Qed.
Lemma bit_pn_loop tl x y b : bit_pn f tl x y b = bit_loop f false true (fun x _ => tl x) x y 0 b.
Proof.
  revert y b; induction x as [|a x IH]; intros [|e y] b; cbn [bit_pn bit_loop sdig]; auto.
  destruct (DSUBb e 0 b). now rewrite IH.
Qed.
Lemma bit_np_loop tl x y b : bit_np f tl x y b = bit_loop f true false tl x y b 0.
Proof.
  revert y b; induction x as [|a x IH]; intros [|e y] b; cbn [bit_np bit_loop sdig]; auto.
  destruct (DSUBb a 0 b). now rewrite IH.
Qed.
Lemma bit_nn_loop tl x y b1 b2 : bit_nn f tl x y b1 b2 = bit_loop f true true tl x y b1 b2.
Proof.
  revert y b1 b2; induction x as [|a x IH]; intros [|e y] b1 b2; cbn [bit_nn bit_loop sdig]; auto.
  destruct (DSUBb a 0 b1), (DSUBb e 0 b2). now rewrite IH.
Qed.

Lemma DSUB_1 d : is_digit d -> DSUB d 1 = DSUBb d 0 1.
Proof. intros Hd. unfold DSUB, DSUBb. unw. f_equal; zbool; lia. Qed.
Lemma first_pn_loop tl x y : digits y -> y <> [] -> x <> [] ->
  first_pn f tl x y = bit_loop f false true (fun x _ => tl x) x y 0 1.
Proof.
  intros Hy Ny Nx. destruct x as [|a x], y as [|e y]; try congruence. apply digits_cons in Hy as [He _].
  cbn [first_pn bit_loop sdig]. rewrite DSUB_1 by auto. destruct (DSUBb e 0 1). now rewrite bit_pn_loop.
Qed.
Lemma first_np_loop tl x y : digits x -> y <> [] -> x <> [] ->
  first_np f tl x y = bit_loop f true false tl x y 1 0.
Proof.
  intros Hx Ny Nx. destruct x as [|a x], y as [|e y]; try congruence. apply digits_cons in Hx as [He _].
  cbn [first_np bit_loop sdig]. rewrite DSUB_1 by auto. destruct (DSUBb a 0 1). now rewrite bit_np_loop.
Qed.
Lemma first_nn_loop tl x y : digits x -> digits y -> y <> [] -> x <> [] ->
  first_nn f tl x y = bit_loop f true true tl x y 1 1.
Proof.
  intros Hx Hy Ny Nx. destruct x as [|a x], y as [|e y]; try congruence.
  apply digits_cons in Hx as [Ha _]. apply digits_cons in Hy as [He _].
  cbn [first_nn bit_loop sdig]. rewrite !DSUB_1 by auto. destruct (DSUBb a 0 1), (DSUBb e 0 1). now rewrite bit_nn_loop.
Qed.
End Instances.

(** ** The trailing digits: I_btrail *)
Lemma wnot_lnot d : is_digit d -> wnot d = Z.land (Z.lnot d) (β - 1).
Proof.
  intros Hd. change (β - 1) with (Z.ones 64). rewrite Z.land_ones by lia. unfold wnot, Z.lnot.
  change (2^64) with β. lia.
Qed.

(** The mask of the [k] top bits. *)
Definition hmask (k : Z) : Z := β - 2 ^ (64 - k).

Lemma hmask_next k : 1 <= k <= 63 -> Z.lor (wshr (hmask k) 1) (wshl 1 63) = hmask (k + 1).
Proof.
  intros Hk. change (wshl 1 63) with (2^63). unfold wshr. rewrite Z.shiftr_div_pow2, Z.pow_1_r by lia.
  assert (E : hmask k / 2 = 2^63 - 2^(63-k)).
  { unfold hmask. replace (64 - k) with (Z.succ (63 - k)) by lia. rewrite Z.pow_succ_r by lia. lia. }
  assert (0 < 2^(63-k) <= 2^63) by (split; [lia | apply Z.pow_le_mono_r; lia]).
  rewrite E, Z.lor_comm, <- (Z.mul_1_l (2^63)), lor_disjoint by lia.
  unfold hmask. replace (64 - (k + 1)) with (63 - k) by lia. lia.
Qed.

Lemma top_mask_spec fuel d k prev : is_digit d -> d <> β - 1 -> 1 <= k <= 64 -> 65 - k <= Z.of_nat fuel ->
  Z.land d prev = prev ->
  top_mask fuel d (hmask k) prev = top_mask (Z.to_nat (65 - k)) d (hmask k) prev /\
  Z.land d (top_mask fuel d (hmask k) prev) = top_mask fuel d (hmask k) prev.
Proof.
  intros Hd Hne. revert k prev. induction fuel as [|fuel IH]; intros k prev Hk Hf Hp; [lia|].
  replace (Z.to_nat (65 - k)) with (S (Z.to_nat (65 - (k + 1)))) by lia. cbn [top_mask].
  destruct (Z.eqb_spec (Z.land d (hmask k)) (hmask k)) as [E|E]; [|auto].
  destruct (Z.eq_dec k 64) as [->|].
  - exfalso. change (hmask 64) with (Z.ones 64) in E. rewrite Z.land_ones, Z.mod_small in E by lia.
    change (Z.ones 64) with (β - 1) in E. congruence.
  - rewrite hmask_next by lia. apply IH; auto; lia.
Qed.

(** The fuel of the mask loop is enough: more of it changes nothing. *)
Lemma top_mask_fuel n d : is_digit d -> d <> β - 1 ->
  top_mask (64 + n) d (wshl 1 63) 0 = top_mask 64 d (wshl 1 63) 0.
Proof.
  intros Hd Hne. change (wshl 1 63) with (hmask 1).
  destruct (top_mask_spec (64 + n) d 1 0 Hd Hne) as [-> _]; [lia| |now rewrite Z.land_0_r|reflexivity].
  lia.
Qed.

Lemma btrail_top_spec d : is_digit d -> d <> β - 1 -> btrail_top d = wnot d.
Proof.
  intros Hd Hne. unfold btrail_top. destruct (Z.eqb_spec d (β - 1)); [congruence|].
  change (wshl 1 63) with (hmask 1).
  destruct (top_mask_spec 64 d 1 0 Hd Hne) as [_ E]; [lia|lia|now rewrite Z.land_0_r|].
  set (m := top_mask 64 d (hmask 1) 0) in *.
  assert (Hm : 0 <= m) by (rewrite <- E; apply Z.land_nonneg; lia).
  assert (Hm2 : is_digit m).
  { change β with (2^64) in *. apply bits_in_range; [lia|]. intros i Hi. rewrite <- E, Z.land_spec, (testbit_high 64 d) by lia. reflexivity. }
  rewrite !wnot_lnot by auto. apply Z.bits_inj'. intros i Hi.
  rewrite !Z.land_spec, !Z.lnot_spec by auto.
  assert (Ei : Z.testbit m i = Z.testbit d i && Z.testbit m i) by (rewrite <- Z.land_spec, E; reflexivity).
  destruct (Z.testbit d i), (Z.testbit m i), (Z.testbit (β - 1) i); cbn in *; congruence.
Qed.

Lemma drop_ones_spec x : digits x ->
  tv true (drop_ones x) = tv true x /\ digits (drop_ones x) /\
  (drop_ones x = [] \/ last (drop_ones x) 0 <> β - 1).
Proof.
  unfold tv. induction 1 as [|d x Hd Hx (IH1 & IH2 & IH3)]; cbv beta in *; [cbn; auto with bignat|].
  cbn [drop_ones]. destruct (drop_ones x) as [|e t] eqn:E.
  - cbn [val length] in IH1. change (Z.of_nat 0) with 0 in IH1. rewrite Z.pow_0_r in IH1.
    destruct (Z.eqb_spec d (β - 1)); cbn [val length]; rewrite !pow_S; change (Z.of_nat 0) with 0; rewrite Z.pow_0_r.
    + splits; auto with bignat. lia.
    + splits; [lia|apply digits_cons; auto with bignat|right; auto].
  - remember (e :: t) as l. cbn [val length]. rewrite !pow_S. splits.
    + lia.
    + apply digits_cons. auto.
    + right. destruct IH3 as [->|IH3]; [discriminate|]. subst l. cbn [last] in *. exact IH3.
Qed.

Lemma I_btrail_spec s r : digits r -> r <> [] ->
  sv s (I_btrail r s) = tv s r /\ digits (I_btrail r s) /\ normal (I_btrail r s).
Proof.
  intros Hr Hne. destruct s; cbn [sv I_btrail].
  - destruct (drop_ones_spec r Hr) as (V & D & L).
    destruct (drop_ones r) as [|e t] eqn:E.
    + destruct r as [|d r]; [congruence|]. cbn [firstn last removelast map app].
      assert (Ed : d = β - 1).
      { cbn [drop_ones] in E. destruct (drop_ones r); [|discriminate]. destruct (Z.eqb_spec d (β - 1)); [auto|discriminate]. }
      rewrite <- V, Ed. change (D_add [btrail_top (β - 1)] 1) with [1].
      splits; [reflexivity|apply digits_cons; split; [lia|apply digits_nil]|].
      split; [discriminate|left; reflexivity].
    + destruct L as [L|L]; [discriminate|].
      assert (Hn : e :: t <> []) by discriminate. remember (e :: t) as l. clear Heql e t E Hr Hne.
      destruct (exists_last Hn) as (p & d & ->). rewrite removelast_last, !last_last in *.
      apply digits_app in D as [Dp Dd]. apply digits_cons in Dd as [Dd _].
      rewrite btrail_top_spec by auto. set (w := map wnot p ++ [wnot d]).
      assert (Ew : w = map wnot (p ++ [d])) by (unfold w; now rewrite map_app).
      assert (Dw : digits w).
      { rewrite Ew. apply digits_wnot, digits_app. split; auto. apply digits_cons; auto with bignat. }
      assert (Nw : normal w).
      { split; [intros F; apply app_eq_nil in F as [_ F]; discriminate|]. right. unfold w. rewrite last_last. unfold wnot. lia. }
      destruct (D_add_loop_spec w 1 Dw) as (E1 & E2); [lia|left; apply Nw|].
      splits; auto.
      * unfold D_add. rewrite E1, Ew, wnot_val. rewrite <- V. unfold tv. lia.
      * apply D_add_normal; auto. lia.
  - destruct (trim_spec r Hr Hne) as (V & D & N). splits; auto.
Qed.

(** ** The operations *)

(** The borrow of [x - 1] that is still pending after the [n] low digits of a
    negative operand: 1 exactly when those digits are all zero. *)
Definition pending (s : bool) (n : nat) (x : list Z) : Z :=
  if s then b2z (val (firstn n x) <? 1) else 0.

Lemma pending_range s n x : 0 <= pending s n x <= 1.
Proof. unfold pending, b2z. destruct s; zbool; lia. Qed.
Lemma sv_sval s x : sv s x = sval s (val x) (b2z s).
Proof. destruct s; cbn; unfold Z.lnot; lia. Qed.
Lemma pending_sval (s : bool) n x : digits x -> (s = true -> 1 <= val x) -> (n <= length x)%nat -> pending s n x <= val (skipn n x).
Proof.
  intros Hx Hv Hn. pose proof (val_split n x Hn) as E. pose proof (val_bound _ (digits_skipn n x Hx)).
  unfold pending, b2z. destruct s; zbool; try lia.
Qed.
Lemma tv_app s a t : tv s (a ++ t) = val a + β ^ Z.of_nat (length a) * tv s t.
Proof.
  unfold tv. rewrite val_app, length_app, Nat2Z.inj_add, Z.pow_add_r by lia. destruct s; lia.
Qed.

Lemma bit_op_correct f g `{!BitOp f g} (sx sy s : bool) tl x y e :
  digits x -> digits y -> (sx = true -> 1 <= val x) -> (sy = true -> 1 <= val y) -> y <> [] -> (length y <= length x)%nat ->
  let p := pending sx (length y) x in
  let xh := skipn (length y) x in
  digits (tl xh p) -> tv s (tl xh p) = f (sval sx (val xh) p) (sval sy 0 0) + e ->
  let r := I_btrail (bit_loop f sx sy tl x y (b2z sx) (b2z sy)) s in
  sv s r = f (sv sx x) (sv sy y) + β ^ Z.of_nat (length y) * e /\ digits r /\ normal r.
Proof.
  intros Hx Hy Vx Vy Ny Hl p xh Dt Ht r.
  destruct (bit_loop_spec f g sx sy tl x y (b2z sx) (b2z sy) Hx Hy Hl) as (zs & Hz & Lz & Dz & Vz);
    [destruct sx; cbn; lia|destruct sy; cbn; lia|].
  assert (Ep : (if sx then b2z (val (firstn (length y) x) <? b2z sx) else b2z sx) = p) by (unfold p, pending; destruct sx; reflexivity).
  assert (Eq : sval sy 0 (if sy then b2z (val y <? b2z sy) else b2z sy) = sval sy 0 0).
  { destruct sy; [|reflexivity]. specialize (Vy eq_refl). cbn [b2z]. destruct (Z.ltb_spec (val y) 1); [lia|reflexivity]. }
  rewrite Ep in Hz, Vz. rewrite Eq, <- !sv_sval in Vz. fold xh in Hz, Vz.
  unfold r. rewrite Hz.
  destruct (I_btrail_spec s (zs ++ tl xh p)) as (V & D & N); [apply digits_app; auto| |].
  - intros F. apply app_eq_nil in F as [-> _]. destruct y; [congruence|discriminate].
  - splits; auto. rewrite V, tv_app, Ht, Vz, Lz. ring.
Qed.

Lemma borrow_not_spec x b : digits x -> 0 <= b <= 1 -> b <= val x ->
  tv true (borrow_not x b) = Z.lnot (val x - b) /\ digits (borrow_not x b).
Proof.
  intros Hx. revert b. induction Hx as [|d x Hd Hx IH]; cbv beta in *; intros b Hb Hv.
  - cbn in *. split; [|apply digits_nil]. replace b with 0 by lia. reflexivity.
  - cbn [borrow_not]. pose proof (DSUBb_spec d 0 b) as S. destruct (DSUBb d 0 b) as [b' c].
    destruct S as (S1 & S2 & S3); try lia. cbn [val] in Hv. pose proof (val_bound x Hx).
    destruct (IH b' ltac:(lia) ltac:(lia)) as (E & D). split; [|apply digits_cons; split; auto with bignat].
    unfold tv, Z.lnot in *. cbn [val length]. rewrite pow_S. unfold wnot. lia.
Qed.

Lemma tv_not x : tv true (map wnot x) = Z.lnot (val x).
Proof. unfold tv, Z.lnot. rewrite wnot_val, length_map. lia. Qed.

Section Operations.
Context (x y : list Z) (xs ys : bool).
Context (Hx : digits x) (Hy : digits y) (Nx : normal x) (Ny : normal y).
Context (Vx : xs = true -> 1 <= val x) (Vy : ys = true -> 1 <= val y) (Hl : (length y <= length x)%nat).

Lemma nonempty_xy : x <> [] /\ y <> [].
Proof. split; [apply Nx|apply Ny]. Qed.
Lemma high_digits : digits (skipn (length y) x). Proof. auto with bignat. Qed.

Ltac bitwise f g s e :=
  rewrite ?(bit_pp_loop _ _ x y (b2z false) (b2z false)), ?first_pn_loop, ?first_np_loop, ?first_nn_loop
    by (auto; apply nonempty_xy);
  match goal with |- context [bit_loop _ ?sx ?sy ?tl _ _ _ _] =>
    let H := fresh in
    pose proof (bit_op_correct f g sx sy s tl x y e Hx Hy Vx Vy (proj2 nonempty_xy) Hl) as H;
    cbv zeta in H; cbn [b2z] in H |- *;
    match type of H with ?A -> ?B -> _ =>
      assert A as HA by auto using high_digits, digits_nil, digits_wnot;
      assert B as HB;
      [clear H HA; unfold copy_rest, drop_rest, not_rest, sval
      |let E := fresh in destruct (H HA HB) as (E & ? & ?);
       splits; auto; rewrite E; try ring; clear H E HA HB]
    end
  end.

Lemma I_band_spec :
  let r := I_band x xs y ys in
  sv (xs && ys) r = Z.land (sv xs x) (sv ys y)
    - (if xs && ys then β ^ Z.of_nat (length y) * pending true (length y) x else 0) /\
  digits r /\ normal r.
Proof.
  cbv zeta. unfold I_band. destruct xs, ys; cbn [andb].
  - bitwise Z.land andb true (- pending true (length y) x). rewrite tv_not, Z.land_m1_r. unfold Z.lnot. lia.
  - bitwise Z.land andb false 0. now rewrite Z.land_0_r.
  - bitwise Z.land andb false 0. rewrite Z.land_m1_r. cbn. lia.
  - bitwise Z.land andb false 0. now rewrite Z.land_0_r.
Qed.

Lemma I_bor_spec :
  let r := I_bor x xs y ys in
  sv (xs || ys) r = Z.lor (sv xs x) (sv ys y) /\ digits r /\ normal r.
Proof.
  pose proof (borrow_not_spec _ (pending xs (length y) x) high_digits (pending_range xs (length y) x)
                (pending_sval xs _ x Hx Vx Hl)) as [BV BD].
  cbv zeta. unfold I_bor. destruct xs, ys; cbn [orb].
  - bitwise Z.lor orb true 0. now rewrite Z.lor_m1_r.
  - bitwise Z.lor orb true 0. rewrite BV, Z.lor_0_r. lia.
  - bitwise Z.lor orb true 0. now rewrite Z.lor_m1_r.
  - bitwise Z.lor orb false 0. rewrite Z.lor_0_r. cbn. lia.
Qed.

Lemma I_bxor_spec :
  let r := I_bxor x xs y ys in
  sv (xorb xs ys) r = Z.lxor (sv xs x) (sv ys y) +
    (if xs then β ^ Z.of_nat (length y) * pending true (length y) x * (if ys then 1 else -1) else 0) /\
  digits r /\ normal r.
Proof.
  cbv zeta. unfold I_bxor. destruct xs, ys; cbn [xorb].
  - bitwise Z.lxor xorb false (pending true (length y) x). rewrite Z.lxor_m1_r. cbn. unfold Z.lnot. lia.
  - bitwise Z.lxor xorb true (- pending true (length y) x). rewrite tv_not, Z.lxor_0_r. unfold Z.lnot. lia.
  - bitwise Z.lxor xorb true 0. rewrite tv_not, Z.lxor_m1_r. unfold Z.lnot. lia.
  - bitwise Z.lxor xorb false 0. rewrite Z.lxor_0_r. cbn. lia.
Qed.
End Operations.
