(* ===== verification/BigShift.v ===== *)
(** Arithmetic shift and integer logarithm of a signed digit vector. *)

From S2P Require Import Prelude Digits DigitDiv BigNat BigMul LongDiv LongDivSpec BigBits.

(** Bits of a digit. *)
Definition D_EXP : Z := 64.

(** The loop that shifts left by less than a digit, and the last carry. *)
Fixpoint shl_loop (x : list Z) (sw a1 : Z) : list Z :=
  match x with
  | [] => if a1 =? 0 then [] else [a1]
  | xd :: x => Z.lor (wshl xd sw) a1 :: shl_loop x sw (wshr xd (D_EXP - sw))
  end.
(** The loop that shifts right by less than a digit, from the high end. *)
Fixpoint shr_loop (x : list Z) (sw a0 : Z) (r : list Z) : list Z * Z :=
  match x with
  | [] => (r, a0)
  | xd :: x => shr_loop x sw (wshl xd (D_EXP - sw)) (Z.lor (wshr xd sw) a0 :: r)
  end.
(** Shift left by [bw] digits and [sw] bits. *)
Definition lshift_left (x : list Z) (bw : nat) (sw : Z) : list Z :=
  repeat 0 bw ++ (if sw =? 0 then x else shl_loop x sw 0).
(** Shift right; a negative number is rounded away from zero, which the sticky flag [add_one]
    decides. *)
Definition lshift_right (x : list Z) (bw : nat) (sw : Z) (sign : bool) : list Z :=
  let add_one := sign && existsb (fun d => negb (d =? 0)) (firstn bw x) in
  let '(r, a0) := if sw =? 0 then (skipn bw x, 0) else shr_loop (rev (skipn bw x)) sw 0 [] in
  let add_one := add_one || (sign && negb (a0 =? 0)) in
  if (last r 0 =? 0) && (length r =? 1)%nat then (if sign then [1] else [0])
  else
    let r := if last r 0 =? 0 then removelast r else r in
    if add_one then D_add r 1 else r.
(** [I_lshift]: arithmetic shift of a sign and a magnitude. *)
Definition I_lshift (x : list Z) (y : Z) (sign : bool) : list Z :=
  if y =? 0 then x
  else match x with
  | [0] => [0]
  | _ =>
      let ay := Z.abs y in
      let bw := ay / D_EXP in
      let sw := ay mod D_EXP in
      if y >? 0 then lshift_left x (Z.to_nat bw) sw
      else if Z.of_nat (length x) <=? bw then (if sign then [1] else [0])
      else lshift_right x (Z.to_nat bw) sw sign
  end.

(** The loop of [I_lg]. *)
Fixpoint lg_loop (fuel : nat) (d sz : Z) : Z :=
  match fuel with
  | O => sz
  | S fuel => if d =? 0 then sz else lg_loop fuel (wshr d 1) (sz + 1)
  end.
(** [I_lg]: integer base 2 logarithm. *)
Definition I_lg (x : list Z) : Z :=
  lg_loop 64 (last x 0) ((Z.of_nat (length x) - 1) * D_EXP) - 1.

(** ** Shifting left *)
Lemma last_default (l : list Z) d d' : l <> [] -> last l d = last l d'.
Proof.
  induction l as [|a [|b l] IH]; [congruence|reflexivity|]. intros _. apply IH. discriminate.
Qed.

Lemma shl_digit d sw : is_digit d -> 0 < sw < 64 ->
  d * 2^sw = wshl d sw + β * wshr d (64 - sw) /\ 0 <= wshr d (64 - sw) < 2^sw /\
  exists h, wshl d sw = h * 2^sw /\ 0 <= h.
Proof.
  intros Hd Hs. unfold wshl, wshr, w64. rewrite Z.shiftl_mul_pow2, Z.shiftr_div_pow2 by lia.
  pose proof (pow2_split sw ltac:(lia)) as P. assert (0 < 2^sw) by lia. assert (0 < 2^(64-sw)) by lia.
  assert (E : (d * 2^sw) / β = d / 2^(64-sw)).
  { rewrite <- P, (Z.mul_comm d), Z.div_mul_cancel_l by lia. reflexivity. }
  assert (E2 : (d * 2^sw) mod β = (d mod 2^(64-sw)) * 2^sw).
  { rewrite <- P, (Z.mul_comm d), Z.mul_mod_distr_l by lia. lia. }
  splits.
  - rewrite <- E. pose proof (Z.div_mod (d * 2^sw) β ltac:(lia)). lia.
  - apply Z.div_pos; lia.
  - apply Z.div_lt_upper_bound; [lia|]. rewrite Z.mul_comm, P. lia.
  - rewrite E2. eexists; split; [reflexivity|]. apply Z.mod_pos_bound; lia.
Qed.

Lemma shl_loop_spec x sw a1 : digits x -> 0 < sw < 64 -> 0 <= a1 < 2^sw ->
  val (shl_loop x sw a1) = val x * 2^sw + a1 /\ digits (shl_loop x sw a1) /\
  (x <> [] -> shl_loop x sw a1 <> []) /\ (x = [] \/ last x 0 <> 0 -> last (shl_loop x sw a1) 1 <> 0).
Proof.
  intros Hx Hs. assert (2^sw < β) by (change β with (2^64); apply Z.pow_lt_mono_r; lia).
  revert a1. induction Hx as [|d x Hd Hx IH]; cbv beta in *; intros a1 Ha; cbn [shl_loop].
  - destruct (Z.eqb_spec a1 0); cbn; splits; auto with bignat; try lia; try congruence.
    apply digits_cons; split; [lia|apply digits_nil].
  - destruct (shl_digit d sw Hd Hs) as (E & B & h & Eh & Hh).
    rewrite Eh, lor_disjoint, <- Eh by lia.
    destruct (IH (wshr d (D_EXP - sw)) B) as (V & D & N & L).
    splits; [cbn [val]; change D_EXP with 64 in *; lia | | discriminate |].
    + apply digits_cons; split; auto. pose proof (wshl_range d sw). pose proof (w64_range (d * 2^sw)).
      assert (wshl d sw <= β - 2^sw); [|lia].
      rewrite Eh. pose proof (pow2_split sw ltac:(lia)). assert (h < 2^(64-sw)) by nia. nia.
    + intros [F|F]; [discriminate|].
      destruct x as [|d' x].
      * cbn [shl_loop]. destruct (Z.eqb_spec (wshr d (D_EXP - sw)) 0) as [Z0|Z0]; cbn [last] in *; [|auto].
        change D_EXP with 64 in *. rewrite Z0 in E. intros F2. nia.
      * specialize (L (or_intror F)). remember (shl_loop (d' :: x) sw (wshr d (D_EXP - sw))) as l.
        destruct l; [exfalso; now apply N|]. exact L.
Qed.

Lemma lshift_left_spec x bw sw : digits x -> normal x -> 1 <= val x -> 0 <= sw < 64 ->
  val (lshift_left x bw sw) = val x * 2^sw * β ^ Z.of_nat bw /\
  digits (lshift_left x bw sw) /\ normal (lshift_left x bw sw).
Proof.
  intros Hx Nx Vx Hs. unfold lshift_left.
  assert (H : forall t, digits t -> normal t -> val t = val x * 2^sw ->
    val (repeat 0 bw ++ t) = val x * 2^sw * β ^ Z.of_nat bw /\ digits (repeat 0 bw ++ t) /\ normal (repeat 0 bw ++ t)).
  { intros t Dt Nt Vt. assert (1 <= val t) by (rewrite Vt; nia).
    destruct (normal_zeros bw t Dt Nt) as (N & V & D); auto. splits; auto. rewrite V, Vt. ring. }
  destruct (Z.eqb_spec sw 0) as [->|Hne].
  - apply H; auto. rewrite Z.pow_0_r. ring.
  - destruct (shl_loop_spec x sw 0 Hx) as (V & D & N & L); [lia|lia|].
    apply H; auto; [|lia]. split; [apply N, Nx|].
    destruct Nx as [Hne2 [L1|L1]].
    + destruct x as [|d [|]]; try discriminate. right. cbn in Vx.
      assert (Ld : last [d] 0 <> 0) by (cbn; lia). specialize (L (or_intror Ld)). specialize (N Hne2).
      now rewrite (last_default _ 0 1).
    + right. specialize (L (or_intror L1)). specialize (N Hne2). now rewrite (last_default _ 0 1).
Qed.

(** ** Shifting right *)
Lemma shr_digit d sw hi : is_digit d -> 0 < sw < 64 -> 0 <= hi < 2^sw ->
  Z.lor (wshr d sw) (hi * 2^(64-sw)) = d / 2^sw + hi * 2^(64-sw) /\
  is_digit (d / 2^sw + hi * 2^(64-sw)) /\
  wshl d (64 - sw) = (d mod 2^sw) * 2^(64-sw).
Proof.
  intros Hd Hs Hh. pose proof (pow2_split sw ltac:(lia)) as P. assert (0 < 2^sw) by lia. assert (0 < 2^(64-sw)) by lia.
  assert (D : 0 <= d / 2^sw < 2^(64-sw)).
  { split; [apply Z.div_pos; lia|]. apply Z.div_lt_upper_bound; lia. }
  splits.
  - unfold wshr. rewrite Z.shiftr_div_pow2, Z.lor_comm, lor_disjoint by lia. lia.
  - lia.
  - assert (hi * 2^(64-sw) <= (2^sw - 1) * 2^(64-sw)) by (apply Z.mul_le_mono_nonneg_r; lia). lia.
  - unfold wshl, w64. rewrite Z.shiftl_mul_pow2 by lia. rewrite <- P, Z.mul_mod_distr_r by lia. reflexivity.
Qed.

Lemma shr_loop_spec t sw hi r : digits t -> 0 < sw < 64 -> 0 <= hi < 2^sw ->
  let V := hi * β ^ Z.of_nat (length t) + val (rev t) in
  exists r', shr_loop t sw (hi * 2^(64-sw)) r = (r' ++ r, (V mod 2^sw) * 2^(64-sw)) /\
    length r' = length t /\ digits r' /\ val r' = V / 2^sw.
Proof.
  intros Ht Hs. revert hi r. induction Ht as [|d t Hd Ht IH]; cbv beta in *; intros hi r Hh V.
  - exists []. subst V. cbn [shr_loop rev val length app]. change (Z.of_nat 0) with 0.
    rewrite Z.pow_0_r, Z.mul_1_r, Z.add_0_r, Z.mod_small, Z.div_small by lia. auto with bignat.
  - cbn [shr_loop]. destruct (shr_digit d sw hi Hd Hs Hh) as (E1 & E2 & E3).
    change D_EXP with 64. rewrite E1, E3.
    assert (Hm : 0 <= d mod 2^sw < 2^sw) by (apply Z.mod_pos_bound; lia).
    destruct (IH (d mod 2^sw) (d / 2^sw + hi * 2^(64-sw) :: r) Hm) as (r' & Hr & L & D & Vr).
    set (V' := d mod 2^sw * β ^ Z.of_nat (length t) + val (rev t)) in *.
    assert (EV : V = (d / 2^sw + hi * 2^(64-sw)) * β ^ Z.of_nat (length t) * 2^sw + V').
    { subst V V'. cbn [rev length]. rewrite pow_S, val_app, length_rev. cbn [val].
      rewrite (Z.div_mod d (2^sw)) at 1 by lia. rewrite <- (pow2_split sw) by lia. ring. }
    exists (r' ++ [d / 2^sw + hi * 2^(64-sw)]). splits.
    + rewrite Hr, <- app_assoc, EV, (Z.add_comm (_ * 2^sw)), Z.mod_add by lia. reflexivity.
    + rewrite length_app. cbn. lia.
    + apply digits_app. split; auto. apply digits_cons; auto with bignat.
    + rewrite val_app, L, Vr, EV, Z.div_add_l by lia. cbn [val]. ring.
Qed.

Lemma existsb_nonzero x : digits x -> existsb (fun d => negb (d =? 0)) x = negb (val x =? 0).
Proof.
  induction 1 as [|d x Hd Hx IH]; [reflexivity|]; cbv beta in *. cbn [existsb val]. rewrite IH.
  pose proof (val_bound x Hx). destruct (Z.eqb_spec d 0), (Z.eqb_spec (val x) 0), (Z.eqb_spec (d + β * val x) 0); cbn; auto; lia.
Qed.

(** Flooring in the low digits first, then in the bits of the next digit. *)
Lemma div_split_pow l h P Q : 0 <= l < P -> 0 < Q ->
  (l + P * h) / (P * Q) = h / Q /\ ((l + P * h) mod (P * Q) =? 0) = (l =? 0) && (h mod Q =? 0).
Proof.
  intros Hl HQ. assert (E : (l + P * h) / (P * Q) = h / Q).
  { rewrite <- Z.div_div, (Z.mul_comm P), Z.div_add, (Z.div_small l P) by lia. reflexivity. }
  split; auto. rewrite Z.mod_eq, E by nia.
  pose proof (Z.mod_pos_bound h Q HQ). replace (l + P * h - P * Q * (h / Q)) with (l + P * (h mod Q)) by (rewrite (Z.mod_eq h Q) by lia; ring).
  assert (0 <= P * (h mod Q)) by nia.
  destruct (Z.eqb_spec l 0), (Z.eqb_spec (h mod Q) 0), (Z.eqb_spec (l + P * (h mod Q)) 0); cbn; auto; nia.
Qed.

(** The quotient rounded towards the sign's infinity of the magnitude. *)
Definition round_shift (s : bool) (X Y : Z) : Z := X / Y + b2z (s && negb (X mod Y =? 0)).

Lemma last_val x : x <> [] -> val x = val (removelast x) + β ^ (Z.of_nat (length x) - 1) * last x 0.
Proof.
  intros Hne. rewrite (app_removelast_last 0 Hne) at 1. rewrite val_app. cbn [val].
  rewrite removelast_firstn_len, length_firstn. destruct x; [congruence|]. cbn [length].
  replace (Z.of_nat (Nat.min (pred (S (length x))) (S (length x)))) with (Z.of_nat (S (length x)) - 1) by lia. ring.
Qed.

Lemma round_up_spec (b : bool) t : digits t -> normal t ->
  let u := if b then D_add t 1 else t in val u = val t + b2z b /\ digits u /\ normal u.
Proof.
  intros Dt Nt. destruct b; cbn [b2z].
  - destruct (D_add_loop_spec t 1 Dt) as [E D]; [lia|left; apply Nt|].
    splits; auto. apply D_add_normal; auto; lia.
  - splits; auto. lia.
Qed.

Lemma lshift_right_spec x bw sw sign : digits x -> normal x -> 1 <= val x -> 0 <= sw < 64 -> (bw < length x)%nat ->
  let r := lshift_right x bw sw sign in
  val r = round_shift sign (val x) (β ^ Z.of_nat bw * 2^sw) /\ digits r /\ normal r.
Proof.
  intros Hx Nx Vx Hs Hb. unfold lshift_right. set (xh := skipn bw x).
  pose proof (val_split bw x ltac:(lia)) as Sx. fold xh in Sx.
  assert (Dh : digits xh) by (apply digits_skipn; auto).
  pose proof (val_bound _ (digits_firstn bw x Hx)) as Bl. rewrite length_firstn, Nat.min_l in Bl by lia.
  assert (Lh : length xh = (length x - bw)%nat) by apply length_skipn.
  assert (Hr : exists r, (if sw =? 0 then (xh, 0) else shr_loop (rev xh) sw 0 []) = (r, (val xh mod 2^sw) * 2^(64-sw)) /\
            length r = length xh /\ digits r /\ val r = val xh / 2^sw).
  { destruct (Z.eqb_spec sw 0) as [->|Hne].
    - exists xh. rewrite Z.pow_0_r, Z.mod_1_r, Z.div_1_r. auto.
    - destruct (shr_loop_spec (rev xh) sw 0 []) as (r & E & L & D & V); auto using digits_rev; try lia.
      rewrite Z.mul_0_l, Z.add_0_l, rev_involutive in *. exists r. rewrite E, app_nil_r. rewrite length_rev in L. auto. }
  destruct Hr as (r & -> & Lr & Dr & Vr).
  assert (0 < 2^sw) by lia. assert (0 < 2^(64-sw)) by lia.
  destruct (div_split_pow (val (firstn bw x)) (val xh) (β ^ Z.of_nat bw) (2^sw) Bl ltac:(lia)) as (Ed & Em).
  rewrite <- Sx in Ed, Em.
  assert (Ea : (sign && existsb (fun d => negb (d =? 0)) (firstn bw x)) || (sign && negb (val xh mod 2^sw * 2^(64-sw) =? 0))
               = sign && negb (val x mod (β ^ Z.of_nat bw * 2^sw) =? 0)).
  { rewrite existsb_nonzero, Em by auto with bignat.
    assert (Ez : (val xh mod 2^sw * 2^(64-sw) =? 0) = (val xh mod 2^sw =? 0)) by (zbool; auto; nia).
    rewrite Ez. destruct sign, (val (firstn bw x) =? 0), (val xh mod 2^sw =? 0); reflexivity. }
  rewrite Ea. unfold round_shift. rewrite Ed, <- Vr.
  assert (Hr0 : r <> []) by (intros ->; cbn in Lr; lia).
  (* the high digits of a normal number are at least a power of the base *)
  assert (Lx : β ^ (Z.of_nat (length xh) - 1) <= val xh).
  { pose proof (normal_low x Hx Nx ltac:(lia)) as L.
    replace (Z.of_nat (length x) - 1) with (Z.of_nat bw + (Z.of_nat (length xh) - 1)) in L by lia.
    rewrite Z.pow_add_r in L by lia. pose proof (pow_pos bw). nia. }
  destruct (Z.eqb_spec (last r 0) 0) as [L0|L0]; cbn [andb].
  - destruct (Nat.eqb_spec (length r) 1) as [L1|L1]; cbn [andb].
    + assert (V0 : val r = 0) by (destruct r as [|d [|]]; try discriminate; cbn in *; lia).
      rewrite V0. assert (Hm : val x mod (β ^ Z.of_nat bw * 2^sw) <> 0).
      { pose proof (pow_pos bw). intros F. pose proof (Z.div_mod (val x) (β ^ Z.of_nat bw * 2^sw) ltac:(nia)). 
        rewrite Ed, <- Vr, V0, F in *. lia. }
      destruct sign; cbn [andb].
      * destruct (Z.eqb_spec (val x mod (β ^ Z.of_nat bw * 2 ^ sw)) 0); [congruence|]. cbn.
        splits; [lia|apply digits_cons; split; [lia|apply digits_nil]|split; [discriminate|auto]].
      * cbn. splits; [lia|apply digits_cons; split; [lia|apply digits_nil]|split; [discriminate|auto]].
    + assert (Dr' : digits (removelast r)) by (rewrite removelast_firstn_len; auto with bignat).
      assert (V' : val (removelast r) = val r) by (rewrite (last_val r Hr0), L0; lia).
      assert (Ll : length (removelast r) = (length xh - 1)%nat) by (rewrite removelast_firstn_len, length_firstn; lia).
      assert (1 <= length r)%nat by (destruct r; cbn; [congruence|lia]).
      assert (N' : normal (removelast r)).
      { apply normal_of_low; auto; [intros F; rewrite F in Ll; cbn in Ll; lia|].
        rewrite Ll, V', Vr. apply Z.div_le_lower_bound; [lia|].
        replace (Z.of_nat (length xh - 1) - 1) with (Z.of_nat (length xh) - 2) by lia.
        transitivity (β * β ^ (Z.of_nat (length xh) - 2)).
        - apply Z.mul_le_mono_nonneg_r; [lia|]. change β with (2^64). apply Z.pow_le_mono_r; lia.
        - rewrite <- Z.pow_succ_r by lia. replace (Z.succ (Z.of_nat (length xh) - 2)) with (Z.of_nat (length xh) - 1) by lia. lia. }
      rewrite <- V'. now apply round_up_spec.
  - apply round_up_spec; auto. split; auto.
Qed.

(** ** The shift as a whole *)
Lemma pow2_words a : 0 <= a -> 2 ^ a = β ^ Z.of_nat (Z.to_nat (a / 64)) * 2 ^ (a mod 64).
Proof.
  intros Ha. rewrite Z2Nat.id by lia. change β with (2^64). rewrite <- Z.pow_mul_r, <- Z.pow_add_r by lia.
  f_equal. lia.
Qed.

Lemma round_shift_signed (s : bool) X a : 0 <= X -> 0 <= a ->
  (if s then - round_shift s X (2^a) else round_shift s X (2^a)) = Z.shiftl (if s then - X else X) (- a).
Proof.
  intros HX Ha. rewrite Z.shiftl_div_pow2 by lia. replace (- - a) with a by lia. assert (0 < 2^a) by lia.
  unfold round_shift. destruct s; cbn [andb]; [|cbn; lia].
  destruct (Z.eqb_spec (X mod 2^a) 0) as [E|E]; cbn [negb b2z].
  - rewrite Z.div_opp_l_z by lia. lia.
  - rewrite Z.div_opp_l_nz by lia. lia.
Qed.

Lemma round_shift_small s X Y : 1 <= X < Y -> round_shift s X Y = b2z s.
Proof.
  intros H. unfold round_shift. rewrite Z.div_small, Z.mod_small by lia.
  destruct s, (Z.eqb_spec X 0); cbn; lia.
Qed.

Lemma I_lshift_spec x y s : digits x -> normal x -> 1 <= val x ->
  sv s (I_lshift x y s) = Z.shiftl (sv s x) y /\ digits (I_lshift x y s) /\ normal (I_lshift x y s).
Proof.
  intros Hx Nx Vx. unfold I_lshift. destruct (Z.eqb_spec y 0) as [->|Hy].
  - rewrite Z.shiftl_0_r. auto.
  - assert (E0 : forall (A : Type) (a b : A), match x with [0] => a | _ => b end = b).
    { intros. destruct x as [|[| |] [|]]; auto. cbn in Vx. lia. }
    rewrite E0. clear E0. change D_EXP with 64. rewrite Z.gtb_ltb.
    pose proof (pow2_words (Z.abs y) ltac:(lia)) as W. set (bw := Z.abs y / 64) in *. set (sw := Z.abs y mod 64) in *.
    assert (0 <= sw < 64) by (apply Z.mod_pos_bound; lia). assert (0 <= bw) by (apply Z.div_pos; lia).
    destruct (Z.ltb_spec 0 y).
    + destruct (lshift_left_spec x (Z.to_nat bw) sw) as (V & D & N); auto. splits; auto.
      rewrite Z.shiftl_mul_pow2 by lia. rewrite Z.abs_eq in W by lia. rewrite W. unfold sv. rewrite V. destruct s; ring.
    + assert (E : Z.shiftl (sv s x) y = sv s [] + (if s then - round_shift s (val x) (2 ^ Z.abs y) else round_shift s (val x) (2 ^ Z.abs y))).
      { unfold sv. rewrite round_shift_signed by lia. replace (- Z.abs y) with y by lia. destruct s; cbn; lia. }
      rewrite E. clear E.
      destruct (Z.leb_spec (Z.of_nat (length x)) bw).
      * rewrite round_shift_small.
        -- destruct s; cbn; splits; auto; try apply digits_cons; try split; try lia; try apply digits_nil; try discriminate; auto.
        -- split; auto. pose proof (val_bound x Hx). rewrite W.
           assert (β ^ Z.of_nat (length x) <= β ^ Z.of_nat (Z.to_nat bw)) by (apply Z.pow_le_mono_r; lia).
           assert (0 < 2^sw) by lia. pose proof (pow_pos (Z.to_nat bw)). nia.
      * destruct (lshift_right_spec x (Z.to_nat bw) sw s) as (V & D & N); auto; [lia|].
        splits; auto. rewrite W. unfold sv. rewrite V. destruct s; cbn; lia.
Qed.

(** ** The logarithm *)
Lemma lg_loop_spec fuel d sz : 0 <= d < 2 ^ Z.of_nat fuel ->
  lg_loop fuel d sz = sz + (if d =? 0 then 0 else Z.log2 d + 1).
Proof.
  revert d sz. induction fuel as [|fuel IH]; intros d sz Hd; cbn [lg_loop].
  - change (2 ^ Z.of_nat 0) with 1 in Hd. destruct (Z.eqb_spec d 0); lia.
  - destruct (Z.eqb_spec d 0); [lia|]. rewrite Nat2Z.inj_succ, Z.pow_succ_r in Hd by lia.
    unfold wshr. rewrite Z.shiftr_div_pow2, Z.pow_1_r by lia. rewrite IH by lia.
    destruct (Z.eqb_spec (d / 2) 0) as [F|F].
    + assert (d = 1) by lia. subst. cbn. lia.
    + pose proof (Z.log2_shiftr d 1 ltac:(lia)) as L. rewrite Z.shiftr_div_pow2, Z.pow_1_r in L by lia.
      assert (1 <= Z.log2 d) by (apply Z.log2_le_pow2; lia). lia.
Qed.

Lemma I_lg_spec x : digits x -> normal x -> 1 <= val x -> I_lg x = Z.log2 (val x).
Proof.
  intros Hx Nx Vx. unfold I_lg. assert (Hne : x <> []) by apply Nx.
  assert (Dl : is_digit (last x 0)).
  { rewrite (app_removelast_last 0 Hne) in Hx. apply digits_app in Hx as [_ Hx]. now apply digits_cons in Hx. }
  assert (Ll : last x 0 <> 0).
  { destruct Nx as [_ [L|L]]; auto. destruct x as [|d [|]]; try discriminate. cbn in *. lia. }
  rewrite lg_loop_spec by exact Dl. destruct (Z.eqb_spec (last x 0) 0) as [F|_]; [congruence|].
  pose proof (Z.log2_spec (last x 0) ltac:(lia)) as [B1 B2].
  symmetry. change D_EXP with 64. set (n := Z.of_nat (length x) - 1).
  assert (0 <= n) by (subst n; destruct x; [congruence|cbn [length]; lia]).
  set (l := Z.log2 (last x 0)) in *. assert (0 <= l) by apply Z.log2_nonneg.
  apply Z.log2_unique; [lia|].
  assert (Dr : digits (removelast x)) by (rewrite removelast_firstn_len; auto with bignat).
  pose proof (val_bound _ Dr) as Br. rewrite removelast_firstn_len, length_firstn in Br.
  replace (Z.of_nat (Nat.min (pred (length x)) (length x))) with n in Br by (subst n; lia).
  rewrite (last_val x Hne). fold n. rewrite <- removelast_firstn_len in Br.
  assert (E : 2 ^ (n * 64) = β ^ n) by (change β with (2^64); rewrite <- Z.pow_mul_r by lia; f_equal; lia).
  replace (n * 64 + (l + 1) - 1) with (n * 64 + l) by lia. split.
  - rewrite Z.pow_add_r, E by lia. assert (0 < β ^ n) by lia. nia.
  - replace (Z.succ (n * 64 + l)) with (n * 64 + Z.succ l) by lia.
    rewrite Z.pow_add_r, E by lia. assert (0 < β ^ n) by lia. nia.
Qed.
