(* ===== verification/BigNum.v ===== *)
(** Bignum terms: the exported operations of big.c. Each lemma [.._mk] says that an operation
    returns [mk_integer] of the mathematical result, the canonical term of an integer. *)

From S2P Require Import Prelude Digits DigitDiv BigNat BigMul BigDiv DoubleDigit LongDiv LongDivSpec BigBits BigShift.

(** Width of a small integer on a 64-bit machine. *)
Definition SMALL_BITS : Z := 60.
(** The largest small integer. *)
Definition MAX_SMALL : Z := 2 ^ (SMALL_BITS - 1) - 1.
(** The smallest small integer. *)
Definition MIN_SMALL : Z := - 2 ^ (SMALL_BITS - 1).
(** The largest number of digits of a bignum. *)
Definition BIG_ARITY_MAX : Z := 2 ^ 19 - 1.
(** Does a magnitude with this sign fit in a small? *)
Definition IS_USMALL (sgn : bool) (x : Z) : bool := if sgn then x <=? MAX_SMALL + 1 else x <=? MAX_SMALL.
(** Does a signed integer fit in a small? *)
Definition IS_SSMALL (x : Z) : bool := (MIN_SMALL <=? x) && (x <=? MAX_SMALL).

(** A bignum on the heap: the sign of its header and its digits. *)
Record bignum := MkBig { BIG_SIGN : bool; BIG_V : list Z }.
(** The terms the arithmetic handles: a small, a bignum, or [NIL], which stands for an error or
    for a term that is not an integer. *)
Inductive eterm := make_small (z : Z) | make_big (b : bignum) | NIL.

(** Number of digits. *)
Definition BIG_SIZE (b : bignum) : nat := length (BIG_V b).

(** [big_norm]: a small if it fits, [NIL] if there are too many digits. *)
Definition big_norm (r : list Z) (sign : bool) : eterm :=
  let arity := Z.of_nat (length r) in
  if (length r =? 1)%nat && IS_USMALL sign (hd 0 r) then
    make_small (if sign then - hd 0 r else hd 0 r)
  else if arity >? BIG_ARITY_MAX then NIL
  else make_big (MkBig sign r).

(** [big_comp]. *)
Definition big_comp (x y : bignum) : Z :=
  if eqb (BIG_SIGN x) (BIG_SIGN y) then
    let c := I_comp (BIG_V x) (BIG_V y) in
    if BIG_SIGN x then - c else c
  else if BIG_SIGN x then -1 else 1.
(** [big_ucomp]. *)
Definition big_ucomp (x y : bignum) : Z := I_comp (BIG_V x) (BIG_V y).

(** [B_plus_minus]: signed addition. *)
Definition B_plus_minus (x : list Z) (xsgn : bool) (y : list Z) (ysgn : bool) : eterm :=
  if eqb xsgn ysgn then
    if (length y <? length x)%nat then big_norm (I_add x y) xsgn else big_norm (I_add y x) xsgn
  else
    let comp := I_comp x y in
    if comp =? 0 then make_small 0
    else if comp >? 0 then big_norm (I_sub x y) xsgn
    else big_norm (I_sub y x) ysgn.
(** [big_plus]. *)
Definition big_plus (x y : bignum) : eterm :=
  B_plus_minus (BIG_V x) (BIG_SIGN x) (BIG_V y) (BIG_SIGN y).
(** [big_minus]. *)
Definition big_minus (x y : bignum) : eterm :=
  B_plus_minus (BIG_V x) (BIG_SIGN x) (BIG_V y) (negb (BIG_SIGN y)).
(** [big_minus_small]. *)
Definition big_minus_small (x : bignum) (y : Z) : eterm :=
  if BIG_SIGN x then big_norm (D_add (BIG_V x) y) (BIG_SIGN x)
  else big_norm (D_sub (BIG_V x) y) (BIG_SIGN x).
(** [big_plus_small]. *)
Definition big_plus_small (x : bignum) (y : Z) : eterm :=
  if BIG_SIGN x then big_norm (D_sub (BIG_V x) y) (BIG_SIGN x)
  else big_norm (D_add (BIG_V x) y) (BIG_SIGN x).

(** [small_times]. *)
Definition small_times (x y : Z) : eterm :=
  let sign := xorb (x <? 0) (y <? 0) in
  let xu := if x >? 0 then x else - x in
  let yu := if y >? 0 then y else - y in
  let '(d1, d0) := DMULc xu yu 0 in
  if (d1 =? 0) && IS_USMALL sign d0 then make_small (if sign then - d0 else d0)
  else make_big (MkBig sign (if d1 =? 0 then [d0] else [d0; d1])).

(** [same] is the pointer comparison [xp == yp]; the result vector is given
    zeroed as far as the C code zeroes it, and [junk] after that. *)
Definition big_times (same : bool) (junk : list Z) (x y : bignum) : eterm :=
  let sign := xorb (BIG_SIGN x) (BIG_SIGN y) in
  let xsz := BIG_SIZE x in
  let ysz := BIG_SIZE y in
  let r :=
    if (ysz =? 1)%nat then D_mul (BIG_V x) (hd 0 (BIG_V y))
    else if (xsz =? 1)%nat then D_mul (BIG_V y) (hd 0 (BIG_V x))
    else if same then I_sqr (BIG_V x) (repeat 0 (S xsz) ++ junk)
    else if (ysz <=? xsz)%nat then I_mul (BIG_V x) (BIG_V y) (repeat 0 xsz ++ junk)
    else I_mul (BIG_V y) (BIG_V x) (repeat 0 ysz ++ junk) in
  big_norm r sign.
(** [big_times_small]. *)
Definition big_times_small (x : bignum) (y : Z) : eterm := big_norm (D_mul (BIG_V x) y) (BIG_SIGN x).

(** [big_div]. *)
Definition big_div (x y : bignum) : option eterm :=
  let sign := xorb (BIG_SIGN x) (BIG_SIGN y) in
  if (BIG_SIZE y =? 1)%nat then Some (big_norm (fst (D_div (BIG_V x) (hd 0 (BIG_V y)))) sign)
  else match I_div (BIG_V x) (BIG_V y) with
       | Some (q, _) => Some (big_norm q sign)
       | None => None
       end.
(** [big_rem]. *)
Definition big_rem (x y : bignum) : option eterm :=
  let sign := BIG_SIGN x in
  if (BIG_SIZE y =? 1)%nat then
    let rem := D_rem (BIG_V x) (hd 0 (BIG_V y)) in
    Some (if IS_USMALL sign rem then make_small (if sign then - rem else rem)
          else make_big (MkBig sign [rem]))
  else match I_rem (BIG_V x) (BIG_V y) with
       | Some r => Some (big_norm r sign)
       | None => None
       end.
(** [big_neg]. *)
Definition big_neg (x : bignum) : eterm := big_norm (BIG_V x) (negb (BIG_SIGN x)).

(** The common shape of the three bitwise operations: the longer operand goes first. *)
Definition big_bitop (op : list Z -> bool -> list Z -> bool -> list Z) (sg : bool -> bool -> bool) (x y : bignum) : eterm :=
  let xsgn := BIG_SIGN x in
  let ysgn := BIG_SIGN y in
  let sign := sg xsgn ysgn in
  if (BIG_SIZE y <=? BIG_SIZE x)%nat then big_norm (op (BIG_V x) xsgn (BIG_V y) ysgn) sign
  else big_norm (op (BIG_V y) ysgn (BIG_V x) xsgn) sign.
(** [big_band]. *)
Definition big_band : bignum -> bignum -> eterm := big_bitop I_band andb.
(** [big_bor]. *)
Definition big_bor : bignum -> bignum -> eterm := big_bitop I_bor orb.
(** [big_bxor]. *)
Definition big_bxor : bignum -> bignum -> eterm := big_bitop I_bxor xorb.
(** [big_bnot]. *)
Definition big_bnot (x : bignum) : eterm :=
  let sign := negb (BIG_SIGN x) in big_norm (I_bnot (BIG_V x) sign) sign.
(** [big_lshift]. *)
Definition big_lshift (x : bignum) (y : Z) : eterm :=
  big_norm (I_lshift (BIG_V x) y (BIG_SIGN x)) (BIG_SIGN x).

(** [small_to_big]. *)
Definition small_to_big (x : Z) : bignum :=
  if x >=? 0 then MkBig false [x] else MkBig true [w64 (- w64 x)].
(** [uint_to_big]. *)
Definition uint_to_big (x : Z) : bignum := MkBig false [x].
(** [erts_make_integer]. *)
Definition erts_make_integer (x : Z) : eterm :=
  if IS_USMALL false x then make_small x else make_big (uint_to_big x).
(** [erts_uint64_to_big]. *)
Definition erts_uint64_to_big (x : Z) : bignum := MkBig false [x].
(** [erts_sint64_to_big]. *)
Definition erts_sint64_to_big (x : Z) : bignum :=
  if x >=? 0 then MkBig false [x] else MkBig true [w64 (- w64 x)].

(** ** The specification: the term of an integer *)
Fixpoint to_digits (n : nat) (z : Z) : list Z :=
  match n with O => [] | S n => z mod β :: to_digits n (z / β) end.
Definition digits_of (z : Z) : list Z := to_digits (Z.to_nat (Z.log2 z / 64 + 1)) z.

(** The term that represents an integer: a small when it fits, otherwise a
    bignum with as few digits as possible, and [NIL] past the largest arity. *)
Definition mk_integer (z : Z) : eterm :=
  if IS_SSMALL z then make_small z
  else let ds := digits_of (Z.abs z) in
       if Z.of_nat (length ds) >? BIG_ARITY_MAX then NIL else make_big (MkBig (z <? 0) ds).

Definition bval (b : bignum) : Z := sv (BIG_SIGN b) (BIG_V b).
Definition wf_big (b : bignum) : Prop :=
  digits (BIG_V b) /\ normal (BIG_V b) /\ (BIG_SIGN b = true -> 1 <= val (BIG_V b)).
Definition canonical (b : bignum) : Prop :=
  wf_big b /\ IS_SSMALL (bval b) = false /\ Z.of_nat (BIG_SIZE b) <= BIG_ARITY_MAX.

Lemma to_digits_spec n z : 0 <= z < β ^ Z.of_nat n ->
  val (to_digits n z) = z /\ digits (to_digits n z) /\ length (to_digits n z) = n.
Proof.
  revert z. induction n as [|n IH]; intros z Hz.
  - change (β ^ Z.of_nat 0) with 1 in Hz. cbn. splits; auto with bignat. lia.
  - rewrite pow_S in Hz. destruct (IH (z / β)) as (V & D & L).
    { split; [apply Z.div_pos; lia|apply Z.div_lt_upper_bound; lia]. }
    cbn [to_digits val length]. splits; [lia|apply digits_cons; split; auto; lia|auto].
Qed.

Lemma val_inj x y : digits x -> digits y -> length x = length y -> val x = val y -> x = y.
Proof.
  intros Hx. revert y. induction Hx as [|a x Ha Hx IH]; cbv beta in *; intros [|b y] Hy L V; try discriminate; auto.
  apply digits_cons in Hy as [Hb Hy]. cbn [val length] in *. injection L as L.
  f_equal; [lia|]. apply IH; auto. lia.
Qed.

Lemma normal_length x : digits x -> normal x -> 1 <= val x ->
  Z.of_nat (length x) = Z.log2 (val x) / 64 + 1.
Proof.
  intros Hx Nx Vx. pose proof (normal_low x Hx Nx ltac:(lia)) as Lo. pose proof (val_bound x Hx) as Hi.
  pose proof (normal_len x Nx) as Hl. pose proof (Z.log2_nonneg (val x)).
  change β with (2^64) in Lo, Hi. rewrite <- !Z.pow_mul_r in Lo, Hi by lia.
  apply Z.log2_le_pow2 in Lo; [|lia]. apply proj2, Z.log2_lt_pow2 in Hi; lia.
Qed.

Lemma digits_of_val x : digits x -> normal x -> 1 <= val x -> digits_of (val x) = x.
Proof.
  intros Hx Nx Vx. unfold digits_of. rewrite <- (normal_length x) by auto. rewrite Nat2Z.id.
  destruct (to_digits_spec (length x) (val x)) as (V & D & L); [now apply val_bound|].
  apply val_inj; auto.
Qed.

Lemma small_bits_val : MAX_SMALL = 2^59 - 1 /\ MIN_SMALL = - 2^59.
Proof. split; reflexivity. Qed.

Lemma is_small_sv (s : bool) d : 0 <= d -> IS_USMALL s d = IS_SSMALL (if s then - d else d).
Proof.
  intros Hd. destruct small_bits_val as [E1 E2]. unfold IS_USMALL, IS_SSMALL. rewrite E1, E2.
  destruct s; apply eq_true_iff_eq; rewrite ?andb_true_iff, ?Z.leb_le; lia.
Qed.

Lemma normal_ge_β x : digits x -> normal x -> (2 <= length x)%nat -> β <= val x.
Proof.
  intros Hx [Hne Hn] Hl. destruct Hn as [Hn|Hn]; [lia|].
  pose proof (last_app_val x 0 Hn Hne Hx) as L.
  transitivity (β ^ (Z.of_nat (length x) - 1)); auto.
  rewrite <- (Z.pow_1_r β) at 1. apply Z.pow_le_mono_r; lia.
Qed.

Lemma mk_integer_small z : IS_SSMALL z = true -> mk_integer z = make_small z.
Proof. unfold mk_integer. now intros ->. Qed.

Lemma big_norm_spec r s : digits r -> normal r -> big_norm r s = mk_integer (sv s r).
Proof.
  intros Hr Nr. unfold big_norm, mk_integer.
  assert (E : (length r =? 1)%nat && IS_USMALL s (hd 0 r) = IS_SSMALL (sv s r)).
  { destruct r as [|d [|d' r]]; [now destruct Nr| |].
    - apply digits_cons in Hr as [Hd _]. cbn [length Nat.eqb andb hd]. rewrite is_small_sv by lia.
      f_equal. destruct s; cbn [sv val]; lia.
    - cbn [length Nat.eqb andb]. pose proof (normal_ge_β _ Hr Nr ltac:(cbn; lia)).
      destruct small_bits_val as [E1 E2]. unfold IS_SSMALL. rewrite E1, E2. symmetry. apply andb_false_iff.
      rewrite !Z.leb_gt. destruct s; cbn [sv]; lia. }
  rewrite <- E. destruct ((length r =? 1)%nat && IS_USMALL s (hd 0 r)) eqn:F.
  - apply andb_true_iff in F as [F _]. apply Nat.eqb_eq in F. destruct r as [|d [|]]; try discriminate.
    f_equal. destruct s; cbn [sv val hd]; lia.
  - assert (V : 1 <= val r).
    { destruct (Z.eq_dec (val r) 0) as [Z0|]; [|pose proof (val_bound r Hr); lia].
      assert (S0 : sv s r = 0) by (destruct s; cbn; lia). rewrite S0 in E. discriminate. }
    assert (A : Z.abs (sv s r) = val r) by (destruct s; cbn [sv]; lia).
    assert (B : (sv s r <? 0) = s) by (destruct s; cbn [sv]; apply eq_true_iff_eq; rewrite Z.ltb_lt; split; intros; try discriminate; try reflexivity; lia).
    rewrite A, B, digits_of_val by auto. reflexivity.
Qed.

(** ** Shapes of sums *)
Lemma I_add_shape x y c : digits x -> digits y -> x <> [] -> (length y <= length x)%nat -> 0 <= c <= 1 ->
  exists t b, (b = 0 \/ b = 1) /\ I_add_loop x y c = t ++ (if b =? 0 then [] else [b]) /\
    length t = length x /\ digits t /\ val t + β ^ Z.of_nat (length x) * b = val x + val y + c.
Proof.
  intros Hx Hy. revert x c Hx. induction Hy as [|yd y Hyd Hy IH]; cbv beta in *; intros x c Hx Hne Hl Hc.
  - destruct x as [|xd x]; [congruence|]. cbn [I_add_loop]. change (val []) with 0.
    destruct (D_add_loop_shape (xd :: x) c Hx Hne ltac:(lia)) as (t & b & H1 & H2 & H3 & H4 & H5).
    exists t, b. splits; auto. lia.
  - destruct x as [|xd x]; [congruence|]. apply digits_cons in Hx as [Hxd Hx]. cbn [length] in Hl.
    cbn [I_add_loop]. set (s := wadd yd (wadd xd c)). set (c' := wadd (b2z (wadd xd c <? c)) (b2z (s <? yd))).
    assert (E : s + β * c' = xd + yd + c /\ is_digit s /\ 0 <= c' <= 1) by (subst s c'; wsolve).
    destruct E as (E & Hs & Hc'). destruct x as [|xd' x].
    + destruct y; [|cbn in Hl; lia]. exists [s], c'. cbn [I_add_loop D_add_loop length val app].
      rewrite pow_S. change (Z.of_nat 0) with 0. rewrite Z.pow_0_r, digits_cons.
      assert (Hc2 : c' = 0 \/ c' = 1) by lia. splits; auto with bignat; try lia. destruct Hc2 as [-> | ->]; reflexivity.
    + destruct (IH (xd' :: x) c' Hx ltac:(discriminate) ltac:(lia) Hc') as (t & b & Hb & -> & E1 & E2 & E3).
      exists (s :: t), b. remember (xd' :: x) as xx. cbn [length val app]. rewrite digits_cons, pow_S. splits; auto; lia.
Qed.

Lemma I_add_spec x y : digits x -> digits y -> normal x -> normal y -> (length y <= length x)%nat ->
  val (I_add x y) = val x + val y /\ digits (I_add x y) /\ normal (I_add x y).
Proof.
  intros Hx Hy [Hne Hn] Ny Hl. unfold I_add.
  destruct (I_add_loop_spec x y 0 Hx Hy Hl ltac:(lia)) as [V D]. splits; auto; [lia|].
  destruct (I_add_shape x y 0 Hx Hy Hne Hl ltac:(lia)) as (t & b & Hb & E & E1 & E2 & E3). rewrite E.
  destruct Hb as [-> | ->]; cbn [Z.eqb].
  - rewrite app_nil_r. assert (Ht : t <> []) by (intros ->; destruct x; cbn in *; congruence).
    destruct Hn as [Hn|Hn]; [split; auto; left; congruence|].
    apply normal_of_low; auto. rewrite E1. pose proof (last_app_val x 0 Hn Hne Hx). pose proof (val_bound y Hy). lia.
  - split; [intros F; apply app_eq_nil in F as [_ F]; discriminate|]. right. rewrite last_last. lia.
Qed.

Lemma D_add_spec x c : digits x -> normal x -> is_digit c ->
  val (D_add x c) = val x + c /\ digits (D_add x c) /\ normal (D_add x c).
Proof.
  intros Hx Nx Hc. destruct (D_add_loop_spec x c Hx Hc) as [V D]; [left; apply Nx|].
  splits; auto. now apply D_add_normal.
Qed.

Lemma nonempty_length (l l' : list Z) : length l = length l' -> l' <> [] -> l <> [].
Proof. intros E H F. subst l. destruct l'; [congruence|discriminate]. Qed.

Lemma D_sub_spec x c : digits x -> x <> [] -> is_digit c -> c <= val x ->
  val (D_sub x c) = val x - c /\ digits (D_sub x c) /\ normal (D_sub x c).
Proof.
  intros Hx Hne Hc Hv. unfold D_sub. destruct (D_sub_loop_spec x c Hx Hc Hv) as (V & D & L).
  destruct (trim_spec _ D (nonempty_length _ _ L Hne)) as (V' & D' & N). splits; auto. lia.
Qed.

Lemma I_sub_spec x y : digits x -> digits y -> x <> [] -> (length y <= length x)%nat -> val y <= val x ->
  val (I_sub x y) = val x - val y /\ digits (I_sub x y) /\ normal (I_sub x y).
Proof.
  intros Hx Hy Hne Hl Hv. unfold I_sub. destruct (I_sub_loop_spec x y 0 Hx Hy Hl) as (V & D & L); try lia.
  destruct (trim_spec _ D (nonempty_length _ _ L Hne)) as (V' & D' & N). splits; auto. lia.
Qed.

Lemma normal_val_length x y : digits x -> digits y -> normal x -> normal y -> val y <= val x ->
  (length y <= length x)%nat.
Proof.
  intros Hx Hy Nx Ny Hv. destruct (Nat.le_gt_cases (length y) (length x)) as [|Hl]; auto. exfalso.
  pose proof (val_bound x Hx). pose proof (normal_len x Nx).
  assert (Hn : val y <> 0).
  { intros F. destruct Ny as [Hne [L|L]]; [lia|]. pose proof (last_app_val y 0 L Hne Hy).
    assert (0 < β ^ (Z.of_nat (length y) - 1)) by (apply Z.pow_pos_nonneg; lia). lia. }
  pose proof (normal_low y Hy Ny Hn).
  assert (β ^ Z.of_nat (length x) <= β ^ (Z.of_nat (length y) - 1)) by (apply Z.pow_le_mono_r; lia). lia.
Qed.

(** ** Addition and subtraction *)
Lemma B_plus_minus_spec x xs y ys : digits x -> digits y -> normal x -> normal y ->
  B_plus_minus x xs y ys = mk_integer (sv xs x + sv ys y).
Proof.
  intros Hx Hy Nx Ny. unfold B_plus_minus. destruct (eqb xs ys) eqn:E.
  - apply eqb_prop in E as <-.
    assert (S : sv xs x + sv xs y = if xs then - (val x + val y) else val x + val y) by (destruct xs; cbn; lia).
    destruct (Nat.ltb_spec (length y) (length x)).
    + destruct (I_add_spec x y) as (V & D & N); auto; [lia|]. rewrite big_norm_spec by auto. f_equal. rewrite S. unfold sv. now rewrite V.
    + destruct (I_add_spec y x) as (V & D & N); auto. rewrite big_norm_spec by auto. f_equal. rewrite S. unfold sv. rewrite V. destruct xs; lia.
  - assert (ys = negb xs) as -> by (destruct xs, ys; reflexivity || discriminate E).
    rewrite I_comp_spec by auto. destruct (Z.compare_spec (val x) (val y)); cbn.
    + rewrite mk_integer_small; [f_equal|]; destruct xs; cbn; try (replace (_ + _) with 0 by lia); auto; lia.
    + destruct (I_sub_spec y x) as (V & D & N); auto; try lia; [apply Ny|apply normal_val_length; auto; lia|].
      rewrite big_norm_spec by auto. f_equal. unfold sv. rewrite V. destruct xs; cbn; lia.
    + destruct (I_sub_spec x y) as (V & D & N); auto; try lia; [apply Nx|apply normal_val_length; auto; lia|].
      rewrite big_norm_spec by auto. f_equal. unfold sv. rewrite V. destruct xs; cbn; lia.
Qed.

Lemma big_plus_mk x y : wf_big x -> wf_big y -> big_plus x y = mk_integer (bval x + bval y).
Proof. intros (? & ? & _) (? & ? & _). now apply B_plus_minus_spec. Qed.
Lemma big_minus_mk x y : wf_big x -> wf_big y -> big_minus x y = mk_integer (bval x - bval y).
Proof.
  intros (? & ? & _) (? & ? & _). unfold big_minus. rewrite B_plus_minus_spec by auto. f_equal.
  unfold bval. destruct (BIG_SIGN y); cbn; lia.
Qed.
Lemma big_plus_small_mk x y : wf_big x -> is_digit y -> (BIG_SIGN x = true -> y <= val (BIG_V x)) ->
  big_plus_small x y = mk_integer (bval x + y).
Proof.
  intros (Hx & Nx & _) Hy Hv. unfold big_plus_small, bval. destruct (BIG_SIGN x).
  - destruct (D_sub_spec (BIG_V x) y) as (V & D & N); auto; [apply Nx|]. rewrite big_norm_spec by auto. f_equal. cbn. lia.
  - destruct (D_add_spec (BIG_V x) y) as (V & D & N); auto. rewrite big_norm_spec by auto. f_equal. cbn. lia.
Qed.
Lemma big_minus_small_mk x y : wf_big x -> is_digit y -> (BIG_SIGN x = false -> y <= val (BIG_V x)) ->
  big_minus_small x y = mk_integer (bval x - y).
Proof.
  intros (Hx & Nx & _) Hy Hv. unfold big_minus_small, bval. destruct (BIG_SIGN x).
  - destruct (D_add_spec (BIG_V x) y) as (V & D & N); auto. rewrite big_norm_spec by auto. f_equal. cbn. lia.
  - destruct (D_sub_spec (BIG_V x) y) as (V & D & N); auto; [apply Nx|]. rewrite big_norm_spec by auto. f_equal. cbn. lia.
Qed.

(** ** Multiplication and division *)
Lemma sv_mul xs ys x y r : val r = val x * val y -> sv (xorb xs ys) r = sv xs x * sv ys y.
Proof. intros E. destruct xs, ys; cbn [sv xorb]; rewrite E; ring. Qed.
Lemma is_digit_hd x : digits x -> is_digit (hd 0 x).
Proof. destruct 1; cbn; [lia|auto]. Qed.
Lemma val_hd x : length x = 1%nat -> val x = hd 0 x.
Proof. destruct x as [|d [|]]; try discriminate. cbn. lia. Qed.
Lemma normal_pos x : digits x -> normal x -> (length x =? 1)%nat = false -> val x <> 0 /\ (2 <= length x)%nat.
Proof.
  intros Hx Nx Hl. apply Nat.eqb_neq in Hl. pose proof (normal_len x Nx).
  pose proof (normal_ge_β x Hx Nx ltac:(lia)). lia.
Qed.

Lemma repeat_prefix n m (junk : list Z) : (m <= n)%nat -> firstn m (repeat 0 n ++ junk) = repeat 0 m.
Proof.
  intros H. replace n with (m + (n - m))%nat by lia. rewrite repeat_app, <- app_assoc.
  rewrite firstn_app, repeat_length, Nat.sub_diag, firstn_0, app_nil_r.
  rewrite <- (repeat_length 0 m) at 1. apply firstn_all.
Qed.

Lemma big_times_mk same junk x y : wf_big x -> wf_big y -> (same = true -> x = y) ->
  (BIG_SIZE x + BIG_SIZE y <= length junk)%nat ->
  big_times same junk x y = mk_integer (bval x * bval y).
Proof.
  intros (Hx & Nx & _) (Hy & Ny & _) Hs Hj. unfold big_times, BIG_SIZE in *.
  match goal with |- big_norm ?e _ = _ => set (r := e) end.
  assert (H : val r = val (BIG_V x) * val (BIG_V y) /\ digits r /\ normal r).
  { subst r. destruct (length (BIG_V y) =? 1)%nat eqn:Ey.
    - apply Nat.eqb_eq in Ey. rewrite (val_hd (BIG_V y)) by auto. rewrite Z.mul_comm.
      apply D_mul_spec; auto using is_digit_hd.
    - destruct (normal_pos _ Hy Ny Ey) as (Py & Ly). destruct (length (BIG_V x) =? 1)%nat eqn:Ex.
      + apply Nat.eqb_eq in Ex. rewrite (val_hd (BIG_V x)) by auto. apply D_mul_spec; auto using is_digit_hd.
      + destruct (normal_pos _ Hx Nx Ex) as (Px & Lx). destruct same.
        * rewrite <- (Hs eq_refl). apply I_sqr_spec; auto.
          -- apply repeat_prefix; lia.
          -- rewrite length_app, repeat_length. rewrite <- (Hs eq_refl) in Hj. lia.
        * destruct (Nat.leb_spec (length (BIG_V y)) (length (BIG_V x))).
          -- apply I_mul_spec; auto; [apply repeat_prefix; lia|rewrite length_app, repeat_length; lia].
          -- rewrite Z.mul_comm. apply I_mul_spec; auto; [apply repeat_prefix; lia|rewrite length_app, repeat_length; lia]. }
  destruct H as (V & D & N). rewrite big_norm_spec by auto. f_equal. now apply sv_mul.
Qed.

Lemma big_times_small_mk x y : wf_big x -> is_digit y -> big_times_small x y = mk_integer (bval x * y).
Proof.
  intros (Hx & Nx & _) Hy. unfold big_times_small. destruct (D_mul_spec (BIG_V x) y) as (V & D & N); auto.
  rewrite big_norm_spec by auto. f_equal. unfold bval, sv. rewrite V. destruct (BIG_SIGN x); ring.
Qed.

Lemma sgn_quot (xs ys : bool) X Y : 0 <= X -> 0 < Y ->
  (if xorb xs ys then - (X / Y) else X / Y) = Z.quot (if xs then - X else X) (if ys then - Y else Y).
Proof.
  intros HX HY. rewrite <- Z.quot_div_nonneg by lia.
  destruct xs, ys; cbn; rewrite ?Z.quot_opp_opp, ?Z.quot_opp_l, ?Z.quot_opp_r by lia; reflexivity.
Qed.
Lemma sgn_rem (xs ys : bool) X Y : 0 <= X -> 0 < Y ->
  (if xs then - (X mod Y) else X mod Y) = Z.rem (if xs then - X else X) (if ys then - Y else Y).
Proof.
  intros HX HY. rewrite <- Z.rem_mod_nonneg by lia.
  destruct xs, ys; cbn; rewrite ?Z.rem_opp_opp, ?Z.rem_opp_l, ?Z.rem_opp_r by lia; reflexivity.
Qed.

Lemma big_div_mk x y : wf_big x -> wf_big y -> 1 <= val (BIG_V y) -> val (BIG_V y) <= val (BIG_V x) ->
  big_div x y = Some (mk_integer (Z.quot (bval x) (bval y))).
Proof.
  intros (Hx & Nx & _) (Hy & Ny & _) Py Hc. unfold big_div, BIG_SIZE, bval, sv.
  rewrite <- sgn_quot by lia. destruct (length (BIG_V y) =? 1)%nat eqn:E.
  - apply Nat.eqb_eq in E. pose proof (val_hd _ E). pose proof (is_digit_hd _ Hy).
    pose proof (D_div_spec (BIG_V x) (hd 0 (BIG_V y)) Hx Nx ltac:(lia)) as S.
    destruct (D_div _ _) as [q r]. destruct S as (V & _ & D & N). cbn [fst]. rewrite big_norm_spec by auto.
    do 2 f_equal. unfold sv. rewrite V, <- H. reflexivity.
  - destruct (normal_pos _ Hy Ny E) as (_ & Ly).
    destruct (I_div_spec (BIG_V x) (BIG_V y)) as (q & r & -> & D & N & _ & _ & V & _); auto.
    rewrite big_norm_spec by auto. do 2 f_equal. unfold sv. now rewrite V.
Qed.

Lemma big_rem_mk x y : wf_big x -> wf_big y -> 1 <= val (BIG_V y) ->
  ((BIG_SIZE y = 1)%nat \/ val (BIG_V y) <= val (BIG_V x)) ->
  big_rem x y = Some (mk_integer (Z.rem (bval x) (bval y))).
Proof.
  intros (Hx & Nx & _) (Hy & Ny & _) Py Hc. unfold big_rem, BIG_SIZE, bval, sv in *.
  pose proof (val_bound _ Hx). rewrite <- sgn_rem by lia.
  destruct (length (BIG_V y) =? 1)%nat eqn:E.
  - apply Nat.eqb_eq in E. pose proof (val_hd _ E). pose proof (is_digit_hd _ Hy).
    rewrite D_rem_spec by (auto; lia). rewrite <- H0. set (m := val (BIG_V x) mod val (BIG_V y)).
    assert (Hm : is_digit m) by (pose proof (Z.mod_pos_bound (val (BIG_V x)) (val (BIG_V y))); lia).
    assert (D : digits [m]) by (apply digits_cons; auto with bignat).
    assert (N : normal [m]) by (split; [discriminate|auto]).
    pose proof (big_norm_spec [m] (BIG_SIGN x) D N) as B. cbn [big_norm length Nat.eqb andb hd] in B.
    replace (Z.of_nat 1 >? BIG_ARITY_MAX) with false in B by reflexivity. unfold big_norm in B. cbn [length Nat.eqb andb hd] in B.
    replace (Z.of_nat 1 >? BIG_ARITY_MAX) with false in B by reflexivity. 
    f_equal. rewrite B. f_equal. unfold sv. cbn [val]. destruct (BIG_SIGN x); lia.
  - destruct (normal_pos _ Hy Ny E) as (_ & Ly). apply Nat.eqb_neq in E. destruct Hc as [Hc|Hc]; [lia|].
    rewrite I_rem_div. destruct (I_div_spec (BIG_V x) (BIG_V y)) as (q & r & -> & _ & _ & D & N & _ & V); auto.
    cbn [option_map snd]. rewrite big_norm_spec by auto. do 2 f_equal. unfold sv. now rewrite V.
Qed.

(** ** Bit operations, shift, negation *)

(** The borrow that the high-digit loop of [I_band] and [I_bxor] forgets, for
    the longer operand [x] and the shorter one [y]. *)
Definition lost_borrow (x y : bignum) : Z :=
  β ^ Z.of_nat (BIG_SIZE y) * pending true (BIG_SIZE y) (BIG_V x).
Definition longer (x y : bignum) : bignum := if (BIG_SIZE y <=? BIG_SIZE x)%nat then x else y.
Definition shorter (x y : bignum) : bignum := if (BIG_SIZE y <=? BIG_SIZE x)%nat then y else x.

Ltac bitop_cases x y :=
  match goal with H1 : wf_big x, H2 : wf_big y |- _ => destruct H1 as (? & ? & ?), H2 as (? & ? & ?) end;
  unfold lost_borrow, longer, shorter, big_bitop, bval, BIG_SIZE;
  destruct (Nat.leb_spec (length (BIG_V y)) (length (BIG_V x))).

Lemma big_band_mk x y : wf_big x -> wf_big y ->
  big_band x y = mk_integer (Z.land (bval x) (bval y) -
    (if BIG_SIGN x && BIG_SIGN y then lost_borrow (longer x y) (shorter x y) else 0)).
Proof.
  intros Wx Wy. unfold big_band. bitop_cases x y.
  - destruct (I_band_spec (BIG_V x) (BIG_V y) (BIG_SIGN x) (BIG_SIGN y)) as (V & D & N); auto.
    rewrite big_norm_spec by auto. now rewrite V.
  - destruct (I_band_spec (BIG_V y) (BIG_V x) (BIG_SIGN y) (BIG_SIGN x)) as (V & D & N); auto; [lia|].
    rewrite big_norm_spec by auto. rewrite (andb_comm (BIG_SIGN x)), V. now rewrite Z.land_comm.
Qed.

Lemma big_bor_mk x y : wf_big x -> wf_big y -> big_bor x y = mk_integer (Z.lor (bval x) (bval y)).
Proof.
  intros Wx Wy. unfold big_bor. bitop_cases x y.
  - destruct (I_bor_spec (BIG_V x) (BIG_V y) (BIG_SIGN x) (BIG_SIGN y)) as (V & D & N); auto.
    rewrite big_norm_spec by auto. now rewrite V.
  - destruct (I_bor_spec (BIG_V y) (BIG_V x) (BIG_SIGN y) (BIG_SIGN x)) as (V & D & N); auto; [lia|].
    rewrite big_norm_spec by auto. rewrite (orb_comm (BIG_SIGN x)), V. now rewrite Z.lor_comm.
Qed.

Lemma big_bxor_mk x y : wf_big x -> wf_big y ->
  big_bxor x y = mk_integer (Z.lxor (bval x) (bval y) +
    (if BIG_SIGN (longer x y)
     then lost_borrow (longer x y) (shorter x y) * (if BIG_SIGN (shorter x y) then 1 else -1) else 0)).
Proof.
  intros Wx Wy. unfold big_bxor. bitop_cases x y.
  - destruct (I_bxor_spec (BIG_V x) (BIG_V y) (BIG_SIGN x) (BIG_SIGN y)) as (V & D & N); auto.
    rewrite big_norm_spec by auto. now rewrite V.
  - destruct (I_bxor_spec (BIG_V y) (BIG_V x) (BIG_SIGN y) (BIG_SIGN x)) as (V & D & N); auto; [lia|].
    rewrite big_norm_spec by auto. rewrite (xorb_comm (BIG_SIGN x)), V. now rewrite Z.lxor_comm.
Qed.

Lemma big_bnot_mk x : wf_big x -> 1 <= val (BIG_V x) -> big_bnot x = mk_integer (Z.lnot (bval x)).
Proof.
  intros (Hx & Nx & _) Px. unfold big_bnot, I_bnot, bval, Z.lnot. destruct (BIG_SIGN x); cbn [negb].
  - destruct (D_sub_spec (BIG_V x) 1) as (V & D & N); auto; [apply Nx|lia|]. rewrite big_norm_spec by auto. f_equal. cbn. lia.
  - destruct (D_add_spec (BIG_V x) 1) as (V & D & N); auto; [lia|]. rewrite big_norm_spec by auto. f_equal. cbn. lia.
Qed.

Lemma big_neg_mk x : wf_big x -> big_neg x = mk_integer (- bval x).
Proof.
  intros (Hx & Nx & _). unfold big_neg, bval. rewrite big_norm_spec by auto. f_equal. destruct (BIG_SIGN x); cbn; lia.
Qed.

Lemma normal_zero x : digits x -> normal x -> val x = 0 -> x = [0].
Proof.
  intros Hx Nx V. destruct x as [|d [|d' x]]; [now destruct Nx| |].
  - cbn in V. f_equal. lia.
  - pose proof (normal_ge_β _ Hx Nx ltac:(cbn; lia)). lia.
Qed.

Lemma big_lshift_mk x y : wf_big x -> big_lshift x y = mk_integer (Z.shiftl (bval x) y).
Proof.
  intros (Hx & Nx & Px). unfold big_lshift, bval.
  destruct (Z.eq_dec (val (BIG_V x)) 0) as [V0|V0].
  - rewrite (normal_zero _ Hx Nx V0).
    assert (S0 : BIG_SIGN x = false) by (destruct (BIG_SIGN x); auto; specialize (Px eq_refl); lia).
    rewrite S0. cbn [sv val]. rewrite Z.add_0_l, Z.mul_0_r, Z.shiftl_0_l.
    unfold I_lshift. destruct (y =? 0); reflexivity.
  - pose proof (val_bound _ Hx). destruct (I_lshift_spec (BIG_V x) y (BIG_SIGN x)) as (V & D & N); auto; [lia|].
    rewrite big_norm_spec by auto. now rewrite V.
Qed.

(** ** Comparison and the terms of machine integers *)
Definition cmpz (x y : Z) : Z := match x ?= y with Lt => -1 | Eq => 0 | Gt => 1 end.

Lemma big_comp_cmp x y : wf_big x -> wf_big y -> big_comp x y = cmpz (bval x) (bval y).
Proof.
  intros (Hx & Nx & Px) (Hy & Ny & Py). unfold big_comp, bval, cmpz.
  pose proof (val_bound _ Hx). pose proof (val_bound _ Hy).
  destruct (BIG_SIGN x), (BIG_SIGN y); cbn [eqb sv]; rewrite ?I_comp_spec by auto;
    rewrite ?Z.compare_opp; try (specialize (Px eq_refl)); try (specialize (Py eq_refl)).
  - rewrite (Z.compare_antisym (val (BIG_V x))). destruct (val (BIG_V x) ?= val (BIG_V y)); reflexivity.
  - destruct (Z.compare_spec (- val (BIG_V x)) (val (BIG_V y))); lia.
  - destruct (Z.compare_spec (val (BIG_V x)) (- val (BIG_V y))); lia.
  - reflexivity.
Qed.
Lemma big_ucomp_cmp x y : wf_big x -> wf_big y -> big_ucomp x y = cmpz (Z.abs (bval x)) (Z.abs (bval y)).
Proof.
  intros (Hx & Nx & Px) (Hy & Ny & Py). unfold big_ucomp. rewrite I_comp_spec by auto. unfold cmpz, bval.
  pose proof (val_bound _ Hx). pose proof (val_bound _ Hy).
  replace (Z.abs (sv _ (BIG_V x))) with (val (BIG_V x)) by (destruct (BIG_SIGN x); cbn; lia).
  now replace (Z.abs (sv _ (BIG_V y))) with (val (BIG_V y)) by (destruct (BIG_SIGN y); cbn; lia).
Qed.

Lemma wf_digit (s : bool) d : is_digit d -> (s = true -> 1 <= d) -> wf_big (MkBig s [d]).
Proof.
  intros Hd Hs. unfold wf_big; splits; cbn.
  - apply digits_cons; auto with bignat.
  - split; [discriminate|auto].
  - intros E. specialize (Hs E). lia.
Qed.

Lemma small_to_big_spec x : - 2^63 <= x < 2^63 -> wf_big (small_to_big x) /\ bval (small_to_big x) = x.
Proof.
  intros Hx. unfold small_to_big. rewrite Z.geb_leb. destruct (Z.leb_spec 0 x).
  - split; [apply wf_digit; [lia|discriminate]|]. cbn. lia.
  - assert (E : w64 (- w64 x) = - x) by (unfold w64; lia). rewrite E.
    split; [apply wf_digit; lia|]. cbn. lia.
Qed.

Lemma canonical_digits b : canonical b -> make_big b = mk_integer (bval b).
Proof.
  intros ((Hx & Nx & Px) & Hs & Hl). unfold bval. rewrite <- (big_norm_spec (BIG_V b) (BIG_SIGN b)) by auto.
  unfold big_norm. destruct b as [s r]; cbn [BIG_SIGN BIG_V] in *. unfold bval in Hs. cbn in Hs.
  destruct (length r =? 1)%nat eqn:E; cbn [andb].
  - apply Nat.eqb_eq in E. rewrite is_small_sv by (apply is_digit_hd in Hx; lia).
    replace (if s then - hd 0 r else hd 0 r) with (sv s r) by (unfold sv; rewrite (val_hd r E); reflexivity).
    rewrite Hs. unfold BIG_SIZE in Hl. cbn in Hl. destruct (Z.gtb_spec (Z.of_nat (length r)) BIG_ARITY_MAX); [lia|reflexivity].
  - unfold BIG_SIZE in Hl. cbn in Hl. destruct (Z.gtb_spec (Z.of_nat (length r)) BIG_ARITY_MAX); [lia|reflexivity].
Qed.

Lemma mk_integer_cases z :
  match mk_integer z with
  | make_small s => s = z /\ IS_SSMALL z = true
  | make_big b => canonical b /\ bval b = z
  | NIL => IS_SSMALL z = false /\ BIG_ARITY_MAX < Z.of_nat (length (digits_of (Z.abs z)))
  end.
Proof.
  unfold mk_integer. destruct (IS_SSMALL z) eqn:E; [auto|].
  destruct (Z.gtb_spec (Z.of_nat (length (digits_of (Z.abs z)))) BIG_ARITY_MAX) as [G|G]; [split; auto; lia|].
  destruct small_bits_val as [E1 E2].
  assert (Hz : 1 <= Z.abs z).
  { destruct (Z.eq_dec z 0) as [->|]; [discriminate E|lia]. }
  set (n := Z.to_nat (Z.log2 (Z.abs z) / 64 + 1)).
  pose proof (Z.log2_spec (Z.abs z) ltac:(lia)) as [L1 L2]. pose proof (Z.log2_nonneg (Z.abs z)).
  assert (B : 2 ^ (Z.log2 (Z.abs z) / 64 * 64) <= Z.abs z < β ^ Z.of_nat n).
  { subst n. rewrite Z2Nat.id by lia. change β with (2^64). rewrite <- Z.pow_mul_r by lia. split.
    - transitivity (2 ^ Z.log2 (Z.abs z)); auto. apply Z.pow_le_mono_r; lia.
    - apply Z.lt_le_trans with (1 := L2). apply Z.pow_le_mono_r; lia. }
  destruct (to_digits_spec n (Z.abs z) ltac:(lia)) as (V & D & L). change (to_digits n (Z.abs z)) with (digits_of (Z.abs z)) in *.
  assert (N : normal (digits_of (Z.abs z))).
  { apply normal_of_low; auto.
    - intros F. rewrite F in V. cbn in V. lia.
    - rewrite V, L. subst n. rewrite Z2Nat.id by lia. change β with (2^64). rewrite <- Z.pow_mul_r by lia.
      replace (64 * (Z.log2 (Z.abs z) / 64 + 1 - 1)) with (Z.log2 (Z.abs z) / 64 * 64) by lia. apply B. }
  assert (S : bval (MkBig (z <? 0) (digits_of (Z.abs z))) = z).
  { unfold bval. cbn [BIG_SIGN BIG_V]. unfold sv. rewrite V. destruct (Z.ltb_spec z 0); lia. }
  split; [|exact S]. unfold canonical, wf_big. rewrite S. splits; auto; cbn [BIG_V BIG_SIGN]; intros _; lia.
Qed.

Lemma erts_make_integer_mk x : is_digit x -> erts_make_integer x = mk_integer x.
Proof.
  intros Hx. unfold erts_make_integer. rewrite (is_small_sv false) by lia.
  destruct (IS_SSMALL x) eqn:E; [now rewrite mk_integer_small|].
  rewrite canonical_digits; [unfold bval; cbn; f_equal; lia|].
  unfold canonical, bval. cbn [sv BIG_SIGN BIG_V uint_to_big val]. rewrite Z.mul_0_r, Z.add_0_r, E.
  splits; auto; [apply wf_digit; auto; discriminate|]. unfold BIG_SIZE, BIG_ARITY_MAX. cbn. lia.
Qed.

Lemma small_times_mk x y : IS_SSMALL x = true -> IS_SSMALL y = true -> small_times x y = mk_integer (x * y).
Proof.
  destruct small_bits_val as [E1 E2]. unfold IS_SSMALL at 1 2. rewrite E1, E2, !andb_true_iff, !Z.leb_le. intros Hx Hy.
  unfold small_times. rewrite !Z.gtb_ltb.
  assert (Ax : (if 0 <? x then x else - x) = Z.abs x) by (zbool; lia).
  assert (Ay : (if 0 <? y then y else - y) = Z.abs y) by (zbool; lia). rewrite Ax, Ay.
  set (s := xorb (x <? 0) (y <? 0)).
  assert (Es : x * y = if s then - (Z.abs x * Z.abs y) else Z.abs x * Z.abs y).
  { subst s. destruct (Z.ltb_spec x 0), (Z.ltb_spec y 0); cbn [xorb];
    rewrite ?(Z.abs_neq x), ?(Z.abs_neq y), ?(Z.abs_eq x), ?(Z.abs_eq y) by lia; ring. }
  rewrite Es. clearbody s. pose proof (DMULc_spec (Z.abs x) (Z.abs y) 0 ltac:(lia) ltac:(lia) ltac:(lia)) as M.
  destruct (DMULc (Z.abs x) (Z.abs y) 0) as [d1 d0]. destruct M as (M & D1 & D0).
  replace (Z.abs x * Z.abs y) with (d0 + β * d1) by lia.
  assert (Hd : digits (if d1 =? 0 then [d0] else [d0; d1])).
  { destruct (d1 =? 0); rewrite !digits_cons; auto with bignat. }
  assert (Hn : normal (if d1 =? 0 then [d0] else [d0; d1])).
  { destruct (Z.eqb_spec d1 0); split; try discriminate; cbn; auto. }
  assert (Hv : (if s then - (d0 + β * d1) else d0 + β * d1) = sv s (if d1 =? 0 then [d0] else [d0; d1])).
  { unfold sv. destruct (Z.eqb_spec d1 0); subst; destruct s; cbn [val]; lia. }
  rewrite Hv, <- big_norm_spec by auto. unfold big_norm.
  destruct (Z.eqb_spec d1 0); cbn [andb length Nat.eqb hd]; auto.
Qed.
