(* ===== verification/ErlArith.v ===== *)
(** The integer operators of erl_arith.c, on terms: small and big operands, mixed cases, error
    results. Float operands are not modelled. The specification is [int_result]. *)

From S2P Require Import Prelude Digits DigitDiv BigNat BigMul BigDiv DoubleDigit LongDiv LongDivSpec BigBits BigShift BigNum.

(** The exceptions of the arithmetic functions. *)
Inductive reason := BADARITH | SYSTEM_LIMIT.
(** A term, or [THE_NON_VALUE] with the reason. *)
Inductive result := Ret (t : eterm) | Fail (r : reason).

(** A bignum result, or [NIL] turned into a system_limit error. *)
Definition ret_big (t : eterm) : result := match t with NIL => Fail SYSTEM_LIMIT | t => Ret t end.
(** The result of two small operands. *)
Definition make_small_or_big (ires : Z) : eterm :=
  if IS_SSMALL ires then make_small ires else make_big (small_to_big ires).

(** [erts_mixed_plus] on integers. *)
Definition erts_mixed_plus (arg1 arg2 : eterm) : result :=
  match arg1, arg2 with
  | make_small i1, make_small i2 => Ret (make_small_or_big (i1 + i2))
  | make_small i1, make_big b2 =>
      if i1 =? 0 then Ret arg2 else ret_big (big_plus (small_to_big i1) b2)
  | make_big b1, make_small i2 =>
      if i2 =? 0 then Ret arg1 else ret_big (big_plus b1 (small_to_big i2))
  | make_big b1, make_big b2 => ret_big (big_plus b1 b2)
  | _, _ => Fail BADARITH
  end.

(** [erts_mixed_minus] on integers. *)
Definition erts_mixed_minus (arg1 arg2 : eterm) : result :=
  match arg1, arg2 with
  | make_small i1, make_small i2 => Ret (make_small_or_big (i1 - i2))
  | make_small i1, make_big b2 => ret_big (big_minus (small_to_big i1) b2)
  | make_big b1, make_small i2 =>
      if i2 =? 0 then Ret arg1 else ret_big (big_minus b1 (small_to_big i2))
  | make_big b1, make_big b2 => ret_big (big_minus b1 b2)
  | _, _ => Fail BADARITH
  end.

(** [same] tells that two bignum arguments are the same object; [junk] is the
    uninitialised heap the product is computed in. *)
Definition erts_mixed_times (same : bool) (junk : list Z) (arg1 arg2 : eterm) : result :=
  match arg1, arg2 with
  | make_small i1, make_small i2 =>
      if (i1 =? 0) || (i2 =? 0) then Ret (make_small 0)
      else if i1 =? 1 then Ret arg2
      else if i2 =? 1 then Ret arg1
      else Ret (small_times i1 i2)
  | make_small i1, make_big b2 =>
      if i1 =? 0 then Ret (make_small 0)
      else if i1 =? 1 then Ret arg2
      else ret_big (big_times false junk (small_to_big i1) b2)
  | make_big b1, make_small i2 =>
      if i2 =? 0 then Ret (make_small 0)
      else if i2 =? 1 then Ret arg1
      else ret_big (big_times false junk b1 (small_to_big i2))
  | make_big b1, make_big b2 => ret_big (big_times same junk b1 b2)
  | _, _ => Fail BADARITH
  end.

(** The result of a division. *)
Definition ret_div (t : option eterm) : option result := option_map ret_big t.
(** The label [L_big_div]. *)
Definition L_big_div (b1 b2 : bignum) : option result :=
  let ires := big_ucomp b1 b2 in
  if ires <? 0 then Some (Ret (make_small 0))
  else if ires =? 0 then Some (Ret (if eqb (BIG_SIGN b1) (BIG_SIGN b2) then make_small 1 else make_small (-1)))
  else ret_div (big_div b1 b2).
(** [erts_int_div]. *)
Definition erts_int_div (arg1 arg2 : eterm) : option result :=
  match arg1, arg2 with
  | make_small i1, make_small i2 => L_big_div (small_to_big i1) (small_to_big i2)
  | make_big b1, make_small i2 => L_big_div b1 (small_to_big i2)
  | make_small i1, make_big b2 =>
      if negb (i1 =? MIN_SMALL) then Some (Ret (make_small 0)) else L_big_div (small_to_big i1) b2
  | make_big b1, make_big b2 => L_big_div b1 b2
  | _, _ => Some (Fail BADARITH)
  end.
(** The label [L_big_rem]. *)
Definition L_big_rem (arg1 : eterm) (b1 b2 : bignum) : option result :=
  let ires := big_ucomp b1 b2 in
  if ires =? 0 then Some (Ret (make_small 0))
  else if ires >? 0 then ret_div (big_rem b1 b2)
  else Some (Ret arg1).
(** [erts_int_rem]. *)
Definition erts_int_rem (arg1 arg2 : eterm) : option result :=
  match arg1, arg2 with
  | make_big b1, make_small i2 => L_big_rem arg1 b1 (small_to_big i2)
  | make_small i1, make_big b2 =>
      if negb (i1 =? MIN_SMALL) then Some (Ret arg1)
      else if big_ucomp (small_to_big i1) b2 =? 0 then Some (Ret (make_small 0)) else Some (Ret arg1)
  | make_big b1, make_big b2 => L_big_rem arg1 b1 b2
  | _, _ => Some (Fail BADARITH)
  end.

(** The three bitwise operators convert a small operand and do not look for
    [NIL] in the result. *)
Definition erts_bitop (op : bignum -> bignum -> eterm) (arg1 arg2 : eterm) : result :=
  match arg1, arg2 with
  | make_small i1, make_big b2 => Ret (op (small_to_big i1) b2)
  | make_big b1, make_small i2 => Ret (op b1 (small_to_big i2))
  | make_big b1, make_big b2 => Ret (op b1 b2)
  | _, _ => Fail BADARITH
  end.
(** [erts_band]. *)
Definition erts_band : eterm -> eterm -> result := erts_bitop big_band.
(** [erts_bor]. *)
Definition erts_bor : eterm -> eterm -> result := erts_bitop big_bor.
(** [erts_bxor]. *)
Definition erts_bxor : eterm -> eterm -> result := erts_bitop big_bxor.

(** The label [big_shift]: size check, shift, normalise. *)
Definition big_shift (b : bignum) (i : Z) : result :=
  let sz := Z.of_nat (BIG_SIZE b) in
  let ires :=
    if i >? 0 then sz + Z.quot i D_EXP
    else if sz <=? Z.quot (- i) D_EXP then 3 else sz - Z.quot (- i) D_EXP in
  if ires - 8 >? BIG_ARITY_MAX then Fail SYSTEM_LIMIT else ret_big (big_lshift b i).
(** The label [small_shift]. *)
Definition small_shift (ires i : Z) : result :=
  if (i =? 0) || (ires =? 0) then Ret (make_small ires)
  else if i <? 0 then
    let i := - i in
    if i >=? SMALL_BITS - 1 then Ret (make_small (if ires <? 0 then -1 else 0))
    else Ret (make_small (Z.shiftr ires i))
  else if (i <? SMALL_BITS - 1) &&
          ((ires >? 0) && (Z.land (wshl (wnot 0) (SMALL_BITS - 1 - i)) (w64 ires) =? 0)
           || (Z.land (wshl (wnot 0) (SMALL_BITS - 1 - i)) (wnot (w64 ires)) =? 0))
  then Ret (make_small (Z.shiftl ires i))
  else big_shift (small_to_big ires) i.
(** The label [do_bsl], with a small shift count. *)
Definition do_bsl (arg1 arg2 : eterm) : result :=
  match arg2 with
  | make_small i =>
      match arg1 with
      | make_small ires => small_shift ires i
      | make_big b => if i =? 0 then Ret arg1 else big_shift b i
      | NIL => Fail BADARITH
      end
  | _ => Fail BADARITH
  end.
(** [shift]: both bsl and bsr. *)
Definition shift (arg1 arg2 : eterm) (right : bool) : result :=
  if right then
    match arg2 with
    | make_small i2 =>
        let i := - i2 in
        match arg1 with
        | make_small ires => small_shift ires i
        | make_big b => if i =? 0 then Ret arg1 else big_shift b i
        | NIL => Fail BADARITH
        end
    | make_big b2 => do_bsl arg1 (make_small (if BIG_SIGN b2 then MAX_SMALL else MIN_SMALL))
    | NIL => Fail BADARITH
    end
  else
    match arg2 with
    | make_big b2 =>
        if BIG_SIGN b2 then do_bsl arg1 (make_small MIN_SMALL)
        else match arg1 with NIL => Fail BADARITH | _ => Fail SYSTEM_LIMIT end
    | _ => do_bsl arg1 arg2
    end.

(** The BIF [splus_1]. *)
Definition splus_1 (arg : eterm) : result := match arg with NIL => Fail BADARITH | _ => Ret arg end.
(** The BIF [splus_2]. *)
Definition splus_2 : eterm -> eterm -> result := erts_mixed_plus.
(** The BIF [sminus_1]. *)
Definition sminus_1 (arg : eterm) : result := erts_mixed_minus (make_small 0) arg.
(** The BIF [sminus_2]. *)
Definition sminus_2 : eterm -> eterm -> result := erts_mixed_minus.
(** The BIF [stimes_2]. *)
Definition stimes_2 : bool -> list Z -> eterm -> eterm -> result := erts_mixed_times.
(** The BIF [intdiv_2]. *)
Definition intdiv_2 (arg1 arg2 : eterm) : option result :=
  match arg1, arg2 with
  | _, make_small 0 => Some (Fail BADARITH)
  | make_small i1, make_small i2 =>
      let ires := Z.quot i1 i2 in
      if IS_SSMALL ires then Some (Ret (make_small ires)) else erts_int_div arg1 arg2
  | _, _ => erts_int_div arg1 arg2
  end.
(** The BIF [rem_2]. *)
Definition rem_2 (arg1 arg2 : eterm) : option result :=
  match arg1, arg2 with
  | _, make_small 0 => Some (Fail BADARITH)
  | make_small i1, make_small i2 => Some (Ret (make_small (Z.rem i1 i2)))
  | _, _ => erts_int_rem arg1 arg2
  end.
(** The BIF [band_2]; on two smalls the C code works on the tagged words, which have equal tags. *)
Definition band_2 (arg1 arg2 : eterm) : result :=
  match arg1, arg2 with make_small i1, make_small i2 => Ret (make_small (Z.land i1 i2)) | _, _ => erts_band arg1 arg2 end.
(** The BIF [bor_2]; on two smalls the C code works on the tagged words, which have equal tags. *)
Definition bor_2 (arg1 arg2 : eterm) : result :=
  match arg1, arg2 with make_small i1, make_small i2 => Ret (make_small (Z.lor i1 i2)) | _, _ => erts_bor arg1 arg2 end.
(** The BIF [bxor_2]; on two smalls the C code works on the tagged words, which have equal tags. *)
Definition bxor_2 (arg1 arg2 : eterm) : result :=
  match arg1, arg2 with make_small i1, make_small i2 => Ret (make_small (Z.lxor i1 i2)) | _, _ => erts_bxor arg1 arg2 end.
(** The BIF [bsl_2]. *)
Definition bsl_2 (arg1 arg2 : eterm) : result := shift arg1 arg2 false.
(** The BIF [bsr_2]. *)
Definition bsr_2 (arg1 arg2 : eterm) : result := shift arg1 arg2 true.
(** The BIF [bnot_1]. *)
Definition bnot_1 (arg : eterm) : result :=
  match arg with
  | make_small i => Ret (make_small (Z.lnot i))
  | make_big b => ret_big (big_bnot b)
  | NIL => Fail BADARITH
  end.

(** ** The specification: integers *)

(** The term [t] represents the integer [z]. *)
Definition int_term (t : eterm) (z : Z) : Prop :=
  match t with
  | make_small s => s = z /\ IS_SSMALL z = true
  | make_big b => canonical b /\ bval b = z
  | NIL => False
  end.
(** What an operation with the mathematical result [z] returns. *)
Definition int_result (z : Z) : result := ret_big (mk_integer z).

Lemma int_term_mk t z : int_term t z -> mk_integer z = t.
Proof.
  destruct t; cbn; [intros [<- H]|intros [H <-]|tauto]; [now apply mk_integer_small|symmetry; now apply canonical_digits].
Qed.
Lemma int_result_term t z : int_term t z -> int_result z = Ret t.
Proof. intros H. unfold int_result. rewrite (int_term_mk t z H). now destruct t. Qed.

Lemma small_range z : IS_SSMALL z = true <-> - 2^59 <= z <= 2^59 - 1.
Proof.
  destruct small_bits_val as [E1 E2]. unfold IS_SSMALL. rewrite E1, E2, andb_true_iff, !Z.leb_le. reflexivity.
Qed.
Lemma small_range_false z : IS_SSMALL z = false <-> z < - 2^59 \/ 2^59 - 1 < z.
Proof.
  destruct small_bits_val as [E1 E2]. unfold IS_SSMALL. rewrite E1, E2, andb_false_iff, !Z.leb_gt. reflexivity.
Qed.

(** The bignum an operand is converted to before a big operation. *)
Definition big_of (t : eterm) : bignum :=
  match t with make_small i => small_to_big i | make_big b => b | NIL => small_to_big 0 end.
Lemma big_of_spec t z : int_term t z -> wf_big (big_of t) /\ bval (big_of t) = z /\
  Z.of_nat (BIG_SIZE (big_of t)) <= BIG_ARITY_MAX.
Proof.
  destruct t as [i|b|]; cbn [int_term big_of]; [intros [<- H]|intros [H <-]|tauto].
  - apply small_range in H. destruct (small_to_big_spec i ltac:(lia)). splits; auto.
    unfold small_to_big. destruct (i >=? 0); unfold BIG_SIZE, BIG_ARITY_MAX; cbn; lia.
  - destruct H as (H & _ & L). auto.
Qed.
Lemma big_val_abs b z : wf_big b -> bval b = z -> val (BIG_V b) = Z.abs z.
Proof.
  intros (Hx & _ & _) <-. pose proof (val_bound _ Hx). unfold bval. destruct (BIG_SIGN b); cbn; lia.
Qed.
Lemma canonical_not_small b z : int_term (make_big b) z -> 2^59 <= Z.abs z.
Proof. intros [(_ & H & _) <-]. apply small_range_false in H. lia. Qed.

Lemma mk_integer_digits z : 0 < Z.abs z -> Z.of_nat (length (digits_of (Z.abs z))) = Z.log2 (Z.abs z) / 64 + 1.
Proof.
  intros Hz. unfold digits_of. pose proof (Z.log2_nonneg (Z.abs z)).
  destruct (Z.log2_spec (Z.abs z) Hz) as [L1 L2].
  assert (Hn : Z.abs z < β ^ Z.of_nat (Z.to_nat (Z.log2 (Z.abs z) / 64 + 1))).
  { rewrite Z2Nat.id by lia. change β with (2^64). rewrite <- Z.pow_mul_r by lia.
    apply Z.lt_le_trans with (1 := L2). apply Z.pow_le_mono_r; lia. }
  destruct (to_digits_spec (Z.to_nat (Z.log2 (Z.abs z) / 64 + 1)) (Z.abs z) ltac:(lia)) as (_ & _ & ->). lia.
Qed.

Lemma arity_facts : 0 < BIG_ARITY_MAX /\ 64 * BIG_ARITY_MAX + 600 < 2^59 - 1 /\ 3 - 8 < BIG_ARITY_MAX.
Proof. unfold BIG_ARITY_MAX. lia. Qed.

(** Past the largest arity there is no term. *)
Lemma mk_integer_too_big z n : 64 * BIG_ARITY_MAX <= n -> 2 ^ n <= Z.abs z -> int_result z = Fail SYSTEM_LIMIT.
Proof.
  destruct arity_facts as (A1 & A2 & _). intros Hn Hz. unfold int_result, mk_integer.
  assert (H60 : 2 ^ 60 <= 2 ^ n) by (apply Z.pow_le_mono_r; lia).
  rewrite (proj2 (small_range_false z)) by lia.
  assert (L : n <= Z.log2 (Z.abs z)) by (apply Z.log2_le_pow2; lia).
  rewrite mk_integer_digits by lia. destruct (Z.gtb_spec (Z.log2 (Z.abs z) / 64 + 1) BIG_ARITY_MAX); [reflexivity|lia].
Qed.

(** ** Addition, subtraction, multiplication *)
Lemma make_small_or_big_spec z : - 2^62 <= z <= 2^62 -> Ret (make_small_or_big z) = int_result z.
Proof.
  intros Hz. unfold make_small_or_big. destruct (IS_SSMALL z) eqn:E.
  - symmetry. apply int_result_term. cbn. auto.
  - symmetry. apply int_result_term. cbn. destruct (small_to_big_spec z ltac:(lia)) as [W V]. split; auto.
    unfold canonical. rewrite V. splits; auto. unfold small_to_big, BIG_SIZE, BIG_ARITY_MAX. destruct (z >=? 0); cbn; lia.
Qed.

Ltac int_operands :=
  repeat match goal with
  | H : int_term ?t ?z |- _ =>
      lazymatch goal with _ : bval (big_of t) = z |- _ => fail | _ => idtac end;
      let W := fresh "W" in let V := fresh "V" in let L := fresh "L" in
      destruct (big_of_spec t z H) as (W & V & L)
  end.

Lemma mixed_plus_spec t1 t2 z1 z2 : int_term t1 z1 -> int_term t2 z2 ->
  erts_mixed_plus t1 t2 = int_result (z1 + z2).
Proof.
  intros H1 H2. int_operands.
  assert (B : ret_big (big_plus (big_of t1) (big_of t2)) = int_result (z1 + z2)) by (rewrite big_plus_mk by auto; now subst).
  destruct t1 as [i1|b1|]; [| |now destruct H1]; (destruct t2 as [i2|b2|]; [| |now destruct H2]).
  - destruct H1 as [<- R1], H2 as [<- R2]. apply small_range in R1, R2. apply make_small_or_big_spec. lia.
  - cbn [erts_mixed_plus]. destruct (Z.eqb_spec i1 0); [|exact B]. destruct H1 as [<- _].
    symmetry. apply int_result_term. subst i1. exact H2.
  - cbn [erts_mixed_plus]. destruct (Z.eqb_spec i2 0); [|exact B]. destruct H2 as [<- _].
    symmetry. apply int_result_term. subst i2. now rewrite Z.add_0_r.
  - exact B.
Qed.

Lemma mixed_minus_spec t1 t2 z1 z2 : int_term t1 z1 -> int_term t2 z2 ->
  erts_mixed_minus t1 t2 = int_result (z1 - z2).
Proof.
  intros H1 H2. int_operands.
  assert (B : ret_big (big_minus (big_of t1) (big_of t2)) = int_result (z1 - z2)) by (rewrite big_minus_mk by auto; now subst).
  destruct t1 as [i1|b1|]; [| |now destruct H1]; (destruct t2 as [i2|b2|]; [| |now destruct H2]).
  - destruct H1 as [<- R1], H2 as [<- R2]. apply small_range in R1, R2. apply make_small_or_big_spec. lia.
  - exact B.
  - cbn [erts_mixed_minus]. destruct (Z.eqb_spec i2 0); [|exact B]. destruct H2 as [<- _].
    symmetry. apply int_result_term. subst i2. now rewrite Z.sub_0_r.
  - exact B.
Qed.

Lemma mixed_times_spec same junk t1 t2 z1 z2 : int_term t1 z1 -> int_term t2 z2 ->
  (same = true -> t1 = t2) -> (BIG_SIZE (big_of t1) + BIG_SIZE (big_of t2) <= length junk)%nat ->
  erts_mixed_times same junk t1 t2 = int_result (z1 * z2).
Proof.
  intros H1 H2 Hs Hj. int_operands.
  assert (B : forall s, (s = true -> big_of t1 = big_of t2) ->
    ret_big (big_times s junk (big_of t1) (big_of t2)) = int_result (z1 * z2)).
  { intros s E. rewrite big_times_mk by auto. now subst. }
  destruct t1 as [i1|b1|]; [| |now destruct H1]; (destruct t2 as [i2|b2|]; [| |now destruct H2]).
  - destruct H1 as [<- R1], H2 as [<- R2]. cbn [erts_mixed_times].
    destruct (Z.eqb_spec i1 0); [subst; reflexivity|]. destruct (Z.eqb_spec i2 0); [subst; now rewrite Z.mul_0_r|].
    cbn [orb]. destruct (Z.eqb_spec i1 1); [subst; symmetry; apply int_result_term; rewrite Z.mul_1_l; now split|].
    destruct (Z.eqb_spec i2 1); [subst; symmetry; apply int_result_term; rewrite Z.mul_1_r; now split|].
    rewrite small_times_mk by auto. unfold int_result. pose proof (mk_integer_cases (i1 * i2)) as C.
    destruct (mk_integer (i1 * i2)); auto. exfalso. destruct C as [_ C]. 
    rewrite mk_integer_digits in C by nia. apply small_range in R1, R2.
    assert (Z.abs (i1 * i2) < 2^120) by (rewrite Z.abs_mul; change (2^120) with (2^60 * 2^60); apply Z.mul_lt_mono_nonneg; lia).
    assert (Z.log2 (Z.abs (i1 * i2)) < 120) by (apply Z.log2_lt_pow2; nia).
    unfold BIG_ARITY_MAX in C. lia.
  - cbn [erts_mixed_times]. destruct H1 as [<- _]. destruct (Z.eqb_spec i1 0); [subst; reflexivity|].
    destruct (Z.eqb_spec i1 1); [|apply (B false); discriminate].
    symmetry. apply int_result_term. subst i1. now rewrite Z.mul_1_l.
  - cbn [erts_mixed_times]. destruct H2 as [<- _]. destruct (Z.eqb_spec i2 0); [subst; now rewrite Z.mul_0_r|].
    destruct (Z.eqb_spec i2 1); [|apply (B false); discriminate].
    symmetry. apply int_result_term. subst i2. now rewrite Z.mul_1_r.
  - apply (B same). intros E. specialize (Hs E). congruence.
Qed.

(** ** Division *)
Lemma ret_big_int z t : mk_integer z = t -> ret_big t = int_result z.
Proof. intros <-. reflexivity. Qed.
Lemma int_result_small z : IS_SSMALL z = true -> int_result z = Ret (make_small z).
Proof. intros H. apply int_result_term. cbn. auto. Qed.

Lemma quot_lt a b : Z.abs a < Z.abs b -> Z.quot a b = 0.
Proof. intros H. apply Z.quot_small_iff; [|lia]. lia. Qed.
Lemma rem_lt a b : Z.abs a < Z.abs b -> Z.rem a b = a.
Proof. intros H. apply Z.rem_small_iff; [|lia]. lia. Qed.

Lemma wf_big_sign b z : wf_big b -> bval b = z -> z <> 0 -> BIG_SIGN b = (z <? 0).
Proof.
  intros W <- H. destruct W as (Hx & _ & P). pose proof (val_bound _ Hx). unfold bval in *.
  destruct (BIG_SIGN b); cbn [sv] in *; destruct (Z.ltb_spec (sv (BIG_SIGN b) (BIG_V b)) 0); cbn in *; try lia;
    zbool; auto; lia.
Qed.

Lemma L_big_div_spec b1 b2 z1 z2 : wf_big b1 -> wf_big b2 -> bval b1 = z1 -> bval b2 = z2 -> z2 <> 0 ->
  L_big_div b1 b2 = Some (int_result (Z.quot z1 z2)).
Proof.
  intros W1 W2 V1 V2 Hz. unfold L_big_div. rewrite big_ucomp_cmp, V1, V2 by auto. unfold cmpz.
  destruct (Z.compare_spec (Z.abs z1) (Z.abs z2)) as [E|E|E]; cbn [Z.ltb Z.eqb Z.compare].
  - rewrite (wf_big_sign b1 z1), (wf_big_sign b2 z2) by (auto; lia).
    destruct (Z.ltb_spec z1 0), (Z.ltb_spec z2 0); cbn [eqb].
    + replace z1 with z2 by lia. rewrite Z.quot_same by lia. reflexivity.
    + replace z1 with (- z2) by lia. rewrite Z.quot_opp_l, Z.quot_same by lia. reflexivity.
    + replace z2 with (- z1) by lia. rewrite Z.quot_opp_r, Z.quot_same by lia. reflexivity.
    + replace z1 with z2 by lia. rewrite Z.quot_same by lia. reflexivity.
  - rewrite quot_lt by auto. reflexivity.
  - rewrite big_div_mk; auto; rewrite ?(big_val_abs b1 z1), ?(big_val_abs b2 z2) by auto; try lia.
    cbn [ret_div option_map]. now rewrite V1, V2.
Qed.

Lemma L_big_rem_spec arg1 b1 b2 z1 z2 : int_term arg1 z1 -> wf_big b1 -> wf_big b2 -> bval b1 = z1 -> bval b2 = z2 -> z2 <> 0 ->
  L_big_rem arg1 b1 b2 = Some (int_result (Z.rem z1 z2)).
Proof.
  intros H1 W1 W2 V1 V2 Hz. unfold L_big_rem. rewrite big_ucomp_cmp, V1, V2 by auto. unfold cmpz.
  destruct (Z.compare_spec (Z.abs z1) (Z.abs z2)) as [E|E|E]; cbn [Z.eqb Z.gtb Z.compare].
  - assert (Z.rem z1 z2 = 0) as ->; [|reflexivity].
    destruct (Z.abs_eq_cases z1 z2 E) as [-> | ->]; [apply Z.rem_same|rewrite Z.rem_opp_l, Z.rem_same]; lia.
  - rewrite rem_lt by auto. now rewrite (int_result_term arg1).
  - rewrite big_rem_mk; auto; rewrite ?(big_val_abs b1 z1), ?(big_val_abs b2 z2) by auto; try lia.
    cbn [ret_div option_map]. now rewrite V1, V2.
Qed.

Lemma int_div_spec t1 t2 z1 z2 : int_term t1 z1 -> int_term t2 z2 -> z2 <> 0 ->
  erts_int_div t1 t2 = Some (int_result (Z.quot z1 z2)).
Proof.
  intros H1 H2 Hz. destruct (big_of_spec t1 z1 H1) as (W1 & V1 & L1), (big_of_spec t2 z2 H2) as (W2 & V2 & L2).
  pose proof (L_big_div_spec _ _ z1 z2 W1 W2 V1 V2 Hz) as B.
  destruct t1 as [i1|b1|]; [| |now destruct H1]; (destruct t2 as [i2|b2|]; [| |now destruct H2]); try exact B.
  cbn [erts_int_div]. destruct (Z.eqb_spec i1 MIN_SMALL) as [E|E]; cbn [negb]; [exact B|].
  pose proof (canonical_not_small _ _ H2). destruct H1 as [<- R]. apply small_range in R.
  destruct small_bits_val as [_ E2]. rewrite E2 in E. rewrite quot_lt by lia. reflexivity.
Qed.

Lemma int_rem_spec t1 t2 z1 z2 : int_term t1 z1 -> int_term t2 z2 -> z2 <> 0 ->
  (forall i1 i2, t1 = make_small i1 -> t2 = make_small i2 -> False) ->
  erts_int_rem t1 t2 = Some (int_result (Z.rem z1 z2)).
Proof.
  intros H1 H2 Hz Hn. destruct (big_of_spec t1 z1 H1) as (W1 & V1 & L1), (big_of_spec t2 z2 H2) as (W2 & V2 & L2).
  pose proof (L_big_rem_spec t1 _ _ z1 z2 H1 W1 W2 V1 V2 Hz) as B.
  destruct t1 as [i1|b1|]; [| |now destruct H1]; (destruct t2 as [i2|b2|]; [| |now destruct H2]); try exact B.
  - exfalso. eauto.
  - pose proof (canonical_not_small _ _ H2) as G. cbn [erts_int_rem]. destruct (Z.eqb_spec i1 MIN_SMALL) as [E|E]; cbn [negb].
    + unfold L_big_rem in B. cbn [big_of] in B. rewrite big_ucomp_cmp in B |- * by auto. cbn [big_of] in V1, V2. rewrite V1, V2 in *.
      destruct small_bits_val as [_ E2]. destruct H1 as [<- _]. unfold cmpz in *.
      destruct (Z.compare_spec (Z.abs i1) (Z.abs z2)); cbn in *; auto. lia.
    + pose proof (proj1 H1) as <-. pose proof (proj2 H1) as R. apply small_range in R.
      destruct small_bits_val as [_ E2]. rewrite E2 in E. rewrite rem_lt by lia. now rewrite (int_result_term (make_small i1)).
Qed.

(** ** Bitwise operators *)
Lemma small_shiftr z : IS_SSMALL z = true <-> Z.shiftr z 59 = 0 \/ Z.shiftr z 59 = -1.
Proof. rewrite small_range, Z.shiftr_div_pow2 by lia. lia. Qed.

Lemma bitop_small (f : Z -> Z -> Z) a b :
  (forall x y n, Z.shiftr (f x y) n = f (Z.shiftr x n) (Z.shiftr y n)) ->
  (forall x y, x = 0 \/ x = -1 -> y = 0 \/ y = -1 -> f x y = 0 \/ f x y = -1) ->
  IS_SSMALL a = true -> IS_SSMALL b = true -> IS_SSMALL (f a b) = true.
Proof. intros Hs Hf. rewrite !small_shiftr, Hs. auto. Qed.
Lemma land_small a b : IS_SSMALL a = true -> IS_SSMALL b = true -> IS_SSMALL (Z.land a b) = true.
Proof. apply bitop_small; [apply Z.shiftr_land|]. intros ? ? [-> | ->] [-> | ->]; cbn; auto. Qed.
Lemma lor_small a b : IS_SSMALL a = true -> IS_SSMALL b = true -> IS_SSMALL (Z.lor a b) = true.
Proof. apply bitop_small; [apply Z.shiftr_lor|]. intros ? ? [-> | ->] [-> | ->]; cbn; auto. Qed.
Lemma lxor_small a b : IS_SSMALL a = true -> IS_SSMALL b = true -> IS_SSMALL (Z.lxor a b) = true.
Proof. apply bitop_small; [apply Z.shiftr_lxor|]. intros ? ? [-> | ->] [-> | ->]; cbn; auto. Qed.

(** The error term of [band] and [bxor], at the level of the terms. *)
Definition term_borrow (t1 t2 : eterm) : Z := lost_borrow (longer (big_of t1) (big_of t2)) (shorter (big_of t1) (big_of t2)).
Definition term_longer (t1 t2 : eterm) (z1 z2 : Z) : Z :=
  if (BIG_SIZE (big_of t2) <=? BIG_SIZE (big_of t1))%nat then z1 else z2.
Definition term_shorter (t1 t2 : eterm) (z1 z2 : Z) : Z :=
  if (BIG_SIZE (big_of t2) <=? BIG_SIZE (big_of t1))%nat then z2 else z1.

Lemma lost_borrow_same x y : wf_big x -> BIG_SIZE x = BIG_SIZE y -> 1 <= val (BIG_V x) -> lost_borrow x y = 0.
Proof.
  intros _ E V. unfold lost_borrow, BIG_SIZE in *. rewrite <- E. cbn [pending]. rewrite firstn_all.
  destruct (Z.ltb_spec (val (BIG_V x)) 1); cbn; lia.
Qed.
Lemma small_size i : BIG_SIZE (small_to_big i) = 1%nat.
Proof. unfold small_to_big. now destruct (i >=? 0). Qed.
Lemma term_sign t z : int_term t z -> BIG_SIGN (big_of t) = (z <? 0).
Proof.
  intros H. destruct (big_of_spec t z H) as (W & V & _). destruct (Z.eq_dec z 0) as [->|N]; [|eauto using wf_big_sign].
  destruct W as (Hx & _ & P). pose proof (val_bound _ Hx). unfold bval in V. destruct (BIG_SIGN (big_of t)); auto.
  specialize (P eq_refl). cbn in V. lia.
Qed.
Lemma small_borrow i1 i2 : IS_SSMALL i1 = true -> IS_SSMALL i2 = true -> i1 <> 0 ->
  term_borrow (make_small i1) (make_small i2) = 0.
Proof.
  intros R1 R2 N. apply small_range in R1. unfold term_borrow, longer, shorter. cbn [big_of]. rewrite !small_size. cbn [Nat.leb].
  destruct (small_to_big_spec i1 ltac:(lia)) as [W V].
  apply lost_borrow_same; auto; rewrite ?small_size; auto. rewrite (big_val_abs _ i1) by auto. lia.
Qed.

Lemma band_spec t1 t2 z1 z2 : int_term t1 z1 -> int_term t2 z2 ->
  band_2 t1 t2 = Ret (mk_integer (Z.land z1 z2 - (if (z1 <? 0) && (z2 <? 0) then term_borrow t1 t2 else 0))).
Proof.
  intros H1 H2. destruct (big_of_spec t1 z1 H1) as (W1 & V1 & L1), (big_of_spec t2 z2 H2) as (W2 & V2 & L2).
  assert (B : Ret (big_band (big_of t1) (big_of t2)) =
    Ret (mk_integer (Z.land z1 z2 - (if (z1 <? 0) && (z2 <? 0) then term_borrow t1 t2 else 0)))).
  { rewrite big_band_mk, (term_sign t1 z1), (term_sign t2 z2) by auto. now subst. }
  destruct t1 as [i1|b1|]; [| |now destruct H1]; (destruct t2 as [i2|b2|]; [| |now destruct H2]); try exact B.
  destruct H1 as [<- R1], H2 as [<- R2]. cbn [band_2].
  rewrite mk_integer_small; destruct (Z.ltb_spec i1 0), (Z.ltb_spec i2 0); cbn [andb];
    rewrite ?small_borrow, ?Z.sub_0_r by (auto; lia); auto using land_small.
Qed.

Lemma bor_spec t1 t2 z1 z2 : int_term t1 z1 -> int_term t2 z2 ->
  bor_2 t1 t2 = Ret (mk_integer (Z.lor z1 z2)).
Proof.
  intros H1 H2. destruct (big_of_spec t1 z1 H1) as (W1 & V1 & L1), (big_of_spec t2 z2 H2) as (W2 & V2 & L2).
  assert (B : Ret (big_bor (big_of t1) (big_of t2)) = Ret (mk_integer (Z.lor z1 z2))) by (rewrite big_bor_mk by auto; now subst).
  destruct t1 as [i1|b1|]; [| |now destruct H1]; (destruct t2 as [i2|b2|]; [| |now destruct H2]); try exact B.
  destruct H1 as [<- R1], H2 as [<- R2]. cbn [bor_2]. now rewrite mk_integer_small by auto using lor_small.
Qed.

Lemma bxor_spec t1 t2 z1 z2 : int_term t1 z1 -> int_term t2 z2 ->
  bxor_2 t1 t2 = Ret (mk_integer (Z.lxor z1 z2 +
    (if term_longer t1 t2 z1 z2 <? 0
     then term_borrow t1 t2 * (if term_shorter t1 t2 z1 z2 <? 0 then 1 else -1) else 0))).
Proof.
  intros H1 H2. destruct (big_of_spec t1 z1 H1) as (W1 & V1 & L1), (big_of_spec t2 z2 H2) as (W2 & V2 & L2).
  assert (B : Ret (big_bxor (big_of t1) (big_of t2)) = Ret (mk_integer (Z.lxor z1 z2 +
    (if term_longer t1 t2 z1 z2 <? 0
     then term_borrow t1 t2 * (if term_shorter t1 t2 z1 z2 <? 0 then 1 else -1) else 0)))).
  { rewrite big_bxor_mk by auto. unfold term_longer, term_shorter, longer, shorter, term_borrow, longer, shorter.
    destruct (BIG_SIZE (big_of t2) <=? BIG_SIZE (big_of t1))%nat; rewrite (term_sign t1 z1), (term_sign t2 z2) by auto; now subst. }
  destruct t1 as [i1|b1|]; [| |now destruct H1]; (destruct t2 as [i2|b2|]; [| |now destruct H2]); try exact B.
  destruct H1 as [<- R1], H2 as [<- R2]. cbn [bxor_2]. unfold term_longer, term_shorter. cbn [big_of]. rewrite !small_size. cbn [Nat.leb].
  rewrite mk_integer_small; destruct (Z.ltb_spec i1 0); rewrite ?small_borrow, ?Z.mul_0_l, ?Z.add_0_r by (auto; lia); auto using lxor_small.
Qed.

Lemma bnot_spec t z : int_term t z -> bnot_1 t = int_result (Z.lnot z).
Proof.
  intros H. destruct (big_of_spec t z H) as (W & V & L). destruct t as [i|b|]; [| |now destruct H]; cbn [bnot_1].
  - destruct H as [<- R]. rewrite int_result_small; auto. apply small_range in R. apply small_range. unfold Z.lnot. lia.
  - pose proof (canonical_not_small _ _ H). cbn [big_of] in *. rewrite big_bnot_mk by (auto; rewrite (big_val_abs b z); auto; lia).
    now rewrite V.
Qed.

(** ** Shifts *)
Lemma shiftl_abs z i : 0 <= i -> Z.abs (Z.shiftl z i) = Z.abs z * 2 ^ i.
Proof. intros Hi. rewrite Z.shiftl_mul_pow2, Z.abs_mul, (Z.abs_eq (2^i)) by lia. reflexivity. Qed.

Lemma shiftl_too_big z i : z <> 0 -> 64 * BIG_ARITY_MAX <= i -> int_result (Z.shiftl z i) = Fail SYSTEM_LIMIT.
Proof.
  intros Hz Hi. destruct arity_facts as (A & _). apply (mk_integer_too_big _ i); auto.
  rewrite shiftl_abs by lia. assert (0 < 2^i) by (apply Z.pow_pos_nonneg; lia). nia.
Qed.

Lemma big_val_log b : wf_big b -> 1 <= val (BIG_V b) -> Z.of_nat (BIG_SIZE b) = Z.log2 (Z.abs (bval b)) / 64 + 1.
Proof.
  intros (Hx & Nx & P) V. rewrite <- (big_val_abs b (bval b)) by (unfold wf_big; auto). now apply normal_length.
Qed.

Lemma big_shift_spec b i : wf_big b -> 1 <= val (BIG_V b) -> Z.of_nat (BIG_SIZE b) <= BIG_ARITY_MAX ->
  big_shift b i = int_result (Z.shiftl (bval b) i).
Proof.
  intros W P L. unfold big_shift. rewrite big_lshift_mk by auto. fold (int_result (Z.shiftl (bval b) i)).
  destruct arity_facts as (A1 & A2 & A3). set (sz := Z.of_nat (BIG_SIZE b)) in *.
  pose proof (big_val_log b W P) as Hl. fold sz in Hl.
  pose proof (Z.log2_nonneg (Z.abs (bval b))). rewrite !Z.gtb_ltb.
  destruct (Z.ltb_spec 0 i).
  - match goal with |- context [BIG_ARITY_MAX <? ?e] => destruct (Z.ltb_spec BIG_ARITY_MAX e) as [F|F] end; [|reflexivity].
    symmetry. change D_EXP with 64 in F. rewrite Z.quot_div_nonneg in F by lia.
    set (n := Z.log2 (Z.abs (bval b)) + i).
    assert (Hn : 64 * BIG_ARITY_MAX <= n) by (subst n; lia).
    apply (mk_integer_too_big _ n); auto. rewrite shiftl_abs by lia. subst n. rewrite Z.pow_add_r by lia.
    assert (0 < Z.abs (bval b)) by (rewrite <- (big_val_abs b (bval b)) by auto; lia).
    apply Z.mul_le_mono_nonneg_r; [lia|]. now apply Z.log2_spec.
  - assert (0 <= Z.quot (- i) D_EXP) by (apply Z.quot_pos; unfold D_EXP; lia).
    destruct (Z.leb_spec sz (Z.quot (- i) D_EXP));
    match goal with |- context [BIG_ARITY_MAX <? ?e] => destruct (Z.ltb_spec BIG_ARITY_MAX e) as [F|F] end; auto; lia.
Qed.

Lemma wshl_ones k : 0 <= k <= 64 -> wshl (wnot 0) k = β - 2^k.
Proof.
  intros Hk. unfold wshl, w64, wnot. rewrite Z.shiftl_mul_pow2 by lia.
  replace ((β - 1 - 0) * 2^k) with (β - 2^k + (2^k - 1) * β) by ring. rewrite Z.mod_add by lia.
  apply Z.mod_small. assert (2^k <= 2^64) by (apply Z.pow_le_mono_r; lia). change (2^64) with β in *. lia.
Qed.
Lemma land_high_zero d k : is_digit d -> 0 <= k <= 64 -> (Z.land (β - 2^k) d =? 0) = (d <? 2^k).
Proof.
  intros Hd Hk. assert (E : Z.land (β - 2^k) d = (d / 2^k) * 2^k).
  { replace (β - 2^k) with (Z.shiftl (Z.ones (64 - k)) k).
    - apply Z.bits_inj'. intros i Hi. rewrite Z.land_spec, Z.shiftl_spec by lia.
      rewrite <- Z.shiftl_mul_pow2, Z.shiftl_spec, <- Z.shiftr_div_pow2 by lia.
      destruct (Z.lt_ge_cases i k).
      + rewrite !(fun a => Z.testbit_neg_r a (i - k)) by lia. reflexivity.
      + rewrite Z.shiftr_spec by lia. replace (i - k + k) with i by lia.
        destruct (Z.lt_ge_cases i 64).
        * rewrite Z.ones_spec_low by lia. reflexivity.
        * rewrite (testbit_high 64 d i) by (change (2^64) with β; lia). apply andb_false_r.
    - rewrite Z.shiftl_mul_pow2, Z.ones_equiv by lia. pose proof (pow2_split k Hk). lia. }
  rewrite E. assert (0 < 2^k) by lia. apply eq_true_iff_eq. rewrite Z.eqb_eq, Z.ltb_lt.
  pose proof (Z.div_mod d (2^k) ltac:(lia)). pose proof (Z.mod_pos_bound d (2^k) ltac:(lia)).
  split; intros; [nia|]. rewrite Z.div_small by lia. lia.
Qed.

Lemma small_shift_fits ires i : - 2^59 <= ires <= 2^59 - 1 -> 0 < i < 59 -> ires <> 0 ->
  (ires >? 0) && (Z.land (wshl (wnot 0) (59 - i)) (w64 ires) =? 0)
     || (Z.land (wshl (wnot 0) (59 - i)) (wnot (w64 ires)) =? 0) = true ->
  IS_SSMALL (Z.shiftl ires i) = true.
Proof.
  intros Hr Hi Hn. rewrite wshl_ones, !land_high_zero by (try apply wnot_digit; try apply w64_range; lia).
  intros H. apply small_range. rewrite Z.shiftl_mul_pow2 by lia.
  assert (E : 2^59 = 2^(59 - i) * 2^i) by (rewrite <- Z.pow_add_r by lia; f_equal; lia).
  assert (P : 0 < 2^i) by lia. assert (Q : 0 < 2^(59-i) <= 2^59) by (split; [lia|apply Z.pow_le_mono_r; lia]).
  apply orb_true_iff in H as [H|H].
  - apply andb_true_iff in H as [H1 H2]. apply Z.ltb_lt in H2. rewrite Z.gtb_ltb in H1. apply Z.ltb_lt in H1.
    unfold w64 in H2. rewrite Z.mod_small in H2 by lia. nia.
  - apply Z.ltb_lt in H. unfold w64, wnot in H.
    assert (Hneg : ires < 0) by lia. assert (- 2^(59-i) <= ires) by lia. nia.
Qed.

Lemma small_shift_spec ires i : IS_SSMALL ires = true -> small_shift ires i = int_result (Z.shiftl ires i).
Proof.
  intros R. pose proof R as R'. apply small_range in R. unfold small_shift.
  destruct (Z.eqb_spec i 0) as [->|Hi]; cbn [orb]; [rewrite Z.shiftl_0_r, int_result_small; auto|].
  destruct (Z.eqb_spec ires 0) as [->|Hn]; cbn [orb]; [rewrite Z.shiftl_0_l, int_result_small; auto|].
  change (SMALL_BITS - 1) with 59. rewrite Z.geb_leb.
  destruct (Z.ltb_spec i 0) as [Hs|Hs].
  - rewrite Z.shiftl_div_pow2 by lia. assert (H59 : 0 < 2 ^ (- i)) by lia.
    destruct (Z.leb_spec 59 (- i)) as [Hb|Hb].
    + assert (2^59 <= 2^(-i)) by (apply Z.pow_le_mono_r; lia). rewrite int_result_small.
      * do 2 f_equal. destruct (Z.ltb_spec ires 0).
        -- apply (Z.div_unique _ _ _ (ires + 2 ^ (- i))); lia.
        -- symmetry. apply Z.div_small. lia.
      * apply small_range. split; [apply Z.div_le_lower_bound; lia|].
        apply Z.lt_le_pred, Z.div_lt_upper_bound; lia.
    + rewrite <- Z.shiftr_div_pow2 by lia. rewrite int_result_small; [reflexivity|].
      apply small_range. rewrite Z.shiftr_div_pow2 by lia. split; [apply Z.div_le_lower_bound; nia|].
      apply Z.lt_le_pred, Z.div_lt_upper_bound; nia.
  - destruct (small_to_big_spec ires ltac:(lia)) as [W V].
    assert (B : big_shift (small_to_big ires) i = int_result (Z.shiftl ires i)).
    { rewrite big_shift_spec; auto; [now rewrite V| |].
      - rewrite (big_val_abs _ ires) by auto. lia.
      - rewrite small_size. destruct arity_facts. lia. }
    destruct (Z.ltb_spec i 59); cbn [andb]; [|exact B].
    match goal with |- context [if ?c then _ else _] => destruct c eqn:F end; [|exact B].
    symmetry. apply int_result_small. apply small_shift_fits; auto; lia.
Qed.

Lemma int_term_bound t z : int_term t z -> Z.abs z < 2 ^ (64 * BIG_ARITY_MAX).
Proof.
  intros H. destruct (big_of_spec t z H) as (W & V & L). rewrite <- (big_val_abs _ z W V).
  destruct W as (Hx & _ & _). destruct arity_facts as (A & _).
  apply Z.lt_le_trans with (1 := proj2 (val_bound _ Hx)). change β with (2^64). rewrite <- Z.pow_mul_r by lia.
  apply Z.pow_le_mono_r; unfold BIG_SIZE in *; lia.
Qed.

Lemma shiftl_sat z n i : 0 <= n -> Z.abs z < 2 ^ n -> i <= - n -> Z.shiftl z i = if z <? 0 then -1 else 0.
Proof.
  intros Hn Hz Hi. rewrite Z.shiftl_div_pow2 by lia.
  assert (2 ^ n <= 2 ^ (- i)) by (apply Z.pow_le_mono_r; lia).
  destruct (Z.ltb_spec z 0).
  - symmetry. apply (Z.div_unique _ _ _ (z + 2 ^ (- i))); lia.
  - apply Z.div_small. lia.
Qed.

(** A shift by [i] that is too far for the exact count to matter. *)
Lemma shiftl_far t z i j : int_term t z -> Z.abs i >= 64 * BIG_ARITY_MAX -> Z.abs j >= 64 * BIG_ARITY_MAX ->
  (0 < i <-> 0 < j) -> (0 < i -> z <> 0) -> int_result (Z.shiftl z i) = int_result (Z.shiftl z j).
Proof.
  intros H Hi Hj Hs Hz. assert (A : 0 < 64 * BIG_ARITY_MAX) by (destruct arity_facts; lia). destruct (Z.lt_ge_cases 0 i).
  - rewrite !shiftl_too_big; auto; lia.
  - pose proof (int_term_bound t z H) as B. assert (E : exists n, n = 64 * BIG_ARITY_MAX) by eauto.
    destruct E as (n & E). rewrite <- E in B, Hi, Hj, A. clear E.
    rewrite (shiftl_sat z n i), (shiftl_sat z n j); auto; lia.
Qed.

Lemma do_bsl_spec t z i : int_term t z -> do_bsl t (make_small i) = int_result (Z.shiftl z i).
Proof.
  intros H. destruct t as [s|b|]; [| |now destruct H]; cbn [do_bsl].
  - destruct H as [<- R]. now apply small_shift_spec.
  - destruct (big_of_spec _ z H) as (W & V & L). cbn [big_of] in *.
    destruct (Z.eqb_spec i 0) as [->|Hi]; [rewrite Z.shiftl_0_r; symmetry; now apply int_result_term|].
    pose proof (canonical_not_small _ _ H). rewrite big_shift_spec; auto; [now rewrite V|].
    rewrite (big_val_abs b z); auto. lia.
Qed.

Lemma far_big b z : int_term (make_big b) z -> 64 * BIG_ARITY_MAX <= Z.abs z /\ BIG_SIGN b = (z <? 0) /\ z <> 0.
Proof.
  intros H. pose proof (canonical_not_small _ _ H). destruct arity_facts as (_ & A & _).
  splits; try lia. apply (term_sign (make_big b)). exact H.
Qed.

Lemma small_limits : MAX_SMALL = 2^59 - 1 /\ MIN_SMALL = - 2^59 /\
  64 * BIG_ARITY_MAX <= MAX_SMALL /\ 64 * BIG_ARITY_MAX <= - MIN_SMALL /\ 0 < MAX_SMALL.
Proof. destruct small_bits_val as [-> ->]. destruct arity_facts as (_ & A & _). lia. Qed.

Lemma bsr_spec t1 t2 z1 z2 : int_term t1 z1 -> int_term t2 z2 -> bsr_2 t1 t2 = int_result (Z.shiftr z1 z2).
Proof.
  intros H1 H2. rewrite <- (Z.opp_involutive z2), Z.shiftr_opp_r. unfold bsr_2, shift.
  destruct t2 as [i|b|]; [| |now destruct H2].
  - destruct H2 as [<- _]. exact (do_bsl_spec t1 z1 (- i) H1).
  - rewrite (do_bsl_spec t1 z1) by auto.
    destruct (far_big b z2 H2) as (F & -> & _). destruct small_limits as (_ & _ & M1 & M2 & M3).
    destruct arity_facts as (A & _).
    destruct (Z.eq_dec z1 0) as [->|Hz]; [now rewrite !Z.shiftl_0_l|].
    apply (shiftl_far t1); auto; destruct (Z.ltb_spec z2 0); lia.
Qed.

Lemma bsl_spec t1 t2 z1 z2 : int_term t1 z1 -> int_term t2 z2 -> z1 <> 0 \/ z2 <= MAX_SMALL ->
  bsl_2 t1 t2 = int_result (Z.shiftl z1 z2).
Proof.
  intros H1 H2 Hz. unfold bsl_2, shift.
  destruct t2 as [i|b|]; [| |now destruct H2].
  - destruct H2 as [<- _]. exact (do_bsl_spec t1 z1 i H1).
  - destruct (far_big b z2 H2) as (F & E & N). destruct small_limits as (_ & _ & M1 & M2 & M3).
    destruct arity_facts as (A & _). pose proof (canonical_not_small _ _ H2). destruct small_limits as (X1 & _).
    rewrite E. destruct (Z.ltb_spec z2 0).
    + rewrite (do_bsl_spec t1 z1) by auto. apply (shiftl_far t1); auto; lia.
    + rewrite shiftl_too_big by lia. destruct t1; [reflexivity|reflexivity|now destruct H1].
Qed.

(** Shifting 0 left by a positive bignum is refused although the result is 0. *)
Lemma bsl_zero_big b z : int_term (make_big b) z -> 0 < z ->
  bsl_2 (make_small 0) (make_big b) = Fail SYSTEM_LIMIT /\ int_result (Z.shiftl 0 z) = Ret (make_small 0).
Proof.
  intros H Hz. destruct (far_big b z H) as (_ & E & _). unfold bsl_2, shift. rewrite E.
  destruct (Z.ltb_spec z 0); [lia|]. rewrite Z.shiftl_0_l. split; reflexivity.
Qed.

(** ** Division as called from Erlang *)
Lemma intdiv_spec t1 t2 z1 z2 : int_term t1 z1 -> int_term t2 z2 ->
  intdiv_2 t1 t2 = Some (if z2 =? 0 then Fail BADARITH else int_result (Z.quot z1 z2)).
Proof.
  intros H1 H2. destruct t2 as [i2|b2|]; [| |now destruct H2].
  - pose proof (proj1 H2) as E. cbn in E. subst i2. destruct (Z.eqb_spec z2 0) as [->|Hz]; [destruct t1; reflexivity|].
    assert (B : intdiv_2 t1 (make_small z2) = match t1 with make_small i1 => if IS_SSMALL (Z.quot i1 z2) then Some (Ret (make_small (Z.quot i1 z2))) else erts_int_div t1 (make_small z2) | _ => erts_int_div t1 (make_small z2) end).
    { destruct z2; [congruence| |]; destruct t1; reflexivity. }
    rewrite B. destruct t1 as [i1|b1|]; [| |now destruct H1]; [|now rewrite (int_div_spec _ _ z1 z2)].
    destruct (IS_SSMALL (Z.quot i1 z2)) eqn:E; [|now rewrite (int_div_spec _ _ z1 z2)].
    destruct H1 as [<- _]. now rewrite int_result_small.
  - pose proof (canonical_not_small _ _ H2). destruct (Z.eqb_spec z2 0); [lia|].
    assert (B : intdiv_2 t1 (make_big b2) = erts_int_div t1 (make_big b2)) by (destruct t1; reflexivity).
    rewrite B. now apply int_div_spec.
Qed.

Lemma rem_spec t1 t2 z1 z2 : int_term t1 z1 -> int_term t2 z2 ->
  rem_2 t1 t2 = Some (if z2 =? 0 then Fail BADARITH else int_result (Z.rem z1 z2)).
Proof.
  intros H1 H2. destruct t2 as [i2|b2|]; [| |now destruct H2].
  - pose proof (proj1 H2) as E. cbn in E. subst i2. destruct (Z.eqb_spec z2 0) as [->|Hz]; [destruct t1; reflexivity|].
    assert (B : rem_2 t1 (make_small z2) = match t1 with make_small i1 => Some (Ret (make_small (Z.rem i1 z2))) | _ => erts_int_rem t1 (make_small z2) end).
    { destruct z2; [congruence| |]; destruct t1; reflexivity. }
    rewrite B. destruct t1 as [i1|b1|]; [| |now destruct H1].
    + destruct H1 as [<- R1]. rewrite int_result_small; auto. destruct H2 as [_ R2]. apply small_range in R1, R2. apply small_range.
      pose proof (Z.rem_bound_abs i1 z2 Hz). lia.
    + rewrite (int_rem_spec _ _ z1 z2); auto. discriminate.
  - pose proof (canonical_not_small _ _ H2). destruct (Z.eqb_spec z2 0); [lia|].
    assert (B : rem_2 t1 (make_big b2) = erts_int_rem t1 (make_big b2)) by (destruct t1; reflexivity).
    rewrite B. apply int_rem_spec; auto. discriminate.
Qed.
