(* ===== verification/BigConv.v ===== *)
(** Conversions between integer terms, machine words and byte vectors, and the bytes of small
    and big integers. *)

From S2P Require Import Prelude.
From S2P Require Import Digits DigitDiv BigNat BigMul BigDiv LongDiv LongDivSpec BigBits BigShift BigNum ErlArith.
Local Open Scope Z_scope.

(** The reasons [term_to_Uint] reports. *)
Inductive conv_error := CONV_BADARG | CONV_SYSTEM_LIMIT.
(** The loop that assembles the digits. *)
Fixpoint or_digits (xr : list Z) (n uval : Z) : Z :=
  match xr with
  | [] => uval
  | d :: xr => or_digits xr (n + D_EXP) (Z.lor uval (wshl d n))
  end.
(** [term_to_Uint]. *)
Definition term_to_Uint (term : eterm) : Z + conv_error :=
  match term with
  | make_small i => if i <? 0 then inr CONV_BADARG else inl i
  | make_big b =>
      if BIG_SIGN b then inr CONV_BADARG
      else if Z.of_nat (BIG_SIZE b) * D_EXP >? 64 then inr CONV_SYSTEM_LIMIT
      else inl (or_digits (BIG_V b) 0 0)
  | NIL => inr CONV_BADARG
  end.
(** [term_to_Sint]. *)
Definition term_to_Sint (term : eterm) : option Z :=
  match term with
  | make_small i => Some i
  | make_big b =>
      if Z.of_nat (BIG_SIZE b) * D_EXP >? 64 then None
      else
        let uval := or_digits (BIG_V b) 0 0 in
        if BIG_SIGN b then
          let uval := wsub 0 uval in
          if s64 uval >? 0 then None else Some (s64 uval)
        else if s64 uval <? 0 then None else Some (s64 uval)
  | NIL => None
  end.
(** [big_to_uint32]. *)
Definition big_to_uint32 (b : eterm) : Z :=
  match term_to_Uint b with inl u => u mod 2^32 | inr _ => 0 end.
(** [term_equals_2pow32]. *)
Definition term_equals_2pow32 (x : eterm) : bool :=
  match term_to_Uint x with
  | inl u => (Z.land u 0xFFFFFFFF =? 0) && (wshr (wshr u 16) 16 =? 1)
  | inr _ => false
  end.

(** A digit from its bytes, least significant first. *)
Fixpoint load_bytes (xp : list Z) : Z :=
  match xp with [] => 0 | b :: xp => Z.lor (wshl (load_bytes xp) 8) b end.
(** The digits of a byte vector. *)
Fixpoint bytes_to_digits (fuel : nat) (xp : list Z) : list Z :=
  match fuel with
  | O => []
  | S fuel =>
      if (8 <? length xp)%nat then load_bytes (firstn 8 xp) :: bytes_to_digits fuel (skipn 8 xp)
      else match xp with [] => [] | _ => [load_bytes xp] end
  end.
(** [bytes_to_big]. *)
Definition bytes_to_big (xp : list Z) (xsgn : bool) : eterm :=
  match bytes_to_digits (S (length xp)) xp with
  | [d] => if IS_USMALL xsgn d then make_small (if xsgn then - d else d) else make_big (MkBig xsgn [d])
  | ds => make_big (MkBig xsgn ds)
  end.

(** The eight bytes of a digit. *)
Fixpoint put_bytes (n : nat) (d : Z) : list Z :=
  match n with O => [] | S n => Z.land d 0xff :: put_bytes n (wshr d 8) end.
(** The bytes of the high digit, without leading zeros. *)
Fixpoint put_top (fuel : nat) (d : Z) : list Z :=
  match fuel with
  | O => []
  | S fuel => Z.land d 0xff :: (if wshr d 8 =? 0 then [] else put_top fuel (wshr d 8))
  end.
(** The bytes of a digit vector. *)
Fixpoint digits_to_bytes (xr : list Z) : list Z :=
  match xr with
  | [] => []
  | [d] => put_top 8 d
  | d :: xr => put_bytes 8 d ++ digits_to_bytes xr
  end.
(** [big_to_bytes]. *)
Definition big_to_bytes (x : bignum) : list Z := digits_to_bytes (BIG_V x).
(** The loop of [big_bytes]. *)
Fixpoint top_bytes (fuel : nat) (d sz : Z) : Z :=
  match fuel with
  | O => sz
  | S fuel => if d =? 0 then sz else top_bytes fuel (wshr d 8) (sz + 1)
  end.
(** [big_bytes]. *)
Definition big_bytes (x : bignum) : Z :=
  top_bytes 8 (last (BIG_V x) 0) ((Z.of_nat (BIG_SIZE x) - 1) * 8).

(** ** Machine integers *)
Lemma one_digit b : wf_big b -> (Z.of_nat (BIG_SIZE b) * D_EXP >? 64) = false ->
  exists d, BIG_V b = [d] /\ is_digit d.
Proof.
  intros (Hx & Nx & _) H. change D_EXP with 64 in H. unfold BIG_SIZE in H. rewrite Z.gtb_ltb, Z.ltb_ge in H.
  pose proof (normal_len _ Nx). destruct (BIG_V b) as [|d [|d' t]]; cbn [length] in *; try lia.
  exists d. apply digits_cons in Hx. tauto.
Qed.
Lemma two_digits b : wf_big b -> (Z.of_nat (BIG_SIZE b) * D_EXP >? 64) = true -> β <= val (BIG_V b).
Proof.
  intros (Hx & Nx & _) H. change D_EXP with 64 in H. unfold BIG_SIZE in H. rewrite Z.gtb_ltb, Z.ltb_lt in H.
  apply normal_ge_β; auto. lia.
Qed.

Lemma term_to_Uint_spec t z : int_term t z ->
  term_to_Uint t = if z <? 0 then inr CONV_BADARG else if z <? β then inl z else inr CONV_SYSTEM_LIMIT.
Proof.
  intros H. destruct (big_of_spec t z H) as (W & V & _). pose proof (term_sign t z H) as S.
  destruct t as [i|b|]; [| |now destruct H]; cbn [term_to_Uint big_of] in *.
  - destruct H as [<- R]. apply small_range in R. zbool; auto; lia.
  - pose proof (big_val_abs b z W V) as A. pose proof (canonical_not_small _ _ H).
    rewrite S. destruct (Z.ltb_spec z 0); [reflexivity|].
    destruct (Z.of_nat (BIG_SIZE b) * D_EXP >? 64) eqn:F.
    + pose proof (two_digits b W F). destruct (Z.ltb_spec z β); [lia|reflexivity].
    + destruct (one_digit b W F) as (d & E & D). rewrite E in *. cbn [or_digits val] in *.
      unfold wshl. rewrite Z.shiftl_0_r, w64_id, Z.lor_0_l by auto.
      destruct (Z.ltb_spec z β); [f_equal; lia|lia].
Qed.

Lemma term_to_Sint_spec t z : int_term t z ->
  term_to_Sint t = if (- 2^63 <=? z) && (z <? 2^63) then Some z else None.
Proof.
  intros H. destruct (big_of_spec t z H) as (W & V & _). pose proof (term_sign t z H) as S.
  destruct t as [i|b|]; [| |now destruct H]; cbn [term_to_Sint big_of] in *.
  - destruct H as [<- R]. apply small_range in R. zbool; auto; lia.
  - pose proof (big_val_abs b z W V) as A. pose proof (canonical_not_small _ _ H).
    destruct (Z.of_nat (BIG_SIZE b) * D_EXP >? 64) eqn:F.
    + pose proof (two_digits b W F). zbool; auto; lia.
    + destruct (one_digit b W F) as (d & E & D). rewrite E in *. cbn [or_digits val] in *.
      unfold wshl. rewrite Z.shiftl_0_r, w64_id, Z.lor_0_l, S by auto. unfold s64, wsub, w64.
      rewrite Z.gtb_ltb. destruct (Z.ltb_spec z 0).
      * rewrite Zmod_mod. replace ((0 - d) mod β) with (β - d) by lia.
        destruct (Z.ltb_spec (β - d) (2^63)); zbool; cbn; try lia; try reflexivity; f_equal; lia.
      * rewrite Z.mod_small by lia. destruct (Z.ltb_spec d (2^63)); zbool; cbn; try lia; try reflexivity; f_equal; lia.
Qed.

Lemma term_equals_2pow32_spec t z : int_term t z -> term_equals_2pow32 t = (z =? 2^32).
Proof.
  intros H. unfold term_equals_2pow32. rewrite (term_to_Uint_spec t z H). unfold wshr.
  change 0xFFFFFFFF with (Z.ones 32).
  destruct (Z.ltb_spec z 0); [zbool; auto; lia|]. destruct (Z.ltb_spec z β); [|zbool; auto; lia].
  rewrite Z.land_ones, !Z.shiftr_div_pow2, Z.div_div by lia. change (2^16*2^16) with (2^32).
  zbool; cbn; auto; lia.
Qed.

(** ** Bytes *)
Notation is_byte b := (0 <= b < 256).
Definition bytes (bs : list Z) : Prop := Forall (fun b => is_byte b) bs.
Fixpoint bytesv (bs : list Z) : Z := match bs with [] => 0 | b :: bs => b + 256 * bytesv bs end.

Lemma bytes_cons b bs : bytes (b :: bs) <-> is_byte b /\ bytes bs.
Proof. apply Forall_cons_iff. Qed.
Lemma bytes_app xs ys : bytes (xs ++ ys) <-> bytes xs /\ bytes ys.
Proof. apply Forall_app. Qed.
Lemma bytes_split n xs : bytes xs -> bytes (firstn n xs) /\ bytes (skipn n xs).
Proof. intros H. rewrite <- (firstn_skipn n xs) in H. now apply bytes_app in H. Qed.
Lemma bytesv_bound bs : bytes bs -> 0 <= bytesv bs < 256 ^ Z.of_nat (length bs).
Proof.
  induction 1 as [|b bs Hb _ IH]; [cbn; lia|]; cbv beta in *. cbn [bytesv length].
  rewrite Nat2Z.inj_succ, Z.pow_succ_r by lia. lia.
Qed.
Lemma bytesv_app xs ys : bytesv (xs ++ ys) = bytesv xs + 256 ^ Z.of_nat (length xs) * bytesv ys.
Proof.
  induction xs as [|b xs IH]; cbn [app length bytesv].
  - change (Z.of_nat 0) with 0. rewrite Z.pow_0_r. ring.
  - rewrite IH, Nat2Z.inj_succ, Z.pow_succ_r by lia. ring.
Qed.
Lemma pow256_8 n : (n <= 8)%nat -> 256 ^ Z.of_nat n <= β.
Proof. intros H. change β with (256 ^ 8). apply Z.pow_le_mono_r; lia. Qed.

Lemma load_bytes_spec xp : bytes xp -> (length xp <= 8)%nat -> load_bytes xp = bytesv xp.
Proof.
  induction 1 as [|b xp Hb Hx IH]; [reflexivity|]; cbv beta in *. intros Hl. cbn [length] in Hl.
  cbn [load_bytes bytesv]. rewrite IH by lia. pose proof (bytesv_bound xp Hx).
  assert (256 ^ Z.of_nat (length xp) <= 256 ^ 7) by (apply Z.pow_le_mono_r; lia).
  unfold wshl. rewrite Z.shiftl_mul_pow2, w64_id by lia. rewrite lor_disjoint; lia.
Qed.

Lemma bytes_to_digits_spec fuel xp : bytes xp -> (length xp < fuel)%nat ->
  digits (bytes_to_digits fuel xp) /\ val (bytes_to_digits fuel xp) = bytesv xp /\
  (8 * length (bytes_to_digits fuel xp) < length xp + 8)%nat /\ (length xp <= 8 * length (bytes_to_digits fuel xp))%nat.
Proof.
  revert xp. induction fuel as [|fuel IH]; intros xp Hx Hl; [lia|]. cbn [bytes_to_digits].
  destruct (bytes_split 8 xp Hx) as [Hf Hs].
  destruct (Nat.ltb_spec 8 (length xp)) as [L|L].
  - assert (Lf : length (firstn 8 xp) = 8%nat) by (rewrite length_firstn; lia).
    assert (Ls : length (skipn 8 xp) = (length xp - 8)%nat) by apply length_skipn.
    destruct (IH (skipn 8 xp) Hs ltac:(lia)) as (D & V & B). rewrite Ls in B.
    rewrite load_bytes_spec by (auto; lia). pose proof (bytesv_bound _ Hf) as F. rewrite Lf in F. change (256 ^ Z.of_nat 8) with β in F.
    splits; [now apply digits_cons| |cbn [length]; lia|cbn [length]; lia].
    cbn [val]. rewrite V. pose proof (bytesv_app (firstn 8 xp) (skipn 8 xp)) as E.
    rewrite firstn_skipn, Lf in E. change (256 ^ Z.of_nat 8) with β in E. lia.
  - destruct xp as [|b t]; [cbn; splits; auto with bignat; lia|].
    assert (digits [load_bytes (b :: t)] /\ val [load_bytes (b :: t)] = bytesv (b :: t)) as [? ?].
    { rewrite load_bytes_spec by auto. pose proof (bytesv_bound _ Hx). pose proof (pow256_8 _ L).
      cbn [val]. split; [apply digits_cons; split; [lia|apply digits_nil]|lia]. }
    splits; auto; cbn [length] in *; lia.
Qed.

Lemma put_bytes_spec n d : 0 <= d < 256 ^ Z.of_nat n ->
  bytes (put_bytes n d) /\ bytesv (put_bytes n d) = d /\ length (put_bytes n d) = n.
Proof.
  revert d. induction n as [|n IH]; intros d Hd; cbn [put_bytes].
  - change (256 ^ Z.of_nat 0) with 1 in Hd. cbn. splits; [constructor|lia|auto].
  - rewrite Nat2Z.inj_succ, Z.pow_succ_r in Hd by lia. change 0xff with (Z.ones 8).
    unfold wshr. rewrite Z.land_ones, Z.shiftr_div_pow2 by lia. change (2^8) with 256.
    destruct (IH (d / 256) ltac:(lia)) as (B & V & L).
    splits; [apply bytes_cons; split; auto; lia|cbn [bytesv]; lia|cbn [length]; lia].
Qed.

Lemma put_top_S n d : put_top (S n) d = d mod 256 :: (if d / 256 =? 0 then [] else put_top n (d / 256)).
Proof.
  cbn [put_top]. unfold wshr. change 0xff with (Z.ones 8). now rewrite Z.land_ones, Z.shiftr_div_pow2 by lia.
Qed.
Lemma top_bytes_acc m e z : top_bytes m e z = z + top_bytes m e 0.
Proof.
  revert e z. induction m as [|m IHm]; intros e z; cbn [top_bytes]; [lia|].
  destruct (e =? 0); [lia|]. rewrite IHm, (IHm _ (0 + 1)). lia.
Qed.
Lemma top_bytes_S n d : top_bytes (S n) d 0 = if d =? 0 then 0 else 1 + top_bytes n (d / 256) 0.
Proof.
  cbn [top_bytes]. unfold wshr. rewrite Z.shiftr_div_pow2 by lia. change (2^8) with 256.
  destruct (d =? 0); auto. rewrite top_bytes_acc. lia.
Qed.

Lemma put_top_spec n d : 0 <= d < 256 ^ Z.of_nat (S n) ->
  let t := put_top (S n) d in
  bytes t /\ bytesv t = d /\ (1 <= length t <= S n)%nat /\ (d <> 0 -> top_bytes (S n) d 0 = Z.of_nat (length t) /\ last t 0 <> 0).
Proof.
  revert d. induction n as [|n IH]; intros d Hd; cbv zeta; rewrite put_top_S, top_bytes_S.
  - change (256 ^ Z.of_nat 1) with 256 in Hd. rewrite Z.mod_small, Z.div_small by lia. cbn.
    splits; [apply bytes_cons; split; [lia|constructor]|lia|lia|lia|].
    intros H. destruct (Z.eqb_spec d 0); [lia|]. lia.
  - rewrite Nat2Z.inj_succ, Z.pow_succ_r in Hd by lia.
    destruct (Z.eqb_spec (d / 256) 0) as [E|E].
    + rewrite Z.mod_small by lia. splits; try (cbn; lia).
      * apply bytes_cons; split; [lia|constructor].
      * intros H. rewrite E. destruct (Z.eqb_spec d 0); [lia|]. cbn. lia.
    + destruct (IH (d / 256) ltac:(lia)) as (B & V & L & T). specialize (T E) as [T1 T2].
      set (t := put_top (S n) (d / 256)) in *. splits.
      * apply bytes_cons; split; auto; lia.
      * cbn [bytesv]. lia.
      * cbn [length]. lia.
      * cbn [length]. lia.
      * intros H. destruct (Z.eqb_spec d 0); [lia|]. rewrite T1. split; [cbn [length]; lia|].
        destruct t; [cbn in L; lia|exact T2].
Qed.

Lemma last_app_nonempty (x y : list Z) : y <> [] -> last (x ++ y) 0 = last y 0.
Proof.
  intros H. rewrite (app_removelast_last 0 H), app_assoc, !last_last. reflexivity.
Qed.

(** ** Round trips *)
Lemma digits_to_bytes_cons d e x : digits_to_bytes (d :: e :: x) = put_bytes 8 d ++ digits_to_bytes (e :: x).
Proof. reflexivity. Qed.

Lemma digits_to_bytes_spec x : digits x -> x <> [] ->
  bytes (digits_to_bytes x) /\ bytesv (digits_to_bytes x) = val x /\
  (8 * length x - 8 < length (digits_to_bytes x) <= 8 * length x)%nat /\
  (last x 0 <> 0 -> Z.of_nat (length (digits_to_bytes x)) = top_bytes 8 (last x 0) ((Z.of_nat (length x) - 1) * 8) /\
     last (digits_to_bytes x) 0 <> 0).
Proof.
  induction 1 as [|d x Hd Hx IH]; cbv beta in *; [congruence|]. intros _. destruct x as [|e x].
  - destruct (put_top_spec 7 d) as (B & V & L & T); [change (256 ^ Z.of_nat 8) with β; lia|].
    cbn [digits_to_bytes val last length]. splits; auto; try lia. intros H. destruct (T H) as [T1 T2]. now split.
  - specialize (IH ltac:(discriminate)). destruct IH as (B & V & L & T).
    destruct (put_bytes_spec 8 d) as (B1 & V1 & L1); [change (256 ^ Z.of_nat 8) with β; lia|].
    rewrite digits_to_bytes_cons. remember (e :: x) as y. splits.
    + apply (proj2 (bytes_app _ _)). split; assumption.
    + rewrite bytesv_app, V1, L1, V. cbn [val]. change (256 ^ Z.of_nat 8) with β. lia.
    + rewrite length_app, L1. cbn [length]. lia.
    + rewrite length_app, L1. cbn [length]. lia.
    + assert (El : last (d :: y) 0 = last y 0) by (subst y; reflexivity). rewrite El. intros H. destruct (T H) as [T1 T2].
      rewrite length_app, L1. split.
      * cbn [length]. rewrite top_bytes_acc, Nat2Z.inj_add, T1, (top_bytes_acc 8 _ ((Z.of_nat (length y) - 1) * 8)). lia.
      * rewrite last_app_nonempty; auto. intros F. rewrite F in L. subst y. cbn in L. lia.
Qed.

Lemma bytes_to_big_spec xp s : bytes xp -> xp <> [] -> last xp 0 <> 0 -> Z.of_nat (length xp) <= 8 * BIG_ARITY_MAX ->
  bytes_to_big xp s = mk_integer (if s then - bytesv xp else bytesv xp).
Proof.
  intros Hx Hne Hl Ha. unfold bytes_to_big.
  destruct (bytes_to_digits_spec (S (length xp)) xp Hx ltac:(lia)) as (D & V & L1 & L2).
  set (ds := bytes_to_digits (S (length xp)) xp) in *. rewrite <- V.
  assert (Hv : 256 ^ (Z.of_nat (length xp) - 1) <= bytesv xp).
  { rewrite (app_removelast_last 0 Hne) at 2. rewrite bytesv_app. cbn [bytesv].
    rewrite removelast_firstn_len, length_firstn. destruct (bytes_split (pred (length xp)) xp Hx) as [B _].
    pose proof (bytesv_bound _ B). rewrite (app_removelast_last 0 Hne) in Hx. apply bytes_app in Hx as [_ Hx].
    apply bytes_cons in Hx as [Hx _]. destruct xp; [congruence|]. cbn [length] in *.
    replace (Z.of_nat (Nat.min (pred (S (length xp))) (S (length xp)))) with (Z.of_nat (S (length xp)) - 1) by lia.
    assert (0 < 256 ^ (Z.of_nat (S (length xp)) - 1)) by (apply Z.pow_pos_nonneg; lia). nia. }
  assert (Lx : (1 <= length xp)%nat) by (destruct xp; cbn; [congruence|lia]).
  assert (Hd : ds <> []) by (intros F; rewrite F in L2; cbn in L2; lia).
  assert (P : 1 <= bytesv xp) by (assert (0 < 256 ^ (Z.of_nat (length xp) - 1)) by (apply Z.pow_pos_nonneg; lia); lia).
  assert (N : normal ds).
  { apply normal_of_low; auto. rewrite V. change β with (256 ^ 8). rewrite <- Z.pow_mul_r by (destruct ds; [congruence|cbn [length]; lia]).
    transitivity (256 ^ (Z.of_nat (length xp) - 1)); auto. apply Z.pow_le_mono_r; lia. }
  change (if s then - val ds else val ds) with (sv s ds). rewrite <- big_norm_spec by auto.
  assert (Ar : Z.of_nat (length ds) <= BIG_ARITY_MAX) by lia. unfold big_norm.
  replace (Z.of_nat (length ds) >? BIG_ARITY_MAX) with false by (rewrite Z.gtb_ltb; symmetry; apply Z.ltb_ge; auto).
  destruct ds as [|d [|d' t]]; [congruence| |]; reflexivity.
Qed.

Lemma canonical_top b : canonical b -> last (BIG_V b) 0 <> 0.
Proof.
  intros ((Hx & [Hne Hn] & _) & Hs & _). destruct Hn as [Hn|Hn]; auto.
  destruct (BIG_V b) as [|d [|]] eqn:E; try discriminate. cbn. intros ->.
  unfold bval in Hs. rewrite E in Hs. destruct (BIG_SIGN b); discriminate Hs.
Qed.

Lemma big_bytes_spec b : canonical b -> big_bytes b = Z.of_nat (length (big_to_bytes b)).
Proof.
  intros C. pose proof (canonical_top b C). destruct C as ((Hx & [Hne Hn] & _) & _).
  destruct (digits_to_bytes_spec _ Hx Hne) as (_ & _ & _ & T). destruct (T H) as [T1 _]. symmetry. exact T1.
Qed.

Lemma bytes_roundtrip b : canonical b -> bytes_to_big (big_to_bytes b) (BIG_SIGN b) = make_big b.
Proof.
  intros C. rewrite (canonical_digits b C). pose proof (canonical_top b C) as Ht.
  destruct C as ((Hx & [Hne Hn] & _) & _ & A).
  destruct (digits_to_bytes_spec _ Hx Hne) as (B & V & L & T). destruct (T Ht) as [_ T2].
  unfold big_to_bytes. rewrite bytes_to_big_spec; auto.
  - now rewrite V.
  - intros F. rewrite F in L. cbn in L. destruct (BIG_V b); [congruence|cbn [length] in L; lia].
  - unfold BIG_SIZE in A. lia.
Qed.

(** ** The bytes of bignums and of small integers *)
Lemma big_length b : BIG_V b <> [] -> digits (BIG_V b) -> last (BIG_V b) 0 <> 0 -> big_bytes b = Z.of_nat (length (big_to_bytes b)).
Proof. intros Hne Hx Ht. destruct (digits_to_bytes_spec _ Hx Hne) as (_ & _ & _ & T). destruct (T Ht) as [T1 _]. symmetry. exact T1. Qed.
Lemma ssmall_range i : IS_SSMALL i = true <-> - 2 ^ 59 <= i < 2 ^ 59.
Proof. unfold IS_SSMALL, MIN_SMALL, MAX_SMALL, SMALL_BITS. rewrite andb_true_iff, !Z.leb_le. lia. Qed.
(** The digit of a small integer. *)
Lemma small_digit i : - 2 ^ 59 <= i < 2 ^ 59 -> i <> 0 -> small_to_big i = MkBig (i <? 0) [Z.abs i].
Proof.
  intros Hi Hz. unfold small_to_big. rewrite Z.geb_leb. destruct (Z.leb_spec 0 i), (Z.ltb_spec i 0); try lia.
  - now rewrite Z.abs_eq by lia.
  - replace (w64 (- w64 i)) with (Z.abs i) by (unfold w64; lia). reflexivity.
Qed.
Lemma small_bytes i : - 2 ^ 59 <= i < 2 ^ 59 -> i <> 0 ->
  big_bytes (small_to_big i) = Z.of_nat (length (big_to_bytes (small_to_big i))) /\ Z.of_nat (length (big_to_bytes (small_to_big i))) <= 8.
Proof.
  intros Hi Hz. rewrite small_digit by auto. assert (Dd : digits [Z.abs i]) by (apply digits_cons; split; [lia|constructor]). split.
  - apply big_length; cbn [BIG_V last]; auto; [discriminate|lia].
  - unfold big_to_bytes. cbn [BIG_V]. destruct (digits_to_bytes_spec _ Dd ltac:(discriminate)) as (_ & _ & L & _). cbn [length] in L. lia.
Qed.
(** What the decoder needs of the bytes of an integer. *)
Lemma small_decode i : - 2 ^ 59 <= i < 2 ^ 59 -> i <> 0 -> let bs := big_to_bytes (small_to_big i) in
  bs <> [] /\ last bs 0 <> 0 /\ bytes_to_big bs (i <? 0) = make_small i.
Proof.
  intros Hi Hz. rewrite small_digit by auto. cbv zeta. unfold big_to_bytes. cbn [BIG_V]. assert (Dd : digits [Z.abs i]) by (apply digits_cons; split; [lia|constructor]).
  destruct (digits_to_bytes_spec _ Dd ltac:(discriminate)) as (B & V & L & T). cbn [last length] in *. destruct (T ltac:(lia)) as [_ T2].
  assert (Hne : digits_to_bytes [Z.abs i] <> []) by (intros E; rewrite E in L; cbn in L; lia). splits; auto.
  rewrite bytes_to_big_spec by (auto; unfold BIG_ARITY_MAX; lia). rewrite V. cbn [val]. replace (if i <? 0 then _ else _) with i by (destruct (Z.ltb_spec i 0); lia).
  unfold mk_integer. now rewrite (proj2 (ssmall_range i)).
Qed.
Lemma big_decode b : canonical b -> let bs := big_to_bytes b in
  bs <> [] /\ last bs 0 <> 0 /\ bytes_to_big bs (BIG_SIGN b) = make_big b /\ Z.of_nat (BIG_SIZE b) = (Z.of_nat (length bs) + 7) / 8.
Proof.
  intros C. cbv zeta. pose proof (canonical_top b C) as Ht. pose proof (bytes_roundtrip b C) as R. destruct C as ((Hx & [Hne Hn] & _) & _ & A). unfold big_to_bytes in *.
  destruct (digits_to_bytes_spec _ Hx Hne) as (B & V & L & T). destruct (T Ht) as [_ T2].
  assert (L1 : (1 <= length (BIG_V b))%nat) by (destruct (BIG_V b); [congruence|cbn; lia]). splits; auto; [intros E; rewrite E in L; cbn in L; lia|].
  unfold BIG_SIZE. lia.
Qed.
