(* ===== verification/BigText.v ===== *)
(** Integers as text: [write_big] and [erts_chars_to_integer]. *)

From S2P Require Import Prelude Digits DigitDiv BigNat BigMul BigDiv LongDiv LongDivSpec BigBits BigShift BigNum ErlArith.

(** Decimal digits of a chunk. *)
Definition D_DECIMAL_EXP : nat := 9.
(** The base of a chunk. *)
Definition D_DECIMAL_BASE : Z := 1000000000.

(** The digits of the last chunk, least significant first. *)
Fixpoint put_rem (fuel : nat) (rem : Z) : list Z :=
  match fuel with
  | O => []
  | S fuel => if rem =? 0 then [] else rem mod 10 + 48 :: put_rem fuel (rem / 10)
  end.
(** The nine digits of a chunk. *)
Fixpoint put_exp (i : nat) (rem : Z) : list Z :=
  match i with O => [] | S i => rem mod 10 + 48 :: put_exp i (rem / 10) end.
(** The division loop of [write_big]. *)
Fixpoint write_loop (fuel : nat) (tmp : list Z) : list Z :=
  match fuel with
  | O => []
  | S fuel =>
      let '(tmp, rem) := D_div tmp D_DECIMAL_BASE in
      if (length tmp =? 1)%nat && (hd 0 tmp =? 0) then put_rem 10 rem
      else put_exp D_DECIMAL_EXP rem ++ write_loop fuel tmp
  end.
(** [write_big]: the characters in the order of the calls of [write_func], least significant
    first. *)
Definition write_big (x : bignum) : list Z :=
  let dx := BIG_V x in
  (if (length dx =? 1)%nat && (hd 0 dx <? D_DECIMAL_BASE) then
     let rem := hd 0 dx in
     if rem =? 0 then [48] else put_rem 10 rem
   else write_loop (3 * length dx + 1) dx)
  ++ (if BIG_SIGN x then [45] else []).
(** [erts_big_to_string]: [write_string] stores each character in front of the previous ones. *)
Definition erts_big_to_string (x : bignum) : list Z := rev (write_big x).

(** Numerals shorter than this are smalls. *)
Definition SMALL_DIGITS : Z := 17.
(** The table of logarithms, in units of 1/100000. *)
Definition lg2_lookup : list Z := [
  100000; 158496; 200000; 232193; 258496; 280735; 300000; 316993; 332193; 345943; 358496; 370044; 380735;
  390689; 400000; 408746; 416993; 424793; 432193; 439232; 445943; 452356; 458496; 464386; 470044; 475489;
  480735; 485798; 490689; 495420; 500000; 504439; 508746; 512928; 516993; 520945; 524793; 528540; 532193;
  535755; 539232; 542626; 545943; 549185; 552356; 555459; 558496; 561471; 564386; 567243; 570044; 572792;
  575489; 578136; 580735; 583289; 585798; 588264; 590689; 593074; 595420; 597728; 600000 ].
(** Characters of a chunk. *)
Definition d_base_exp_lookup : list Z := [
  31; 19; 15; 13; 11; 11; 10; 9; 9; 8; 8; 8; 8; 7; 7; 7; 7; 7; 7; 7; 6; 6; 6; 6; 6; 6; 6; 6; 6; 6; 6; 6; 6; 6;
  5; 5; 5; 5; 5; 5; 5; 5; 5; 5; 5; 5; 5; 5; 5; 5; 5; 5; 5; 5; 5; 5; 5; 5; 5; 5; 5; 5; 5 ].
(** The base of a chunk. *)
Definition d_base_base_lookup : list Z := [
  2147483648; 1162261467; 1073741824; 1220703125; 362797056; 1977326743; 1073741824; 387420489; 1000000000;
  214358881; 429981696; 815730721; 1475789056; 170859375; 268435456; 410338673; 612220032; 893871739;
  1280000000; 1801088541; 113379904; 148035889; 191102976; 244140625; 308915776; 387420489; 481890304;
  594823321; 729000000; 887503681; 1073741824; 1291467969; 1544804416; 1838265625; 60466176; 69343957;
  79235168; 90224199; 102400000; 115856201; 130691232; 147008443; 164916224; 184528125; 205962976; 229345007;
  254803968; 282475249; 312500000; 345025251; 380204032; 418195493; 459165024; 503284375; 550731776;
  601692057; 656356768; 714924299; 777600000; 844596301; 916132832; 992436543; 1073741824 ].
(** Table lookup. *)
Definition D_BASE_EXP (base : Z) : Z := nth (Z.to_nat (base - 2)) d_base_exp_lookup 0.
(** Table lookup. *)
Definition D_BASE_BASE (base : Z) : Z := nth (Z.to_nat (base - 2)) d_base_base_lookup 0.
(** Table lookup. *)
Definition LG2_LOOKUP (base : Z) : Z := nth (Z.to_nat (base - 2)) lg2_lookup 0.

(** True for a character that is NOT a digit of the base. *)
Definition IS_VALID_CHARACTER (c base : Z) : bool :=
  (c <? 48) ||
  ((c >? 48 + base - 1) &&
   negb ((base >? 10) &&
         (((c >=? 97) && (c <? 97 + base - 10)) || ((c >=? 65) && (c <? 65 + base - 10))))).
(** The value of a character. *)
Definition CHARACTER_FROM_BASE (c : Z) : Z :=
  if c <=? 57 then c - 48 else 10 + (if c <=? 90 then c - 65 else c - 97).

(** The shortcut loop for short numerals up to base 10. *)
Fixpoint parse_decimal (bytes : list Z) (base i : Z) : option Z :=
  match bytes with
  | [] => Some i
  | b :: bytes =>
      if (b <? 48) || (b >? 48 + base - 1) then None
      else parse_decimal bytes base (i * base + b - 48)
  end.
(** The digit loop. *)
Fixpoint parse_chars (bytes : list Z) (base i : Z) : option Z :=
  match bytes with
  | [] => Some i
  | b :: bytes =>
      if IS_VALID_CHARACTER b base then None
      else parse_chars bytes base (i * base + CHARACTER_FROM_BASE b)
  end.
(** A small intermediate result becomes a bignum again. *)
Definition as_big (res : eterm) : option bignum :=
  match res with make_small i => Some (small_to_big i) | make_big b => Some b | NIL => None end.
(** The value returned, the error value, or a bignum that outgrew the largest
    arity and is used all the same. *)
Inductive chars_result := Integer (t : eterm) | NonValue | BadTerm.
(** The loop over the chunks. *)
Fixpoint parse_chunks (fuel : nat) (bytes : list Z) (base : Z) (res : eterm) : chars_result :=
  match fuel with
  | O => BadTerm
  | S fuel =>
      match bytes with
      | [] => Integer res
      | _ =>
          let e := Z.to_nat (D_BASE_EXP base) in
          match parse_chars (firstn e bytes) base 0, as_big res with
          | None, _ => NonValue
          | Some m, None => BadTerm
          | Some m, Some b =>
              match as_big (big_times_small b (D_BASE_BASE base)) with
              | None => BadTerm
              | Some b => parse_chunks fuel (skipn e bytes) base (big_plus_small b m)
              end
          end
      end
  end.
(** The sign is set in the header. *)
Definition neg_term (t : eterm) : eterm :=
  match t with
  | make_small i => make_small (- i)
  | make_big b => make_big (MkBig true (BIG_V b))
  | NIL => NIL
  end.
(** Sign and normalisation of the result. *)
Definition finish_chars (neg : bool) (res : eterm) : chars_result :=
  match (if neg then neg_term res else res) with
  | make_small i => Integer (make_small i)
  | make_big b => Integer (big_plus_small b 0)
  | NIL => BadTerm
  end.
(** Numerals that may need a bignum. *)
Definition chars_to_big (bytes : list Z) (base : Z) (neg : bool) : chars_result :=
  let e := D_BASE_EXP base in
  let size := Z.of_nat (length bytes) in
  let i := if size mod e =? 0 then e else size mod e in
  match parse_chars (firstn (Z.to_nat i) bytes) base 0 with
  | None => NonValue
  | Some m =>
      match parse_chunks (S (length bytes)) (skipn (Z.to_nat i) bytes) base (make_big (small_to_big m)) with
      | Integer res => finish_chars neg res
      | r => r
      end
  end.
(** An optional sign. *)
Definition split_sign (bytes : list Z) : bool * list Z :=
  match bytes with
  | 45 :: bytes => (true, bytes)
  | 43 :: bytes => (false, bytes)
  | _ => (false, bytes)
  end.
(** The result of the two shortcuts. *)
Definition small_chars (neg : bool) (i : option Z) : chars_result :=
  match i with Some i => Integer (make_small (if neg then - i else i)) | None => NonValue end.
(** [erts_chars_to_integer]; the estimate of the number of bits is computed exactly, the C code
    rounds a double, with the same answer to [lg2 < SMALL_BITS]. *)
Definition erts_chars_to_integer (bytes : list Z) (base : Z) : chars_result :=
  match bytes with
  | [] => NonValue
  | _ =>
      let '(neg, bytes) := split_sign bytes in
      let size := Z.of_nat (length bytes) in
      if (size <? SMALL_DIGITS) && (base <=? 10) then small_chars neg (parse_decimal bytes base 0)
      else
        let lg2 := ((size + 2) * LG2_LOOKUP base + 100000) / 100000 in
        if lg2 <? SMALL_BITS then small_chars neg (parse_chars bytes base 0)
        else chars_to_big bytes base neg
  end.

Example parse_examples :
  erts_chars_to_integer [45; 49; 50] 10 = Integer (make_small (-12)) /\
  erts_chars_to_integer [45] 10 = Integer (make_small 0) /\
  erts_chars_to_integer (rev (write_big (MkBig true [5; 7; 9]))) 10 = Integer (make_big (MkBig true [5; 7; 9])) /\
  erts_chars_to_integer [45; 53; 55; 54; 52; 54; 48; 55; 53; 50; 51; 48; 51; 52; 50; 51; 52; 56; 56] 10 = Integer (make_small (-2^59)).
Proof. splits; vm_compute; reflexivity. Qed.

(** ** Numerals *)
Definition digit_value (base c : Z) : option Z :=
  let d := if (48 <=? c) && (c <=? 57) then c - 48
           else if (97 <=? c) && (c <=? 122) then c - 87
           else if (65 <=? c) && (c <=? 90) then c - 55 else base in
  if d <? base then Some d else None.
(** What the code takes as a digit: above base 10 the characters between '9'
    and 'A' pass too, as long as they lie below '0' + base. *)
Definition stray_digit (base c : Z) : bool := (10 <? base) && (58 <=? c) && (c <=? 64) && (c <=? 47 + base).
Definition code_digit (base c : Z) : option Z :=
  if stray_digit base c then Some (c - 55) else digit_value base c.
Fixpoint numeral (base acc : Z) (cs : list Z) : option Z :=
  match cs with
  | [] => Some acc
  | c :: cs => match code_digit base c with
               | Some d => numeral base (acc * base + d) cs
               | None => None
               end
  end.

Ltac char_cases c :=
  unfold code_digit, stray_digit, digit_value;
  destruct (Z.leb_spec 48 c), (Z.leb_spec c 57), (Z.leb_spec 97 c), (Z.leb_spec c 122), (Z.leb_spec 65 c), (Z.leb_spec c 90);
  try lia; cbn; zbool; cbn.

Lemma char_digit base c : 2 <= base <= 36 ->
  code_digit base c = if IS_VALID_CHARACTER c base then None else Some (CHARACTER_FROM_BASE c).
Proof.
  intros Hb. unfold IS_VALID_CHARACTER, CHARACTER_FROM_BASE. rewrite !Z.geb_leb, !Z.gtb_ltb.
  char_cases c; try reflexivity; try lia; f_equal; lia.
Qed.
Lemma code_digit_range base c d : code_digit base c = Some d -> 2 <= base <= 36 -> 0 <= d < base.
Proof. intros H Hb. revert H. char_cases c; intros H'; try discriminate; injection H' as <-; lia. Qed.
Lemma code_digit_decimal base c : 2 <= base <= 10 ->
  code_digit base c = if (c <? 48) || (c >? 48 + base - 1) then None else Some (c - 48).
Proof. intros Hb. rewrite Z.gtb_ltb. char_cases c; try reflexivity; try lia; f_equal; lia. Qed.

Lemma parse_chars_numeral bs base i : 2 <= base <= 36 -> parse_chars bs base i = numeral base i bs.
Proof.
  intros Hb. revert i. induction bs as [|c bs IH]; intros i; cbn [parse_chars numeral]; auto.
  rewrite char_digit by auto. destruct (IS_VALID_CHARACTER c base); auto.
Qed.
Lemma parse_decimal_numeral bs base i : 2 <= base <= 10 -> parse_decimal bs base i = numeral base i bs.
Proof.
  intros Hb. revert i. induction bs as [|c bs IH]; intros i; cbn [parse_decimal numeral]; auto.
  rewrite code_digit_decimal by auto. destruct ((c <? 48) || (c >? 48 + base - 1)); auto. rewrite IH. f_equal. lia.
Qed.

Lemma numeral_app base acc xs ys :
  numeral base acc (xs ++ ys) = match numeral base acc xs with Some v => numeral base v ys | None => None end.
Proof. revert acc. induction xs as [|c xs IH]; intros acc; cbn; auto. destruct (code_digit base c); auto. Qed.
Lemma numeral_shift base acc cs :
  numeral base acc cs = option_map (fun v => acc * base ^ Z.of_nat (length cs) + v) (numeral base 0 cs).
Proof.
  assert (H : forall cs a b, numeral base (a + b) cs = option_map (fun v => a * base ^ Z.of_nat (length cs) + v) (numeral base b cs)).
  { clear. induction cs as [|c cs IH]; intros a b; cbn [numeral length].
    - change (Z.of_nat 0) with 0. rewrite Z.pow_0_r. cbn. f_equal. lia.
    - destruct (code_digit base c) as [d|]; auto. rewrite Nat2Z.inj_succ, Z.pow_succ_r by lia.
      replace ((a + b) * base + d) with (a * base + (b * base + d)) by ring. rewrite IH.
      destruct (numeral base (b * base + d) cs); cbn; auto. f_equal. ring. }
  rewrite <- (H cs acc 0), Z.add_0_r. reflexivity.
Qed.
(** The number a text denotes in a base, by the value of each digit at its
    place; no number when a character is not a digit of the base. *)
Fixpoint number (base : Z) (cs : list Z) : option Z :=
  match cs with
  | [] => Some 0
  | c :: cs => match digit_value base c, number base cs with
               | Some d, Some v => Some (d * base ^ Z.of_nat (length cs) + v)
               | _, _ => None
               end
  end.
(** The digit that the code takes a character for. *)
Definition read_as (base c : Z) : Z := if stray_digit base c then c - 7 else c.

Lemma code_digit_read base c : code_digit base c = digit_value base (read_as base c).
Proof.
  unfold code_digit, read_as. destruct (stray_digit base c) eqn:E; [|reflexivity].
  unfold stray_digit in E. rewrite !andb_true_iff, Z.ltb_lt, !Z.leb_le in E. unfold digit_value.
  destruct (Z.leb_spec 48 (c - 7)), (Z.leb_spec (c - 7) 57); try lia. cbn [andb].
  destruct (Z.ltb_spec (c - 7 - 48) base); [f_equal; lia|lia].
Qed.
Lemma numeral_number base cs : numeral base 0 cs = number base (map (read_as base) cs).
Proof.
  induction cs as [|c cs IH]; [reflexivity|]. cbn [numeral map number]. rewrite code_digit_read, length_map.
  destruct (digit_value base (read_as base c)) as [d|]; [|reflexivity].
  rewrite numeral_shift, IH. destruct (number base _); reflexivity.
Qed.
Lemma read_as_id base cs : Forall (fun c => stray_digit base c = false) cs -> map (read_as base) cs = cs.
Proof. induction 1 as [|c cs E _ IH]; cbn; [reflexivity|]. unfold read_as at 1. now rewrite E, IH. Qed.

Lemma numeral_bound base cs v : 2 <= base <= 36 -> numeral base 0 cs = Some v -> 0 <= v < base ^ Z.of_nat (length cs).
Proof.
  intros Hb. revert v. induction cs as [|c cs IH] using rev_ind; intros v.
  - cbn. intros [= <-]. lia.
  - rewrite numeral_app. destruct (numeral base 0 cs) as [u|] eqn:E; [|discriminate]. specialize (IH u eq_refl). cbn [numeral].
    destruct (code_digit base c) as [d|] eqn:Ed; [|discriminate]. intros [= <-]. apply code_digit_range in Ed; auto.
    rewrite length_app. cbn [length]. replace (Z.of_nat (length cs + 1)) with (Z.succ (Z.of_nat (length cs))) by lia.
    rewrite Z.pow_succ_r by lia. nia.
Qed.

(** ** Reading a numeral *)
Definition bases : list Z := map Z.of_nat (seq 2 35).
Lemma in_bases base : 2 <= base <= 36 -> In base bases.
Proof.
  intros Hb. apply in_map_iff. exists (Z.to_nat base). split; [lia|]. apply in_seq. lia.
Qed.
Lemma base_tables base : 2 <= base <= 36 ->
  0 < D_BASE_EXP base <= 31 /\ D_BASE_BASE base = base ^ D_BASE_EXP base /\ is_digit (D_BASE_BASE base).
Proof.
  intros Hb.
  assert (T : forallb (fun b => (0 <? D_BASE_EXP b) && (D_BASE_EXP b <=? 31) && (D_BASE_BASE b =? b ^ D_BASE_EXP b)
                                && (0 <=? D_BASE_BASE b) && (D_BASE_BASE b <? β)) bases = true) by (vm_compute; reflexivity).
  rewrite forallb_forall in T. specialize (T base (in_bases base Hb)). rewrite !andb_true_iff, !Z.ltb_lt, !Z.leb_le, Z.eqb_eq in T. lia.
Qed.

(** A numeral whose estimated size in bits is below [SMALL_BITS] is a small. *)
Lemma lg2_small base size : 2 <= base <= 36 -> 0 <= size ->
  ((size + 2) * LG2_LOOKUP base + 100000) / 100000 < SMALL_BITS -> base ^ size <= 2 ^ 59.
Proof.
  intros Hb Hs Hl.
  assert (T : forallb (fun b => (100000 <=? LG2_LOOKUP b) &&
     forallb (fun n => (60 <=? ((Z.of_nat n + 2) * LG2_LOOKUP b + 100000) / 100000) || (b ^ Z.of_nat n <=? 2^59)) (seq 0 60)) bases = true)
    by (vm_compute; reflexivity).
  rewrite forallb_forall in T. specialize (T base (in_bases base Hb)). rewrite andb_true_iff, forallb_forall, Z.leb_le in T.
  destruct T as [T1 T2]. change SMALL_BITS with 60 in Hl.
  assert (size < 60) by nia. specialize (T2 (Z.to_nat size)). rewrite in_seq, Z2Nat.id in T2 by lia.
  specialize (T2 ltac:(lia)). apply orb_true_iff in T2. rewrite !Z.leb_le in T2. lia.
Qed.

(** An intermediate result: the natural number it stands for, normalised or not. *)
Definition nat_term (t : eterm) (v : Z) : Prop :=
  (forall i, t = make_small i -> IS_SSMALL i = true) /\
  exists b, as_big t = Some b /\ BIG_SIGN b = false /\ digits (BIG_V b) /\ normal (BIG_V b) /\ val (BIG_V b) = v.

Lemma nat_term_mk v : 0 <= v -> Z.log2 v < 64 * BIG_ARITY_MAX -> nat_term (mk_integer v) v.
Proof.
  intros Hv Hl. pose proof (mk_integer_cases v) as C. destruct (mk_integer v) as [i|b|].
  - destruct C as [-> R]. split; [now intros i [= <-]|]. cbn [as_big]. pose proof R as R'. apply small_range in R'.
    exists (small_to_big v). destruct (small_to_big_spec v ltac:(lia)) as [(D & N & _) B]. splits; auto.
    + unfold small_to_big. rewrite Z.geb_leb. destruct (Z.leb_spec 0 v); [reflexivity|lia].
    + unfold small_to_big. rewrite Z.geb_leb. destruct (Z.leb_spec 0 v); [cbn; lia|lia].
  - split; [discriminate|]. destruct C as [((D & N & P) & _) B]. exists b. pose proof (val_bound _ D). unfold bval in B.
    destruct (BIG_SIGN b) eqn:S; cbn [sv] in B; [specialize (P eq_refl); lia|]. splits; auto.
  - exfalso. destruct C as [R C]. apply small_range_false in R. rewrite mk_integer_digits in C by lia.
    rewrite Z.abs_eq in C by lia. lia.
Qed.

Lemma firstn_length_exact (n : nat) (l : list Z) : (n <= length l)%nat -> length (firstn n l) = n.
Proof. intros H. rewrite length_firstn. lia. Qed.

Lemma parse_chunks_spec fuel bs base res r k :
  2 <= base <= 36 -> (length bs < fuel)%nat -> length bs = (k * Z.to_nat (D_BASE_EXP base))%nat ->
  0 <= r -> Z.log2 ((r + 1) * base ^ Z.of_nat (length bs)) < 64 * BIG_ARITY_MAX -> nat_term res r ->
  match numeral base r bs with
  | Some v => exists t, parse_chunks fuel bs base res = Integer t /\ nat_term t v
  | None => parse_chunks fuel bs base res = NonValue
  end.
Proof.
  intros Hb. destruct (base_tables base Hb) as (He & HB & HD). set (e := Z.to_nat (D_BASE_EXP base)) in *.
  assert (Ee : D_BASE_EXP base = Z.of_nat e) by lia.
  revert bs res r k. induction fuel as [|fuel IH]; intros bs res r k Hf Hk Hr Hl Hres; [lia|]. cbn [parse_chunks].
  destruct bs as [|c bs0]; [cbn; eauto|]. remember (c :: bs0) as bs. fold e.
  assert (Hlen : (e <= length bs)%nat) by (destruct k; [rewrite Heqbs in Hk; discriminate|lia]).
  pose proof (firstn_length_exact e bs Hlen) as Lf. pose proof (length_skipn e bs) as Ls.
  rewrite parse_chars_numeral by auto. pose proof (numeral_app base r (firstn e bs) (skipn e bs)) as Ap.
  rewrite firstn_skipn in Ap. rewrite (numeral_shift base r (firstn e bs)) in Ap. rewrite Ap, Lf.
  destruct (numeral base 0 (firstn e bs)) as [m|] eqn:Em; cbn [option_map]; [|reflexivity].
  pose proof (numeral_bound base _ m Hb Em) as Bm. rewrite Lf, <- Ee, <- HB in Bm. rewrite <- Ee, <- HB.
  destruct Hres as (_ & b & -> & Sb & Db & Nb & Vb).
  assert (Wb : wf_big b) by (unfold wf_big; rewrite Sb; splits; auto; discriminate).
  rewrite big_times_small_mk by auto. unfold bval. rewrite Sb. cbn [sv]. rewrite Vb.
  assert (Hpow : base ^ Z.of_nat (length bs) = D_BASE_BASE base * base ^ Z.of_nat (length bs - e)).
  { rewrite HB, Ee, <- Z.pow_add_r by lia. f_equal. lia. }
  assert (Pp : 0 < base ^ Z.of_nat (length bs - e)) by (apply Z.pow_pos_nonneg; lia).
  assert (Le : r * D_BASE_BASE base + m <= (r + 1) * base ^ Z.of_nat (length bs)) by (rewrite Hpow; nia).
  assert (L2 : (r * D_BASE_BASE base + m + 1) * base ^ Z.of_nat (length bs - e) <= (r + 1) * base ^ Z.of_nat (length bs)) by (rewrite Hpow; nia).
  assert (N1 : nat_term (mk_integer (r * D_BASE_BASE base)) (r * D_BASE_BASE base)).
  { apply nat_term_mk; [apply Z.mul_nonneg_nonneg; lia|]. eapply Z.le_lt_trans; [|exact Hl]. apply Z.log2_le_mono. lia. }
  destruct N1 as (_ & b' & -> & Sb' & Db' & Nb' & Vb').
  assert (Wb' : wf_big b') by (unfold wf_big; rewrite Sb'; splits; auto; discriminate).
  rewrite big_plus_small_mk; auto; [|lia|congruence]. unfold bval. rewrite Sb'. cbn [sv]. rewrite Vb'.
  specialize (IH (skipn e bs) (mk_integer (r * D_BASE_BASE base + m)) (r * D_BASE_BASE base + m) (pred k)).
  rewrite Ls in IH.
  assert (Hk' : (length bs - e = pred k * e)%nat) by (destruct k; [rewrite Heqbs in Hk; discriminate|rewrite Hk; cbn [Nat.mul pred]; lia]).
  assert (Hlb : (length bs - e < fuel)%nat) by lia.
  assert (H0 : 0 <= r * D_BASE_BASE base) by (apply Z.mul_nonneg_nonneg; lia).
  apply IH; auto; [lia| |].
  - eapply Z.le_lt_trans; [|exact Hl]. apply Z.log2_le_mono. exact L2.
  - apply nat_term_mk; [lia|]. eapply Z.le_lt_trans; [|exact Hl]. apply Z.log2_le_mono. exact Le.
Qed.

Lemma finish_chars_spec neg t v : nat_term t v ->
  finish_chars neg t = Integer (mk_integer (if neg then - v else v)).
Proof.
  intros (Hs & b & Hb & Sb & Db & Nb & Vb). pose proof (val_bound _ Db). unfold finish_chars.
  destruct t as [i|b0|]; [| |discriminate].
  - specialize (Hs i eq_refl). cbn in Hb. injection Hb as <-. unfold small_to_big in *. rewrite Z.geb_leb in *.
    destruct (Z.leb_spec 0 i); [|discriminate]. cbn in Vb. assert (i = v) by lia. subst i. destruct neg; cbn [neg_term]; rewrite mk_integer_small; auto.
    apply small_range in Hs. apply small_range. lia.
  - injection Hb as <-. destruct neg; cbn [neg_term].
    + unfold big_plus_small. cbn [BIG_SIGN BIG_V]. destruct (D_sub_spec (BIG_V b0) 0) as (V & D & N); auto; [apply Nb|lia|lia|].
      rewrite big_norm_spec by auto. cbn [sv]. do 2 f_equal. lia.
    + rewrite big_plus_small_mk; [|unfold wf_big; rewrite Sb; splits; auto; discriminate|lia|congruence].
      unfold bval. rewrite Sb. cbn [sv]. do 2 f_equal. lia.
Qed.

(** The numerals the conversion handles: their length keeps the value below
    the largest arity. *)
Definition chars_fit (base : Z) (cs : list Z) : Prop :=
  Z.log2 (base ^ Z.of_nat (length cs)) < 64 * BIG_ARITY_MAX.

Lemma chars_to_big_spec cs base neg : 2 <= base <= 36 -> cs <> [] -> chars_fit base cs ->
  chars_to_big cs base neg =
  match numeral base 0 cs with Some v => Integer (mk_integer (if neg then - v else v)) | None => NonValue end.
Proof.
  intros Hb Hne Hfit. unfold chars_to_big. destruct (base_tables base Hb) as (He & HB & HD).
  set (e := D_BASE_EXP base) in *. set (size := Z.of_nat (length cs)).
  match goal with |- context [Z.to_nat ?x] => set (i := x) end.
  assert (Hs : 0 < size) by (subst size; destruct cs; [congruence|cbn; lia]).
  assert (Hi : 1 <= i <= e /\ i <= size /\ (size - i) mod e = 0).
  { subst i. destruct (Z.eqb_spec (size mod e) 0) as [E|E].
    - pose proof (Z.div_mod size e ltac:(lia)). assert (1 <= size / e) by nia.
      splits; try lia; [nia|]. rewrite Zminus_mod, E, Z.mod_same by lia. reflexivity.
    - pose proof (Z.mod_pos_bound size e ltac:(lia)). pose proof (Z.mod_le size e ltac:(lia) ltac:(lia)).
      splits; try lia. rewrite Zminus_mod, Zmod_mod, Z.sub_diag. reflexivity. }
  destruct Hi as (Hi & His & Hk).
  pose proof (firstn_length_exact (Z.to_nat i) cs ltac:(lia)) as Lf. pose proof (length_skipn (Z.to_nat i) cs) as Ls.
  rewrite parse_chars_numeral by auto. pose proof (numeral_app base 0 (firstn (Z.to_nat i) cs) (skipn (Z.to_nat i) cs)) as Ap.
  rewrite firstn_skipn in Ap. rewrite Ap. destruct (numeral base 0 (firstn (Z.to_nat i) cs)) as [m|] eqn:Em; [|reflexivity].
  pose proof (numeral_bound base _ m Hb Em) as Bm. rewrite Lf, Z2Nat.id in Bm by lia.
  assert (Bm' : m < D_BASE_BASE base).
  { rewrite HB. apply Z.lt_le_trans with (1 := proj2 Bm). apply Z.pow_le_mono_r; lia. }
  assert (Pw : (m + 1) * base ^ Z.of_nat (length cs - Z.to_nat i) <= base ^ Z.of_nat (length cs)).
  { replace (Z.of_nat (length cs)) with (i + Z.of_nat (length cs - Z.to_nat i)) by lia. rewrite Z.pow_add_r by lia.
    apply Z.mul_le_mono_nonneg_r; [apply Z.pow_nonneg; lia|lia]. }
  pose proof (parse_chunks_spec (S (length cs)) (skipn (Z.to_nat i) cs) base (make_big (small_to_big m)) m
     (Z.to_nat ((size - i) / e)) Hb) as S. rewrite Ls in S. fold e in S. 
  assert (Hm : nat_term (make_big (small_to_big m)) m).
  { split; [discriminate|]. exists (small_to_big m). unfold small_to_big. rewrite Z.geb_leb. destruct (Z.leb_spec 0 m); [|lia].
    cbn. splits; auto; [apply digits_cons; split; [lia|apply digits_nil]|split; [discriminate|auto]|lia]. }
  specialize (S ltac:(lia)). 
  assert (Hd : (length cs - Z.to_nat i = Z.to_nat ((size - i) / e) * Z.to_nat e)%nat).
  { pose proof (Z.div_mod (size - i) e ltac:(lia)) as Q. rewrite Hk in Q.
    rewrite <- Z2Nat.inj_mul; [|apply Z.div_pos; lia|lia]. subst size. lia. }
  specialize (S Hd ltac:(lia)). 
  assert (Hl : Z.log2 ((m + 1) * base ^ Z.of_nat (length cs - Z.to_nat i)) < 64 * BIG_ARITY_MAX).
  { eapply Z.le_lt_trans; [|exact Hfit]. apply Z.log2_le_mono. exact Pw. }
  specialize (S Hl Hm).
  destruct (numeral base m (skipn (Z.to_nat i) cs)) as [v|].
  - destruct S as (t & -> & Ht). now apply finish_chars_spec.
  - now rewrite S.
Qed.

Definition numeral_result (neg : bool) (v : option Z) : chars_result :=
  match v with Some v => Integer (mk_integer (if neg then - v else v)) | None => NonValue end.

Lemma small_chars_spec neg base cs : 2 <= base <= 36 -> base ^ Z.of_nat (length cs) <= 2 ^ 59 ->
  small_chars neg (numeral base 0 cs) = numeral_result neg (numeral base 0 cs).
Proof.
  intros Hb Hl. destruct (numeral base 0 cs) as [v|] eqn:E; [|reflexivity]. cbn [small_chars numeral_result].
  apply numeral_bound in E; auto. rewrite mk_integer_small; auto. apply small_range. destruct neg; lia.
Qed.

Lemma chars_to_integer_spec c cs base : 2 <= base <= 36 ->
  let '(neg, ds) := split_sign (c :: cs) in
  chars_fit base ds -> erts_chars_to_integer (c :: cs) base = numeral_result neg (numeral base 0 ds).
Proof.
  intros Hb. unfold erts_chars_to_integer. remember (c :: cs) as bs. destruct (split_sign bs) as [neg ds].
  intros Hfit. destruct bs as [|c' bs]; [discriminate|]. clear Heqbs c cs.
  set (size := Z.of_nat (length ds)). destruct ((size <? SMALL_DIGITS) && (base <=? 10)) eqn:F.
  - apply andb_true_iff in F as [F1 F2]. apply Z.ltb_lt in F1. apply Z.leb_le in F2. change SMALL_DIGITS with 17 in F1.
    rewrite parse_decimal_numeral by lia. apply small_chars_spec; auto. fold size.
    transitivity (10 ^ size); [apply Z.pow_le_mono_l; lia|]. transitivity (10 ^ 16); [apply Z.pow_le_mono_r; lia|lia].
  - destruct (Z.ltb_spec (((size + 2) * LG2_LOOKUP base + 100000) / 100000) SMALL_BITS) as [L|L].
    + rewrite parse_chars_numeral by auto. apply small_chars_spec; auto. apply lg2_small; auto. subst size; lia.
    + apply chars_to_big_spec; auto. intros ->. subst size. cbn [length] in L. change (Z.of_nat 0) with 0 in L.
      assert (T : forallb (fun b => ((0 + 2) * LG2_LOOKUP b + 100000) / 100000 <? 60) bases = true) by (vm_compute; reflexivity).
      rewrite forallb_forall in T. specialize (T base (in_bases base Hb)). apply Z.ltb_lt in T. change SMALL_BITS with 60 in L. lia.
Qed.

(** ** Writing a numeral *)
Definition decimal_chars (l : list Z) : Prop := Forall (fun c => 48 <= c <= 57) l.
(** [l], least significant digit first, is the decimal numeral of [v]. *)
Definition decimal_of (l : list Z) (v : Z) : Prop := decimal_chars l /\ numeral 10 0 (rev l) = Some v.

Lemma decimal_cons d l u : 0 <= d <= 9 -> decimal_of l u -> decimal_of (d + 48 :: l) (u * 10 + d).
Proof.
  intros Hd [D N]. split; [constructor; auto; lia|]. cbn [rev]. rewrite numeral_app, N. cbn [numeral].
  rewrite code_digit_decimal by lia. rewrite Z.gtb_ltb. zbool; cbn; try lia. f_equal. lia.
Qed.
Lemma decimal_nil : decimal_of [] 0.
Proof. split; [constructor|reflexivity]. Qed.

Lemma put_exp_spec n rem l u : 0 <= rem < 10 ^ Z.of_nat n -> decimal_of l u ->
  decimal_of (put_exp n rem ++ l) (u * 10 ^ Z.of_nat n + rem).
Proof.
  revert rem. induction n as [|n IH]; intros rem Hr Hl; cbn [put_exp app].
  - change (Z.of_nat 0) with 0 in *. rewrite Z.pow_0_r in *. replace (u * 1 + rem) with u by lia. auto.
  - rewrite Nat2Z.inj_succ, Z.pow_succ_r in * by lia.
    replace (u * (10 * 10 ^ Z.of_nat n) + rem) with ((u * 10 ^ Z.of_nat n + rem / 10) * 10 + rem mod 10) by lia.
    apply decimal_cons; [lia|]. apply IH; auto. lia.
Qed.
Lemma put_rem_spec n rem : 0 <= rem < 10 ^ Z.of_nat n ->
  decimal_of (put_rem n rem) rem /\ (rem <> 0 -> put_rem n rem <> [] /\ last (put_rem n rem) 0 <> 48).
Proof.
  revert rem. induction n as [|n IH]; intros rem Hr; cbn [put_rem].
  - change (10 ^ Z.of_nat 0) with 1 in Hr. replace rem with 0 by lia. split; [apply decimal_nil|lia].
  - rewrite Nat2Z.inj_succ, Z.pow_succ_r in Hr by lia. destruct (Z.eqb_spec rem 0) as [->|Hn]; [split; [apply decimal_nil|lia]|].
    destruct (IH (rem / 10) ltac:(lia)) as [D L]. split.
    + pose proof (decimal_cons (rem mod 10) _ _ ltac:(lia) D) as C. replace (rem / 10 * 10 + rem mod 10) with rem in C by lia. exact C.
    + intros _. split; [discriminate|]. destruct (Z.eq_dec (rem / 10) 0) as [E|E].
      * rewrite E. destruct n; cbn; lia.
      * destruct (L E) as [L1 L2]. destruct (put_rem n (rem / 10)); [congruence|exact L2].
Qed.

Lemma put_exp_last n rem l : l <> [] -> last l 0 <> 48 -> put_exp n rem ++ l <> [] /\ last (put_exp n rem ++ l) 0 <> 48.
Proof.
  intros Hl Hn. split; [intros F; apply app_eq_nil in F as [_ F]; congruence|].
  revert rem. induction n as [|n IH]; intros rem; cbn [put_exp app]; auto.
  specialize (IH (rem / 10)). destruct (put_exp n (rem / 10) ++ l) eqn:E; [|exact IH].
  apply app_eq_nil in E as [_ E]. congruence.
Qed.

Lemma write_loop_spec fuel x : digits x -> normal x -> 1 <= val x -> val x < 2 ^ (29 * Z.of_nat fuel) ->
  decimal_of (write_loop fuel x) (val x) /\ write_loop fuel x <> [] /\ last (write_loop fuel x) 0 <> 48.
Proof.
  revert x. induction fuel as [|fuel IH]; intros x Hx Nx Px Hf.
  - change (2 ^ (29 * Z.of_nat 0)) with 1 in Hf. lia.
  - cbn [write_loop]. pose proof (D_div_spec x D_DECIMAL_BASE Hx Nx ltac:(unfold D_DECIMAL_BASE; lia)) as S.
    destruct (D_div x D_DECIMAL_BASE) as [t rem]. destruct S as (Vt & Vr & Dt & Nt). change D_DECIMAL_BASE with 1000000000 in *.
    destruct ((length t =? 1)%nat && (hd 0 t =? 0)) eqn:E.
    + apply andb_true_iff in E as [E1 E2]. apply Nat.eqb_eq in E1. apply Z.eqb_eq in E2.
      rewrite <- (val_hd t E1), Vt in E2.
      destruct (put_rem_spec 10 rem) as [D L]; [change (10 ^ Z.of_nat 10) with 10000000000; lia|].
      assert (Er : rem = val x) by lia. rewrite Er in *. split; auto. apply L. lia.
    + assert (Pt : 1 <= val t).
      { destruct (Z.eq_dec (val t) 0) as [Z0|]; [|lia]. rewrite (normal_zero t Dt Nt Z0) in E. discriminate. }
      destruct (IH t Dt Nt Pt) as (D & L1 & L2).
      { rewrite Vt. apply Z.div_lt_upper_bound; [lia|].
        replace (29 * Z.of_nat (S fuel)) with (29 + 29 * Z.of_nat fuel) in Hf by lia. rewrite Z.pow_add_r in Hf by lia.
        assert (0 < 2 ^ (29 * Z.of_nat fuel)) by (apply Z.pow_pos_nonneg; lia). change (2^29) with 536870912 in Hf. lia. }
      split; [|apply put_exp_last; auto].
      replace (val x) with (val t * 10 ^ Z.of_nat D_DECIMAL_EXP + rem) by (change (10 ^ Z.of_nat D_DECIMAL_EXP) with 1000000000; lia).
      apply put_exp_spec; auto. change (10 ^ Z.of_nat D_DECIMAL_EXP) with 1000000000. lia.
Qed.


Lemma write_big_spec b : wf_big b ->
  exists l, write_big b = l ++ (if BIG_SIGN b then [45] else []) /\ decimal_of l (val (BIG_V b)) /\ l <> [] /\
    (1 <= val (BIG_V b) -> last l 0 <> 48).
Proof.
  intros (Hx & Nx & _). unfold write_big. set (x := BIG_V b) in *. eexists; split; [reflexivity|].
  destruct ((length x =? 1)%nat && (hd 0 x <? D_DECIMAL_BASE)) eqn:E.
  - apply andb_true_iff in E as [E1 E2]. apply Nat.eqb_eq in E1. apply Z.ltb_lt in E2. change D_DECIMAL_BASE with 1000000000 in E2.
    pose proof (is_digit_hd _ Hx). rewrite (val_hd x E1). destruct (Z.eqb_spec (hd 0 x) 0) as [->|Hn].
    + splits; [|discriminate|lia]. split; [repeat constructor; lia|reflexivity].
    + destruct (put_rem_spec 10 (hd 0 x)) as [D L]; [change (10 ^ Z.of_nat 10) with 10000000000; lia|].
      destruct (L Hn). auto.
  - assert (Px : 1 <= val x).
    { destruct (Z.eq_dec (val x) 0) as [Z0|]; [rewrite (normal_zero x Hx Nx Z0) in E; discriminate|pose proof (val_bound x Hx); lia]. }
    destruct (write_loop_spec (3 * length x + 1) x Hx Nx Px) as (D & L1 & L2); auto.
    apply Z.lt_le_trans with (1 := proj2 (val_bound x Hx)). change β with (2^64). rewrite <- Z.pow_mul_r by lia.
    apply Z.pow_le_mono_r; lia.
Qed.

Lemma decimal_length l v : decimal_of l v -> l <> [] -> last l 0 <> 48 -> 10 ^ (Z.of_nat (length l) - 1) <= v.
Proof.
  intros [D N] Hne Hl. destruct (exists_last Hne) as (p & c & ->). rewrite last_last in Hl.
  rewrite rev_app_distr in N. cbn [rev app numeral] in N. unfold decimal_chars in D. apply Forall_app in D as [_ Dc].
  inversion Dc as [|? ? Hc _]; subst. rewrite code_digit_decimal in N by lia. rewrite Z.gtb_ltb in N.
  destruct (Z.ltb_spec c 48), (Z.ltb_spec (48 + 10 - 1) c); try lia. cbn [orb] in N.
  rewrite numeral_shift in N. destruct (numeral 10 0 (rev p)) as [u|] eqn:E; [|discriminate]. cbn in N. injection N as <-.
  apply numeral_bound in E; [|lia]. rewrite length_rev in *. rewrite length_app. cbn [length].
  replace (Z.of_nat (length p + 1) - 1) with (Z.of_nat (length p)) by lia. assert (0 < 10 ^ Z.of_nat (length p)) by lia. nia.
Qed.

Lemma text_roundtrip b : canonical b -> Z.of_nat (BIG_SIZE b) < BIG_ARITY_MAX ->
  erts_chars_to_integer (erts_big_to_string b) 10 = Integer (make_big b).
Proof.
  intros C Hs. pose proof (canonical_digits b C) as Cd. destruct C as (W & NS & _).
  destruct (write_big_spec b W) as (l & E & D & Hne & Hl). unfold erts_big_to_string. rewrite E, rev_app_distr.
  pose proof (big_val_abs b (bval b) W eq_refl) as Va. apply small_range_false in NS. specialize (Hl ltac:(lia)).
  assert (Sp : split_sign (rev (if BIG_SIGN b then [45] else []) ++ rev l) = (BIG_SIGN b, rev l)).
  { destruct (BIG_SIGN b); [reflexivity|]. cbn [rev app]. destruct (rev l) as [|c t] eqn:R; [reflexivity|].
    destruct D as [D _]. apply Forall_rev in D. rewrite R in D. inversion D as [|? ? Hc _]; subst.
    assert (Hc48 : c <> 45 /\ c <> 43) by lia. cbn [split_sign].
    repeat (match goal with |- context [match ?p with _ => _ end] => destruct p end; try reflexivity); lia. }
  destruct (rev (if BIG_SIGN b then [45] else []) ++ rev l) as [|c cs] eqn:R.
  - apply app_eq_nil in R as [_ R]. apply (f_equal (@length Z)) in R. rewrite length_rev in R. destruct l; [congruence|discriminate].
  - pose proof (chars_to_integer_spec c cs 10 ltac:(lia)) as HS. rewrite Sp in HS. rewrite HS; clear HS.
    + destruct D as [_ ->]. cbn [numeral_result]. rewrite Cd. reflexivity.
    + unfold chars_fit. rewrite length_rev. pose proof (decimal_length l _ D Hne Hl) as L.
      destruct W as (Hx & Nx & _). pose proof (val_bound _ Hx) as B. fold (BIG_SIZE b) in B.
      destruct l as [|c0 l0]; [congruence|]. cbn [length] in *.
      assert (P : 10 ^ Z.of_nat (S (length l0)) < 2 ^ (4 + 64 * Z.of_nat (BIG_SIZE b))).
      { rewrite Z.pow_add_r, Z.pow_mul_r by lia. change (2^64) with β.
        replace (Z.of_nat (S (length l0))) with (Z.succ (Z.of_nat (S (length l0)) - 1)) by lia. rewrite Z.pow_succ_r by lia. lia. }
      apply Z.log2_lt_pow2 in P; [lia|]. apply Z.pow_pos_nonneg; lia.
Qed.
