(* ===== verification/IntegerProps.v ===== *)
(** The properties of the integer arithmetic, each with a concrete instance. *)

From S2P Require Import Prelude Digits DigitDiv BigNat BigMul BigDiv DoubleDigit LongDiv LongDivSpec BigBits BigShift BigNum ErlArith BigConv BigText.

(** ** Concrete operands for the witnesses *)
Definition ex_big : bignum := MkBig true [5; 7; 9].
Definition ex_big2 : bignum := MkBig false [β - 1; β - 1].

Lemma canonical_intro s r : forallb (fun d => (0 <=? d) && (d <? β)) r = true -> last r 0 <> 0 -> (2 <= length r)%nat ->
  Z.of_nat (length r) <= BIG_ARITY_MAX -> canonical (MkBig s r).
Proof.
  intros D L N A. assert (Hd : digits r).
  { apply Forall_forall. intros d Hd. rewrite forallb_forall in D. specialize (D d Hd).
    rewrite andb_true_iff, Z.leb_le, Z.ltb_lt in D. exact D. }
  assert (Hn : normal r) by (split; [intros ->; cbn in N; lia|now right]).
  pose proof (normal_ge_β r Hd Hn N). unfold canonical, wf_big, bval, BIG_SIZE. cbn [BIG_SIGN BIG_V]. splits; auto; [lia|].
  apply small_range_false. unfold sv. destruct s; lia.
Qed.
Ltac concrete_big :=
  apply canonical_intro; [reflexivity|cbn; lia|cbn; lia|unfold BIG_ARITY_MAX; cbn; lia].
Lemma ex_big_term : int_term (make_big ex_big) (bval ex_big).
Proof. split; [|reflexivity]. concrete_big. Qed.
Lemma ex_big2_term : int_term (make_big ex_big2) (bval ex_big2).
Proof. split; [|reflexivity]. concrete_big. Qed.
Lemma small_term i : IS_SSMALL i = true -> int_term (make_small i) i.
Proof. cbn. auto. Qed.

(** C1. Addition, subtraction, unary minus and plus return the term of the mathematical result,
    or system_limit when it has too many digits, for every pair of integer terms. *)
Theorem plus_minus_correct t1 t2 z1 z2 : int_term t1 z1 -> int_term t2 z2 ->
  splus_2 t1 t2 = int_result (z1 + z2) /\ sminus_2 t1 t2 = int_result (z1 - z2) /\
  sminus_1 t1 = int_result (- z1) /\ splus_1 t1 = int_result z1.
Proof.
  intros H1 H2. splits.
  - now apply mixed_plus_spec.
  - now apply mixed_minus_spec.
  - exact (mixed_minus_spec (make_small 0) t1 0 z1 (conj eq_refl eq_refl) H1).
  - rewrite (int_result_term t1 z1 H1). now destruct t1.
Qed.
Lemma plus_minus_witness :
  splus_2 (make_big ex_big) (make_big ex_big2) = int_result (bval ex_big + bval ex_big2) /\
  sminus_1 (make_small (-2^59)) = Ret (make_big (MkBig false [2^59])).
Proof.
  split.
  - apply (plus_minus_correct _ _ _ _ ex_big_term ex_big2_term).
  - destruct (plus_minus_correct (make_small (-2^59)) (make_small 0) (-2^59) 0) as (_ & _ & E & _); [split; reflexivity..|exact E].
Defined.

(** C2. For integers of any size and sign multiplication returns the one canonical term of the
    product, or system_limit when it has more digits than a bignum can have, whichever of the small,
    digit, squaring (both arguments are the same term) and schoolbook paths is taken and whatever
    the heap block for the result, of at least as many words as both operands have digits, held
    before. *)
Theorem times_correct same junk t1 t2 z1 z2 : int_term t1 z1 -> int_term t2 z2 ->
  (same = true -> t1 = t2) -> (BIG_SIZE (big_of t1) + BIG_SIZE (big_of t2) <= length junk)%nat ->
  stimes_2 same junk t1 t2 = int_result (z1 * z2).
Proof. apply mixed_times_spec. Qed.
Lemma times_witness :
  stimes_2 true (repeat 77 6) (make_big ex_big) (make_big ex_big) = int_result (bval ex_big * bval ex_big) /\
  stimes_2 false (repeat 77 6) (make_big ex_big) (make_small 2) = int_result (bval ex_big * 2).
Proof.
  split; apply times_correct; try exact ex_big_term; try (split; reflexivity); try reflexivity; try discriminate; cbn; lia.
Defined.

(** C3. div and rem terminate and return the truncated quotient and remainder, and badarith
    exactly for a zero divisor. *)
Theorem div_rem_correct t1 t2 z1 z2 : int_term t1 z1 -> int_term t2 z2 ->
  intdiv_2 t1 t2 = Some (if z2 =? 0 then Fail BADARITH else int_result (Z.quot z1 z2)) /\
  rem_2 t1 t2 = Some (if z2 =? 0 then Fail BADARITH else int_result (Z.rem z1 z2)).
Proof. intros H1 H2. split; [now apply intdiv_spec|now apply rem_spec]. Qed.
Lemma div_rem_witness :
  intdiv_2 (make_big ex_big) (make_big ex_big2) = Some (Ret (make_small (-9))) /\
  rem_2 (make_big ex_big) (make_small 0) = Some (Fail BADARITH).
Proof.
  split.
  - rewrite (proj1 (div_rem_correct _ _ _ _ ex_big_term ex_big2_term)). vm_compute. reflexivity.
  - exact (proj2 (div_rem_correct _ _ _ _ ex_big_term (small_term 0 eq_refl))).
Defined.

(** C5. bsr and bsl return the arithmetic shift of the integer for every shift count, except
    that 0 bsl a positive bignum is refused with system_limit. *)
Theorem shift_correct t1 t2 z1 z2 : int_term t1 z1 -> int_term t2 z2 ->
  bsr_2 t1 t2 = int_result (Z.shiftr z1 z2) /\
  bsl_2 t1 t2 = if (z1 =? 0) && (MAX_SMALL <? z2) then Fail SYSTEM_LIMIT else int_result (Z.shiftl z1 z2).
Proof.
  intros H1 H2. split; [now apply bsr_spec|].
  destruct (Z.eqb_spec z1 0) as [->|N]; cbn [andb]; [|apply bsl_spec; auto].
  destruct (Z.ltb_spec MAX_SMALL z2) as [G|G]; [|apply bsl_spec; auto].
  destruct t2 as [i|b|]; [| |now destruct H2].
  - destruct H2 as [<- R]. apply small_range in R. destruct small_bits_val as [E _]. rewrite E in G. lia.
  - assert (t1 = make_small 0) as ->.
    { destruct t1 as [i|b1|]; [destruct H1 as [-> _]; reflexivity| |now destruct H1].
      pose proof (canonical_not_small _ _ H1). lia. }
    destruct small_bits_val as [E _]. rewrite E in G. apply (bsl_zero_big b z2 H2). lia.
Qed.
Lemma shift_witness :
  bsr_2 (make_big ex_big) (make_small 130) = Ret (make_small (-3)) /\
  bsl_2 (make_small 0) (make_big ex_big2) = Fail SYSTEM_LIMIT /\
  bsl_2 (make_small (-1)) (make_small 64) = Ret (make_big (MkBig true [0; 1])).
Proof.
  splits.
  - rewrite (proj1 (shift_correct _ _ _ _ ex_big_term (small_term 130 eq_refl))). vm_compute. reflexivity.
  - rewrite (proj2 (shift_correct _ _ _ _ (small_term 0 eq_refl) ex_big2_term)). reflexivity.
  - rewrite (proj2 (shift_correct _ _ _ _ (small_term (-1) eq_refl) (small_term 64 eq_refl))). vm_compute. reflexivity.
Defined.

(** The number of 64-bit digits of an integer. *)
Definition digit_count (z : Z) : Z := Z.log2 (Z.abs z) / 64 + 1.
(** The borrow that is lost at the digits of the longer operand above those of
    the shorter one: it is pending there when the low digits are all zero. *)
Definition low_borrow (long short : Z) : Z :=
  let w := 2 ^ (64 * digit_count short) in if long mod w =? 0 then w else 0.

Lemma digit_count_term t z : int_term t z -> Z.of_nat (BIG_SIZE (big_of t)) = digit_count z.
Proof.
  intros H. destruct (big_of_spec t z H) as (W & V & _). unfold digit_count.
  destruct (Z.eq_dec z 0) as [->|N].
  - destruct t as [i|b|]; [destruct H as [-> _]; reflexivity| |now destruct H].
    pose proof (canonical_not_small _ _ H). lia.
  - rewrite <- V. apply big_val_log; auto. rewrite (big_val_abs _ z) by auto. lia.
Qed.
Lemma low_digits_mod n x : digits x -> (n <= length x)%nat -> val (firstn n x) = val x mod β ^ Z.of_nat n.
Proof.
  intros D L. pose proof (val_split n x L) as E. pose proof (val_bound _ (digits_firstn n x D)) as B.
  rewrite length_firstn, Nat.min_l in B by auto. apply (Z.mod_unique_pos _ _ (val (skipn n x))); lia.
Qed.
Lemma lost_borrow_low x y : wf_big x -> wf_big y -> (BIG_SIZE y <= BIG_SIZE x)%nat ->
  Z.of_nat (BIG_SIZE y) = digit_count (bval y) -> lost_borrow x y = low_borrow (bval x) (bval y).
Proof.
  intros (D & _ & _) _ L E. unfold lost_borrow, low_borrow, pending. rewrite low_digits_mod, <- E by auto.
  change β with (2^64). rewrite <- Z.pow_mul_r by lia. set (w := 2 ^ _). assert (0 < w) by (apply Z.pow_pos_nonneg; lia).
  pose proof (Z.mod_pos_bound (val (BIG_V x)) w ltac:(lia)).
  assert (Em : (bval x mod w =? 0) = (val (BIG_V x) mod w =? 0)).
  { unfold bval, sv. destruct (BIG_SIGN x); auto. zbool; auto; exfalso.
    - rewrite Z.mod_opp_l_nz in * by lia. lia.
    - rewrite Z.mod_opp_l_z in * by lia. lia. }
  rewrite Em. unfold b2z. zbool; lia.
Qed.

(** C6. For integers of any size and sign bor and bnot return the two's complement result. So do
    band and bxor, except in one case, in which the result is determined too: the longer operand
    (the first one, of the same number of digits) is negative, and a multiple of 2^(64 n), where n
    is the number of 64-bit digits of the shorter one. Then the borrow of x - 1 is lost: band of two
    negative integers is 2^(64 n) too small, and bxor is off by 2^(64 n), upwards when the shorter
    operand is negative and downwards otherwise. A result with more digits than a bignum can have is
    NIL, for bnot system_limit. *)
Theorem bitwise_correct t1 t2 z1 z2 : int_term t1 z1 -> int_term t2 z2 ->
  let '(long, short) := if digit_count z2 <=? digit_count z1 then (z1, z2) else (z2, z1) in
  let borrow := low_borrow long short in
  band_2 t1 t2 = Ret (mk_integer (Z.land z1 z2 - (if (long <? 0) && (short <? 0) then borrow else 0))) /\
  bxor_2 t1 t2 = Ret (mk_integer (Z.lxor z1 z2 + (if long <? 0 then if short <? 0 then borrow else - borrow else 0))) /\
  bor_2 t1 t2 = Ret (mk_integer (Z.lor z1 z2)) /\
  bnot_1 t1 = int_result (Z.lnot z1).
Proof.
  intros H1 H2. rewrite (band_spec t1 t2 z1 z2), (bxor_spec t1 t2 z1 z2), (bor_spec t1 t2 z1 z2), (bnot_spec t1 z1) by auto.
  pose proof (digit_count_term t1 z1 H1) as E1. pose proof (digit_count_term t2 z2 H2) as E2.
  destruct (big_of_spec t1 z1 H1) as (W1 & V1 & _), (big_of_spec t2 z2 H2) as (W2 & V2 & _).
  unfold term_borrow, term_longer, term_shorter, longer, shorter. rewrite <- E1, <- E2.
  destruct (Nat.leb_spec (BIG_SIZE (big_of t2)) (BIG_SIZE (big_of t1))) as [L|L].
  - rewrite (proj2 (Z.leb_le _ _)) by lia. rewrite lost_borrow_low, V1, V2 by (auto; congruence).
    splits; auto. do 3 f_equal. destruct (z1 <? 0), (z2 <? 0); lia.
  - rewrite (proj2 (Z.leb_gt _ _)) by lia. rewrite lost_borrow_low, V1, V2 by (auto; try lia; congruence).
    splits; auto; do 3 f_equal; destruct (z1 <? 0), (z2 <? 0); cbn [andb]; lia.
Qed.
Lemma bitwise_witness :
  band_2 (make_big ex_big) (make_big ex_big2) = Ret (mk_integer (Z.land (bval ex_big) (bval ex_big2))) /\
  bxor_2 (make_big ex_big) (make_big ex_big2) = Ret (mk_integer (Z.lxor (bval ex_big) (bval ex_big2))) /\
  bor_2 (make_big ex_big) (make_big ex_big2) = Ret (mk_integer (Z.lor (bval ex_big) (bval ex_big2))) /\
  bnot_1 (make_big ex_big) = int_result (Z.lnot (bval ex_big)).
Proof.
  destruct (bitwise_correct _ _ _ _ ex_big_term ex_big2_term) as (E1 & E2 & E3 & E4).
  splits; [rewrite E1|rewrite E2|exact E3|exact E4]; vm_compute; reflexivity.
Defined.

(** The operands of the wrong answer: - 2^128 and - 2^64. *)
Definition neg_2pow128 : bignum := MkBig true [0; 0; 1].
Definition neg_2pow64 : bignum := MkBig true [0; 1].
Theorem band_loses_borrow :
  int_term (make_big neg_2pow128) (- 2^128) /\ int_term (make_big neg_2pow64) (- 2^64) /\
  Z.land (- 2^128) (- 2^64) = - 2^128 /\
  band_2 (make_big neg_2pow128) (make_big neg_2pow64) = Ret (mk_integer (- 2^128 - 2^128)) /\
  Z.lxor (- 2^128) (- 2^64) = 2^128 - 2^64 /\
  bxor_2 (make_big neg_2pow128) (make_big neg_2pow64) = Ret (mk_integer (2^128 - 2^64 + 2^128)).
Proof.
  splits; try (split; [concrete_big|reflexivity]); try reflexivity; vm_compute; reflexivity.
Qed.

(** An integer has one representation only, so that terms can be compared word by word. *)
Theorem canonical_unique t1 t2 z : int_term t1 z -> int_term t2 z -> t1 = t2.
Proof. intros H1 H2. rewrite <- (int_term_mk t1 z H1). now apply int_term_mk. Qed.
Lemma canonical_unique_witness : mk_integer (bval ex_big) = make_big ex_big.
Proof.
  apply (canonical_unique _ _ (bval ex_big)); [|exact ex_big_term].
  rewrite (int_term_mk _ _ ex_big_term). exact ex_big_term.
Defined.

(** Every arithmetic result is a canonical term of its value (a small when it fits, otherwise a
    bignum without leading zero digits of at most BIG_ARITY_MAX digits), and system_limit is raised
    only past that size. *)
Theorem result_canonical z :
  match int_result z with
  | Ret t => int_term t z
  | Fail r => r = SYSTEM_LIMIT /\ 64 * BIG_ARITY_MAX <= Z.log2 (Z.abs z)
  end.
Proof.
  unfold int_result. pose proof (mk_integer_cases z) as C. destruct (mk_integer z); cbn [ret_big].
  - cbn. tauto.
  - exact C.
  - split; auto. destruct C as [R C]. apply small_range_false in R. rewrite mk_integer_digits in C by lia. lia.
Qed.

(** big_comp is the order of the integers, big_ucomp the order of their magnitudes. *)
Theorem compare_correct x y : wf_big x -> wf_big y ->
  big_comp x y = cmpz (bval x) (bval y) /\ big_ucomp x y = cmpz (Z.abs (bval x)) (Z.abs (bval y)).
Proof. intros Hx Hy. split; [now apply big_comp_cmp|now apply big_ucomp_cmp]. Qed.
Lemma compare_witness : big_comp ex_big ex_big2 = -1 /\ big_ucomp ex_big ex_big2 = 1.
Proof. apply (compare_correct ex_big ex_big2); [apply ex_big_term|apply ex_big2_term]. Defined.

(** C4. The long division loop terminates within its fuel and returns the exact quotient and a
    remainder below the divisor, both without leading zero digits; I_div and I_rem agree. *)
Theorem long_division_correct x y :
  digits x -> digits y -> normal x -> normal y -> (2 <= length y)%nat -> val y <= val x ->
  exists q r, I_div x y = Some (q, r) /\ I_rem x y = Some r /\
    val x = val y * val q + val r /\ 0 <= val r < val y /\ digits q /\ normal q /\ digits r /\ normal r.
Proof.
  intros Hx Hy Nx Ny Hl Hc. destruct (I_div_spec x y Hx Hy Nx Ny Hl Hc) as (q & r & E & D1 & N1 & D2 & N2 & V1 & V2).
  exists q, r. rewrite I_rem_div, E. pose proof (normal_ge_β y Hy Ny Hl). 
  pose proof (Z.div_mod (val x) (val y) ltac:(lia)). pose proof (Z.mod_pos_bound (val x) (val y) ltac:(lia)).
  rewrite V1, V2. splits; auto; lia.
Qed.
Lemma long_division_witness :
  exists q r, I_div [3; 0; 0; 9] [7; 0; 2] = Some (q, r) /\ I_rem [3; 0; 0; 9] [7; 0; 2] = Some r /\
    val [3; 0; 0; 9] = val [7; 0; 2] * val q + val r /\ 0 <= val r < val [7; 0; 2] /\
    digits q /\ normal q /\ digits r /\ normal r.
Proof.
  apply long_division_correct; try (apply canonical_intro with (s := false); [reflexivity|cbn; lia|cbn; lia|unfold BIG_ARITY_MAX; cbn; lia]);
    try (split; [discriminate|right; cbn; lia]); [cbn; lia|vm_compute; discriminate].
Defined.

(** The division of a two-digit number by a digit, in 64-bit words with wrap-around, is exact. *)
Theorem DDIVREM_correct a1 a0 b : 0 <= a1 < b -> is_digit a0 -> b < β ->
  DDIVREM a1 a0 b = ((a1 * β + a0) / b, (a1 * β + a0) mod b).
Proof. intros. apply DDIVREM_spec; lia. Qed.
Lemma DDIVREM_witness : DDIVREM 6 5 7 = ((6 * β + 5) / 7, (6 * β + 5) mod 7).
Proof. apply (DDIVREM_correct 6 5 7); lia. Defined.

(** The signed estimate loop of the two-digit division terminates; the remainder it leaves is at
    most the divisor, and can equal it. *)
Theorem D2DIVREM_bounds a1 a0 b1 b0 : is_digit a1 -> is_digit a0 -> 0 < b1 <= a1 -> is_digit b0 ->
  d2v b1 b0 <= d2v a1 a0 ->
  exists q r1 r0, D2DIVREM a1 a0 b1 b0 = Some (q, r1, r0) /\
    d2v a1 a0 = q * d2v b1 b0 + d2v r1 r0 /\ 0 <= d2v r1 r0 <= d2v b1 b0 /\ is_digit q.
Proof.
  intros. destruct (D2DIVREM_spec a1 a0 b1 b0) as (q & r1 & r0 & S); try lia; auto. exists q, r1, r0. intuition lia.
Qed.
(** The bound on the remainder is reached: 3 * (2, β - 1) by (2, β - 1). *)
Lemma D2DIVREM_witness :
  (exists q r1 r0, D2DIVREM 8 (β - 3) 2 (β - 1) = Some (q, r1, r0) /\
    d2v 8 (β - 3) = q * d2v 2 (β - 1) + d2v r1 r0 /\ 0 <= d2v r1 r0 <= d2v 2 (β - 1) /\ is_digit q) /\
  D2DIVREM 8 (β - 3) 2 (β - 1) = Some (2, 2, β - 1).
Proof. split; [apply D2DIVREM_bounds; unfold d2v; lia|vm_compute; reflexivity]. Defined.

(** The schoolbook product and the squaring routine compute the mathematical product into a
    result vector that is zeroed only in part. *)
Theorem products_agree x y r : digits x -> digits y -> normal x -> normal y -> val x <> 0 -> val y <> 0 ->
  firstn (length y) r = repeat 0 (length y) -> (length x + length y <= length r)%nat ->
  val (I_mul x y r) = val x * val y /\ normal (I_mul x y r) /\
  (firstn (S (length x)) r = repeat 0 (S (length x)) -> (2 * length x <= length r)%nat ->
   val (I_sqr x r) = val x * val x /\ normal (I_sqr x r)).
Proof.
  intros. destruct (I_mul_spec x y r) as (V & _ & N); auto. splits; auto.
  intros. destruct (I_sqr_spec x r) as (V' & _ & N'); auto.
Qed.
Lemma products_witness :
  val (I_mul [β - 1; 2; 3] [β - 1; 1] (repeat 0 4 ++ [9; 9; 9])) = val [β - 1; 2; 3] * val [β - 1; 1] /\
  val (I_sqr [β - 1; 2; 3] (repeat 0 4 ++ [9; 9; 9])) = val [β - 1; 2; 3] * val [β - 1; 2; 3].
Proof.
  destruct (products_agree [β - 1; 2; 3] [β - 1; 1] (repeat 0 4 ++ [9; 9; 9])) as (E & _ & S).
  1, 2: repeat (apply digits_cons; split; [lia|]); apply digits_nil.
  1, 2: split; [discriminate|right; cbn; lia].
  1, 2: vm_compute; discriminate.
  1: reflexivity.
  1: cbn; lia.
  split; [exact E|]. apply S; [reflexivity|cbn; lia].
Defined.

(** The conversions to 64-bit words succeed exactly on the integers in range and report the
    right reason otherwise. *)
Theorem machine_words_correct t z : int_term t z ->
  term_to_Uint t = (if z <? 0 then inr CONV_BADARG else if z <? β then inl z else inr CONV_SYSTEM_LIMIT) /\
  term_to_Sint t = (if (- 2^63 <=? z) && (z <? 2^63) then Some z else None) /\
  term_equals_2pow32 t = (z =? 2^32).
Proof.
  intros H. splits; [now apply term_to_Uint_spec|now apply term_to_Sint_spec|now apply term_equals_2pow32_spec].
Qed.
Lemma machine_words_witness :
  term_to_Sint (make_big (MkBig true [2^63])) = Some (- 2^63) /\ term_to_Sint (make_big (MkBig false [2^63])) = None /\
  term_to_Uint (make_big (MkBig false [2^63])) = inl (2^63).
Proof.
  assert (H : forall s, int_term (make_big (MkBig s [2^63])) (bval (MkBig s [2^63]))).
  { intros s. split; [|reflexivity]. unfold canonical. splits; [|now destruct s|unfold BIG_ARITY_MAX; cbn; lia].
    apply wf_digit; lia. }
  splits; [apply (machine_words_correct _ _ (H true))|apply (machine_words_correct _ _ (H false))..].
Defined.

(** Loading the bytes a bignum was stored in gives the bignum back; big_bytes is their number. *)
Theorem bytes_roundtrip_correct b : canonical b ->
  bytes_to_big (big_to_bytes b) (BIG_SIGN b) = make_big b /\ big_bytes b = Z.of_nat (length (big_to_bytes b)) /\
  bytesv (big_to_bytes b) = Z.abs (bval b).
Proof.
  intros C. splits; [now apply bytes_roundtrip|now apply big_bytes_spec|].
  destruct C as (W & _). rewrite <- (big_val_abs b _ W eq_refl). destruct W as (Hx & [Hne _] & _).
  now destruct (digits_to_bytes_spec _ Hx Hne) as (_ & V & _).
Qed.
Lemma bytes_roundtrip_witness :
  bytes_to_big (big_to_bytes ex_big) true = make_big ex_big /\ big_bytes ex_big = 17.
Proof. destruct (bytes_roundtrip_correct ex_big) as (E1 & E2 & _); [apply ex_big_term|]. split; [exact E1|exact E2]. Defined.

(** C7. For every base from 2 to 36 erts_chars_to_integer returns the number that the text
    denotes, the sum of the values of its digits (0-9, a-z, A-Z below the base) times powers of the
    base with its sign, or the error value when a character is not a digit, provided a number of
    that many digits is sure to fit into a bignum (chars_fit; beyond it intermediate results become
    NIL). There are two exceptions, in which the result is given too: a sign alone is 0, and above
    base 10 the stray characters between 9 and A that lie below 0 + base are read as the digit seven
    places before them. *)
Theorem chars_to_integer_correct c cs base neg ds : 2 <= base <= 36 ->
  split_sign (c :: cs) = (neg, ds) -> chars_fit base ds ->
  (ds <> [] -> Forall (fun c => stray_digit base c = false) ds ->
   erts_chars_to_integer (c :: cs) base = numeral_result neg (number base ds)) /\
  (ds = [] -> erts_chars_to_integer (c :: cs) base = Integer (make_small 0)) /\
  erts_chars_to_integer (c :: cs) base = numeral_result neg (number base (map (read_as base) ds)).
Proof.
  intros Hb Hs Hf. pose proof (chars_to_integer_spec c cs base Hb) as S. rewrite Hs in S. specialize (S Hf).
  rewrite numeral_number in S. splits; [|intros ->; rewrite S; now destruct neg|exact S].
  intros _ F. now rewrite read_as_id in S.
Qed.
Lemma chars_to_integer_witness :
  erts_chars_to_integer [45; 122; 90; 48] 36 = Integer (make_small (- (35 * 36 * 36 + 35 * 36))) /\
  erts_chars_to_integer [50; 120] 16 = NonValue /\ erts_chars_to_integer [50; 58] 16 = Integer (make_small 35).
Proof.
  splits.
  - destruct (chars_to_integer_correct 45 [122; 90; 48] 36 true [122; 90; 48]) as (E & _); [lia|reflexivity|reflexivity|].
    rewrite E; [reflexivity|discriminate|repeat constructor].
  - destruct (chars_to_integer_correct 50 [120] 16 false [50; 120]) as (E & _); [lia|reflexivity|reflexivity|].
    rewrite E; [reflexivity|discriminate|repeat constructor].
  - destruct (chars_to_integer_correct 50 [58] 16 false [50; 58]) as (_ & _ & E); [lia|reflexivity|reflexivity|].
    rewrite E. reflexivity.
Defined.

(** Parsing the decimal string of a bignum gives the bignum back. *)
Theorem text_roundtrip_correct b : canonical b -> Z.of_nat (BIG_SIZE b) < BIG_ARITY_MAX ->
  erts_chars_to_integer (erts_big_to_string b) 10 = Integer (make_big b).
Proof. apply text_roundtrip. Qed.
Lemma text_roundtrip_witness :
  erts_chars_to_integer (erts_big_to_string ex_big) 10 = Integer (make_big ex_big).
Proof. apply text_roundtrip_correct; [apply ex_big_term|reflexivity]. Defined.

(** The accepted characters differ from the digits of the base exactly on the
    stray ones; a lone sign is read as 0. *)
(** Above base 10 some characters between 9 and A are accepted as digits, and a lone sign is
    read as 0. *)
Theorem stray_digits base : 10 < base <= 36 ->
  (forall c, code_digit base c <> digit_value base c <-> stray_digit base c = true) /\
  erts_chars_to_integer [58] base = Integer (make_small 3) /\ digit_value base 58 = None /\
  erts_chars_to_integer [45] base = Integer (make_small 0).
Proof.
  intros Hb. assert (Hd : digit_value base 58 = None).
  { unfold digit_value. cbn. destruct (Z.ltb_spec base base); [lia|reflexivity]. }
  splits; auto.
  - intros c. unfold code_digit. destruct (stray_digit base c) eqn:E; [|split; congruence].
    split; auto. intros _. unfold stray_digit in E. rewrite !andb_true_iff, Z.ltb_lt, !Z.leb_le in E.
    unfold digit_value.
    destruct (Z.leb_spec 48 c), (Z.leb_spec c 57), (Z.leb_spec 97 c), (Z.leb_spec c 122), (Z.leb_spec 65 c), (Z.leb_spec c 90);
      try lia; cbn; destruct (Z.ltb_spec base base); try lia; discriminate.
  - pose proof (chars_to_integer_spec 58 [] base ltac:(lia)) as S. cbn [split_sign] in S. rewrite S.
    + cbn [numeral]. assert (code_digit base 58 = Some 3) as ->; [|reflexivity].
      unfold code_digit, stray_digit. cbn. destruct (Z.ltb_spec 10 base); [|lia]. destruct (Z.leb_spec 58 (47 + base)); [|lia]. reflexivity.
    + unfold chars_fit. cbn [length]. destruct arity_facts as (A & _). rewrite Z.pow_1_r.
      assert (Z.log2 base < 6) by (apply Z.log2_lt_pow2; lia). unfold BIG_ARITY_MAX. lia.
  - pose proof (chars_to_integer_spec 45 [] base ltac:(lia)) as S. cbn [split_sign] in S. rewrite S; [reflexivity|].
    unfold chars_fit. change (Z.of_nat (length [])) with 0. rewrite Z.pow_0_r. cbn. unfold BIG_ARITY_MAX. lia.
Qed.
Lemma stray_digits_witness : erts_chars_to_integer [58] 16 = Integer (make_small 3) /\ digit_value 16 58 = None.
Proof. destruct (stray_digits 16) as (_ & E1 & E2 & _); [lia|]. split; [exact E1|exact E2]. Defined.

(** ** A bitwise result one digit too long

    With the two operands of the largest size, [band] can need one more digit;
    the result is then [NIL], and the caller does not look for it. *)
Definition ones_term (n : nat) (d : Z) : bignum := MkBig true (d :: repeat (β - 1) n).

Lemma val_ones n : val (repeat (β - 1) n) = β ^ Z.of_nat n - 1.
Proof.
  induction n as [|n IH]; [reflexivity|]. cbn [repeat val]. rewrite IH, pow_S. lia.
Qed.
Lemma digits_ones n : digits (repeat (β - 1) n).
Proof. induction n; cbn; [apply digits_nil|apply digits_cons; split; [lia|auto]]. Qed.
Lemma ones_canonical n d : (1 <= n)%nat -> 1 <= d < β -> Z.of_nat (S n) <= BIG_ARITY_MAX ->
  canonical (ones_term n d) /\ bval (ones_term n d) = - (β ^ Z.of_nat (S n) - β + d).
Proof.
  intros Hn Hd Ha. assert (D : digits (d :: repeat (β - 1) n)) by (apply digits_cons; split; [lia|apply digits_ones]).
  assert (V : val (d :: repeat (β - 1) n) = β ^ Z.of_nat (S n) - β + d) by (cbn [val]; rewrite val_ones, pow_S; lia).
  assert (P : β <= β ^ Z.of_nat n) by (rewrite <- (Z.pow_1_r β) at 1; apply Z.pow_le_mono_r; lia).
  assert (N : normal (d :: repeat (β - 1) n)).
  { apply normal_of_low; auto; [discriminate|]. rewrite V, pow_S. cbn [length]. rewrite repeat_length.
    replace (Z.of_nat (S n) - 1) with (Z.of_nat n) by lia. lia. }
  assert (B : bval (ones_term n d) = - (β ^ Z.of_nat (S n) - β + d)) by (unfold bval; cbn [BIG_SIGN BIG_V ones_term sv]; lia).
  split; auto. unfold canonical. rewrite B. rewrite pow_S in *. splits.
  - unfold wf_big. cbn [ones_term BIG_V BIG_SIGN]. splits; auto. intros _. lia.
  - apply small_range_false. lia.
  - unfold BIG_SIZE. cbn [ones_term BIG_V length]. now rewrite repeat_length.
Qed.

Lemma land_ones_pair k : 2 <= k -> Z.land (- (2^k - 1)) (- (2^k - 2)) = - 2^k.
Proof.
  intros Hk. replace (- (2^k - 1)) with (Z.lnot (2^k - 2)) by (unfold Z.lnot; lia).
  replace (- (2^k - 2)) with (Z.lnot (2^k - 3)) by (unfold Z.lnot; lia).
  rewrite <- Z.lnot_lor. assert (E : 2^k = 2^2 * 2^(k-2)) by (rewrite <- Z.pow_add_r by lia; f_equal; lia).
  set (u := 2^(k-2)) in *. replace (2^k - 2) with (2 + 2^2 * (u - 1)) by lia. replace (2^k - 3) with (1 + 2^2 * (u - 1)) by lia.
  rewrite (bitop_join Z.lor orb) by lia. rewrite Z.lor_diag. unfold Z.lnot. cbn. lia.
Qed.

Lemma band_too_long n : (1 <= n)%nat -> Z.of_nat (S n) = BIG_ARITY_MAX ->
  band_2 (make_big (ones_term n (β - 1))) (make_big (ones_term n (β - 2))) = Ret NIL.
Proof.
  intros Hn Ha. destruct (ones_canonical n (β - 1)) as [C1 B1]; [lia|lia|lia|].
  destruct (ones_canonical n (β - 2)) as [C2 B2]; [lia|lia|lia|].
  assert (T1 : int_term (make_big (ones_term n (β - 1))) (bval (ones_term n (β - 1)))) by (split; auto).
  assert (T2 : int_term (make_big (ones_term n (β - 2))) (bval (ones_term n (β - 2)))) by (split; auto).
  rewrite (band_spec _ _ _ _ T1 T2). clear T1 T2.
  assert (L : term_borrow (make_big (ones_term n (β - 1))) (make_big (ones_term n (β - 2))) = 0).
  { assert (Sz : forall d, BIG_SIZE (ones_term n d) = S n) by (intros; unfold BIG_SIZE; cbn [ones_term BIG_V length]; now rewrite repeat_length).
    unfold term_borrow, longer, shorter. cbn [big_of]. rewrite !Sz, Nat.leb_refl. destruct C1 as (W1 & N1 & _). apply lost_borrow_same; auto.
    apply small_range_false in N1. rewrite (big_val_abs _ _ W1 eq_refl). lia. }
  rewrite L. clear L. assert (E : (if (bval (ones_term n (β - 1)) <? 0) && (bval (ones_term n (β - 2)) <? 0) then 0 else 0) = 0) by (destruct (_ && _); auto).
  rewrite E, Z.sub_0_r, B1, B2. clear E. f_equal.
  set (k := 64 * Z.of_nat (S n)). assert (Ek : β ^ Z.of_nat (S n) = 2 ^ k) by (subst k; change β with (2^64); rewrite <- Z.pow_mul_r by lia; reflexivity).
  rewrite Ek. replace (- (2^k - β + (β - 1))) with (- (2^k - 1)) by lia. replace (- (2^k - β + (β - 2))) with (- (2^k - 2)) by lia.
  assert (Hk : 64 * BIG_ARITY_MAX <= k) by (subst k; rewrite <- Ha; lia).
  assert (Hk2 : 2 <= k) by (subst k; lia). clearbody k. rewrite land_ones_pair by auto.
  pose proof (mk_integer_too_big (- 2^k) k Hk) as T. assert (0 < 2^k) by (apply Z.pow_pos_nonneg; lia).
  specialize (T ltac:(lia)). unfold int_result in T. destruct (mk_integer (- 2^k)); [discriminate T..|reflexivity].
Qed.

(** band of two bignums of the largest size can return NIL, the empty list, since its caller
    does not look for the overflow of the arity. *)
Theorem band_returns_nil : exists b1 b2, canonical b1 /\ canonical b2 /\
  band_2 (make_big b1) (make_big b2) = Ret NIL.
Proof.
  assert (E : exists n, (1 <= n)%nat /\ Z.of_nat (S n) = BIG_ARITY_MAX).
  { exists (Z.to_nat (BIG_ARITY_MAX - 1)). unfold BIG_ARITY_MAX. lia. }
  destruct E as (n & Hn & Ha). exists (ones_term n (β - 1)), (ones_term n (β - 2)).
  splits; [apply ones_canonical; lia|apply ones_canonical; lia|now apply band_too_long].
Qed.
