(* ===== verification/TimerWheel.v ===== *)
(** The timer wheel of time.c: the cells as a heap of records addressed by pointers, the slots,
    the expiry loop with its queue of expired timers, the search for the next timeout, and the
    delivery of ticks. *)

From S2P Require Import Prelude.
From stdpp Require Import base option gmap fin_maps fin_map_dom list sorting.
Local Open Scope Z_scope.

(** Slots of the wheel. *)
Definition TIW_SIZE : Z := 65536.
(** An address of a timer; [None] of [option ptr] is NULL. *)
Definition ptr : Type := positive.

(** A timer cell. The callbacks and their argument are opaque values. *)
Record ErlTimer := mkTimer {
  next : option ptr; prev : option ptr; slot : Z; count : Z; active : bool;
  timeout : Z; cancel : option Z; arg : Z }.
(** The state protected by the wheel lock: the memory of the timers, the slots, the current
    slot, the number of timers, the cached minimum, and the ticks not yet processed. *)
Record wheel := mkWheel {
  heap : gmap ptr ErlTimer; tiw : gmap Z ptr; tiw_pos : Z; tiw_nto : Z;
  tiw_min : Z; tiw_min_ptr : option ptr; do_time : Z }.

(** Field assignments. *)
Definition set_next (n : option ptr) (t : ErlTimer) : ErlTimer :=
  mkTimer n (prev t) (slot t) (count t) (active t) (timeout t) (cancel t) (arg t).
Definition set_prev (n : option ptr) (t : ErlTimer) : ErlTimer :=
  mkTimer (next t) n (slot t) (count t) (active t) (timeout t) (cancel t) (arg t).
Definition set_active (b : bool) (t : ErlTimer) : ErlTimer :=
  mkTimer (next t) (prev t) (slot t) (count t) b (timeout t) (cancel t) (arg t).
Definition set_place (s c : Z) (t : ErlTimer) : ErlTimer :=
  mkTimer (next t) (prev t) s c (active t) (timeout t) (cancel t) (arg t).
Definition set_calls (f : Z) (c : option Z) (a : Z) (t : ErlTimer) : ErlTimer :=
  mkTimer (next t) (prev t) (slot t) (count t) (active t) f c a.

Definition with_heap (h : gmap ptr ErlTimer) (w : wheel) : wheel :=
  mkWheel h (tiw w) (tiw_pos w) (tiw_nto w) (tiw_min w) (tiw_min_ptr w) (do_time w).
Definition with_min (m : Z) (p : option ptr) (w : wheel) : wheel :=
  mkWheel (heap w) (tiw w) (tiw_pos w) (tiw_nto w) m p (do_time w).
Definition with_nto (n : Z) (w : wheel) : wheel :=
  mkWheel (heap w) (tiw w) (tiw_pos w) n (tiw_min w) (tiw_min_ptr w) (do_time w).
Definition with_pos (n : Z) (w : wheel) : wheel :=
  mkWheel (heap w) (tiw w) n (tiw_nto w) (tiw_min w) (tiw_min_ptr w) (do_time w).
Definition with_do_time (n : Z) (w : wheel) : wheel :=
  mkWheel (heap w) (tiw w) (tiw_pos w) (tiw_nto w) (tiw_min w) (tiw_min_ptr w) n.
(** An assignment to tiw[s]; [None] is NULL. *)
Definition set_tiw (s : Z) (p : option ptr) (w : wheel) : wheel :=
  mkWheel (heap w) (partial_alter (fun _ => p) s (tiw w)) (tiw_pos w) (tiw_nto w) (tiw_min w) (tiw_min_ptr w) (do_time w).

(** Access through a pointer; [None] when it does not point to a timer. *)
Definition upd (p : ptr) (f : ErlTimer -> ErlTimer) (w : wheel) : option wheel :=
  t ← heap w !! p; Some (with_heap (<[p := f t]> (heap w)) w).

(** [remove_timer]: unlink a timer. *)
Definition remove_timer (p : ptr) (w : wheel) : option wheel :=
  t ← heap w !! p;
  w ← match prev t with
      | None =>
          let w := set_tiw (slot t) (next t) w in
          match next t with
          | Some n => upd n (set_prev None) w
          | None => Some w
          end
      | Some q => upd q (set_next (next t)) w
      end;
  t ← heap w !! p;
  w ← match next t with
      | None => match prev t with Some q => upd q (set_next None) w | None => Some w end
      | Some n => upd n (set_prev (prev t)) w
      end;
  w ← upd p (fun t => set_active false (set_prev None (set_next None t))) w;
  Some (with_nto (wsub (tiw_nto w) 1) w).

(** Milliseconds per tick. *)
Definition TIW_ITIME : Z := 1.
(** [insert_timer]. *)
Definition insert_timer (p : ptr) (t : Z) (w : wheel) : option wheel :=
  let ticks := wadd (wadd t (TIW_ITIME - 1) / TIW_ITIME) (do_time w) in
  let tm := wadd ticks (tiw_pos w) mod TIW_SIZE in
  let n := tiw w !! tm in
  w ← upd p (fun t => set_prev None (set_next n (set_place tm (ticks / TIW_SIZE) t))) w;
  w ← match n with Some n => upd n (set_prev (Some p)) w | None => Some w end;
  let w := set_tiw tm (Some p) w in
  let w := if (tiw_nto w =? 0) || (bool_decide (tiw_min_ptr w ≠ None) && (ticks <? tiw_min w))
           then with_min ticks (Some p) w else w in
  let w := if bool_decide (tiw_min_ptr w = Some p) && (ticks >? tiw_min w)
           then with_min 0 None w else w in
  Some (with_nto (wadd (tiw_nto w) 1) w).

(** [delivered] is the time erts_deliver_time() adds to do_time. *)
Definition erts_set_timer (p : ptr) (f : Z) (c : option Z) (a : Z) (t delivered : Z) (w : wheel) : option wheel :=
  let w := with_do_time (do_time w + delivered) w in
  tm ← heap w !! p;
  if active tm then Some w
  else
    w ← upd p (fun tm => set_active true (set_calls f c a tm)) w;
    insert_timer p t w.

(** The cancel callback that is called, with its argument. *)
Definition erts_cancel_timer (p : ptr) (w : wheel) : option (wheel * option (Z * Z)) :=
  t ← heap w !! p;
  if active t then
    let w := if bool_decide (tiw_min_ptr w = Some p) then with_min 0 None w else w in
    w ← remove_timer p w;
    w ← upd p (set_place 0 0) w;
    t ← heap w !! p;
    Some (w, (fun c => (c, arg t)) <$> cancel t)
  else Some (w, None).

(** [erts_time_left]. *)
Definition erts_time_left (p : ptr) (w : wheel) : option Z :=
  t ← heap w !! p;
  if active t then
    let left := if slot t <? tiw_pos w
                then w64 ((count t + 1) * TIW_SIZE + slot t - tiw_pos w)
                else w64 (count t * TIW_SIZE + slot t - tiw_pos w) in
    let dt := do_time w in
    let left := if left <? dt then 0 else wsub left dt in
    Some (wmul left TIW_ITIME)
  else Some 0.

(** ** Bumping the wheel *)

(** The pointer to a pointer the loop walks with. *)
Inductive loc := Slot (s : Z) | NextOf (p : ptr).
(** The pointer it points to. *)
Definition read_loc (l : loc) (w : wheel) : option (option ptr) :=
  match l with
  | Slot s => Some (tiw w !! s)
  | NextOf p => next <$> heap w !! p
  end.

(** The queue of expired timers, linked through their next fields. *)
Record queue := mkQueue { timeout_head : option ptr; timeout_tail : option ptr }.
(** Append an expired timer to the queue. *)
Definition enqueue (p : ptr) (q : queue) (w : wheel) : option (wheel * queue) :=
  match timeout_tail q with
  | None => Some (w, mkQueue (Some p) (Some p))
  | Some l => w ← upd l (set_next (Some p)) w; Some (w, mkQueue (timeout_head q) (Some p))
  end.

(** The inner loop over a slot; the fuel is more than the number of timers. *)
Fixpoint bump_slot (fuel : nat) (prv : loc) (cnt : Z) (w : wheel) (q : queue) : option (wheel * queue) :=
  match fuel with
  | O => None
  | S fuel =>
      p ← read_loc prv w;
      match p with
      | None => Some (w, q)
      | Some p =>
          t ← heap w !! p;
          if count t <? cnt then
            let w := if bool_decide (tiw_min_ptr w = Some p) then with_min 0 None w else w in
            w ← remove_timer p w;
            '(w, q) ← enqueue p q w;
            bump_slot fuel prv cnt w q
          else
            w ← upd p (fun t => set_place (slot t) (wsub (count t) cnt) t) w;
            bump_slot fuel (NextOf p) cnt w q
      end
  end.

(** The loop over the slots. *)
Fixpoint bump_loop (dtime : nat) (keep_pos cnt : Z) (w : wheel) (q : queue) : option (wheel * queue) :=
  match dtime with
  | O => Some (w, q)
  | S dtime =>
      let cnt := if tiw_pos w =? keep_pos then wsub cnt 1 else cnt in
      '(w, q) ← bump_slot (S (size (heap w))) (Slot (tiw_pos w)) cnt w q;
      bump_loop dtime keep_pos cnt (with_pos ((tiw_pos w + 1) mod TIW_SIZE) w) q
  end.

(** The callbacks, in the order they are called. *)
Fixpoint call_timeouts (fuel : nat) (head : option ptr) (w : wheel) : option (wheel * list (Z * Z)) :=
  match head with
  | None => Some (w, [])
  | Some p =>
      match fuel with
      | O => None
      | S fuel =>
          t ← heap w !! p;
          w ← upd p (fun t => set_place 0 (count t) (set_prev None (set_next None t))) w;
          '(w, calls) ← call_timeouts fuel (next t) w;
          Some (w, (timeout t, arg t) :: calls)
      end
  end.

(** [bump_timer_internal]. *)
Definition bump_timer_internal (dt : Z) (w : wheel) : option (wheel * list (Z * Z)) :=
  if tiw_nto w =? 0 then Some (w, [])
  else
    let cnt := dt / TIW_SIZE + 1 in
    let keep_pos := (tiw_pos w + dt) mod TIW_SIZE in
    let dtime := if dt >? TIW_SIZE then TIW_SIZE else dt in
    '(w, q) ← bump_loop (Z.to_nat dtime) keep_pos cnt w (mkQueue None None);
    let w := with_pos keep_pos w in
    let w := if bool_decide (tiw_min_ptr w ≠ None) then with_min (wsub (tiw_min w) dt) (tiw_min_ptr w) w else w in
    call_timeouts (size (heap w)) (timeout_head q) w.

(** ** The next timeout *)
(** The largest short time. *)
Definition ERTS_SHORT_TIME_T_MAX : Z := 2 ^ 31 - 1.

(** One slot of the search: [inl] when a timer with count 0 is found. *)
Fixpoint next_slot (fuel : nat) (p : option ptr) (tm nto mn : Z) (w : wheel) : option (wheel * (unit + Z * Z)) :=
  match p with
  | None => Some (w, inr (nto, mn))
  | Some p =>
      match fuel with
      | O => None
      | S fuel =>
          t ← heap w !! p;
          let nto := nto + 1 in
          if count t =? 0 then Some (with_min tm (Some p) w, inl tt)
          else
            let r := w64 (tm + count t * TIW_SIZE) in
            if r <? mn then next_slot fuel (next t) tm nto (u32 r) (with_min (u32 r) (Some p) w)
            else next_slot fuel (next t) tm nto mn w
      end
  end.
(** The search through the slots. *)
Fixpoint next_loop (fuel : nat) (i tm nto mn : Z) (w : wheel) : option (wheel * Z) :=
  let dt := do_time w in
  match fuel with
  | O => None
  | S fuel =>
      '(w, r) ← next_slot (size (heap w)) (tiw w !! i) tm nto mn w;
      match r with
      | inl _ => Some (w, if tm >=? dt then tm - dt else 0)
      | inr (nto, mn) =>
          let i := (i + 1) mod TIW_SIZE in
          if (nto =? tiw_nto w) || (i =? tiw_pos w) then
            Some (w, if mn <=? u32 dt then 0
                     else if u32 (mn - u32 dt) >? ERTS_SHORT_TIME_T_MAX then ERTS_SHORT_TIME_T_MAX
                     else s32 (mn - u32 dt))
          else next_loop fuel i (tm + 1) nto mn w
      end
  end.
(** [next_time_internal]: the time to the next timeout, or -1. *)
Definition next_time_internal (w : wheel) : option (wheel * Z) :=
  if tiw_nto w =? 0 then Some (w, -1)
  else if bool_decide (tiw_min_ptr w ≠ None) then
    let mn := u32 (tiw_min w) in
    let dt := do_time w in
    Some (w, s32 (if mn >=? u32 dt then u32 (mn - dt) else 0))
  else next_loop (Z.to_nat TIW_SIZE) (tiw_pos w) 0 0 (2 ^ 32 - 1) w.

(** The empty wheel. *)
Definition erts_init_time : wheel := mkWheel ∅ ∅ 0 0 0 None 0.

(** ** The clock: elapsed ticks are collected in do_time *)
(** Milliseconds per tick, which is SYS_CLOCK_RESOLUTION. *)
Definition CLOCK_RESOLUTION : Z := 1.
(** Seconds and microseconds. *)
Record SysTimeval := mkTv { tv_sec : Z; tv_usec : Z }.
(** [erts_do_time_add]. *)
Definition erts_do_time_add (elapsed : Z) (w : wheel) : wheel := with_do_time (s32 (do_time w + elapsed)) w.
(** [erts_do_time_read_and_reset]; [None] is the exit of the emulator. *)
Definition erts_do_time_read_and_reset (w : wheel) : option (wheel * Z) :=
  let time := do_time w in
  if time <? 0 then None else Some (with_do_time 0 w, time).
(** [do_erts_deliver_time], with the time that was delivered last. *)
Definition do_erts_deliver_time (current last_delivered : SysTimeval) (w : wheel) : wheel * SysTimeval :=
  let cur_time := mkTv (tv_sec current) (1000 * (Z.quot (tv_usec current) 1000)) in
  let elapsed := Z.quot (1000 * (tv_sec cur_time - tv_sec last_delivered)
                         + Z.quot (tv_usec cur_time - tv_usec last_delivered) 1000) CLOCK_RESOLUTION in
  if elapsed >? 0 then (erts_do_time_add (s32 elapsed) w, cur_time) else (w, last_delivered).
(** [init_erts_deliver_time]. *)
Definition init_erts_deliver_time (inittv : SysTimeval) : SysTimeval :=
  mkTv (tv_sec inittv) (1000 * Z.quot (tv_usec inittv) 1000).

(** What a scheduler does with the collected ticks. *)
Definition schedule_timers (w : wheel) : option (wheel * list (Z * Z)) :=
  '(w, dt) ← erts_do_time_read_and_reset w;
  if dt =? 0 then Some (w, []) else bump_timer_internal dt w.
