(* ===== verification/TimerLinks.v ===== *)
(** The lists of the wheel: doubly linked segments in the heap ([dseg]), the lists of all slots
    ([links]), and what unlinking and queueing do to them. *)

From S2P Require Import Prelude TimerWheel.
From stdpp Require Import base option gmap fin_maps fin_map_dom list sorting.
Local Open Scope Z_scope.

(** A timer without its links. *)
Definition body (t : ErlTimer) : ErlTimer := set_prev None (set_next None t).
Definition bodies (w : wheel) : gmap ptr ErlTimer := body <$> heap w.
Definition clear_links (t : ErlTimer) : ErlTimer := set_active false (set_prev None (set_next None t)).
Definition alter_opt (f : ErlTimer -> ErlTimer) (p : option ptr) (h : gmap ptr ErlTimer) : gmap ptr ErlTimer :=
  match p with Some q => alter f q h | None => h end.

(** [dseg h pv f l nx]: a doubly linked segment with first pointer [f], cells
    [l], previous cell [pv] and the pointer [nx] after the last cell. *)
Fixpoint dseg (h : gmap ptr ErlTimer) (pv f : option ptr) (l : list ptr) (nx : option ptr) : Prop :=
  match l with
  | [] => f = nx
  | p :: l => f = Some p /\ exists t, h !! p = Some t /\ prev t = pv /\ dseg h (Some p) (next t) l nx
  end.
Definition last_or (pv : option ptr) (l : list ptr) : option ptr := from_option Some pv (last l).

Record links (w : wheel) (L : Z -> list ptr) : Prop := {
  lk_dll s : dseg (heap w) None (tiw w !! s) (L s) None;
  lk_in s p : p ∈ L s <-> exists b, bodies w !! p = Some b /\ active b = true /\ slot b = s;
  lk_nodup s : NoDup (L s) }.

Lemma last_or_cons pv p l : last_or pv (p :: l) = last_or (Some p) l.
Proof.
  unfold last_or. destruct l as [|q l]; [reflexivity|]. change (last (p :: q :: l)) with (last (q :: l)).
  destruct (last (q :: l)) eqn:E; [reflexivity|]. apply last_None in E. discriminate.
Qed.

Lemma dseg_frame h h' pv f l nx : (forall q, q ∈ l -> h' !! q = h !! q) -> dseg h pv f l nx -> dseg h' pv f l nx.
Proof.
  revert pv f. induction l as [|p l IH]; intros pv f Hq; cbn [dseg]; auto.
  intros (-> & t & Ht & Hp & Hl). split; auto. exists t. rewrite Hq by left. splits; auto. apply IH; auto.
  intros q Hq'. apply Hq. now right.
Qed.
Lemma dseg_app h pv f l1 l2 nx :
  dseg h pv f (l1 ++ l2) nx <-> exists m, dseg h pv f l1 m /\ dseg h (last_or pv l1) m l2 nx.
Proof.
  revert pv f. induction l1 as [|p l1 IH]; intros pv f; cbn [app dseg].
  - split; [intros H; exists f; split; auto|intros (m & -> & H); exact H].
  - rewrite last_or_cons. split.
    + intros (-> & t & Ht & Hp & Hl). apply IH in Hl as (m & H1 & H2). eauto 10.
    + intros (m & (-> & t & Ht & Hp & Hl) & H2). split; auto. exists t. splits; auto. apply IH. eauto.
Qed.
Lemma dseg_last_next h pv f l nx nx' :
  NoDup l -> dseg h pv f l nx -> l <> [] ->
  dseg (alter_opt (set_next nx') (last l) h) pv f l nx'.
Proof.
  revert pv f. induction l as [|p l IH]; intros pv f Hnd H Hne; [congruence|]. clear Hne.
  apply NoDup_cons in Hnd as [Hp Hnd]. destruct H as (-> & t & Ht & Hpv & Hl). destruct l as [|q l].
  - cbn. split; auto. exists (set_next nx' t). rewrite lookup_alter_eq, Ht. cbn. auto.
  - specialize (IH _ _ Hnd Hl ltac:(discriminate)). change (last (p :: q :: l)) with (last (q :: l)).
    split; auto. exists t. splits; auto.
    destruct (last (q :: l)) as [z|] eqn:E; cbn [alter_opt]; auto.
    rewrite lookup_alter_ne; auto. intros ->. apply Hp. apply last_Some in E as (l' & E). rewrite E. apply elem_of_app. right. now left.
Qed.
Lemma dseg_first_prev h pv pv' p l nx :
  NoDup (p :: l) -> dseg h pv (Some p) (p :: l) nx -> dseg (alter (set_prev pv') p h) pv' (Some p) (p :: l) nx.
Proof.
  intros Hnd (_ & t & Ht & Hpv & Hl). apply NoDup_cons in Hnd as [Hp _]. split; auto. exists (set_prev pv' t).
  rewrite lookup_alter_eq, Ht. cbn. splits; auto. eapply dseg_frame; [|exact Hl].
  intros q Hq. apply lookup_alter_ne. intros ->. contradiction.
Qed.
Lemma dseg_dom h pv f l nx p : dseg h pv f l nx -> p ∈ l -> is_Some (h !! p).
Proof.
  revert pv f. induction l as [|q l IH]; intros pv f H Hp; [now apply elem_of_nil in Hp|].
  destruct H as (_ & t & Ht & _ & Hl). apply elem_of_cons in Hp as [->|Hp]; eauto.
Qed.

(** ** Updates through pointers *)
Lemma upd_alter p f w : is_Some (heap w !! p) -> upd p f w = Some (with_heap (alter f p (heap w)) w).
Proof.
  intros [t Ht]. unfold upd. rewrite Ht. cbn. do 2 f_equal. apply map_eq. intros q.
  destruct (decide (q = p)) as [->|N]; [now rewrite lookup_insert_eq, lookup_alter_eq, Ht|now rewrite lookup_insert_ne, lookup_alter_ne].
Qed.
Lemma body_alter f g (p : ptr) (h : gmap ptr ErlTimer) : (forall t, body (f t) = g (body t)) -> body <$> alter f p h = alter g p (body <$> h).
Proof.
  intros H. apply map_eq. intros q. destruct (decide (q = p)) as [->|N].
  - rewrite lookup_alter_eq, !lookup_fmap, lookup_alter_eq. destruct (h !! p); cbn; [now rewrite H|auto].
  - rewrite lookup_alter_ne, !lookup_fmap, lookup_alter_ne by auto. reflexivity.
Qed.
Lemma body_alter_links f (p : ptr) (h : gmap ptr ErlTimer) : (forall t, body (f t) = body t) -> body <$> alter f p h = body <$> h.
Proof.
  intros H. rewrite (body_alter f id) by exact H. apply map_eq. intros q. destruct (decide (q = p)) as [->|N].
  - rewrite lookup_alter_eq. now destruct ((body <$> h) !! p).
  - now rewrite lookup_alter_ne.
Qed.
Lemma body_alter_opt f (p : option ptr) (h : gmap ptr ErlTimer) : (forall t, body (f t) = body t) -> body <$> alter_opt f p h = body <$> h.
Proof. destruct p; auto. apply body_alter_links. Qed.
Lemma alter_opt_ne f p q h : p <> Some q -> alter_opt f p h !! q = h !! q.
Proof. destruct p; cbn; auto. intros H. apply lookup_alter_ne. congruence. Qed.
Lemma is_Some_alter (f : ErlTimer -> ErlTimer) p q (h : gmap ptr ErlTimer) : is_Some (h !! q) -> is_Some (alter f p h !! q).
Proof.
  intros [t Ht]. destruct (decide (p = q)) as [->|N]; [rewrite lookup_alter_eq, Ht|rewrite lookup_alter_ne by auto; rewrite Ht]; cbn; eauto.
Qed.
Lemma is_Some_alter_opt (f : ErlTimer -> ErlTimer) p q (h : gmap ptr ErlTimer) : is_Some (h !! q) -> is_Some (alter_opt f p h !! q).
Proof. destruct p; auto. apply is_Some_alter. Qed.
Lemma alter_twice (f : ErlTimer -> ErlTimer) p (h : gmap ptr ErlTimer) : (forall t, f (f t) = f t) -> alter f p (alter f p h) = alter f p h.
Proof.
  intros H. apply map_eq. intros q. destruct (decide (q = p)) as [->|N].
  - rewrite !lookup_alter_eq. destruct (h !! p); cbn; [now rewrite H|auto].
  - now rewrite !lookup_alter_ne.
Qed.
Lemma alter_swap (f g : ErlTimer -> ErlTimer) p q (h : gmap ptr ErlTimer) : (forall t, f (g t) = g (f t)) -> alter f p (alter g q h) = alter g q (alter f p h).
Proof.
  intros H. apply map_eq. intros r. destruct (decide (r = p)) as [->|N], (decide (p = q)) as [->|M].
  - rewrite !lookup_alter_eq. destruct (h !! q); cbn; [now rewrite H|auto].
  - now rewrite lookup_alter_eq, !(lookup_alter_ne _ _ q) , lookup_alter_eq by auto.
  - now rewrite !lookup_alter_ne.
  - destruct (decide (r = q)) as [->|]; [now rewrite lookup_alter_ne, !lookup_alter_eq, lookup_alter_ne by auto|now rewrite !lookup_alter_ne].
Qed.

(** ** Removing a timer *)
Definition rm_heap (h : gmap ptr ErlTimer) (p : ptr) (t : ErlTimer) : gmap ptr ErlTimer :=
  alter clear_links p (alter_opt (set_prev (prev t)) (next t) (alter_opt (set_next (next t)) (prev t) h)).
Definition rm_tiw (w : wheel) (t : ErlTimer) : gmap Z ptr :=
  match prev t with None => partial_alter (fun _ => next t) (slot t) (tiw w) | Some _ => tiw w end.

Lemma remove_timer_eq p t w : heap w !! p = Some t ->
  (forall q, prev t = Some q -> q <> p /\ is_Some (heap w !! q)) ->
  (forall n, next t = Some n -> n <> p /\ is_Some (heap w !! n)) ->
  remove_timer p w = Some (mkWheel (rm_heap (heap w) p t) (rm_tiw w t) (tiw_pos w) (wsub (tiw_nto w) 1)
                             (tiw_min w) (tiw_min_ptr w) (do_time w)).
Proof.
  intros Ht Hq Hn. unfold remove_timer, rm_heap, rm_tiw. rewrite Ht. cbn [mbind option_bind].
  destruct (prev t) as [q|] eqn:Ep, (next t) as [n|] eqn:En; cbn [alter_opt].
  - destruct (Hq q eq_refl) as [Nq Sq], (Hn n eq_refl) as [Nn Sn].
    rewrite upd_alter by auto. cbn [mbind option_bind heap with_heap]. rewrite lookup_alter_ne, Ht by auto. cbn [mbind option_bind].
    rewrite En, Ep. rewrite upd_alter by (apply is_Some_alter; auto). cbn [mbind option_bind heap with_heap].
    rewrite upd_alter by (apply is_Some_alter, is_Some_alter; eauto). reflexivity.
  - destruct (Hq q eq_refl) as [Nq Sq].
    rewrite upd_alter by auto. cbn [mbind option_bind heap with_heap]. rewrite lookup_alter_ne, Ht by auto. cbn [mbind option_bind].
    rewrite En, Ep. rewrite upd_alter by (apply is_Some_alter; auto). cbn [mbind option_bind heap with_heap].
    rewrite alter_twice by reflexivity. rewrite upd_alter by (apply is_Some_alter; eauto). reflexivity.
  - destruct (Hn n eq_refl) as [Nn Sn].
    rewrite upd_alter by auto. cbn [mbind option_bind heap with_heap set_tiw]. rewrite lookup_alter_ne, Ht by auto. cbn [mbind option_bind].
    rewrite En, Ep. rewrite upd_alter by (apply is_Some_alter; auto). cbn [mbind option_bind heap with_heap].
    rewrite alter_twice by reflexivity. rewrite upd_alter by (apply is_Some_alter; eauto). reflexivity.
  - cbn [mbind option_bind heap with_heap set_tiw]. rewrite Ht. cbn [mbind option_bind]. rewrite En, Ep. cbn [mbind option_bind].
    rewrite upd_alter by (cbn; eauto). reflexivity.
Qed.

Lemma rm_heap_bodies h p t : body <$> rm_heap h p t = alter (set_active false) p (body <$> h).
Proof.
  unfold rm_heap. rewrite (body_alter clear_links (set_active false)) by reflexivity.
  now rewrite !body_alter_opt by reflexivity.
Qed.

Definition set_slot (L : Z -> list ptr) (s : Z) (l : list ptr) : Z -> list ptr :=
  fun s' => if decide (s' = s) then l else L s'.
Lemma set_slot_eq L s l : set_slot L s l s = l.
Proof. unfold set_slot. now rewrite decide_True. Qed.
Lemma set_slot_ne L s l s' : s' <> s -> set_slot L s l s' = L s'.
Proof. intros. unfold set_slot. now rewrite decide_False. Qed.

Lemma last_or_None l q : last_or None l = Some q -> last l = Some q.
Proof. unfold last_or. destruct (last l); cbn; congruence. Qed.
Lemma last_or_nil l : last_or None l = None -> l = [].
Proof. unfold last_or. destruct (last l) eqn:E; cbn; [congruence|]. now apply last_None in E. Qed.
Lemma last_in (l : list ptr) q : last l = Some q -> q ∈ l.
Proof. intros E. apply last_Some in E as (l' & ->). apply elem_of_app. right. now left. Qed.

(** A segment without the cell [p] in the middle. *)
Lemma rm_dseg h f l1 p l2 t : dseg h None f (l1 ++ p :: l2) None -> NoDup (l1 ++ p :: l2) -> h !! p = Some t ->
  prev t = last_or None l1 /\ next t = head l2 /\
  dseg (rm_heap h p t) None (match prev t with None => next t | Some _ => f end) (l1 ++ l2) None.
Proof.
  intros H Hnd Ht. apply dseg_app in H as (m & H1 & (-> & t' & Ht' & Hp & H2)).
  rewrite Ht in Ht'. injection Ht' as <-. apply NoDup_app in Hnd as (N1 & N12 & N2). apply NoDup_cons in N2 as [Np N2].
  assert (Hn : next t = head l2) by (destruct l2; [exact H2|destruct H2 as [-> _]; reflexivity]).
  splits; auto.
  assert (Hpl : p ∉ l1) by (intros F; apply (N12 p F); left).
  (* the first part *)
  set (h1 := alter_opt (set_next (next t)) (prev t) h).
  assert (D1 : dseg h1 None (match prev t with None => next t | Some _ => f end) l1 (next t)).
  { subst h1. rewrite Hp. destruct l1 as [|a l1]; [reflexivity|].
    unfold last_or. destruct (last (a :: l1)) eqn:E; [|apply last_None in E; discriminate]. cbn [from_option].
    rewrite <- E. apply (dseg_last_next _ _ _ _ (Some p)); auto. }
  assert (D2 : dseg h1 (Some p) (next t) l2 None).
  { eapply dseg_frame; [|exact H2]. intros q Hq. apply alter_opt_ne. intros E. rewrite Hp in E. apply last_or_None, last_in in E.
    apply (N12 q E). now right. }
  set (h2 := alter_opt (set_prev (prev t)) (next t) h1).
  assert (D1' : dseg h2 None (match prev t with None => next t | Some _ => f end) l1 (next t)).
  { eapply dseg_frame; [|exact D1]. intros q Hq. apply alter_opt_ne. rewrite Hn. intros E.
    destruct l2 as [|b l2]; [discriminate|]. cbn in E. injection E as ->. apply (N12 q Hq). right. left. }
  assert (D2' : dseg h2 (last_or None l1) (next t) l2 None).
  { subst h2. rewrite Hn. rewrite Hn in D2. destruct l2 as [|b l2]; [reflexivity|]. cbn [head alter_opt]. rewrite <- Hp.
    apply dseg_first_prev with (pv := Some p); auto. }
  eapply dseg_frame; [|apply dseg_app; eauto].
  intros q Hq. apply lookup_alter_ne. intros ->. apply elem_of_app in Hq as [Hq|Hq]; contradiction.
Qed.

Lemma bodies_lookup w p t : heap w !! p = Some t -> bodies w !! p = Some (body t).
Proof. intros H. unfold bodies. now rewrite lookup_fmap, H. Qed.

Lemma remove_links w L p t : links w L -> heap w !! p = Some t -> active t = true ->
  exists l1 l2 w', L (slot t) = l1 ++ p :: l2 /\ remove_timer p w = Some w' /\
    links w' (set_slot L (slot t) (l1 ++ l2)) /\ bodies w' = alter (set_active false) p (bodies w) /\
    heap w' !! p = Some (clear_links t) /\ (forall q, q ∉ L (slot t) -> heap w' !! q = heap w !! q) /\
    w' = mkWheel (heap w') (tiw w') (tiw_pos w) (wsub (tiw_nto w) 1) (tiw_min w) (tiw_min_ptr w) (do_time w) /\
    (l1 <> [] -> tiw w' = tiw w).
Proof.
  intros [Hd Hi Hn] Ht Ha. set (s := slot t) in *.
  assert (Hp : p ∈ L s) by (apply Hi; exists (body t); rewrite (bodies_lookup w p t Ht); auto).
  destruct (list_elem_of_split _ _ Hp) as (l1 & l2 & E). pose proof (Hd s) as Ds. pose proof (Hn s) as Ns. rewrite E in Ds, Ns.
  destruct (rm_dseg _ _ _ _ _ t Ds Ns Ht) as (Pp & Pn & Dr).
  assert (Hdom : forall q, q ∈ l1 ++ p :: l2 -> is_Some (heap w !! q)) by (intros; eapply dseg_dom; eauto).
  apply NoDup_app in Ns as (N1 & N12 & N2). apply NoDup_cons in N2 as [Np N2].
  assert (Eq : remove_timer p w = Some (mkWheel (rm_heap (heap w) p t) (rm_tiw w t) (tiw_pos w) (wsub (tiw_nto w) 1)
                             (tiw_min w) (tiw_min_ptr w) (do_time w))).
  { apply remove_timer_eq; auto.
    - intros q Eq. rewrite Eq in Pp. symmetry in Pp. apply last_or_None, last_in in Pp. split.
      + intros ->. apply (N12 p Pp). left.
      + apply Hdom, elem_of_app. auto.
    - intros n En. rewrite En in Pn. destruct l2 as [|b l2]; [discriminate|]. cbn in Pn. injection Pn as ->. split.
      + intros ->. apply Np. left.
      + apply Hdom, elem_of_app. right. right. left. }
  assert (Hother : forall q, q ∉ L s -> rm_heap (heap w) p t !! q = heap w !! q).
  { intros q Hq. rewrite E in Hq. unfold rm_heap. rewrite lookup_alter_ne by (intros ->; apply Hq, elem_of_app; right; left).
    rewrite alter_opt_ne, alter_opt_ne; auto.
    - rewrite Pp. intros F. apply last_or_None, last_in in F. apply Hq, elem_of_app. auto.
    - rewrite Pn. intros F. destruct l2; [discriminate|]. cbn in F. injection F as ->. apply Hq, elem_of_app. right. right. left. }
  assert (Hb : body <$> rm_heap (heap w) p t = alter (set_active false) p (bodies w)) by apply rm_heap_bodies.
  eexists l1, l2, _. splits; [exact E|exact Eq| |exact Hb| | |reflexivity|].
  - split; cbn [heap tiw].
    + intros s'. destruct (decide (s' = s)) as [->|Ns'].
      * rewrite set_slot_eq. unfold rm_tiw. fold s. replace (match prev t with Some _ => tiw w | None => _ end !! s)
          with (match prev t with None => next t | Some _ => tiw w !! s end); [exact Dr|].
        destruct (prev t); auto. now rewrite lookup_partial_alter_eq.
      * rewrite set_slot_ne by auto. replace (rm_tiw w t !! s') with (tiw w !! s').
        -- eapply dseg_frame; [|exact (Hd s')]. intros q Hq. apply Hother. intros F.
           apply Hi in Hq as (b & B1 & _ & B2). apply Hi in F as (b' & B1' & _ & B2'). congruence.
        -- unfold rm_tiw. destruct (prev t); auto. fold s. now rewrite lookup_partial_alter_ne.
    + intros s' q. unfold bodies. cbn [heap]. rewrite Hb. destruct (decide (q = p)) as [->|Nq].
      * rewrite lookup_alter_eq, (bodies_lookup w p t Ht). cbn. split.
        -- intros F. exfalso. destruct (decide (s' = s)) as [->|Ns'].
           ++ rewrite set_slot_eq in F. apply elem_of_app in F as [F|F]; [apply (N12 p F); left|contradiction].
           ++ rewrite set_slot_ne in F by auto. apply Hi in F as (b & B1 & _ & B2). rewrite (bodies_lookup w p t Ht) in B1.
              injection B1 as <-. auto.
        -- intros (b & B1 & B2 & _). injection B1 as <-. discriminate.
      * rewrite lookup_alter_ne by auto. rewrite <- Hi. destruct (decide (s' = s)) as [->|Ns'].
        -- rewrite set_slot_eq, E, !elem_of_app, elem_of_cons. set_solver.
        -- now rewrite set_slot_ne.
    + intros s'. destruct (decide (s' = s)) as [->|Ns']; [rewrite set_slot_eq|rewrite set_slot_ne; auto].
      apply NoDup_app. splits; auto. intros q Q1 Q2. apply (N12 q Q1). now right.
  - cbn [heap]. unfold rm_heap. rewrite lookup_alter_eq, alter_opt_ne, alter_opt_ne, Ht; auto.
    + intros F. rewrite Pp in F. apply last_or_None, last_in in F. apply (N12 p F). left.
    + rewrite Pn. intros F. destruct l2; [discriminate|]. cbn in F. injection F as ->. apply Np. left.
  - exact Hother.
  - intros Hl. cbn [tiw]. unfold rm_tiw. destruct (prev t) eqn:Ep; auto. exfalso. apply Hl. now apply last_or_nil.
Qed.

(** ** Updates of the fields that are not links *)
Lemma dseg_alter h pv f l nx g p :
  (forall t, next (g t) = next t /\ prev (g t) = prev t) -> dseg h pv f l nx -> dseg (alter g p h) pv f l nx.
Proof.
  intros Hg. revert pv f. induction l as [|q l IH]; intros pv f; cbn [dseg]; auto.
  intros (-> & t & Ht & Hp & Hl). split; auto. destruct (decide (q = p)) as [->|N].
  - exists (g t). rewrite lookup_alter_eq, Ht. cbn. destruct (Hg t) as [-> ->]. auto.
  - exists t. rewrite lookup_alter_ne by auto. auto.
Qed.
Lemma links_alter w L g p :
  (forall t, next (g t) = next t /\ prev (g t) = prev t) ->
  (forall t, body (g t) = g (body t)) -> (forall t, active (g t) = active t /\ slot (g t) = slot t) ->
  links w L -> links (with_heap (alter g p (heap w)) w) L.
Proof.
  intros Hg Hb Ha [Hd Hi Hn]. split; auto.
  - intros s. cbn. apply dseg_alter; auto.
  - intros s q. rewrite Hi. unfold bodies. cbn [heap with_heap]. rewrite (body_alter g g) by exact Hb.
    destruct (decide (q = p)) as [->|N]; [|now rewrite lookup_alter_ne by auto].
    rewrite lookup_alter_eq. destruct ((body <$> heap w) !! p) as [b|]; cbn; [|split; intros (? & ? & _); discriminate].
    destruct (Ha b) as [A1 A2]. split; intros (b' & [= <-] & B1 & B2); eexists; splits; eauto; congruence.
Qed.
(** A change of a cell that is in no list. *)
Lemma links_alter_out w L g p : (forall s, p ∉ L s) -> (forall t, body (g t) = body t) ->
  links w L -> links (with_heap (alter g p (heap w)) w) L.
Proof.
  intros Hp Hb [Hd Hi Hn]. split; auto.
  - intros s. cbn. eapply dseg_frame; [|apply Hd]. intros q Hq. apply lookup_alter_ne. intros ->. eapply Hp; eauto.
  - intros s q. rewrite Hi. unfold bodies. cbn [heap with_heap]. now rewrite body_alter_links.
Qed.
Lemma links_with_min w L m p : links w L -> links (with_min m p w) L.
Proof. intros [Hd Hi Hn]. split; auto. Qed.
Lemma links_with_pos w L n : links w L -> links (with_pos n w) L.
Proof. intros [Hd Hi Hn]. split; auto. Qed.

(** The pointer the loop reads is the head of the rest of the list. *)
Definition loc_ok (s : Z) (l1 : list ptr) (prv : loc) : Prop :=
  prv = match last l1 with None => Slot s | Some p => NextOf p end.
Lemma dseg_last_lookup h pv f l nx p : dseg h pv f l nx -> last l = Some p -> exists t, h !! p = Some t /\ next t = nx.
Proof.
  revert pv f. induction l as [|q l IH]; intros pv f; [discriminate|]. intros (-> & t & Ht & _ & Hl) E.
  destruct l as [|r l]; [injection E as <-; eauto|]. apply (IH _ _ Hl). exact E.
Qed.
Lemma read_loc_head w L s l1 l2 prv : links w L -> L s = l1 ++ l2 -> loc_ok s l1 prv ->
  read_loc prv w = Some (head l2).
Proof.
  intros [Hd _ _] E ->. pose proof (Hd s) as D. rewrite E in D. apply dseg_app in D as (m & D1 & D2).
  assert (Hm : m = head l2) by (destruct l2; [exact D2|destruct D2 as [-> _]; reflexivity]). subst m.
  destruct (last l1) as [p|] eqn:El; cbn [read_loc].
  - destruct (dseg_last_lookup _ _ _ _ _ _ D1 El) as (t & -> & <-). reflexivity.
  - apply last_None in El as ->. cbn in D1. now rewrite D1.
Qed.

(** ** The queue of expired timers *)
Fixpoint sll (h : gmap ptr ErlTimer) (f : option ptr) (l : list ptr) : Prop :=
  match l with
  | [] => f = None
  | p :: l => f = Some p /\ exists t, h !! p = Some t /\ active t = false /\ sll h (next t) l
  end.
Record queue_ok (w : wheel) (q : queue) (Q : list ptr) : Prop := {
  qk_sll : sll (heap w) (timeout_head q) Q;
  qk_tail : timeout_tail q = last Q;
  qk_nodup : NoDup Q }.

Lemma sll_frame h h' f l : (forall p, p ∈ l -> h' !! p = h !! p) -> sll h f l -> sll h' f l.
Proof.
  revert f. induction l as [|p l IH]; intros f Hq; cbn [sll]; auto.
  intros (-> & t & Ht & Ha & Hl). split; auto. exists t. rewrite Hq by left. splits; auto. apply IH; auto.
  intros q Hq'. apply Hq. now right.
Qed.
Lemma sll_inactive h f l p : sll h f l -> p ∈ l -> exists t, h !! p = Some t /\ active t = false.
Proof.
  revert f. induction l as [|q l IH]; intros f H Hp; [now apply elem_of_nil in Hp|].
  destruct H as (_ & t & Ht & Ha & Hl). apply elem_of_cons in Hp as [->|Hp]; eauto.
Qed.
Lemma sll_snoc h f l p t : sll h f l -> NoDup l -> p ∉ l -> h !! p = Some t -> active t = false -> next t = None ->
  l <> [] -> sll (alter_opt (set_next (Some p)) (last l) h) f (l ++ [p]).
Proof.
  intros H Hnd Hp Ht Ha Hn. revert f H Hnd Hp. induction l as [|q l IH]; intros f H Hnd Hp Hne; [congruence|]. clear Hne.
  destruct H as (-> & u & Hu & Au & Hl). apply NoDup_cons in Hnd as [Hq Hnd]. destruct l as [|r l].
  - cbn [last alter_opt app sll]. split; auto. exists (set_next (Some p) u). rewrite lookup_alter_eq, Hu. cbn.
    split; [auto|]. split; [auto|]. split; [auto|]. exists t. assert (p <> q) by set_solver. rewrite lookup_alter_ne by auto. auto.
  - specialize (IH _ Hl Hnd ltac:(set_solver) ltac:(discriminate)). change (last (q :: r :: l)) with (last (r :: l)).
    split; auto. exists u. splits; auto. rewrite alter_opt_ne; auto. intros E. apply last_in in E. contradiction.
Qed.

Lemma enqueue_spec w q Q L p t : queue_ok w q Q -> links w L -> heap w !! p = Some t -> active t = false -> next t = None -> p ∉ Q ->
  exists w' q', enqueue p q w = Some (w', q') /\ queue_ok w' q' (Q ++ [p]) /\ links w' L /\ bodies w' = bodies w /\
    w' = with_heap (heap w') w /\ size (heap w') = size (heap w).
Proof.
  intros [Hs Ht Hn] Hl Hp Ha Hx Hq. unfold enqueue. rewrite Ht.
  assert (Nd : NoDup (Q ++ [p])).
  { apply NoDup_app. splits; auto; [set_solver|apply NoDup_singleton]. }
  destruct (last Q) as [z|] eqn:E.
  - destruct (sll_inactive _ _ _ z Hs (last_in _ _ E)) as (u & Hu & Au).
    rewrite upd_alter by eauto. cbn [mbind option_bind]. eexists _, _. splits; [reflexivity| | | |reflexivity|].
    + split; cbn [timeout_head timeout_tail heap with_heap]; auto; [|now rewrite last_snoc].
      assert (Hne : Q <> []) by (intros ->; discriminate).
      pose proof (sll_snoc _ _ Q p t Hs Hn Hq Hp Ha Hx Hne) as S. rewrite E in S. exact S.
    + apply links_alter_out; auto. intros s F. apply Hl in F as (b & B1 & B2 & _).
      rewrite (bodies_lookup w z u Hu) in B1. injection B1 as <-. cbn in B2. congruence.
    + unfold bodies. cbn [heap with_heap]. now apply body_alter_links.
    + cbn [heap with_heap]. destruct (decide (is_Some (heap w !! z))) as [[v Hv]|N]; [|exfalso; eauto].
      replace (alter (set_next (Some p)) z (heap w)) with (<[z := set_next (Some p) v]> (heap w)).
      * apply map_size_insert_Some. eauto.
      * apply map_eq. intros i. destruct (decide (i = z)) as [->|]; [now rewrite lookup_insert_eq, lookup_alter_eq, Hv|now rewrite lookup_insert_ne, lookup_alter_ne].
  - apply last_None in E as ->. eexists w, _. splits; auto; [|now destruct w].
    split; [|reflexivity|apply NoDup_singleton]. split; [reflexivity|]. exists t. auto.
Qed.
