(* ===== verification/TimerBump.v ===== *)
(** The expiry loop: the invariant [wf] it keeps, one slot ([bump_slot_spec]) and the walk over
    the slots ([bump_loop_spec]). *)

From S2P Require Import Prelude TimerWheel TimerLinks.
From stdpp Require Import base option gmap fin_maps fin_map_dom list sorting.
Local Open Scope Z_scope.

(** ** The number of active timers *)
Definition is_active (bm : gmap ptr ErlTimer) (p : ptr) : Prop := exists b, bm !! p = Some b /\ active b = true.
#[global] Instance is_active_dec bm p : Decision (is_active bm p).
Proof.
  unfold is_active. destruct (bm !! p) as [b|]; [destruct (decide (active b = true)) as [Ha|Ha]|].
  - now left; exists b.
  - right. intros (b' & [= <-] & ?). auto.
  - right. intros (b' & ? & _). discriminate.
Defined.
Definition nactive (bm : gmap ptr ErlTimer) : Z := Z.of_nat (size (filter (fun kv => active (snd kv) = true) bm)).

Lemma active_filter bm p : p ∈ dom (filter (fun kv => active (snd kv) = true) bm) <-> is_active bm p.
Proof.
  rewrite elem_of_dom. unfold is_active. split.
  - intros [b Hb]. apply map_lookup_filter_Some in Hb. eauto.
  - intros (b & Hb & Ha). exists b. apply map_lookup_filter_Some. auto.
Qed.
Lemma nactive_ext bm bm' : (forall p, is_active bm p <-> is_active bm' p) -> nactive bm = nactive bm'.
Proof.
  intros H. unfold nactive. f_equal. rewrite <- !size_dom. f_equal.
  apply leibniz_equiv, set_equiv. intros p. rewrite !active_filter. apply H.
Qed.
Lemma nactive_remove bm bm' p : is_active bm p -> (forall q, is_active bm' q <-> is_active bm q /\ q <> p) ->
  nactive bm = nactive bm' + 1.
Proof.
  intros Hp H. unfold nactive. rewrite <- !size_dom.
  set (d := dom (filter _ bm)). set (d' := dom (filter _ bm')).
  assert (E : d = {[p]} ∪ d').
  { apply leibniz_equiv, set_equiv. intros q. subst d d'. rewrite elem_of_union, !active_filter, elem_of_singleton, H.
    destruct (decide (q = p)); naive_solver. }
  rewrite E, size_union, size_singleton; [lia|]. subst d'. intros q Q1%elem_of_singleton Q2. subst q.
  apply active_filter, H in Q2. naive_solver.
Qed.
Lemma nactive_le (h : gmap ptr ErlTimer) : nactive (body <$> h) <= Z.of_nat (size h).
Proof.
  unfold nactive. rewrite <- (map_size_fmap body h). apply inj_le, map_subseteq_size, map_filter_subseteq.
Qed.
Lemma nactive_nonneg bm : 0 <= nactive bm. Proof. unfold nactive. lia. Qed.

(** ** The invariant the loop keeps *)
Record wf (w : wheel) (L : Z -> list ptr) : Prop := {
  wf_links : links w L;
  wf_range p b : bodies w !! p = Some b -> active b = true -> 0 <= slot b < TIW_SIZE /\ 0 <= count b < 2 ^ 48;
  wf_nto : tiw_nto w = nactive (bodies w);
  wf_size : Z.of_nat (size (heap w)) < 2 ^ 64;
  wf_min p : tiw_min_ptr w = Some p -> is_active (bodies w) p }.

(** What the loop leaves alone. *)
Record frame (w w' : wheel) : Prop := {
  fr_pos : tiw_pos w' = tiw_pos w;
  fr_do : do_time w' = do_time w;
  fr_dom : dom (heap w') = dom (heap w);
  fr_min : tiw_min_ptr w' = None \/ tiw_min_ptr w' = tiw_min_ptr w /\ tiw_min w' = tiw_min w }.
Lemma frame_refl w : frame w w. Proof. split; auto. Qed.
Lemma frame_trans w1 w2 w3 : frame w1 w2 -> frame w2 w3 -> frame w1 w3.
Proof.
  intros [A1 A2 A3 A4] [B1 B2 B3 B4]. split; try congruence.
  destruct B4 as [B4|[B4 B5]]; [auto|]. destruct A4 as [A4|[A4 A5]]; [left|right]; split || idtac; congruence.
Qed.
Lemma frame_size w w' : frame w w' -> size (heap w') = size (heap w).
Proof. intros F. rewrite <- !size_dom. f_equal. apply F. Qed.
Lemma dom_bodies w : dom (bodies w) = dom (heap w).
Proof. unfold bodies. apply dom_fmap_L. Qed.

Lemma links_active w L s p : links w L -> p ∈ L s -> is_active (bodies w) p.
Proof. intros H Hp. apply (lk_in _ _ H) in Hp as (b & ? & ? & _). exists b. auto. Qed.
Lemma queue_inactive w q Q p : queue_ok w q Q -> p ∈ Q -> ~ is_active (bodies w) p.
Proof.
  intros [Hs _ _] Hp (b & Hb & Ha). destruct (sll_inactive _ _ _ _ Hs Hp) as (t & Ht & At).
  rewrite (bodies_lookup w p t Ht) in Hb. injection Hb as <-. cbn in Ha. congruence.
Qed.
Lemma split_unique (p : ptr) l1 l2 l1' l2' : NoDup (l1 ++ p :: l2) -> l1 ++ p :: l2 = l1' ++ p :: l2' -> l1 = l1' /\ l2 = l2'.
Proof.
  revert l1'. induction l1 as [|a l1 IH]; intros l1' Hnd E; destruct l1' as [|a' l1']; cbn in *.
  - injection E as ->. auto.
  - injection E as -> ->. exfalso. apply NoDup_cons in Hnd as [Hnd _]. apply Hnd, elem_of_app. right. left.
  - injection E as -> <-. exfalso. apply NoDup_cons in Hnd as [Hnd _]. apply Hnd, elem_of_app. right. left.
  - injection E as -> E. apply NoDup_cons in Hnd as [_ Hnd]. destruct (IH _ Hnd E). subst. auto.
Qed.

Definition clear_min (p : ptr) (w : wheel) : wheel :=
  if bool_decide (tiw_min_ptr w = Some p) then with_min 0 None w else w.
Lemma clear_min_keeps p w :
  heap (clear_min p w) = heap w /\ tiw (clear_min p w) = tiw w /\ tiw_pos (clear_min p w) = tiw_pos w /\
  tiw_nto (clear_min p w) = tiw_nto w /\ do_time (clear_min p w) = do_time w /\
  (tiw_min_ptr (clear_min p w) = None \/
   tiw_min_ptr w <> Some p /\ tiw_min_ptr (clear_min p w) = tiw_min_ptr w /\ tiw_min (clear_min p w) = tiw_min w).
Proof. unfold clear_min. case_bool_decide; cbn; splits; auto. Qed.

(** Taking a timer out of the wheel, as expiry and cancellation do. *)
Lemma take_out w L p t : wf w L -> heap w !! p = Some t -> active t = true ->
  exists l1 l2 w', L (slot t) = l1 ++ p :: l2 /\ remove_timer p (clear_min p w) = Some w' /\
    wf w' (set_slot L (slot t) (l1 ++ l2)) /\ bodies w' = alter (set_active false) p (bodies w) /\
    heap w' !! p = Some (clear_links t) /\ (forall q, q ∉ L (slot t) -> heap w' !! q = heap w !! q) /\ frame w w' /\
    (l1 <> [] -> tiw w' = tiw w).
Proof.
  intros H Ht Ha. destruct (clear_min_keeps p w) as (K1 & K2 & K3 & K4 & K5 & K6).
  assert (Hl : links (clear_min p w) L).
  { destruct (wf_links _ _ H) as [Hd Hi Hn]. split; unfold bodies; rewrite ?K1, ?K2; auto. }
  rewrite <- K1 in Ht. destruct (remove_links _ _ _ _ Hl Ht Ha) as (l1 & l2 & w' & E & Er & Hl' & Hb & Hp & Ho & Ew & Htw).
  assert (Eb : bodies (clear_min p w) = bodies w) by (unfold bodies; now rewrite K1). rewrite Eb in Hb. rewrite K1 in *. rewrite K2 in Htw.
  assert (Hact : is_active (bodies w) p) by (exists (body t); rewrite (bodies_lookup w p t); auto; now rewrite <- K1).
  assert (Hrem : forall q, is_active (bodies w') q <-> is_active (bodies w) q /\ q <> p).
  { intros q. rewrite Hb. unfold is_active. destruct (decide (q = p)) as [->|N].
    - rewrite lookup_alter_eq. destruct (bodies w !! p) as [b|]; cbn; naive_solver.
    - rewrite lookup_alter_ne by auto. naive_solver. }
  assert (Hdom : dom (heap w') = dom (heap w)) by (rewrite <- !dom_bodies, Hb; apply dom_alter_L).
  pose proof (nactive_remove _ _ _ Hact Hrem) as Hc.
  pose proof (nactive_le (heap w)) as Hle. fold (bodies w) in Hle. pose proof (nactive_nonneg (bodies w')). pose proof (wf_size _ _ H).
  assert (Epos : tiw_pos w' = tiw_pos w) by (rewrite Ew; cbn; auto).
  assert (Edo : do_time w' = do_time w) by (rewrite Ew; cbn; auto).
  assert (Ento : tiw_nto w' = wsub (tiw_nto w) 1) by (rewrite Ew; cbn; now rewrite K4).
  assert (Eptr : tiw_min_ptr w' = tiw_min_ptr (clear_min p w) /\ tiw_min w' = tiw_min (clear_min p w)) by (rewrite Ew; cbn; auto).
  clear Ew. destruct Eptr as [Ep1 Ep2].
  exists l1, l2, w'. splits; auto.
  - split; auto.
    + intros q b Hq Hqa. rewrite Hb in Hq. destruct (decide (q = p)) as [->|N].
      * rewrite lookup_alter_eq in Hq. destruct (bodies w !! p); cbn in Hq; [injection Hq as <-; discriminate|discriminate].
      * rewrite lookup_alter_ne in Hq by auto. eapply wf_range; eauto.
    + rewrite Ento, (wf_nto _ _ H), Hc. unfold wsub, w64. rewrite Z.mod_small; lia.
    + rewrite <- size_dom, Hdom, size_dom. auto.
    + intros q Hq. rewrite Ep1 in Hq. destruct K6 as [K6|(K6 & K7 & _)]; [congruence|].
      rewrite K7 in Hq. apply Hrem. split; [eapply wf_min; eauto|congruence].
  - split; auto. rewrite Ep1, Ep2. destruct K6 as [K6|(_ & K6 & K7)]; auto.
Qed.

(** ** One slot *)
Definition pass (cnt : Z) (b : ErlTimer) : ErlTimer :=
  if count b <? cnt then set_active false b else set_place (slot b) (count b - cnt) b.
Definition expires (w : wheel) (cnt : Z) (p : ptr) : Prop := exists b, bodies w !! p = Some b /\ count b < cnt.

Lemma NoDup_size (l : list ptr) (h : gmap ptr ErlTimer) : NoDup l -> (forall p, p ∈ l -> is_Some (h !! p)) -> (length l <= size h)%nat.
Proof.
  intros Hn Hd. rewrite <- (size_list_to_set (C := gset ptr) l) by exact Hn. rewrite <- size_dom. apply subseteq_size.
  intros p Hp%elem_of_list_to_set. apply elem_of_dom. auto.
Qed.
Lemma wf_slot_eq w L L' : (forall s, L s = L' s) -> wf w L -> wf w L'.
Proof.
  intros E H. split; try apply H. destruct (wf_links _ _ H) as [Hd Hi Hn]. split; intros; rewrite <- E; auto.
Qed.

Lemma place_step w L p c t : wf w L -> heap w !! p = Some t -> 0 <= c <= count t -> active t = true ->
  let w' := with_heap (alter (fun u => set_place (slot u) (wsub (count u) c) u) p (heap w)) w in
  wf w' L /\ frame w w' /\ bodies w' !! p = Some (set_place (slot t) (count t - c) (body t)) /\
  (forall q, q <> p -> bodies w' !! q = bodies w !! q) /\ (forall q, q <> p -> heap w' !! q = heap w !! q).
Proof.
  intros H Ht Hc Ha w'. pose proof (bodies_lookup w p t Ht) as Hb. pose proof (wf_range _ _ H _ _ Hb Ha) as [Hs Hcnt]. cbn in Hs, Hcnt.
  assert (Ec : wsub (count t) c = count t - c) by (unfold wsub, w64; apply Z.mod_small; lia).
  assert (Eb : bodies w' = alter (fun u => set_place (slot u) (wsub (count u) c) u) p (bodies w)) by (apply body_alter; reflexivity).
  assert (Ep : bodies w' !! p = Some (set_place (slot t) (count t - c) (body t))).
  { rewrite Eb, lookup_alter_eq, Hb. cbn. now rewrite Ec. }
  assert (En : forall q, q <> p -> bodies w' !! q = bodies w !! q) by (intros q N; rewrite Eb; now apply lookup_alter_ne).
  assert (Hact : forall q, is_active (bodies w) q <-> is_active (bodies w') q).
  { intros q. unfold is_active. destruct (decide (q = p)) as [->|N]; [|now rewrite En]. rewrite Hb, Ep. split; intros _; eexists; eauto. }
  splits; auto.
  - split.
    + apply links_alter; try reflexivity; auto. apply H.
    + intros q b Hq Hqa. destruct (decide (q = p)) as [->|N].
      * rewrite Ep in Hq. injection Hq as <-. cbn. lia.
      * rewrite En in Hq by auto. eapply wf_range; eauto.
    + cbn [tiw_nto with_heap w']. rewrite (wf_nto _ _ H). now apply nactive_ext.
    + rewrite <- size_dom. cbn [heap with_heap w']. rewrite dom_alter_L, size_dom. apply H.
    + intros q Hq. apply Hact. eapply wf_min; eauto.
  - split; auto. cbn [heap with_heap w']. apply dom_alter_L.
  - intros q N. cbn [heap with_heap w']. now apply lookup_alter_ne.
Qed.

Lemma queue_frame w w' q Q : (forall p, p ∈ Q -> heap w' !! p = heap w !! p) -> queue_ok w q Q -> queue_ok w' q Q.
Proof. intros H [Hs Ht Hn]. split; auto. eapply sll_frame; eauto. Qed.

(** What a pass over the cells [l2] does. *)
Record passed (cnt : Z) (l2 : list ptr) (w w' : wheel) : Prop := {
  pa_in p : p ∈ l2 -> bodies w' !! p = pass cnt <$> bodies w !! p;
  pa_out p : p ∉ l2 -> bodies w' !! p = bodies w !! p }.

Lemma passed_cons cnt p l2 w w1 w' : p ∉ l2 -> (forall q, q <> p -> bodies w1 !! q = bodies w !! q) ->
  bodies w1 !! p = pass cnt <$> bodies w !! p -> passed cnt l2 w1 w' -> passed cnt (p :: l2) w w'.
Proof.
  intros Np Bne Bp Pa. split; intros x Hx.
  - destruct (decide (x = p)) as [->|N]; [now rewrite (pa_out _ _ _ _ Pa p Np)|].
    rewrite (pa_in _ _ _ _ Pa x) by set_solver. now rewrite Bne.
  - rewrite (pa_out _ _ _ _ Pa x) by set_solver. apply Bne. set_solver.
Qed.
Lemma expires_ne cnt p w w1 : (forall q, q <> p -> bodies w1 !! q = bodies w !! q) ->
  forall x, x <> p -> expires w1 cnt x <-> expires w cnt x.
Proof. intros Bne x N. unfold expires. now rewrite Bne. Qed.
Lemma active_cell w L s p : wf w L -> p ∈ L s -> exists t, heap w !! p = Some t /\ active t = true /\ slot t = s.
Proof.
  intros H Hp. apply (lk_in _ _ (wf_links _ _ H)) in Hp as (b & Hb & Ha & Hs). unfold bodies in Hb.
  rewrite lookup_fmap in Hb. destruct (heap w !! p) as [t|]; [|discriminate]. injection Hb as <-. eauto.
Qed.

(** An expired timer moves from the wheel to the queue. *)
Lemma fire_step s cnt w q L Q l1 p l2 t : wf w L -> L s = l1 ++ p :: l2 -> queue_ok w q Q -> heap w !! p = Some t ->
  active t = true -> slot t = s -> count t < cnt ->
  exists w1 w2 q2, remove_timer p (clear_min p w) = Some w1 /\ enqueue p q w1 = Some (w2, q2) /\
    wf w2 (set_slot L s (l1 ++ l2)) /\ queue_ok w2 q2 (Q ++ [p]) /\ frame w w2 /\
    bodies w2 !! p = pass cnt <$> bodies w !! p /\ (forall x, x <> p -> bodies w2 !! x = bodies w !! x).
Proof.
  intros H E Hq Ht Ha <- Hexp. pose proof (lk_nodup _ _ (wf_links _ _ H) (slot t)) as Hnd. rewrite E in Hnd.
  assert (Hp : p ∈ L (slot t)) by (rewrite E; apply elem_of_app; right; left).
  destruct (take_out w L p t H Ht Ha) as (l1' & l2' & w1 & E1 & Er & H1 & Hb1 & Hp1 & Ho1 & F1 & _).
  rewrite E in E1. destruct (split_unique _ _ _ _ _ Hnd E1) as [<- <-].
  assert (Hqp : forall x, x ∈ Q -> x ∉ L (slot t)).
  { intros x Hx Hxs. eapply queue_inactive; eauto. eapply links_active; eauto. apply H. }
  assert (Hq1 : queue_ok w1 q Q) by (eapply queue_frame; [|exact Hq]; intros x Hx; apply Ho1; auto).
  destruct (enqueue_spec w1 q Q _ p (clear_links t) Hq1 (wf_links _ _ H1) Hp1 eq_refl eq_refl) as (w2 & q2 & Eq & Hq2 & L2 & B2 & W2 & S2).
  { intros Hpq. exact (Hqp p Hpq Hp). }
  assert (Hm2 : tiw_min_ptr w2 = tiw_min_ptr w1 /\ tiw_min w2 = tiw_min w1 /\ tiw_nto w2 = tiw_nto w1 /\                tiw_pos w2 = tiw_pos w1 /\ do_time w2 = do_time w1) by (rewrite W2; cbn; auto).
  clear W2. destruct Hm2 as (M1 & M2 & M3 & M4 & M5). exists w1, w2, q2. splits; auto.
  - split; auto; rewrite ?B2, ?M3, ?S2; try apply H1. intros x. rewrite M1. apply H1.
  - apply (frame_trans _ w1); auto. split; auto. rewrite <- !dom_bodies. congruence.
  - rewrite B2, Hb1, lookup_alter_eq, (bodies_lookup w p t Ht). cbn. unfold pass. cbn. now rewrite (proj2 (Z.ltb_lt _ _)).
  - intros x N. rewrite B2, Hb1. now apply lookup_alter_ne.
Qed.

Lemma bump_slot_spec s cnt : 0 <= cnt -> forall fuel l2 l1 prv w q L Q,
  wf w L -> L s = l1 ++ l2 -> loc_ok s l1 prv -> queue_ok w q Q -> (length l2 < fuel)%nat ->
  exists w' q' L' F, bump_slot fuel prv cnt w q = Some (w', q') /\ wf w' L' /\ queue_ok w' q' (Q ++ F) /\ frame w w' /\
    (forall s', s' <> s -> L' s' = L s') /\ passed cnt l2 w w' /\ (forall p, p ∈ F <-> p ∈ l2 /\ expires w cnt p).
Proof.
  intros Hcnt. induction fuel as [|fuel IH]; [intros; lia|]. intros l2 l1 prv w q L Q H E Hloc Hq Hf. cbn [bump_slot].
  rewrite (read_loc_head w L s l1 l2 prv) by (auto; apply H). cbn [mbind option_bind].
  destruct l2 as [|p l2]; cbn [head].
  { exists w, q, L, []. rewrite app_nil_r. splits; auto using frame_refl.
    - split; [set_solver|auto].
    - set_solver. }
  destruct (active_cell w L s p H) as (t & Ht & Ha & Hs); [rewrite E; apply elem_of_app; right; left|].
  pose proof (bodies_lookup w p t Ht) as Hb. pose proof (lk_nodup _ _ (wf_links _ _ H) s) as Hnd. rewrite E in Hnd.
  apply NoDup_app in Hnd as (_ & _ & N2). apply NoDup_cons in N2 as [Np _]. cbn [length] in Hf.
  rewrite Ht. cbn [mbind option_bind]. fold (clear_min p w). destruct (Z.ltb_spec (count t) cnt) as [Hexp|Hexp].
  - destruct (fire_step s cnt w q L Q l1 p l2 t) as (w1 & w2 & q2 & Er & Eq & H2 & Hq2 & F2 & Bp & Bne); auto.
    rewrite Er. cbn [mbind option_bind]. rewrite Eq. cbn [mbind option_bind].
    destruct (IH l2 l1 prv w2 q2 _ (Q ++ [p]) H2 (set_slot_eq _ _ _) Hloc Hq2 ltac:(lia))
      as (w' & q' & L' & F & EF & H' & Q' & F' & L'ne & Pa & HF).
    exists w', q', L', (p :: F). rewrite <- app_assoc in Q'. splits; auto.
    + eapply frame_trans; eauto.
    + intros s' Ns. rewrite L'ne by auto. now apply set_slot_ne.
    + eapply passed_cons; eauto.
    + intros x. rewrite !elem_of_cons, HF. destruct (decide (x = p)) as [->|N].
      * split; auto. intros _. split; auto. exists (body t). auto.
      * rewrite (expires_ne cnt p w w2) by auto. naive_solver.
  - rewrite upd_alter by eauto. cbn [mbind option_bind].
    destruct (place_step w L p cnt t H Ht ltac:(lia) Ha) as (H1 & F1 & Bp & Bne & Hne).
    set (w1 := with_heap _ w) in *.
    assert (Hq1 : queue_ok w1 q Q).
    { eapply queue_frame; [|exact Hq]. intros x Hx. apply Hne. intros ->. eapply queue_inactive; eauto. exists (body t). auto. }
    destruct (IH l2 (l1 ++ [p]) (NextOf p) w1 q L Q H1) as (w' & q' & L' & F & EF & H' & Q' & F' & L'ne & Pa & HF);
      [now rewrite <- app_assoc|unfold loc_ok; now rewrite last_snoc|auto|lia|].
    exists w', q', L', F. splits; auto.
    + eapply frame_trans; eauto.
    + eapply passed_cons; eauto. rewrite Bp, Hb. cbn. unfold pass. cbn. now rewrite (proj2 (Z.ltb_ge _ _)).
    + intros x. rewrite elem_of_cons, HF. destruct (decide (x = p)) as [->|N].
      * split; [tauto|]. intros [_ (b & Hbx & Hlt)]. rewrite Hb in Hbx. injection Hbx as <-. cbn in Hlt. lia.
      * rewrite (expires_ne cnt p w w1) by auto. naive_solver.
Qed.

(** ** The walk over the slots *)
Lemma wf_with_pos w L n : wf w L -> wf (with_pos n w) L.
Proof. intros H. split; try apply H. apply links_with_pos, H. Qed.
Lemma queue_with_pos w q Q n : queue_ok w q Q -> queue_ok (with_pos n w) q Q.
Proof. intros [A B C]. split; auto. Qed.

(** The count a slot at distance [k] from the start is compared with. *)
Definition cslot (dt k : Z) : Z := dt / TIW_SIZE + (if dt mod TIW_SIZE <=? k then 0 else 1).
Definition fired (w : wheel) (off : ptr -> Z) (dt k0 k1 : Z) (p : ptr) : Prop :=
  exists b, bodies w !! p = Some b /\ active b = true /\ k0 <= off p < k1 /\ count b < cslot dt (off p).
Definition offsets (w : wheel) (pos0 : Z) (off : ptr -> Z) : Prop :=
  forall p b, bodies w !! p = Some b -> active b = true -> off p = (slot b - pos0) mod TIW_SIZE.
(** The bodies after the slots at the distances from [k0] to [k1]. *)
Record walked (off : ptr -> Z) (dt k0 k1 : Z) (w w' : wheel) : Prop := {
  wk_in p b : bodies w !! p = Some b -> active b = true -> k0 <= off p < k1 -> bodies w' !! p = Some (pass (cslot dt (off p)) b);
  wk_out p : ~ (is_active (bodies w) p /\ k0 <= off p < k1) -> bodies w' !! p = bodies w !! p }.

Lemma same_slot pos0 k s : 0 <= k < TIW_SIZE -> 0 <= s < TIW_SIZE ->
  s = (pos0 + k) mod TIW_SIZE <-> (s - pos0) mod TIW_SIZE = k.
Proof.
  unfold TIW_SIZE. intros Hk Hs. split.
  - intros ->. rewrite Zminus_mod_idemp_l. replace (pos0 + k - pos0) with k by lia. apply Z.mod_small; lia.
  - intros <-. rewrite Zplus_mod_idemp_r. replace (pos0 + (s - pos0)) with s by lia. rewrite Z.mod_small; lia.
Qed.
Lemma same_pos pos0 dt k : 0 <= k < TIW_SIZE -> (pos0 + k) mod TIW_SIZE = (pos0 + dt) mod TIW_SIZE <-> k = dt mod TIW_SIZE.
Proof. unfold TIW_SIZE. intros Hk. split; intros H; lia. Qed.
Lemma cslot_next dt k : 0 <= dt < 2 ^ 31 -> 0 <= k ->
  let c := dt / TIW_SIZE + (if dt mod TIW_SIZE <? k then 0 else 1) in
  (if k =? dt mod TIW_SIZE then wsub c 1 else c) = cslot dt k /\
  cslot dt k = dt / TIW_SIZE + (if dt mod TIW_SIZE <? k + 1 then 0 else 1) /\ 0 <= cslot dt k.
Proof.
  unfold cslot, TIW_SIZE. intros Hd Hk. cbv zeta. destruct (Z.ltb_spec (dt mod 65536) k), (Z.leb_spec (dt mod 65536) k), (Z.ltb_spec (dt mod 65536) (k + 1));
    destruct (Z.eqb_spec k (dt mod 65536)); unfold wsub, w64; try rewrite (Z.mod_small (_ - 1)) by lia; lia.
Qed.

(** The offsets stay the same while timers only expire or count down. *)
Lemma slot_walked L w w' s cnt pos0 k off dt : wf w L -> 0 <= k < TIW_SIZE -> s = (pos0 + k) mod TIW_SIZE -> cnt = cslot dt k ->
  offsets w pos0 off -> passed cnt (L s) w w' -> walked off dt k (k + 1) w w' /\ offsets w' pos0 off.
Proof.
  intros H Hk -> -> Hoff Pa.
  assert (Hin : forall p, p ∈ L ((pos0 + k) mod TIW_SIZE) <-> is_active (bodies w) p /\ k <= off p < k + 1).
  { intros p. rewrite (lk_in _ _ (wf_links _ _ H)). unfold is_active. split.
    - intros (b & Hb & Ha & Hs). split; [eauto|]. rewrite (Hoff p b Hb Ha).
      destruct (wf_range _ _ H p b Hb Ha) as [Hr _]. rewrite (proj1 (same_slot pos0 k (slot b) Hk Hr) Hs). lia.
    - intros [(b & Hb & Ha) Hr]. exists b. splits; auto. destruct (wf_range _ _ H p b Hb Ha) as [Hr' _].
      apply same_slot; auto. rewrite <- (Hoff p b Hb Ha). lia. }
  assert (W : walked off dt k (k + 1) w w').
  { split.
    - intros p b Hb Ha Hr. assert (Ek : off p = k) by lia. rewrite Ek.
      rewrite (pa_in _ _ _ _ Pa p) by (apply Hin; split; [exists b|]; auto). now rewrite Hb.
    - intros p Hp. apply (pa_out _ _ _ _ Pa). now rewrite Hin. }
  split; auto. intros p b' Hb' Ha'.
  destruct (decide (p ∈ L ((pos0 + k) mod TIW_SIZE))) as [Hp|Hp].
  - apply Hin in Hp as [(b & Hb & Ha) Hr]. rewrite (wk_in _ _ _ _ _ _ W p b Hb Ha Hr) in Hb'. injection Hb' as <-.
    rewrite (Hoff p b Hb Ha). unfold pass. now destruct (_ <? _).
  - rewrite Hin in Hp. rewrite (wk_out _ _ _ _ _ _ W p Hp) in Hb'. auto.
Qed.

Lemma walked_comp off dt k0 k1 k2 w w1 w2 : k0 <= k1 <= k2 ->
  walked off dt k0 k1 w w1 -> walked off dt k1 k2 w1 w2 -> walked off dt k0 k2 w w2.
Proof.
  intros Hk [A1 A2] [B1 B2]. assert (Hd : forall p, {off p < k1} + {k1 <= off p}) by (intros; destruct (Z_lt_le_dec (off p) k1); auto). split.
  - intros p b Hb Ha Hr. destruct (Hd p).
    + rewrite B2 by lia. apply A1; auto. lia.
    + apply B1; auto; [|lia]. rewrite A2; auto. lia.
  - intros p Hp. assert (E1 : bodies w1 !! p = bodies w !! p) by (apply A2; intros [? ?]; apply Hp; split; auto; lia).
    rewrite B2; auto. unfold is_active. rewrite E1. intros [? ?]; apply Hp; split; auto; lia.
Qed.
Lemma fired_later off dt k k2 w w1 p : walked off dt k (k + 1) w w1 -> fired w1 off dt (k + 1) k2 p <-> fired w off dt (k + 1) k2 p.
Proof.
  intros W. unfold fired. assert (E : k + 1 <= off p -> bodies w1 !! p = bodies w !! p) by (intros Hk; apply (wk_out _ _ _ _ _ _ W); intros [_ Hk']; lia).
  split; intros (b & Hb & Ha & Hr & Hc); (assert (E' := E ltac:(lia))); exists b; (split; [congruence|auto]).
Qed.

Definition by_offset (off : ptr -> Z) (p p' : ptr) : Prop := off p <= off p'.
Lemma sorted_app_off off k F1 F2 : (forall p, p ∈ F1 -> off p = k) -> (forall p, p ∈ F2 -> k <= off p) ->
  StronglySorted (by_offset off) F2 -> StronglySorted (by_offset off) (F1 ++ F2).
Proof.
  intros H1 H2 Hs. induction F1 as [|p F1 IH]; [exact Hs|]. cbn. constructor.
  - apply IH. intros. apply H1. now right.
  - apply Forall_forall. intros x Hx. unfold by_offset. rewrite (H1 p) by left.
    apply elem_of_app in Hx as [Hx|Hx]; [|auto]. rewrite (H1 x); [reflexivity|now right].
Qed.

Lemma frame_pos_trans w1 w2 w3 : frame w1 (with_pos (tiw_pos w1) w2) -> frame w2 (with_pos (tiw_pos w2) w3) -> frame w1 (with_pos (tiw_pos w1) w3).
Proof.
  intros [A1 A2 A3 A4] [B1 B2 B3 B4]. cbn in *. split; cbn; try congruence.
  destruct B4 as [B4|[B4 B5]]; [auto|]. destruct A4 as [A4|[A4 A5]]; [left|right]; split || idtac; congruence.
Qed.
Lemma frame_any_pos w w' n : frame w w' -> frame w (with_pos (tiw_pos w) (with_pos n w')).
Proof. intros [A1 A2 A3 A4]. split; cbn; auto. Qed.

Lemma bump_loop_spec pos0 dt off : 0 <= dt < 2 ^ 31 -> forall n k w q L Q, wf w L -> queue_ok w q Q ->
  tiw_pos w = (pos0 + k) mod TIW_SIZE -> 0 <= k -> k + Z.of_nat n <= TIW_SIZE -> offsets w pos0 off ->
  exists w' q' L' F,
    bump_loop n ((pos0 + dt) mod TIW_SIZE) (dt / TIW_SIZE + (if dt mod TIW_SIZE <? k then 0 else 1)) w q = Some (w', q') /\
    wf w' L' /\ queue_ok w' q' (Q ++ F) /\ frame w (with_pos (tiw_pos w) w') /\ walked off dt k (k + Z.of_nat n) w w' /\
    (forall p, p ∈ F <-> fired w off dt k (k + Z.of_nat n) p) /\ StronglySorted (by_offset off) F.
Proof.
  intros Hdt. induction n as [|n IH]; intros k w q L Q H Hq Hpos Hk Hn Hoff.
  { exists w, q, L, []. rewrite app_nil_r. splits; auto using SSorted_nil.
    - split; auto.
    - split; intros; [lia|auto].
    - intros p. unfold fired. split; [set_solver|]. intros (b & _ & _ & ? & _). lia. }
  cbn [bump_loop]. rewrite Nat2Z.inj_succ in *. destruct (cslot_next dt k Hdt Hk) as (C1 & C2 & C3).
  rewrite Hpos. replace ((pos0 + k) mod TIW_SIZE =? (pos0 + dt) mod TIW_SIZE) with (k =? dt mod TIW_SIZE)
    by (apply eq_iff_eq_true; rewrite !Z.eqb_eq; symmetry; apply same_pos; lia). rewrite C1, C2.
  set (s := (pos0 + k) mod TIW_SIZE).
  assert (Hsz : (length (L s) < S (size (heap w)))%nat).
  { apply le_n_S, NoDup_size; [apply H|]. intros p Hp. destruct (active_cell w L s p H Hp) as (t & Ht & _). eauto. }
  destruct (bump_slot_spec s (cslot dt k) C3 _ (L s) [] (Slot s) w q L Q H eq_refl eq_refl Hq Hsz)
    as (w1 & q1 & L1 & F1 & E1 & H1 & Q1 & Fr1 & _ & Pa & HF1).
  rewrite <- C2, E1. cbn [mbind option_bind].
  destruct (slot_walked L w w1 s (cslot dt k) pos0 k off dt H ltac:(lia) eq_refl eq_refl Hoff Pa) as [W1 Off1].
  set (w2 := with_pos ((tiw_pos w1 + 1) mod TIW_SIZE) w1).
  assert (Hpos2 : tiw_pos w2 = (pos0 + (k + 1)) mod TIW_SIZE).
  { cbn. rewrite (fr_pos _ _ Fr1), Hpos, Zplus_mod_idemp_l. f_equal. lia. }
  destruct (IH (k + 1) w2 q1 L1 (Q ++ F1) (wf_with_pos _ _ _ H1) (queue_with_pos _ _ _ _ Q1) Hpos2 ltac:(lia) ltac:(lia) Off1)
    as (w' & q' & L' & F2 & E2 & H2 & Q2 & Fr2 & W2 & HF2 & S2).
  rewrite C2, E2. exists w', q', L', (F1 ++ F2). rewrite <- app_assoc in Q2.
  replace (k + Z.succ (Z.of_nat n)) with (k + 1 + Z.of_nat n) in * by lia.
  assert (HF1' : forall p, p ∈ F1 <-> fired w off dt k (k + 1) p).
  { intros p. rewrite HF1, (lk_in _ _ (wf_links _ _ H)). unfold fired, expires. split.
    - intros [(b & Hb & Ha & Hs) (b' & Hb' & Hc)]. rewrite Hb in Hb'. injection Hb' as <-. exists b. 
      destruct (wf_range _ _ H p b Hb Ha) as [Hr _]. rewrite (Hoff p b Hb Ha), (proj1 (same_slot pos0 k (slot b) ltac:(lia) Hr) Hs). splits; auto; lia.
    - intros (b & Hb & Ha & Hr & Hc). assert (Eo : off p = k) by lia. rewrite Eo in Hc. split; [|eauto]. exists b. splits; auto.
      destruct (wf_range _ _ H p b Hb Ha) as [Hr' _]. apply same_slot; [lia|auto|]. now rewrite <- (Hoff p b Hb Ha). }
  assert (HF2' : forall p, p ∈ F2 <-> fired w off dt (k + 1) (k + 1 + Z.of_nat n) p).
  { intros p. rewrite HF2. exact (fired_later off dt k _ w w1 p W1). }
  splits; auto.
  - unfold s. rewrite <- Hpos. eapply frame_pos_trans; [|exact Fr2]. apply frame_any_pos; auto.
  - apply (walked_comp _ _ k (k + 1) _ w w2); [lia| |exact W2]. destruct W1 as [A B]. split; auto.
  - intros p. rewrite elem_of_app, HF1', HF2'. unfold fired. split.
    + intros [(b & ? & ? & ? & ?)|(b & ? & ? & ? & ?)]; exists b; splits; auto; lia.
    + intros (b & Hb & Ha & Hr & Hc). destruct (Z_lt_le_dec (off p) (k + 1)); [left|right]; exists b; splits; auto; lia.
  - apply (sorted_app_off off k); auto.
    + intros p Hp. apply HF1' in Hp as (b & _ & _ & ? & _). lia.
    + intros p Hp. apply HF2' in Hp as (b & _ & _ & ? & _). lia.
Qed.
