(* ===== verification/TimerInv.v ===== *)
(** The invariant [Inv] of the wheel between operations, the ticks every pending timer has left
    ([pending]), and insertion. *)

From S2P Require Import Prelude TimerWheel TimerLinks TimerBump.
From stdpp Require Import base option gmap fin_maps fin_map_dom list sorting.
Local Open Scope Z_scope.

(** ** The contract: the pending timers and the ticks they have left *)
Definition rem (pos : Z) (b : ErlTimer) : Z := count b * TIW_SIZE + (slot b - pos) mod TIW_SIZE.
Definition pending (w : wheel) : gmap ptr Z := omap (fun b => if active b then Some (rem (tiw_pos w) b) else None) (bodies w).
Record Inv (w : wheel) : Prop := {
  inv_wf : exists L, wf w L;
  inv_pos : 0 <= tiw_pos w < TIW_SIZE;
  inv_do : 0 <= do_time w < 2 ^ 31;
  inv_min p : tiw_min_ptr w = Some p -> pending w !! p = Some (tiw_min w) /\ forall q r, pending w !! q = Some r -> tiw_min w <= r }.

Lemma pending_Some w p r : pending w !! p = Some r <-> exists b, bodies w !! p = Some b /\ active b = true /\ r = rem (tiw_pos w) b.
Proof.
  unfold pending. rewrite lookup_omap. destruct (bodies w !! p) as [b|]; cbn.
  - destruct (active b) eqn:E.
    + split; [intros [= <-]; eauto|]. intros (b' & [= <-] & _ & ->). reflexivity.
    + split; [discriminate|]. intros (b' & [= <-] & ? & _). congruence.
  - split; [discriminate|]. intros (b' & ? & _). discriminate.
Qed.
Lemma pending_None w p : pending w !! p = None <-> ~ is_active (bodies w) p.
Proof.
  rewrite eq_None_not_Some. split.
  - intros H (b & Hb & Ha). apply H. eexists. apply pending_Some. eauto.
  - intros H [r Hr]. apply pending_Some in Hr as (b & Hb & Ha & _). apply H. exists b. auto.
Qed.
Lemma pending_is w p b : bodies w !! p = Some b -> pending w !! p = if active b then Some (rem (tiw_pos w) b) else None.
Proof. intros H. unfold pending. now rewrite lookup_omap, H. Qed.
Lemma pending_ext w w' p : bodies w' !! p = bodies w !! p -> tiw_pos w' = tiw_pos w -> pending w' !! p = pending w !! p.
Proof. intros H1 H2. unfold pending. now rewrite !lookup_omap, H1, H2. Qed.
Lemma rem_range w L p b : wf w L -> bodies w !! p = Some b -> active b = true ->
  0 <= rem (tiw_pos w) b < 2 ^ 64.
Proof. intros H Hb Ha. destruct (wf_range _ _ H p b Hb Ha) as [_ Hc]. unfold rem, TIW_SIZE. lia. Qed.
Lemma pending_nto w L : wf w L -> tiw_nto w = 0 -> pending w = ∅.
Proof.
  intros H E. rewrite (wf_nto _ _ H) in E. unfold nactive in E. apply map_eq. intros p. rewrite lookup_empty.
  apply pending_None. intros Hp. apply active_filter in Hp. assert (Hz : size (filter (fun kv => active (snd kv) = true) (bodies w)) = 0%nat) by lia.
  apply map_size_empty_inv in Hz. rewrite Hz, dom_empty_L in Hp. set_solver.
Qed.

(** ** Inserting a timer *)
Definition arm (f : Z) (c : option Z) (a : Z) (t : ErlTimer) : ErlTimer := set_active true (set_calls f c a t).
Definition armed (f : Z) (c : option Z) (a : Z) (pos ticks : Z) : ErlTimer :=
  mkTimer None None ((ticks + pos) mod TIW_SIZE) (ticks / TIW_SIZE) true f c a.

Lemma dseg_cons_new h h' p f l t : dseg h None f l None -> p ∉ l -> NoDup l ->
  h' !! p = Some t -> prev t = None -> next t = f ->
  (forall q, q <> p -> h' !! q = alter_opt (set_prev (Some p)) f h !! q) -> dseg h' None (Some p) (p :: l) None.
Proof.
  intros D Hp Hn Ht Hpv Hnx Ho. split; auto. exists t. splits; auto. rewrite Hnx.
  eapply dseg_frame; [intros q Hq; apply Ho; intros ->; contradiction|].
  destruct l as [|a l]; [exact D|]. pose proof D as [-> _]. cbn [alter_opt].
  apply (dseg_first_prev h None); auto.
Qed.

Definition min_after (w : wheel) (p : ptr) (ticks : Z) : option ptr * Z :=
  if (tiw_nto w =? 0) || (bool_decide (tiw_min_ptr w <> None) && (ticks <? tiw_min w)) then (Some p, ticks) else (tiw_min_ptr w, tiw_min w).

Lemma insert_eq p t w f c a t0 : heap w !! p = Some t0 -> tiw_min_ptr w <> Some p -> 0 <= t -> 0 <= do_time w -> t + do_time w < 2 ^ 64 ->
  0 <= tiw_pos w < TIW_SIZE ->
  let ticks := t + do_time w in let s := (ticks + tiw_pos w) mod TIW_SIZE in
  (forall n, tiw w !! s = Some n -> n <> p /\ is_Some (heap w !! n)) ->
  insert_timer p t (with_heap (alter (arm f c a) p (heap w)) w) =
  Some (mkWheel (alter_opt (set_prev (Some p)) (tiw w !! s)
                  (alter (fun t => set_prev None (set_next (tiw w !! s) (set_place s (ticks / TIW_SIZE) (arm f c a t)))) p (heap w)))
                (<[s := p]> (tiw w)) (tiw_pos w) (wadd (tiw_nto w) 1) (snd (min_after w p ticks)) (fst (min_after w p ticks)) (do_time w)).
Proof.
  intros Hp Hmin Ht Hd Hb Hpos ticks s Hn. unfold insert_timer. cbn [heap tiw tiw_pos do_time with_heap].
  assert (E1 : wadd (wadd t (TIW_ITIME - 1) / TIW_ITIME) (do_time w) = ticks).
  { unfold TIW_ITIME. rewrite Z.div_1_r. unfold wadd, w64, ticks. rewrite (Z.mod_small (t + _)) by lia. rewrite Z.mod_small; lia. }
  rewrite E1. assert (E2 : wadd ticks (tiw_pos w) mod TIW_SIZE = s).
  { unfold wadd, w64, s. rewrite <- (Znumtheory.Zmod_div_mod TIW_SIZE (2 ^ 64)); [reflexivity| | |exists (2 ^ 48)]; unfold TIW_SIZE; lia. }
  rewrite E2. rewrite upd_alter by (cbn; apply is_Some_alter; eauto). cbn [mbind option_bind heap with_heap].
  assert (Ea : forall g k (h : gmap ptr ErlTimer), alter g p (alter k p h) = alter (fun t => g (k t)) p h).
  { intros g k h. apply map_eq. intros q. destruct (decide (q = p)) as [->|N]; [|now rewrite !lookup_alter_ne].
    rewrite !lookup_alter_eq. now destruct (h !! p). }
  rewrite Ea.
  assert (Es : forall W, set_tiw s (Some p) W = mkWheel (heap W) (<[s := p]> (tiw W)) (tiw_pos W) (tiw_nto W) (tiw_min W) (tiw_min_ptr W) (do_time W)).
  { intros W. unfold set_tiw. f_equal. }
  assert (Hfin : forall h, (let w1 := set_tiw s (Some p) (with_heap h w) in
    let w1 := if (tiw_nto w1 =? 0) || (bool_decide (tiw_min_ptr w1 ≠ None) && (ticks <? tiw_min w1)) then with_min ticks (Some p) w1 else w1 in
    let w1 := if bool_decide (tiw_min_ptr w1 = Some p) && (ticks >? tiw_min w1) then with_min 0 None w1 else w1 in
    Some (with_nto (wadd (tiw_nto w1) 1) w1)) =
    Some (mkWheel h (<[s := p]> (tiw w)) (tiw_pos w) (wadd (tiw_nto w) 1) (snd (min_after w p ticks)) (fst (min_after w p ticks)) (do_time w))).
  { intros h. rewrite Es. unfold min_after. cbn [heap tiw tiw_pos tiw_nto tiw_min tiw_min_ptr do_time with_heap].
    destruct (_ || _); cbn [fst snd with_min tiw_min_ptr tiw_min].
    - rewrite Z.gtb_ltb, Z.ltb_irrefl, andb_false_r. reflexivity.
    - rewrite bool_decide_eq_false_2 by exact Hmin. reflexivity. }
  destruct (tiw w !! s) as [n|] eqn:En; cbn [alter_opt].
  - destruct (Hn n eq_refl) as [Nn Sn]. rewrite upd_alter by (cbn; rewrite lookup_alter_ne; auto).
    cbn [mbind option_bind]. exact (Hfin _).
  - cbn [mbind option_bind]. exact (Hfin _).
Qed.

Section Insert.
Variables (w : wheel) (L : Z -> list ptr) (p : ptr) (t0 : ErlTimer) (f : Z) (c : option Z) (a t : Z).
Hypotheses (Hwf : wf w L) (Hp : heap w !! p = Some t0) (Hina : active t0 = false) (Ht : 0 <= t) (Hd : 0 <= do_time w)
  (Hb : t + do_time w < 2 ^ 64) (Hpos : 0 <= tiw_pos w < TIW_SIZE).
Let ticks := t + do_time w.
Let s := (ticks + tiw_pos w) mod TIW_SIZE.

Lemma not_listed s' : p ∉ L s'.
Proof.
  intros F. apply (links_active w L s' p (wf_links _ _ Hwf)) in F as (b & B1 & B2).
  rewrite (bodies_lookup w p t0 Hp) in B1. injection B1 as <-. cbn in B2. congruence.
Qed.

Lemma insert_spec : exists w',
  insert_timer p t (with_heap (alter (arm f c a) p (heap w)) w) = Some w' /\ wf w' (set_slot L s (p :: L s)) /\
  bodies w' = <[p := armed f c a (tiw_pos w) ticks]> (bodies w) /\ tiw_pos w' = tiw_pos w /\ do_time w' = do_time w /\
  (tiw_min_ptr w', tiw_min w') = min_after w p ticks.
Proof.
  assert (Hmin : tiw_min_ptr w <> Some p).
  { intros E. apply (wf_min _ _ Hwf) in E as (b & B1 & B2). rewrite (bodies_lookup w p t0 Hp) in B1. injection B1 as <-. cbn in B2. congruence. }
  destruct (wf_links _ _ Hwf) as [Dl Il Nl].
  assert (Hhead : tiw w !! s = head (L s)) by (pose proof (Dl s) as D; destruct (L s); [exact D|destruct D as [-> _]; reflexivity]).
  assert (Hn : forall n, tiw w !! s = Some n -> n <> p /\ is_Some (heap w !! n)).
  { intros n En. rewrite Hhead in En. assert (Hin : n ∈ L s) by (destruct (L s); [discriminate|injection En as ->; left]).
    split; [intros ->; exact (not_listed s Hin)|]. eapply dseg_dom; eauto. }
  eexists. split; [exact (insert_eq p t w f c a t0 Hp Hmin Ht Hd Hb Hpos Hn)|]. fold ticks. fold s.
  set (h1 := alter _ p (heap w)). set (h' := alter_opt _ _ h1). set (w' := mkWheel _ _ _ _ _ _ _).
  assert (Hh1 : h1 !! p = Some (mkTimer (tiw w !! s) None s (ticks / TIW_SIZE) true f c a)).
  { unfold h1. rewrite lookup_alter_eq, Hp. reflexivity. }
  assert (Hhp : h' !! p = h1 !! p) by (apply alter_opt_ne; intros E; destruct (Hn p E); congruence).
  assert (Hhq : forall q, q <> p -> h' !! q = alter_opt (set_prev (Some p)) (tiw w !! s) (heap w) !! q).
  { intros q N. unfold h'. destruct (tiw w !! s) as [n|] eqn:En; cbn [alter_opt]; [|apply lookup_alter_ne; auto].
    destruct (decide (q = n)) as [->|N']; [rewrite !lookup_alter_eq|rewrite !(lookup_alter_ne _ _ n) by auto];
      unfold h1; rewrite lookup_alter_ne by auto; reflexivity. }
  assert (Bp : bodies w' = <[p := armed f c a (tiw_pos w) ticks]> (bodies w)).
  { unfold bodies. cbn [heap w']. unfold h'. rewrite body_alter_opt by reflexivity. apply map_eq. intros q.
    destruct (decide (q = p)) as [->|N].
    - rewrite lookup_insert_eq, lookup_fmap, Hh1. reflexivity.
    - rewrite lookup_insert_ne, !lookup_fmap by auto. unfold h1. now rewrite lookup_alter_ne. }
  assert (Hact : forall q, is_active (bodies w) q <-> is_active (bodies w') q /\ q <> p).
  { intros q. unfold is_active. rewrite Bp. destruct (decide (q = p)) as [->|N].
    - rewrite (bodies_lookup w p t0 Hp). split; [intros (b & [= <-] & B2); cbn in B2; congruence|tauto].
    - rewrite lookup_insert_ne by auto. tauto. }
  assert (Hap : is_active (bodies w') p) by (eexists; rewrite Bp, lookup_insert_eq; split; reflexivity).
  assert (Hdom : dom (heap w') = dom (heap w)).
  { rewrite <- !dom_bodies, Bp, dom_insert_L, dom_bodies. assert (p ∈ dom (heap w)) by (apply elem_of_dom; eauto). set_solver. }
  pose proof (nactive_remove _ _ _ Hap Hact) as Hc. pose proof (nactive_le (heap w')) as Hle. fold (bodies w') in Hle.
  assert (Hsz : size (heap w') = size (heap w)) by (rewrite <- !size_dom; now rewrite Hdom).
  pose proof (wf_size _ _ Hwf). pose proof (nactive_nonneg (bodies w)).
  assert (Hs : 0 <= s < TIW_SIZE) by (unfold s, TIW_SIZE; lia).
  assert (Em : (tiw_min_ptr w', tiw_min w') = min_after w p ticks) by (cbn; now destruct (min_after w p ticks)).
  splits; auto. split.
  - split.
    + intros s'. cbn [heap tiw w']. destruct (decide (s' = s)) as [->|N].
      * rewrite set_slot_eq, lookup_insert_eq. eapply (dseg_cons_new (heap w)); [exact (Dl s)|apply not_listed|apply Nl| | | |exact Hhq].
        -- rewrite Hhp. exact Hh1.
        -- reflexivity.
        -- reflexivity.
      * rewrite set_slot_ne, lookup_insert_ne by auto. eapply dseg_frame; [|exact (Dl s')]. intros q Hq.
        rewrite Hhq by (intros ->; exact (not_listed s' Hq)). apply alter_opt_ne. intros E. rewrite Hhead in E.
        assert (Hin : q ∈ L s) by (destruct (L s); [discriminate|injection E as ->; left]).
        apply Il in Hq as (b & B1 & _ & B2). apply Il in Hin as (b' & B1' & _ & B2'). congruence.
    + intros s' q. rewrite Bp. destruct (decide (q = p)) as [->|N].
      * rewrite lookup_insert_eq. split.
        -- intros F. eexists. splits; try reflexivity. cbn. destruct (decide (s' = s)) as [->|N]; [reflexivity|].
           rewrite set_slot_ne in F by auto. exfalso. exact (not_listed s' F).
        -- intros (b & [= <-] & _ & B). cbn in B. fold s in B. subst s'. rewrite set_slot_eq. left.
      * rewrite lookup_insert_ne by auto. rewrite <- Il. destruct (decide (s' = s)) as [->|N'].
        -- rewrite set_slot_eq, elem_of_cons. tauto.
        -- now rewrite set_slot_ne.
    + intros s'. destruct (decide (s' = s)) as [->|N]; [rewrite set_slot_eq|now rewrite set_slot_ne].
      apply NoDup_cons. split; [apply not_listed|apply Nl].
  - intros q b Hq Hqa. rewrite Bp in Hq. destruct (decide (q = p)) as [->|N].
    + rewrite lookup_insert_eq in Hq. injection Hq as <-. cbn. fold s. split; auto. unfold ticks, TIW_SIZE. lia.
    + rewrite lookup_insert_ne in Hq by auto. eapply wf_range; eauto.
  - cbn [tiw_nto w']. rewrite (wf_nto _ _ Hwf). unfold wadd, w64. rewrite Z.mod_small; lia.
  - rewrite Hsz. auto.
  - intros q Hq. assert (Eq : fst (min_after w p ticks) = Some q) by (rewrite <- Em; exact Hq). unfold min_after in Eq.
    destruct (_ || _); cbn in Eq; [injection Eq as <-; exact Hap|]. apply Hact. apply (wf_min _ _ Hwf), Eq.
Qed.
End Insert.

(** ** The operations *)
Lemma set_timer_spec w p f c a t delivered t0 : Inv w -> heap w !! p = Some t0 -> 0 <= t -> 0 <= delivered ->
  do_time w + delivered < 2 ^ 31 -> t + do_time w + delivered < 2 ^ 64 ->
  exists w', erts_set_timer p f c a t delivered w = Some w' /\ Inv w' /\ dom (heap w') = dom (heap w) /\
    do_time w' = do_time w + delivered /\
    pending w' = (if active t0 then pending w else <[p := t + do_time w']> (pending w)) /\
    (active t0 = false -> bodies w' !! p = Some (armed f c a (tiw_pos w) (t + do_time w'))) /\
    (forall q, q <> p -> bodies w' !! q = bodies w !! q).
Proof.
  intros [[L Hwf] Hpos Hdo Hmin] Hp Ht Hdl Hdd Hb. unfold erts_set_timer. set (w0 := with_do_time _ w).
  change (heap w0) with (heap w). rewrite Hp. cbn [mbind option_bind].
  assert (Hwf0 : wf w0 L) by (destruct Hwf as [[A B C] D E F G]; split; auto; split; auto).
  destruct (active t0) eqn:Ha.
  { exists w0. splits; auto; [|congruence]. split; eauto. cbn. lia. }
  rewrite upd_alter by (cbn; eauto). cbn [mbind option_bind]. fold (arm f c a).
  destruct (insert_spec w0 L p t0 f c a t Hwf0 Hp Ha Ht ltac:(cbn; lia) ltac:(cbn; lia) Hpos)
    as (w' & E & Hwf' & B' & P' & D' & M'). change (heap w0) with (heap w) in E.
  change (bodies w0) with (bodies w) in B'. change (tiw_pos w0) with (tiw_pos w) in *. change (do_time w0) with (do_time w + delivered) in *.
  assert (Hpe : pending w' = <[p := t + do_time w']> (pending w)).
  { apply map_eq. intros q. destruct (decide (q = p)) as [->|N].
    - rewrite lookup_insert_eq. apply pending_Some. eexists. rewrite B', lookup_insert_eq. splits; try reflexivity.
      rewrite P', D'. unfold rem. cbn. rewrite Zminus_mod_idemp_l. unfold TIW_SIZE. lia.
    - rewrite lookup_insert_ne by auto. apply pending_ext; auto. rewrite B'. now rewrite lookup_insert_ne. }
  exists w'. splits; auto.
  - split; eauto; try (rewrite ?P', ?D'; lia). intros q Hq. unfold min_after in M'. cbn [tiw_nto tiw_min_ptr tiw_min w0 with_do_time] in M'.
    change (do_time (with_do_time (do_time w + delivered) w)) with (do_time w + delivered) in M'. rewrite <- D' in M'.
    destruct (Z.eqb_spec (tiw_nto w) 0) as [Hn|Hn]; cbn [orb] in M'.
    + injection M' as M1 M2. rewrite M1 in Hq. injection Hq as <-. rewrite M2, Hpe, lookup_insert_eq. split; auto.
      intros r x Hx. apply lookup_insert_Some in Hx as [[_ <-]|[_ Hx]]; [lia|].
      rewrite (pending_nto w L Hwf Hn), lookup_empty in Hx. discriminate.
    + assert (Hnew : pending w !! p = None).
      { apply pending_None. intros (b & B1 & B2). rewrite (bodies_lookup w p t0 Hp) in B1. injection B1 as <-. cbn in B2. congruence. }
      destruct (tiw_min_ptr w) as [m|] eqn:Em.
      * destruct (Hmin m eq_refl) as [H1 H2]. rewrite bool_decide_eq_true_2 in M' by discriminate. cbn [andb] in M'.
        destruct (Z.ltb_spec (t + do_time w') (tiw_min w)); injection M' as M1 M2; rewrite M1 in Hq; injection Hq as <-; rewrite M2, Hpe.
        -- rewrite lookup_insert_eq. split; auto. intros r x Hx. apply lookup_insert_Some in Hx as [[_ <-]|[_ Hx]]; [lia|].
           specialize (H2 _ _ Hx). lia.
        -- rewrite lookup_insert_ne by congruence. split; auto. intros r x Hx. apply lookup_insert_Some in Hx as [[_ <-]|[_ Hx]]; [lia|eauto].
      * rewrite bool_decide_eq_false_2 in M' by auto. cbn [andb] in M'. injection M' as M1 M2. congruence.
  - rewrite <- !dom_bodies, B', dom_insert_L, dom_bodies. assert (p ∈ dom (heap w)) by (apply elem_of_dom; eauto). set_solver.
  - intros _. rewrite B', D'. apply lookup_insert_eq.
  - intros q N. rewrite B'. now apply lookup_insert_ne.
Qed.
