(* ===== verification/TimerOps.v ===== *)
(** Cancellation, the time left and the expiry of timers in terms of [pending]. *)

From S2P Require Import Prelude TimerWheel TimerLinks TimerBump TimerInv.
From stdpp Require Import base option gmap fin_maps fin_map_dom list sorting.
Local Open Scope Z_scope.

(** A smaller or later set of pending timers keeps the cached minimum. *)
Lemma cancel_timer_spec w p t0 : Inv w -> heap w !! p = Some t0 ->
  exists w', erts_cancel_timer p w = Some (w', if active t0 then (fun c => (c, arg t0)) <$> TimerWheel.cancel t0 else None) /\
    Inv w' /\ dom (heap w') = dom (heap w) /\ do_time w' = do_time w /\ pending w' = delete p (pending w) /\
    (forall q, q <> p -> bodies w' !! q = bodies w !! q).
Proof.
  intros [[L Hwf] Hpos Hdo Hmin] Hp. unfold erts_cancel_timer. rewrite Hp. cbn [mbind option_bind].
  destruct (active t0) eqn:Ha.
  2:{ exists w. splits; auto; [split; eauto|]. symmetry. apply delete_id, pending_None. intros (b & B1 & B2).
      rewrite (bodies_lookup w p t0 Hp) in B1. injection B1 as <-. cbn in B2. congruence. }
  fold (clear_min p w). destruct (take_out w L p t0 Hwf Hp Ha) as (l1 & l2 & w1 & E1 & Er & H1 & B1 & P1 & _ & F1 & _).
  rewrite Er. cbn [mbind option_bind]. rewrite upd_alter by eauto. cbn [mbind option_bind heap with_heap].
  rewrite lookup_alter_eq, P1. cbn [fmap option_fmap option_map mbind option_bind].
  set (w2 := with_heap _ w1). assert (Hnl : forall s, p ∉ set_slot L (slot t0) (l1 ++ l2) s).
  { intros s F. apply (links_active w1 _ s p (wf_links _ _ H1)) in F as (b & C1 & C2).
    rewrite (bodies_lookup w1 p _ P1) in C1. injection C1 as <-. discriminate. }
  assert (Hb2 : bodies w2 = alter (set_place 0 0) p (bodies w1)) by (apply body_alter; reflexivity).
  assert (Hb2p : bodies w2 !! p = Some (set_place 0 0 (set_active false (body t0)))).
  { rewrite Hb2, lookup_alter_eq, (bodies_lookup w1 p _ P1). reflexivity. }
  assert (Hb2q : forall q, q <> p -> bodies w2 !! q = bodies w !! q).
  { intros q N. rewrite Hb2, lookup_alter_ne, B1, lookup_alter_ne; auto. }
  assert (Hact : forall q, is_active (bodies w2) q <-> is_active (bodies w1) q).
  { intros q. unfold is_active. rewrite Hb2. destruct (decide (q = p)) as [->|N]; [|now rewrite lookup_alter_ne].
    rewrite lookup_alter_eq. destruct (bodies w1 !! p) as [b|]; cbn; [|tauto].
    split; intros (b' & [= <-] & ?); eexists; split; eauto. }
  assert (Hpe : pending w2 = delete p (pending w)).
  { apply map_eq. intros q. destruct (decide (q = p)) as [->|N].
    - rewrite lookup_delete_eq. apply pending_None. intros (b & C1 & C2). rewrite Hb2p in C1. injection C1 as <-. discriminate.
    - rewrite lookup_delete_ne by auto. apply pending_ext; [apply Hb2q; auto|]. apply F1. }
  exists w2. splits; auto.
  - split.
    + exists (set_slot L (slot t0) (l1 ++ l2)). destruct (wf_links _ _ H1) as [D1 I1 N1]. split; [split|..]; auto.
      * intros s. eapply dseg_frame; [|apply D1]. intros q Hq. apply lookup_alter_ne. intros ->. exact (Hnl s Hq).
      * intros s q. rewrite I1. rewrite Hb2. destruct (decide (q = p)) as [->|N]; [|now rewrite lookup_alter_ne].
        rewrite lookup_alter_eq, (bodies_lookup w1 p _ P1). cbn.
        split; intros (b & [= <-] & C & _); discriminate.
      * intros q b Hq Hqa. destruct (decide (q = p)) as [->|N]; [rewrite Hb2p in Hq; injection Hq as <-; discriminate|].
        rewrite Hb2q in Hq by auto. exact (wf_range _ _ Hwf q b Hq Hqa).
      * cbn [tiw_nto w2 with_heap]. rewrite (wf_nto _ _ H1). apply nactive_ext. intros q. now rewrite Hact.
      * cbn [heap w2 with_heap]. rewrite <- size_dom, dom_alter_L, size_dom. apply H1.
      * intros q Hq. apply Hact. exact (wf_min _ _ H1 q Hq).
    + cbn. rewrite (fr_pos _ _ F1). auto.
    + cbn. rewrite (fr_do _ _ F1). auto.
    + intros q Hq. cbn [tiw_min_ptr tiw_min w2 with_heap] in *.
      destruct (fr_min _ _ F1) as [G|[G1 G2]]; [congruence|]. rewrite G1 in Hq. rewrite G2, Hpe. destruct (Hmin q Hq) as [M1 M2].
      assert (q <> p).
      { intros ->. assert (Hp1 : tiw_min_ptr w1 = Some p) by congruence. apply (wf_min _ _ H1) in Hp1 as (b & C1 & C2).
        rewrite (bodies_lookup w1 p _ P1) in C1. injection C1 as <-. discriminate. }
      rewrite lookup_delete_ne by auto. split; auto. intros r x Hx. apply lookup_delete_Some in Hx as [_ Hx]. eauto.
  - cbn [heap w2 with_heap]. rewrite dom_alter_L. apply F1.
  - apply F1.
Qed.

Lemma time_left_spec w p t0 : Inv w -> heap w !! p = Some t0 ->
  erts_time_left p w = Some (match pending w !! p with Some r => Z.max 0 (r - do_time w) | None => 0 end).
Proof.
  intros [[L Hwf] Hpos Hdo Hmin] Hp. unfold erts_time_left. rewrite Hp. cbn [mbind option_bind].
  rewrite (pending_is w p _ (bodies_lookup w p t0 Hp)). change (active (body t0)) with (active t0).
  destruct (active t0) eqn:Ha; auto. destruct (wf_range _ _ Hwf p _ (bodies_lookup w p t0 Hp) Ha) as [Hs Hc]. cbn in Hs, Hc.
  assert (E : (if slot t0 <? tiw_pos w then w64 ((count t0 + 1) * TIW_SIZE + slot t0 - tiw_pos w)
               else w64 (count t0 * TIW_SIZE + slot t0 - tiw_pos w)) = rem (tiw_pos w) (body t0)).
  { unfold rem, w64, TIW_SIZE in *. cbn. destruct (Z.ltb_spec (slot t0) (tiw_pos w)).
    - rewrite <- (Z_mod_plus_full (slot t0 - tiw_pos w) 1), !Z.mod_small; lia.
    - rewrite !Z.mod_small; lia. }
  rewrite E. pose proof (rem_range w L p _ Hwf (bodies_lookup w p t0 Hp) Ha) as Hr. set (r := rem _ _) in *.
  f_equal. unfold TIW_ITIME, wmul, wsub, w64. destruct (Z.ltb_spec r (do_time w)).
  - cbn. lia.
  - rewrite (Z.mod_small (r - _)) by lia. rewrite Z.mul_1_r, Z.mod_small; lia.
Qed.

(** ** Calling the expired timers *)
Lemma wf_alter_inactive w L p t g : wf w L -> heap w !! p = Some t -> active t = false -> (forall u, active (g u) = active u) ->
  wf (with_heap (alter g p (heap w)) w) L /\ (forall q, q <> p -> bodies (with_heap (alter g p (heap w)) w) !! q = bodies w !! q) /\
  pending (with_heap (alter g p (heap w)) w) = pending w.
Proof.
  intros H Hp Ha Hg. set (w' := with_heap _ w).
  assert (Hq : forall q, q <> p -> bodies w' !! q = bodies w !! q).
  { intros q N. unfold bodies. rewrite !lookup_fmap. cbn [heap w' with_heap]. now rewrite lookup_alter_ne. }
  assert (Hna : ~ is_active (bodies w) p).
  { intros (b & B1 & B2). rewrite (bodies_lookup w p t Hp) in B1. injection B1 as <-. cbn in B2. congruence. }
  assert (Hna' : ~ is_active (bodies w') p).
  { intros (b & B1 & B2). unfold bodies in B1. rewrite lookup_fmap in B1. cbn [heap w' with_heap] in B1.
    rewrite lookup_alter_eq, Hp in B1. injection B1 as <-. cbn in B2. rewrite Hg in B2. congruence. }
  assert (Hact : forall q, is_active (bodies w) q <-> is_active (bodies w') q).
  { intros q. destruct (decide (q = p)) as [->|N]; [tauto|]. unfold is_active. now rewrite Hq. }
  splits; auto.
  - destruct (wf_links _ _ H) as [D I N]. split; [split|..]; auto.
    + intros s. eapply dseg_frame; [|apply D]. intros q Hin. apply lookup_alter_ne. intros ->.
      apply Hna. eapply links_active; eauto. apply H.
    + intros s q. rewrite I. destruct (decide (q = p)) as [->|N']; [|now rewrite Hq].
      split; intros (b & B1 & B2 & _); exfalso; [apply Hna|apply Hna']; exists b; auto.
    + intros q b B1 B2. destruct (decide (q = p)) as [->|N']; [exfalso; apply Hna'; exists b; auto|].
      rewrite Hq in B1 by auto. exact (wf_range _ _ H q b B1 B2).
    + cbn [tiw_nto w' with_heap]. rewrite (wf_nto _ _ H). now apply nactive_ext.
    + cbn [heap w' with_heap]. rewrite <- size_dom, dom_alter_L, size_dom. apply H.
    + intros q E. apply Hact. exact (wf_min _ _ H q E).
  - apply map_eq. intros q. destruct (decide (q = p)) as [->|N]; [|now apply pending_ext; [apply Hq|]].
    transitivity (@None Z); [now apply pending_None|]. symmetry. now apply pending_None.
Qed.

(** The callback and argument of a timer. *)
Definition procs (b : ErlTimer) : Z * Z := (timeout b, arg b).
Definition same_procs (w w' : wheel) : Prop := forall p, procs <$> bodies w' !! p = procs <$> bodies w !! p.
Lemma same_procs_trans w1 w2 w3 : same_procs w1 w2 -> same_procs w2 w3 -> same_procs w1 w3.
Proof. intros A B p. now rewrite B. Qed.
Lemma walked_procs off dt k0 k1 w w' : walked off dt k0 k1 w w' -> same_procs w w'.
Proof.
  intros [A B] p. destruct (decide (is_active (bodies w) p)) as [Hp|Hp].
  - destruct (Z_le_gt_dec k0 (off p)) as [G1|G1]; [destruct (Z_lt_le_dec (off p) k1) as [G2|G2]|].
    + destruct Hp as (b & Hb & Ha). rewrite (A p b Hb Ha (conj G1 G2)), Hb. cbn. unfold pass. now destruct (_ <? _).
    + rewrite B; auto. lia.
    + rewrite B; auto. lia.
  - rewrite B; tauto.
Qed.

Definition call_of (w : wheel) (p : ptr) (c : Z * Z) : Prop :=
  exists b, bodies w !! p = Some b /\ c = (timeout b, arg b).

Lemma call_of_impl w w' Q calls : (forall q c, q ∈ Q -> call_of w q c -> call_of w' q c) ->
  Forall2 (call_of w) Q calls -> Forall2 (call_of w') Q calls.
Proof.
  intros H F. induction F as [|p c Q calls E F IH]; constructor.
  - apply H; [left|auto].
  - apply IH. intros. apply H; [now right|auto].
Qed.

Lemma call_timeouts_spec Q : forall fuel f w L, wf w L -> sll (heap w) f Q -> NoDup Q -> (length Q <= fuel)%nat ->
  exists w' calls, call_timeouts fuel f w = Some (w', calls) /\ wf w' L /\ dom (heap w') = dom (heap w) /\ pending w' = pending w /\
    w' = with_heap (heap w') w /\ same_procs w w' /\ Forall2 (call_of w) Q calls.
Proof.
  induction Q as [|p Q IH]; intros fuel f w L H Hs Hn Hf.
  - cbn in Hs. subst f. exists w, []. assert (Ew : w = with_heap (heap w) w) by (destruct w; reflexivity).
    assert (Ec : call_timeouts fuel None w = Some (w, [])) by (destruct fuel; reflexivity).
    splits; auto. now intros p.
  - destruct Hs as (-> & t & Ht & Ha & Hs). destruct fuel as [|fuel]; [cbn in Hf; lia|]. apply NoDup_cons in Hn as [Hp Hn].
    cbn [call_timeouts]. rewrite Ht. cbn [mbind option_bind]. rewrite upd_alter by eauto. cbn [mbind option_bind].
    set (g := fun u => set_place 0 (count u) (set_prev None (set_next None u))).
    destruct (wf_alter_inactive w L p t g H Ht Ha ltac:(reflexivity)) as (H1 & B1 & P1).
    set (w1 := with_heap _ w) in *.
    destruct (IH fuel (next t) w1 L H1) as (w' & calls & E & H' & D' & P' & W' & S' & C'); auto; [|cbn in Hf; lia|].
    { eapply sll_frame; [|exact Hs]. intros q Hq. apply lookup_alter_ne. intros ->. contradiction. }
    rewrite E. cbn [mbind option_bind]. eexists _, _. splits; [reflexivity|auto| | | | |].
    + rewrite D'. cbn [heap w1 with_heap]. apply dom_alter_L.
    + congruence.
    + rewrite W'. reflexivity.
    + apply (same_procs_trans _ w1); auto. intros q. destruct (decide (q = p)) as [->|Nq]; [|now rewrite B1].
      rewrite (bodies_lookup w p t Ht), (bodies_lookup w1 p (g t)); [reflexivity|]. cbn [heap w1 with_heap]. now rewrite lookup_alter_eq, Ht.
    + constructor; [exists (body t); split; [now apply bodies_lookup|reflexivity]|].
      apply (call_of_impl w1); auto. intros q c Hq (b & Hb & Hc). exists b. rewrite <- B1 by (intros ->; contradiction). auto.
Qed.

(** ** Bumping *)
Lemma new_rem pos dt s c : 0 <= pos < TIW_SIZE -> 0 <= s < TIW_SIZE -> 0 <= dt -> 0 <= c ->
  let k := (s - pos) mod TIW_SIZE in let r := c * TIW_SIZE + k in
  let n := Z.min dt TIW_SIZE in
  (k < n -> (c < cslot dt k <-> r < dt) /\
            (cslot dt k <= c -> (c - cslot dt k) * TIW_SIZE + (s - (pos + dt) mod TIW_SIZE) mod TIW_SIZE = r - dt)) /\
  (n <= k -> dt <= r /\ c * TIW_SIZE + (s - (pos + dt) mod TIW_SIZE) mod TIW_SIZE = r - dt).
Proof.
  unfold cslot, TIW_SIZE. intros Hp Hs Hd Hc. cbv zeta. destruct (Z.leb_spec (dt mod 65536) ((s - pos) mod 65536)); lia.
Qed.

Definition expired (w : wheel) (dt : Z) (p : ptr) : Prop := exists r, pending w !! p = Some r /\ r < dt.
Definition off_of (w : wheel) (p : ptr) : Z := match bodies w !! p with Some b => (slot b - tiw_pos w) mod TIW_SIZE | None => 0 end.
Lemma off_of_mod w p r : pending w !! p = Some r -> off_of w p = r mod TIW_SIZE.
Proof.
  intros H. apply pending_Some in H as (b & Hb & Ha & ->). unfold off_of, rem. rewrite Hb.
  rewrite Z.add_comm, Z_mod_plus_full, Z.mod_mod by (unfold TIW_SIZE; lia). reflexivity.
Qed.

Lemma keep_lookup (m : gmap ptr Z) dt p : ((fun r => r - dt) <$> filter (fun kv => dt <= snd kv) m) !! p =
  match m !! p with Some r => if r <? dt then None else Some (r - dt) | None => None end.
Proof.
  rewrite lookup_fmap. destruct (m !! p) as [r|] eqn:E.
  - destruct (Z.ltb_spec r dt) as [H|H].
    + replace (filter (fun kv => dt <= snd kv) m !! p) with (@None Z); [reflexivity|].
      symmetry. apply map_lookup_filter_None. right. intros x Hx. cbn. rewrite E in Hx. injection Hx as <-. lia.
    + replace (filter (fun kv => dt <= snd kv) m !! p) with (Some r); [reflexivity|].
      symmetry. apply map_lookup_filter_Some. auto.
  - replace (filter (fun kv => dt <= snd kv) m !! p) with (@None Z); [reflexivity|].
    symmetry. apply map_lookup_filter_None. auto.
Qed.

Lemma walked_pending w L w1 dt : wf w L -> 0 <= tiw_pos w < TIW_SIZE -> 0 <= dt ->
  walked (off_of w) dt 0 (Z.min dt TIW_SIZE) w w1 -> tiw_pos w1 = (tiw_pos w + dt) mod TIW_SIZE ->
  pending w1 = (fun r => r - dt) <$> filter (fun kv => dt <= snd kv) (pending w) /\
  (forall p, fired w (off_of w) dt 0 (Z.min dt TIW_SIZE) p <-> expired w dt p).
Proof.
  intros H Hpos Hdt W Hp1.
  assert (Hone : forall p b, bodies w !! p = Some b -> active b = true ->
            pending w !! p = Some (rem (tiw_pos w) b) /\ off_of w p = (slot b - tiw_pos w) mod TIW_SIZE /\
            (off_of w p < Z.min dt TIW_SIZE -> count b < cslot dt (off_of w p) <-> rem (tiw_pos w) b < dt) /\
            (Z.min dt TIW_SIZE <= off_of w p -> dt <= rem (tiw_pos w) b) /\
            pending w1 !! p = if rem (tiw_pos w) b <? dt then None else Some (rem (tiw_pos w) b - dt)).
  { intros p b Hb Ha. destruct (wf_range _ _ H p b Hb Ha) as [Hs Hc].
    destruct (new_rem (tiw_pos w) dt (slot b) (count b) Hpos Hs Hdt ltac:(lia)) as [N1 N2].
    assert (Eo : off_of w p = (slot b - tiw_pos w) mod TIW_SIZE) by (unfold off_of; now rewrite Hb).
    assert (Hoff : 0 <= off_of w p < TIW_SIZE) by (rewrite Eo; unfold TIW_SIZE; lia).
    rewrite <- Eo in N1, N2. fold (rem (tiw_pos w) b) in N1, N2.
    assert (Er : rem (tiw_pos w) b = count b * TIW_SIZE + off_of w p) by (unfold rem; now rewrite Eo). rewrite <- Er in N1, N2.
    splits; auto; try (intros; apply N1; auto); try (intros; apply N2; auto).
    - rewrite (pending_is w p b Hb), Ha. reflexivity.
    - destruct (Z_lt_le_dec (off_of w p) (Z.min dt TIW_SIZE)) as [Hk|Hk].
      + rewrite (pending_is w1 p _ (wk_in _ _ _ _ _ _ W p b Hb Ha ltac:(lia))). unfold pass. destruct (N1 Hk) as [M1 M2].
        destruct (Z.ltb_spec (count b) (cslot dt (off_of w p))) as [G|G]; destruct (Z.ltb_spec (rem (tiw_pos w) b) dt) as [G'|G'];
          try (exfalso; tauto || lia); cbn [active set_active set_place]; auto. rewrite Ha. f_equal. rewrite Hp1. now apply M2.
      + rewrite (pending_is w1 p b) by (rewrite (wk_out _ _ _ _ _ _ W); [auto|lia]). destruct (N2 Hk) as [M1 M2].
        destruct (Z.ltb_spec (rem (tiw_pos w) b) dt) as [G'|G']; [lia|]. rewrite Ha. f_equal. unfold rem at 1. rewrite Hp1. exact M2. }
  split.
  - apply map_eq. intros p. rewrite keep_lookup. destruct (pending w !! p) as [r|] eqn:E.
    + pose proof E as (b & Hb & Ha & ->)%pending_Some. apply (Hone p b Hb Ha).
    + apply pending_None in E. apply pending_None. intros F. apply E. unfold is_active in F |- *.
      rewrite (wk_out _ _ _ _ _ _ W) in F by tauto. exact F.
  - intros p. unfold fired, expired. split.
    + intros (b & Hb & Ha & Hr & Hc). destruct (Hone p b Hb Ha) as (P1 & P2 & P3 & _). eexists. split; [exact P1|]. apply P3; [lia|auto].
    + intros (r & Hr & Hlt). pose proof Hr as (b & Hb & Ha & ->)%pending_Some. destruct (Hone p b Hb Ha) as (P1 & P2 & P3 & P4 & _).
      exists b. assert (0 <= off_of w p) by (rewrite P2; unfold TIW_SIZE; lia).
      assert (off_of w p < Z.min dt TIW_SIZE) by lia. splits; auto. now apply P3.
Qed.

Lemma queue_empty w : queue_ok w (mkQueue None None) [].
Proof. split; cbn; auto. constructor. Qed.

Lemma bump_timer_spec w dt : Inv w -> 0 <= dt < 2 ^ 31 ->
  exists w' calls Q, bump_timer_internal dt w = Some (w', calls) /\ Inv w' /\ dom (heap w') = dom (heap w) /\ do_time w' = do_time w /\
    pending w' = (fun r => r - dt) <$> filter (fun kv => dt <= snd kv) (pending w) /\
    NoDup Q /\ (forall p, p ∈ Q <-> expired w dt p) /\ same_procs w w' /\
    StronglySorted (by_offset (off_of w)) Q /\ Forall2 (call_of w) Q calls.
Proof.
  intros [[L Hwf] Hpos Hdo Hmin] Hdt. unfold bump_timer_internal.
  destruct (Z.eqb_spec (tiw_nto w) 0) as [Hn|Hn].
  { pose proof (pending_nto w L Hwf Hn) as E. exists w, [], []. rewrite E, map_filter_empty, fmap_empty. splits; auto.
    - split; eauto. 
    - constructor.
    - intros p. unfold expired. rewrite E. setoid_rewrite lookup_empty. split; [set_solver|intros (? & ? & _); discriminate].
    - now intros p.
    - constructor. }
  assert (Hoffs : offsets w (tiw_pos w) (off_of w)) by (intros p b Hb Ha; unfold off_of; now rewrite Hb).
  set (n := Z.to_nat (if dt >? TIW_SIZE then TIW_SIZE else dt)).
  assert (En : Z.of_nat n = Z.min dt TIW_SIZE) by (unfold n; rewrite Z.gtb_ltb; destruct (Z.ltb_spec TIW_SIZE dt); unfold TIW_SIZE in *; lia).
  destruct (bump_loop_spec (tiw_pos w) dt (off_of w) Hdt n 0 w _ L [] Hwf (queue_empty w)) as
    (w1 & q & L' & Q & E1 & H1 & Hq & F1 & W1 & HQ & HS); auto; try lia.
  { rewrite Z.add_0_r. symmetry. apply Z.mod_small. auto. }
  replace (if dt mod TIW_SIZE <? 0 then 0 else 1) with 1 in E1 by (destruct (Z.ltb_spec (dt mod TIW_SIZE) 0); unfold TIW_SIZE in *; lia).
  rewrite E1. cbn [mbind option_bind]. set (kp := (tiw_pos w + dt) mod TIW_SIZE). set (w2 := with_pos kp w1). rewrite En in *.
  assert (H2 : wf w2 L') by (apply wf_with_pos; auto).
  destruct (walked_pending w L w2 dt Hwf Hpos ltac:(lia)) as [P2 Hexp]; [destruct W1 as [A B]; split; auto|reflexivity|].
  set (w3 := if bool_decide (tiw_min_ptr w2 ≠ None) then _ else w2).
  assert (K3 : heap w3 = heap w2 /\ tiw w3 = tiw w2 /\ tiw_pos w3 = tiw_pos w2 /\ tiw_nto w3 = tiw_nto w2 /\ do_time w3 = do_time w2 /\
               tiw_min_ptr w3 = tiw_min_ptr w2 /\ (tiw_min_ptr w2 <> None -> tiw_min w3 = wsub (tiw_min w2) dt))
    by (unfold w3; case_bool_decide; cbn; splits; tauto).
  clearbody w3. destruct K3 as (K1 & K2 & K3 & K4 & K5 & K6 & K7).
  assert (H3 : wf w3 L').
  { destruct H2 as [[A B C] D E F G]. split; unfold bodies in *; rewrite ?K1, ?K4, ?K6; auto. split; unfold bodies; rewrite ?K1, ?K2; auto. }
  assert (P3 : pending w3 = pending w2) by (unfold pending, bodies; now rewrite K1, K3).
  destruct Hq as [Qs Qt Qn]. cbn [app] in *.
  assert (Hsz : (length Q <= size (heap w3))%nat).
  { apply NoDup_size; auto. intros p Hp. destruct (sll_inactive _ _ _ _ Qs Hp) as (t & Ht & _). rewrite K1. eauto. }
  destruct (call_timeouts_spec Q (size (heap w3)) (timeout_head q) w3 L' H3) as (w' & calls & E & H' & D' & P' & W' & S' & C'); auto.
  { rewrite K1. exact Qs. }
  exists w', calls, Q. rewrite E. assert (HQ' : forall p, p ∈ Q <-> expired w dt p) by (intros p; rewrite HQ; apply Hexp).
  destruct F1 as [_ F2 F3 F4]. cbn [do_time heap with_pos tiw_min_ptr tiw_min] in F2, F3, F4.
  assert (Edo : do_time w' = do_time w) by (rewrite W'; cbn; rewrite K5; exact F2).
  splits; auto.
  - split; [eauto| | |].
    + rewrite W'. cbn. rewrite K3. cbn. unfold kp, TIW_SIZE. lia.
    + rewrite Edo. auto.
    + intros p Hp. assert (E3 : tiw_min_ptr w3 = Some p) by (rewrite <- Hp, W'; reflexivity).
      assert (Em : tiw_min w' = tiw_min w3) by (rewrite W'; reflexivity).
      assert (E2 : tiw_min_ptr w1 = Some p) by (rewrite <- E3, K6; reflexivity).
      destruct F4 as [F4|[F4 F5]]; [congruence|]. rewrite F4 in E2. destruct (Hmin p E2) as [M1 M2].
      assert (Hin : pending w' !! p <> None) by (rewrite pending_None; intros G; apply G, (wf_min _ _ H'); auto).
      rewrite P', P3, P2, keep_lookup, M1 in Hin. destruct (Z.ltb_spec (tiw_min w) dt) as [Hgt|Hle]; [now destruct Hin|].
      pose proof M1 as (b & Hb & Ha & Er)%pending_Some. pose proof (rem_range w L p b Hwf Hb Ha) as Hr. rewrite <- Er in Hr.
      rewrite Em, K7 by (cbn; congruence). cbn [tiw_min w2 with_pos]. rewrite F5. unfold wsub, w64. rewrite Z.mod_small by lia.
      rewrite P', P3, P2. split.
      * rewrite keep_lookup, M1. destruct (Z.ltb_spec (tiw_min w) dt); [lia|reflexivity].
      * intros x r. rewrite keep_lookup. destruct (pending w !! x) as [r'|] eqn:Ex; [|discriminate].
        specialize (M2 _ _ Ex). destruct (r' <? dt); [discriminate|]. intros [= <-]. lia.
  - rewrite D', K1. exact F3.
  - congruence.
  - apply (same_procs_trans _ w3); auto. intros p. unfold bodies. rewrite K1. apply (walked_procs _ _ _ _ _ _ W1).
  - apply (call_of_impl w3); auto. intros p c Hp (b & Hb & ->). apply HQ' in Hp. apply Hexp in Hp as (b0 & Hb0 & Ha & Hr & _).
    exists b0. split; auto. assert (Eb : bodies w1 !! p = Some b) by (unfold bodies in *; rewrite K1 in Hb; exact Hb).
    rewrite (wk_in _ _ _ _ _ _ W1 p b0 Hb0 Ha Hr) in Eb. injection Eb as <-. unfold pass. now destruct (_ <? _).
Qed.
