(* ===== verification/TimerSpec.v ===== *)
(** The contract of the timer service: a map from timers to remaining milliseconds and a backlog
    of ticks, and the lemmas that every operation implements it. The search for the next timeout
    finds the least remaining time and caches it. *)

From S2P Require Import Prelude.
From stdpp Require Import base option gmap fin_maps fin_map_dom list sorting.
From S2P Require Import TimerWheel TimerLinks TimerBump TimerInv TimerOps.
Local Open Scope Z_scope.

(** The least number of ticks a pending timer has left. *)
Definition least (w : wheel) (m : Z) : Prop :=
  (exists p, pending w !! p = Some m) /\ forall q r, pending w !! q = Some r -> m <= r.
Definition U32_MAX : Z := 2 ^ 32 - 1.

(** The best candidate among the timers the search has [seen]. *)
Record best (w : wheel) (seen : list ptr) (mn m : Z) (mp : option ptr) : Prop := {
  be_seen q : q ∈ seen -> exists r, pending w !! q = Some r /\ TIW_SIZE <= r /\ mn <= r;
  be_min : mn = U32_MAX /\ mp = None \/ exists p, p ∈ seen /\ mp = Some p /\ m = mn /\ pending w !! p = Some mn /\ mn < U32_MAX }.

Lemma best_snoc w seen mn m mp p r : best w seen mn m mp -> pending w !! p = Some r -> TIW_SIZE <= r ->
  best w (seen ++ [p]) (if r <? mn then r else mn) (if r <? mn then r else m) (if r <? mn then Some p else mp).
Proof.
  intros [Hs Hm] Hp Hr. assert (mn <= U32_MAX) by (destruct Hm as [[-> _]|(? & _ & _ & _ & _ & ?)]; lia).
  destruct (Z.ltb_spec r mn) as [Hlt|Hge].
  - split.
    + intros q [Hq|Hq]%elem_of_app; [|apply list_elem_of_singleton in Hq as ->; exists r; splits; auto; lia].
      destruct (Hs q Hq) as (r' & ? & ? & ?). exists r'. splits; auto; lia.
    + right. exists p. splits; auto; [apply elem_of_app; right; left|lia].
  - split.
    + intros q [Hq|Hq]%elem_of_app; [auto|apply list_elem_of_singleton in Hq as ->; exists r; splits; auto; lia].
    + destruct Hm as [Hm|(p' & H1 & H2 & H3 & H4 & H5)]; [auto|]. right. exists p'. splits; auto. apply elem_of_app. auto.
Qed.

Lemma next_slot_spec w L tm : wf w L -> 0 <= tm < TIW_SIZE -> forall l fuel f pv seen mn m mp,
  dseg (heap w) pv f l None -> (length l <= fuel)%nat -> best w seen mn m mp ->
  (forall p, p ∈ l -> exists b, bodies w !! p = Some b /\ active b = true /\ rem (tiw_pos w) b = tm + count b * TIW_SIZE) ->
  (exists p, pending w !! p = Some tm /\
     next_slot fuel f tm (Z.of_nat (length seen)) mn (with_min m mp w) = Some (with_min tm (Some p) w, inl tt)) \/
  (exists m' mp' mn', next_slot fuel f tm (Z.of_nat (length seen)) mn (with_min m mp w) =
     Some (with_min m' mp' w, inr (Z.of_nat (length (seen ++ l)), mn')) /\ best w (seen ++ l) mn' m' mp').
Proof.
  intros Hwf Htm. induction l as [|p l IH]; intros fuel f pv seen mn m mp Hl Hf Hbest Hb.
  - cbn in Hl. subst f. right. exists m, mp, mn. rewrite app_nil_r. destruct fuel; auto.
  - destruct Hl as (-> & t & Ht & _ & Hl). destruct fuel as [|fuel]; [cbn in Hf; lia|]. cbn [next_slot heap with_min].
    rewrite Ht. cbn [mbind option_bind]. destruct (Hb p ltac:(left)) as (b & Hbp & Ha & Er).
    rewrite (bodies_lookup w p t Ht) in Hbp. injection Hbp as <-. cbn [count body set_prev set_next] in Er.
    destruct (wf_range _ _ Hwf p _ (bodies_lookup w p t Ht) Ha) as [_ Hc]. cbn in Hc.
    assert (Hpe : pending w !! p = Some (tm + count t * TIW_SIZE)).
    { rewrite (pending_is w p _ (bodies_lookup w p t Ht)), Ha. now rewrite Er. }
    destruct (Z.eqb_spec (count t) 0) as [E0|N0].
    { left. exists p. split; [|reflexivity]. rewrite Hpe, E0. f_equal. lia. }
    assert (Ew : w64 (tm + count t * TIW_SIZE) = tm + count t * TIW_SIZE) by (unfold w64, TIW_SIZE in *; apply Z.mod_small; lia).
    rewrite Ew. set (r := tm + count t * TIW_SIZE) in *.
    assert (Hb2 : best w (seen ++ [p]) (if r <? mn then r else mn) (if r <? mn then r else m) (if r <? mn then Some p else mp)).
    { apply best_snoc; auto. unfold r, TIW_SIZE. lia. }
    assert (Hu : r < mn -> u32 r = r).
    { intros Hlt. unfold u32. apply Z.mod_small. destruct Hbest as [_ [[-> _]|(_ & _ & _ & _ & _ & Hm)]]; unfold U32_MAX, r, TIW_SIZE in *; lia. }
    replace (Z.of_nat (length seen) + 1) with (Z.of_nat (length (seen ++ [p]))) by (rewrite length_app; cbn; lia).
    replace (seen ++ p :: l) with ((seen ++ [p]) ++ l) by (now rewrite <- app_assoc).
    destruct (Z.ltb_spec r mn) as [Hlt|Hge].
    + rewrite Hu by auto. change (with_min r (Some p) (with_min m mp w)) with (with_min r (Some p) w).
      apply (IH fuel (next t) (Some p)); auto; [cbn in Hf; lia|]. intros x Hx. apply Hb. now right.
    + apply (IH fuel (next t) (Some p)); auto; [cbn in Hf; lia|]. intros x Hx. apply Hb. now right.
Qed.

Lemma all_seen w L seen : wf w L -> NoDup seen -> (forall q, q ∈ seen -> is_active (bodies w) q) ->
  Z.of_nat (length seen) = tiw_nto w -> forall p, is_active (bodies w) p -> p ∈ seen.
Proof.
  intros H Hn Hs Hc p Hp. rewrite (wf_nto _ _ H) in Hc. unfold nactive in Hc.
  rewrite <- (size_list_to_set (C := gset ptr) seen Hn), <- size_dom in Hc.
  assert (E : (list_to_set seen : gset ptr) ≡ dom (filter (fun kv => active (snd kv) = true) (bodies w))).
  { apply set_subseteq_size_equiv; [|lia]. intros q Hq%elem_of_list_to_set. now apply active_filter, Hs. }
  apply active_filter, E, elem_of_list_to_set in Hp. auto.
Qed.

Definition clip (v : Z) : Z := Z.min (Z.max 0 v) ERTS_SHORT_TIME_T_MAX.

Lemma search_result w seen mn m mp dt : best w seen mn m mp -> 0 <= dt < 2 ^ 31 ->
  (forall p r, pending w !! p = Some r -> p ∈ seen) ->
  (forall p, mp = Some p -> pending w !! p = Some m /\ forall q r, pending w !! q = Some r -> m <= r) /\
  (forall M, least w M ->
    (if mn <=? u32 dt then 0 else if u32 (mn - u32 dt) >? ERTS_SHORT_TIME_T_MAX then ERTS_SHORT_TIME_T_MAX else s32 (mn - u32 dt)) = clip (M - dt)).
Proof.
  intros [Hs Hm] Hdt Hall. split.
  - intros p ->. destruct Hm as [[_ F]|(p' & H1 & [= <-] & -> & H4 & _)]; [discriminate|]. split; auto.
    intros q r Hq. destruct (Hs q (Hall q r Hq)) as (r' & H5 & _ & H6). rewrite Hq in H5. injection H5 as <-. exact H6.
  - intros M [[p Hp] HM]. destruct (Hs p (Hall p M Hp)) as (r & H5 & _ & H6). rewrite Hp in H5. injection H5 as <-.
    unfold u32, s32, clip, ERTS_SHORT_TIME_T_MAX, U32_MAX in *. unfold u32. rewrite (Z.mod_small dt) by lia. rewrite Z.gtb_ltb.
    destruct Hm as [[-> _]|(p' & _ & _ & _ & H4 & H5)].
    + destruct (Z.leb_spec (2 ^ 32 - 1) dt); [lia|]. rewrite (Z.mod_small (2 ^ 32 - 1 - dt)) by lia.
      destruct (Z.ltb_spec (2 ^ 31 - 1) (2 ^ 32 - 1 - dt)); lia.
    + specialize (HM _ _ H4). assert (mn = M) by lia. subst mn. pose proof H4 as (b & _ & _ & _)%pending_Some.
      assert (0 <= M) by (destruct (Hs p (Hall p M Hp)) as (r & H7 & H8 & _); rewrite Hp in H7; injection H7 as <-; unfold TIW_SIZE in H8; lia).
      destruct (Z.leb_spec M dt); [lia|]. rewrite (Z.mod_small (M - dt)) by lia.
      destruct (Z.ltb_spec (2 ^ 31 - 1) (M - dt)); [lia|]. destruct (Z.ltb_spec (M - dt) (2 ^ 31)); lia.
Qed.

(** The timers at distance [k] from the current position. *)
Lemma slot_cells w L k p : wf w L -> 0 <= k < TIW_SIZE ->
  p ∈ L ((tiw_pos w + k) mod TIW_SIZE) <->
  exists b, bodies w !! p = Some b /\ active b = true /\ rem (tiw_pos w) b = k + count b * TIW_SIZE.
Proof.
  intros H Hk. rewrite (lk_in _ _ (wf_links _ _ H)). split; intros (b & Hb & Ha & E); exists b; splits; auto;
    destruct (wf_range _ _ H p b Hb Ha) as [Hr _]; unfold rem in *.
  - rewrite (proj1 (same_slot (tiw_pos w) k (slot b) Hk Hr) E). lia.
  - apply same_slot; auto. lia.
Qed.

Definition seen_upto (w : wheel) (k : Z) (seen : list ptr) : Prop :=
  NoDup seen /\ forall p, p ∈ seen <-> exists r, pending w !! p = Some r /\ r mod TIW_SIZE < k.
Lemma seen_next w L k seen : wf w L -> 0 <= k < TIW_SIZE -> seen_upto w k seen ->
  seen_upto w (k + 1) (seen ++ L ((tiw_pos w + k) mod TIW_SIZE)).
Proof.
  intros H Hk [Hn Hs].
  assert (Hin : forall p, p ∈ L ((tiw_pos w + k) mod TIW_SIZE) <-> exists r, pending w !! p = Some r /\ r mod TIW_SIZE = k).
  { intros p. rewrite (slot_cells w L k p H Hk). split.
    - intros (b & Hb & Ha & E). exists (rem (tiw_pos w) b). split; [apply pending_Some; eauto|]. rewrite E, Z_mod_plus_full. now apply Z.mod_small.
    - intros (r & (b & Hb & Ha & ->)%pending_Some & E). exists b. splits; auto. unfold rem in *.
      rewrite Z.add_comm, Z_mod_plus_full, Z.mod_mod in E by (unfold TIW_SIZE; lia). lia. }
  split.
  - apply NoDup_app. splits; auto; [|apply (lk_nodup _ _ (wf_links _ _ H))].
    intros p (r & Hp & Hr)%Hs (r' & Hp' & Hr')%Hin. rewrite Hp in Hp'. injection Hp' as <-. lia.
  - intros p. rewrite elem_of_app, Hs, Hin. split.
    + intros [(r & ? & ?)|(r & ? & ?)]; exists r; split; auto; lia.
    + intros (r & Hp & Hr). destruct (Z_lt_le_dec (r mod TIW_SIZE) k); [left|right]; exists r; split; auto; lia.
Qed.

Lemma next_loop_spec w L : wf w L -> 0 <= tiw_pos w < TIW_SIZE -> 0 <= do_time w < 2 ^ 31 ->
  forall fuel k seen mn m mp, 0 <= k -> k + Z.of_nat fuel = TIW_SIZE -> (0 < fuel)%nat -> seen_upto w k seen -> best w seen mn m mp ->
  exists m' mp' v, next_loop fuel ((tiw_pos w + k) mod TIW_SIZE) k (Z.of_nat (length seen)) mn (with_min m mp w) = Some (with_min m' mp' w, v) /\
    (forall p, mp' = Some p -> pending w !! p = Some m' /\ forall q r, pending w !! q = Some r -> m' <= r) /\
    (forall M, least w M -> v = clip (M - do_time w)).
Proof.
  intros H Hpos Hdo. induction fuel as [|fuel IH]; intros k seen mn m mp Hk Hf Hf0 Hseen Hbest; [lia|].
  cbn [next_loop heap tiw with_min tiw_pos tiw_nto do_time]. set (s := (tiw_pos w + k) mod TIW_SIZE).
  destruct (next_slot_spec w L k H ltac:(lia) (L s) (size (heap w)) (tiw w !! s) None seen mn m mp) as
    [(p & Hp & E)|(m1 & mp1 & mn1 & E & Hb1)]; auto.
  - apply (lk_dll _ _ (wf_links _ _ H)).
  - apply NoDup_size; [apply (lk_nodup _ _ (wf_links _ _ H))|]. intros p Hp. destruct (active_cell w L s p H Hp) as (t & Ht & _). eauto.
  - intros p Hp. apply (slot_cells w L k p H); auto. lia.
  - rewrite E. cbn [mbind option_bind do_time with_min]. eexists _, _, _. split; [reflexivity|].
    assert (Hle : forall q r, pending w !! q = Some r -> k <= r).
    { intros q r Hq. pose proof Hq as (b & Hqb & Ha & Er)%pending_Some. pose proof (rem_range w L q b H Hqb Ha) as Hr. rewrite <- Er in Hr.
      destruct (Z_lt_le_dec (r mod TIW_SIZE) k) as [Hlt|Hge]; [|unfold TIW_SIZE in *; lia].
      destruct (be_seen _ _ _ _ _ Hbest q) as (r' & H1 & H2 & _); [apply Hseen; eauto|]. rewrite Hq in H1. injection H1 as <-. lia. }
    split.
    + intros p' [= <-]. auto.
    + intros M [[p' Hp'] HM]. specialize (HM _ _ Hp). specialize (Hle _ _ Hp'). unfold clip, ERTS_SHORT_TIME_T_MAX, TIW_SIZE in *.
      rewrite Z.geb_leb. destruct (Z.leb_spec (do_time w) k); lia.
  - rewrite E. cbn [mbind option_bind do_time with_min tiw_nto tiw_pos].
    pose proof (seen_next w L k seen H ltac:(lia) Hseen) as Hs1. fold s in Hs1.
    assert (Es : (s + 1) mod TIW_SIZE = (tiw_pos w + (k + 1)) mod TIW_SIZE) by (unfold s; rewrite Zplus_mod_idemp_l; f_equal; lia).
    rewrite Es. destruct ((_ =? _) || (_ =? _)) eqn:Estop.
    + assert (Hall : forall p r, pending w !! p = Some r -> p ∈ seen ++ L s).
      { intros p r Hp. apply orb_true_iff in Estop as [Estop|Estop]; apply Z.eqb_eq in Estop.
        - pose proof Hp as (b & Hpb & Ha & _)%pending_Some. destruct Hs1 as [N1 S1].
          apply (all_seen w L _ H N1); [|exact Estop|exists b; auto].
          intros q (r' & (b' & B1 & B2 & _)%pending_Some & _)%S1. exists b'. auto.
        - apply Hs1. exists r. split; auto. assert (k + 1 = TIW_SIZE); [|unfold TIW_SIZE in *; lia].
          unfold TIW_SIZE in *. lia. }
      destruct (search_result w _ mn1 m1 mp1 (do_time w) Hb1 Hdo Hall) as [R1 R2].
      eexists _, _, _. split; [reflexivity|]. auto.
    + apply orb_false_iff in Estop as [_ Estop]. apply Z.eqb_neq in Estop.
      assert (k + 1 <> TIW_SIZE) by (intros F; apply Estop; rewrite F; unfold TIW_SIZE in *; lia).
      apply (IH (k + 1)); auto; lia.
Qed.

Lemma next_time_spec w : Inv w -> exists w' v, next_time_internal w = Some (w', v) /\ Inv w' /\ heap w' = heap w /\ pending w' = pending w /\
  do_time w' = do_time w /\ (pending w = ∅ -> v = -1) /\
  (forall m, least w m -> tiw_min_ptr w = None \/ m - do_time w < 2 ^ 31 /\ m < 2 ^ 32 -> v = clip (m - do_time w)).
Proof.
  intros [[L Hwf] Hpos Hdo Hmin]. unfold next_time_internal. destruct (Z.eqb_spec (tiw_nto w) 0) as [Hn|Hn].
  { exists w, (-1). splits; auto; [split; eauto|]. intros m [[p Hp] _] _. rewrite (pending_nto w L Hwf Hn), lookup_empty in Hp. discriminate. }
  assert (Hne : pending w <> ∅).
  { intros E. apply Hn. rewrite (wf_nto _ _ Hwf). unfold nactive. replace (filter _ (bodies w)) with (∅ : gmap ptr ErlTimer); [reflexivity|].
    symmetry. apply map_empty. intros p. apply eq_None_not_Some. intros [b Hb]. apply map_lookup_filter_Some in Hb as [Hb Ha].
    assert (Hp : pending w !! p = Some (rem (tiw_pos w) b)) by (apply pending_Some; exists b; auto). rewrite E, lookup_empty in Hp. discriminate. }
  case_bool_decide as Hc.
  - eexists w, _. split; [reflexivity|]. splits; auto; [split; eauto|contradiction|].
    intros m [[p Hp] HM] [F|[Hm1 Hm2]]; [contradiction|]. destruct (tiw_min_ptr w) as [q|] eqn:Eq; [|now destruct Hc].
    destruct (Hmin q eq_refl) as [M1 M2]. assert (tiw_min w = m) by (specialize (M2 _ _ Hp); specialize (HM _ _ M1); lia). subst m.
    pose proof M1 as (b & Hb & Ha & Er)%pending_Some. pose proof (rem_range w L q b Hwf Hb Ha) as Hr. rewrite <- Er in Hr.
    unfold s32, u32, clip, ERTS_SHORT_TIME_T_MAX. rewrite (Z.mod_small (tiw_min w)) by lia. rewrite (Z.mod_small (do_time w)) by lia.
    rewrite Z.geb_leb. destruct (Z.leb_spec (do_time w) (tiw_min w)).
    + rewrite !(Z.mod_small (tiw_min w - do_time w)) by lia. destruct (Z.ltb_spec (tiw_min w - do_time w) (2 ^ 31)); lia.
    + replace (Z.max 0 (tiw_min w - do_time w)) with 0 by lia. reflexivity.
  - assert (Ew : with_min (tiw_min w) None w = w) by (rewrite <- Hc; now destruct w).
    destruct (next_loop_spec w L Hwf Hpos Hdo (Z.to_nat TIW_SIZE) 0 [] U32_MAX (tiw_min w) None) as (m' & mp' & v & E & R1 & R2);
      try (unfold TIW_SIZE; lia).
    + split; [constructor|]. intros p. split; [set_solver|]. intros (r & _ & Hr). unfold TIW_SIZE in Hr. lia.
    + split; [set_solver|auto].
    + rewrite Ew, Z.add_0_r, (Z.mod_small (tiw_pos w)) in E by auto. eexists _, _. split; [exact E|]. splits; auto; [|contradiction].
      split; auto. exists L. destruct Hwf as [[A B C] D F G I]. split; auto; [split; auto|]. 
      intros p Hp. destruct (R1 p Hp) as [(b & Hb & Ha & _)%pending_Some _]. exists b. auto.
Qed.

(** * The timer service as its clients see it *)

(** The milliseconds each active timer has left, backlog included. *)
Definition left (w : wheel) : gmap ptr Z := (fun r => r - do_time w) <$> pending w.

Inductive timer_op :=
  | Set_timer (p : ptr) (f : Z) (c : option Z) (a t : Z)
  | Cancel_timer (p : ptr)
  | Deliver (elapsed : Z)
  | Schedule
  | Time_left (p : ptr)
  | Next_time.

(** An operation of the wheel, with the callbacks it makes. *)
Definition run_op (o : timer_op) (w : wheel) : option (wheel * list (Z * Z)) :=
  match o with
  | Set_timer p f c a t => w ← erts_set_timer p f c a t 0 w; Some (w, [])
  | Cancel_timer p => '(w, c) ← erts_cancel_timer p w; Some (w, option_list c)
  | Deliver d => Some (erts_do_time_add d w, [])
  | Schedule => schedule_timers w
  | Time_left p => _ ← erts_time_left p w; Some (w, [])
  | Next_time => '(w, _) ← next_time_internal w; Some (w, [])
  end.
Fixpoint run_ops (os : list timer_op) (w : wheel) : option (wheel * list (Z * Z)) :=
  match os with
  | [] => Some (w, [])
  | o :: os => '(w, cs) ← run_op o w; '(w, cs') ← run_ops os w; Some (w, cs ++ cs')
  end.

(** The contract: a map from timers to remaining time, and the backlog. *)
Record service := mkService { remaining : gmap ptr Z; backlog : Z }.
Definition spec_op (o : timer_op) (s : service) : service :=
  match o with
  | Set_timer p _ _ _ t => mkService (match remaining s !! p with Some _ => remaining s | None => <[p := t]> (remaining s) end) (backlog s)
  | Cancel_timer p => mkService (delete p (remaining s)) (backlog s)
  | Deliver d => mkService ((fun r => r - d) <$> remaining s) (backlog s + d)
  | Schedule => mkService (filter (fun kv => 0 <= snd kv) (remaining s)) 0
  | Time_left _ | Next_time => s
  end.
Definition op_ok (ptrs : gset ptr) (o : timer_op) (s : service) : Prop :=
  match o with
  | Set_timer p _ _ _ t => p ∈ ptrs /\ 0 <= t < 2 ^ 63
  | Cancel_timer p | Time_left p => p ∈ ptrs
  | Deliver d => 0 <= d /\ backlog s + d < 2 ^ 31
  | Schedule | Next_time => True
  end.
Fixpoint ops_ok (ptrs : gset ptr) (os : list timer_op) (s : service) : Prop :=
  match os with
  | [] => True
  | o :: os => op_ok ptrs o s /\ ops_ok ptrs os (spec_op o s)
  end.
Definition abs (w : wheel) : service := mkService (left w) (do_time w).

Lemma left_lookup w p : left w !! p = (fun r => r - do_time w) <$> pending w !! p.
Proof. apply lookup_fmap. Qed.

Lemma do_time_add_spec w d : Inv w -> 0 <= d -> do_time w + d < 2 ^ 31 ->
  Inv (erts_do_time_add d w) /\ do_time (erts_do_time_add d w) = do_time w + d /\ pending (erts_do_time_add d w) = pending w.
Proof.
  intros [[L Hwf] Hpos Hdo Hmin] Hd Hb. unfold erts_do_time_add.
  assert (E : s32 (do_time w + d) = do_time w + d).
  { unfold s32, u32. rewrite Z.mod_small by lia. destruct (Z.ltb_spec (do_time w + d) (2 ^ 31)); lia. }
  rewrite E. splits; auto. split; auto; cbn; [|lia].
  exists L. destruct Hwf as [[A B C] D F G I]. split; auto. split; auto.
Qed.

Lemma schedule_spec w : Inv w -> exists w' calls Q, schedule_timers w = Some (w', calls) /\ Inv w' /\ dom (heap w') = dom (heap w) /\
  do_time w' = 0 /\ left w' = filter (fun kv => 0 <= snd kv) (left w) /\
  NoDup Q /\ (forall p, p ∈ Q <-> exists r, left w !! p = Some r /\ r < 0) /\
  same_procs w w' /\ Forall2 (call_of w) Q calls.
Proof.
  intros H. pose proof (inv_do w H) as Hd. unfold schedule_timers, erts_do_time_read_and_reset.
  destruct (Z.ltb_spec (do_time w) 0) as [Hneg|_]; [lia|]. cbn [mbind option_bind].
  assert (H0 : Inv (with_do_time 0 w)).
  { destruct H as [[L Hwf] Hpos _ Hmin]. split; auto; cbn; [|lia].
    exists L. destruct Hwf as [[A B C] D F G I]. split; auto. split; auto. }
  assert (Hle : forall p r, left w !! p = Some r -> 0 <= r + do_time w).
  { intros p r. rewrite left_lookup. destruct (pending w !! p) as [r'|] eqn:E; [|discriminate]. intros [= <-].
    destruct (inv_wf w H) as [L Hwf]. apply pending_Some in E as (b & Hb & Ha & ->). pose proof (rem_range w L p b Hwf Hb Ha). lia. }
  destruct (Z.eqb_spec (do_time w) 0) as [Ez|Nz].
  - exists (with_do_time 0 w), [], []. splits; auto.
    + unfold left at 1. cbn [do_time with_do_time]. change (pending (with_do_time 0 w)) with (pending w).
      apply map_eq. intros p. rewrite lookup_fmap. destruct (filter _ (left w) !! p) as [r|] eqn:E.
      * apply map_lookup_filter_Some in E as [E _]. rewrite left_lookup, Ez in E. exact E.
      * apply map_lookup_filter_None in E as [E|E].
        -- rewrite left_lookup, Ez in E. exact E.
        -- destruct (pending w !! p) as [r|] eqn:Er; [|reflexivity]. exfalso. apply (E (r - do_time w)).
           ++ now rewrite left_lookup, Er.
           ++ cbn. assert (G : left w !! p = Some (r - do_time w)) by now rewrite left_lookup, Er. specialize (Hle _ _ G). lia.
    + constructor.
    + intros p. split; [set_solver|]. intros (r & Hr & Hneg). specialize (Hle _ _ Hr). lia.
    + now intros p.
  - destruct (bump_timer_spec (with_do_time 0 w) (do_time w) H0 ltac:(lia)) as (w' & calls & Q & E & H' & D' & T' & P' & N & HQ & S' & _ & C').
    exists w', calls, Q. splits; auto.
    + unfold left at 1. rewrite T', P'. cbn [do_time with_do_time]. change (pending (with_do_time 0 w)) with (pending w).
      apply map_eq. intros p. rewrite lookup_fmap, keep_lookup. symmetry. destruct (pending w !! p) as [r|] eqn:Er.
      * destruct (Z.ltb_spec r (do_time w)); cbn.
        -- apply map_lookup_filter_None. right. intros x Hx. rewrite left_lookup, Er in Hx. injection Hx as <-. cbn. lia.
        -- apply map_lookup_filter_Some. rewrite left_lookup, Er. cbn. split; [f_equal; lia|lia].
      * cbn. apply map_lookup_filter_None. left. now rewrite left_lookup, Er.
    + intros p. rewrite HQ. unfold expired. change (pending (with_do_time 0 w)) with (pending w). setoid_rewrite left_lookup. split.
      * intros (r & Hr & Hlt). exists (r - do_time w). rewrite Hr. split; [reflexivity|lia].
      * intros (r & Hr & Hlt). destruct (pending w !! p) as [r'|]; [|discriminate]. injection Hr as <-. exists r'. split; [auto|lia].
Qed.

(** Every operation refines its contract. *)
Lemma run_op_spec o w : Inv w -> op_ok (dom (heap w)) o (abs w) ->
  exists w' calls, run_op o w = Some (w', calls) /\ Inv w' /\ dom (heap w') = dom (heap w) /\ abs w' = spec_op o (abs w).
Proof.
  intros H Hok. pose proof (inv_do w H) as Hd. destruct o; cbn [run_op op_ok spec_op abs remaining backlog] in *.
  - destruct Hok as [Hp Ht]. apply elem_of_dom in Hp as [t0 Hp].
    destruct (set_timer_spec w p f c a t 0 t0 H Hp) as (w' & E & H' & D' & T' & P' & _); try lia.
    exists w', []. rewrite E. splits; auto. rewrite Z.add_0_r in T'. unfold abs, left. rewrite T'. f_equal. rewrite P'.
    pose proof (pending_is w p _ (bodies_lookup w p t0 Hp)) as Hpe. change (active (body t0)) with (active t0) in Hpe.
    rewrite lookup_fmap, Hpe. destruct (active t0); cbn; auto. rewrite fmap_insert, T'. f_equal. lia.
  - apply elem_of_dom in Hok as [t0 Hp]. destruct (cancel_timer_spec w p t0 H Hp) as (w' & E & H' & D' & T' & P' & _).
    eexists w', _. rewrite E. splits; auto. unfold abs, left. rewrite T', P'. f_equal. now rewrite fmap_delete.
  - destruct Hok as [H0 Hb]. destruct (do_time_add_spec w elapsed H H0 Hb) as (H' & T' & P').
    eexists _, _. splits; auto. unfold abs, left. rewrite T', P'. f_equal. apply map_eq. intros q. rewrite !lookup_fmap.
    destruct (pending w !! q); cbn; [f_equal; lia|reflexivity].
  - destruct (schedule_spec w H) as (w' & calls & Q & E & H' & D' & T' & P' & _). exists w', calls. splits; auto.
    unfold abs. now rewrite T', P'.
  - apply elem_of_dom in Hok as [t0 Hp]. rewrite (time_left_spec w p t0 H Hp). exists w, []. auto.
  - destruct (next_time_spec w H) as (w' & v & E & H' & Hh & P' & T' & _). exists w', []. rewrite E. splits; auto.
    + now rewrite Hh.
    + unfold abs, left. now rewrite P', T'.
Qed.

(** ** Time passing: deliveries, each followed by a scheduler's check *)
Fixpoint ticks (ds : list Z) (w : wheel) : option (wheel * list (Z * Z)) :=
  match ds with
  | [] => Some (w, [])
  | d :: ds => '(w, cs) ← schedule_timers (erts_do_time_add d w); '(w, cs') ← ticks ds w; Some (w, cs ++ cs')
  end.
Fixpoint sum_of (ds : list Z) : Z := match ds with [] => 0 | d :: ds => d + sum_of ds end.

Lemma tick_spec d w : Inv w -> 0 <= d -> do_time w + d < 2 ^ 31 ->
  exists w' calls Q, schedule_timers (erts_do_time_add d w) = Some (w', calls) /\ Inv w' /\ dom (heap w') = dom (heap w) /\ do_time w' = 0 /\
    (forall p, left w' !! p = match left w !! p with Some r => if r <? d then None else Some (r - d) | None => None end) /\
    (forall p, p ∈ Q <-> exists r, left w !! p = Some r /\ r < d) /\ NoDup Q /\
    same_procs w w' /\ Forall2 (call_of w) Q calls.
Proof.
  intros H Hd Hb. destruct (do_time_add_spec w d H Hd Hb) as (H1 & T1 & P1).
  destruct (schedule_spec _ H1) as (w' & calls & Q & E & H' & D' & T' & L' & N & HQ & S' & C').
  assert (El : forall p, left (erts_do_time_add d w) !! p = (fun r => r - d) <$> left w !! p).
  { intros p. rewrite !left_lookup, P1, T1. destruct (pending w !! p); cbn; [f_equal; lia|reflexivity]. }
  exists w', calls, Q. splits; auto.
  - intros p. rewrite L'. destruct (left w !! p) as [r|] eqn:Er.
    + destruct (Z.ltb_spec r d).
      * apply map_lookup_filter_None. right. intros x. rewrite El, Er. intros [= <-]. cbn. lia.
      * apply map_lookup_filter_Some. rewrite El, Er. cbn. split; [reflexivity|lia].
    + apply map_lookup_filter_None. left. now rewrite El, Er.
  - intros p. rewrite HQ, El. split.
    + intros (r & Hr & Hn). destruct (left w !! p) as [r'|]; [|discriminate]. injection Hr as <-. exists r'. split; [auto|lia].
    + intros (r & Hr & Hn). rewrite Hr. exists (r - d). split; [reflexivity|lia].
Qed.

Lemma call_of_in w Q calls p : Forall2 (call_of w) Q calls -> p ∈ Q -> exists b, bodies w !! p = Some b /\ (timeout b, arg b) ∈ calls.
Proof.
  intros F. induction F as [|q c Q calls (b & Hb & ->) F IH]; [set_solver|]. intros [->|Hp]%elem_of_cons.
  - exists b. split; auto. left.
  - destruct (IH Hp) as (b' & ? & ?). exists b'. split; auto. now right.
Qed.

Lemma left_nonneg w p r : Inv w -> left w !! p = Some r -> 0 <= r + do_time w.
Proof.
  intros H. rewrite left_lookup. destruct (pending w !! p) as [r'|] eqn:E; [|discriminate]. intros [= <-].
  destruct (inv_wf w H) as [L Hwf]. apply pending_Some in E as (b & Hb & Ha & ->). pose proof (rem_range w L p b Hwf Hb Ha). lia.
Qed.
Lemma ticks_spec ds : forall w, Inv w -> do_time w = 0 -> (forall d, d ∈ ds -> 0 <= d < 2 ^ 31) ->
  exists w' calls, ticks ds w = Some (w', calls) /\ Inv w' /\ do_time w' = 0 /\ dom (heap w') = dom (heap w) /\ same_procs w w' /\
    0 <= sum_of ds /\
    forall q, left w' !! q = match left w !! q with Some r => if r <? sum_of ds then None else Some (r - sum_of ds) | None => None end.
Proof.
  induction ds as [|d ds IH]; intros w H Hz Hds; cbn [ticks sum_of].
  - assert (Sr : same_procs w w) by (now intros q). exists w, []. splits; auto; try lia. intros q. destruct (left w !! q) as [r|] eqn:Er; auto.
    pose proof (left_nonneg w q r H Er). destruct (Z.ltb_spec r 0); [lia|]. f_equal. lia.
  - pose proof (Hds d ltac:(now left)) as Hd.
    destruct (tick_spec d w H ltac:(lia) ltac:(lia)) as (w1 & c1 & Q & -> & H1 & D1 & T1 & L1 & _ & _ & S1 & _). cbn [mbind option_bind].
    destruct (IH w1 H1 T1) as (w2 & c2 & -> & H2 & T2 & D2 & S2 & Hs & L2); [intros; apply Hds; now right|]. cbn [mbind option_bind].
    eexists _, _. splits; eauto; [congruence|eapply same_procs_trans; eauto|lia|]. intros q. rewrite L2, L1.
    destruct (left w !! q) as [r|]; auto. destruct (Z.ltb_spec r d), (Z.ltb_spec r (d + sum_of ds)); auto; try lia;
      destruct (Z.ltb_spec (r - d) (sum_of ds)); auto; try lia. f_equal. lia.
Qed.

(** A fresh set of timers, none of them active. *)
Lemma fresh_inv (h : gmap ptr ErlTimer) : (forall p t, h !! p = Some t -> active t = false) -> Z.of_nat (size h) < 2 ^ 64 ->
  Inv (with_heap h erts_init_time).
Proof.
  intros Hi Hs. assert (Hna : forall p, ~ is_active (bodies (with_heap h erts_init_time)) p).
  { intros p (b & Hb & Ha). unfold bodies in Hb. cbn in Hb. rewrite lookup_fmap in Hb.
    destruct (h !! p) as [t|] eqn:E; [|discriminate]. injection Hb as <-. cbn in Ha. rewrite (Hi p t E) in Ha. discriminate. }
  split; cbn; try lia.
  - exists (fun _ => []). split; [split| | | |]; cbn; auto.
    + intros s p. split; [set_solver|]. intros (b & Hb & Ha & _). exfalso. apply (Hna p). exists b. auto.
    + intros s. constructor.
    + intros p b Hb Ha. exfalso. apply (Hna p). exists b. auto.
    + unfold nactive. replace (filter _ _) with (∅ : gmap ptr ErlTimer); [reflexivity|]. symmetry. apply map_empty.
      intros p. apply eq_None_not_Some. intros [b Hb]. apply map_lookup_filter_Some in Hb as [Hb Ha]. apply (Hna p). exists b. auto.
    + discriminate.
  - unfold TIW_SIZE. lia.
  - discriminate.
Qed.
