(* ===== verification/TimerProps.v ===== *)
(** The properties of the timers and of the delivery of time, each with a concrete instance. *)

From S2P Require Import Prelude TimerWheel TimerLinks TimerBump TimerInv TimerOps TimerSpec.
From stdpp Require Import base option gmap fin_maps fin_map_dom list sorting.
Local Open Scope Z_scope.

(** ** Example wheels *)
Definition idle : ErlTimer := mkTimer None None 0 0 false 0 None 0.
Definition ex_heap : gmap ptr ErlTimer := {[ 1%positive := idle; 2%positive := idle; 3%positive := idle ]}.
Definition ex_wheel : wheel := with_heap ex_heap erts_init_time.
Lemma ex_wheel_inv : Inv ex_wheel.
Proof.
  apply fresh_inv; [|vm_compute; reflexivity]. intros p t H. unfold ex_heap in H.
  apply lookup_insert_Some in H as [[_ <-]|[_ H]]; [reflexivity|]. apply lookup_insert_Some in H as [[_ <-]|[_ H]]; [reflexivity|].
  apply lookup_singleton_Some in H as [_ <-]. reflexivity.
Qed.
(** The first timer set to 5, the second to 70000 and the third to 2. *)
Definition ex_ops : list timer_op :=
  [Set_timer 1%positive 11 None 101 5; Set_timer 2%positive 12 (Some 7) 102 70000; Set_timer 3%positive 13 None 103 2].
Definition ex_run : option (wheel * list (Z * Z)) := run_ops ex_ops ex_wheel.
Definition ex_armed : wheel := match ex_run with Some (w, _) => w | None => ex_wheel end.

Lemma run_ops_spec os : forall w, Inv w -> ops_ok (dom (heap w)) os (abs w) ->
  exists w' calls, run_ops os w = Some (w', calls) /\ Inv w' /\ dom (heap w') = dom (heap w) /\ abs w' = fold_left (fun s o => spec_op o s) os (abs w).
Proof.
  induction os as [|o os IH]; intros w H Hok; cbn [run_ops fold_left ops_ok] in *.
  - exists w, []. auto.
  - destruct Hok as [Ho Hok]. destruct (run_op_spec o w H Ho) as (w1 & c1 & -> & H1 & D1 & A1). cbn [mbind option_bind].
    rewrite <- A1 in *. rewrite <- D1 in Hok. destruct (IH w1 H1 Hok) as (w2 & c2 & -> & H2 & D2 & A2). cbn [mbind option_bind].
    eexists _, _. splits; eauto. congruence.
Qed.
Lemma ex_ops_ok : ops_ok (dom (heap ex_wheel)) ex_ops (abs ex_wheel).
Proof. unfold ex_ops. cbn [ops_ok op_ok]. splits; try exact I; try lia; apply elem_of_dom; eexists; reflexivity. Qed.
Lemma ex_armed_inv : Inv ex_armed /\ dom (heap ex_armed) = dom ex_heap.
Proof.
  destruct (run_ops_spec ex_ops ex_wheel ex_wheel_inv ex_ops_ok) as (w & c & E & H & D & _).
  unfold ex_armed, ex_run. rewrite E. auto.
Qed.

(** ** The properties *)
(** C8. The wheel implements the timer service: any sequence of operations from a consistent
    wheel runs without touching an invalid pointer, keeps the invariant, and acts on the remaining
    times as the abstract map from timers to milliseconds does. *)
Theorem timers_refine (w : wheel) (os : list timer_op) :
  Inv w -> ops_ok (dom (heap w)) os (abs w) ->
  exists w' calls, run_ops os w = Some (w', calls) /\ Inv w' /\ abs w' = fold_left (fun s o => spec_op o s) os (abs w).
Proof. intros H Hok. destruct (run_ops_spec os w H Hok) as (w' & c & E & H' & _ & A). eauto. Qed.
Lemma timers_refine_witness :
  (Inv ex_wheel /\ ops_ok (dom (heap ex_wheel)) ex_ops (abs ex_wheel)) /\
  exists w' calls, run_ops ex_ops ex_wheel = Some (w', calls) /\ Inv w' /\ abs w' = fold_left (fun s o => spec_op o s) ex_ops (abs ex_wheel).
Proof. split; [exact (conj ex_wheel_inv ex_ops_ok)|]. exact (timers_refine ex_wheel ex_ops ex_wheel_inv ex_ops_ok). Defined.

(** C9. A scheduler check after d ticks calls back exactly the timers with less than d ticks
    left, each once and with its own callback and argument, and takes d ticks off the others. *)
Theorem timeouts_exact (w : wheel) (d : Z) : Inv w -> 0 <= d -> do_time w + d < 2 ^ 31 ->
  exists w' calls Q, schedule_timers (erts_do_time_add d w) = Some (w', calls) /\ Inv w' /\
    (forall p, p ∈ Q <-> exists r, left w !! p = Some r /\ r < d) /\ NoDup Q /\ Forall2 (call_of w) Q calls /\
    (forall p, left w' !! p = match left w !! p with Some r => if r <? d then None else Some (r - d) | None => None end).
Proof. intros H Hd Hb. destruct (tick_spec d w H Hd Hb) as (w' & cs & Q & E & H' & _ & _ & L & HQ & N & _ & C). exists w', cs, Q. auto 10. Qed.
Lemma timeouts_exact_witness : (Inv ex_armed /\ 0 <= 6 /\ do_time ex_armed + 6 < 2 ^ 31) /\
  (exists w' calls Q, schedule_timers (erts_do_time_add 6 ex_armed) = Some (w', calls) /\ Inv w' /\
    (forall p, p ∈ Q <-> exists r, left ex_armed !! p = Some r /\ r < 6) /\ NoDup Q /\ Forall2 (call_of ex_armed) Q calls /\
    (forall p, left w' !! p = match left ex_armed !! p with Some r => if r <? 6 then None else Some (r - 6) | None => None end)) /\
  snd <$> schedule_timers (erts_do_time_add 6 ex_armed) = Some [(13, 103); (11, 101)].
Proof.
  assert (H : Inv ex_armed /\ 0 <= 6 /\ do_time ex_armed + 6 < 2 ^ 31) by (split; [apply ex_armed_inv|vm_compute; split; [discriminate|reflexivity]]).
  split; [exact H|]. destruct H as (H1 & H2 & H3). split; [exact (timeouts_exact ex_armed 6 H1 H2 H3)|]. vm_compute. reflexivity.
Defined.

(** Within one turn of the wheel the callbacks are made in the order of the timeouts. *)
Theorem timeouts_ordered (w : wheel) (dt : Z) : Inv w -> 0 <= dt <= TIW_SIZE ->
  exists w' calls Q, bump_timer_internal dt w = Some (w', calls) /\ Forall2 (call_of w) Q calls /\
    (forall p, p ∈ Q <-> exists r, pending w !! p = Some r /\ r < dt) /\
    StronglySorted (fun p q => forall r s, pending w !! p = Some r -> pending w !! q = Some s -> r <= s) Q.
Proof.
  intros H Hdt. destruct (bump_timer_spec w dt H ltac:(unfold TIW_SIZE in *; lia)) as (w' & cs & Q & E & _ & _ & _ & _ & _ & HQ & _ & HS & HC).
  exists w', cs, Q. splits; auto. assert (Hsub : forall p, p ∈ Q -> expired w dt p) by (intros; now apply HQ). clear HQ HC E.
  induction HS as [|p Q HS IH HF]; constructor.
  - apply IH. intros. apply Hsub. now right.
  - apply Forall_forall. intros q Hq r s Hr Hs. rewrite Forall_forall in HF. specialize (HF q Hq). unfold by_offset in HF.
    rewrite (off_of_mod w p r Hr), (off_of_mod w q s Hs) in HF.
    destruct (Hsub p ltac:(left)) as (r' & Hr' & Hlt). destruct (Hsub q ltac:(now right)) as (s' & Hs' & Hlt').
    rewrite Hr in Hr'. injection Hr' as <-. rewrite Hs in Hs'. injection Hs' as <-.
    destruct (inv_wf w H) as [L Hwf]. apply pending_Some in Hr as (b & Hb & Ha & ->). apply pending_Some in Hs as (b' & Hb' & Ha' & ->).
    pose proof (rem_range w L p b Hwf Hb Ha). pose proof (rem_range w L q b' Hwf Hb' Ha').
    unfold TIW_SIZE in *. rewrite !Z.mod_small in HF by lia. exact HF.
Qed.
Lemma timeouts_ordered_witness : (Inv ex_armed /\ 0 <= 6 <= TIW_SIZE) /\
  exists w' calls Q, bump_timer_internal 6 ex_armed = Some (w', calls) /\ Forall2 (call_of ex_armed) Q calls /\
    (forall p, p ∈ Q <-> exists r, pending ex_armed !! p = Some r /\ r < 6) /\
    StronglySorted (fun p q => forall r s, pending ex_armed !! p = Some r -> pending ex_armed !! q = Some s -> r <= s) Q.
Proof.
  assert (H : Inv ex_armed /\ 0 <= 6 <= TIW_SIZE) by (split; [apply ex_armed_inv|unfold TIW_SIZE; lia]).
  split; [exact H|]. exact (timeouts_ordered ex_armed 6 (proj1 H) (proj2 H)).
Defined.

(** C10. An active timer fires once enough time has passed, in the first check that finds its
    time exceeded, however the time is cut into deliveries. *)
Theorem timer_fires (p : ptr) (ds : list Z) : forall (w : wheel) (r : Z) (t : ErlTimer),
  Inv w -> do_time w = 0 -> left w !! p = Some r -> heap w !! p = Some t ->
  (forall d, d ∈ ds -> 0 <= d < 2 ^ 31) -> sum_of ds > r ->
  exists ds1 d ds2 w1 c1 w2 c2, ds = ds1 ++ d :: ds2 /\ sum_of ds1 <= r < sum_of ds1 + d /\
    ticks ds1 w = Some (w1, c1) /\ left w1 !! p = Some (r - sum_of ds1) /\
    schedule_timers (erts_do_time_add d w1) = Some (w2, c2) /\ left w2 !! p = None /\ (timeout t, arg t) ∈ c2.
Proof.
  induction ds as [|d ds IH]; intros w r t H Hz Hl Ht Hds Htot.
  { exfalso. cbn in Htot. rewrite left_lookup, Hz in Hl. destruct (pending w !! p) as [r'|] eqn:E; [|discriminate].
    injection Hl as <-. destruct (inv_wf w H) as [L Hwf]. apply pending_Some in E as (b & Hb & Ha & ->). pose proof (rem_range w L p b Hwf Hb Ha). lia. }
  cbn in Htot. pose proof (Hds d ltac:(left)) as Hd.
  destruct (tick_spec d w H ltac:(lia) ltac:(lia)) as (w1 & c1 & Q & E & H1 & D1 & T1 & L1 & HQ & N & SP & C).
  assert (Hr0 : 0 <= r).
  { rewrite left_lookup, Hz in Hl. destruct (pending w !! p) as [r'|] eqn:E'; [|discriminate].
    injection Hl as <-. destruct (inv_wf w H) as [L Hwf]. apply pending_Some in E' as (b & Hb & Ha & ->). pose proof (rem_range w L p b Hwf Hb Ha). lia. }
  pose proof (L1 p) as L1p. rewrite Hl in L1p. destruct (Z.ltb_spec r d) as [Hlt|Hge].
  - exists [], d, ds, w, [], w1, c1. cbn [app ticks sum_of]. splits; auto; try lia.
    + rewrite Hl. f_equal. lia.
    + destruct (call_of_in w Q c1 p C) as (b & Hb & Hin); [apply HQ; eauto|].
      rewrite (bodies_lookup w p t Ht) in Hb. injection Hb as <-. exact Hin.
  - assert (exists t1, heap w1 !! p = Some t1) as [t1 Ht1] by (apply elem_of_dom; rewrite D1; apply elem_of_dom; eauto).
    destruct (IH w1 (r - d) t1 H1 T1 L1p Ht1) as (ds1 & d' & ds2 & w2 & c2 & w3 & c3 & -> & R1 & R2 & R3 & R4 & R5 & R6).
    { intros x Hx. apply Hds. now right. }
    { lia. }
    exists (d :: ds1), d', ds2, w2, (c1 ++ c2), w3, c3. cbn [ticks sum_of app]. rewrite E. cbn [mbind option_bind]. rewrite R2. splits; auto; try lia.
    + rewrite R3. f_equal. lia.
    + pose proof (SP p) as Ep. rewrite (bodies_lookup w p t Ht), (bodies_lookup w1 p t1 Ht1) in Ep. injection Ep as Et Ea.
      cbn in Et, Ea. rewrite <- Et, <- Ea. exact R6.
Qed.
Lemma timer_fires_witness :
  (Inv ex_armed /\ do_time ex_armed = 0 /\ left ex_armed !! 1%positive = Some 5 /\ timeout <$> heap ex_armed !! 1%positive = Some 11) /\
  exists ds1 d ds2 w1 c1 w2 c2, [3; 3; 3] = ds1 ++ d :: ds2 /\ sum_of ds1 <= 5 < sum_of ds1 + d /\
    ticks ds1 ex_armed = Some (w1, c1) /\ left w1 !! 1%positive = Some (5 - sum_of ds1) /\
    schedule_timers (erts_do_time_add d w1) = Some (w2, c2) /\ left w2 !! 1%positive = None /\ (11, 101) ∈ c2.
Proof.
  assert (E : Inv ex_armed /\ do_time ex_armed = 0 /\ left ex_armed !! 1%positive = Some 5 /\ timeout <$> heap ex_armed !! 1%positive = Some 11)
    by (split; [apply ex_armed_inv|vm_compute; auto]).
  split; [exact E|]. destruct E as (H & Hz & Hl & _).
  apply (timer_fires 1%positive [3; 3; 3] ex_armed 5 (mkTimer None None 5 0 true 11 None 101) H Hz Hl); [vm_compute; reflexivity| |vm_compute; reflexivity].
  intros d Hd. repeat (apply elem_of_cons in Hd as [->|Hd]; [lia|]). apply elem_of_nil in Hd. destruct Hd.
Defined.

(** Delivering time in pieces has the same effect on the remaining times as delivering the sum
    at once. *)
Theorem ticks_compose (w : wheel) (ds : list Z) : Inv w -> do_time w = 0 -> (forall d, d ∈ ds -> 0 <= d < 2 ^ 31) ->
  exists w' calls, ticks ds w = Some (w', calls) /\ Inv w' /\
    forall q, left w' !! q = match left w !! q with Some r => if r <? sum_of ds then None else Some (r - sum_of ds) | None => None end.
Proof. intros H Hz Hds. destruct (ticks_spec ds w H Hz Hds) as (w' & c & E & H' & _ & _ & _ & _ & L). eauto. Qed.
Lemma ticks_compose_witness : (Inv ex_armed /\ do_time ex_armed = 0) /\
  exists w' calls, ticks [3; 70000] ex_armed = Some (w', calls) /\ Inv w' /\
    forall q, left w' !! q = match left ex_armed !! q with Some r => if r <? sum_of [3; 70000] then None else Some (r - sum_of [3; 70000]) | None => None end.
Proof.
  assert (E : Inv ex_armed /\ do_time ex_armed = 0) by (split; [apply ex_armed_inv|vm_compute; auto]).
  split; [exact E|]. apply (ticks_compose ex_armed [3; 70000] (proj1 E) (proj2 E)).
  intros d Hd. repeat (apply elem_of_cons in Hd as [->|Hd]; [lia|]). apply elem_of_nil in Hd. destruct Hd.
Defined.

(** Cancelling removes the timer and calls its cancel callback once; a second cancel does
    nothing. *)
Theorem cancel_correct (w : wheel) (p : ptr) (t : ErlTimer) : Inv w -> heap w !! p = Some t ->
  exists w', erts_cancel_timer p w = Some (w', if active t then (fun c => (c, arg t)) <$> TimerWheel.cancel t else None) /\
    Inv w' /\ left w' = delete p (left w) /\ erts_time_left p w' = Some 0 /\ erts_cancel_timer p w' = Some (w', None).
Proof.
  intros H Hp. destruct (cancel_timer_spec w p t H Hp) as (w' & E & H' & D' & T' & P' & _). exists w'.
  assert (exists t', heap w' !! p = Some t') as [t' Ht'] by (apply elem_of_dom; rewrite D'; apply elem_of_dom; eauto).
  splits; auto.
  - unfold left. rewrite T', P'. now rewrite fmap_delete.
  - rewrite (time_left_spec w' p t' H' Ht'), P'. now rewrite lookup_delete_eq.
  - unfold erts_cancel_timer. rewrite Ht'. cbn [mbind option_bind].
    pose proof (pending_is w' p _ (bodies_lookup w' p t' Ht')) as E'. change (active (body t')) with (active t') in E'.
    rewrite P', lookup_delete_eq in E'. destruct (active t'); [discriminate|reflexivity].
Qed.
Lemma cancel_correct_witness : (Inv ex_armed /\ is_Some (heap ex_armed !! 2%positive)) /\
  exists w', erts_cancel_timer 2%positive ex_armed = Some (w', Some (7, 102)) /\
    Inv w' /\ left w' = delete 2%positive (left ex_armed) /\ erts_time_left 2%positive w' = Some 0 /\ erts_cancel_timer 2%positive w' = Some (w', None).
Proof.
  assert (E : Inv ex_armed /\ is_Some (heap ex_armed !! 2%positive)) by (split; [apply ex_armed_inv|eexists; vm_compute; reflexivity]).
  split; [exact E|].
  exact (cancel_correct ex_armed 2%positive (mkTimer None None 4464 1 true 12 (Some 7) 102) (proj1 E) ltac:(vm_compute; reflexivity)).
Defined.

(** Setting an idle timer leaves it with exactly the time asked for; setting an active one
    changes nothing but the clock. *)
Theorem set_timer_correct (w : wheel) (p : ptr) (f : Z) (c : option Z) (a t delivered : Z) (t0 : ErlTimer) :
  Inv w -> heap w !! p = Some t0 -> 0 <= t -> 0 <= delivered -> do_time w + delivered < 2 ^ 31 -> t + do_time w + delivered < 2 ^ 64 ->
  exists w', erts_set_timer p f c a t delivered w = Some w' /\ Inv w' /\
    erts_time_left p w' = Some (if active t0 then match erts_time_left p w with Some r => Z.max 0 (r - delivered) | None => 0 end else t) /\
    (active t0 = false -> exists u, heap w' !! p = Some u /\ timeout u = f /\ TimerWheel.cancel u = c /\ arg u = a) /\
    (forall q, q <> p -> pending w' !! q = pending w !! q).
Proof.
  intros H Hp Ht Hdl Hdd Hb. destruct (set_timer_spec w p f c a t delivered t0 H Hp Ht Hdl Hdd Hb) as (w' & E & H' & D' & T' & P' & B' & O').
  exists w'. assert (exists t', heap w' !! p = Some t') as [t' Ht'] by (apply elem_of_dom; rewrite D'; apply elem_of_dom; eauto).
  splits; auto.
  - rewrite (time_left_spec w' p t' H' Ht'), P', (time_left_spec w p t0 H Hp). destruct (active t0) eqn:Ha.
    + pose proof (inv_do w H). destruct (pending w !! p); f_equal; lia.
    + rewrite lookup_insert_eq. f_equal. lia.
  - intros Ha. specialize (B' Ha). rewrite (bodies_lookup w' p t' Ht') in B'. exists t'. destruct t'. unfold body, armed in B'. cbn in *. injection B'. auto.
  - intros q N. rewrite P'. destruct (active t0); [reflexivity|]. now rewrite lookup_insert_ne.
Qed.
Lemma set_timer_correct_witness : Inv ex_wheel /\
  exists w', erts_set_timer 2%positive 9 None 8 (2 ^ 40) 17 ex_wheel = Some w' /\ Inv w' /\
    erts_time_left 2%positive w' = Some (2 ^ 40) /\
    (active idle = false -> exists u, heap w' !! 2%positive = Some u /\ timeout u = 9 /\ TimerWheel.cancel u = None /\ arg u = 8) /\
    (forall q, q <> 2%positive -> pending w' !! q = pending ex_wheel !! q).
Proof.
  split; [exact ex_wheel_inv|].
  apply (set_timer_correct ex_wheel 2%positive 9 None 8 (2 ^ 40) 17 idle ex_wheel_inv); [reflexivity|lia|lia|cbn; lia|cbn; lia].
Defined.

(** The next timeout is -1 without timers, otherwise the least remaining time, clipped, whenever
    the search is made or the cached minimum is small enough. *)
Theorem next_time_correct (w : wheel) : Inv w ->
  exists w' v, next_time_internal w = Some (w', v) /\ Inv w' /\ left w' = left w /\ (left w = ∅ -> v = -1) /\
    (forall m, (exists p, left w !! p = Some m) -> (forall q r, left w !! q = Some r -> m <= r) ->
       tiw_min_ptr w = None \/ m < 2 ^ 31 /\ m + do_time w < 2 ^ 32 -> v = Z.min (Z.max 0 m) (2 ^ 31 - 1)).
Proof.
  intros H. destruct (next_time_spec w H) as (w' & v & E & H' & Hh & P' & T' & V1 & V2). exists w', v. splits; auto.
  - unfold left. now rewrite P', T'.
  - intros E'. apply V1. unfold left in E'. now apply fmap_empty_iff in E'.
  - intros m [p Hp] Hm Hc. rewrite left_lookup in Hp. destruct (pending w !! p) as [r|] eqn:Er; [|discriminate]. injection Hp as <-.
    rewrite (V2 r); [reflexivity| |].
    + split; [eauto|]. intros q s Hs. specialize (Hm q (s - do_time w)). rewrite left_lookup, Hs in Hm. specialize (Hm eq_refl). lia.
    + destruct Hc; [auto|right; lia].
Qed.
Lemma next_time_correct_witness : Inv ex_armed /\
  (exists w' v, next_time_internal ex_armed = Some (w', v) /\ Inv w' /\ left w' = left ex_armed /\ (left ex_armed = ∅ -> v = -1) /\
    (forall m, (exists p, left ex_armed !! p = Some m) -> (forall q r, left ex_armed !! q = Some r -> m <= r) ->
       tiw_min_ptr ex_armed = None \/ m < 2 ^ 31 /\ m + do_time ex_armed < 2 ^ 32 -> v = Z.min (Z.max 0 m) (2 ^ 31 - 1))) /\
  snd <$> next_time_internal ex_armed = Some 2.
Proof. split; [apply ex_armed_inv|]. split; [exact (next_time_correct ex_armed (proj1 ex_armed_inv))|vm_compute; reflexivity]. Defined.

(** With a cached minimum above 2^31 the next timeout comes out negative. *)
Theorem next_time_wraps : exists w, erts_set_timer 1%positive 0 None 0 3000000000 0 ex_wheel = Some w /\
  erts_time_left 1%positive w = Some 3000000000 /\ snd <$> next_time_internal w = Some (-1294967296).
Proof. eexists. split; [vm_compute; reflexivity|]. vm_compute. auto. Qed.

(** ** The clock *)
Definition ms (tv : SysTimeval) : Z := 1000 * tv_sec tv + Z.quot (tv_usec tv) 1000.
Fixpoint deliveries (tvs : list SysTimeval) (lst : SysTimeval) (w : wheel) : wheel * SysTimeval :=
  match tvs with
  | [] => (w, lst)
  | tv :: tvs => let '(w, lst) := do_erts_deliver_time tv lst w in deliveries tvs lst w
  end.
Definition tv_ok (tv : SysTimeval) : Prop := 0 <= tv_sec tv /\ 0 <= tv_usec tv < 1000000.
Definition latest (tvs : list SysTimeval) (m : Z) : Z := fold_left (fun m tv => Z.max m (ms tv)) tvs m.
Lemma latest_ge tvs : forall m, m <= latest tvs m.
Proof. induction tvs as [|tv tvs IH]; intros m; cbn; [lia|]. specialize (IH (Z.max m (ms tv))). unfold latest in *. lia. Qed.

Lemma deliver_step tv lst w : tv_ok tv -> tv_ok lst -> tv_usec lst mod 1000 = 0 -> 0 <= do_time w ->
  do_time w + (ms tv - ms lst) < 2 ^ 31 ->
  exists w' lst', do_erts_deliver_time tv lst w = (w', lst') /\ tv_ok lst' /\ tv_usec lst' mod 1000 = 0 /\
    ms lst' = Z.max (ms lst) (ms tv) /\ do_time w' = do_time w + (ms lst' - ms lst) /\ 0 <= do_time w'.
Proof.
  unfold tv_ok, ms. intros Ht Hl Hm Hd Hb. unfold do_erts_deliver_time, CLOCK_RESOLUTION. cbn [tv_sec tv_usec]. rewrite Z.quot_1_r.
  set (e := 1000 * (tv_sec tv - tv_sec lst) + Z.quot (1000 * Z.quot (tv_usec tv) 1000 - tv_usec lst) 1000).
  assert (E : e = 1000 * tv_sec tv + Z.quot (tv_usec tv) 1000 - (1000 * tv_sec lst + Z.quot (tv_usec lst) 1000)) by (unfold e; lia).
  clearbody e. rewrite Z.gtb_ltb. destruct (Z.ltb_spec 0 e).
  - eexists _, _. split; [reflexivity|]. cbn [tv_sec tv_usec erts_do_time_add do_time with_do_time].
    assert (Es : s32 e = e) by (unfold s32, u32; rewrite Z.mod_small by lia; destruct (Z.ltb_spec e (2 ^ 31)); lia).
    assert (Es' : s32 (do_time w + e) = do_time w + e)
      by (unfold s32, u32; rewrite Z.mod_small by lia; destruct (Z.ltb_spec (do_time w + e) (2 ^ 31)); lia).
    rewrite Es, Es'. clear Es Es'. splits; lia.
  - eexists _, _. split; [reflexivity|]. splits; lia.
Qed.
(** C11. Whatever clock readings are made, the ticks delivered add up to the latest reading
    minus the first, in milliseconds, and a clock that jumps back delivers nothing, as long as the
    ticks that accumulate in do_time stay below 2^31. *)
Theorem clock_keeps_time (tvs : list SysTimeval) : forall (lst : SysTimeval) (w : wheel),
  tv_ok lst -> tv_usec lst mod 1000 = 0 -> (forall tv, tv ∈ tvs -> tv_ok tv) -> 0 <= do_time w ->
  do_time w + (latest tvs (ms lst) - ms lst) < 2 ^ 31 ->
  let '(w', lst') := deliveries tvs lst w in
  ms lst' = latest tvs (ms lst) /\ do_time w' = do_time w + (ms lst' - ms lst).
Proof.
  induction tvs as [|tv tvs IH]; intros lst w Hl Hm Ht Hd Hb; cbn [deliveries]; [cbn; lia|].
  pose proof (latest_ge tvs (Z.max (ms lst) (ms tv))) as Hge. change (latest (tv :: tvs) (ms lst)) with (latest tvs (Z.max (ms lst) (ms tv))) in *.
  destruct (deliver_step tv lst w (Ht tv ltac:(left)) Hl Hm Hd ltac:(lia)) as (w1 & l1 & -> & H1 & H2 & H3 & H4 & H5).
  rewrite <- H3 in *. specialize (IH l1 w1 H1 H2 (fun x Hx => Ht x ltac:(now right)) H5 ltac:(lia)).
  destruct (deliveries tvs l1 w1) as [w' l']. lia.
Qed.
Definition ex_readings : list SysTimeval := [mkTv 100 5400; mkTv 99 0; mkTv 101 300].
Definition ex_start : SysTimeval := init_erts_deliver_time (mkTv 100 1999).
Lemma clock_keeps_time_witness :
  (tv_ok ex_start /\ tv_usec ex_start mod 1000 = 0 /\ (forall tv, tv ∈ ex_readings -> tv_ok tv) /\
   0 <= do_time ex_wheel /\ do_time ex_wheel + (latest ex_readings (ms ex_start) - ms ex_start) < 2 ^ 31) /\
  (let '(w', lst') := deliveries ex_readings ex_start ex_wheel in
   ms lst' = latest ex_readings (ms ex_start) /\ do_time w' = do_time ex_wheel + (ms lst' - ms ex_start)).
Proof.
  assert (H1 : tv_ok ex_start) by (unfold tv_ok; cbn; lia).
  assert (H2 : tv_usec ex_start mod 1000 = 0) by reflexivity.
  assert (H3 : forall tv, tv ∈ ex_readings -> tv_ok tv).
  { intros tv Htv. unfold ex_readings in Htv. repeat (apply elem_of_cons in Htv as [->|Htv]; [unfold tv_ok; cbn; lia|]). apply elem_of_nil in Htv. destruct Htv. }
  assert (H4 : 0 <= do_time ex_wheel) by (cbn; lia).
  assert (H5 : do_time ex_wheel + (latest ex_readings (ms ex_start) - ms ex_start) < 2 ^ 31) by (vm_compute; reflexivity).
  split; [splits; assumption|]. exact (clock_keeps_time ex_readings ex_start ex_wheel H1 H2 H3 H4 H5).
Defined.
