(* ===== verification/Calendar.v ===== *)
(** The calendar of erl_time_sup.c: seconds since 1970 to a universal date and back. The lemmas
    count years from 1 March, so that the leap day is the last one. *)

From S2P Require Import Prelude.

(** C's remainder, which has the sign of the dividend; the quotient is [÷]. *)
Declare Scope calendar_scope.
Notation "a 'rem' b" := (Z.rem a b) (at level 40, left associativity) : calendar_scope.
Local Open Scope calendar_scope.

(** Seconds of a minute. *)
Definition SECONDS_PER_MINUTE : Z := 60.
(** Seconds of an hour. *)
Definition SECONDS_PER_HOUR : Z := 60 * SECONDS_PER_MINUTE.
(** Seconds of a day. *)
Definition SECONDS_PER_DAY : Z := 24 * SECONDS_PER_HOUR.
Definition INT_MAX : Z := 2 ^ 31 - 1.
(** Days of a month. *)
Definition mdays (m : Z) : Z := nth (Z.to_nat m) [0; 31; 28; 31; 30; 31; 30; 31; 31; 30; 31; 30; 31; 0] 0.
(** Range test. *)
Definition IN_RANGE (a x b : Z) : bool := (a <=? x) && (x <=? b).
(** Leap years. *)
Definition is_leap_year (y : Z) : bool := ((y rem 4 =? 0) && negb (y rem 100 =? 0)) || (y rem 400 =? 0).

(** The loop over the months before [month]; [n] bounds its rounds. *)
Fixpoint month_days (n : nat) (m month : Z) : Z :=
  match n with
  | O => 0
  | S n => if m <? month then mdays m + month_days n (m + 1) month else 0
  end.
(** [gregday]: the day number, counted from 1970. *)
Definition gregday (year month day : Z) : Z :=
  let gyear := year - 1600 in
  let ndays := if gyear >? 0
               then let pyear := gyear - 1 in pyear ÷ 4 - pyear ÷ 100 + pyear ÷ 400 + pyear * 365 + 366 else 0 in
  let ndays := ndays + month_days 12 1 month in
  let ndays := if is_leap_year year && (month >? 2) then ndays + 1 else ndays in
  ndays + (day - 1) - 135140.

(** A universal date and time. *)
Record datetime := mkDate { year : Z; month : Z; day : Z; hour : Z; minute : Z; second : Z }.

(** [seconds_to_univ]. *)
Definition seconds_to_univ (time : Z) : datetime :=
  let days := time ÷ SECONDS_PER_DAY in
  let secs := time rem SECONDS_PER_DAY in
  let '(days, secs) := if secs <? 0 then (days - 1, secs + SECONDS_PER_DAY) else (days, secs) in
  let tmp := secs rem SECONDS_PER_HOUR in
  let h := secs ÷ SECONDS_PER_HOUR in
  let mn := tmp ÷ SECONDS_PER_MINUTE in
  let sc := tmp rem SECONDS_PER_MINUTE in
  let days := days + 719468 in
  let y := (10000 * days + 14780) ÷ 3652425 in
  let tmp := days - (365 * y + y ÷ 4 - y ÷ 100 + y ÷ 400) in
  let '(y, tmp) := if tmp <? 0
                   then let y := y - 1 in (y, days - (365 * y + y ÷ 4 - y ÷ 100 + y ÷ 400)) else (y, tmp) in
  let mi := (100 * tmp + 52) ÷ 3060 in
  mkDate (y + (mi + 2) ÷ 12) ((mi + 2) rem 12 + 1) (tmp - (mi * 306 + 5) ÷ 10 + 1) h mn sc.

(** [univ_to_seconds]; [None] is the result 0. *)
Definition univ_to_seconds (d : datetime) : option Z :=
  if IN_RANGE 1600 (year d) (INT_MAX - 1) && IN_RANGE 1 (month d) 12 &&
     IN_RANGE 1 (day d) (mdays (month d) + b2z ((month d =? 2) && (year d rem 4 =? 0) && (negb (year d rem 100 =? 0) || (year d rem 400 =? 0)))) &&
     IN_RANGE 0 (hour d) 23 && IN_RANGE 0 (minute d) 59 && IN_RANGE 0 (second d) 59
  then Some (SECONDS_PER_DAY * gregday (year d) (month d) (day d) + SECONDS_PER_HOUR * hour d + SECONDS_PER_MINUTE * minute d + second d)
  else None.

(** ** The Gregorian calendar, as a reference *)
Definition leap (y : Z) : bool := ((y mod 4 =? 0) && negb (y mod 100 =? 0)) || (y mod 400 =? 0).
Definition days_in (y m : Z) : Z := if (m =? 2) && leap y then 29 else mdays m.
Definition valid_day (y m d : Z) : bool := (1 <=? m) && (m <=? 12) && (1 <=? d) && (d <=? days_in y m).
Definition next_day (ymd : Z * Z * Z) : Z * Z * Z :=
  let '(y, m, d) := ymd in
  if d <? days_in y m then (y, m, d + 1) else if m <? 12 then (y, m + 1, 1) else (y + 1, 1, 1).


(** Years that start on 1 March: the days before year [y], its length, and
    the month and day of the day number [t] of a year. *)
Definition year_day (y : Z) : Z := 365 * y + y / 4 - y / 100 + y / 400.
Definition year_len (y : Z) : Z := 365 + b2z (leap (y + 1)).
Definition in_year (t : Z) : Z * Z * Z :=
  let mi := (100 * t + 52) / 3060 in ((mi + 2) / 12, (mi + 2) mod 12 + 1, t - (mi * 306 + 5) / 10 + 1).
Definition civil (y t : Z) : Z * Z * Z := let '(c, m, d) := in_year t in (y + c, m, d).
(** The inverse of [in_year]. *)
Definition of_month (m d : Z) : Z := if m >=? 3 then month_days 12 1 m - 59 + d - 1 else 306 + month_days 12 1 m + d - 1.
Definition below (f : Z -> bool) (n : nat) : bool := forallb (fun k => f (Z.of_nat k)) (seq 0 n).
Lemma below_spec f n k : below f n = true -> 0 <= k < Z.of_nat n -> f k = true.
Proof.
  unfold below. rewrite forallb_forall. intros H Hk. rewrite <- (Z2Nat.id k) by lia. apply H, in_seq. lia.
Qed.

(** ** The year a day falls in *)
Definition guess (g : Z) : Z := (10000 * g + 14780) / 3652425.
Lemma guess_checked : below (fun r => (let e := guess (year_day r) in (r <=? e) && (e <=? r + 1)) &&
                                      (let e := guess (year_day r + year_len r - 1) in (r <=? e) && (e <=? r + 1))) 400 = true.
Proof. vm_compute. reflexivity. Qed.
Lemma year_day_era n r : year_day (400 * n + r) = 146097 * n + year_day r. Proof. unfold year_day. lia. Qed.
Lemma guess_era n g : guess (146097 * n + g) = 400 * n + guess g. Proof. unfold guess. lia. Qed.
Lemma leap_era n y : leap (400 * n + y) = leap y.
Proof.
  unfold leap. assert ((400 * n + y) mod 4 = y mod 4 /\ (400 * n + y) mod 100 = y mod 100 /\ (400 * n + y) mod 400 = y mod 400) as (-> & -> & ->) by lia.
  reflexivity.
Qed.
Lemma year_len_era n y : year_len (400 * n + y) = year_len y.
Proof. unfold year_len. now rewrite <- Z.add_assoc, leap_era. Qed.
Lemma year_day_next y : year_day (y + 1) = year_day y + year_len y.
Proof. unfold year_day, year_len, leap, b2z. destruct (Z.eqb_spec ((y + 1) mod 4) 0), (Z.eqb_spec ((y + 1) mod 100) 0), (Z.eqb_spec ((y + 1) mod 400) 0); cbn [andb orb negb]; lia. Qed.
Lemma year_len_range y : 365 <= year_len y <= 366. Proof. unfold year_len, b2z. destruct (leap _); lia. Qed.

Lemma guess_spec y t : 0 <= t < year_len y -> y <= guess (year_day y + t) <= y + 1.
Proof.
  intros Ht. set (n := y / 400). set (r := y mod 400). assert (E : y = 400 * n + r) by (unfold n, r; lia).
  assert (Hr : 0 <= r < Z.of_nat 400) by (unfold r; lia). clearbody n r. subst y.
  rewrite year_len_era in Ht. rewrite year_day_era, <- Z.add_assoc, guess_era.
  pose proof (below_spec _ _ r guess_checked Hr) as C. cbv beta zeta in C. rewrite !andb_true_iff, !Z.leb_le in C.
  assert (M : forall g h, g <= h -> guess g <= guess h) by (intros; unfold guess; lia).
  pose proof (M (year_day r) (year_day r + t) ltac:(lia)). pose proof (M (year_day r + t) (year_day r + year_len r - 1) ltac:(lia)). lia.
Qed.
Lemma year_of g : 0 <= g -> exists y t, 0 <= y /\ 0 <= t < year_len y /\ g = year_day y + t.
Proof.
  apply natlike_ind with (P := fun g => exists y t, 0 <= y /\ 0 <= t < year_len y /\ g = year_day y + t).
  - exists 0, 0. vm_compute. intuition congruence.
  - intros x Hx (y & t & Hy & Ht & ->). destruct (Z.eq_dec (t + 1) (year_len y)) as [E|N].
    + exists (y + 1), 0. rewrite year_day_next. pose proof (year_len_range (y + 1)). lia.
    + exists y, (t + 1). lia.
Qed.

(** ** [seconds_to_univ] *)
Lemma seconds_to_univ_spec y t s : 0 <= y -> 0 <= t < year_len y -> 0 <= s < SECONDS_PER_DAY ->
  let d := seconds_to_univ ((year_day y + t - 719468) * SECONDS_PER_DAY + s) in
  (year d, month d, day d) = civil y t /\ hour d = s / 3600 /\ minute d = s mod 3600 / 60 /\ second d = s mod 60.
Proof.
  intros Hy Ht Hs. unfold seconds_to_univ, SECONDS_PER_DAY, SECONDS_PER_HOUR, SECONDS_PER_MINUTE in *.
  change (24 * (60 * 60)) with 86400 in *. change (60 * 60) with 3600. set (g := year_day y + t).
  assert (Hg : 0 <= g) by (unfold g, year_day; lia). set (q := g - 719468).
  set (T := q * 86400 + s).
  assert (E : (if T rem 86400 <? 0 then (T ÷ 86400 - 1, T rem 86400 + 86400) else (T ÷ 86400, T rem 86400)) = (q, s)).
  { destruct (Z.ltb_spec (T rem 86400) 0); f_equal; unfold T in *; lia. }
  rewrite E. replace (q + 719468) with g by (unfold q; lia).
  assert (Eg : (10000 * g + 14780) ÷ 3652425 = guess g) by (unfold guess; apply Z.quot_div_nonneg; lia). rewrite Eg.
  pose proof (guess_spec y t Ht) as G. fold g in G.
  assert (Ey : forall z, 0 <= z -> 365 * z + z ÷ 4 - z ÷ 100 + z ÷ 400 = year_day z) by (intros; unfold year_day; rewrite !Z.quot_div_nonneg by lia; reflexivity).
  rewrite (Ey (guess g)) by lia.
  assert (Ec : (if g - year_day (guess g) <? 0 then (guess g - 1, g - (365 * (guess g - 1) + (guess g - 1) ÷ 4 - (guess g - 1) ÷ 100 + (guess g - 1) ÷ 400))
                else (guess g, g - year_day (guess g))) = (y, t)).
  { pose proof (year_day_next y). assert (guess g = y \/ guess g = y + 1) as [Eq|Eq] by lia; rewrite Eq.
    - destruct (Z.ltb_spec (g - year_day y) 0); unfold g in *; [lia|f_equal; lia].
    - destruct (Z.ltb_spec (g - year_day (y + 1)) 0); unfold g in *; [|lia]. rewrite Ey by lia.
      replace (y + 1 - 1) with y by lia. f_equal. lia. }
  cbv zeta. rewrite Ec. cbn [year month day hour minute second]. unfold civil, in_year.
  pose proof (year_len_range y). rewrite (Z.quot_div_nonneg (100 * t + 52)) by lia. set (mi := (100 * t + 52) / 3060).
  assert (0 <= mi <= 12) by (unfold mi; lia).
  rewrite !Z.quot_div_nonneg, !Z.rem_mod_nonneg by lia. splits; auto. lia.
Qed.

(** ** Months *)
Definition month_len (lp : bool) (m : Z) : Z := if (m =? 2) && lp then 29 else mdays m.
Definition next_md (lp : bool) (c m d : Z) : Z * Z * Z :=
  if d <? month_len lp m then (c, m, d + 1) else if m <? 12 then (c, m + 1, 1) else (1, 1, 1).
Definition eq3 (a b : Z * Z * Z) : bool := let '(x, y, z) := a in let '(x', y', z') := b in (x =? x') && (y =? y') && (z =? z').
Lemma eq3_true a b : eq3 a b = true -> a = b.
Proof. destruct a as [[x y] z], b as [[x' y'] z']. cbn. rewrite !andb_true_iff, !Z.eqb_eq. intros [[-> ->] ->]. reflexivity. Qed.

Definition day_checks (t : Z) : bool :=
  let '(c, m, d) := in_year t in
  (1 <=? m) && (m <=? 12) && (1 <=? d) && (d <=? month_len true m) && (c =? (if m >=? 3 then 0 else 1)) && (of_month m d =? t) &&
  (eqb ((m =? 2) && (d =? 29)) (t =? 365)) && ((t =? 365) || eq3 (in_year (t + 1)) (next_md true c m d)) &&
  ((t >=? 364) || eq3 (in_year (t + 1)) (next_md false c m d)).
Lemma days_checked : below day_checks 366 = true. Proof. vm_compute. reflexivity. Qed.
Definition month_checks (k : Z) : bool :=
  let m := k / 31 + 1 in let d := k mod 31 + 1 in
  (d >? month_len true m) || ((0 <=? of_month m d) && (of_month m d <? 366) && eq3 (in_year (of_month m d)) ((if m >=? 3 then 0 else 1), m, d) &&
    eqb (of_month m d =? 365) ((m =? 2) && (d =? 29))).
Lemma months_checked : below month_checks 372 = true. Proof. vm_compute. reflexivity. Qed.

Lemma in_year_spec t : 0 <= t < 366 -> exists m d, in_year t = ((if m >=? 3 then 0 else 1), m, d) /\
  1 <= m <= 12 /\ 1 <= d <= month_len true m /\ of_month m d = t /\ ((m =? 2) && (d =? 29)) = (t =? 365) /\
  (t < 365 -> in_year (t + 1) = next_md true (if m >=? 3 then 0 else 1) m d) /\
  (t < 364 -> in_year (t + 1) = next_md false (if m >=? 3 then 0 else 1) m d).
Proof.
  intros Ht. pose proof (below_spec _ _ t days_checked ltac:(lia)) as C. unfold day_checks in C.
  destruct (in_year t) as [[c m] d] eqn:E. rewrite !andb_true_iff, !Z.leb_le, !Z.eqb_eq, !orb_true_iff, eqb_true_iff in C.
  destruct C as [[[[[[[[C1 C2] C3] C4] C5] C6] C7] C8] C9]. subst c. exists m, d. splits; auto.
  - intros Hl. destruct C8 as [C8|C8]; [apply Z.eqb_eq in C8; lia|now apply eq3_true].
  - intros Hl. destruct C9 as [C9|C9]; [rewrite Z.geb_leb, Z.leb_le in C9; lia|now apply eq3_true].
Qed.
Lemma of_month_spec m d : 1 <= m <= 12 -> 1 <= d <= month_len true m ->
  0 <= of_month m d < 366 /\ in_year (of_month m d) = ((if m >=? 3 then 0 else 1), m, d) /\ (of_month m d =? 365) = ((m =? 2) && (d =? 29)).
Proof.
  intros Hm Hd. assert (Hl : month_len true m <= 31).
  { unfold month_len, mdays. destruct ((m =? 2) && true); [lia|].
    assert (m = 1 \/ m = 2 \/ m = 3 \/ m = 4 \/ m = 5 \/ m = 6 \/ m = 7 \/ m = 8 \/ m = 9 \/ m = 10 \/ m = 11 \/ m = 12) as Hc by lia.
    repeat destruct Hc as [->|Hc]; try subst m; vm_compute; congruence. }
  pose proof (below_spec _ _ (31 * (m - 1) + (d - 1)) months_checked ltac:(lia)) as C. unfold month_checks in C.
  replace ((31 * (m - 1) + (d - 1)) / 31 + 1) with m in C by lia. replace ((31 * (m - 1) + (d - 1)) mod 31 + 1) with d in C by lia.
  apply orb_true_iff in C as [C|C]; [rewrite Z.gtb_ltb, Z.ltb_lt in C; lia|].
  rewrite !andb_true_iff, Z.leb_le, Z.ltb_lt, eqb_true_iff in C. destruct C as [[[C1 C2] C3] C4]. splits; auto. now apply eq3_true.
Qed.
Lemma days_in_len y m : days_in y m = month_len (leap y) m. Proof. reflexivity. Qed.

Lemma civil_valid y t : 0 <= t < year_len y -> let '(y', m, d) := civil y t in valid_day y' m d = true.
Proof.
  intros Ht. pose proof (year_len_range y). destruct (in_year_spec t ltac:(lia)) as (m & d & E & Hm & Hd & _ & H29 & _).
  unfold civil. rewrite E. unfold valid_day. rewrite days_in_len, !andb_true_iff, !Z.leb_le. splits; try lia.
  unfold month_len in *. destruct (Z.eqb_spec m 2) as [->|N]; cbn [andb] in *; [|lia]. change (2 >=? 3) with false. cbn iota.
  unfold year_len, b2z in Ht. destruct (leap (y + 1)); [lia|]. change (mdays 2) with 28.
  destruct (Z.eqb_spec d 29) as [->|Nd]; [|lia]. symmetry in H29. apply Z.eqb_eq in H29. lia.
Qed.
Lemma civil_next y t : 0 <= t < year_len y ->
  next_day (civil y t) = if t + 1 <? year_len y then civil y (t + 1) else civil (y + 1) 0.
Proof.
  intros Ht. pose proof (year_len_range y). destruct (in_year_spec t ltac:(lia)) as (m & d & E & Hm & Hd & Hof & H29 & Hn & Hn').
  unfold civil. rewrite E. cbn [next_day]. rewrite days_in_len.
  assert (Hlast : t = 364 \/ t = 365 -> m = 2 /\ d = t - 336).
  { intros [-> | ->]; vm_compute in E; injection E as _ <- <-; auto. }
  assert (Hleap : m = 2 -> leap (y + (if m >=? 3 then 0 else 1)) = leap (y + 1)) by (intros ->; reflexivity).
  destruct (Z.ltb_spec (t + 1) (year_len y)) as [Hlt|Hge].
  - assert (Hin : in_year (t + 1) = next_md (leap (y + (if m >=? 3 then 0 else 1))) (if m >=? 3 then 0 else 1) m d).
    { destruct (Z_lt_le_dec t 364) as [Hs|Hs].
      - destruct (leap _); [apply Hn; lia|apply Hn'; lia].
      - destruct (Hlast ltac:(lia)) as [-> ->]. rewrite Hleap by auto. unfold year_len, b2z in Hlt. destruct (leap (y + 1)); [apply Hn; lia|lia]. }
    rewrite Hin. unfold next_md. destruct (d <? _); [reflexivity|]. destruct (Z.ltb_spec m 12); [reflexivity|].
    assert (m = 12) as -> by lia. change (12 >=? 3) with true. cbn iota. f_equal. f_equal. lia.
  - unfold year_len, b2z in *. change (in_year 0) with (0, 3, 1). cbn iota.
    destruct (Hlast ltac:(destruct (leap (y + 1)); lia)) as [-> ->]. rewrite Hleap by auto. unfold month_len. change (2 =? 2) with true. change (2 >=? 3) with false.
    change (mdays 2) with 28. cbn [andb]. change (2 <? 12) with true. cbn iota.
    destruct (leap (y + 1)); destruct (Z.ltb_spec (t - 336) 29), (Z.ltb_spec (t - 336) 28); try lia; rewrite Z.add_0_r; reflexivity.
Qed.

(** ** [gregday] counts the same days *)
Lemma is_leap_year_leap y : 0 <= y -> is_leap_year y = leap y.
Proof. intros Hy. unfold is_leap_year, leap. now rewrite !Z.rem_mod_nonneg by lia. Qed.
Lemma gregday_spec y m d : 1600 <= y -> 1 <= m <= 12 ->
  gregday y m d = year_day (if m >=? 3 then y else y - 1) + of_month m d - 719468.
Proof.
  intros Hy Hm. unfold gregday. rewrite is_leap_year_leap by lia. cbv zeta.
  set (cum := month_days 12 1 m).
  assert (E : (if y - 1600 >? 0 then (y - 1600 - 1) ÷ 4 - (y - 1600 - 1) ÷ 100 + (y - 1600 - 1) ÷ 400 + (y - 1600 - 1) * 365 + 366 else 0) = year_day (y - 1) - year_day 1599).
  { change (year_day 1599) with 584022. rewrite Z.gtb_ltb. destruct (Z.ltb_spec 0 (y - 1600)).
    - rewrite !Z.quot_div_nonneg by lia. unfold year_day. lia.
    - assert (y = 1600) as -> by lia. reflexivity. }
  rewrite E. change (year_day 1599) with 584022. pose proof (year_day_next (y - 1)) as N. replace (y - 1 + 1) with y in N by lia.
  unfold year_len in N. replace (y - 1 + 1) with y in N by lia. unfold of_month. fold cum. unfold b2z in N.
  rewrite Z.geb_leb, Z.gtb_ltb. destruct (Z.leb_spec 3 m), (Z.ltb_spec 2 m); try lia; destruct (leap y); cbn [andb]; lia.
Qed.
