(* ===== verification/CalendarProps.v ===== *)
(** The properties of the calendar functions: they follow the Gregorian calendar day by day, and
    are inverse to each other. *)

From S2P Require Import Prelude Calendar.

Definition ymd (d : datetime) : Z * Z * Z := (year d, month d, day d).
Definition secs_of (d : datetime) : Z := 3600 * hour d + 60 * minute d + second d.
Definition valid_time (d : datetime) : Prop := 0 <= hour d <= 23 /\ 0 <= minute d <= 59 /\ 0 <= second d <= 59.
Definition valid_datetime (d : datetime) : Prop := valid_day (year d) (month d) (day d) = true /\ valid_time d.
(** 1 March of year 0, in seconds from 1970. *)
Definition ORIGIN : Z := -719468 * SECONDS_PER_DAY.

(** Every second from [ORIGIN] on, split into year, day of the year and second of the day. *)
Lemma split_time t : ORIGIN <= t -> exists y k s, 0 <= y /\ 0 <= k < year_len y /\ 0 <= s < SECONDS_PER_DAY /\
  t = (year_day y + k - 719468) * SECONDS_PER_DAY + s.
Proof.
  unfold ORIGIN, SECONDS_PER_DAY, SECONDS_PER_HOUR, SECONDS_PER_MINUTE. change (24 * (60 * 60)) with 86400. intros Ht.
  destruct (year_of (t / 86400 + 719468) ltac:(lia)) as (y & k & Hy & Hk & E).
  exists y, k, (t mod 86400). splits; try lia.
Qed.
Lemma date_of y k s : 0 <= y -> 0 <= k < year_len y -> 0 <= s < SECONDS_PER_DAY ->
  let d := seconds_to_univ ((year_day y + k - 719468) * SECONDS_PER_DAY + s) in
  ymd d = civil y k /\ secs_of d = s /\ valid_time d.
Proof.
  intros Hy Hk Hs. destruct (seconds_to_univ_spec y k s Hy Hk Hs) as (E & Eh & Em & Es). cbv zeta in *.
  unfold ymd, secs_of, valid_time. rewrite E, Eh, Em, Es. unfold SECONDS_PER_DAY, SECONDS_PER_HOUR, SECONDS_PER_MINUTE in Hs.
  splits; auto; lia.
Qed.
Lemma datetime_eq d d' : ymd d = ymd d' -> secs_of d = secs_of d' -> valid_time d -> valid_time d' -> d = d'.
Proof.
  destruct d, d'. unfold ymd, secs_of, valid_time. cbn. intros [= -> -> ->] E H H'. f_equal; lia.
Qed.
Lemma valid_split y m d : valid_day y m d = true -> 0 < y ->
  1 <= m <= 12 /\ let y' := if m >=? 3 then y else y - 1 in 0 <= of_month m d < year_len y' /\ civil y' (of_month m d) = (y, m, d).
Proof.
  unfold valid_day. rewrite days_in_len, !andb_true_iff, !Z.leb_le. intros [[[M1 M2] D1] D2] Hy. split; [lia|]. cbv zeta. set (y' := if m >=? 3 then y else y - 1).
  assert (Hd : d <= month_len true m) by (unfold month_len in *; destruct (Z.eqb_spec m 2) as [->|]; cbn [andb] in *; [destruct (leap y); [lia|change (mdays 2) with 28 in *; lia]|lia]).
  destruct (of_month_spec m d ltac:(lia) ltac:(lia)) as (O1 & O2 & O3). split.
  - assert (H29 : of_month m d = 365 -> leap (y' + 1) = true).
    { intros E. rewrite E in O3. symmetry in O3. apply andb_true_iff in O3 as [Em Ed]. apply Z.eqb_eq in Em as ->. apply Z.eqb_eq in Ed as ->.
      unfold y', month_len in *. change (2 >=? 3) with false. cbn iota. replace (y - 1 + 1) with y by lia. destruct (leap y); [reflexivity|].
      change (mdays 2) with 28 in D2. change ((2 =? 2) && false) with false in D2. cbn iota in D2. lia. }
    unfold year_len, b2z. destruct (leap (y' + 1)); [lia|]. destruct (Z.eq_dec (of_month m d) 365) as [E|]; [specialize (H29 E); discriminate|lia].
  - unfold civil. rewrite O2. unfold y'. destruct (m >=? 3); repeat f_equal; lia.
Qed.

Lemma univ_to_seconds_guard d : (univ_to_seconds d <> None <-> valid_datetime d /\ 1600 <= year d <= INT_MAX - 1) /\
  (valid_datetime d -> 1600 <= year d <= INT_MAX - 1 ->
   univ_to_seconds d = Some (SECONDS_PER_DAY * gregday (year d) (month d) (day d) + secs_of d)).
Proof.
  set (g := IN_RANGE 1600 (year d) (INT_MAX - 1) && IN_RANGE 1 (month d) 12 &&
     IN_RANGE 1 (day d) (mdays (month d) + b2z ((month d =? 2) && (Z.rem (year d) 4 =? 0) && (negb (Z.rem (year d) 100 =? 0) || (Z.rem (year d) 400 =? 0)))) &&
     IN_RANGE 0 (hour d) 23 && IN_RANGE 0 (minute d) 59 && IN_RANGE 0 (second d) 59).
  assert (E : univ_to_seconds d = if g then Some (SECONDS_PER_DAY * gregday (year d) (month d) (day d) + secs_of d) else None).
  { unfold univ_to_seconds. fold g. destruct g; [|reflexivity]. f_equal. unfold secs_of, SECONDS_PER_HOUR, SECONDS_PER_MINUTE. lia. }
  assert (G : g = true <-> valid_datetime d /\ 1600 <= year d <= INT_MAX - 1).
  { unfold g, IN_RANGE, valid_datetime, valid_time, valid_day. rewrite !andb_true_iff, !Z.leb_le.
    assert (L : 1600 <= year d -> mdays (month d) + b2z ((month d =? 2) && (Z.rem (year d) 4 =? 0) && (negb (Z.rem (year d) 100 =? 0) || (Z.rem (year d) 400 =? 0))) = days_in (year d) (month d)).
    { intros Hy. rewrite !Z.rem_mod_nonneg by lia. unfold days_in, leap, b2z. destruct (Z.eqb_spec (month d) 2) as [->|]; cbn [andb]; [|lia].
      change (mdays 2) with 28.
      destruct (Z.eqb_spec (year d mod 4) 0), (Z.eqb_spec (year d mod 100) 0), (Z.eqb_spec (year d mod 400) 0); cbn [andb orb negb]; lia. }
    split.
    - intros [[[[[[Y1 Y2] [M1 M2]] [D1 D2]] H1] H2] H3]. rewrite L in D2 by auto. splits; auto; lia.
    - intros [[[[[M1 M2] D1] D2] (H1 & H2 & H3)] [Y1 Y2]]. rewrite L by auto. splits; auto; lia. }
  rewrite E. split.
  - rewrite <- G. destruct g; split; congruence.
  - intros H1 H2. rewrite (proj2 G (conj H1 H2)). reflexivity.
Qed.
Lemma univ_to_seconds_inv d t : univ_to_seconds d = Some t -> ORIGIN <= t /\ seconds_to_univ t = d.
Proof.
  intros E. destruct (univ_to_seconds_guard d) as [G1 G2]. destruct (proj1 G1 ltac:(congruence)) as [[Hv Ht] Hy].
  rewrite (G2 (conj Hv Ht) Hy) in E. injection E as <-. destruct (valid_split _ _ _ Hv ltac:(lia)) as (Hm & Ho & Ec). cbv zeta in Ho, Ec.
  rewrite gregday_spec by lia. set (y' := if month d >=? 3 then year d else year d - 1) in *. set (k := of_month _ _) in *.
  assert (Hy' : 0 <= y') by (unfold y'; destruct (month d >=? 3); lia).
  assert (Hs : 0 <= secs_of d < SECONDS_PER_DAY) by (unfold secs_of, valid_time, SECONDS_PER_DAY, SECONDS_PER_HOUR, SECONDS_PER_MINUTE in *; lia).
  rewrite Z.mul_comm. destruct (date_of y' k (secs_of d) Hy' Ho Hs) as (D1 & D2 & D3). split.
  - unfold ORIGIN, SECONDS_PER_DAY, SECONDS_PER_HOUR, SECONDS_PER_MINUTE in *. unfold year_day. lia.
  - apply datetime_eq; auto. rewrite D1, Ec. reflexivity.
Qed.
Lemma seconds_to_univ_valid t : ORIGIN <= t -> valid_datetime (seconds_to_univ t).
Proof.
  intros Ht. destruct (split_time t Ht) as (y & k & s & Hy & Hk & Hs & ->). destruct (date_of y k s Hy Hk Hs) as (D1 & D2 & D3).
  split; auto. pose proof (civil_valid y k Hk) as V. rewrite <- D1 in V. exact V.
Qed.
Lemma seconds_to_univ_inj t t' : ORIGIN <= t -> ORIGIN <= t' -> seconds_to_univ t = seconds_to_univ t' -> t = t'.
Proof.
  intros Ht Ht'. destruct (split_time t Ht) as (y & k & s & Hy & Hk & Hs & ->). destruct (split_time t' Ht') as (y' & k' & s' & Hy' & Hk' & Hs' & ->).
  destruct (date_of y k s Hy Hk Hs) as (D1 & D2 & _). destruct (date_of y' k' s' Hy' Hk' Hs') as (D1' & D2' & _). intros E. rewrite E in D1, D2.
  assert (Es : s = s') by congruence. rewrite D1 in D1'. clear E D1 D2 D2'. unfold civil in D1'.
  pose proof (year_len_range y). pose proof (year_len_range y').
  destruct (in_year_spec k ltac:(lia)) as (m & d & E & _ & _ & Eo & _). destruct (in_year_spec k' ltac:(lia)) as (m' & d' & E' & _ & _ & Eo' & _).
  rewrite E, E' in D1'. injection D1' as E1 E2 E3. subst m' d'. assert (y = y') by lia. subst. lia.
Qed.

(** ** The properties *)
(** C12. From 1 March of year 0 on, seconds_to_univ gives valid dates and times of day,
    1970-01-01 for 0, and for each day the successor in the Gregorian calendar of the day before. *)
Theorem calendar_correct (t : Z) : ORIGIN <= t ->
  let d := seconds_to_univ t in let d' := seconds_to_univ (t + SECONDS_PER_DAY) in
  valid_datetime d /\ secs_of d = t mod SECONDS_PER_DAY /\ ymd d' = next_day (ymd d) /\ secs_of d' = secs_of d /\
  ymd (seconds_to_univ 0) = (1970, 1, 1).
Proof.
  intros Ht. cbv zeta. split; [now apply seconds_to_univ_valid|]. destruct (split_time t Ht) as (y & k & s & Hy & Hk & Hs & ->).
  destruct (date_of y k s Hy Hk Hs) as (D1 & D2 & _). pose proof (civil_next y k Hk) as N.
  assert (exists y' k', 0 <= y' /\ 0 <= k' < year_len y' /\ year_day y' + k' = year_day y + k + 1 /\ next_day (civil y k) = civil y' k') as (y' & k' & Hy' & Hk' & Ek & En).
  { destruct (Z.ltb_spec (k + 1) (year_len y)).
    - exists y, (k + 1). splits; auto; lia.
    - exists (y + 1), 0. pose proof (year_len_range (y + 1)). rewrite year_day_next. splits; auto; lia. }
  destruct (date_of y' k' s Hy' Hk' Hs) as (D1' & D2' & _).
  replace ((year_day y + k - 719468) * SECONDS_PER_DAY + s + SECONDS_PER_DAY) with ((year_day y' + k' - 719468) * SECONDS_PER_DAY + s) by lia.
  rewrite D1, D1', D2, D2'. splits; auto. rewrite Z.add_comm, Z_mod_plus_full. symmetry. now apply Z.mod_small.
Qed.
Lemma calendar_correct_witness : ORIGIN <= 951782399 /\
  (let d := seconds_to_univ 951782399 in let d' := seconds_to_univ (951782399 + SECONDS_PER_DAY) in
   valid_datetime d /\ secs_of d = 951782399 mod SECONDS_PER_DAY /\ ymd d' = next_day (ymd d) /\ secs_of d' = secs_of d /\
   ymd (seconds_to_univ 0) = (1970, 1, 1)) /\ ymd (seconds_to_univ (951782399 + SECONDS_PER_DAY)) = (2000, 2, 29).
Proof.
  assert (H : ORIGIN <= 951782399) by (vm_compute; congruence).
  split; [exact H|]. split; [exact (calendar_correct 951782399 H)|vm_compute; reflexivity].
Defined.

(** univ_to_seconds and seconds_to_univ are inverse to each other on the dates from 1600 to
    INT_MAX - 1. *)
Theorem posixtime_roundtrip (d : datetime) (t : Z) :
  (univ_to_seconds d = Some t -> seconds_to_univ t = d) /\
  (ORIGIN <= t -> 1600 <= year (seconds_to_univ t) <= INT_MAX - 1 -> univ_to_seconds (seconds_to_univ t) = Some t).
Proof.
  split; [intros E; now apply univ_to_seconds_inv|]. intros Ht Hy. destruct (univ_to_seconds_guard (seconds_to_univ t)) as [G _].
  destruct (univ_to_seconds (seconds_to_univ t)) as [t'|] eqn:E.
  - apply univ_to_seconds_inv in E as [Ht' E]. f_equal. symmetry. apply seconds_to_univ_inj; auto.
  - exfalso. apply (proj2 G); auto. split; auto. now apply seconds_to_univ_valid.
Qed.
Lemma posixtime_roundtrip_witness :
  univ_to_seconds (mkDate 2016 2 29 23 59 58) = Some 1456790398 /\ seconds_to_univ 1456790398 = mkDate 2016 2 29 23 59 58 /\
  univ_to_seconds (seconds_to_univ (-11676096000)) = Some (-11676096000).
Proof.
  assert (E : univ_to_seconds (mkDate 2016 2 29 23 59 58) = Some 1456790398) by (vm_compute; reflexivity).
  split; [exact E|]. split; [exact (proj1 (posixtime_roundtrip _ _) E)|].
  apply (proj2 (posixtime_roundtrip (mkDate 1600 1 1 0 0 0) (-11676096000))); vm_compute; intuition congruence.
Defined.

(** univ_to_seconds refuses exactly the dates and times that do not exist and the years out of
    its range. *)
Theorem univ_to_seconds_badarg (d : datetime) :
  univ_to_seconds d = None <-> ~ (valid_datetime d /\ 1600 <= year d <= INT_MAX - 1).
Proof.
  destruct (univ_to_seconds_guard d) as [G _]. rewrite <- G. destruct (univ_to_seconds d); split; try congruence; intros H; destruct H; congruence.
Qed.

(** Before year 0 the truncating divisions make seconds_to_univ skip 29 February of year 0 and
    return a day 0. *)
Theorem no_day_zero : seconds_to_univ (ORIGIN - 366 * SECONDS_PER_DAY) = mkDate (-1) 3 0 0 0 0 /\
  seconds_to_univ (ORIGIN - SECONDS_PER_DAY) = mkDate 0 2 28 0 0 0 /\ valid_day 0 2 29 = true.
Proof. vm_compute. auto. Qed.
