(* ===== verification/Avl.v ===== *)
(** The balanced trees of erl_monitors.c: insertion and removal with explicit stacks, search and
    traversal, for any node type. The lemmas on the operations are in terms of the in-order list
    [elems]; [stack_enough] shows that the stacks of the C code are large enough for every tree of
    less than [MAX_NODES] nodes. *)

From S2P Require Import Prelude.
From stdpp Require Import base option list sorting.
Local Open Scope Z_scope.

(** Entries of the stacks of the tree walks. *)
Definition STACK_NEED : nat := 50.
(** Directions; the bottom mark [DIR_END] is the end of the list. *)
Inductive dir := DIR_LEFT | DIR_RIGHT.

Section Tree.
Context {V : Type}.

(** A tree: the links and the balance that the three kinds of node share, and the rest of the
    node as its value. *)
Inductive tree := NULL | Node (balance : Z) (val : V) (left right : tree).

(** A stack entry: a node without the child the walk went to, which is on the
    side of the direction. *)
Record frame := Frame { f_dir : dir; f_balance : Z; f_val : V; f_other : tree }.
Definition plug (f : frame) (t : tree) : tree :=
  match f_dir f with
  | DIR_LEFT => Node (f_balance f) (f_val f) t (f_other f)
  | DIR_RIGHT => Node (f_balance f) (f_val f) (f_other f) t
  end.
Fixpoint unwind (stk : list frame) (this : tree) : tree :=
  match stk with [] => this | f :: stk => unwind stk (plug f this) end.

(** A push on the stacks of the C code; [None] when they overflow. *)
Definition push (f : frame) (stk : list frame) : option (list frame) :=
  if (length stk <? STACK_NEED)%nat then Some (f :: stk) else None.

(** ** Rotations *)
(** The case of a left subtree that became higher; the flag tells whether the tree did. *)
Definition grown_left (p : tree) : option (tree * bool) :=
  match p with
  | NULL => None
  | Node b v l r =>
      if b =? 1 then Some (Node 0 v l r, false)
      else if b =? 0 then Some (Node (-1) v l r, true)
      else if b =? -1 then
        match l with
        | NULL => None
        | Node b1 v1 l1 r1 =>
            if b1 =? -1 then Some (Node 0 v1 l1 (Node 0 v r1 r), false)
            else match r1 with
                 | NULL => None
                 | Node b2 v2 l2 r2 =>
                     Some (Node 0 v2 (Node (if b2 =? 1 then -1 else 0) v1 l1 l2)
                                     (Node (if b2 =? -1 then 1 else 0) v r2 r), false)
                 end
        end
      else Some (p, true)
  end.
(** The case of a right subtree that became higher. *)
Definition grown_right (p : tree) : option (tree * bool) :=
  match p with
  | NULL => None
  | Node b v l r =>
      if b =? -1 then Some (Node 0 v l r, false)
      else if b =? 0 then Some (Node 1 v l r, true)
      else if b =? 1 then
        match r with
        | NULL => None
        | Node b1 v1 l1 r1 =>
            if b1 =? 1 then Some (Node 0 v1 (Node 0 v l l1) r1, false)
            else match l1 with
                 | NULL => None
                 | Node b2 v2 l2 r2 =>
                     Some (Node 0 v2 (Node (if b2 =? 1 then -1 else 0) v l l2)
                                     (Node (if b2 =? -1 then 1 else 0) v1 r2 r1), false)
                 end
        end
      else Some (p, true)
  end.
(** [insertion_rotation]: the way back to the root, until the height is as before. *)
Fixpoint insertion_rotation (stk : list frame) (this : tree) (state : bool) : option tree :=
  match stk with
  | [] => Some this
  | f :: stk =>
      if state then
        '(this, state) ← (match f_dir f with DIR_LEFT => grown_left (plug f this) | DIR_RIGHT => grown_right (plug f this) end);
        insertion_rotation stk this state
      else Some (unwind (f :: stk) this)
  end.

(** [balance_left]: the left subtree became lower. *)
Definition balance_left (p : tree) : option (tree * bool) :=
  match p with
  | NULL => None
  | Node b v l r =>
      if b =? -1 then Some (Node 0 v l r, true)
      else if b =? 0 then Some (Node 1 v l r, false)
      else if b =? 1 then
        match r with
        | NULL => None
        | Node b1 v1 l1 r1 =>
            if b1 >=? 0 then
              if b1 =? 0 then Some (Node (-1) v1 (Node 1 v l l1) r1, false)
              else Some (Node 0 v1 (Node 0 v l l1) r1, true)
            else match l1 with
                 | NULL => None
                 | Node b2 v2 l2 r2 =>
                     Some (Node 0 v2 (Node (if b2 =? 1 then -1 else 0) v l l2)
                                     (Node (if b2 =? -1 then 1 else 0) v1 r2 r1), true)
                 end
        end
      else Some (p, true)
  end.
(** [balance_right]: the right subtree became lower. *)
Definition balance_right (p : tree) : option (tree * bool) :=
  match p with
  | NULL => None
  | Node b v l r =>
      if b =? 1 then Some (Node 0 v l r, true)
      else if b =? 0 then Some (Node (-1) v l r, false)
      else if b =? -1 then
        match l with
        | NULL => None
        | Node b1 v1 l1 r1 =>
            if b1 <=? 0 then
              if b1 =? 0 then Some (Node 1 v1 l1 (Node (-1) v r1 r), false)
              else Some (Node 0 v1 l1 (Node 0 v r1 r), true)
            else match r1 with
                 | NULL => None
                 | Node b2 v2 l2 r2 =>
                     Some (Node 0 v2 (Node (if b2 =? 1 then -1 else 0) v1 l1 l2)
                                     (Node (if b2 =? -1 then 1 else 0) v r2 r), true)
                 end
        end
      else Some (p, true)
  end.

(** The loops that rebalance on the way back; [h] tells that the subtree
    became lower. The second result is [h] at the root. *)
Fixpoint deletion_rotation (stk : list frame) (this : tree) (h : bool) : option (tree * bool) :=
  match stk with
  | [] => Some (this, h)
  | f :: stk =>
      if h then
        '(this, h) ← (match f_dir f with DIR_LEFT => balance_left (plug f this) | DIR_RIGHT => balance_right (plug f this) end);
        deletion_rotation stk this h
      else Some (unwind (f :: stk) this, false)
  end.

(** The walk to the rightmost node of the left subtree: its value, the subtree that replaces it,
    and the stack. *)
Fixpoint delsub_walk (r : tree) (stk : list frame) : option (V * tree * list frame) :=
  match r with
  | NULL => None
  | Node b v l r' =>
      match r' with
      | NULL => Some (v, l, stk)
      | _ => stk ← push (Frame DIR_RIGHT b v l) stk; delsub_walk r' stk
      end
  end.
(** [delsub]: put the predecessor in the place of the node. *)
Definition delsub (q : tree) : option (tree * bool) :=
  match q with
  | NULL => None
  | Node b _ l r =>
      '(v, rest, stk) ← delsub_walk l [];
      '(l, h) ← deletion_rotation stk rest true;
      Some (Node b v l r, h)
  end.

(** The node found is taken out, and the tree rebalanced up to the root. In the
    last case it is pushed, with the direction left, before delsub runs. *)
Definition unlink (b : Z) (v : V) (l r : tree) (stk : list frame) : option tree :=
  match r with
  | NULL => fst <$> deletion_rotation stk l true
  | Node _ _ _ _ =>
      match l with
      | NULL => fst <$> deletion_rotation stk r true
      | Node _ _ _ _ =>
          _ ← push (Frame DIR_LEFT b v r) stk;
          '(this, state) ← delsub (Node b v l r);
          match this with
          | NULL => None
          | Node b v l r => fst <$> deletion_rotation (Frame DIR_LEFT b v r :: stk) l state
          end
      end
  end.

(** ** The searches *)
Section Search.
(** The comparison of the key looked for with the key of a node. *)
Variable c : V -> Z.

(** The walk down from the root: the place found and the stack. *)
Fixpoint descend (this : tree) (stk : list frame) : option (tree * list frame) :=
  match this with
  | NULL => Some (NULL, stk)
  | Node b v l r =>
      if c v <? 0 then stk ← push (Frame DIR_LEFT b v r) stk; descend l stk
      else if c v >? 0 then stk ← push (Frame DIR_RIGHT b v l) stk; descend r stk
      else Some (this, stk)
  end.

(** [inl]: the node with this key; [inr]: the new tree. *)
Definition tree_add (new : V) (root : tree) : option (V + tree) :=
  '(this, stk) ← descend root [];
  match this with
  | Node _ v _ _ => Some (inl v)
  | NULL => t ← insertion_rotation stk (Node 0 new NULL NULL) true; Some (inr t)
  end.

(** Removal: search, unlinking, rebalancing. *)
Definition tree_remove (root : tree) : option (tree * option V) :=
  '(this, stk) ← descend root [];
  match this with
  | NULL => Some (root, None)
  | Node b v l r => t ← unlink b v l r stk; Some (t, Some v)
  end.

(** Search without a stack. *)
Fixpoint tree_lookup (root : tree) : option V :=
  match root with
  | NULL => None
  | Node _ v l r => if c v =? 0 then Some v else if c v <? 0 then tree_lookup l else tree_lookup r
  end.
End Search.

(** ** The traversal that deletes every node: the stack holds nodes *)
(** The post-order traversal. *)
Fixpoint tree_sweep (fuel : nat) (root : tree) (stk : list (dir * tree)) : option (list V) :=
  match fuel with
  | O => None
  | S fuel =>
      match root with
      | NULL =>
          match stk with
          | [] => Some []
          | (DIR_LEFT, t) :: stk =>
              match t with
              | NULL => None
              | Node _ _ _ r => tree_sweep fuel r ((DIR_RIGHT, t) :: stk)
              end
          | (DIR_RIGHT, t) :: stk =>
              match t with
              | NULL => None
              | Node _ v _ _ => vs ← tree_sweep fuel NULL stk; Some (v :: vs)
              end
          end
      | Node _ _ l _ =>
          if (length stk <? STACK_NEED)%nat then tree_sweep fuel l ((DIR_LEFT, root) :: stk) else None
      end
  end.
End Tree.
Arguments tree : clear implicits.
Arguments frame : clear implicits.

(** ** In-order contents and balance *)
Section Facts.
Context {V : Type}.
Notation tree := (tree V). Notation frame := (frame V).

Fixpoint elems (t : tree) : list V := match t with NULL => [] | Node _ v l r => elems l ++ v :: elems r end.
Fixpoint height (t : tree) : Z := match t with NULL => 0 | Node _ _ l r => 1 + Z.max (height l) (height r) end.
Fixpoint avl (t : tree) : Prop :=
  match t with NULL => True | Node b _ l r => avl l /\ avl r /\ b = height r - height l /\ -1 <= b <= 1 end.
Fixpoint before (stk : list frame) : list V :=
  match stk with
  | [] => []
  | f :: stk => before stk ++ match f_dir f with DIR_LEFT => [] | DIR_RIGHT => elems (f_other f) ++ [f_val f] end
  end.
Fixpoint after (stk : list frame) : list V :=
  match stk with
  | [] => []
  | f :: stk => match f_dir f with DIR_LEFT => f_val f :: elems (f_other f) | DIR_RIGHT => [] end ++ after stk
  end.
(** A context for a subtree of height [h], giving a tree of height [H]. *)
Fixpoint ctx (stk : list frame) (h H : Z) : Prop :=
  match stk with
  | [] => H = h
  | f :: stk => avl (f_other f) /\ -1 <= f_balance f <= 1 /\
      f_balance f = (match f_dir f with DIR_LEFT => height (f_other f) - h | DIR_RIGHT => h - height (f_other f) end) /\
      ctx stk (1 + Z.max h (height (f_other f))) H
  end.

Lemma height_nonneg t : 0 <= height t. Proof. induction t; cbn; lia. Qed.
Lemma elems_plug f t : elems (plug f t) = match f_dir f with DIR_LEFT => elems t ++ f_val f :: elems (f_other f) | DIR_RIGHT => elems (f_other f) ++ f_val f :: elems t end.
Proof. unfold plug. now destruct (f_dir f). Qed.
Lemma elems_unwind stk : forall t, elems (unwind stk t) = before stk ++ elems t ++ after stk.
Proof.
  induction stk as [|f stk IH]; intros t; cbn; [now rewrite app_nil_r|]. rewrite IH, elems_plug. destruct (f_dir f); now rewrite <- !app_assoc.
Qed.
Lemma avl_unwind stk : forall t H, ctx stk (height t) H -> avl t -> avl (unwind stk t) /\ height (unwind stk t) = H.
Proof.
  induction stk as [|f stk IH]; intros t H Hc Ht; cbn in *; [now subst|]. destruct Hc as (Ho & Hb & Eb & Hc).
  apply IH; unfold plug; destruct (f_dir f); cbn; splits; auto; now rewrite ?(Z.max_comm (height (f_other f))).
Qed.

Ltac reassoc := repeat (rewrite <- app_assoc; cbn); reflexivity.
Ltac avl_cases := repeat match goal with
  | |- context [if ?x =? ?y then _ else _] => destruct (Z.eqb_spec x y); try lia
  | |- context [if ?x >=? ?y then _ else _] => rewrite (Z.geb_leb x y); destruct (Z.leb_spec y x); try lia
  | |- context [if ?x <=? ?y then _ else _] => destruct (Z.leb_spec x y); try lia
  end.
Ltac avl_done := eexists _, _; split; [reflexivity|]; cbn; splits; avl_cases; auto; try lia; try discriminate;
  try (repeat (rewrite <- app_assoc; cbn); reflexivity).
Ltac avl_open t := destruct t as [|]; cbn [height avl elems] in *; [lia|]; 
  repeat match goal with H : _ /\ _ |- _ => destruct H | x : tree |- _ => lazymatch goal with _ : 0 <= height x |- _ => fail | _ => pose proof (height_nonneg x) end end.

(** A subtree that became higher: a fresh leaf, or out of balance by one. *)
Definition leaning (t : tree) : Prop := match t with NULL => False | Node b _ l r => b <> 0 \/ l = NULL /\ r = NULL end.

Lemma grown_left_spec b v l r h : avl l -> avl r -> height l = h + 1 -> b = height r - h -> -1 <= b <= 1 -> leaning l ->
  exists t s, grown_left (Node b v l r) = Some (t, s) /\ avl t /\ elems t = elems (Node b v l r) /\
    height t = 1 + Z.max h (height r) + b2z s /\ (s = true -> leaning t).
Proof.
  intros Hl Hr Eh Eb Hb Hle. pose proof (height_nonneg r). unfold grown_left. destruct l as [|b1 v1 l1 r1]; [destruct Hle|].
  cbn [height avl leaning elems] in *. destruct Hl as (Hl1 & Hr1 & Eb1 & Hb1).
  pose proof (height_nonneg l1). pose proof (height_nonneg r1). avl_cases; try avl_done.
  assert (Hb1' : b1 = 1) by (destruct Hle as [|[-> ->]]; cbn in *; lia). avl_open r1. avl_done.
Qed.
Lemma grown_right_spec b v l r h : avl l -> avl r -> height r = h + 1 -> b = h - height l -> -1 <= b <= 1 -> leaning r ->
  exists t s, grown_right (Node b v l r) = Some (t, s) /\ avl t /\ elems t = elems (Node b v l r) /\
    height t = 1 + Z.max h (height l) + b2z s /\ (s = true -> leaning t).
Proof.
  intros Hl Hr Eh Eb Hb Hle. pose proof (height_nonneg l). unfold grown_right. destruct r as [|b1 v1 l1 r1]; [destruct Hle|].
  cbn [height avl leaning elems] in *. destruct Hr as (Hl1 & Hr1 & Eb1 & Hb1).
  pose proof (height_nonneg l1). pose proof (height_nonneg r1). avl_cases; try avl_done.
  assert (Hb1' : b1 = -1) by (destruct Hle as [|[-> ->]]; cbn in *; lia). avl_open l1. avl_done.
Qed.
Lemma balance_left_spec b v l r h : avl l -> avl r -> height l = h - 1 -> b = height r - h -> -1 <= b <= 1 ->
  exists t s, balance_left (Node b v l r) = Some (t, s) /\ avl t /\ elems t = elems (Node b v l r) /\
    height t = 1 + Z.max h (height r) - b2z s.
Proof.
  intros Hl Hr Eh Eb Hb. pose proof (height_nonneg l). unfold balance_left. avl_cases; try avl_done.
  avl_open r. avl_cases; try avl_done. avl_open r1. avl_done.
Qed.
Lemma balance_right_spec b v l r h : avl l -> avl r -> height r = h - 1 -> b = h - height l -> -1 <= b <= 1 ->
  exists t s, balance_right (Node b v l r) = Some (t, s) /\ avl t /\ elems t = elems (Node b v l r) /\
    height t = 1 + Z.max h (height l) - b2z s.
Proof.
  intros Hl Hr Eh Eb Hb. pose proof (height_nonneg r). unfold balance_right. avl_cases; try avl_done.
  avl_open l. avl_cases; try avl_done. avl_open l2. avl_done.
Qed.

(** ** The way back *)
Lemma insertion_rotation_spec stk : forall this h H s, ctx stk h H -> avl this -> height this = h + b2z s -> (s = true -> leaning this) ->
  exists t, insertion_rotation stk this s = Some t /\ avl t /\ elems t = before stk ++ elems this ++ after stk /\ H <= height t <= H + 1.
Proof.
  induction stk as [|f stk IH]; intros this h H s Hc Ha Hh Hs; cbn [insertion_rotation].
  - cbn in *. subst H. exists this. rewrite app_nil_r. splits; auto; unfold b2z in *; destruct s; lia.
  - destruct s.
    + destruct Hc as (Ho & Hb & Eb & Hc). cbn [b2z] in Hh.
      assert (exists t s, match f_dir f with DIR_LEFT => grown_left (plug f this) | DIR_RIGHT => grown_right (plug f this) end = Some (t, s) /\
        avl t /\ elems t = elems (plug f this) /\ height t = 1 + Z.max h (height (f_other f)) + b2z s /\ (s = true -> leaning t))
        as (t & s & E & At & Et & Ht & Hs').
      { unfold plug. destruct (f_dir f); [apply grown_left_spec|apply grown_right_spec]; auto. }
      rewrite E. cbn [mbind option_bind]. destruct (IH t _ H s Hc At Ht Hs') as (t' & E' & A' & El' & H').
      exists t'. splits; auto; try lia. rewrite El', Et, elems_plug. cbn [before after]. destruct (f_dir f); reassoc.
    + cbn [b2z] in Hh. rewrite Z.add_0_r in Hh. rewrite <- Hh in Hc. destruct (avl_unwind (f :: stk) this H Hc Ha) as [A E].
      eexists. split; [reflexivity|]. splits; auto; [apply elems_unwind|lia|lia].
Qed.
Lemma deletion_rotation_spec stk : forall this h H s, ctx stk h H -> avl this -> height this = h - b2z s ->
  exists t s', deletion_rotation stk this s = Some (t, s') /\ avl t /\ elems t = before stk ++ elems this ++ after stk /\ height t = H - b2z s'.
Proof.
  induction stk as [|f stk IH]; intros this h H s Hc Ha Hh; cbn [deletion_rotation].
  - cbn in *. subst H. exists this, s. rewrite app_nil_r. auto.
  - destruct s.
    + destruct Hc as (Ho & Hb & Eb & Hc). cbn [b2z] in Hh.
      assert (exists t s, match f_dir f with DIR_LEFT => balance_left (plug f this) | DIR_RIGHT => balance_right (plug f this) end = Some (t, s) /\
        avl t /\ elems t = elems (plug f this) /\ height t = 1 + Z.max h (height (f_other f)) - b2z s)
        as (t & s & E & At & Et & Ht).
      { unfold plug. destruct (f_dir f); [apply balance_left_spec|apply balance_right_spec]; auto. }
      rewrite E. cbn [mbind option_bind]. destruct (IH t _ H s Hc At Ht) as (t' & s' & E' & A' & El' & H').
      exists t', s'. splits; auto. rewrite El', Et, elems_plug. cbn [before after]. destruct (f_dir f); reassoc.
    + cbn [b2z] in Hh. rewrite Z.sub_0_r in Hh. rewrite <- Hh in Hc. destruct (avl_unwind (f :: stk) this H Hc Ha) as [A E].
      eexists _, _. split; [reflexivity|]. splits; auto; [apply elems_unwind|cbn [b2z]; lia].
Qed.

(** ** The way down *)
Lemma ctx_length stk : forall h H, ctx stk h H -> 0 <= h -> Z.of_nat (length stk) + h <= H.
Proof. induction stk as [|f stk IH]; intros h H Hc Hh; cbn [ctx length] in *; [lia|]. destruct Hc as (_ & _ & _ & Hc). apply IH in Hc; lia. Qed.
Lemma push_ok (f : frame) (stk : list frame) : Z.of_nat (length stk) < Z.of_nat STACK_NEED -> push f stk = Some (f :: stk).
Proof. intros H. unfold push. destruct (Nat.ltb_spec (length stk) STACK_NEED); [reflexivity|lia]. Qed.

(** Along a tree in order the comparison with a key goes from positive to
    negative, and is 0 once at most. *)
Definition descending (c : V -> Z) (l : list V) : Prop := StronglySorted (fun a b => c a <= 0 -> c b < 0) l.
Definition above (c : V -> Z) (l : list V) : Prop := Forall (fun v => 0 < c v) l.
Definition under (c : V -> Z) (l : list V) : Prop := Forall (fun v => c v < 0) l.
Lemma descending_node c l v r : descending c (l ++ v :: r) ->
  descending c l /\ descending c r /\ (c v <= 0 -> under c r) /\ (0 <= c v -> above c l).
Proof.
  unfold descending, above, under. intros H. induction l as [|a l IH]; cbn in H.
  - apply StronglySorted_inv in H as [H F]. splits; auto using SSorted_nil.
    intros Hv. eapply Forall_impl; [exact F|]. cbn. auto.
  - apply StronglySorted_inv in H as [H F]. destruct (IH H) as (H1 & H2 & H3 & H4). apply Forall_app in F as [F1 F2].
    apply Forall_cons in F2 as [Fv F2]. splits; auto.
    + constructor; auto.
    + intros Hv. constructor; auto. destruct (Z_lt_le_dec 0 (c a)) as [|Ha]; [auto|]. specialize (Fv Ha). lia.
Qed.

Lemma descend_spec c this : forall stk H, avl this -> ctx stk (height this) H -> H <= Z.of_nat STACK_NEED ->
  descending c (elems this) -> above c (before stk) -> under c (after stk) ->
  exists t stk', descend c this stk = Some (t, stk') /\ avl t /\ ctx stk' (height t) H /\
    before stk' ++ elems t ++ after stk' = before stk ++ elems this ++ after stk /\
    match t with NULL => True | Node _ v _ _ => c v = 0 end /\ above c (before stk') /\ under c (after stk').
Proof.
  induction this as [|b v l IHl r IHr]; intros stk H Ha Hc HH Hd Hb Hf; cbn [descend].
  - exists NULL, stk. splits; auto.
  - cbn [elems] in Hd. apply descending_node in Hd as (Hdl & Hdr & Hu & Hab). pose proof (ctx_length _ _ _ Hc (height_nonneg _)) as Hlen.
    cbn [height avl] in *. destruct Ha as (Al & Ar & Eb & Hbb). pose proof (height_nonneg l). pose proof (height_nonneg r).
    destruct (Z.ltb_spec (c v) 0) as [Hn|Hn]; [|rewrite Z.gtb_ltb; destruct (Z.ltb_spec 0 (c v)) as [Hp|Hp]].
    + rewrite push_ok by lia. cbn [mbind option_bind].
      destruct (IHl (Frame DIR_LEFT b v r :: stk) H) as (t & stk' & E & At & Ct & El & Ev & B & A); auto.
      * cbn. splits; auto; lia.
      * cbn. rewrite app_nil_r. auto.
      * cbn. constructor; auto. apply Forall_app. split; [apply Hu; lia|auto].
      * exists t, stk'. splits; auto. rewrite El. cbn [before after f_dir f_val f_other elems]. rewrite app_nil_r. reassoc.
    + rewrite push_ok by lia. cbn [mbind option_bind].
      destruct (IHr (Frame DIR_RIGHT b v l :: stk) H) as (t & stk' & E & At & Ct & El & Ev & B & A); auto.
      * cbn. splits; auto; try lia. now rewrite (Z.max_comm (height r)).
      * cbn. apply Forall_app. split; auto. apply Forall_app. split; [apply Hab; lia|]. constructor; auto.
      * exists t, stk'. splits; auto. rewrite El. cbn [before after f_dir f_val f_other elems]. reassoc.
    + exists (Node b v l r), stk. cbn [avl height]. splits; auto; lia.
Qed.

(** ** The operations *)
Lemma add_spec c new root : avl root -> height root <= Z.of_nat STACK_NEED -> descending c (elems root) ->
  (exists v, tree_add c new root = Some (inl v) /\ v ∈ elems root /\ c v = 0) \/
  (exists t l r, tree_add c new root = Some (inr t) /\ avl t /\ elems root = l ++ r /\ above c l /\ under c r /\ elems t = l ++ new :: r).
Proof.
  intros Ha Hh Hd. unfold tree_add.
  destruct (descend_spec c root [] (height root) Ha ltac:(reflexivity) Hh Hd ltac:(constructor) ltac:(constructor)) as (t & stk & -> & At & Ct & El & Ev & B & A).
  cbn [mbind option_bind]. cbn [before after app] in El. rewrite app_nil_r in El. destruct t as [|b v l r].
  - right. destruct (insertion_rotation_spec stk (Node 0 new NULL NULL) 0 (height root) true Ct) as (t & E & A' & E' & _);
      [cbn; lia|reflexivity|intros _; cbn; auto|]. rewrite E. cbn [mbind option_bind].
    exists t, (before stk), (after stk). splits; auto.
  - left. exists v. splits; auto. rewrite <- El. cbn. rewrite !elem_of_app, elem_of_cons. tauto.
Qed.

Lemma delsub_walk_spec r : forall stk H, r <> NULL -> avl r -> ctx stk (height r) H -> H <= Z.of_nat STACK_NEED -> after stk = [] ->
  exists v rest stk', delsub_walk r stk = Some (v, rest, stk') /\ avl rest /\ ctx stk' (height rest + 1) H /\ after stk' = [] /\
    before stk' ++ elems rest ++ [v] = before stk ++ elems r.
Proof.
  induction r as [|b v l _ r IH]; intros stk H Hne Ha Hc HH Hf; [congruence|]. clear Hne.
  pose proof (ctx_length _ _ _ Hc (height_nonneg _)) as Hlen. cbn [delsub_walk]. cbn [avl height elems] in *. destruct Ha as (Al & Ar & Eb & Hb).
  pose proof (height_nonneg l). pose proof (height_nonneg r). destruct r as [|b' v' l' r'] eqn:Er.
  - exists v, l, stk. splits; auto. cbn [height] in Hc. rewrite Z.max_l, Z.add_comm in Hc by lia. exact Hc.
  - rewrite <- Er in *. rewrite push_ok by lia. cbn [mbind option_bind].
    destruct (IH (Frame DIR_RIGHT b v l :: stk) H) as (w & rest & stk' & E & Ar' & Cr & Af & El); auto; [congruence| |].
    { cbn. splits; auto; try lia. now rewrite Z.max_comm. }
    exists w, rest, stk'. splits; auto. rewrite El. cbn [before f_dir f_other f_val]. reassoc.
Qed.
Lemma delsub_spec b v l r : l <> NULL -> avl (Node b v l r) -> height (Node b v l r) <= Z.of_nat STACK_NEED ->
  exists v' l' h, delsub (Node b v l r) = Some (Node b v' l' r, h) /\ elems l = elems l' ++ [v'] /\ avl l' /\ height l' = height l - b2z h.
Proof.
  cbn [avl height]. intros Hl (Al & Ar & _) Hh. pose proof (height_nonneg r). unfold delsub.
  destruct (delsub_walk_spec l [] (height l) Hl Al ltac:(reflexivity) ltac:(lia) eq_refl) as (w & rest & stk & E & Ar' & Cr & Af & El).
  rewrite E. cbn [mbind option_bind].
  destruct (deletion_rotation_spec stk rest (height rest + 1) (height l) true Cr Ar' ltac:(cbn; lia)) as (l' & h & E' & Al' & El' & Hl').
  rewrite E'. cbn [mbind option_bind]. exists w, l', h. splits; auto. cbn in El. rewrite <- El, El', Af, app_nil_r. now rewrite app_assoc.
Qed.

Lemma unlink_spec b v l r stk H : avl (Node b v l r) -> ctx stk (height (Node b v l r)) H -> H <= Z.of_nat STACK_NEED ->
  exists t, unlink b v l r stk = Some t /\ avl t /\ elems t = before stk ++ (elems l ++ elems r) ++ after stk.
Proof.
  intros Ha Hc HH. pose proof (ctx_length _ _ _ Hc (height_nonneg _)) as Hlen. pose proof Ha as (Al & Ar & Eb & Hb).
  cbn [height] in Hc, Hlen. pose proof (height_nonneg l). pose proof (height_nonneg r).
  assert (Hdel : forall x, avl x -> height x = Z.max (height l) (height r) -> elems x = elems l ++ elems r ->
    exists t, fst <$> deletion_rotation stk x true = Some t /\ avl t /\ elems t = before stk ++ (elems l ++ elems r) ++ after stk).
  { intros x Hx Hhx Ex. destruct (deletion_rotation_spec stk x _ H true Hc Hx ltac:(cbn [b2z]; lia)) as (t & s' & E & At & Et & _).
    exists t. rewrite E, <- Ex. auto. }
  unfold unlink. destruct r as [|br vr lr rr].
  - apply Hdel; auto; cbn [elems height] in *; [lia|now rewrite app_nil_r].
  - set (r := Node br vr lr rr) in *. destruct l as [|bl vl ll rl].
    + apply Hdel; auto; cbn [elems height] in *. lia.
    + set (l := Node bl vl ll rl) in *. rewrite push_ok by lia. cbn [mbind option_bind].
      destruct (delsub_spec b v l r) as (v' & l' & h & E & Ev' & Al' & Hl'); [discriminate|auto|cbn [height]; lia|].
      rewrite E. cbn [mbind option_bind].
      destruct (deletion_rotation_spec (Frame DIR_LEFT b v' r :: stk) l' (height l) H h) as (t & s & E' & At' & Et & _); auto.
      { cbn [ctx f_other f_balance f_dir]. splits; auto; lia. }
      rewrite E'. cbn [fmap option_fmap option_map fst]. exists t. splits; auto.
      rewrite Et, Ev'. cbn [before after f_dir f_val f_other]. rewrite app_nil_r. reassoc.
Qed.
Lemma remove_spec c root : avl root -> height root <= Z.of_nat STACK_NEED -> descending c (elems root) ->
  (tree_remove c root = Some (root, None) /\ Forall (fun v => c v <> 0) (elems root)) \/
  (exists t v l r, tree_remove c root = Some (t, Some v) /\ avl t /\ c v = 0 /\ elems root = l ++ v :: r /\ above c l /\ under c r /\ elems t = l ++ r).
Proof.
  intros Ha Hh Hd. unfold tree_remove.
  destruct (descend_spec c root [] (height root) Ha ltac:(reflexivity) Hh Hd ltac:(constructor) ltac:(constructor)) as (t & stk & -> & At & Ct & El & Ev & B & A).
  cbn [mbind option_bind]. cbn [before after app] in El. rewrite app_nil_r in El. destruct t as [|b v l r].
  { left. split; auto. rewrite <- El. cbn. apply Forall_app. split; [eapply Forall_impl; [exact B|]|eapply Forall_impl; [exact A|]]; cbn; lia. }
  right. destruct (unlink_spec b v l r stk (height root) At Ct Hh) as (t & -> & At' & Et).
  assert (Hroot : elems root = (before stk ++ elems l) ++ v :: (elems r ++ after stk)) by (rewrite <- El; reassoc).
  rewrite Hroot in Hd. apply descending_node in Hd as (_ & _ & Hu & Hab).
  exists t, v, (before stk ++ elems l), (elems r ++ after stk). splits; auto; [apply Hab; lia|apply Hu; lia|]. rewrite Et. reassoc.
Qed.

Lemma lookup_spec c root : descending c (elems root) ->
  match tree_lookup c root with Some v => v ∈ elems root /\ c v = 0 | None => Forall (fun v => c v <> 0) (elems root) end.
Proof.
  induction root as [|b v l IHl r IHr]; intros Hd; cbn [tree_lookup elems]; [constructor|]. cbn [elems] in Hd.
  destruct (descending_node _ _ _ _ Hd) as (Hl & Hr & Hu & Hab). destruct (Z.eqb_spec (c v) 0) as [E|N].
  - split; auto. rewrite elem_of_app, elem_of_cons. auto.
  - assert (Hn : forall P : list V, above c P -> Forall (fun v => c v <> 0) P) by (intros P F; eapply Forall_impl; [exact F|]; cbn; lia).
    assert (Hn' : forall P : list V, under c P -> Forall (fun v => c v <> 0) P) by (intros P F; eapply Forall_impl; [exact F|]; cbn; lia).
    destruct (Z.ltb_spec (c v) 0) as [H|H].
    + specialize (IHl Hl). destruct (tree_lookup c l); [rewrite elem_of_app; tauto|]. apply Forall_app. split; auto. constructor; auto. apply Hn', Hu. lia.
    + specialize (IHr Hr). destruct (tree_lookup c r); [rewrite elem_of_app, elem_of_cons; tauto|]. apply Forall_app. split; [apply Hn, Hab; lia|]. constructor; auto.
Qed.

(** ** The stacks are large enough *)
Fixpoint fewest (n : nat) : Z * Z := match n with O => (0, 1) | S n => let '(a, b) := fewest n in (b, a + b + 1) end.
Lemma fewest_spec n : forall t, avl t -> (Z.of_nat n <= height t -> fst (fewest n) <= Z.of_nat (length (elems t))) /\
  (Z.of_nat n + 1 <= height t -> snd (fewest n) <= Z.of_nat (length (elems t))).
Proof.
  induction n as [|n IH]; intros t Ha.
  - cbn. split; [lia|]. destruct t; cbn; [lia|]. rewrite length_app. cbn. lia.
  - cbn [fewest]. destruct (fewest n) as [x y] eqn:E. cbn [fst snd] in *. split; [intros; apply (IH t Ha); lia|]. intros Hh.
    destruct t as [|b v l r]; cbn [height avl elems] in *; [lia|]. destruct Ha as (Al & Ar & Eb & Hb).
    rewrite length_app. cbn [length]. destruct (IH l Al) as [L1 L2]. destruct (IH r Ar) as [R1 R2].
    destruct (Z.leb_spec (height l) (height r)); [specialize (L1 ltac:(lia)); specialize (R2 ltac:(lia))|specialize (R1 ltac:(lia)); specialize (L2 ltac:(lia))]; lia.
Qed.
Definition MAX_NODES : Z := 53316291172.
Lemma stack_enough t : avl t -> Z.of_nat (length (elems t)) < MAX_NODES -> height t <= Z.of_nat STACK_NEED.
Proof.
  intros Ha Hs. destruct (Z_le_gt_dec (height t) (Z.of_nat STACK_NEED)) as [|Hg]; [auto|exfalso].
  destruct (fewest_spec STACK_NEED t Ha) as [_ H]. specialize (H ltac:(lia)). assert (E : snd (fewest STACK_NEED) = MAX_NODES) by reflexivity.
  rewrite E in H. lia.
Qed.

(** ** The traversal *)
Fixpoint postorder (t : tree) : list V := match t with NULL => [] | Node _ v l r => postorder l ++ postorder r ++ [v] end.
Fixpoint steps (t : tree) : nat := match t with NULL => 0 | Node _ _ l r => S (steps l + S (steps r + 1)) end.
Lemma sweep_spec t : forall n stk, Z.of_nat (length stk) + height t <= Z.of_nat STACK_NEED ->
  tree_sweep (steps t + n) t stk = vs ← tree_sweep n NULL stk; Some (postorder t ++ vs).
Proof.
  induction t as [|b v l IHl r IHr]; intros n stk Hs.
  - cbn. now destruct (tree_sweep n NULL stk).
  - cbn [height] in Hs. pose proof (height_nonneg l). pose proof (height_nonneg r). cbn [steps plus tree_sweep].
    destruct (Nat.ltb_spec (length stk) STACK_NEED); [|lia].
    replace (steps l + S (steps r + 1) + n)%nat with (steps l + S (steps r + (1 + n)))%nat by lia.
    rewrite IHl by (cbn [length]; lia). cbn [tree_sweep]. rewrite IHr by (cbn [length]; lia). cbn [plus tree_sweep].
    destruct (tree_sweep n NULL stk); cbn; [|reflexivity]. f_equal. reassoc.
Qed.
Lemma postorder_elems t : postorder t ≡ₚ elems t.
Proof.
  induction t as [|b v l IHl r IHr]; [reflexivity|]. cbn. rewrite IHl, IHr. f_equiv. symmetry. apply Permutation_cons_append.
Qed.
End Facts.
