(* ===== verification/TermOrder.v ===== *)
(** The order of the terms that serve as keys, and the class [LexOrder] that the trees rely on:
    a comparison that agrees with the lexicographic order of lists of numbers. *)

From S2P Require Import Prelude.

(** Atoms as their text, which is what interning makes of them. *)
Definition atom : Type := list Z.
(** A node: its name and its creation. *)
Record ErlNode := mkErlNode { sysname : atom; creation : Z }.
(** The terms that serve as keys. *)
Inductive nterm :=
  | Atom (name : atom)
  | Pid (n : ErlNode) (data : Z)
  | Port (n : ErlNode) (data : Z)
  | Ref (n : ErlNode) (nums : list Z).

(** The loop over the common length. *)
Fixpoint cmpbytes_loop (s1 s2 : list Z) : option Z :=
  match s1, s2 with
  | a :: s1, b :: s2 => if a <? b then Some (-1) else if a >? b then Some 1 else cmpbytes_loop s1 s2
  | _, _ => None
  end.
(** [l1] and [l2] can be negative, the strings are empty then. *)
Definition cmpbytes (s1 : list Z) (l1 : Z) (s2 : list Z) (l2 : Z) : Z :=
  match cmpbytes_loop s1 s2 with
  | Some j => j
  | None => if l1 <? l2 then -1 else if l1 >? l2 then 1 else 0
  end.
(** The first 31 bits of the text, as a number. *)
Definition ord0 (name : atom) : Z :=
  let c i := nth i name 0 in
  Z.shiftl (c 0%nat) 23 + Z.shiftl (c 1%nat) 15 + Z.shiftl (c 2%nat) 7 + Z.shiftr (c 3%nat) 1.
(** [cmp_atoms]. *)
Definition cmp_atoms (a b : atom) : Z :=
  let diff := ord0 a - ord0 b in
  if negb (diff =? 0) then diff
  else cmpbytes (skipn 3 a) (Z.of_nat (length a) - 3) (skipn 3 b) (Z.of_nat (length b) - 3).

(** Equal atoms are one table entry. *)
Fixpoint same_atom (a b : atom) : bool :=
  match a, b with
  | [], [] => true
  | x :: a, y :: b => (x =? y) && same_atom a b
  | _, _ => false
  end.
Definition same_node (a b : ErlNode) : bool := same_atom (sysname a) (sysname b) && (creation a =? creation b).
(** 0 when the nodes are the same. *)
Definition CMP_NODES (an bn : ErlNode) : Z :=
  if same_node an bn then 0
  else if negb (same_atom (sysname an) (sysname bn)) then cmp_atoms (sysname an) (sysname bn)
  else if creation an <? creation bn then -1 else 1.

(** The loop over the numbers of two references, from the last one; the difference of two 32-bit
    words is cast to a signed 32-bit integer. *)
Fixpoint cmp_numbers (ranum rbnum : list Z) : Z :=
  match ranum, rbnum with
  | a :: ra, b :: rb => if negb (a =? b) then s32 (a - b) else cmp_numbers ra rb
  | _, _ => 0
  end.
Definition all_zero (l : list Z) : bool := forallb (fun d => d =? 0) l.
(** References of any two lengths: the numbers only one of them has must be zero. *)
Definition ref_numbers (anum bnum : list Z) : Z :=
  let n := Nat.min (length anum) (length bnum) in
  if negb (all_zero (skipn n anum)) then 1
  else if negb (all_zero (skipn n bnum)) then -1
  else cmp_numbers (rev (firstn n anum)) (rev (firstn n bnum)).

(** Process identifiers. *)
Definition pid_common (adata bdata : Z) (an bn : ErlNode) : Z :=
  if negb (adata =? bdata) then (if adata <? bdata then -1 else 1) else CMP_NODES an bn.
(** Ports. *)
Definition port_common (adata bdata : Z) (an bn : ErlNode) : Z :=
  let j := CMP_NODES an bn in if negb (j =? 0) then j else s64 (adata - bdata).
(** References. *)
Definition ref_common (an bn : ErlNode) (anum bnum : list Z) : Z :=
  let j := CMP_NODES an bn in if negb (j =? 0) then j else ref_numbers anum bnum.

(** The tags in term order; an external thing has the next tag, which makes no
    difference between terms of different types. *)
Definition tag_val_def (t : nterm) : Z :=
  match t with Pid _ _ => 5 | Port _ _ => 7 | Ref _ _ => 11 | Atom _ => 13 end.
(** [erts_cmp] on atoms, pids, ports and references: the dispatch on the types. *)
Definition erts_cmp (a b : nterm) : Z :=
  match a, b with
  | Atom x, Atom y => cmp_atoms x y
  | Pid an ad, Pid bn bd => pid_common ad bd an bn
  | Port an ad, Port bn bd => port_common ad bd an bn
  | Ref an anum, Ref bn bnum => ref_common an bn anum bnum
  | _, _ => tag_val_def b - tag_val_def a
  end.

(** ** A reference order: lists of integers, compared like words *)
Fixpoint lex (a b : list Z) : Z :=
  match a, b with
  | [], [] => 0
  | [], _ => -1
  | _, [] => 1
  | x :: a, y :: b => if x <? y then -1 else if x >? y then 1 else lex a b
  end.
Lemma lex_refl a : lex a a = 0.
Proof. induction a as [|x a IH]; cbn; auto. now rewrite Z.gtb_ltb, Z.ltb_irrefl. Qed.
Lemma lex_eq a : forall b, lex a b = 0 -> a = b.
Proof.
  induction a as [|x a IH]; intros [|y b]; cbn; try discriminate; auto.
  rewrite Z.gtb_ltb. destruct (Z.ltb_spec x y), (Z.ltb_spec y x); try discriminate. intros H1. f_equal; [lia|auto].
Qed.
Lemma lex_antisym a : forall b, lex b a = - lex a b.
Proof.
  induction a as [|x a IH]; intros [|y b]; cbn; auto. rewrite !Z.gtb_ltb. destruct (Z.ltb_spec x y), (Z.ltb_spec y x); auto; lia.
Qed.
Lemma lex_range a : forall b, lex a b = -1 \/ lex a b = 0 \/ lex a b = 1.
Proof. induction a as [|x a IH]; intros [|y b]; cbn; auto. rewrite Z.gtb_ltb. destruct (x <? y), (y <? x); auto. Qed.
Lemma lex_trans a : forall b c, lex a b < 0 -> lex b c < 0 -> lex a c < 0.
Proof.
  induction a as [|x a IH]; intros [|y b] [|z c]; cbn; try lia. rewrite !Z.gtb_ltb.
  destruct (Z.ltb_spec x y), (Z.ltb_spec y x), (Z.ltb_spec y z), (Z.ltb_spec z y), (Z.ltb_spec x z), (Z.ltb_spec z x); try lia. apply IH.
Qed.
Lemma lex_app p u v : lex (p ++ u) (p ++ v) = lex u v.
Proof. induction p as [|x p IH]; cbn; auto. now rewrite Z.gtb_ltb, Z.ltb_irrefl. Qed.

(** A comparison that orders keys like a function to lists does. *)
Class LexOrder {K : Type} (cmp : K -> K -> Z) (ok : K -> Prop) (word : K -> list Z) : Prop :=
  cmp_lex : forall a b, ok a -> ok b -> Z.sgn (cmp a b) = lex (word a) (word b).
Section Laws.
Context {K : Type} (cmp : K -> K -> Z) (ok : K -> Prop) (word : K -> list Z) `{LexOrder K cmp ok word}.
Lemma cmp_neg a b : ok a -> ok b -> cmp a b < 0 <-> lex (word a) (word b) < 0.
Proof. intros Ha Hb. pose proof (cmp_lex a b Ha Hb). lia. Qed.
Lemma cmp_zero a b : ok a -> ok b -> cmp a b = 0 <-> word a = word b.
Proof.
  intros Ha Hb. pose proof (cmp_lex a b Ha Hb) as E. split; intros E'.
  - apply lex_eq. lia.
  - rewrite E', lex_refl in E. lia.
Qed.
Lemma cmp_antisym a b : ok a -> ok b -> cmp a b < 0 <-> 0 < cmp b a.
Proof. intros Ha Hb. pose proof (cmp_lex a b Ha Hb). pose proof (cmp_lex b a Hb Ha). pose proof (lex_antisym (word a) (word b)). lia. Qed.
Lemma cmp_trans a b c : ok a -> ok b -> ok c -> cmp a b < 0 -> cmp b c < 0 -> cmp a c < 0.
Proof. intros Ha Hb Hc. rewrite !cmp_neg by auto. apply lex_trans. Qed.
End Laws.

(** ** Atoms are in the order of their text *)
Definition is_name (a : atom) : Prop := Forall (fun c => 0 <= c < 256) a.
Lemma cmpbytes_lex a : forall b, cmpbytes a (Z.of_nat (length a)) b (Z.of_nat (length b)) = lex a b.
Proof.
  unfold cmpbytes. induction a as [|x a IH]; intros [|y b]; cbn [cmpbytes_loop lex length].
  - reflexivity.
  - destruct (Z.ltb_spec (Z.of_nat 0) (Z.of_nat (S (length b)))); [reflexivity|lia].
  - rewrite Z.gtb_ltb. destruct (Z.ltb_spec (Z.of_nat (S (length a))) (Z.of_nat 0)), (Z.ltb_spec (Z.of_nat 0) (Z.of_nat (S (length a)))); lia.
  - rewrite !Z.gtb_ltb. destruct (Z.ltb_spec x y), (Z.ltb_spec y x); auto. rewrite <- IH.
    destruct (cmpbytes_loop a b); auto. rewrite !Z.gtb_ltb.
    destruct (Z.ltb_spec (Z.of_nat (S (length a))) (Z.of_nat (S (length b)))), (Z.ltb_spec (Z.of_nat (S (length b))) (Z.of_nat (S (length a)))),
      (Z.ltb_spec (Z.of_nat (length a)) (Z.of_nat (length b))), (Z.ltb_spec (Z.of_nat (length b)) (Z.of_nat (length a))); lia.
Qed.

Lemma ord0_eq a : ord0 a = 8388608 * nth 0 a 0 + 32768 * nth 1 a 0 + 128 * nth 2 a 0 + nth 3 a 0 / 2.
Proof. unfold ord0. rewrite !Z.shiftl_mul_pow2, Z.shiftr_div_pow2 by lia. lia. Qed.
Lemma name_byte a i : is_name a -> 0 <= nth i a 0 < 256.
Proof.
  intros H. unfold is_name in H. rewrite Forall_nth in H. destruct (Nat.lt_ge_cases i (length a)); [now apply H|]. rewrite nth_overflow by lia. lia.
Qed.
Lemma lex_cons x a y b : lex (x :: a) (y :: b) = if x <? y then -1 else if x >? y then 1 else lex a b. Proof. reflexivity. Qed.

(** The first bytes that differ decide, a missing byte counting as 0. *)
Lemma ord0_lex a b : is_name a -> is_name b -> ord0 a <> ord0 b -> Z.sgn (ord0 a - ord0 b) = lex a b.
Proof.
  intros Ha Hb. rewrite !ord0_eq.
  pose proof (name_byte a 0 Ha). pose proof (name_byte a 1 Ha). pose proof (name_byte a 2 Ha). pose proof (name_byte a 3 Ha).
  pose proof (name_byte b 0 Hb). pose proof (name_byte b 1 Hb). pose proof (name_byte b 2 Hb). pose proof (name_byte b 3 Hb). clear Ha Hb.
  destruct a as [|a0 [|a1 [|a2 [|a3 a]]]], b as [|b0 [|b1 [|b2 [|b3 b]]]]; cbn [nth lex] in *;
    rewrite ?Z.gtb_ltb; intros N;
    repeat match goal with |- context [if ?x <? ?y then _ else _] => destruct (Z.ltb_spec x y) end; lia.
Qed.
Lemma cmp_atoms_lex a b : is_name a -> is_name b -> Z.sgn (cmp_atoms a b) = lex a b.
Proof.
  intros Ha Hb. unfold cmp_atoms. destruct (Z.eqb_spec (ord0 a - ord0 b) 0) as [E|N]; cbn [negb].
  2:{ apply ord0_lex; auto. lia. }
  assert (Hs : forall j, (j = -1 \/ j = 0 \/ j = 1) -> Z.sgn j = j) by lia.
  assert (Hl : Z.sgn (cmpbytes (skipn 3 a) (Z.of_nat (length a) - 3) (skipn 3 b) (Z.of_nat (length b) - 3)) = lex a b); [|exact Hl].
  rewrite !ord0_eq in E.
  pose proof (name_byte a 0 Ha). pose proof (name_byte a 1 Ha). pose proof (name_byte a 2 Ha). pose proof (name_byte a 3 Ha).
  pose proof (name_byte b 0 Hb). pose proof (name_byte b 1 Hb). pose proof (name_byte b 2 Hb). pose proof (name_byte b 3 Hb). clear Ha Hb.
  assert (Hlong : forall x y z u x' y' z' u', x = x' /\ y = y' /\ z = z' ->
    Z.sgn (cmpbytes u (Z.of_nat (length (x :: y :: z :: u)) - 3) u' (Z.of_nat (length (x' :: y' :: z' :: u')) - 3)) = lex (x :: y :: z :: u) (x' :: y' :: z' :: u')).
  { intros x y z u x' y' z' u' (-> & -> & ->). change (lex (x' :: y' :: z' :: u) (x' :: y' :: z' :: u')) with (lex ([x'; y'; z'] ++ u) ([x'; y'; z'] ++ u')).
    rewrite lex_app, <- (cmpbytes_lex u u'). replace (Z.of_nat (length (x' :: y' :: z' :: u)) - 3) with (Z.of_nat (length u)) by (cbn [length]; lia).
    replace (Z.of_nat (length (x' :: y' :: z' :: u')) - 3) with (Z.of_nat (length u')) by (cbn [length]; lia).
    apply Hs. rewrite cmpbytes_lex. apply lex_range. }
  destruct a as [|a0 [|a1 [|a2 a]]], b as [|b0 [|b1 [|b2 b]]]; try (apply Hlong; destruct a, b; cbn [nth] in *; lia);
    cbn [nth skipn length] in *; unfold cmpbytes; cbn [cmpbytes_loop lex];
    try (destruct a as [|a3 a]); try (destruct b as [|b3 b]); cbn [cmpbytes_loop nth length] in *; rewrite ?Z.gtb_ltb;
    repeat match goal with |- context [if ?x <? ?y then _ else _] => destruct (Z.ltb_spec x y) end; lia.
Qed.
Lemma same_atom_spec a : forall b, same_atom a b = true <-> a = b.
Proof.
  induction a as [|x a IH]; intros [|y b]; cbn; split; try discriminate; auto.
  - rewrite andb_true_iff, Z.eqb_eq, IH. intros [-> ->]. reflexivity.
  - intros [= -> ->]. rewrite Z.eqb_refl. now apply IH.
Qed.

(** ** Nodes *)
Definition node_ok (n : ErlNode) : Prop := is_name (sysname n).
(** A word for a node that no word of another node starts with. *)
Definition node_word (n : ErlNode) : list Z := map Z.succ (sysname n) ++ [0; creation n].
Lemma lex_map_succ a : forall b u v, Forall (fun c => 0 <= c < 256) a -> Forall (fun c => 0 <= c < 256) b ->
  lex (map Z.succ a ++ 0 :: u) (map Z.succ b ++ 0 :: v) = if same_atom a b then lex u v else lex a b.
Proof.
  induction a as [|x a IH]; intros [|y b] u v Ha Hb; cbn [map app lex same_atom].
  - reflexivity.
  - inversion Hb. destruct (Z.ltb_spec 0 (Z.succ y)); [reflexivity|lia].
  - inversion Ha. rewrite Z.gtb_ltb. destruct (Z.ltb_spec (Z.succ x) 0), (Z.ltb_spec 0 (Z.succ x)); try reflexivity; lia.
  - inversion Ha; inversion Hb; subst. rewrite IH by auto. rewrite !Z.gtb_ltb.
    destruct (Z.eqb_spec x y), (Z.ltb_spec (Z.succ x) (Z.succ y)), (Z.ltb_spec (Z.succ y) (Z.succ x)), (Z.ltb_spec x y), (Z.ltb_spec y x); cbn [andb]; try reflexivity; lia.
Qed.
Lemma node_word_app n m u v : node_ok n -> node_ok m ->
  lex (node_word n ++ u) (node_word m ++ v) = if same_node n m then lex u v else Z.sgn (CMP_NODES n m).
Proof.
  intros Hn Hm. unfold node_word, CMP_NODES, same_node. rewrite <- !app_assoc. cbn [app]. rewrite lex_map_succ by auto.
  destruct (same_atom (sysname n) (sysname m)) eqn:E; cbn [andb negb lex].
  - rewrite Z.gtb_ltb. destruct (Z.eqb_spec (creation n) (creation m)), (Z.ltb_spec (creation n) (creation m)), (Z.ltb_spec (creation m) (creation n)); try reflexivity; lia.
  - symmetry. now apply cmp_atoms_lex.
Qed.
Lemma same_node_spec n m : same_node n m = true <-> n = m.
Proof.
  unfold same_node. rewrite andb_true_iff, same_atom_spec, Z.eqb_eq. destruct n, m; cbn. split; [intros [-> ->]; reflexivity|intros [= -> ->]; auto].
Qed.
Lemma CMP_NODES_zero n m : node_ok n -> node_ok m -> CMP_NODES n m = 0 <-> same_node n m = true.
Proof.
  intros Hn Hm. unfold CMP_NODES. destruct (same_node n m) eqn:E; [tauto|]. split; [|discriminate].
  destruct (same_atom (sysname n) (sysname m)) eqn:Es; cbn [negb].
  - destruct (_ <? _); discriminate.
  - intros E0. pose proof (cmp_atoms_lex _ _ Hn Hm) as L. rewrite E0 in L. symmetry in L. apply lex_eq, same_atom_spec in L. congruence.
Qed.

(** ** Reference numbers *)
Fixpoint nums_val (l : list Z) : Z := match l with [] => 0 | d :: l => d + 2 ^ 32 * nums_val l end.
(** The 32-bit difference of two numbers has the right sign when they are
    less than 2^31 apart. *)
Definition small_nums (l : list Z) : Prop := Forall (fun d => 0 <= d < 2 ^ 31) l.
Lemma nums_val_nonneg l : small_nums l -> 0 <= nums_val l.
Proof. intros H. induction H; cbn [nums_val]; lia. Qed.
Lemma nums_val_app a b : nums_val (a ++ b) = nums_val a + 2 ^ (32 * Z.of_nat (length a)) * nums_val b.
Proof.
  induction a as [|d a IH]; [cbn; lia|]. cbn [app nums_val length]. rewrite IH, Nat2Z.inj_succ.
  replace (32 * Z.succ (Z.of_nat (length a))) with (32 + 32 * Z.of_nat (length a)) by lia. rewrite Z.pow_add_r by lia. ring.
Qed.
Lemma nums_val_bound l : small_nums l -> 0 <= nums_val l < 2 ^ (32 * Z.of_nat (length l)).
Proof.
  intros H. induction H as [|d l Hd H IH]; [cbn; lia|]. cbn [nums_val length]. rewrite Nat2Z.inj_succ.
  replace (32 * Z.succ (Z.of_nat (length l))) with (32 + 32 * Z.of_nat (length l)) by lia. rewrite Z.pow_add_r by lia. nia.
Qed.
Lemma all_zero_val l : small_nums l -> all_zero l = true <-> nums_val l = 0.
Proof.
  intros H. induction H as [|d l Hd H IH]; cbn [all_zero forallb nums_val]; [tauto|].
  fold (all_zero l). pose proof (nums_val_nonneg l H). rewrite andb_true_iff, IH, Z.eqb_eq. lia.
Qed.
Lemma s32_diff a b : 0 <= a < 2 ^ 31 -> 0 <= b < 2 ^ 31 -> s32 (a - b) = a - b.
Proof. intros Ha Hb. unfold s32, u32. cbv zeta. destruct (Z.ltb_spec ((a - b) mod 2 ^ 32) (2 ^ 31)); lia. Qed.
Lemma cmp_numbers_spec ra : forall rb, small_nums ra -> small_nums rb -> length ra = length rb ->
  Z.sgn (cmp_numbers ra rb) = Z.sgn (nums_val (rev ra) - nums_val (rev rb)).
Proof.
  induction ra as [|a ra IH]; intros [|b rb] Ha Hb E; try discriminate; [reflexivity|]. injection E as E. inversion Ha; inversion Hb; subst.
  cbn [cmp_numbers rev]. rewrite !nums_val_app, !length_rev, <- E. cbn [nums_val]. rewrite !Z.mul_0_r, !Z.add_0_r.
  assert (Hra : small_nums (rev ra)) by now apply Forall_rev. assert (Hrb : small_nums (rev rb)) by now apply Forall_rev.
  pose proof (nums_val_bound _ Hra) as Ba. pose proof (nums_val_bound _ Hrb) as Bb. rewrite length_rev in Ba, Bb. rewrite <- E in Bb.
  set (P := 2 ^ (32 * Z.of_nat (length ra))) in *. destruct (Z.eqb_spec a b) as [->|N]; cbn [negb].
  - rewrite IH by auto. f_equal. lia.
  - rewrite s32_diff by auto. destruct (Z_lt_le_dec a b); [rewrite !Z.sgn_neg by nia|rewrite !Z.sgn_pos by nia]; reflexivity.
Qed.
Lemma ref_numbers_spec a b : small_nums a -> small_nums b -> Z.sgn (ref_numbers a b) = Z.sgn (nums_val a - nums_val b).
Proof.
  intros Ha Hb. unfold ref_numbers. set (n := Nat.min (length a) (length b)).
  assert (Fa : small_nums (firstn n a) /\ small_nums (skipn n a)) by (apply Forall_app; now rewrite firstn_skipn).
  assert (Fb : small_nums (firstn n b) /\ small_nums (skipn n b)) by (apply Forall_app; now rewrite firstn_skipn).
  assert (Va : nums_val a = nums_val (firstn n a) + 2 ^ (32 * Z.of_nat n) * nums_val (skipn n a)).
  { rewrite <- (firstn_skipn n a) at 1. rewrite nums_val_app, length_firstn, Nat.min_l by (unfold n; lia). reflexivity. }
  assert (Vb : nums_val b = nums_val (firstn n b) + 2 ^ (32 * Z.of_nat n) * nums_val (skipn n b)).
  { rewrite <- (firstn_skipn n b) at 1. rewrite nums_val_app, length_firstn, Nat.min_l by (unfold n; lia). reflexivity. }
  pose proof (nums_val_bound _ (proj1 Fa)) as Ba. pose proof (nums_val_bound _ (proj1 Fb)) as Bb. rewrite length_firstn, Nat.min_l in Ba, Bb by (unfold n; lia).
  pose proof (nums_val_nonneg _ (proj2 Fa)) as Na. pose proof (nums_val_nonneg _ (proj2 Fb)) as Nb.
  assert (Hsk : skipn n a = [] \/ skipn n b = []).
  { destruct (Nat.le_ge_cases (length a) (length b)); [left|right]; apply skipn_all2; unfold n; lia. }
  set (P := 2 ^ (32 * Z.of_nat n)) in *.
  pose proof (all_zero_val _ (proj2 Fa)) as Za. pose proof (all_zero_val _ (proj2 Fb)) as Zb.
  destruct (all_zero (skipn n a)) eqn:Ea; cbn [negb]; [destruct (all_zero (skipn n b)) eqn:Eb; cbn [negb]|].
  - rewrite cmp_numbers_spec; [rewrite !rev_involutive; f_equal; rewrite Va, Vb, (proj1 Za eq_refl), (proj1 Zb eq_refl); lia| | |].
    + now apply Forall_rev.
    + now apply Forall_rev.
    + rewrite !length_rev, !length_firstn. unfold n. lia.
  - assert (nums_val (skipn n b) <> 0) by (intros F; apply Zb in F; discriminate). rewrite Va, Vb, (proj1 Za eq_refl). rewrite (Z.sgn_neg (_ - _)); [reflexivity|nia].
  - assert (nums_val (skipn n a) <> 0) by (intros F; apply Za in F; discriminate). destruct Hsk as [E|E]; [rewrite E in *; cbn in *; lia|].
    rewrite Va, Vb, E. cbn [nums_val]. rewrite (Z.sgn_pos (_ - _)); [reflexivity|nia].
Qed.

(** ** The keys of link and monitor trees *)
Definition nterm_ok (t : nterm) : Prop :=
  match t with
  | Atom a => is_name a
  | Pid n d | Port n d => node_ok n /\ 0 <= d < 2 ^ 32
  | Ref n l => node_ok n /\ small_nums l
  end.
Definition nterm_word (t : nterm) : list Z :=
  match t with
  | Atom a => 0 :: a
  | Ref n l => 1 :: node_word n ++ [nums_val l]
  | Port n d => 2 :: node_word n ++ [d]
  | Pid n d => 3 :: d :: node_word n ++ []
  end.
#[export] Instance erts_cmp_lex : LexOrder erts_cmp nterm_ok nterm_word.
Proof.
  intros a b Ha Hb. destruct a as [x|n d|n d|n l], b as [y|m e|m e|m r]; cbn [erts_cmp tag_val_def nterm_word lex]; try reflexivity;
    cbn [nterm_ok] in *; rewrite ?Z.gtb_ltb, ?Z.ltb_irrefl.
  - now apply cmp_atoms_lex.
  - destruct Ha, Hb. unfold pid_common.
    destruct (Z.eqb_spec d e), (Z.ltb_spec d e), (Z.ltb_spec e d); cbn [negb]; try lia; auto.
    rewrite node_word_app by auto. destruct (same_node n m) eqn:E; [|reflexivity]. apply (CMP_NODES_zero n m) in E; auto. now rewrite E.
  - destruct Ha, Hb. unfold port_common. rewrite node_word_app by auto. destruct (same_node n m) eqn:E.
    + apply (CMP_NODES_zero n m) in E; auto. rewrite E. change (negb (0 =? 0)) with false. cbv iota. cbn [lex]. rewrite ?Z.gtb_ltb.
      assert (Es : s64 (d - e) = d - e) by (unfold s64, w64; cbv zeta; destruct (Z.ltb_spec ((d - e) mod β) (2 ^ 63)); lia).
      rewrite Es. destruct (Z.ltb_spec d e), (Z.ltb_spec e d); lia.
    + destruct (Z.eqb_spec (CMP_NODES n m) 0) as [E0|N]; [apply (CMP_NODES_zero n m) in E0; auto; congruence|reflexivity].
  - destruct Ha as [Hn Hl], Hb as [Hm Hr]. unfold ref_common. rewrite node_word_app by auto. destruct (same_node n m) eqn:E.
    + apply (CMP_NODES_zero n m) in E; auto. rewrite E. change (negb (0 =? 0)) with false. cbv iota. cbn [lex]. rewrite ?Z.gtb_ltb.
      rewrite ref_numbers_spec by auto. destruct (Z.ltb_spec (nums_val l) (nums_val r)), (Z.ltb_spec (nums_val r) (nums_val l)); lia.
    + destruct (Z.eqb_spec (CMP_NODES n m) 0) as [E0|N]; [apply (CMP_NODES_zero n m) in E0; auto; congruence|reflexivity].
Qed.
