(* ===== verification/Monitors.v ===== *)
(** Monitors, links and suspend monitors: the nodes and their operations, as instances of the
    trees of Avl.v, and their lemmas for any key with a [LexOrder]. *)

From S2P Require Import Prelude Avl TermOrder.
From stdpp Require Import base option list sorting.
Local Open Scope Z_scope.

(** ** Nodes of the trees *)
(** Type tag. *)
Definition MON_ORIGIN : Z := 1.
(** Type tag. *)
Definition MON_TARGET : Z := 3.
(** Type tag. *)
Definition LINK_PID : Z := 1.
(** Type tag. *)
Definition LINK_NODE : Z := 3.

(** References as keys: a local one by its data words, which hold the arity
    and the three numbers, a remote one as a term. *)
Inductive mon_ref := LocalRef (ui32 : list Z) | ExternalRef (n : ErlNode) (nums : list Z).
(** A monitor. The name is an atom or []. *)
Record ErtsMonitor := mkMonitor { m_type : Z; m_ref : mon_ref; m_pid : nterm; m_name : option atom }.
(** The union of a link. *)
Inductive link_shared := Link_root (root : option positive) | Link_refc (refc : Z).
(** A link. *)
Record ErtsLink := mkLink { l_type : Z; l_pid : nterm; l_shared : link_shared }.
(** A suspend monitor. *)
Record ErtsSuspendMonitor := mkSuspend { s_pending : Z; s_active : Z; s_pid : nterm }.

(** [create_monitor]; the memory is not modelled. *)
Definition create_monitor (type : Z) (ref : mon_ref) (pid : nterm) (name : option atom) : ErtsMonitor :=
  mkMonitor (type mod 2 ^ 16) ref pid name.
(** [create_link]. *)
Definition create_link (type : Z) (pid : nterm) : ErtsLink :=
  let type := type mod 2 ^ 16 in
  mkLink type pid (if type =? LINK_NODE then Link_refc 0 else Link_root None).
(** [create_suspend_monitor]. *)
Definition create_suspend_monitor (pid : nterm) : ErtsSuspendMonitor := mkSuspend 0 0 pid.

(** The bytes of a 32-bit number in memory. *)
Definition ui32_bytes (d : Z) : list Z := [d mod 256; d / 256 mod 256; d / 65536 mod 256; d / 16777216 mod 256].
(** The comparison of the C library, of which only the sign is used. *)
Definition memcmp (a b : list Z) : Z := cmpbytes a (Z.of_nat (length a)) b (Z.of_nat (length b)).
(** Words of a local reference. *)
Definition ERTS_REF_32BIT_WORDS : nat := 4.
(** [cmp_mon_ref]: the order of monitor trees. *)
Definition cmp_mon_ref (ref1 ref2 : mon_ref) : Z :=
  match ref1, ref2 with
  | LocalRef u1, LocalRef u2 => memcmp (concat (map ui32_bytes (firstn ERTS_REF_32BIT_WORDS u1))) (concat (map ui32_bytes (firstn ERTS_REF_32BIT_WORDS u2)))
  | LocalRef _, ExternalRef _ _ => -1
  | ExternalRef _ _, LocalRef _ => 1
  | ExternalRef n1 l1, ExternalRef n2 l2 => erts_cmp (Ref n1 l1) (Ref n2 l2)
  end.

Notation mon_tree := (tree ErtsMonitor).
Notation link_tree := (tree ErtsLink).
Notation smon_tree := (tree ErtsSuspendMonitor).
(** The comparison with a node. *)
Definition by_ref (ref : mon_ref) (m : ErtsMonitor) : Z := cmp_mon_ref ref (m_ref m).
(** The comparison with a node. *)
Definition by_pid (pid : nterm) (l : ErtsLink) : Z := erts_cmp pid (l_pid l).
(** The comparison with a node. *)
Definition by_spid (pid : nterm) (s : ErtsSuspendMonitor) : Z := erts_cmp pid (s_pid s).

(** ** The operations *)
(** The outcome of an insertion: the new tree or the end of the emulator. *)
Inductive added (T : Type) := Added (t : T) | Erl_exit.
Arguments Added {T}. Arguments Erl_exit {T}.
(** [erts_add_monitor]: a monitor that is there already ends the emulator. *)
Definition erts_add_monitor (root : mon_tree) (type : Z) (ref : mon_ref) (pid : nterm) (name : option atom) : option (added mon_tree) :=
  r ← tree_add (by_ref ref) (create_monitor type ref pid name) root;
  match r with inr t => Some (Added t) | inl _ => Some Erl_exit end.
(** [erts_add_link]: -1 when the link is there already. *)
Definition erts_add_link (root : link_tree) (type : Z) (pid : nterm) : option (link_tree * Z) :=
  r ← tree_add (by_pid pid) (create_link type pid) root;
  match r with inr t => Some (t, 0) | inl _ => Some (root, -1) end.
(** [erts_add_or_lookup_link]: the link to a process, a new one if there is none. *)
Definition erts_add_or_lookup_link (root : link_tree) (type : Z) (pid : nterm) : option (link_tree * ErtsLink) :=
  r ← tree_add (by_pid pid) (create_link type pid) root;
  match r with inr t => Some (t, create_link type pid) | inl l => Some (root, l) end.
(** [erts_add_or_lookup_suspend_monitor]: the suspend monitor of a process, a new one if there
    is none. *)
Definition erts_add_or_lookup_suspend_monitor (root : smon_tree) (pid : nterm) : option (smon_tree * ErtsSuspendMonitor) :=
  r ← tree_add (by_spid pid) (create_suspend_monitor pid) root;
  match r with inr t => Some (t, create_suspend_monitor pid) | inl s => Some (root, s) end.
(** [erts_remove_monitor]: the monitor taken out of the tree, if any. *)
Definition erts_remove_monitor (root : mon_tree) (ref : mon_ref) : option (mon_tree * option ErtsMonitor) := tree_remove (by_ref ref) root.
(** [erts_remove_link]: the link taken out of the tree, if any. *)
Definition erts_remove_link (root : link_tree) (pid : nterm) : option (link_tree * option ErtsLink) := tree_remove (by_pid pid) root.
(** [erts_delete_suspend_monitor]: the tree without the suspend monitor. *)
Definition erts_delete_suspend_monitor (root : smon_tree) (pid : nterm) : option smon_tree := fst <$> tree_remove (by_spid pid) root.
(** [erts_lookup_monitor]: the monitor with the reference. *)
Definition erts_lookup_monitor (root : mon_tree) (ref : mon_ref) : option ErtsMonitor := tree_lookup (by_ref ref) root.
(** [erts_lookup_link]: the link to the process. *)
Definition erts_lookup_link (root : link_tree) (pid : nterm) : option ErtsLink := tree_lookup (by_pid pid) root.
(** [erts_lookup_suspend_monitor]: the suspend monitor of the process. *)
Definition erts_lookup_suspend_monitor (root : smon_tree) (pid : nterm) : option ErtsSuspendMonitor := tree_lookup (by_spid pid) root.
(** The nodes in the order [doit] is called on them. *)
Definition erts_sweep_monitors (root : mon_tree) : option (list ErtsMonitor) := tree_sweep (S (steps root)) root [].
(** [erts_sweep_links]: the nodes in the order of the callbacks. *)
Definition erts_sweep_links (root : link_tree) : option (list ErtsLink) := tree_sweep (S (steps root)) root [].
(** [erts_sweep_suspend_monitors]: the nodes in the order of the callbacks. *)
Definition erts_sweep_suspend_monitors (root : smon_tree) : option (list ErtsSuspendMonitor) := tree_sweep (S (steps root)) root [].

(** ** Keyed trees *)
Section Keyed.
Context {K V : Type} (cmp : K -> K -> Z) (ok : K -> Prop) (word : K -> list Z) `{LexOrder K cmp ok word} (key : V -> K).

Record keyed (t : tree V) : Prop := {
  kd_avl : avl t;
  kd_sorted : StronglySorted (fun a b => lex (word (key a)) (word (key b)) < 0) (elems t);
  kd_ok : Forall (fun v => ok (key v)) (elems t) }.
Definition find_key (k : K) (l : list V) : option V := List.find (fun v => bool_decide (word (key v) = word k)) l.
Definition fits (t : tree V) : Prop := Z.of_nat (length (elems t)) < MAX_NODES.

Lemma keyed_null : keyed NULL.
Proof. split; cbn; auto; constructor. Qed.
Lemma keyed_descending k t : keyed t -> ok k -> descending (fun v => cmp k (key v)) (elems t).
Proof.
  intros [_ Hs Ho] Hk. unfold descending. induction Hs as [|v l Hs IH HF]; constructor; inversion Ho as [|? ? Hv Hl]; subst; auto.
  rewrite List.Forall_forall in *. intros w Hw Hle. specialize (HF w Hw). specialize (Hl w Hw). cbn in Hv, Hl.
  apply (cmp_neg cmp ok word) in HF; auto.
  destruct (Z.eq_dec (cmp k (key v)) 0) as [E|N].
  - apply (cmp_zero cmp ok word) in E; auto. apply (cmp_neg cmp ok word); auto. rewrite E. apply (cmp_neg cmp ok word) in HF; auto.
  - apply (cmp_trans cmp ok word k (key v) (key w)); auto. lia.
Qed.
Lemma find_app k l r : find_key k (l ++ r) = match find_key k l with Some v => Some v | None => find_key k r end.
Proof. unfold find_key. induction l as [|v l IH]; cbn; auto. case_bool_decide; auto. Qed.
Lemma find_none k l : ok k -> Forall (fun v => ok (key v)) l -> Forall (fun v => cmp k (key v) <> 0) l -> find_key k l = None.
Proof.
  intros Hk Ho Hn. unfold find_key. induction l as [|v l IH]; cbn; auto. inversion Ho; inversion Hn; subst.
  case_bool_decide as E; auto. exfalso. symmetry in E. apply (cmp_zero cmp ok word) in E; auto.
Qed.
Lemma find_hit k v l r : ok k -> Forall (fun v => ok (key v)) (l ++ v :: r) -> above (fun v => cmp k (key v)) l -> cmp k (key v) = 0 ->
  find_key k (l ++ v :: r) = Some v.
Proof.
  intros Hk Ho Ha Hv. apply Forall_app in Ho as [Hl Hr]. inversion Hr; subst. rewrite find_app, find_none; auto.
  - unfold find_key. cbn. apply (cmp_zero cmp ok word) in Hv; auto. now rewrite bool_decide_eq_true_2.
  - eapply Forall_impl; [exact Ha|]. cbn. lia.
Qed.
Lemma find_other k k' v l r : word k <> word (key v) -> find_key k (l ++ v :: r) = find_key k (l ++ r) /\ (word k' = word (key v) -> word k <> word k').
Proof.
  intros N. split; [|congruence]. rewrite !find_app. destruct (find_key k l); auto. unfold find_key. cbn.
  now rewrite bool_decide_eq_false_2 by congruence.
Qed.
Lemma sorted_mid (l r : list V) k v : ok k -> Forall (fun v => ok (key v)) (l ++ r) -> StronglySorted (fun a b => lex (word (key a)) (word (key b)) < 0) (l ++ r) ->
  above (fun v => cmp k (key v)) l -> under (fun v => cmp k (key v)) r -> key v = k ->
  StronglySorted (fun a b => lex (word (key a)) (word (key b)) < 0) (l ++ v :: r).
Proof.
  intros Hk Ho Hs Ha Hu E. subst k. induction l as [|a l IH]; cbn in *.
  - constructor; auto. unfold under in Hu. rewrite List.Forall_forall in *. intros x Hx. apply (cmp_neg cmp ok word); auto.
  - apply StronglySorted_inv in Hs as [Hs HF]. inversion Ho; inversion Ha; subst. constructor; auto.
    apply Forall_app in HF as [F1 F2]. apply Forall_app. split; auto. constructor; auto.
    apply (cmp_neg cmp ok word); auto. apply (cmp_antisym cmp ok word); auto.
Qed.
Lemma sorted_drop (l r : list V) v : StronglySorted (fun a b => lex (word (key a)) (word (key b)) < 0) (l ++ v :: r) ->
  StronglySorted (fun a b => lex (word (key a)) (word (key b)) < 0) (l ++ r).
Proof.
  induction l as [|a l IH]; cbn; intros Hs; apply StronglySorted_inv in Hs as [Hs HF]; auto.
  constructor; auto. apply Forall_app in HF as [F1 F2]. inversion F2; subst. apply Forall_app; auto.
Qed.

(** The three operations on a keyed tree, in terms of [find_key]. *)
Lemma keyed_lookup t k : keyed t -> ok k -> tree_lookup (fun v => cmp k (key v)) t = find_key k (elems t).
Proof.
  intros Hk Hok. pose proof (lookup_spec _ t (keyed_descending k t Hk Hok)) as L. destruct Hk as [Ha Hs Ho].
  destruct (tree_lookup _ t) as [v|].
  - destruct L as [Hin Hz]. destruct (list_elem_of_split _ _ Hin) as (l & r & E). rewrite E in *.
    symmetry. apply find_hit; auto. pose proof (keyed_descending k t ltac:(split; rewrite ?E; auto) Hok) as D. rewrite E in D.
    apply descending_node in D as (_ & _ & _ & D). apply D. lia.
  - symmetry. now apply find_none.
Qed.
Lemma keyed_add t new : keyed t -> fits t -> ok (key new) ->
  match find_key (key new) (elems t) with
  | Some v => tree_add (fun v => cmp (key new) (key v)) new t = Some (inl v)
  | None => exists t', tree_add (fun v => cmp (key new) (key v)) new t = Some (inr t') /\ keyed t' /\
      length (elems t') = S (length (elems t)) /\
      forall k, find_key k (elems t') = if bool_decide (word (key new) = word k) then Some new else find_key k (elems t)
  end.
Proof.
  intros Hk Hf Hok. pose proof (keyed_descending _ t Hk Hok) as Hd. pose proof Hk as [Ha Hs Ho].
  destruct (add_spec _ new t Ha (stack_enough t Ha Hf) Hd) as [(v & E & Hin & Hz)|(t' & l & r & E & Ha' & El & Hab & Hun & El')].
  - destruct (list_elem_of_split _ _ Hin) as (l & r & Es). rewrite Es in *. pose proof Hd as (_ & _ & _ & Hab)%descending_node.
    rewrite (find_hit (key new) v l r); auto. apply Hab. lia.
  - rewrite (find_none (key new) (elems t)); auto.
    2:{ rewrite El. apply Forall_app. split; [eapply Forall_impl; [exact Hab|]|eapply Forall_impl; [exact Hun|]]; cbn; lia. }
    exists t'. rewrite El in Hs, Ho. splits; auto.
    + split; auto; rewrite El'; [eapply sorted_mid; eauto|]. apply Forall_app in Ho as [O1 O2]. apply Forall_app. auto.
    + rewrite El', El, !length_app. cbn. lia.
    + intros k. rewrite El', El. case_bool_decide as Ek.
      * rewrite find_app. replace (find_key k l) with (@None V); [unfold find_key; cbn; now rewrite bool_decide_eq_true_2|].
        symmetry. unfold find_key. rewrite <- Ek. apply find_none; auto; [now apply Forall_app in Ho as [? _]|].
        eapply Forall_impl; [exact Hab|]; cbn; lia.
      * apply (find_other k k). congruence.
Qed.
Lemma keyed_remove t k : keyed t -> fits t -> ok k ->
  exists t', tree_remove (fun v => cmp k (key v)) t = Some (t', find_key k (elems t)) /\ keyed t' /\ (length (elems t') <= length (elems t))%nat /\
    forall k', find_key k' (elems t') = if bool_decide (word k = word k') then None else find_key k' (elems t).
Proof.
  intros Hk Hf Hok. pose proof (keyed_descending _ t Hk Hok) as Hd. pose proof Hk as [Ha Hs Ho].
  destruct (remove_spec _ t Ha (stack_enough t Ha Hf) Hd) as [(E & Hn)|(t' & v & l & r & E & Ha' & Hz & El & Hab & Hun & El')].
  - exists t. rewrite (find_none k (elems t)); auto. splits; auto. intros k'. case_bool_decide as Ek; auto.
    unfold find_key. rewrite <- Ek. now apply find_none.
  - exists t'. rewrite El in *. rewrite (find_hit k v l r); auto. splits; auto.
    + apply Forall_app in Ho as [O1 O2]. inversion O2; subst. split; auto; rewrite El'; [eapply sorted_drop; eauto|]. apply Forall_app. auto.
    + rewrite El', !length_app. cbn. lia.
    + intros k'. rewrite El'. apply Forall_app in Ho as [O1 O2]. inversion O2; subst.
      pose proof (proj1 (cmp_zero cmp ok word k (key v) Hok ltac:(auto)) Hz) as Ew. case_bool_decide as Ek.
      * unfold find_key. rewrite <- Ek. apply find_none; auto; [apply Forall_app; auto|].
        apply Forall_app. split; [eapply Forall_impl; [exact Hab|]|eapply Forall_impl; [exact Hun|]]; cbn; lia.
      * symmetry. apply (find_other k' k'). congruence.
Qed.
End Keyed.

(** ** The order of monitor references *)
Definition mon_ref_ok (r : mon_ref) : Prop :=
  match r with LocalRef u => Forall (fun d => 0 <= d < 2 ^ 32) u | ExternalRef n l => nterm_ok (Ref n l) end.
Definition mon_ref_word (r : mon_ref) : list Z :=
  match r with
  | LocalRef u => 0 :: concat (map ui32_bytes (firstn ERTS_REF_32BIT_WORDS u))
  | ExternalRef n l => 1 :: nterm_word (Ref n l)
  end.
#[export] Instance cmp_mon_ref_lex : LexOrder cmp_mon_ref mon_ref_ok mon_ref_word.
Proof.
  intros a b Ha Hb. destruct a as [u|n l], b as [v|m r]; cbn [cmp_mon_ref mon_ref_word lex]; try reflexivity; rewrite ?Z.gtb_ltb, ?Z.ltb_irrefl.
  - unfold memcmp. rewrite cmpbytes_lex. pose proof (lex_range (concat (map ui32_bytes (firstn ERTS_REF_32BIT_WORDS u))) (concat (map ui32_bytes (firstn ERTS_REF_32BIT_WORDS v)))). lia.
  - now apply erts_cmp_lex.
Qed.
