(* ===== verification/MonitorProps.v ===== *)
(** The properties of the monitor and link trees and of the term order, each with a concrete
    instance. *)

From S2P Require Import Prelude Avl TermOrder Monitors.
From stdpp Require Import base option list sorting.
Local Open Scope Z_scope.

(** ** The trees of the three kinds *)
Definition mon_ok : mon_tree -> Prop := keyed mon_ref_ok mon_ref_word m_ref.
Definition link_ok : link_tree -> Prop := keyed nterm_ok nterm_word l_pid.
Definition smon_ok : smon_tree -> Prop := keyed nterm_ok nterm_word s_pid.
Definition find_monitor (r : mon_ref) (t : mon_tree) : option ErtsMonitor := find_key mon_ref_word m_ref r (elems t).
Definition find_link (p : nterm) (l : list ErtsLink) : option ErtsLink := find_key nterm_word l_pid p l.
Definition find_smon (p : nterm) (t : smon_tree) : option ErtsSuspendMonitor := find_key nterm_word s_pid p (elems t).

(** ** Links as a map, with the results of the operations *)
Inductive link_op := Add_link (type : Z) (pid : nterm) | Add_or_lookup_link (type : Z) (pid : nterm) | Remove_link (pid : nterm) | Lookup_link (pid : nterm).
Inductive link_result := Int (z : Z) | Link (l : option ErtsLink).
Definition op_pid (o : link_op) : nterm := match o with Add_link _ p | Add_or_lookup_link _ p | Remove_link p | Lookup_link p => p end.
Definition run_link (o : link_op) (t : link_tree) : option (link_tree * link_result) :=
  match o with
  | Add_link ty p => '(t, j) ← erts_add_link t ty p; Some (t, Int j)
  | Add_or_lookup_link ty p => '(t, l) ← erts_add_or_lookup_link t ty p; Some (t, Link (Some l))
  | Remove_link p => '(t, l) ← erts_remove_link t p; Some (t, Link l)
  | Lookup_link p => Some (t, Link (erts_lookup_link t p))
  end.
Fixpoint run_links (os : list link_op) (t : link_tree) : option (link_tree * list link_result) :=
  match os with
  | [] => Some (t, [])
  | o :: os => '(t, r) ← run_link o t; '(t, rs) ← run_links os t; Some (t, r :: rs)
  end.
(** The contract: a list of links without order. *)
Definition drop (p : nterm) (s : list ErtsLink) : list ErtsLink := List.filter (fun l => negb (bool_decide (nterm_word (l_pid l) = nterm_word p))) s.
Definition spec_link (o : link_op) (s : list ErtsLink) : list ErtsLink * link_result :=
  match o with
  | Add_link ty p => match find_link p s with Some _ => (s, Int (-1)) | None => (create_link ty p :: s, Int 0) end
  | Add_or_lookup_link ty p => match find_link p s with Some l => (s, Link (Some l)) | None => (create_link ty p :: s, Link (Some (create_link ty p))) end
  | Remove_link p => (drop p s, Link (find_link p s))
  | Lookup_link p => (s, Link (find_link p s))
  end.
Fixpoint spec_links (os : list link_op) (s : list ErtsLink) : list ErtsLink * list link_result :=
  match os with
  | [] => (s, [])
  | o :: os => let '(s, r) := spec_link o s in let '(s, rs) := spec_links os s in (s, r :: rs)
  end.

Lemma find_cons p l s : find_link p (l :: s) = if bool_decide (nterm_word (l_pid l) = nterm_word p) then Some l else find_link p s.
Proof. reflexivity. Qed.
Lemma find_drop p q s : find_link q (drop p s) = if bool_decide (nterm_word p = nterm_word q) then None else find_link q s.
Proof.
  induction s as [|l s IH]; [cbn; now case_bool_decide|]. cbn [drop List.filter]. fold (drop p s).
  destruct (bool_decide_reflect (nterm_word (l_pid l) = nterm_word p)) as [E|N]; cbn [negb].
  - rewrite IH, find_cons. case_bool_decide as E1; [auto|]. now rewrite bool_decide_eq_false_2 by congruence.
  - rewrite !find_cons, IH. destruct (bool_decide_reflect (nterm_word (l_pid l) = nterm_word q)) as [E2|]; [|auto].
    now rewrite bool_decide_eq_false_2 by congruence.
Qed.

Lemma run_link_spec o t s : link_ok t -> fits t -> nterm_ok (op_pid o) -> (forall p, find_link p (elems t) = find_link p s) ->
  exists t' r, run_link o t = Some (t', r) /\ link_ok t' /\ (length (elems t') <= S (length (elems t)))%nat /\
    snd (spec_link o s) = r /\ forall p, find_link p (elems t') = find_link p (fst (spec_link o s)).
Proof.
  intros Hk Hf Hok Hs. destruct o as [ty p|ty p|p|p]; cbn [run_link spec_link op_pid] in *; rewrite <- ?Hs.
  - pose proof (keyed_add erts_cmp nterm_ok nterm_word l_pid t (create_link ty p) Hk Hf Hok) as A. unfold erts_add_link, by_pid.
    change (l_pid (create_link ty p)) with p in A. fold (find_link p (elems t)) in A. destruct (find_link p (elems t)) as [l|].
    + rewrite A. exists t, (Int (-1)). cbn. splits; auto.
    + destruct A as (t' & -> & Hk' & Hl & Hf'). exists t', (Int 0). cbn [mbind option_bind fst snd]. splits; auto; [lia|].
      intros q. rewrite find_cons, <- Hs. apply Hf'.
  - pose proof (keyed_add erts_cmp nterm_ok nterm_word l_pid t (create_link ty p) Hk Hf Hok) as A. unfold erts_add_or_lookup_link, by_pid.
    change (l_pid (create_link ty p)) with p in A. fold (find_link p (elems t)) in A. destruct (find_link p (elems t)) as [l|].
    + rewrite A. eexists t, _. cbn. splits; auto.
    + destruct A as (t' & -> & Hk' & Hl & Hf'). eexists t', _. cbn [mbind option_bind fst snd]. splits; auto; [lia|].
      intros q. rewrite find_cons, <- Hs. apply Hf'.
  - destruct (keyed_remove erts_cmp nterm_ok nterm_word l_pid t p Hk Hf Hok) as (t' & E & Hk' & Hl & Hf'). unfold erts_remove_link, by_pid.
    rewrite E. eexists t', _. cbn [mbind option_bind fst snd]. splits; auto. intros q. rewrite find_drop, <- Hs. apply Hf'.
  - eexists t, _. splits; auto. cbn [snd]. f_equal. symmetry. unfold erts_lookup_link, by_pid. apply (keyed_lookup erts_cmp nterm_ok nterm_word l_pid); auto.
Qed.

Lemma run_links_spec os : forall t s, link_ok t -> Z.of_nat (length (elems t) + length os) < MAX_NODES -> Forall (fun o => nterm_ok (op_pid o)) os ->
  (forall p, find_link p (elems t) = find_link p s) ->
  exists t', run_links os t = Some (t', snd (spec_links os s)) /\ link_ok t' /\ forall p, find_link p (elems t') = find_link p (fst (spec_links os s)).
Proof.
  induction os as [|o os IH]; intros t s Hk Hl Ho Hs; cbn [run_links spec_links].
  - exists t. auto.
  - inversion Ho; subst. cbn [length] in Hl. destruct (run_link_spec o t s Hk) as (t1 & r & E & Hk1 & Hl1 & Er & Hs1); auto; [unfold fits; lia|].
    rewrite E. cbn [mbind option_bind]. destruct (spec_link o s) as [s1 r1]. cbn [fst snd] in *. subst r1.
    destruct (IH t1 s1 Hk1 ltac:(lia) ltac:(auto) Hs1) as (t2 & E2 & Hk2 & Hs2). rewrite E2. cbn [mbind option_bind].
    destruct (spec_links os s1) as [s2 rs]. exists t2. cbn [fst snd] in *. auto.
Qed.

(** ** Examples *)
Definition this_node : ErlNode := mkErlNode [110; 64; 104] 0.
Definition node_x : ErlNode := mkErlNode [120; 64; 104] 2.
Definition ex_links : list link_op :=
  [Add_link LINK_PID (Pid this_node 40); Add_link LINK_PID (Pid this_node 33); Add_link LINK_PID (Pid node_x 33); Add_link LINK_PID (Port this_node 5);
   Add_link LINK_PID (Pid this_node 33); Remove_link (Pid this_node 40); Lookup_link (Pid this_node 40); Add_or_lookup_link LINK_NODE (Atom [120; 64; 104])].
Definition ex_refs : list mon_ref := [LocalRef [3; 7; 1; 0]; LocalRef [3; 256; 1; 0]; LocalRef [3; 9; 1; 0]; ExternalRef node_x [4; 5; 6]; ExternalRef node_x [3; 5; 6]].
Fixpoint add_monitors (rs : list mon_ref) (t : mon_tree) : option mon_tree :=
  match rs with
  | [] => Some t
  | r :: rs => a ← erts_add_monitor t MON_ORIGIN r (Pid this_node 1) None; match a with Added t => add_monitors rs t | Erl_exit => None end
  end.
Definition ex_mons : mon_tree := match add_monitors ex_refs NULL with Some t => t | None => NULL end.

Ltac key_ok := repeat match goal with
  | |- Forall _ (_ :: _) => apply Forall_cons; split
  | |- Forall _ [] => apply Forall_nil
  | |- _ /\ _ => split
  | |- True => exact I
  | |- (_ <= _)%Z => lia
  | |- (_ < _)%Z => lia
  | |- _ => progress (unfold node_ok, is_name; cbn [mon_ref_ok nterm_ok sysname this_node node_x op_pid])
  end.
Lemma ex_refs_ok : Forall mon_ref_ok ex_refs.
Proof. unfold ex_refs, this_node, node_x, small_nums. key_ok. all: unfold small_nums; key_ok. Qed.
Lemma add_monitors_ok rs : forall t, mon_ok t -> Z.of_nat (length (elems t) + length rs) < MAX_NODES -> Forall mon_ref_ok rs ->
  match add_monitors rs t with Some t' => mon_ok t' | None => True end.
Proof.
  induction rs as [|r rs IH]; intros t Hk Hl Ho; cbn [add_monitors]; auto. inversion Ho; subst. cbn [length] in Hl. unfold erts_add_monitor, by_ref.
  pose proof (keyed_add cmp_mon_ref mon_ref_ok mon_ref_word m_ref t (create_monitor MON_ORIGIN r (Pid this_node 1) None) Hk ltac:(unfold fits; lia) ltac:(auto)) as A.
  change (m_ref (create_monitor MON_ORIGIN r (Pid this_node 1) None)) with r in A. destruct (find_key _ _ r (elems t)).
  - rewrite A. cbn. auto.
  - destruct A as (t' & -> & Hk' & Hl' & _). cbn [mbind option_bind]. apply IH; auto. lia.
Qed.
Lemma ex_mons_ok : mon_ok ex_mons /\ fits ex_mons.
Proof.
  split; [|vm_compute; reflexivity].
  pose proof (add_monitors_ok ex_refs NULL (keyed_null _ _ _) ltac:(vm_compute; reflexivity) ex_refs_ok) as H.
  unfold ex_mons. destruct (add_monitors ex_refs NULL); [exact H|apply keyed_null].
Qed.

(** ** The properties *)
(** C13. On a balanced tree of monitors in order of fewer than 5.3e10 nodes (so that the stacks
    of 50 entries are enough), with references whose numbers are below 2^31 when they are of another
    node (beyond that the comparison is no order and monitors are lost, remote_monitor_lost), the
    lookup finds the monitor of a reference; the insertion adds it, or ends the emulator when the
    reference is there already; the removal takes out and returns it. The tree stays balanced and in
    order, and no other monitor is affected. *)
Theorem monitor_tree_correct (t : mon_tree) (type : Z) (ref : mon_ref) (pid : nterm) (name : option atom) :
  mon_ok t -> fits t -> mon_ref_ok ref ->
  erts_lookup_monitor t ref = find_monitor ref t /\
  match find_monitor ref t with
  | Some _ => erts_add_monitor t type ref pid name = Some Erl_exit
  | None => exists t', erts_add_monitor t type ref pid name = Some (Added t') /\ mon_ok t' /\
      forall r, find_monitor r t' = if bool_decide (mon_ref_word ref = mon_ref_word r) then Some (create_monitor type ref pid name) else find_monitor r t
  end /\
  exists t', erts_remove_monitor t ref = Some (t', find_monitor ref t) /\ mon_ok t' /\
    forall r, find_monitor r t' = if bool_decide (mon_ref_word ref = mon_ref_word r) then None else find_monitor r t.
Proof.
  intros Hk Hf Hok. splits.
  - apply (keyed_lookup cmp_mon_ref mon_ref_ok mon_ref_word m_ref); auto.
  - pose proof (keyed_add cmp_mon_ref mon_ref_ok mon_ref_word m_ref t (create_monitor type ref pid name) Hk Hf Hok) as A.
    change (m_ref (create_monitor type ref pid name)) with ref in A. unfold erts_add_monitor, by_ref. fold (find_monitor ref t) in A.
    destruct (find_monitor ref t); [now rewrite A|]. destruct A as (t' & -> & Hk' & _ & Hf'). exists t'. cbn. auto.
  - destruct (keyed_remove cmp_mon_ref mon_ref_ok mon_ref_word m_ref t ref Hk Hf Hok) as (t' & E & Hk' & _ & Hf'). eauto.
Qed.
Lemma monitor_tree_correct_witness : (mon_ok ex_mons /\ fits ex_mons /\ mon_ref_ok (LocalRef [3; 9; 1; 0])) /\
  (erts_lookup_monitor ex_mons (LocalRef [3; 9; 1; 0]) = find_monitor (LocalRef [3; 9; 1; 0]) ex_mons /\
   match find_monitor (LocalRef [3; 9; 1; 0]) ex_mons with
   | Some _ => erts_add_monitor ex_mons MON_TARGET (LocalRef [3; 9; 1; 0]) (Pid node_x 2) None = Some Erl_exit
   | None => exists t', erts_add_monitor ex_mons MON_TARGET (LocalRef [3; 9; 1; 0]) (Pid node_x 2) None = Some (Added t') /\ mon_ok t' /\
      forall r, find_monitor r t' = if bool_decide (mon_ref_word (LocalRef [3; 9; 1; 0]) = mon_ref_word r) then Some (create_monitor MON_TARGET (LocalRef [3; 9; 1; 0]) (Pid node_x 2) None) else find_monitor r ex_mons
   end /\
   exists t', erts_remove_monitor ex_mons (LocalRef [3; 9; 1; 0]) = Some (t', find_monitor (LocalRef [3; 9; 1; 0]) ex_mons) /\ mon_ok t' /\
    forall r, find_monitor r t' = if bool_decide (mon_ref_word (LocalRef [3; 9; 1; 0]) = mon_ref_word r) then None else find_monitor r ex_mons) /\
  length (elems ex_mons) = 5%nat.
Proof.
  assert (Hr : mon_ref_ok (LocalRef [3; 9; 1; 0])) by key_ok.
  split; [exact (conj (proj1 ex_mons_ok) (conj (proj2 ex_mons_ok) Hr))|].
  split; [exact (monitor_tree_correct ex_mons MON_TARGET (LocalRef [3; 9; 1; 0]) (Pid node_x 2) None (proj1 ex_mons_ok) (proj2 ex_mons_ok) Hr)|vm_compute; reflexivity].
Defined.

(** Any sequence of link operations on a fresh tree returns what an unordered set of links
    returns. *)
Theorem links_refine (os : list link_op) : Z.of_nat (length os) < MAX_NODES -> Forall (fun o => nterm_ok (op_pid o)) os ->
  exists t, run_links os NULL = Some (t, snd (spec_links os [])) /\ link_ok t /\ forall p, find_link p (elems t) = find_link p (fst (spec_links os [])).
Proof. intros Hl Ho. apply run_links_spec; auto. apply keyed_null. Qed.
Lemma links_refine_witness : (Z.of_nat (length ex_links) < MAX_NODES /\ Forall (fun o => nterm_ok (op_pid o)) ex_links) /\
  (exists t, run_links ex_links NULL = Some (t, snd (spec_links ex_links [])) /\ link_ok t /\ forall p, find_link p (elems t) = find_link p (fst (spec_links ex_links []))).
Proof.
  assert (H1 : Z.of_nat (length ex_links) < MAX_NODES) by (vm_compute; reflexivity).
  assert (H2 : Forall (fun o => nterm_ok (op_pid o)) ex_links).
  { unfold ex_links, this_node, node_x. key_ok. }
  split; [exact (conj H1 H2)|exact (links_refine ex_links H1 H2)].
Defined.

(** The suspend monitor of a process is created once and found again until it is deleted; the
    other ones stay as they are. *)
Theorem suspend_monitors_correct (t : smon_tree) (pid : nterm) : smon_ok t -> fits t -> nterm_ok pid ->
  erts_lookup_suspend_monitor t pid = find_smon pid t /\
  (exists t' s, erts_add_or_lookup_suspend_monitor t pid = Some (t', s) /\ smon_ok t' /\ find_smon pid t' = Some s /\
     s = match find_smon pid t with Some s => s | None => create_suspend_monitor pid end /\
     forall p, nterm_word p <> nterm_word pid -> find_smon p t' = find_smon p t) /\
  (exists t', erts_delete_suspend_monitor t pid = Some t' /\ smon_ok t' /\ find_smon pid t' = None /\
     forall p, nterm_word p <> nterm_word pid -> find_smon p t' = find_smon p t).
Proof.
  intros Hk Hf Hok. splits.
  - apply (keyed_lookup erts_cmp nterm_ok nterm_word s_pid); auto.
  - pose proof (keyed_add erts_cmp nterm_ok nterm_word s_pid t (create_suspend_monitor pid) Hk Hf Hok) as A.
    change (s_pid (create_suspend_monitor pid)) with pid in A. unfold erts_add_or_lookup_suspend_monitor, by_spid. fold (find_smon pid t) in A.
    destruct (find_smon pid t) as [s|] eqn:E; [rewrite A; exists t, s; cbn; auto|].
    destruct A as (t' & -> & Hk' & _ & Hf'). exists t', (create_suspend_monitor pid). cbn [mbind option_bind]. unfold find_smon. splits; auto.
    + rewrite Hf'. now rewrite bool_decide_eq_true_2.
    + intros p Hp. rewrite Hf'. now rewrite bool_decide_eq_false_2 by congruence.
  - destruct (keyed_remove erts_cmp nterm_ok nterm_word s_pid t pid Hk Hf Hok) as (t' & E & Hk' & _ & Hf'). exists t'.
    unfold erts_delete_suspend_monitor, by_spid, find_smon. rewrite E. splits; auto.
    + rewrite Hf'. now rewrite bool_decide_eq_true_2.
    + intros p Hp. rewrite Hf'. now rewrite bool_decide_eq_false_2 by congruence.
Qed.
Lemma suspend_monitors_correct_witness : (smon_ok NULL /\ @fits ErtsSuspendMonitor NULL /\ nterm_ok (Pid this_node 7)) /\
  (erts_lookup_suspend_monitor NULL (Pid this_node 7) = find_smon (Pid this_node 7) NULL /\
  (exists t' s, erts_add_or_lookup_suspend_monitor NULL (Pid this_node 7) = Some (t', s) /\ smon_ok t' /\ find_smon (Pid this_node 7) t' = Some s /\
     s = match find_smon (Pid this_node 7) NULL with Some s => s | None => create_suspend_monitor (Pid this_node 7) end /\
     forall p, nterm_word p <> nterm_word (Pid this_node 7) -> find_smon p t' = find_smon p NULL) /\
  (exists t', erts_delete_suspend_monitor NULL (Pid this_node 7) = Some t' /\ smon_ok t' /\ find_smon (Pid this_node 7) t' = None /\
     forall p, nterm_word p <> nterm_word (Pid this_node 7) -> find_smon p t' = find_smon p NULL)).
Proof.
  assert (H1 : smon_ok NULL) by apply keyed_null. assert (H2 : @fits ErtsSuspendMonitor NULL) by (vm_compute; reflexivity).
  assert (H3 : nterm_ok (Pid this_node 7)) by (unfold this_node; key_ok).
  split; [exact (conj H1 (conj H2 H3))|exact (suspend_monitors_correct NULL (Pid this_node 7) H1 H2 H3)].
Defined.

(** C14. The sweeps terminate on every balanced tree, call back once for each node, children
    before their parent, and never overflow their stacks. *)
Theorem sweep_correct (t : mon_tree) (l : link_tree) (s : smon_tree) :
  avl t -> fits t -> avl l -> fits l -> avl s -> fits s ->
  (erts_sweep_monitors t = Some (postorder t) /\ postorder t ≡ₚ elems t) /\
  (erts_sweep_links l = Some (postorder l) /\ postorder l ≡ₚ elems l) /\
  (erts_sweep_suspend_monitors s = Some (postorder s) /\ postorder s ≡ₚ elems s).
Proof.
  assert (H : forall V (t : tree V), avl t -> fits t -> tree_sweep (S (steps t)) t [] = Some (postorder t) /\ postorder t ≡ₚ elems t).
  { intros V x Ha Hf. split; [|apply postorder_elems]. replace (S (steps x)) with (steps x + 1)%nat by lia.
    rewrite sweep_spec by (cbn [length]; pose proof (stack_enough x Ha Hf); lia). cbn. now rewrite app_nil_r. }
  intros. splits; apply H; auto.
Qed.
Lemma sweep_correct_witness : (avl ex_mons /\ fits ex_mons) /\
  (erts_sweep_monitors ex_mons = Some (postorder ex_mons) /\ postorder ex_mons ≡ₚ elems ex_mons) /\
  (erts_sweep_links NULL = Some (postorder NULL) /\ postorder NULL ≡ₚ @elems ErtsLink NULL) /\
  (erts_sweep_suspend_monitors NULL = Some (postorder NULL) /\ postorder NULL ≡ₚ @elems ErtsSuspendMonitor NULL).
Proof.
  assert (H1 : avl ex_mons) by apply (proj1 ex_mons_ok). assert (H2 : fits ex_mons) by apply (proj2 ex_mons_ok).
  split; [exact (conj H1 H2)|]. apply (sweep_correct ex_mons NULL NULL H1 H2); cbn; auto; vm_compute; reflexivity.
Defined.

(** The comparison of atoms, pids, ports and references whose numbers are below 2^31 is a total
    order, in which the terms that compare equal are the same, and atoms are in the order of their
    texts. *)
Theorem term_order_total (a b c : nterm) : nterm_ok a -> nterm_ok b -> nterm_ok c ->
  (erts_cmp a b < 0 <-> 0 < erts_cmp b a) /\ (erts_cmp a b = 0 <-> nterm_word a = nterm_word b) /\
  (erts_cmp a b < 0 -> erts_cmp b c < 0 -> erts_cmp a c < 0) /\
  (forall x y, a = Atom x -> b = Atom y -> Z.sgn (erts_cmp a b) = lex x y).
Proof.
  intros Ha Hb Hc. splits.
  - apply (cmp_antisym erts_cmp nterm_ok nterm_word); auto.
  - apply (cmp_zero erts_cmp nterm_ok nterm_word); auto.
  - apply (cmp_trans erts_cmp nterm_ok nterm_word); auto.
  - intros x y -> ->. now apply cmp_atoms_lex.
Qed.
Lemma term_order_total_witness : (nterm_ok (Atom [97]) /\ nterm_ok (Atom [97; 0; 0; 0]) /\ nterm_ok (Pid this_node 3)) /\
  ((erts_cmp (Atom [97]) (Atom [97; 0; 0; 0]) < 0 <-> 0 < erts_cmp (Atom [97; 0; 0; 0]) (Atom [97])) /\
   (erts_cmp (Atom [97]) (Atom [97; 0; 0; 0]) = 0 <-> nterm_word (Atom [97]) = nterm_word (Atom [97; 0; 0; 0])) /\
   (erts_cmp (Atom [97]) (Atom [97; 0; 0; 0]) < 0 -> erts_cmp (Atom [97; 0; 0; 0]) (Pid this_node 3) < 0 -> erts_cmp (Atom [97]) (Pid this_node 3) < 0) /\
   (forall x y, Atom [97] = Atom x -> Atom [97; 0; 0; 0] = Atom y -> Z.sgn (erts_cmp (Atom [97]) (Atom [97; 0; 0; 0])) = lex x y)).
Proof.
  assert (H1 : nterm_ok (Atom [97])) by key_ok. assert (H2 : nterm_ok (Atom [97; 0; 0; 0])) by key_ok.
  assert (H3 : nterm_ok (Pid this_node 3)) by (unfold this_node; key_ok).
  split; [exact (conj H1 (conj H2 H3))|exact (term_order_total _ _ _ H1 H2 H3)].
Defined.

(** Remote references with large numbers: the second number of each. *)
Definition far_ref (d : Z) : mon_ref := ExternalRef node_x [1; d; 0].
(** The signed difference of the numbers orders remote references in a circle, and a monitor in
    the tree is neither found nor removed. *)
Theorem remote_monitor_lost :
  (cmp_mon_ref (far_ref 0) (far_ref (6 * 2 ^ 28)) < 0 /\ cmp_mon_ref (far_ref (6 * 2 ^ 28)) (far_ref (9 * 2 ^ 28)) < 0 /\
   cmp_mon_ref (far_ref (9 * 2 ^ 28)) (far_ref 0) < 0) /\
  exists t, add_monitors (map (fun k => far_ref (k * 2 ^ 28)) [6; 0; 7; 9; 10; 11]) NULL = Some t /\
    far_ref 0 ∈ map m_ref (elems t) /\ erts_lookup_monitor t (far_ref 0) = None /\ erts_remove_monitor t (far_ref 0) = Some (t, None).
Proof.
  split; [vm_compute; auto|]. eexists. split; [vm_compute; reflexivity|]. split; [|split; vm_compute; reflexivity].
  vm_compute. repeat (first [left|right]).
Qed.
