(* ===== verification/Memory.v ===== *)
(** Memory for the objects of one kind: a finite map from addresses to cells, an error monad
    whose results are a value, the end of the emulator and an access outside the memory, and their
    laws. *)

From S2P Require Import Prelude.
From stdpp Require Import base option list gmap.
Local Open Scope Z_scope.

(** ** Outcomes *)
(** [Erl_exit]: the emulator ends with a message; [Undef]: memory that does not
    exist is read or written. *)
Inductive outcome (A : Type) := Ok (a : A) | Erl_exit | Undef.
Arguments Ok {A}. Arguments Erl_exit {A}. Arguments Undef {A}.
#[export] Instance outcome_ret : MRet outcome := @Ok.
#[export] Instance outcome_bind : MBind outcome := fun A B f m => match m with Ok a => f a | Erl_exit => Erl_exit | Undef => Undef end.
Definition require {A} (o : option A) : outcome A := match o with Some a => Ok a | None => Undef end.

Lemma bind_Ok {A B} (a : A) (f : A -> outcome B) : (a ← Ok a; f a) = f a.
Proof. reflexivity. Qed.
Lemma require_Some {A B} (o : option A) a (f : A -> outcome B) : o = Some a -> (a ← require o; f a) = f a.
Proof. now intros ->. Qed.

(** ** The memory of the objects of one kind *)
Definition ptr : Type := positive.
Section Memory.
Context {T : Type}.
Record mem := Mem { brk : ptr; cells : gmap ptr T }.
Definition erts_alloc (t : T) (m : mem) : mem * ptr := (Mem (Pos.succ (brk m)) (<[brk m := t]> (cells m)), brk m).
Definition erts_free (p : ptr) (m : mem) : mem := Mem (brk m) (delete p (cells m)).
Definition load (p : ptr) (m : mem) : outcome T := require (cells m !! p).
Definition store (p : ptr) (t : T) (m : mem) : outcome mem :=
  _ ← load p m; Ok (Mem (brk m) (<[p := t]> (cells m))).

(** Addresses are below [brk]. *)
Definition mem_ok (m : mem) : Prop := forall p t, cells m !! p = Some t -> (p < brk m)%positive.
Lemma mem_fresh m : mem_ok m -> cells m !! brk m = None.
Proof. intros H. destruct (cells m !! brk m) as [t|] eqn:E; auto. apply H in E. lia. Qed.
Lemma alloc_ok t m : mem_ok m -> mem_ok (fst (erts_alloc t m)).
Proof.
  intros H p t'. cbn. destruct (decide (p = brk m)) as [->|N]; [lia|]. rewrite lookup_insert_ne by auto. intros E%H. lia.
Qed.
Lemma free_ok p m : mem_ok m -> mem_ok (erts_free p m).
Proof. intros H q t. cbn. rewrite lookup_delete_Some. intros [_ E]. now apply H in E. Qed.
Lemma store_ok p t m m' : mem_ok m -> store p t m = Ok m' -> mem_ok m'.
Proof.
  intros H. unfold store, load. destruct (cells m !! p) as [t0|] eqn:E; cbn; [|discriminate]. intros [= <-] q t'. cbn.
  destruct (decide (q = p)) as [->|N]; [intros _; now apply H in E|]. rewrite lookup_insert_ne by auto. apply H.
Qed.
Lemma store_spec p t t0 m : cells m !! p = Some t0 -> store p t m = Ok (Mem (brk m) (<[p := t]> (cells m))).
Proof. intros E. unfold store, load. now rewrite E. Qed.
End Memory.
Arguments mem : clear implicits.

(** ** Arrays *)
Definition peek {A} (l : list A) (i : Z) : outcome A := if i <? 0 then Undef else require (l !! Z.to_nat i).
Definition poke {A} (i : Z) (v : A) (l : list A) : outcome (list A) :=
  if (0 <=? i) && (i <? Z.of_nat (length l)) then Ok (<[Z.to_nat i := v]> l) else Undef.
Lemma peek_Some {A} (l : list A) i v : 0 <= i -> l !! Z.to_nat i = Some v -> peek l i = Ok v.
Proof. intros Hi E. unfold peek. now rewrite (proj2 (Z.ltb_ge i 0)), E by lia. Qed.
Lemma poke_ok {A} (l : list A) i v : 0 <= i < Z.of_nat (length l) -> poke i v l = Ok (<[Z.to_nat i := v]> l).
Proof. intros Hi. unfold poke. now rewrite (proj2 (Z.leb_le 0 i)), (proj2 (Z.ltb_lt i _)) by lia. Qed.
