(* ===== verification/HashTable.v ===== *)
(** The hash tables of hash.c, for objects of any type: a table is its slots, each with the
    chain of its objects, and the objects are in memory, with their hash value. *)

From S2P Require Import Prelude Memory.
From stdpp Require Import base option list gmap.
Local Open Scope Z_scope.

(** The sizes of a table. *)
Definition h_size_table : list Z :=
  [2; 5; 11; 23; 47; 97; 197; 397; 797; 1201; 1597; 2411; 3203; 4813; 6421; 9643; 12853; 19289; 25717; 51437; 102877; 205759;
   411527; 823117; 1646237; 3292489; 6584983; 13169977; 26339969; 52679969; -1].

Section Table.
Context {T : Type}.
(** The callbacks, without the one that frees an object. *)
Record HashFunctions := mkFun { fun_hash : T -> Z; fun_cmp : T -> T -> Z; fun_alloc : T -> T }.
(** An object starts with its bucket; a chain is the list of the objects that
    the next fields link. *)
Record HashBucket := mkObj { hvalue : Z; data : T }.
Notation mem := (mem HashBucket).
(** A table; each slot holds the chain that starts there. *)
Record Hash := mkHash { size : Z; size20percent : Z; size80percent : Z; ix : Z; used : Z; bucket : list (list ptr) }.
Variable f : HashFunctions.

(** The index of the first size that is large enough. *)
Fixpoint size_index (table : list Z) (sz i : Z) : Z :=
  match table with
  | s :: table => if negb (s =? -1) && (s <? sz) then size_index table sz (i + 1) else i
  | [] => i
  end.
(** A table of a size, with its limits for growing and shrinking. *)
Definition sized (i : Z) (sz : Z) (used : Z) (b : list (list ptr)) : Hash := mkHash sz (Z.quot sz 5) (Z.quot (4 * sz) 5) i used b.
(** [hash_init]: the empty table. *)
Definition hash_init (sz : Z) : outcome Hash :=
  let i := size_index h_size_table sz 0 in
  sz ← require (h_size_table !! Z.to_nat i);
  if sz =? -1 then Erl_exit else Ok (sized i sz 0 (replicate (Z.to_nat sz) [])).

Definition set_used (u : Z) (h : Hash) : Hash := mkHash (size h) (size20percent h) (size80percent h) (ix h) u (bucket h).
Definition set_bucket (i : Z) (c : list ptr) (h : Hash) : Hash :=
  mkHash (size h) (size20percent h) (size80percent h) (ix h) (used h) (<[Z.to_nat i := c]> (bucket h)).
Definition is_empty (c : list ptr) : bool := match c with [] => true | _ => false end.
Definition chain (h : Hash) (i : Z) : outcome (list ptr) := require (bucket h !! Z.to_nat i).

(** Move the objects of a chain to the new slots. *)
Fixpoint rehash_chain (sz : Z) (b : list ptr) (m : mem) (new_bucket : list (list ptr)) (used : Z) : outcome (list (list ptr) * Z) :=
  match b with
  | [] => Ok (new_bucket, used)
  | p :: b_next =>
      o ← load p m;
      let i := hvalue o mod sz in
      c ← require (new_bucket !! Z.to_nat i);
      rehash_chain sz b_next m (<[Z.to_nat i := p :: c]> new_bucket) (if is_empty c then used + 1 else used)
  end.
(** Move the objects of all chains. *)
Fixpoint rehash_all (sz : Z) (bs : list (list ptr)) (m : mem) (new_bucket : list (list ptr)) (used : Z) : outcome (list (list ptr) * Z) :=
  match bs with
  | [] => Ok (new_bucket, used)
  | b :: bs => '(new_bucket, used) ← rehash_chain sz b m new_bucket used; rehash_all sz bs m new_bucket used
  end.
(** The table with another number of slots. *)
Definition resize (i : Z) (h : Hash) (m : mem) : outcome Hash :=
  sz ← require (h_size_table !! Z.to_nat i);
  '(b, used) ← rehash_all sz (bucket h) m (replicate (Z.to_nat sz) []) 0;
  Ok (sized i sz used b).
(** [rehash]: grow or shrink, if there is such a size. *)
Definition rehash (h : Hash) (grow : bool) (m : mem) : outcome Hash :=
  if grow then
    next ← require (h_size_table !! Z.to_nat (ix h + 1));
    if next =? -1 then Ok h else resize (ix h + 1) h m
  else if ix h =? 0 then Ok h else resize (ix h - 1) h m.

(** Is it the object of the template? *)
Definition same_entry (hval : Z) (tmpl : T) (o : HashBucket) : bool := (hvalue o =? hval) && (fun_cmp f tmpl (data o) =? 0).
(** The search in a chain. *)
Fixpoint find_chain (hval : Z) (tmpl : T) (b : list ptr) (m : mem) : outcome (option ptr) :=
  match b with
  | [] => Ok None
  | p :: next => o ← load p m; if same_entry hval tmpl o then Ok (Some p) else find_chain hval tmpl next m
  end.
(** [hash_get]. *)
Definition hash_get (h : Hash) (tmpl : T) (m : mem) : outcome (option ptr) :=
  let hval := fun_hash f tmpl in
  b ← chain h (hval mod size h);
  find_chain hval tmpl b m.

(** [hash_put]: the object of the template, a new one if there is none. *)
Definition hash_put (h : Hash) (tmpl : T) (m : mem) : outcome (Hash * mem * ptr) :=
  let hval := fun_hash f tmpl in
  let i := hval mod size h in
  b ← chain h i;
  r ← find_chain hval tmpl b m;
  match r with
  | Some p => Ok (h, m, p)
  | None =>
      let '(m, p) := erts_alloc (mkObj hval (fun_alloc f tmpl)) m in
      let h := if is_empty b then set_used (used h + 1) h else h in
      let h := set_bucket i (p :: b) h in
      h ← (if used h >? size80percent h then rehash h true m else Ok h);
      Ok (h, m, p)
  end.

(** The entry found and the chain without it. *)
Fixpoint unchain (hval : Z) (tmpl : T) (b : list ptr) (m : mem) : outcome (option (ptr * list ptr)) :=
  match b with
  | [] => Ok None
  | p :: next =>
      o ← load p m;
      if same_entry hval tmpl o then Ok (Some (p, next))
      else r ← unchain hval tmpl next m; Ok (match r with Some (q, rest) => Some (q, p :: rest) | None => None end)
  end.
(** The chain is put back; the table shrinks at 20%. *)
Definition shrink (h : Hash) (i : Z) (b : list ptr) (m : mem) : outcome Hash :=
  let h := set_bucket i b h in
  let h := if is_empty b then set_used (used h - 1) h else h in
  if used h <? size20percent h then rehash h false m else Ok h.
(** [hash_remove]. *)
Definition hash_remove (h : Hash) (tmpl : T) (m : mem) : outcome (Hash * option ptr) :=
  let hval := fun_hash f tmpl in
  let i := hval mod size h in
  b ← chain h i;
  r ← unchain hval tmpl b m;
  match r with
  | Some (p, b) => h ← shrink h i b m; Ok (h, Some p)
  | None => Ok (h, None)
  end.
(** [hash_erase]; the object is freed. *)
Definition hash_erase (h : Hash) (tmpl : T) (m : mem) : outcome (Hash * mem * bool) :=
  let hval := fun_hash f tmpl in
  let i := hval mod size h in
  b ← chain h i;
  r ← unchain hval tmpl b m;
  match r with
  | Some (p, b) => let m := erts_free p m in h ← shrink h i b m; Ok (h, m, true)
  | None => Ok (h, m, false)
  end.

(** The objects in the order [func] is called on them. *)
Definition hash_foreach (h : Hash) : list ptr := concat (bucket h).
(** [hash_delete]: the objects are freed. *)
Definition hash_delete (h : Hash) (m : mem) : mem := fold_left (fun m p => erts_free p m) (concat (bucket h)) m.
(** Information on a table. *)
Record HashInfo := mkInfo { hi_size : Z; hi_used : Z; hi_objs : Z; hi_depth : Z }.
(** Count the objects and find the longest chain. *)
Fixpoint info_loop (bs : list (list ptr)) (objects max_depth : Z) : Z * Z :=
  match bs with
  | [] => (objects, max_depth)
  | b :: bs => let depth := Z.of_nat (length b) in info_loop bs (objects + depth) (if depth >? max_depth then depth else max_depth)
  end.
(** [hash_get_info]. *)
Definition hash_get_info (h : Hash) : HashInfo :=
  let '(objects, max_depth) := info_loop (bucket h) 0 0 in mkInfo (size h) (used h) objects max_depth.

(** [hash_insert_entry]: an object that is there already ends the emulator. *)
Definition hash_insert_entry (h : Hash) (entry : ptr) (m : mem) : outcome Hash :=
  e ← load entry m;
  let i := hvalue e mod size h in
  b ← chain h i;
  r ← find_chain (hvalue e) (data e) b m;
  match r with
  | Some _ => Erl_exit
  | None =>
      let h := if is_empty b then set_used (used h + 1) h else h in
      let h := set_bucket i (entry :: b) h in
      if used h >? size80percent h then rehash h true m else Ok h
  end.
(** Insert the objects of the chains. *)
Fixpoint insert_entries (ps : list ptr) (dst : Hash) (m : mem) : outcome Hash :=
  match ps with [] => Ok dst | p :: ps => dst ← hash_insert_entry dst p m; insert_entries ps dst m end.
(** [erts_hash_merge]: the emptied source and the destination. *)
Definition erts_hash_merge (src dst : Hash) (m : mem) : outcome (Hash * Hash) :=
  dst ← insert_entries (concat (bucket src)) dst m;
  Ok (mkHash (size src) (size20percent src) (size80percent src) (ix src) 0 (replicate (length (bucket src)) []), dst).
End Table.
Arguments HashFunctions : clear implicits.
Arguments HashBucket : clear implicits.
