(* ===== verification/HashSpec.v ===== *)
(** The invariant [wf] of a hash table (sizes, used slots, every object in the slot of its hash
    value, no two with one key) and what each operation does to it, for callbacks with the laws
    [HashLaws]. *)

From S2P Require Import Prelude.
From stdpp Require Import base option list gmap sorting.
From S2P Require Import Memory HashTable.
Local Open Scope Z_scope.

(** ** The size table *)
Lemma table_sizes i sz : h_size_table !! i = Some sz -> (sz = -1 /\ i = 30%nat) \/ (2 <= sz < 2 ^ 26 /\ (i < 30)%nat).
Proof. do 31 (destruct i as [|i]; [intros [= <-]; (left; split; reflexivity) || (right; split; lia)|]). discriminate. Qed.
Lemma table_total i : (i <= 30)%nat -> is_Some (h_size_table !! i).
Proof. intros H. apply lookup_lt_is_Some. change (length h_size_table) with 31%nat. lia. Qed.

(** ** Vectors of chains *)
Fixpoint nonempty (bs : list (list ptr)) : Z := match bs with [] => 0 | b :: bs => b2z (negb (is_empty b)) + nonempty bs end.
Lemma nonempty_app l r : nonempty (l ++ r) = nonempty l + nonempty r.
Proof. induction l as [|b l IH]; cbn [app nonempty]; lia. Qed.
Lemma nonempty_replicate n : nonempty (replicate n []) = 0.
Proof. induction n as [|n IH]; cbn [replicate nonempty]; auto. Qed.
Lemma concat_replicate n : concat (replicate n (@nil ptr)) = [].
Proof. induction n; auto. Qed.
Lemma split_at (bs : list (list ptr)) i b : bs !! i = Some b ->
  exists l r, bs = l ++ b :: r /\ length l = i /\ forall c, <[i := c]> bs = l ++ c :: r.
Proof.
  intros H. exists (take i bs), (drop (S i) bs). pose proof (lookup_lt_Some _ _ _ H) as L. splits.
  - symmetry. now apply take_drop_middle.
  - rewrite length_take. lia.
  - intros c. now apply insert_take_drop.
Qed.

Section Spec.
Context {T K : Type}.

(** What the callbacks of a table promise: equal keys are what [fun_cmp] finds
    equal, and they have equal hash values. *)
Class HashLaws (f : HashFunctions T) (key : T -> K) : Prop := {
  hash_nonneg : forall a, 0 <= fun_hash f a;
  cmp_key : forall a b, fun_cmp f a b = 0 <-> key a = key b;
  hash_key : forall a b, key a = key b -> fun_hash f a = fun_hash f b;
  alloc_key : forall a, key (fun_alloc f a) = key a }.

Context (f : HashFunctions T) (key : T -> K) `{L : HashLaws f key} `{EqDecision K}.
Notation mem := (mem (HashBucket T)).

Definition placed (sz : Z) (m : mem) (bs : list (list ptr)) : Prop :=
  forall i b p, bs !! i = Some b -> p ∈ b ->
    exists o, cells m !! p = Some o /\ hvalue o = fun_hash f (data o) /\ hvalue o mod sz = Z.of_nat i.
Definition entries (h : Hash) : list ptr := concat (bucket h).
Record wf (h : Hash) (m : mem) : Prop := {
  wf_ix : 0 <= ix h < 30;
  wf_size : h_size_table !! Z.to_nat (ix h) = Some (size h);
  wf_20 : size20percent h = size h ÷ 5;
  wf_80 : size80percent h = (4 * size h) ÷ 5;
  wf_length : Z.of_nat (length (bucket h)) = size h;
  wf_used : used h = nonempty (bucket h);
  wf_placed : placed (size h) m (bucket h);
  wf_nodup : NoDup (entries h);
  wf_keys : forall p q o o', p ∈ entries h -> q ∈ entries h -> cells m !! p = Some o -> cells m !! q = Some o' ->
    key (data o) = key (data o') -> p = q }.

Lemma wf_size_pos h m : wf h m -> 2 <= size h < 2 ^ 26.
Proof. intros W. destruct W. destruct (table_sizes _ _ wf_size0) as [[_ E]|[? _]]; lia. Qed.

(** The entry of a key. *)
Definition entry (h : Hash) (m : mem) (k : K) (p : ptr) : Prop := p ∈ entries h /\ exists o, cells m !! p = Some o /\ key (data o) = k.

Lemma placed_entry sz m bs p : placed sz m bs -> p ∈ concat bs ->
  exists o i b, cells m !! p = Some o /\ hvalue o = fun_hash f (data o) /\ hvalue o mod sz = Z.of_nat i /\ bs !! i = Some b /\ p ∈ b.
Proof.
  intros P Hp. apply list_elem_of_In, in_concat in Hp as (b & Hb & Hp). apply list_elem_of_In in Hb, Hp.
  apply list_elem_of_lookup in Hb as [i Hi]. destruct (P i b p Hi Hp) as (o & ? & ? & ?). eauto 10.
Qed.
Lemma entry_chain h m k p : wf h m -> entry h m k p -> forall t b, key t = k ->
  bucket h !! Z.to_nat (fun_hash f t mod size h) = Some b -> p ∈ b.
Proof.
  intros W [Hp (o & Ho & Hk)] t b <- Hb. destruct (placed_entry _ _ _ _ (wf_placed _ _ W) Hp) as (o' & i & b' & Ho' & Hv & Hi & Hb' & Hp').
  rewrite Ho in Ho'. injection Ho' as <-. rewrite Hv, (hash_key _ _ Hk) in Hi. rewrite Hi, Nat2Z.id in Hb. congruence.
Qed.
Lemma elem_entries h i b p : bucket h !! i = Some b -> p ∈ b -> p ∈ entries h.
Proof.
  intros Hb Hp. apply list_elem_of_In, in_concat. exists b. split; apply list_elem_of_In; auto.
  eapply list_elem_of_lookup_2; eauto.
Qed.
Lemma chain_ok h m t : wf h m -> exists b, chain h (fun_hash f t mod size h) = Ok b /\ bucket h !! Z.to_nat (fun_hash f t mod size h) = Some b.
Proof.
  intros W. pose proof (wf_size_pos h m W). pose proof (wf_length h m W).
  destruct (lookup_lt_is_Some_2 (bucket h) (Z.to_nat (fun_hash f t mod size h))) as [b Hb]; [lia|].
  exists b. unfold chain. rewrite Hb. auto.
Qed.

(** ** The search *)
Lemma find_chain_spec t m b : (forall p, p ∈ b -> exists o, cells m !! p = Some o /\ hvalue o = fun_hash f (data o)) ->
  exists r, find_chain f (fun_hash f t) t b m = Ok r /\
    match r with
    | Some p => p ∈ b /\ exists o, cells m !! p = Some o /\ key (data o) = key t
    | None => forall p o, p ∈ b -> cells m !! p = Some o -> key (data o) <> key t
    end.
Proof.
  induction b as [|p b IH]; intros Hb; cbn [find_chain].
  - eexists. split; [reflexivity|]. intros p o Hp. now apply not_elem_of_nil in Hp.
  - destruct (Hb p ltac:(left)) as (o & Ho & Hv). unfold load. rewrite Ho. cbn [require mbind outcome_bind].
    unfold same_entry. rewrite Hv. destruct (Z.eqb_spec (fun_cmp f t (data o)) 0) as [E|N].
    + apply cmp_key in E. rewrite (hash_key _ _ (eq_sym E)), Z.eqb_refl. cbn. eexists. split; [reflexivity|]. split; [left|]. eauto.
    + rewrite andb_false_r. destruct IH as (r & E & Hr); [intros q Hq; apply Hb; now right|]. exists r. split; auto.
      destruct r as [q|]; [destruct Hr; split; auto; now right|].
      intros q o' Hq Ho' Ek. apply elem_of_cons in Hq as [->|Hq]; [|now apply (Hr q o')].
      rewrite Ho in Ho'. injection Ho' as <-. apply N, cmp_key. auto.
Qed.
Lemma unchain_spec t m b : (forall p, p ∈ b -> exists o, cells m !! p = Some o /\ hvalue o = fun_hash f (data o)) ->
  exists r, unchain f (fun_hash f t) t b m = Ok r /\
    match r with
    | Some (p, c) => exists l r, b = l ++ p :: r /\ c = l ++ r /\ exists o, cells m !! p = Some o /\ key (data o) = key t
    | None => forall p o, p ∈ b -> cells m !! p = Some o -> key (data o) <> key t
    end.
Proof.
  induction b as [|p b IH]; intros Hb; cbn [unchain].
  - eexists. split; [reflexivity|]. intros p o Hp. now apply not_elem_of_nil in Hp.
  - destruct (Hb p ltac:(left)) as (o & Ho & Hv). unfold load. rewrite Ho. cbn [require mbind outcome_bind].
    unfold same_entry. rewrite Hv. destruct (Z.eqb_spec (fun_cmp f t (data o)) 0) as [E|N].
    + apply cmp_key in E. rewrite (hash_key _ _ (eq_sym E)), Z.eqb_refl. cbn. eexists. split; [reflexivity|]. exists [], b. eauto 10.
    + rewrite andb_false_r. destruct IH as (r & E & Hr); [intros q Hq; apply Hb; now right|]. rewrite E. cbn.
      destruct r as [[q c]|].
      * destruct Hr as (l & r & -> & -> & Hr). eexists. split; [reflexivity|]. exists (p :: l), r. auto.
      * eexists. split; [reflexivity|]. intros q o' Hq Ho' Ek. apply elem_of_cons in Hq as [->|Hq]; [|now apply (Hr q o')].
        rewrite Ho in Ho'. injection Ho' as <-. apply N, cmp_key. auto.
Qed.
Lemma chain_objects h m i b : wf h m -> bucket h !! i = Some b -> forall p, p ∈ b -> exists o, cells m !! p = Some o /\ hvalue o = fun_hash f (data o).
Proof. intros W Hb p Hp. destruct (wf_placed _ _ W i b p Hb Hp) as (o & ? & ? & _). eauto. Qed.

Lemma hash_get_spec h m t : wf h m -> exists r, hash_get f h t m = Ok r /\
  match r with Some p => entry h m (key t) p | None => forall p, ~ entry h m (key t) p end.
Proof.
  intros W. destruct (chain_ok h m t W) as (b & E & Hb). unfold hash_get. rewrite E. cbn [mbind outcome_bind].
  destruct (find_chain_spec t m b (chain_objects h m _ b W Hb)) as (r & Er & Hr). exists r. split; auto.
  destruct r as [p|].
  - destruct Hr as [Hp (o & ? & ?)]. split; [eapply elem_entries; eauto|eauto].
  - intros p He. pose proof (entry_chain h m _ p W He t b eq_refl Hb) as Hp. destruct He as [_ (o & Ho & Hk)]. exact (Hr p o Hp Ho Hk).
Qed.

(** ** Rehashing *)
(** Storing a chain in place of another. *)
Lemma insert_chain bs i b c : bs !! i = Some b ->
  exists rest, concat bs ≡ₚ b ++ rest /\ concat (<[i := c]> bs) ≡ₚ c ++ rest /\
    nonempty (<[i := c]> bs) = nonempty bs - b2z (negb (is_empty b)) + b2z (negb (is_empty c)).
Proof.
  intros Hb. destruct (split_at bs i b Hb) as (l & r & -> & _ & ->). exists (concat l ++ concat r).
  rewrite !concat_app, !nonempty_app. cbn [concat nonempty]. splits; [apply Permutation_app_swap_app..|lia].
Qed.
Lemma placed_insert sz m bs i b c : placed sz m bs -> bs !! i = Some b ->
  (forall p, p ∈ c -> p ∈ b \/ exists o, cells m !! p = Some o /\ hvalue o = fun_hash f (data o) /\ hvalue o mod sz = Z.of_nat i) ->
  placed sz m (<[i := c]> bs).
Proof.
  intros P Hb Hc j d p Hd Hp. destruct (decide (j = i)) as [->|N].
  - rewrite list_lookup_insert_eq in Hd by (eapply lookup_lt_Some; eauto). injection Hd as <-.
    destruct (Hc p Hp) as [Hp'|]; auto. apply (P i b); auto.
  - rewrite list_lookup_insert_ne in Hd by auto. eapply P; eauto.
Qed.

Definition known (m : mem) (p : ptr) : Prop := exists o, cells m !! p = Some o /\ hvalue o = fun_hash f (data o).
Lemma rehash_chain_spec sz m b : 0 < sz -> Forall (known m) b -> forall nb, Z.of_nat (length nb) = sz -> placed sz m nb ->
  exists nb', rehash_chain sz b m nb (nonempty nb) = Ok (nb', nonempty nb') /\ Z.of_nat (length nb') = sz /\ placed sz m nb' /\
    concat nb' ≡ₚ b ++ concat nb.
Proof.
  intros Hsz Hk. induction Hk as [|p b (o & Ho & Hv) _ IH]; intros nb Hl P; cbn [rehash_chain]; [eauto|].
  unfold load. rewrite Ho. cbn [require mbind outcome_bind]. pose proof (hash_nonneg (data o)).
  destruct (lookup_lt_is_Some_2 nb (Z.to_nat (hvalue o mod sz))) as [c Hc]; [lia|]. rewrite Hc. cbn [require mbind outcome_bind].
  destruct (insert_chain nb _ c (p :: c) Hc) as (rest & E1 & E2 & E3).
  replace (if is_empty c then nonempty nb + 1 else nonempty nb) with (nonempty (<[Z.to_nat (hvalue o mod sz) := p :: c]> nb))
    by (rewrite E3; cbn; destruct c; cbn; lia).
  destruct (IH (<[Z.to_nat (hvalue o mod sz) := p :: c]> nb)) as (nb' & E & Hl' & P' & Ec).
  - now rewrite length_insert.
  - eapply placed_insert; eauto. intros q Hq. apply elem_of_cons in Hq as [->|]; auto. right. exists o. splits; auto. lia.
  - exists nb'. splits; auto. rewrite Ec, E2, E1. cbn [app]. apply Permutation_sym, Permutation_middle.
Qed.
Lemma rehash_all_spec sz m bs : 0 < sz -> Forall (known m) (concat bs) -> forall nb, Z.of_nat (length nb) = sz -> placed sz m nb ->
  exists nb', rehash_all sz bs m nb (nonempty nb) = Ok (nb', nonempty nb') /\ Z.of_nat (length nb') = sz /\ placed sz m nb' /\
    concat nb' ≡ₚ concat bs ++ concat nb.
Proof.
  intros Hsz. induction bs as [|b bs IH]; cbn [concat rehash_all]; intros Hk nb Hl P; [eauto|].
  apply Forall_app in Hk as [Hb Hk]. destruct (rehash_chain_spec sz m b Hsz Hb nb Hl P) as (nb1 & E1 & Hl1 & P1 & Ec1).
  rewrite E1. cbn [mbind outcome_bind]. destruct (IH Hk nb1 Hl1 P1) as (nb2 & E2 & Hl2 & P2 & Ec2). exists nb2. splits; auto.
  rewrite Ec2, Ec1, <- app_assoc. apply Permutation_app_swap_app.
Qed.

Lemma entries_known h m : wf h m -> Forall (known m) (entries h).
Proof.
  intros W. apply List.Forall_forall. intros p Hp. apply list_elem_of_In in Hp.
  destruct (placed_entry _ _ _ _ (wf_placed _ _ W) Hp) as (o & i & b & ? & ? & _). exists o. auto.
Qed.
Definition keys_apart (ps : list ptr) (m : mem) : Prop :=
  forall p q o o', p ∈ ps -> q ∈ ps -> cells m !! p = Some o -> cells m !! q = Some o' -> key (data o) = key (data o') -> p = q.
Lemma keys_apart_perm ps qs m : ps ≡ₚ qs -> keys_apart ps m -> keys_apart qs m.
Proof. intros E H p q o o' Hp Hq. apply H; [rewrite E|rewrite E]; auto. Qed.

Lemma resize_spec h m i sz : wf h m -> 0 <= i < 30 -> h_size_table !! Z.to_nat i = Some sz ->
  exists h', resize i h m = Ok h' /\ wf h' m /\ entries h' ≡ₚ entries h.
Proof.
  intros W Hi Hs. destruct (table_sizes _ _ Hs) as [[_ E]|[Hsz _]]; [lia|]. unfold resize. rewrite Hs. cbn [require mbind outcome_bind].
  assert (P0 : placed sz m (replicate (Z.to_nat sz) [])).
  { intros j b p Hb Hp. apply lookup_replicate in Hb as [-> _]. now apply not_elem_of_nil in Hp. }
  destruct (rehash_all_spec sz m (bucket h) ltac:(lia) (entries_known h m W) (replicate (Z.to_nat sz) []) ltac:(rewrite length_replicate; lia) P0)
    as (b & E & Hl & P & Ec). rewrite nonempty_replicate in E. rewrite E. cbn [mbind outcome_bind].
  rewrite concat_replicate, app_nil_r in Ec. eexists. split; [reflexivity|]. split; [|exact Ec].
  split; cbn; auto.
  - unfold entries. cbn. rewrite Ec. apply W.
  - apply (keys_apart_perm (entries h)); [symmetry; exact Ec|exact (wf_keys _ _ W)].
Qed.
Lemma rehash_spec h grow m : wf h m -> exists h', rehash h grow m = Ok h' /\ wf h' m /\ entries h' ≡ₚ entries h.
Proof.
  intros W. pose proof (wf_ix _ _ W) as Hi. unfold rehash. destruct grow.
  - destruct (table_total (Z.to_nat (ix h + 1)) ltac:(lia)) as [next E]. rewrite E. cbn [require mbind outcome_bind].
    destruct (Z.eqb_spec next (-1)); [eauto|]. apply (resize_spec h m (ix h + 1) next); auto.
    destruct (table_sizes _ _ E) as [[? _]|[_ ?]]; lia.
  - destruct (Z.eqb_spec (ix h) 0); [eauto|]. destruct (table_total (Z.to_nat (ix h - 1)) ltac:(lia)) as [s E].
    apply (resize_spec h m (ix h - 1) s); auto. lia.
Qed.

(** ** Initialisation *)
Lemma size_index_bound sz n : forall i, 0 <= i <= 30 -> (n = 31 - Z.to_nat i)%nat ->
  i <= size_index (drop (Z.to_nat i) h_size_table) sz i <= 30.
Proof.
  induction n as [|n IH]; intros i Hi Hn; [lia|].
  destruct (table_total (Z.to_nat i) ltac:(lia)) as [s E]. rewrite (drop_S _ s _ E). cbn [size_index].
  destruct (negb (s =? -1) && (s <? sz)) eqn:C; [|lia]. apply andb_prop in C as [C _]. apply negb_true_iff, Z.eqb_neq in C.
  destruct (table_sizes _ _ E) as [[? _]|[_ ?]]; [lia|]. pose proof (IH (i + 1) ltac:(lia) ltac:(lia)) as B.
  replace (Z.to_nat (i + 1)) with (S (Z.to_nat i)) in B by lia. lia.
Qed.
Lemma size_index_stop sz n : forall i, 0 <= i <= 30 -> (n = 31 - Z.to_nat i)%nat -> sz <= 52679969 ->
  exists s, h_size_table !! Z.to_nat (size_index (drop (Z.to_nat i) h_size_table) sz i) = Some s /\ (i <= 29 -> s <> -1 /\ sz <= s).
Proof.
  induction n as [|n IH]; intros i Hi Hn Hsz; [lia|].
  destruct (table_total (Z.to_nat i) ltac:(lia)) as [s E]. rewrite (drop_S _ s _ E). cbn [size_index].
  destruct (Z.eq_dec i 29) as [->|N29].
  { change (h_size_table !! Z.to_nat 29) with (Some 52679969) in E. injection E as <-.
    change (52679969 =? -1) with false. cbn [negb andb]. destruct (Z.ltb_spec 52679969 sz); [lia|]. eexists; split; [reflexivity|lia]. }
  destruct (negb (s =? -1) && (s <? sz)) eqn:C.
  - apply andb_prop in C as [C _]. apply negb_true_iff, Z.eqb_neq in C. destruct (table_sizes _ _ E) as [[? _]|[_ ?]]; [lia|].
    destruct (IH (i + 1) ltac:(lia) ltac:(lia) Hsz) as (s' & Es & Hs).
    replace (Z.to_nat (i + 1)) with (S (Z.to_nat i)) in Es by lia. exists s'. split; auto. intros _. apply Hs. lia.
  - exists s. split; auto. intros Hi29. destruct (table_sizes _ _ E) as [[_ ?]|[? _]]; [lia|]. split; [lia|].
    apply andb_false_iff in C as [C|C]; [apply negb_false_iff, Z.eqb_eq in C; lia|now apply Z.ltb_ge in C].
Qed.
Lemma hash_init_spec sz m : sz <= 52679969 -> exists h, hash_init sz = Ok h /\ wf h m /\ entries h = [] /\ sz <= size h.
Proof.
  intros Hsz. unfold hash_init. pose proof (size_index_bound sz 31 0 ltac:(lia) ltac:(reflexivity)) as B.
  destruct (size_index_stop sz 31 0 ltac:(lia) ltac:(reflexivity) Hsz) as (s & E & Hs).
  change (drop (Z.to_nat 0) h_size_table) with h_size_table in *. set (i := size_index h_size_table sz 0) in *. clearbody i.
  rewrite E. cbn [require mbind outcome_bind]. specialize (Hs ltac:(lia)).
  destruct (Z.eqb_spec s (-1)); [lia|]. destruct (table_sizes _ _ E) as [[? _]|[Hss Hi]]; [lia|].
  eexists. split; [reflexivity|]. unfold entries. cbn. rewrite concat_replicate. splits; auto; [|lia].
  split; cbn; auto; rewrite ?nonempty_replicate; try lia; try reflexivity.
  - rewrite length_replicate. lia.
  - intros j b p Hb Hp. apply lookup_replicate in Hb as [-> _]. now apply not_elem_of_nil in Hp.
  - unfold entries. cbn. rewrite concat_replicate. constructor.
  - intros p q o o' Hp. unfold entries in Hp. cbn in Hp. rewrite concat_replicate in Hp. now apply not_elem_of_nil in Hp.
Qed.

(** ** Insertion *)
Lemma placed_mem sz m m' bs : placed sz m bs -> (forall p, p ∈ concat bs -> cells m' !! p = cells m !! p) -> placed sz m' bs.
Proof.
  intros P H i b p Hb Hp. destruct (P i b p Hb Hp) as (o & ? & ? & ?). exists o. rewrite H; auto.
  apply list_elem_of_In, in_concat. exists b. split; apply list_elem_of_In; auto. eapply list_elem_of_lookup_2; eauto.
Qed.
Lemma wf_mem h m m' : wf h m -> (forall p, p ∈ entries h -> cells m' !! p = cells m !! p) -> wf h m'.
Proof.
  intros W H. destruct W. split; auto.
  - eapply placed_mem; eauto.
  - intros p q o o' Hp Hq. rewrite !H by auto. now apply wf_keys0.
Qed.

(** The data of an object may change, but not its key. *)
Lemma wf_store h m p o d : wf h m -> cells m !! p = Some o -> key d = key (data o) ->
  wf h (Mem (brk m) (<[p := mkObj (hvalue o) d]> (cells m))).
Proof.
  intros W Ho Hd.
  assert (Hc : forall q oq, <[p := mkObj (hvalue o) d]> (cells m) !! q = Some oq -> exists o', cells m !! q = Some o' /\ hvalue oq = hvalue o' /\ key (data oq) = key (data o')).
  { intros q oq. destruct (decide (q = p)) as [->|N]; [rewrite lookup_insert_eq|rewrite lookup_insert_ne by auto; eauto].
    intros [= <-]. eauto. }
  destruct W. split; auto.
  - intros i b q Hb Hq. destruct (wf_placed0 i b q Hb Hq) as (o' & Ho' & Hv & Hm). cbn. destruct (decide (q = p)) as [->|N].
    + rewrite lookup_insert_eq. eexists. split; [reflexivity|]. cbn. assert (o' = o) as -> by congruence. split; auto. rewrite Hv. now apply hash_key.
    + rewrite lookup_insert_ne by auto. eauto.
  - intros q q' oq oq' Hq Hq' H1%Hc H2%Hc Ek. destruct H1 as (o1 & H1 & _ & E1), H2 as (o2 & H2 & _ & E2). apply (wf_keys0 q q' o1 o2); auto. congruence.
Qed.

(** A new entry at the head of its chain, before the table may grow. *)
Definition hooked (h : Hash) (i : Z) (p : ptr) (b : list ptr) : Hash := set_bucket i (p :: b) (if is_empty b then set_used (used h + 1) h else h).
Lemma hooked_spec h m p o b : wf h m -> cells m !! p = Some o -> hvalue o = fun_hash f (data o) -> p ∉ entries h ->
  (forall q, ~ entry h m (key (data o)) q) -> bucket h !! Z.to_nat (hvalue o mod size h) = Some b ->
  wf (hooked h (hvalue o mod size h) p b) m /\ entries (hooked h (hvalue o mod size h) p b) ≡ₚ p :: entries h.
Proof.
  intros W Ho Hv Hp Hn Hb. pose proof (wf_size_pos h m W) as Hsz. pose proof (hash_nonneg (data o)) as Hnn.
  destruct (insert_chain _ _ b (p :: b) Hb) as (rest & E1 & E2 & E3). set (h' := hooked _ _ p b).
  assert (Ep : entries h' ≡ₚ p :: entries h).
  { unfold h', hooked, entries. destruct (is_empty b); cbn; rewrite E2, E1; reflexivity. }
  assert (Es : size h' = size h /\ ix h' = ix h /\ size20percent h' = size20percent h /\ size80percent h' = size80percent h /\
               bucket h' = <[Z.to_nat (hvalue o mod size h) := p :: b]> (bucket h) /\ used h' = used h + b2z (is_empty b)).
  { unfold h', hooked. destruct (is_empty b); cbn; splits; auto; lia. }
  clearbody h'. destruct Es as (S1 & S2 & S3 & S4 & S5 & S6). split; auto. destruct W.
  split; rewrite ?S1, ?S2, ?S3, ?S4, ?S5, ?S6; auto.
  - now rewrite length_insert.
  - rewrite E3, wf_used0. cbn. destruct b; cbn; lia.
  - eapply placed_insert; eauto. intros q Hq. apply elem_of_cons in Hq as [->|]; auto. right. exists o. splits; auto. lia.
  - rewrite Ep. now constructor.
  - apply (keys_apart_perm (p :: entries h)); [now symmetry|]. intros x y ox oy Hx Hy Hox Hoy Ek.
    apply elem_of_cons in Hx as [->|Hx], Hy as [->|Hy]; auto.
    + exfalso. apply (Hn y). split; auto. exists oy. split; auto. congruence.
    + exfalso. apply (Hn x). split; auto. exists ox. split; auto. congruence.
    + now apply (wf_keys0 x y ox oy).
Qed.
Lemma hash_put_spec h m t : wf h m -> mem_ok m ->
  exists h' m' p, hash_put f h t m = Ok (h', m', p) /\ wf h' m' /\ mem_ok m' /\
    ((entry h m (key t) p /\ h' = h /\ m' = m) \/
     ((forall q, ~ entry h m (key t) q) /\ p = brk m /\ entries h' ≡ₚ p :: entries h /\
      cells m' = <[p := mkObj (fun_hash f t) (fun_alloc f t)]> (cells m))).
Proof.
  intros W M. destruct (chain_ok h m t W) as (b & E & Hb). unfold hash_put. rewrite E. cbn [mbind outcome_bind].
  destruct (find_chain_spec t m b (chain_objects h m _ b W Hb)) as (r & Er & Hr). rewrite Er. cbn [mbind outcome_bind]. destruct r as [p|].
  { exists h, m, p. splits; auto. left. splits; auto. destruct Hr as [Hp (o & ? & ?)]. split; [eapply elem_entries; eauto|eauto]. }
  assert (Hn : forall q, ~ entry h m (key t) q).
  { intros q He. pose proof (entry_chain h m _ q W He t b eq_refl Hb) as Hq. destruct He as [_ (o & Ho & Hk)]. exact (Hr q o Hq Ho Hk). }
  cbn [erts_alloc]. set (p := brk m). set (o := mkObj (fun_hash f t) (fun_alloc f t)). set (m' := Mem (Pos.succ p) (<[p := o]> (cells m))).
  fold (hooked h (fun_hash f t mod size h) p b).
  pose proof (mem_fresh m M) as Hf. fold p in Hf.
  assert (Hfr : forall q, q ∈ entries h -> q <> p).
  { intros q Hq ->. destruct (placed_entry _ _ _ _ (wf_placed _ _ W) Hq) as (o' & _ & _ & Ho' & _). congruence. }
  assert (W' : wf h m'). { apply (wf_mem h m); auto. intros q Hq. cbn. apply lookup_insert_ne. intros <-. now apply (Hfr p). }
  assert (Hv : hvalue o = fun_hash f (data o)) by (cbn; apply hash_key; now rewrite alloc_key).
  destruct (hooked_spec h m' p o b W') as [W2 Ep]; auto.
  - cbn. apply lookup_insert_eq.
  - intros Hp. now apply (Hfr p).
  - intros q [Hq (oq & Hoq & Hk)]. cbn in Hoq. rewrite lookup_insert_ne in Hoq by (intros <-; now apply (Hfr p)).
    apply (Hn q). split; auto. exists oq. split; auto. rewrite Hk. cbn. apply alloc_key.
  - change (hvalue o) with (fun_hash f t) in W2, Ep. set (h1 := hooked _ _ _ _) in *.
    assert (M' : mem_ok m') by (apply (alloc_ok o m M)).
    destruct (used h1 >? size80percent h1).
    + destruct (rehash_spec h1 true m' W2) as (h2 & E2 & W3 & Ep2). rewrite E2. cbn [mbind outcome_bind]. exists h2, m', p. splits; auto.
      right. splits; auto. now rewrite Ep2.
    + cbn [mbind outcome_bind]. exists h1, m', p. splits; auto.
Qed.

(** ** Removal *)
Lemma shrink_spec h m m' p l r o i : wf h m -> bucket h !! Z.to_nat i = Some (l ++ p :: r) -> cells m !! p = Some o ->
  (forall q, q <> p -> cells m' !! q = cells m !! q) ->
  exists h', shrink h i (l ++ r) m' = Ok h' /\ wf h' m' /\ p ∉ entries h' /\ p :: entries h' ≡ₚ entries h.
Proof.
  intros W Hb Ho Hm. destruct (insert_chain _ _ _ (l ++ r) Hb) as (rest & E1 & E2 & E3). unfold shrink.
  set (h1 := if is_empty (l ++ r) then _ else _).
  assert (Es : size h1 = size h /\ ix h1 = ix h /\ size20percent h1 = size20percent h /\ size80percent h1 = size80percent h /\
               bucket h1 = <[Z.to_nat i := l ++ r]> (bucket h) /\ used h1 = used h - b2z (is_empty (l ++ r))).
  { unfold h1. destruct (is_empty (l ++ r)); cbn; splits; auto; lia. }
  clearbody h1. destruct Es as (S1 & S2 & S3 & S4 & S5 & S6).
  assert (Ep : p :: entries h1 ≡ₚ entries h).
  { unfold entries. rewrite S5, E2, E1, <- !app_assoc. cbn [app]. apply Permutation_middle. }
  pose proof (wf_nodup _ _ W) as Nd. rewrite <- Ep in Nd. apply NoDup_cons in Nd as [Np Nd].
  assert (Hin : forall q, q ∈ entries h1 -> q ∈ entries h /\ q <> p).
  { intros q Hq. split; [rewrite <- Ep; now right|]. intros ->. contradiction. }
  assert (W1 : wf h1 m').
  { destruct W. split; rewrite ?S1, ?S2, ?S3, ?S4, ?S5, ?S6; auto.
    - now rewrite length_insert.
    - rewrite E3, wf_used0. destruct (l ++ p :: r) eqn:El; [now destruct l|]. destruct (l ++ r); cbn; lia.
    - apply (placed_mem _ m).
      + eapply placed_insert; eauto. intros q Hq. left. apply elem_of_app in Hq as [Hq|Hq]; apply elem_of_app; auto. right. now right.
      + intros q Hq. apply Hm. apply Hin. unfold entries. now rewrite S5.
    - intros x y ox oy Hx Hy. destruct (Hin x Hx), (Hin y Hy). rewrite !Hm by auto. now apply wf_keys0. }
  destruct (used h1 <? size20percent h1); [|exists h1; auto].
  destruct (rehash_spec h1 false m' W1) as (h2 & E & W2 & Ep2). exists h2. splits; auto; [|now rewrite Ep2].
  intros Hp. rewrite Ep2 in Hp. contradiction.
Qed.
Lemma unlink_entry_spec h m t : wf h m ->
  exists b r, chain h (fun_hash f t mod size h) = Ok b /\ unchain f (fun_hash f t) t b m = Ok r /\
    match r with
    | None => forall q, ~ entry h m (key t) q
    | Some (p, c) => entry h m (key t) p /\ exists l r, b = l ++ p :: r /\ c = l ++ r /\ bucket h !! Z.to_nat (fun_hash f t mod size h) = Some b
    end.
Proof.
  intros W. destruct (chain_ok h m t W) as (b & E & Hb).
  destruct (unchain_spec t m b (chain_objects h m _ b W Hb)) as (r & Er & Hr). exists b, r. splits; auto. destruct r as [[p c]|].
  - destruct Hr as (l & r & -> & -> & o & Ho & Hk). split; [|eauto]. split; [|eauto]. eapply elem_entries; eauto. apply elem_of_app. right. left.
  - intros q He. pose proof (entry_chain h m _ q W He t b eq_refl Hb) as Hq. destruct He as [_ (o & Ho & Hk)]. exact (Hr q o Hq Ho Hk).
Qed.
Lemma hash_remove_spec h m t : wf h m ->
  exists h' r, hash_remove f h t m = Ok (h', r) /\ wf h' m /\
    match r with
    | Some p => entry h m (key t) p /\ p ∉ entries h' /\ p :: entries h' ≡ₚ entries h
    | None => h' = h /\ forall q, ~ entry h m (key t) q
    end.
Proof.
  intros W. destruct (unlink_entry_spec h m t W) as (b & r & E & Er & Hr). unfold hash_remove. rewrite E. cbn [mbind outcome_bind]. rewrite Er.
  cbn [mbind outcome_bind]. destruct r as [[p c]|]; [|exists h, None; auto]. destruct Hr as [He (l & r & -> & -> & Hb)].
  pose proof He as [_ (o & Ho & _)]. destruct (shrink_spec h m m p l r o _ W Hb Ho ltac:(auto)) as (h' & Es & W' & Hp & Ep).
  rewrite Es. cbn [mbind outcome_bind]. exists h', (Some p). splits; auto.
Qed.
Lemma hash_erase_spec h m t : wf h m -> mem_ok m ->
  exists h' m' b, hash_erase f h t m = Ok (h', m', b) /\ wf h' m' /\ mem_ok m' /\
    ((b = true /\ exists p, entry h m (key t) p /\ p ∉ entries h' /\ p :: entries h' ≡ₚ entries h /\ cells m' = delete p (cells m)) \/
     (b = false /\ h' = h /\ m' = m /\ forall q, ~ entry h m (key t) q)).
Proof.
  intros W M. destruct (unlink_entry_spec h m t W) as (b & r & E & Er & Hr). unfold hash_erase. rewrite E. cbn [mbind outcome_bind]. rewrite Er.
  cbn [mbind outcome_bind]. destruct r as [[p c]|]; [|exists h, m, false; splits; auto]. destruct Hr as [He (l & r & -> & -> & Hb)].
  pose proof He as [_ (o & Ho & _)]. destruct (shrink_spec h m (erts_free p m) p l r o _ W Hb Ho) as (h' & Es & W' & Hp & Ep).
  { intros q N. cbn. now apply lookup_delete_ne. }
  rewrite Es. cbn [mbind outcome_bind]. exists h', (erts_free p m), true. splits; auto; [now apply free_ok|]. left. split; auto.
  exists p. splits; auto.
Qed.
End Spec.
