(* ===== verification/IndexTable.v ===== *)
(** The index tables of index.c, a hash table and pages of pointers, and the invariant [irep]
    that reads a table as the list of its objects. *)

From S2P Require Import Prelude.
From stdpp Require Import base option list gmap sorting.
From S2P Require Import Memory HashTable HashSpec.
Local Open Scope Z_scope.

(** Pages of 1024 entries. *)
Definition INDEX_PAGE_SHIFT : Z := 10.
(** Pages of 1024 entries. *)
Definition INDEX_PAGE_SIZE : Z := Z.shiftl 1 INDEX_PAGE_SHIFT.
(** Pages of 1024 entries. *)
Definition INDEX_PAGE_MASK : Z := Z.shiftl 1 INDEX_PAGE_SHIFT - 1.

(** Objects that start with an index. *)
Class IndexSlot (T : Type) := { index : T -> Z; set_index : Z -> T -> T }.

Section Table.
Context {T : Type} `{IndexSlot T}.
Notation mem := (mem (HashBucket T)).
(** A page that is allocated but not written is an empty map. *)
Record IndexTable := mkIndex { htable : Hash; isize : Z; limit : Z; nentries : Z; seg_table : gmap Z (gmap Z ptr) }.
Variable f : HashFunctions T.

(** [erts_index_init]. *)
Definition erts_index_init (sz lim : Z) : outcome IndexTable :=
  h ← hash_init (Z.quot (3 * sz) 4); Ok (mkIndex h 0 lim 0 ∅).
(** [erts_index_lookup]: the object at an index; it must have been written. *)
Definition erts_index_lookup (t : IndexTable) (i : Z) : outcome ptr :=
  page ← require (seg_table t !! Z.shiftr i INDEX_PAGE_SHIFT); require (page !! Z.land i INDEX_PAGE_MASK).
Definition with_htable (h : Hash) (t : IndexTable) : IndexTable := mkIndex h (isize t) (limit t) (nentries t) (seg_table t).
(** Allocate a page. *)
Definition new_page (i : Z) (t : IndexTable) : IndexTable :=
  mkIndex (htable t) (isize t + INDEX_PAGE_SIZE) (limit t) (nentries t) (<[Z.shiftr i INDEX_PAGE_SHIFT := ∅]> (seg_table t)).
(** Write an entry of a page. *)
Definition put_slot (i : Z) (p : ptr) (t : IndexTable) : outcome IndexTable :=
  page ← require (seg_table t !! Z.shiftr i INDEX_PAGE_SHIFT);
  Ok (mkIndex (htable t) (isize t) (limit t) (nentries t) (<[Z.shiftr i INDEX_PAGE_SHIFT := <[Z.land i INDEX_PAGE_MASK := p]> page]> (seg_table t))).
Definition with_nentries (n : Z) (t : IndexTable) : IndexTable := mkIndex (htable t) (isize t) (limit t) n (seg_table t).

(** [index_put_entry]: the object of the template, with a new index if it has none. *)
Definition index_put_entry (t : IndexTable) (tmpl : T) (m : mem) : outcome (IndexTable * mem * ptr) :=
  '(h, m, p) ← hash_put f (htable t) tmpl m;
  let t := with_htable h t in
  o ← load p m;
  if index (data o) >=? 0 then Ok (t, m, p)
  else
    let i := nentries t in
    t ← (if i >=? isize t then if i >=? limit t then Erl_exit else Ok (new_page i t) else Ok t);
    let t := with_nentries (nentries t + 1) t in
    m ← store p (mkObj (hvalue o) (set_index i (data o))) m;
    t ← put_slot i p t;
    Ok (t, m, p).
(** [index_put]. *)
Definition index_put (t : IndexTable) (tmpl : T) (m : mem) : outcome (IndexTable * mem * Z) :=
  '(t, m, p) ← index_put_entry t tmpl m; o ← load p m; Ok (t, m, index (data o)).
(** [index_get]. *)
Definition index_get (t : IndexTable) (tmpl : T) (m : mem) : outcome Z :=
  r ← hash_get f (htable t) tmpl m;
  match r with Some p => o ← load p m; Ok (index (data o)) | None => Ok (-1) end.

(** Erase [n] objects. *)
Fixpoint erase_loop (n : nat) (i : Z) (t : IndexTable) (m : mem) : outcome (IndexTable * mem) :=
  match n with
  | O => Ok (t, m)
  | S n =>
      obj ← erts_index_lookup t i;
      o ← load obj m;
      '(h, m, _) ← hash_erase f (htable t) (data o) m;
      erase_loop n (i + 1) (with_htable h t) m
  end.
(** [index_erase_latest_from]. *)
Definition index_erase_latest_from (t : IndexTable) (from_ix : Z) (m : mem) : outcome (IndexTable * mem) :=
  if from_ix <? nentries t then
    '(t, m) ← erase_loop (Z.to_nat (nentries t - from_ix)) from_ix t m;
    Ok (with_nentries from_ix t, m)
  else Ok (t, m).
End Table.

(** ** The invariant *)
Section Spec.
Context {T K : Type} `{IndexSlot T} (f : HashFunctions T) (key : T -> K) `{L : HashLaws T K f key} `{EqDecision K}.
Notation mem := (mem (HashBucket T)).

Class IndexLaws : Prop := {
  index_set : forall i t, index (set_index i t) = i;
  key_set : forall i t, key (set_index i t) = key t;
  index_alloc : forall t, index (fun_alloc f t) = -1 }.
Context `{IL : IndexLaws}.

(** The object at an index. *)
Definition at_index (t : IndexTable) (i : Z) : option ptr :=
  seg_table t !! Z.shiftr i INDEX_PAGE_SHIFT ≫= fun page => page !! Z.land i INDEX_PAGE_MASK.
(** The table as the list of its objects, with their data. *)
Record irep (t : IndexTable) (m : mem) (l : list (ptr * T)) : Prop := {
  ir_table : wf f key (htable t) m;
  ir_mem : mem_ok m;
  ir_count : nentries t = Z.of_nat (length l);
  ir_pages : exists n, isize t = 1024 * n /\ nentries t <= isize t /\ (n = 0 \/ 0 < n /\ 1024 * (n - 1) < limit t) /\ forall j, 0 <= j < n -> is_Some (seg_table t !! j);
  ir_slot : forall i p d, l !! i = Some (p, d) -> at_index t (Z.of_nat i) = Some p /\ index d = Z.of_nat i /\ exists o, cells m !! p = Some o /\ data o = d;
  ir_entries : entries (htable t) ≡ₚ l.*1 }.
Definition position (k : K) (l : list (ptr * T)) : option nat := fst <$> list_find (fun x => key x.2 = k) l.

Lemma page_of i : 0 <= i -> Z.shiftr i INDEX_PAGE_SHIFT = i / 1024 /\ Z.land i INDEX_PAGE_MASK = i mod 1024.
Proof.
  intros Hi. unfold INDEX_PAGE_MASK, INDEX_PAGE_SHIFT. rewrite Z.shiftr_div_pow2 by lia. change (Z.shiftl 1 10 - 1) with (Z.ones 10).
  rewrite Z.land_ones by lia. auto.
Qed.
Lemma lookup_at t i p : at_index t i = Some p -> erts_index_lookup t i = Ok p.
Proof.
  unfold at_index, erts_index_lookup. destruct (seg_table t !! _) as [page|]; cbn; [|discriminate]. intros E. rewrite E. reflexivity.
Qed.
(** Different indices are different slots. *)
Lemma put_slot_spec t i p : 0 <= i -> is_Some (seg_table t !! (i / 1024)) ->
  exists t', put_slot i p t = Ok t' /\ htable t' = htable t /\ isize t' = isize t /\ limit t' = limit t /\ nentries t' = nentries t /\
    (forall j, is_Some (seg_table t !! j) -> is_Some (seg_table t' !! j)) /\
    at_index t' i = Some p /\ forall j, 0 <= j -> j <> i -> at_index t' j = at_index t j.
Proof.
  intros Hi [page E]. destruct (page_of i Hi) as [E1 E2]. unfold put_slot, at_index. rewrite E1, E2, E. cbn [require mbind outcome_bind].
  eexists. split; [reflexivity|]. cbn. splits; auto.
  - intros j Hj. destruct (decide (i / 1024 = j)) as [->|N]; [rewrite lookup_insert_eq|rewrite lookup_insert_ne by auto]; eauto.
  - rewrite lookup_insert_eq. cbn. apply lookup_insert_eq.
  - intros j Hj N. destruct (page_of j Hj) as [-> ->]. destruct (decide (i / 1024 = j / 1024)) as [Ej|Nj].
    + rewrite Ej, lookup_insert_eq, <- Ej, E. cbn. apply lookup_insert_ne. lia.
    + now rewrite lookup_insert_ne.
Qed.

(** ** Positions *)
Lemma position_Some k l i : position k l = Some i -> exists p d, l !! i = Some (p, d) /\ key d = k.
Proof.
  unfold position. destruct (list_find _ l) as [[j [p d]]|] eqn:E; [|discriminate]. intros [= <-]. apply list_find_Some in E as (? & ? & _). eauto.
Qed.
Lemma position_None k l : position k l = None -> forall p d, (p, d) ∈ l -> key d <> k.
Proof.
  unfold position. destruct (list_find _ l) as [[j x]|] eqn:E; [discriminate|]. intros _ p d Hp Hk.
  apply list_find_None in E. rewrite List.Forall_forall in E. apply (E (p, d)); auto. now apply list_elem_of_In.
Qed.
Lemma irep_data t m l p d : irep t m l -> (p, d) ∈ l -> exists o, cells m !! p = Some o /\ data o = d.
Proof. intros R Hp. apply list_elem_of_lookup in Hp as [i Hi]. now destruct (ir_slot _ _ _ R i p d Hi) as (_ & _ & ?). Qed.
Lemma irep_pointer t m l p : irep t m l -> p ∈ entries (htable t) -> exists d, (p, d) ∈ l.
Proof. intros R Hp. rewrite (ir_entries _ _ _ R) in Hp. apply list_elem_of_fmap in Hp as ([q d] & -> & ?). eauto. Qed.
Lemma irep_elem t m l p d : irep t m l -> (p, d) ∈ l -> p ∈ entries (htable t).
Proof. intros R Hp. rewrite (ir_entries _ _ _ R). apply list_elem_of_fmap. exists (p, d). auto. Qed.
Lemma irep_entry t m l k p : irep t m l -> entry key (htable t) m k p <-> exists i d, position k l = Some i /\ l !! i = Some (p, d) /\ key d = k.
Proof.
  intros R. split.
  - intros [Hp (o & Ho & Hk)]. destruct (irep_pointer _ _ _ _ R Hp) as [d Hd]. destruct (irep_data _ _ _ _ _ R Hd) as (o' & Ho' & Ed).
    rewrite Ho in Ho'. injection Ho' as <-. rewrite Ed in Hk. destruct (position k l) as [i|] eqn:E.
    + destruct (position_Some _ _ _ E) as (q & e & Hi & He). exists i, d. splits; auto.
      assert (q = p) as ->; [|].
      { assert (Hq : (q, e) ∈ l) by (eapply list_elem_of_lookup_2; eauto). destruct (irep_data _ _ _ _ _ R Hq) as (oq & Hoq & Eq).
        apply (wf_keys _ _ _ _ (ir_table _ _ _ R) q p oq o); eauto using irep_elem. congruence. }
      rewrite Hi. f_equal. f_equal. destruct (ir_slot _ _ _ R i p e Hi) as (_ & _ & o' & Ho' & Eo). congruence.
    + exfalso. eapply position_None; eauto.
  - intros (i & d & _ & Hi & Hk). assert (Hp : (p, d) ∈ l) by (eapply list_elem_of_lookup_2; eauto).
    destruct (irep_data _ _ _ _ _ R Hp) as (o & Ho & Ed). split; [eapply irep_elem; eauto|]. exists o. split; auto. now rewrite Ed.
Qed.

Lemma irep_position t m l i p d : irep t m l -> l !! i = Some (p, d) -> position (key d) l = Some i.
Proof.
  intros R Hi. destruct (ir_slot _ _ _ R i p d Hi) as (_ & Ei & o & Ho & Ed).
  assert (He : entry key (htable t) m (key d) p).
  { split; [eapply irep_elem; [exact R|eapply list_elem_of_lookup_2; eauto]|]. exists o. split; auto. now rewrite Ed. }
  apply (irep_entry _ _ _ _ _ R) in He as (j & d' & Hj & Hl & _). destruct (ir_slot _ _ _ R j p d' Hl) as (_ & Ej & o' & Ho' & Ed').
  rewrite Hj. f_equal. assert (d = d') by congruence. apply Nat2Z.inj. congruence.
Qed.

(** ** The operations *)
Lemma index_init_spec sz lim m : 3 * sz / 4 <= 52679969 -> 0 <= sz -> mem_ok m -> exists t, erts_index_init sz lim = Ok t /\ irep t m [] /\ limit t = lim.
Proof.
  intros Hs Hz M. unfold erts_index_init. rewrite Z.quot_div_nonneg by lia. destruct (hash_init_spec f key (3 * sz / 4) m Hs) as (h & E & W & Ee & _).
  rewrite E. cbn [mbind outcome_bind]. eexists. split; [reflexivity|]. split; [|reflexivity]. split; cbn; auto.
  - exists 0. splits; auto; lia.
  - intros i p d. rewrite lookup_nil. discriminate.
  - now rewrite Ee.
Qed.
Lemma index_get_spec t m l tmpl : irep t m l ->
  index_get f t tmpl m = Ok (match position (key tmpl) l with Some i => Z.of_nat i | None => -1 end).
Proof.
  intros R. unfold index_get. destruct (hash_get_spec f key (htable t) m tmpl (ir_table _ _ _ R)) as (r & E & Hr). rewrite E. cbn [mbind outcome_bind].
  destruct r as [p|].
  - apply (irep_entry _ _ _ _ _ R) in Hr as (i & d & -> & Hi & _). destruct (ir_slot _ _ _ R i p d Hi) as (_ & Ei & o & Ho & Ed).
    unfold load. rewrite Ho. cbn. now rewrite Ed, Ei.
  - destruct (position (key tmpl) l) as [i|] eqn:Ep; auto. destruct (position_Some _ _ _ Ep) as (p & d & Hi & Hk). exfalso.
    apply (Hr p). apply (irep_entry _ _ _ _ _ R). eauto.
Qed.
(** The steps that number a new object. *)
Lemma index_append t m l tmpl h m1 p t1 : irep t m l -> wf f key h m1 -> mem_ok m1 -> entries h ≡ₚ p :: entries (htable t) ->
  cells m !! p = None -> cells m1 = <[p := mkObj (fun_hash f tmpl) (fun_alloc f tmpl)]> (cells m) ->
  htable t1 = h -> nentries t1 = nentries t -> limit t1 = limit t -> nentries t < isize t1 ->
  (exists n, isize t1 = 1024 * n /\ 0 < n /\ 1024 * (n - 1) < limit t /\ forall j, 0 <= j < n -> is_Some (seg_table t1 !! j)) ->
  (forall j, 0 <= j < nentries t -> at_index t1 j = at_index t j) ->
  exists t' m', (m ← store p (mkObj (fun_hash f tmpl) (set_index (nentries t) (fun_alloc f tmpl))) m1;
                 t ← put_slot (nentries t) p (with_nentries (nentries t1 + 1) t1); Ok (t, m, p)) = Ok (t', m', p) /\
    limit t' = limit t /\ irep t' m' (l ++ [(p, set_index (nentries t) (fun_alloc f tmpl))]).
Proof.
  intros R W1 M1 Ent Hfr Ec Eh En El Hlt (n & Es & Hn & Hlim & Hpg) Hat. pose proof (ir_count _ _ _ R) as Hc.
  set (o := mkObj (fun_hash f tmpl) (fun_alloc f tmpl)) in *. set (d := set_index (nentries t) (fun_alloc f tmpl)).
  assert (Ho : cells m1 !! p = Some o) by (rewrite Ec; apply lookup_insert_eq).
  pose proof (store_spec p (mkObj (fun_hash f tmpl) d) o m1 Ho) as Est. pose proof (store_ok _ _ _ _ M1 Est) as M2.
  rewrite Est. cbn [mbind outcome_bind].
  pose proof (wf_store f key h m1 p o d W1 Ho (key_set _ _)) as W2. change (hvalue o) with (fun_hash f tmpl) in W2.
  set (m2 := Mem _ _) in *.
  destruct (put_slot_spec (with_nentries (nentries t1 + 1) t1) (nentries t) p) as (t' & E & Q1 & Q2 & Q3 & Q4 & Q5 & Q6 & Q7); [lia|apply Hpg; lia|].
  cbn [with_nentries htable isize limit nentries seg_table] in Q1, Q2, Q3, Q4, Q5.
  rewrite E. cbn [mbind outcome_bind]. exists t', m2. splits; auto; [now rewrite Q3|]. split.
  - now rewrite Q1, Eh.
  - exact M2.
  - rewrite Q4, En, length_app. cbn [length]. lia.
  - exists n. rewrite Q2, Q3, Q4. splits; try lia. intros j Hj. auto.
  - intros i q e Hi. apply lookup_app_Some in Hi as [Hi|[Hi Hl]].
    + destruct (ir_slot _ _ _ R i q e Hi) as (A & B & oq & Hoq & Ed). pose proof (lookup_lt_Some _ _ _ Hi) as Li. splits; auto.
      * rewrite Q7 by lia. change (at_index (with_nentries (nentries t1 + 1) t1)) with (at_index t1). now rewrite Hat by lia.
      * exists oq. split; auto. cbn. rewrite Ec. rewrite !lookup_insert_ne; auto; congruence.
    + apply list_lookup_singleton_Some in Hl as [Hl [= <- <-]]. replace (Z.of_nat i) with (nentries t) by lia. splits; auto; [apply index_set|].
      eexists. cbn. rewrite lookup_insert_eq. split; reflexivity.
  - rewrite Q1, Eh, Ent, (ir_entries _ _ _ R), fmap_app. cbn. apply Permutation_cons_append.
Qed.
Lemma index_put_spec t m l tmpl : irep t m l ->
  match position (key tmpl) l with
  | Some i => exists p d, l !! i = Some (p, d) /\ index_put_entry f t tmpl m = Ok (t, m, p)
  | None =>
      if (nentries t =? isize t) && (limit t <=? isize t) then index_put_entry f t tmpl m = Erl_exit
      else exists t' m' p, index_put_entry f t tmpl m = Ok (t', m', p) /\ limit t' = limit t /\ cells m !! p = None /\
        irep t' m' (l ++ [(p, set_index (nentries t) (fun_alloc f tmpl))])
  end.
Proof.
  intros R. pose proof (ir_table _ _ _ R) as W. unfold index_put_entry.
  destruct (hash_put_spec f key (htable t) m tmpl W (ir_mem _ _ _ R)) as (h & m1 & p & E & W1 & M1 & Hc). rewrite E. cbn [mbind outcome_bind].
  destruct Hc as [(He & -> & ->)|(Hn & Ep & Ent & Ec)].
  - apply (irep_entry _ _ _ _ _ R) in He as (i & d & -> & Hi & _). exists p, d. split; auto.
    destruct (ir_slot _ _ _ R i p d Hi) as (_ & Ei & o & Ho & Ed). unfold load. rewrite Ho. cbn [require mbind outcome_bind]. rewrite Ed, Ei.
    destruct (Z.geb_spec (Z.of_nat i) 0); [|lia]. now destruct t.
  - destruct (position (key tmpl) l) as [i|] eqn:Epos.
    { destruct (position_Some _ _ _ Epos) as (q & d & Hi & Hk). exfalso. apply (Hn q). apply (irep_entry _ _ _ _ _ R). eauto. }
    assert (Hfr : cells m !! p = None) by (subst p; apply mem_fresh, R).
    unfold load. rewrite Ec, lookup_insert_eq. cbn [require mbind outcome_bind data hvalue]. rewrite index_alloc. cbn [Z.geb Z.compare].
    destruct (ir_pages _ _ _ R) as (n & Es & Hle & Hn0 & Hpg). cbn [nentries with_htable isize limit].
    destruct (Z.geb_spec (nentries t) (isize t)) as [Hfull|Hroom].
    + rewrite (proj2 (Z.eqb_eq _ _)) by lia. cbn [andb]. rewrite Z.geb_leb.
      destruct (Z.leb_spec (limit t) (isize t)) as [Hlim|Hlim], (Z.leb_spec (limit t) (nentries t)); try lia; [reflexivity|]. cbn [mbind outcome_bind].
      destruct (index_append t m l tmpl h m1 p (new_page (nentries t) (with_htable h t)) R W1 M1 Ent Hfr Ec) as (t' & m' & Ea & El & R'); auto;
        cbn [new_page with_htable isize limit nentries seg_table].
      * change INDEX_PAGE_SIZE with 1024. lia.
      * exists (n + 1). change INDEX_PAGE_SIZE with 1024. splits; try lia. intros j Hj. destruct (page_of (nentries t)) as [-> _]; [rewrite (ir_count _ _ _ R); lia|].
        replace (nentries t / 1024) with n by lia. destruct (decide (j = n)) as [->|]; [rewrite lookup_insert_eq; eauto|rewrite lookup_insert_ne by auto; apply Hpg; lia].
      * intros j Hj. unfold at_index. cbn. destruct (page_of j) as [-> ->]; [lia|]. destruct (page_of (nentries t)) as [-> _]; [lia|].
        rewrite lookup_insert_ne by lia. reflexivity.
      * exists t', m', p. splits; auto.
    + rewrite (proj2 (Z.eqb_neq _ _)) by lia. cbn [andb mbind outcome_bind].
      destruct (index_append t m l tmpl h m1 p (with_htable h t) R W1 M1 Ent Hfr Ec) as (t' & m' & Ea & El & R'); auto.
      * pose proof (ir_count _ _ _ R). exists n. splits; auto; lia.
      * exists t', m', p. splits; auto.
Qed.
Lemma index_lookup_spec t m l i p d : irep t m l -> l !! i = Some (p, d) -> erts_index_lookup t (Z.of_nat i) = Ok p /\ exists o, cells m !! p = Some o /\ data o = d.
Proof. intros R Hi. destruct (ir_slot _ _ _ R i p d Hi) as (A & _ & B). split; auto. now apply lookup_at. Qed.

Lemma erase_loop_spec l1 : forall l0 t m i, wf f key (htable t) m -> mem_ok m -> entries (htable t) ≡ₚ l0 ++ l1.*1 ->
  (forall j p d, l1 !! j = Some (p, d) -> at_index t (i + Z.of_nat j) = Some p /\ exists o, cells m !! p = Some o /\ data o = d) ->
  exists h m', erase_loop f (length l1) i t m = Ok (with_htable h t, m') /\ wf f key h m' /\ mem_ok m' /\ entries h ≡ₚ l0 /\
    forall p, p ∈ l0 -> cells m' !! p = cells m !! p.
Proof.
  induction l1 as [|[p d] l1 IH]; intros l0 t m i W M Ent Hl; cbn [length erase_loop].
  - exists (htable t), m. rewrite Ent, app_nil_r. splits; auto. now destruct t.
  - destruct (Hl 0%nat p d eq_refl) as (Ha & o & Ho & Ed). rewrite Z.add_0_r in Ha. rewrite (lookup_at _ _ _ Ha). cbn [mbind outcome_bind].
    unfold load. rewrite Ho. cbn [require mbind outcome_bind].
    assert (Hp : entry key (htable t) m (key (data o)) p).
    { split; [|eauto]. rewrite Ent. cbn. apply elem_of_app. right. left. }
    destruct (hash_erase_spec f key (htable t) m (data o) W M) as (h & m1 & b & E & W1 & M1 & [(-> & q & [Hq (oq & Hoq & Hkq)] & Hnq & Eq & Ec)|(_ & _ & _ & Hn)]);
      [|now destruct (Hn p)].
    rewrite E. cbn [mbind outcome_bind]. assert (q = p) as ->. { destruct Hp as [Hp _]. apply (wf_keys _ _ _ _ W q p oq o); auto. }
    assert (E1 : entries h ≡ₚ l0 ++ l1.*1). { apply (Permutation_cons_inv (a := p)). rewrite Eq, Ent. cbn. symmetry. apply Permutation_middle. }
    assert (Hne : forall q, q ∈ l0 ++ l1.*1 -> q <> p). { intros q Hq0 ->. apply Hnq. now rewrite E1. }
    destruct (IH l0 (with_htable h t) m1 (i + 1)) as (h2 & m2 & E2 & W2 & M2 & Ent2 & Hc2); auto.
    + intros j q e Hj. destruct (Hl (S j) q e Hj) as (A & oe & Hoe & Ee). split; [change (at_index (with_htable h t)) with (at_index t); rewrite <- A; f_equal; lia|].
      exists oe. split; auto. rewrite Ec, lookup_delete_ne; auto. intros <-. apply (Hne p); auto. apply elem_of_app. right.
      apply list_elem_of_fmap. exists (p, e). split; auto. eapply list_elem_of_lookup_2; eauto.
    + rewrite E2. exists h2, m2. splits; auto. intros q Hq0. rewrite Hc2, Ec by auto. apply lookup_delete_ne. intros <-. apply (Hne p); auto. apply elem_of_app. now left.
Qed.
Lemma index_erase_spec t m l n : irep t m l -> (n <= length l)%nat ->
  exists t' m', index_erase_latest_from f t (Z.of_nat n) m = Ok (t', m') /\ irep t' m' (take n l) /\ limit t' = limit t.
Proof.
  intros R Hn. pose proof (ir_count _ _ _ R) as Hc. unfold index_erase_latest_from. destruct (Z.ltb_spec (Z.of_nat n) (nentries t)).
  2:{ exists t, m. splits; auto. now rewrite take_ge by lia. }
  replace (Z.to_nat (nentries t - Z.of_nat n)) with (length (drop n l)) by (rewrite length_drop; lia).
  destruct (erase_loop_spec (drop n l) (take n l).*1 t m (Z.of_nat n)) as (h & m' & E & W' & M' & Ent & Hcl).
  - apply R.
  - apply R.
  - rewrite <- fmap_app, take_drop. apply R.
  - intros j p d Hj. rewrite lookup_drop in Hj. destruct (ir_slot _ _ _ R _ p d Hj) as (A & _ & B). split; auto. rewrite <- A. f_equal. lia.
  - rewrite E. cbn [mbind outcome_bind]. eexists _, m'. split; [reflexivity|]. split; [|reflexivity]. destruct (ir_pages _ _ _ R) as (k & Es & Hle & Hk & Hpg). split; cbn; auto.
    + rewrite length_take. lia.
    + exists k. splits; auto. lia.
    + intros i p d Hi. pose proof Hi as Hi'. apply lookup_take_Some in Hi as [Hi Hlt]. destruct (ir_slot _ _ _ R i p d Hi) as (A & B & o & Ho & Ed).
      splits; auto. exists o. split; auto. rewrite Hcl; auto. apply list_elem_of_fmap. exists (p, d). split; auto. eapply list_elem_of_lookup_2; eauto.
Qed.
(** The data of an object may change, but not its key and index. *)
Lemma irep_update t m l i p d d' o : irep t m l -> l !! i = Some (p, d) -> cells m !! p = Some o -> key d' = key d -> index d' = index d ->
  irep t (Mem (brk m) (<[p := mkObj (hvalue o) d']> (cells m))) (<[i := (p, d')]> l).
Proof.
  intros R Hi Ho Hk Hx. destruct (ir_slot _ _ _ R i p d Hi) as (_ & _ & o' & Ho' & Ed). assert (o' = o) as -> by congruence.
  assert (N : NoDup l.*1) by (rewrite <- (ir_entries _ _ _ R); apply (wf_nodup _ _ _ _ (ir_table _ _ _ R))).
  split.
  - apply (wf_store f key _ _ _ _ _ (ir_table _ _ _ R) Ho). congruence.
  - intros q oq. cbn. destruct (decide (q = p)) as [->|Nq]; [intros _; exact (ir_mem _ _ _ R p o Ho)|]. rewrite lookup_insert_ne by auto. apply (ir_mem _ _ _ R).
  - rewrite length_insert. apply R.
  - apply R.
  - intros j q e Hj. destruct (decide (j = i)) as [->|Nj].
    + rewrite list_lookup_insert_eq in Hj by (apply lookup_lt_is_Some; eauto). injection Hj as <- <-. destruct (ir_slot _ _ _ R i p d Hi) as (A & B & _).
      splits; auto; [congruence|]. eexists. cbn. rewrite lookup_insert_eq. split; reflexivity.
    + rewrite list_lookup_insert_ne in Hj by auto. destruct (ir_slot _ _ _ R j q e Hj) as (A & B & oq & Hoq & Eq). splits; auto. exists oq. split; auto. cbn.
      rewrite lookup_insert_ne; auto. intros <-. apply Nj. apply (NoDup_lookup (l.*1) j i p); auto; rewrite list_lookup_fmap; [now rewrite Hj|now rewrite Hi].
  - rewrite list_fmap_insert. cbn. rewrite list_insert_id; [apply R|]. rewrite list_lookup_fmap, Hi. reflexivity.
Qed.
End Spec.
