(* ===== verification/Utf8.v ===== *)
(** UTF-8 in erl_unicode.c: the analysis of a text and its conversions, and their lemmas with
    respect to the reference [encode]. [analyze_loop_spec] splits a text into characters and a rest
    that does not start with one. *)

From S2P Require Import Prelude DigitDiv.

(** The results of the analysis. *)
Inductive utf8_result := ERTS_UTF8_OK | ERTS_UTF8_INCOMPLETE | ERTS_UTF8_ERROR | ERTS_UTF8_ANALYZE_MORE | ERTS_UTF8_OK_MAX_CHARS.

(** The next character: its bytes and whether it is a Latin-1 character. *)
Definition utf8_char (source : list Z) : utf8_result + (nat * bool) :=
  let size := length source in
  let s i := nth i source 0 in
  let b0 := s 0%nat in
  let b1 := s 1%nat in
  if Z.land b0 0x80 =? 0 then inr (1%nat, true)
  else if Z.land b0 0xE0 =? 0xC0 then
    if (size <? 2)%nat then inl ERTS_UTF8_INCOMPLETE
    else if negb (Z.land b1 0xC0 =? 0x80) || (b0 <? 0xC2) then inl ERTS_UTF8_ERROR
    else inr (2%nat, Z.land b0 0xFC =? 0xC0)
  else if Z.land b0 0xF0 =? 0xE0 then
    if (size <? 3)%nat then inl ERTS_UTF8_INCOMPLETE
    else if negb (Z.land b1 0xC0 =? 0x80) || negb (Z.land (s 2%nat) 0xC0 =? 0x80) || ((b0 =? 0xE0) && (b1 <? 0xA0)) then inl ERTS_UTF8_ERROR
    else if (Z.land b0 0xF =? 0xD) && negb (Z.land b1 0x20 =? 0) then inl ERTS_UTF8_ERROR
    else inr (3%nat, false)
  else if Z.land b0 0xF8 =? 0xF0 then
    if (size <? 4)%nat then inl ERTS_UTF8_INCOMPLETE
    else if negb (Z.land b1 0xC0 =? 0x80) || negb (Z.land (s 2%nat) 0xC0 =? 0x80) || negb (Z.land (s 3%nat) 0xC0 =? 0x80) ||
            ((b0 =? 0xF0) && (b1 <? 0x90)) then inl ERTS_UTF8_ERROR
    else if (Z.land b0 0x7 >? 0x4) || ((Z.land b0 0x7 =? 0x4) && (Z.land b1 0x3F >? 0xF)) then inl ERTS_UTF8_ERROR
    else inr (4%nat, false)
  else inl ERTS_UTF8_ERROR.

(** [an_err_pos]: bytes in front of the position; [an_left]: iterations left,
    when they are counted; [an_latin1]: the number of Latin-1 characters or -1,
    [None] when it is not assigned. *)
Record analysis := mkAnalysis { an_result : utf8_result; an_err_pos : nat; an_num_chars : Z; an_left : option Z; an_latin1 : option Z }.
(** The loop; every character takes a byte at least, and the fuel is the number of bytes. *)
Fixpoint analyze_loop (fuel : nat) (source : list Z) (err_pos : nat) (num_chars : Z) (left : option Z) (latin1_count : Z) (is_latin1 : bool) (max_chars : Z) : analysis :=
  match fuel, source with
  | _, [] => mkAnalysis ERTS_UTF8_OK err_pos num_chars left (Some (if is_latin1 then latin1_count else -1))
  | O, _ => mkAnalysis ERTS_UTF8_ERROR err_pos num_chars left None
  | S fuel, _ =>
      match utf8_char source with
      | inl e => mkAnalysis e err_pos num_chars left None
      | inr (n, latin1) =>
          let source := skipn n source in
          let size := length source in
          let latin1_count := if (n <=? 2)%nat then latin1_count + 1 else latin1_count in
          let is_latin1 := is_latin1 && latin1 in
          let num_chars := num_chars + 1 in
          let err_pos := (err_pos + n)%nat in
          if negb (max_chars =? 0) && (0 <? size)%nat && (num_chars =? max_chars) then mkAnalysis ERTS_UTF8_OK_MAX_CHARS err_pos num_chars left None
          else
            match left with
            | Some l =>
                if (l - 1 <=? 0) && (0 <? size)%nat then mkAnalysis ERTS_UTF8_ANALYZE_MORE err_pos num_chars (Some (l - 1)) None
                else analyze_loop fuel source err_pos num_chars (Some (l - 1)) latin1_count is_latin1 max_chars
            | None => analyze_loop fuel source err_pos num_chars None latin1_count is_latin1 max_chars
            end
      end
  end.
(** [analyze_utf8]. *)
Definition analyze_utf8 (source : list Z) (left : option Z) (max_chars : Z) : analysis :=
  analyze_loop (length source) source 0 0 left 0 true max_chars.
(** [erts_analyze_utf8]. *)
Definition erts_analyze_utf8 (source : list Z) (left : option Z) : analysis := analyze_utf8 source left 0.
(** [erts_analyze_utf8_x]. *)
Definition erts_analyze_utf8_x (source : list Z) (left : option Z) (max_chars : Z) : analysis := analyze_utf8 source left max_chars.

(** [before]: the bytes in front of [source], the nearest one first; [after]:
    those from there on. The first result is the final offset of [source]. *)
Fixpoint utf8_to_list_loop (before after : list Z) (num : Z) (ret : list Z) : Z * list Z :=
  match before with
  | [] => (-1, ret)
  | b :: before =>
      let s i := nth i (b :: after) 0 in
      let cons unipoint :=
        if num - 1 <=? 0 then (Z.of_nat (length before), unipoint :: ret) else utf8_to_list_loop before (b :: after) (num - 1) (unipoint :: ret) in
      if Z.land b 0x80 =? 0 then cons b
      else if Z.land b 0xE0 =? 0xC0 then cons (Z.lor (Z.shiftl (Z.land b 0x1F) 6) (Z.land (s 1%nat) 0x3F))
      else if Z.land b 0xF0 =? 0xE0 then
        cons (Z.lor (Z.lor (Z.shiftl (Z.land b 0xF) 12) (Z.shiftl (Z.land (s 1%nat) 0x3F) 6)) (Z.land (s 2%nat) 0x3F))
      else if Z.land b 0xF8 =? 0xF0 then
        cons (Z.lor (Z.lor (Z.lor (Z.shiftl (Z.land b 0x7) 18) (Z.shiftl (Z.land (s 1%nat) 0x3F) 12)) (Z.shiftl (Z.land (s 2%nat) 0x3F) 6)) (Z.land (s 3%nat) 0x3F))
      else utf8_to_list_loop before (b :: after) num ret
  end.
(** The list, the number of characters built and of bytes eaten. *)
Definition erts_utf8_to_list (num : Z) (bytes : list Z) (left : Z) (tail : list Z) : list Z * Z * Z :=
  let num := if left <? num then (if left >? 0 then left else 1) else num in
  let '(source, ret) := utf8_to_list_loop (rev bytes) [] num tail in
  (ret, num, Z.of_nat (length bytes) - source).
(** [erts_utf8_to_latin1]; the fuel is the number of bytes. *)
Fixpoint erts_utf8_to_latin1 (fuel : nat) (source : list Z) : list Z :=
  match fuel, source with
  | S fuel, c :: rest =>
      if Z.land c 0x80 =? 0 then c :: erts_utf8_to_latin1 fuel rest
      else Z.land (Z.lor (Z.shiftl c 6) (Z.land (nth 0 rest 0) 0x3F)) 0xFF :: erts_utf8_to_latin1 fuel (skipn 1 rest)
  | _, _ => []
  end.

(** ** UTF-8, as a reference *)
Definition valid_char (cp : Z) : Prop := 0 <= cp < 0xD800 \/ 0xE000 <= cp <= 0x10FFFF.
Definition encode (cp : Z) : list Z :=
  if cp <? 0x80 then [cp]
  else if cp <? 0x800 then [0xC0 + cp / 64; 0x80 + cp mod 64]
  else if cp <? 0x10000 then [0xE0 + cp / 4096; 0x80 + cp / 64 mod 64; 0x80 + cp mod 64]
  else [0xF0 + cp / 262144; 0x80 + cp / 4096 mod 64; 0x80 + cp / 64 mod 64; 0x80 + cp mod 64].
Definition encode_all (cps : list Z) : list Z := flat_map encode cps.
Definition byte (b : Z) : Prop := 0 <= b < 256.

(** ** Bytes *)
Lemma byte_eq (f g : Z -> bool) : forallb (fun b => Bool.eqb (f b) (g b)) (map Z.of_nat (seq 0 256)) = true -> forall b, byte b -> f b = g b.
Proof.
  intros H b [H0 H1]. rewrite forallb_forall in H. apply eqb_prop, H, in_map_iff. exists (Z.to_nat b). split; [lia|]. apply in_seq. lia.
Qed.
Definition within (l b h : Z) : bool := (l <=? b) && (b <? h).
Lemma mask_80 b : byte b -> (Z.land b 0x80 =? 0) = (b <? 128). Proof. revert b. now apply byte_eq. Qed.
Lemma mask_E0 b : byte b -> (Z.land b 0xE0 =? 0xC0) = within 192 b 224. Proof. revert b. now apply byte_eq. Qed.
Lemma mask_F0 b : byte b -> (Z.land b 0xF0 =? 0xE0) = within 224 b 240. Proof. revert b. now apply byte_eq. Qed.
Lemma mask_F8 b : byte b -> (Z.land b 0xF8 =? 0xF0) = within 240 b 248. Proof. revert b. now apply byte_eq. Qed.
Lemma mask_C0 b : byte b -> (Z.land b 0xC0 =? 0x80) = within 128 b 192. Proof. revert b. now apply byte_eq. Qed.
Lemma mask_FC b : byte b -> (Z.land b 0xFC =? 0xC0) = within 192 b 196. Proof. revert b. now apply byte_eq. Qed.
Lemma mask_20 b : byte b -> (Z.land b 0x20 =? 0) = (b mod 64 <? 32). Proof. revert b. now apply byte_eq. Qed.
Lemma mask_low b n : 0 <= n -> Z.land b (2 ^ n - 1) = b mod 2 ^ n.
Proof. intros H. rewrite <- Z.land_ones by lia. f_equal. rewrite Z.ones_equiv. lia. Qed.
Lemma lor_low a b n : 0 <= n -> 0 <= a -> 0 <= b < 2 ^ n -> Z.lor (Z.shiftl a n) b = a * 2 ^ n + b.
Proof. intros. rewrite Z.shiftl_mul_pow2 by lia. now apply lor_disjoint. Qed.

(** ** One character *)
Definition cont (b : Z) : bool := within 128 b 192.
(** The tests of [utf8_char] as comparisons. *)
Definition char_bounds (s : list Z) : utf8_result + (nat * bool) :=
  match s with
  | [] => inl ERTS_UTF8_ERROR
  | b0 :: s =>
      if b0 <? 128 then inr (1%nat, true)
      else if b0 <? 192 then inl ERTS_UTF8_ERROR
      else if b0 <? 224 then
        match s with
        | b1 :: _ => if cont b1 && (194 <=? b0) then inr (2%nat, b0 <? 196) else inl ERTS_UTF8_ERROR
        | _ => inl ERTS_UTF8_INCOMPLETE
        end
      else if b0 <? 240 then
        match s with
        | b1 :: b2 :: _ =>
            if cont b1 && cont b2 && negb ((b0 =? 224) && (b1 <? 160)) && negb ((b0 =? 237) && (160 <=? b1)) then inr (3%nat, false) else inl ERTS_UTF8_ERROR
        | _ => inl ERTS_UTF8_INCOMPLETE
        end
      else if b0 <? 248 then
        match s with
        | b1 :: b2 :: b3 :: _ =>
            if cont b1 && cont b2 && cont b3 && negb ((b0 =? 240) && (b1 <? 144)) && ((b0 <? 244) || ((b0 =? 244) && (b1 <? 144)))
            then inr (4%nat, false) else inl ERTS_UTF8_ERROR
        | _ => inl ERTS_UTF8_INCOMPLETE
        end
      else inl ERTS_UTF8_ERROR
  end.
Lemma within_spec l b h : within l b h = true <-> l <= b < h.
Proof. unfold within. rewrite andb_true_iff, Z.leb_le, Z.ltb_lt. tauto. Qed.
Lemma utf8_char_bounds s : Forall byte s -> s <> [] -> utf8_char s = char_bounds s.
Proof.
  intros F N. destruct s as [|b0 s]; [congruence|]. clear N. inversion F as [|? ? B0 F1]; subst. unfold utf8_char, char_bounds. cbn [nth length].
  rewrite mask_80, mask_E0, mask_F0, mask_F8, mask_FC by auto. unfold within.
  destruct (Z.ltb_spec b0 128); [reflexivity|]. destruct (Z.ltb_spec b0 192).
  { destruct (Z.leb_spec 192 b0), (Z.leb_spec 224 b0), (Z.leb_spec 240 b0); try lia. reflexivity. }
  destruct (Z.leb_spec 192 b0); [|lia]. cbn [andb]. destruct (Z.ltb_spec b0 224).
  { destruct s as [|b1 s]; cbn [nth length]; [reflexivity|]. inversion F1 as [|? ? B1 F2]; subst. rewrite mask_C0 by auto. fold (cont b1).
    change (S (S (length s)) <? 2)%nat with false. cbn iota. rewrite (Z.ltb_antisym 194 b0). now destruct (cont b1), (194 <=? b0). }
  destruct (Z.leb_spec 224 b0); [|lia]. cbn [andb]. destruct (Z.ltb_spec b0 240).
  { destruct s as [|b1 [|b2 s]]; cbn [nth length]; [reflexivity..|]. inversion F1 as [|? ? B1 F2]; subst. inversion F2 as [|? ? B2 F3]; subst.
    rewrite !mask_C0, mask_20 by auto. fold (cont b1) (cont b2). change (S (S (S (length s))) <? 3)%nat with false. cbn iota.
    destruct (cont b1) eqn:C1; cbn [negb andb orb]; [|reflexivity]. destruct (cont b2); cbn [negb andb orb]; [|reflexivity].
    unfold cont in C1. apply within_spec in C1. change 0xF with (2 ^ 4 - 1). rewrite mask_low by lia.
    replace (b0 mod 2 ^ 4 =? 13) with (b0 =? 237) by (destruct (Z.eqb_spec b0 237), (Z.eqb_spec (b0 mod 2 ^ 4) 13); auto; lia).
    replace (b1 mod 64 <? 32) with (b1 <? 160) by (destruct (Z.ltb_spec b1 160), (Z.ltb_spec (b1 mod 64) 32); auto; lia).
    rewrite (Z.leb_antisym b1 160). now destruct (b0 =? 224), (b1 <? 160), (b0 =? 237). }
  destruct (Z.leb_spec 240 b0); [|lia]. cbn [andb]. destruct (Z.ltb_spec b0 248); [|reflexivity].
  destruct s as [|b1 [|b2 [|b3 s]]]; cbn [nth length]; [reflexivity..|]. inversion F1 as [|? ? B1 F2]; subst. inversion F2 as [|? ? B2 F3]; subst.
  inversion F3 as [|? ? B3 F4]; subst. rewrite !mask_C0 by auto. fold (cont b1) (cont b2) (cont b3). change (S (S (S (S (length s)))) <? 4)%nat with false. cbn iota.
  destruct (cont b1) eqn:C1; cbn [negb andb orb]; [|reflexivity]. destruct (cont b2); cbn [negb andb orb]; [|reflexivity].
  destruct (cont b3); cbn [negb andb orb]; [|reflexivity]. unfold cont in C1. apply within_spec in C1.
  change 0x7 with (2 ^ 3 - 1). change 0x3F with (2 ^ 6 - 1). rewrite !mask_low by lia. rewrite !Z.gtb_ltb.
  replace (4 <? b0 mod 2 ^ 3) with (244 <? b0) by (destruct (Z.ltb_spec 244 b0), (Z.ltb_spec 4 (b0 mod 2 ^ 3)); auto; lia).
  replace (b0 mod 2 ^ 3 =? 4) with (b0 =? 244) by (destruct (Z.eqb_spec b0 244), (Z.eqb_spec (b0 mod 2 ^ 3) 4); auto; lia).
  replace (15 <? b1 mod 2 ^ 6) with (negb (b1 <? 144)) by (destruct (Z.ltb_spec b1 144), (Z.ltb_spec 15 (b1 mod 2 ^ 6)); auto; lia).
  destruct (Z.eqb_spec b0 240), (Z.eqb_spec b0 244), (Z.ltb_spec 244 b0), (Z.ltb_spec b0 244), (b1 <? 144); try lia; reflexivity.
Qed.

(** ** Characters and their encoding *)
Ltac known_bool := repeat match goal with
  | |- context [?x <? ?y] => (rewrite (proj2 (Z.ltb_lt x y)) by lia) || (rewrite (proj2 (Z.ltb_ge x y)) by lia)
  | |- context [?x <=? ?y] => (rewrite (proj2 (Z.leb_le x y)) by lia) || (rewrite (proj2 (Z.leb_gt x y)) by lia)
  | |- context [?x =? ?y] => (rewrite (proj2 (Z.eqb_eq x y)) by lia) || (rewrite (proj2 (Z.eqb_neq x y)) by lia)
  end.
Lemma cont_low x : cont (128 + x mod 64) = true.
Proof. apply within_spec. lia. Qed.
Lemma encode_bytes cp : valid_char cp -> Forall byte (encode cp) /\ encode cp <> [].
Proof.
  unfold valid_char, encode, byte. intros V. destruct (Z.ltb_spec cp 128); [split; [repeat constructor; lia|discriminate]|].
  destruct (Z.ltb_spec cp 0x800); [split; [repeat constructor; lia|discriminate]|].
  destruct (Z.ltb_spec cp 0x10000); (split; [repeat constructor; lia|discriminate]).
Qed.
Lemma char_encode cp rest : valid_char cp -> char_bounds (encode cp ++ rest) = inr (length (encode cp), cp <? 256).
Proof.
  unfold valid_char, encode. intros V. destruct (Z.ltb_spec cp 128).
  { cbn [app length char_bounds]. known_bool. reflexivity. }
  destruct (Z.ltb_spec cp 0x800).
  { cbn [app length char_bounds]. rewrite cont_low. assert (2 <= cp / 64 < 32) by lia. known_bool. cbn [andb].
    f_equal. f_equal. destruct (Z.ltb_spec (192 + cp / 64) 196), (Z.ltb_spec cp 256); auto; lia. }
  destruct (Z.ltb_spec cp 0x10000).
  { cbn [app length char_bounds]. rewrite !cont_low. assert (0 <= cp / 4096 < 16) by lia.
    assert (cp / 4096 = 0 -> 32 <= cp / 64 mod 64) by lia. assert (cp / 4096 = 13 -> cp / 64 mod 64 < 32) by lia. known_bool. cbn [andb].
    destruct (Z.eqb_spec (224 + cp / 4096) 224), (Z.eqb_spec (224 + cp / 4096) 237); try lia; known_bool; reflexivity. }
  cbn [app length char_bounds]. rewrite !cont_low. assert (0 <= cp / 262144 <= 4) by lia.
  assert (cp / 262144 = 0 -> 16 <= cp / 4096 mod 64) by lia. assert (cp / 262144 = 4 -> cp / 4096 mod 64 < 16) by lia. known_bool. cbn [andb].
  destruct (Z.eqb_spec (240 + cp / 262144) 240), (Z.eqb_spec (240 + cp / 262144) 244); try lia; known_bool; reflexivity.
Qed.
Lemma char_decode s n latin : Forall byte s -> char_bounds s = inr (n, latin) -> exists cp rest, valid_char cp /\ s = encode cp ++ rest.
Proof.
  intros F. unfold char_bounds. destruct s as [|b0 s]; [discriminate|]. inversion F as [|? ? B0 F1]; subst. unfold byte in B0.
  destruct (Z.ltb_spec b0 128). { intros _. exists b0, s. split; [left; lia|]. unfold encode. known_bool. reflexivity. }
  destruct (Z.ltb_spec b0 192); [discriminate|]. destruct (Z.ltb_spec b0 224).
  { destruct s as [|b1 s]; [discriminate|]. destruct (cont b1) eqn:C1; [|discriminate]. apply within_spec in C1. destruct (Z.leb_spec 194 b0); [|discriminate].
    intros _. set (cp := (b0 - 192) * 64 + (b1 - 128)). assert (cp / 64 = b0 - 192 /\ cp mod 64 = b1 - 128) as [E1 E2] by lia.
    exists cp, s. split; [left; lia|]. unfold encode. known_bool. rewrite E1, E2. cbn [app]. repeat (f_equal; try lia). }
  destruct (Z.ltb_spec b0 240).
  { destruct s as [|b1 [|b2 s]]; try discriminate. destruct (cont b1) eqn:C1; [|discriminate]. destruct (cont b2) eqn:C2; [|discriminate].
    apply within_spec in C1, C2. cbn [andb]. intros E.
    assert (R : (b0 = 224 -> 160 <= b1) /\ (b0 = 237 -> b1 < 160)).
    { destruct (Z.eqb_spec b0 224), (Z.ltb_spec b1 160), (Z.eqb_spec b0 237), (Z.leb_spec 160 b1); cbn [andb negb] in E; try discriminate; lia. }
    clear E. set (cp := (b0 - 224) * 4096 + (b1 - 128) * 64 + (b2 - 128)).
    assert (cp / 4096 = b0 - 224 /\ cp / 64 mod 64 = b1 - 128 /\ cp mod 64 = b2 - 128) as (E1 & E2 & E3) by lia.
    exists cp, s. split; [unfold valid_char; lia|]. unfold encode. known_bool. rewrite E1, E2, E3. cbn [app]. repeat (f_equal; try lia). }
  destruct (Z.ltb_spec b0 248); [|discriminate]. destruct s as [|b1 [|b2 [|b3 s]]]; try discriminate.
  destruct (cont b1) eqn:C1; [|discriminate]. destruct (cont b2) eqn:C2; [|discriminate]. destruct (cont b3) eqn:C3; [|discriminate].
  apply within_spec in C1, C2, C3. cbn [andb]. intros E.
  assert (R : b0 = 240 /\ 144 <= b1 \/ 240 < b0 < 244 \/ b0 = 244 /\ b1 < 144).
  { destruct (Z.eqb_spec b0 240), (Z.ltb_spec b1 144), (Z.ltb_spec b0 244), (Z.eqb_spec b0 244); cbn [andb orb negb] in E; try discriminate; lia. }
  clear E. set (cp := (b0 - 240) * 262144 + (b1 - 128) * 4096 + (b2 - 128) * 64 + (b3 - 128)).
  assert (cp / 262144 = b0 - 240 /\ cp / 4096 mod 64 = b1 - 128 /\ cp / 64 mod 64 = b2 - 128 /\ cp mod 64 = b3 - 128) as (E1 & E2 & E3 & E4) by lia.
  exists cp, s. split; [unfold valid_char; lia|]. unfold encode. known_bool. rewrite E1, E2, E3, E4. cbn [app]. repeat (f_equal; try lia).
Qed.

(** ** Whole texts *)
Definition starts_char (s : list Z) : Prop := exists cp rest, valid_char cp /\ s = encode cp ++ rest.
Lemma utf8_char_spec s : Forall byte s -> s <> [] ->
  match utf8_char s with
  | inr (n, latin) => exists cp rest, valid_char cp /\ s = encode cp ++ rest /\ n = length (encode cp) /\ latin = (cp <? 256)
  | inl e => ~ starts_char s /\ (e = ERTS_UTF8_INCOMPLETE \/ e = ERTS_UTF8_ERROR)
  end.
Proof.
  intros F N. rewrite utf8_char_bounds by auto. destruct (char_bounds s) as [e|[n latin]] eqn:E.
  - split.
    + intros (cp & rest & V & ->). rewrite char_encode in E by auto. discriminate.
    + revert E. unfold char_bounds. destruct s as [|b0 s]; [congruence|].
      repeat match goal with |- context [match ?x with _ => _ end] => destruct x end; intros [= <-]; auto.
  - destruct (char_decode s n latin F E) as (cp & rest & V & ->). exists cp, rest. rewrite char_encode in E by auto. injection E as <- <-. auto.
Qed.
Lemma encode_length cp : (1 <= length (encode cp) <= 4)%nat /\ (valid_char cp -> (length (encode cp) <=? 2)%nat = (cp <? 0x800)).
Proof. unfold encode, valid_char. destruct (Z.ltb_spec cp 128), (Z.ltb_spec cp 0x800), (Z.ltb_spec cp 0x10000); cbn [length]; split; try lia; reflexivity. Qed.
Lemma encode_all_cons cp cps : encode_all (cp :: cps) = encode cp ++ encode_all cps.
Proof. reflexivity. Qed.
Lemma encode_all_app a b : encode_all (a ++ b) = encode_all a ++ encode_all b.
Proof. unfold encode_all. apply flat_map_app. Qed.
Lemma encode_all_bytes cps : Forall valid_char cps -> Forall byte (encode_all cps).
Proof. induction 1; [constructor|]. rewrite encode_all_cons. apply Forall_app. split; auto. now apply encode_bytes. Qed.
Definition all_latin1 (cps : list Z) : bool := forallb (fun cp => cp <? 256) cps.

(** The loop without a limit on its iterations. *)
Lemma analyze_loop_spec mx fuel : forall s pos num count latin, (length s <= fuel)%nat -> Forall byte s -> mx = 0 \/ num < mx ->
  let a := analyze_loop fuel s pos num None count latin mx in
  exists cps rest, Forall valid_char cps /\ s = encode_all cps ++ rest /\ an_err_pos a = (pos + length (encode_all cps))%nat /\
    an_num_chars a = num + Z.of_nat (length cps) /\ (mx = 0 \/ an_num_chars a <= mx) /\
    ((rest = [] /\ an_result a = ERTS_UTF8_OK /\
      an_latin1 a = Some (if latin && all_latin1 cps then count + Z.of_nat (length cps) else -1)) \/
     (rest <> [] /\ mx <> 0 /\ an_num_chars a = mx /\ an_result a = ERTS_UTF8_OK_MAX_CHARS) \/
     (rest <> [] /\ (mx = 0 \/ an_num_chars a < mx) /\ ~ starts_char rest /\ (an_result a = ERTS_UTF8_INCOMPLETE \/ an_result a = ERTS_UTF8_ERROR))).
Proof.
  induction fuel as [|fuel IH]; intros s pos num count latin Hf F Hm a; subst a; (destruct (list_eq_dec Z.eq_dec s []) as [->|Ns];
    [exists [], []; cbn; splits; auto; try lia; left; rewrite andb_true_r, Z.add_0_r; auto|]).
  { destruct s; [congruence|cbn in Hf; lia]. }
  destruct s as [|b0 s]; [congruence|]. cbn [analyze_loop].
  pose proof (utf8_char_spec (b0 :: s) F Ns) as U. destruct (utf8_char (b0 :: s)) as [e|[n lat]].
  - destruct U as [Us Ue]. exists [], (b0 :: s). cbn. splits; auto; try lia. right. right. splits; auto.
  - destruct U as (cp & rest & V & E & -> & ->). rewrite E in *. rewrite skipn_app, skipn_all, Nat.sub_diag. cbn [app skipn].
    pose proof (proj1 (encode_length cp)). apply Forall_app in F as [_ Fr]. rewrite length_app in Hf.
    destruct (negb (mx =? 0) && (0 <? length rest)%nat && (num + 1 =? mx)) eqn:Emax.
    + apply andb_prop in Emax as [Emax Enum]. apply andb_prop in Emax as [Emx Esz]. apply negb_true_iff, Z.eqb_neq in Emx. apply Nat.ltb_lt in Esz. apply Z.eqb_eq in Enum.
      exists [cp], rest. cbn [an_err_pos an_num_chars an_result an_latin1 length]. rewrite encode_all_cons. cbn [encode_all flat_map]. rewrite ?app_nil_r.
      splits; auto; try lia. right. left. splits; auto. destruct rest; [cbn in Esz; lia|discriminate].
    + assert (Hm' : rest = [] \/ mx = 0 \/ num + 1 < mx).
      { destruct rest; [auto|]. right. apply andb_false_iff in Emax as [Emax|Emax]; [|apply Z.eqb_neq in Emax; lia].
        apply andb_false_iff in Emax as [Emax|Emax]; [apply negb_false_iff, Z.eqb_eq in Emax; auto|apply Nat.ltb_ge in Emax; cbn in Emax; lia]. }
      destruct (list_eq_dec Z.eq_dec rest []) as [->|Nr].
      * replace (analyze_loop fuel [] _ _ _ _ _ _) with (mkAnalysis ERTS_UTF8_OK (pos + length (encode cp)) (num + 1) None
          (Some (if latin && (cp <? 256) then (if (length (encode cp) <=? 2)%nat then count + 1 else count) else -1))) by (destruct fuel; reflexivity).
        exists [cp], []. cbn [an_err_pos an_num_chars an_result an_latin1 length]. rewrite encode_all_cons. cbn [encode_all flat_map]. rewrite ?app_nil_r.
        splits; auto; try lia. left. splits; auto. rewrite (proj2 (encode_length cp) V). cbn [all_latin1 forallb]. rewrite andb_true_r.
        destruct latin, (Z.ltb_spec cp 256), (Z.ltb_spec cp 0x800); cbn [andb]; try lia; reflexivity.
      * destruct Hm' as [?|Hm']; [contradiction|].
        destruct (IH rest (pos + length (encode cp))%nat (num + 1) (if (length (encode cp) <=? 2)%nat then count + 1 else count) (latin && (cp <? 256)) ltac:(lia) Fr Hm')
          as (cps & r & Vs & -> & Ep & En & Hle & D).
        exists (cp :: cps), r. rewrite encode_all_cons, Ep, En, <- app_assoc, length_app in *. cbn [length]. splits; auto; try lia.
        destruct D as [(-> & Er & El)|[D|D]]; [left|right; left|right; right]; [|destruct D as (? & ? & ? & ?); splits; auto; lia|destruct D as (? & ? & ? & ?); splits; auto; lia].
        splits; auto. rewrite El, (proj2 (encode_length cp) V). cbn [all_latin1 forallb]. fold (all_latin1 cps).
        f_equal. destruct latin, (Z.ltb_spec cp 256), (all_latin1 cps), (Z.ltb_spec cp 0x800); cbn [andb]; lia.
Qed.
Lemma starts_encode_all cps s : Forall valid_char cps -> encode_all cps = s -> s <> [] -> starts_char s.
Proof. intros V <- N. destruct V as [|cp cps Vc _]; [contradiction|]. exists cp, (encode_all cps). auto. Qed.
Lemma encode_inj cp cp' r r' : valid_char cp -> valid_char cp' -> encode cp ++ r = encode cp' ++ r' -> cp = cp' /\ r = r'.
Proof.
  intros V V' E. pose proof (char_encode cp r V) as E1. rewrite E, char_encode in E1 by auto. injection E1 as E1 _.
  assert (r = r') as ->. { apply (f_equal (skipn (length (encode cp)))) in E. rewrite <- E1 in E at 2. now rewrite !skipn_app, !skipn_all, !Nat.sub_diag in E. }
  split; auto. apply app_inv_tail in E. revert E. unfold encode.
  destruct (Z.ltb_spec cp 128), (Z.ltb_spec cp' 128), (Z.ltb_spec cp 0x800), (Z.ltb_spec cp' 0x800), (Z.ltb_spec cp 0x10000), (Z.ltb_spec cp' 0x10000);
    try lia; intros E; injection E; intros; lia.
Qed.
Lemma encode_all_inj cps : forall cps' r r', Forall valid_char cps -> Forall valid_char cps' -> ~ starts_char r -> ~ starts_char r' ->
  encode_all cps ++ r = encode_all cps' ++ r' -> cps = cps' /\ r = r'.
Proof.
  induction cps as [|cp cps IH]; intros [|cp' cps'] r r' V V' N N' E.
  - auto.
  - exfalso. apply N. rewrite encode_all_cons, <- app_assoc in E. inversion V'; subst. exists cp', (encode_all cps' ++ r'). auto.
  - exfalso. apply N'. rewrite encode_all_cons, <- app_assoc in E. inversion V; subst. exists cp, (encode_all cps ++ r). auto.
  - rewrite !encode_all_cons, <- !app_assoc in E. inversion V; inversion V'; subst. apply encode_inj in E as [-> E]; auto.
    destruct (IH cps' r r') as [-> ->]; auto.
Qed.
Lemma starts_nil : ~ starts_char [].
Proof. intros (cp & rest & V & E). destruct (encode_bytes cp V) as [_ N]. destruct (encode cp); [congruence|discriminate]. Qed.

(** ** Decoding, from the end *)
Lemma lor_2 a b : 0 <= a -> 0 <= b < 64 -> Z.lor (Z.shiftl a 6) b = a * 64 + b.
Proof. intros. now apply (lor_low a b 6). Qed.
Lemma lor_3 a b c : 0 <= a -> 0 <= b < 64 -> 0 <= c < 64 -> Z.lor (Z.lor (Z.shiftl a 12) (Z.shiftl b 6)) c = a * 4096 + b * 64 + c.
Proof.
  intros. rewrite (Z.shiftl_mul_pow2 b) by lia. rewrite (lor_low a _ 12) by lia.
  replace (a * 2 ^ 12 + b * 2 ^ 6) with (Z.shiftl (a * 64 + b) 6) by (rewrite Z.shiftl_mul_pow2; lia). rewrite lor_2; lia.
Qed.
Lemma lor_4 a b c d : 0 <= a -> 0 <= b < 64 -> 0 <= c < 64 -> 0 <= d < 64 ->
  Z.lor (Z.lor (Z.lor (Z.shiftl a 18) (Z.shiftl b 12)) (Z.shiftl c 6)) d = a * 262144 + b * 4096 + c * 64 + d.
Proof.
  intros. replace (Z.lor (Z.shiftl a 18) (Z.shiftl b 12)) with (Z.shiftl (a * 64 + b) 12).
  - rewrite lor_3; lia.
  - rewrite !(Z.shiftl_mul_pow2 b), (lor_low a _ 18), Z.shiftl_mul_pow2; lia.
Qed.
Ltac masks := rewrite ?mask_80, ?mask_E0, ?mask_F0, ?mask_F8 by (unfold byte; lia); unfold within; known_bool; cbn [andb].
Ltac lows := change 0x1F with (2 ^ 5 - 1); change 0xF with (2 ^ 4 - 1); change 0x7 with (2 ^ 3 - 1); change 0x3F with (2 ^ 6 - 1); rewrite !mask_low by lia.
Lemma decode_char cp before after num ret : valid_char cp ->
  utf8_to_list_loop (rev (encode cp) ++ before) after num ret =
  if num - 1 <=? 0 then (Z.of_nat (length before), cp :: ret) else utf8_to_list_loop before (encode cp ++ after) (num - 1) (cp :: ret).
Proof.
  intros V. unfold valid_char in V.
  assert (skip : forall b before after, cont b = true -> utf8_to_list_loop (b :: before) after num ret = utf8_to_list_loop before (b :: after) num ret).
  { intros b bf af C. apply within_spec in C. cbn [utf8_to_list_loop]. masks. reflexivity. }
  unfold encode. destruct (Z.ltb_spec cp 128).
  { cbn [rev app utf8_to_list_loop]. masks. reflexivity. }
  destruct (Z.ltb_spec cp 0x800).
  { cbn [rev app]. rewrite skip by apply cont_low. cbn [utf8_to_list_loop nth]. masks. lows. rewrite lor_2 by lia.
    replace ((192 + cp / 64) mod 2 ^ 5 * 64 + (128 + cp mod 64) mod 2 ^ 6) with cp by lia. reflexivity. }
  destruct (Z.ltb_spec cp 0x10000).
  { cbn [rev app]. rewrite !skip by apply cont_low. cbn [utf8_to_list_loop nth]. masks. lows. rewrite lor_3 by lia.
    replace ((224 + cp / 4096) mod 2 ^ 4 * 4096 + (128 + cp / 64 mod 64) mod 2 ^ 6 * 64 + (128 + cp mod 64) mod 2 ^ 6) with cp by lia. reflexivity. }
  cbn [rev app]. rewrite !skip by apply cont_low. cbn [utf8_to_list_loop nth]. masks. lows. rewrite lor_4 by lia.
  replace ((240 + cp / 262144) mod 2 ^ 3 * 262144 + (128 + cp / 4096 mod 64) mod 2 ^ 6 * 4096 + (128 + cp / 64 mod 64) mod 2 ^ 6 * 64 + (128 + cp mod 64) mod 2 ^ 6)
    with cp by lia. reflexivity.
Qed.
Lemma decode_loop cps : forall before after ret, Forall valid_char cps -> cps <> [] ->
  utf8_to_list_loop (rev (encode_all cps) ++ before) after (Z.of_nat (length cps)) ret = (Z.of_nat (length before), cps ++ ret).
Proof.
  induction cps as [|cp cps IH] using rev_ind; intros before after ret V N; [congruence|]. apply Forall_app in V as [V Vc]. inversion Vc; subst.
  rewrite encode_all_app, rev_app_distr, <- app_assoc, length_app. cbn [length]. unfold encode_all at 1. cbn [flat_map]. rewrite app_nil_r.
  rewrite decode_char by auto. destruct cps as [|c cps].
  - cbn [length Nat.add]. known_bool. reflexivity.
  - rewrite (proj2 (Z.leb_gt _ _)) by (cbn [length]; lia). replace (Z.of_nat (length (c :: cps) + 1) - 1) with (Z.of_nat (length (c :: cps))) by lia.
    rewrite IH by (auto; discriminate). now rewrite <- app_assoc.
Qed.
Lemma latin1_decode cps : Forall (fun cp => 0 <= cp < 256) cps -> forall fuel, (length (encode_all cps) <= fuel)%nat -> erts_utf8_to_latin1 fuel (encode_all cps) = cps.
Proof.
  induction 1 as [|cp cps V _ IH]; intros fuel Hf; [now destruct fuel|]. rewrite encode_all_cons in *. unfold encode in *.
  rewrite length_app in Hf. destruct (Z.ltb_spec cp 128); cbn [app length] in *.
  - destruct fuel; [lia|]. cbn [erts_utf8_to_latin1]. masks. now rewrite IH by lia.
  - rewrite (proj2 (Z.ltb_lt cp 0x800)) in * by lia. cbn [app length] in *. destruct fuel; [lia|]. cbn [erts_utf8_to_latin1]. masks. cbn [nth skipn].
    rewrite IH by lia. f_equal. change 0xFF with (2 ^ 8 - 1). lows. rewrite lor_2 by lia. lia.
Qed.
