(* ===== verification/Atoms.v ===== *)
(** The atom table of atom.c and the built-in functions on atoms. Locks are not modelled: each
    operation is one step. *)

From S2P Require Import Prelude.
From stdpp Require Import base option list gmap sorting.
From S2P Require Import TermOrder Memory HashTable HashSpec IndexTable Utf8.
Local Open Scope Z_scope.

(** The initial size of the table. *)
Definition ATOM_SIZE : Z := 3000.
(** The largest number of characters. *)
Definition MAX_ATOM_CHARACTERS : Z := 255.
(** The largest number of bytes for Latin-1 characters. *)
Definition MAX_ATOM_SZ_FROM_LATIN1 : Z := 2 * MAX_ATOM_CHARACTERS.
(** The largest number of bytes. *)
Definition MAX_ATOM_SZ_LIMIT : Z := 4 * MAX_ATOM_CHARACTERS.
(** Conversion to a signed 16-bit integer. *)
Definition s16 (z : Z) : Z := let u := z mod 2 ^ 16 in if u <? 2 ^ 15 then u else u - 2 ^ 16.

(** An atom; its length is the one of the name. *)
Record Atom := mkAtom { a_index : Z; latin1_chars : Z; a_ord0 : Z; a_name : list Z }.
#[export] Instance Atom_slot : IndexSlot Atom := {| index := a_index; set_index := fun i a => mkAtom i (latin1_chars a) (a_ord0 a) (a_name a) |}.

(** One round of the hash function on a byte. *)
Definition pjw (h v : Z) : Z :=
  let h := w64 (wshl h 4 + v) in
  let g := Z.land h 0xf0000000 in
  if negb (g =? 0) then Z.lxor (Z.lxor h (Z.shiftr g 24)) g else h.
(** [next]: the byte behind the text, if there is one. A text that ends with a
    byte taken for the first of two makes the loop run on without an end. *)
Fixpoint atom_hash_loop (p : list Z) (next : option Z) (h : Z) : outcome Z :=
  match p with
  | [] => Ok h
  | v :: p =>
      if Z.land v 0xFE =? 0xC2 then
        c ← require (match p with c :: _ => Some c | [] => next end);
        if Z.land c 0xC0 =? 0x80 then
          match p with
          | _ :: p => atom_hash_loop p next (pjw h (Z.land (Z.lor (Z.shiftl v 6) (Z.land c 0x3F)) 0xFF))
          | [] => Undef
          end
        else atom_hash_loop p next (pjw h v)
      else atom_hash_loop p next (pjw h v)
  end.
(** [atom_hash] of a text and the byte behind it. *)
Definition atom_hash (name : list Z) (next : option Z) : outcome Z := atom_hash_loop name next 0.
(** The hash value, which does not depend on the byte behind the text. *)
Definition hash_of (name : list Z) : Z := match atom_hash name (Some 0) with Ok h => h | _ => 0 end.
(** [atom_cmp]. *)
Definition atom_cmp (tmpl obj : Atom) : Z := if same_atom (a_name tmpl) (a_name obj) then 0 else 1.
(** [atom_alloc]: the atom of a template; the space for the texts is not modelled. *)
Definition atom_alloc (tmpl : Atom) : Atom := mkAtom (-1) (latin1_chars tmpl) (ord0 (a_name tmpl)) (a_name tmpl).
(** The callbacks of the table. *)
Definition atom_functions : HashFunctions Atom := mkFun (fun a => hash_of (a_name a)) atom_cmp atom_alloc.

(** The atom table with the memory of its atoms. *)
Definition atom_table : Type := IndexTable * mem (HashBucket Atom).
(** Encodings. *)
Inductive ErtsAtomEncoding := ERTS_ATOM_ENC_7BIT_ASCII | ERTS_ATOM_ENC_LATIN1 | ERTS_ATOM_ENC_UTF8.

(** [latin1_to_utf8], into a buffer of [MAX_ATOM_SZ_FROM_LATIN1] bytes. *)
Definition latin1_to_utf8 (src : list Z) : outcome (list Z) :=
  if existsb (fun c => negb (Z.land c 0x80 =? 0)) src then
    let dst := flat_map (fun chr => if Z.land chr 0x80 =? 0 then [chr] else [Z.lor 0xC0 (Z.shiftr chr 6); Z.lor 0x80 (Z.land chr 0x3F)]) src in
    if MAX_ATOM_SZ_FROM_LATIN1 <? Z.of_nat (length dst) then Undef else Ok dst
  else Ok src.

(** The first [len] bytes at an address. *)
Definition bytes_at (name : list Z) (len : Z) : outcome (list Z) :=
  if Z.of_nat (length name) <? len then Undef else Ok (take (Z.to_nat len) name).
(** A template: the length is a 16-bit integer, and a negative one makes the
    hash function run without an end. *)
Definition template (text : list Z) (tlen no_latin1_chars : Z) : outcome Atom :=
  let len := s16 tlen in
  if len <? 0 then Undef
  else
    name ← bytes_at text len;
    _ ← atom_hash name (text !! Z.to_nat len);
    Ok (mkAtom (-1) no_latin1_chars 0 name).

(** [name]: the memory at the address; [junk]: the initial value of the variable
    no_latin1_chars. The result [None] is THE_NON_VALUE, [Some i] the atom with
    the index i. *)
Definition erts_atom_put (name : list Z) (len : Z) (enc : ErtsAtomEncoding) (trunc : bool) (junk : Z) (st : atom_table) : outcome (atom_table * option Z) :=
  if (len <? 0) && negb trunc then Ok (st, None)
  else
    let tlen := if len <? 0 then 0 else len in
    let limit := match enc with ERTS_ATOM_ENC_UTF8 => MAX_ATOM_SZ_LIMIT | _ => MAX_ATOM_CHARACTERS end in
    if (tlen >? limit) && negb trunc then Ok (st, None)
    else
      let tlen := match enc with ERTS_ATOM_ENC_UTF8 => tlen | _ => if tlen >? limit then MAX_ATOM_CHARACTERS else tlen end in
      '(text, no_latin1_chars, tlen) ←
        match enc with
        | ERTS_ATOM_ENC_7BIT_ASCII => Ok (name, tlen, tlen)
        | ERTS_ATOM_ENC_LATIN1 => src ← bytes_at name tlen; text ← latin1_to_utf8 src; Ok (text, tlen, Z.of_nat (length text))
        | ERTS_ATOM_ENC_UTF8 => Ok (name, junk, tlen)
        end;
      let '(t, m) := st in
      a ← template text tlen no_latin1_chars;
      aix ← index_get atom_functions t a m;
      if aix >=? 0 then Ok (st, Some aix)
      else
        checked ←
          match enc with
          | ERTS_ATOM_ENC_UTF8 =>
              src ← bytes_at text tlen;
              let an := erts_analyze_utf8_x src None MAX_ATOM_CHARACTERS in
              Ok (match an_result an with
                  | ERTS_UTF8_OK => Some (tlen, match an_latin1 an with Some n => n | None => no_latin1_chars end)
                  | ERTS_UTF8_OK_MAX_CHARS => if trunc then Some (Z.of_nat (an_err_pos an), no_latin1_chars) else None
                  | _ => None
                  end)
          | _ => Ok (Some (tlen, no_latin1_chars))
          end;
        match checked with
        | None => Ok (st, None)
        | Some (tlen, no_latin1_chars) =>
            a ← template text tlen (s16 no_latin1_chars);
            '(t, m, aix) ← index_put atom_functions t a m;
            Ok ((t, m), Some aix)
        end.
(** [am_atom_put]. *)
Definition am_atom_put (name : list Z) (len : Z) (st : atom_table) : outcome (atom_table * option Z) :=
  erts_atom_put name len ERTS_ATOM_ENC_7BIT_ASCII true 0 st.
(** [erts_atom_get]. *)
Definition erts_atom_get (name : list Z) (len : Z) (enc : ErtsAtomEncoding) (st : atom_table) : outcome (option Z) :=
  let '(t, m) := st in
  '(text, len) ←
    match enc with
    | ERTS_ATOM_ENC_LATIN1 => src ← bytes_at name len; text ← latin1_to_utf8 src; Ok (text, Z.of_nat (length text))
    | _ => Ok (name, len)
    end;
  a ← template text len 0;
  i ← index_get atom_functions t a m;
  Ok (if i <? 0 then None else Some i).
(** [atom_tab]. *)
Definition atom_tab (i : Z) (st : atom_table) : outcome Atom :=
  let '(t, m) := st in p ← erts_index_lookup t i; o ← load p m; Ok (data o).
(** [atom_table_size]. *)
Definition atom_table_size (st : atom_table) : Z := nentries (fst st).

(** [names]: the texts of erl_atom_names, a generated table. *)
Fixpoint put_ordinary (names : list (list Z)) (st : atom_table) : outcome atom_table :=
  match names with
  | [] => Ok st
  | name :: names =>
      a ← template name (Z.of_nat (length name)) (Z.of_nat (length name));
      '(t, m, _) ← index_put atom_functions (fst st) a (snd st);
      put_ordinary names (t, m)
  end.
(** [init_atom_table]. *)
Definition init_atom_table (erts_atom_table_size : Z) (names : list (list Z)) : outcome atom_table :=
  t ← erts_index_init ATOM_SIZE erts_atom_table_size;
  put_ordinary names (t, Mem 1%positive ∅).

(** ** The built-in functions on atoms *)
(** A list of which each element is a small integer ([Some]) or another term,
    and which may end in a term that is no list. *)
Inductive elist := NIL | CONS (head : option Z) (tail : elist) | OTHER.
Inductive bif_result (A : Type) := Ret (a : A) | BADARG | SYSTEM_LIMIT.
Arguments Ret {A}. Arguments BADARG {A}. Arguments SYSTEM_LIMIT {A}.

(** The loop, with the space left in the buffer. *)
Fixpoint intlist_loop (lst : elist) (len : nat) : option (list Z) :=
  match lst, len with
  | CONS (Some c) tail, S len =>
      if (0 <=? c) && (c <? 256) then
        match tail with
        | NIL => Some [c]
        | CONS _ _ => buf ← intlist_loop tail len; Some (c :: buf)
        | OTHER => None
        end
      else None
  | _, _ => None
  end.
(** [intlist_to_buf]: the bytes written, or None for -1. *)
Definition intlist_to_buf (lst : elist) (len : nat) : option (list Z) :=
  match lst with NIL => Some [] | OTHER => None | CONS _ _ => intlist_loop lst len end.
(** [erts_list_length]: None for an improper list. *)
Fixpoint erts_list_length (lst : elist) : option Z :=
  match lst with NIL => Some 0 | CONS _ tail => n ← erts_list_length tail; Some (n + 1) | OTHER => None end.

(** [atom_to_list_1]. *)
Definition atom_to_list (a : Atom) : list Z :=
  if Z.of_nat (length (a_name a)) =? 0 then []
  else
    let num_chars := an_num_chars (erts_analyze_utf8 (a_name a) None) in
    fst (fst (erts_utf8_to_list num_chars (a_name a) (Z.of_nat (length (a_name a))) [])).
(** [list_to_atom_1]. *)
Definition list_to_atom (lst : elist) (st : atom_table) : outcome (atom_table * bif_result Z) :=
  match intlist_to_buf lst (Z.to_nat MAX_ATOM_CHARACTERS) with
  | None =>
      match erts_list_length lst with
      | Some i => Ok (st, if i >? MAX_ATOM_CHARACTERS then SYSTEM_LIMIT else BADARG)
      | None => Ok (st, BADARG)
      end
  | Some buf =>
      '(st, res) ← erts_atom_put buf (Z.of_nat (length buf)) ERTS_ATOM_ENC_LATIN1 true 0 st;
      i ← require res; Ok (st, Ret i)
  end.
(** [list_to_existing_atom_1]. *)
Definition list_to_existing_atom (lst : elist) (st : atom_table) : outcome (bif_result Z) :=
  match intlist_to_buf lst (Z.to_nat MAX_ATOM_CHARACTERS) with
  | None => Ok BADARG
  | Some buf => res ← erts_atom_get buf (Z.of_nat (length buf)) ERTS_ATOM_ENC_LATIN1 st; Ok (match res with Some i => Ret i | None => BADARG end)
  end.

Inductive encoding := enc_latin1 | enc_utf8 | enc_other.
(** The check that a binary holds at most 255 characters, all of them Latin-1. *)
Fixpoint latin1_subset (fuel : nat) (p : list Z) (num_chars : Z) : bif_result unit :=
  match fuel, p with
  | S fuel, b :: p =>
      if num_chars + 1 >? MAX_ATOM_CHARACTERS then SYSTEM_LIMIT
      else if Z.land b 0x80 =? 0 then latin1_subset fuel p (num_chars + 1)
      else
        match p with
        | c :: p => if (Z.land b 0xFE =? 0xC2) && (Z.land c 0xC0 =? 0x80) then latin1_subset fuel p (num_chars + 1) else BADARG
        | [] => BADARG
        end
  | _, _ => Ret tt
  end.
(** A new atom, or one that must exist. *)
Definition put_or_get (bytes : list Z) (enc : ErtsAtomEncoding) (must_exist : bool) (st : atom_table) : outcome (atom_table * bif_result Z) :=
  let len := Z.of_nat (length bytes) in
  if must_exist then res ← erts_atom_get bytes len enc st; Ok (st, match res with Some i => Ret i | None => BADARG end)
  else '(st, res) ← erts_atom_put bytes len enc false 0 st; Ok (st, match res with Some i => Ret i | None => BADARG end).
(** [binary_to_atom] on a binary with these bytes. *)
Definition binary_to_atom (bytes : list Z) (enc : encoding) (must_exist : bool) (st : atom_table) : outcome (atom_table * bif_result Z) :=
  match enc with
  | enc_latin1 => if Z.of_nat (length bytes) >? MAX_ATOM_CHARACTERS then Ok (st, SYSTEM_LIMIT) else put_or_get bytes ERTS_ATOM_ENC_LATIN1 must_exist st
  | enc_utf8 =>
      match latin1_subset (length bytes) bytes 0 with
      | Ret _ => put_or_get bytes ERTS_ATOM_ENC_UTF8 must_exist st
      | BADARG => Ok (st, BADARG)
      | SYSTEM_LIMIT => Ok (st, SYSTEM_LIMIT)
      end
  | enc_other => Ok (st, BADARG)
  end.
(** [atom_to_binary_2]. *)
Definition atom_to_binary (a : Atom) (enc : encoding) : bif_result (list Z) :=
  match enc with
  | enc_latin1 =>
      if latin1_chars a <? 0 then BADARG
      else if latin1_chars a =? Z.of_nat (length (a_name a)) then Ret (a_name a)
      else Ret (erts_utf8_to_latin1 (length (a_name a)) (a_name a))
  | enc_utf8 => Ret (a_name a)
  | enc_other => BADARG
  end.
