(* ===== verification/AtomSpec.v ===== *)
(** The invariant [atoms_ok] of the atom table and what putting and getting a name does, by
    encoding. *)

From S2P Require Import Prelude.
From stdpp Require Import base option list gmap sorting.
From S2P Require Import TermOrder Memory HashTable HashSpec IndexTable Utf8 Atoms.
Local Open Scope Z_scope.

(** ** The hash function *)
Lemma pjw_nonneg h v : 0 <= pjw h v.
Proof.
  unfold pjw. pose proof (w64_range (wshl h 4 + v)) as R. set (u := w64 _) in *. destruct (negb _); [|lia].
  assert (0 <= Z.land u 4026531840) by (apply Z.land_nonneg; lia). rewrite !Z.lxor_nonneg, Z.shiftr_nonneg. lia.
Qed.
Lemma atom_hash_nonneg n : forall p next h r, (length p <= n)%nat -> 0 <= h -> atom_hash_loop p next h = Ok r -> 0 <= r.
Proof.
  induction n as [|n IH]; intros p next h r Hn Hh; destruct p as [|v p]; cbn [length] in Hn; try lia; cbn [atom_hash_loop]; try (intros [= <-]; lia).
  destruct (Z.land v 254 =? 194); [|apply IH; [lia|apply pjw_nonneg]].
  destruct (match p with c :: _ => Some c | [] => next end) as [c|]; cbn [require mbind outcome_bind]; [|discriminate].
  destruct (Z.land c 192 =? 128); [|apply IH; [lia|apply pjw_nonneg]].
  destruct p as [|d p]; [discriminate|]. cbn [length] in Hn. apply IH; [lia|apply pjw_nonneg].
Qed.
Lemma hash_of_nonneg name : 0 <= hash_of name.
Proof.
  unfold hash_of. destruct (atom_hash name (Some 0)) as [h| |] eqn:E; try lia. eapply (atom_hash_nonneg (length name)); [reflexivity| |exact E]. lia.
Qed.
Lemma mask_FE b : byte b -> (Z.land b 0xFE =? 0xC2) = within 194 b 196. Proof. revert b. now apply byte_eq. Qed.
Lemma hash_encode cp next h : valid_char cp -> exists h', forall rest, atom_hash_loop (encode cp ++ rest) next h = atom_hash_loop rest next h'.
Proof.
  intros V. unfold valid_char in V.
  assert (plain : forall b, byte b -> ~ (194 <= b < 196) -> forall rest h, atom_hash_loop (b :: rest) next h = atom_hash_loop rest next (pjw h b)).
  { intros b B N rest h0. cbn [atom_hash_loop]. rewrite mask_FE by auto. destruct (within 194 b 196) eqn:W; [|reflexivity]. apply within_spec in W. lia. }
  unfold encode. destruct (Z.ltb_spec cp 128).
  { eexists. intros rest. cbn [app]. rewrite plain by (unfold byte; lia). reflexivity. }
  destruct (Z.ltb_spec cp 0x800).
  { destruct (decide (cp / 64 < 4)) as [Hl|Hh].
    - eexists. intros rest. cbn [app atom_hash_loop]. rewrite mask_FE, (proj2 (within_spec _ _ _)) by (unfold byte; lia). cbn [require mbind outcome_bind].
      rewrite mask_C0 by (unfold byte; lia). fold (cont (128 + cp mod 64)). rewrite cont_low. reflexivity.
    - eexists. intros rest. cbn [app]. rewrite !plain by (unfold byte; lia). reflexivity. }
  destruct (Z.ltb_spec cp 0x10000); eexists; intros rest; cbn [app]; rewrite !plain by (unfold byte; lia); reflexivity.
Qed.
Lemma hash_encode_all cps : Forall valid_char cps -> forall next h, exists r, atom_hash_loop (encode_all cps) next h = Ok r.
Proof.
  induction 1 as [|cp cps V _ IH]; intros next h; [eexists; reflexivity|]. rewrite encode_all_cons.
  destruct (hash_encode cp next h V) as [h' E]. rewrite E. apply IH.
Qed.

(** ** Atoms as the keys of an index table *)
#[export] Instance atom_hash_laws : HashLaws atom_functions a_name.
Proof.
  split; cbn; intros; auto.
  - apply hash_of_nonneg.
  - unfold atom_cmp. destruct (same_atom (a_name a) (a_name b)) eqn:E.
    + apply same_atom_spec in E. tauto.
    + split; [discriminate|]. intros Ek%same_atom_spec. congruence.
  - now rewrite H.
Qed.
#[export] Instance atom_index_laws : IndexLaws atom_functions a_name.
Proof. split; reflexivity. Qed.

(** ** The table as the list of its atoms *)
Definition latin_count (cps : list Z) : Z := if all_latin1 cps then Z.of_nat (length cps) else -1.
Definition text_of (name : list Z) (cps : list Z) : Prop := Forall valid_char cps /\ (length cps <= 255)%nat /\ name = encode_all cps.
Definition proper (a : Atom) : Prop := exists cps, text_of (a_name a) cps /\ latin1_chars a = latin_count cps /\ a_ord0 a = ord0 (a_name a).
Definition atoms_ok (st : atom_table) (l : list (ptr * Atom)) : Prop := irep atom_functions a_name (fst st) (snd st) l /\ Forall (fun x => proper x.2) l.
Definition full (st : atom_table) : bool := (nentries (fst st) =? isize (fst st)) && (limit (fst st) <=? isize (fst st)).
(** The atom with a text: the one that is there, or a new one at the end. *)
Definition fresh_atom (st : atom_table) (cps : list Z) : outcome (atom_table * option Z) :=
  '(t, m, aix) ← index_put atom_functions (fst st) (mkAtom (-1) (s16 (latin_count cps)) 0 (encode_all cps)) (snd st); Ok ((t, m), Some aix).
Definition interned (st : atom_table) (l : list (ptr * Atom)) (cps : list Z) : outcome (atom_table * option Z) :=
  match position a_name (encode_all cps) l with Some i => Ok (st, Some (Z.of_nat i)) | None => fresh_atom st cps end.

Lemma encode_all_length cps : (length cps <= length (encode_all cps) <= 4 * length cps)%nat.
Proof. induction cps as [|cp cps IH]; [cbn; lia|]. rewrite encode_all_cons, length_app. pose proof (proj1 (encode_length cp)). cbn [length]. lia. Qed.
Lemma s16_small z : 0 <= z < 2 ^ 15 -> s16 z = z.
Proof. intros H. unfold s16. rewrite Z.mod_small by lia. now rewrite (proj2 (Z.ltb_lt _ _)) by lia. Qed.
Lemma bytes_at_app a rest : bytes_at (a ++ rest) (Z.of_nat (length a)) = Ok a.
Proof. unfold bytes_at. rewrite length_app, (proj2 (Z.ltb_ge _ _)) by lia. now rewrite Nat2Z.id, take_app_length. Qed.
Lemma template_spec name cps rest n : text_of name cps -> template (name ++ rest) (Z.of_nat (length name)) n = Ok (mkAtom (-1) n 0 name).
Proof.
  intros (V & Hl & ->). pose proof (encode_all_length cps). unfold template. rewrite s16_small by lia. rewrite (proj2 (Z.ltb_ge _ _)) by lia.
  rewrite bytes_at_app. cbn [mbind outcome_bind]. destruct (hash_encode_all cps V ((encode_all cps ++ rest) !! Z.to_nat (Z.of_nat (length (encode_all cps)))) 0) as [r E].
  unfold atom_hash. rewrite E. reflexivity.
Qed.
(** The search and the insertion at the end of erts_atom_put. *)
Lemma intern_get st l cps n : atoms_ok st l -> index_get atom_functions (fst st) (mkAtom (-1) n 0 (encode_all cps)) (snd st) =
  Ok (match position a_name (encode_all cps) l with Some i => Z.of_nat i | None => -1 end).
Proof. intros [R _]. now rewrite (index_get_spec atom_functions a_name _ _ _ _ R). Qed.
Lemma fresh_spec st l cps : atoms_ok st l -> Forall valid_char cps -> (length cps <= 255)%nat -> position a_name (encode_all cps) l = None ->
  if full st then fresh_atom st cps = Erl_exit
  else exists st' p, fresh_atom st cps = Ok (st', Some (Z.of_nat (length l))) /\ limit (fst st') = limit (fst st) /\
    atoms_ok st' (l ++ [(p, mkAtom (Z.of_nat (length l)) (latin_count cps) (ord0 (encode_all cps)) (encode_all cps))]).
Proof.
  intros [R G] V Hl Hp. unfold fresh_atom, index_put.
  pose proof (index_put_spec atom_functions a_name _ _ _ (mkAtom (-1) (s16 (latin_count cps)) 0 (encode_all cps)) R) as P.
  cbn [a_name] in P. rewrite Hp in P. unfold full. destruct (_ && _); [now rewrite P|].
  destruct P as (t' & m' & p & E & El & _ & R'). rewrite E. cbn [mbind outcome_bind].
  assert (Hs : s16 (latin_count cps) = latin_count cps).
  { unfold latin_count. destruct (all_latin1 cps); [apply s16_small; lia|reflexivity]. }
  cbn [atom_functions fun_alloc atom_alloc set_index Atom_slot latin1_chars a_ord0 a_name] in R'. rewrite Hs, (ir_count _ _ _ _ _ R) in R'.
  destruct (ir_slot _ _ _ _ _ R' (length l) p _ ltac:(rewrite lookup_app_r, Nat.sub_diag by lia; reflexivity)) as (_ & _ & o & Ho & Ed).
  unfold load. rewrite Ho. cbn [require mbind outcome_bind]. rewrite Ed. exists (t', m'), p. splits; auto. split; [exact R'|].
  apply Forall_app. split; auto. constructor; [|constructor]. exists cps. unfold text_of. auto.
Qed.

(** ** Putting atoms, in each encoding *)
Lemma all_latin1_app a b : all_latin1 (a ++ b) = all_latin1 a && all_latin1 b.
Proof. apply forallb_app. Qed.
(** A valid text of at most 255 characters passes the check. *)
Lemma check_valid cps : Forall valid_char cps -> (length cps <= 255)%nat ->
  let an := erts_analyze_utf8_x (encode_all cps) None MAX_ATOM_CHARACTERS in an_result an = ERTS_UTF8_OK /\ an_latin1 an = Some (latin_count cps).
Proof.
  intros V Hl an. subst an. unfold erts_analyze_utf8_x, analyze_utf8, MAX_ATOM_CHARACTERS.
  destruct (analyze_loop_spec 255 (length (encode_all cps)) (encode_all cps) 0 0 0 true ltac:(lia) (encode_all_bytes cps V) ltac:(lia))
    as (cps' & rest & V' & E & _ & En & Hle & D).
  destruct D as [(-> & Er & El)|[(Nr & _ & Em & _)|(Nr & _ & Ns & _)]].
  - rewrite <- (app_nil_r (encode_all cps)) in E. destruct (encode_all_inj cps cps' [] [] V V' starts_nil starts_nil E) as [<- _]. rewrite Er, El. auto.
  - exfalso. assert (Hp : exists tl, cps = cps' ++ tl).
    { clear - V V' E. revert cps V E. induction V' as [|cp' cps' Vc _ IH]; intros cps V E; [exists cps; auto|].
      rewrite encode_all_cons, <- app_assoc in E. destruct V as [|cp cps Vcp V]; [destruct (encode_bytes cp' Vc) as [_ N]; destruct (encode cp'); [congruence|discriminate]|].
      rewrite encode_all_cons in E. apply encode_inj in E as [-> E]; auto. destruct (IH cps V E) as [tl ->]. exists tl. auto. }
    destruct Hp as [tl ->]. rewrite length_app in Hl. rewrite encode_all_app in E. apply app_inv_head in E. destruct tl; [cbn in E; congruence|cbn [length] in Hl; lia].
  - exfalso. rewrite <- (app_nil_r (encode_all cps)) in E. destruct (encode_all_inj cps cps' [] rest V V' starts_nil Ns E) as [_ <-]. congruence.
Qed.
Lemma put_utf8 st l cps rest trunc junk : atoms_ok st l -> Forall valid_char cps -> (length cps <= 255)%nat ->
  erts_atom_put (encode_all cps ++ rest) (Z.of_nat (length (encode_all cps))) ERTS_ATOM_ENC_UTF8 trunc junk st = interned st l cps.
Proof.
  intros A V Hl. pose proof (encode_all_length cps). unfold erts_atom_put. set (len := Z.of_nat (length (encode_all cps))).
  rewrite (proj2 (Z.ltb_ge _ _)) by lia. cbn [andb]. rewrite Z.gtb_ltb, (proj2 (Z.ltb_ge _ _)) by (unfold MAX_ATOM_SZ_LIMIT, MAX_ATOM_CHARACTERS; lia). cbn [andb mbind outcome_bind].
  destruct st as [t m]. unfold len. rewrite (template_spec (encode_all cps) cps rest) by (split; auto). cbn [mbind outcome_bind].
  pose proof (intern_get (t, m) l cps junk A) as G. cbn [fst snd] in G. rewrite G. cbn [mbind outcome_bind].
  destruct (position a_name (encode_all cps) l) as [i|] eqn:Hp.
  { rewrite Z.geb_leb, (proj2 (Z.leb_le _ _)) by lia. unfold interned. now rewrite Hp. }
  cbn [Z.geb Z.compare]. rewrite bytes_at_app. cbn [mbind outcome_bind]. destruct (check_valid cps V Hl) as [-> ->].
  rewrite (template_spec (encode_all cps) cps rest) by (split; auto). unfold interned. now rewrite Hp.
Qed.
Lemma latin1_conversion bs : Forall byte bs -> (length bs <= 255)%nat -> latin1_to_utf8 bs = Ok (encode_all bs).
Proof.
  intros F Hl. unfold latin1_to_utf8.
  assert (Ef : flat_map (fun chr => if Z.land chr 0x80 =? 0 then [chr] else [Z.lor 0xC0 (Z.shiftr chr 6); Z.lor 0x80 (Z.land chr 0x3F)]) bs = encode_all bs).
  { unfold encode_all. clear Hl. induction F as [|b bs B _ IH]; [reflexivity|]. cbn [flat_map]. rewrite IH. f_equal. rewrite mask_80 by auto. unfold encode, byte in *.
    destruct (Z.ltb_spec b 128); [reflexivity|]. rewrite (proj2 (Z.ltb_lt b 0x800)) by lia. f_equal; [|f_equal].
    - rewrite Z.shiftr_div_pow2 by lia. change (Z.lor 0xC0) with (Z.lor (Z.shiftl 3 6)). rewrite lor_low by lia. lia.
    - change 0x3F with (2 ^ 6 - 1). rewrite mask_low by lia. change (Z.lor 0x80) with (Z.lor (Z.shiftl 2 6)). rewrite lor_low by lia. lia. }
  assert (Hlen : (length (encode_all bs) <= 2 * length bs)%nat).
  { clear - F. induction F as [|b bs B _ IH]; [cbn; lia|]. rewrite encode_all_cons, length_app. cbn [length]. unfold encode, byte in *.
    rewrite (proj2 (Z.ltb_lt b 0x800)) by lia. destruct (b <? 128); cbn [length]; lia. }
  destruct (existsb _ bs) eqn:Eb.
  - rewrite Ef, (proj2 (Z.ltb_ge _ _)) by (unfold MAX_ATOM_SZ_FROM_LATIN1, MAX_ATOM_CHARACTERS; lia). reflexivity.
  - f_equal. rewrite <- Ef. clear - Eb. induction bs as [|b bs IH]; [reflexivity|]. cbn [existsb flat_map] in *. apply orb_false_iff in Eb as [E Eb].
    apply negb_false_iff in E. rewrite E. cbn [app]. now rewrite <- IH.
Qed.
Lemma latin1_valid bs : Forall byte bs -> Forall valid_char bs /\ latin_count bs = Z.of_nat (length bs).
Proof.
  intros F. split; [eapply Forall_impl; [exact F|]; unfold byte, valid_char; lia|]. unfold latin_count.
  replace (all_latin1 bs) with true; auto. symmetry. apply forallb_forall. intros b Hb. rewrite List.Forall_forall in F. apply Z.ltb_lt. now apply F.
Qed.
Lemma put_latin1 st l bs rest trunc junk : atoms_ok st l -> Forall byte bs -> (length bs <= 255)%nat ->
  erts_atom_put (bs ++ rest) (Z.of_nat (length bs)) ERTS_ATOM_ENC_LATIN1 trunc junk st = interned st l bs.
Proof.
  intros A F Hl. destruct (latin1_valid bs F) as [V Ec]. unfold erts_atom_put. rewrite (proj2 (Z.ltb_ge _ _)) by lia. cbn [andb].
  rewrite Z.gtb_ltb, (proj2 (Z.ltb_ge _ _)) by (unfold MAX_ATOM_CHARACTERS; lia). cbn [andb].
  rewrite bytes_at_app. cbn [mbind outcome_bind]. rewrite latin1_conversion by auto. cbn [mbind outcome_bind]. destruct st as [t m].
  rewrite <- (app_nil_r (encode_all bs)) at 1. rewrite (template_spec (encode_all bs) bs []) by (split; auto). cbn [mbind outcome_bind].
  pose proof (intern_get (t, m) l bs (Z.of_nat (length bs)) A) as G. cbn [fst snd] in G. rewrite G. cbn [mbind outcome_bind].
  destruct (position a_name (encode_all bs) l) as [i|] eqn:Hp.
  { rewrite Z.geb_leb, (proj2 (Z.leb_le _ _)) by lia. unfold interned. now rewrite Hp. }
  cbn [Z.geb Z.compare mbind outcome_bind]. rewrite <- (app_nil_r (encode_all bs)) at 1. rewrite (template_spec (encode_all bs) bs []) by (split; auto).
  cbn [mbind outcome_bind]. unfold interned, fresh_atom. now rewrite Hp, Ec.
Qed.
Lemma ascii_encode bs : Forall (fun b => 0 <= b < 128) bs -> encode_all bs = bs.
Proof.
  induction 1 as [|b bs B _ IH]; [reflexivity|]. rewrite encode_all_cons, IH. unfold encode. now rewrite (proj2 (Z.ltb_lt b 128)) by lia.
Qed.
Lemma put_ascii st l bs rest trunc junk : atoms_ok st l -> Forall (fun b => 0 <= b < 128) bs -> (length bs <= 255)%nat ->
  erts_atom_put (bs ++ rest) (Z.of_nat (length bs)) ERTS_ATOM_ENC_7BIT_ASCII trunc junk st = interned st l bs.
Proof.
  intros A F Hl. assert (Fb : Forall byte bs) by (eapply Forall_impl; [exact F|]; unfold byte; lia).
  destruct (latin1_valid bs Fb) as [V Ec]. pose proof (ascii_encode bs F) as Ee. unfold erts_atom_put. rewrite (proj2 (Z.ltb_ge _ _)) by lia. cbn [andb].
  rewrite Z.gtb_ltb, (proj2 (Z.ltb_ge _ _)) by (unfold MAX_ATOM_CHARACTERS; lia). cbn [andb mbind outcome_bind]. destruct st as [t m].
  assert (T : text_of bs bs) by (split; auto). rewrite (template_spec bs bs rest (Z.of_nat (length bs)) T). cbn [mbind outcome_bind].
  pose proof (intern_get (t, m) l bs (Z.of_nat (length bs)) A) as G. rewrite Ee in G. cbn [fst snd] in G. rewrite G. cbn [mbind outcome_bind].
  unfold interned. rewrite Ee. destruct (position a_name bs l) as [i|] eqn:Hp.
  { now rewrite Z.geb_leb, (proj2 (Z.leb_le _ _)) by lia. }
  cbn [Z.geb Z.compare mbind outcome_bind]. rewrite (template_spec bs bs rest _ T). cbn [mbind outcome_bind].
  unfold fresh_atom. now rewrite Ec, Ee.
Qed.

(** ** Refused texts, lookups *)
Lemma proper_position st l src : atoms_ok st l -> (forall cps, ~ text_of src cps) -> position a_name src l = None.
Proof.
  intros [_ G] N. destruct (position a_name src l) as [i|] eqn:E; auto. destruct (position_Some _ _ _ _ E) as (p & a & Hi & <-).
  apply list_elem_of_lookup_2, list_elem_of_In in Hi. rewrite List.Forall_forall in G. destruct (G _ Hi) as (cps & T & _). now destruct (N cps).
Qed.
Lemma template_any src rest n h : Z.of_nat (length src) < 2 ^ 15 -> atom_hash src (head rest) = Ok h ->
  template (src ++ rest) (Z.of_nat (length src)) n = Ok (mkAtom (-1) n 0 src).
Proof.
  intros Hl Eh. unfold template. rewrite s16_small by lia. rewrite (proj2 (Z.ltb_ge _ _)) by lia. rewrite bytes_at_app. cbn [mbind outcome_bind].
  rewrite Nat2Z.id, lookup_app_r, Nat.sub_diag by lia. replace (rest !! 0%nat) with (head rest) by (now destruct rest). now rewrite Eh.
Qed.
Lemma put_utf8_refused st l src rest junk h : atoms_ok st l -> Forall byte src -> atom_hash src (head rest) = Ok h -> (forall cps, ~ text_of src cps) ->
  erts_atom_put (src ++ rest) (Z.of_nat (length src)) ERTS_ATOM_ENC_UTF8 false junk st = Ok (st, None).
Proof.
  intros A F Eh N. unfold erts_atom_put. rewrite (proj2 (Z.ltb_ge _ _)) by lia. cbn [andb]. rewrite Z.gtb_ltb.
  destruct (Z.ltb_spec MAX_ATOM_SZ_LIMIT (Z.of_nat (length src))) as [|Hl]; cbn [andb negb]; [reflexivity|]. unfold MAX_ATOM_SZ_LIMIT, MAX_ATOM_CHARACTERS in Hl.
  cbn [mbind outcome_bind]. destruct st as [t m]. rewrite (template_any src rest junk h) by (auto; lia). cbn [mbind outcome_bind].
  pose proof (index_get_spec atom_functions a_name t m l (mkAtom (-1) junk 0 src) (proj1 A)) as G. cbn [a_name] in G. rewrite (proper_position _ _ _ A N) in G.
  rewrite G. cbn [mbind outcome_bind Z.geb Z.compare]. rewrite bytes_at_app. cbn [mbind outcome_bind].
  unfold erts_analyze_utf8_x, analyze_utf8, MAX_ATOM_CHARACTERS.
  destruct (analyze_loop_spec 255 (length src) src 0 0 0 true ltac:(lia) F ltac:(lia)) as (cps & r & V & E & _ & En & Hle & D).
  destruct D as [(-> & Er & _)|[(_ & _ & _ & ->)|(_ & _ & _ & [->| ->])]]; [|reflexivity..].
  exfalso. apply (N cps). rewrite app_nil_r in E. split; auto. split; auto. lia.
Qed.
(** The hash function leaves a text that ends with a byte taken for the first
    of two, unless the byte behind it shows that it is not. *)
Definition hash_overruns (src : list Z) (next : option Z) : bool :=
  match last src, next with
  | Some v, Some c => (Z.land v 0xFE =? 0xC2) && (Z.land c 0xC0 =? 0x80)
  | Some v, None => Z.land v 0xFE =? 0xC2
  | None, _ => false
  end.
Lemma hash_overruns_cons v p next : p <> [] -> hash_overruns (v :: p) next = hash_overruns p next.
Proof. unfold hash_overruns. destruct p; [done|reflexivity]. Qed.
Lemma continuation_no_lead c : byte c -> Z.land c 0xC0 = 0x80 -> (Z.land c 0xFE =? 0xC2) = false.
Proof.
  intros B Ec. assert (T : (Z.land c 0xC0 =? 0x80) && (Z.land c 0xFE =? 0xC2) = false) by (clear Ec; revert c B; now apply byte_eq).
  now rewrite Ec in T.
Qed.
Lemma atom_hash_total n : forall p next h, (length p <= n)%nat -> Forall byte p ->
  if hash_overruns p next then atom_hash_loop p next h = Undef else exists r, atom_hash_loop p next h = Ok r.
Proof.
  induction n as [|n IH]; intros p next h Hn F; destruct p as [|v p]; cbn [length] in Hn; try lia; cbn [atom_hash_loop]; try (cbn; eauto; fail).
  inversion F as [|? ? Bv F']; subst.
  assert (Step : forall h, p <> [] -> if hash_overruns (v :: p) next then atom_hash_loop p next h = Undef else exists r, atom_hash_loop p next h = Ok r).
  { intros h' Hp. rewrite hash_overruns_cons by auto. apply IH; auto; lia. }
  destruct (Z.land v 0xFE =? 0xC2) eqn:Ev.
  - destruct p as [|c p].
    + unfold hash_overruns. cbn [last]. rewrite Ev. destruct next as [c|]; cbn [require mbind outcome_bind andb]; [|reflexivity].
      destruct (Z.land c 0xC0 =? 0x80); [reflexivity|]. cbn. eauto.
    + cbn [require mbind outcome_bind]. destruct (Z.land c 0xC0 =? 0x80) eqn:Ec; [|now apply Step].
      inversion F' as [|? ? Bc F'']; subst. rewrite hash_overruns_cons by done. destruct p as [|d p].
      * unfold hash_overruns. cbn [last]. apply Z.eqb_eq in Ec. rewrite (continuation_no_lead c Bc Ec). cbn. destruct next; eauto.
      * rewrite hash_overruns_cons by done. apply IH; auto. cbn [length] in *. lia.
  - destruct p as [|c p]; [|now apply Step]. unfold hash_overruns. cbn [last]. rewrite Ev. cbn. destruct next; eauto.
Qed.

Lemma put_utf8_overrun st src rest junk : Forall byte src -> hash_overruns src (head rest) = true -> Z.of_nat (length src) <= MAX_ATOM_SZ_LIMIT ->
  erts_atom_put (src ++ rest) (Z.of_nat (length src)) ERTS_ATOM_ENC_UTF8 false junk st = Undef.
Proof.
  intros F Ho Hl. pose proof (atom_hash_total (length src) src (head rest) 0 ltac:(lia) F) as Hh. rewrite Ho in Hh.
  unfold erts_atom_put. rewrite (proj2 (Z.ltb_ge _ _)) by lia. cbn [andb]. rewrite Z.gtb_ltb, (proj2 (Z.ltb_ge _ _)) by lia.
  cbn [andb mbind outcome_bind]. destruct st as [t m]. unfold MAX_ATOM_SZ_LIMIT, MAX_ATOM_CHARACTERS in Hl.
  unfold template. rewrite s16_small by lia. rewrite (proj2 (Z.ltb_ge _ _)) by lia. rewrite bytes_at_app. cbn [mbind outcome_bind].
  rewrite Nat2Z.id, lookup_app_r, Nat.sub_diag by lia. replace (rest !! 0%nat) with (head rest) by (now destruct rest).
  unfold atom_hash. now rewrite Hh.
Qed.
Lemma put_utf8_long st src rest junk : MAX_ATOM_SZ_LIMIT < Z.of_nat (length src) ->
  erts_atom_put (src ++ rest) (Z.of_nat (length src)) ERTS_ATOM_ENC_UTF8 false junk st = Ok (st, None).
Proof.
  intros Hl. unfold erts_atom_put. rewrite (proj2 (Z.ltb_ge _ _)) by lia. cbn [andb]. now rewrite Z.gtb_ltb, (proj2 (Z.ltb_lt _ _)) by lia.
Qed.

Lemma get_utf8 st l cps rest : atoms_ok st l -> Forall valid_char cps -> (length cps <= 255)%nat ->
  erts_atom_get (encode_all cps ++ rest) (Z.of_nat (length (encode_all cps))) ERTS_ATOM_ENC_UTF8 st = Ok (Z.of_nat <$> position a_name (encode_all cps) l).
Proof.
  intros A V Hl. unfold erts_atom_get. destruct st as [t m]. cbn [mbind outcome_bind]. rewrite (template_spec (encode_all cps) cps rest) by (split; auto). cbn [mbind outcome_bind].
  pose proof (intern_get (t, m) l cps 0 A) as G. cbn [fst snd] in G. rewrite G. cbn [mbind outcome_bind]. destruct (position _ _ l); [|reflexivity].
  now rewrite (proj2 (Z.ltb_ge _ _)) by lia.
Qed.
Lemma get_latin1 st l bs rest : atoms_ok st l -> Forall byte bs -> (length bs <= 255)%nat ->
  erts_atom_get (bs ++ rest) (Z.of_nat (length bs)) ERTS_ATOM_ENC_LATIN1 st = Ok (Z.of_nat <$> position a_name (encode_all bs) l).
Proof.
  intros A F Hl. destruct (latin1_valid bs F) as [V _]. unfold erts_atom_get. destruct st as [t m]. rewrite bytes_at_app. cbn [mbind outcome_bind].
  rewrite latin1_conversion by auto. cbn [mbind outcome_bind]. rewrite <- (app_nil_r (encode_all bs)) at 1. rewrite (template_spec (encode_all bs) bs []) by (split; auto). cbn [mbind outcome_bind].
  pose proof (intern_get (t, m) l bs 0 A) as G. cbn [fst snd] in G. rewrite G. cbn [mbind outcome_bind]. destruct (position _ _ l); [|reflexivity].
  now rewrite (proj2 (Z.ltb_ge _ _)) by lia.
Qed.
Lemma atom_tab_spec st l i p a : atoms_ok st l -> l !! i = Some (p, a) -> atom_tab (Z.of_nat i) st = Ok a.
Proof.
  intros [R _] Hi. unfold atom_tab. destruct st as [t m]. destruct (index_lookup_spec atom_functions a_name t m l i p a R Hi) as (E & o & Ho & Ed).
  rewrite E. cbn [mbind outcome_bind]. unfold load. cbn [snd] in Ho. rewrite Ho. cbn. now rewrite Ed.
Qed.

(** ** The initial table *)
Lemma put_ordinary_spec names : forall st l, atoms_ok st l -> Forall (fun b => Forall (fun c => 0 <= c < 128) b /\ (length b <= 255)%nat) names -> NoDup (map (fun x => a_name x.2) l ++ names) ->
  Z.of_nat (length l + length names) <= limit (fst st) ->
  exists st' l', put_ordinary names st = Ok st' /\ atoms_ok st' l' /\ limit (fst st') = limit (fst st) /\ map (fun x => a_name x.2) l' = map (fun x => a_name x.2) l ++ names.
Proof.
  induction names as [|name names IH]; intros st l A F Nd Hl; cbn [put_ordinary].
  - exists st, l. rewrite app_nil_r. auto.
  - inversion F as [|? ? [Fa Hn] F']; subst. destruct A as [R G]. assert (A : atoms_ok st l) by (split; auto).
    assert (Fb : Forall byte name) by (eapply Forall_impl; [exact Fa|]; unfold byte; lia). destruct (latin1_valid name Fb) as [V Ec].
    pose proof (ascii_encode name Fa) as Ee.
    pose proof (template_spec name name [] (Z.of_nat (length name)) ltac:(split; auto)) as T. rewrite app_nil_r in T. rewrite T. cbn [mbind outcome_bind].
    assert (Hp : position a_name (encode_all name) l = None).
    { destruct (position a_name (encode_all name) l) as [i|] eqn:E; auto. destruct (position_Some _ _ _ _ E) as (p & a & Hi & Hk). rewrite Ee in Hk. exfalso.
      apply NoDup_app in Nd as (_ & Nd & _). apply (Nd name); [|left]. apply list_elem_of_In, in_map_iff. exists (p, a). split; auto.
      apply list_elem_of_In. eapply list_elem_of_lookup_2; eauto. }
    pose proof (fresh_spec st l name A V Hn Hp) as P. unfold fresh_atom in P. rewrite Ec, s16_small in P by lia. rewrite Ee in P.
    assert (Hfull : full st = false).
    { unfold full. destruct (ir_pages _ _ _ _ _ R) as (n & _ & Hle & _). pose proof (ir_count _ _ _ _ _ R). cbn [length] in Hl.
      destruct (Z.eqb_spec (nentries (fst st)) (isize (fst st))), (Z.leb_spec (limit (fst st)) (isize (fst st))); auto; lia. }
    rewrite Hfull in P. destruct P as (st' & p & E & El & A').
    destruct (index_put _ _ _ _) as [[[t' m'] aix]| |]; cbn [mbind outcome_bind] in *; try discriminate. injection E as <- _.
    destruct (IH (t', m') _ A' F') as (st2 & l2 & E2 & A2 & El2 & Em2).
    + rewrite map_app. cbn [map snd a_name]. now rewrite <- app_assoc.
    + rewrite length_app. cbn [length fst] in *. lia.
    + exists st2, l2. splits; auto; [cbn [fst] in *; congruence|]. rewrite Em2, map_app. cbn [map snd a_name]. now rewrite <- app_assoc.
Qed.
Lemma init_atom_table_spec lim names : Forall (fun b => Forall (fun c => 0 <= c < 128) b /\ (length b <= 255)%nat) names -> NoDup names -> Z.of_nat (length names) <= lim ->
  exists st l, init_atom_table lim names = Ok st /\ atoms_ok st l /\ limit (fst st) = lim /\ map (fun x => a_name x.2) l = names.
Proof.
  intros F Nd Hl. unfold init_atom_table.
  destruct (index_init_spec atom_functions a_name ATOM_SIZE lim (Mem 1%positive ∅)) as (t & E & R & El); [vm_compute; discriminate|vm_compute; discriminate| |].
  { intros p o. cbn. rewrite lookup_empty. discriminate. }
  rewrite E. cbn [mbind outcome_bind].
  destruct (put_ordinary_spec names (t, Mem 1%positive ∅) []) as (st & l & E' & A & El' & Em); auto; [split; auto|cbn; now rewrite El|].
  exists st, l. splits; auto. cbn [fst] in El'. congruence.
Qed.

(** ** Texts of atoms *)
Lemma atom_to_list_spec a cps : text_of (a_name a) cps -> atom_to_list a = cps.
Proof.
  intros (V & Hl & En). unfold atom_to_list. rewrite En. destruct (Z.eqb_spec (Z.of_nat (length (encode_all cps))) 0) as [E|N].
  - pose proof (encode_all_length cps). destruct cps; [reflexivity|cbn [length] in *; lia].
  - unfold erts_analyze_utf8, analyze_utf8.
    destruct (analyze_loop_spec 0 (length (encode_all cps)) (encode_all cps) 0 0 0 true ltac:(lia) (encode_all_bytes cps V) ltac:(auto)) as (cps' & r & V' & E & _ & En' & _ & D).
    assert (Hr : r = [] \/ ~ starts_char r) by tauto. assert (Er : cps' = cps).
    { rewrite <- (app_nil_r (encode_all cps)) in E. destruct Hr as [->|Hr]; [destruct (encode_all_inj cps cps' [] [] V V' starts_nil starts_nil E)|destruct (encode_all_inj cps cps' [] r V V' starts_nil Hr E)]; auto. }
    rewrite En', Er, Z.add_0_l. unfold erts_utf8_to_list. pose proof (encode_all_length cps). rewrite (proj2 (Z.ltb_ge _ _)) by lia.
    pose proof (decode_loop cps [] [] [] V) as Dl. rewrite !app_nil_r in Dl. rewrite Dl; [reflexivity|]. intros ->. cbn in N. lia.
Qed.
Lemma ascii_length cps : Forall valid_char cps -> length (encode_all cps) = length cps -> encode_all cps = cps.
Proof.
  induction 1 as [|cp cps V _ IH]; [reflexivity|]. rewrite encode_all_cons, length_app. cbn [length]. pose proof (encode_all_length cps). intros E.
  rewrite IH; unfold encode in *; destruct (Z.ltb_spec cp 128), (Z.ltb_spec cp 0x800), (Z.ltb_spec cp 0x10000); cbn [length app] in *; try lia; reflexivity.
Qed.
Lemma atom_to_binary_spec a cps : proper a -> text_of (a_name a) cps ->
  atom_to_binary a enc_utf8 = Ret (encode_all cps) /\ atom_to_binary a enc_latin1 = if all_latin1 cps then Ret cps else BADARG.
Proof.
  intros (cps' & (V' & Hl' & E') & Ec & _) (V & Hl & En). split; [cbn; now rewrite En|].
  rewrite E' in En. rewrite <- (app_nil_r (encode_all cps')), <- (app_nil_r (encode_all cps)) in En.
  destruct (encode_all_inj cps' cps [] [] V' V starts_nil starts_nil En) as [-> _]. unfold atom_to_binary. rewrite Ec, E'. unfold latin_count.
  destruct (all_latin1 cps) eqn:La; [|reflexivity]. rewrite (proj2 (Z.ltb_ge _ _)) by lia. destruct (Z.eqb_spec (Z.of_nat (length cps)) (Z.of_nat (length (encode_all cps)))).
  - f_equal. apply ascii_length; auto; lia.
  - f_equal. apply latin1_decode; auto. unfold all_latin1 in La. rewrite forallb_forall in La. apply List.Forall_forall. intros c Hc. specialize (La c Hc). apply Z.ltb_lt in La.
    rewrite List.Forall_forall in V. specialize (V c Hc). unfold valid_char in V. lia.
Qed.
Lemma latin1_subset_spec cps : Forall valid_char cps -> all_latin1 cps = true -> forall fuel n, (length (encode_all cps) <= fuel)%nat -> 0 <= n -> n + Z.of_nat (length cps) <= 255 ->
  latin1_subset fuel (encode_all cps) n = Ret tt.
Proof.
  induction 1 as [|cp cps V _ IH]; intros La fuel n Hf H0 Hn; [now destruct fuel|]. cbn [all_latin1 forallb] in La. apply andb_prop in La as [Lc La]. apply Z.ltb_lt in Lc.
  rewrite encode_all_cons in *. rewrite length_app in Hf. unfold encode, valid_char in *. cbn [length] in Hn.
  destruct (Z.ltb_spec cp 128); cbn [app length] in *.
  - destruct fuel; [lia|]. cbn [latin1_subset]. rewrite Z.gtb_ltb, (proj2 (Z.ltb_ge _ _)) by (unfold MAX_ATOM_CHARACTERS; lia).
    rewrite mask_80, (proj2 (Z.ltb_lt cp 128)) by (unfold byte; lia). apply IH; auto; lia.
  - rewrite (proj2 (Z.ltb_lt cp 0x800)) in * by lia. cbn [app length] in *. destruct fuel; [lia|]. cbn [latin1_subset].
    rewrite Z.gtb_ltb, (proj2 (Z.ltb_ge _ _)) by (unfold MAX_ATOM_CHARACTERS; lia).
    rewrite mask_80, mask_FE, mask_C0 by (unfold byte; lia). fold (cont (128 + cp mod 64)). rewrite cont_low.
    rewrite (proj2 (Z.ltb_ge _ _)), (proj2 (within_spec _ _ _)) by lia. cbn [andb]. apply IH; auto; lia.
Qed.
Fixpoint of_bytes (bs : list Z) : elist := match bs with [] => NIL | b :: bs => CONS (Some b) (of_bytes bs) end.
Lemma intlist_step b tail n : byte b -> intlist_loop (CONS (Some b) tail) (S n) =
  match tail with NIL => Some [b] | CONS _ _ => buf ← intlist_loop tail n; Some (b :: buf) | OTHER => None end.
Proof. intros B. unfold byte in B. cbn [intlist_loop]. now rewrite (proj2 (Z.leb_le 0 b)), (proj2 (Z.ltb_lt b 256)) by lia. Qed.
Lemma intlist_of_bytes bs n : Forall byte bs -> (length bs <= n)%nat -> intlist_to_buf (of_bytes bs) n = Some bs.
Proof.
  intros F. destruct bs as [|b bs]; [reflexivity|]. change (intlist_to_buf (of_bytes (b :: bs)) n) with (intlist_loop (CONS (Some b) (of_bytes bs)) n).
  revert n b F. induction bs as [|c bs IH]; intros n b F Hn; inversion F as [|? ? B F']; subst; (destruct n; [cbn in Hn; lia|]); rewrite intlist_step by auto; [reflexivity|].
  cbn [of_bytes]. rewrite (IH n c F') by (cbn [length] in *; lia). reflexivity.
Qed.
