(* ===== verification/AtomProps.v ===== *)
(** The properties of the atom table, each with a concrete instance. *)

From S2P Require Import Prelude.
From stdpp Require Import base option list gmap sorting.
From S2P Require Import TermOrder Memory HashTable HashSpec IndexTable Utf8 Atoms AtomSpec.
Local Open Scope Z_scope.

(** ** A table for the instances *)
Definition ex_names : list (list Z) := [[]; [111; 107]; [101; 114; 114; 111; 114]; [102; 117; 110]].
Definition ex_atoms : atom_table := match init_atom_table 1024 ex_names with Ok st => st | _ => (mkIndex (mkHash 0 0 0 0 0 []) 0 0 0 ∅, Mem 1%positive ∅) end.
Lemma ex_atoms_ok : exists l, atoms_ok ex_atoms l /\ map (fun x => a_name x.2) l = ex_names.
Proof.
  destruct (init_atom_table_spec 1024 ex_names) as (st & l & E & A & _ & Em).
  - unfold ex_names. repeat constructor; cbn; lia.
  - apply (bool_decide_unpack _). vm_compute. exact I.
  - vm_compute. discriminate.
  - exists l. unfold ex_atoms. rewrite E. auto.
Qed.

(** ** The properties *)
(** C15. Putting a text of at most 255 characters in UTF-8 returns the index of its atom: the
    one in the table, or the next free one with the number of Latin-1 characters and the ordinal
    computed; a full table ends the emulator. Getting a text finds exactly the atoms in the table,
    and every index of the table leads to its atom. *)
Theorem atoms_interned (st : atom_table) (l : list (ptr * Atom)) (cps rest : list Z) (trunc : bool) (junk : Z) :
  atoms_ok st l -> Forall valid_char cps -> (length cps <= 255)%nat ->
  let name := encode_all cps in
  let out := erts_atom_put (name ++ rest) (Z.of_nat (length name)) ERTS_ATOM_ENC_UTF8 trunc junk st in
  match position a_name name l with
  | Some i => out = Ok (st, Some (Z.of_nat i))
  | None =>
      if full st then out = Erl_exit
      else exists st' p, out = Ok (st', Some (Z.of_nat (length l))) /\
        atoms_ok st' (l ++ [(p, mkAtom (Z.of_nat (length l)) (latin_count cps) (ord0 name) name)])
  end /\
  erts_atom_get (name ++ rest) (Z.of_nat (length name)) ERTS_ATOM_ENC_UTF8 st = Ok (Z.of_nat <$> position a_name name l) /\
  (forall i p a, l !! i = Some (p, a) -> atom_tab (Z.of_nat i) st = Ok a).
Proof.
  intros A V Hl name out. splits.
  - subst out name. rewrite (put_utf8 st l cps rest trunc junk A V Hl). unfold interned. destruct (position a_name (encode_all cps) l) eqn:Hp; auto.
    pose proof (fresh_spec st l cps A V Hl Hp) as F. destruct (full st); auto. destruct F as (st' & p & E & _ & A'). eauto.
  - now apply get_utf8.
  - intros i p a Hi. eapply atom_tab_spec; eauto.
Qed.
Lemma atoms_interned_witness : exists l, (atoms_ok ex_atoms l /\ Forall valid_char [246; 108] /\ (length [246; 108] <= 255)%nat) /\
  (let name := encode_all [246; 108] in
   let out := erts_atom_put (name ++ []) (Z.of_nat (length name)) ERTS_ATOM_ENC_UTF8 false 0 ex_atoms in
   match position a_name name l with
   | Some i => out = Ok (ex_atoms, Some (Z.of_nat i))
   | None =>
       if full ex_atoms then out = Erl_exit
       else exists st' p, out = Ok (st', Some (Z.of_nat (length l))) /\
         atoms_ok st' (l ++ [(p, mkAtom (Z.of_nat (length l)) (latin_count [246; 108]) (ord0 name) name)])
   end /\
   erts_atom_get (name ++ []) (Z.of_nat (length name)) ERTS_ATOM_ENC_UTF8 ex_atoms = Ok (Z.of_nat <$> position a_name name l) /\
   (forall i p a, l !! i = Some (p, a) -> atom_tab (Z.of_nat i) ex_atoms = Ok a)) /\
  map (fun x => a_name x.2) l = ex_names /\ full ex_atoms = false.
Proof.
  destruct ex_atoms_ok as (l & A & Em). assert (V : Forall valid_char [246; 108]) by (repeat constructor; unfold valid_char; lia).
  assert (Hl : (length [246; 108] <= 255)%nat) by (cbn; lia). exists l. split; [exact (conj A (conj V Hl))|].
  split; [exact (atoms_interned ex_atoms l [246; 108] [] false 0 A V Hl)|]. split; [exact Em|vm_compute; reflexivity].
Defined.

(** C16. A Latin-1 text and its UTF-8 conversion are the same atom, and so is a 7-bit text in
    any of the three encodings. *)
Theorem encodings_agree (st : atom_table) (l : list (ptr * Atom)) (bs rest rest' : list Z) (trunc trunc' : bool) (junk junk' : Z) :
  atoms_ok st l -> Forall byte bs -> (length bs <= 255)%nat ->
  let latin1 := erts_atom_put (bs ++ rest) (Z.of_nat (length bs)) ERTS_ATOM_ENC_LATIN1 trunc junk st in
  let utf8 := encode_all bs in
  latin1 = erts_atom_put (utf8 ++ rest') (Z.of_nat (length utf8)) ERTS_ATOM_ENC_UTF8 trunc' junk' st /\
  (Forall (fun b => b < 128) bs -> latin1 = erts_atom_put (bs ++ rest') (Z.of_nat (length bs)) ERTS_ATOM_ENC_7BIT_ASCII trunc' junk' st) /\
  erts_atom_get (bs ++ rest) (Z.of_nat (length bs)) ERTS_ATOM_ENC_LATIN1 st = erts_atom_get (utf8 ++ rest') (Z.of_nat (length utf8)) ERTS_ATOM_ENC_UTF8 st.
Proof.
  intros A F Hl latin1 utf8. destruct (latin1_valid bs F) as [V _]. subst latin1. rewrite (put_latin1 st l bs rest trunc junk A F Hl). splits.
  - subst utf8. now rewrite (put_utf8 st l bs rest' trunc' junk' A V Hl).
  - intros Fa. rewrite (put_ascii st l bs rest' trunc' junk' A); auto. apply List.Forall_forall. rewrite List.Forall_forall in F, Fa. intros b Hb. specialize (F b Hb). specialize (Fa b Hb). unfold byte in F. lia.
  - subst utf8. rewrite (get_latin1 st l bs rest A F Hl). symmetry. now apply get_utf8.
Qed.
Lemma encodings_agree_witness : exists l, (atoms_ok ex_atoms l /\ Forall byte [246; 108] /\ (length [246; 108] <= 255)%nat) /\
  (let latin1 := erts_atom_put ([246; 108] ++ [0]) (Z.of_nat (length [246; 108])) ERTS_ATOM_ENC_LATIN1 true 0 ex_atoms in
   let utf8 := encode_all [246; 108] in
   latin1 = erts_atom_put (utf8 ++ []) (Z.of_nat (length utf8)) ERTS_ATOM_ENC_UTF8 false 1 ex_atoms /\
   (Forall (fun b => b < 128) [246; 108] -> latin1 = erts_atom_put ([246; 108] ++ []) (Z.of_nat (length [246; 108])) ERTS_ATOM_ENC_7BIT_ASCII false 1 ex_atoms) /\
   erts_atom_get ([246; 108] ++ [0]) (Z.of_nat (length [246; 108])) ERTS_ATOM_ENC_LATIN1 ex_atoms = erts_atom_get (utf8 ++ []) (Z.of_nat (length utf8)) ERTS_ATOM_ENC_UTF8 ex_atoms).
Proof.
  destruct ex_atoms_ok as (l & A & _). assert (F : Forall byte [246; 108]) by (repeat constructor; unfold byte; lia).
  assert (Hl : (length [246; 108] <= 255)%nat) by (cbn; lia). exists l. split; [exact (conj A (conj F Hl))|].
  exact (encodings_agree ex_atoms l [246; 108] [0] [] true false 0 1 A F Hl).
Defined.

(** C17. When a text may not be truncated, bytes given as UTF-8 become an atom if they are a
    UTF-8 text of at most 255 characters (or the emulator ends because the table is full), and are
    refused without a change of the table otherwise. The one exception, which is characterised, is
    the overrun of the hash function: bytes, at most MAX_ATOM_SZ_LIMIT of them, that end with C2 or
    C3 and are followed by a continuation byte or by nothing. *)
Theorem bad_utf8_refused (st : atom_table) (l : list (ptr * Atom)) (src rest : list Z) (junk : Z) :
  atoms_ok st l -> Forall byte src ->
  let out := erts_atom_put (src ++ rest) (Z.of_nat (length src)) ERTS_ATOM_ENC_UTF8 false junk st in
  ((exists cps, text_of src cps) -> (exists st' i, out = Ok (st', Some i)) \/ (full st = true /\ out = Erl_exit)) /\
  (~ (exists cps, text_of src cps) ->
   if hash_overruns src (head rest) && (Z.of_nat (length src) <=? MAX_ATOM_SZ_LIMIT) then out = Undef else out = Ok (st, None)).
Proof.
  intros A F out. split.
  - intros (cps & V & Hl & ->). subst out. rewrite (put_utf8 st l cps rest false junk A V Hl). unfold interned. destruct (position a_name (encode_all cps) l) eqn:Hp; eauto.
    pose proof (fresh_spec st l cps A V Hl Hp) as Fr. destruct (full st); [auto|]. destruct Fr as (st' & p & -> & _). eauto.
  - intros Hn. subst out. assert (N : forall cps, ~ text_of src cps) by (intros cps T; apply Hn; eauto).
    pose proof (atom_hash_total (length src) src (head rest) 0 ltac:(lia) F) as Hh. fold (atom_hash src (head rest)) in Hh.
    destruct (hash_overruns src (head rest)) eqn:Ho; cbn [andb].
    + destruct (Z.leb_spec (Z.of_nat (length src)) MAX_ATOM_SZ_LIMIT); [now apply (put_utf8_overrun st)|now apply put_utf8_long].
    + destruct Hh as (h & Eh). now apply (put_utf8_refused st l src rest junk h).
Qed.
Lemma bad_utf8_refused_witness : exists l, (atoms_ok ex_atoms l /\ Forall byte [0xED; 0xA0; 0x80]) /\
  (~ (exists cps, text_of [0xED; 0xA0; 0x80] cps) -> erts_atom_put ([0xED; 0xA0; 0x80] ++ [0]) 3 ERTS_ATOM_ENC_UTF8 false 0 ex_atoms = Ok (ex_atoms, None)) /\
  (~ (exists cps, text_of [0xC2] cps) -> erts_atom_put ([0xC2] ++ [0x80]) 1 ERTS_ATOM_ENC_UTF8 false 0 ex_atoms = Undef).
Proof.
  destruct ex_atoms_ok as (l & A & _). assert (F : Forall byte [0xED; 0xA0; 0x80]) by (repeat constructor; unfold byte; lia).
  assert (F2 : Forall byte [0xC2]) by (repeat constructor; unfold byte; lia).
  exists l. split; [exact (conj A F)|split].
  - exact (proj2 (bad_utf8_refused ex_atoms l [0xED; 0xA0; 0x80] [0] 0 A F)).
  - exact (proj2 (bad_utf8_refused ex_atoms l [0xC2] [0x80] 0 A F2)).
Defined.

(** The built-in functions that turn an atom into a list or a binary are inverse to those that
    make an atom of a list or a binary. *)
Theorem atom_text_roundtrip (st : atom_table) (l : list (ptr * Atom)) : atoms_ok st l ->
  (forall bs, Forall byte bs -> (length bs <= 255)%nat ->
     list_to_atom (of_bytes bs) st = Erl_exit \/
     exists st' l' i p a, list_to_atom (of_bytes bs) st = Ok (st', Ret (Z.of_nat i)) /\ atoms_ok st' l' /\ l `prefix_of` l' /\ l' !! i = Some (p, a) /\ atom_to_list a = bs) /\
  (forall i p a, l !! i = Some (p, a) ->
     exists cps, atom_to_list a = cps /\ text_of (a_name a) cps /\
       forall must_exist,
         (if all_latin1 cps
          then atom_to_binary a enc_latin1 = Ret cps /\ binary_to_atom cps enc_latin1 must_exist st = Ok (st, Ret (Z.of_nat i)) /\
               atom_to_binary a enc_utf8 = Ret (a_name a) /\ binary_to_atom (a_name a) enc_utf8 must_exist st = Ok (st, Ret (Z.of_nat i))
          else atom_to_binary a enc_latin1 = BADARG /\ atom_to_binary a enc_utf8 = Ret (a_name a))).
Proof.
  intros A. pose proof A as [R G]. split.
  - intros bs F Hl. destruct (latin1_valid bs F) as [V _]. unfold list_to_atom. change (Z.to_nat MAX_ATOM_CHARACTERS) with 255%nat. rewrite (intlist_of_bytes bs 255 F Hl).
    pose proof (put_latin1 st l bs [] true 0 A F Hl) as P. rewrite app_nil_r in P. rewrite P. unfold interned. destruct (position a_name (encode_all bs) l) as [i|] eqn:Hp.
    + right. destruct (position_Some _ _ _ _ Hp) as (p & a & Hi & Hk). exists st, l, i, p, a. cbn [mbind outcome_bind require]. splits; auto.
      apply atom_to_list_spec. rewrite Hk. split; auto.
    + pose proof (fresh_spec st l bs A V Hl Hp) as Fr. destruct (full st); [left; now rewrite Fr|]. right.
      destruct Fr as (st' & p & -> & _ & A'). eexists st', _, (length l), p, _. cbn [mbind outcome_bind require]. splits; eauto.
      * now apply prefix_app_r.
      * rewrite lookup_app_r, Nat.sub_diag by lia. reflexivity.
      * apply atom_to_list_spec. cbn. split; auto.
  - intros i p a Hi. assert (Pa : proper a).
    { pose proof (list_elem_of_lookup_2 _ _ _ Hi) as Hin. apply list_elem_of_In in Hin. rewrite List.Forall_forall in G. exact (G _ Hin). }
    pose proof Pa as (cps & T & _). exists cps. splits; auto; [now apply atom_to_list_spec|]. intros must_exist.
    destruct (atom_to_binary_spec a cps Pa T) as [Eu El]. destruct T as (V & Hl & En). rewrite El, Eu, En. destruct (all_latin1 cps) eqn:La; [|auto].
    pose proof (irep_position _ _ _ _ _ _ _ _ R Hi) as Hp. rewrite En in Hp.
    assert (F : Forall byte cps).
    { unfold all_latin1 in La. rewrite forallb_forall in La. apply List.Forall_forall. intros c Hc. specialize (La c Hc). apply Z.ltb_lt in La.
      rewrite List.Forall_forall in V. specialize (V c Hc). unfold valid_char in V. unfold byte. lia. }
    splits; auto.
    + unfold binary_to_atom. rewrite Z.gtb_ltb, (proj2 (Z.ltb_ge _ _)) by (unfold MAX_ATOM_CHARACTERS; lia). unfold put_or_get. destruct must_exist.
      * pose proof (get_latin1 st l cps [] A F Hl) as Gl. rewrite app_nil_r in Gl. rewrite Gl, Hp. reflexivity.
      * pose proof (put_latin1 st l cps [] false 0 A F Hl) as P. rewrite app_nil_r in P. rewrite P. unfold interned. rewrite Hp. reflexivity.
    + unfold binary_to_atom. rewrite (latin1_subset_spec cps V La) by lia. unfold put_or_get. destruct must_exist.
      * pose proof (get_utf8 st l cps [] A V Hl) as Gu. rewrite app_nil_r in Gu. rewrite Gu, Hp. reflexivity.
      * pose proof (put_utf8 st l cps [] false 0 A V Hl) as P. rewrite app_nil_r in P. rewrite P. unfold interned. rewrite Hp. reflexivity.
Qed.
Lemma atom_text_roundtrip_witness : exists l, atoms_ok ex_atoms l /\
  ((forall bs, Forall byte bs -> (length bs <= 255)%nat ->
     list_to_atom (of_bytes bs) ex_atoms = Erl_exit \/
     exists st' l' i p a, list_to_atom (of_bytes bs) ex_atoms = Ok (st', Ret (Z.of_nat i)) /\ atoms_ok st' l' /\ l `prefix_of` l' /\ l' !! i = Some (p, a) /\ atom_to_list a = bs) /\
  (forall i p a, l !! i = Some (p, a) ->
     exists cps, atom_to_list a = cps /\ text_of (a_name a) cps /\
       forall must_exist,
         (if all_latin1 cps
          then atom_to_binary a enc_latin1 = Ret cps /\ binary_to_atom cps enc_latin1 must_exist ex_atoms = Ok (ex_atoms, Ret (Z.of_nat i)) /\
               atom_to_binary a enc_utf8 = Ret (a_name a) /\ binary_to_atom (a_name a) enc_utf8 must_exist ex_atoms = Ok (ex_atoms, Ret (Z.of_nat i))
          else atom_to_binary a enc_latin1 = BADARG /\ atom_to_binary a enc_utf8 = Ret (a_name a)))).
Proof. destruct ex_atoms_ok as (l & A & _). exists l. split; [exact A|exact (atom_text_roundtrip ex_atoms l A)]. Defined.

(** The number of Latin-1 characters and the text of a name of 256 characters
    that is cut. *)
Definition cut_name (junk : Z) : outcome (Z * list Z) :=
  '(st, _) ← erts_atom_put (repeat 97 256) 256 ERTS_ATOM_ENC_UTF8 true junk ex_atoms; a ← atom_tab 4 st; Ok (latin1_chars a, a_name a).
(** Texts that end in the middle of a character, and lengths of more than 15
    bits; a name of 256 characters that is cut. *)
(** What is left unchecked: the hash function runs off a text that ends in the first byte of a
    two-byte character when the next byte in memory continues it; erts_atom_get cuts a length to 16
    bits and overruns its buffer; a name cut to 255 characters keeps an uninitialised count. *)
Theorem atom_text_overrun :
  erts_atom_put [0xC2; 0x80] 1 ERTS_ATOM_ENC_UTF8 false 0 ex_atoms = Undef /\
  erts_atom_put [0xC2; 0x20] 1 ERTS_ATOM_ENC_UTF8 false 0 ex_atoms = Ok (ex_atoms, None) /\
  erts_atom_get ([111; 107] ++ repeat 97 (Z.to_nat 65536)) 65538 ERTS_ATOM_ENC_LATIN1 ex_atoms = Ok (Some 1) /\
  erts_atom_get (repeat 97 (Z.to_nat 40000)) 40000 ERTS_ATOM_ENC_LATIN1 ex_atoms = Undef /\
  erts_atom_get (repeat 228 256) 256 ERTS_ATOM_ENC_LATIN1 ex_atoms = Undef /\
  cut_name 7 = Ok (7, repeat 97 255) /\ cut_name (-3) = Ok (-3, repeat 97 255).
Proof. splits; vm_compute; reflexivity. Qed.
