(* ===== verification/TableProps.v ===== *)
(** The properties of the hash and index tables: a simulation by maps and by lists. *)

From S2P Require Import Prelude.
From stdpp Require Import base option list gmap sorting.
From S2P Require Import TermOrder Memory HashTable HashSpec IndexTable Utf8 Atoms AtomSpec.
Local Open Scope Z_scope.

(** ** The contract of a hash table: a map from keys to objects *)
Section Map.
Context {T K : Type} (f : HashFunctions T) (key : T -> K) `{L : HashLaws T K f key} `{EqDecision K}.
Notation mem := (mem (HashBucket T)).
Inductive hash_op := Get (t : T) | Put (t : T) | Erase (t : T) | Remove (t : T).
Inductive hash_result := Entry (p : option ptr) | Erased (b : bool).
Definition run_hash (o : hash_op) (hm : Hash * mem) : outcome (Hash * mem * hash_result) :=
  let '(h, m) := hm in
  match o with
  | Get t => r ← hash_get f h t m; Ok (h, m, Entry r)
  | Put t => '(h, m, p) ← hash_put f h t m; Ok (h, m, Entry (Some p))
  | Erase t => '(h, m, b) ← hash_erase f h t m; Ok (h, m, Erased b)
  | Remove t => '(h, r) ← hash_remove f h t m; Ok (h, m, Entry r)
  end.
Fixpoint run_hashes (os : list hash_op) (hm : Hash * mem) : outcome (Hash * mem * list hash_result) :=
  match os with
  | [] => Ok (hm, [])
  | o :: os => '(hm, r) ← run_hash o hm; '(hm, rs) ← run_hashes os hm; Ok (hm, r :: rs)
  end.

Definition kmap : Type := K -> option (ptr * T).
Definition set_key (k : K) (v : option (ptr * T)) (s : kmap) : kmap := fun k' => if decide (k' = k) then v else s k'.
(** Get and Put find the object of a key; Put makes a new object for a new key,
    with the data of fun_alloc; Erase and Remove forget the key. *)
Inductive spec_step (s : kmap) : hash_op -> hash_result -> kmap -> Prop :=
  | spec_get t : spec_step s (Get t) (Entry (fst <$> s (key t))) s
  | spec_put_old t p d : s (key t) = Some (p, d) -> spec_step s (Put t) (Entry (Some p)) s
  | spec_put_new t p : s (key t) = None -> (forall k d, s k <> Some (p, d)) -> spec_step s (Put t) (Entry (Some p)) (set_key (key t) (Some (p, fun_alloc f t)) s)
  | spec_erase t : spec_step s (Erase t) (Erased (bool_decide (is_Some (s (key t))))) (set_key (key t) None s)
  | spec_remove t : spec_step s (Remove t) (Entry (fst <$> s (key t))) (set_key (key t) None s).
Inductive spec_steps : kmap -> list hash_op -> list hash_result -> kmap -> Prop :=
  | steps_nil s : spec_steps s [] [] s
  | steps_cons s1 o r s2 os rs s3 : spec_step s1 o r s2 -> spec_steps s2 os rs s3 -> spec_steps s1 (o :: os) (r :: rs) s3.

Record view (hm : Hash * mem) (s : kmap) : Prop := {
  vw_wf : wf f key (fst hm) (snd hm);
  vw_mem : mem_ok (snd hm);
  vw_map : forall k p d, s k = Some (p, d) <-> p ∈ entries (fst hm) /\ exists o, cells (snd hm) !! p = Some o /\ data o = d /\ key d = k }.
Lemma view_entry hm s k p : view hm s -> entry key (fst hm) (snd hm) k p -> exists d, s k = Some (p, d).
Proof. intros V [Hp (o & Ho & Hk)]. exists (data o). apply (vw_map _ _ V). eauto. Qed.
Lemma view_none hm s k : view hm s -> (forall p, ~ entry key (fst hm) (snd hm) k p) -> s k = None.
Proof. intros V N. destruct (s k) as [[p d]|] eqn:E; auto. apply (vw_map _ _ V) in E as [Hp (o & Ho & <- & Hk)]. destruct (N p). split; eauto. Qed.
Lemma view_removed h m h' m' s t p : view (h, m) s -> entry key h m (key t) p -> wf f key h' m' -> mem_ok m' -> p ∉ entries h' -> p :: entries h' ≡ₚ entries h ->
  (forall q, q <> p -> cells m' !! q = cells m !! q) -> view (h', m') (set_key (key t) None s).
Proof.
  intros V [Hp (o & Ho & Hk)] W M Hn Ep Hc. split; auto. cbn [fst snd]. intros k q d. unfold set_key. destruct (decide (k = key t)) as [->|N].
  - split; [discriminate|]. intros [Hq (oq & Hoq & <- & Hkq)]. exfalso. assert (q <> p) by (intros ->; contradiction).
    apply H. rewrite Hc in Hoq by auto. apply (wf_keys _ _ _ _ (vw_wf _ _ V) q p oq o); auto; [cbn; rewrite <- Ep; now right|congruence].
  - rewrite (vw_map _ _ V). cbn [fst snd]. split; intros [Hq (oq & Hoq & Ed & Ek)].
    + assert (q <> p) by (intros ->; congruence). split; [rewrite <- Ep in Hq; apply elem_of_cons in Hq as [->|]; [congruence|auto]|]. exists oq. rewrite Hc; auto.
    + assert (q <> p) by (intros ->; contradiction). split; [rewrite <- Ep; now right|]. exists oq. rewrite Hc in Hoq; auto.
Qed.
Lemma run_hash_spec o hm s : view hm s -> exists hm' r s', run_hash o hm = Ok (hm', r) /\ spec_step s o r s' /\ view hm' s'.
Proof.
  intros V. destruct hm as [h m]. pose proof V as [W M Hm]. cbn [fst snd] in *. destruct o as [t|t|t|t]; cbn [run_hash].
  - destruct (hash_get_spec f key h m t W) as (r & E & Hr). rewrite E. cbn [mbind outcome_bind]. exists (h, m), (Entry r), s. splits; auto.
    replace r with (fst <$> s (key t)); [constructor|]. destruct r as [p|]; [destruct (view_entry (h, m) s _ p V Hr) as [d ->]; reflexivity|now rewrite (view_none (h, m) s _ V Hr)].
  - destruct (hash_put_spec f key h m t W M) as (h' & m' & p & E & W' & M' & D). rewrite E. cbn [mbind outcome_bind].
    destruct D as [(He & -> & ->)|(Hn & Ep & Ent & Ec)].
    + destruct (view_entry (h, m) s _ p V He) as [d Hd]. exists (h, m), (Entry (Some p)), s. splits; auto. now apply (spec_put_old s t p d).
    + pose proof (view_none (h, m) s _ V Hn) as Hs. assert (Hf : cells m !! p = None) by (subst p; now apply mem_fresh).
      exists (h', m'), (Entry (Some p)), (set_key (key t) (Some (p, fun_alloc f t)) s). splits; auto.
      * apply spec_put_new; auto. intros k d Hk. apply Hm in Hk as [_ (o & Ho & _)]. congruence.
      * split; auto. cbn [fst snd]. intros k q d. unfold set_key. destruct (decide (k = key t)) as [->|N].
        -- split.
           ++ intros [= <- <-]. split; [rewrite Ent; left|]. rewrite Ec, lookup_insert_eq. eexists. splits; eauto. cbn. apply alloc_key.
           ++ intros [Hq (oq & Hoq & Ed & Ek)]. rewrite Ent in Hq. apply elem_of_cons in Hq as [->|Hq].
              ** rewrite Ec, lookup_insert_eq in Hoq. injection Hoq as <-. cbn in Ed. now subst d.
              ** exfalso. assert (q <> p). { intros ->. destruct (placed_entry f _ _ _ _ (wf_placed _ _ _ _ W) Hq) as (o' & _ & _ & Ho' & _). congruence. }
                 rewrite Ec, lookup_insert_ne in Hoq by auto. apply (Hn q). split; auto. exists oq. split; auto. congruence.
        -- rewrite Hm, Ent, Ec. split; intros [Hq (oq & Hoq & Ed & Ek)].
           ++ assert (q <> p) by (intros ->; congruence). split; [now right|]. exists oq. rewrite lookup_insert_ne; auto.
           ++ apply elem_of_cons in Hq as [->|Hq].
              ** rewrite lookup_insert_eq in Hoq. injection Hoq as <-. cbn in Ed. subst d. destruct N. rewrite <- Ek. apply alloc_key.
              ** assert (q <> p). { intros ->. destruct (placed_entry f _ _ _ _ (wf_placed _ _ _ _ W) Hq) as (o' & _ & _ & Ho' & _). congruence. }
                 rewrite lookup_insert_ne in Hoq by auto. eauto.
  - destruct (hash_erase_spec f key h m t W M) as (h' & m' & b & E & W' & M' & D). rewrite E. cbn [mbind outcome_bind].
    exists (h', m'), (Erased b), (set_key (key t) None s). splits; auto.
    + replace b with (bool_decide (is_Some (s (key t)))); [constructor|]. destruct D as [(-> & p & He & _)|(-> & _ & _ & Hn)].
      * destruct (view_entry (h, m) s _ p V He) as [d ->]. apply bool_decide_eq_true_2. eauto.
      * rewrite (view_none (h, m) s _ V Hn). reflexivity.
    + destruct D as [(_ & p & He & Hp & Ep & Ec)|(_ & -> & -> & Hn)].
      * apply (view_removed h m h' m' s t p); auto. intros q N. rewrite Ec. now apply lookup_delete_ne.
      * split; auto. cbn [fst snd]. intros k q d. unfold set_key. destruct (decide (k = key t)) as [->|]; [|apply Hm]. rewrite <- Hm.
        rewrite (view_none (h, m) s _ V Hn). tauto.
  - destruct (hash_remove_spec f key h m t W) as (h' & r & E & W' & D). rewrite E. cbn [mbind outcome_bind].
    exists (h', m), (Entry r), (set_key (key t) None s). splits; auto.
    + replace r with (fst <$> s (key t)); [constructor|]. destruct r as [p|].
      * destruct D as [He _]. destruct (view_entry (h, m) s _ p V He) as [d ->]. reflexivity.
      * destruct D as [_ Hn]. now rewrite (view_none (h, m) s _ V Hn).
    + destruct r as [p|].
      * destruct D as (He & Hp & Ep). apply (view_removed h m h' m s t p); auto.
      * destruct D as [-> Hn]. split; auto. cbn [fst snd]. intros k q d. unfold set_key. destruct (decide (k = key t)) as [->|]; [|apply Hm]. rewrite <- Hm.
        rewrite (view_none (h, m) s _ V Hn). tauto.
Qed.
Lemma run_hashes_spec os : forall hm s, view hm s -> exists hm' rs s', run_hashes os hm = Ok (hm', rs) /\ spec_steps s os rs s' /\ view hm' s'.
Proof.
  induction os as [|o os IH]; intros hm s V; cbn [run_hashes]; [exists hm, [], s; splits; auto; constructor|].
  destruct (run_hash_spec o hm s V) as (hm1 & r & s1 & E & St & V1). rewrite E. cbn [mbind outcome_bind].
  destruct (IH hm1 s1 V1) as (hm2 & rs & s2 & E2 & St2 & V2). rewrite E2. cbn [mbind outcome_bind]. exists hm2, (r :: rs), s2. splits; auto. econstructor; eauto.
Qed.
End Map.

(** ** The properties *)
(** C18. Any sequence of operations on a fresh table, with growing and shrinking, returns what a
    map from keys to objects returns, and never touches memory that is not there. *)
Theorem hash_tables_refine {T K : Type} (f : HashFunctions T) (key : T -> K) `{HashLaws T K f key} `{EqDecision K} (sz : Z) (os : list hash_op) :
  sz <= 52679969 ->
  exists h hm rs s, hash_init sz = Ok h /\ sz <= size h /\ run_hashes f os (h, Mem 1%positive ∅) = Ok (hm, rs) /\
    spec_steps f key (fun _ => None) os rs s /\ view f key hm s.
Proof.
  intros Hs. destruct (hash_init_spec f key sz (Mem 1%positive ∅) Hs) as (h & E & W & Ee & Hsz).
  assert (V : view f key (h, Mem 1%positive ∅) (fun _ => None)).
  { split; auto; cbn [fst snd]; [intros p o; cbn; rewrite lookup_empty; discriminate|]. intros k p d. rewrite Ee. split; [discriminate|]. intros [Hp _]. now apply not_elem_of_nil in Hp. }
  destruct (run_hashes_spec f key os _ _ V) as (hm & rs & s & Er & St & V'). exists h, hm, rs, s. auto.
Qed.
Definition ex_atom (name : list Z) : Atom := mkAtom (-1) 1 0 name.
Definition ex_ops : list (@hash_op Atom) :=
  [Put (ex_atom [97]); Put (ex_atom [98]); Put (ex_atom [97]); Get (ex_atom [99]); Put (ex_atom [99]); Erase (ex_atom [97]); Get (ex_atom [97]); Remove (ex_atom [98]); Erase (ex_atom [98])].
Lemma hash_tables_refine_witness : 1 <= 52679969 /\
  (exists h hm rs s, hash_init 1 = Ok h /\ 1 <= size h /\ run_hashes atom_functions ex_ops (h, Mem 1%positive ∅) = Ok (hm, rs) /\
    spec_steps atom_functions a_name (fun _ => None) ex_ops rs s /\ view atom_functions a_name hm s).
Proof. assert (H : 1 <= 52679969) by lia. split; [exact H|exact (hash_tables_refine atom_functions a_name 1 ex_ops H)]. Defined.

(** C19. An index table is the list of its objects in the order they were put: new objects get
    the next index, an index leads to its object, erasing from an index on takes back the latest
    ones, and the limit is exceeded by less than a page. *)
Theorem index_tables_correct {T K : Type} `{IndexSlot T} (f : HashFunctions T) (key : T -> K) `{L : HashLaws T K f key} `{EqDecision K} `{IL : @IndexLaws T K _ f key}
  (t : IndexTable) (m : mem (HashBucket T)) (l : list (ptr * T)) (tmpl : T) : irep f key t m l ->
  index_get f t tmpl m = Ok (match position key (key tmpl) l with Some i => Z.of_nat i | None => -1 end) /\
  match position key (key tmpl) l with
  | Some i => exists p d, l !! i = Some (p, d) /\ index_put_entry f t tmpl m = Ok (t, m, p)
  | None =>
      if (nentries t =? isize t) && (limit t <=? isize t) then index_put_entry f t tmpl m = Erl_exit
      else exists t' m' p, index_put_entry f t tmpl m = Ok (t', m', p) /\ irep f key t' m' (l ++ [(p, set_index (nentries t) (fun_alloc f tmpl))])
  end /\
  (forall i p d, l !! i = Some (p, d) -> erts_index_lookup t (Z.of_nat i) = Ok p /\ (d_o ← load p m; Ok (data d_o)) = Ok d) /\
  (forall n, (n <= length l)%nat -> exists t' m', index_erase_latest_from f t (Z.of_nat n) m = Ok (t', m') /\ irep f key t' m' (take n l)) /\
  (0 < limit t -> nentries t <= (limit t + 1023) / 1024 * 1024).
Proof.
  intros R. splits.
  - now apply index_get_spec.
  - pose proof (index_put_spec f key t m l tmpl R) as P. destruct (position key (key tmpl) l); auto. destruct (_ && _); auto. destruct P as (t' & m' & p & E & _ & _ & R'). eauto 10.
  - intros i p d Hi. destruct (index_lookup_spec f key t m l i p d R Hi) as (E & o & Ho & Ed). split; auto. unfold load. rewrite Ho. cbn. now rewrite Ed.
  - intros n Hn. destruct (index_erase_spec f key t m l n R Hn) as (t' & m' & E & R' & _). eauto.
  - intros Hl. destruct (ir_pages _ _ _ _ _ R) as (n & Es & Hle & Hn & _). lia.
Qed.
Lemma index_tables_correct_witness : exists t m l, irep atom_functions a_name t m l /\ limit t = 5 /\ map (fun x => a_name x.2) l = [[97]; [98]] /\
  index_get atom_functions t (ex_atom [99]) m = Ok (match position a_name [99] l with Some i => Z.of_nat i | None => -1 end) /\
  (forall n, (n <= length l)%nat -> exists t' m', index_erase_latest_from atom_functions t (Z.of_nat n) m = Ok (t', m') /\ irep atom_functions a_name t' m' (take n l)).
Proof.
  destruct (init_atom_table_spec 5 [[97]; [98]]) as ([t m] & l & _ & [R _] & El & Em).
  - repeat constructor; cbn; lia.
  - apply (bool_decide_unpack _). vm_compute. exact I.
  - vm_compute. discriminate.
  - pose proof (index_tables_correct atom_functions a_name t m l (ex_atom [99]) R) as (G & _ & _ & E & _). exists t, m, l. exact (conj R (conj El (conj Em (conj G E)))).
Defined.
