(* ===== verification/ProcessDict.v ===== *)
(** The process dictionary (erl_process_dict.c): a table with linear hashing in an array, whose
    slots are empty or hold a pair or a list of pairs. [dict_ok] says which map it represents; every
    operation keeps it. *)

From S2P Require Import Prelude.
From stdpp Require Import base option list gmap.
From S2P Require Import Memory.
Local Open Scope Z_scope.

Definition MAX_HASH : Z := 1342177280.
Definition INITIAL_SIZE : Z := 10.
(** ** The sizes of the array *)
Definition array_sizes : list Z := [10; 20; 40; 80; 160; 320; 640; 1280; 2560; 5120; 10240; 20480; 40960; 81920; 163840; 327680; 655360; 1310720; 2621440; 5242880; 10485760; 20971520; 41943040; 83886080; 167772160; 335544320; 671088640; 1342177280; 2684354560].
(** While hi >= lo; the number of the candidates is fuel. *)
Fixpoint size_loop (fuel : nat) (need hi lo cur : Z) : outcome Z :=
  if hi >=? lo then
    match fuel with
    | O => Undef
    | S fuel =>
        t ← peek array_sizes cur;
        p ← peek array_sizes (cur - 1);
        if (t >=? need) && (p <? need) then Ok t
        else
          let '(hi, lo) := if t >? need then (cur - 1, lo) else (hi, cur + 1) in
          size_loop fuel need hi lo ((hi + lo) / 2)
    end
  else Ok need.
(** The table has elements of 4 bytes, but is divided by the size of an Uint. *)
Definition next_array_size (need : Z) : outcome Z :=
  size_loop (length array_sizes) need (Z.of_nat (length array_sizes) * 4 / 8 - 1) 1 4.

Section Dictionary.
Context {K V : Type} `{EqDecision K} `{EqDecision V}.
(** The hash value of a term. *)
Variable MAKE_HASH : K -> Z.

(** ** The dictionary *)
(** What an element of the array holds: nothing, a tuple of a key and a value, or
    a list of such tuples. *)
Inductive slot := SLOT_NIL | SLOT_TUPLE (t : K * V) | SLOT_LIST (l : list (K * V)).
Record ProcDict := mkProcDict { pd_used : Z; homeSize : Z; splitPosition : Z; numElements : Z; pd_data : list slot }.
(** The size, which is that of the array. *)
Definition pd_size (pd : ProcDict) : Z := Z.of_nat (length (pd_data pd)).
Definition HASH_RANGE (pd : ProcDict) : Z := u32 (homeSize pd + splitPosition pd).
Definition ARRAY_GET (pd : ProcDict) (i : Z) : slot := if pd_size pd >? i then default SLOT_NIL (pd_data pd !! Z.to_nat i) else SLOT_NIL.
Definition set_home (home split : Z) (pd : ProcDict) : ProcDict := mkProcDict (pd_used pd) home split (numElements pd) (pd_data pd).
Definition set_elements (n : Z) (pd : ProcDict) : ProcDict := mkProcDict (pd_used pd) (homeSize pd) (splitPosition pd) n (pd_data pd).
(** The place of a key, from its hash value. *)
Definition pd_hash_value (pd : ProcDict) (k : K) : Z :=
  let hash := MAKE_HASH k in
  let high := hash mod u32 (homeSize pd * 2) in
  u32 (if high >=? HASH_RANGE pd then hash mod homeSize pd else high).

(** The array is allocated or grown when the index is behind it. *)
Definition array_put (d : option ProcDict) (ndx : Z) (t : slot) : outcome ProcDict :=
  pd ← (match d with
        | None => siz ← next_array_size (u32 (ndx + 1)); Ok (mkProcDict 0 0 0 0 (replicate (Z.to_nat siz) SLOT_NIL))
        | Some pd =>
            if ndx >=? pd_size pd then
              nsize ← next_array_size (u32 (ndx + 1));
              Ok (mkProcDict (pd_used pd) (homeSize pd) (splitPosition pd) (numElements pd) (take (Z.to_nat nsize) (pd_data pd) ++ replicate (Z.to_nat (nsize - pd_size pd)) SLOT_NIL))
            else Ok pd
        end);
  data ← poke ndx t (pd_data pd);
  Ok (mkProcDict (if u32 (ndx + 1) >? pd_used pd then u32 (ndx + 1) else pd_used pd) (homeSize pd) (splitPosition pd) (numElements pd) data).
(** Where the old address is used after the call, the array must not move. *)
Definition array_put_here (pd : ProcDict) (ndx : Z) (t : slot) : outcome ProcDict :=
  if ndx >=? pd_size pd then Undef else array_put (Some pd) ndx t.
Definition array_shrink (pd : ProcDict) (need : Z) : outcome ProcDict :=
  siz ← next_array_size need;
  if siz >? pd_size pd then Ok pd
  else Ok (mkProcDict (if siz <? pd_used pd then siz else pd_used pd) (homeSize pd) (splitPosition pd) (numElements pd) (take (Z.to_nat siz) (pd_data pd))).

(** ** Rehashing *)
Definition slot_of (l : list (K * V)) : slot := match l with [] => SLOT_NIL | [t] => SLOT_TUPLE t | _ => SLOT_LIST l end.
(** The elements that stay in the slot and those that move, each in reverse. *)
Fixpoint split_list (pd : ProcDict) (pos : Z) (l l1 l2 : list (K * V)) : list (K * V) * list (K * V) :=
  match l with
  | [] => (l1, l2)
  | t :: l => if pd_hash_value pd (fst t) =? pos then split_list pd pos l (t :: l1) l2 else split_list pd pos l l1 (t :: l2)
  end.
(** The slot at the split position is divided. *)
Definition grow_step (pd : ProcDict) : outcome ProcDict :=
  let pd := if splitPosition pd =? homeSize pd then set_home (u32 (homeSize pd * 2)) 0 pd else pd in
  let pos := splitPosition pd in
  let pd := set_home (homeSize pd) (u32 (pos + 1)) pd in
  match ARRAY_GET pd pos with
  | SLOT_TUPLE t =>
      if negb (pd_hash_value pd (fst t) =? pos) then
        pd ← array_put (Some pd) (u32 (pos + homeSize pd)) (SLOT_TUPLE t);
        array_put (Some pd) pos SLOT_NIL
      else Ok pd
  | s =>
      let '(l1, l2) := split_list pd pos (match s with SLOT_LIST l => l | _ => [] end) [] [] in
      pd ← array_put (Some pd) pos (slot_of l1);
      array_put (Some pd) (u32 (pos + homeSize pd)) (slot_of l2)
  end.
Fixpoint grow_steps (n : nat) (pd : ProcDict) : outcome ProcDict :=
  match n with O => Ok pd | S n => pd ← grow_step pd; grow_steps n pd end.
(** [grow]. *)
Definition grow (pd : ProcDict) : outcome ProcDict :=
  let steps := homeSize pd / 5 in
  let steps := if steps =? 0 then 1 else steps in
  if w64 (MAX_HASH - steps) <=? HASH_RANGE pd then Ok pd else grow_steps (Z.to_nat steps) pd.
(** The last slot is joined to the one it came from. *)
Definition shrink_step (pd : ProcDict) : outcome ProcDict :=
  let pd := if splitPosition pd =? 0 then set_home (homeSize pd / 2) (homeSize pd / 2) pd else pd in
  let pd := set_home (homeSize pd) (u32 (splitPosition pd - 1)) pd in
  let pos := splitPosition pd in
  let hi := ARRAY_GET pd (u32 (pos + homeSize pd)) in
  let lo := ARRAY_GET pd pos in
  pd ← (match hi, lo with
        | SLOT_NIL, _ => Ok pd
        | _, SLOT_NIL => array_put_here pd pos hi
        | SLOT_TUPLE h, SLOT_TUPLE l => array_put_here pd pos (SLOT_LIST [l; h])
        | SLOT_LIST h, SLOT_TUPLE l => array_put_here pd pos (SLOT_LIST (l :: h))
        | SLOT_TUPLE h, SLOT_LIST l => array_put_here pd pos (SLOT_LIST (h :: l))
        | SLOT_LIST h, SLOT_LIST l => array_put_here pd pos (SLOT_LIST (rev_append h l))
        end);
  array_put (Some pd) (u32 (pos + homeSize pd)) SLOT_NIL.
Fixpoint shrink_steps (n : nat) (pd : ProcDict) : outcome ProcDict :=
  match n with O => Ok pd | S n => pd ← shrink_step pd; shrink_steps n pd end.
(** [shrink]. *)
Definition shrink (pd : ProcDict) : outcome ProcDict :=
  let range := HASH_RANGE pd in
  let steps := u32 (range * 3) / 10 in
  let steps := if u32 (range - steps) <? INITIAL_SIZE then u32 (range - INITIAL_SIZE) else steps in
  pd ← shrink_steps (Z.to_nat steps) pd;
  if HASH_RANGE pd <=? pd_size pd / 4 then array_shrink pd (u32 (HASH_RANGE pd * 3) / 2) else Ok pd.

(** ** The operations *)
(** [None] stands for undefined. *)
Fixpoint list_get (l : list (K * V)) (id : K) : option V :=
  match l with [] => None | (k, v) :: l => if bool_decide (k = id) then Some v else list_get l id end.
Definition erts_pd_hash_get (d : option ProcDict) (id : K) : option V :=
  match d with
  | None => None
  | Some pd =>
      match ARRAY_GET pd (pd_hash_value pd id) with
      | SLOT_TUPLE (k, v) => if bool_decide (k = id) then Some v else None
      | SLOT_LIST l => list_get l id
      | SLOT_NIL => None
      end
  end.
(** The cells with the key are unlinked. [dead]: the cell before is unlinked
    itself, so that a write to it has no effect on the list. *)
Fixpoint unlink (id : K) (dead : bool) (l : list (K * V)) (ret : option V) (n : Z) : list (K * V) * option V * Z :=
  match l with
  | [] => ([], ret, n)
  | (k, v) :: l =>
      if bool_decide (k = id) then
        let '(l, ret, n) := unlink id (negb dead) l (Some v) (w64 (n - 1)) in ((if dead then (k, v) :: l else l), ret, n)
      else let '(l, ret, n) := unlink id false l ret n in ((k, v) :: l, ret, n)
  end.
(** [pd_hash_erase]: the value that is erased. *)
Definition pd_hash_erase (d : option ProcDict) (id : K) : outcome (option V * option ProcDict) :=
  match d with
  | None => Ok (None, None)
  | Some pd =>
      let hval := pd_hash_value pd id in
      '(pd, ret) ← (match ARRAY_GET pd hval with
        | SLOT_TUPLE (k, v) =>
            if bool_decide (k = id) then pd ← array_put (Some pd) hval SLOT_NIL; Ok (set_elements (w64 (numElements pd - 1)) pd, Some v) else Ok (pd, None)
        | SLOT_LIST l =>
            let '(l, ret, n) := unlink id false l None (numElements pd) in
            data ← poke hval (SLOT_LIST l) (pd_data pd);
            let pd := mkProcDict (pd_used pd) (homeSize pd) (splitPosition pd) n data in
            match l with
            | [] => Undef
            | [t] => pd ← array_put (Some pd) hval (SLOT_TUPLE t); Ok (pd, ret)
            | _ => Ok (pd, ret)
            end
        | SLOT_NIL => Ok (pd, None)
        end);
      let range := HASH_RANGE pd in
      pd ← (if (range >? INITIAL_SIZE) && (range / 2 >? numElements pd) then shrink pd else Ok pd);
      Ok (ret, Some pd)
  end.
(** The number of cells before the one with the key. *)
Fixpoint cdrs (l : list (K * V)) (id : K) : option nat :=
  match l with [] => None | (k, _) :: l => if bool_decide (k = id) then Some O else i ← cdrs l id; Some (S i) end.
(** [pd_hash_put]: the old value. *)
Definition pd_hash_put (d : option ProcDict) (id : K) (value : V) : outcome (option V * option ProcDict) :=
  pd ← (match d with None => pd ← array_put None (INITIAL_SIZE - 1) SLOT_NIL; Ok (set_home INITIAL_SIZE (splitPosition pd) pd) | Some pd => Ok pd end);
  let hval := pd_hash_value pd id in
  let tpl := (id, value) in
  let inserted s := pd ← array_put (Some pd) hval s;
                    let pd := set_elements (w64 (numElements pd + 1)) pd in
                    pd ← (if HASH_RANGE pd <=? numElements pd then grow pd else Ok pd);
                    Ok (None, Some pd) in
  match ARRAY_GET pd hval with
  | SLOT_NIL => inserted (SLOT_TUPLE tpl)
  | SLOT_TUPLE (k, v) =>
      if bool_decide (k = id) then pd ← array_put (Some pd) hval (SLOT_TUPLE tpl); Ok (Some v, Some pd)
      else inserted (SLOT_LIST [tpl; (k, v)])
  | SLOT_LIST old =>
      match cdrs old id with
      | None => inserted (SLOT_LIST (tpl :: old))
      | Some i =>
          t ← require (old !! i);
          pd ← array_put (Some pd) hval (SLOT_LIST (tpl :: rev_append (take i old) (drop (S i) old)));
          Ok (Some (snd t), Some pd)
      end
  end.
(** The elements of a slot are put on the list one after the other. *)
Definition slot_list (s : slot) : list (K * V) := match s with SLOT_NIL => [] | SLOT_TUPLE t => [t] | SLOT_LIST l => l end.
Fixpoint slots_list (n : nat) (i : Z) (pd : ProcDict) (res : list (K * V)) : list (K * V) :=
  match n with O => res | S n => slots_list n (i + 1) pd (rev_append (slot_list (ARRAY_GET pd i)) res) end.
(** There is memory for [numElements] cells. *)
Definition pd_hash_get_all (d : option ProcDict) : outcome (list (K * V)) :=
  match d with
  | None => Ok []
  | Some pd => let res := slots_list (Z.to_nat (HASH_RANGE pd)) 0 pd [] in if 2 * Z.of_nat (length res) <=? w64 (numElements pd * 2) then Ok res else Undef
  end.
(** The keys of a value. *)
Definition pd_hash_get_keys (d : option ProcDict) (value : V) : list K :=
  match d with
  | None => []
  | Some pd => map fst (filter (fun t => snd t = value) (slots_list (Z.to_nat (HASH_RANGE pd)) 0 pd []))
  end.
End Dictionary.

(** ** The sizes of the array *)
Lemma array_sizes_spec i : 0 <= i <= 13 -> exists t, peek array_sizes i = Ok t /\ t <= 81920.
Proof.
  intros Hi. assert (F : Forall (fun t => t <= 81920) (take 14 array_sizes)) by (repeat constructor; lia). destruct (lookup_lt_is_Some_2 array_sizes (Z.to_nat i)) as [t E]; [cbn; lia|]. exists t. split; [now apply peek_Some|]. rewrite Forall_lookup in F. apply (F (Z.to_nat i)). rewrite lookup_take_lt by lia. exact E.
Qed.
Lemma size_loop_spec need : forall fuel hi lo cur, 1 <= lo -> hi <= 13 -> (lo <= hi -> lo <= cur <= hi) -> hi - lo < Z.of_nat fuel -> exists n, size_loop fuel need hi lo cur = Ok n /\ need <= n /\ (n = need \/ n <= 81920).
Proof.
  induction fuel as [|fuel IH]; intros hi lo cur Hlo Hhi Hc Hf; cbn [size_loop]; rewrite Z.geb_leb; destruct (Z.leb_spec lo hi) as [L|L]; try lia; try (exists need; splits; auto; lia). specialize (Hc L).
  destruct (array_sizes_spec cur) as (t & -> & Ht); [lia|]. destruct (array_sizes_spec (cur - 1)) as (p & -> & _); [lia|]. cbn [mbind outcome_bind]. destruct ((t >=? need) && (p <? need)) eqn:E; [exists t; splits; auto; lia|]. destruct (t >? need); apply IH; lia.
Qed.
Lemma next_array_size_spec need : exists n, next_array_size need = Ok n /\ need <= n /\ (n = need \/ n <= 81920).
Proof. apply size_loop_spec; cbn; lia. Qed.

(** ** Where a key is *)
Definition place (home split h : Z) : Z := if h mod (home * 2) >=? home + split then h mod home else h mod (home * 2).
Lemma mod_double h home : 0 < home -> 0 <= h -> (h mod (home * 2) = h mod home \/ h mod (home * 2) = h mod home + home) /\ 0 <= h mod home < home.
Proof.
  intros H1 H2. split; [|apply Z.mod_pos_bound; lia]. pose proof (Z.div_mod h home ltac:(lia)) as E. pose proof (Z.mod_pos_bound h home H1). destruct (Z.Even_or_Odd (h / home)) as [[q Q]|[q Q]]; rewrite Q in E; [left|right]; symmetry.
  - apply (Z.mod_unique _ _ q); lia.
  - apply (Z.mod_unique _ _ q); lia.
Qed.
Lemma place_range home split h : 0 < home -> 0 <= split -> 0 <= h -> 0 <= place home split h < home + split.
Proof. intros H1 H2 H3. unfold place. rewrite Z.geb_leb. destruct (mod_double h home H1 H3) as [M R]. destruct (Z.leb_spec (home + split) (h mod (home * 2))); lia. Qed.
(** One slot is split. *)
Lemma place_split home split h : 0 <= split < home -> 0 <= h ->
  place home split h = split /\ (place home (split + 1) h = split \/ place home (split + 1) h = split + home) \/ place home split h <> split /\ place home (split + 1) h = place home split h.
Proof.
  intros H1 H2. unfold place. rewrite !Z.geb_leb. destruct (mod_double h home ltac:(lia) H2) as [M R]. destruct (Z.leb_spec (home + split) (h mod (home * 2))), (Z.leb_spec (home + (split + 1)) (h mod (home * 2))); lia.
Qed.
(** All slots are split. *)
Lemma place_double home h : 0 < home -> 0 <= h -> place (home * 2) 0 h = place home home h.
Proof.
  intros H1 H2. unfold place. rewrite !Z.geb_leb. destruct (mod_double h home H1 H2) as [M R], (mod_double h (home * 2) ltac:(lia) H2) as [M' R']. destruct (Z.leb_spec (home * 2 + 0) (h mod (home * 2 * 2))), (Z.leb_spec (home + home) (h mod (home * 2))); lia.
Qed.

Section Laws.
Context {K V : Type} `{Countable K} `{EqDecision V}.
Variable MAKE_HASH : K -> Z.
Hypothesis hash_nonneg : forall k, 0 <= MAKE_HASH k.
Notation ProcDict := (@ProcDict K V).
Implicit Types pd : ProcDict.
Notation hv := (pd_hash_value MAKE_HASH).
Notation at_ pd i := (ARRAY_GET pd i).
Notation ents pd i := (slot_list (ARRAY_GET pd i)).

(** ** The invariant *)
Record shape (pd : ProcDict) : Prop := {
  sh_home : exists k, 0 <= k /\ homeSize pd = 10 * 2 ^ k;
  sh_split : 0 <= splitPosition pd <= homeSize pd;
  sh_max : homeSize pd + splitPosition pd <= MAX_HASH;
  sh_size : pd_size pd <= MAX_HASH }.
Definition slot_ok (s : @slot K V) : Prop := match s with SLOT_LIST l => (2 <= length l)%nat | _ => True end.
Record dict_ok (pd : ProcDict) (m : gmap K V) : Prop := {
  do_shape : shape pd;
  do_slots : forall i, 0 <= i -> slot_ok (at_ pd i);
  do_nodup : forall i, 0 <= i -> NoDup (fst <$> ents pd i);
  do_hashed : forall i t, 0 <= i -> t ∈ ents pd i -> hv pd (fst t) = i;
  do_entries : forall k v, m !! k = Some v <-> (k, v) ∈ ents pd (hv pd k);
  do_count : numElements pd = Z.of_nat (size m) }.
Lemma home_positive pd : shape pd -> 10 <= homeSize pd <= MAX_HASH.
Proof. intros [(k & Hk & E) S M _]. unfold MAX_HASH in *. pose proof (Z.pow_pos_nonneg 2 k ltac:(lia) Hk). lia. Qed.
Lemma hash_range_spec pd : shape pd -> HASH_RANGE pd = homeSize pd + splitPosition pd.
Proof. intros S. pose proof (home_positive pd S). destruct S as [_ S M _]. unfold HASH_RANGE, MAX_HASH in *. apply u32_id. lia. Qed.
Lemma hv_place pd k : shape pd -> hv pd k = place (homeSize pd) (splitPosition pd) (MAKE_HASH k).
Proof.
  intros S. pose proof (home_positive pd S) as B. pose proof (hash_range_spec pd S) as R. destruct S as [_ S M _]. unfold MAX_HASH in *. pose proof (place_range (homeSize pd) (splitPosition pd) (MAKE_HASH k) ltac:(lia) ltac:(lia) (hash_nonneg k)) as P.
  unfold pd_hash_value. rewrite R, (u32_id (homeSize pd * 2)) by lia. fold (place (homeSize pd) (splitPosition pd) (MAKE_HASH k)). revert P. generalize (place (homeSize pd) (splitPosition pd) (MAKE_HASH k)). intros p P. apply u32_id. lia.
Qed.
Lemma hv_range pd k : shape pd -> 0 <= hv pd k < homeSize pd + splitPosition pd.
Proof. intros S. rewrite hv_place by auto. pose proof (home_positive pd S). destruct S as [_ S _ _]. apply place_range; auto; lia. Qed.
(** Slots behind the range are empty. *)
Lemma behind pd m i : dict_ok pd m -> homeSize pd + splitPosition pd <= i -> ents pd i = [].
Proof.
  intros D Hi. pose proof (home_positive pd (do_shape _ _ D)). pose proof (sh_split _ (do_shape _ _ D)). destruct (ents pd i) as [|t l] eqn:E; auto. exfalso. pose proof (do_hashed _ _ D i t ltac:(lia)) as P. rewrite E in P. specialize (P ltac:(left)). pose proof (hv_range pd (fst t) (do_shape _ _ D)). lia.
Qed.
Lemma get_data (data : list (@slot K V)) u h s n i : 0 <= i -> at_ (mkProcDict u h s n data) i = default SLOT_NIL (data !! Z.to_nat i).
Proof. intros Hi. unfold ARRAY_GET, pd_size. cbn. rewrite Z.gtb_ltb. destruct (Z.ltb_spec i (Z.of_nat (length data))); auto. now rewrite lookup_ge_None_2 by lia. Qed.
(** The same fields, apart from the array. *)
Definition same_fields (pd pd' : ProcDict) : Prop := homeSize pd' = homeSize pd /\ splitPosition pd' = splitPosition pd /\ numElements pd' = numElements pd.
Lemma array_put_spec pd ndx s : pd_size pd <= MAX_HASH -> 0 <= ndx < MAX_HASH -> exists pd', array_put (Some pd) ndx s = Ok pd' /\ same_fields pd pd' /\ pd_size pd <= pd_size pd' <= MAX_HASH /\ ndx < pd_size pd' /\ forall i, 0 <= i -> at_ pd' i = if i =? ndx then s else at_ pd i.
Proof.
  intros Hs Hn. unfold array_put. assert (E : exists data, (if ndx >=? pd_size pd then nsize ← next_array_size (u32 (ndx + 1)); Ok (mkProcDict (pd_used pd) (homeSize pd) (splitPosition pd) (numElements pd) (take (Z.to_nat nsize) (pd_data pd) ++ replicate (Z.to_nat (nsize - pd_size pd)) SLOT_NIL)) else Ok pd) = Ok (mkProcDict (pd_used pd) (homeSize pd) (splitPosition pd) (numElements pd) data) /\
    pd_size pd <= Z.of_nat (length data) <= MAX_HASH /\ ndx < Z.of_nat (length data) /\ forall i, 0 <= i -> default SLOT_NIL (data !! Z.to_nat i) = at_ pd i).
  { unfold MAX_HASH in *. rewrite Z.geb_leb. destruct (Z.leb_spec (pd_size pd) ndx) as [L|L].
    - destruct (next_array_size_spec (u32 (ndx + 1))) as (n & -> & N1 & N2). rewrite u32_id in N1, N2 by lia. cbn [mbind outcome_bind]. eexists. split; [reflexivity|]. unfold pd_size in *. rewrite length_app, length_take, length_replicate. splits; try lia. intros i Hi.
      rewrite take_ge by lia. unfold ARRAY_GET, pd_size. rewrite Z.gtb_ltb. destruct (Z.ltb_spec i (Z.of_nat (length (pd_data pd)))); [now rewrite lookup_app_l by lia|]. rewrite lookup_app_r by lia. destruct (replicate _ _ !! _) eqn:E; auto. now apply lookup_replicate in E as [-> _].
    - exists (pd_data pd). split; [now destruct pd|]. unfold pd_size in *. splits; try lia. intros i Hi. destruct pd. symmetry. now apply get_data. }
  destruct E as (data & -> & D1 & D2 & D3). cbn [mbind outcome_bind pd_data homeSize splitPosition numElements pd_used]. rewrite poke_ok by lia. cbn [mbind outcome_bind]. eexists. split; [reflexivity|]. split; [repeat split|]. unfold pd_size at 2 3 4. cbn [pd_data]. rewrite length_insert. splits; try lia. intros i Hi. rewrite get_data by auto.
  destruct (Z.eqb_spec i ndx) as [->|N]; [now rewrite list_lookup_insert_eq by lia|]. rewrite list_lookup_insert_ne by lia. now apply D3.
Qed.

(** ** Keys in slots *)
Lemma key_unique (l : list (K * V)) k v w : NoDup (fst <$> l) -> (k, v) ∈ l -> (k, w) ∈ l -> v = w.
Proof.
  intros N (i & Ei)%list_elem_of_lookup (j & Ej)%list_elem_of_lookup. assert (i = j); [|congruence]. apply (NoDup_lookup (fst <$> l) i j k); auto; rewrite list_lookup_fmap, ?Ei, ?Ej; reflexivity.
Qed.
Lemma not_key (l : list (K * V)) k v : k ∉ fst <$> l -> (k, v) ∉ l.
Proof. intros N E. apply N. now apply (list_elem_of_fmap_2 fst l (k, v)). Qed.
Notation without id := (filter (fun t : K * V => fst t <> id)).
Lemma without_key (l : list (K * V)) id : id ∉ fst <$> without id l.
Proof. intros (t & -> & Ht)%list_elem_of_fmap. now apply list_elem_of_filter in Ht as [Ht _]. Qed.
Lemma without_all (l : list (K * V)) id : id ∉ fst <$> l -> without id l = l.
Proof.
  induction l as [|t l IH]; auto. intros N. cbn in N. rewrite not_elem_of_cons in N. destruct N as [N1 N2]. rewrite filter_cons_True by auto. f_equal. auto.
Qed.
Lemma filter_keys (P : K * V -> Prop) `{forall t, Decision (P t)} (l : list (K * V)) : NoDup (fst <$> l) -> NoDup (fst <$> filter P l).
Proof. intros N. eapply sublist_NoDup; [exact N|]. apply fmap_sublist, sublist_filter. Qed.
Lemma NoDup_of_keys (l : list (K * V)) : NoDup (fst <$> l) -> NoDup l.
Proof. apply NoDup_fmap_1. Qed.
Lemma slot_of_spec (l : list (K * V)) : slot_list (slot_of l) = l /\ slot_ok (slot_of l).
Proof. destruct l as [|t [|u l]]; split; cbn; auto. lia. Qed.

(** ** Changes that keep the invariant *)
(** The entries are those of before, in the slots of the new hash values. *)
Lemma dict_rehash pd pd' m : dict_ok pd m -> shape pd' -> numElements pd' = numElements pd ->
  (forall i, 0 <= i -> slot_ok (at_ pd' i) /\ NoDup (fst <$> ents pd' i) /\ forall t, t ∈ ents pd' i <-> hv pd' (fst t) = i /\ t ∈ ents pd (hv pd (fst t))) -> dict_ok pd' m.
Proof.
  intros D S' Hn Hs. constructor; auto.
  - intros i Hi. now apply Hs.
  - intros i Hi. now apply Hs.
  - intros i t Hi Ht. now apply Hs in Ht.
  - intros k v. rewrite (do_entries _ _ D). destruct (Hs (hv pd' k)) as (_ & _ & E); [apply hv_range; auto|]. rewrite E. cbn [fst]. tauto.
  - rewrite Hn. apply D.
Qed.
Lemma hv_same pd pd' k : homeSize pd' = homeSize pd -> splitPosition pd' = splitPosition pd -> hv pd' k = hv pd k.
Proof. intros E1 E2. unfold pd_hash_value, HASH_RANGE. now rewrite E1, E2. Qed.
(** The same slots, whatever the hash values are computed from. *)
Lemma dict_same pd pd' m : dict_ok pd m -> shape pd' -> numElements pd' = numElements pd -> (forall k, hv pd' k = hv pd k) -> (forall i, 0 <= i -> at_ pd' i = at_ pd i) -> dict_ok pd' m.
Proof.
  intros D S' Hn Hh Ha. apply (dict_rehash pd pd' m D S' Hn). intros i Hi. rewrite Ha by auto. split; [now apply D|]. split; [now apply D|]. intros t. rewrite Hh. split; [intros Ht|intros [<- Ht]; auto]. pose proof (do_hashed _ _ D i t Hi Ht) as <-. auto.
Qed.
Lemma shape_same pd pd' : shape pd -> same_fields pd pd' -> pd_size pd' <= MAX_HASH -> shape pd'.
Proof. intros [H1 H2 H3 H4] (E1 & E2 & _) Hs. constructor; rewrite ?E1, ?E2; auto. Qed.
Lemma slot_range pd m id : dict_ok pd m -> 0 <= hv pd id < MAX_HASH.
Proof. intros D. pose proof (hv_range pd id (do_shape _ _ D)). pose proof (sh_max _ (do_shape _ _ D)). lia. Qed.
(** One slot is replaced; [m'] has what it holds. *)
Lemma dict_update pd pd' m m' id : dict_ok pd m -> shape pd' -> homeSize pd' = homeSize pd -> splitPosition pd' = splitPosition pd -> (forall i, 0 <= i -> i <> hv pd id -> at_ pd' i = at_ pd i) ->
  slot_ok (at_ pd' (hv pd id)) -> NoDup (fst <$> ents pd' (hv pd id)) -> (forall t, t ∈ ents pd' (hv pd id) -> hv pd (fst t) = hv pd id) ->
  (forall k v, m' !! k = Some v <-> if decide (hv pd k = hv pd id) then (k, v) ∈ ents pd' (hv pd id) else m !! k = Some v) -> numElements pd' = Z.of_nat (size m') -> dict_ok pd' m'.
Proof.
  intros D S' E1 E2 Ha Hs Hd Hh Hm Hn. pose proof (fun k => hv_same pd pd' k E1 E2) as Eh. constructor; auto.
  - intros i Hi. destruct (decide (i = hv pd id)) as [->|N]; auto. rewrite Ha by auto. now apply D.
  - intros i Hi. destruct (decide (i = hv pd id)) as [->|N]; auto. rewrite Ha by auto. now apply D.
  - intros i t Hi Ht. rewrite Eh. destruct (decide (i = hv pd id)) as [->|N]; auto. rewrite Ha in Ht by auto. now apply (do_hashed _ _ D).
  - intros k v. rewrite Hm, Eh. destruct (decide (hv pd k = hv pd id)) as [->|N]; [tauto|]. rewrite Ha by (auto; apply hv_range, D). apply D.
Qed.
Lemma entries_id pd m id k v : dict_ok pd m -> hv pd k = hv pd id -> m !! k = Some v <-> (k, v) ∈ ents pd (hv pd id).
Proof. intros D E. rewrite (do_entries _ _ D), E. reflexivity. Qed.
Lemma dict_put pd pd' m id v : dict_ok pd m -> shape pd' -> homeSize pd' = homeSize pd -> splitPosition pd' = splitPosition pd -> (forall i, 0 <= i -> i <> hv pd id -> at_ pd' i = at_ pd i) ->
  slot_ok (at_ pd' (hv pd id)) -> ents pd' (hv pd id) ≡ₚ (id, v) :: without id (ents pd (hv pd id)) -> numElements pd' = Z.of_nat (size (<[id := v]> m)) -> dict_ok pd' (<[id := v]> m).
Proof.
  intros D S' E1 E2 Ha Hs Hp Hn. assert (R : 0 <= hv pd id) by apply (slot_range pd m id D). apply (dict_update pd pd' m _ id); auto.
  - rewrite Hp. cbn. constructor; [apply without_key|apply filter_keys, D; auto].
  - intros t. rewrite Hp. intros [->|[_ Ht]%list_elem_of_filter]%elem_of_cons; auto. now apply (do_hashed _ _ D).
  - intros k w. destruct (decide (hv pd k = hv pd id)) as [E|N].
    + rewrite Hp, elem_of_cons, list_elem_of_filter, lookup_insert_Some, (entries_id pd m id k w D E). cbn. split; [intros [[-> ->]|[N Hk]]; auto|intros [[= -> ->]|[N Hk]]; auto].
    + rewrite lookup_insert_ne; [reflexivity|]. intros <-. auto.
Qed.
Lemma dict_delete pd pd' m id : dict_ok pd m -> shape pd' -> homeSize pd' = homeSize pd -> splitPosition pd' = splitPosition pd -> (forall i, 0 <= i -> i <> hv pd id -> at_ pd' i = at_ pd i) ->
  slot_ok (at_ pd' (hv pd id)) -> ents pd' (hv pd id) ≡ₚ without id (ents pd (hv pd id)) -> numElements pd' = Z.of_nat (size (delete id m)) -> dict_ok pd' (delete id m).
Proof.
  intros D S' E1 E2 Ha Hs Hp Hn. assert (R : 0 <= hv pd id) by apply (slot_range pd m id D). apply (dict_update pd pd' m _ id); auto.
  - rewrite Hp. apply filter_keys, D; auto.
  - intros t. rewrite Hp. intros [_ Ht]%list_elem_of_filter. now apply (do_hashed _ _ D).
  - intros k w. destruct (decide (hv pd k = hv pd id)) as [E|N].
    + rewrite Hp, list_elem_of_filter, lookup_delete_Some, (entries_id pd m id k w D E). cbn. split; intros [N Hk]; auto.
    + rewrite lookup_delete_ne; [reflexivity|]. intros <-. auto.
Qed.

(** ** Lookup *)
Lemma list_get_spec (l : list (K * V)) id v : NoDup (fst <$> l) -> list_get l id = Some v <-> (id, v) ∈ l.
Proof.
  induction l as [|[k w] l IH]; cbn [list_get fmap list_fmap fst]; [split; [discriminate|now intros ?%not_elem_of_nil]|]. intros [N1 N2]%NoDup_cons. rewrite elem_of_cons. case_bool_decide as E.
  - subst. split; [intros [= ->]; auto|intros [[= ->]|Hk]; auto; now apply not_key with (v := v) in N1].
  - rewrite IH by auto. split; auto. intros [[= -> ->]|Hk]; congruence.
Qed.
Lemma get_slot pd id : erts_pd_hash_get MAKE_HASH (Some pd) id = list_get (ents pd (hv pd id)) id.
Proof. unfold erts_pd_hash_get. destruct (at_ pd (hv pd id)) as [|[k v]|l]; auto. Qed.
Lemma dict_get_spec pd m id : dict_ok pd m -> erts_pd_hash_get MAKE_HASH (Some pd) id = m !! id.
Proof.
  intros D. rewrite get_slot. apply option_eq. intros v. rewrite list_get_spec by (apply D, (slot_range pd m id D)). now rewrite (do_entries _ _ D).
Qed.

(** ** One slot is written *)
Lemma set_elements_id pd : set_elements (numElements pd) pd = pd.
Proof. now destruct pd. Qed.
Lemma put_slot pd m id v s : dict_ok pd m -> slot_ok s -> slot_list s ≡ₚ (id, v) :: without id (ents pd (hv pd id)) ->
  exists pd1, array_put (Some pd) (hv pd id) s = Ok pd1 /\ numElements pd1 = numElements pd /\ dict_ok (set_elements (Z.of_nat (size (<[id := v]> m))) pd1) (<[id := v]> m).
Proof.
  intros D Hs Hp. pose proof (slot_range pd m id D) as R. destruct (array_put_spec pd (hv pd id) s (sh_size _ (do_shape _ _ D)) R) as (pd1 & E & (F1 & F2 & F3) & S1 & _ & A). exists pd1. split; auto. split; auto.
  assert (Ea : forall i, ARRAY_GET (set_elements (Z.of_nat (size (<[id:=v]> m))) pd1) i = ARRAY_GET pd1 i) by reflexivity. pose proof (A (hv pd id) ltac:(lia)) as Ai. rewrite Z.eqb_refl in Ai. apply (dict_put pd); auto; rewrite ?Ea, ?Ai; auto.
  - destruct (do_shape _ _ D) as [S2 S3 S4 S5]. constructor; cbn; rewrite ?F1, ?F2; auto. unfold pd_size in *. cbn. lia.
  - intros i Hi N. rewrite Ea, A by auto. now rewrite (proj2 (Z.eqb_neq i _)).
Qed.
Lemma delete_slot pd pd1 m id s : dict_ok pd m -> slot_ok s -> slot_list s ≡ₚ without id (ents pd (hv pd id)) -> homeSize pd1 = homeSize pd -> splitPosition pd1 = splitPosition pd -> pd_size pd1 <= MAX_HASH -> (forall i, 0 <= i -> at_ pd1 i = if i =? hv pd id then s else at_ pd i) ->
  dict_ok (set_elements (Z.of_nat (size (delete id m))) pd1) (delete id m).
Proof.
  intros D Hs Hp F1 F2 S1 A. pose proof (slot_range pd m id D) as R.
  assert (Ea : forall i, ARRAY_GET (set_elements (Z.of_nat (size (delete id m))) pd1) i = ARRAY_GET pd1 i) by reflexivity. pose proof (A (hv pd id) ltac:(lia)) as Ai. rewrite Z.eqb_refl in Ai. apply (dict_delete pd); auto; rewrite ?Ea, ?Ai; auto.
  - destruct (do_shape _ _ D) as [S2 S3 S4 S5]. constructor; cbn; rewrite ?F1, ?F2; auto.
  - intros i Hi N. rewrite Ea, A by auto. now rewrite (proj2 (Z.eqb_neq i _)).
Qed.

(** ** The table grows *)
Lemma split_list_spec pd pos l : forall l1 l2, split_list MAKE_HASH pd pos l l1 l2 = (rev (filter (fun t => hv pd (fst t) = pos) l) ++ l1, rev (filter (fun t => hv pd (fst t) <> pos) l) ++ l2).
Proof.
  induction l as [|t l IH]; intros l1 l2; cbn [split_list]; auto. destruct (Z.eqb_spec (hv pd (fst t)) pos) as [E|E]; rewrite IH, !filter_cons.
  - rewrite decide_True by auto. rewrite (decide_False (P := hv pd (fst t) <> pos)) by auto. cbn [rev]. now rewrite <- app_assoc.
  - rewrite decide_False by auto. rewrite (decide_True (P := hv pd (fst t) <> pos)) by auto. cbn [rev]. now rewrite <- app_assoc.
Qed.
Lemma perm_rev (l : list (K * V)) : rev l ≡ₚ l.
Proof. symmetry. apply Permutation_rev. Qed.
Lemma perm_slot_of (l l' : list (K * V)) : l ≡ₚ l' -> slot_list (slot_of l) ≡ₚ l'.
Proof. now rewrite (proj1 (slot_of_spec l)). Qed.
(** A slot is split: what is in both slots afterwards. *)
Lemma grow_moves pd pd' m : let pos := splitPosition pd in let hi := pos + homeSize pd in dict_ok pd m -> pos < homeSize pd -> homeSize pd + pos < MAX_HASH ->
  homeSize pd' = homeSize pd -> splitPosition pd' = pos + 1 -> numElements pd' = numElements pd -> pd_size pd' <= MAX_HASH ->
  (forall i, 0 <= i -> i <> pos -> i <> hi -> at_ pd' i = at_ pd i) -> slot_ok (at_ pd' pos) -> slot_ok (at_ pd' hi) ->
  ents pd' pos ≡ₚ filter (fun t => hv pd' (fst t) = pos) (ents pd pos) -> ents pd' hi ≡ₚ filter (fun t => hv pd' (fst t) <> pos) (ents pd pos) -> dict_ok pd' m.
Proof.
  intros pos hi D Hp Hm E1 E2 E3 E4 Ha S1 S2 P1 P2. pose proof (do_shape _ _ D) as S. pose proof (home_positive pd S) as Hh. pose proof (sh_split _ S) as Hs. fold pos in Hs.
  assert (S' : shape pd') by (constructor; rewrite ?E1, ?E2; auto; [apply S|lia|lia]).
  assert (HP : forall k, hv pd k = pos /\ (hv pd' k = pos \/ hv pd' k = hi) \/ hv pd k <> pos /\ hv pd' k = hv pd k) by (intros k; rewrite (hv_place pd), (hv_place pd'), E1, E2 by auto; now apply place_split).
  assert (HR : forall k, 0 <= hv pd k < hi) by (intros k; pose proof (hv_range pd k S); subst pos hi; lia). clearbody hi. apply (dict_rehash pd pd' m D S' E3). intros i Hi.
  destruct (decide (i = pos)) as [->|N1]; [|destruct (decide (i = hi)) as [->|N2]].
  - split; auto. split; [rewrite P1; now apply filter_keys, D|]. intros t. rewrite P1, list_elem_of_filter. split; intros [T1 T2]; split; auto; destruct (HP (fst t)) as [[Q1 Q2]|[Q1 Q2]]; congruence.
  - split; auto. split; [rewrite P2; now apply filter_keys, D|]. intros t. rewrite P2, list_elem_of_filter. pose proof (HR (fst t)). split; intros [T1 T2]; destruct (HP (fst t)) as [[Q1 Q2]|[Q1 Q2]]; try lia.
    + split; [destruct Q2; [contradiction|auto]|]. now rewrite Q1.
    + exfalso. apply Q1. apply (do_hashed _ _ D); auto; lia.
    + split; [lia|]. now rewrite <- Q1.
  - rewrite Ha by auto. split; [now apply D|]. split; [now apply D|]. intros t. split.
    + intros T. pose proof (do_hashed _ _ D i t Hi T) as Q. destruct (HP (fst t)) as [[Q1 Q2]|[Q1 Q2]]; [lia|]. split; [congruence|]. now rewrite Q.
    + intros [Q T]. destruct (HP (fst t)) as [[Q1 [Q2|Q2]]|[Q1 Q2]]; try lia. now rewrite <- Q, Q2.
Qed.
Lemma grow_home pd m : dict_ok pd m -> homeSize pd + splitPosition pd < MAX_HASH -> let pd0 := if splitPosition pd =? homeSize pd then set_home (u32 (homeSize pd * 2)) 0 pd else pd in
  dict_ok pd0 m /\ homeSize pd0 + splitPosition pd0 = homeSize pd + splitPosition pd /\ splitPosition pd0 < homeSize pd0.
Proof.
  intros D Hm. pose proof (do_shape _ _ D) as S. pose proof (home_positive pd S) as Hh. pose proof (sh_split _ S) as Hs. cbv zeta. destruct (Z.eqb_spec (splitPosition pd) (homeSize pd)) as [E|N]; [|splits; auto; lia].
  assert (E2 : u32 (homeSize pd * 2) = homeSize pd * 2) by (apply u32_id; unfold MAX_HASH in *; lia). rewrite E2. assert (S' : shape (set_home (homeSize pd * 2) 0 pd)).
  { constructor; cbn; [|lia|lia|apply S]. destruct (sh_home _ S) as (k & Hk & ->). exists (k + 1). rewrite Z.pow_add_r by lia. lia. }
  splits; [|cbn; lia|cbn; lia]. apply (dict_same pd); auto. intros k. rewrite !hv_place by auto. cbn. rewrite E. apply place_double; auto; lia.
Qed.
Lemma not_tuple (l : list (K * V)) s : (forall t, s <> SLOT_TUPLE t) -> slot_list s = l -> (match s with SLOT_LIST l => l | _ => [] end) = l.
Proof. intros N <-. destruct s as [|t|]; auto. now destruct (N t). Qed.
Lemma grow_step_spec pd m : dict_ok pd m -> homeSize pd + splitPosition pd < MAX_HASH -> exists pd', grow_step MAKE_HASH pd = Ok pd' /\ dict_ok pd' m /\ homeSize pd' + splitPosition pd' = homeSize pd + splitPosition pd + 1.
Proof.
  intros D0 Hm0. pose proof (grow_home pd m D0 Hm0) as G. cbv zeta in G. unfold grow_step. destruct G as (D & E0 & Hp). revert D E0 Hp. generalize (if splitPosition pd =? homeSize pd then set_home (u32 (homeSize pd * 2)) 0 pd else pd). intros pd1 D E0 Hp.
  pose proof (do_shape _ _ D) as S. pose proof (home_positive pd1 S) as Hh. pose proof (sh_split _ S) as Hs. pose proof (sh_size _ S) as Hz. set (pos := splitPosition pd1) in *. assert (Hm : homeSize pd1 + pos < MAX_HASH) by lia.
  assert (Ep : u32 (pos + 1) = pos + 1) by (apply u32_id; unfold MAX_HASH in *; lia). rewrite Ep. set (pd2 := set_home (homeSize pd1) (pos + 1) pd1). assert (Ea : forall i, ARRAY_GET pd2 i = ARRAY_GET pd1 i) by reflexivity. change (homeSize pd2) with (homeSize pd1).
  assert (Eh : u32 (pos + homeSize pd1) = pos + homeSize pd1) by (apply u32_id; unfold MAX_HASH in *; lia). assert (Bh : ents pd1 (pos + homeSize pd1) = []) by (apply (behind pd1 m); auto; subst pos; lia).
  pose proof (fun pd3 F => grow_moves pd1 pd3 m D Hp Hm F) as GM. cbv zeta in GM. fold pos in GM. pose proof (do_slots _ _ D pos ltac:(lia)) as Sp.
  assert (L : forall s1 s2 l, slot_ok s1 -> slot_ok s2 -> ents pd1 pos = l -> slot_list s1 ≡ₚ filter (fun t => hv pd2 (fst t) = pos) l -> slot_list s2 ≡ₚ filter (fun t => hv pd2 (fst t) <> pos) l -> forall pd4, same_fields pd2 pd4 -> pd_size pd4 <= MAX_HASH ->
    (forall i, 0 <= i -> at_ pd4 i = if i =? pos then s1 else if i =? pos + homeSize pd1 then s2 else at_ pd1 i) -> dict_ok pd4 m /\ homeSize pd4 + splitPosition pd4 = homeSize pd + splitPosition pd + 1).
  { intros s1 s2 l O1 O2 <- P1 P2 pd4 (F1 & F2 & F3) Z4 A. cbn in F1, F2, F3. split; [|lia]. pose proof (fun k => hv_same pd2 pd4 k F1 F2) as Eq. apply GM; auto.
    - intros i Hi N1 N2. rewrite A by auto. now rewrite (proj2 (Z.eqb_neq i pos)), (proj2 (Z.eqb_neq i _)).
    - rewrite A by lia. now rewrite Z.eqb_refl.
    - rewrite A by lia. now rewrite (proj2 (Z.eqb_neq _ pos)), Z.eqb_refl by lia.
    - rewrite A by lia. rewrite Z.eqb_refl. erewrite list_filter_iff; [exact P1|]. intros t. now rewrite Eq.
    - rewrite A by lia. rewrite (proj2 (Z.eqb_neq _ pos)), Z.eqb_refl by lia. erewrite list_filter_iff; [exact P2|]. intros t. now rewrite Eq. }
  rewrite Eh, Ea. destruct (at_ pd1 pos) as [|t|l] eqn:Es.
  - cbn [split_list]. destruct (array_put_spec pd2 pos (slot_of []) Hz ltac:(lia)) as (pd3 & -> & F3 & Z3 & _ & A3). cbn [mbind outcome_bind]. destruct (array_put_spec pd3 (pos + homeSize pd1) (slot_of []) ltac:(lia) ltac:(lia)) as (pd4 & E4 & F4 & Z4 & _ & A4).
    replace (homeSize pd3) with (homeSize pd1) by (symmetry; apply F3). rewrite Eh, E4. exists pd4. split; auto. apply (L SLOT_NIL SLOT_NIL []); auto; [|lia|]; [destruct F3 as (? & ? & ?), F4 as (? & ? & ?); repeat split; congruence|].
    intros i Hi. rewrite A4, A3 by auto. destruct (Z.eqb_spec i (pos + homeSize pd1)), (Z.eqb_spec i pos); auto.
  - destruct (Z.eqb_spec (hv pd2 (fst t)) pos) as [E|N]; cbn [negb].
    + exists pd2. split; auto. apply (L (SLOT_TUPLE t) (at_ pd1 (pos + homeSize pd1)) [t]); auto; [apply D; lia| | |repeat split|].
      * rewrite filter_cons_True by auto. reflexivity.
      * rewrite Bh, filter_cons_False by auto. reflexivity.
      * intros i Hi. rewrite Ea. destruct (Z.eqb_spec i pos) as [->|]; auto. destruct (Z.eqb_spec i (pos + homeSize pd1)) as [->|]; auto.
    + destruct (array_put_spec pd2 (pos + homeSize pd1) (SLOT_TUPLE t) Hz ltac:(lia)) as (pd3 & -> & F3 & Z3 & _ & A3). cbn [mbind outcome_bind]. destruct (array_put_spec pd3 pos SLOT_NIL ltac:(lia) ltac:(lia)) as (pd4 & -> & F4 & Z4 & _ & A4).
      exists pd4. split; auto. apply (L SLOT_NIL (SLOT_TUPLE t) [t]); auto; [| | |lia|].
      * rewrite filter_cons_False by auto. reflexivity.
      * rewrite filter_cons_True by auto. reflexivity.
      * destruct F3 as (? & ? & ?), F4 as (? & ? & ?); repeat split; congruence.
      * intros i Hi. rewrite A4, A3 by auto. destruct (Z.eqb_spec i pos); auto.
  - rewrite split_list_spec, !app_nil_r. destruct (array_put_spec pd2 pos (slot_of (rev (filter (fun t => hv pd2 (fst t) = pos) l))) Hz ltac:(lia)) as (pd3 & -> & F3 & Z3 & _ & A3). cbn [mbind outcome_bind]. replace (homeSize pd3) with (homeSize pd1) by (symmetry; apply F3). rewrite Eh.
    destruct (array_put_spec pd3 (pos + homeSize pd1) (slot_of (rev (filter (fun t => hv pd2 (fst t) <> pos) l))) ltac:(lia) ltac:(lia)) as (pd4 & -> & F4 & Z4 & _ & A4). exists pd4. split; auto.
    eapply (L _ _ l); [apply slot_of_spec|apply slot_of_spec|auto|apply perm_slot_of, perm_rev|apply perm_slot_of, perm_rev| |lia|].
    + destruct F3 as (? & ? & ?), F4 as (? & ? & ?); repeat split; congruence.
    + intros i Hi. rewrite A4, A3 by auto. destruct (Z.eqb_spec i (pos + homeSize pd1)), (Z.eqb_spec i pos); auto. lia.
Qed.
Lemma grow_steps_spec n : forall pd m, dict_ok pd m -> homeSize pd + splitPosition pd + Z.of_nat n <= MAX_HASH -> exists pd', grow_steps MAKE_HASH n pd = Ok pd' /\ dict_ok pd' m.
Proof.
  induction n as [|n IH]; intros pd m D Hm; cbn [grow_steps]; [eauto|]. destruct (grow_step_spec pd m D ltac:(lia)) as (pd1 & -> & D1 & E1). cbn [mbind outcome_bind]. apply IH; auto. lia.
Qed.
Lemma dict_grow_spec pd m : dict_ok pd m -> exists pd', grow MAKE_HASH pd = Ok pd' /\ dict_ok pd' m.
Proof.
  intros D. pose proof (do_shape _ _ D) as S. pose proof (home_positive pd S) as Hh. unfold grow. rewrite hash_range_spec by auto. assert (Hst : 0 < homeSize pd / 5 <= homeSize pd) by (split; [apply Z.div_str_pos; lia|apply Z.div_le_upper_bound; lia]). rewrite (proj2 (Z.eqb_neq (homeSize pd / 5) 0)) by lia.
  rewrite w64_id by (unfold MAX_HASH in *; lia). destruct (Z.leb_spec (MAX_HASH - homeSize pd / 5) (homeSize pd + splitPosition pd)); [eauto|]. apply grow_steps_spec; auto. lia.
Qed.

(** ** The table shrinks *)
(** Two slots are joined. *)
Lemma shrink_moves pd pd' m : let pos := splitPosition pd - 1 in let hi := pos + homeSize pd in dict_ok pd m -> 0 <= pos ->
  homeSize pd' = homeSize pd -> splitPosition pd' = pos -> numElements pd' = numElements pd -> pd_size pd' <= MAX_HASH ->
  (forall i, 0 <= i -> i <> pos -> i <> hi -> at_ pd' i = at_ pd i) -> slot_ok (at_ pd' pos) -> at_ pd' hi = SLOT_NIL -> ents pd' pos ≡ₚ ents pd pos ++ ents pd hi -> dict_ok pd' m.
Proof.
  intros pos hi D Hp E1 E2 E3 E4 Ha S1 S2 P1. pose proof (do_shape _ _ D) as S. pose proof (home_positive pd S) as Hh. pose proof (sh_split _ S) as Hs. pose proof (sh_max _ S) as Hm. assert (Hlt : pos < homeSize pd) by (subst pos; lia).
  assert (S' : shape pd') by (constructor; rewrite ?E1, ?E2; auto; [apply S|lia|subst pos; lia]).
  assert (HP : forall k, hv pd' k = pos /\ (hv pd k = pos \/ hv pd k = hi) \/ hv pd' k <> pos /\ hv pd k = hv pd' k).
  { intros k. rewrite (hv_place pd), (hv_place pd'), E1, E2 by auto. replace (splitPosition pd) with (pos + 1) by (subst pos; lia). now apply place_split. }
  assert (HR : forall k, 0 <= hv pd' k < hi) by (intros k; pose proof (hv_range pd' k S'); subst hi; lia). assert (Hhi : pos < hi) by (subst hi; lia). clearbody hi. apply (dict_rehash pd pd' m D S' E3). intros i Hi.
  destruct (decide (i = pos)) as [->|N1]; [|destruct (decide (i = hi)) as [->|N2]].
  - split; auto. split.
    + rewrite P1, fmap_app. apply NoDup_app. split; [now apply D|]. split; [|apply D; lia]. intros k ([k1 v1] & -> & T1)%list_elem_of_fmap ([k2 v2] & E & T2)%list_elem_of_fmap. cbn in E. subst k2. apply (do_hashed _ _ D) in T1, T2; try lia. cbn in *. lia.
    + intros t. rewrite P1, elem_of_app. split.
      * intros [T|T]; pose proof T as Q; apply (do_hashed _ _ D) in Q; try lia; rewrite Q; destruct (HP (fst t)) as [[Q1 Q2]|[Q1 Q2]]; auto; [congruence|]. pose proof (HR (fst t)). lia.
      * intros [Q T]. destruct (HP (fst t)) as [[Q1 [Q2|Q2]]|[Q1 Q2]]; rewrite Q2 in T; auto. congruence.
  - rewrite S2. cbn. splits; auto; [constructor|]. intros t. split; [now intros ?%not_elem_of_nil|]. intros [Q _]. pose proof (HR (fst t)). lia.
  - rewrite Ha by auto. split; [now apply D|]. split; [now apply D|]. intros t. split.
    + intros T. pose proof (do_hashed _ _ D i t Hi T) as Q. destruct (HP (fst t)) as [[Q1 [Q2|Q2]]|[Q1 Q2]]; try lia. split; [congruence|]. now rewrite Q.
    + intros [Q T]. destruct (HP (fst t)) as [[Q1 Q2]|[Q1 Q2]]; [lia|]. now rewrite <- Q, <- Q2.
Qed.
Lemma shrink_home pd m : dict_ok pd m -> 10 < homeSize pd + splitPosition pd -> let pd0 := if splitPosition pd =? 0 then set_home (homeSize pd / 2) (homeSize pd / 2) pd else pd in
  dict_ok pd0 m /\ homeSize pd0 + splitPosition pd0 = homeSize pd + splitPosition pd /\ 0 < splitPosition pd0.
Proof.
  intros D Hm. pose proof (do_shape _ _ D) as S. pose proof (home_positive pd S) as Hh. pose proof (sh_split _ S) as Hs. cbv zeta. destruct (Z.eqb_spec (splitPosition pd) 0) as [E|N]; [|splits; auto; lia].
  destruct (sh_home _ S) as (k & Hk & Ek). destruct (Z.eq_dec k 0) as [->|Nk]; [exfalso; rewrite Ek in Hm; change (10 * 2 ^ 0) with 10 in *; lia|]. replace k with (k - 1 + 1) in Ek by lia. rewrite Z.pow_add_r in Ek by lia. change (2 ^ 1) with 2 in Ek.
  assert (E2 : homeSize pd / 2 = 10 * 2 ^ (k - 1)) by (rewrite Ek; replace (10 * (2 ^ (k - 1) * 2)) with (10 * 2 ^ (k - 1) * 2) by ring; apply Z.div_mul; lia). assert (E3 : homeSize pd = homeSize pd / 2 * 2) by lia. assert (S' : shape (set_home (homeSize pd / 2) (homeSize pd / 2) pd)).
  { pose proof (sh_max _ S). constructor; cbn; [exists (k - 1); split; auto; lia|lia|lia|apply S]. }
  splits; [|cbn; lia|cbn; lia]. apply (dict_same pd); auto. intros k'. rewrite !hv_place by auto. cbn. rewrite E. rewrite E3 at 3. symmetry. apply place_double; auto; lia.
Qed.
(** What the joined slot holds. *)
Definition joined (hi lo : @slot K V) : slot :=
  match hi, lo with
  | SLOT_NIL, _ => lo
  | _, SLOT_NIL => hi
  | SLOT_TUPLE h, SLOT_TUPLE l => SLOT_LIST [l; h]
  | SLOT_LIST h, SLOT_TUPLE l => SLOT_LIST (l :: h)
  | SLOT_TUPLE h, SLOT_LIST l => SLOT_LIST (h :: l)
  | SLOT_LIST h, SLOT_LIST l => SLOT_LIST (rev_append h l)
  end.
Lemma joined_spec hi lo : slot_ok hi -> slot_ok lo -> slot_ok (joined hi lo) /\ slot_list (joined hi lo) ≡ₚ slot_list lo ++ slot_list hi.
Proof.
  destruct hi as [|h|h], lo as [|l|l]; cbn; intros H1 H2; split; auto; try lia; rewrite ?app_nil_r; auto.
  - apply Permutation_cons_append.
  - rewrite rev_append_rev, length_app, length_rev. lia.
  - rewrite rev_append_rev, Permutation_app_comm. f_equiv. symmetry. apply Permutation_rev.
Qed.
Lemma array_put_here_spec pd ndx s : pd_size pd <= MAX_HASH -> 0 <= ndx < pd_size pd -> exists pd', array_put_here pd ndx s = Ok pd' /\ same_fields pd pd' /\ pd_size pd <= pd_size pd' <= MAX_HASH /\ forall i, 0 <= i -> at_ pd' i = if i =? ndx then s else at_ pd i.
Proof.
  intros Hs Hn. unfold array_put_here. rewrite Z.geb_leb. destruct (Z.leb_spec (pd_size pd) ndx); [lia|]. destruct (array_put_spec pd ndx s Hs ltac:(lia)) as (pd' & E & F & Z1 & _ & A). eauto 6.
Qed.
Lemma join_slots pd pos hi : pd_size pd <= MAX_HASH -> 0 <= pos < hi -> exists pd', (match at_ pd hi, at_ pd pos with
        | SLOT_NIL, _ => Ok pd
        | _, SLOT_NIL => array_put_here pd pos (at_ pd hi)
        | SLOT_TUPLE h, SLOT_TUPLE l => array_put_here pd pos (SLOT_LIST [l; h])
        | SLOT_LIST h, SLOT_TUPLE l => array_put_here pd pos (SLOT_LIST (l :: h))
        | SLOT_TUPLE h, SLOT_LIST l => array_put_here pd pos (SLOT_LIST (h :: l))
        | SLOT_LIST h, SLOT_LIST l => array_put_here pd pos (SLOT_LIST (rev_append h l))
        end) = Ok pd' /\ same_fields pd pd' /\ pd_size pd <= pd_size pd' <= MAX_HASH /\ forall i, 0 <= i -> at_ pd' i = if i =? pos then joined (at_ pd hi) (at_ pd pos) else at_ pd i.
Proof.
  intros Hs Hp. destruct (at_ pd hi) as [|h|h] eqn:Eh.
  - exists pd. splits; auto; try lia; [repeat split|]. intros i Hi. cbn. destruct (Z.eqb_spec i pos) as [->|]; auto.
  - assert (Hn : 0 <= pos < pd_size pd) by (unfold ARRAY_GET in Eh; rewrite Z.gtb_ltb in Eh; destruct (Z.ltb_spec hi (pd_size pd)); [lia|discriminate]). destruct (at_ pd pos); apply array_put_here_spec; auto.
  - assert (Hn : 0 <= pos < pd_size pd) by (unfold ARRAY_GET in Eh; rewrite Z.gtb_ltb in Eh; destruct (Z.ltb_spec hi (pd_size pd)); [lia|discriminate]). destruct (at_ pd pos); apply array_put_here_spec; auto.
Qed.
Lemma shrink_step_spec pd m : dict_ok pd m -> 10 < homeSize pd + splitPosition pd -> exists pd', shrink_step pd = Ok pd' /\ dict_ok pd' m /\ homeSize pd' + splitPosition pd' = homeSize pd + splitPosition pd - 1.
Proof.
  intros D0 Hm0. pose proof (shrink_home pd m D0 Hm0) as G. cbv zeta in G. unfold shrink_step. destruct G as (D & E0 & Hp). revert D E0 Hp. generalize (if splitPosition pd =? 0 then set_home (homeSize pd / 2) (homeSize pd / 2) pd else pd). intros pd1 D E0 Hp.
  pose proof (do_shape _ _ D) as S. pose proof (home_positive pd1 S) as Hh. pose proof (sh_split _ S) as Hs. pose proof (sh_size _ S) as Hz. pose proof (sh_max _ S) as Hm. assert (Ep : u32 (splitPosition pd1 - 1) = splitPosition pd1 - 1) by (apply u32_id; unfold MAX_HASH in *; lia). rewrite Ep. set (pos := splitPosition pd1 - 1) in *.
  set (pd2 := set_home (homeSize pd1) pos pd1). assert (Ea : forall i, ARRAY_GET pd2 i = ARRAY_GET pd1 i) by reflexivity. change (splitPosition pd2) with pos. change (homeSize pd2) with (homeSize pd1). assert (Eh : u32 (pos + homeSize pd1) = pos + homeSize pd1) by (apply u32_id; unfold MAX_HASH in *; lia). rewrite Eh.
  destruct (join_slots pd2 pos (pos + homeSize pd1) Hz ltac:(lia)) as (pd3 & -> & F3 & Z3 & A3). cbn [mbind outcome_bind]. replace (homeSize pd3) with (homeSize pd1) by (symmetry; apply F3). rewrite Eh.
  destruct (array_put_spec pd3 (pos + homeSize pd1) SLOT_NIL ltac:(lia) ltac:(subst pos; lia)) as (pd4 & -> & F4 & Z4 & _ & A4). exists pd4. split; auto. destruct F3 as (F31 & F32 & F33), F4 as (F41 & F42 & F43). cbn in F31, F32, F33.
  destruct (joined_spec (at_ pd1 (pos + homeSize pd1)) (at_ pd1 pos)) as [J1 J2]; [apply D; lia|apply D; lia|]. split; [|subst pos; lia]. apply (shrink_moves pd1 pd4 m D); fold pos; try congruence; try lia.
  - intros i Hi N1 N2. rewrite A4, A3 by auto. rewrite (proj2 (Z.eqb_neq i pos)), (proj2 (Z.eqb_neq i _)) by auto. reflexivity.
  - rewrite A4, A3 by lia. rewrite (proj2 (Z.eqb_neq pos _)), Z.eqb_refl by lia. exact J1.
  - rewrite A4 by lia. now rewrite Z.eqb_refl.
  - rewrite A4, A3 by lia. rewrite (proj2 (Z.eqb_neq pos _)), Z.eqb_refl by lia. exact J2.
Qed.
Lemma shrink_steps_spec n : forall pd m, dict_ok pd m -> 10 <= homeSize pd + splitPosition pd - Z.of_nat n -> exists pd', shrink_steps n pd = Ok pd' /\ dict_ok pd' m.
Proof.
  induction n as [|n IH]; intros pd m D Hm; cbn [shrink_steps]; [eauto|]. destruct (shrink_step_spec pd m D ltac:(lia)) as (pd1 & -> & D1 & E1). cbn [mbind outcome_bind]. apply IH; auto. lia.
Qed.
Lemma array_shrink_spec pd m need : dict_ok pd m -> homeSize pd + splitPosition pd <= need -> exists pd', array_shrink pd need = Ok pd' /\ dict_ok pd' m.
Proof.
  intros D Hn. pose proof (do_shape _ _ D) as S. pose proof (home_positive pd S) as Hh. pose proof (sh_split _ S) as Hs. unfold array_shrink. destruct (next_array_size_spec need) as (siz & -> & Hsz & _). cbn [mbind outcome_bind]. rewrite Z.gtb_ltb. destruct (Z.ltb_spec (pd_size pd) siz) as [L|L]; [eauto|]. eexists. split; [reflexivity|].
  assert (S' : shape (mkProcDict (if siz <? pd_used pd then siz else pd_used pd) (homeSize pd) (splitPosition pd) (numElements pd) (take (Z.to_nat siz) (pd_data pd)))).
  { destruct S as [S1 S2 S3 S4]. constructor; cbn; auto. unfold pd_size in *. cbn. rewrite length_take. lia. }
  apply (dict_rehash pd); auto. intros i Hi. assert (E : slot_ok (at_ (mkProcDict (if siz <? pd_used pd then siz else pd_used pd) (homeSize pd) (splitPosition pd) (numElements pd) (take (Z.to_nat siz) (pd_data pd))) i) /\ ents (mkProcDict (if siz <? pd_used pd then siz else pd_used pd) (homeSize pd) (splitPosition pd) (numElements pd) (take (Z.to_nat siz) (pd_data pd))) i = ents pd i).
  { rewrite get_data by auto. destruct (Z_lt_le_dec i siz) as [Hlt|Hge].
    - rewrite lookup_take_lt by lia. assert (default SLOT_NIL (pd_data pd !! Z.to_nat i) = at_ pd i) as -> by (destruct pd; symmetry; now apply get_data). split; auto. now apply D.
    - rewrite lookup_take_ge by lia. split; cbn; auto. symmetry. apply (behind pd m); auto. lia. }
  destruct E as [E1 E2]. split; auto. rewrite E2. split; [now apply D|]. intros t. pose proof (fun k => hv_same pd (mkProcDict (if siz <? pd_used pd then siz else pd_used pd) (homeSize pd) (splitPosition pd) (numElements pd) (take (Z.to_nat siz) (pd_data pd))) k eq_refl eq_refl) as Eq. rewrite Eq. split.
  - intros T. pose proof (do_hashed _ _ D i t Hi T) as Q. split; auto. now rewrite Q.
  - intros [<- T]. auto.
Qed.
Lemma dict_shrink_spec pd m : dict_ok pd m -> 10 < homeSize pd + splitPosition pd -> exists pd', shrink pd = Ok pd' /\ dict_ok pd' m.
Proof.
  intros D Hr. pose proof (do_shape _ _ D) as S. pose proof (home_positive pd S) as Hh. pose proof (sh_split _ S) as Hs. pose proof (sh_max _ S) as Hm. unfold shrink. rewrite hash_range_spec by auto. unfold INITIAL_SIZE, MAX_HASH in *. rewrite (u32_id (_ * 3)) by lia. set (r := homeSize pd + splitPosition pd) in *.
  assert (Hst : 0 <= r * 3 / 10 <= r) by (split; [apply Z.div_pos; lia|apply Z.div_le_upper_bound; lia]). rewrite !u32_id by lia.
  assert (HS : exists n, Z.to_nat (if r - r * 3 / 10 <? 10 then r - 10 else r * 3 / 10) = n /\ 10 <= r - Z.of_nat n) by (eexists; split; [reflexivity|]; destruct (Z.ltb_spec (r - r * 3 / 10) 10); lia). destruct HS as (n & -> & Hn).
  destruct (shrink_steps_spec n pd m D ltac:(lia)) as (pd1 & -> & D1). cbn [mbind outcome_bind]. destruct (HASH_RANGE pd1 <=? pd_size pd1 / 4); [|eauto]. pose proof (do_shape _ _ D1) as S1. pose proof (home_positive pd1 S1). pose proof (sh_split _ S1). pose proof (sh_max _ S1). unfold MAX_HASH in *. rewrite hash_range_spec, u32_id by (auto; lia). apply array_shrink_spec; auto. apply Z.div_le_lower_bound; lia.
Qed.

(** ** Insertion *)
Lemma cdrs_spec (l : list (K * V)) id : match cdrs l id with
  | None => id ∉ fst <$> l
  | Some i => exists v, l !! i = Some (id, v) end.
Proof.
  induction l as [|[k v] l IH]; cbn [cdrs]; [apply not_elem_of_nil|]. case_bool_decide as E; [subst; cbn; eauto|]. destruct (cdrs l id) as [i|]; cbn [mbind option_bind].
  - destruct IH as [w Hw]. exists w. exact Hw.
  - cbn. rewrite not_elem_of_cons. split; auto.
Qed.
Lemma without_at (l : list (K * V)) i id v : NoDup (fst <$> l) -> l !! i = Some (id, v) -> without id l ≡ₚ rev_append (take i l) (drop (S i) l).
Proof.
  intros N E. rewrite rev_append_rev, <- Permutation_rev. pose proof (take_drop_middle l i _ E) as M. revert M. generalize (take i l), (drop (S i) l). intros a b <-. rewrite fmap_app, fmap_cons in N. apply NoDup_app in N as (N1 & N2 & N3). apply NoDup_cons in N3 as [N3 _].
  rewrite filter_app, filter_cons_False by (cbn; auto). rewrite !without_all; auto. intros Hk. apply (N2 _ Hk). left.
Qed.
Definition rep (d : option ProcDict) (m : gmap K V) : Prop := match d with None => m = ∅ | Some pd => dict_ok pd m end.
Lemma new_dict : exists pd, (pd ← array_put None (INITIAL_SIZE - 1) SLOT_NIL; Ok (set_home INITIAL_SIZE (splitPosition pd) pd)) = Ok pd /\ dict_ok pd ∅.
Proof.
  eexists. split; [reflexivity|]. set (pd := set_home _ _ _). assert (A : forall i, 0 <= i -> at_ pd i = SLOT_NIL).
  { intros i Hi. subst pd. unfold set_home. rewrite get_data by auto. change (pd_data _) with (replicate 10 (@SLOT_NIL K V)). destruct (replicate _ _ !! _) eqn:E; auto. now apply lookup_replicate in E as [-> _]. }
  assert (S : shape pd) by (subst pd; constructor; [exists 0; split; [lia|reflexivity]|cbn; unfold INITIAL_SIZE; lia|vm_compute; discriminate|vm_compute; discriminate]). constructor; auto.
  - intros i Hi. now rewrite A.
  - intros i Hi. rewrite A by auto. constructor.
  - intros i t Hi. rewrite A by auto. now intros ?%not_elem_of_nil.
  - intros k v. rewrite A by (apply hv_range; auto). rewrite lookup_empty. split; [discriminate|now intros ?%not_elem_of_nil].
Qed.
(** A key that is not in the table yet. *)
Lemma inserted_spec pd m id v s : dict_ok pd m -> Z.of_nat (size m) + 1 < 2 ^ 64 -> m !! id = None -> slot_ok s -> slot_list s ≡ₚ (id, v) :: without id (ents pd (hv pd id)) ->
  exists pd', (pd ← array_put (Some pd) (hv pd id) s;
       let pd := set_elements (w64 (numElements pd + 1)) pd in
       pd ← (if HASH_RANGE pd <=? numElements pd then grow MAKE_HASH pd else Ok pd);
       Ok (@None V, Some pd)) = Ok (None, Some pd') /\ dict_ok pd' (<[id := v]> m).
Proof.
  intros D Hz Hm Hs Hp. destruct (put_slot pd m id v s D Hs Hp) as (pd1 & -> & En & D1). cbn [mbind outcome_bind]. rewrite En, (do_count _ _ D), w64_id by lia. rewrite map_size_insert_None in D1 by auto. replace (Z.of_nat (S (size m))) with (Z.of_nat (size m) + 1) in D1 by lia. cbv zeta. destruct (HASH_RANGE _ <=? _); cbn [mbind outcome_bind].
  - destruct (dict_grow_spec _ _ D1) as (pd2 & -> & D2). cbn. eauto.
  - eauto.
Qed.
(** A key that is in the table: the number of elements does not change. *)
Lemma replaced_spec pd m id v w s : dict_ok pd m -> m !! id = Some w -> slot_ok s -> slot_list s ≡ₚ (id, v) :: without id (ents pd (hv pd id)) ->
  exists pd', (pd ← array_put (Some pd) (hv pd id) s; Ok (Some w, Some pd)) = Ok (Some w, Some pd') /\ dict_ok pd' (<[id := v]> m).
Proof.
  intros D Hm Hs Hp. destruct (put_slot pd m id v s D Hs Hp) as (pd1 & -> & En & D1). cbn [mbind outcome_bind]. rewrite map_size_insert_Some in D1 by eauto. rewrite <- (do_count _ _ D), <- En, set_elements_id in D1. eauto.
Qed.
Lemma dict_put_spec d m id v : rep d m -> Z.of_nat (size m) + 1 < 2 ^ 64 -> exists d', pd_hash_put MAKE_HASH d id v = Ok (m !! id, d') /\ rep d' (<[id := v]> m).
Proof.
  intros R Hz. unfold pd_hash_put. assert (E0 : exists pd, (match d with None => pd ← array_put None (INITIAL_SIZE - 1) SLOT_NIL; Ok (set_home INITIAL_SIZE (splitPosition pd) pd) | Some pd => Ok pd end) = Ok pd /\ dict_ok pd m) by (destruct d; [eauto|rewrite R; apply new_dict]). destruct E0 as (pd & -> & D). cbn [mbind outcome_bind].
  pose proof (slot_range pd m id D) as Hr. pose proof (do_slots _ _ D _ (proj1 Hr)) as Hs. pose proof (do_nodup _ _ D _ (proj1 Hr)) as Hd. pose proof (dict_get_spec pd m id D) as G. rewrite get_slot in G. pose proof (fun s => inserted_spec pd m id v s D Hz) as I. pose proof (fun w s => replaced_spec pd m id v w s D) as P. cbv zeta in I |- *. rewrite <- G in I |- *.
  destruct (at_ pd (hv pd id)) as [|[k w]|l] eqn:E; cbn [slot_list] in *.
  - destruct (I (SLOT_TUPLE (id, v))) as (pd' & -> & D'); cbn; auto. exists (Some pd'). auto.
  - cbn [list_get] in *. case_bool_decide as Ek.
    + subst. destruct (P w (SLOT_TUPLE (id, v))) as (pd' & -> & D'); auto; [cbn [slot_list]; now rewrite filter_cons_False by (cbn; auto)|]. exists (Some pd'). auto.
    + destruct (I (SLOT_LIST [(id, v); (k, w)])) as (pd' & -> & D'); auto; [cbn; lia|cbn [slot_list]; now rewrite filter_cons_True by (cbn; auto)|]. exists (Some pd'). auto.
  - pose proof (cdrs_spec l id) as C. destruct (cdrs l id) as [i|].
    + destruct C as [w Hw]. rewrite Hw. cbn [require mbind outcome_bind snd]. assert (Gw : list_get l id = Some w) by (apply list_get_spec; auto; apply list_elem_of_lookup; eauto). rewrite Gw in *.
      destruct (P w (SLOT_LIST ((id, v) :: rev_append (take i l) (drop (S i) l)))) as (pd' & -> & D'); auto.
      * cbn in *. rewrite rev_append_rev, length_app, length_rev, length_take, length_drop. apply lookup_lt_Some in Hw. lia.
      * cbn. f_equiv. symmetry. now apply (without_at l i id w).
      * exists (Some pd'). auto.
    + assert (Gn : list_get l id = None). { destruct (list_get l id) as [w|] eqn:Ew; auto. apply list_get_spec in Ew; auto. now apply not_key with (v := w) in C. }
      rewrite Gn in *. destruct (I (SLOT_LIST ((id, v) :: l))) as (pd' & -> & D'); auto; [cbn in *; lia|cbn; now rewrite without_all|]. exists (Some pd'). auto.
Qed.

(** ** Deletion *)
Lemma unlink_none (id : K) (l : list (K * V)) : forall dead ret n, id ∉ fst <$> l -> unlink id dead l ret n = (l, ret, n).
Proof.
  induction l as [|[k v] l IH]; intros dead ret n N; cbn [unlink]; auto. cbn in N. rewrite not_elem_of_cons in N. destruct N as [N1 N2]. rewrite bool_decide_false by auto. now rewrite IH.
Qed.
Lemma dict_unlink_spec (id : K) (l : list (K * V)) : forall n, NoDup (fst <$> l) -> unlink id false l None n = (without id l, list_get l id, match list_get l id with Some _ => w64 (n - 1) | None => n end).
Proof.
  induction l as [|[k v] l IH]; intros n N; cbn [unlink list_get]; auto. cbn in N. apply NoDup_cons in N as [N1 N2]. case_bool_decide as E.
  - subst. rewrite unlink_none by auto. rewrite filter_cons_False by (cbn; auto). now rewrite without_all.
  - rewrite IH by auto. rewrite filter_cons_True by auto. reflexivity.
Qed.
Lemma without_short (l : list (K * V)) id : NoDup (fst <$> l) -> (length l <= S (length (without id l)))%nat.
Proof.
  induction l as [|[k v] l IH]; intros N; [cbn; lia|]. cbn in N. apply NoDup_cons in N as [N1 N2]. destruct (decide (k = id)) as [->|E]; [rewrite filter_cons_False by (cbn; auto); rewrite without_all by auto; cbn; lia|]. rewrite filter_cons_True by auto. cbn [length]. specialize (IH N2). lia.
Qed.
Lemma erase_end pd m (ret : option V) : dict_ok pd m -> exists pd', (pd ← (if (HASH_RANGE pd >? INITIAL_SIZE) && (HASH_RANGE pd / 2 >? numElements pd) then shrink pd else Ok pd); Ok (ret, Some pd)) = Ok (ret, Some pd') /\ dict_ok pd' m.
Proof.
  intros D. destruct ((HASH_RANGE pd >? INITIAL_SIZE) && (HASH_RANGE pd / 2 >? numElements pd)) eqn:E; [|eauto]. destruct (dict_shrink_spec pd m D) as (pd' & -> & D'); [|cbn; eauto]. apply andb_true_iff in E as [E _]. rewrite hash_range_spec in E by apply D. unfold INITIAL_SIZE in E. lia.
Qed.
Lemma erase_spec d m id : rep d m -> Z.of_nat (size m) < 2 ^ 64 -> exists d', pd_hash_erase MAKE_HASH d id = Ok (m !! id, d') /\ rep d' (delete id m).
Proof.
  intros R Hz. destruct d as [pd|]; [|rewrite R; exists None; rewrite lookup_empty, delete_empty; split; reflexivity]. cbn in R. pose proof R as D. pose proof (slot_range pd m id D) as Hr. pose proof (do_slots _ _ D _ (proj1 Hr)) as Hs. pose proof (do_nodup _ _ D _ (proj1 Hr)) as Hd. pose proof (dict_get_spec pd m id D) as G. rewrite get_slot in G.
  pose proof (sh_size _ (do_shape _ _ D)) as Hsz. unfold pd_hash_erase. cbv zeta.
  match goal with |- exists d', (x ← ?f; _) = _ /\ _ => assert (E : exists pd1, f = Ok (pd1, m !! id) /\ dict_ok pd1 (delete id m)) end.
  { assert (Hc : forall w, m !! id = Some w -> w64 (numElements pd - 1) = Z.of_nat (size (delete id m))).
    { intros w Hw. rewrite (do_count _ _ D), map_size_delete_Some by eauto. assert (size m <> O) by (intros Hn; apply map_size_empty_inv in Hn; subst m; now rewrite lookup_empty in Hw). rewrite w64_id by lia. lia. }
    pose proof (fun pd1 s => delete_slot pd pd1 m id s D) as Del. rewrite <- G in *. destruct (at_ pd (hv pd id)) as [|[k w]|l] eqn:E; cbn [slot_list list_get] in *.
    - exists pd. split; auto. now rewrite delete_id.
    - case_bool_decide as Ek; [|exists pd; split; auto; now rewrite delete_id]. subst k. destruct (array_put_spec pd (hv pd id) SLOT_NIL Hsz Hr) as (pd1 & -> & F & Z1 & _ & A). cbn [mbind outcome_bind]. replace (numElements pd1) with (numElements pd) by (symmetry; apply F). rewrite (Hc w) by auto. eexists. split; [reflexivity|]. apply (Del pd1 SLOT_NIL); auto; try apply F; [now rewrite filter_cons_False by (cbn; auto)|lia].
    - rewrite dict_unlink_spec by auto. assert (Hn : hv pd id < Z.of_nat (length (pd_data pd))) by (unfold ARRAY_GET, pd_size in E; rewrite Z.gtb_ltb in E; destruct (Z.ltb_spec (hv pd id) (Z.of_nat (length (pd_data pd)))); [auto|discriminate]). rewrite poke_ok by lia. cbn [mbind outcome_bind].
      set (n := match list_get l id with Some _ => w64 (numElements pd - 1) | None => numElements pd end). assert (En : n = Z.of_nat (size (delete id m))) by (subst n; destruct (list_get l id) as [w|] eqn:Ew; [now apply (Hc w)|rewrite delete_id by auto; apply D]).
      set (pd1 := mkProcDict (pd_used pd) (homeSize pd) (splitPosition pd) n _). assert (A1 : forall i, 0 <= i -> at_ pd1 i = if i =? hv pd id then SLOT_LIST (without id l) else at_ pd i).
      { intros i Hi. subst pd1. rewrite get_data by auto. destruct (Z.eqb_spec i (hv pd id)) as [->|N]; [now rewrite list_lookup_insert_eq by lia|]. rewrite list_lookup_insert_ne by lia. destruct pd. symmetry. now apply get_data. }
      assert (Z1 : pd_size pd1 = pd_size pd) by (subst pd1; unfold pd_size; cbn; now rewrite length_insert). pose proof (without_short l id Hd) as Hl. cbn in Hs. destruct (without id l) as [|t [|u l']] eqn:Ew; cbn in Hl; [lia| |].
      + destruct (array_put_spec pd1 (hv pd id) (SLOT_TUPLE t) ltac:(lia) Hr) as (pd2 & -> & F & Z2 & _ & A2). cbn [mbind outcome_bind]. destruct F as (F1 & F2 & F3). change (numElements pd1) with n in F3. exists pd2. split; auto. rewrite <- (set_elements_id pd2), F3, En. apply (Del pd2 (SLOT_TUPLE t)); auto; [exact I|lia|].
        intros i Hi. rewrite A2, A1 by auto. destruct (i =? hv pd id); auto.
      + exists pd1. split; auto. rewrite <- (set_elements_id pd1). change (numElements pd1) with n. rewrite En. apply (Del pd1 (SLOT_LIST (t :: u :: l'))); auto; [cbn; lia|lia]. }
  destruct E as (pd1 & -> & D1). cbn [mbind outcome_bind]. destruct (erase_end pd1 (delete id m) (m !! id) D1) as (pd2 & E2 & D2). cbv zeta in *. rewrite E2. exists (Some pd2). split; [reflexivity|exact D2].
Qed.

(** ** The whole table *)
Lemma slots_list_perm pd : forall n i res, slots_list n i pd res ≡ₚ concat (map (fun j => ents pd (i + Z.of_nat j)) (seq 0 n)) ++ res.
Proof.
  induction n as [|n IH]; intros i res; cbn [slots_list seq map concat]; auto. rewrite IH, rev_append_rev, <- Permutation_rev, <- seq_shift, map_map. replace (i + Z.of_nat 0) with i by lia.
  rewrite !app_assoc, (Permutation_app_comm _ (ents pd i)). apply Permutation_app_tail, Permutation_app_head. erewrite map_ext; [reflexivity|]. intros j. cbn. do 2 f_equal. lia.
Qed.
Lemma in_concat_slots pd n t : t ∈ concat (map (fun j => ents pd (0 + Z.of_nat j)) (seq 0 n)) <-> exists i, 0 <= i < Z.of_nat n /\ t ∈ ents pd i.
Proof.
  rewrite list_elem_of_In, in_concat. split.
  - intros (l & (j & <- & Hj%in_seq)%in_map_iff & Ht%list_elem_of_In). exists (0 + Z.of_nat j). split; auto. lia.
  - intros (i & Hi & Ht%list_elem_of_In). exists (ents pd i). split; auto. apply in_map_iff. exists (Z.to_nat i). rewrite in_seq. split; [do 2 f_equal; lia|lia].
Qed.
Lemma slots_list_spec pd m : dict_ok pd m -> slots_list (Z.to_nat (HASH_RANGE pd)) 0 pd [] ≡ₚ map_to_list m.
Proof.
  intros D. pose proof (do_shape _ _ D) as S. rewrite slots_list_perm, app_nil_r, hash_range_spec by auto. apply NoDup_Permutation; [|apply NoDup_map_to_list|].
  - assert (N : forall n a, NoDup (concat (map (fun j => ents pd (0 + Z.of_nat j)) (seq a n)))).
    { induction n as [|n IH]; intros a; cbn [seq map concat]; [constructor|]. apply NoDup_app. split; [apply NoDup_of_keys, D; lia|]. split; auto. intros t T1 T2%list_elem_of_In. apply in_concat in T2 as (l & (j & <- & Hj%in_seq)%in_map_iff & T2%list_elem_of_In). apply (do_hashed _ _ D) in T1, T2; lia. }
    apply N.
  - intros [k v]. rewrite in_concat_slots, elem_of_map_to_list, (do_entries _ _ D). split.
    + intros (i & Hi & T). pose proof (do_hashed _ _ D i _ (proj1 Hi) T) as Q. cbn in Q. now rewrite Q.
    + intros T. exists (hv pd k). split; auto. pose proof (hv_range pd k S). lia.
Qed.
Lemma get_all_spec d m : rep d m -> Z.of_nat (size m) < 2 ^ 63 -> exists l, pd_hash_get_all d = Ok l /\ l ≡ₚ map_to_list m.
Proof.
  intros R Hz. destruct d as [pd|]; [|rewrite R, map_to_list_empty; exists []; auto]. pose proof (slots_list_spec pd m R) as P. unfold pd_hash_get_all. cbv zeta. rewrite (Permutation_length P), (do_count _ _ R), w64_id by lia. rewrite length_map_to_list. rewrite (proj2 (Z.leb_le _ _)) by lia. eauto.
Qed.
Lemma get_keys_spec d m v : rep d m -> pd_hash_get_keys d v ≡ₚ map fst (filter (fun t => snd t = v) (map_to_list m)).
Proof.
  intros R. destruct d as [pd|]; [|rewrite R, map_to_list_empty; reflexivity]. cbn [pd_hash_get_keys]. apply Permutation_map. now rewrite (slots_list_spec pd m R).
Qed.
Lemma get_rep d m id : rep d m -> erts_pd_hash_get MAKE_HASH d id = m !! id.
Proof. destruct d as [pd|]; [apply dict_get_spec|]. intros ->. now rewrite lookup_empty. Qed.

(** ** Sequences of operations *)
Inductive dict_op := PUT (k : K) (v : V) | ERASE (k : K) | GET (k : K) | GET_ALL | GET_KEYS (v : V) | ERASE_ALL.
Inductive dict_reply := VALUE (o : option V) | TUPLES (l : list (K * V)) | KEYS (l : list K).
(** The built-in functions. *)
Definition run_dict (o : dict_op) (d : option ProcDict) : outcome (dict_reply * option ProcDict) :=
  match o with
  | PUT k v => '(r, d) ← pd_hash_put MAKE_HASH d k v; Ok (VALUE r, d)
  | ERASE k => '(r, d) ← pd_hash_erase MAKE_HASH d k; Ok (VALUE r, d)
  | GET k => Ok (VALUE (erts_pd_hash_get MAKE_HASH d k), d)
  | GET_ALL => l ← pd_hash_get_all d; Ok (TUPLES l, d)
  | GET_KEYS v => Ok (KEYS (pd_hash_get_keys d v), d)
  | ERASE_ALL => l ← pd_hash_get_all d; Ok (TUPLES l, None)
  end.
Fixpoint run_dicts (os : list dict_op) (d : option ProcDict) : outcome (list dict_reply * option ProcDict) :=
  match os with [] => Ok ([], d) | o :: os => '(r, d) ← run_dict o d; '(rs, d) ← run_dicts os d; Ok (r :: rs, d) end.
(** What a map replies; the order of lists is not fixed. *)
Definition map_after (o : dict_op) (m : gmap K V) : gmap K V :=
  match o with PUT k v => <[k := v]> m | ERASE k => delete k m | ERASE_ALL => ∅ | _ => m end.
Definition map_reply (o : dict_op) (m : gmap K V) (r : dict_reply) : Prop :=
  match o, r with
  | PUT k _, VALUE r | ERASE k, VALUE r | GET k, VALUE r => r = m !! k
  | GET_ALL, TUPLES l | ERASE_ALL, TUPLES l => l ≡ₚ map_to_list m
  | GET_KEYS v, KEYS l => NoDup l /\ forall k, k ∈ l <-> m !! k = Some v
  | _, _ => False
  end.
Inductive map_run : list dict_op -> gmap K V -> list dict_reply -> gmap K V -> Prop :=
| map_done m : map_run [] m [] m
| map_step o os m r rs m' : map_reply o m r -> map_run os (map_after o m) rs m' -> map_run (o :: os) m (r :: rs) m'.
Lemma keys_of_value (m : gmap K V) v l : l ≡ₚ map fst (filter (fun t => snd t = v) (map_to_list m)) -> NoDup l /\ forall k, k ∈ l <-> m !! k = Some v.
Proof.
  intros P. split.
  - rewrite P. apply (filter_keys (fun t => snd t = v)), NoDup_fst_map_to_list.
  - intros k. rewrite P. change (map fst ?x) with (fst <$> x). rewrite list_elem_of_fmap. split.
    + intros ([k' w] & -> & [E T]%list_elem_of_filter). cbn in *. subst. now apply elem_of_map_to_list in T.
    + intros E%elem_of_map_to_list. exists (k, v). split; auto. now apply list_elem_of_filter.
Qed.
Lemma run_dict_spec o d m : rep d m -> Z.of_nat (size m) + 1 < 2 ^ 63 -> exists r d', run_dict o d = Ok (r, d') /\ map_reply o m r /\ rep d' (map_after o m) /\ (size (map_after o m) <= S (size m))%nat.
Proof.
  intros R Hz. destruct o as [k v|k|k| |v| ]; cbn [run_dict map_reply map_after].
  - destruct (dict_put_spec d m k v R ltac:(lia)) as (d' & -> & R'). cbn [mbind outcome_bind]. exists (VALUE (m !! k)), d'. splits; auto. rewrite map_size_insert. destruct (m !! k); cbn; lia.
  - destruct (erase_spec d m k R ltac:(lia)) as (d' & -> & R'). cbn [mbind outcome_bind]. exists (VALUE (m !! k)), d'. splits; auto. rewrite map_size_delete. destruct (m !! k); cbn; lia.
  - exists (VALUE (m !! k)), d. rewrite (get_rep d m k R). splits; auto.
  - destruct (get_all_spec d m R ltac:(lia)) as (l & -> & P). cbn [mbind outcome_bind]. exists (TUPLES l), d. splits; auto.
  - exists (KEYS (pd_hash_get_keys d v)), d. pose proof (keys_of_value m v _ (get_keys_spec d m v R)). splits; auto; apply H0.
  - destruct (get_all_spec d m R ltac:(lia)) as (l & -> & P). cbn [mbind outcome_bind]. exists (TUPLES l), None. splits; auto; [reflexivity|]. rewrite map_size_empty. lia.
Qed.
Lemma run_dicts_spec os : forall d m, rep d m -> Z.of_nat (size m) + Z.of_nat (length os) < 2 ^ 63 -> exists rs d' m', run_dicts os d = Ok (rs, d') /\ map_run os m rs m' /\ rep d' m'.
Proof.
  induction os as [|o os IH]; intros d m R Hz; cbn [run_dicts]; [exists [], d, m; splits; auto; constructor|]. cbn [length] in Hz. destruct (run_dict_spec o d m R ltac:(lia)) as (r & d1 & -> & Sp & R1 & Hs). cbn [mbind outcome_bind].
  destruct (IH d1 (map_after o m) R1 ltac:(lia)) as (rs & d2 & m2 & -> & Sp2 & R2). cbn [mbind outcome_bind]. exists (r :: rs), d2, m2. splits; auto. econstructor; eauto.
Qed.
End Laws.

(** ** The properties *)
(** C36. Any sequence of put, erase, get, get_keys and their variants on a new process
    dictionary replies what a map replies, and ends in a dictionary that represents that map,
    whatever the hash function: linear hashing with slots that are divided and joined again, lists
    in slots and an array that moves implement it, and no memory is used after it has moved. *)
Theorem dictionary_refines {K V : Type} `{Countable K} `{EqDecision V} (MAKE_HASH : K -> Z) (os : list (@dict_op K V)) : (forall k, 0 <= MAKE_HASH k) -> Z.of_nat (length os) < 2 ^ 63 ->
  exists rs d m, run_dicts MAKE_HASH os None = Ok (rs, d) /\ map_run os ∅ rs m /\ rep MAKE_HASH d m.
Proof. intros Hh Hl. apply run_dicts_spec; [exact Hh|reflexivity|]. rewrite map_size_empty. lia. Qed.
(** Above 81920 elements every new slot moves the array. *)
Theorem array_grows_by_one need : 81920 < need -> next_array_size need = Ok need.
Proof. intros Hn. destruct (next_array_size_spec need) as (n & -> & H1 & [->|H2]); [reflexivity|lia]. Qed.
(** Twelve keys of which three have the same hash value, so that the table grows and shrinks. *)
Definition ex_dict_ops : list (@dict_op Z Z) :=
  map (fun k => PUT k (k * k)) [1; 2; 3; 4; 5; 11; 21; 6; 7; 8; 9; 10] ++ [GET 21; PUT 11 0; GET_KEYS 4] ++ map ERASE [1; 2; 3; 4; 5; 6; 7; 8; 12] ++ [GET 11; GET_ALL; ERASE_ALL; GET 11].
Definition plain_hash (k : Z) : Z := Z.abs k.
Lemma dictionary_refines_witness : (exists d, run_dicts plain_hash ex_dict_ops None = Ok (map VALUE (replicate 12 None) ++ [VALUE (Some 441); VALUE (Some 121); KEYS [2]] ++ map VALUE [Some 1; Some 4; Some 9; Some 16; Some 25; Some 36; Some 49; Some 64; None; Some 0] ++
     [TUPLES [(9, 81); (11, 0); (21, 441); (10, 100)]; TUPLES [(9, 81); (11, 0); (21, 441); (10, 100)]; VALUE None], d)) /\
  exists rs d m, run_dicts plain_hash ex_dict_ops None = Ok (rs, d) /\ map_run ex_dict_ops ∅ rs m /\ rep plain_hash d m.
Proof. split; [eexists; vm_compute; reflexivity|]. apply (dictionary_refines plain_hash ex_dict_ops); [intros k; unfold plain_hash; lia|cbn; lia]. Defined.
