(* ===== verification/PacketLength.v ===== *)
(** The length of packets (packet_parser.c) of each type, from the bytes that have arrived, and
    the lemma for each type that more bytes do not change it. *)

From S2P Require Import Prelude.
From stdpp Require Import base option list.
From S2P Require Import Memory Utf8.
Local Open Scope Z_scope.

Notation size_of l := (Z.of_nat (length l)).
(** ** Types of packets *)
Inductive PacketParseType := TCP_PB_RAW | TCP_PB_1 | TCP_PB_2 | TCP_PB_4 | TCP_PB_ASN1 | TCP_PB_RM | TCP_PB_CDR | TCP_PB_FCGI | TCP_PB_LINE_LF | TCP_PB_TPKT | TCP_PB_HTTP | TCP_PB_HTTPH | TCP_PB_SSL_TLS | TCP_PB_HTTP_BIN | TCP_PB_HTTPH_BIN.
Definition int16_at (buf : list Z) (i : Z) : outcome Z := a ← peek buf i; b ← peek buf (i + 1); Ok (Z.lor (Z.shiftl a 8) b).
Definition int24_at (buf : list Z) (i : Z) : outcome Z := a ← peek buf i; b ← int16_at buf (i + 1); Ok (Z.lor (Z.shiftl a 16) b).
Definition int32_at (buf : list Z) (i : Z) : outcome Z := a ← peek buf i; b ← int24_at buf (i + 1); Ok (Z.lor (Z.shiftl a 24) b).
Definition little_int32_at (buf : list Z) (i : Z) : outcome Z :=
  a ← peek buf (i + 3); b ← peek buf (i + 2); c ← peek buf (i + 1); d ← peek buf i; Ok (Z.lor (Z.lor (Z.lor (Z.shiftl a 24) (Z.shiftl b 16)) (Z.shiftl c 8)) d).
(** The first byte [c] among [n] from [i] on. *)
Fixpoint memchr (n : nat) (buf : list Z) (i c : Z) : outcome (option Z) :=
  match n with O => Ok None | S n => b ← peek buf i; if b =? c then Ok (Some i) else memchr n buf (i + 1) c end.
Definition SP_byte (c : Z) : bool := (c =? 32) || (c =? 9).
Definition CDR_MAGIC : list Z := [71; 73; 79; 80].
Definition TPKT_VRSN : Z := 3.
Definition FCGI_VERSION_1 : Z := 1.

(** ** The length of a packet *)
(** The total length, -1 if it is too long. *)
Definition remain (hlen plen max_plen : Z) : Z :=
  let tlen := s32 (hlen + plen) in if negb (max_plen =? 0) && (plen >? max_plen) || (tlen <? hlen) then -1 else tlen.
(** A line, or what is left of it when it is cut. *)
Definition line_length (buf : list Z) (max_plen trunc_len : Z) : outcome Z :=
  let n := size_of buf in
  ptr2 ← memchr (length buf) buf 0 10;
  Ok (match ptr2 with
      | None => if (n >? max_plen) && negb (max_plen =? 0) then -1 else if (n >=? trunc_len) && negb (trunc_len =? 0) then s32 trunc_len else 0
      | Some p =>
          let len := p + 1 in
          if (len >? max_plen) && negb (max_plen =? 0) then -1 else if (len >? trunc_len) && negb (trunc_len =? 0) then s32 trunc_len else len
      end).
(** The bytes of a long tag that are not the last one. *)
Fixpoint tag_loop (nn : nat) (buf : list Z) (tptr : Z) : outcome (Z * nat) :=
  match nn with
  | O => Ok (tptr, O)
  | S k => c ← peek buf tptr; if Z.land c 0x80 =? 0x80 then tag_loop k buf (tptr + 1) else Ok (tptr, nn)
  end.
(** The length field at [tptr], with [nn] bytes left: the packet's length and
    where its body starts, 0 or -1. *)
Definition asn1_length (buf : list Z) (tptr : Z) (nn : nat) (max_plen : Z) : outcome Z :=
  c ← peek buf tptr;
  let length := Z.land c 0x7f in
  if Z.land c 0x80 =? 0x80 then
    let tptr := tptr + 1 in
    if Z.of_nat nn - 1 <? length then Ok 0
    else
      let go plen tptr := Ok (remain tptr plen max_plen) in
      if length =? 0 then go 0 tptr
      else if length =? 1 then plen ← peek buf tptr; go plen (tptr + 1)
      else if length =? 2 then plen ← int16_at buf tptr; go plen (tptr + 2)
      else if length =? 3 then plen ← int24_at buf tptr; go plen (tptr + 3)
      else if length =? 4 then plen ← int32_at buf tptr; go plen (tptr + 4)
      else Ok (-1)
  else Ok (remain (tptr + 1) length max_plen).
(** A tag and a length of ASN.1. *)
Definition asn1_packet (buf : list Z) (max_plen : Z) : outcome Z :=
  if size_of buf <? 2 then Ok 0
  else
    t ← peek buf 0;
    let nn := (length buf - 1)%nat in
    if Z.land t 0x1f =? 0x1f then
      '(tptr, nn) ← tag_loop nn buf 1;
      if Z.of_nat nn <? 2 then Ok 0 else asn1_length buf (tptr + 1) (nn - 1) max_plen
    else asn1_length buf 1 nn max_plen.
(** The lines from [ptr1] on; the number of bytes is fuel. *)
Fixpoint http_lines (fuel : nat) (buf : list Z) (max_plen statep ptr1 : Z) : outcome Z :=
  match fuel with
  | O => Undef
  | S fuel =>
      let n := size_of buf in
      ptr2 ← memchr (Z.to_nat (n - ptr1)) buf ptr1 10;
      match ptr2 with
      | None => Ok (if negb (max_plen =? 0) && (n >=? max_plen) then -1 else 0)
      | Some p =>
          let plen := p + 1 in
          let done := if negb (max_plen =? 0) && (plen >? max_plen) then -1 else plen in
          if statep =? 0 then Ok done
          else if plen <? n then
            c ← peek buf (p + 1);
            if SP_byte c && (plen >? 2) then http_lines fuel buf max_plen statep (p + 1) else Ok done
          else Ok (if negb (max_plen =? 0) && (plen >? max_plen) then -1 else 0)
      end
  end.
(** A line of HTTP, with the lines that continue it. *)
Definition http_packet (buf : list Z) (max_plen trunc_len statep : Z) : outcome Z :=
  let max_plen := if max_plen =? 0 then trunc_len else max_plen in
  let lines := http_lines (S (length buf)) buf max_plen statep 0 in
  match buf with
  | [c] => if c =? 10 then Ok 1 else lines
  | [c; d] => if (c =? 13) && (d =? 10) then Ok 2 else lines
  | _ => lines
  end.
(** The result, and the state of the protocol. *)
Definition packet_get_length (htype : PacketParseType) (buf : list Z) (max_plen trunc_len statep : Z) : outcome (Z * Z) :=
  let n := size_of buf in
  let header hlen (plen : outcome Z) := r ← (if n <? hlen then Ok 0 else plen ← plen; Ok (remain hlen plen max_plen)); Ok (r, statep) in
  let checked hlen (plen : outcome (option Z)) := r ← (if n <? hlen then Ok 0 else plen ← plen; Ok (match plen with Some plen => remain hlen plen max_plen | None => -1 end)); Ok (r, statep) in
  match htype with
  | TCP_PB_RAW => Ok (n, statep)
  | TCP_PB_1 => header 1 (peek buf 0)
  | TCP_PB_2 => header 2 (int16_at buf 0)
  | TCP_PB_4 => header 4 (int32_at buf 0)
  | TCP_PB_RM => header 4 (plen ← int32_at buf 0; Ok (Z.land plen 0x7fffffff))
  | TCP_PB_LINE_LF => r ← line_length buf max_plen trunc_len; Ok (r, statep)
  | TCP_PB_ASN1 => r ← asn1_packet buf max_plen; Ok (r, statep)
  | TCP_PB_CDR => checked 12 (if bool_decide (take 4 buf = CDR_MAGIC) then flags ← peek buf 6; plen ← (if Z.testbit flags 0 then little_int32_at buf 8 else int32_at buf 8); Ok (Some plen) else Ok None)
  | TCP_PB_FCGI => checked 8 (version ← peek buf 0; if version =? FCGI_VERSION_1 then c ← int16_at buf 4; p ← peek buf 6; Ok (Some (c + p)) else Ok None)
  | TCP_PB_TPKT => checked 4 (vrsn ← peek buf 0; if vrsn =? TPKT_VRSN then l ← int16_at buf 2; Ok (Some (u32 (l - 4))) else Ok None)
  | TCP_PB_SSL_TLS =>
      header 5 (a ← peek buf 0; c ← peek buf 2; if Z.testbit a 7 && (c =? 1) then l ← int16_at buf 0; Ok (u32 (Z.land l 0x7fff - 3)) else int16_at buf 3)
  | TCP_PB_HTTPH | TCP_PB_HTTPH_BIN => r ← http_packet buf max_plen trunc_len 1; Ok (r, 1)
  | TCP_PB_HTTP | TCP_PB_HTTP_BIN => r ← http_packet buf max_plen trunc_len statep; Ok (r, statep)
  end.
(** Where the body starts, and its length. *)
Definition packet_get_body (htype : PacketParseType) (buf : list Z) (lenp : Z) : outcome (Z * Z) :=
  match htype with
  | TCP_PB_1 => Ok (1, lenp - 1)
  | TCP_PB_2 => Ok (2, lenp - 2)
  | TCP_PB_4 => Ok (4, lenp - 4)
  | TCP_PB_FCGI => p ← peek buf 6; Ok (0, lenp - p)
  | _ => Ok (0, lenp)
  end.

(** ** Reading in a prefix *)
Lemma peek_prefix (p q : list Z) i : 0 <= i < size_of p -> exists v, peek p i = Ok v /\ peek (p ++ q) i = Ok v.
Proof.
  intros Hi. destruct (lookup_lt_is_Some_2 p (Z.to_nat i)) as [v E]; [lia|]. exists v. split; apply peek_Some; auto; try lia. now apply lookup_app_l_Some.
Qed.
Lemma int16_prefix (p q : list Z) i : 0 <= i -> i + 2 <= size_of p -> exists v, int16_at p i = Ok v /\ int16_at (p ++ q) i = Ok v.
Proof.
  intros H1 H2. destruct (peek_prefix p q i ltac:(lia)) as (a & A1 & A2), (peek_prefix p q (i + 1) ltac:(lia)) as (b & B1 & B2). unfold int16_at. rewrite A1, A2, B1, B2. eauto.
Qed.
Lemma int24_prefix (p q : list Z) i : 0 <= i -> i + 3 <= size_of p -> exists v, int24_at p i = Ok v /\ int24_at (p ++ q) i = Ok v.
Proof.
  intros H1 H2. destruct (peek_prefix p q i ltac:(lia)) as (a & A1 & A2), (int16_prefix p q (i + 1) ltac:(lia) ltac:(lia)) as (b & B1 & B2). unfold int24_at. rewrite A1, A2. cbn [mbind outcome_bind]. rewrite B1, B2. eauto.
Qed.
Lemma int32_prefix (p q : list Z) i : 0 <= i -> i + 4 <= size_of p -> exists v, int32_at p i = Ok v /\ int32_at (p ++ q) i = Ok v.
Proof.
  intros H1 H2. destruct (peek_prefix p q i ltac:(lia)) as (a & A1 & A2), (int24_prefix p q (i + 1) ltac:(lia) ltac:(lia)) as (b & B1 & B2). unfold int32_at. rewrite A1, A2. cbn [mbind outcome_bind]. rewrite B1, B2. eauto.
Qed.
Lemma little_int32_prefix (p q : list Z) i : 0 <= i -> i + 4 <= size_of p -> exists v, little_int32_at p i = Ok v /\ little_int32_at (p ++ q) i = Ok v.
Proof.
  intros H1 H2. destruct (peek_prefix p q i ltac:(lia)) as (a & A1 & A2), (peek_prefix p q (i + 1) ltac:(lia)) as (b & B1 & B2), (peek_prefix p q (i + 2) ltac:(lia)) as (c & C1 & C2), (peek_prefix p q (i + 3) ltac:(lia)) as (d & D1 & D2). unfold little_int32_at. rewrite A1, A2, B1, B2, C1, C2, D1, D2. eauto.
Qed.
Lemma memchr_prefix (p q : list Z) c k : forall n i, 0 <= i -> i + Z.of_nat n <= size_of p -> exists o, memchr n p i c = Ok o /\
  match o with Some j => i <= j < i + Z.of_nat n /\ memchr (n + k) (p ++ q) i c = Ok (Some j) | None => memchr (n + k) (p ++ q) i c = memchr k (p ++ q) (i + Z.of_nat n) c end.
Proof.
  induction n as [|n IH]; intros i Hi Hn; cbn [memchr Nat.add]; [exists None; split; auto; f_equal; lia|]. destruct (peek_prefix p q i ltac:(lia)) as (v & -> & ->). cbn [mbind outcome_bind]. destruct (v =? c); [exists (Some i); splits; auto; lia|]. destruct (IH (i + 1) ltac:(lia) ltac:(lia)) as (o & E & P). exists o. split; auto.
  destruct o; [splits; lia || apply P|rewrite P; f_equal; lia].
Qed.
(** A search of the rest. *)
Lemma memchr_total (p : list Z) c n i : 0 <= i -> i + Z.of_nat n <= size_of p -> exists o, memchr n p i c = Ok o /\ match o with Some j => i <= j < i + Z.of_nat n | None => True end.
Proof. intros H1 H2. destruct (memchr_prefix p [] c 0 n i H1 H2) as (o & E & P). exists o. split; auto. destruct o; auto. apply P. Qed.

(** ** Lengths that do not change when more bytes arrive *)
Definition small_result (r : Z) : Prop := -1 <= r < 2 ^ 31.
Definition settled (r : Z) (f : outcome Z) : Prop := r <> 0 -> f = Ok r.
Lemma remain_range hlen plen max_plen : 0 < hlen -> remain hlen plen max_plen = -1 \/ 0 < remain hlen plen max_plen < 2 ^ 31.
Proof.
  intros Hh. unfold remain. pose proof (Z.mod_pos_bound (hlen + plen) (2 ^ 32) ltac:(lia)) as M. assert (S : s32 (hlen + plen) < 2 ^ 31) by (unfold s32, u32; destruct (Z.ltb_spec ((hlen + plen) mod 2 ^ 32) (2 ^ 31)); lia). destruct (_ || _) eqn:E; auto. right. apply orb_false_iff in E as [_ E]. lia.
Qed.
Lemma remain_settled hlen plen max_plen f : 0 < hlen -> f = Ok (remain hlen plen max_plen) -> exists r, Ok (remain hlen plen max_plen) = Ok r /\ small_result r /\ settled r f.
Proof. intros Hh E. eexists. split; [reflexivity|]. split; [|now intros _]. pose proof (remain_range hlen plen max_plen Hh). unfold small_result. lia. Qed.
Lemma tag_loop_spec (p q : list Z) : forall nn i, 0 <= i -> Z.of_nat nn = size_of p - i -> exists j nn', tag_loop nn p i = Ok (j, nn') /\ i <= j /\ Z.of_nat nn' = size_of p - j /\ (nn' <> O -> tag_loop (nn + length q) (p ++ q) i = Ok (j, (nn' + length q)%nat)).
Proof.
  induction nn as [|nn IH]; intros i Hi Hn; cbn [tag_loop Nat.add]; [exists i, O; splits; auto; lia|]. destruct (peek_prefix p q i ltac:(lia)) as (v & -> & ->). cbn [mbind outcome_bind]. destruct (_ =? _); [|exists i, (S nn); splits; auto; lia]. destruct (IH (i + 1) ltac:(lia) ltac:(lia)) as (j & nn' & E & H1 & H2 & H3). exists j, nn'. splits; auto; lia.
Qed.
Lemma asn1_length_spec (p q : list Z) tptr nn max_plen : 0 <= tptr -> Z.of_nat nn = size_of p - tptr -> (1 <= nn)%nat -> exists r, asn1_length p tptr nn max_plen = Ok r /\ small_result r /\ settled r (asn1_length (p ++ q) tptr (nn + length q) max_plen).
Proof.
  intros Ht Hn H1. unfold asn1_length. destruct (peek_prefix p q tptr ltac:(lia)) as (c & -> & ->). cbn [mbind outcome_bind]. set (L := Z.land c 0x7f). destruct (_ =? 0x80); [|apply remain_settled; auto; lia]. destruct (Z.ltb_spec (Z.of_nat nn - 1) L) as [|Hl]; [exists 0; splits; [auto|unfold small_result; lia|intros N; now destruct N]|].
  rewrite (proj2 (Z.ltb_ge (Z.of_nat (nn + length q) - 1) L)) by lia. destruct (Z.eqb_spec L 0); [apply remain_settled; auto; lia|]. destruct (Z.eqb_spec L 1).
  { destruct (peek_prefix p q (tptr + 1) ltac:(lia)) as (v & -> & ->). apply remain_settled; auto; lia. } destruct (Z.eqb_spec L 2).
  { destruct (int16_prefix p q (tptr + 1) ltac:(lia) ltac:(lia)) as (v & -> & ->). apply remain_settled; auto; lia. } destruct (Z.eqb_spec L 3).
  { destruct (int24_prefix p q (tptr + 1) ltac:(lia) ltac:(lia)) as (v & -> & ->). apply remain_settled; auto; lia. } destruct (Z.eqb_spec L 4).
  { destruct (int32_prefix p q (tptr + 1) ltac:(lia) ltac:(lia)) as (v & -> & ->). apply remain_settled; auto; lia. } exists (-1). splits; auto; [unfold small_result; lia|now intros _].
Qed.
Lemma asn1_packet_spec (p q : list Z) max_plen : exists r, asn1_packet p max_plen = Ok r /\ small_result r /\ settled r (asn1_packet (p ++ q) max_plen).
Proof.
  assert (Z0 : forall f, exists r, Ok 0 = Ok r /\ small_result r /\ settled r f) by (intros f; exists 0; splits; [auto|unfold small_result; lia|intros N; now destruct N]).
  unfold asn1_packet. rewrite length_app. destruct (Z.ltb_spec (size_of p) 2) as [|L]; [apply Z0|]. rewrite (proj2 (Z.ltb_ge (Z.of_nat (length p + length q)) 2)) by lia. destruct (peek_prefix p q 0 ltac:(lia)) as (t & -> & ->). cbn [mbind outcome_bind]. destruct (_ =? 0x1f).
  - destruct (tag_loop_spec p q (length p - 1) 1 ltac:(lia) ltac:(lia)) as (j & nn & -> & H1 & H2 & H3). cbn [mbind outcome_bind]. destruct (Z.ltb_spec (Z.of_nat nn) 2) as [|L2]; [apply Z0|]. replace (length p + length q - 1)%nat with (length p - 1 + length q)%nat by lia. rewrite H3 by lia. cbn [mbind outcome_bind]. rewrite (proj2 (Z.ltb_ge (Z.of_nat (nn + length q)) 2)) by lia.
    replace (nn + length q - 1)%nat with (nn - 1 + length q)%nat by lia. apply asn1_length_spec; lia.
  - replace (length p + length q - 1)%nat with (length p - 1 + length q)%nat by lia. apply asn1_length_spec; lia.
Qed.
Lemma line_length_spec (p q : list Z) max_plen trunc_len : size_of p < 2 ^ 31 -> 0 <= max_plen -> 0 <= trunc_len < 2 ^ 31 -> exists r, line_length p max_plen trunc_len = Ok r /\ small_result r /\ (max_plen = 0 \/ trunc_len = 0 -> settled r (line_length (p ++ q) max_plen trunc_len)).
Proof.
  intros Hs Hm Ht. unfold line_length, small_result, settled. rewrite s32_id by lia. rewrite length_app. destruct (memchr_prefix p q 10 (length q) (length p) 0 ltac:(lia) ltac:(lia)) as (o & -> & P). cbn [mbind outcome_bind]. destruct o as [j|].
  - destruct P as [Hj ->]. cbn [mbind outcome_bind]. eexists. split; [reflexivity|]. split; [|auto]. destruct (_ && _); [lia|]. destruct (_ && _); lia.
  - eexists. split; [reflexivity|]. split; [destruct (_ && _); [lia|]; destruct (_ && _); lia|]. intros Hor. rewrite P. destruct (memchr_total (p ++ q) 10 (length q) (0 + Z.of_nat (length p)) ltac:(lia)) as (o & -> & Q); [rewrite length_app; lia|]. cbn [mbind outcome_bind]. intros N. f_equal. revert N. destruct o as [j|]; zbool; cbn [andb negb]; lia.
Qed.

(** ** Lines of HTTP *)
Lemma http_over b max_plen st : max_plen <> 0 -> max_plen <= size_of b -> forall fuel ptr1, 0 <= ptr1 <= size_of b -> max_plen <= ptr1 -> size_of b - ptr1 < Z.of_nat fuel -> http_lines fuel b max_plen st ptr1 = Ok (-1).
Proof.
  intros H0 Hb. induction fuel as [|fuel IH]; intros ptr1 Hp Hm Hf; [lia|]. cbn [http_lines]. destruct (memchr_total b 10 (Z.to_nat (size_of b - ptr1)) ptr1 ltac:(lia) ltac:(lia)) as (o & -> & Ho). cbn [mbind outcome_bind]. rewrite (proj2 (Z.eqb_neq max_plen 0)) by auto. cbn [negb andb]. destruct o as [j|].
  - rewrite !Z.gtb_ltb. rewrite (proj2 (Z.ltb_lt max_plen (j + 1))) by lia. destruct (st =? 0); [reflexivity|]. destruct (Z.ltb_spec (j + 1) (size_of b)); [|reflexivity]. destruct (peek_prefix b [] (j + 1) ltac:(lia)) as (v & -> & _). cbn [mbind outcome_bind]. destruct (SP_byte v && (2 <? j + 1)); [|reflexivity]. apply IH; lia.
  - rewrite Z.geb_leb. now rewrite (proj2 (Z.leb_le max_plen (size_of b))) by lia.
Qed.
Lemma http_lines_spec (p q : list Z) max_plen st : size_of p < 2 ^ 31 -> 0 <= max_plen -> forall fuel ptr1 fuel', 0 <= ptr1 <= size_of p -> size_of p - ptr1 < Z.of_nat fuel -> size_of (p ++ q) - ptr1 < Z.of_nat fuel' ->
  exists r, http_lines fuel p max_plen st ptr1 = Ok r /\ small_result r /\ settled r (http_lines fuel' (p ++ q) max_plen st ptr1).
Proof.
  intros Hs Hm. rewrite length_app. induction fuel as [|fuel IH]; intros ptr1 fuel' Hp Hf Hf'; [lia|]. destruct fuel' as [|fuel']; [lia|]. cbn [http_lines]. rewrite length_app. destruct (memchr_prefix p q 10 (length q) (Z.to_nat (size_of p - ptr1)) ptr1 ltac:(lia) ltac:(lia)) as (o & -> & P). cbn [mbind outcome_bind].
  replace (Z.to_nat (Z.of_nat (length p + length q) - ptr1)) with (Z.to_nat (size_of p - ptr1) + length q)%nat by lia. destruct o as [j|].
  - destruct P as [Hj ->]. cbn [mbind outcome_bind]. set (done := if negb (max_plen =? 0) && (j + 1 >? max_plen) then -1 else j + 1). assert (Hd : small_result done /\ done <> 0) by (subst done; unfold small_result; destruct (_ && _); lia).
    destruct (st =? 0); [exists done; splits; [auto|apply Hd|now intros _]|]. destruct (Z.ltb_spec (j + 1) (size_of p)) as [L|L].
    + rewrite (proj2 (Z.ltb_lt (j + 1) (Z.of_nat (length p + length q)))) by lia. destruct (peek_prefix p q (j + 1) ltac:(lia)) as (v & -> & ->). cbn [mbind outcome_bind]. destruct (SP_byte v && (j + 1 >? 2)); [|exists done; splits; [auto|apply Hd|intros _; reflexivity]]. apply IH; lia.
    + destruct (negb (max_plen =? 0) && (j + 1 >? max_plen)) eqn:E; [|exists 0; splits; [auto|unfold small_result; lia|intros N; now destruct N]]. exists (-1). splits; [auto|unfold small_result; lia|]. intros _. subst done. apply andb_true_iff in E as [E1 E2]. destruct (Z.eqb_spec max_plen 0); [discriminate|]. cbn [andb negb]. rewrite ?E2.
      destruct (Z.ltb_spec (j + 1) (Z.of_nat (length p + length q))); [|reflexivity]. destruct (peek_prefix (p ++ q) [] (j + 1)) as (v & -> & _); [rewrite length_app; lia|]. cbn [mbind outcome_bind]. destruct (SP_byte v && (j + 1 >? 2)); [|reflexivity]. apply http_over; rewrite ?length_app; lia.
  - rewrite P. destruct (negb (max_plen =? 0) && (size_of p >=? max_plen)) eqn:E; [|exists 0; splits; [auto|unfold small_result; lia|intros N; now destruct N]]. exists (-1). splits; [auto|unfold small_result; lia|]. intros _. apply andb_true_iff in E as [E1 E2]. destruct (Z.eqb_spec max_plen 0); [discriminate|]. cbn [andb negb].
    destruct (memchr_total (p ++ q) 10 (length q) (ptr1 + Z.of_nat (Z.to_nat (size_of p - ptr1)))) as (o & -> & Q); [lia|rewrite length_app; lia|]. cbn [mbind outcome_bind]. destruct o as [j|]; [|now rewrite Z.geb_leb, (proj2 (Z.leb_le max_plen _)) by lia]. rewrite !(Z.gtb_ltb (j + 1)), (proj2 (Z.ltb_lt max_plen (j + 1))) by lia.
    destruct (st =? 0); [reflexivity|]. destruct (Z.ltb_spec (j + 1) (Z.of_nat (length p + length q))); [|reflexivity]. destruct (peek_prefix (p ++ q) [] (j + 1)) as (v & -> & _); [rewrite length_app; lia|]. cbn [mbind outcome_bind]. destruct (SP_byte v && (2 <? j + 1)); [|reflexivity]. apply http_over; rewrite ?length_app; lia.
Qed.
(** The limit that counts for HTTP. *)
Definition http_limit (max_plen trunc_len : Z) : Z := if max_plen =? 0 then trunc_len else max_plen.
(** A buffer that is only the end of a line is a packet. *)
Definition blank (b : list Z) : bool := bool_decide (b = [10]) || bool_decide (b = [13; 10]).
Lemma http_packet_blank b max_plen trunc_len st : http_packet b max_plen trunc_len st = if blank b then Ok (size_of b) else http_lines (S (length b)) b (http_limit max_plen trunc_len) st 0.
Proof.
  unfold http_packet, blank, http_limit. destruct b as [|c [|d [|e b]]]; try (rewrite !bool_decide_false by congruence; reflexivity).
  - destruct (Z.eqb_spec c 10) as [->|N]; [reflexivity|]. rewrite !bool_decide_false by congruence. reflexivity.
  - destruct (Z.eqb_spec c 13) as [->|N]; cbn [andb]; [destruct (Z.eqb_spec d 10) as [->|N]; [reflexivity|]|]; rewrite !bool_decide_false by congruence; reflexivity.
Qed.
Lemma blank_spec b : blank b = true -> b = [10] \/ b = [13; 10].
Proof. unfold blank. intros [H|H]%orb_true_iff; apply bool_decide_eq_true_1 in H; auto. Qed.
(** More bytes behind an empty line. *)
Lemma blank_more b q max_plen st : blank b = true -> 1 < max_plen \/ max_plen = 0 -> q <> [] -> http_lines (S (length (b ++ q))) (b ++ q) max_plen st 0 = Ok (size_of b).
Proof.
  intros Hb Hm Hq. assert (Hs : 1 <= size_of b <= 2) by (apply blank_spec in Hb as [-> | ->]; cbn; lia). assert (E : memchr (Z.to_nat (size_of (b ++ q) - 0)) (b ++ q) 0 10 = Ok (Some (size_of b - 1))).
  { rewrite length_app. apply blank_spec in Hb as [-> | ->]; cbn [length]; [replace (Z.to_nat (Z.of_nat (1 + length q) - 0)) with (S (length q)) by lia|replace (Z.to_nat (Z.of_nat (2 + length q) - 0)) with (S (S (length q))) by lia]; reflexivity. }
  cbn [http_lines]. rewrite E. cbn [mbind outcome_bind]. replace (size_of b - 1 + 1) with (size_of b) by lia. replace (negb (max_plen =? 0) && (size_of b >? max_plen)) with false by lia. destruct (st =? 0); [reflexivity|]. assert (Hl : size_of b < size_of (b ++ q)) by (rewrite length_app; destruct q; [contradiction|cbn; lia]). rewrite (proj2 (Z.ltb_lt _ _) Hl).
  destruct (peek_prefix (b ++ q) [] (size_of b) ltac:(lia)) as (v & -> & _). cbn [mbind outcome_bind]. replace (size_of b >? 2) with false by lia. now rewrite andb_false_r.
Qed.
Lemma no_line p l st : memchr (length p) p 0 10 = Ok None -> size_of p < l \/ l = 0 -> http_lines (S (length p)) p l st 0 = Ok 0.
Proof. intros E Hl. cbn [http_lines]. replace (Z.to_nat (size_of p - 0)) with (length p) by lia. rewrite E. cbn [mbind outcome_bind]. now replace (negb (l =? 0) && (size_of p >=? l)) with false by lia. Qed.
Lemma http_packet_spec (p q : list Z) max_plen trunc_len st : size_of p < 2 ^ 31 -> 0 <= max_plen -> 0 <= trunc_len -> exists r, http_packet p max_plen trunc_len st = Ok r /\ small_result r /\ (http_limit max_plen trunc_len <> 1 -> settled r (http_packet (p ++ q) max_plen trunc_len st)).
Proof.
  intros Hs Hm Ht. rewrite !http_packet_blank. set (l := http_limit max_plen trunc_len). assert (Hl : 0 <= l) by (subst l; unfold http_limit; destruct (max_plen =? 0); lia). destruct (blank p) eqn:B.
  - exists (size_of p). splits; auto; [unfold small_result; lia|]. intros N _. destruct q as [|c q]; [now rewrite app_nil_r, B|]. destruct (blank (p ++ c :: q)) eqn:B2; [exfalso; apply blank_spec in B as [-> | ->], B2 as [B2|B2]; discriminate|]. apply blank_more; auto; lia.
  - destruct (http_lines_spec p q l st Hs Hl (S (length p)) 0 (S (length (p ++ q))) ltac:(lia) ltac:(lia) ltac:(lia)) as (r & E & R1 & R2). exists r. splits; auto. intros N Hr. destruct (blank (p ++ q)) eqn:B2; [|now apply R2].
    exfalso. apply Hr. assert (P : p = [] \/ p = [13]).
    { destruct p as [|c p]; auto. apply blank_spec in B2 as [B2|B2]; injection B2 as -> B2; [apply app_nil in B2 as [-> _]; discriminate B|]. destruct p as [|d p]; auto. injection B2 as -> B2. apply app_nil in B2 as [-> _]. discriminate B. }
    rewrite no_line in E; [congruence|destruct P as [-> | ->]; reflexivity|destruct P as [-> | ->]; cbn; lia].
Qed.

(** ** All types *)
(** The types and limits for which a result is final. *)
Definition limits_ok (htype : PacketParseType) (max_plen trunc_len : Z) : Prop :=
  match htype with
  | TCP_PB_RAW => False
  | TCP_PB_LINE_LF => max_plen = 0 \/ trunc_len = 0
  | TCP_PB_HTTP | TCP_PB_HTTPH | TCP_PB_HTTP_BIN | TCP_PB_HTTPH_BIN => http_limit max_plen trunc_len <> 1
  | _ => True
  end.
Definition final_result (p q : list Z) (st' : Z) (f : list Z -> outcome (Z * Z)) (ok : Prop) : Prop := exists r, f p = Ok (r, st') /\ small_result r /\ (r <> 0 -> ok -> f (p ++ q) = Ok (r, st')).
Lemma header_final p q st hlen max_plen (e : list Z -> outcome Z) ok : 0 < hlen -> (hlen <= size_of p -> exists v, e p = Ok v /\ e (p ++ q) = Ok v) ->
  final_result p q st (fun b => r ← (if size_of b <? hlen then Ok 0 else plen ← e b; Ok (remain hlen plen max_plen)); Ok (r, st)) ok.
Proof.
  intros Hh He. unfold final_result. rewrite length_app. destruct (Z.ltb_spec (size_of p) hlen) as [L|L]; [exists 0; splits; [reflexivity|unfold small_result; lia|contradiction]|]. destruct (He L) as (v & -> & ->). rewrite (proj2 (Z.ltb_ge _ hlen)) by lia. cbn [mbind outcome_bind]. pose proof (remain_range hlen v max_plen Hh). eexists. splits; [reflexivity|unfold small_result; lia|reflexivity].
Qed.
Lemma checked_final p q st hlen max_plen (e : list Z -> outcome (option Z)) ok : 0 < hlen -> (hlen <= size_of p -> exists v, e p = Ok v /\ e (p ++ q) = Ok v) ->
  final_result p q st (fun b => r ← (if size_of b <? hlen then Ok 0 else plen ← e b; Ok (match plen with Some plen => remain hlen plen max_plen | None => -1 end)); Ok (r, st)) ok.
Proof.
  intros Hh He. unfold final_result. rewrite length_app. destruct (Z.ltb_spec (size_of p) hlen) as [L|L]; [exists 0; splits; [reflexivity|unfold small_result; lia|contradiction]|]. destruct (He L) as (v & -> & ->). rewrite (proj2 (Z.ltb_ge _ hlen)) by lia. cbn [mbind outcome_bind].
  destruct v as [v|]; [pose proof (remain_range hlen v max_plen Hh)|]; eexists; splits; [reflexivity|unfold small_result; lia|reflexivity|reflexivity|unfold small_result; lia|reflexivity].
Qed.
Lemma plain_final p q st (e : list Z -> outcome Z) (ok : Prop) : (exists r, e p = Ok r /\ small_result r /\ (ok -> settled r (e (p ++ q)))) -> final_result p q st (fun b => r ← e b; Ok (r, st)) ok.
Proof. intros (r & E & R & S). exists r. rewrite E. splits; [reflexivity|auto|]. intros Hr Ho. now rewrite (S Ho Hr). Qed.
Lemma packet_final htype p q max_plen trunc_len st : size_of p < 2 ^ 31 -> 0 <= max_plen -> 0 <= trunc_len < 2 ^ 31 -> exists st', final_result p q st' (fun b => packet_get_length htype b max_plen trunc_len st) (limits_ok htype max_plen trunc_len).
Proof.
  intros Hs Hm Ht. destruct htype; [exists st|exists st|exists st|exists st|exists st|exists st|exists st|exists st|exists st|exists st|exists st|exists 1|exists st|exists st|exists 1].
  - exists (size_of p). splits; [reflexivity|unfold small_result; lia|contradiction].
  - apply header_final; [lia|]. intros L. apply peek_prefix. lia.
  - apply header_final; [lia|]. intros L. apply int16_prefix; lia.
  - apply header_final; [lia|]. intros L. apply int32_prefix; lia.
  - apply plain_final. destruct (asn1_packet_spec p q max_plen) as (r & E & R & S). eauto.
  - apply header_final; [lia|]. intros L. destruct (int32_prefix p q 0 ltac:(lia) ltac:(lia)) as (v & -> & ->). eauto.
  - apply checked_final; [lia|]. intros L. assert (T : take 4 (p ++ q) = take 4 p) by (apply take_app_le; lia). rewrite T. case_bool_decide; [|eauto]. destruct (peek_prefix p q 6 ltac:(lia)) as (f & -> & ->). cbn [mbind outcome_bind]. destruct (Z.testbit f 0).
    + destruct (little_int32_prefix p q 8 ltac:(lia) ltac:(lia)) as (v & -> & ->). eauto.
    + destruct (int32_prefix p q 8 ltac:(lia) ltac:(lia)) as (v & -> & ->). eauto.
  - apply checked_final; [lia|]. intros L. destruct (peek_prefix p q 0 ltac:(lia)) as (v & -> & ->). cbn [mbind outcome_bind]. destruct (v =? _); [|eauto]. destruct (int16_prefix p q 4 ltac:(lia) ltac:(lia)) as (c & -> & ->), (peek_prefix p q 6 ltac:(lia)) as (d & -> & ->). eauto.
  - apply plain_final. now apply line_length_spec.
  - apply checked_final; [lia|]. intros L. destruct (peek_prefix p q 0 ltac:(lia)) as (v & -> & ->). cbn [mbind outcome_bind]. destruct (v =? _); [|eauto]. destruct (int16_prefix p q 2 ltac:(lia) ltac:(lia)) as (c & -> & ->). eauto.
  - apply plain_final. apply http_packet_spec; lia.
  - apply plain_final. apply http_packet_spec; lia.
  - apply header_final; [lia|]. intros L. destruct (peek_prefix p q 0 ltac:(lia)) as (a & -> & ->), (peek_prefix p q 2 ltac:(lia)) as (c & -> & ->). cbn [mbind outcome_bind]. destruct (_ && _).
    + destruct (int16_prefix p q 0 ltac:(lia) ltac:(lia)) as (v & -> & ->). eauto.
    + apply int16_prefix; lia.
  - apply plain_final. apply http_packet_spec; lia.
  - apply plain_final. apply http_packet_spec; lia.
Qed.

(** ** What a sender writes *)
(** The [k] bytes of a number, the most significant one first. *)
Fixpoint be (k : nat) (n : Z) : list Z :=
  match k with O => [] | S k => n / 256 ^ Z.of_nat k mod 256 :: be k n end.
(** The formats of packets, each with the fields of its header that are not
    the length of the data. *)
Inductive frame :=
| F_1 | F_2 | F_4
| F_RM (last : bool)
| F_TPKT (reserved : Z)
| F_LINE
| F_CDR (major minor flags kind : Z)
| F_FCGI (kind id1 id0 reserved : Z) (padding : list Z)
| F_SSL3 (content major minor : Z)
| F_SSL2_HELLO (major minor : Z)
| F_ASN1 (tag : list Z) (long : option nat).
Definition frame_type (f : frame) : PacketParseType :=
  match f with
  | F_1 => TCP_PB_1 | F_2 => TCP_PB_2 | F_4 => TCP_PB_4 | F_RM _ => TCP_PB_RM | F_TPKT _ => TCP_PB_TPKT | F_LINE => TCP_PB_LINE_LF
  | F_CDR _ _ _ _ => TCP_PB_CDR | F_FCGI _ _ _ _ _ => TCP_PB_FCGI | F_SSL3 _ _ _ | F_SSL2_HELLO _ _ => TCP_PB_SSL_TLS | F_ASN1 _ _ => TCP_PB_ASN1
  end.
(** The length of ASN.1, in one byte or in a number of bytes. *)
Definition asn1_len (long : option nat) (n : Z) : list Z :=
  match long with None => [n] | Some k => 128 + Z.of_nat k :: be k n end.
(** What stands before [n] bytes of data, and behind them. *)
Definition frame_head (f : frame) (n : Z) : list Z :=
  match f with
  | F_1 => be 1 n
  | F_2 => be 2 n
  | F_4 => be 4 n
  | F_RM last => be 4 (if last then 2 ^ 31 + n else n)
  | F_TPKT reserved => [3; reserved] ++ be 2 (n + 4)
  | F_LINE => []
  | F_CDR major minor flags kind => CDR_MAGIC ++ [major; minor; flags; kind] ++ (if Z.testbit flags 0 then rev (be 4 n) else be 4 n)
  | F_FCGI kind id1 id0 reserved padding => [1; kind; id1; id0] ++ be 2 n ++ [size_of padding; reserved]
  | F_SSL3 content major minor => [content; major; minor] ++ be 2 n
  | F_SSL2_HELLO major minor => be 2 (2 ^ 15 + (n + 3)) ++ [1; major; minor]
  | F_ASN1 tag long => tag ++ asn1_len long n
  end.
Definition frame_end (f : frame) : list Z :=
  match f with F_LINE => [10] | F_FCGI _ _ _ _ padding => padding | _ => [] end.
Definition packet (f : frame) (d : list Z) : list Z := frame_head f (size_of d) ++ d ++ frame_end f.
(** A tag of ASN.1: one byte, or one that announces more, up to the first
    without the top bit. *)
Definition asn1_tag (tag : list Z) : Prop :=
  match tag with
  | [] => False
  | t :: more =>
      if Z.land t 0x1f =? 0x1f then exists mid c, more = mid ++ [c] /\ Forall (fun c => Z.land c 0x80 = 0x80) mid /\ Z.land c 0x80 <> 0x80
      else more = []
  end.
(** The data that fit into a packet. *)
Definition frame_ok (f : frame) (d : list Z) : Prop :=
  let n := size_of d in
  match f with
  | F_1 => n < 2 ^ 8
  | F_2 => n < 2 ^ 16
  | F_4 | F_RM _ | F_CDR _ _ _ _ => n < 2 ^ 31
  | F_TPKT _ => n + 4 < 2 ^ 16
  | F_LINE => Forall (fun c => c <> 10) d
  | F_FCGI _ _ _ _ padding => n < 2 ^ 16 /\ size_of padding < 2 ^ 8
  | F_SSL3 content _ minor => n < 2 ^ 16 /\ Z.testbit content 7 && (minor =? 1) = false
  | F_SSL2_HELLO _ _ => n + 3 < 2 ^ 15
  | F_ASN1 tag long => asn1_tag tag /\ match long with None => n < 2 ^ 7 | Some k => (k <= 4)%nat /\ n < 256 ^ Z.of_nat k end
  end.

(** ** Reading numbers back *)
Lemma be_length k n : length (be k n) = k.
Proof. induction k as [|k IH]; cbn [be length]; auto. Qed.
Lemma be_1 n : 0 <= n < 2 ^ 8 -> be 1 n = [n].
Proof. intros H. cbn [be]. change (256 ^ Z.of_nat 0) with 1. rewrite Z.div_1_r, Z.mod_small by lia. reflexivity. Qed.
Lemma be_2 n : 0 <= n < 2 ^ 16 -> exists a b, be 2 n = [a; b] /\ byte a /\ byte b /\ n = a * 2 ^ 8 + b.
Proof.
  intros H. cbn [be]. change (256 ^ Z.of_nat 1) with 256. change (256 ^ Z.of_nat 0) with 1. rewrite Z.div_1_r.
  eexists _, _. split; [reflexivity|]. unfold byte. lia.
Qed.
Lemma be_3 n : 0 <= n < 2 ^ 24 -> exists a b c, be 3 n = [a; b; c] /\ byte a /\ byte b /\ byte c /\ n = a * 2 ^ 16 + (b * 2 ^ 8 + c).
Proof.
  intros H. cbn [be]. change (256 ^ Z.of_nat 2) with (256 * 256). change (256 ^ Z.of_nat 1) with 256. change (256 ^ Z.of_nat 0) with 1.
  rewrite Z.div_1_r, <- Z.div_div by lia. eexists _, _, _. split; [reflexivity|]. unfold byte. lia.
Qed.
Lemma be_4 n : 0 <= n < 2 ^ 32 -> exists a b c e, be 4 n = [a; b; c; e] /\ byte a /\ byte b /\ byte c /\ byte e /\ n = a * 2 ^ 24 + (b * 2 ^ 16 + (c * 2 ^ 8 + e)).
Proof.
  intros H. cbn [be]. change (256 ^ Z.of_nat 3) with (256 * 256 * 256). change (256 ^ Z.of_nat 2) with (256 * 256). change (256 ^ Z.of_nat 1) with 256. change (256 ^ Z.of_nat 0) with 1.
  rewrite Z.div_1_r, <- !Z.div_div by lia. eexists _, _, _, _. split; [reflexivity|]. unfold byte. lia.
Qed.
Lemma peek_mid {A} (pre : list A) x l i : i = size_of pre -> peek (pre ++ x :: l) i = Ok x.
Proof. intros ->. apply peek_Some; [lia|]. rewrite Nat2Z.id. now apply list_lookup_middle. Qed.
Lemma peek_at {A} (pre mid : list A) x l i : i = size_of pre + size_of mid -> peek (pre ++ mid ++ x :: l) i = Ok x.
Proof. intros ->. rewrite app_assoc. apply peek_mid. rewrite length_app. lia. Qed.
(** Reads the byte behind [pre] and the concrete bytes [mid]. *)
Ltac read_at pre mid x l i :=
  let E := fresh in assert (E : peek (pre ++ mid ++ x :: l) i = Ok x) by (apply peek_at; cbn [length]; lia); cbn [app] in E; rewrite E; clear E.
Lemma int16_mid pre n l i : 0 <= n < 2 ^ 16 -> i = size_of pre -> int16_at (pre ++ be 2 n ++ l) i = Ok n.
Proof.
  intros H Hi. destruct (be_2 n H) as (a & b & -> & Ha & Hb & ->). unfold byte in *. unfold int16_at. cbn [app].
  read_at pre (@nil Z) a (b :: l) i. read_at pre [a] b l (i + 1). cbn [mbind outcome_bind]. now rewrite lor_low by lia.
Qed.
Lemma int24_mid pre n l i : 0 <= n < 2 ^ 24 -> i = size_of pre -> int24_at (pre ++ be 3 n ++ l) i = Ok n.
Proof.
  intros H Hi. destruct (be_3 n H) as (a & b & c & -> & Ha & Hb & Hc & ->). unfold byte in *. unfold int24_at, int16_at. cbn [app].
  read_at pre (@nil Z) a (b :: c :: l) i. read_at pre [a] b (c :: l) (i + 1). read_at pre [a; b] c l (i + 1 + 1).
  cbn [mbind outcome_bind]. now rewrite (lor_low b c 8), (lor_low a _ 16) by lia.
Qed.
Lemma int32_mid pre n l i : 0 <= n < 2 ^ 32 -> i = size_of pre -> int32_at (pre ++ be 4 n ++ l) i = Ok n.
Proof.
  intros H Hi. destruct (be_4 n H) as (a & b & c & e & -> & Ha & Hb & Hc & He & ->). unfold byte in *. unfold int32_at, int24_at, int16_at. cbn [app].
  read_at pre (@nil Z) a (b :: c :: e :: l) i. read_at pre [a] b (c :: e :: l) (i + 1). read_at pre [a; b] c (e :: l) (i + 1 + 1). read_at pre [a; b; c] e l (i + 1 + 1 + 1).
  cbn [mbind outcome_bind]. now rewrite (lor_low c e 8), (lor_low b _ 16), (lor_low a _ 24) by lia.
Qed.
Lemma little_int32_mid pre n l i : 0 <= n < 2 ^ 32 -> i = size_of pre -> little_int32_at (pre ++ rev (be 4 n) ++ l) i = Ok n.
Proof.
  intros H Hi. destruct (be_4 n H) as (a & b & c & e & -> & Ha & Hb & Hc & He & ->). unfold byte in *. unfold little_int32_at. cbn [rev app].
  read_at pre [e; c; b] a l (i + 3). read_at pre [e; c] b (a :: l) (i + 2). read_at pre [e] c (b :: a :: l) (i + 1). read_at pre (@nil Z) e (c :: b :: a :: l) i.
  cbn [mbind outcome_bind]. rewrite <- !Z.lor_assoc. now rewrite (lor_low c e 8), (lor_low b _ 16), (lor_low a _ 24) by lia.
Qed.
Lemma memchr_end c l rest : Forall (fun x => x <> c) l -> forall n i pre, (length l < n)%nat -> i = size_of pre -> memchr n (pre ++ l ++ c :: rest) i c = Ok (Some (i + size_of l)).
Proof.
  induction l as [|x l IH]; intros F n i pre Hn Hi; (destruct n as [|n]; [cbn in Hn; lia|]); cbn [memchr].
  - erewrite peek_Some; [|lia|apply list_lookup_middle; lia]. cbn [mbind outcome_bind]. rewrite Z.eqb_refl. do 2 f_equal. cbn. lia.
  - apply Forall_cons in F as [F1 F2]. erewrite peek_Some; [|lia|apply list_lookup_middle; lia]. cbn [mbind outcome_bind]. rewrite (proj2 (Z.eqb_neq x c)) by auto. cbn [app]. rewrite (cons_middle x pre), app_assoc. rewrite IH; auto; [do 2 f_equal; cbn; lia|cbn in Hn; lia|rewrite length_app; cbn; lia].
Qed.
Lemma remain_exact hlen plen max_plen : 0 <= plen -> 0 < hlen -> hlen + plen < 2 ^ 31 -> max_plen = 0 \/ plen <= max_plen -> remain hlen plen max_plen = hlen + plen.
Proof.
  intros H1 H2 H3 H4. unfold remain. rewrite s32_id by lia. replace (negb (max_plen =? 0) && (plen >? max_plen) || (hlen + plen <? hlen)) with false by lia. reflexivity.
Qed.

(** ** The length read is the length written *)
Lemma int16_front n l : 0 <= n < 2 ^ 16 -> int16_at (be 2 n ++ l) 0 = Ok n.
Proof. intros H. exact (int16_mid [] n l 0 H eq_refl). Qed.
Lemma int32_front n l : 0 <= n < 2 ^ 32 -> int32_at (be 4 n ++ l) 0 = Ok n.
Proof. intros H. exact (int32_mid [] n l 0 H eq_refl). Qed.
Lemma remain_packet f d hlen max_plen : hlen = size_of (frame_head f (size_of d)) -> 0 < hlen -> size_of (packet f d) < 2 ^ 31 ->
  max_plen = 0 \/ size_of (d ++ frame_end f) <= max_plen -> remain hlen (size_of (d ++ frame_end f)) max_plen = size_of (packet f d).
Proof. intros -> H0 Hs Hm. unfold packet in *. rewrite (length_app (frame_head _ _)) in *. rewrite remain_exact by lia. lia. Qed.
Lemma tag_loop_mid mid c l : Forall (fun c => Z.land c 0x80 = 0x80) mid -> Z.land c 0x80 <> 0x80 -> forall pre nn i, i = size_of pre -> (length mid < nn)%nat ->
  tag_loop nn (pre ++ mid ++ c :: l) i = Ok (i + size_of mid, (nn - length mid)%nat).
Proof.
  intros F Hc. induction mid as [|x mid IH]; intros pre nn i Hi Hn; (destruct nn as [|nn]; [cbn in Hn; lia|]); cbn [tag_loop app].
  - rewrite peek_mid by auto. cbn [mbind outcome_bind]. rewrite (proj2 (Z.eqb_neq _ _)) by auto. cbn [length]. do 2 f_equal. lia.
  - apply Forall_cons in F as [Fx F]. rewrite peek_mid by auto. cbn [mbind outcome_bind]. rewrite Fx, Z.eqb_refl, (cons_middle x pre), app_assoc.
    cbn [length] in *. rewrite IH by (auto; rewrite ?length_app; cbn [length]; lia). replace (i + 1 + size_of mid) with (i + Z.of_nat (S (length mid))) by lia. reflexivity.
Qed.
Lemma asn1_length_mid tag long n l max_plen nn : 0 <= n -> match long with None => n < 2 ^ 7 | Some k => (k <= 4)%nat /\ n < 256 ^ Z.of_nat k end ->
  nn = length (asn1_len long n ++ l) -> asn1_length (tag ++ asn1_len long n ++ l) (size_of tag) nn max_plen = Ok (remain (size_of (tag ++ asn1_len long n)) n max_plen).
Proof.
  intros H0 Hl ->. unfold asn1_length. rewrite !length_app. destruct long as [k|]; cbn [asn1_len app length].
  - destruct Hl as [Hk Hn]. rewrite (peek_mid tag _ _ (size_of tag)) by reflexivity. cbn [mbind outcome_bind]. rewrite be_length.
    assert (E : Z.land (128 + Z.of_nat k) 0x7f = Z.of_nat k /\ Z.land (128 + Z.of_nat k) 0x80 = 0x80) by (destruct k as [|[|[|[|[|?]]]]]; [split; reflexivity..|lia]).
    destruct E as [-> ->]. rewrite Z.eqb_refl, (proj2 (Z.ltb_ge _ _)) by lia. rewrite (cons_middle _ tag), app_assoc.
    assert (L : size_of tag + 1 = size_of (tag ++ [128 + Z.of_nat k])) by (rewrite length_app; cbn; lia).
    destruct k as [|[|[|[|[|?]]]]]; [..|lia]; cbn [Z.of_nat Pos.of_succ_nat Pos.succ Z.eqb Pos.eqb] in *.
    + do 2 f_equal; lia.
    + rewrite be_1 by lia. cbn [app]. rewrite peek_mid by auto. cbn [mbind outcome_bind]. do 2 f_equal; lia.
    + rewrite int16_mid by (auto; lia). cbn [mbind outcome_bind]. do 2 f_equal; lia.
    + rewrite int24_mid by (auto; lia). cbn [mbind outcome_bind]. do 2 f_equal; lia.
    + rewrite int32_mid by (auto; lia). cbn [mbind outcome_bind]. do 2 f_equal; lia.
  - rewrite (peek_mid tag _ _ (size_of tag)) by reflexivity. cbn [mbind outcome_bind]. pose proof (mask_80 n ltac:(unfold byte; lia)) as M. rewrite (proj2 (Z.ltb_lt n 128)) in M by lia. apply Z.eqb_eq in M. rewrite M.
    cbn [Z.eqb]. change 0x7f with (2 ^ 7 - 1). rewrite mask_low, Z.mod_small by lia. do 2 f_equal; lia.
Qed.
Lemma asn1_packet_mid tag long n l max_plen : asn1_tag tag -> 0 <= n -> match long with None => n < 2 ^ 7 | Some k => (k <= 4)%nat /\ n < 256 ^ Z.of_nat k end ->
  asn1_packet (tag ++ asn1_len long n ++ l) max_plen = Ok (remain (size_of (tag ++ asn1_len long n)) n max_plen).
Proof.
  intros Ht H0 Hl. assert (La : (1 <= length (asn1_len long n))%nat) by (destruct long; cbn; lia). rewrite <- (asn1_length_mid tag long n l max_plen _ H0 Hl eq_refl).
  unfold asn1_packet. destruct tag as [|t more]; [contradiction|]. cbn [asn1_tag] in Ht. cbn [app length]. rewrite (proj2 (Z.ltb_ge _ 2)) by (rewrite !length_app; lia).
  change (peek (t :: ?l) 0) with (Ok t). cbn [mbind outcome_bind]. rewrite Nat.sub_succ, Nat.sub_0_r. destruct (Z.land t 0x1f =? 0x1f).
  - destruct Ht as (mid & c & -> & F & Hc). rewrite <- !app_assoc. cbn [app]. pose proof (tag_loop_mid mid c (asn1_len long n ++ l) F Hc [t] (length (mid ++ c :: asn1_len long n ++ l)) 1 eq_refl) as T. cbn [app] in T. rewrite T by (rewrite length_app; cbn [length]; lia). cbn [mbind outcome_bind].
    rewrite !length_app. cbn [length]. rewrite !length_app. rewrite (proj2 (Z.ltb_ge _ 2)) by lia. f_equal; lia.
  - subst more. cbn [app length]. reflexivity.
Qed.
Lemma packet_length_of f d rest max_plen st : frame_ok f d -> size_of (packet f d) < 2 ^ 31 -> max_plen = 0 \/ size_of (d ++ frame_end f) <= max_plen -> 0 <= max_plen ->
  packet_get_length (frame_type f) (packet f d ++ rest) max_plen 0 st = Ok (size_of (packet f d), st).
Proof.
  intros Hp Hs Hm H0. assert (Hb : packet f d ++ rest = frame_head f (size_of d) ++ (d ++ frame_end f ++ rest)) by (unfold packet; now rewrite <- !app_assoc).
  assert (R : forall hlen plen, hlen = size_of (frame_head f (size_of d)) -> 0 < hlen -> plen = size_of (d ++ frame_end f) -> remain hlen plen max_plen = size_of (packet f d)).
  { intros hlen plen H1 H2 ->. now apply remain_packet. }
  rewrite Hb. set (l := d ++ frame_end f ++ rest). set (n := size_of d) in *. assert (Hn : 0 <= n) by lia.
  destruct f as [| | |last|reserved| |major minor flags kind|kind id1 id0 reserved padding|content major minor|major minor|tag long]; cbn [packet_get_length frame_type frame_head frame_ok frame_end] in *; rewrite ?app_nil_r in R; fold n in Hp.
  - rewrite be_1 in * by lia. rewrite (proj2 (Z.ltb_ge _ 1)) by (cbn; lia). change (peek ([n] ++ l) 0) with (Ok n). cbn [mbind outcome_bind]. now rewrite R.
  - rewrite (proj2 (Z.ltb_ge _ 2)) by (rewrite length_app, be_length; lia). rewrite int16_front by lia. cbn [mbind outcome_bind]. now rewrite R.
  - rewrite (proj2 (Z.ltb_ge _ 4)) by (rewrite length_app, be_length; lia). rewrite int32_front by lia. cbn [mbind outcome_bind]. now rewrite R.
  - rewrite (proj2 (Z.ltb_ge _ 4)) by (rewrite length_app, be_length; lia). rewrite int32_front by (destruct last; lia). cbn [mbind outcome_bind]. change 0x7fffffff with (2 ^ 31 - 1). rewrite mask_low by lia.
    rewrite R; [reflexivity|now rewrite be_length|lia|]. destruct last; [|now rewrite Z.mod_small by lia]. rewrite Z.add_comm, <- (Z.mul_1_l (2 ^ 31)) at 1. now rewrite Z.mod_add, Z.mod_small by lia.
  - rewrite (proj2 (Z.ltb_ge _ 4)) by (rewrite !length_app, be_length; cbn; lia). rewrite <- app_assoc. change (peek ([3; reserved] ++ ?l) 0) with (Ok 3). cbn [mbind outcome_bind]. change (3 =? TPKT_VRSN) with true. cbn iota.
    rewrite (int16_mid [3; reserved] (n + 4) l 2) by (auto; lia). cbn [mbind outcome_bind]. rewrite u32_id by lia. now rewrite R by (auto; lia).
  - unfold line_length. cbn [app]. subst l. cbn [app]. rewrite (memchr_end 10 d rest Hp _ 0 []); [|rewrite !length_app; cbn; lia|reflexivity]. cbn [mbind outcome_bind]. rewrite andb_false_r. unfold packet in *. cbn [frame_head frame_end app] in *. rewrite length_app in *. cbn [length] in *. fold n in Hm |- *.
    replace ((0 + n + 1 >? max_plen) && negb (max_plen =? 0)) with false by lia. do 2 f_equal. subst n. lia.
  - rewrite (proj2 (Z.ltb_ge _ 12)) by (rewrite !length_app; destruct (Z.testbit flags 0); rewrite ?length_rev, be_length; cbn; lia). rewrite <- !app_assoc. change (take 4 (CDR_MAGIC ++ ?l)) with CDR_MAGIC. rewrite bool_decide_eq_true_2 by reflexivity.
    change (peek (CDR_MAGIC ++ [major; minor; flags; kind] ++ ?l) 6) with (Ok flags). cbn [mbind outcome_bind]. rewrite (app_assoc CDR_MAGIC). destruct (Z.testbit flags 0).
    + rewrite little_int32_mid by (auto; lia). cbn [mbind outcome_bind]. now rewrite R.
    + rewrite int32_mid by (auto; lia). cbn [mbind outcome_bind]. now rewrite R.
  - destruct Hp as [Hp1 Hp2]. rewrite (proj2 (Z.ltb_ge _ 8)) by (rewrite !length_app, be_length; cbn; lia). rewrite <- !app_assoc. change (peek ([1; kind; id1; id0] ++ ?l) 0) with (Ok 1). cbn [mbind outcome_bind]. change (1 =? FCGI_VERSION_1) with true. cbn iota.
    rewrite (int16_mid [1; kind; id1; id0]) by (auto; lia). cbn [mbind outcome_bind]. change ([size_of padding; reserved] ++ l) with (size_of padding :: reserved :: l). rewrite (peek_at [1; kind; id1; id0] (be 2 n)) by (rewrite be_length; reflexivity). cbn [mbind outcome_bind].
    rewrite R; [reflexivity|rewrite !length_app, be_length; reflexivity|lia|rewrite length_app; lia].
  - destruct Hp as [Hp1 Hp2]. rewrite (proj2 (Z.ltb_ge _ 5)) by (rewrite !length_app, be_length; cbn; lia). rewrite <- app_assoc. change (peek ([content; major; minor] ++ ?l) 0) with (Ok content). change (peek ([content; major; minor] ++ ?l) 2) with (Ok minor). cbn [mbind outcome_bind]. rewrite Hp2.
    rewrite (int16_mid [content; major; minor]) by (auto; lia). cbn [mbind outcome_bind]. now rewrite R.
  - rewrite (proj2 (Z.ltb_ge _ 5)) by (rewrite !length_app, be_length; cbn; lia). rewrite <- app_assoc. pose proof (int16_front (2 ^ 15 + (n + 3)) ([1; major; minor] ++ l) ltac:(lia)) as E.
    destruct (be_2 (2 ^ 15 + (n + 3)) ltac:(lia)) as (a & b & Eb & Ha & Hb' & Ev). rewrite Eb in *. cbn [app] in *. unfold byte in *. change (peek (a :: ?l) 0) with (Ok a). change (peek (a :: b :: 1 :: ?l) 2) with (Ok 1). cbn [mbind outcome_bind].
    assert (T : Z.testbit a 7 = true) by (apply Z.testbit_true; [lia|]; change (2 ^ 7) with 128; replace (a / 128) with 1 by lia; reflexivity). rewrite T. cbn [Z.eqb Pos.eqb andb]. rewrite E. cbn [mbind outcome_bind].
    change 0x7fff with (2 ^ 15 - 1). rewrite mask_low by lia. replace (2 ^ 15 + (n + 3)) with (n + 3 + 1 * 2 ^ 15) by lia. rewrite Z.mod_add, Z.mod_small, u32_id by lia. rewrite R; [reflexivity|reflexivity|lia|lia].
  - destruct Hp as [Ht Hl]. rewrite <- app_assoc, asn1_packet_mid by auto. cbn [mbind outcome_bind]. assert (1 <= length tag)%nat by (destruct tag; [contradiction|cbn; lia]). rewrite R; auto. rewrite length_app. lia.
Qed.

(** ** The properties *)
(** C37. For every type of packet and every input of fewer than 2^31 bytes, the length is
    computed without a look behind the bytes that have arrived, is -1, 0 or a positive int, and once
    it is not 0 it stays the same when more bytes arrive. The exceptions to the last part are raw
    packets, whose length is that of what has arrived, lines when there are both a limit and a
    length to cut them at, and HTTP with a limit of one byte. *)
Theorem packet_length_final htype p max_plen trunc_len st : size_of p < 2 ^ 31 -> 0 <= max_plen -> 0 <= trunc_len < 2 ^ 31 ->
  exists r st', packet_get_length htype p max_plen trunc_len st = Ok (r, st') /\ -1 <= r < 2 ^ 31 /\
    (r <> 0 -> limits_ok htype max_plen trunc_len -> forall q, packet_get_length htype (p ++ q) max_plen trunc_len st = Ok (r, st')).
Proof.
  intros Hs Hm Ht. destruct (packet_final htype p [] max_plen trunc_len st Hs Hm Ht) as (st1 & r & E & R & _). exists r, st1. splits; auto; try apply R. intros Hr Hl q. destruct (packet_final htype p q max_plen trunc_len st Hs Hm Ht) as (st2 & r2 & E2 & _ & F). rewrite E in E2. injection E2 as <- <-. auto.
Qed.
(** What the reader of a packet is given: the data alone, the data with the
    header, or the whole packet. *)
Definition frame_body (f : frame) (d : list Z) : list Z :=
  match f with
  | F_1 | F_2 | F_4 => d
  | F_FCGI _ _ _ _ _ => frame_head f (size_of d) ++ d
  | _ => packet f d
  end.
Lemma body_alone f d pos : frame_end f = [] -> size_of (frame_head f (size_of d)) = pos ->
  exists p n, @Ok (Z * Z) (pos, size_of (packet f d) - pos) = Ok (p, n) /\ take (Z.to_nat n) (drop (Z.to_nat p) (packet f d)) = d.
Proof.
  intros He <-. eexists _, _. split; [reflexivity|]. unfold packet. rewrite He, app_nil_r, Nat2Z.id, drop_app_length. apply take_ge. rewrite length_app. lia.
Qed.
(** C38. For each format of a packet with a header (lengths of 1, 2 or 4 bytes, record marking,
    TPKT, CDR of both byte orders, FastCGI with padding, both headers of SSL, ASN.1 with short and
    long tags and lengths) and for lines, what a sender writes around data that fit into the length
    field and the limit that is set is read back: the length is that of the packet whatever follows
    it; when only a part of it has arrived the length is 0 (unknown) or already the right one; and
    the body is the data for the lengths of 1, 2 and 4 bytes, the header and the data without the
    padding for FastCGI, and the whole packet for the other types. *)
Theorem packet_roundtrip f d max_plen st : frame_ok f d -> size_of (packet f d) < 2 ^ 31 -> 0 <= max_plen -> max_plen = 0 \/ size_of (d ++ frame_end f) <= max_plen ->
  (forall rest, packet_get_length (frame_type f) (packet f d ++ rest) max_plen 0 st = Ok (size_of (packet f d), st)) /\
  (forall p q, packet f d = p ++ q -> exists r, packet_get_length (frame_type f) p max_plen 0 st = Ok (r, st) /\ (r = 0 \/ r = size_of (packet f d))) /\
  exists pos n, packet_get_body (frame_type f) (packet f d) (size_of (packet f d)) = Ok (pos, n) /\ take (Z.to_nat n) (drop (Z.to_nat pos) (packet f d)) = frame_body f d.
Proof.
  intros Hp Hs H0 Hm. splits.
  - intros rest. now apply packet_length_of.
  - intros p q E. assert (Hq : size_of p < 2 ^ 31) by (rewrite E, length_app in Hs; lia). destruct (packet_final (frame_type f) p q max_plen 0 st Hq H0 ltac:(lia)) as (st1 & r & Er & _ & F). pose proof (packet_length_of f d [] max_plen st Hp Hs Hm H0) as L. rewrite app_nil_r, E in L.
    assert (st1 = st) as -> by (destruct f; cbn [packet_get_length frame_type] in Er; match type of Er with (_ ← ?e; _) = _ => destruct e; cbn in Er; congruence end). exists r. split; [exact Er|]. destruct (Z.eq_dec r 0) as [|Hr]; auto. right. rewrite F in L; [congruence|auto|destruct f; cbn; auto].
  - destruct f as [| | |last|reserved| |major minor flags kind|kind id1 id0 reserved padding|content major minor|major minor|tag long]; cbn [packet_get_body frame_type frame_body];
      try (eexists _, _; split; [reflexivity|apply take_ge; cbn [drop Z.to_nat]; lia]); [now apply (body_alone F_1)|now apply (body_alone F_2)|now apply (body_alone F_4)|].
    set (f := F_FCGI kind id1 id0 reserved padding). assert (P : peek (packet f d) 6 = Ok (size_of padding)).
    { unfold packet. cbn [frame_head f]. rewrite <- !app_assoc. apply (peek_at [1; kind; id1; id0] (be 2 (size_of d))). now rewrite be_length. }
    rewrite P. eexists _, _. split; [reflexivity|]. change (drop (Z.to_nat 0) (packet f d)) with (packet f d). unfold packet. rewrite app_assoc. cbn [frame_end f].
    replace (Z.to_nat _) with (length (frame_head f (size_of d) ++ d)) by (rewrite (length_app _ padding); lia). apply take_app_length.
Qed.
(** A limit of 1 for lines of HTTP: the end of a line in two parts. *)
Lemma split_line_refused : packet_get_length TCP_PB_HTTP [13] 1 0 0 = Ok (-1, 0) /\ packet_get_length TCP_PB_HTTP [13; 10] 1 0 0 = Ok (2, 0).
Proof. split; reflexivity. Qed.
Lemma packet_length_final_witness : packet_get_length TCP_PB_ASN1 [0x3F; 0x81; 0x02; 0x82; 0x01; 0x00; 7] 0 0 0 = Ok (262, 0) /\ forall q, packet_get_length TCP_PB_ASN1 ([0x3F; 0x81; 0x02; 0x82; 0x01; 0x00; 7] ++ q) 0 0 0 = Ok (262, 0).
Proof.
  destruct (packet_length_final TCP_PB_ASN1 [0x3F; 0x81; 0x02; 0x82; 0x01; 0x00; 7] 0 0 0) as (r & st & E & _ & F); [cbn; lia|lia|lia|]. assert (E2 : packet_get_length TCP_PB_ASN1 [0x3F; 0x81; 0x02; 0x82; 0x01; 0x00; 7] 0 0 0 = Ok (262, 0)) by (vm_compute; reflexivity).
  split; [exact E2|]. rewrite E in E2. injection E2 as -> ->. apply F; [lia|exact I].
Defined.
Lemma packet_roundtrip_witness : packet F_2 [1; 2; 3] = [0; 3; 1; 2; 3] /\ packet (F_ASN1 [0x3F; 0x81; 0x02] (Some 2%nat)) [7; 8] = [0x3F; 0x81; 0x02; 0x82; 0; 2; 7; 8] /\
  (forall rest, packet_get_length TCP_PB_2 ([0; 3; 1; 2; 3] ++ rest) 3 0 0 = Ok (5, 0)) /\
  forall rest, packet_get_length TCP_PB_ASN1 ([0x3F; 0x81; 0x02; 0x82; 0; 2; 7; 8] ++ rest) 3 0 0 = Ok (8, 0).
Proof.
  split; [reflexivity|]. split; [reflexivity|]. split.
  - destruct (packet_roundtrip F_2 [1; 2; 3] 3 0) as (H & _); [vm_compute; reflexivity|vm_compute; reflexivity|lia|right; vm_compute; discriminate|]. exact H.
  - destruct (packet_roundtrip (F_ASN1 [0x3F; 0x81; 0x02] (Some 2%nat)) [7; 8] 3 0) as (H & _); [|vm_compute; reflexivity|lia|right; vm_compute; discriminate|exact H].
    split; [|split; [lia|vm_compute; reflexivity]]. cbn. exists [0x81], 0x02. split; [reflexivity|]. split; [repeat constructor|discriminate].
Defined.
