(* ===== verification/PacketHttp.v ===== *)
(** Messages of HTTP and records of SSL (packet_parser.c): the tables of names, the parser of
    lines, and lines as they are written. [at_ptr] says what follows a pointer. *)

From S2P Require Import Prelude.
From stdpp Require Import base option list.
From Stdlib Require Import String Ascii.
From S2P Require Import Memory PacketLength.
Local Open Scope Z_scope.
Local Open Scope list_scope.
Notation length := List.length.
Notation concat := List.concat.

(** ** Characters *)
Definition text (s : string) : list Z := map (fun c => Z.of_N (N_of_ascii c)) (list_ascii_of_string s).
Definition tspecials : list Z := text "()<>@,;:\/[]?={} " ++ [34; 9].
Definition tspecial (x : Z) : bool := (x <? 33) || (x <? 127) && bool_decide (x ∈ tspecials).
Definition is_tspecial (x : Z) : bool := if (x >? 32) && (x <? 128) then tspecial x else true.
Definition isdigit (c : Z) : bool := (48 <=? c) && (c <=? 57).
Definition islower (c : Z) : bool := (97 <=? c) && (c <=? 122).
Definition isupper (c : Z) : bool := (65 <=? c) && (c <=? 90).
Definition toupper (c : Z) : Z := if islower c then c - 32 else c.
Definition tolower (c : Z) : Z := if isupper c then c + 32 else c.

(** ** Names with an index *)
Definition http_hdr_strings : list (list Z) := map text
  ["Cache-Control"; "Connection"; "Date"; "Pragma"; "Transfer-Encoding"; "Upgrade"; "Via"; "Accept"; "Accept-Charset"; "Accept-Encoding"; "Accept-Language"; "Authorization"; "From"; "Host"; "If-Modified-Since"; "If-Match"; "If-None-Match"; "If-Range"; "If-Unmodified-Since"; "Max-Forwards"; "Proxy-Authorization"; "Range"; "Referer"; "User-Agent"; "Age"; "Location"; "Proxy-Authenticate"; "Public"; "Retry-After"; "Server"; "Vary"; "Warning"; "Www-Authenticate"; "Allow"; "Content-Base"; "Content-Encoding"; "Content-Language"; "Content-Length"; "Content-Location"; "Content-Md5"; "Content-Range"; "Content-Type"; "Etag"; "Expires"; "Last-Modified"; "Accept-Ranges"; "Set-Cookie"; "Set-Cookie2"; "X-Forwarded-For"; "Cookie"; "Keep-Alive"; "Proxy-Connection"]%string.
Definition http_meth_strings : list (list Z) := map text ["OPTIONS"; "GET"; "HEAD"; "POST"; "PUT"; "DELETE"; "TRACE"]%string.
Definition HTTP_HDR_HASH_SIZE : Z := 53.
Definition HTTP_METH_HASH_SIZE : Z := 13.
Definition HTTP_MAX_NAME_LEN : Z := 50.
Definition hash_update (h c : Z) : Z :=
  let h := w64 (Z.shiftl h 4 + c) in
  let g := Z.land h 0xf0000000 in
  if g =? 0 then h else Z.lxor (Z.lxor h (Z.shiftr g 24)) g.
(** The entries of a bucket are a list. *)
Record http_atom := mkHttpAtom { ha_h : Z; ha_name : list Z; ha_len : Z; ha_index : Z }.
(** The entry is the first one of its bucket. *)
Definition http_hash_insert (name : list Z) (index : Z) (hash : list (list http_atom)) (hsize : Z) : list (list http_atom) :=
  let h := fold_left hash_update name 0 in
  let ix := Z.to_nat (h mod hsize) in
  <[ix := mkHttpAtom h name (size_of name) index :: default [] (hash !! ix)]> hash.
Fixpoint hash_names (names : list (list Z)) (i : Z) (hash : list (list http_atom)) (hsize : Z) : list (list http_atom) :=
  match names with [] => hash | name :: names => hash_names names (i + 1) (http_hash_insert name i hash hsize) hsize end.
Definition http_table (names : list (list Z)) (hsize : Z) : list (list http_atom) := hash_names names 0 (replicate (Z.to_nat hsize) []) hsize.
Definition http_hdr_hash : list (list http_atom) := Eval vm_compute in http_table http_hdr_strings HTTP_HDR_HASH_SIZE.
Definition http_meth_hash : list (list http_atom) := Eval vm_compute in http_table http_meth_strings HTTP_METH_HASH_SIZE.
(** At most [n] characters are the same; behind a name is a 0. *)
Fixpoint strncmp_eq (n : nat) (a b : list Z) : bool :=
  match n with
  | O => true
  | S n => let x := hd 0 a in let y := hd 0 b in (x =? y) && ((x =? 0) || strncmp_eq n (tl a) (tl b))
  end.
Fixpoint bucket_lookup (ap : list http_atom) (name : list Z) (len h : Z) : option Z :=
  match ap with
  | [] => None
  | a :: ap => if (ha_h a =? h) && (ha_len a =? len) && strncmp_eq (Z.to_nat len) (ha_name a) name then Some (ha_index a) else bucket_lookup ap name len h
  end.
Definition http_hash_lookup (name : list Z) (len h : Z) (hash : list (list http_atom)) (hsize : Z) : option Z := bucket_lookup (default [] (hash !! Z.to_nat (h mod hsize))) name len h.

(** ** URIs *)
Inductive http_uri := URI_STAR | URI_STRING (s1 : list Z) | URI_ABS_PATH (s1 : list Z) | URI_SCHEME (s1 s2 : list Z) | URI_HTTP (s1 : list Z) (port : Z) (s2 : list Z) | URI_HTTPS (s1 : list Z) (port : Z) (s2 : list Z).
Fixpoint find_byte (u : list Z) (c : Z) : option nat := match u with [] => None | x :: u => if x =? c then Some O else i ← find_byte u c; Some (S i) end.
(** The number at the start, and what is behind it. *)
Fixpoint number (l : list Z) (acc : Z) : Z * list Z := match l with c :: l' => if isdigit c then number l' (s32 (acc * 10 + (c - 48))) else (acc, l) | [] => (acc, []) end.
(** The host, the port (0 if there is none) and the path. *)
Definition http_parse_absoluteURI (u : list Z) : list Z * Z * list Z :=
  let '(host, s2) := match find_byte u 47 with None => (u, [47]) | Some n => (take n u, drop n u) end in
  match find_byte host 58 with
  | None => (host, 0, s2)
  | Some n =>
      let '(port, rest) := number (drop (S n) host) 0 in
      (take n host, match rest with [] => port | _ => 0 end, s2)
  end.
Definition strncasecmp_eq (u s : list Z) : bool := bool_decide (map tolower (take (length s) u) = s).
Definition http_parse_uri (u : list Z) : http_uri :=
  if bool_decide (u = [42]) then URI_STAR
  else if (size_of u <=? 1) || (hd 0 u =? 47) then URI_ABS_PATH u
  else if (size_of u >=? 7) && strncasecmp_eq u (text "http://") then let '(s1, port, s2) := http_parse_absoluteURI (drop 7 u) in URI_HTTP s1 port s2
  else if (size_of u >=? 8) && strncasecmp_eq u (text "https://") then let '(s1, port, s2) := http_parse_absoluteURI (drop 8 u) in URI_HTTPS s1 port s2
  else match find_byte u 58 with None => URI_STRING u | Some n => URI_SCHEME (take n u) (drop (S n) u) end.

(** ** Messages *)
(** The calls of the user's functions, with their arguments. *)
Inductive http_message :=
| http_response (major minor status : Z) (phrase : list Z)
| http_request (meth : option Z) (meth_ptr : list Z) (uri : http_uri) (major minor : Z)
| http_eoh
| http_header (name : option Z) (name_ptr value : list Z).
Definition slice (buf : list Z) (i n : Z) : list Z := take (Z.to_nat n) (drop (Z.to_nat i) buf).
(** While n > 0 and the test holds: where it stops, and how many bytes are left. *)
Fixpoint skip (test : Z -> bool) (n : nat) (buf : list Z) (ptr : Z) : outcome (Z * nat) :=
  match n with O => Ok (ptr, O) | S k => c ← peek buf ptr; if test c then skip test k buf (ptr + 1) else Ok (ptr, n) end.
Fixpoint digits (n : nat) (buf : list Z) (ptr acc : Z) : outcome (Z * Z * nat) :=
  match n with O => Ok (acc, ptr, O) | S k => c ← peek buf ptr; if isdigit c then digits k buf (ptr + 1) (s32 (10 * acc + (c - 48))) else Ok (acc, ptr, n) end.
(** "1.1": the numbers, or [None]. *)
Definition http_version (n : nat) (buf : list Z) (ptr : Z) : outcome (option (Z * Z * Z * nat)) :=
  '(major, p1, n1) ← digits n buf ptr 0;
  match n1 with
  | O => Ok None
  | S n2 =>
      c ← peek buf p1;
      if (p1 =? ptr) || negb (c =? 46) then Ok None
      else
        '(minor, p2, n3) ← digits n2 buf (p1 + 1) 0;
        Ok (if p2 =? p1 + 1 then None else Some (major, minor, p2, n3))
  end.
(** A status line, from behind "HTTP/" on. *)
Definition parse_status_line (buf : list Z) (n : nat) (ptr : Z) : outcome (option http_message) :=
  v ← http_version n buf ptr;
  match v with
  | None => Ok None
  | Some (major, minor, p2, n) =>
      '(p3, n) ← skip SP_byte n buf p2;
      if p3 =? p2 then Ok None
      else
        '(status, p4, n) ← digits n buf p3 0;
        '(p5, n) ← skip SP_byte n buf p4;
        Ok (if (p5 =? p4) && negb (Nat.eqb n 0) then None else Some (http_response major minor status (slice buf p5 (Z.of_nat n))))
  end.
Fixpoint method_loop (n : nat) (buf : list Z) (ptr h : Z) : outcome (Z * nat * Z) :=
  match n with O => Ok (ptr, O, h) | S k => c ← peek buf ptr; if is_tspecial c then Ok (ptr, n, h) else method_loop k buf (ptr + 1) (hash_update h c) end.
(** A request line. *)
Definition parse_request_line (buf : list Z) (n : nat) : outcome (option http_message) :=
  '(p1, n, h) ← method_loop n buf 0 0;
  match n with
  | O => Ok None
  | S _ =>
      c ← peek buf p1;
      if (p1 =? 0) || negb (SP_byte c) then Ok None
      else
        let meth_ptr := slice buf 0 p1 in
        let meth := http_hash_lookup meth_ptr p1 h http_meth_hash HTTP_METH_HASH_SIZE in
        '(p2, n) ← skip SP_byte n buf p1;
        '(p3, n) ← skip (fun c => negb (SP_byte c)) n buf p2;
        if p3 =? p2 then Ok None
        else
          let uri := http_parse_uri (slice buf p2 (p3 - p2)) in
          '(p4, n) ← skip SP_byte n buf p3;
          if Nat.eqb n 0 then Ok (Some (http_request meth meth_ptr uri 0 9))
          else if Nat.ltb n 8 then Ok None
          else if negb (bool_decide (slice buf p4 5 = text "HTTP/")) then Ok None
          else
            v ← http_version (n - 5) buf (p4 + 5);
            Ok (match v with None => None | Some (major, minor, _, _) => Some (http_request meth meth_ptr uri major minor) end)
  end.
(** The name of a header: [name_buf] is what was stored, in reverse. *)
Fixpoint name_loop (n : nat) (buf : list Z) (ptr : Z) (up : bool) (name_len : Z) (name_buf : list Z) (h : Z) : outcome (option (Z * nat * Z * list Z * Z)) :=
  match n with
  | O => Undef
  | S k =>
      c ← peek buf ptr;
      if is_tspecial c then Ok (Some (ptr, n, name_len, name_buf, h))
      else
        let stored := name_len <? HTTP_MAX_NAME_LEN in
        let c1 := if up then toupper c else tolower c in
        let up := if stored then (if up then false else c =? 45) else up in
        let name_buf := if stored then c1 :: name_buf else name_buf in
        let h := if stored then hash_update h c1 else h in
        match k with O => Ok None | S _ => name_loop k buf (ptr + 1) up (name_len + 1) name_buf h end
  end.
(** A header. *)
Definition parse_header (buf : list Z) (n : nat) : outcome (option http_message) :=
  r ← name_loop n buf 0 true 0 [] 0;
  match r with
  | None => Ok None
  | Some (p1, n, name_len, name_buf, h) =>
      '(p2, n) ← skip SP_byte n buf p1;
      c ← peek buf p2;
      if negb (c =? 58) then Ok None
      else
        let '(name, name_ptr) := if name_len <=? HTTP_MAX_NAME_LEN then (http_hash_lookup (rev name_buf) name_len h http_hdr_hash HTTP_HDR_HASH_SIZE, rev name_buf) else (None, slice buf 0 name_len) in
        match n with
        | O => Undef
        | S n => '(p3, n) ← skip SP_byte n buf (p2 + 1); Ok (Some (http_header name name_ptr (slice buf p3 (Z.of_nat n))))
        end
  end.
(** The bytes without the end of the line. *)
Definition trimmed (buf : list Z) : outcome nat :=
  let n := length buf in
  cr ← (if Nat.leb 2 n then c ← peek buf (size_of buf - 2); Ok (c =? 13) else Ok false);
  if cr : bool then Ok (n - 2)%nat
  else nl ← (if Nat.leb 1 n then c ← peek buf (size_of buf - 1); Ok (c =? 10) else Ok false); Ok (if nl : bool then (n - 1)%nat else n).
(** The message that is passed on, or [None]; and the state, 0 at the start. *)
Definition packet_parse_http (buf : list Z) (statep : Z) : outcome (option http_message * Z) :=
  n ← trimmed buf;
  if statep =? 0 then
    m ← (if Nat.leb 5 n && bool_decide (take 5 buf = text "HTTP/") then parse_status_line buf (n - 5) 5 else parse_request_line buf n);
    Ok (m, match m with Some _ => 1 | None => 0 end)
  else if Nat.eqb n 0 then Ok (Some http_eoh, 0)
  else m ← parse_header buf n; Ok (m, statep).
(** The content type, the version and the data with its prefix. *)
Definition packet_parse_ssl (buf : list Z) : outcome (Z * Z * Z * list Z * list Z) :=
  let len := size_of buf in
  a ← peek buf 0;
  c ← peek buf 2;
  if Z.testbit a 7 && (c =? 1) then
    major ← peek buf 3;
    minor ← peek buf 4;
    let l := u32 (len - 3) in
    Ok (22, major, minor, slice buf 3 (len - 3), [1; Z.land (Z.shiftr l 16) 0xff; Z.land (Z.shiftr l 8) 0xff; Z.land l 0xff])
  else major ← peek buf 1; minor ← peek buf 2; Ok (a, major, minor, slice buf 5 (len - 5), []).

(** ** Names *)
Definition name_index (names : list (list Z)) (name : list Z) : option Z := '(i, _) ← list_find (fun n => n = name) names; Some (Z.of_nat i).
Definition name_hash (name : list Z) : Z := fold_left hash_update name 0.
Lemma strncmp_spec b : forall a, length a = length b -> 0 ∉ b -> strncmp_eq (length b) a b = bool_decide (a = b).
Proof.
  induction b as [|y b IH]; intros [|x a] L N; try discriminate; [reflexivity|]. cbn [strncmp_eq length hd tl]. rewrite not_elem_of_cons in N. destruct N as [N1 N2]. injection L as L. destruct (Z.eqb_spec x y) as [->|Ne]; cbn [andb]; [|rewrite bool_decide_false by congruence; reflexivity].
  rewrite (proj2 (Z.eqb_neq y 0)) by auto. cbn [orb]. rewrite IH by auto. apply bool_decide_ext. split; congruence.
Qed.
Definition entry_ok (names : list (list Z)) (a : http_atom) : Prop := ha_h a = name_hash (ha_name a) /\ ha_len a = size_of (ha_name a) /\ name_index names (ha_name a) = Some (ha_index a).
#[export] Instance entry_ok_dec names a : Decision (entry_ok names a).
Proof. unfold entry_ok. apply _. Defined.
(** What makes a table complete. *)
Definition table_ok (names : list (list Z)) (table : list (list http_atom)) (hsize : Z) : Prop :=
  Forall (Forall (entry_ok names)) table /\ Forall (fun name => http_hash_lookup name (size_of name) (name_hash name) table hsize = name_index names name) names.
Lemma tables_ok : table_ok http_hdr_strings http_hdr_hash HTTP_HDR_HASH_SIZE /\ table_ok http_meth_strings http_meth_hash HTTP_METH_HASH_SIZE.
Proof. unfold table_ok. apply (bool_decide_unpack _). vm_compute. exact I. Qed.
Lemma bucket_lookup_some names name ap i : Forall (entry_ok names) ap -> 0 ∉ name -> bucket_lookup ap name (size_of name) (name_hash name) = Some i -> name_index names name = Some i.
Proof.
  intros F N. induction F as [|a ap (E1 & E2 & E3) F IH]; cbn [bucket_lookup]; [discriminate|]. destruct (_ && _) eqn:E; [|exact IH]. intros [= <-]. apply andb_true_iff in E as [E Es]. apply andb_true_iff in E as [_ El]. rewrite Nat2Z.id, strncmp_spec in Es by (auto; lia). apply bool_decide_eq_true_1 in Es. now rewrite <- Es.
Qed.
Lemma name_index_none names name : name_index names name = None -> name ∉ names.
Proof. unfold name_index. destruct (list_find _ names) as [[i n]|] eqn:E; [discriminate|]. intros _ Hn. apply list_find_None in E. rewrite Forall_forall in E. now apply (E name Hn). Qed.
Lemma names_lookup names table hsize name : table_ok names table hsize -> 0 ∉ name -> http_hash_lookup name (size_of name) (name_hash name) table hsize = name_index names name.
Proof.
  intros [F L] N. destruct (decide (name ∈ names)) as [Hn|Hn]; [rewrite Forall_forall in L; now apply L|]. destruct (http_hash_lookup name (size_of name) (name_hash name) table hsize) as [i|] eqn:E.
  - symmetry. apply (bucket_lookup_some names name (default [] (table !! Z.to_nat (name_hash name mod hsize)))); auto. destruct (table !! _) as [ap|] eqn:Et; [|constructor]. cbn. rewrite Forall_lookup in F. eauto.
  - destruct (name_index names name) as [i|] eqn:Ei; auto. exfalso. unfold name_index in Ei. destruct (list_find _ names) as [[k n]|] eqn:El; [|discriminate]. apply list_find_Some in El as (El & -> & _). apply Hn. apply list_elem_of_lookup. eauto.
Qed.

(** ** No access outside of the line *)
Lemma peek_in {A} (l : list A) i : 0 <= i < size_of l -> exists v, peek l i = Ok v.
Proof. intros Hi. destruct (lookup_lt_is_Some_2 l (Z.to_nat i)) as [v E]; [lia|]. exists v. apply peek_Some; auto; lia. Qed.
Lemma skip_safe test buf n : forall ptr, 0 <= ptr -> ptr + Z.of_nat n <= size_of buf -> exists p n', skip test n buf ptr = Ok (p, n') /\ ptr <= p /\ p + Z.of_nat n' = ptr + Z.of_nat n.
Proof.
  induction n as [|n IH]; intros ptr Hp Hn; cbn [skip]; [exists ptr, O; splits; auto; lia|]. destruct (peek_in buf ptr ltac:(lia)) as (c & ->). cbn [mbind outcome_bind]. destruct (test c); [|exists ptr, (S n); splits; auto; lia]. destruct (IH (ptr + 1) ltac:(lia) ltac:(lia)) as (p & n' & E & H1 & H2). exists p, n'. splits; auto; lia.
Qed.
Lemma digits_safe buf n : forall ptr acc, 0 <= ptr -> ptr + Z.of_nat n <= size_of buf -> exists v p n', digits n buf ptr acc = Ok (v, p, n') /\ ptr <= p /\ p + Z.of_nat n' = ptr + Z.of_nat n.
Proof.
  induction n as [|n IH]; intros ptr acc Hp Hn; cbn [digits]; [exists acc, ptr, O; splits; auto; lia|]. destruct (peek_in buf ptr ltac:(lia)) as (c & ->). cbn [mbind outcome_bind]. destruct (isdigit c); [|exists acc, ptr, (S n); splits; auto; lia]. destruct (IH (ptr + 1) (s32 (10 * acc + (c - 48))) ltac:(lia) ltac:(lia)) as (v & p & n' & E & H1 & H2). exists v, p, n'. splits; auto; lia.
Qed.
Lemma version_safe buf n ptr : 0 <= ptr -> ptr + Z.of_nat n <= size_of buf -> exists r, http_version n buf ptr = Ok r /\ match r with Some (_, _, p, n') => ptr <= p /\ p + Z.of_nat n' = ptr + Z.of_nat n | None => True end.
Proof.
  intros Hp Hn. unfold http_version. destruct (digits_safe buf n ptr 0 Hp Hn) as (major & p1 & n1 & -> & H1 & H2). cbn [mbind outcome_bind]. destruct n1 as [|n2]; [exists None; auto|]. destruct (peek_in buf p1 ltac:(lia)) as (c & ->). cbn [mbind outcome_bind]. destruct (_ || _); [exists None; auto|].
  destruct (digits_safe buf n2 (p1 + 1) 0 ltac:(lia) ltac:(lia)) as (minor & p2 & n3 & -> & H3 & H4). cbn [mbind outcome_bind]. eexists. split; [reflexivity|]. destruct (p2 =? p1 + 1); auto. lia.
Qed.
Lemma status_safe buf n ptr : 0 <= ptr -> ptr + Z.of_nat n <= size_of buf -> exists r, parse_status_line buf n ptr = Ok r.
Proof.
  intros Hp Hn. unfold parse_status_line. destruct (version_safe buf n ptr Hp Hn) as (r & -> & Hr). cbn [mbind outcome_bind]. destruct r as [[[[major minor] p2] n2]|]; [|eauto]. destruct (skip_safe SP_byte buf n2 p2 ltac:(lia) ltac:(lia)) as (p3 & n3 & -> & H1 & H2). cbn [mbind outcome_bind]. destruct (p3 =? p2); [eauto|].
  destruct (digits_safe buf n3 p3 0 ltac:(lia) ltac:(lia)) as (st & p4 & n4 & -> & H3 & H4). cbn [mbind outcome_bind]. destruct (skip_safe SP_byte buf n4 p4 ltac:(lia) ltac:(lia)) as (p5 & n5 & -> & H5 & H6). cbn [mbind outcome_bind]. eauto.
Qed.
Lemma method_safe buf n : forall ptr h, 0 <= ptr -> ptr + Z.of_nat n <= size_of buf -> exists p n' h', method_loop n buf ptr h = Ok (p, n', h') /\ ptr <= p /\ p + Z.of_nat n' = ptr + Z.of_nat n.
Proof.
  induction n as [|n IH]; intros ptr h Hp Hn; cbn [method_loop]; [exists ptr, O, h; splits; auto; lia|]. destruct (peek_in buf ptr ltac:(lia)) as (c & ->). cbn [mbind outcome_bind]. destruct (is_tspecial c); [exists ptr, (S n), h; splits; auto; lia|]. destruct (IH (ptr + 1) (hash_update h c) ltac:(lia) ltac:(lia)) as (p & n' & h' & E & H1 & H2). exists p, n', h'. splits; auto; lia.
Qed.
Lemma request_safe buf n : Z.of_nat n <= size_of buf -> exists r, parse_request_line buf n = Ok r.
Proof.
  intros Hn. unfold parse_request_line. destruct (method_safe buf n 0 0 ltac:(lia) ltac:(lia)) as (p1 & n1 & h & -> & H1 & H2). cbn [mbind outcome_bind]. destruct n1 as [|n1]; [eauto|]. destruct (peek_in buf p1 ltac:(lia)) as (c & ->). cbn [mbind outcome_bind]. destruct (_ || _); [eauto|]. cbv zeta.
  destruct (skip_safe SP_byte buf (S n1) p1 ltac:(lia) ltac:(lia)) as (p2 & n2 & -> & H3 & H4). cbn [mbind outcome_bind]. destruct (skip_safe (fun c => negb (SP_byte c)) buf n2 p2 ltac:(lia) ltac:(lia)) as (p3 & n3 & -> & H5 & H6). cbn [mbind outcome_bind]. destruct (p3 =? p2); [eauto|].
  destruct (skip_safe SP_byte buf n3 p3 ltac:(lia) ltac:(lia)) as (p4 & n4 & -> & H7 & H8). cbn [mbind outcome_bind]. destruct (Nat.eqb n4 0); [eauto|]. destruct (Nat.ltb_spec n4 8); [eauto|]. destruct (negb _); [eauto|]. destruct (version_safe buf (n4 - 5) (p4 + 5) ltac:(lia) ltac:(lia)) as (r & -> & _). cbn [mbind outcome_bind]. eauto.
Qed.
Lemma name_safe buf n : forall ptr up k acc h, (0 < n)%nat -> 0 <= ptr -> ptr + Z.of_nat n <= size_of buf -> exists r, name_loop n buf ptr up k acc h = Ok r /\ match r with Some (p, n', _, _, _) => ptr <= p /\ p + Z.of_nat n' = ptr + Z.of_nat n /\ (0 < n')%nat | None => True end.
Proof.
  induction n as [|n IH]; intros ptr up k acc h H0 Hp Hn; [lia|]. cbn [name_loop]. destruct (peek_in buf ptr ltac:(lia)) as (c & ->). cbn [mbind outcome_bind]. destruct (is_tspecial c); [eexists; split; [reflexivity|]; cbn; lia|]. cbv zeta. destruct n as [|n]; [exists None; auto|]. edestruct (IH (ptr + 1)) as (r & E & Hr); [lia|lia|lia|]. rewrite E. exists r. split; auto. destruct r as [[[[[p n'] ?] ?] ?]|]; auto. lia.
Qed.
(** The line ends with 13 or 10, where it is trimmed. *)
Lemma trimmed_spec b : exists n e, trimmed (b ++ [10]) = Ok n /\ peek (b ++ [10]) (Z.of_nat n) = Ok e /\ (e = 13 \/ e = 10) /\ Z.of_nat n < size_of (b ++ [10]).
Proof.
  unfold trimmed. rewrite length_app. cbn [length]. replace (length b + 1)%nat with (S (length b)) by lia. assert (L : peek (b ++ [10]) (size_of b) = Ok 10) by (apply peek_Some; [lia|]; rewrite Nat2Z.id; now apply list_lookup_middle).
  assert (E : exists cr : bool, (if Nat.leb 2 (S (length b)) then c ← peek (b ++ [10]) (Z.of_nat (S (length b)) - 2); Ok (c =? 13) else Ok false) = Ok cr /\ (cr = true -> (1 <= length b)%nat /\ peek (b ++ [10]) (size_of b - 1) = Ok 13)).
  { destruct (Nat.leb_spec 2 (S (length b))) as [H|H]; [|exists false; split; auto; discriminate]. replace (Z.of_nat (S (length b)) - 2) with (size_of b - 1) by lia. destruct (peek_in (b ++ [10]) (size_of b - 1)) as (c & Ec); [rewrite length_app; cbn; lia|]. rewrite Ec. exists (c =? 13). split; auto. intros ->%Z.eqb_eq. split; auto. lia. }
  destruct E as (cr & -> & Hcr). cbn [mbind outcome_bind]. destruct cr.
  - destruct (Hcr eq_refl) as [H1 H2]. exists (S (length b) - 2)%nat, 13. splits; auto; try lia. now replace (Z.of_nat (S (length b) - 2)) with (size_of b - 1) by lia.
  - replace (Z.of_nat (S (length b)) - 1) with (size_of b) by lia. rewrite L. cbn [mbind outcome_bind Nat.leb]. rewrite Z.eqb_refl. exists (length b), 10. cbn [Nat.sub]. rewrite Nat.sub_0_r. splits; auto; lia.
Qed.
Lemma header_safe buf n e : (0 < n)%nat -> Z.of_nat n < size_of buf -> peek buf (Z.of_nat n) = Ok e -> e = 13 \/ e = 10 -> exists r, parse_header buf n = Ok r.
Proof.
  intros H0 Hn Ee He. unfold parse_header. destruct (name_safe buf n 0 true 0 [] 0 H0 ltac:(lia) ltac:(lia)) as (r & -> & Hr). cbn [mbind outcome_bind]. destruct r as [[[[[p1 n1] name_len] name_buf] h]|]; [|eauto]. destruct Hr as (H1 & H2 & H3).
  destruct (skip_safe SP_byte buf n1 p1 ltac:(lia) ltac:(lia)) as (p2 & n2 & -> & H4 & H5). cbn [mbind outcome_bind]. destruct (peek_in buf p2 ltac:(lia)) as (c & Ec). rewrite Ec. cbn [mbind outcome_bind]. destruct (Z.eqb_spec c 58) as [->|N]; cbn [negb]; [|eauto]. destruct (if name_len <=? HTTP_MAX_NAME_LEN then _ else _) as [name name_ptr].
  destruct n2 as [|n2]; [exfalso; replace p2 with (Z.of_nat n) in Ec by lia; rewrite Ee in Ec; injection Ec as ->; lia|]. destruct (skip_safe SP_byte buf n2 (p2 + 1) ltac:(lia) ltac:(lia)) as (p3 & n3 & -> & _). cbn [mbind outcome_bind]. eauto.
Qed.
Lemma parse_safe b statep : exists m st, packet_parse_http (b ++ [10]) statep = Ok (m, st).
Proof.
  unfold packet_parse_http. destruct (trimmed_spec b) as (n & e & -> & Ee & He & Hn). cbn [mbind outcome_bind]. destruct (statep =? 0).
  - assert (E : exists m, (if Nat.leb 5 n && bool_decide (take 5 (b ++ [10]) = text "HTTP/") then parse_status_line (b ++ [10]) (n - 5) 5 else parse_request_line (b ++ [10]) n) = Ok m).
    { destruct (_ && _) eqn:E; [|apply request_safe; lia]. apply andb_true_iff in E as [E _]. apply Nat.leb_le in E. apply status_safe; lia. }
    destruct E as (m & ->). cbn [mbind outcome_bind]. eauto.
  - destruct (Nat.eqb_spec n 0); [eauto|]. destruct (header_safe (b ++ [10]) n e ltac:(lia) Hn Ee He) as (r & ->). cbn [mbind outcome_bind]. eauto.
Qed.


(** ** Reading what was written *)
(** [l] is what the memory holds from [ptr] on. *)
Definition at_ptr (buf : list Z) (ptr : Z) (l : list Z) : Prop := 0 <= ptr /\ drop (Z.to_nat ptr) buf = l.
Lemma at_start buf : at_ptr buf 0 buf.
Proof. split; [lia|reflexivity]. Qed.
Lemma at_next buf ptr a l p : at_ptr buf ptr (a ++ l) -> p = ptr + size_of a -> at_ptr buf p l.
Proof. intros [H E] ->. split; [lia|]. rewrite Z2Nat.inj_add, Nat2Z.id, <- drop_drop, E by lia. apply drop_app_length. Qed.
Lemma at_peek buf ptr c l : at_ptr buf ptr (c :: l) -> peek buf ptr = Ok c.
Proof. intros [H E]. apply peek_Some; auto. rewrite <- (Nat.add_0_r (Z.to_nat ptr)), <- lookup_drop, E. reflexivity. Qed.
Lemma at_slice buf ptr a l n : at_ptr buf ptr (a ++ l) -> n = size_of a -> slice buf ptr n = a.
Proof. intros [_ E] ->. unfold slice. rewrite E, Nat2Z.id. apply take_app_length. Qed.
(** What stops a loop: nothing left, or the first byte. *)
Definition stops (test : Z -> bool) (m : nat) (l : list Z) : Prop := m = O \/ exists c l', l = c :: l' /\ test c = false.
Lemma stops_at test m c l : test c = false -> stops test m (c :: l).
Proof. intros E. right. eauto. Qed.
Lemma skip_over test buf l m : forall a n ptr, at_ptr buf ptr (a ++ l) -> Forall (fun c => test c = true) a -> stops test m l -> n = (length a + m)%nat -> skip test n buf ptr = Ok (ptr + size_of a, m).
Proof.
  induction a as [|c a IH]; intros n ptr Ha Ft Hs ->; cbn [length Nat.add skip].
  - destruct m as [|m]; cbn [skip]; [do 2 f_equal; lia|]. destruct Hs as [|(c & l' & -> & E)]; [lia|]. rewrite (at_peek _ _ _ _ Ha). cbn [mbind outcome_bind]. rewrite E. do 2 f_equal. lia.
  - apply Forall_cons in Ft as [E Ft]. rewrite (at_peek _ _ _ _ Ha). cbn [mbind outcome_bind]. rewrite E, (IH _ _ (at_next buf ptr [c] (a ++ l) (ptr + 1) Ha eq_refl) Ft Hs eq_refl). do 2 f_equal. lia.
Qed.
(** The number that digits stand for. *)
Definition dec_value (acc : Z) (ds : list Z) : Z := fold_left (fun v c => 10 * v + (c - 48)) ds acc.
Definition digits_ok (ds : list Z) : Prop := ds <> [] /\ Forall (fun c => isdigit c = true) ds /\ dec_value 0 ds < 2 ^ 31.
Lemma dec_value_ge ds : forall acc, 0 <= acc -> Forall (fun c => isdigit c = true) ds -> acc <= dec_value acc ds.
Proof.
  induction ds as [|c ds IH]; intros acc Ha Fd; cbn [dec_value fold_left]; [lia|]. apply Forall_cons in Fd as [E Fd]. unfold isdigit in E. pose proof (IH (10 * acc + (c - 48)) ltac:(lia) Fd) as G. unfold dec_value in G. lia.
Qed.
Lemma digits_over buf l m : forall ds n ptr acc, at_ptr buf ptr (ds ++ l) -> Forall (fun c => isdigit c = true) ds -> 0 <= acc -> dec_value acc ds < 2 ^ 31 -> stops isdigit m l -> n = (length ds + m)%nat -> digits n buf ptr acc = Ok (dec_value acc ds, ptr + size_of ds, m).
Proof.
  induction ds as [|c ds IH]; intros n ptr acc Ha Fd H0 Hv Hs ->; cbn [length Nat.add digits].
  - destruct m as [|m]; cbn [digits]; [do 3 f_equal; lia|]. destruct Hs as [|(c & l' & -> & E)]; [lia|]. rewrite (at_peek _ _ _ _ Ha). cbn [mbind outcome_bind]. rewrite E. cbn [dec_value fold_left]. do 3 f_equal. lia.
  - apply Forall_cons in Fd as [E Fd]. rewrite (at_peek _ _ _ _ Ha). cbn [mbind outcome_bind]. rewrite E. change (dec_value acc (c :: ds)) with (dec_value (10 * acc + (c - 48)) ds) in *. unfold isdigit in E. pose proof (dec_value_ge ds (10 * acc + (c - 48)) ltac:(lia) Fd). rewrite s32_id by lia.
    rewrite (IH _ _ (10 * acc + (c - 48)) (at_next buf ptr [c] (ds ++ l) (ptr + 1) Ha eq_refl) Fd ltac:(lia) Hv Hs eq_refl). replace (ptr + Z.of_nat (S (length ds))) with (ptr + 1 + size_of ds) by lia. reflexivity.
Qed.
Lemma version_over buf ma mi l m n ptr : at_ptr buf ptr (ma ++ 46 :: mi ++ l) -> digits_ok ma -> digits_ok mi -> stops isdigit m l -> n = (length ma + S (length mi + m))%nat ->
  http_version n buf ptr = Ok (Some (dec_value 0 ma, dec_value 0 mi, ptr + size_of ma + 1 + size_of mi, m)).
Proof.
  intros Ha (N1 & F1 & V1) (N2 & F2 & V2) Hs ->. unfold http_version. rewrite (digits_over buf (46 :: mi ++ l) (S (length mi + m)) ma) by (auto with lia || now apply stops_at). cbn [mbind outcome_bind].
  pose proof (at_next _ _ ma (46 :: mi ++ l) _ Ha eq_refl) as Hb. rewrite (at_peek _ _ _ _ Hb). cbn [mbind outcome_bind]. assert (L1 : length ma <> O) by (intros E; apply nil_length_inv in E; auto). assert (L2 : length mi <> O) by (intros E; apply nil_length_inv in E; auto).
  replace (ptr + size_of ma =? ptr) with false by lia. cbn [orb negb Z.eqb Pos.eqb]. rewrite (digits_over buf l m mi) by (auto with lia || now apply (at_next _ _ [46] (mi ++ l) _ Hb)). cbn [mbind outcome_bind]. replace (ptr + size_of ma + 1 + size_of mi =? ptr + size_of ma + 1) with false by lia. reflexivity.
Qed.

(** ** Tokens *)
Definition token (t : list Z) : Prop := t <> [] /\ Forall (fun c => is_tspecial c = false) t.
Lemma plain_char c : is_tspecial c = false -> 33 <= c < 127 /\ c <> 47 /\ c <> 58 \/ c = 127.
Proof.
  unfold is_tspecial. destruct ((c >? 32) && (c <? 128)) eqn:E; [|discriminate]. unfold tspecial. case_bool_decide as B; intros H; [lia|]. destruct (Z.eq_dec c 127); auto. left. splits; try lia; intros ->; apply B; apply (bool_decide_unpack _); vm_compute; exact I.
Qed.
Lemma method_over buf l m : forall a n ptr h, at_ptr buf ptr (a ++ l) -> Forall (fun c => is_tspecial c = false) a -> (exists c l', l = c :: l' /\ is_tspecial c = true) -> n = (length a + S m)%nat -> method_loop n buf ptr h = Ok (ptr + size_of a, S m, fold_left hash_update a h).
Proof.
  induction a as [|c a IH]; intros n ptr h Ha Ft Hs ->; cbn [length Nat.add method_loop fold_left].
  - destruct Hs as (c & l' & -> & E). rewrite (at_peek _ _ _ _ Ha). cbn [mbind outcome_bind]. rewrite E. do 3 f_equal. lia.
  - apply Forall_cons in Ft as [E Ft]. rewrite (at_peek _ _ _ _ Ha). cbn [mbind outcome_bind]. rewrite E, (IH _ _ _ (at_next buf ptr [c] (a ++ l) (ptr + 1) Ha eq_refl) Ft Hs eq_refl). do 3 f_equal. lia.
Qed.
(** The first letter of every word is a capital letter, the others are not. *)
Fixpoint name_case (up : bool) (name : list Z) : list Z :=
  match name with [] => [] | c :: name => if up then toupper c :: name_case false name else tolower c :: name_case (c =? 45) name end.
Lemma name_case_length name : forall up, length (name_case up name) = length name.
Proof. induction name as [|c name IH]; intros [|]; cbn; auto. Qed.
Lemma name_case_no_0 name : forall up, Forall (fun c => is_tspecial c = false) name -> 0 ∉ name_case up name.
Proof.
  induction name as [|c name IH]; intros up Ft; cbn [name_case]; [apply not_elem_of_nil|]. apply Forall_cons in Ft as [E Ft]. pose proof (plain_char c E) as P. destruct up; apply not_elem_of_cons; (split; [|now apply IH]); unfold toupper, tolower, islower, isupper; intros H; destruct (_ && _) eqn:Ec; lia.
Qed.
Lemma name_over buf l m : forall a n ptr up k nb h, at_ptr buf ptr (a ++ l) -> Forall (fun c => is_tspecial c = false) a -> (exists c l', l = c :: l' /\ is_tspecial c = true) -> n = (length a + S m)%nat ->
  exists nb' h', name_loop n buf ptr up k nb h = Ok (Some (ptr + size_of a, S m, k + size_of a, nb', h')) /\ (k + size_of a <= HTTP_MAX_NAME_LEN -> rev nb' = rev nb ++ name_case up a /\ h' = fold_left hash_update (name_case up a) h).
Proof.
  induction a as [|c a IH]; intros n ptr up k nb h Ha Ft Hs ->; cbn [length Nat.add name_loop].
  - destruct Hs as (c & l' & -> & E). rewrite (at_peek _ _ _ _ Ha). cbn [mbind outcome_bind]. rewrite E. exists nb, h. split; [do 6 f_equal; lia|]. intros _. cbn. now rewrite app_nil_r.
  - apply Forall_cons in Ft as [E Ft]. rewrite (at_peek _ _ _ _ Ha). cbn [mbind outcome_bind]. rewrite E. cbv zeta. rewrite (Nat.add_succ_r (length a) m). cbv iota.
    edestruct (IH (S (length a + m)) (ptr + 1)) as (nb' & h' & EL & HL); [apply (at_next buf ptr [c] (a ++ l) (ptr + 1) Ha eq_refl)|exact Ft|exact Hs|lia|]. rewrite EL. exists nb', h'. split; [replace (ptr + Z.of_nat (S (length a))) with (ptr + 1 + size_of a) by lia; replace (k + Z.of_nat (S (length a))) with (k + 1 + size_of a) by lia; reflexivity|]. intros Hk. destruct HL as [H1 H2]; [lia|]. rewrite (proj2 (Z.ltb_lt k HTTP_MAX_NAME_LEN)) in H1, H2 by lia.
    rewrite H1, H2. cbn [name_case rev fold_left]. rewrite <- app_assoc. destruct up; split; reflexivity.
Qed.

(** ** Lines *)
Inductive line := REQUEST (meth uri major minor : list Z) | RESPONSE (major minor status phrase : list Z) | HEADER (name value : list Z) | EOH.
Definition line_text (l : line) : list Z :=
  match l with
  | REQUEST meth uri major minor => meth ++ 32 :: uri ++ 32 :: text "HTTP/" ++ major ++ 46 :: minor
  | RESPONSE major minor status phrase => text "HTTP/" ++ major ++ 46 :: minor ++ 32 :: status ++ 32 :: phrase
  | HEADER name value => name ++ 58 :: 32 :: value
  | EOH => []
  end.
Definition print_line (l : line) : list Z := line_text l ++ [13; 10].
Definition phrase_ok (v : list Z) : Prop := Forall (fun c => c <> 10) v /\ SP_byte (hd 0 v) = false.
Definition line_ok (l : line) : Prop :=
  match l with
  | REQUEST meth uri major minor => token meth /\ uri <> [] /\ Forall (fun c => c <> 10 /\ SP_byte c = false) uri /\ digits_ok major /\ digits_ok minor
  | RESPONSE major minor status phrase => digits_ok major /\ digits_ok minor /\ digits_ok status /\ phrase_ok phrase
  | HEADER name value => token name /\ phrase_ok value
  | EOH => True
  end.
(** What the line means, with the tables as lists of names. *)
Definition line_message (l : line) : http_message :=
  match l with
  | REQUEST meth uri major minor => http_request (name_index http_meth_strings meth) meth (http_parse_uri uri) (dec_value 0 major) (dec_value 0 minor)
  | RESPONSE major minor status phrase => http_response (dec_value 0 major) (dec_value 0 minor) (dec_value 0 status) phrase
  | HEADER name value => if size_of name <=? HTTP_MAX_NAME_LEN then http_header (name_index http_hdr_strings (name_case true name)) (name_case true name) value else http_header None name value
  | EOH => http_eoh
  end.
#[export] Instance line_ok_dec l : Decision (line_ok l).
Proof. destruct l; cbn [line_ok]; unfold token, digits_ok, phrase_ok; apply _. Defined.
Definition line_state (l : line) : Z := match l with REQUEST _ _ _ _ | RESPONSE _ _ _ _ => 0 | _ => 1 end.
Definition next_state (l : line) : Z := match l with EOH => 0 | _ => 1 end.
Lemma trimmed_crlf b : trimmed (b ++ [13; 10]) = Ok (length b).
Proof.
  unfold trimmed. rewrite length_app. cbn [length]. rewrite (proj2 (Nat.leb_le 2 _)) by lia. assert (E : peek (b ++ [13; 10]) (Z.of_nat (length b + 2) - 2) = Ok 13) by (apply peek_Some; [lia|]; replace (Z.to_nat (Z.of_nat (length b + 2) - 2)) with (length b) by lia; now apply list_lookup_middle).
  rewrite E. cbn [mbind outcome_bind]. change (13 =? 13) with true. cbv iota. f_equal. apply Nat.add_sub.
Qed.
Lemma stops_phrase v r : SP_byte (hd 0 v) = false -> stops SP_byte (length v) (v ++ r).
Proof. intros H. destruct v as [|c v]; [now left|]. apply stops_at. exact H. Qed.
Lemma size_pos {A} (l : list A) : l <> [] -> 0 < size_of l.
Proof. destruct l; [contradiction|]. cbn. lia. Qed.
Lemma space_only : Forall (fun c => SP_byte c = true) [32].
Proof. now repeat constructor. Qed.
Lemma at_text l : at_ptr (print_line l) 0 (line_text l ++ [13; 10]).
Proof. apply at_start. Qed.
Lemma request_parsed meth uri major minor : let l := REQUEST meth uri major minor in line_ok l -> parse_request_line (print_line l) (length (line_text l)) = Ok (Some (line_message l)).
Proof.
  cbv zeta. intros (Tm & Nu & Fu & Dma & Dmi). pose proof (at_text (REQUEST meth uri major minor)) as H0. set (buf := print_line _) in *. cbn [line_text line_message] in *. repeat (rewrite <- app_assoc in H0; cbn [app] in H0). rewrite !length_app. cbn [length]. rewrite !length_app. cbn [length]. rewrite !length_app. cbn [length].
  set (http := text "HTTP/") in *. set (m3 := (length major + S (length minor))%nat). destruct Tm as [Nm Fm]. pose proof (size_pos meth Nm) as Sm. pose proof (size_pos uri Nu) as Su. unfold parse_request_line.
  rewrite (method_over buf _ (length uri + S (5 + m3)) meth _ _ _ H0 Fm) by (reflexivity || (eexists _, _; split; reflexivity)). cbn [mbind outcome_bind]. pose proof (at_next _ _ meth _ _ H0 eq_refl) as H1. rewrite (at_peek _ _ _ _ H1). cbn [mbind outcome_bind]. replace (0 + size_of meth =? 0) with false by lia. cbn [orb]. change (negb (SP_byte 32)) with false. cbv iota zeta.
  rewrite (at_slice _ _ _ _ _ H0) by lia. replace (0 + size_of meth) with (size_of meth) by lia. change (fold_left hash_update meth 0) with (name_hash meth). rewrite (names_lookup http_meth_strings) by (apply tables_ok || (intros E; rewrite Forall_forall in Fm; now apply Fm in E)).
  pose proof (at_next _ _ [32] _ _ H1 eq_refl) as H2. rewrite Z.add_0_l in H1, H2. cbn [length] in H2.
  assert (Fu' : Forall (fun c => negb (SP_byte c) = true) uri) by (eapply Forall_impl; [exact Fu|]; now intros c [_ ->]).
  rewrite (skip_over SP_byte buf _ (length uri + S (5 + m3)) [32] _ _ H1 space_only) by (reflexivity || (destruct uri as [|u uri]; [contradiction|]; apply stops_at; apply Forall_cons in Fu; apply Fu)). cbn [mbind outcome_bind length].
  rewrite (skip_over _ buf _ (S (5 + m3)) uri _ _ H2 Fu') by (reflexivity || now apply stops_at). cbn [mbind outcome_bind]. replace (_ =? _) with false by lia. rewrite (at_slice _ _ _ _ _ H2) by lia.
  pose proof (at_next _ _ uri _ _ H2 eq_refl) as H3. pose proof (at_next _ _ [32] _ _ H3 eq_refl) as H4. cbn [length] in H4. rewrite (skip_over SP_byte buf _ (5 + m3) [32] _ _ H3 space_only) by (reflexivity || now apply stops_at). cbn [mbind outcome_bind length].
  assert (L : (3 <= m3)%nat) by (destruct Dma as (N1 & _), Dmi as (N2 & _); pose proof (size_pos _ N1); pose proof (size_pos _ N2); lia). replace (Nat.eqb (5 + m3) 0) with false by reflexivity. rewrite (proj2 (Nat.ltb_ge (5 + m3) 8)) by lia. rewrite (at_slice _ _ http _ 5 H4) by reflexivity. rewrite bool_decide_true by reflexivity. cbn [negb].
  pose proof (at_next _ _ http _ _ H4 eq_refl) as H5. replace (5 + m3 - 5)%nat with m3 by lia. rewrite (version_over buf major minor [13; 10] 0 _ _ H5 Dma Dmi) by (now left || lia). reflexivity.
Qed.
Lemma response_parsed major minor status phrase : let l := RESPONSE major minor status phrase in line_ok l -> parse_status_line (print_line l) (length (line_text l) - 5) 5 = Ok (Some (line_message l)).
Proof.
  cbv zeta. intros (Dma & Dmi & Ds & _ & Hp). pose proof (at_text (RESPONSE major minor status phrase)) as H0. set (buf := print_line _) in *. cbn [line_text line_message] in *. repeat (rewrite <- app_assoc in H0; cbn [app] in H0). rewrite !length_app. cbn [length]. rewrite !length_app. cbn [length]. rewrite !length_app. cbn [length].
  set (m3 := (length status + S (length phrase))%nat). pose proof (at_next _ _ (text "HTTP/") _ 5 H0 eq_refl) as H1. unfold parse_status_line. rewrite (version_over buf major minor (32 :: status ++ 32 :: phrase ++ [13; 10]) (S m3) _ _ H1 Dma Dmi) by (now apply stops_at) || (cbn; lia). cbn [mbind outcome_bind].
  pose proof (at_next _ _ minor _ _ (at_next _ _ [46] _ _ (at_next _ _ major _ _ H1 eq_refl) eq_refl) eq_refl) as H2. cbn [length] in H2. change (Z.of_nat 1) with 1 in H2. set (p2 := 5 + size_of major + 1 + size_of minor) in *. destruct Ds as (Ns & Fs & Vs). pose proof (size_pos status Ns) as Ss.
  assert (St : stops SP_byte m3 (status ++ 32 :: phrase ++ [13; 10])) by (destruct status as [|s status]; [contradiction|]; apply stops_at; apply Forall_cons in Fs as [Es _]; unfold isdigit, SP_byte in *; lia).
  rewrite (skip_over SP_byte buf _ m3 [32] _ _ H2 space_only St) by reflexivity. cbn [mbind outcome_bind length]. pose proof (at_next _ _ [32] _ _ H2 eq_refl) as H3. cbn [length] in H3. rewrite (proj2 (Z.eqb_neq (p2 + Z.of_nat 1) p2)) by (clearbody p2; clear; lia).
  rewrite (digits_over buf _ (S (length phrase)) status _ _ 0 H3 Fs) by (lia || auto || now apply stops_at). cbn [mbind outcome_bind]. pose proof (at_next _ _ status _ _ H3 eq_refl) as H4. rewrite (skip_over SP_byte buf _ (length phrase) [32] _ _ H4 space_only (stops_phrase phrase [13; 10] Hp)) by reflexivity. cbn [mbind outcome_bind length].
  set (p4 := p2 + Z.of_nat 1 + size_of status) in *. rewrite (proj2 (Z.eqb_neq (p4 + Z.of_nat 1) p4)) by (clearbody p4; clear; lia). cbn [andb]. pose proof (at_next _ _ [32] _ _ H4 eq_refl) as H5. cbn [length] in H5. rewrite (at_slice _ _ _ _ _ H5) by reflexivity. reflexivity.
Qed.
Lemma header_parsed name value : let l := HEADER name value in line_ok l -> parse_header (print_line l) (length (line_text l)) = Ok (Some (line_message l)).
Proof.
  cbv zeta. intros ((Nn & Fn) & _ & Hv). pose proof (at_text (HEADER name value)) as H0. set (buf := print_line _) in *. cbn [line_text line_message] in *. repeat (rewrite <- app_assoc in H0; cbn [app] in H0). rewrite !length_app. cbn [length]. unfold parse_header.
  destruct (name_over buf _ (S (length value)) name (length name + S (S (length value))) 0 true 0 [] 0 H0 Fn) as (nb & h & -> & Hn); [eexists _, _; split; reflexivity|reflexivity|]. cbn [mbind outcome_bind]. pose proof (at_next _ _ name _ _ H0 eq_refl) as H1. rewrite Z.add_0_l in *. set (p := size_of name) in *.
  rewrite (skip_over SP_byte buf _ (S (S (length value))) [] _ _ H1 (Forall_nil_2 _)) by ((now apply stops_at) || reflexivity). cbn [mbind outcome_bind length]. rewrite Z.add_0_r. rewrite (at_peek _ _ _ _ H1). cbn [mbind outcome_bind]. change (negb (58 =? 58)) with false. cbv iota.
  pose proof (at_next _ _ [58] _ (p + 1) H1 eq_refl) as H2. rewrite (skip_over SP_byte buf _ (length value) [32] _ _ H2 space_only (stops_phrase value [13; 10] Hv)) by reflexivity. pose proof (at_next _ _ [32] _ _ H2 eq_refl) as H3. cbn [mbind outcome_bind length] in *. rewrite (at_slice _ _ _ _ _ H3) by reflexivity.
  destruct (Z.leb_spec p HTTP_MAX_NAME_LEN) as [L|L].
  - destruct (Hn L) as [-> ->]. cbn [rev app]. change (fold_left hash_update (name_case true name) 0) with (name_hash (name_case true name)). unfold p at 1. rewrite <- (name_case_length name true). rewrite (names_lookup http_hdr_strings) by (apply tables_ok || now apply name_case_no_0). reflexivity.
  - rewrite (at_slice _ _ _ _ _ H0) by reflexivity. reflexivity.
Qed.
(** A token holds no '/'. *)
Lemma request_no_version meth r : token meth -> take 5 (meth ++ 32 :: r) <> text "HTTP/".
Proof.
  intros [_ F]. change (text "HTTP/") with [72; 84; 84; 80; 47]. destruct meth as [|a [|b [|c [|d [|e m]]]]]; cbn; intros [=]; subst. repeat (apply Forall_cons in F as [? F]). discriminate.
Qed.
Lemma line_parsed l : line_ok l -> packet_parse_http (print_line l) (line_state l) = Ok (Some (line_message l), next_state l).
Proof.
  intros Hl. unfold packet_parse_http. change (trimmed (print_line l)) with (trimmed (line_text l ++ [13; 10])). rewrite trimmed_crlf. cbn [mbind outcome_bind]. destruct l as [meth uri major minor|major minor status phrase|name value|]; cbn [line_state next_state]; cbn [Z.eqb].
  - rewrite (bool_decide_false (take 5 _ = _)) by (unfold print_line; cbn [line_text]; rewrite <- app_assoc; apply request_no_version, Hl). rewrite andb_false_r, request_parsed by exact Hl. reflexivity.
  - rewrite (bool_decide_true (take 5 _ = _)) by reflexivity. rewrite (proj2 (Nat.leb_le 5 _)) by (cbn [line_text]; rewrite length_app; cbn; lia). cbn [andb]. rewrite response_parsed by exact Hl. reflexivity.
  - rewrite (proj2 (Nat.eqb_neq _ 0)) by (cbn [line_text]; rewrite length_app; cbn; lia). rewrite header_parsed by exact Hl. reflexivity.
  - reflexivity.
Qed.

(** ** Packets and messages *)
(** The calls of the user's functions, and what they return. *)
Inductive packet_event := EV_HTTP (m : http_message) | EV_ERROR (buf : list Z) | EV_SSL (content major minor : Z) (data prefix : list Z).
Section Callbacks.
Variable pcb : packet_event -> Z.
(** The calls that are made, the result and the state. *)
Definition packet_parse (htype : PacketParseType) (buf : list Z) (statep : Z) : outcome (list packet_event * Z * Z) :=
  match htype with
  | TCP_PB_HTTP | TCP_PB_HTTPH | TCP_PB_HTTP_BIN | TCP_PB_HTTPH_BIN =>
      '(m, statep) ← packet_parse_http buf statep;
      let failed := match m with Some m => pcb (EV_HTTP m) <? 0 | None => true end in
      Ok (match m with Some m => [EV_HTTP m] | None => [] end ++ (if failed then [EV_ERROR buf] else []), 1, statep)
  | TCP_PB_SSL_TLS => '(content, major, minor, data, prefix) ← packet_parse_ssl buf; let e := EV_SSL content major minor data prefix in Ok ([e], pcb e, statep)
  | _ => Ok ([], 0, statep)
  end.
(** At most [k] packets, one after the other: the calls, what is left and the
    state. *)
Fixpoint read_packets (k : nat) (htype : PacketParseType) (buf : list Z) (st : Z) : outcome (list packet_event * list Z * Z) :=
  match k with
  | O => Ok ([], buf, st)
  | S k =>
      '(n, st) ← packet_get_length htype buf 0 0 st;
      if n <=? 0 then Ok ([], buf, st)
      else
        '(es, _, st) ← packet_parse htype (take (Z.to_nat n) buf) st;
        '(es', buf, st) ← read_packets k htype (drop (Z.to_nat n) buf) st;
        Ok (es ++ es', buf, st)
  end.
Definition http_type (htype : PacketParseType) : bool := match htype with TCP_PB_HTTP | TCP_PB_HTTPH | TCP_PB_HTTP_BIN | TCP_PB_HTTPH_BIN => true | _ => false end.
Lemma memchr_found b c : forall n i j, 0 <= i -> memchr n b i c = Ok (Some j) -> i <= j /\ peek b j = Ok c.
Proof.
  induction n as [|n IH]; intros i j Hi; cbn [memchr]; [discriminate|]. destruct (peek b i) as [x| |] eqn:E; cbn [mbind outcome_bind]; try discriminate. destruct (Z.eqb_spec x c) as [->|_]; [intros [= <-]; split; [lia|auto]|]. intros H%IH; [split; [lia|apply H]|lia].
Qed.
Lemma http_lines_end b max_plen st : forall fuel ptr1 r, 0 <= ptr1 -> http_lines fuel b max_plen st ptr1 = Ok r -> 0 < r -> peek b (r - 1) = Ok 10.
Proof.
  induction fuel as [|fuel IH]; intros ptr1 r Hp; cbn [http_lines]; [discriminate|]. destruct (memchr _ b ptr1 10) as [[j|]| |] eqn:E; cbn [mbind outcome_bind]; try discriminate; [|intros [= <-]; destruct (_ && _); lia]. apply memchr_found in E as [Hj Ej]; [|auto].
  assert (D : forall x, (if negb (max_plen =? 0) && (j + 1 >? max_plen) then -1 else x) = r -> x = j + 1 \/ x = 0 -> 0 < r -> peek b (r - 1) = Ok 10) by (intros x; destruct (_ && _); intros <- [-> | ->]; try lia; now replace (j + 1 - 1) with j by lia).
  destruct (st =? 0); [intros [= F]; eauto|]. destruct (j + 1 <? size_of b); [|intros [= F]; eauto]. destruct (peek b (j + 1)) as [x| |]; cbn [mbind outcome_bind]; try discriminate. destruct (SP_byte x && (j + 1 >? 2)); [|intros [= F]; eauto]. apply IH. lia.
Qed.
(** A packet of HTTP ends with a newline. *)
Lemma http_packet_end htype b max_plen trunc_len st r st' : http_type htype = true -> packet_get_length htype b max_plen trunc_len st = Ok (r, st') -> 0 < r -> exists p, take (Z.to_nat r) b = p ++ [10].
Proof.
  intros Ht H Hr. assert (E : exists s, http_packet b max_plen trunc_len s = Ok r) by (destruct htype; try discriminate Ht; cbn [packet_get_length] in H; (destruct (http_packet b max_plen trunc_len _) as [x| |] eqn:E; cbn in H; try discriminate; injection H as -> _; eauto)).
  destruct E as (s & E). rewrite http_packet_blank in E. assert (P : peek b (r - 1) = Ok 10).
  { destruct (blank b) eqn:B; [|now apply http_lines_end in E]. injection E as <-. apply blank_spec in B as [-> | ->]; reflexivity. }
  unfold peek in P. destruct (Z.ltb_spec (r - 1) 0); [discriminate|]. destruct (b !! Z.to_nat (r - 1)) as [x|] eqn:Ex; [|discriminate]. injection P as ->. exists (take (Z.to_nat (r - 1)) b). replace (Z.to_nat r) with (S (Z.to_nat (r - 1))) by lia. now apply take_S_r.
Qed.
(** A line that is refused leaves the state. *)
Lemma parse_failed b st st' : packet_parse_http b st = Ok (None, st') -> st' = st.
Proof.
  unfold packet_parse_http. destruct (trimmed b) as [n| |]; cbn [mbind outcome_bind]; try discriminate. destruct (Z.eqb_spec st 0) as [->|N].
  - destruct (if Nat.leb 5 n && bool_decide (take 5 b = text "HTTP/") then _ else _) as [[m|]| |]; cbn [mbind outcome_bind]; congruence.
  - destruct (Nat.eqb n 0); [discriminate|]. destruct (parse_header b n) as [m| |]; cbn [mbind outcome_bind]; congruence.
Qed.
Lemma text_no_newline l : line_ok l -> Forall (fun c => c <> 10) (line_text l).
Proof.
  assert (D : forall ds, digits_ok ds -> Forall (fun c => c <> 10) ds) by (intros ds (_ & F & _); eapply Forall_impl; [exact F|]; intros c E; unfold isdigit in E; lia). assert (T : forall t, token t -> Forall (fun c => c <> 10) t) by (intros t [_ F]; eapply Forall_impl; [exact F|]; intros c E%plain_char; lia).
  assert (V : Forall (fun c => c <> 10) (text "HTTP/")) by (apply (bool_decide_unpack _); vm_compute; exact I).
  destruct l as [meth uri major minor|major minor status phrase|name value|]; cbn [line_ok line_text].
  - intros (Hm & _ & Hu & Ha & Hi). apply Forall_app; split; auto. constructor; [lia|]. apply Forall_app; split; [eapply Forall_impl; [exact Hu|]; now intros c [H _]|]. constructor; [lia|]. apply Forall_app; split; auto. apply Forall_app; split; auto.
  - intros (Ha & Hi & Hs & Hp & _). apply Forall_app; split; auto. apply Forall_app; split; auto. constructor; [lia|]. apply Forall_app; split; auto. constructor; [lia|]. apply Forall_app; split; auto.
  - intros (Hn & Hv & _). apply Forall_app; split; auto.
  - constructor.
Qed.
(** Where the line ends, when what follows does not continue it. *)
Lemma line_framed l rest : line_ok l -> match l with REQUEST _ _ _ _ | RESPONSE _ _ _ _ | EOH => True | HEADER _ _ => exists c rest', rest = c :: rest' /\ SP_byte c = false end ->
  packet_get_length TCP_PB_HTTP (print_line l ++ rest) 0 0 (line_state l) = Ok (size_of (print_line l), line_state l).
Proof.
  intros Hl Hr. cbn [packet_get_length]. rewrite http_packet_blank. destruct (blank (print_line l ++ rest)) eqn:B.
  - assert (E : line_text l ++ [13; 10] ++ rest = [13; 10]). { apply blank_spec in B. unfold print_line in B. rewrite <- app_assoc in B. destruct B as [B|B]; auto. apply (f_equal length) in B. rewrite !length_app in B. cbn in B. lia. }
    assert (R : rest = []) by (apply (f_equal length) in E; rewrite !length_app in E; cbn in E; apply nil_length_inv; lia). rewrite R, app_nil_r. reflexivity.
  - unfold http_limit. cbn [Z.eqb http_lines]. assert (M : memchr (Z.to_nat (size_of (print_line l ++ rest) - 0)) (print_line l ++ rest) 0 10 = Ok (Some (size_of (line_text l ++ [13])))).
    { unfold print_line. change [13; 10] with ([13] ++ [10]). rewrite (app_assoc (line_text l) [13] [10]), <- (app_assoc _ [10] rest). apply (memchr_end 10 (line_text l ++ [13]) rest) with (pre := []); [apply Forall_app; split; [now apply text_no_newline|constructor; [lia|constructor]]|rewrite !length_app; cbn; lia|reflexivity]. }
    rewrite M. cbn [mbind outcome_bind negb andb]. replace (size_of (line_text l ++ [13]) + 1) with (size_of (print_line l)) by (unfold print_line; rewrite !length_app; cbn; lia). destruct (line_state l =? 0) eqn:S0; [reflexivity|].
    assert (N : rest <> []) by (intros ->; destruct l; cbn in S0; try discriminate S0; [destruct Hr as (? & ? & [=] & _)|discriminate B]). rewrite (proj2 (Z.ltb_lt _ (size_of (print_line l ++ rest)))) by (rewrite length_app; pose proof (size_pos rest N); lia). destruct rest as [|c rest]; [contradiction|].
    erewrite peek_Some; [|lia|rewrite Nat2Z.id; apply list_lookup_middle; reflexivity]. cbn [mbind outcome_bind]. destruct l; try discriminate S0; [destruct Hr as (? & ? & [= <- <-] & ->); reflexivity|]. cbn [print_line line_text length app]. rewrite andb_false_r. reflexivity.
Qed.
Hypothesis pcb_ok : forall m, 0 <= pcb (EV_HTTP m).
Lemma read_line k l rest : line_ok l -> match l with REQUEST _ _ _ _ | RESPONSE _ _ _ _ | EOH => True | HEADER _ _ => exists c rest', rest = c :: rest' /\ SP_byte c = false end ->
  read_packets (S k) TCP_PB_HTTP (print_line l ++ rest) (line_state l) = ('(es, buf, st) ← read_packets k TCP_PB_HTTP rest (next_state l); Ok (EV_HTTP (line_message l) :: es, buf, st)).
Proof.
  intros Hl Hr. cbn [read_packets]. rewrite (line_framed l rest Hl Hr). cbn [mbind outcome_bind]. rewrite (proj2 (Z.leb_gt _ 0)) by (unfold print_line; rewrite length_app; cbn; lia). rewrite Nat2Z.id, take_app_length, drop_app_length. unfold packet_parse. rewrite (line_parsed l Hl). cbn [mbind outcome_bind]. rewrite (proj2 (Z.ltb_ge _ 0)) by apply pcb_ok. reflexivity.
Qed.
Definition header_ok (h : line) : Prop := match h with HEADER _ _ => line_ok h | _ => False end.
#[export] Instance header_ok_dec h : Decision (header_ok h).
Proof. destruct h; cbn [header_ok]; apply _. Defined.
(** What follows a header does not start with a space. *)
Lemma header_next hs body : Forall header_ok hs -> exists c r, concat (map print_line hs) ++ print_line EOH ++ body = c :: r /\ SP_byte c = false.
Proof.
  intros F. destruct hs as [|h' hs]; [eexists _, _; split; reflexivity|]. apply Forall_cons in F as [Hh _]. destruct h' as [| |name value|]; try contradiction. destruct Hh as [[N F] _]. destruct name as [|c name]; [contradiction|]. eexists c, _. split; [reflexivity|]. apply Forall_cons in F as [F _]. apply plain_char in F. unfold SP_byte. lia.
Qed.
Lemma read_headers body hs : Forall header_ok hs -> read_packets (S (length hs)) TCP_PB_HTTP (concat (map print_line hs) ++ print_line EOH ++ body) 1 = Ok (map (fun l => EV_HTTP (line_message l)) (hs ++ [EOH]), body, 0).
Proof.
  induction 1 as [|h hs Hh F IH]; cbn [length map concat app].
  - apply (read_line 0 EOH body I I).
  - rewrite <- app_assoc. destruct h as [| |name value|]; try contradiction. change 1 with (line_state (HEADER name value)). rewrite (read_line _ (HEADER name value) _ Hh (header_next hs body F)). cbn [next_state]. rewrite IH. reflexivity.
Qed.
End Callbacks.

(** ** The properties *)
Theorem http_names_found name : 0 ∉ name ->
  http_hash_lookup name (size_of name) (name_hash name) http_hdr_hash HTTP_HDR_HASH_SIZE = name_index http_hdr_strings name /\
  http_hash_lookup name (size_of name) (name_hash name) http_meth_hash HTTP_METH_HASH_SIZE = name_index http_meth_strings name.
Proof. intros N. split; apply names_lookup; auto; apply tables_ok. Qed.
(** C40. Every packet that the length function cuts off for HTTP is parsed within its bytes,
    whatever they are: it gives one message, or the call for an error, after which the state is as
    before. *)
Theorem http_packets_safe pcb htype b max_plen trunc_len st r st' : http_type htype = true -> packet_get_length htype b max_plen trunc_len st = Ok (r, st') -> 0 < r ->
  let p := take (Z.to_nat r) b in
  exists es st2, packet_parse pcb htype p st' = Ok (es, 1, st2) /\
    ((es = [EV_ERROR p] /\ st2 = st') \/ exists m, es = EV_HTTP m :: (if pcb (EV_HTTP m) <? 0 then [EV_ERROR p] else [])).
Proof.
  intros Ht H Hr. cbv zeta. destruct (http_packet_end htype b max_plen trunc_len st r st' Ht H Hr) as (p & E). rewrite E. destruct (parse_safe p st') as (m & st2 & P). exists (match m with Some m => EV_HTTP m :: (if pcb (EV_HTTP m) <? 0 then [EV_ERROR (p ++ [10])] else []) | None => [EV_ERROR (p ++ [10])] end), st2. split.
  - unfold packet_parse. destruct htype; try discriminate Ht; rewrite P; cbn [mbind outcome_bind]; destruct m; reflexivity.
  - destruct m as [m|]; [right; eauto|]. left. split; auto. now apply (parse_failed (p ++ [10])).
Qed.
(** C39. A request or a response with its headers, written as text and read packet by packet,
    gives its parts back in order: the method and the header names as indices of the tables of names
    or in the spelling with capitals, the numbers, the URI and the values; what follows the empty
    line is left over. *)
Theorem http_message_roundtrip pcb s hs body : (forall m, 0 <= pcb (EV_HTTP m)) -> line_ok s -> line_state s = 0 -> Forall header_ok hs ->
  let message := print_line s ++ concat (map print_line hs) ++ print_line EOH in
  size_of (message ++ body) < 2 ^ 31 ->
  read_packets pcb (S (S (length hs))) TCP_PB_HTTP (message ++ body) 0 = Ok (map (fun l => EV_HTTP (line_message l)) (s :: hs ++ [EOH]), body, 0).
Proof.
  intros Hp Hs S0 Hh message _. subst message. rewrite <- !app_assoc. rewrite <- S0 at 1. rewrite read_line by (auto || (destruct s; auto; discriminate S0)). replace (next_state s) with 1 by (destruct s; auto; discriminate S0). rewrite read_headers by auto. reflexivity.
Qed.
Lemma http_names_found_witness : (0 ∉ text "Host") /\ http_hash_lookup (text "Host") 4 (name_hash (text "Host")) http_hdr_hash HTTP_HDR_HASH_SIZE = Some 13 /\ http_hash_lookup (text "PATCH") 5 (name_hash (text "PATCH")) http_meth_hash HTTP_METH_HASH_SIZE = None.
Proof.
  assert (N1 : 0 ∉ text "Host") by (apply (bool_decide_unpack _); vm_compute; exact I). assert (N2 : 0 ∉ text "PATCH") by (apply (bool_decide_unpack _); vm_compute; exact I). splits.
  - exact N1.
  - apply (http_names_found (text "Host") N1).
  - apply (http_names_found (text "PATCH") N2).
Defined.
Definition get_line : list Z := text "GET / HTTP/1.1" ++ [13; 10].
Lemma http_packets_safe_witness : packet_get_length TCP_PB_HTTP (get_line ++ [72]) 0 0 0 = Ok (16, 0) /\
  exists es st2, packet_parse (fun _ => 1) TCP_PB_HTTP get_line 0 = Ok (es, 1, st2) /\ ((es = [EV_ERROR get_line] /\ st2 = 0) \/ exists m, es = [EV_HTTP m]).
Proof.
  assert (E : packet_get_length TCP_PB_HTTP (get_line ++ [72]) 0 0 0 = Ok (16, 0)) by (vm_compute; reflexivity). split; [exact E|].
  destruct (http_packets_safe (fun _ => 1) TCP_PB_HTTP (get_line ++ [72]) 0 0 0 16 0 eq_refl E ltac:(lia)) as (es & st2 & P & D). exists es, st2. split; [exact P|]. destruct D as [D|(m & D)]; [left; exact D|right; exists m; exact D].
Defined.
Lemma http_message_roundtrip_witness :
  line_ok (REQUEST (text "GET") (text "/a") (text "1") (text "1")) /\
  read_packets (fun _ => 1) 3 TCP_PB_HTTP (text "GET /a HTTP/1.1" ++ [13; 10] ++ text "hOST: x" ++ [13; 10; 13; 10; 1; 2]) 0 =
    Ok ([EV_HTTP (http_request (Some 1) (text "GET") (URI_ABS_PATH (text "/a")) 1 1); EV_HTTP (http_header (Some 13) (text "Host") (text "x")); EV_HTTP http_eoh], [1; 2], 0).
Proof.
  assert (H1 : line_ok (REQUEST (text "GET") (text "/a") (text "1") (text "1"))) by (apply (bool_decide_unpack _); vm_compute; exact I). assert (H2 : header_ok (HEADER (text "hOST") (text "x"))) by (apply (bool_decide_unpack _); vm_compute; exact I). split; [exact H1|].
  apply (http_message_roundtrip (fun _ => 1) (REQUEST (text "GET") (text "/a") (text "1") (text "1")) [HEADER (text "hOST") (text "x")] [1; 2]); [lia|exact H1|reflexivity|constructor; [exact H2|constructor]|vm_compute; reflexivity].
Defined.
