(* ===== verification/CodeIx.v ===== *)
(** Code indices (code_ix.c): the active and the staging index, the permission to write code
    with its queue, and readers and writers as a step relation with its invariant [cix_inv]. *)

From S2P Require Import Prelude.
From stdpp Require Import base option list gmap.
Local Open Scope Z_scope.

(** ** Code indices *)
(** The integers 0, 1 and 2. *)
Inductive ErtsCodeIndex := Ix0 | Ix1 | Ix2.
#[export] Instance ErtsCodeIndex_dec : EqDecision ErtsCodeIndex.
Proof. solve_decision. Defined.
(** [(ix + 1) % ERTS_NUM_CODE_IX] *)
Definition ix_next (ix : ErtsCodeIndex) : ErtsCodeIndex := match ix with Ix0 => Ix1 | Ix1 => Ix2 | Ix2 => Ix0 end.
(** The two atomic variables. *)
Record code_ix := mkCodeIx { the_active_code_index : ErtsCodeIndex; the_staging_code_index : ErtsCodeIndex }.
(** [erts_code_ix_init]. *)
Definition erts_code_ix_init : code_ix := mkCodeIx Ix0 Ix0.
(** [erts_commit_staging_code_ix]. *)
Definition erts_commit_staging_code_ix (c : code_ix) : code_ix :=
  let ix := the_staging_code_index c in mkCodeIx ix (ix_next ix).

(** An array with an entry for each code index. *)
Record perix (A : Type) := PerIx { at0 : A; at1 : A; at2 : A }.
Arguments PerIx {A}. Arguments at0 {A}. Arguments at1 {A}. Arguments at2 {A}.
Definition at_ix {A} (ix : ErtsCodeIndex) (v : perix A) : A := match ix with Ix0 => at0 v | Ix1 => at1 v | Ix2 => at2 v end.
Definition set_ix {A} (ix : ErtsCodeIndex) (a : A) (v : perix A) : perix A :=
  match ix with Ix0 => PerIx a (at1 v) (at2 v) | Ix1 => PerIx (at0 v) a (at2 v) | Ix2 => PerIx (at0 v) (at1 v) a end.
Lemma at_set_eq {A} ix (a : A) v : at_ix ix (set_ix ix a v) = a.
Proof. now destruct ix. Qed.
Lemma at_set_ne {A} i ix (a : A) v : i <> ix -> at_ix i (set_ix ix a v) = at_ix i v.
Proof. destruct i, ix; cbn; congruence. Qed.
Lemma next_ne ix : ix_next ix <> ix /\ ix_next (ix_next ix) <> ix /\ ix_next (ix_next (ix_next ix)) = ix.
Proof. now destruct ix. Qed.
Lemma three_ix a i : i = a \/ i = ix_next a \/ i = ix_next (ix_next a).
Proof. destruct a, i; auto. Qed.

(** ** The permission to write code *)
(** Processes by their numbers; [suspended]: those that wait for a resume. *)
Record permission := mkPermission { code_writing_process : option Z; code_write_queue : list Z; suspended : gset Z }.
(** [erts_try_seize_code_write_permission]; the result is whether it was seized. *)
Definition erts_try_seize_code_write_permission (c_p : Z) (s : permission) : permission * bool :=
  match code_writing_process s with
  | None => (mkPermission (Some c_p) (code_write_queue s) (suspended s), true)
  | Some _ => (mkPermission (code_writing_process s) (c_p :: code_write_queue s) ({[c_p]} ∪ suspended s), false)
  end.
(** [exiting]: the processes that are exiting, which are not resumed. *)
Fixpoint unleash (exiting : Z -> bool) (queue : list Z) (s : gset Z) : gset Z :=
  match queue with
  | [] => s
  | p :: queue => unleash exiting queue (if exiting p then s else s ∖ {[p]})
  end.
(** [erts_release_code_write_permission]. *)
Definition erts_release_code_write_permission (exiting : Z -> bool) (s : permission) : permission :=
  mkPermission None [] (unleash exiting (code_write_queue s) (suspended s)).

Lemma unleash_spec exiting q : forall s p, p ∈ unleash exiting q s <-> p ∈ s /\ (p ∈ q -> exiting p = true).
Proof.
  induction q as [|a q IH]; intros s p; cbn [unleash].
  - split; [intros H; split; auto; intros ?%elem_of_nil; tauto|tauto].
  - rewrite IH. destruct (exiting a) eqn:E; rewrite elem_of_cons; [|rewrite elem_of_difference, elem_of_singleton].
    + split; intros [H1 H2]; split; auto. intros [->|H]; auto.
    + split; [intros [[H1 Hn] H2]; split; auto; intros [->|H]; auto; congruence|].
      intros [H1 H2]. splits; auto. intros ->. rewrite H2 in E by auto. discriminate.
Qed.

(** ** Staging, as a step relation *)
(** A reader is a call that has read the active code index and still uses it.
    [Ended w]: the staging has ended, and the change waits for the readers [w]
    that were there at that time. *)
Inductive staging_phase := Idle | Staging | Ended (w : gset Z).
Record cix_state := mkCix { indices : code_ix; perm : permission; phase : staging_phase; readers : gmap Z ErtsCodeIndex }.
Definition released (exiting : Z -> bool) (c : code_ix) (s : cix_state) : cix_state :=
  mkCix c (erts_release_code_write_permission exiting (perm s)) Idle (readers s).
Definition passed (r : Z) (p : staging_phase) : staging_phase := match p with Ended w => Ended (w ∖ {[r]}) | _ => p end.

(** One step of a reader or of the writer: a call reads the active index and returns; a process
    asks for the permission, starts, aborts or ends its staging; an ended change is committed when
    all threads have made progress, or at once when they are blocked. *)
Inductive cix_step (exiting : Z -> bool) : cix_state -> cix_state -> Prop :=
| step_read r s : readers s !! r = None ->
    cix_step exiting s (mkCix (indices s) (perm s) (phase s) (<[r := the_active_code_index (indices s)]> (readers s)))
| step_return r s : cix_step exiting s (mkCix (indices s) (perm s) (passed r (phase s)) (delete r (readers s)))
| step_seize p s : p ∉ suspended (perm s) -> code_writing_process (perm s) <> Some p ->
    cix_step exiting s (mkCix (indices s) (fst (erts_try_seize_code_write_permission p (perm s))) (phase s) (readers s))
| step_release p s : code_writing_process (perm s) = Some p -> phase s = Idle -> cix_step exiting s (released exiting (indices s) s)
| step_start p s : code_writing_process (perm s) = Some p -> phase s = Idle ->
    cix_step exiting s (mkCix (indices s) (perm s) Staging (readers s))
| step_abort s : phase s = Staging -> cix_step exiting s (released exiting (indices s) s)
| step_end s : phase s = Staging -> cix_step exiting s (mkCix (indices s) (perm s) (Ended (dom (readers s))) (readers s))
| step_commit s : phase s = Ended ∅ -> cix_step exiting s (released exiting (erts_commit_staging_code_ix (indices s)) s)
| step_commit_blocking s : phase s = Staging -> readers s = ∅ -> cix_step exiting s (released exiting (erts_commit_staging_code_ix (indices s)) s).
(** After the preloaded modules. *)
Definition cix_start : cix_state := mkCix (erts_commit_staging_code_ix erts_code_ix_init) (mkPermission None [] ∅) Idle ∅.

Record cix_inv (exiting : Z -> bool) (s : cix_state) : Prop := {
  ci_next : the_staging_code_index (indices s) = ix_next (the_active_code_index (indices s));
  ci_readers : forall r i, readers s !! r = Some i -> i <> the_staging_code_index (indices s);
  ci_ended : forall w r i, phase s = Ended w -> readers s !! r = Some i -> r ∈ w \/ i = the_active_code_index (indices s);
  ci_writer : phase s <> Idle -> code_writing_process (perm s) <> None;
  ci_queue : code_writing_process (perm s) = None -> code_write_queue (perm s) = [];
  ci_waiting : forall p, p ∈ suspended (perm s) -> p ∈ code_write_queue (perm s) \/ exiting p = true }.

Lemma released_inv exiting c s : the_staging_code_index c = ix_next (the_active_code_index c) ->
  (forall r i, readers s !! r = Some i -> i <> the_staging_code_index c) ->
  (forall p, p ∈ suspended (perm s) -> p ∈ code_write_queue (perm s) \/ exiting p = true) ->
  cix_inv exiting (released exiting c s).
Proof.
  intros Hn Hr Hw. constructor; cbn; auto; try (intros; congruence).
  - intros p. rewrite unleash_spec. intros [Hp Hq]. right. destruct (Hw p Hp); auto.
Qed.
Lemma committed_inv exiting s (w : gset Z) : cix_inv exiting s -> (forall r i, readers s !! r = Some i -> r ∈ w \/ i = the_active_code_index (indices s)) -> w = ∅ ->
  cix_inv exiting (released exiting (erts_commit_staging_code_ix (indices s)) s).
Proof.
  intros I He ->. apply released_inv; [reflexivity| |apply (ci_waiting _ _ I)].
  intros r i Hr. destruct (He r i Hr) as [?%elem_of_empty| ->]; [tauto|]. cbn. rewrite (ci_next _ _ I).
  destruct (the_active_code_index (indices s)); discriminate.
Qed.
Lemma cix_step_inv exiting s s' : cix_inv exiting s -> cix_step exiting s s' -> cix_inv exiting s'.
Proof.
  intros I St. destruct St as [r s Hr|r s|p s Hs Hp|p s Hp Hi|p s Hp Hi|s Hi|s Hi|s Hi|s Hi Hr].
  - destruct I as [I1 I2 I3 I4 I5 I6]. constructor; cbn; auto.
    + intros r' i Hr'. apply lookup_insert_Some in Hr' as [[<- <-]|[_ Hr']]; [|eauto]. rewrite I1. apply not_eq_sym, next_ne.
    + intros w r' i Hw Hr'. apply lookup_insert_Some in Hr' as [[<- <-]|[_ Hr']]; eauto.
  - destruct I as [I1 I2 I3 I4 I5 I6]. constructor; cbn; auto.
    + intros r' i [_ Hr']%lookup_delete_Some. eauto.
    + intros w r' i Hw [Hn Hr']%lookup_delete_Some. destruct (phase s) as [| |w'] eqn:Ep; try discriminate. injection Hw as <-.
      destruct (I3 w' r' i eq_refl Hr') as [H|H]; auto. left. rewrite elem_of_difference, elem_of_singleton. auto.
    + destruct (phase s); cbn; auto; intros; now apply I4.
  - destruct I as [I1 I2 I3 I4 I5 I6]. unfold erts_try_seize_code_write_permission. destruct (code_writing_process (perm s)) as [q|] eqn:Eq; cbn [fst].
    + constructor; cbn; auto; try congruence. intros p'. rewrite elem_of_union, elem_of_singleton, elem_of_cons. intros [->|H]; auto. destruct (I6 p' H); auto.
    + constructor; cbn; auto; congruence.
  - destruct I. apply released_inv; auto.
  - destruct I as [I1 I2 I3 I4 I5 I6]. constructor; cbn; auto; congruence.
  - destruct I. apply released_inv; auto.
  - pose proof (ci_writer _ _ I ltac:(congruence)) as W. destruct I as [I1 I2 I3 I4 I5 I6]. constructor; cbn; auto.
    intros w r i [= <-] Hr. left. apply elem_of_dom. eauto.
  - apply (committed_inv exiting s ∅ I); auto. intros r i. now apply (ci_ended _ _ I).
  - apply (committed_inv exiting s ∅ I); auto. intros r i. rewrite Hr, lookup_empty. discriminate.
Qed.
Lemma cix_start_inv exiting : cix_inv exiting cix_start.
Proof. constructor; cbn; auto; try (intros; congruence); intros *; rewrite ?lookup_empty, ?elem_of_empty; try congruence; tauto. Qed.
Lemma cix_reachable exiting s : rtc (cix_step exiting) cix_start s -> cix_inv exiting s.
Proof.
  assert (P : forall s0, rtc (cix_step exiting) s0 s -> cix_inv exiting s0 -> cix_inv exiting s).
  { induction 1 as [|? ? ? St R IH]; auto. intros I. apply IH. eapply cix_step_inv; eauto. }
  intros R. exact (P _ R (cix_start_inv exiting)).
Qed.

(** When the readers it waits for return, a change is committed. *)
Lemma readers_return exiting n : forall s w, phase s = Ended w -> size w = n ->
  exists s', rtc (cix_step exiting) s s' /\ phase s' = Ended ∅ /\ indices s' = indices s.
Proof.
  induction n as [|n IH]; intros s w Hp Hn.
  - apply size_empty_inv in Hn. apply leibniz_equiv in Hn as ->. exists s. split; [constructor|auto].
  - assert (w <> ∅) as [r Hr]%set_choose_L by (intros ->; now rewrite size_empty in Hn).
    destruct (IH (mkCix (indices s) (perm s) (passed r (phase s)) (delete r (readers s))) (w ∖ {[r]})) as (s' & R & H1 & H2).
    + cbn. now rewrite Hp.
    + rewrite size_difference by set_solver. rewrite size_singleton. lia.
    + exists s'. split; [|split; auto]. eapply rtc_l; [|exact R]. constructor.
Qed.
Lemma change_commits exiting s w : phase s = Ended w ->
  exists s', rtc (cix_step exiting) s s' /\ phase s' = Idle /\ code_writing_process (perm s') = None /\ indices s' = erts_commit_staging_code_ix (indices s).
Proof.
  intros Hp. destruct (readers_return exiting (size w) s w Hp eq_refl) as (s' & R & H1 & H2).
  exists (released exiting (erts_commit_staging_code_ix (indices s')) s'). cbn. rewrite H2. splits; auto.
  eapply rtc_r; [exact R|]. rewrite <- H2. now apply step_commit.
Qed.
