(* ===== verification/Catches.v ===== *)
(** The catch tables (beam_catches.c): pools that share vectors in memory, with a free list
    each. [catches_ok] says which catches the active and the staged pool hold. *)

From S2P Require Import Prelude.
From stdpp Require Import base option list gmap.
From S2P Require Import Memory CodeIx.
Local Open Scope Z_scope.

Definition DEFAULT_TABSIZE : Z := 1024.
(** A catch: its handler and the next catch of the module. *)
Record beam_catch_t := mkCatch { cp : Z; cdr : Z }.
(** The slots of a vector; a slot that was never written is [None]. *)
Notation catch_vec := (list (option beam_catch_t)).
(** A pool; [beam_catches] points to its vector. *)
Record bc_pool := mkPool { free_list : Z; high_mark : Z; tabsize : Z; beam_catches : ptr }.
(** The pools and the vectors they share. *)
Record catches := mkCatches { bccix : perix bc_pool; vecs : mem catch_vec }.
(** The end of a chain, as an unsigned int. *)
Definition BEAM_CATCHES_NIL : Z := u32 (-1).

(** [beam_catches_init]. *)
Definition beam_catches_init : catches :=
  let '(m, v) := erts_alloc (replicate (Z.to_nat DEFAULT_TABSIZE) None) (Mem 1%positive ∅) in
  let p := mkPool (-1) 0 DEFAULT_TABSIZE v in
  mkCatches (PerIx p p p) m.
(** Does a pool use the vector? *)
Definition in_use (v : ptr) (pools : perix bc_pool) : bool :=
  bool_decide (beam_catches (at_ix Ix0 pools) = v) || bool_decide (beam_catches (at_ix Ix1 pools) = v) || bool_decide (beam_catches (at_ix Ix2 pools) = v).
(** [gc_old_vec]. *)
Definition gc_old_vec (v : ptr) (c : catches) : catches :=
  if in_use v (bccix c) then c else mkCatches (bccix c) (erts_free v (vecs c)).
(** [beam_catches_start_staging]. *)
Definition beam_catches_start_staging (ix : code_ix) (c : catches) : catches :=
  let dst := the_staging_code_index ix in
  let src := the_active_code_index ix in
  let prev_vec := beam_catches (at_ix dst (bccix c)) in
  gc_old_vec prev_vec (mkCatches (set_ix dst (at_ix src (bccix c)) (bccix c)) (vecs c)).
(** Only a debug flag changes. *)
Definition beam_catches_end_staging (commit : bool) (c : catches) : catches := c.

(** A slot is read; one that was never written is undefined. *)
Definition read_slot (i : Z) (v : catch_vec) : outcome beam_catch_t := s ← require (v !! Z.to_nat i); require s.
(** A slot of the vector is written. *)
Definition write_slot (i : Z) (s : beam_catch_t) (v : catch_vec) : outcome catch_vec :=
  _ ← require (v !! Z.to_nat i); Ok (<[Z.to_nat i := Some s]> v).
(** A table of twice the size, when there is no free slot. *)
Definition grow_table (ix : ErtsCodeIndex) (p : bc_pool) (c : catches) : outcome (bc_pool * catches) :=
  if high_mark p >=? tabsize p then
    let prev_vec := beam_catches p in
    let newsize := u32 (tabsize p * 2) in
    v ← load prev_vec (vecs c);
    _ ← require (if newsize <? tabsize p then None else Some tt);
    let '(m, new) := erts_alloc (take (Z.to_nat (tabsize p)) v ++ replicate (Z.to_nat newsize - Z.to_nat (tabsize p)) None) (vecs c) in
    let p := mkPool (free_list p) (high_mark p) (tabsize p) new in
    let c := gc_old_vec prev_vec (mkCatches (set_ix ix p (bccix c)) m) in
    Ok (mkPool (free_list p) (high_mark p) newsize new, c)
  else Ok (p, c).
(** A free slot: the first of the free list, or the one at the high mark. *)
Definition alloc_slot (stg : ErtsCodeIndex) (c : catches) : outcome (Z * bc_pool * catches) :=
  let p := at_ix stg (bccix c) in
  if free_list p >=? 0 then
    v ← load (beam_catches p) (vecs c);
    s ← read_slot (free_list p) v;
    Ok (free_list p, mkPool (s32 (cdr s)) (high_mark p) (tabsize p) (beam_catches p), c)
  else
    '(p, c) ← grow_table stg p c;
    Ok (s32 (high_mark p), mkPool (free_list p) (u32 (high_mark p + 1)) (tabsize p) (beam_catches p), c).
(** [beam_catches_cons]. *)
Definition beam_catches_cons (ix : code_ix) (pc cdr0 : Z) (c : catches) : outcome (catches * Z) :=
  let stg := the_staging_code_index ix in
  '(i, p, c) ← alloc_slot stg c;
  v ← load (beam_catches p) (vecs c);
  v ← write_slot i (mkCatch pc cdr0) v;
  m ← store (beam_catches p) v (vecs c);
  Ok (mkCatches (set_ix stg p (bccix c)) m, u32 i).
(** [beam_catches_car]. *)
Definition beam_catches_car (ix : code_ix) (i : Z) (c : catches) : outcome Z :=
  let p := at_ix (the_active_code_index ix) (bccix c) in
  if i >=? tabsize p then Erl_exit
  else v ← load (beam_catches p) (vecs c); s ← read_slot i v; Ok (cp s).
(** The loop; a chain with a cycle would never end. *)
Fixpoint delmod_loop (fuel : nat) (i : Z) (code code_bytes tabsize free_list : Z) (v : catch_vec) : outcome (Z * catch_vec) :=
  match fuel with
  | O => Undef
  | S fuel =>
      if i =? BEAM_CATCHES_NIL then Ok (free_list, v)
      else if i >=? tabsize then Erl_exit
      else
        s ← read_slot i v;
        if cp s - code >=? code_bytes then Erl_exit
        else
          v ← write_slot i (mkCatch 0 (u32 free_list)) v;
          delmod_loop fuel (cdr s) code code_bytes tabsize (s32 i) v
  end.
(** [beam_catches_delmod]. *)
Definition beam_catches_delmod (head code code_bytes : Z) (ix : ErtsCodeIndex) (c : catches) : outcome catches :=
  let p := at_ix ix (bccix c) in
  v ← load (beam_catches p) (vecs c);
  '(fl, v) ← delmod_loop (S (length v)) head code code_bytes (tabsize p) (free_list p) v;
  m ← store (beam_catches p) v (vecs c);
  Ok (mkCatches (set_ix ix (mkPool fl (high_mark p) (tabsize p) (beam_catches p)) (bccix c)) m).

(** ** What a pool holds *)
Lemma s32_u32 z : -1 <= z < 2 ^ 31 -> s32 (u32 z) = z.
Proof. intros. destruct (Z.eq_dec z (-1)) as [->|]; [reflexivity|]. rewrite u32_id by lia. apply s32_id. lia. Qed.

(** The catches of a pool: the handler and the next catch of the module. *)
Notation contents := (gmap Z beam_catch_t).
Definition holds (high : Z) (v : catch_vec) (A : contents) : Prop :=
  forall i s, A !! i = Some s -> 0 <= i < high /\ v !! Z.to_nat i = Some (Some s).
Fixpoint free_chain (high : Z) (v : catch_vec) (fl : Z) (l : list Z) : Prop :=
  match l with
  | [] => fl = -1
  | i :: l => fl = i /\ 0 <= i < high /\ exists s, v !! Z.to_nat i = Some (Some s) /\ free_chain high v (s32 (cdr s)) l
  end.
Record pool_ok (p : bc_pool) (v : catch_vec) (A : contents) (free : list Z) : Prop := {
  po_size : tabsize p = Z.of_nat (length v);
  po_high : 0 <= high_mark p <= tabsize p /\ 0 < tabsize p <= Z.max DEFAULT_TABSIZE (2 * high_mark p) /\ high_mark p < 2 ^ 30;
  po_full : high_mark p = Z.of_nat (size A + length free);
  po_holds : holds (high_mark p) v A;
  po_chain : free_chain (high_mark p) v (free_list p) free;
  po_nodup : NoDup free;
  po_free : forall i, i ∈ free -> A !! i = None }.

Lemma chain_ext high high' v v' l : forall fl, free_chain high v fl l -> high <= high' ->
  (forall i, i ∈ l -> v' !! Z.to_nat i = v !! Z.to_nat i) -> free_chain high' v' fl l.
Proof.
  induction l as [|i l IH]; intros fl; cbn [free_chain]; auto. intros (-> & Hi & s & Hs & Hc) Hh E. splits; [auto|lia..|].
  exists s. rewrite E by (left; auto). split; auto. apply IH; auto. intros j Hj. apply E. now right.
Qed.
Lemma chain_bound high v l : forall fl, free_chain high v fl l -> Forall (fun i => 0 <= i < high) l.
Proof. induction l as [|i l IH]; intros fl; cbn; [constructor|]. intros (-> & Hi & s & Hs & Hc). constructor; eauto. Qed.
Lemma chain_head high v l fl : free_chain high v fl l -> -1 <= fl < Z.max 0 high.
Proof. destruct l; cbn; [lia|]. intros (-> & H & _). lia. Qed.
Lemma holds_insert high v A i s : holds high v A -> 0 <= i < high -> (Z.to_nat i < length v)%nat -> holds high (<[Z.to_nat i := Some s]> v) (<[i := s]> A).
Proof.
  intros H Hi Hl j t. destruct (decide (j = i)) as [->|N].
  - rewrite lookup_insert_eq. intros [= <-]. split; auto. now apply list_lookup_insert_eq.
  - rewrite lookup_insert_ne by auto. intros Hj. destruct (H j t Hj) as [Hb Hv]. split; auto. rewrite list_lookup_insert_ne by lia. auto.
Qed.
Lemma holds_other high v A i s : holds high v A -> A !! i = None -> 0 <= i -> holds high (<[Z.to_nat i := s]> v) A.
Proof.
  intros H N Hi j t Hj. destruct (H j t Hj) as [Hb Hv]. split; auto. assert (j <> i) by congruence. rewrite list_lookup_insert_ne by lia. auto.
Qed.
Lemma in_use_spec v pools : in_use v pools = true <-> exists i, beam_catches (at_ix i pools) = v.
Proof.
  unfold in_use. rewrite !orb_true_iff, !bool_decide_eq_true. split; [intros [[H|H]|H]; eauto|]. intros [[] H]; auto.
Qed.
Lemma gc_cells v c q : (exists i, beam_catches (at_ix i (bccix c)) = q) -> cells (vecs (gc_old_vec v c)) !! q = cells (vecs c) !! q.
Proof.
  intros Hq. unfold gc_old_vec. destruct (in_use v (bccix c)) eqn:E; auto. cbn. apply lookup_delete_ne. intros <-. apply in_use_spec in Hq. congruence.
Qed.
Lemma gc_pools v c : bccix (gc_old_vec v c) = bccix c.
Proof. unfold gc_old_vec. now destruct (in_use v (bccix c)). Qed.
Lemma gc_mem v c : mem_ok (vecs c) -> mem_ok (vecs (gc_old_vec v c)).
Proof. intros H. unfold gc_old_vec. destruct (in_use v (bccix c)); auto. now apply free_ok. Qed.

Definition alive (c : catches) : Prop := mem_ok (vecs c) /\ forall j, is_Some (cells (vecs c) !! beam_catches (at_ix j (bccix c))).
(** The table is large enough, or grows. *)
Lemma grow_spec ix c v S : let p := at_ix ix (bccix c) in
  alive c -> cells (vecs c) !! beam_catches p = Some v -> pool_ok p v S [] -> high_mark p < 2 ^ 30 - 1 ->
  exists p' c' v', grow_table ix p c = Ok (p', c') /\ free_list p' = -1 /\ high_mark p' = high_mark p /\ tabsize p' = Z.of_nat (length v') /\
    high_mark p < tabsize p' <= Z.max DEFAULT_TABSIZE (2 * high_mark p + 1) /\ alive c' /\ cells (vecs c') !! beam_catches p' = Some v' /\
    beam_catches (at_ix ix (bccix c')) = beam_catches p' /\ holds (high_mark p) v' S /\
    (forall j, j <> ix -> at_ix j (bccix c') = at_ix j (bccix c)) /\
    (forall j, j <> ix -> cells (vecs c') !! beam_catches (at_ix j (bccix c)) = cells (vecs c) !! beam_catches (at_ix j (bccix c))).
Proof.
  intros p [Hm Ha] Hv P Hh. pose proof P as [Ps Ph Pf Pa Pc _ _]. cbn in Pc. unfold grow_table. rewrite Z.geb_leb. destruct (Z.leb_spec (tabsize p) (high_mark p)).
  - unfold load. rewrite Hv. cbn [mbind outcome_bind require]. rewrite u32_id by lia. rewrite (proj2 (Z.ltb_ge _ _)) by lia.
    cbn [mbind outcome_bind require erts_alloc]. set (v' := take _ v ++ _). set (p1 := mkPool _ _ _ _). set (c1 := mkCatches _ _).
    assert (El : Z.of_nat (length v') = tabsize p * 2) by (subst v'; rewrite length_app, length_take, length_replicate; lia).
    assert (Fr : forall j, cells (vecs c1) !! beam_catches (at_ix j (bccix c)) = cells (vecs c) !! beam_catches (at_ix j (bccix c))).
    { intros j. cbn. apply lookup_insert_ne. destruct (Ha j) as [vj Hj]. apply Hm in Hj. lia. }
    assert (Ej : forall j, j <> ix -> at_ix j (bccix c1) = at_ix j (bccix c)) by (intros j N; cbn; now apply at_set_ne).
    assert (E1 : cells (vecs (gc_old_vec (beam_catches p) c1)) !! brk (vecs c) = Some v').
    { rewrite gc_cells; [cbn; now rewrite lookup_insert_eq|]. exists ix. cbn. now rewrite at_set_eq. }
    assert (E2 : forall j, j <> ix -> cells (vecs (gc_old_vec (beam_catches p) c1)) !! beam_catches (at_ix j (bccix c)) = cells (vecs c) !! beam_catches (at_ix j (bccix c))).
    { intros j N. rewrite gc_cells; auto. exists j. now rewrite Ej. }
    eexists _, _, v'. split; [reflexivity|]. cbn [free_list high_mark tabsize beam_catches p1]. rewrite gc_pools. splits; auto; try lia.
    + split; [apply gc_mem; now apply alloc_ok|]. intros j. rewrite gc_pools. destruct (decide (j = ix)) as [->|N].
      * cbn [c1 bccix]. rewrite at_set_eq. cbn. eauto.
      * rewrite Ej, E2 by auto. apply Ha.
    + cbn [c1 bccix]. now rewrite at_set_eq.
    + intros i s Hi. destruct (Pa i s Hi) as [Hb Hs]. split; auto. subst v'. rewrite lookup_app_l by (rewrite length_take; lia). rewrite lookup_take_lt by lia. auto.
  - exists p, c, v. splits; auto; try lia. now split.
Qed.

Lemma slot_spec stg x c v S free : let p := at_ix stg (bccix c) in
  alive c -> cells (vecs c) !! beam_catches p = Some v -> pool_ok p v S free -> high_mark p < 2 ^ 30 - 1 ->
  exists i p1 c1 v1 free1, alloc_slot stg c = Ok (i, p1, c1) /\ 0 <= i < 2 ^ 30 /\ S !! i = None /\ (Z.to_nat i < length v1)%nat /\ alive c1 /\
     cells (vecs c1) !! beam_catches p1 = Some v1 /\ beam_catches (at_ix stg (bccix c1)) = beam_catches p1 /\
     pool_ok p1 (<[Z.to_nat i := Some x]> v1) (<[i := x]> S) free1 /\ high_mark p1 <= high_mark p + 1 /\
     (forall j, j <> stg -> at_ix j (bccix c1) = at_ix j (bccix c)) /\
     (forall j, j <> stg -> cells (vecs c1) !! beam_catches (at_ix j (bccix c)) = cells (vecs c) !! beam_catches (at_ix j (bccix c))).
Proof.
  intros p A Hv P Hh. pose proof P as [Ps Ph Pf Pa Pc Pn Pr]. unfold alloc_slot. fold p. rewrite Z.geb_leb.
  destruct (Z.leb_spec 0 (free_list p)) as [Hf|Hf].
  - destruct free as [|i free]; cbn [free_chain] in Pc; [lia|]. destruct Pc as (Ei & Hi & s & Hs & Hc). unfold load, read_slot. rewrite Hv, Ei. cbn [mbind outcome_bind require]. rewrite Hs. cbn [mbind outcome_bind require].
    assert (Si : S !! i = None) by (apply Pr; left; auto). assert (Li : (Z.to_nat i < length v)%nat) by (apply lookup_lt_is_Some; eauto).
    apply NoDup_cons in Pn as [Hin Pn].
    eexists i, _, c, v, free. split; [reflexivity|]. cbn [high_mark tabsize free_list beam_catches]. splits; auto; try lia.
    constructor; cbn [high_mark tabsize free_list beam_catches]; auto.
    + now rewrite length_insert.
    + rewrite map_size_insert_None by auto. cbn in Pf. lia.
    + now apply holds_insert.
    + apply (chain_ext (high_mark p) _ v); auto; [lia|]. intros j Hj. assert (j <> i) by congruence.
      apply list_lookup_insert_ne. pose proof (chain_bound _ _ _ _ Hc) as B. rewrite Forall_forall in B. specialize (B j Hj). cbn in B. lia.
    + intros j Hj. rewrite lookup_insert_ne by congruence. apply Pr. now right.
  - assert (free = []) as -> by (destruct free; auto; cbn in Pc; lia).
    destruct (grow_spec stg c v S A Hv P Hh) as (p1 & c1 & v1 & Eg & E1 & E2 & E3 & E4 & A1 & Hv1 & E5 & H1 & F1 & F2). fold p in Eg, E2, E4, H1.
    rewrite Eg. cbn [mbind outcome_bind]. rewrite E2, (s32_id (high_mark p)), (u32_id (high_mark p + 1)) by lia.
    assert (Sh : S !! high_mark p = None). { destruct (S !! high_mark p) as [s|] eqn:E; auto. destruct (Pa _ _ E). lia. }
    eexists (high_mark p), _, c1, v1, []. split; [reflexivity|]. cbn [high_mark tabsize free_list beam_catches]. splits; auto; try lia.
    constructor; cbn [high_mark tabsize free_list beam_catches free_chain]; auto; try lia.
    + now rewrite length_insert.
    + rewrite map_size_insert_None by auto. cbn in Pf. cbn [length]. lia.
    + apply holds_insert; [|lia|lia]. intros j s Hj. destruct (H1 j s Hj). split; auto. lia.
    + intros j ?%elem_of_nil. tauto.
Qed.
Lemma cons_spec ix pc cdr0 c v S free : let stg := the_staging_code_index ix in let p := at_ix stg (bccix c) in
  alive c -> cells (vecs c) !! beam_catches p = Some v -> pool_ok p v S free -> high_mark p < 2 ^ 30 - 1 ->
  exists c' i v' free', beam_catches_cons ix pc cdr0 c = Ok (c', i) /\ 0 <= i < 2 ^ 31 /\ S !! i = None /\ alive c' /\
    cells (vecs c') !! beam_catches (at_ix stg (bccix c')) = Some v' /\ pool_ok (at_ix stg (bccix c')) v' (<[i := mkCatch pc cdr0]> S) free' /\
    high_mark (at_ix stg (bccix c')) <= high_mark p + 1 /\
    (forall j, j <> stg -> at_ix j (bccix c') = at_ix j (bccix c)) /\
    (forall j vj, j <> stg -> cells (vecs c) !! beam_catches (at_ix j (bccix c)) = Some vj ->
       exists vj', cells (vecs c') !! beam_catches (at_ix j (bccix c)) = Some vj' /\ length vj' = length vj /\
         forall k, 0 <= k -> k <> i -> vj' !! Z.to_nat k = vj !! Z.to_nat k).
Proof.
  intros stg p A Hv P Hh. unfold beam_catches_cons. fold stg.
  destruct (slot_spec stg (mkCatch pc cdr0) c v S free A Hv P Hh) as (i & p1 & c1 & v1 & free1 & -> & Hi & Si & Li & A1 & Hv1 & E1 & P1 & Hh1 & F1 & F2).
  cbn [mbind outcome_bind]. unfold load at 1. rewrite Hv1. cbn [mbind outcome_bind require]. unfold write_slot.
  destruct (lookup_lt_is_Some_2 v1 (Z.to_nat i) Li) as [x Hx]. rewrite Hx. cbn [mbind outcome_bind require].
  rewrite (store_spec _ _ _ _ Hv1). cbn [mbind outcome_bind]. rewrite u32_id by lia. set (v2 := <[Z.to_nat i := _]> v1) in *.
  eexists _, i, v2, free1. split; [reflexivity|]. cbn [bccix vecs cells]. rewrite at_set_eq. splits; auto; try lia.
  - destruct A1 as [M1 A1]. split; [eapply store_ok; [exact M1|]; apply (store_spec _ _ _ _ Hv1)|]. intros j. cbn [bccix vecs cells].
    destruct (decide (beam_catches (at_ix j (set_ix stg p1 (bccix c1))) = beam_catches p1)) as [->|N]; [rewrite lookup_insert_eq; eauto|].
    rewrite lookup_insert_ne by auto. destruct (decide (j = stg)) as [->|Nj]; [now rewrite at_set_eq in N|]. rewrite at_set_ne by auto. apply A1.
  - now rewrite lookup_insert_eq.
  - intros j N. rewrite at_set_ne by auto. auto.
  - intros j vj N Hj. rewrite <- F2 in Hj by auto. destruct (decide (beam_catches (at_ix j (bccix c)) = beam_catches p1)) as [Eq|Nq].
    + rewrite Eq in *. assert (vj = v1) as -> by congruence. exists v2. rewrite lookup_insert_eq. splits; auto; [subst v2; now rewrite length_insert|].
      intros k Hk Nk. subst v2. apply list_lookup_insert_ne. lia.
    + exists vj. rewrite lookup_insert_ne by auto. auto.
Qed.

(** ** The catches of a module *)
Fixpoint linked (A : contents) (head : Z) (l : list Z) : Prop :=
  match l with
  | [] => head = BEAM_CATCHES_NIL
  | i :: l => head = i /\ exists s, A !! i = Some s /\ linked A (cdr s) l
  end.
Fixpoint remove_keys (l : list Z) (A : contents) : contents := match l with [] => A | i :: l => remove_keys l (delete i A) end.
Lemma remove_lookup l : forall A i, remove_keys l A !! i = if decide (i ∈ l) then None else A !! i.
Proof.
  induction l as [|k l IH]; intros A i; cbn [remove_keys]; [now rewrite decide_False by apply not_elem_of_nil|]. rewrite IH.
  destruct (decide (i ∈ l)), (decide (i ∈ k :: l)) as [H|H]; auto; [set_solver| |].
  - apply elem_of_cons in H as [->|H]; [|tauto]. apply lookup_delete_eq.
  - apply lookup_delete_ne. set_solver.
Qed.
Lemma linked_ext A A' l : forall h, linked A h l -> (forall i, i ∈ l -> A' !! i = A !! i) -> linked A' h l.
Proof.
  induction l as [|i l IH]; intros h; cbn [linked]; auto. intros (-> & s & Hs & Hl) E. split; auto. exists s. rewrite E by (left; auto). split; auto.
  apply IH; auto. intros j Hj. apply E. now right.
Qed.
Lemma linked_dom A l : forall h i, linked A h l -> i ∈ l -> is_Some (A !! i).
Proof.
  induction l as [|k l IH]; intros h i; cbn [linked]; [intros _ ?%elem_of_nil; tauto|]. intros (-> & s & Hs & Hl) [->|H]%elem_of_cons; eauto.
Qed.
Definition handlers_in (A : contents) (code code_bytes : Z) (l : list Z) : Prop := forall i s, i ∈ l -> A !! i = Some s -> cp s - code < code_bytes.

Lemma delmod_loop_spec ts high code bytes l : forall fuel head fl v A free,
  ts = Z.of_nat (length v) -> high <= ts -> high < 2 ^ 30 -> holds high v A -> free_chain high v fl free -> NoDup (l ++ free) ->
  (forall i, i ∈ free -> A !! i = None) -> linked A head l -> handlers_in A code bytes l -> (length l < fuel)%nat ->
  exists fl' v', delmod_loop fuel head code bytes ts fl v = Ok (fl', v') /\ length v' = length v /\ holds high v' (remove_keys l A) /\
    free_chain high v' fl' (rev l ++ free) /\ (size (remove_keys l A) + length l = size A)%nat /\ (forall i, i ∈ rev l ++ free -> remove_keys l A !! i = None).
Proof.
  induction l as [|i l IH]; intros fuel head fl v A free Et Hh Hb Ha Hc Hn Hf Hl Hr Hu; (destruct fuel as [|fuel]; [cbn in Hu; lia|]); cbn [linked] in Hl; cbn [delmod_loop].
  - rewrite Hl, Z.eqb_refl. exists fl, v. cbn [length rev app remove_keys]. splits; auto.
  - destruct Hl as (-> & s & Hs & Hl). destruct (Ha i s Hs) as [Hi Hv].
    assert (B : BEAM_CATCHES_NIL = 2 ^ 32 - 1) by reflexivity. rewrite (proj2 (Z.eqb_neq _ _)) by lia. rewrite !Z.geb_leb, (proj2 (Z.leb_gt _ _)) by lia.
    unfold read_slot. rewrite Hv. cbn [mbind outcome_bind require]. rewrite Z.geb_leb, (proj2 (Z.leb_gt _ _)) by (pose proof (Hr i s ltac:(left; auto) Hs); lia).
    unfold write_slot. rewrite Hv. cbn [mbind outcome_bind require]. cbn [app] in Hn. apply NoDup_cons in Hn as [Hin Hn]. rewrite elem_of_app in Hin.
    pose proof (chain_head _ _ _ _ Hc) as Hfl. rewrite (s32_id i) by lia. set (v1 := <[Z.to_nat i := _]> v).
    assert (El : length v1 = length v) by (subst v1; apply length_insert).
    destruct (IH fuel (cdr s) i v1 (delete i A) (i :: free)) as (fl' & v' & E & L & H1 & H2 & H3 & H4).
    + lia. + lia. + lia.
    + intros j t [Nj Hj]%lookup_delete_Some. destruct (Ha j t Hj). split; auto. subst v1. rewrite list_lookup_insert_ne by lia. auto.
    + cbn [free_chain]. splits; [auto|lia..|]. eexists. split; [subst v1; apply list_lookup_insert_eq; apply lookup_lt_is_Some; eauto|]. cbn [cdr]. rewrite s32_u32 by lia.
      apply (chain_ext high high v); auto; [lia|]. intros j Hj. subst v1. apply list_lookup_insert_ne.
      pose proof (chain_bound _ _ _ _ Hc) as Bc. rewrite Forall_forall in Bc. specialize (Bc j Hj). cbn in Bc. assert (j <> i) by (intros ->; tauto). lia.
    + rewrite NoDup_app in *. destruct Hn as (N1 & N2 & N3). splits; auto.
      * intros x Hx. rewrite not_elem_of_cons. split; [intros ->; tauto|auto].
      * apply NoDup_cons. split; auto.
    + intros j Hj. apply elem_of_cons in Hj as [->|Hj]; [apply lookup_delete_eq|]. rewrite lookup_delete_None. auto.
    + apply (linked_ext A); auto. intros j Hj. apply lookup_delete_ne. intros ->. tauto.
    + intros j t Hj [Nj Hjt]%lookup_delete_Some. apply (Hr j t); auto. now right.
    + cbn in Hu. lia.
    + exists fl', v'. rewrite E. cbn [rev remove_keys length]. rewrite <- app_assoc. cbn [app]. splits; auto; [lia|].
      rewrite map_size_delete, Hs in H3. assert (size A <> 0%nat) by (apply map_size_ne_0_lookup; eauto). lia.
Qed.
Lemma delmod_spec ix c v A free head code bytes l : let p := at_ix ix (bccix c) in
  alive c -> cells (vecs c) !! beam_catches p = Some v -> pool_ok p v A free -> linked A head l -> NoDup l -> handlers_in A code bytes l ->
  exists c' v', beam_catches_delmod head code bytes ix c = Ok c' /\ alive c' /\ cells (vecs c') !! beam_catches (at_ix ix (bccix c')) = Some v' /\
    pool_ok (at_ix ix (bccix c')) v' (remove_keys l A) (rev l ++ free) /\ high_mark (at_ix ix (bccix c')) = high_mark p.
Proof.
  intros p Al Hv P Hl Hn Hr. pose proof P as [Ps Ph Pf Pa Pc Pn Pr]. unfold beam_catches_delmod. fold p. unfold load. rewrite Hv. cbn [mbind outcome_bind require].
  assert (Nd : NoDup (l ++ free)).
  { apply NoDup_app. splits; auto. intros i Hi Hf. destruct (linked_dom _ _ _ _ Hl Hi) as [s Hs]. rewrite Pr in Hs by auto. discriminate. }
  assert (Ll : (length l <= length v)%nat).
  { rewrite <- (length_map Z.to_nat l). replace (length v) with (length (seq 0 (length v))) by apply length_seq. apply NoDup_incl_length.
    - apply NoDup_ListNoDup. apply NoDup_fmap_2_strong; auto. intros x y Hx Hy E. destruct (linked_dom _ _ _ _ Hl Hx) as [s Hs], (linked_dom _ _ _ _ Hl Hy) as [t Ht].
      destruct (Pa _ _ Hs), (Pa _ _ Ht). lia.
    - intros k Hk. apply in_map_iff in Hk as (i & <- & Hi). apply list_elem_of_In in Hi. destruct (linked_dom _ _ _ _ Hl Hi) as [s Hs]. destruct (Pa _ _ Hs). apply in_seq. lia. }
  destruct (delmod_loop_spec (tabsize p) (high_mark p) code bytes l (S (length v)) head (free_list p) v A free) as (fl' & v' & E & L & H1 & H2 & H3 & H4); auto; try lia.
  rewrite E. cbn [mbind outcome_bind]. rewrite (store_spec _ _ _ _ Hv). cbn [mbind outcome_bind]. eexists _, v'. split; [reflexivity|]. cbn [bccix vecs cells]. rewrite at_set_eq.
  cbn [beam_catches high_mark]. splits; auto.
  - destruct Al as [Am Aa]. split; [eapply store_ok; [exact Am|]; apply (store_spec _ _ _ _ Hv)|]. intros j. cbn [bccix vecs cells].
    destruct (decide (j = ix)) as [->|N]; [rewrite at_set_eq|rewrite at_set_ne by auto]; cbn [beam_catches].
    + rewrite lookup_insert_eq. eauto.
    + destruct (decide (beam_catches (at_ix j (bccix c)) = beam_catches p)) as [->|Nq]; [rewrite lookup_insert_eq; eauto|]. rewrite lookup_insert_ne by auto. apply Aa.
  - now rewrite lookup_insert_eq.
  - constructor; cbn [tabsize high_mark free_list]; auto; [lia|rewrite length_app, length_rev; lia|].
    rewrite <- (Permutation.Permutation_rev l). auto.
Qed.

(** ** The pools of the active and the staging code *)
Definition active_pool (ix : code_ix) (c : catches) : bc_pool := at_ix (the_active_code_index ix) (bccix c).
Definition staging_pool (ix : code_ix) (c : catches) : bc_pool := at_ix (the_staging_code_index ix) (bccix c).
Definition pool_vec (p : bc_pool) (c : catches) : option catch_vec := cells (vecs c) !! beam_catches p.
(** The active catches [A], and the ones that are staged. *)
Record catches_ok (ix : code_ix) (c : catches) (A : contents) (S : option contents) (n : Z) : Prop := {
  ck_ix : the_staging_code_index ix = ix_next (the_active_code_index ix);
  ck_alive : alive c;
  ck_pools : match S with
    | None => exists v free, pool_vec (active_pool ix c) c = Some v /\ pool_ok (active_pool ix c) v A free /\ high_mark (active_pool ix c) <= n
    | Some s => A ⊆ s /\
        (exists v, pool_vec (active_pool ix c) c = Some v /\ tabsize (active_pool ix c) = Z.of_nat (length v) /\
           high_mark (active_pool ix c) <= tabsize (active_pool ix c) /\ holds (high_mark (active_pool ix c)) v A) /\
        (exists v free, pool_vec (staging_pool ix c) c = Some v /\ pool_ok (staging_pool ix c) v s free /\ high_mark (staging_pool ix c) <= n) /\
        (s = A -> staging_pool ix c = active_pool ix c)
    end }.

Lemma catches_start ix c A n : catches_ok ix c A None n -> catches_ok ix (beam_catches_start_staging ix c) A (Some A) n.
Proof.
  intros [Ei [Am Aa] (v & free & Hv & P & Hn)]. unfold pool_vec, active_pool in *. unfold beam_catches_start_staging.
  set (a := the_active_code_index ix) in *. set (g := the_staging_code_index ix) in *. set (c1 := mkCatches _ _).
  assert (Na : a <> g) by (rewrite Ei; apply not_eq_sym, next_ne).
  assert (E : forall j, at_ix j (bccix c1) = if decide (j = g) then at_ix a (bccix c) else at_ix j (bccix c)).
  { intros j. cbn. destruct (decide (j = g)) as [->|N]; [apply at_set_eq|now apply at_set_ne]. }
  assert (V : forall j, pool_vec (at_ix j (bccix c1)) (gc_old_vec (beam_catches (at_ix g (bccix c))) c1) = pool_vec (at_ix j (bccix c1)) c).
  { intros j. unfold pool_vec. rewrite gc_cells; [reflexivity|]. exists j. reflexivity. }
  assert (Ea : at_ix a (bccix c1) = at_ix a (bccix c)) by (rewrite E, decide_False; auto).
  assert (Eg : at_ix g (bccix c1) = at_ix a (bccix c)) by (rewrite E, decide_True; auto).
  constructor; auto.
  - split; [apply gc_mem; auto|]. intros j. rewrite gc_pools. specialize (V j). unfold pool_vec in V. rewrite V, E. destruct (decide (j = g)); apply Aa.
  - unfold active_pool, staging_pool. rewrite gc_pools. fold a g. pose proof (V a) as Va. pose proof (V g) as Vg. rewrite Ea in *. rewrite Eg in *. unfold pool_vec in *. splits; auto.
    + exists v. destruct P as [P1 P2 P3 P4 P5 P6 P7]. rewrite Va. splits; auto. lia.
    + exists v, free. rewrite Vg. auto.
Qed.
Lemma catches_commit ix c A s n : catches_ok ix c A (Some s) n -> catches_ok (erts_commit_staging_code_ix ix) c s None n.
Proof. intros [Ei Al (_ & _ & H & _)]. constructor; auto. Qed.
Lemma catches_mono ix c A S n n' : catches_ok ix c A S n -> n <= n' -> catches_ok ix c A S n'.
Proof.
  intros [Ei Al H] Hn. constructor; auto. destruct S as [s|].
  - destruct H as (H1 & H2 & (v & free & H3 & H4 & H5) & H6). splits; auto. exists v, free. splits; auto. lia.
  - destruct H as (v & free & H3 & H4 & H5). exists v, free. splits; auto. lia.
Qed.
Lemma catches_abort ix c A n : catches_ok ix c A (Some A) n -> catches_ok ix c A None n.
Proof. intros [Ei Al (_ & _ & H & E)]. constructor; auto. rewrite E in H by auto. auto. Qed.
Lemma catches_cons ix c A s n pc cdr0 : catches_ok ix c A (Some s) n -> n < 2 ^ 30 - 1 ->
  exists c' i, beam_catches_cons ix pc cdr0 c = Ok (c', i) /\ 0 <= i < 2 ^ 31 /\ s !! i = None /\ catches_ok ix c' A (Some (<[i := mkCatch pc cdr0]> s)) (n + 1).
Proof.
  intros [Ei Al (Hs & (va & Hva & Ea & Ha & Hh) & (v & free & Hv & P & Hn) & _)] Hb. unfold staging_pool in *.
  destruct (cons_spec ix pc cdr0 c v s free Al Hv P) as (c' & i & v' & free' & E & Hi & Si & Al' & Hv' & P' & Hm & F1 & F2); [lia|].
  exists c', i. splits; auto; try lia. assert (Na : the_active_code_index ix <> the_staging_code_index ix) by (rewrite Ei; apply not_eq_sym, next_ne).
  constructor; auto. unfold active_pool, staging_pool. rewrite (F1 _ Na). splits.
  - etrans; [exact Hs|]. now apply insert_subseteq.
  - destruct (F2 _ _ Na Hva) as (va' & Hva' & L & K). exists va'. unfold pool_vec. splits; auto; [now rewrite L|].
    intros k t Hk. destruct (Hh k t Hk) as [Hb2 Ht]. split; auto. rewrite K; [auto|lia|]. intros ->. pose proof (lookup_weaken _ _ _ _ Hk Hs). congruence.
  - exists v', free'. splits; auto. lia.
  - intros Eq. exfalso. assert (A !! i = None) as N by (eapply lookup_weaken_None; eauto). rewrite <- Eq, lookup_insert_eq in N. discriminate.
Qed.
Lemma catches_car ix c A S n i s : catches_ok ix c A S n -> A !! i = Some s -> beam_catches_car ix i c = Ok (cp s).
Proof.
  intros [Ei Al H] Hi.
  assert (G : exists v, pool_vec (active_pool ix c) c = Some v /\ high_mark (active_pool ix c) <= tabsize (active_pool ix c) /\ holds (high_mark (active_pool ix c)) v A).
  { destruct S as [st|]; [destruct H as (_ & (v & ? & ? & ? & ?) & _); eauto|]. destruct H as (v & free & Hv & [P1 P2 P3 P4 P5 P6 P7] & _). exists v. splits; auto. lia. }
  destruct G as (v & Hv & Hh & Ha). destruct (Ha i s Hi) as [Hb Hs]. unfold beam_catches_car. fold (active_pool ix c).
  rewrite Z.geb_leb, (proj2 (Z.leb_gt _ _)) by lia. unfold load. unfold pool_vec in Hv. rewrite Hv. cbn [mbind outcome_bind require]. unfold read_slot. rewrite Hs. reflexivity.
Qed.
Lemma catches_delmod ix c A n head code bytes l : catches_ok ix c A None n -> linked A head l -> NoDup l -> handlers_in A code bytes l ->
  exists c', beam_catches_delmod head code bytes (the_active_code_index ix) c = Ok c' /\ catches_ok ix c' (remove_keys l A) None n.
Proof.
  intros [Ei Al (v & free & Hv & P & Hn)] Hl Nd Hr.
  destruct (delmod_spec (the_active_code_index ix) c v A free head code bytes l Al Hv P Hl Nd Hr) as (c' & v' & E & Al' & Hv' & P' & Hm).
  exists c'. split; auto. constructor; auto. exists v', (rev l ++ free). splits; auto. unfold active_pool in *. lia.
Qed.
Lemma catches_init : exists v, pool_vec (at_ix Ix0 (bccix beam_catches_init)) beam_catches_init = Some v /\ pool_ok (at_ix Ix0 (bccix beam_catches_init)) v ∅ [] /\
  alive beam_catches_init /\ high_mark (at_ix Ix0 (bccix beam_catches_init)) = 0.
Proof.
  exists (replicate (Z.to_nat DEFAULT_TABSIZE) None). unfold beam_catches_init, pool_vec. cbn [erts_alloc bccix vecs at_ix at0 beam_catches cells brk high_mark]. splits.
  - apply lookup_insert_eq.
  - constructor; cbn [tabsize high_mark free_list free_chain]; auto; unfold DEFAULT_TABSIZE; try lia.
    + intros i s. rewrite lookup_empty. discriminate.
    + apply NoDup_nil_2.
  - split.
    + apply (alloc_ok _ (Mem 1%positive ∅)). intros p t H. cbn [cells] in H. rewrite lookup_empty in H. discriminate.
    + intros j. cbn [bccix vecs cells]. replace (beam_catches _) with 1%positive by now destruct j. rewrite lookup_insert_eq. eauto.
  - reflexivity.
Qed.
