(* ===== verification/Ranges.v ===== *)
(** The address ranges of modules (beam_ranges.c): ordered tables, one for each code index, and
    the search with its cached start. [ranges_ok] says which areas are in the active and the staged
    table. *)

From S2P Require Import Prelude.
From Stdlib Require Import Sorted.
From stdpp Require Import base option list gmap.
From S2P Require Import Memory CodeIx.
Local Open Scope Z_scope.

(** The area of a module. *)
Record Range := mkRange { start : Z; range_end : Z }.
(** [modules]: the entries that are in use, [None] for NULL; [mid]: an index
    into them. *)
Record ranges := mkRanges { modules : option (list Range); n : Z; allocated : Z; mid : Z }.
Record range_tables := mkTables { r : perix ranges; mem_used : Z }.

(** [erts_init_ranges]. *)
Definition erts_init_ranges : range_tables := let e := mkRanges None 0 0 0 in mkTables (PerIx e e e) 0.
(** [erts_start_staging_ranges]. *)
Definition erts_start_staging_ranges (ix : code_ix) (t : range_tables) : range_tables :=
  let dst := the_staging_code_index ix in
  let d := at_ix dst (r t) in
  match modules d with
  | Some _ => mkTables (set_ix dst (mkRanges None (n d) (allocated d) (mid d)) (r t)) (mem_used t - allocated d)
  | None => t
  end.
(** The entries of a table that are read. *)
Definition entries (d : ranges) : outcome (list Range) :=
  if n d <=? 0 then Ok [] else l ← require (modules d); if (Z.to_nat (n d) <=? length l)%nat then Ok (take (Z.to_nat (n d)) l) else Undef.
(** Has the module not been purged? *)
Definition live (rp : Range) : bool := start rp <? range_end rp.
(** [erts_end_staging_ranges]. *)
Definition erts_end_staging_ranges (commit : bool) (ix : code_ix) (t : range_tables) : outcome range_tables :=
  let dst := the_staging_code_index ix in
  match modules (at_ix dst (r t)) with
  | None =>
      if commit then
        let s := at_ix (the_active_code_index ix) (r t) in
        l ← entries s;
        let l := List.filter live l in
        Ok (mkTables (set_ix dst (mkRanges (Some l) (Z.of_nat (length l)) (n s) (Z.quot (Z.of_nat (length l)) 2)) (r t)) (mem_used t + n s))
      else Ok t
  | Some _ => Ok t
  end.

(** The first loop: the entries copied and the ones that are left. *)
Fixpoint copy_below (code size : Z) (src : list Range) : list Range * list Range :=
  match src with
  | [] => ([], [])
  | rp :: rest =>
      if code <? start rp then ([mkRange code (code + size)], src)
      else let '(l, tail) := copy_below code size rest in (if live rp then rp :: l else l, tail)
  end.
Definition last_start (l : list Range) : option Z := start <$> last l.
(** The new entries: the live ones and the new area. *)
Definition insert_range (code size : Z) (src : list Range) : list Range :=
  let '(l, tail) := copy_below code size src in
  let l := l ++ List.filter live tail in
  match last_start l with
  | None => l ++ [mkRange code (code + size)]
  | Some s => if code >? s then l ++ [mkRange code (code + size)] else l
  end.
(** [erts_update_ranges]. *)
Definition erts_update_ranges (code size : Z) (ix : code_ix) (t : range_tables) : outcome range_tables :=
  let dst := the_staging_code_index ix in
  let active := the_active_code_index ix in
  let '(src, t) :=
    if decide (active = dst) then
      let src := ix_next active in
      let s := at_ix src (r t) in
      let used := match modules s with Some _ => mem_used t - allocated s | None => mem_used t end in
      let d := at_ix dst (r t) in
      (src, mkTables (set_ix dst (mkRanges None (n d) (allocated d) (mid d)) (set_ix src d (r t))) used)
    else (active, t) in
  l ← entries (at_ix src (r t));
  let need := n (at_ix src (r t)) + 1 in
  let l := insert_range code size l in
  Ok (mkTables (set_ix dst (mkRanges (Some l) (Z.of_nat (length l)) need (Z.quot (Z.of_nat (length l)) 2)) (r t)) (mem_used t + need)).

(** The binary search, from the cached entry. *)
Fixpoint find_loop (fuel : nat) (pc : Z) (l : list Range) (low high mid : Z) : outcome (option Z) :=
  match fuel with
  | O => Undef
  | S fuel =>
      if low <? high then
        m ← (if mid <? 0 then Undef else require (l !! Z.to_nat mid));
        if pc <? start m then let high := mid in find_loop fuel pc l low high (low + Z.quot (high - low) 2)
        else if pc >? range_end m then let low := mid + 1 in find_loop fuel pc l low high (low + Z.quot (high - low) 2)
        else Ok (Some mid)
      else Ok None
  end.
(** [find_range]: the index and the entry. *)
Definition find_range (pc : Z) (ix : code_ix) (t : range_tables) : outcome (option (Z * Range) * range_tables) :=
  let active := the_active_code_index ix in
  let d := at_ix active (r t) in
  l ← entries d;
  found ← find_loop (S (length l)) pc l 0 (n d) (mid d);
  match found with
  | Some i =>
      rp ← require (l !! Z.to_nat i);
      Ok (Some (i, rp), mkTables (set_ix active (mkRanges (modules d) (n d) (allocated d) i) (r t)) (mem_used t))
  | None => Ok (None, t)
  end.
(** [erts_remove_from_ranges]. *)
Definition erts_remove_from_ranges (code : Z) (ix : code_ix) (t : range_tables) : outcome range_tables :=
  '(found, t) ← find_range code ix t;
  '(i, rp) ← require found;
  let active := the_active_code_index ix in
  let d := at_ix active (r t) in
  l ← require (modules d);
  Ok (mkTables (set_ix active (mkRanges (Some (<[Z.to_nat i := mkRange (start rp) (start rp)]> l)) (n d) (allocated d) (mid d)) (r t)) (mem_used t)).
(** [erts_ranges_sz]. *)
Definition erts_ranges_sz (sizeof_Range : Z) (t : range_tables) : Z := mem_used t * sizeof_Range.

(** ** The order of the entries *)
(** Areas that are apart, in the order of their addresses; a purged one is empty. *)
Definition apart (a b : Range) : Prop := range_end a < start b.
Definition ordered (l : list Range) : Prop := StronglySorted apart l /\ Forall (fun rp => start rp <= range_end rp) l.
Definition inside (pc : Z) (rp : Range) : Prop := start rp <= pc <= range_end rp.

Lemma ordered_cons a l : ordered (a :: l) <-> start a <= range_end a /\ Forall (apart a) l /\ ordered l.
Proof.
  unfold ordered. split.
  - intros [H1 H2]. apply StronglySorted_inv in H1 as [H1 H3]. inversion H2; subst. auto.
  - intros (H1 & H2 & H3 & H4). split; constructor; auto.
Qed.
Lemma ordered_lt l : forall i j a b, ordered l -> l !! i = Some a -> l !! j = Some b -> (i < j)%nat -> apart a b.
Proof.
  induction l as [|c l IH]; intros i j a b; [intros _; now rewrite lookup_nil|]. rewrite ordered_cons. intros (H1 & H2 & H3) Hi Hj Hl.
  destruct j as [|j]; [lia|]. cbn in Hj. destruct i as [|i]; cbn in Hi.
  - injection Hi as <-. eapply Forall_lookup_1; eauto.
  - apply (IH i j); auto. lia.
Qed.
Lemma ordered_at l i a : ordered l -> l !! i = Some a -> start a <= range_end a.
Proof. intros [_ H] Hi. exact (Forall_lookup_1 _ _ _ _ H Hi). Qed.
Lemma filter_cons_live a l : List.filter live (a :: l) = if live a then a :: List.filter live l else List.filter live l.
Proof. reflexivity. Qed.
Lemma live_forall (P : Range -> Prop) l : Forall P l -> Forall P (List.filter live l).
Proof. induction 1; cbn; [constructor|]. destruct (live x); auto. Qed.
Lemma live_ordered l : ordered l -> ordered (List.filter live l).
Proof.
  induction l as [|a l IH]; auto. rewrite ordered_cons. intros (H1 & H2 & H3). rewrite filter_cons_live. destruct (live a); auto.
  rewrite ordered_cons. splits; auto. now apply live_forall.
Qed.
Lemma live_in l a : a ∈ List.filter live l <-> a ∈ l /\ live a = true.
Proof. rewrite !list_elem_of_In. apply filter_In. Qed.

(** ** Insertion *)
(** The new area is apart from those of the modules that are not purged. *)
Definition clear_of (a : Range) (l : list Range) : Prop := Forall (fun rp => live rp = true -> apart a rp \/ apart rp a) l.
Lemma copy_below_spec code size l : 0 < size -> ordered l -> clear_of (mkRange code (code + size)) l ->
  let a := mkRange code (code + size) in
  let '(k, tail) := copy_below code size l in
  exists pre, List.filter live l = pre ++ List.filter live tail /\ Forall (fun rp => apart rp a) pre /\
    (k = pre /\ tail = [] \/ k = pre ++ [a] /\ Forall (apart a) (List.filter live tail)).
Proof.
  intros Hs. induction l as [|rp l IH]; intros O C a; cbn [copy_below].
  - exists []. cbn. auto.
  - apply ordered_cons in O as (O1 & O2 & O3). inversion C as [|? ? C1 C2]; subst. destruct (Z.ltb_spec code (start rp)) as [Hc|Hc].
    + exists []. cbn [app]. splits; auto. right. split; auto. apply List.Forall_forall. intros x Hx. apply filter_In in Hx as [Hx Hl].
      assert (Sx : start rp <= start x).
      { destruct Hx as [->|Hx]; [lia|]. rewrite List.Forall_forall in O2. specialize (O2 x Hx). unfold apart in O2. lia. }
      unfold clear_of in C. rewrite List.Forall_forall in C. destruct (C x Hx Hl) as [H|H]; auto. unfold apart, live in *. cbn in *. apply Z.ltb_lt in Hl. lia.
    + specialize (IH O3 C2). cbv zeta in IH. destruct (copy_below code size l) as [k tail]. destruct IH as (pre & E1 & E2 & E3).
      rewrite filter_cons_live. destruct (live rp) eqn:El; [|exists pre; auto]. exists (rp :: pre). rewrite E1. cbn [app]. splits; auto.
      * constructor; auto. destruct (C1 eq_refl) as [H|H]; auto. unfold apart, live in *. cbn in *. apply Z.ltb_lt in El. lia.
      * destruct E3 as [[-> ->]|[-> E3]]; [left|right]; auto.
Qed.
Lemma ordered_mid a pre post : ordered (pre ++ post) -> Forall (fun rp => apart rp a) pre -> Forall (apart a) post -> start a <= range_end a ->
  ordered (pre ++ a :: post).
Proof.
  intros O Hp Ha Hs. revert O. induction Hp as [|p pre H1 H2 IH]; cbn [app]; rewrite !ordered_cons; intros O; splits; auto; try tauto.
  destruct O as (_ & O & _). apply Forall_app in O as [O1 O2]. apply Forall_app. auto.
Qed.
Lemma last_start_app l a : last_start (l ++ [a]) = Some (start a).
Proof. unfold last_start. now rewrite last_snoc. Qed.
Lemma insert_range_spec code size l : 0 < size -> ordered l -> clear_of (mkRange code (code + size)) l ->
  let a := mkRange code (code + size) in ordered (insert_range code size l) /\ insert_range code size l ≡ₚ a :: List.filter live l /\ Forall (fun rp => live rp = true) (insert_range code size l).
Proof.
  intros Hs O C a. unfold insert_range. pose proof (copy_below_spec code size l Hs O C) as P. cbv zeta in P. fold a in P |- *.
  destruct (copy_below code size l) as [k tail]. destruct P as (pre & E & Hp & D). pose proof (live_ordered l O) as OL. rewrite E in OL |- *.
  assert (La : live a = true) by (unfold live; cbn; apply Z.ltb_lt; lia).
  assert (LL : Forall (fun rp => live rp = true) (pre ++ List.filter live tail)).
  { rewrite <- E. apply List.Forall_forall. intros x Hx. now apply filter_In in Hx. }
  assert (Sa : start a <= range_end a) by (subst a; cbn; lia).
  apply Forall_app in LL as [L1 L2].
  destruct D as [[-> ->]|[-> D]].
  - cbn [List.filter]. rewrite app_nil_r. assert (Ex : match last_start pre with None => pre ++ [a] | Some s => if code >? s then pre ++ [a] else pre end = pre ++ [a]).
    { destruct pre as [|p pre _] using rev_ind; [reflexivity|]. rewrite last_start_app. apply Forall_app in Hp as [_ Hp]. inversion Hp as [|? ? H _]; subst.
      apply Forall_app in L1 as [_ L1]. inversion L1 as [|? ? H1 _]; subst. unfold apart, live in *. cbn in H. apply Z.ltb_lt in H1. rewrite Z.gtb_ltb, (proj2 (Z.ltb_lt _ _)) by lia. reflexivity. }
    rewrite Ex. splits; [apply ordered_mid; auto|now rewrite Permutation_app_comm|apply Forall_app; auto].
  - assert (Ex : match last_start ((pre ++ [a]) ++ List.filter live tail) with None => ((pre ++ [a]) ++ List.filter live tail) ++ [a]
        | Some s => if code >? s then ((pre ++ [a]) ++ List.filter live tail) ++ [a] else (pre ++ [a]) ++ List.filter live tail end = pre ++ a :: List.filter live tail).
    { rewrite <- app_assoc. cbn [app]. destruct (List.filter live tail) as [|q post _] using rev_ind.
      - rewrite last_start_app. cbn [start a]. now rewrite Z.gtb_ltb, Z.ltb_irrefl.
      - rewrite app_comm_cons, app_assoc, last_start_app. apply Forall_app in D as [_ D]. inversion D as [|? ? H _]; subst. unfold apart in H. cbn in H.
        rewrite Z.gtb_ltb, (proj2 (Z.ltb_ge _ _)) by lia. reflexivity. }
    rewrite Ex. splits; [apply ordered_mid; auto|now rewrite <- Permutation_middle|apply Forall_app; auto].
Qed.

(** ** The search *)
Definition beyond (pc : Z) (l : list Range) (low high : Z) : Prop :=
  forall i rp, l !! i = Some rp -> (Z.of_nat i < low -> range_end rp < pc) /\ (high <= Z.of_nat i -> pc < start rp).
Lemma find_loop_spec pc l : ordered l -> forall fuel low high mid, (Z.to_nat (high - low) < fuel)%nat -> 0 <= low -> high <= Z.of_nat (length l) ->
  (low < high -> low <= mid < high) -> beyond pc l low high ->
  exists f, find_loop fuel pc l low high mid = Ok f /\
    match f with Some i => 0 <= i /\ exists rp, l !! Z.to_nat i = Some rp /\ inside pc rp | None => forall rp, rp ∈ l -> ~ inside pc rp end.
Proof.
  intros O. induction fuel as [|fuel IH]; intros low high mid Hf Hl Hh Hm B; [lia|]. cbn [find_loop]. destruct (Z.ltb_spec low high) as [Hlh|Hlh].
  - specialize (Hm Hlh). rewrite (proj2 (Z.ltb_ge mid 0)) by lia. destruct (lookup_lt_is_Some_2 l (Z.to_nat mid)) as [m Em]; [lia|]. rewrite Em. cbn [mbind outcome_bind require].
    assert (Next : forall lo hi, low <= lo -> hi <= high -> hi - lo < high - low -> beyond pc l lo hi ->
      exists f, find_loop fuel pc l lo hi (lo + Z.quot (hi - lo) 2) = Ok f /\
        match f with Some i => 0 <= i /\ exists rp, l !! Z.to_nat i = Some rp /\ inside pc rp | None => forall rp, rp ∈ l -> ~ inside pc rp end).
    { intros lo hi H1 H2 H3 H4. apply IH; auto; lia. }
    destruct (Z.ltb_spec pc (start m)) as [H1|H1]; [|rewrite Z.gtb_ltb; destruct (Z.ltb_spec (range_end m) pc) as [H2|H2]].
    + apply Next; try lia. intros i rp Hi. split; [apply (B i rp Hi)|]. intros Hge. destruct (Nat.eq_dec i (Z.to_nat mid)) as [->|N]; [congruence|].
      assert (A : apart m rp) by (eapply ordered_lt; eauto; lia). pose proof (ordered_at _ _ _ O Em). unfold apart in A. lia.
    + apply Next; try lia. intros i rp Hi. split; [|apply (B i rp Hi)]. intros Hge. destruct (Nat.eq_dec i (Z.to_nat mid)) as [->|N]; [congruence|].
      assert (A : apart rp m) by (eapply ordered_lt; eauto; lia). pose proof (ordered_at _ _ _ O Em). unfold apart in A. lia.
    + exists (Some mid). split; auto. split; [lia|]. exists m. split; auto. unfold inside. lia.
  - exists None. split; auto. intros rp [i Hi]%list_elem_of_lookup Hin. destruct (B i rp Hi) as [B1 B2]. unfold inside in Hin. destruct (Z.lt_ge_cases (Z.of_nat i) low); [specialize (B1 H)|specialize (B2 ltac:(lia))]; lia.
Qed.
Lemma inside_unique l pc a b i j : ordered l -> l !! i = Some a -> l !! j = Some b -> inside pc a -> inside pc b -> i = j.
Proof.
  intros O Hi Hj Ha Hb. unfold inside in *. destruct (Nat.lt_trichotomy i j) as [H|[H|H]]; auto; exfalso.
  - pose proof (ordered_lt _ _ _ _ _ O Hi Hj H) as A. unfold apart in A. lia.
  - pose proof (ordered_lt _ _ _ _ _ O Hj Hi H) as A. unfold apart in A. lia.
Qed.

(** ** A table and the areas of the modules that are not purged *)
Record table_ok (d : ranges) (l : list Range) (L : list Range) : Prop := {
  to_entries : n d = Z.of_nat (length l) /\ match modules d with Some l' => l' = l | None => l = [] end;
  to_mid : 0 <= mid d < Z.max 1 (n d);
  to_ordered : ordered l;
  to_live : List.filter live l ≡ₚ L }.
Lemma table_entries d l L : table_ok d l L -> entries d = Ok l.
Proof.
  intros [[Hn Hl] _ _ _]. unfold entries. destruct (Z.leb_spec (n d) 0); [destruct l; cbn in Hn; [reflexivity|lia]|].
  destruct (modules d) as [l'|]; [subst l'|subst l; cbn in Hn; lia]. cbn [mbind outcome_bind require]. rewrite Hn, Nat2Z.id, Nat.leb_refl. now rewrite firstn_all.
Qed.
Lemma mid_half (l : list Range) : 0 <= Z.quot (Z.of_nat (length l)) 2 < Z.max 1 (Z.of_nat (length l)).
Proof. lia. Qed.

(** [S]: the areas that are staged; [Some None] before there is a table. *)
Definition mem_of (d : ranges) : Z := match modules d with Some _ => allocated d | None => 0 end.
Record ranges_ok (ix : code_ix) (t : range_tables) (L : list Range) (S : option (option (list Range))) : Prop := {
  ro_ix : the_staging_code_index ix = ix_next (the_active_code_index ix);
  ro_mem : mem_used t = mem_of (at0 (r t)) + mem_of (at1 (r t)) + mem_of (at2 (r t));
  ro_active : exists l, table_ok (at_ix (the_active_code_index ix) (r t)) l L;
  ro_staging : match S with
    | None => True
    | Some None => modules (at_ix (the_staging_code_index ix) (r t)) = None
    | Some (Some s) => is_Some (modules (at_ix (the_staging_code_index ix) (r t))) /\ exists l, table_ok (at_ix (the_staging_code_index ix) (r t)) l s
    end }.
Lemma mem_set ix d (v : perix ranges) : mem_of (at0 (set_ix ix d v)) + mem_of (at1 (set_ix ix d v)) + mem_of (at2 (set_ix ix d v)) =
  mem_of (at0 v) + mem_of (at1 v) + mem_of (at2 v) - mem_of (at_ix ix v) + mem_of d.
Proof. destruct ix; cbn; lia. Qed.

Section Ops.
Context (ix : code_ix) (t : range_tables) (L : list Range).
Notation dst := (the_staging_code_index ix).
Notation act := (the_active_code_index ix).
Hypothesis Hix : dst = ix_next act.
Lemma act_dst : act <> dst.
Proof. rewrite Hix. apply not_eq_sym, next_ne. Qed.
Lemma ranges_start : ranges_ok ix t L None -> ranges_ok ix (erts_start_staging_ranges ix t) L (Some None).
Proof.
  intros [Ei Em [l T] _]. unfold erts_start_staging_ranges. destruct (modules (at_ix dst (r t))) as [l'|] eqn:E; [|constructor; eauto].
  pose proof act_dst. constructor; cbn [r mem_used]; auto.
  - rewrite mem_set. unfold mem_of at 4 5. rewrite E. cbn [modules]. lia.
  - rewrite at_set_ne by auto. eauto.
  - now rewrite at_set_eq.
Qed.
Lemma ranges_update code size : ranges_ok ix t L (Some None) -> 0 < size -> (forall l, table_ok (at_ix act (r t)) l L -> clear_of (mkRange code (code + size)) l) ->
  exists t', erts_update_ranges code size ix t = Ok t' /\ ranges_ok ix t' L (Some (Some (mkRange code (code + size) :: L))).
Proof.
  intros [Ei Em [l T] Es] Hs Hc. pose proof act_dst. unfold erts_update_ranges. rewrite decide_False by auto. rewrite (table_entries _ _ _ T). cbn [mbind outcome_bind].
  specialize (Hc l T). destruct T as [[T1 T1'] T2 T3 T4]. destruct (insert_range_spec code size l Hs T3 Hc) as (O & P & Lv).
  eexists. split; [reflexivity|]. constructor; cbn [r mem_used]; auto.
  - rewrite mem_set. unfold mem_of at 4 5. rewrite Es. cbn [modules allocated]. lia.
  - rewrite at_set_ne by auto. exists l. constructor; auto.
  - rewrite at_set_eq. split; [cbn; eauto|]. exists (insert_range code size l). constructor; cbn [n modules mid]; auto using mid_half.
    rewrite <- T4, <- P. clear -Lv. induction Lv as [|x k Hx Hk IH]; [reflexivity|]. rewrite filter_cons_live, Hx. now constructor.
Qed.
Lemma ranges_end S commit : ranges_ok ix t L (Some S) ->
  exists t', erts_end_staging_ranges commit ix t = Ok t' /\ ranges_ok ix t' L (Some (match S with Some s => Some s | None => if commit then Some L else None end)).
Proof.
  intros [Ei Em [l T] Es]. unfold erts_end_staging_ranges. pose proof act_dst. destruct S as [s|].
  - destruct Es as [[l' El] Es]. rewrite El. eexists. split; [reflexivity|]. constructor; eauto.
  - rewrite Es. destruct commit; [|eexists; split; [reflexivity|constructor; eauto]]. rewrite (table_entries _ _ _ T). cbn [mbind outcome_bind]. eexists. split; [reflexivity|].
    destruct T as [[T1 T1'] T2 T3 T4]. constructor; cbn [r mem_used]; auto.
    + rewrite mem_set. unfold mem_of at 4 5. rewrite Es. cbn [modules allocated]. lia.
    + rewrite at_set_ne by auto. exists l. constructor; auto.
    + rewrite at_set_eq. split; [cbn; eauto|]. exists (List.filter live l). constructor; cbn [n modules mid]; auto using mid_half, live_ordered.
      rewrite <- T4. clear. induction l as [|x k IH]; [reflexivity|]. rewrite filter_cons_live. destruct (live x) eqn:E; auto. rewrite filter_cons_live, E. now constructor.
Qed.
Lemma ranges_commit s : ranges_ok ix t L (Some (Some s)) -> ranges_ok (erts_commit_staging_code_ix ix) t s None.
Proof. intros [Ei Em _ [_ T]]. constructor; auto. Qed.
Lemma ranges_abort S : ranges_ok ix t L S -> ranges_ok ix t L None.
Proof. intros [Ei Em T _]. constructor; auto. Qed.

Lemma find_range_spec S pc : ranges_ok ix t L S ->
  exists f t', find_range pc ix t = Ok (f, t') /\ ranges_ok ix t' L S /\
    match f with
    | Some (i, rp) => inside pc rp /\ (live rp = true -> rp ∈ L) /\ (forall a, a ∈ L -> inside pc a -> a = rp) /\
        exists l, table_ok (at_ix act (r t')) l L /\ modules (at_ix act (r t')) = Some l /\ l !! Z.to_nat i = Some rp
    | None => forall a, a ∈ L -> ~ inside pc a
    end.
Proof.
  intros [Ei Em [l T] Es]. unfold find_range. rewrite (table_entries _ _ _ T). cbn [mbind outcome_bind]. pose proof T as [[T1 T1'] T2 T3 T4].
  destruct (find_loop_spec pc l T3 (Datatypes.S (length l)) 0 (n (at_ix act (r t))) (mid (at_ix act (r t)))) as (f & -> & F); try lia.
  { intros i rp Hi. split; [lia|]. apply lookup_lt_Some in Hi. lia. }
  cbn [mbind outcome_bind]. assert (LE : forall a, a ∈ L -> a ∈ l) by (intros a Ha; rewrite <- T4, live_in in Ha; tauto).
  destruct f as [i|].
  - destruct F as (Hi & rp & Er & Hin). rewrite Er. cbn [mbind outcome_bind require]. eexists _, _. split; [reflexivity|]. pose proof act_dst.
    assert (T' : table_ok (mkRanges (modules (at_ix act (r t))) (n (at_ix act (r t))) (allocated (at_ix act (r t))) i) l L).
    { constructor; cbn [n modules mid]; auto. apply lookup_lt_Some in Er. lia. }
    splits; auto.
    + constructor; cbn [r mem_used]; auto.
      * rewrite mem_set. unfold mem_of at 4 5. cbn [modules allocated]. lia.
      * rewrite at_set_eq. eauto.
      * rewrite at_set_ne by auto. auto.
    + intros Hl. rewrite <- T4, live_in. split; auto. eapply list_elem_of_lookup_2; eauto.
    + intros a [j Hj]%LE%list_elem_of_lookup Ha. assert (j = Z.to_nat i) as -> by (eapply inside_unique; eauto). congruence.
    + cbn [r]. rewrite at_set_eq. exists l. splits; auto. cbn [modules]. destruct (modules (at_ix act (r t))); [now subst|]. subst l. rewrite lookup_nil in Er. discriminate.
  - eexists _, _. split; [reflexivity|]. splits; auto. constructor; eauto.
Qed.
End Ops.
Lemma ordered_shrink l1 a b l2 : ordered (l1 ++ a :: l2) -> start b = start a -> start b <= range_end b <= range_end a -> ordered (l1 ++ b :: l2).
Proof.
  intros O Es Eb. induction l1 as [|c l1 IH]; cbn [app] in *; rewrite ordered_cons in *.
  - destruct O as (O1 & O2 & O3). splits; auto; [lia|]. eapply Forall_impl; [exact O2|]. unfold apart. lia.
  - destruct O as (O1 & O2 & O3). splits; auto. apply Forall_app in O2 as [O2 O4]. inversion O4 as [|? ? O5 O6]; subst. apply Forall_app. split; auto.
    constructor; auto. unfold apart in *. lia.
Qed.
Lemma remove_range_spec ix t L a : ranges_ok ix t L None -> a ∈ L ->
  exists t' L', erts_remove_from_ranges (start a) ix t = Ok t' /\ ranges_ok ix t' L' None /\ L ≡ₚ a :: L'.
Proof.
  intros R Ha. pose proof (ro_ix _ _ _ _ R) as Ei. pose proof (ro_active _ _ _ _ R) as [l0 [_ _ O0 P0]].
  destruct (find_range_spec ix t L Ei None (start a) R) as (f & t1 & E & [_ Em _ _] & F). assert (La : live a = true) by (rewrite <- P0, live_in in Ha; tauto).
  assert (Ia : inside (start a) a) by (unfold live in La; unfold inside; apply Z.ltb_lt in La; lia).
  destruct f as [[i rp]|]; [|exfalso; exact (F a Ha Ia)]. destruct F as (_ & _ & F & l & T & El & Er). pose proof (F a Ha Ia) as <-. clear F.
  destruct T as [[T1 T1'] T2 T3 T4]. unfold erts_remove_from_ranges. rewrite E. cbn [mbind outcome_bind require]. rewrite El. cbn [mbind outcome_bind require].
  set (e := mkRange (start a) (start a)). set (l1 := take (Z.to_nat i) l). set (l2 := drop (Datatypes.S (Z.to_nat i)) l).
  assert (Le : <[Z.to_nat i := e]> l = l1 ++ e :: l2) by (apply insert_take_drop; apply lookup_lt_is_Some; eauto).
  assert (Ll : l1 ++ a :: l2 = l) by (now apply take_drop_middle).
  exists (mkTables (set_ix (the_active_code_index ix) (mkRanges (Some (l1 ++ e :: l2)) (n (at_ix (the_active_code_index ix) (r t1))) (allocated (at_ix (the_active_code_index ix) (r t1))) (mid (at_ix (the_active_code_index ix) (r t1)))) (r t1)) (mem_used t1)),
    (List.filter live l1 ++ List.filter live l2). rewrite Le. splits; auto.
  - constructor; cbn [r mem_used]; auto.
    + rewrite mem_set. unfold mem_of at 4 5. rewrite El. cbn [modules allocated]. lia.
    + rewrite at_set_eq. exists (l1 ++ e :: l2). constructor; cbn [n modules mid]; auto.
      * rewrite T1, <- Ll, !length_app. auto.
      * apply (ordered_shrink l1 a); [now rewrite Ll|reflexivity|]. unfold live in La. apply Z.ltb_lt in La. cbn. lia.
      * rewrite List.filter_app, filter_cons_live. unfold live at 2. cbn [start range_end e]. now rewrite Z.ltb_irrefl.
  - rewrite <- T4, <- Ll, List.filter_app, filter_cons_live, La. now rewrite Permutation_middle.
Qed.
Lemma clear_of_live d l L a : table_ok d l L -> (forall b, b ∈ L -> apart a b \/ apart b a) -> clear_of a l.
Proof. intros [_ _ _ T] H. apply Forall_forall. intros b Hb Hl. apply H. rewrite <- T, live_in. auto. Qed.
