(* ===== verification/FunctionInfo.v ===== *)
(** The lookup of a function and a line by an address (beam_ranges.c): two binary searches in
    the tables of a module. The code of a module is a parameter that gives its head. *)

From S2P Require Import Prelude.
From Stdlib Require Import Sorted.
From stdpp Require Import base option list gmap.
From S2P Require Import Memory CodeIx Ranges.
Local Open Scope Z_scope.

Definition LINE_INVALID_LOCATION : Z := 0.
Definition LOC_FILE (loc : Z) : Z := Z.shiftr loc 24.
(** The line table of a module: the file names (atoms), the first line
    instruction of each function with one more entry for the end, the addresses
    of the line instructions with the end of the code, and their locations. *)
Record line_table := mkLines { fname : list Z; func_tab : list Z; line_pcs : list Z; loc_tab : list Z }.
(** What the head of the code of a module holds: the module, the addresses of
    the functions and of the end of the last one, and the line table, if any. *)
Record module_info := mkModInfo { mi_module : Z; mi_functions : list Z; mi_line_table : option line_table }.
(** What is found. *)
Record FunctionInfo := mkInfo { current : option Z; needed : Z; loc : Z; fname_ptr : option (list Z) }.
Definition at_pos (l : list Z) (i : Z) : outcome Z := if i <? 0 then Undef else require (l !! Z.to_nat i).

(** The binary search for the entry [i] with [l i <= pc < l (i + 1)]. *)
Fixpoint search_loop (fuel : nat) (pc : Z) (l : list Z) (low high : Z) : outcome (option Z) :=
  match fuel with
  | O => Undef
  | S fuel =>
      if low <? high then
        let mid := low + Z.quot (high - low) 2 in
        m0 ← at_pos l mid;
        if pc <? m0 then search_loop fuel pc l low mid
        else m1 ← at_pos l (mid + 1); if pc <? m1 then Ok (Some mid) else search_loop fuel pc l (mid + 1) high
      else Ok None
  end.
Section Lookup.
(** The length of the text of an atom. *)
Variable atom_len : Z -> Z.
(** [lookup_loc]. *)
Definition lookup_loc (fi : FunctionInfo) (pc : Z) (modp : module_info) (idx : Z) : outcome FunctionInfo :=
  match mi_line_table modp with
  | None => Ok fi
  | Some line =>
      let fi := mkInfo (current fi) (needed fi) (loc fi) (Some (fname line)) in
      low ← at_pos (func_tab line) idx;
      high ← at_pos (func_tab line) (idx + 1);
      first ← at_pos (func_tab line) 0;
      found ← search_loop (S (Z.to_nat (high - low))) pc (line_pcs line) low high;
      match found with
      | None => Ok fi
      | Some mid =>
          l ← at_pos (loc_tab line) (mid - first);
          let fi := mkInfo (current fi) (needed fi) l (fname_ptr fi) in
          if l =? LINE_INVALID_LOCATION then Ok fi
          else
            let needed := needed fi + (3 + 2 + 3 + 2) in
            let file := LOC_FILE l in
            if file =? 0 then Ok (mkInfo (current fi) (needed + 2 * (atom_len (mi_module modp) + 4)) l (fname_ptr fi))
            else ap ← at_pos (fname line) (file - 1); Ok (mkInfo (current fi) (needed + 2 * atom_len ap) l (fname_ptr fi))
      end
  end.
(** [head]: the head of the code at an address; [wordsize]: bytes in a word. *)
Variable head : Z -> option module_info.
Definition wordsize : Z := 8.
(** [erts_lookup_function_info]. *)
Definition erts_lookup_function_info (pc : Z) (full_info : bool) (ix : code_ix) (t : range_tables) : outcome (FunctionInfo * range_tables) :=
  let fi := mkInfo None 5 LINE_INVALID_LOCATION None in
  '(found, t) ← find_range pc ix t;
  match found with
  | None => Ok (fi, t)
  | Some (_, rp) =>
      modp ← require (head (start rp));
      let high := Z.of_nat (length (mi_functions modp)) - 1 in
      found ← search_loop (S (Z.to_nat high)) pc (mi_functions modp) 0 high;
      match found with
      | None => Ok (fi, t)
      | Some mid =>
          f ← at_pos (mi_functions modp) mid;
          let fi := mkInfo (Some (f + 2 * wordsize)) (needed fi) (loc fi) (fname_ptr fi) in
          fi ← (if full_info then lookup_loc fi pc modp mid else Ok fi);
          Ok (fi, t)
      end
  end.
End Lookup.

(** ** The search *)
Lemma at_pos_Some l i x : 0 <= i -> l !! Z.to_nat i = Some x -> at_pos l i = Ok x.
Proof. intros Hi E. unfold at_pos. now rewrite (proj2 (Z.ltb_ge _ _)), E by lia. Qed.
Lemma at_pos_in l i : 0 <= i < Z.of_nat (length l) -> exists x, l !! Z.to_nat i = Some x /\ at_pos l i = Ok x.
Proof. intros H. destruct (lookup_lt_is_Some_2 l (Z.to_nat i)) as [x E]; [lia|]. exists x. split; auto. apply at_pos_Some; auto. lia. Qed.
Lemma sorted_le l i j x y : StronglySorted Z.le l -> l !! i = Some x -> l !! j = Some y -> (i <= j)%nat -> x <= y.
Proof.
  revert i j. induction l as [|a l IH]; intros i j; [now rewrite lookup_nil|]. intros [Ss Sa]%StronglySorted_inv. destruct i as [|i], j as [|j]; cbn; intros Hi Hj H; try lia.
  - assert (x = y) by congruence. lia.
  - injection Hi as <-. eapply Forall_lookup_1; eauto.
  - apply (IH i j); auto. lia.
Qed.
(** The entry that covers [pc], the last one of those that start there. *)
Definition covers (l : list Z) (pc i : Z) : Prop :=
  0 <= i /\ exists a b, l !! Z.to_nat i = Some a /\ l !! Z.to_nat (i + 1) = Some b /\ a <= pc < b.
Lemma search_spec pc l : StronglySorted Z.le l -> forall fuel low high, (Z.to_nat (high - low) < fuel)%nat -> 0 <= low -> high < Z.of_nat (length l) ->
  exists f, search_loop fuel pc l low high = Ok f /\
    match f with Some i => low <= i < high /\ covers l pc i | None => forall i, low <= i < high -> ~ covers l pc i end.
Proof.
  intros Sl. induction fuel as [|fuel IH]; intros low high Hf Hl Hh; [lia|]. cbn [search_loop]. destruct (Z.ltb_spec low high) as [Hlh|Hlh].
  2: { exists None. split; auto. lia. }
  set (mid := low + Z.quot (high - low) 2). assert (Hm : low <= mid < high) by (subst mid; lia). clearbody mid.
  destruct (at_pos_in l mid ltac:(lia)) as (m0 & E0 & ->). cbn [mbind outcome_bind]. destruct (Z.ltb_spec pc m0) as [H0|H0].
  - destruct (IH low mid ltac:(lia) ltac:(lia) ltac:(lia)) as (f & -> & F). exists f. split; auto. destruct f as [i|]; [destruct F; split; auto; lia|].
    intros i Hi. destruct (Z.lt_ge_cases i mid); [apply F; lia|]. intros (_ & a & b & Ha & _ & Hb).
    pose proof (sorted_le l _ _ _ _ Sl E0 Ha ltac:(lia)). lia.
  - destruct (at_pos_in l (mid + 1) ltac:(lia)) as (m1 & E1 & ->). cbn [mbind outcome_bind]. destruct (Z.ltb_spec pc m1) as [H1|H1].
    + exists (Some mid). splits; auto; try lia. split; [lia|]. exists m0, m1. auto.
    + destruct (IH (mid + 1) high ltac:(lia) ltac:(lia) ltac:(lia)) as (f & -> & F). exists f. split; auto. destruct f as [i|]; [destruct F; split; auto; lia|].
      intros i Hi. destruct (Z.lt_ge_cases mid i); [apply F; lia|]. intros (_ & a & b & _ & Hb & Hc).
      pose proof (sorted_le l _ _ _ _ Sl Hb E1 ltac:(lia)). lia.
Qed.
Lemma covers_unique l pc i j : StronglySorted Z.le l -> covers l pc i -> covers l pc j -> i = j.
Proof.
  intros Sl (Hi & a & b & Ha & Hb & H) (Hj & c & d & Hc & Hd & H'). destruct (Z.lt_trichotomy i j) as [L|[L|L]]; auto; exfalso.
  - pose proof (sorted_le l _ _ _ _ Sl Hb Hc ltac:(lia)). lia.
  - pose proof (sorted_le l _ _ _ _ Sl Hd Ha ltac:(lia)). lia.
Qed.

(** ** Well-formed code *)
Definition lines_ok (m : module_info) (line : line_table) : Prop :=
  length (func_tab line) = length (mi_functions m) /\ StronglySorted Z.le (line_pcs line) /\ head (func_tab line) = Some 0 /\ StronglySorted Z.le (func_tab line) /\
  last (func_tab line) = Some (Z.of_nat (length (line_pcs line)) - 1) /\ length (loc_tab line) = length (line_pcs line) /\
  Forall (fun l => 0 <= LOC_FILE l <= Z.of_nat (length (fname line))) (loc_tab line).
Definition module_ok (m : module_info) (rp : Range) : Prop :=
  mi_functions m <> [] /\ StronglySorted Z.le (mi_functions m) /\ Forall (fun f => start rp <= f <= range_end rp) (mi_functions m) /\
  match mi_line_table m with Some line => lines_ok m line | None => True end.
(** The location of [pc] in the function [idx]. *)
Definition located (m : module_info) (pc idx l : Z) : Prop :=
  exists line lo hi mid, mi_line_table m = Some line /\ func_tab line !! Z.to_nat idx = Some lo /\ func_tab line !! Z.to_nat (idx + 1) = Some hi /\
    lo <= mid < hi /\ covers (line_pcs line) pc mid /\ loc_tab line !! Z.to_nat mid = Some l.
Lemma lookup_loc_spec atom_len fi pc m idx : (match mi_line_table m with Some line => lines_ok m line | None => True end) -> loc fi = LINE_INVALID_LOCATION ->
  covers (mi_functions m) pc idx -> exists fi', lookup_loc atom_len fi pc m idx = Ok fi' /\ current fi' = current fi /\
    (located m pc idx (loc fi') \/ loc fi' = LINE_INVALID_LOCATION /\ forall l, ~ located m pc idx l).
Proof.
  intros Hm Hfi (Hi & a & b & Ha & Hb & _). unfold lookup_loc. destruct (mi_line_table m) as [line|] eqn:Eline.
  2: { exists fi. splits; auto. right. split; auto. intros l (line & ? & ? & ? & E & _). congruence. }
  destruct Hm as (L1 & L2 & L3 & L4 & L5 & L6 & L7).
  apply lookup_lt_Some in Hb. destruct (at_pos_in (func_tab line) idx ltac:(lia)) as (lo & El & ->). destruct (at_pos_in (func_tab line) (idx + 1) ltac:(lia)) as (hi & Eh & ->).
  assert (E0 : func_tab line !! 0%nat = Some 0) by (destruct (func_tab line); [discriminate|exact L3]). rewrite (at_pos_Some _ 0 0 ltac:(lia) E0). cbn [mbind outcome_bind].
  rewrite last_lookup in L5. pose proof (sorted_le _ 0 _ _ _ L4 E0 El ltac:(lia)). pose proof (sorted_le _ _ _ _ _ L4 Eh L5 ltac:(lia)).
  destruct (search_spec pc (line_pcs line) L2 (S (Z.to_nat (hi - lo))) lo hi) as (f & -> & F); try lia. cbn [mbind outcome_bind]. destruct f as [mid|].
  - destruct F as [Hm C]. pose proof C as (_ & x & y & Hx & Hy & _). apply lookup_lt_Some in Hy. rewrite Z.sub_0_r. destruct (at_pos_in (loc_tab line) mid ltac:(lia)) as (l & Eloc & ->).
    assert (Lo : located m pc idx l) by (exists line, lo, hi, mid; splits; auto; lia).
    cbn [mbind outcome_bind]. destruct (l =? LINE_INVALID_LOCATION); [eauto|]. destruct (Z.eqb_spec (LOC_FILE l) 0) as [Hz|Hz]; [eauto|].
    pose proof (Forall_lookup_1 _ _ _ _ L7 Eloc) as Hl. cbn in Hl. destruct (at_pos_in (fname line) (LOC_FILE l - 1) ltac:(lia)) as (ap & _ & ->). cbn [mbind outcome_bind]. eauto.
  - eexists. splits; [reflexivity|reflexivity|]. right. split; auto. intros l (line' & lo' & hi' & mid & E & El' & Eh' & Hm & C & _).
    assert (line' = line) as -> by congruence. assert (lo' = lo) as -> by congruence. assert (hi' = hi) as -> by congruence. exact (F mid Hm C).
Qed.
Lemma lookup_info_spec atom_len head ix t L St pc full a m : ranges_ok ix t L St -> a ∈ L -> head (start a) = Some m -> module_ok m a -> inside pc a ->
  exists fi t', erts_lookup_function_info atom_len head pc full ix t = Ok (fi, t') /\ ranges_ok ix t' L St /\
    ((current fi = None /\ forall idx, ~ covers (mi_functions m) pc idx) \/
     exists idx f, covers (mi_functions m) pc idx /\ mi_functions m !! Z.to_nat idx = Some f /\ current fi = Some (f + 16) /\
       (full = true -> located m pc idx (loc fi) \/ loc fi = LINE_INVALID_LOCATION /\ forall l, ~ located m pc idx l)).
Proof.
  intros R Ha Hh (M1 & M2 & M3 & M4) Hin. pose proof (ro_ix _ _ _ _ R) as Ei. unfold erts_lookup_function_info.
  destruct (find_range_spec ix t L Ei St pc R) as (f & t1 & -> & R1 & F). cbn [mbind outcome_bind]. destruct f as [[i rp]|]; [|exfalso; exact (F a Ha Hin)].
  destruct F as (_ & _ & F & _). pose proof (F a Ha Hin) as <-. rewrite Hh. cbn [mbind outcome_bind require].
  set (high := Z.of_nat (length (mi_functions m)) - 1).
  destruct (search_spec pc (mi_functions m) M2 (S (Z.to_nat high)) 0 high) as (f & -> & G); try lia. cbn [mbind outcome_bind]. destruct f as [mid|].
  - destruct G as [Hm C]. pose proof C as (Hp & x & y & Hx & Hy & _). rewrite (at_pos_Some _ _ _ Hp Hx). cbn [mbind outcome_bind]. change (2 * wordsize) with 16.
    destruct full.
    + destruct (lookup_loc_spec atom_len (mkInfo (Some (x + 16)) 5 LINE_INVALID_LOCATION None) pc m mid M4 eq_refl C) as (fi & Ef & Ec & D). cbn [needed loc fname_ptr] in *. rewrite Ef. cbn [mbind outcome_bind].
      eexists _, t1. splits; [reflexivity|auto|]. right. exists mid, x. splits; auto.
    + eexists _, t1. splits; [reflexivity|auto|]. right. exists mid, x. splits; auto. discriminate.
  - eexists _, t1. splits; [reflexivity|auto|]. left. split; auto. intros idx C. apply (G idx); auto. destruct C as (Hp & x & y & _ & Hy & _). apply lookup_lt_Some in Hy. lia.
Qed.
