(* ===== verification/Modules.v ===== *)
(** The module tables (module.c), an index table for each code index, and the copy of the active
    table when a change starts. *)

From S2P Require Import Prelude.
From stdpp Require Import base option list gmap.
From S2P Require Import Memory HashTable HashSpec IndexTable CodeIx Catches.
Local Open Scope Z_scope.

Definition MODULE_SIZE : Z := 50.
Definition MODULE_LIMIT : Z := 64 * 1024.
(** A version of a module: the address of its code, or 0; the first of its
    catches, [None] while it is not initialised; its NIF library, if any. The
    numbers of breakpoints and traced functions are left out. *)
Record erl_module_instance := mkInstance { code : Z; code_length : Z; catches_head : option Z; nif : option Z }.
(** A module with its current and its old version. *)
Record Module := mkModule { m_index : Z; module : Z; curr : erl_module_instance; old : erl_module_instance }.
#[export] Instance Module_slot : IndexSlot Module := {| index := m_index; set_index := fun i x => mkModule i (module x) (curr x) (old x) |}.
Definition no_code : erl_module_instance := mkInstance 0 0 None None.

(** [module_hash]. *)
Definition module_hash (x : Module) : Z := w64 (module x).
(** [module_cmp]. *)
Definition module_cmp (tmpl obj : Module) : Z := if module tmpl =? module obj then 0 else 1.
(** [module_alloc]. *)
Definition module_alloc (tmpl : Module) : Module := mkModule (-1) (module tmpl) no_code no_code.
(** The callbacks of the table. *)
Definition module_functions : HashFunctions Module := mkFun module_hash module_cmp module_alloc.

(** A table with the memory of its objects. *)
Definition module_table : Type := IndexTable * mem (HashBucket Module).
(** The tables, one for each code index. *)
Record module_state := mkModules { module_tables : perix module_table; entries_at_start_staging : Z }.
(** [init_module_table]. *)
Definition init_module_table : outcome module_state :=
  t ← erts_index_init MODULE_SIZE MODULE_LIMIT;
  let t := (t, Mem 1%positive ∅) in
  Ok (mkModules (PerIx t t t) 0).
Definition template (mod_ : Z) : Module := mkModule 0 mod_ no_code no_code.
(** [erts_get_module]. *)
Definition erts_get_module (mod_ : Z) (code_ix : ErtsCodeIndex) (s : module_state) : outcome (option ptr) :=
  let '(t, m) := at_ix code_ix (module_tables s) in
  index ← index_get module_functions t (template mod_) m;
  if index =? -1 then Ok None else p ← erts_index_lookup t index; Ok (Some p).
Definition with_table (code_ix : ErtsCodeIndex) (t : module_table) (s : module_state) : module_state :=
  mkModules (set_ix code_ix t (module_tables s)) (entries_at_start_staging s).
(** [erts_put_module]. *)
Definition erts_put_module (mod_ : Z) (ix : code_ix) (s : module_state) : outcome (module_state * ptr) :=
  let stg := the_staging_code_index ix in
  let '(t, m) := at_ix stg (module_tables s) in
  '(t, m, p) ← index_put_entry module_functions t (template mod_) m;
  Ok (with_table stg (t, m) s, p).
(** [module_code]. *)
Definition module_code (i : Z) (code_ix : ErtsCodeIndex) (s : module_state) : outcome ptr := erts_index_lookup (fst (at_ix code_ix (module_tables s))) i.
(** [module_code_size]. *)
Definition module_code_size (code_ix : ErtsCodeIndex) (s : module_state) : Z := nentries (fst (at_ix code_ix (module_tables s))).
(** Reading and writing the fields of a module. *)
Definition get_fields (p : ptr) (code_ix : ErtsCodeIndex) (s : module_state) : outcome Module := o ← load p (snd (at_ix code_ix (module_tables s))); Ok (data o).
Definition set_fields (p : ptr) (c o : erl_module_instance) (m : mem (HashBucket Module)) : outcome (mem (HashBucket Module)) :=
  b ← load p m; store p (mkObj (hvalue b) (mkModule (m_index (data b)) (module (data b)) c o)) m.
Definition update_module (p : ptr) (c o : erl_module_instance) (code_ix : ErtsCodeIndex) (s : module_state) : outcome module_state :=
  let '(t, m) := at_ix code_ix (module_tables s) in m ← set_fields p c o m; Ok (with_table code_ix (t, m) s).

(** The two loops of the copy: [n] modules from the index [i] on. *)
Fixpoint refresh (n : nat) (i : Z) (src dst : module_table) : outcome module_table :=
  match n with
  | O => Ok dst
  | S n =>
      sp ← erts_index_lookup (fst src) i;
      dp ← erts_index_lookup (fst dst) i;
      src_mod ← load sp (snd src);
      m ← set_fields dp (curr (data src_mod)) (old (data src_mod)) (snd dst);
      refresh n (i + 1) src (fst dst, m)
  end.
(** The second loop. *)
Fixpoint copy_new (n : nat) (i : Z) (src dst : module_table) : outcome module_table :=
  match n with
  | O => Ok dst
  | S n =>
      sp ← erts_index_lookup (fst src) i;
      src_mod ← load sp (snd src);
      '(t, m, dp) ← index_put_entry module_functions (fst dst) (data src_mod) (snd dst);
      m ← set_fields dp (curr (data src_mod)) (old (data src_mod)) m;
      copy_new n (i + 1) src (t, m)
  end.
(** [module_start_staging]. *)
Definition module_start_staging (ix : code_ix) (s : module_state) : outcome module_state :=
  let src := at_ix (the_active_code_index ix) (module_tables s) in
  let dst := at_ix (the_staging_code_index ix) (module_tables s) in
  dst1 ← refresh (Z.to_nat (nentries (fst dst))) 0 src dst;
  dst2 ← copy_new (Z.to_nat (nentries (fst src) - nentries (fst dst1))) (nentries (fst dst1)) src dst1;
  Ok (mkModules (set_ix (the_staging_code_index ix) dst2 (module_tables s)) (nentries (fst dst2))).
(** [module_end_staging]. *)
Definition module_end_staging (commit : bool) (ix : code_ix) (s : module_state) : outcome module_state :=
  if commit then Ok s
  else
    let '(t, m) := at_ix (the_staging_code_index ix) (module_tables s) in
    '(t, m) ← index_erase_latest_from module_functions t (entries_at_start_staging s) m;
    Ok (with_table (the_staging_code_index ix) (t, m) s).

(** ** The laws of the tables *)
#[export] Instance module_hash_laws : HashLaws module_functions module.
Proof.
  split.
  - intros a. cbn. apply w64_range.
  - intros a b. cbn. unfold module_cmp. destruct (Z.eqb_spec (module a) (module b)); split; congruence.
  - intros a b E. cbn. unfold module_hash. now rewrite E.
  - reflexivity.
Qed.
#[export] Instance module_index_laws : IndexLaws module_functions module.
Proof. split; reflexivity. Qed.
Notation mrep t l := (irep module_functions module (fst t) (snd t) l).
Notation names l := (module <$> l).

Lemma set_fields_spec t l i p d c o : mrep t l -> l !! i = Some (p, d) ->
  exists m', set_fields p c o (snd t) = Ok m' /\ mrep (fst t, m') (<[i := (p, mkModule (m_index d) (module d) c o)]> l).
Proof.
  intros R Hi. destruct (ir_slot _ _ _ _ _ R i p d Hi) as (_ & _ & b & Hb & Eb). unfold set_fields, load. rewrite Hb. cbn [mbind outcome_bind require].
  rewrite (store_spec _ _ _ _ Hb). eexists. split; [reflexivity|]. rewrite Eb. cbn [fst snd]. apply (irep_update module_functions module _ _ _ _ _ _ _ _ R Hi Hb); reflexivity.
Qed.
Lemma slot_lookup_spec t l i p d : mrep t l -> l !! i = Some (p, d) -> erts_index_lookup (fst t) (Z.of_nat i) = Ok p /\ exists b, load p (snd t) = Ok b /\ data b = d.
Proof. intros R Hi. destruct (index_lookup_spec _ _ _ _ _ _ _ _ R Hi) as (E & b & Hb & Eb). split; auto. exists b. unfold load. now rewrite Hb. Qed.

(** ** A table as the list of its modules *)
Definition tab_ok (t : module_table) (M : list Module) : Prop := exists l, mrep t l /\ l.*2 = M /\ limit (fst t) = MODULE_LIMIT.
Lemma tab_index t M i x : tab_ok t M -> M !! i = Some x -> m_index x = Z.of_nat i.
Proof. intros (l & R & <- & _) Hi. rewrite list_lookup_fmap in Hi. destruct (l !! i) as [[p d]|] eqn:E; [|discriminate]. injection Hi as <-. now destruct (ir_slot _ _ _ _ _ R i p d E) as (_ & ? & _). Qed.
Lemma tab_count t M : tab_ok t M -> nentries (fst t) = Z.of_nat (length M) /\ Z.of_nat (length M) <= MODULE_LIMIT.
Proof.
  intros (l & R & <- & El). rewrite length_fmap. pose proof (ir_count _ _ _ _ _ R) as Ec. split; auto.
  destruct (ir_pages _ _ _ _ _ R) as (k & Es & Hl & Hk & _). rewrite El in Hk. unfold MODULE_LIMIT in *. lia.
Qed.
Definition pos (mod_ : Z) (M : list Module) : option nat := fst <$> list_find (fun x => module x = mod_) M.
Lemma pos_position mod_ l : position module mod_ l = pos mod_ (l.*2).
Proof. unfold position, pos. rewrite list_find_fmap. now destruct (list_find _ l) as [[i [p d]]|]. Qed.
Lemma pos_Some k M i : pos k M = Some i -> exists x, M !! i = Some x /\ module x = k.
Proof. unfold pos. destruct (list_find _ M) as [[j x]|] eqn:E; [|discriminate]. intros [= <-]. apply list_find_Some in E as (? & ? & _). eauto. Qed.
Lemma pos_None k M x : pos k M = None -> x ∈ M -> module x <> k.
Proof.
  unfold pos. destruct (list_find _ M) as [[j y]|] eqn:E; [discriminate|]. intros _ Hx. apply list_find_None in E.
  rewrite List.Forall_forall in E. apply E. now apply list_elem_of_In.
Qed.
Lemma pos_names k M M' : names M = names M' -> pos k M = pos k M'.
Proof.
  revert M'. induction M as [|x M IH]; intros [|y M'] E; try discriminate; auto. injection E as E1 E2. unfold pos in *. cbn [list_find]. rewrite E1.
  destruct (decide (module y = k)); auto. specialize (IH M' E2). destruct (list_find _ M) as [[]|], (list_find _ M') as [[]|]; cbn in *; congruence.
Qed.

(** The pointer [p] leads to the module at the position [i]. *)
Definition points (t : module_table) (p : ptr) (i : nat) (M : list Module) : Prop := exists l d, mrep t l /\ l.*2 = M /\ limit (fst t) = MODULE_LIMIT /\ l !! i = Some (p, d).
Lemma points_ok t p i M : points t p i M -> tab_ok t M.
Proof. intros (l & d & R & E & H & _). exists l. auto. Qed.
Lemma get_spec mod_ ix s M : tab_ok (at_ix ix (module_tables s)) M ->
  match pos mod_ M with
  | Some i => exists p x, erts_get_module mod_ ix s = Ok (Some p) /\ points (at_ix ix (module_tables s)) p i M /\ M !! i = Some x /\ get_fields p ix s = Ok x
  | None => erts_get_module mod_ ix s = Ok None
  end.
Proof.
  unfold erts_get_module, get_fields. destruct (at_ix ix (module_tables s)) as [t m]. intros (l & R & El & Hl). cbn [fst snd] in *.
  rewrite (index_get_spec module_functions module t m l (template mod_) R). cbn [mbind outcome_bind].
  change (module (template mod_)) with mod_. rewrite pos_position, El. destruct (pos mod_ M) as [i|] eqn:Ep; [|reflexivity].
  rewrite (proj2 (Z.eqb_neq _ _)) by lia. destruct (pos_Some _ _ _ Ep) as (x & Hx & _). rewrite <- El, list_lookup_fmap in Hx. destruct (l !! i) as [[p d]|] eqn:Ei; [|discriminate].
  destruct (slot_lookup_spec (t, m) l i p d R Ei) as (E1 & b & E2 & E3). cbn [fst snd] in E1, E2. rewrite E1. cbn [mbind outcome_bind]. exists p, d. rewrite E2. cbn [mbind outcome_bind]. subst d M. splits; auto.
  - exists l, (data b). auto.
  - rewrite list_lookup_fmap, Ei. reflexivity.
Qed.
Lemma update_spec p i ix s M c o x : points (at_ix ix (module_tables s)) p i M -> M !! i = Some x ->
  exists s', update_module p c o ix s = Ok s' /\ s' = with_table ix (at_ix ix (module_tables s')) s /\
    points (at_ix ix (module_tables s')) p i (<[i := mkModule (m_index x) (module x) c o]> M).
Proof.
  unfold update_module. destruct (at_ix ix (module_tables s)) as [t m]. intros (l & d & R & <- & Hl & Hi) Hx. rewrite list_lookup_fmap, Hi in Hx. injection Hx as <-.
  destruct (set_fields_spec (t, m) l i p d c o R Hi) as (m' & E & R'). cbn [fst snd] in *. rewrite E. cbn [mbind outcome_bind]. eexists. split; [reflexivity|].
  unfold with_table. cbn [module_tables]. rewrite at_set_eq. split; auto. eexists _, _. splits; [exact R'| |auto|].
  - now rewrite list_fmap_insert.
  - apply list_lookup_insert_eq. apply lookup_lt_is_Some. eauto.
Qed.
Definition new_module (i : nat) (mod_ : Z) : Module := mkModule (Z.of_nat i) mod_ no_code no_code.
Lemma put_spec mod_ ix s M : let stg := the_staging_code_index ix in tab_ok (at_ix stg (module_tables s)) M ->
  match pos mod_ M with
  | Some i => exists p, erts_put_module mod_ ix s = Ok (s, p) /\ points (at_ix stg (module_tables s)) p i M
  | None => erts_put_module mod_ ix s = Erl_exit /\ Z.of_nat (length M) = MODULE_LIMIT \/
      exists s' p, erts_put_module mod_ ix s = Ok (s', p) /\ s' = with_table stg (at_ix stg (module_tables s')) s /\
        points (at_ix stg (module_tables s')) p (length M) (M ++ [new_module (length M) mod_])
  end.
Proof.
  intros stg. unfold erts_put_module. fold stg. destruct (at_ix stg (module_tables s)) as [t m] eqn:Et. intros (l & R & <- & Hl). cbn [fst snd] in *.
  pose proof (index_put_spec module_functions module t m l (template mod_) R) as P. change (module (template mod_)) with mod_ in P. rewrite pos_position in P.
  destruct (pos mod_ l.*2) as [i|].
  - destruct P as (p & d & Hi & E). rewrite E. cbn [mbind outcome_bind]. exists p. split; [|exists l, d; auto].
    unfold with_table. rewrite <- Et. destruct s as [[t0 t1 t2] e]. cbn. now destruct stg.
  - rewrite length_fmap. pose proof (ir_count _ _ _ _ _ R) as Ec. destruct ((nentries t =? isize t) && (limit t <=? isize t)) eqn:Ef.
    + left. rewrite P. split; auto. apply andb_prop in Ef as [E1 E2]. apply Z.eqb_eq in E1. apply Z.leb_le in E2. destruct (ir_pages _ _ _ _ _ R) as (k & Es & Hle & Hk & _). rewrite Hl in *. unfold MODULE_LIMIT in *. lia.
    + right. destruct P as (t' & m' & p & E & El' & _ & R'). rewrite E. cbn [mbind outcome_bind]. eexists _, p. split; [reflexivity|]. unfold with_table. cbn [module_tables]. rewrite at_set_eq. split; auto.
      eexists _, _. splits; [exact R'| |cbn; congruence|].
      * rewrite fmap_app. cbn. now rewrite Ec.
      * rewrite lookup_app_r, Nat.sub_diag by lia. reflexivity.
Qed.

(** ** Staging *)
Lemma tab_copy t M i x : tab_ok t M -> M !! i = Some x -> exists p b, erts_index_lookup (fst t) (Z.of_nat i) = Ok p /\ load p (snd t) = Ok b /\ data b = x.
Proof.
  intros (l & R & <- & _) Hi. rewrite list_lookup_fmap in Hi. destruct (l !! i) as [[p d]|] eqn:E; [|discriminate]. injection Hi as <-.
  destruct (slot_lookup_spec t l i p d R E) as (E1 & b & E2 & E3). eauto.
Qed.
Lemma set_at t M i y : tab_ok t M -> M !! i = Some y -> exists p, erts_index_lookup (fst t) (Z.of_nat i) = Ok p /\
  forall c o, exists m', set_fields p c o (snd t) = Ok m' /\ tab_ok (fst t, m') (<[i := mkModule (m_index y) (module y) c o]> M).
Proof.
  intros (l & R & <- & Hl) Hi. rewrite list_lookup_fmap in Hi. destruct (l !! i) as [[p d]|] eqn:E; [|discriminate]. injection Hi as <-.
  destruct (slot_lookup_spec t l i p d R E) as (E1 & _). exists p. split; auto. intros c o. destruct (set_fields_spec t l i p d c o R E) as (m' & E2 & R'). exists m'. split; auto.
  eexists. splits; [exact R'| |auto]. now rewrite list_fmap_insert.
Qed.
Lemma module_eta x y i : m_index x = i -> m_index y = i -> module x = module y -> mkModule (m_index y) (module y) (curr x) (old x) = x.
Proof. destruct x, y. cbn. congruence. Qed.
Lemma refresh_spec src A : tab_ok src A -> forall n i dst D, tab_ok dst D -> (i + n)%nat = length D -> take i D = take i A -> names D `prefix_of` names A ->
  exists dst', refresh n (Z.of_nat i) src dst = Ok dst' /\ tab_ok dst' (take (length D) A).
Proof.
  intros Hs. induction n as [|n IH]; intros i dst D Hd Hn Ht Hp; cbn [refresh].
  - exists dst. split; auto. rewrite Nat.add_0_r in Hn. subst i. rewrite <- Ht, take_ge by lia. exact Hd.
  - destruct (lookup_lt_is_Some_2 D i ltac:(lia)) as [y Hy]. assert (Hx : exists x, A !! i = Some x /\ module x = module y).
    { destruct Hp as [r Hr]. assert (E : names A !! i = Some (module y)) by (rewrite Hr, lookup_app_l by (rewrite length_fmap; lia); now rewrite list_lookup_fmap, Hy).
      rewrite list_lookup_fmap in E. destruct (A !! i) as [x|]; [|discriminate]. injection E as E. eauto. }
    destruct Hx as (x & Hx & Em). destruct (tab_copy src A i x Hs Hx) as (sp & b & E1 & E2 & E3). destruct (set_at dst D i y Hd Hy) as (dp & E4 & U).
    rewrite E1, E4. cbn [mbind outcome_bind]. rewrite E2. cbn [mbind outcome_bind]. rewrite E3. destruct (U (curr x) (old x)) as (m' & E5 & Hd'). rewrite E5. cbn [mbind outcome_bind].
    rewrite (module_eta x y (Z.of_nat i)) in Hd' by eauto using tab_index. replace (Z.of_nat i + 1) with (Z.of_nat (Datatypes.S i)) by lia.
    destruct (IH (Datatypes.S i) (fst dst, m') (<[i := x]> D) Hd') as (dst' & E6 & H6).
    + rewrite length_insert. lia.
    + rewrite (take_S_r A i x Hx), <- Ht. rewrite (take_S_r _ i x) by (apply list_lookup_insert_eq; lia). now rewrite take_insert_ge by lia.
    + rewrite list_fmap_insert, list_insert_id; auto. rewrite list_lookup_fmap, Hy. cbn. now rewrite Em.
    + rewrite length_insert in H6. eauto.
Qed.
Lemma put_new t M (d : Module) : tab_ok t M -> pos (module d) M = None -> Z.of_nat (length M) < MODULE_LIMIT ->
  exists t' m' p, index_put_entry module_functions (fst t) d (snd t) = Ok (t', m', p) /\
    forall c o, exists m2, set_fields p c o m' = Ok m2 /\ tab_ok (t', m2) (M ++ [mkModule (Z.of_nat (length M)) (module d) c o]).
Proof.
  intros (l & R & <- & Hl) Hp Hm. destruct t as [t m]. cbn [fst snd] in *. pose proof (index_put_spec module_functions module t m l d R) as P. rewrite pos_position, Hp in P.
  rewrite length_fmap in *. pose proof (ir_count _ _ _ _ _ R) as Ec.
  destruct ((nentries t =? isize t) && (limit t <=? isize t)) eqn:Ef; [apply andb_prop in Ef as [E1 E2]; apply Z.eqb_eq in E1; apply Z.leb_le in E2; lia|].
  destruct P as (t' & m' & p & E & El' & _ & R'). exists t', m', p. split; auto. intros c o.
  destruct (set_fields_spec (t', m') _ (length l) p (set_index (nentries t) (fun_alloc module_functions d)) c o R') as (m2 & E2 & R2).
  { rewrite lookup_app_r, Nat.sub_diag by lia. reflexivity. }
  exists m2. split; auto. eexists. splits; [exact R2| |cbn; congruence]. rewrite list_fmap_insert, fmap_app.
  replace (length l) with (length l.*2 + 0)%nat at 1 by (rewrite length_fmap; lia). rewrite insert_app_r. cbn. now rewrite Ec.
Qed.
Lemma tab_pos t M i x : tab_ok t M -> M !! i = Some x -> pos (module x) M = Some i.
Proof.
  intros (l & R & <- & _) Hi. rewrite list_lookup_fmap in Hi. destruct (l !! i) as [[p d]|] eqn:E; [|discriminate]. injection Hi as <-.
  rewrite <- pos_position. exact (irep_position module_functions module _ _ _ _ _ _ R E).
Qed.
Lemma fresh_later t A i x : tab_ok t A -> A !! i = Some x -> pos (module x) (take i A) = None.
Proof.
  intros T Hi. destruct (pos (module x) (take i A)) as [j|] eqn:E; auto. destruct (pos_Some _ _ _ E) as (y & Hy & Em). apply lookup_take_Some in Hy as [Hy Hl].
  pose proof (tab_pos t A i x T Hi) as P1. pose proof (tab_pos t A j y T Hy) as P2. rewrite Em in P2. assert (i = j) by congruence. lia.
Qed.
Lemma copy_new_spec src A : tab_ok src A -> forall n i dst, tab_ok dst (take i A) -> (i + n)%nat = length A ->
  exists dst', copy_new n (Z.of_nat i) src dst = Ok dst' /\ tab_ok dst' A.
Proof.
  intros Hs. induction n as [|n IH]; intros i dst Hd Hn; cbn [copy_new].
  - exists dst. split; auto. now rewrite take_ge in Hd by lia.
  - destruct (lookup_lt_is_Some_2 A i ltac:(lia)) as [x Hx]. destruct (tab_copy src A i x Hs Hx) as (sp & b & E1 & E2 & E3).
    rewrite E1. cbn [mbind outcome_bind]. rewrite E2. cbn [mbind outcome_bind]. rewrite E3. pose proof (tab_count _ _ Hs) as [_ Hc].
    assert (Lt : length (take i A) = i) by (rewrite length_take; lia).
    destruct (put_new dst (take i A) x Hd (fresh_later src A i x Hs Hx)) as (t & m & dp & E4 & U); [lia|]. rewrite E4. cbn [mbind outcome_bind].
    destruct (U (curr x) (old x)) as (m2 & E5 & Hd'). rewrite E5. cbn [mbind outcome_bind]. replace (Z.of_nat i + 1) with (Z.of_nat (Datatypes.S i)) by lia.
    apply IH; [|lia]. rewrite (take_S_r A i x Hx), Lt in *. rewrite <- (tab_index src A i x Hs Hx) in Hd'. now destruct x.
Qed.

(** [S]: the modules that are staged. *)
Definition third (ix : code_ix) : ErtsCodeIndex := ix_next (the_staging_code_index ix).
Record modules_ok (ix : code_ix) (s : module_state) (A : list Module) (S : option (list Module)) : Prop := {
  mo_ix : the_staging_code_index ix = ix_next (the_active_code_index ix);
  mo_active : tab_ok (at_ix (the_active_code_index ix) (module_tables s)) A;
  mo_third : exists M, tab_ok (at_ix (third ix) (module_tables s)) M /\ names M `prefix_of` names A;
  mo_staging : match S with
    | None => exists M, tab_ok (at_ix (the_staging_code_index ix) (module_tables s)) M /\ names M `prefix_of` names A /\ Z.of_nat (length M) <= entries_at_start_staging s
    | Some M => tab_ok (at_ix (the_staging_code_index ix) (module_tables s)) M /\ names A `prefix_of` names M /\ entries_at_start_staging s = Z.of_nat (length A)
    end }.
Lemma prefix_len A B : names A `prefix_of` names B -> (length A <= length B)%nat.
Proof. intros H%prefix_length. now rewrite !length_fmap in H. Qed.
Lemma three_apart ix : the_staging_code_index ix = ix_next (the_active_code_index ix) ->
  the_active_code_index ix <> the_staging_code_index ix /\ third ix <> the_staging_code_index ix /\ the_active_code_index ix <> third ix.
Proof. unfold third. intros ->. destruct (the_active_code_index ix); auto. Qed.

Lemma modules_start ix s A : modules_ok ix s A None -> exists s', module_start_staging ix s = Ok s' /\ modules_ok ix s' A (Some A).
Proof.
  intros [Ei Ha Ht (M & Hm & Hp & _)]. destruct (three_apart ix Ei) as (N1 & N2 & N3). unfold module_start_staging.
  pose proof (tab_count _ _ Ha) as [Ca _]. pose proof (tab_count _ _ Hm) as [Cm _]. pose proof (prefix_len _ _ Hp).
  destruct (refresh_spec _ A Ha (length M) 0 _ M Hm) as (d1 & E1 & H1); auto. change (Z.of_nat 0) with 0 in E1. rewrite Cm, Nat2Z.id, E1. cbn [mbind outcome_bind].
  pose proof (tab_count _ _ H1) as [C1 _]. rewrite length_take in C1. destruct (copy_new_spec _ A Ha (length A - length M) (length M) d1 H1) as (d2 & E2 & H2); [lia|].
  replace (nentries (fst d1)) with (Z.of_nat (length M)) by lia. replace (Z.to_nat _) with (length A - length M)%nat by lia. rewrite E2. cbn [mbind outcome_bind].
  eexists. split; [reflexivity|]. constructor; cbn [module_tables entries_at_start_staging]; auto.
  - now rewrite at_set_ne.
  - now rewrite at_set_ne by auto.
  - rewrite at_set_eq. splits; auto. now apply tab_count in H2 as [? _].
Qed.
Lemma modules_commit ix s A M : modules_ok ix s A (Some M) -> modules_ok (erts_commit_staging_code_ix ix) s M None.
Proof.
  intros [Ei Ha (T & Ht & Hp) (Hm & Hn & He)]. constructor; cbn [erts_commit_staging_code_ix the_active_code_index the_staging_code_index]; auto.
  - unfold third. cbn. rewrite Ei. rewrite (proj2 (proj2 (next_ne _))). eauto.
  - exists T. splits; auto; [etrans; [exact Hp|exact Hn]|]. rewrite He. apply prefix_len in Hp. lia.
Qed.
Lemma modules_abort ix s A M : modules_ok ix s A (Some M) -> exists s', module_end_staging false ix s = Ok s' /\ modules_ok ix s' A None.
Proof.
  intros [Ei Ha Ht (Hm & Hn & He)]. destruct (three_apart ix Ei) as (N1 & N2 & N3). unfold module_end_staging.
  destruct (at_ix (the_staging_code_index ix) (module_tables s)) as [t m]. destruct Hm as (l & R & El & Hl). cbn [fst snd] in *.
  pose proof (prefix_len _ _ Hn) as Ln. rewrite He. destruct (index_erase_spec module_functions module t m l (length A) R) as (t' & m' & E & R' & Hl'); [subst M; now rewrite length_fmap in Ln|].
  rewrite E. cbn [mbind outcome_bind]. eexists. split; [reflexivity|]. unfold with_table. constructor; cbn [module_tables entries_at_start_staging]; auto.
  - now rewrite at_set_ne.
  - now rewrite at_set_ne by auto.
  - rewrite at_set_eq. exists (take (length A) M). splits.
    + exists (take (length A) l). splits; auto; [|cbn; congruence]. now rewrite fmap_take, El.
    + rewrite fmap_take. destruct Hn as [k ->]. rewrite <- (length_fmap module A), take_app_length. exists []. now rewrite app_nil_r.
    + rewrite length_take, He. lia.
Qed.
(** Aborting a change that has not started has no effect. *)
Lemma modules_abort_idle ix s A : modules_ok ix s A None -> module_end_staging false ix s = Ok s.
Proof.
  intros [_ _ _ (M & Hm & _ & He)]. pose proof (tab_count _ _ Hm) as [C _]. unfold module_end_staging, with_table. destruct (at_ix (the_staging_code_index ix) (module_tables s)) as [t m] eqn:Et. cbn [fst] in C.
  unfold index_erase_latest_from. rewrite (proj2 (Z.ltb_ge _ _)) by lia. cbn [mbind outcome_bind]. rewrite <- Et. destruct s as [[t0 t1 t2] e]. cbn. now destruct (the_staging_code_index ix).
Qed.

(** The changes of a table that is staged, and of the active one. *)
Lemma modules_staged ix s s' A M M' : modules_ok ix s A (Some M) -> s' = with_table (the_staging_code_index ix) (at_ix (the_staging_code_index ix) (module_tables s')) s ->
  tab_ok (at_ix (the_staging_code_index ix) (module_tables s')) M' -> names A `prefix_of` names M' -> modules_ok ix s' A (Some M').
Proof.
  intros [Ei Ha Ht (Hm & Hn & He)] E T P. destruct (three_apart ix Ei) as (N1 & N2 & N3). rewrite E in T |- *. unfold with_table in *. cbn [module_tables] in T. rewrite at_set_eq in T.
  constructor; cbn [module_tables entries_at_start_staging]; auto.
  - now rewrite at_set_ne.
  - now rewrite at_set_ne by auto.
  - rewrite at_set_eq. auto.
Qed.
Lemma modules_active ix s s' A A' : modules_ok ix s A None -> s' = with_table (the_active_code_index ix) (at_ix (the_active_code_index ix) (module_tables s')) s ->
  tab_ok (at_ix (the_active_code_index ix) (module_tables s')) A' -> names A' = names A -> modules_ok ix s' A' None.
Proof.
  intros [Ei Ha Ht (M & Hm & Hn & He)] E T P. destruct (three_apart ix Ei) as (N1 & N2 & N3). rewrite E in T |- *. unfold with_table in *. cbn [module_tables] in T. rewrite at_set_eq in T.
  constructor; cbn [module_tables entries_at_start_staging]; rewrite ?P; auto.
  - now rewrite at_set_eq.
  - now rewrite at_set_ne by auto.
  - rewrite at_set_ne by auto. eauto.
Qed.
Lemma init_modules : exists s, init_module_table = Ok s /\ entries_at_start_staging s = 0 /\ forall j, tab_ok (at_ix j (module_tables s)) [].
Proof.
  unfold init_module_table. destruct (index_init_spec module_functions module MODULE_SIZE MODULE_LIMIT (Mem 1%positive ∅)) as (t & E & R & El); try (unfold MODULE_SIZE; lia).
  { intros p o H. cbn [cells] in H. rewrite lookup_empty in H. discriminate. }
  rewrite E. cbn [mbind outcome_bind]. eexists. split; [reflexivity|]. split; auto. intros j. cbn [module_tables]. exists []. destruct j; cbn; auto.
Qed.
