(* ===== verification/CodeLoad.v ===== *)
(** The operations on code (code_ix.c, beam_bif_load.c, the end of beam_load.c), composed from
    catches, module tables and ranges. *)

From S2P Require Import Prelude.
From stdpp Require Import base option list gmap.
From S2P Require Import Memory IndexTable CodeIx Catches Ranges Modules.
Local Open Scope Z_scope.

(** The state of the code; [on_load]: the allocated code areas by their
    addresses, with the question whether the on_load function is to be run yet. *)
Record code_state := mkCode { cix : code_ix; cat : catches; rng : range_tables; mods : module_state; on_load : gmap Z bool; erts_total_code_size : Z }.
Definition with_cat (c : catches) (s : code_state) : code_state := mkCode (cix s) c (rng s) (mods s) (on_load s) (erts_total_code_size s).
Definition with_rng (r : range_tables) (s : code_state) : code_state := mkCode (cix s) (cat s) r (mods s) (on_load s) (erts_total_code_size s).
Definition with_mods (m : module_state) (s : code_state) : code_state := mkCode (cix s) (cat s) (rng s) m (on_load s) (erts_total_code_size s).
Definition with_areas (a : gmap Z bool) (sz : Z) (s : code_state) : code_state := mkCode (cix s) (cat s) (rng s) (mods s) a sz.
Definition with_cix (c : code_ix) (s : code_state) : code_state := mkCode c (cat s) (rng s) (mods s) (on_load s) (erts_total_code_size s).

(** ** Staging; the export tables are not part of the state *)
Definition erts_start_staging_code_ix (s : code_state) : outcome code_state :=
  let s := with_cat (beam_catches_start_staging (cix s) (cat s)) s in
  m ← module_start_staging (cix s) (mods s);
  let s := with_mods m s in
  Ok (with_rng (erts_start_staging_ranges (cix s) (rng s)) s).
(** What the end and the abort have in common. *)
Definition end_staging (commit : bool) (s : code_state) : outcome code_state :=
  let s := with_cat (beam_catches_end_staging commit (cat s)) s in
  m ← module_end_staging commit (cix s) (mods s);
  let s := with_mods m s in
  r ← erts_end_staging_ranges commit (cix s) (rng s);
  Ok (with_rng r s).
(** [erts_end_staging_code_ix]. *)
Definition erts_end_staging_code_ix (s : code_state) : outcome code_state := end_staging true s.
(** [erts_abort_staging_code_ix]. *)
Definition erts_abort_staging_code_ix (s : code_state) : outcome code_state := end_staging false s.
(** The commit at the end of a change. *)
Definition commit_staging (s : code_state) : code_state := with_cix (erts_commit_staging_code_ix (cix s)) s.

(** ** Loading *)
(** Prepared code: the module, the address and the size of the code, the
    handlers of its catches in the order of the loop, and whether it has an
    on_load function. *)
Record LoaderState := mkLoader { ls_module : Z; ls_code : Z; loaded_size : Z; ls_catches : list Z; ls_on_load : bool }.
Definition stg (s : code_state) : ErtsCodeIndex := the_staging_code_index (cix s).
Definition put_module (mod_ : Z) (s : code_state) : outcome (code_state * ptr) :=
  '(m, p) ← erts_put_module mod_ (cix s) (mods s); Ok (with_mods m s, p).
(** The current version becomes the old one; the export entries are left out. *)
Definition delete_code (modp : ptr) (s : code_state) : outcome code_state :=
  x ← get_fields modp (stg s) (mods s);
  m ← update_module modp (mkInstance 0 0 (Some BEAM_CATCHES_NIL) None) (curr x) (stg s) (mods s);
  Ok (with_mods m s).
(** The result is whether the module is not purged. *)
Definition beam_make_current_old (mod_ : Z) (s : code_state) : outcome (code_state * bool) :=
  '(s, modp) ← put_module mod_ s;
  x ← get_fields modp (stg s) (mods s);
  if negb (code (curr x) =? 0) && negb (code (old x) =? 0) then Ok (s, true)
  else if code (old x) =? 0 then s ← delete_code modp s; Ok (s, false)
  else Ok (s, false).
(** [insert_new_code]; the result is whether the module is not purged. *)
Definition insert_new_code (ls : LoaderState) (s : code_state) : outcome (code_state * bool) :=
  '(s, not_purged) ← beam_make_current_old (ls_module ls) s;
  if (not_purged : bool) then Ok (s, true)
  else
    let s := with_areas (<[ls_code ls := ls_on_load ls]> (on_load s)) (w64 (erts_total_code_size s + loaded_size ls)) s in
    '(s, modp) ← put_module (ls_module ls) s;
    x ← get_fields modp (stg s) (mods s);
    m ← update_module modp (mkInstance (ls_code ls) (s32 (loaded_size ls)) (Some BEAM_CATCHES_NIL) (nif (curr x))) (old x) (stg s) (mods s);
    let s := with_mods m s in
    r ← erts_update_ranges (ls_code ls) (loaded_size ls) (cix s) (rng s);
    Ok (with_rng r s, false).
(** The index of each catch, which is put into the code, and the last one. *)
Fixpoint cons_catches (ix : code_ix) (pcs : list Z) (last : Z) (c : catches) : outcome (catches * Z * list (Z * Z)) :=
  match pcs with
  | [] => Ok (c, last, [])
  | pc :: pcs =>
      '(c, i) ← beam_catches_cons ix pc last c;
      '(c, last, l) ← cons_catches ix pcs i c;
      Ok (c, last, (i, pc) :: l)
  end.
(** The catches of the new code; the exports, imports and funs are left out. *)
Definition final_touch (ls : LoaderState) (s : code_state) : outcome (code_state * list (Z * Z)) :=
  '(c, last, l) ← cons_catches (cix s) (ls_catches ls) BEAM_CATCHES_NIL (cat s);
  let s := with_cat c s in
  '(s, modp) ← put_module (ls_module ls) s;
  x ← get_fields modp (stg s) (mods s);
  m ← update_module modp (mkInstance (code (curr x)) (code_length (curr x)) (Some last) (nif (curr x))) (old x) (stg s) (mods s);
  Ok (with_mods m s, l).
(** [erts_finish_loading]: [None] when the module is not purged, or where its catches are. *)
Definition erts_finish_loading (ls : LoaderState) (s : code_state) : outcome (code_state * option (list (Z * Z))) :=
  '(s, not_purged) ← insert_new_code ls s;
  if (not_purged : bool) then Ok (s, None) else '(s, l) ← final_touch ls s; Ok (s, Some l).

(** The results of the built-in functions. *)
Inductive code_result := am_ok | am_true | am_undefined | am_not_purged (mod_ : Z) | am_on_load (mod_ : Z) | badarg | system_limit.
(** The argument: the prepared modules, or [None] when it is no list of such.
    The second result is where the catches of the module are. *)
Definition finish_loading_1 (arg : option (list LoaderState)) (s : code_state) : outcome (code_state * code_result * list (Z * Z)) :=
  match arg with
  | None => s ← erts_abort_staging_code_ix s; Ok (s, badarg, [])
  | Some [] => s ← erts_start_staging_code_ix s; s ← erts_end_staging_code_ix s; Ok (commit_staging s, am_ok, [])
  | Some [ls] =>
      s ← erts_start_staging_code_ix s;
      '(s, modp) ← put_module (ls_module ls) s;
      x ← get_fields modp (stg s) (mods s);
      if negb (code (curr x) =? 0) && negb (code (old x) =? 0) then
        s ← erts_abort_staging_code_ix s; Ok (s, am_not_purged (ls_module ls), [])
      else
        '(s, l) ← erts_finish_loading ls s;
        l ← require l;
        s ← erts_end_staging_code_ix s;
        Ok (commit_staging s, if ls_on_load ls then am_on_load (ls_module ls) else am_ok, l)
  | Some _ => s ← erts_abort_staging_code_ix s; Ok (s, system_limit, [])
  end.
(** [delete_module_1]. *)
Definition delete_module_1 (mod_ : Z) (s : code_state) : outcome (code_state * code_result) :=
  s ← erts_start_staging_code_ix s;
  modp ← erts_get_module mod_ (stg s) (mods s);
  match modp with
  | None => s ← erts_abort_staging_code_ix s; Ok (s, am_undefined)
  | Some modp =>
      x ← get_fields modp (stg s) (mods s);
      if negb (code (old x) =? 0) then s ← erts_abort_staging_code_ix s; Ok (s, badarg)
      else s ← delete_code modp s; s ← erts_end_staging_code_ix s; Ok (commit_staging s, am_true)
  end.
(** The catches, the range and the memory of the code of a version are given up. *)
Definition unload (v : erl_module_instance) (s : code_state) : outcome code_state :=
  head ← require (catches_head v);
  c ← beam_catches_delmod head (code v) (u32 (code_length v)) (the_active_code_index (cix s)) (cat s);
  Ok (with_areas (delete (code v) (on_load s)) (w64 (erts_total_code_size s - code_length v)) (with_cat c s)).
(** [purge_module_1]. *)
Definition purge_module_1 (mod_ : Z) (s : code_state) : outcome (code_state * code_result) :=
  let act := the_active_code_index (cix s) in
  modp ← erts_get_module mod_ act (mods s);
  match modp with
  | None => Ok (s, badarg)
  | Some modp =>
      x ← get_fields modp act (mods s);
      if code (old x) =? 0 then Ok (s, badarg)
      else
        s ← unload (old x) s;
        m ← update_module modp (curr x) (mkInstance 0 0 (Some BEAM_CATCHES_NIL) None) act (mods s);
        r ← erts_remove_from_ranges (code (old x)) (cix s) (rng s);
        Ok (with_rng r (with_mods m s), am_true)
  end.
(** [ok]: the second argument; another term than true and false is [None]. *)
Definition finish_after_on_load_2 (mod_ : Z) (ok : option bool) (s : code_state) : outcome (code_state * code_result) :=
  let act := the_active_code_index (cix s) in
  modp ← erts_get_module mod_ act (mods s);
  match modp with
  | None => Ok (s, badarg)
  | Some modp =>
      x ← get_fields modp act (mods s);
      if code (curr x) =? 0 then Ok (s, badarg)
      else
        pending ← require (on_load s !! code (curr x));
        if negb pending then Ok (s, badarg)
        else
          match ok with
          | None => Ok (s, badarg)
          | Some true => Ok (with_areas (<[code (curr x) := false]> (on_load s)) (erts_total_code_size s) s, am_true)
          | Some false =>
              s ← unload (curr x) s;
              m ← update_module modp (mkInstance 0 0 (Some BEAM_CATCHES_NIL) (nif (curr x))) (old x) act (mods s);
              r ← erts_remove_from_ranges (code (curr x)) (cix s) (rng s);
              Ok (with_rng r (with_mods m s), am_true)
          end
  end.
(** [check_old_code_1]. *)
Definition check_old_code_1 (mod_ : Z) (s : code_state) : outcome bool :=
  let act := the_active_code_index (cix s) in
  modp ← erts_get_module mod_ act (mods s);
  match modp with None => Ok false | Some modp => x ← get_fields modp act (mods s); Ok (negb (code (old x) =? 0)) end.
(** [module_loaded_1]. *)
Definition module_loaded_1 (mod_ : Z) (s : code_state) : outcome bool :=
  let act := the_active_code_index (cix s) in
  modp ← erts_get_module mod_ act (mods s);
  match modp with
  | None => Ok false
  | Some modp =>
      x ← get_fields modp act (mods s);
      if code (curr x) =? 0 then Ok false else pending ← require (on_load s !! code (curr x)); Ok (negb pending)
  end.
(** The modules that have code, the last one first; [n] of them are left. *)
Fixpoint loaded_loop (n : nat) (i : Z) (ix : ErtsCodeIndex) (m : module_state) (previous : list Z) : outcome (list Z) :=
  match n with
  | O => Ok previous
  | S n =>
      modp ← module_code i ix m;
      x ← get_fields modp ix m;
      loaded_loop n (i + 1) ix m (if negb (code_length (curr x) =? 0) || negb (code_length (old x) =? 0) then module x :: previous else previous)
  end.
(** [loaded_0], without the count of the space. *)
Definition loaded_0 (s : code_state) : outcome (list Z) :=
  let ix := the_active_code_index (cix s) in loaded_loop (Z.to_nat (module_code_size ix (mods s))) 0 ix (mods s) [].
(** After the start, without the preloaded modules. *)
Definition init_code : outcome code_state :=
  m ← init_module_table;
  s ← end_staging true (mkCode erts_code_ix_init beam_catches_init erts_init_ranges m ∅ 0);
  Ok (commit_staging s).
