(* ===== verification/CodeSpec.v ===== *)
(** The specification of the code as a list of modules with up to two versions, the relation
    [code_ok] with the state, and the lemmas about a change in progress. *)

From S2P Require Import Prelude.
From stdpp Require Import base option list gmap.
From S2P Require Import Memory IndexTable CodeIx Catches Ranges Modules CodeLoad.
Local Open Scope Z_scope.

(** ** The code as a list of modules with up to two versions *)
(** A version: its code, and its catches, the last one first, as pairs of an
    index and a handler; is its on_load function still to be run? *)
Record version := mkVersion { v_code : Z; v_size : Z; v_catches : list (Z * Z); v_on_load : bool }.
Record entry := mkEntry { e_module : Z; e_curr : option version; e_old : option version }.
Definition versions_of (e : entry) : list version := option_list (e_curr e) ++ option_list (e_old e).
Definition versions (sp : list entry) : list version := sp ≫= versions_of.
Definition v_range (v : version) : Range := mkRange (v_code v) (v_code v + v_size v).
Definition v_head (v : version) : Z := match v_catches v with (i, _) :: _ => i | [] => BEAM_CATCHES_NIL end.
Definition catch_indices (vs : list version) : list Z := vs ≫= (fun v => (v_catches v).*1).

(** ** The state that represents it *)
Definition instance_rep (c : erl_module_instance) (v : option version) : Prop :=
  match v with
  | None => code c = 0 /\ code_length c = 0
  | Some v => code c = v_code v /\ code_length c = v_size v /\ catches_head c = Some (v_head v)
  end.
Definition module_rep (x : Module) (e : entry) : Prop := module x = e_module e /\ instance_rep (curr x) (e_curr e) /\ instance_rep (old x) (e_old e).
Record version_ok (C : gmap Z beam_catch_t) (areas : gmap Z bool) (v : version) : Prop := {
  vo_code : v_code v <> 0 /\ 0 < v_size v < 2 ^ 31;
  vo_area : areas !! v_code v = Some (v_on_load v);
  vo_linked : linked C (v_head v) (v_catches v).*1;
  vo_handlers : forall i pc, (i, pc) ∈ v_catches v -> (exists s, C !! i = Some s /\ cp s = pc) /\ pc - v_code v < v_size v }.
Definition total_size (vs : list version) : Z := foldr (fun v k => v_size v + k) 0 vs.
(** What the catches, the ranges and the code areas hold for the versions [vs]:
    [C] are the active catches, [n] is a bound on those there were at a time. *)
Record held (s : code_state) (vs : list version) (C : gmap Z beam_catch_t) (n : Z) : Prop := {
  hd_catches : catches_ok (cix s) (cat s) C None n;
  hd_ranges : exists L, ranges_ok (cix s) (rng s) L None /\ L ≡ₚ v_range <$> vs;
  hd_versions : Forall (version_ok C (on_load s)) vs;
  hd_distinct : NoDup (catch_indices vs) /\ NoDup (v_code <$> vs);
  hd_all : (forall i, is_Some (C !! i) -> i ∈ catch_indices vs) /\ (forall a, is_Some (on_load s !! a) -> a ∈ v_code <$> vs);
  hd_size : erts_total_code_size s = w64 (total_size vs) }.
Record code_ok (s : code_state) (sp : list entry) (A : list Module) (C : gmap Z beam_catch_t) (n : Z) : Prop := {
  co_modules : modules_ok (cix s) (mods s) A None;
  co_rep : Forall2 module_rep A sp;
  co_held : held s (versions sp) C n }.

Lemma indices_perm vs vs' : vs ≡ₚ vs' -> catch_indices vs ≡ₚ catch_indices vs'.
Proof. intros P. unfold catch_indices. now rewrite P. Qed.
Lemma total_perm vs vs' : vs ≡ₚ vs' -> total_size vs = total_size vs'.
Proof. unfold total_size. induction 1; cbn; lia. Qed.
Lemma held_perm s vs vs' C n : vs ≡ₚ vs' -> held s vs C n -> held s vs' C n.
Proof.
  intros P [H1 (L & R & E) H3 [H4 H5] [H6 H7] H8]. constructor; auto.
  - exists L. now rewrite <- P.
  - now rewrite <- P.
  - now rewrite <- (indices_perm _ _ P), <- P.
  - split; intros x Hx; [rewrite <- (indices_perm _ _ P)|rewrite <- P]; auto.
  - now rewrite H8, (total_perm _ _ P).
Qed.
(** One entry of the list is changed. *)
Lemma versions_split sp i e : sp !! i = Some e -> exists rest, versions sp ≡ₚ versions_of e ++ rest /\ forall e', versions (<[i := e']> sp) ≡ₚ versions_of e' ++ rest.
Proof.
  intros Hi. exists (versions (take i sp) ++ versions (drop (S i) sp)). unfold versions. split.
  - rewrite <- (take_drop_middle sp i e Hi) at 1. rewrite bind_app. cbn [mbind list_bind]. rewrite !app_assoc. now rewrite (Permutation_app_comm (mbind _ (take i sp))).
  - intros e'. rewrite insert_take_drop by (apply lookup_lt_is_Some; eauto). rewrite bind_app. cbn [mbind list_bind]. rewrite !app_assoc. now rewrite (Permutation_app_comm (mbind _ (take i sp))).
Qed.
Lemma rep_names A sp : Forall2 module_rep A sp -> names A = e_module <$> sp.
Proof. induction 1 as [|x e A sp (H & _) _ IH]; cbn; congruence. Qed.
Lemma version_code_nz C areas v : version_ok C areas v -> v_code v <> 0. Proof. intros [[H _] _ _ _]. exact H. Qed.
Lemma instance_zero C areas c v : instance_rep c v -> (forall w, v = Some w -> version_ok C areas w) -> (code c =? 0) = match v with Some _ => false | None => true end.
Proof.
  destruct v as [v|]; cbn; [|intros [-> _]; auto]. intros (-> & _) H. apply Z.eqb_neq. eapply version_code_nz. apply H. reflexivity.
Qed.
Lemma entry_versions s sp C n i e v : held s (versions sp) C n -> sp !! i = Some e -> v ∈ versions_of e -> version_ok C (on_load s) v.
Proof.
  intros H Hi Hv. destruct (versions_split sp i e Hi) as (rest & P & _). pose proof (hd_versions _ _ _ _ H) as F. rewrite P in F. apply Forall_app in F as [F _].
  rewrite Forall_forall in F. auto.
Qed.
Lemma curr_in e v : e_curr e = Some v -> v ∈ versions_of e.
Proof. unfold versions_of. intros ->. left. Qed.
Lemma old_in e v : e_old e = Some v -> v ∈ versions_of e.
Proof. unfold versions_of. intros ->. apply elem_of_app. right. left. Qed.
Lemma entry_zero s sp C n i x e : held s (versions sp) C n -> sp !! i = Some e -> module_rep x e ->
  (code (curr x) =? 0) = (match e_curr e with Some _ => false | None => true end) /\ (code (old x) =? 0) = (match e_old e with Some _ => false | None => true end).
Proof.
  intros H Hi (_ & Hc & Ho). split; [apply (instance_zero C (on_load s) _ _ Hc)|apply (instance_zero C (on_load s) _ _ Ho)];
    intros w Hw; eapply entry_versions; eauto using curr_in, old_in.
Qed.

(** ** A change in progress *)
Record staged (s : code_state) (A M : list Module) (C D : gmap Z beam_catch_t) (L : list Range) (St : option (list Range)) (n : Z) : Prop := {
  sg_modules : modules_ok (cix s) (mods s) A (Some M);
  sg_catches : catches_ok (cix s) (cat s) C (Some D) n;
  sg_ranges : ranges_ok (cix s) (rng s) L (Some St) }.
Lemma start_spec s sp A C n : code_ok s sp A C n -> exists s1 L, erts_start_staging_code_ix s = Ok s1 /\ staged s1 A A C C L None n /\
  on_load s1 = on_load s /\ erts_total_code_size s1 = erts_total_code_size s /\ L ≡ₚ v_range <$> versions sp.
Proof.
  intros [Hm _ [Hc (L & Hr & El) _ _ _ _]]. unfold erts_start_staging_code_ix. cbn [with_cat cix mods].
  destruct (modules_start _ _ _ Hm) as (m & E & Hm'). rewrite E. cbn [mbind outcome_bind]. eexists _, L. split; [reflexivity|]. splits; auto.
  constructor; cbn; auto.
  - now apply catches_start.
  - apply ranges_start; auto. apply Hm.
Qed.
Lemma abort_spec s A M C L St n : staged s A M C C L St n -> exists s', erts_abort_staging_code_ix s = Ok s' /\
  modules_ok (cix s') (mods s') A None /\ catches_ok (cix s') (cat s') C None n /\ ranges_ok (cix s') (rng s') L None /\
  on_load s' = on_load s /\ erts_total_code_size s' = erts_total_code_size s /\ cix s' = cix s.
Proof.
  intros [Hm Hc Hr]. unfold erts_abort_staging_code_ix, end_staging. cbn [with_cat with_mods cix mods rng].
  destruct (modules_abort _ _ _ _ Hm) as (m & E & Hm'). rewrite E. cbn [mbind outcome_bind].
  destruct (ranges_end (cix s) (rng s) L ltac:(apply Hm) St false Hr) as (r & E2 & Hr'). rewrite E2. cbn [mbind outcome_bind].
  eexists. split; [reflexivity|]. cbn. splits; auto.
  - now apply catches_abort.
  - eapply ranges_abort; eauto.
Qed.
Lemma commit_spec s A M C D L St n : staged s A M C D L St n -> exists s', (s ← erts_end_staging_code_ix s; Ok (commit_staging s)) = Ok s' /\
  modules_ok (cix s') (mods s') M None /\ catches_ok (cix s') (cat s') D None n /\ ranges_ok (cix s') (rng s') (match St with Some l => l | None => L end) None /\
  on_load s' = on_load s /\ erts_total_code_size s' = erts_total_code_size s.
Proof.
  intros [Hm Hc Hr]. unfold erts_end_staging_code_ix, end_staging. cbn [with_cat with_mods cix mods rng].
  unfold module_end_staging. cbn [mbind outcome_bind].
  destruct (ranges_end (cix s) (rng s) L ltac:(apply Hm) St true Hr) as (r & E2 & Hr'). cbn [with_cat with_mods cix mods rng]. rewrite E2. cbn [mbind outcome_bind].
  eexists. split; [reflexivity|]. cbn. splits; auto.
  - eapply modules_commit; eauto.
  - eapply catches_commit; eauto.
  - destruct St as [l|]; eapply ranges_commit; eauto; apply Hm.
Qed.

(** ** Modules in the staged table *)
Definition entry_pos (mod_ : Z) (sp : list entry) : option nat := fst <$> list_find (fun e => e_module e = mod_) sp.
Lemma pos_rep k A sp : Forall2 module_rep A sp -> pos k A = entry_pos k sp.
Proof.
  unfold pos, entry_pos. induction 1 as [|x e A sp (H & _) _ IH]; auto. cbn [list_find]. rewrite H. destruct (decide (e_module e = k)); auto.
  destruct (list_find _ A) as [[]|], (list_find _ sp) as [[]|]; cbn in *; congruence.
Qed.
Lemma rep_at A sp i x : Forall2 module_rep A sp -> A !! i = Some x -> exists e, sp !! i = Some e /\ module_rep x e.
Proof. intros H Hx. destruct (Forall2_lookup_l _ _ _ _ _ H Hx) as (e & ? & ?). eauto. Qed.
Lemma points_get t p i M x s ix : points t p i M -> t = at_ix ix (module_tables s) -> M !! i = Some x -> get_fields p ix s = Ok x.
Proof.
  intros (l & d & R & <- & _ & Hi) -> Hx. rewrite list_lookup_fmap, Hi in Hx. injection Hx as <-. unfold get_fields.
  destruct (slot_lookup_spec _ _ _ _ _ R Hi) as (_ & b & -> & <-). reflexivity.
Qed.
Notation same_areas s s' := (on_load s' = on_load s /\ erts_total_code_size s' = erts_total_code_size s).
(** The module [p] at the position [i] of a change, with what it represents. *)
Record at_module (s : code_state) (A M : list Module) (sp : list entry) C D L St n (p : ptr) (i : nat) (e : entry) : Prop := {
  am_staged : staged s A M C D L St n;
  am_points : points (at_ix (stg s) (module_tables (mods s))) p i M;
  am_rep : Forall2 module_rep M sp;
  am_entry : sp !! i = Some e }.
Lemma at_module_get s A M sp C D L St n p i e : at_module s A M sp C D L St n p i e ->
  exists x, M !! i = Some x /\ module_rep x e /\ get_fields p (stg s) (mods s) = Ok x.
Proof.
  intros [Hs Hp Hr He]. destruct (Forall2_lookup_r _ _ _ _ _ Hr He) as (x & Hx & Hrep). exists x. splits; auto. eapply points_get; eauto.
Qed.
Lemma at_module_update s A M sp C D L St n p i e x c o cv ov : at_module s A M sp C D L St n p i e -> M !! i = Some x ->
  instance_rep c cv -> instance_rep o ov -> let e' := mkEntry (e_module e) cv ov in
  exists m M', update_module p c o (stg s) (mods s) = Ok m /\ at_module (with_mods m s) A M' (<[i := e']> sp) C D L St n p i e' /\ length M' = length M.
Proof.
  intros [[Hm Hc Hg] Hp Hr He] Hx Rc Ro e'. destruct (update_spec p i (stg s) (mods s) M c o x Hp Hx) as (m & E & Em & Hp').
  set (y := mkModule (m_index x) (module x) c o) in *. exists m, (<[i := y]> M). split; auto. split; [|apply length_insert].
  assert (Hn : names (<[i := y]> M) = names M) by (rewrite list_fmap_insert, list_insert_id; auto; now rewrite list_lookup_fmap, Hx).
  constructor; cbn [with_mods cix mods]; auto.
  - constructor; cbn [with_mods cix mods cat rng]; auto. refine (modules_staged _ _ _ _ _ _ Hm Em (points_ok _ _ _ _ Hp') _). rewrite Hn. apply Hm.
  - apply Forall2_insert; auto. destruct (rep_at _ _ _ _ Hr Hx) as (e1 & He1 & (H1 & _)). assert (e1 = e) as -> by congruence. unfold module_rep. splits; auto.
  - apply list_lookup_insert_eq. apply lookup_lt_is_Some. eauto.
Qed.
Definition touch (mod_ : Z) (sp : list entry) : list entry := match entry_pos mod_ sp with Some _ => sp | None => sp ++ [mkEntry mod_ None None] end.
Lemma touch_versions k sp : versions (touch k sp) = versions sp.
Proof. unfold touch. destruct (entry_pos k sp); auto. unfold versions. rewrite bind_app. cbn. now rewrite app_nil_r. Qed.
Lemma entry_pos_Some k sp i : entry_pos k sp = Some i -> exists e, sp !! i = Some e /\ e_module e = k.
Proof. unfold entry_pos. destruct (list_find _ sp) as [[j x]|] eqn:E; [|discriminate]. intros [= <-]. apply list_find_Some in E as (? & ? & _). eauto. Qed.
Lemma entry_pos_app k sp e : entry_pos k sp = None -> e_module e = k -> entry_pos k (sp ++ [e]) = Some (length sp).
Proof.
  unfold entry_pos. intros N Hk. destruct (list_find _ sp) as [[j x]|] eqn:E; [discriminate|]. rewrite list_find_app_r by auto. cbn. rewrite decide_True by auto. cbn. f_equal; lia.
Qed.
Lemma put_staged k s A M sp C D L St n : staged s A M C D L St n -> Forall2 module_rep M sp -> Z.of_nat (length sp) < MODULE_LIMIT ->
  exists s' M' p i e, put_module k s = Ok (s', p) /\ at_module s' A M' (touch k sp) C D L St n p i e /\ same_areas s s' /\
    entry_pos k (touch k sp) = Some i /\ e_module e = k.
Proof.
  intros Sg Hr Hl. pose proof Sg as [Hm Hc Hg]. pose proof Hm as [_ _ _ (Ht & Hn & _)].
  pose proof (put_spec k (cix s) (mods s) M Ht) as P. rewrite (pos_rep k M sp Hr) in P. unfold put_module, touch. destruct (entry_pos k sp) as [i|] eqn:Ep.
  - destruct P as (p & E & Hp). rewrite E. cbn [mbind outcome_bind]. destruct (entry_pos_Some _ _ _ Ep) as (e & He & Ek). exists (with_mods (mods s) s), M, p, i, e. splits; auto.
    constructor; auto. constructor; auto.
  - pose proof (Forall2_length _ _ _ Hr) as Hlen. destruct P as [[_ P]|(m & p & E & Em & Hp)]; [lia|]. rewrite E. cbn [mbind outcome_bind].
    exists (with_mods m s), (M ++ [new_module (length M) k]), p, (length M), (mkEntry k None None). splits; auto.
    + constructor; auto; cbn [with_mods cix mods].
      * constructor; auto. refine (modules_staged _ _ _ _ _ _ Hm Em (points_ok _ _ _ _ Hp) _). rewrite fmap_app. etrans; [exact Hn|]. now apply prefix_app_r.
      * apply Forall2_app; auto. constructor; [|constructor]. unfold module_rep, instance_rep. cbn. splits; reflexivity.
      * rewrite Hlen, lookup_app_r, Nat.sub_diag by lia. reflexivity.
    + rewrite Hlen. now apply entry_pos_app.
Qed.
Lemma put_again k s A M sp C D L St n p i e : at_module s A M sp C D L St n p i e -> entry_pos k sp = Some i ->
  exists s' q, put_module k s = Ok (s', q) /\ at_module s' A M sp C D L St n q i e /\ same_areas s s'.
Proof.
  intros [Sg Hp Hr He] Ep. pose proof Sg as [Hm Hc Hg]. pose proof Hm as [_ _ _ (Ht & Hn & _)].
  pose proof (put_spec k (cix s) (mods s) M Ht) as P. rewrite (pos_rep k M sp Hr), Ep in P. destruct P as (q & E & Hq). unfold put_module. rewrite E. cbn [mbind outcome_bind].
  exists (with_mods (mods s) s), q. splits; auto. constructor; auto. constructor; auto.
Qed.
