(* ===== verification/CodeOps.v ===== *)
(** What loading, unloading, deleting and purging do to the represented list, and the result of
    on_load functions, which change the active table. *)

From S2P Require Import Prelude.
From stdpp Require Import base option list gmap.
From S2P Require Import Memory IndexTable CodeIx Catches Ranges Modules CodeLoad CodeSpec.
Local Open Scope Z_scope.

Notation same_areas s s' := (on_load s' = on_load s /\ erts_total_code_size s' = erts_total_code_size s).

(** ** The catches of a module that is loaded *)
Lemma linked_sub D D' h l : linked D h l -> D ⊆ D' -> linked D' h l.
Proof.
  intros H Hs. eapply linked_ext; eauto. intros i Hi. destruct (linked_dom _ _ _ _ H Hi) as [x Hx]. rewrite Hx. eapply lookup_weaken; eauto.
Qed.
Record loaded (D D' : gmap Z beam_catch_t) (cs : list (Z * Z)) : Prop := {
  ld_sub : D ⊆ D';
  ld_new : forall i, i ∈ cs.*1 -> D !! i = None;
  ld_cp : forall i pc, (i, pc) ∈ cs -> exists x, D' !! i = Some x /\ cp x = pc;
  ld_all : forall i, is_Some (D' !! i) -> is_Some (D !! i) \/ i ∈ cs.*1 }.
Lemma cons_catches_spec ix A pcs : forall last l c D n, catches_ok ix c A (Some D) n -> linked D last l -> NoDup l -> n + Z.of_nat (length pcs) < 2 ^ 30 ->
  exists c' h cs D', cons_catches ix pcs last c = Ok (c', h, cs) /\ catches_ok ix c' A (Some D') (n + Z.of_nat (length pcs)) /\
    cs.*2 = pcs /\ linked D' h (rev cs.*1 ++ l) /\ NoDup (rev cs.*1 ++ l) /\ loaded D D' cs.
Proof.
  induction pcs as [|pc pcs IH]; intros last l c D n H Hl Nd Hn; cbn [cons_catches].
  - exists c, last, [], D. cbn. rewrite Z.add_0_r. splits; auto. constructor; auto; intros *; try (intros ?%elem_of_nil; tauto); auto.
  - cbn [length] in Hn. destruct (catches_cons ix c A D n pc last H) as (c1 & i & -> & Hi & Di & H1); [lia|]. cbn [mbind outcome_bind].
    set (x := mkCatch pc last) in *. assert (S1 : D ⊆ <[i := x]> D) by now apply insert_subseteq.
    assert (Ni : i ∉ l) by (intros Hin; destruct (linked_dom _ _ _ _ Hl Hin); congruence).
    destruct (IH i (i :: l) c1 (<[i := x]> D) (n + 1) H1) as (c' & h & cs & D' & -> & H2 & Ep & Lk & Nd2 & [L1 L2 L3 L4]).
    + cbn [linked]. split; auto. exists x. rewrite lookup_insert_eq. split; auto. eapply linked_sub; eauto.
    + now constructor.
    + lia.
    + cbn [mbind outcome_bind]. exists c', h, ((i, pc) :: cs), D'. cbn [fmap list_fmap fst snd rev]. rewrite <- app_assoc. cbn [app length].
      replace (n + Z.of_nat (S (length pcs))) with (n + 1 + Z.of_nat (length pcs)) by lia. splits; auto; [now f_equal|]. constructor.
      * etrans; eauto.
      * intros j [->|Hj]%elem_of_cons; auto. apply L2 in Hj. now apply lookup_insert_None in Hj.
      * intros j q [[= -> ->]|Hj]%elem_of_cons; eauto. exists x. split; auto. eapply lookup_weaken; [apply lookup_insert_eq|exact L1].
      * intros j Hj. destruct (L4 j Hj) as [Hs|Hs]; [|right; now right]. destruct (decide (j = i)) as [->|N]; [right; left|]. rewrite lookup_insert_ne in Hs by auto. auto.
Qed.

(** ** The specification *)
Definition new_version (ls : LoaderState) (cs : list (Z * Z)) : version := mkVersion (ls_code ls) (loaded_size ls) (rev cs) (ls_on_load ls).
Definition older (e : entry) : option version := match e_old e with None => e_curr e | Some v => Some v end.
Lemma entry_pos_insert k sp i e e' : sp !! i = Some e -> e_module e' = e_module e -> entry_pos k (<[i := e']> sp) = entry_pos k sp.
Proof.
  revert i. unfold entry_pos. induction sp as [|a sp IH]; intros i Hi Hm; [now rewrite lookup_nil in Hi|]. destruct i as [|i]; cbn in *.
  - injection Hi as ->. rewrite Hm. now destruct (decide (e_module e = k)).
  - specialize (IH i Hi Hm). destruct (decide (e_module a = k)); auto. change (alter (λ _ : entry, e') i sp) with (<[i:=e']> sp).
    destruct (list_find _ (<[i := e']> sp)) as [[]|], (list_find _ sp) as [[]|]; cbn in *; congruence.
Qed.
Lemma delete_code_spec s A M sp C D L St n p i e : at_module s A M sp C D L St n p i e ->
  let e' := mkEntry (e_module e) None (e_curr e) in
  exists s' M', delete_code p s = Ok s' /\ at_module s' A M' (<[i := e']> sp) C D L St n p i e' /\ same_areas s s'.
Proof.
  intros Am e'. unfold delete_code. destruct (at_module_get _ _ _ _ _ _ _ _ _ _ _ _ Am) as (x & Hx & (_ & Hc & _) & ->). cbn [mbind outcome_bind].
  destruct (at_module_update _ _ _ _ _ _ _ _ _ _ _ _ x (mkInstance 0 0 (Some BEAM_CATCHES_NIL) None) (curr x) None (e_curr e) Am Hx (conj eq_refl eq_refl) Hc) as (m & M' & -> & Am' & _).
  cbn [mbind outcome_bind]. eauto 10.
Qed.
Lemma list_insert_twice {A} (l : list A) i x y : <[i := x]> (<[i := y]> l) = <[i := x]> l.
Proof. apply list_insert_insert_eq. Qed.
Lemma make_current_old_spec k s A M sp C D L St n p i e : at_module s A M sp C D L St n p i e -> entry_pos k sp = Some i ->
  e_curr e = None \/ e_old e = None -> (forall x, module_rep x e -> (code (curr x) =? 0) = (match e_curr e with Some _ => false | None => true end) /\ (code (old x) =? 0) = (match e_old e with Some _ => false | None => true end)) ->
  let e' := mkEntry (e_module e) None (older e) in
  exists s' M' q, beam_make_current_old k s = Ok (s', false) /\ at_module s' A M' (<[i := e']> sp) C D L St n q i e' /\ same_areas s s'.
Proof.
  intros Am Ep Hnot Hz e'. unfold beam_make_current_old. destruct (put_again k _ _ _ _ _ _ _ _ _ _ _ _ Am Ep) as (s1 & q & -> & Am1 & S1 & S2). cbn [mbind outcome_bind].
  destruct (at_module_get _ _ _ _ _ _ _ _ _ _ _ _ Am1) as (x & Hx & Rx & ->). cbn [mbind outcome_bind]. destruct (Hz x Rx) as [-> ->].
  destruct (e_old e) as [o|] eqn:Eo.
  - assert (Ec : e_curr e = None) by (destruct Hnot; [auto|discriminate]). rewrite Ec. cbn [negb andb]. exists s1, M, q.
    assert (e' = e) as -> by (subst e'; unfold older; rewrite Eo; destruct e; cbn in *; congruence). rewrite list_insert_id by apply Am1. auto.
  - rewrite andb_false_r. destruct (delete_code_spec _ _ _ _ _ _ _ _ _ _ _ _ Am1) as (s2 & M' & -> & Am2 & S3 & S4). cbn [mbind outcome_bind].
    exists s2, M', q. subst e'. unfold older. rewrite Eo. splits; auto; congruence.
Qed.
Definition zeros (e : entry) : Prop := forall x, module_rep x e ->
  (code (curr x) =? 0) = (match e_curr e with Some _ => false | None => true end) /\ (code (old x) =? 0) = (match e_old e with Some _ => false | None => true end).
Definition ls_range (ls : LoaderState) : Range := mkRange (ls_code ls) (ls_code ls + loaded_size ls).
Lemma insert_new_code_spec ls s A M sp C D L n p i e : at_module s A M sp C D L None n p i e -> entry_pos (ls_module ls) sp = Some i ->
  e_curr e = None \/ e_old e = None -> zeros e -> 0 < loaded_size ls < 2 ^ 31 -> (forall b, b ∈ L -> apart (ls_range ls) b \/ apart b (ls_range ls)) ->
  let e' := mkEntry (e_module e) (Some (new_version ls [])) (older e) in
  exists s' M' q, insert_new_code ls s = Ok (s', false) /\ at_module s' A M' (<[i := e']> sp) C D L (Some (ls_range ls :: L)) n q i e' /\
    on_load s' = <[ls_code ls := ls_on_load ls]> (on_load s) /\ erts_total_code_size s' = w64 (erts_total_code_size s + loaded_size ls).
Proof.
  intros Am Ep Hnot Hz Hs Hf e'. unfold insert_new_code.
  destruct (make_current_old_spec (ls_module ls) _ _ _ _ _ _ _ _ _ _ _ _ Am Ep Hnot Hz) as (s1 & M1 & q1 & -> & Am1 & S1 & S2). cbn [mbind outcome_bind].
  set (s2 := with_areas _ _ s1). assert (Am2 : at_module s2 A M1 (<[i := mkEntry (e_module e) None (older e)]> sp) C D L None n q1 i (mkEntry (e_module e) None (older e))).
  { destruct Am1 as [[Hm Hc Hg] H2 H3 H4]. constructor; auto. constructor; auto. }
  assert (Ep2 : entry_pos (ls_module ls) (<[i := mkEntry (e_module e) None (older e)]> sp) = Some i) by (rewrite (entry_pos_insert _ _ _ e); auto; apply Am).
  destruct (put_again (ls_module ls) _ _ _ _ _ _ _ _ _ _ _ _ Am2 Ep2) as (s3 & q & -> & Am3 & S3 & S4). cbn [mbind outcome_bind].
  destruct (at_module_get _ _ _ _ _ _ _ _ _ _ _ _ Am3) as (x & Hx & (_ & _ & Ro) & ->). cbn [mbind outcome_bind].
  destruct (at_module_update _ _ _ _ _ _ _ _ _ _ _ _ x (mkInstance (ls_code ls) (s32 (loaded_size ls)) (Some BEAM_CATCHES_NIL) (nif (curr x))) (old x) (Some (new_version ls [])) (older e) Am3 Hx) as (m & M' & -> & Am4 & _); auto.
  { cbn [instance_rep]. cbn. rewrite s32_id by lia. auto. }
  cbn [mbind outcome_bind e_module] in *. rewrite list_insert_twice in Am4. set (s4 := with_mods m s3) in *. destruct Am4 as [[Hm Hc Hg] H2 H3 H4].
  destruct (ranges_update (cix s4) (rng s4) L ltac:(apply Hm) (ls_code ls) (loaded_size ls) Hg ltac:(lia)) as (r & -> & Hr).
  { intros l T. eapply clear_of_live; eauto. }
  cbn [mbind outcome_bind]. exists (with_rng r s4), M', q. splits; auto.
  - constructor; auto. constructor; auto.
  - cbn. rewrite S3. cbn. now rewrite S1.
  - cbn. rewrite S4. cbn. now rewrite S2.
Qed.
Lemma linked_head D h l : linked D h l -> h = match l with i :: _ => i | [] => BEAM_CATCHES_NIL end.
Proof. destruct l as [|i l]; cbn; [auto|]. now intros [-> _]. Qed.
Lemma final_touch_spec ls s A M sp C D L St n p i e : at_module s A M sp C D L St n p i e -> entry_pos (ls_module ls) sp = Some i ->
  e_curr e = Some (new_version ls []) -> n + Z.of_nat (length (ls_catches ls)) < 2 ^ 30 ->
  exists s' M' q cs D', let e' := mkEntry (e_module e) (Some (new_version ls cs)) (e_old e) in
    final_touch ls s = Ok (s', cs) /\ at_module s' A M' (<[i := e']> sp) C D' L St (n + Z.of_nat (length (ls_catches ls))) q i e' /\ same_areas s s' /\
    cs.*2 = ls_catches ls /\ linked D' (v_head (new_version ls cs)) (v_catches (new_version ls cs)).*1 /\ NoDup (cs.*1) /\ loaded D D' cs.
Proof.
  intros Am Ep Ec Hn. unfold final_touch. destruct Am as [[Hm Hc Hg] H2 H3 H4].
  destruct (cons_catches_spec (cix s) C (ls_catches ls) BEAM_CATCHES_NIL [] (cat s) D n Hc) as (c' & h & cs & D' & -> & Hc' & Epc & Lk & Nd & Ld); auto; [reflexivity|constructor|].
  rewrite app_nil_r in Lk, Nd. cbn [mbind outcome_bind]. set (s1 := with_cat c' s).
  assert (Am1 : at_module s1 A M sp C D' L St (n + Z.of_nat (length (ls_catches ls))) p i e) by (constructor; auto; constructor; auto).
  destruct (put_again (ls_module ls) _ _ _ _ _ _ _ _ _ _ _ _ Am1 Ep) as (s2 & q & -> & Am2 & S1 & S2). cbn [mbind outcome_bind].
  destruct (at_module_get _ _ _ _ _ _ _ _ _ _ _ _ Am2) as (x & Hx & (_ & Rc & Ro) & ->). cbn [mbind outcome_bind]. rewrite Ec in Rc. destruct Rc as (R1 & R2 & _).
  assert (Eh : v_head (new_version ls cs) = h).
  { rewrite (linked_head _ _ _ Lk). unfold v_head, new_version. cbn [v_catches]. rewrite <- map_rev. now destruct (rev cs) as [|[]]. }
  destruct (at_module_update _ _ _ _ _ _ _ _ _ _ _ _ x (mkInstance (code (curr x)) (code_length (curr x)) (Some h) (nif (curr x))) (old x) (Some (new_version ls cs)) (e_old e) Am2 Hx) as (m & M' & -> & Am3 & _); auto.
  { cbn [instance_rep]. rewrite Eh. splits; auto. }
  cbn [mbind outcome_bind]. exists (with_mods m s2), M', q, cs, D'. cbv zeta. splits; auto.
  - rewrite Eh. cbn [new_version v_catches]. change (rev cs).*1 with (map fst (rev cs)). now rewrite map_rev.
  - rewrite <- (Permutation.Permutation_rev cs.*1) in Nd. auto.
Qed.

(** The address of the code is not in use, and the handlers are in the code. *)
Record fresh_code (ls : LoaderState) (sp : list entry) : Prop := {
  fc_size : ls_code ls <> 0 /\ 0 < loaded_size ls < 2 ^ 31;
  fc_apart : forall v, v ∈ versions sp -> apart (ls_range ls) (v_range v) \/ apart (v_range v) (ls_range ls);
  fc_handlers : Forall (fun pc => pc - ls_code ls < loaded_size ls) (ls_catches ls) }.
Definition fresh_catches (cs : list (Z * Z)) (pcs : list Z) (sp : list entry) : Prop :=
  cs.*2 = pcs /\ NoDup cs.*1 /\ forall i, i ∈ cs.*1 -> i ∉ catch_indices (versions sp).
Definition blocked (e : entry) : bool := match e_curr e, e_old e with Some _, Some _ => true | _, _ => false end.
Definition loaded_entry (ls : LoaderState) (cs : list (Z * Z)) (e : entry) : entry := mkEntry (e_module e) (Some (new_version ls cs)) (older e).

Lemma held_same s s' vs C n L : held s vs C n -> catches_ok (cix s') (cat s') C None n -> ranges_ok (cix s') (rng s') L None -> L ≡ₚ v_range <$> vs ->
  same_areas s s' -> held s' vs C n.
Proof. intros [H1 H2 H3 H4 [H5 H6] H7] Hc Hr El [E1 E2]. constructor; rewrite ?E1, ?E2; eauto. Qed.
Lemma version_ok_mono C C' areas areas' v : version_ok C areas v -> C ⊆ C' -> areas' !! v_code v = areas !! v_code v -> version_ok C' areas' v.
Proof.
  intros [H1 H2 H3 H4] Hs Ha. constructor; auto; [now rewrite Ha|eapply linked_sub; eauto|]. intros i pc Hin. destruct (H4 i pc Hin) as [(x & Hx & Ep) Hb]. split; auto.
  exists x. split; auto. eapply lookup_weaken; eauto.
Qed.
(** A new version. *)
Lemma held_load s s' sp C C' n n' ls cs L : let vs := versions sp in held s vs C n -> fresh_code ls sp ->
  catches_ok (cix s') (cat s') C' None n' -> ranges_ok (cix s') (rng s') L None -> L ≡ₚ ls_range ls :: (v_range <$> vs) ->
  on_load s' = <[ls_code ls := ls_on_load ls]> (on_load s) -> erts_total_code_size s' = w64 (erts_total_code_size s + loaded_size ls) ->
  cs.*2 = ls_catches ls -> linked C' (v_head (new_version ls cs)) (v_catches (new_version ls cs)).*1 -> NoDup cs.*1 -> loaded C C' cs ->
  held s' (new_version ls cs :: vs) C' n'.
Proof.
  intros vs [Hc _ Hv [Hd Hk] [Ha Hb] Hsz] [[Fz Fs] Fa Fh] Hc' Hr El Eo Et Ep Lk Nd [L1 L2 L3 L4].
  assert (Ne : forall v, v ∈ vs -> v_code v <> ls_code ls).
  { intros v Hin E. rewrite Forall_forall in Hv. destruct (vo_code _ _ _ (Hv v Hin)) as [_ Hs]. destruct (Fa v Hin) as [A|A]; unfold apart, ls_range, v_range in A; cbn in A; lia. }
  constructor; auto.
  - exists L. auto.
  - constructor.
    + constructor; cbn [new_version v_code v_size v_catches v_on_load]; auto.
      * rewrite Eo. apply lookup_insert_eq.
      * intros i pc Hin. apply list_elem_of_In, in_rev, list_elem_of_In in Hin. split; [auto|]. rewrite Forall_forall in Fh. apply Fh. rewrite <- Ep. apply list_elem_of_fmap. exists (i, pc). auto.
    + rewrite Forall_forall in *. intros v Hin. apply (version_ok_mono C C' (on_load s)); auto. rewrite Eo. apply lookup_insert_ne. apply not_eq_sym. auto.
  - split.
    + unfold catch_indices. cbn [mbind list_bind new_version v_catches]. apply NoDup_app. splits; auto.
      * change (rev cs).*1 with (map fst (rev cs)). rewrite map_rev, <- (Permutation.Permutation_rev (map fst cs)). exact Nd.
      * intros i Hi Hin. change (rev cs).*1 with (map fst (rev cs)) in Hi. rewrite map_rev, <- (Permutation.Permutation_rev (map fst cs)) in Hi. apply L2 in Hi.
        apply list_elem_of_bind in Hin as (v & Hin & Hvs). apply list_elem_of_fmap in Hin as ([j pc] & -> & Hj). rewrite Forall_forall in Hv.
        destruct (vo_handlers _ _ _ (Hv v Hvs) j pc Hj) as [(x & Hx & _) _]. cbn in Hi. congruence.
    + cbn. constructor; auto. intros Hin. apply list_elem_of_fmap in Hin as (v & E & Hin). eapply Ne; eauto.
  - split.
    + intros i Hi. unfold catch_indices. cbn [mbind list_bind new_version v_catches]. apply elem_of_app. destruct (L4 i Hi) as [H|H]; [right; now apply Ha|left].
      change (rev cs).*1 with (map fst (rev cs)). rewrite map_rev, <- (Permutation.Permutation_rev (map fst cs)). exact H.
    + intros a. rewrite Eo. cbn [fmap list_fmap]. rewrite elem_of_cons. cbn. destruct (decide (a = ls_code ls)) as [->|N]; [auto|]. rewrite lookup_insert_ne by auto. auto.
  - rewrite Et, Hsz. unfold total_size, w64. cbn. lia.
Qed.

Lemma older_versions e ls cs : blocked e = false -> versions_of (loaded_entry ls cs e) ≡ₚ new_version ls cs :: versions_of e.
Proof. unfold blocked, versions_of, loaded_entry, older. destruct (e_curr e), (e_old e); cbn; try discriminate; intros _; reflexivity. Qed.
Lemma entry_zeros s sp C n i e : held s (versions sp) C n -> sp !! i = Some e -> zeros e.
Proof. intros H Hi x Hx. eapply entry_zero; eauto. Qed.
Lemma load_spec s sp A C n ls : code_ok s sp A C n -> fresh_code ls sp -> Z.of_nat (length sp) < MODULE_LIMIT -> n + Z.of_nat (length (ls_catches ls)) < 2 ^ 30 ->
  exists i e, touch (ls_module ls) sp !! i = Some e /\ entry_pos (ls_module ls) (touch (ls_module ls) sp) = Some i /\ e_module e = ls_module ls /\
  exists s' res cs sp', finish_loading_1 (Some [ls]) s = Ok (s', res, cs) /\
    (exists A' C', code_ok s' sp' A' C' (n + Z.of_nat (length (ls_catches ls)))) /\
    (if blocked e then res = am_not_purged (ls_module ls) /\ cs = [] /\ sp' = sp
     else res = (if ls_on_load ls then am_on_load (ls_module ls) else am_ok) /\ fresh_catches cs (ls_catches ls) sp /\ sp' = <[i := loaded_entry ls cs e]> (touch (ls_module ls) sp)).
Proof.
  intros Co F Hl Hn. destruct (start_spec _ _ _ _ _ Co) as (s1 & L & E1 & Sg & S1 & S2 & El). pose proof Co as [Hm Hr Hh].
  destruct (put_staged (ls_module ls) _ _ _ _ _ _ _ _ _ Sg Hr Hl) as (s2 & M & p & i & e & E2 & Am & [S3 S4] & Ep & Em).
  exists i, e. splits; auto; [apply Am|]. unfold finish_loading_1. rewrite E1. cbn [mbind outcome_bind]. rewrite E2. cbn [mbind outcome_bind].
  destruct (at_module_get _ _ _ _ _ _ _ _ _ _ _ _ Am) as (x & Hx & Rx & ->). cbn [mbind outcome_bind].
  rewrite <- (touch_versions (ls_module ls)) in Hh. pose proof (entry_zeros _ _ _ _ _ _ Hh (am_entry _ _ _ _ _ _ _ _ _ _ _ _ Am)) as Hz. destruct (Hz x Rx) as [-> ->]. rewrite touch_versions in Hh.
  destruct (blocked e) eqn:Eb.
  - assert (Ec : negb match e_curr e with Some _ => false | None => true end && negb match e_old e with Some _ => false | None => true end = true) by (unfold blocked in Eb; destruct (e_curr e), (e_old e); auto).
    rewrite Ec. destruct (abort_spec _ _ _ _ _ _ _ (am_staged _ _ _ _ _ _ _ _ _ _ _ _ Am)) as (s3 & -> & H1 & H2 & H3 & S5 & S6 & _). cbn [mbind outcome_bind].
    exists s3, (am_not_purged (ls_module ls)), [], sp. splits; auto. exists A, C. constructor; auto.
    apply (held_same s s3 _ C _ L); auto; [|eapply catches_mono; eauto; lia|split; congruence].
    destruct Hh as [Hc R1 R2 R3 R4 R5]. constructor; auto. eapply catches_mono; eauto. lia.
  - assert (Hnot : e_curr e = None \/ e_old e = None) by (unfold blocked in Eb; destruct (e_curr e), (e_old e); auto; discriminate).
    assert (Ec : negb match e_curr e with Some _ => false | None => true end && negb match e_old e with Some _ => false | None => true end = false) by (destruct Hnot as [-> | ->]; auto using andb_false_r).
    rewrite Ec. unfold erts_finish_loading.
    destruct (insert_new_code_spec ls _ _ _ _ _ _ _ _ _ _ _ Am Ep Hnot Hz) as (s3 & M3 & q3 & -> & Am3 & S5 & S6); [apply F| |].
    { intros b Hb. rewrite El in Hb. apply list_elem_of_fmap in Hb as (v & -> & Hv). now apply (fc_apart _ _ F). }
    cbn [mbind outcome_bind]. assert (Ep3 : entry_pos (ls_module ls) (<[i := mkEntry (e_module e) (Some (new_version ls [])) (older e)]> (touch (ls_module ls) sp)) = Some i).
    { rewrite (entry_pos_insert _ _ _ e); auto. apply Am. }
    destruct (final_touch_spec ls _ _ _ _ _ _ _ _ _ _ _ _ Am3 Ep3 eq_refl Hn) as (s4 & M4 & q4 & cs & D & -> & Am4 & [S7 S8] & Ec1 & Lk & Nd & Ld).
    cbn [mbind outcome_bind require e_module e_old] in *. rewrite list_insert_twice in Am4.
    destruct (commit_spec _ _ _ _ _ _ _ _ (am_staged _ _ _ _ _ _ _ _ _ _ _ _ Am4)) as (s5 & E5 & H1 & H2 & H3 & S9 & S10).
    destruct (erts_end_staging_code_ix s4) as [s4'| |]; try discriminate. injection E5 as <-. cbn [mbind outcome_bind].
    eexists _, _, cs, _. split; [reflexivity|]. split; [|splits; [reflexivity| |reflexivity]].
    + exists M4, D. constructor; auto; [apply Am4|]. destruct (versions_split (touch (ls_module ls) sp) i e (am_entry _ _ _ _ _ _ _ _ _ _ _ _ Am)) as (rest & P1 & P2).
      apply (held_perm _ (new_version ls cs :: versions sp)).
      * rewrite P2. rewrite <- (touch_versions (ls_module ls) sp), P1. change (mkEntry (e_module e) (Some (new_version ls cs)) (older e)) with (loaded_entry ls cs e).
        now rewrite (older_versions e ls cs Eb).
      * refine (held_load s _ sp C D n _ ls cs (ls_range ls :: L) Hh F H2 H3 _ _ _ Ec1 Lk Nd Ld); [now rewrite El|congruence|congruence].
    + split; [auto|]. split; [auto|]. intros i0 Hi0 Hin. apply (ld_new _ _ _ Ld) in Hi0. apply list_elem_of_bind in Hin as (v & Hin & Hvs). apply list_elem_of_fmap in Hin as ([j pc] & -> & Hj).
      pose proof (hd_versions _ _ _ _ Hh) as Hv. rewrite Forall_forall in Hv. destruct (vo_handlers _ _ _ (Hv v Hvs) j pc Hj) as [(y & Hy & _) _]. cbn in Hi0. congruence.
Qed.

(** ** Unloading *)
Lemma version_ok_shrink C areas l a v : version_ok C areas v -> (forall i, i ∈ (v_catches v).*1 -> i ∉ l) -> v_code v <> a -> version_ok (remove_keys l C) (delete a areas) v.
Proof.
  intros [H1 H2 H3 H4] Hd Ha. constructor; auto.
  - rewrite lookup_delete_ne; auto.
  - eapply linked_ext; eauto. intros i Hi. rewrite remove_lookup, decide_False; auto.
  - intros i pc Hin. destruct (H4 i pc Hin) as [(x & Hx & Ep) Hb]. split; auto. exists x. rewrite remove_lookup, decide_False; auto. apply Hd. apply list_elem_of_fmap. exists (i, pc). auto.
Qed.
Lemma unload_spec s v vs C n c : held s (v :: vs) C n -> instance_rep c (Some v) ->
  exists s', unload c s = Ok s' /\ mods s' = mods s /\ cix s' = cix s /\ exists r, erts_remove_from_ranges (code c) (cix s') (rng s') = Ok r /\
    forall m, held (with_rng r (with_mods m s')) vs (remove_keys (v_catches v).*1 C) n.
Proof.
  intros [Hc (L & Hr & El) Hv [Hd Hk] [Ha Hb] Hsz] (R1 & R2 & R3). inversion Hv as [|? ? V Vs]; subst. unfold catch_indices in Hd. cbn [mbind list_bind] in Hd. apply NoDup_app in Hd as (Hd1 & Hd2 & Hd3).
  cbn [fmap list_fmap] in Hk, El. apply NoDup_cons in Hk as [Hk1 Hk2]. destruct V as [V1 V2 V3 V4]. unfold unload. rewrite R1, R2, R3, (u32_id (v_size v)) by lia. cbn [mbind outcome_bind require].
  destruct (catches_delmod _ _ _ _ (v_head v) (v_code v) (v_size v) _ Hc V3 Hd1) as (c' & -> & Hc').
  { intros i x Hi Hx. apply list_elem_of_fmap in Hi as ([j pc] & -> & Hin). destruct (V4 j pc Hin) as [(y & Hy & <-) Hlt]. cbn in Hx. congruence. }
  cbn [mbind outcome_bind]. eexists. split; [reflexivity|]. splits; auto. cbn [cix rng with_areas with_cat].
  destruct (remove_range_spec (cix s) (rng s) L (v_range v) Hr) as (r & L' & Er & Hr' & El'); [rewrite El; left|]. exists r. split; [exact Er|].
  intros m. constructor; cbn [cix cat rng on_load erts_total_code_size with_rng with_mods with_areas with_cat]; auto.
  - exists L'. split; auto. apply (Permutation_cons_inv (a := v_range v)). now rewrite <- El', El.
  - rewrite Forall_forall in *. intros w Hw. apply version_ok_shrink; auto.
    + intros i Hi Hin. apply (Hd2 i Hin). apply list_elem_of_bind. eauto.
    + intros E. apply Hk1. rewrite <- E. apply list_elem_of_fmap. eauto.
  - split.
    + intros i [x Hx]. rewrite remove_lookup in Hx. destruct (decide (i ∈ (v_catches v).*1)) as [|N]; [discriminate|]. specialize (Ha i ltac:(eauto)). unfold catch_indices in Ha. cbn [mbind list_bind] in Ha. apply elem_of_app in Ha as [Ha|Ha]; [tauto|exact Ha].
    + intros a [x Hx]. apply lookup_delete_Some in Hx as [N Hx]. specialize (Hb a ltac:(eauto)). cbn [fmap list_fmap] in Hb. apply elem_of_cons in Hb as [->|Hb]; [congruence|exact Hb].
  - rewrite Hsz. unfold total_size, w64. cbn. lia.
Qed.

(** ** The other operations *)
Lemma versions_insert_perm s sp C n i e e' : held s (versions sp) C n -> sp !! i = Some e -> versions_of e' ≡ₚ versions_of e -> held s (versions (<[i := e']> sp)) C n.
Proof. intros H Hi P. destruct (versions_split sp i e Hi) as (rest & P1 & P2). eapply held_perm; [|exact H]. now rewrite P1, P2, P. Qed.
Definition deleted (e : entry) : entry := mkEntry (e_module e) None (e_curr e).
Lemma delete_spec k s sp A C n : code_ok s sp A C n ->
  exists s' res sp', delete_module_1 k s = Ok (s', res) /\ (exists A', code_ok s' sp' A' C n) /\
    match entry_pos k sp with
    | None => res = am_undefined /\ sp' = sp
    | Some i => forall e, sp !! i = Some e -> match e_old e with Some _ => res = badarg /\ sp' = sp | None => res = am_true /\ sp' = <[i := deleted e]> sp end
    end.
Proof.
  intros Co. destruct (start_spec _ _ _ _ _ Co) as (s1 & L & E1 & Sg & S1 & S2 & El). pose proof Co as [Hm Hr Hh]. unfold delete_module_1. rewrite E1. cbn [mbind outcome_bind].
  assert (Back : forall s2, on_load s2 = on_load s1 -> erts_total_code_size s2 = erts_total_code_size s1 -> modules_ok (cix s2) (mods s2) A None -> catches_ok (cix s2) (cat s2) C None n -> ranges_ok (cix s2) (rng s2) L None -> code_ok s2 sp A C n).
  { intros s2 O1 O2 Q1 Q2 Q3. constructor; auto. eapply held_same; eauto. split; congruence. }
  pose proof (sg_modules _ _ _ _ _ _ _ _ Sg) as [_ _ _ (Ht & _ & _)]. pose proof (get_spec k (stg s1) (mods s1) A Ht) as P. rewrite (pos_rep k A sp Hr) in P.
  destruct (entry_pos k sp) as [i|] eqn:Ep.
  - destruct P as (p & x & -> & Hp & Hx & Hg). cbn [mbind outcome_bind]. rewrite Hg. cbn [mbind outcome_bind]. destruct (rep_at _ _ _ _ Hr Hx) as (e & He & Re).
    destruct (entry_zero _ _ _ _ _ _ _ Hh He Re) as [_ ->]. destruct (e_old e) as [o|] eqn:Eo; cbn [negb].
    + destruct (abort_spec _ _ _ _ _ _ _ Sg) as (s2 & -> & H1 & H2 & H3 & H4 & H5 & _). cbn [mbind outcome_bind]. exists s2, badarg, sp. splits; eauto.
      intros e1 He1. assert (e1 = e) as -> by congruence. now rewrite Eo.
    + assert (Am : at_module s1 A A sp C C L None n p i e) by (constructor; auto).
      destruct (delete_code_spec _ _ _ _ _ _ _ _ _ _ _ _ Am) as (s2 & M & -> & Am2 & [S3 S4]). cbn [mbind outcome_bind].
      destruct (commit_spec _ _ _ _ _ _ _ _ (am_staged _ _ _ _ _ _ _ _ _ _ _ _ Am2)) as (s3 & E3 & H1 & H2 & H3 & H4 & H5).
      destruct (erts_end_staging_code_ix s2) as [s2'| |]; try discriminate. injection E3 as <-. cbn [mbind outcome_bind].
      eexists _, _, (<[i := deleted e]> sp). split; [reflexivity|]. split.
      * exists M. constructor; auto; [apply Am2|]. apply (versions_insert_perm _ _ _ _ _ e); auto.
        -- apply (held_same s _ _ C _ L); auto. split; congruence.
        -- unfold deleted, versions_of. rewrite Eo. cbn. now rewrite app_nil_r.
      * intros e1 He1. assert (e1 = e) as -> by congruence. now rewrite Eo.
  - rewrite P. cbn [mbind outcome_bind]. destruct (abort_spec _ _ _ _ _ _ _ Sg) as (s2 & -> & H1 & H2 & H3 & H4 & H5 & _). cbn [mbind outcome_bind]. exists s2, am_undefined, sp. splits; eauto.
Qed.

(** ** A module of the active table *)
Record active_at (s : code_state) (sp : list entry) (A : list Module) (p : ptr) (i : nat) (e : entry) (x : Module) : Prop := {
  aa_points : points (at_ix (the_active_code_index (cix s)) (module_tables (mods s))) p i A;
  aa_module : A !! i = Some x /\ get_fields p (the_active_code_index (cix s)) (mods s) = Ok x;
  aa_entry : sp !! i = Some e /\ module_rep x e }.
Lemma active_get k s sp A C n : code_ok s sp A C n ->
  match entry_pos k sp with
  | None => erts_get_module k (the_active_code_index (cix s)) (mods s) = Ok None
  | Some i => exists p e x, erts_get_module k (the_active_code_index (cix s)) (mods s) = Ok (Some p) /\ active_at s sp A p i e x
  end.
Proof.
  intros [Hm Hr Hh]. pose proof Hm as [_ Ha _ _]. pose proof (get_spec k _ (mods s) A Ha) as P. rewrite (pos_rep k A sp Hr) in P.
  destruct (entry_pos k sp) as [i|]; auto. destruct P as (p & x & -> & Hp & Hx & Hg). destruct (rep_at _ _ _ _ Hr Hx) as (e & He & Re).
  exists p, e, x. split; auto. constructor; auto.
Qed.
Lemma active_zero s sp A C n p i e x : code_ok s sp A C n -> active_at s sp A p i e x ->
  (code (curr x) =? 0) = (match e_curr e with Some _ => false | None => true end) /\ (code (old x) =? 0) = (match e_old e with Some _ => false | None => true end).
Proof. intros [_ _ Hh] [_ _ [He Re]]. eapply entry_zero; eauto. Qed.
Lemma active_update s s1 sp A p i e x c o cv ov : modules_ok (cix s) (mods s) A None -> Forall2 module_rep A sp -> active_at s sp A p i e x ->
  mods s1 = mods s -> cix s1 = cix s -> instance_rep c cv -> instance_rep o ov ->
  exists m A', update_module p c o (the_active_code_index (cix s)) (mods s1) = Ok m /\ modules_ok (cix s1) m A' None /\
    Forall2 module_rep A' (<[i := mkEntry (e_module e) cv ov]> sp).
Proof.
  intros Hm Hr [Hp [Hx _] [He (Re & _)]] -> -> Rc Ro. destruct (update_spec p i _ (mods s) A c o x Hp Hx) as (m & E & Em & Hp').
  set (y := mkModule (m_index x) (module x) c o) in *. exists m, (<[i := y]> A). splits; auto.
  - refine (modules_active _ _ _ _ _ Hm Em (points_ok _ _ _ _ Hp') _). rewrite list_fmap_insert, list_insert_id; auto. now rewrite list_lookup_fmap, Hx.
  - apply Forall2_insert; auto. unfold module_rep. splits; auto.
Qed.

(** ** Purging *)
Definition purged (e : entry) : entry := mkEntry (e_module e) (e_curr e) None.
Lemma purge_spec k s sp A C n : code_ok s sp A C n ->
  exists s' res sp', purge_module_1 k s = Ok (s', res) /\ (exists A' C', code_ok s' sp' A' C' n) /\
    match entry_pos k sp with
    | None => res = badarg /\ sp' = sp
    | Some i => forall e, sp !! i = Some e -> match e_old e with None => res = badarg /\ sp' = sp | Some _ => res = am_true /\ sp' = <[i := purged e]> sp end
    end.
Proof.
  intros Co. pose proof (active_get k _ _ _ _ _ Co) as P. unfold purge_module_1. destruct (entry_pos k sp) as [i|] eqn:Ep.
  2: { rewrite P. cbn [mbind outcome_bind]. exists s, badarg, sp. splits; eauto. }
  destruct P as (p & e & x & -> & Aa). cbn [mbind outcome_bind]. pose proof Aa as [_ [Hx Hg] [He (Re & Rc & Ro)]]. rewrite Hg. cbn [mbind outcome_bind].
  destruct (active_zero _ _ _ _ _ _ _ _ _ Co Aa) as [_ ->]. destruct (e_old e) as [v|] eqn:Eo.
  2: { exists s, badarg, sp. splits; eauto. intros e1 He1. assert (e1 = e) as -> by congruence. now rewrite Eo. }
  destruct (versions_split sp i e He) as (rest & P1 & P2). pose proof Co as [Hm Hr Hh].
  assert (Hh2 : held s (v :: (option_list (e_curr e) ++ rest)) C n).
  { apply (held_perm _ (versions sp)); auto. rewrite P1. unfold versions_of. rewrite Eo. destruct (e_curr e); cbn; [apply perm_swap|reflexivity]. }
  destruct (unload_spec _ _ _ _ _ _ Hh2 Ro) as (s1 & -> & Em & Ec & r & Er & Hr1). cbn [mbind outcome_bind].
  destruct (active_update s s1 sp A p i e x (curr x) (mkInstance 0 0 (Some BEAM_CATCHES_NIL) None) (e_curr e) None Hm Hr Aa Em Ec Rc (conj eq_refl eq_refl)) as (m & A' & -> & Hm' & Hr').
  cbn [mbind outcome_bind]. rewrite Er. cbn [mbind outcome_bind]. eexists _, _, (<[i := purged e]> sp). split; [reflexivity|]. split.
  - exists A', (remove_keys (v_catches v).*1 C). constructor; auto. eapply held_perm; [|exact (Hr1 m)]. rewrite P2. unfold versions_of, purged. cbn. now rewrite app_nil_r.
  - intros e1 He1. assert (e1 = e) as -> by congruence. now rewrite Eo.
Qed.

(** ** The result of the on_load function *)
Definition started (v : version) : version := mkVersion (v_code v) (v_size v) (v_catches v) false.
Definition finished (ok : bool) (e : entry) : entry := mkEntry (e_module e) (if ok then started <$> e_curr e else None) (e_old e).
Lemma held_started s v vs C n : held s (v :: vs) C n -> held (with_areas (<[v_code v := false]> (on_load s)) (erts_total_code_size s) s) (started v :: vs) C n.
Proof.
  intros [Hc Hr Hv [Hd Hk] [Ha Hb] Hsz]. constructor; cbn [with_areas cix cat rng on_load erts_total_code_size]; auto.
  - inversion Hv as [|? ? [V1 V2 V3 V4] Vs]; subst. cbn [fmap list_fmap] in Hk. apply NoDup_cons in Hk as [Hk _]. constructor.
    + constructor; auto. apply lookup_insert_eq.
    + rewrite Forall_forall in *. intros w Hw. eapply version_ok_mono; eauto. apply lookup_insert_ne. intros E. apply Hk. rewrite E. apply list_elem_of_fmap. eauto.
  - split; [exact Ha|]. intros a Hs. cbn [fmap list_fmap started v_code]. destruct (decide (a = v_code v)) as [->|N]; [left|]. rewrite lookup_insert_ne in Hs by auto. apply (Hb a Hs).
Qed.
Definition waiting (e : entry) : bool := match e_curr e with Some v => v_on_load v | None => false end.
Lemma on_load_spec k ok s sp A C n : code_ok s sp A C n ->
  exists s' res sp', finish_after_on_load_2 k ok s = Ok (s', res) /\ (exists A' C', code_ok s' sp' A' C' n) /\
    match entry_pos k sp with
    | None => res = badarg /\ sp' = sp
    | Some i => forall e, sp !! i = Some e -> match ok with Some b => if waiting e then res = am_true /\ sp' = <[i := finished b e]> sp else res = badarg /\ sp' = sp | None => res = badarg /\ sp' = sp end
    end.
Proof.
  intros Co. pose proof (active_get k _ _ _ _ _ Co) as P. unfold finish_after_on_load_2. destruct (entry_pos k sp) as [i|] eqn:Ep.
  2: { rewrite P. cbn [mbind outcome_bind]. exists s, badarg, sp. splits; eauto. }
  destruct P as (p & e & x & -> & Aa). cbn [mbind outcome_bind]. pose proof Aa as [_ [Hx Hg] [He (Re & Rc & Ro)]]. rewrite Hg. cbn [mbind outcome_bind].
  destruct (active_zero _ _ _ _ _ _ _ _ _ Co Aa) as [-> _].
  assert (Same : forall e1, sp !! i = Some e1 -> e1 = e) by congruence.
  assert (No : waiting e = false -> exists s' res sp', Ok (s, badarg) = Ok (s', res) /\ (exists A' C', code_ok s' sp' A' C' n) /\
    forall e1, sp !! i = Some e1 -> match ok with Some b => if waiting e1 then res = am_true /\ sp' = <[i := finished b e1]> sp else res = badarg /\ sp' = sp | None => res = badarg /\ sp' = sp end).
  { intros W. exists s, badarg, sp. splits; eauto. intros e1 He1. rewrite (Same e1 He1), W. destruct ok; auto. }
  destruct (e_curr e) as [v|] eqn:Ev; [|apply No; unfold waiting; now rewrite Ev].
  destruct Rc as (R1 & R2 & R3). pose proof Co as [Hm Hr Hh]. pose proof (entry_versions _ _ _ _ _ _ v Hh He (curr_in _ _ Ev)) as V.
  rewrite R1, (vo_area _ _ _ V). cbn [mbind outcome_bind require]. destruct (v_on_load v) eqn:Eon; [|apply No; unfold waiting; now rewrite Ev].
  cbn [negb]. destruct (versions_split sp i e He) as (rest & P1 & P2).
  assert (Hh2 : held s (v :: (option_list (e_old e) ++ rest)) C n).
  { apply (held_perm _ (versions sp)); auto. rewrite P1. unfold versions_of. now rewrite Ev. }
  assert (W : waiting e = true) by (unfold waiting; now rewrite Ev).
  destruct ok as [[|]|].
  - eexists _, _, (<[i := finished true e]> sp). split; [reflexivity|]. split; [|intros e1 He1; now rewrite (Same e1 He1), W].
    exists A, C. constructor; cbn [with_areas cix mods]; auto.
    + rewrite <- (list_insert_id A i x Hx). apply Forall2_insert; auto. unfold module_rep, finished. rewrite Ev. cbn. splits; auto.
    + eapply held_perm; [|exact (held_started _ _ _ _ _ Hh2)]. rewrite P2. unfold versions_of, finished. rewrite Ev. reflexivity.
  - destruct (unload_spec _ _ _ _ _ (curr x) Hh2) as (s1 & -> & Em & Ec & r & Er & Hr1); [now splits|]. cbn [mbind outcome_bind].
    destruct (active_update s s1 sp A p i e x (mkInstance 0 0 (Some BEAM_CATCHES_NIL) (nif (curr x))) (old x) None (e_old e) Hm Hr Aa Em Ec (conj eq_refl eq_refl) Ro) as (m & A' & -> & Hm' & Hr').
    cbn [mbind outcome_bind]. rewrite R1 in Er. rewrite Er. cbn [mbind outcome_bind]. eexists _, _, (<[i := finished false e]> sp). split; [reflexivity|].
    split; [|intros e1 He1; now rewrite (Same e1 He1), W]. exists A', (remove_keys (v_catches v).*1 C). constructor; auto.
    eapply held_perm; [|exact (Hr1 m)]. rewrite P2. reflexivity.
  - exists s, badarg, sp. splits; eauto.
Qed.
