(* ===== verification/CodeProps.v ===== *)
(** Sequences of operations on the code, the refinement and the other properties of code
    loading, with concrete instances. *)

From S2P Require Import Prelude.
From stdpp Require Import base option list gmap.
From S2P Require Import Memory IndexTable CodeIx Catches Ranges FunctionInfo Modules CodeLoad CodeSpec CodeOps.
Local Open Scope Z_scope.

(** ** The operations on the code, one after the other *)
Inductive code_op :=
| Load (arg : option (list LoaderState))
| Delete (mod_ : Z)
| Purge (mod_ : Z)
| OnLoadDone (mod_ : Z) (ok : option bool).
Definition no_catches (x : code_state * code_result) : code_state * code_result * list (Z * Z) := (x, []).
Definition run_op (o : code_op) (s : code_state) : outcome (code_state * code_result * list (Z * Z)) :=
  match o with
  | Load arg => finish_loading_1 arg s
  | Delete k => x ← delete_module_1 k s; Ok (no_catches x)
  | Purge k => x ← purge_module_1 k s; Ok (no_catches x)
  | OnLoadDone k ok => x ← finish_after_on_load_2 k ok s; Ok (no_catches x)
  end.
Fixpoint run_code (ops : list code_op) (s : code_state) : outcome (code_state * list (code_result * list (Z * Z))) :=
  match ops with
  | [] => Ok (s, [])
  | o :: ops => '(s, res, cs) ← run_op o s; '(s, l) ← run_code ops s; Ok (s, (res, cs) :: l)
  end.

(** ** The specification: a list of modules with their versions *)
(** [f] gives the new entry, or [None] when the operation fails. *)
Definition at_entry (k : Z) (f : entry -> option entry) (failure : code_result) (sp : list entry) : list entry * code_result :=
  match entry_pos k sp with
  | None => (sp, failure)
  | Some i => match sp !! i with Some e => match f e with Some e' => (<[i := e']> sp, am_true) | None => (sp, badarg) end | None => (sp, failure) end
  end.
(** [cs]: the indices that the catches get, with their handlers. *)
Definition spec_load (ls : LoaderState) (cs : list (Z * Z)) (sp : list entry) : list entry * code_result :=
  let sp' := touch (ls_module ls) sp in
  match i ← entry_pos (ls_module ls) sp'; e ← sp' !! i; Some (i, e) with
  | None => (sp, badarg)
  | Some (i, e) =>
      if blocked e then (sp, am_not_purged (ls_module ls))
      else (<[i := loaded_entry ls cs e]> sp', if ls_on_load ls then am_on_load (ls_module ls) else am_ok)
  end.
Definition spec_op (o : code_op) (cs : list (Z * Z)) (sp : list entry) : list entry * code_result :=
  match o with
  | Load None => (sp, badarg)
  | Load (Some []) => (sp, am_ok)
  | Load (Some [ls]) => spec_load ls cs sp
  | Load (Some _) => (sp, system_limit)
  | Delete k => at_entry k (fun e => match e_old e with None => Some (deleted e) | Some _ => None end) am_undefined sp
  | Purge k => at_entry k (fun e => match e_old e with None => None | Some _ => Some (purged e) end) badarg sp
  | OnLoadDone k ok => at_entry k (fun e => match ok with Some b => if waiting e then Some (finished b e) else None | None => None end) badarg sp
  end.
(** What the loader and the memory allocator see to: new code is apart from the
    code that is loaded; the tables are not full. [n]: the catches so far. *)
Definition catches_of (o : code_op) : Z := match o with Load (Some [ls]) => Z.of_nat (length (ls_catches ls)) | _ => 0 end.
Definition may (o : code_op) (sp : list entry) (n : Z) : Prop :=
  match o with
  | Load (Some [ls]) => fresh_code ls sp /\ Z.of_nat (length sp) < MODULE_LIMIT /\ n + catches_of o < 2 ^ 30
  | _ => True
  end.
Fixpoint may_run (ops : list code_op) (sp : list entry) (n : Z) : Prop :=
  match ops with
  | [] => True
  | o :: ops => may o sp n /\ forall cs, may_run ops (fst (spec_op o cs sp)) (n + catches_of o)
  end.
Definition catches_fit (o : code_op) (res : code_result) (cs : list (Z * Z)) (sp : list entry) : Prop :=
  match o, res with
  | Load (Some [ls]), (am_ok | am_on_load _) => fresh_catches cs (ls_catches ls) sp
  | _, _ => cs = []
  end.
Inductive spec_run : list entry -> list code_op -> list (code_result * list (Z * Z)) -> list entry -> Prop :=
| spec_done sp : spec_run sp [] [] sp
| spec_next sp o cs sp1 res ops l sp' : spec_op o cs sp = (sp1, res) -> catches_fit o res cs sp -> spec_run sp1 ops l sp' ->
    spec_run sp (o :: ops) ((res, cs) :: l) sp'.

(** ** Every operation does what the specification says *)
Definition represents (s : code_state) (sp : list entry) (n : Z) : Prop := exists A C, code_ok s sp A C n.
Lemma represents_mono s sp n n' : represents s sp n -> n <= n' -> represents s sp n'.
Proof. intros (A & C & [Hm Hr [Hc R1 R2 R3 R4 R5]]) Hn. exists A, C. constructor; auto. constructor; auto. eapply catches_mono; eauto. Qed.
Lemma idle_abort s sp n : represents s sp n -> erts_abort_staging_code_ix s = Ok s.
Proof.
  intros (A & C & [Hm _ _]). destruct s as [ix c t m a z]. unfold erts_abort_staging_code_ix, end_staging, with_cat. cbn [cix mods rng cat on_load erts_total_code_size] in *.
  rewrite (modules_abort_idle _ _ _ Hm). cbn. unfold erts_end_staging_ranges. now destruct (modules (at_ix (the_staging_code_index ix) (r t))).
Qed.
Lemma empty_change s sp n : represents s sp n -> exists s', finish_loading_1 (Some []) s = Ok (s', am_ok, []) /\ represents s' sp n.
Proof.
  intros (A & C & Co). destruct (start_spec _ _ _ _ _ Co) as (s1 & L & E1 & Sg & S1 & S2 & El). unfold finish_loading_1. rewrite E1. cbn [mbind outcome_bind].
  destruct (commit_spec _ _ _ _ _ _ _ _ Sg) as (s2 & E2 & H1 & H2 & H3 & S3 & S4). destruct (erts_end_staging_code_ix s1) as [s1'| |]; try discriminate.
  injection E2 as <-. cbn [mbind outcome_bind]. eexists. split; [reflexivity|]. destruct Co as [Hm Hr Hh]. exists A, C. constructor; auto.
  eapply held_same; eauto. split; congruence.
Qed.
Lemma at_entry_Some k f x sp i e : entry_pos k sp = Some i -> sp !! i = Some e ->
  at_entry k f x sp = match f e with Some e' => (<[i := e']> sp, am_true) | None => (sp, badarg) end.
Proof. intros E1 E2. unfold at_entry. now rewrite E1, E2. Qed.
Lemma entry_case k sp : (exists i e, entry_pos k sp = Some i /\ sp !! i = Some e) \/ entry_pos k sp = None.
Proof. destruct (entry_pos k sp) as [i|] eqn:E; auto. destruct (entry_pos_Some _ _ _ E) as (e & He & _). eauto. Qed.
Lemma op_spec o s sp n : represents s sp n -> may o sp n ->
  exists s' res cs sp', run_op o s = Ok (s', res, cs) /\ spec_op o cs sp = (sp', res) /\ catches_fit o res cs sp /\ represents s' sp' (n + catches_of o).
Proof.
  intros R Hm. pose proof R as (A & C & Co). destruct o as [arg|k|k|k ok]; cbn [run_op].
  - destruct arg as [[|ls [|ls2 l]]|]; cbn [catches_of may] in *; rewrite ?Z.add_0_r.
    + destruct (empty_change s sp n R) as (s' & -> & R'). exists s', am_ok, [], sp. splits; auto; reflexivity.
    + destruct Hm as (Hf & Hl & Hn). destruct (load_spec _ _ _ _ _ ls Co Hf Hl Hn) as (i & e & He & Ep & Em & s' & res & cs & sp' & -> & (A' & C' & Co') & D).
      exists s', res, cs, sp'. cbn [spec_op catches_fit]. unfold spec_load. rewrite Ep. cbn [mbind option_bind]. rewrite He. cbn [mbind option_bind].
      split; auto. destruct (blocked e); destruct D as (-> & D2 & ->); splits; auto; try (now exists A', C'). now destruct (ls_on_load ls).
    + exists s, system_limit, [], sp. cbn [finish_loading_1]. rewrite (idle_abort s sp n R). splits; auto; reflexivity.
    + exists s, badarg, [], sp. cbn [finish_loading_1]. rewrite (idle_abort s sp n R). splits; auto; reflexivity.
  - destruct (delete_spec k _ _ _ _ _ Co) as (s' & res & sp' & -> & (A' & Co') & D). exists s', res, [], sp'. cbn [mbind outcome_bind spec_op catches_of]. rewrite Z.add_0_r.
    splits; [reflexivity| |reflexivity|now exists A', C]. destruct (entry_case k sp) as [(i & e & Ep & He)|Ep]; rewrite Ep in D.
    + rewrite (at_entry_Some _ _ _ _ _ _ Ep He). specialize (D e He). destruct (e_old e); destruct D as [-> ->]; auto.
    + destruct D as [-> ->]. unfold at_entry. now rewrite Ep.
  - destruct (purge_spec k _ _ _ _ _ Co) as (s' & res & sp' & -> & Co' & D). exists s', res, [], sp'. cbn [mbind outcome_bind spec_op catches_of]. rewrite Z.add_0_r.
    splits; [reflexivity| |reflexivity|exact Co']. destruct (entry_case k sp) as [(i & e & Ep & He)|Ep]; rewrite Ep in D.
    + rewrite (at_entry_Some _ _ _ _ _ _ Ep He). specialize (D e He). destruct (e_old e); destruct D as [-> ->]; auto.
    + destruct D as [-> ->]. unfold at_entry. now rewrite Ep.
  - destruct (on_load_spec k ok _ _ _ _ _ Co) as (s' & res & sp' & -> & Co' & D). exists s', res, [], sp'. cbn [mbind outcome_bind spec_op catches_of]. rewrite Z.add_0_r.
    splits; [reflexivity| |reflexivity|exact Co']. destruct (entry_case k sp) as [(i & e & Ep & He)|Ep]; rewrite Ep in D.
    + rewrite (at_entry_Some _ _ _ _ _ _ Ep He). specialize (D e He). destruct ok as [b|]; [destruct (waiting e)|]; destruct D as [-> ->]; auto.
    + destruct D as [-> ->]. unfold at_entry. now rewrite Ep.
Qed.
Lemma run_spec ops : forall s sp n, represents s sp n -> may_run ops sp n ->
  exists s' l sp' n', run_code ops s = Ok (s', l) /\ spec_run sp ops l sp' /\ represents s' sp' n'.
Proof.
  induction ops as [|o ops IH]; intros s sp n R Hm; cbn [run_code].
  - exists s, [], sp, n. splits; auto. constructor.
  - destruct Hm as [Ho Hm]. destruct (op_spec o s sp n R Ho) as (s1 & res & cs & sp1 & -> & E & Hc & R1). cbn [mbind outcome_bind].
    specialize (Hm cs). rewrite E in Hm. destruct (IH s1 sp1 _ R1 Hm) as (s' & l & sp' & n' & -> & Hs & R'). cbn [mbind outcome_bind].
    exists s', ((res, cs) :: l), sp', n'. splits; auto. econstructor; eauto.
Qed.
Lemma init_spec : exists s, init_code = Ok s /\ represents s [] 0.
Proof.
  destruct init_modules as (m & E & Em & Ht). destruct catches_init as (v & Hv & Hp & Ha & Hh). unfold init_code. rewrite E. cbn [mbind outcome_bind].
  eexists. split; [reflexivity|]. exists [], ∅. constructor; [|constructor|].
  - constructor; [reflexivity|apply (Ht Ix0)| |]; cbn.
    + exists []. split; [apply (Ht Ix2)|reflexivity].
    + exists []. splits; [apply (Ht Ix1)|reflexivity|]. rewrite Em. cbn. lia.
  - constructor; cbn [commit_staging cix cat rng mods on_load erts_total_code_size with_cix with_mods with_cat with_rng].
    + constructor; auto. exists v, []. splits; auto. rewrite <- Hh. apply Z.le_refl.
    + exists []. split; [|reflexivity]. constructor; auto. exists []. constructor; cbn; auto; [lia|]. split; constructor.
    + constructor.
    + split; constructor.
    + split; intros a [x Hx]; rewrite lookup_empty in Hx; discriminate.
    + reflexivity.
Qed.

(** ** What the rest of the system sees of the code *)
Definition lookup_entry (k : Z) (sp : list entry) : option entry := i ← entry_pos k sp; sp !! i.
Definition spec_loaded (k : Z) (sp : list entry) : bool := match e ← lookup_entry k sp; e_curr e with Some v => negb (v_on_load v) | None => false end.
Definition spec_has_old (k : Z) (sp : list entry) : bool := match e ← lookup_entry k sp; e_old e with Some _ => true | None => false end.
Lemma lookup_entry_case k s sp A C n : code_ok s sp A C n ->
  lookup_entry k sp = None /\ erts_get_module k (the_active_code_index (cix s)) (mods s) = Ok None \/
  exists p i e x, lookup_entry k sp = Some e /\ erts_get_module k (the_active_code_index (cix s)) (mods s) = Ok (Some p) /\ active_at s sp A p i e x.
Proof.
  intros Co. pose proof (active_get k _ _ _ _ _ Co) as P. unfold lookup_entry. destruct (entry_pos k sp) as [i|]; [right|auto].
  destruct P as (p & e & x & E & Aa). exists p, i, e, x. splits; auto. cbn [mbind option_bind]. apply Aa.
Qed.
Lemma old_code_spec k s sp n : represents s sp n -> check_old_code_1 k s = Ok (spec_has_old k sp).
Proof.
  intros (A & C & Co). unfold check_old_code_1, spec_has_old. destruct (lookup_entry_case k _ _ _ _ _ Co) as [[-> ->]|(p & i & e & x & -> & -> & Aa)]; [reflexivity|].
  cbn [mbind outcome_bind option_bind]. rewrite (proj2 (aa_module _ _ _ _ _ _ _ Aa)). cbn [mbind outcome_bind].
  rewrite (proj2 (active_zero _ _ _ _ _ _ _ _ _ Co Aa)). now destruct (e_old e).
Qed.
Lemma module_loaded_spec k s sp n : represents s sp n -> module_loaded_1 k s = Ok (spec_loaded k sp).
Proof.
  intros (A & C & Co). unfold module_loaded_1, spec_loaded. destruct (lookup_entry_case k _ _ _ _ _ Co) as [[-> ->]|(p & i & e & x & -> & -> & Aa)]; [reflexivity|].
  cbn [mbind outcome_bind option_bind]. rewrite (proj2 (aa_module _ _ _ _ _ _ _ Aa)). cbn [mbind outcome_bind].
  rewrite (proj1 (active_zero _ _ _ _ _ _ _ _ _ Co Aa)). destruct Aa as [_ _ [He (_ & Rc & _)]]. destruct (e_curr e) as [v|] eqn:Ev; [|reflexivity].
  pose proof (entry_versions _ _ _ _ _ _ v (co_held _ _ _ _ _ Co) He (curr_in _ _ Ev)) as V. destruct Rc as (-> & _). now rewrite (vo_area _ _ _ V).
Qed.
Lemma catch_spec s sp n v i pc : represents s sp n -> v ∈ versions sp -> (i, pc) ∈ v_catches v -> beam_catches_car (cix s) i (cat s) = Ok pc.
Proof.
  intros (A & C & [_ _ [Hc _ Hv _ _ _]]) Hin Hi. rewrite Forall_forall in Hv. destruct (vo_handlers _ _ _ (Hv v Hin) i pc Hi) as [(x & Hx & <-) _].
  eapply catches_car; eauto.
Qed.
Lemma range_spec s sp n v pc : represents s sp n -> v ∈ versions sp -> inside pc (v_range v) -> exists i t, find_range pc (cix s) (rng s) = Ok (Some (i, v_range v), t).
Proof.
  intros (A & C & [_ _ [Hc (L & Hr & El) Hv _ _ _]]) Hin Hp. pose proof (ro_ix _ _ _ _ Hr) as Ei.
  destruct (find_range_spec (cix s) (rng s) L Ei None pc Hr) as (f & t & -> & _ & F).
  assert (Ha : v_range v ∈ L) by (rewrite El; apply list_elem_of_fmap; eauto).
  destruct f as [[i rp]|]; [|exfalso; exact (F _ Ha Hp)]. destruct F as (_ & _ & F & _). rewrite (F _ Ha Hp). eauto.
Qed.
Lemma live_range_spec s sp n pc i rp t : represents s sp n -> find_range pc (cix s) (rng s) = Ok (Some (i, rp), t) -> live rp = true ->
  exists v, v ∈ versions sp /\ rp = v_range v /\ inside pc rp.
Proof.
  intros (A & C & [_ _ [Hc (L & Hr & El) Hv _ _ _]]) E Hl. pose proof (ro_ix _ _ _ _ Hr) as Ei.
  destruct (find_range_spec (cix s) (rng s) L Ei None pc Hr) as (f & t' & E' & _ & F). rewrite E in E'. injection E' as <- <-. destruct F as (Hin & F & _).
  specialize (F Hl). rewrite El in F. apply list_elem_of_fmap in F as (v & -> & Hv'). eauto.
Qed.
Lemma distinct_spec s sp n : represents s sp n -> NoDup (catch_indices (versions sp)) /\ erts_total_code_size s = w64 (total_size (versions sp)).
Proof. intros (A & C & [_ _ [_ _ _ [H _] _ H2]]). auto. Qed.

Definition has_code (e : entry) : bool := match versions_of e with [] => false | _ => true end.
Definition spec_modules (sp : list entry) : list Z := e_module <$> List.filter has_code sp.
Lemma instance_length C areas c v : instance_rep c v -> (forall w, v = Some w -> version_ok C areas w) -> (code_length c =? 0) = match v with Some _ => false | None => true end.
Proof.
  destruct v as [v|]; cbn; [|intros [_ ->]; auto]. intros (_ & -> & _) H. apply Z.eqb_neq. destruct (vo_code _ _ _ (H v eq_refl)) as [_ Hs]. lia.
Qed.
Lemma loaded_loop_spec s sp A C n : code_ok s sp A C n -> forall k i prev, (i + k)%nat = length A ->
  loaded_loop k (Z.of_nat i) (the_active_code_index (cix s)) (mods s) prev = Ok (rev (spec_modules (drop i sp)) ++ prev).
Proof.
  intros Co. pose proof Co as [Hm Hr Hh]. pose proof (mo_active _ _ _ _ Hm) as T. induction k as [|k IH]; intros i prev Hi; cbn [loaded_loop].
  - rewrite drop_ge by (rewrite <- (Forall2_length _ _ _ Hr); lia). reflexivity.
  - destruct (lookup_lt_is_Some_2 A i ltac:(lia)) as [x Hx]. destruct (rep_at _ _ _ _ Hr Hx) as (e & He & (Em & Rc & Ro)).
    destruct (tab_copy _ A i x T Hx) as (p & b & E1 & E2 & E3). unfold module_code, get_fields. rewrite E1. cbn [mbind outcome_bind]. rewrite E2. cbn [mbind outcome_bind].
    rewrite E3. replace (Z.of_nat i + 1) with (Z.of_nat (S i)) by lia. rewrite IH by lia. f_equal. rewrite (drop_S _ _ _ He). unfold spec_modules. cbn [List.filter].
    rewrite (instance_length C (on_load s) _ _ Rc), (instance_length C (on_load s) _ _ Ro) by (intros w Hw; eapply entry_versions; eauto using curr_in, old_in).
    unfold has_code, versions_of at 2. rewrite Em. destruct (e_curr e), (e_old e); cbn; rewrite <- ?app_assoc; reflexivity.
Qed.
Lemma loaded_0_spec s sp n : represents s sp n -> loaded_0 s = Ok (rev (spec_modules sp)).
Proof.
  intros (A & C & Co). unfold loaded_0, module_code_size. pose proof (tab_count _ _ (mo_active _ _ _ _ (co_modules _ _ _ _ _ Co))) as [-> _]. rewrite Nat2Z.id.
  change 0 with (Z.of_nat 0). rewrite (loaded_loop_spec s sp A C n Co (length A) 0 []) by lia. now rewrite app_nil_r.
Qed.

(** ** The properties *)
(** C20. Any sequence of loading, deleting, purging and on_load results, from the start on,
    replies what a list of modules with a current and an old version says: new code makes the
    current version old, a module with two versions is refused and left as it was, and what is
    deleted, purged or still waits for its on_load function is as documented. *)
Theorem code_loading_refines ops : may_run ops [] 0 ->
  exists s0 s l sp, init_code = Ok s0 /\ run_code ops s0 = Ok (s, l) /\ spec_run [] ops l sp /\
    loaded_0 s = Ok (rev (spec_modules sp)) /\
    forall k, module_loaded_1 k s = Ok (spec_loaded k sp) /\ check_old_code_1 k s = Ok (spec_has_old k sp).
Proof.
  intros Hm. destruct init_spec as (s0 & E & R). destruct (run_spec ops s0 [] 0 R Hm) as (s & l & sp & n & E2 & Hs & R2).
  exists s0, s, l, sp. splits; auto; [eapply loaded_0_spec; eauto|]. intros k. split; [eapply module_loaded_spec|eapply old_code_spec]; eauto.
Qed.
(** C21. After any such sequence every catch of a version that is not purged has an index of its
    own, which leads to its handler; every address of its code is found in its range, and no live
    range is left of code that is purged. *)
Theorem loaded_code_found ops : may_run ops [] 0 ->
  exists s l sp, (s0 ← init_code; run_code ops s0) = Ok (s, l) /\ spec_run [] ops l sp /\
    NoDup (catch_indices (versions sp)) /\ erts_total_code_size s = w64 (total_size (versions sp)) /\
    (forall v i pc, v ∈ versions sp -> (i, pc) ∈ v_catches v -> beam_catches_car (cix s) i (cat s) = Ok pc) /\
    (forall v pc, v ∈ versions sp -> v_code v <= pc <= v_code v + v_size v -> exists i t, find_range pc (cix s) (rng s) = Ok (Some (i, v_range v), t)) /\
    (forall pc i rp t, find_range pc (cix s) (rng s) = Ok (Some (i, rp), t) -> live rp = true -> exists v, v ∈ versions sp /\ rp = v_range v /\ inside pc rp).
Proof.
  intros Hm. destruct init_spec as (s0 & E & R). destruct (run_spec ops s0 [] 0 R Hm) as (s & l & sp & n & E2 & Hs & R2).
  destruct (distinct_spec _ _ _ R2) as [D1 D2]. exists s, l, sp. rewrite E. cbn [mbind outcome_bind]. splits; auto.
  - intros v i pc. now apply (catch_spec _ sp n).
  - intros v pc Hv Hp. now apply (range_spec _ sp n).
  - intros pc i rp t. now apply (live_range_spec _ sp n).
Qed.

(** The function and the line of an address in loaded code. *)
(** C22. For an address in loaded code with a well-formed function table the lookup finds the
    function that covers it, or none when none does, and the location of the last line instruction
    before it in that function. *)
Theorem function_lookup_correct atom_len head full ops : may_run ops [] 0 ->
  exists s l sp, (s0 ← init_code; run_code ops s0) = Ok (s, l) /\ spec_run [] ops l sp /\
    forall v m pc, v ∈ versions sp -> head (v_code v) = Some m -> module_ok m (v_range v) -> inside pc (v_range v) ->
    exists fi t, erts_lookup_function_info atom_len head pc full (cix s) (rng s) = Ok (fi, t) /\
      ((current fi = None /\ forall idx, ~ covers (mi_functions m) pc idx) \/
       exists idx f, covers (mi_functions m) pc idx /\ mi_functions m !! Z.to_nat idx = Some f /\ current fi = Some (f + 2 * wordsize) /\
         (full = true -> located m pc idx (loc fi) \/ loc fi = LINE_INVALID_LOCATION /\ forall l, ~ located m pc idx l)).
Proof.
  intros Hm. destruct init_spec as (s0 & E & R). destruct (run_spec ops s0 [] 0 R Hm) as (s & l & sp & n & E2 & Hs & (A & C & Co)).
  exists s, l, sp. rewrite E. cbn [mbind outcome_bind]. splits; auto. intros v m pc Hv Hh Ho Hp.
  destruct (hd_ranges _ _ _ _ (co_held _ _ _ _ _ Co)) as (L & Hr & El).
  assert (Ha : v_range v ∈ L) by (rewrite El; apply list_elem_of_fmap; eauto).
  destruct (lookup_info_spec atom_len head (cix s) (rng s) L None pc full (v_range v) m Hr Ha Hh Ho Hp) as (fi & t & E3 & _ & D). eauto.
Qed.

(** ** Code indices *)
(** C23. In every state that readers and code writers reach, the code index that is staged is
    the successor of the active one and no call still uses it; a change in progress has a writer,
    and a suspended process that does not exit is in the queue of one. *)
Theorem code_index_safety exiting s : rtc (cix_step exiting) cix_start s ->
  the_staging_code_index (indices s) = ix_next (the_active_code_index (indices s)) /\
  (forall r i, readers s !! r = Some i -> i <> the_staging_code_index (indices s)) /\
  (phase s <> Idle -> code_writing_process (perm s) <> None) /\
  (forall p, p ∈ suspended (perm s) -> exiting p = false -> p ∈ code_write_queue (perm s) /\ code_writing_process (perm s) <> None).
Proof.
  intros [H1 H2 _ H4 H5 H6]%cix_reachable. splits; auto.
  intros p Hp He. destruct (H6 p Hp) as [H|H]; [|congruence]. split; auto. intros N. rewrite (H5 N) in H. now apply elem_of_nil in H.
Qed.
(** A change that has ended is committed once the readers have returned. *)
(** C24. A change whose staging has ended can be committed when the calls it waits for return:
    the staged index becomes active, the permission is released and all waiting processes run again.
    *)
Theorem staged_change_completes exiting s w : rtc (cix_step exiting) cix_start s -> phase s = Ended w ->
  exists s', rtc (cix_step exiting) s s' /\ phase s' = Idle /\ the_active_code_index (indices s') = the_staging_code_index (indices s) /\
    code_writing_process (perm s') = None /\ forall p, p ∈ suspended (perm s') -> exiting p = true.
Proof.
  intros R Hp. destruct (change_commits exiting s w Hp) as (s' & R' & H1 & H2 & H3). exists s'. splits; auto; [now rewrite H3|]. intros p Hs.
  destruct (cix_reachable exiting s') as [_ _ _ _ H5 H6]; [etrans; eauto|]. destruct (H6 p Hs) as [H|H]; auto. rewrite (H5 H2) in H. now apply elem_of_nil in H.
Qed.

(** ** An example *)
Definition first_version : LoaderState := mkLoader 100 1000 64 [1010; 1020] false.
Definition second_version : LoaderState := mkLoader 100 2000 32 [2008] true.
Definition third_version : LoaderState := mkLoader 100 1100 64 [] false.
Definition example_ops : list code_op :=
  [Load (Some [first_version]); Load (Some [second_version]); Load (Some [third_version]); OnLoadDone 100 (Some true);
   Purge 100; Load (Some [third_version]); Delete 100; Purge 7; Load None; Load (Some [])].
Ltac fresh_example := repeat split; cbn; try lia; [intros v Hv; vm_compute in Hv; unfold apart; repeat (apply elem_of_cons in Hv as [->|Hv]; [cbn; lia|]); now apply elem_of_nil in Hv|repeat constructor; lia].
Lemma example_may : may_run example_ops [] 0.
Proof.
  cbn [may_run example_ops]. unfold may. cbn [catches_of].
  repeat (split; [try exact I; fresh_example|intros ?]). exact I.
Qed.
Example example_results : (s0 ← init_code; x ← run_code example_ops s0; Ok (snd x)) =
  Ok [(am_ok, [(0, 1010); (1, 1020)]); (am_on_load 100, [(2, 2008)]); (am_not_purged 100, []); (am_true, []); (am_true, []); (am_ok, []); (badarg, []); (badarg, []); (badarg, []); (am_ok, [])].
Proof. vm_compute. reflexivity. Qed.
Lemma code_loading_refines_witness : may_run example_ops [] 0 /\
  exists s0 s l sp, init_code = Ok s0 /\ run_code example_ops s0 = Ok (s, l) /\ spec_run [] example_ops l sp /\
    loaded_0 s = Ok (rev (spec_modules sp)) /\
    forall k, module_loaded_1 k s = Ok (spec_loaded k sp) /\ check_old_code_1 k s = Ok (spec_has_old k sp).
Proof. split; [exact example_may|exact (code_loading_refines example_ops example_may)]. Defined.
Lemma one_load_may : may_run [Load (Some [first_version])] [] 0.
Proof. cbn [may_run]. unfold may. cbn [catches_of]. split; [fresh_example|intros ?; exact I]. Qed.
Lemma one_load_version l sp : spec_run [] [Load (Some [first_version])] l sp ->
  exists v, v ∈ versions sp /\ v_code v = 1000 /\ v_size v = 64 /\ (v_catches v).*2 = [1020; 1010].
Proof.
  intros H. inversion H as [|? ? cs sp1 res ? ? ? E F R]; subst. vm_compute in E. injection E as <- <-. inversion R; subst.
  destruct F as (F & _). cbn in F. exists (new_version first_version cs). splits; [left|reflexivity|reflexivity|].
  cbn. change (rev cs).*2 with (map snd (rev cs)). rewrite map_rev. change (map snd cs) with cs.*2. now rewrite F.
Qed.
(** A catch whose handler is at 1020, and the code around it, are found. *)
Lemma loaded_code_found_witness : may_run [Load (Some [first_version])] [] 0 /\
  exists s l, (s0 ← init_code; run_code [Load (Some [first_version])] s0) = Ok (s, l) /\
    (exists i, beam_catches_car (cix s) i (cat s) = Ok 1020) /\ exists i t, find_range 1063 (cix s) (rng s) = Ok (Some (i, mkRange 1000 1064), t).
Proof.
  split; [exact one_load_may|]. destruct (loaded_code_found [Load (Some [first_version])] one_load_may) as (s & l & sp & E & Hs & _ & _ & Hc & Hr & _).
  destruct (one_load_version l sp Hs) as (v & Hv & Ec & Es & Ek). exists s, l. splits; auto.
  - destruct (v_catches v) as [|[i pc] k] eqn:Ev; [discriminate|]. cbn in Ek. injection Ek as -> _. exists i. apply (Hc v); auto. rewrite Ev. left.
  - destruct (Hr v 1063 Hv ltac:(lia)) as (i & t & E2). exists i, t. unfold v_range in E2. now rewrite Ec, Es in E2.
Defined.
Definition example_info : module_info := mkModInfo 100 [1000; 1024; 1064] (Some (mkLines [] [0; 1; 3] [1008; 1030; 1040; 1064] [10; 20; 0; 0])).
Definition example_head (a : Z) : option module_info := if a =? 1000 then Some example_info else None.
Ltac sorted := repeat first [apply Sorted.SSorted_nil | apply Sorted.SSorted_cons | apply Forall_nil_2 | apply Forall_cons_2]; try lia.
Lemma example_info_ok : module_ok example_info (mkRange 1000 1064).
Proof.
  unfold module_ok, example_info, lines_ok. cbn [mi_functions mi_line_table func_tab line_pcs loc_tab fname start range_end].
  splits; try reflexivity; try discriminate; sorted; vm_compute; split; discriminate.
Qed.
(** The function of the address 1050 starts at 1024; its line is the default. *)
Lemma function_lookup_correct_witness : may_run [Load (Some [first_version])] [] 0 /\
  exists s l, (s0 ← init_code; run_code [Load (Some [first_version])] s0) = Ok (s, l) /\
    exists fi t, erts_lookup_function_info (fun _ => 3) example_head 1035 true (cix s) (rng s) = Ok (fi, t) /\ current fi = Some (1024 + 16) /\ loc fi = 20.
Proof.
  split; [exact one_load_may|].
  destruct (function_lookup_correct (fun _ => 3) example_head true [Load (Some [first_version])] one_load_may) as (s & l & sp & E & Hs & Hf).
  destruct (one_load_version l sp Hs) as (v & Hv & Ec & Es & _). exists s, l. split; auto.
  assert (C : covers (mi_functions example_info) 1035 1) by (split; [lia|]; exists 1024, 1064; cbn; splits; auto; lia).
  destruct (Hf v example_info 1035 Hv) as (fi & t & E2 & D).
  - now rewrite Ec.
  - unfold v_range. rewrite Ec, Es. exact example_info_ok.
  - unfold inside, v_range. cbn. lia.
  - exists fi, t. split; auto. destruct D as [[_ D]|(idx & f & C2 & Ef & Ecur & D)]; [exfalso; exact (D 1 C)|].
    assert (idx = 1) as -> by (eapply covers_unique; eauto; sorted). injection Ef as <-. split; auto.
    assert (Lo : located example_info 1035 1 20).
    { exists (mkLines [] [0; 1; 3] [1008; 1030; 1040; 1064] [10; 20; 0; 0]), 1, 3, 1. cbn. splits; auto; try lia. split; [lia|]. exists 1030, 1040. cbn. splits; auto; lia. }
    destruct (D eq_refl) as [L2|[_ D2]]; [|exfalso; exact (D2 20 Lo)].
    destruct L2 as (line & lo & hi & mid & E3 & E4 & E5 & Hm & C3 & E6). injection E3 as <-. cbn in E4, E5, C3, E6. injection E4 as <-. injection E5 as <-.
    assert (C4 : covers [1008; 1030; 1040; 1064] 1035 1) by (split; [lia|]; exists 1030, 1040; cbn; splits; auto; lia).
    assert (mid = 1) as -> by (eapply (covers_unique [1008; 1030; 1040; 1064]); eauto; sorted). change (Some 20 = Some (loc fi)) in E6. now injection E6.
Defined.
(** Process 5 changes the code while the reader 1 runs and 6 waits. *)
Definition example_change : cix_state := mkCix (mkCodeIx Ix0 Ix1) (mkPermission (Some 5) [6] {[6]}) (Ended {[1]}) {[1 := Ix0]}.
Lemma example_reached : rtc (cix_step (fun _ => false)) cix_start example_change.
Proof.
  eapply rtc_l; [apply (step_read _ 1); reflexivity|]. cbn.
  eapply rtc_l; [apply (step_seize _ 5); [set_solver|discriminate]|]. cbn.
  eapply rtc_l; [apply (step_seize _ 6); [set_solver|discriminate]|]. cbn.
  eapply rtc_l; [apply (step_start _ 5); reflexivity|]. cbn.
  eapply rtc_l; [apply step_end; reflexivity|]. cbn.
  unfold example_change. match goal with |- rtc _ ?a ?b => replace b with a; [constructor|] end.
  reflexivity.
Qed.
Lemma code_index_safety_witness : rtc (cix_step (fun _ => false)) cix_start example_change /\
  (forall r i, readers example_change !! r = Some i -> i <> Ix1) /\ 6 ∈ suspended (perm example_change).
Proof. split; [exact example_reached|]. split; [exact (proj1 (proj2 (code_index_safety _ _ example_reached)))|cbn; set_solver]. Defined.
Lemma staged_change_completes_witness : rtc (cix_step (fun _ => false)) cix_start example_change /\
  exists s', rtc (cix_step (fun _ => false)) example_change s' /\ the_active_code_index (indices s') = Ix1.
Proof.
  split; [exact example_reached|]. destruct (staged_change_completes (fun _ => false) example_change {[1]} example_reached eq_refl) as (s' & R & _ & H & _). now exists s'.
Defined.
