(* ===== verification/ExtTerm.v ===== *)
(** The tags and constants of the external term format (external.h, dist.h), terms, and reading
    and writing integers. What a decoder returns says whether the input is refused or memory outside
    is touched. The atom table is used through the class [AtomOps]. *)

From S2P Require Import Prelude.
From stdpp Require Import base option list gmap.
From S2P Require Import BigNum BigConv Memory Atoms.
Local Open Scope Z_scope.

(** ** Tags and constants *)
Definition SMALL_INTEGER_EXT : Z := 97.
Definition INTEGER_EXT : Z := 98.
Definition FLOAT_EXT : Z := 99.
Definition ATOM_EXT : Z := 100.
Definition SMALL_ATOM_EXT : Z := 115.
Definition REFERENCE_EXT : Z := 101.
Definition NEW_REFERENCE_EXT : Z := 114.
Definition PORT_EXT : Z := 102.
Definition NEW_FLOAT_EXT : Z := 70.
Definition PID_EXT : Z := 103.
Definition SMALL_TUPLE_EXT : Z := 104.
Definition LARGE_TUPLE_EXT : Z := 105.
Definition NIL_EXT : Z := 106.
Definition STRING_EXT : Z := 107.
Definition LIST_EXT : Z := 108.
Definition BINARY_EXT : Z := 109.
Definition BIT_BINARY_EXT : Z := 77.
Definition SMALL_BIG_EXT : Z := 110.
Definition LARGE_BIG_EXT : Z := 111.
Definition NEW_FUN_EXT : Z := 112.
Definition EXPORT_EXT : Z := 113.
Definition MAP_EXT : Z := 116.
Definition FUN_EXT : Z := 117.
Definition ATOM_UTF8_EXT : Z := 118.
Definition SMALL_ATOM_UTF8_EXT : Z := 119.
Definition ATOM_CACHE_REF : Z := 82.
Definition ATOM_INTERNAL_REF2 : Z := 73.
Definition ATOM_INTERNAL_REF3 : Z := 75.
Definition BINARY_INTERNAL_REF : Z := 74.
Definition BIT_BINARY_INTERNAL_REF : Z := 76.
Definition VERSION_MAGIC : Z := 131.

Definition DFLAG_NEW_FUN_TAGS : Z := 0x80.
Definition DFLAG_EXPORT_PTR_TAG : Z := 0x200.
Definition DFLAG_BIT_BINARIES : Z := 0x400.
Definition DFLAG_NEW_FLOATS : Z := 0x800.
Definition DFLAG_SMALL_ATOM_TAGS : Z := 0x4000.
Definition DFLAG_INTERNAL_TAGS : Z := 0x8000.
Definition DFLAG_UTF8_ATOMS : Z := 0x10000.
Definition TERM_TO_BINARY_DFLAGS : Z := 0x4 + DFLAG_NEW_FUN_TAGS + DFLAG_NEW_FLOATS + 0x100 + DFLAG_EXPORT_PTR_TAG + DFLAG_BIT_BINARIES + 0x20000.
Definition has (flag dflags : Z) : bool := negb (Z.land dflags flag =? 0).

Definition MAX_STRING_LEN : Z := 0xffff.
Definition INTERNAL_CREATION : Z := 255.
Definition ORIG_CREATION : Z := 0.
Definition MAX_CREATION : Z := 4.
Definition is_valid_creation (cre : Z) : bool := (cre <? MAX_CREATION) || (cre =? INTERNAL_CREATION).
Definition ERTS_MAX_PID_NUMBER : Z := 2 ^ 15 - 1.
Definition ERTS_MAX_PID_SERIAL : Z := 2 ^ 13 - 1.
Definition ERTS_MAX_PORT_NUMBER : Z := 2 ^ 28 - 1.
Definition MAX_REFERENCE : Z := 2 ^ 18.
Definition ERTS_MAX_REF_NUMBERS : Z := 3.
Definition make_pid_data (ser num : Z) : Z := Z.lor (Z.shiftl ser 15) num.
Definition pid_number (data : Z) : Z := Z.land data (2 ^ 15 - 1).
Definition pid_serial (data : Z) : Z := Z.land (Z.shiftr data 15) (2 ^ 13 - 1).
Definition MAX_ARG : Z := 255.
Definition ERL_ONHEAP_BIN_LIMIT : Z := 64.
(** Sizes of objects on the heap, in words. *)
Definition EXTERNAL_THING_HEAD_SIZE : Z := 3.
Definition REF_THING_HEAD_SIZE : Z := 1.
Definition FLOAT_SIZE_OBJECT : Z := 2.
Definition PROC_BIN_SIZE : Z := 6.
Definition ERL_SUB_BIN_SIZE : Z := 5.
Definition ERL_FUN_SIZE : Z := 6.
Definition MAP_HEADER_SIZE : Z := 3.
Definition heap_bin_size (n : Z) : Z := 2 + (n + 7) / 8.

(** ** Terms *)
(** The node of a pid, port or reference: this one, or the atom of its name and
    its creation. *)
Definition node : Type := option (Z * Z).
(** A fun entry, without its code and its counter. *)
Record fun_entry := mkFunEntry { fe_module : Z; fe_uniq : list Z; fe_index : Z; fe_old_uniq : Z; fe_old_index : Z }.
(** [BINARY_DEF bytes k]: a binary, of whose last byte [k] bits are used (all for 0); the
    others are 0. *)
Unset Elimination Schemes.
(** Terms; pids, ports and references of this node and of others have a constructor each. *)
Inductive term :=
| SMALL_DEF (i : Z)
| BIG_DEF (b : bignum)
| FLOAT_DEF (f : Z * Z)
| ATOM_DEF (a : Z)
| NIL_DEF
| LIST_DEF (hd tl : term)
| TUPLE_DEF (ts : list term)
| MAP_DEF (kvs : list (term * term))
| BINARY_DEF (bytes : list Z) (k : Z)
| PID_DEF (n : node) (data : Z)
| PORT_DEF (n : node) (num : Z)
| REF_DEF (n : node) (nums : list Z)
| EXPORT_DEF (m f arity : Z)
| FUN_DEF (fe : fun_entry) (arity : Z) (creator : node * Z) (env : list term).
Set Elimination Schemes.
Lemma term_ind (P : term -> Prop) :
  (forall i, P (SMALL_DEF i)) -> (forall b, P (BIG_DEF b)) -> (forall f, P (FLOAT_DEF f)) -> (forall a, P (ATOM_DEF a)) -> P NIL_DEF ->
  (forall hd tl, P hd -> P tl -> P (LIST_DEF hd tl)) -> (forall ts, Forall P ts -> P (TUPLE_DEF ts)) ->
  (forall kvs, Forall (fun kv => P (fst kv) /\ P (snd kv)) kvs -> P (MAP_DEF kvs)) -> (forall bytes k, P (BINARY_DEF bytes k)) ->
  (forall n data, P (PID_DEF n data)) -> (forall n num, P (PORT_DEF n num)) -> (forall n nums, P (REF_DEF n nums)) -> (forall m f arity, P (EXPORT_DEF m f arity)) ->
  (forall fe arity creator env, Forall P env -> P (FUN_DEF fe arity creator env)) -> forall t, P t.
Proof.
  intros H1 H2 H3 H4 H5 H6 H7 H8 H9 H10 H11 H12 H13 H14. fix IH 1. intros t. destruct t as [| | | | |hd tl|ts|kvs| | | | | |fe arity creator env].
  - apply H1.
  - apply H2.
  - apply H3.
  - apply H4.
  - apply H5.
  - apply H6; apply IH.
  - apply H7. induction ts as [|t ts IHt]; constructor; [apply IH|exact IHt].
  - apply H8. induction kvs as [|[k v] kvs IHk]; constructor; [split; apply IH|exact IHk].
  - apply H9.
  - apply H10.
  - apply H11.
  - apply H12.
  - apply H13.
  - apply H14. induction env as [|t env IHt]; constructor; [apply IH|exact IHt].
Qed.
Definition is_list (t : term) : bool := match t with LIST_DEF _ _ => true | _ => false end.
Definition is_nil (t : term) : bool := match t with NIL_DEF => true | _ => false end.
Definition is_byte (t : term) : bool := match t with SMALL_DEF i => (0 <=? i) && (i <? 256) | _ => false end.

(** ** Bytes *)
Definition put_int8 (i : Z) : list Z := [Z.land i 0xff].
Definition put_int16 (i : Z) : list Z := [Z.land (Z.shiftr i 8) 0xff; Z.land i 0xff].
Definition put_int24 (i : Z) : list Z := [Z.land (Z.shiftr i 16) 0xff; Z.land (Z.shiftr i 8) 0xff; Z.land i 0xff].
Definition put_int32 (i : Z) : list Z := [Z.land (Z.shiftr i 24) 0xff; Z.land (Z.shiftr i 16) 0xff; Z.land (Z.shiftr i 8) 0xff; Z.land i 0xff].

(** What a decoder returns: [Malformed] when it finds an error, [Overrun] when
    it reads or writes outside its memory. *)
Inductive decoded (A : Type) := Got (a : A) | Malformed | Exit | Overrun.
Arguments Got {A} a. Arguments Malformed {A}. Arguments Exit {A}. Arguments Overrun {A}.
#[export] Instance decoded_bind : MBind decoded := fun A B f x =>
  match x with Got a => f a | Malformed => Malformed | Exit => Exit | Overrun => Overrun end.
Definition lift {A} (x : outcome A) : decoded A := match x with Ok a => Got a | Erl_exit => Exit | Undef => Overrun end.
Definition access {A} (x : option A) : decoded A := match x with Some a => Got a | None => Overrun end.
Definition valid {A} (x : option A) : decoded A := match x with Some a => Got a | None => Malformed end.
Definition check (b : bool) : decoded unit := if b then Got tt else Malformed.

(** The bytes from a position on; the memory ends with the list. *)
Definition get_int8 (p : list Z) : decoded Z := match p with b :: _ => Got b | _ => Overrun end.
Definition get_int16 (p : list Z) : decoded Z := match p with b1 :: b0 :: _ => Got (Z.lor (Z.shiftl b1 8) b0) | _ => Overrun end.
Definition get_int24 (p : list Z) : decoded Z :=
  match p with b2 :: b1 :: b0 :: _ => Got (Z.lor (Z.lor (Z.shiftl b2 16) (Z.shiftl b1 8)) b0) | _ => Overrun end.
(** An int: the first byte has the sign. *)
Definition get_int32 (p : list Z) : decoded Z :=
  match p with
  | b3 :: b2 :: b1 :: b0 :: _ => Got (s32 (Z.lor (Z.lor (Z.lor (Z.shiftl b3 24) (Z.shiftl b2 16)) (Z.shiftl b1 8)) b0))
  | _ => Overrun
  end.
Definition advance (n : Z) (p : list Z) : decoded (list Z) :=
  if (0 <=? n) && (n <=? Z.of_nat (length p)) then Got (drop (Z.to_nat n) p) else Overrun.
(** [n] bytes that are copied, and the position behind them. *)
Definition block (n : Z) (p : list Z) : decoded (list Z * list Z) := rest ← advance n p; Got (take (Z.to_nat n) p, rest).

(** ** The atom table, as the external format uses it *)
Class AtomOps (S : Type) := {
  at_put : list Z -> Z -> ErtsAtomEncoding -> S -> outcome (S * option Z);
  at_get : list Z -> Z -> ErtsAtomEncoding -> S -> outcome (option Z);
  at_tab : Z -> S -> outcome Atom;
  at_size : S -> Z;
  at_fun : S -> Z }.
#[export] Instance atom_table_ops : AtomOps atom_table := {|
  at_put := fun name len enc st => erts_atom_put name len enc false 0 st;
  at_get := erts_atom_get; at_tab := atom_tab; at_size := atom_table_size;
  at_fun := fun st => match erts_atom_get [102; 117; 110] 3 ERTS_ATOM_ENC_LATIN1 st with Ok (Some i) => i | _ => 0 end |}.
