(* ===== verification/ExtEncode.v ===== *)
(** The encoder (enc_term and what it calls, external.c) and the computation of the size of the
    result (encode_size_struct2), each with its work stack. *)

From S2P Require Import Prelude.
From stdpp Require Import base option list gmap.
From S2P Require Import BigNum BigConv Memory Utf8 Atoms ExtTerm.
Local Open Scope Z_scope.

(** No tags that only this emulator knows. *)
Class PlainTags (dflags : Z) : Prop := plain_tags : has DFLAG_INTERNAL_TAGS dflags = false.
#[export] Instance flags_plain : PlainTags TERM_TO_BINARY_DFLAGS := eq_refl.

Section Encode.
Context {S : Type} `{AtomOps S}.
(** The atom of the name of this node and its creation; the text of a float. *)
Variable this_node : Z * Z.
Variable sys_double_to_chars : Z * Z -> list Z.
(** The atom table, which is not changed, and the flags. *)
Variable atoms : S.
Variable dflags : Z.

(** The name of a node. *)
Definition node_name (n : node) : Z := match n with Some (name, _) => name | None => fst this_node end.
Definition creation (n : node) : Z := match n with Some (_, c) => c | None => snd this_node end.
(** Without a node, when the tags are for this emulator only. *)
Definition enc_creation (n : node) : Z := if has DFLAG_INTERNAL_TAGS dflags && bool_decide (n = None) then INTERNAL_CREATION else creation n.
(** Without a cache of atoms. *)
Definition enc_atom (atom : Z) : outcome (list Z) :=
  if has DFLAG_INTERNAL_TAGS dflags then Ok (if atom >=? Z.shiftl 1 16 then ATOM_INTERNAL_REF3 :: put_int24 atom else ATOM_INTERNAL_REF2 :: put_int16 atom)
  else
  a ← at_tab atom atoms;
  let len := Z.of_nat (length (a_name a)) in
  if has DFLAG_UTF8_ATOMS dflags || (latin1_chars a <? 0) then
    Ok ((if len >? 255 then ATOM_UTF8_EXT :: put_int16 len else SMALL_ATOM_UTF8_EXT :: put_int8 len) ++ a_name a)
  else
    let text := if len =? latin1_chars a then a_name a else erts_utf8_to_latin1 (length (a_name a)) (a_name a) in
    let n := Z.of_nat (length text) in
    Ok ((if (latin1_chars a <=? 255) && has DFLAG_SMALL_ATOM_TAGS dflags then SMALL_ATOM_EXT :: put_int8 n else ATOM_EXT :: put_int16 n) ++ text).
(** [enc_pid]. *)
Definition enc_pid (n : node) (data : Z) : outcome (list Z) :=
  a ← enc_atom (node_name n);
  Ok (PID_EXT :: a ++ put_int32 (pid_number data) ++ put_int32 (pid_serial data) ++ put_int8 (enc_creation n)).

Definition IS_SSMALL32 (x : Z) : bool := w64 (Z.shiftr x 31 + 1) <? 2.
Definition enc_big (b : bignum) : list Z :=
  let n := big_bytes b in
  (if n <? 256 then SMALL_BIG_EXT :: put_int8 n else LARGE_BIG_EXT :: put_int32 n) ++ [b2z (BIG_SIGN b)] ++ big_to_bytes b.
Definition enc_small (val : Z) : list Z :=
  if w64 val <? 256 then SMALL_INTEGER_EXT :: put_int8 val
  else if IS_SSMALL32 val then INTEGER_EXT :: put_int32 val
  else let big := small_to_big val in SMALL_BIG_EXT :: put_int8 (big_bytes big) ++ [b2z (BIG_SIGN big)] ++ big_to_bytes big.
Definition enc_float (f : Z * Z) : list Z :=
  if has DFLAG_NEW_FLOATS dflags then NEW_FLOAT_EXT :: put_int32 (snd f) ++ put_int32 (fst f)
  else let text := sys_double_to_chars f in FLOAT_EXT :: text ++ replicate (31 - length text) 0.
(** A binary whose bytes are elsewhere may be passed by reference, with the
    internal tags, when it has more than 32 bytes with those it shares with others. *)
Definition by_reference (bytes : list Z) : bool := has DFLAG_INTERNAL_TAGS dflags && (30 <? Z.of_nat (length bytes)).
(** A binary whose bits start at a byte, as [term] has them. *)
Definition enc_binary (bytes : list Z) (bitsize : Z) : list Z :=
  let n := Z.of_nat (length bytes) in
  if bitsize =? 0 then BINARY_EXT :: put_int32 n ++ bytes
  else if has DFLAG_BIT_BINARIES dflags then BIT_BINARY_EXT :: put_int32 n ++ [bitsize] ++ bytes
  else [SMALL_TUPLE_EXT; 2; BINARY_EXT] ++ put_int32 n ++ bytes ++ [SMALL_INTEGER_EXT; bitsize].

(** The bytes at the start of a list, and the length of the rest. *)
Fixpoint string_prefix (t : term) : list Z * term :=
  match t with
  | LIST_DEF (SMALL_DEF i) tl => if is_byte (SMALL_DEF i) then let '(bs, r) := string_prefix tl in (i :: bs, r) else ([], t)
  | _ => ([], t)
  end.
(** The cells of a list. *)
Fixpoint list_cells (t : term) : Z := match t with LIST_DEF _ tl => 1 + list_cells tl | _ => 0 end.
(** [is_external_string]: the length and whether the list is a string. *)
Definition is_external_string (t : term) : Z * bool :=
  let '(bs, r) := string_prefix t in
  let len := Z.of_nat (length bs) in
  (len + list_cells r, is_nil r && (len <? MAX_STRING_LEN)).

(** ** The work stack *)
(** The rest of an array stands for the pointer to its next element and the
    number of the elements that are left. *)
Inductive enc_frame :=
| ENC_TERM (obj : term)
| ENC_ONE_CONS (obj : term)
| ENC_PATCH_FUN_SIZE (size_p : nat)
| ENC_ARRAY (elements : list term).
(** The next term, if the jump is to L_jump_start, the bytes so far and the
    stack. *)
Record enc_state := mkEnc { obj : option term; ep : list Z; wstack : list enc_frame }.
(** The element of a cell is next, the rest is on the stack. *)
Definition encode_one_cons (t : term) (ep : list Z) (s : list enc_frame) : outcome enc_state :=
  match t with
  | LIST_DEF hd tl => Ok (mkEnc (Some hd) ep ((if is_list tl then ENC_ONE_CONS tl else ENC_TERM tl) :: s))
  | _ => Undef
  end.
(** Bytes are written over the ones at a position. *)
Definition patch (p : nat) (bs ep : list Z) : list Z := take p ep ++ bs ++ drop (p + length bs) ep.
(** A frame is taken from the stack. *)
Definition pop (f : enc_frame) (ep : list Z) (s : list enc_frame) : outcome enc_state :=
  match f with
  | ENC_TERM t => Ok (mkEnc (Some t) ep s)
  | ENC_ONE_CONS t => encode_one_cons t ep s
  | ENC_PATCH_FUN_SIZE p => Ok (mkEnc None (patch p (put_int32 (Z.of_nat (length ep - p))) ep) s)
  | ENC_ARRAY [] => Undef
  | ENC_ARRAY [t] => Ok (mkEnc (Some t) ep s)
  | ENC_ARRAY (t :: ts) => Ok (mkEnc (Some t) ep (ENC_ARRAY ts :: s))
  end.
Definition tuple_header (n : Z) : list Z := if n <=? 0xff then SMALL_TUPLE_EXT :: put_int8 n else LARGE_TUPLE_EXT :: put_int32 n.
(** The pairs but the first one are on the stack, and the first value. *)
Definition push_pairs (kvs : list (term * term)) (s : list enc_frame) : list enc_frame :=
  foldr (fun kv s => ENC_TERM (fst kv) :: ENC_TERM (snd kv) :: s) s kvs.
(** What follows the size of a fun. *)
Definition fun_header (fe : fun_entry) (arity : Z) (creator : node * Z) (num_free : Z) : outcome (list Z) :=
  m ← enc_atom (fe_module fe);
  p ← enc_pid (fst creator) (snd creator);
  Ok ([Z.land arity 0xff] ++ fe_uniq fe ++ put_int32 (fe_index fe) ++ put_int32 num_free ++ m ++ enc_small (fe_old_index fe) ++ enc_small (fe_old_uniq fe) ++ p).
(** For old nodes a fun is a tuple. *)
Definition fun_tuple (fe : fun_entry) (num_free : Z) : outcome (list Z) :=
  f ← enc_atom (at_fun atoms);
  m ← enc_atom (fe_module fe);
  Ok (SMALL_TUPLE_EXT :: put_int8 5 ++ f ++ m ++ (INTEGER_EXT :: put_int32 (fe_old_index fe)) ++ (INTEGER_EXT :: put_int32 (fe_old_uniq fe)) ++ SMALL_TUPLE_EXT :: put_int8 num_free).
(** The environment: its first term is next, the others are on the stack. *)
Definition fun_env (env : list term) (ep : list Z) (s : list enc_frame) : enc_state :=
  match env with [] => mkEnc None ep s | t :: env => mkEnc (Some t) ep (map ENC_TERM env ++ s) end.
(** A term is written, or its head, with its parts on the stack. A binary that may have to be
    passed by reference (internal tags) is outside of the model. *)
Definition encode_obj (t : term) (ep : list Z) (s : list enc_frame) : outcome enc_state :=
  match t with
  | NIL_DEF => Ok (mkEnc None (ep ++ [NIL_EXT]) s)
  | ATOM_DEF a => bs ← enc_atom a; Ok (mkEnc None (ep ++ bs) s)
  | SMALL_DEF val => Ok (mkEnc None (ep ++ enc_small val) s)
  | BIG_DEF b => Ok (mkEnc None (ep ++ enc_big b) s)
  | PID_DEF n data => bs ← enc_pid n data; Ok (mkEnc None (ep ++ bs) s)
  | REF_DEF n nums =>
      a ← enc_atom (node_name n);
      Ok (mkEnc None (ep ++ NEW_REFERENCE_EXT :: put_int16 (Z.of_nat (length nums)) ++ a ++ put_int8 (enc_creation n) ++ flat_map put_int32 nums) s)
  | PORT_DEF n num => a ← enc_atom (node_name n); Ok (mkEnc None (ep ++ PORT_EXT :: a ++ put_int32 num ++ put_int8 (enc_creation n)) s)
  | LIST_DEF hd tl =>
      let '(i, is_str) := is_external_string t in
      if is_str then Ok (mkEnc None (ep ++ STRING_EXT :: put_int16 i ++ fst (string_prefix t)) s)
      else encode_one_cons t (ep ++ LIST_EXT :: put_int32 i) s
  | TUPLE_DEF ts =>
      let ep := ep ++ tuple_header (Z.of_nat (length ts)) in
      Ok (mkEnc None ep (match ts with [] => s | _ => ENC_ARRAY ts :: s end))
  | MAP_DEF kvs =>
      let ep := ep ++ MAP_EXT :: put_int32 (Z.of_nat (length kvs)) in
      Ok (match kvs with [] => mkEnc None ep s | (k, v) :: kvs => mkEnc (Some k) ep (ENC_TERM v :: push_pairs kvs s) end)
  | FLOAT_DEF f => Ok (mkEnc None (ep ++ enc_float f) s)
  | BINARY_DEF bytes k => if by_reference bytes then Undef else Ok (mkEnc None (ep ++ enc_binary bytes k) s)
  | EXPORT_DEF m f arity =>
      mb ← enc_atom m; fb ← enc_atom f;
      if has DFLAG_EXPORT_PTR_TAG dflags then Ok (mkEnc None (ep ++ EXPORT_EXT :: mb ++ fb ++ enc_small arity) s)
      else Ok (mkEnc None (ep ++ SMALL_TUPLE_EXT :: put_int8 2 ++ mb ++ fb) s)
  | FUN_DEF fe arity creator env =>
      if has DFLAG_NEW_FUN_TAGS dflags then
        h ← fun_header fe arity creator (Z.of_nat (length env));
        let ep := ep ++ [NEW_FUN_EXT] in
        Ok (fun_env env (ep ++ [0; 0; 0; 0] ++ h) (ENC_PATCH_FUN_SIZE (length ep) :: s))
      else
        h ← fun_tuple fe (Z.of_nat (length env));
        Ok (fun_env env (ep ++ h) s)
  end.
(** One turn. *)
Definition enc_step (st : enc_state) : outcome enc_state :=
  match obj st, wstack st with
  | Some t, s => encode_obj t (ep st) s
  | None, f :: s => pop f (ep st) s
  | None, [] => Ok st
  end.
(** The loop, with fuel. *)
Fixpoint enc_loop (fuel : nat) (st : enc_state) : outcome (list Z) :=
  match obj st, wstack st with
  | None, [] => Ok (ep st)
  | _, _ => match fuel with O => Undef | Datatypes.S fuel => st ← enc_step st; enc_loop fuel st end
  end.
(** The turns that are enough for a term. *)
Fixpoint term_size (t : term) : nat :=
  match t with
  | LIST_DEF hd tl => Datatypes.S (Datatypes.S (term_size hd + term_size tl))
  | TUPLE_DEF ts => Datatypes.S (list_sum (map (fun t => Datatypes.S (term_size t)) ts))
  | MAP_DEF kvs => Datatypes.S (list_sum (map (fun kv => Datatypes.S (Datatypes.S (term_size (fst kv) + term_size (snd kv)))) kvs))
  | FUN_DEF _ _ _ env => Datatypes.S (Datatypes.S (list_sum (map (fun t => Datatypes.S (term_size t)) env)))
  | _ => 1%nat
  end.
(** [enc_term]. *)
Definition enc_term (t : term) : outcome (list Z) := enc_loop (term_size t) (mkEnc (Some t) [] []).

(** ** The size of the encoding, from another work stack *)
Definition atom_enc_size (atom : Z) : outcome Z :=
  if has DFLAG_INTERNAL_TAGS dflags then Ok (if atom >=? Z.shiftl 1 16 then 1 + 3 else 1 + 2)
  else
  a ← at_tab atom atoms;
  let len := Z.of_nat (length (a_name a)) in
  if has DFLAG_UTF8_ATOMS dflags || (latin1_chars a <? 0) then Ok (1 + 1 + len + (if len >? 255 then 1 else 0))
  else Ok (1 + 1 + latin1_chars a + (if (latin1_chars a >? 255) || negb (has DFLAG_SMALL_ATOM_TAGS dflags) then 1 else 0)).
Definition pid_enc_size (n : node) : outcome Z := a ← atom_enc_size (node_name n); Ok (1 + a + 4 + 4 + 1).
Definition small_enc_size (val : Z) : Z :=
  if w64 val <? 256 then 1 + 1 else if IS_SSMALL32 val then 1 + 4 else 1 + 1 + 1 + big_bytes (small_to_big val).
Definition big_enc_size (b : bignum) : Z := let i := big_bytes b in if i <? 256 then 1 + 1 + 1 + i else 1 + 4 + 1 + i.
(** [is_string]: the length of a list of bytes, or 0. *)
Definition is_string (t : term) : Z := let '(bs, r) := string_prefix t in if is_nil r then Z.of_nat (length bs) else 0.
(** A list that is a string, by the length [m]. *)
Definition short_string (m : Z) : bool := negb (m =? 0) && (m <? MAX_STRING_LEN).
Record size_state := mkSize { sz_obj : option term; result : Z; estack : list term }.
Definition handle_popped_obj (t : term) (result : Z) (s : list term) : size_state :=
  match t with
  | LIST_DEF hd tl => mkSize (Some hd) result (tl :: s)
  | NIL_DEF => mkSize None (result + 1) s
  | _ => mkSize (Some t) result s
  end.
(** What a list among the elements of an array adds: [m] is the result of
    is_string, for a tuple that of the tuple itself. *)
Definition list_extra (m : Z) (t : term) : Z := if is_list t then if short_string m then m + 2 + 1 else 5 else 0.
(** What the lists of an environment add. *)
Definition env_extra (env : list term) : Z := foldr (fun t r => list_extra (is_string t) t + r) 0 env.
(** The terms of an environment that are put on the stack. *)
Definition env_pushed (env : list term) : list term := List.filter (fun t => negb (is_list t && short_string (is_string t))) env.
(** A term is counted, or its head, with its parts on the stack; a binary passed by reference is
    outside of the model, as in [encode_obj]. *)
Definition size_obj (t : term) (result : Z) (s : list term) : outcome size_state :=
  match t with
  | NIL_DEF => Ok (mkSize None (result + 1) s)
  | ATOM_DEF a => n ← atom_enc_size a; Ok (mkSize None (result + n) s)
  | SMALL_DEF val => Ok (mkSize None (result + small_enc_size val) s)
  | BIG_DEF b => Ok (mkSize None (result + big_enc_size b) s)
  | PID_DEF n _ => i ← pid_enc_size n; Ok (mkSize None (result + i) s)
  | REF_DEF n nums => i ← atom_enc_size (node_name n); Ok (mkSize None (result + (1 + 2 + i + 1 + 4 * Z.of_nat (length nums))) s)
  | PORT_DEF n _ => i ← atom_enc_size (node_name n); Ok (mkSize None (result + (1 + i + 4 + 1)) s)
  | LIST_DEF _ _ =>
      let m := is_string t in
      if short_string m then Ok (mkSize None (result + (m + 2 + 1)) s) else Ok (handle_popped_obj t (result + 5) s)
  | TUPLE_DEF ts =>
      let arity := Z.of_nat (length ts) in
      let result := result + (if arity <=? 0xff then 1 + 1 else 1 + 4) in
      Ok (mkSize None (foldr (fun e r => list_extra (is_string t) e + r) result ts) (rev ts ++ s))
  | MAP_DEF kvs =>
      let extra l r := foldr (fun e r => list_extra (is_string e) e + r) r l in
      Ok (mkSize None (extra (map fst kvs) (extra (map snd kvs) (result + (1 + 4)))) (rev (map fst kvs) ++ rev (map snd kvs) ++ s))
  | FLOAT_DEF _ => Ok (mkSize None (result + (if has DFLAG_NEW_FLOATS dflags then 9 else 32)) s)
  | BINARY_DEF bytes k =>
      let binary_size := Z.of_nat (length bytes) - (if k =? 0 then 0 else 1) in
      if by_reference bytes then Undef else Ok (mkSize None (result + (1 + 4 + binary_size + 5)) s)
  | FUN_DEF fe arity creator env =>
      n ← (if has DFLAG_NEW_FUN_TAGS dflags then
             c ← pid_enc_size (fst creator);
             m ← atom_enc_size (fe_module fe);
             Ok (20 + 1 + 1 + 4 + 4 + c + m + 2 * (1 + 4))
           else
             f ← at_tab (at_fun atoms) atoms;
             m ← at_tab (fe_module fe) atoms;
             Ok (1 + 1 + (1 + 1 + 2 + Z.of_nat (length (a_name f))) + (1 + 1 + 2 + Z.of_nat (length (a_name m))) + 2 * (1 + 4) + (1 + (if Z.of_nat (length env) <? 0x100 then 1 else 4))));
      let result := result + n in
      Ok (match env with
          | [] => mkSize None result s
          | t :: env => mkSize (Some t) (result + env_extra env) (rev (env_pushed env) ++ s)
          end)
  | EXPORT_DEF m f arity =>
      mi ← atom_enc_size m; fi ← atom_enc_size f; Ok (mkSize None (result + (1 + mi + fi + small_enc_size arity)) s)
  end.
(** One turn. *)
Definition size_step (st : size_state) : outcome size_state :=
  match sz_obj st, estack st with
  | Some t, s => size_obj t (result st) s
  | None, t :: s => Ok (handle_popped_obj t (result st) s)
  | None, [] => Ok st
  end.
(** The loop, with fuel. *)
Fixpoint size_loop (fuel : nat) (st : size_state) : outcome Z :=
  match sz_obj st, estack st with
  | None, [] => Ok (result st)
  | _, _ => match fuel with O => Undef | Datatypes.S fuel => st ← size_step st; size_loop fuel st end
  end.
(** [encode_size_struct2]. *)
Definition encode_size_struct2 (t : term) : outcome Z := size_loop (term_size t) (mkSize (Some t) 0 []).

(** [erts_encode_ext_size_2]. *)
Definition erts_encode_ext_size_2 (t : term) : outcome Z := n ← encode_size_struct2 t; Ok (n + 1).
(** The buffer has the size that was computed; writing more is undefined. *)
Definition erts_term_to_binary (t : term) : outcome (list Z) :=
  size ← erts_encode_ext_size_2 t;
  bs ← enc_term t;
  let bs := VERSION_MAGIC :: bs in
  if Z.of_nat (length bs) >? size then Undef else Ok bs.
End Encode.
