(* ===== verification/ExtDecode.v ===== *)
(** The decoder (dec_term and what it calls, external.c; erts_validate_and_sort_map, erl_map.c):
    a heap of words on which the places that are still to be filled form a chain. *)

From S2P Require Import Prelude.
From stdpp Require Import base option list gmap.
From S2P Require Import BigNum BigConv Memory Atoms ExtTerm.
Local Open Scope Z_scope.

(** ** The heap *)
(** Words: terms, the links through the holes that are still to be filled, and
    the headers. A boxed object whose words are not looked at one by one is
    the value of its first word. *)
Inductive thing :=
| T_big (b : bignum)
| T_float (f : Z * Z)
| T_bin (bytes : list Z)
| T_sub_bin (orig : Z) (size bitsize : Z)
| T_pid (n : Z * Z) (data : Z)
| T_port (n : Z * Z) (num : Z)
| T_ref (n : node) (ref_words : Z) (nums : list Z)
| T_export (m f arity : Z)
| T_fun (fe : fun_entry) (arity num_free : Z).
Inductive word :=
| make_small (i : Z)
| make_atom (a : Z)
| NIL
| make_list (p : Z)
| make_boxed (p : Z)
| make_internal_pid (data : Z)
| make_internal_port (num : Z)
| LINK (next : option Z)
| make_arityval (n : Z)
| MAP_LINK (next : option Z)
| MAP_HEADER
| RAW (n : Z)
| THING (t : thing).
Notation heap := (gmap Z word).
(** The memory for the term ends at [limit]; negative addresses are variables. *)
Record dec_state (S : Type) := mkDec { ep : list Z; hp : Z; words : heap; limit : Z; next : option Z; maps_head : option Z; table : S }.
Arguments mkDec {S}. Arguments ep {S}. Arguments hp {S}. Arguments words {S}. Arguments limit {S}. Arguments next {S}. Arguments maps_head {S}. Arguments table {S}.

Section Decode.
Context {S : Type} `{AtomOps S}.
Variable this_node : Z * Z.
(** Only atoms that exist are accepted? *)
Variable safe : bool.
Notation state := (dec_state S).
Definition at_ep (p : list Z) (s : state) : state := mkDec p (hp s) (words s) (limit s) (next s) (maps_head s) (table s).
Definition grow (n : Z) (s : state) : state := mkDec (ep s) (hp s + n) (words s) (limit s) (next s) (maps_head s) (table s).
Definition at_next (n : option Z) (s : state) : state := mkDec (ep s) (hp s) (words s) (limit s) n (maps_head s) (table s).
Definition with_maps (m : option Z) (s : state) : state := mkDec (ep s) (hp s) (words s) (limit s) (next s) m (table s).
Definition with_atoms (t : S) (s : state) : state := mkDec (ep s) (hp s) (words s) (limit s) (next s) (maps_head s) t.
Definition put (a : Z) (w : word) (s : state) : decoded state :=
  if a <? limit s then Got (mkDec (ep s) (hp s) (<[a := w]> (words s)) (limit s) (next s) (maps_head s) (table s)) else Overrun.
Definition get (a : Z) (s : state) : decoded word := access (words s !! a).
(** Reading an integer moves the position. *)
Definition take_int (f : list Z -> decoded Z) (k : Z) (s : state) : decoded (Z * state) := n ← f (ep s); p ← advance k (ep s); Got (n, at_ep p s).
Definition take8 := take_int get_int8 1.
Definition take16 := take_int get_int16 2.
Definition take24 := take_int get_int24 3.
Definition take32 := take_int get_int32 4.
Definition take_block (n : Z) (s : state) : decoded (list Z * state) := '(bs, p) ← block n (ep s); Got (bs, at_ep p s).

(** ** Atoms and nodes *)
(** The atom with a name of [n] bytes. *)
Definition dec_atom_common (n : Z) (enc : ErtsAtomEncoding) (s : state) : decoded (Z * state) :=
  '(a, s) ← (if safe then a ← lift (at_get (ep s) n enc (table s)); Got (a, s)
             else '(t, a) ← lift (at_put (ep s) n enc (table s)); Got (a, with_atoms t s));
  a ← valid a;
  p ← advance n (ep s);
  Got (a, at_ep p s).
(** The atom with a tag, or [None] when the tag is not that of an atom. *)
Definition dec_atom_tag (tag : Z) : option (state -> decoded (Z * state)) :=
  if tag =? ATOM_CACHE_REF then Some (fun _ => Malformed)
  else if tag =? ATOM_EXT then Some (fun s => '(n, s) ← take16 s; dec_atom_common n ERTS_ATOM_ENC_LATIN1 s)
  else if tag =? SMALL_ATOM_EXT then Some (fun s => '(n, s) ← take8 s; dec_atom_common n ERTS_ATOM_ENC_LATIN1 s)
  else if tag =? ATOM_UTF8_EXT then Some (fun s => '(n, s) ← take16 s; dec_atom_common n ERTS_ATOM_ENC_UTF8 s)
  else if tag =? SMALL_ATOM_UTF8_EXT then Some (fun s => '(n, s) ← take8 s; dec_atom_common n ERTS_ATOM_ENC_UTF8 s)
  else if tag =? ATOM_INTERNAL_REF2 then Some (fun s => '(n, s) ← take16 s; _ ← check (n <? at_size (table s)); Got (n, s))
  else if tag =? ATOM_INTERNAL_REF3 then Some (fun s => '(n, s) ← take24 s; _ ← check (n <? at_size (table s)); Got (n, s))
  else None.
(** [dec_atom]. *)
Definition dec_atom (s : state) : decoded (Z * state) := '(tag, s) ← take8 s; f ← valid (dec_atom_tag tag); f s.
(** A node stands for its entry of the table, which finds this node by its name and its creation. *)
Definition erts_find_or_insert_node (sysname creation : Z) : node :=
  if (sysname =? fst this_node) && (creation =? snd this_node) then None else Some (sysname, creation).
(** [dec_get_node]. *)
Definition dec_get_node (sysname creation : Z) : node :=
  if creation =? INTERNAL_CREATION then None
  else if (creation =? ORIG_CREATION) && (sysname =? fst this_node) then erts_find_or_insert_node sysname (snd this_node)
  else erts_find_or_insert_node sysname creation.
(** A word that is a new boxed object of [n] words. *)
Definition boxed (t : thing) (n : Z) (s : state) : decoded (word * state) := let p := hp s in s ← put p (THING t) s; Got (make_boxed p, grow n s).
(** [dec_pid]. *)
Definition dec_pid (s : state) : decoded (word * state) :=
  '(sysname, s) ← dec_atom s;
  '(num, s) ← take32 s;
  _ ← check (w64 num <=? ERTS_MAX_PID_NUMBER);
  '(ser, s) ← take32 s;
  _ ← check (w64 ser <=? ERTS_MAX_PID_SERIAL);
  '(cre, s) ← take8 s;
  _ ← check (is_valid_creation cre);
  let data := make_pid_data ser num in
  match dec_get_node sysname cre with None => Got (make_internal_pid data, s) | Some n => boxed (T_pid n data) (EXTERNAL_THING_HEAD_SIZE + 1) s end.
(** A port. *)
Definition dec_port (s : state) : decoded (word * state) :=
  '(sysname, s) ← dec_atom s;
  '(num, s) ← take32 s;
  _ ← check (w64 num <=? ERTS_MAX_PORT_NUMBER);
  '(cre, s) ← take8 s;
  _ ← check (is_valid_creation cre);
  match dec_get_node sysname cre with None => Got (make_internal_port num, s) | Some n => boxed (T_port n num) (EXTERNAL_THING_HEAD_SIZE + 1) s end.
Fixpoint take_words (n : nat) (s : state) : decoded (list Z * state) :=
  match n with O => Got ([], s) | Datatypes.S n => '(w, s) ← take32 s; '(ws, s) ← take_words n s; Got (u32 w :: ws, s) end.
(** A reference, whose first word is read. *)
Definition ref_ext_common (sysname cre ref_words r0 : Z) (s : state) : decoded (word * state) :=
  let n := dec_get_node sysname cre in
  '(ws, s) ← take_words (Z.to_nat (ref_words - 1)) s;
  boxed (T_ref n ref_words (r0 :: ws)) ((match n with None => REF_THING_HEAD_SIZE | Some _ => EXTERNAL_THING_HEAD_SIZE end) + ref_words / 2 + 1) s.
Definition dec_reference (s : state) : decoded (word * state) :=
  '(sysname, s) ← dec_atom s;
  '(r0, s) ← take32 s;
  _ ← check (u32 r0 <? MAX_REFERENCE);
  '(cre, s) ← take8 s;
  _ ← check (is_valid_creation cre);
  ref_ext_common sysname cre 1 (u32 r0) s.
Definition dec_new_reference (s : state) : decoded (word * state) :=
  '(ref_words, s) ← take16 s;
  _ ← check (ref_words <=? ERTS_MAX_REF_NUMBERS);
  '(sysname, s) ← dec_atom s;
  '(cre, s) ← take8 s;
  _ ← check (is_valid_creation cre);
  '(r0, s) ← take32 s;
  _ ← check (u32 r0 <? MAX_REFERENCE);
  ref_ext_common sysname cre ref_words (u32 r0) s.

(** ** Numbers and binaries *)
Fixpoint strip_zeroes (r : list Z) : list Z := match r with 0 :: r => strip_zeroes r | _ => r end.
(** A bignum without its leading zeroes, as a word. *)
Definition dec_big (n : Z) (s : state) : decoded (word * state) :=
  '(neg, s) ← take8 s;
  '(bs, s) ← take_block n s;
  match rev (strip_zeroes (rev bs)) with
  | [] => Got (make_small 0, s)
  | bs =>
      match bytes_to_big bs (negb (neg =? 0)) with
      | BigNum.make_small i => Got (make_small i, s)
      | BigNum.make_big b => boxed (T_big b) (Z.of_nat (BIG_SIZE b) + 1) s
      | BigNum.NIL => Got (NIL, s)
      end
  end.
(** The syntax check of sys_chars_to_double, which reads up to a byte 0. *)
Definition ISDIGIT (c : Z) : bool := (48 <=? c) && (c <=? 57).
Fixpoint skip_digits (p : list Z) : decoded (list Z) :=
  match p with c :: rest => if ISDIGIT c then skip_digits rest else Got p | [] => Overrun end.
(** One digit or more. *)
Definition digits1 (p : list Z) : decoded (list Z) := c ← get_int8 p; _ ← check (ISDIGIT c); skip_digits p.
Definition skip_sign (p : list Z) : decoded (list Z) := c ← get_int8 p; Got (if (c =? 43) || (c =? 45) then tail p else p).
Definition scan_float (p : list Z) : decoded unit :=
  p ← skip_sign p;
  p ← digits1 p;
  c ← get_int8 p;
  _ ← check ((c =? 46) || (c =? 44));
  p ← digits1 (tail p);
  c ← get_int8 p;
  p ← (if (c =? 101) || (c =? 69) then p ← skip_sign (tail p); digits1 p else Got p);
  c ← get_int8 p;
  check (c =? 0).
(** The value of the text up to the byte 0 (the C function strtod, tried again
    with the other decimal point): [None] when it is out of range. *)
Variable strtod : list Z -> option (Z * Z).
Fixpoint c_string (p : list Z) : list Z := match p with 0 :: _ => [] | c :: p => c :: c_string p | [] => [] end.
Definition dec_old_float (s : state) : decoded (word * state) :=
  _ ← scan_float (ep s);
  f ← valid (strtod (c_string (ep s)));
  p ← advance 31 (ep s);
  boxed (T_float f) FLOAT_SIZE_OBJECT (at_ep p s).
(** Is the number finite? The exponent bits are not all ones. *)
Definition is_finite (f : Z * Z) : bool := negb (Z.land (snd f) 0x7ff00000 =? 0x7ff00000).
Definition dec_new_float (s : state) : decoded (word * state) :=
  '(w1, s) ← take32 s;
  '(w0, s) ← take32 s;
  let f := (u32 w0, u32 w1) in
  _ ← check (is_finite f);
  boxed (T_float f) FLOAT_SIZE_OBJECT s.
(** The words of a binary on the heap. *)
Definition bin_words (n : Z) : Z := if u32 n <=? ERL_ONHEAP_BIN_LIMIT then heap_bin_size n else PROC_BIN_SIZE.
(** A binary; the bytes of a large one are behind its words. *)
Definition dec_binary (s : state) : decoded (word * state) :=
  '(n, s) ← take32 s;
  '(bs, s) ← take_block n s;
  boxed (T_bin bs) (bin_words n) s.
Definition dec_bit_binary (s : state) : decoded (word * state) :=
  '(n, s) ← take32 s;
  '(bitsize, s) ← take8 s;
  _ ← check (Bool.eqb (bitsize =? 0) (n =? 0) && (bitsize <=? 8));
  '(bs, s) ← take_block n s;
  '(bin, s) ← boxed (T_bin bs) (bin_words n) s;
  if (bitsize =? 8) || (n =? 0) then Got (bin, s)
  else match bin with make_boxed p => boxed (T_sub_bin p (n - 1) bitsize) ERL_SUB_BIN_SIZE s | _ => Overrun end.

(** ** Lists, tuples, maps and funs *)
(** Holes from the address [a] down, in front of the chain. *)
Fixpoint link_down (n : nat) (a : Z) (s : state) : decoded state :=
  match n with O => Got s | Datatypes.S n => s ← put a (LINK (next s)) s; link_down n (a - 1) (at_next (Some a) s) end.
(** List cells from the address [a] down, each with a hole for its element. *)
Fixpoint link_cells (n : nat) (a : Z) (s : state) : decoded state :=
  match n with
  | O => Got s
  | Datatypes.S n =>
      nx ← access (next s);
      s ← put a (LINK (next s)) s;
      s ← put (a + 1) (make_list nx) s;
      link_cells n (a - 2) (at_next (Some a) s)
  end.
(** Holes for keys and values; the key is filled first. *)
Fixpoint link_pairs (n : nat) (k v : Z) (s : state) : decoded state :=
  match n with
  | O => Got s
  | Datatypes.S n => s ← put v (LINK (next s)) s; s ← put k (LINK (Some v)) s; link_pairs n (k - 1) (v - 1) (at_next (Some k) s)
  end.
Fixpoint string_cells (bs : list Z) (s : state) : decoded state :=
  match bs with
  | [] => Got s
  | b :: bs => s ← put (hp s) (make_small b) s; s ← put (hp s + 1) (make_list (hp s + 2)) s; string_cells bs (grow 2 s)
  end.
Definition nonneg (n : Z) : decoded unit := if n <? 0 then Overrun else Got tt.
Definition dec_tuple (objp n : Z) (s : state) : decoded state :=
  _ ← nonneg n;
  s ← put objp (make_boxed (hp s)) s;
  s ← put (hp s) (make_arityval n) s;
  let s := grow (1 + n) s in
  link_down (Z.to_nat n) (hp s - 1) s.
Definition dec_list (objp n : Z) (s : state) : decoded state :=
  _ ← nonneg n;
  if n =? 0 then Got (at_next (Some objp) s)
  else
    s ← put objp (make_list (hp s)) s;
    let s := grow (2 * n) s in
    let cell := hp s - 2 in
    s ← put cell (LINK (Some (cell + 1))) s;
    s ← put (cell + 1) (LINK (next s)) s;
    link_cells (Z.to_nat (n - 1)) (cell - 2) (at_next (Some cell) s).
Definition dec_string (objp n : Z) (s : state) : decoded state :=
  if n =? 0 then put objp NIL s
  else
    s ← put objp (make_list (hp s)) s;
    '(bs, s) ← take_block n s;
    s ← string_cells bs s;
    put (hp s - 1) NIL s.
Definition dec_map (objp : Z) (s : state) : decoded state :=
  '(size, s) ← take32 s;
  let size := u32 size in
  let keys := hp s in
  s ← put keys (make_arityval size) s;
  let mp := keys + 1 + size in
  s ← put mp (MAP_LINK (maps_head s)) s;
  s ← put (mp + 1) (RAW size) s;
  s ← put (mp + 2) (make_boxed keys) s;
  s ← put objp (make_boxed mp) s;
  let s := grow (1 + size + MAP_HEADER_SIZE + size) (with_maps (Some mp) s) in
  link_pairs (Z.to_nat size) (mp - 1) (hp s - 1) s.

(** [rec]: a term of its own, put in the variable at an address. *)
Variable rec : Z -> state -> decoded (word * state).
Variable erts_active_export_entry : Z -> Z -> Z -> bool.
(** The arity in the code of an old fun. *)
Variable old_fun_arity : Z -> Z -> Z -> Z.
Definition is_small (w : word) : option Z := match w with make_small i => Some i | _ => None end.
(** A small integer, decoded as a term of its own. *)
Definition dec_small (root : Z) (s : state) : decoded (Z * state) := '(w, s) ← rec (root - 1) s; i ← valid (is_small w); Got (i, s).
Definition dec_export (root : Z) (s : state) : decoded (word * state) :=
  '(m, s) ← dec_atom s;
  '(name, s) ← dec_atom s;
  '(arity, s) ← dec_small root s;
  _ ← check (0 <=? arity);
  _ ← check (negb safe || erts_active_export_entry m name arity);
  boxed (T_export m name arity) 2 s.
Definition dec_new_fun (root objp : Z) (s : state) : decoded state :=
  p ← advance 4 (ep s);
  '(arity, s) ← take8 (at_ep p s);
  '(uniq, s) ← take_block 16 s;
  '(index, s) ← take32 s;
  '(num_free, s) ← take32 s;
  let num_free := u32 num_free in
  let funp := hp s in
  let s := grow (ERL_FUN_SIZE + num_free) s in
  s ← put objp (make_boxed funp) s;
  '(module, s) ← dec_atom s;
  '(old_index, s) ← dec_small root s;
  '(old_uniq, s) ← dec_small root s;
  s ← put funp (THING (T_fun (mkFunEntry module uniq index (s32 old_uniq) (s32 old_index)) arity num_free)) s;
  s ← link_down (Z.to_nat num_free) (funp + ERL_FUN_SIZE + num_free - 1) s;
  link_down 1 (funp + ERL_FUN_SIZE - 1) s.
Definition dec_fun (root objp : Z) (s : state) : decoded state :=
  '(num_free, s) ← take32 s;
  let num_free := u32 num_free in
  let funp := hp s in
  let s := grow (ERL_FUN_SIZE + num_free) s in
  s ← put objp (make_boxed funp) s;
  '(tag, s) ← take8 s;
  _ ← check (tag =? PID_EXT);
  '(creator, s) ← dec_pid s;
  s ← put (funp + ERL_FUN_SIZE - 1) creator s;
  '(module, s) ← dec_atom s;
  '(old_index, s) ← dec_small root s;
  '(old_uniq, s) ← dec_small root s;
  s ← put funp (THING (T_fun (mkFunEntry module [] 0 (s32 old_uniq) (s32 old_index)) (old_fun_arity module old_uniq old_index - num_free) num_free)) s;
  link_down (Z.to_nat num_free) (funp + ERL_FUN_SIZE + num_free - 1) s.

(** The objects that are complete when they are read. The internal tags have
    pointers, which are not for bytes from elsewhere. *)
Definition dec_leaf (root tag : Z) : option (state -> decoded (word * state)) :=
  if tag =? INTEGER_EXT then Some (fun s => '(n, s) ← take32 s; Got (make_small n, s))
  else if tag =? SMALL_INTEGER_EXT then Some (fun s => '(n, s) ← take8 s; Got (make_small n, s))
  else if tag =? SMALL_BIG_EXT then Some (fun s => '(n, s) ← take8 s; dec_big n s)
  else if tag =? LARGE_BIG_EXT then Some (fun s => '(n, s) ← take32 s; dec_big n s)
  else if tag =? NIL_EXT then Some (fun s => Got (NIL, s))
  else if tag =? FLOAT_EXT then Some dec_old_float
  else if tag =? NEW_FLOAT_EXT then Some dec_new_float
  else if tag =? PID_EXT then Some dec_pid
  else if tag =? PORT_EXT then Some dec_port
  else if tag =? REFERENCE_EXT then Some dec_reference
  else if tag =? NEW_REFERENCE_EXT then Some dec_new_reference
  else if tag =? BINARY_EXT then Some dec_binary
  else if tag =? BIT_BINARY_EXT then Some dec_bit_binary
  else if tag =? EXPORT_EXT then Some (dec_export root)
  else if (tag =? BINARY_INTERNAL_REF) || (tag =? BIT_BINARY_INTERNAL_REF) then Some (fun _ => Overrun)
  else match dec_atom_tag tag with Some f => Some (fun s => '(a, s) ← f s; Got (make_atom a, s)) | None => None end.
(** The objects with holes for their parts. *)
Definition dec_compound (root tag : Z) : option (Z -> state -> decoded state) :=
  if tag =? SMALL_TUPLE_EXT then Some (fun objp s => '(n, s) ← take8 s; dec_tuple objp n s)
  else if tag =? LARGE_TUPLE_EXT then Some (fun objp s => '(n, s) ← take32 s; dec_tuple objp n s)
  else if tag =? LIST_EXT then Some (fun objp s => '(n, s) ← take32 s; dec_list objp n s)
  else if tag =? STRING_EXT then Some (fun objp s => '(n, s) ← take16 s; dec_string objp n s)
  else if tag =? MAP_EXT then Some dec_map
  else if tag =? NEW_FUN_EXT then Some (dec_new_fun root)
  else if tag =? FUN_EXT then Some (dec_fun root)
  else None.
(** One turn of the loop: the first hole is filled. *)
Definition dec_step (root objp : Z) (s : state) : decoded state :=
  link ← get objp s;
  nx ← (match link with LINK nx => Got nx | _ => Overrun end);
  '(tag, s) ← take8 (at_next nx s);
  match dec_leaf root tag with
  | Some f => '(w, s) ← f s; put objp w s
  | None => match dec_compound root tag with Some f => f objp s | None => Malformed end
  end.
End Decode.

(** ** The loop, and the maps at its end *)
Section Term.
Context {S : Type} `{AtomOps S}.
Variable this_node : Z * Z.
Variable safe : bool.
Variable strtod : list Z -> option (Z * Z).
Variable erts_active_export_entry : Z -> Z -> Z -> bool.
Variable old_fun_arity : Z -> Z -> Z -> Z.
(** The comparison of two terms, by their words and the heap. *)
Variable CMP_TERM : S -> heap -> word -> word -> decoded Z.
Notation state := (dec_state S).
(** A key is moved down to its place, with its value; two equal keys are an error. *)
Fixpoint sort_key (jx : nat) (ks vs : Z) (s : state) : decoded state :=
  match jx with
  | O => Got s
  | Datatypes.S j =>
      k1 ← get (ks + Z.of_nat jx) s;
      k0 ← get (ks + Z.of_nat j) s;
      c ← CMP_TERM (table s) (words s) k1 k0;
      if c <=? 0 then
        if c =? 0 then Malformed
        else
          s ← put (ks + Z.of_nat jx) k0 s;
          s ← put (ks + Z.of_nat j) k1 s;
          v1 ← get (vs + Z.of_nat jx) s;
          v0 ← get (vs + Z.of_nat j) s;
          s ← put (vs + Z.of_nat jx) v0 s;
          s ← put (vs + Z.of_nat j) v1 s;
          sort_key j ks vs s
      else Got s
  end.
(** The keys from the index [ix] on, [n] of them. *)
Fixpoint sort_keys (n ix : nat) (ks vs : Z) (s : state) : decoded state :=
  match n with O => Got s | Datatypes.S n => s ← sort_key ix ks vs s; sort_keys n (Datatypes.S ix) ks vs s end.
(** [erts_validate_and_sort_map]. *)
Definition erts_validate_and_sort_map (mp : Z) (s : state) : decoded state :=
  keys ← get (mp + 2) s;
  size ← get (mp + 1) s;
  match keys, size with
  | make_boxed k, RAW sz => sort_keys (Z.to_nat (sz - 1)) 1 (k + 1) (mp + 3) s
  | _, _ => Overrun
  end.
(** The maps that were read are sorted, the last one first. *)
Fixpoint validate_maps (fuel : nat) (s : state) : decoded state :=
  match maps_head s with
  | None => Got s
  | Some mp =>
      match fuel with
      | O => Overrun
      | Datatypes.S fuel =>
          link ← get mp s;
          nx ← (match link with MAP_LINK nx => Got nx | _ => Overrun end);
          s ← put mp MAP_HEADER s;
          s ← erts_validate_and_sort_map mp s;
          validate_maps fuel (with_maps nx s)
      end
  end.
(** [fuel] bounds the turns, which read a byte each, with those of the terms
    inside exports and funs. *)
Fixpoint dec_loop (fuel : nat) (root : Z) (s : state) : decoded state :=
  match next s with
  | None => Got s
  | Some objp =>
      match fuel with
      | O => Overrun
      | Datatypes.S fuel =>
          let nested r s0 :=
            (s1 ← put r (LINK None) s0;
             s1 ← dec_loop fuel r (at_next (Some r) (with_maps None s1));
             s1 ← validate_maps fuel s1;
             w ← get r s1;
             Got (w, at_next (next s0) (with_maps (maps_head s0) s1))) in
          s ← dec_step this_node safe strtod nested erts_active_export_entry old_fun_arity root objp s;
          dec_loop fuel root s
      end
  end.
(** [dec_term], without a context to trap. *)
Definition dec_term (fuel : nat) (r : Z) (s0 : state) : decoded (word * state) :=
  s1 ← put r (LINK None) s0;
  s1 ← dec_loop fuel r (at_next (Some r) (with_maps None s1));
  s1 ← validate_maps fuel s1;
  w ← get r s1;
  Got (w, at_next (next s0) (with_maps (maps_head s0) s1)).
End Term.
