(* ===== verification/ExtSpec.v ===== *)
(** The external format as a recursive definition [ext], the terms [wf_term] that have one, and
    that the encoder with its work stack writes it. What encoder and decoder rely on of the atom
    table is the class [AtomLaws], which the atom table of [Atoms] has. *)

From S2P Require Import Prelude.
From stdpp Require Import base option list gmap.
From S2P Require Import BigNum BigConv TermOrder Memory HashTable HashSpec IndexTable Utf8 Atoms AtomSpec ExtTerm ExtEncode ExtDecode.
Local Open Scope Z_scope.

Definition all_of {A} (P : A -> Prop) (l : list A) : Prop := foldr (fun x Q => P x /\ Q) True l.
Lemma all_of_Forall {A} (P : A -> Prop) l : all_of P l <-> Forall P l.
Proof. induction l; cbn; rewrite ?Forall_cons; [split; auto|tauto]. Qed.
Lemma sum_cons x l : list_sum (x :: l) = (x + list_sum l)%nat. Proof. reflexivity. Qed.

(** ** The format of a term, by recursion on the term *)
Section Spec.
Context {S : Type} `{AtomOps S}.
Variable this_node : Z * Z.
Variable sys_double_to_chars : Z * Z -> list Z.
Variable atoms : S.
Variable dflags : Z.
Notation enc_atom := (enc_atom atoms dflags).
Notation enc_pid := (enc_pid this_node atoms dflags).
Notation fun_header := (fun_header this_node atoms dflags).
Notation fun_tuple := (fun_tuple atoms dflags).
Notation enc_step := (enc_step this_node sys_double_to_chars atoms dflags).
Notation enc_loop := (enc_loop this_node sys_double_to_chars atoms dflags).
Notation encode_obj := (encode_obj this_node sys_double_to_chars atoms dflags).
Notation enc_term := (enc_term this_node sys_double_to_chars atoms dflags).

Definition bytes_of (x : outcome (list Z)) : list Z := match x with Ok bs => bs | _ => [] end.
Definition written (x : outcome (list Z)) : Prop := x = Ok (bytes_of x).
Definition atom_ext (a : Z) : list Z := bytes_of (enc_atom a).
Definition pid_ext (n : node) (data : Z) : list Z :=
  PID_EXT :: atom_ext (node_name this_node n) ++ put_int32 (pid_number data) ++ put_int32 (pid_serial data) ++ put_int8 (creation this_node n).
(** [inside]: the term is the tail of a list, whose cells have no header. *)
Fixpoint ext (inside : bool) (t : term) : list Z :=
  match t with
  | SMALL_DEF i => enc_small i
  | BIG_DEF b => enc_big b
  | FLOAT_DEF f => enc_float sys_double_to_chars dflags f
  | ATOM_DEF a => atom_ext a
  | NIL_DEF => [NIL_EXT]
  | LIST_DEF hd tl =>
      let '(i, is_str) := is_external_string (LIST_DEF hd tl) in
      if inside then ext false hd ++ ext true tl
      else if is_str then STRING_EXT :: put_int16 i ++ fst (string_prefix (LIST_DEF hd tl))
      else (LIST_EXT :: put_int32 i) ++ ext false hd ++ ext true tl
  | TUPLE_DEF ts => tuple_header (Z.of_nat (length ts)) ++ flat_map (ext false) ts
  | MAP_DEF kvs => (MAP_EXT :: put_int32 (Z.of_nat (length kvs))) ++ flat_map (fun kv => ext false (fst kv) ++ ext false (snd kv)) kvs
  | BINARY_DEF bytes k => enc_binary dflags bytes k
  | PID_DEF n data => pid_ext n data
  | PORT_DEF n num => PORT_EXT :: atom_ext (node_name this_node n) ++ put_int32 num ++ put_int8 (creation this_node n)
  | REF_DEF n nums =>
      NEW_REFERENCE_EXT :: put_int16 (Z.of_nat (length nums)) ++ atom_ext (node_name this_node n) ++ put_int8 (creation this_node n) ++ flat_map put_int32 nums
  | EXPORT_DEF m f arity =>
      if has DFLAG_EXPORT_PTR_TAG dflags then EXPORT_EXT :: atom_ext m ++ atom_ext f ++ enc_small arity
      else SMALL_TUPLE_EXT :: put_int8 2 ++ atom_ext m ++ atom_ext f
  | FUN_DEF fe arity creator env =>
      if has DFLAG_NEW_FUN_TAGS dflags then
        let body := bytes_of (fun_header fe arity creator (Z.of_nat (length env))) ++ flat_map (ext false) env in
        NEW_FUN_EXT :: put_int32 (Z.of_nat (length body) + 4) ++ body
      else bytes_of (fun_tuple fe (Z.of_nat (length env))) ++ flat_map (ext false) env
  end.
(** All atoms of the term are in the table. *)
Fixpoint atoms_known (t : term) : Prop :=
  match t with
  | ATOM_DEF a => written (enc_atom a)
  | LIST_DEF hd tl => atoms_known hd /\ atoms_known tl
  | TUPLE_DEF ts => all_of atoms_known ts
  | MAP_DEF kvs => all_of (fun kv => atoms_known (fst kv) /\ atoms_known (snd kv)) kvs
  | PID_DEF n _ | PORT_DEF n _ | REF_DEF n _ => written (enc_atom (node_name this_node n))
  | EXPORT_DEF m f _ => written (enc_atom m) /\ written (enc_atom f)
  | FUN_DEF fe arity creator env =>
      written (enc_atom (fe_module fe)) /\ written (enc_atom (if has DFLAG_NEW_FUN_TAGS dflags then node_name this_node (fst creator) else at_fun atoms)) /\ all_of atoms_known env
  | _ => True
  end.

(** ** The encoder writes the format *)
(** A number of turns that writes [bs], without looking below in the stack. *)
Definition writes (t : term) (bs : list Z) (n : nat) : Prop :=
  forall fuel p s, enc_loop (n + fuel) (mkEnc (Some t) p s) = enc_loop fuel (mkEnc None (p ++ bs) s).
Lemma enc_turn fuel st : (obj st = None -> wstack st <> []) -> enc_loop (1 + fuel) st = (st ← enc_step st; enc_loop fuel st).
Proof. intros N. cbn [Nat.add ExtEncode.enc_loop]. destruct (obj st); [reflexivity|]. destruct (wstack st); [now destruct N|reflexivity]. Qed.
Lemma enc_obj fuel t p s : enc_loop (1 + fuel) (mkEnc (Some t) p s) = (st ← encode_obj t p s; enc_loop fuel st).
Proof. now rewrite enc_turn. Qed.
Lemma enc_pop fuel f p s : enc_loop (1 + fuel) (mkEnc None p (f :: s)) = (st ← pop f p s; enc_loop fuel st).
Proof. now rewrite enc_turn. Qed.
Lemma enc_done n bs : enc_loop n (mkEnc None bs []) = Ok bs.
Proof. now destruct n. Qed.

Lemma writes_leaf t bs : (forall p s, encode_obj t p s = Ok (mkEnc None (p ++ bs) s)) -> writes t bs 1.
Proof. intros E fuel p s. now rewrite enc_obj, E. Qed.
(** What is written when frames are taken from the stack. *)
Definition unstacks (fs : list enc_frame) (bs : list Z) (n : nat) : Prop :=
  forall fuel p s, enc_loop (n + fuel) (mkEnc None p (fs ++ s)) = enc_loop fuel (mkEnc None (p ++ bs) s).
Lemma unstacks_nil : unstacks [] [] 0.
Proof. intros fuel p s. now rewrite app_nil_r. Qed.
Lemma unstacks_cons t fs bs1 bs2 n1 n2 : writes t bs1 n1 -> unstacks fs bs2 n2 -> unstacks (ENC_TERM t :: fs) (bs1 ++ bs2) (1 + (n1 + n2)).
Proof.
  intros W U fuel p s. replace (1 + (n1 + n2) + fuel)%nat with (1 + (n1 + (n2 + fuel)))%nat by lia. cbn [app]. rewrite enc_pop. cbn [pop mbind outcome_bind].
  now rewrite W, U, app_assoc.
Qed.
Lemma unstacks_first t fs bs1 bs2 n1 n2 : writes t bs1 n1 -> unstacks fs bs2 n2 ->
  forall fuel p s, enc_loop ((n1 + n2) + fuel) (mkEnc (Some t) p (fs ++ s)) = enc_loop fuel (mkEnc None (p ++ bs1 ++ bs2) s).
Proof. intros W U fuel p s. rewrite <- Nat.add_assoc, W, U, <- app_assoc. reflexivity. Qed.
Lemma unstacks_terms ts f : Forall (fun t => exists n, writes t (f t) n /\ (n <= term_size t)%nat) ts ->
  exists n, unstacks (map ENC_TERM ts) (flat_map f ts) n /\ (n <= list_sum (map (fun t => Datatypes.S (term_size t)) ts))%nat.
Proof.
  induction 1 as [|t ts (n & W & Hn) _ (m & U & Hm)]; [exists 0%nat; split; [apply unstacks_nil|cbn; lia]|].
  exists (1 + (n + m))%nat. split; [now apply unstacks_cons|]. cbn [map]. rewrite sum_cons. lia.
Qed.
(** An array. *)
Lemma unstacks_array ts f : ts <> [] -> Forall (fun t => exists n, writes t (f t) n /\ (n <= term_size t)%nat) ts ->
  exists n, unstacks [ENC_ARRAY ts] (flat_map f ts) n /\ (n <= list_sum (map (fun t => Datatypes.S (term_size t)) ts))%nat.
Proof.
  intros Hne F. induction F as [|t ts (n & W & Hn) F IH]; [congruence|]. destruct ts as [|t' ts].
  - exists (1 + n)%nat. split; [|cbn [map]; rewrite !sum_cons; lia]. intros fuel p s. rewrite <- Nat.add_assoc. cbn [app]. rewrite enc_pop. cbn [pop mbind outcome_bind flat_map].
    now rewrite W, app_nil_r.
  - destruct IH as (m & U & Hm); [discriminate|]. exists (1 + (n + m))%nat. split; [|cbn [map] in *; rewrite !sum_cons in *; lia].
    intros fuel p s. replace (1 + (n + m) + fuel)%nat with (1 + (n + (m + fuel)))%nat by lia. cbn [app]. rewrite enc_pop. cbn [pop mbind outcome_bind].
    rewrite W. change (ENC_ARRAY (t' :: ts) :: s) with ([ENC_ARRAY (t' :: ts)] ++ s). rewrite U, <- app_assoc. reflexivity.
Qed.
Lemma unstacks_pairs kvs f : Forall (fun kv => (exists n, writes (fst kv) (f (fst kv)) n /\ (n <= term_size (fst kv))%nat) /\
    (exists n, writes (snd kv) (f (snd kv)) n /\ (n <= term_size (snd kv))%nat)) kvs ->
  exists n, unstacks (push_pairs kvs []) (flat_map (fun kv => f (fst kv) ++ f (snd kv)) kvs) n /\
    (n <= list_sum (map (fun kv => Datatypes.S (Datatypes.S (term_size (fst kv) + term_size (snd kv)))) kvs))%nat.
Proof.
  induction 1 as [|[k v] kvs [(n1 & W1 & Hn1) (n2 & W2 & Hn2)] _ (m & U & Hm)]; [exists 0%nat; split; [apply unstacks_nil|cbn; lia]|].
  exists (1 + (n1 + (1 + (n2 + m))))%nat. cbn [fst snd] in *. split; [|cbn [map fst snd]; rewrite sum_cons; cbn [fst snd]; lia]. cbn [flat_map fst snd]. rewrite <- app_assoc.
  apply (unstacks_cons k (ENC_TERM v :: push_pairs kvs [])); auto. now apply unstacks_cons.
Qed.
Lemma push_pairs_app kvs s : push_pairs kvs s = push_pairs kvs [] ++ s.
Proof. induction kvs as [|[k v] kvs IH]; [reflexivity|]. cbn [push_pairs foldr fst snd app]. f_equal. f_equal. exact IH. Qed.

(** The frame for the tail of a list. *)
Definition tail_frame (t : term) : enc_frame := if is_list t then ENC_ONE_CONS t else ENC_TERM t.
Definition encodes (t : term) : Prop :=
  (exists n, writes t (ext false t) n /\ (n <= term_size t)%nat) /\ (exists n, unstacks [tail_frame t] (ext true t) n /\ (n <= 1 + term_size t)%nat).
Lemma encodes_flat t : is_list t = false -> ext true t = ext false t -> (exists n, writes t (ext false t) n /\ (n <= term_size t)%nat) -> encodes t.
Proof.
  intros L E (n & W & Hn). split; [eauto|]. exists (1 + (n + 0))%nat. split; [|lia]. unfold tail_frame. rewrite L, E, <- (app_nil_r (ext false t)).
  apply unstacks_cons; [exact W|apply unstacks_nil].
Qed.
Lemma encodes_leaf t : is_list t = false -> ext true t = ext false t -> (forall p s, encode_obj t p s = Ok (mkEnc None (p ++ ext false t) s)) -> encodes t.
Proof. intros L E W. apply encodes_flat; auto. exists 1%nat. split; [now apply writes_leaf|destruct t; cbn; lia]. Qed.
Lemma writes_cells hd tl : encodes hd -> encodes tl -> exists n, (n <= term_size (LIST_DEF hd tl))%nat /\
  forall fuel p s, enc_loop (n + fuel) (mkEnc (Some hd) p (tail_frame tl :: s)) = enc_loop fuel (mkEnc None (p ++ ext false hd ++ ext true tl) s) /\ (1 + n <= term_size (LIST_DEF hd tl))%nat.
Proof.
  intros [(n & W & Hn) _] [_ (m & U & Hm)]. exists (n + m)%nat. cbn [term_size]. split; [lia|]. intros fuel p s. split; [|lia].
  apply (unstacks_first hd [tail_frame tl]); auto.
Qed.
Lemma ext_cells hd tl : ext true (LIST_DEF hd tl) = ext false hd ++ ext true tl.
Proof. cbn [ext]. now destruct (is_external_string _). Qed.
Lemma encodes_list hd tl : encodes hd -> encodes tl -> encodes (LIST_DEF hd tl).
Proof.
  intros H1 H2. destruct (writes_cells hd tl H1 H2) as (n & _ & E). pose proof (proj2 (E 0%nat [] [])) as Hn. split.
  - exists (if (is_external_string (LIST_DEF hd tl)).2 then 1%nat else (1 + n)%nat). split; [|destruct (_.2); cbn [term_size] in *; lia].
    intros fuel p s. destruct (is_external_string (LIST_DEF hd tl)) as [i b] eqn:Es. cbn [ext snd]. rewrite Es. destruct b.
    + rewrite enc_obj. cbn [ExtEncode.encode_obj]. rewrite Es. reflexivity.
    + rewrite <- Nat.add_assoc, enc_obj. cbn [ExtEncode.encode_obj]. rewrite Es. cbn [encode_one_cons mbind outcome_bind].
      change (if is_list tl then ENC_ONE_CONS tl else ENC_TERM tl) with (tail_frame tl). rewrite (proj1 (E _ _ _)), <- app_assoc. reflexivity.
  - exists (1 + n)%nat. split; [|lia]. intros fuel p s. rewrite <- Nat.add_assoc. cbn [app]. unfold tail_frame at 1. cbn [is_list].
    rewrite enc_pop. cbn [pop encode_one_cons mbind outcome_bind].
    change (if is_list tl then ENC_ONE_CONS tl else ENC_TERM tl) with (tail_frame tl). now rewrite (proj1 (E _ _ _)), ext_cells.
Qed.
Lemma encodes_tuple ts : Forall encodes ts -> encodes (TUPLE_DEF ts).
Proof.
  intros F. apply encodes_flat; auto. cbn [term_size].
  assert (F' : Forall (fun t => exists n, writes t (ext false t) n /\ (n <= term_size t)%nat) ts) by (eapply Forall_impl; [exact F|]; intros t [Ht _]; exact Ht).
  destruct ts as [|t ts].
  - exists 1%nat. split; [apply writes_leaf; intros p s; cbn; now rewrite app_nil_r|cbn; lia].
  - destruct (unstacks_array (t :: ts) (ext false) ltac:(discriminate) F') as (n & U & Hn). exists (1 + n)%nat. split; [|lia]. intros fuel p s.
    rewrite <- Nat.add_assoc, enc_obj. cbn [ExtEncode.encode_obj mbind outcome_bind]. change (ENC_ARRAY (t :: ts) :: s) with ([ENC_ARRAY (t :: ts)] ++ s).
    rewrite U, <- app_assoc. reflexivity.
Qed.
Lemma encodes_map kvs : Forall (fun kv => encodes (fst kv) /\ encodes (snd kv)) kvs -> encodes (MAP_DEF kvs).
Proof.
  intros F. apply encodes_flat; auto. cbn [term_size].
  assert (F' : Forall (fun kv => (exists n, writes (fst kv) (ext false (fst kv)) n /\ (n <= term_size (fst kv))%nat) /\
    (exists n, writes (snd kv) (ext false (snd kv)) n /\ (n <= term_size (snd kv))%nat)) kvs) by (eapply Forall_impl; [exact F|]; intros kv [[A _] [B _]]; auto).
  destruct kvs as [|[k v] kvs].
  - exists 1%nat. split; [now apply writes_leaf|cbn; lia].
  - inversion F' as [|? ? [(n1 & W1 & Hn1) (n2 & W2 & Hn2)] F2]; subst. cbn [fst snd] in *. destruct (unstacks_pairs _ _ F2) as (m & U & Hm).
    exists (1 + (n1 + (1 + (n2 + m))))%nat. split; [|cbn [map fst snd]; rewrite sum_cons; cbn [fst snd]; lia]. intros fuel p s.
    rewrite <- Nat.add_assoc, enc_obj. cbn [ExtEncode.encode_obj mbind outcome_bind fst snd]. rewrite push_pairs_app.
    change (ENC_TERM v :: push_pairs kvs [] ++ s) with ((ENC_TERM v :: push_pairs kvs []) ++ s).
    rewrite (unstacks_first k _ _ _ _ _ W1 (unstacks_cons v _ _ _ _ _ W2 U)). cbn [ext flat_map fst snd]. now rewrite <- !app_assoc.
Qed.
Lemma patch_spec p old new rest : length old = length new -> patch (length p) new (p ++ old ++ rest) = p ++ new ++ rest.
Proof.
  intros E. unfold patch. rewrite take_app_length. f_equal. f_equal. rewrite <- E. rewrite app_assoc, drop_app_length' by (rewrite length_app; lia). reflexivity.
Qed.
Lemma fun_tuple_written fe n : written (enc_atom (fe_module fe)) -> written (enc_atom (at_fun atoms)) -> written (fun_tuple fe n).
Proof. unfold written, ExtEncode.fun_tuple. intros -> ->. reflexivity. Qed.
Lemma fun_header_written fe arity creator n : written (enc_atom (fe_module fe)) -> written (enc_atom (node_name this_node (fst creator))) ->
  written (fun_header fe arity creator n).
Proof. unfold written, ExtEncode.fun_header, ExtEncode.enc_pid. intros -> ->. reflexivity. Qed.
Lemma encodes_fun fe arity creator env : (if has DFLAG_NEW_FUN_TAGS dflags then written (fun_header fe arity creator (Z.of_nat (length env))) else written (fun_tuple fe (Z.of_nat (length env)))) -> Forall encodes env -> encodes (FUN_DEF fe arity creator env).
Proof.
  intros Wh F. apply encodes_flat; auto. cbn [term_size].
  assert (F' : Forall (fun t => exists n, writes t (ext false t) n /\ (n <= term_size t)%nat) env) by (eapply Forall_impl; [exact F|]; intros t [Ht _]; exact Ht).
  assert (G : exists m, (m <= list_sum (map (fun t => Datatypes.S (term_size t)) env))%nat /\ forall fuel p s,
    enc_loop (m + fuel) (fun_env env p s) = enc_loop fuel (mkEnc None (p ++ flat_map (ext false) env) s)).
  { destruct env as [|t env]; [exists 0%nat; split; [lia|]; intros; cbn; now rewrite app_nil_r|].
    inversion F' as [|? ? (n & W & Hn) F2]; subst. destruct (unstacks_terms _ _ F2) as (m & U & Hm). exists (n + m)%nat. split; [cbn [map]; rewrite !sum_cons; lia|].
    intros fuel p s. cbn [fun_env]. rewrite (unstacks_first t _ _ _ _ _ W U). reflexivity. }
  destruct G as (m & Hm & G). destruct (has DFLAG_NEW_FUN_TAGS dflags) eqn:En.
  2:{ exists (1 + m)%nat. split; [|lia]. intros fuel p s. rewrite <- Nat.add_assoc, enc_obj. cbn [ExtEncode.encode_obj ext]. rewrite En, Wh. cbn [mbind outcome_bind bytes_of]. now rewrite G, <- app_assoc. }
  exists (1 + (m + 1))%nat. split; [|lia]. intros fuel p s. set (h := bytes_of (fun_header fe arity creator (Z.of_nat (length env)))) in *.
  replace (1 + (m + 1) + fuel)%nat with (1 + (m + (1 + fuel)))%nat by lia. rewrite enc_obj. cbn [ExtEncode.encode_obj]. rewrite En, Wh. fold h. cbn [mbind outcome_bind].
  rewrite G, enc_pop. cbn [pop mbind outcome_bind ext]. rewrite En. fold h. do 2 f_equal.
  set (q := p ++ [NEW_FUN_EXT]). rewrite <- (app_assoc q). rewrite <- (app_assoc [0; 0; 0; 0]). rewrite patch_spec by reflexivity. subst q. rewrite <- app_assoc. cbn [app].
  do 3 f_equal. f_equal. rewrite !length_app. cbn [length]. rewrite length_app. lia.
Qed.
Context {plain : PlainTags dflags}.
Lemma enc_creation_plain n : enc_creation this_node dflags n = creation this_node n.
Proof. unfold enc_creation. now rewrite plain. Qed.
Lemma enc_pid_plain n data : written (enc_atom (node_name this_node n)) -> enc_pid n data = Ok (pid_ext n data).
Proof. intros W. unfold ExtEncode.enc_pid, pid_ext, atom_ext. rewrite W, enc_creation_plain. reflexivity. Qed.
Lemma atoms_known_written t : atoms_known t -> match t with FUN_DEF _ _ _ _ => True | _ => is_list t = false ->
  match t with TUPLE_DEF _ | MAP_DEF _ => True | _ => forall p s, encode_obj t p s = Ok (mkEnc None (p ++ ext false t) s) end end.
Proof.
  destruct t; cbn [atoms_known is_list]; auto; intros K L p s; try discriminate L; cbn [ExtEncode.encode_obj ext]; unfold written in *; try reflexivity.
  - unfold atom_ext. now rewrite K.
  - unfold by_reference. now rewrite plain.
  - now rewrite enc_pid_plain.
  - unfold atom_ext. now rewrite K, enc_creation_plain.
  - unfold atom_ext. now rewrite K, enc_creation_plain.
  - destruct K as [K1 K2]. unfold atom_ext. rewrite K1, K2. cbn [mbind outcome_bind bytes_of]. now destruct (has _ _).
Qed.
Lemma encodes_all t : atoms_known t -> encodes t.
Proof.
  induction t as [i|b|f|a| |hd tl IH1 IH2|ts IH|kvs IH|bytes k|n data|n num|n nums|m f arity|fe arity creator env IH] using term_ind; intros K;
    try (apply encodes_leaf; auto; apply (atoms_known_written _ K); reflexivity).
  - destruct K. apply encodes_list; auto.
  - apply encodes_tuple. cbn in K. apply all_of_Forall in K. rewrite Forall_forall in *. auto.
  - apply encodes_map. cbn in K. apply all_of_Forall in K. rewrite Forall_forall in *. intros kv Hk. destruct (IH kv Hk), (K kv Hk). auto.
  - cbn in K. destruct K as (K1 & K2 & K3). apply encodes_fun; [destruct (has DFLAG_NEW_FUN_TAGS dflags); [now apply fun_header_written|now apply fun_tuple_written]|]. apply all_of_Forall in K3. rewrite Forall_forall in *. auto.
Qed.
(** The encoder ends, with the format of the term. *)
Lemma enc_term_ext t : atoms_known t -> enc_term t = Ok (ext false t).
Proof.
  intros K. destruct (encodes_all t K) as [(n & W & Hn) _]. unfold ExtEncode.enc_term. replace (term_size t) with (n + (term_size t - n))%nat by lia.
  rewrite W. apply enc_done.
Qed.
End Spec.

(** ** Atoms, as the format relies on them *)
(** The text of an atom whose characters are Latin-1. *)
Definition latin1_text (x : Atom) : list Z :=
  if Z.of_nat (length (a_name x)) =? latin1_chars x then a_name x else erts_utf8_to_latin1 (length (a_name x)) (a_name x).
Class AtomLaws (S : Type) `{AtomOps S} := {
  known : S -> Z -> Atom -> Prop;
  known_tab st a x : known st a x -> at_tab a st = Ok x;
  known_inj st a b x y : known st a x -> known st b y -> a_name x = a_name y -> a = b;
  known_ord0 st a x : known st a x -> a_ord0 x = TermOrder.ord0 (a_name x);
  known_name st a x : known st a x -> Forall byte (a_name x) /\ Z.of_nat (length (a_name x)) <= 4 * 255;
  known_latin1 st a x : known st a x -> 0 <= latin1_chars x -> Forall byte (latin1_text x) /\ Z.of_nat (length (latin1_text x)) = latin1_chars x /\ latin1_chars x <= 255;
  put_latin1_known st a x rest : known st a x -> 0 <= latin1_chars x -> at_put (latin1_text x ++ rest) (latin1_chars x) ERTS_ATOM_ENC_LATIN1 st = Ok (st, Some a);
  get_latin1_known st a x rest : known st a x -> 0 <= latin1_chars x -> at_get (latin1_text x ++ rest) (latin1_chars x) ERTS_ATOM_ENC_LATIN1 st = Ok (Some a);
  put_utf8_known st a x rest : known st a x -> at_put (a_name x ++ rest) (Z.of_nat (length (a_name x))) ERTS_ATOM_ENC_UTF8 st = Ok (st, Some a);
  get_utf8_known st a x rest : known st a x -> at_get (a_name x ++ rest) (Z.of_nat (length (a_name x))) ERTS_ATOM_ENC_UTF8 st = Ok (Some a) }.

(** The atom table of the emulator has these laws. *)
Definition known_atom (st : atom_table) (a : Z) (x : Atom) : Prop := exists l i p, atoms_ok st l /\ a = Z.of_nat i /\ l !! i = Some (p, x).
Lemma known_text st a x : known_atom st a x -> exists l i cps, atoms_ok st l /\ a = Z.of_nat i /\ position a_name (a_name x) l = Some i /\ at_tab a st = Ok x /\
  text_of (a_name x) cps /\ latin1_chars x = latin_count cps.
Proof.
  intros (l & i & p & A & -> & Hi). pose proof A as [R G]. pose proof (list_elem_of_lookup_2 _ _ _ Hi) as Hin. apply list_elem_of_In in Hin.
  rewrite List.Forall_forall in G. destruct (G _ Hin) as (cps & T & L & _). exists l, i, cps. splits; auto.
  - exact (irep_position _ _ _ _ _ _ _ _ R Hi).
  - exact (atom_tab_spec _ _ _ _ _ A Hi).
Qed.
Lemma latin1_text_spec x cps : text_of (a_name x) cps -> latin1_chars x = latin_count cps -> 0 <= latin1_chars x -> latin1_text x = cps /\ Forall byte cps /\ latin1_chars x = Z.of_nat (length cps).
Proof.
  intros (V & Hl & E) L Hx. unfold latin_count in L. destruct (all_latin1 cps) eqn:La; [|lia].
  assert (F : Forall byte cps).
  { unfold all_latin1 in La. rewrite forallb_forall in La. rewrite List.Forall_forall in *. intros c Hc. specialize (La c Hc). apply Z.ltb_lt in La.
    specialize (V c Hc). unfold valid_char in V. unfold byte. lia. }
  splits; auto. unfold latin1_text. rewrite L, E. destruct (Z.eqb_spec (Z.of_nat (length (encode_all cps))) (Z.of_nat (length cps))) as [El|_]; [|apply latin1_decode; auto].
  apply Nat2Z.inj in El. clear - F El. induction F as [|c cps Hc _ IH]; [reflexivity|]. rewrite encode_all_cons, length_app in *. cbn [length] in El.
  pose proof (encode_all_length cps). pose proof (proj1 (encode_length c)). rewrite IH by lia. assert (E1 : length (encode c) = 1%nat) by lia. clear - E1 Hc.
  unfold encode in *. destruct (c <? 128); [reflexivity|]. destruct (c <? 0x800); [discriminate|]. now destruct (c <? 0x10000).
Qed.
#[export] Program Instance atom_table_laws : AtomLaws atom_table := {| known := known_atom |}.
Next Obligation. intros st a x K. now destruct (known_text st a x K) as (? & ? & ? & ? & ? & ? & ? & ?). Qed.
Next Obligation.
  intros st a b x y Ka Kb E. destruct (known_text st a x Ka) as (l & i & cps & A & -> & Hp & _ & (V & Hl & T) & _), (known_text st b y Kb) as (l' & j & cps' & A' & -> & Hp' & _ & (V' & Hl' & T') & _).
  pose proof (get_utf8 st l cps [] A V Hl) as G. pose proof (get_utf8 st l' cps' [] A' V' Hl') as G'. rewrite <- T in G. rewrite <- T' in G'. rewrite <- E, Hp' in *. rewrite Hp in G. rewrite G in G'. cbn in G'. congruence.
Qed.
Next Obligation.
  intros st a x (l & i & p & [_ G] & -> & Hi). apply list_elem_of_lookup_2, list_elem_of_In in Hi. rewrite List.Forall_forall in G. destruct (G _ Hi) as (cps & _ & _ & E). exact E.
Qed.
Next Obligation.
  intros st a x K. destruct (known_text st a x K) as (? & ? & cps & _ & _ & _ & _ & (V & Hl & ->) & _). pose proof (encode_all_length cps). split; [now apply encode_all_bytes|lia].
Qed.
Next Obligation.
  intros st a x K Hx. destruct (known_text st a x K) as (? & ? & cps & _ & _ & _ & _ & T & L). destruct (latin1_text_spec x cps T L Hx) as (-> & F & ->). destruct T as (_ & Hl & _). splits; auto. lia.
Qed.
Next Obligation.
  intros st a x rest K Hx. destruct (known_text st a x K) as (l & i & cps & A & -> & Hp & _ & T & L). destruct (latin1_text_spec x cps T L Hx) as (-> & F & ->). destruct T as (_ & Hl & E).
  cbn. rewrite (put_latin1 st l) by auto. unfold interned. rewrite <- E, Hp. reflexivity.
Qed.
Next Obligation.
  intros st a x rest K Hx. destruct (known_text st a x K) as (l & i & cps & A & -> & Hp & _ & T & L). destruct (latin1_text_spec x cps T L Hx) as (-> & F & ->). destruct T as (_ & Hl & E).
  unfold at_get, atom_table_ops. rewrite (get_latin1 st l), <- E, Hp by auto. reflexivity.
Qed.
Next Obligation.
  intros st a x rest K. destruct (known_text st a x K) as (l & i & cps & A & -> & Hp & _ & (V & Hl & E) & L). cbn. rewrite E, (put_utf8 st l) by auto. unfold interned. now rewrite <- E, Hp.
Qed.
Next Obligation.
  intros st a x rest K. destruct (known_text st a x K) as (l & i & cps & A & -> & Hp & _ & (V & Hl & E) & L). unfold at_get, atom_table_ops. rewrite E, (get_utf8 st l), <- E, Hp by auto. reflexivity.
Qed.

(** ** Terms that a process can have *)
Section Wf.
Context {S : Type} `{AtomLaws S}.
Variable this_node : Z * Z.
Variable st : S.
Definition is_atom (a : Z) : Prop := exists x, known st a x.
(** A node that is not this one; its creation is not that of one without a name. *)
Definition node_ok (n : node) : Prop :=
  is_atom (node_name this_node n) /\ 0 <= creation this_node n < MAX_CREATION /\
  match n with Some (name, c) => (name, c) <> this_node /\ (c = ORIG_CREATION -> name <> fst this_node) | None => True end.
Definition bits_ok (bytes : list Z) (k : Z) : Prop := 0 <= k < 8 /\ (k <> 0 -> bytes <> []).
Definition pid_ok (n : node) (data : Z) : Prop := node_ok n /\ 0 <= data < 2 ^ 28.
Definition fun_ok (fe : fun_entry) (arity num_free : Z) : Prop :=
  is_atom (fe_module fe) /\ length (fe_uniq fe) = 16%nat /\ Forall byte (fe_uniq fe) /\ - 2 ^ 31 <= fe_index fe < 2 ^ 31 /\
  - 2 ^ 31 <= fe_old_uniq fe < 2 ^ 31 /\ - 2 ^ 31 <= fe_old_index fe < 2 ^ 31 /\ 0 <= arity < 256 /\ num_free <= MAX_ARG.
Fixpoint wf_term (t : term) : Prop :=
  match t with
  | SMALL_DEF i => IS_SSMALL i = true
  | BIG_DEF b => canonical b
  | FLOAT_DEF f => 0 <= fst f < 2 ^ 32 /\ 0 <= snd f < 2 ^ 32 /\ is_finite f = true
  | ATOM_DEF a => is_atom a
  | NIL_DEF => True
  | LIST_DEF hd tl => wf_term hd /\ wf_term tl
  | TUPLE_DEF ts => all_of wf_term ts
  | MAP_DEF kvs => all_of (fun kv => wf_term (fst kv) /\ wf_term (snd kv)) kvs
  | BINARY_DEF bytes k => Forall byte bytes /\ bits_ok bytes k
  | PID_DEF n data => pid_ok n data
  | PORT_DEF n num => node_ok n /\ 0 <= num <= ERTS_MAX_PORT_NUMBER
  | REF_DEF n nums => node_ok n /\ (1 <= length nums <= 3)%nat /\ Forall (fun w => 0 <= w < 2 ^ 32) nums /\ hd 0 nums < MAX_REFERENCE
  | EXPORT_DEF m f arity => is_atom m /\ is_atom f /\ 0 <= arity <= MAX_ARG
  | FUN_DEF fe arity creator env => fun_ok fe arity (Z.of_nat (length env)) /\ pid_ok (fst creator) (snd creator) /\ all_of wf_term env
  end.
End Wf.
