(* ===== verification/ExtSize.v ===== *)
(** That the size the encoder computes is enough for the bytes it writes. *)

From S2P Require Import Prelude.
From stdpp Require Import base option list gmap.
From S2P Require Import BigNum BigConv Memory Utf8 Atoms ExtTerm ExtEncode ExtDecode ExtSpec.
Local Open Scope Z_scope.

Definition total {A} (f : A -> Z) (l : list A) : Z := foldr (fun x r => f x + r) 0 l.
Lemma total_cons {A} (f : A -> Z) x l : total f (x :: l) = f x + total f l. Proof. reflexivity. Qed.
Lemma total_app {A} (f : A -> Z) l l' : total f (l ++ l') = total f l + total f l'.
Proof. induction l as [|x l IH]; [reflexivity|]. cbn [app]. rewrite !total_cons, IH. lia. Qed.
Lemma total_rev {A} (f : A -> Z) l : total f (rev l) = total f l.
Proof. induction l as [|x l IH]; [reflexivity|]. cbn [rev]. rewrite total_app, IH, !total_cons. cbn. lia. Qed.
Lemma total_map {A B} (f : B -> Z) (g : A -> B) l : total f (map g l) = total (fun x => f (g x)) l.
Proof. induction l as [|x l IH]; [reflexivity|]. cbn [map]. now rewrite !total_cons, IH. Qed.
Lemma total_plus {A} (f g : A -> Z) l : total (fun x => f x + g x) l = total f l + total g l.
Proof. induction l as [|x l IH]; [reflexivity|]. rewrite !total_cons, IH. lia. Qed.
Lemma total_le {A} (f g : A -> Z) l : Forall (fun x => f x <= g x) l -> total f l <= total g l.
Proof. induction 1 as [|x l Hx _ IH]; [reflexivity|]. rewrite !total_cons. lia. Qed.
Lemma foldr_total {A} (f : A -> Z) l z : foldr (fun x r => f x + r) z l = total f l + z.
Proof. induction l as [|x l IH]; [reflexivity|]. cbn [foldr]. rewrite IH, total_cons. lia. Qed.
Lemma length_flat_map {A} (f : A -> list Z) l : Z.of_nat (length (flat_map f l)) = total (fun x => Z.of_nat (length (f x))) l.
Proof. induction l as [|x l IH]; [reflexivity|]. cbn [flat_map]. rewrite length_app, total_cons, <- IH. lia. Qed.

Section Size.
Context {S : Type} `{AtomOps S}.
Variable this_node : Z * Z.
Variable sys_double_to_chars : Z * Z -> list Z.
Variable atoms : S.
Variable dflags : Z.
Notation enc_atom := (enc_atom atoms dflags).
Notation atom_enc_size := (atom_enc_size atoms dflags).
Notation pid_enc_size := (pid_enc_size this_node atoms dflags).
Notation size_step := (size_step this_node atoms dflags).
Notation size_loop := (size_loop this_node atoms dflags).
Notation size_obj := (size_obj this_node atoms dflags).
Notation ext := (ext this_node sys_double_to_chars atoms dflags).

(** ** What the size loop computes *)
Definition size_of (x : outcome Z) : Z := match x with Ok n => n | _ => 0 end.
(** What a fun adds without its environment. *)
Definition fun_size (fe : fun_entry) (creator : node * Z) (num_free : Z) : outcome Z :=
  if has DFLAG_NEW_FUN_TAGS dflags then
    c ← pid_enc_size (fst creator);
    m ← atom_enc_size (fe_module fe);
    Ok (20 + 1 + 1 + 4 + 4 + c + m + 2 * (1 + 4))
  else
    f ← at_tab (at_fun atoms) atoms;
    m ← at_tab (fe_module fe) atoms;
    Ok (1 + 1 + (1 + 1 + 2 + Z.of_nat (length (a_name f))) + (1 + 1 + 2 + Z.of_nat (length (a_name m))) + 2 * (1 + 4) + (1 + (if num_free <? 0x100 then 1 else 4))).
(** [popped]: the term was taken from the stack, where a list has no header. *)
Fixpoint ext_size (popped : bool) (t : term) : Z :=
  match t with
  | NIL_DEF => 1
  | ATOM_DEF a => size_of (atom_enc_size a)
  | SMALL_DEF val => small_enc_size val
  | BIG_DEF b => big_enc_size b
  | PID_DEF n _ => size_of (pid_enc_size n)
  | REF_DEF n nums => 1 + 2 + size_of (atom_enc_size (node_name this_node n)) + 1 + 4 * Z.of_nat (length nums)
  | PORT_DEF n _ => 1 + size_of (atom_enc_size (node_name this_node n)) + 4 + 1
  | LIST_DEF hd tl =>
      let m := is_string t in
      if popped then ext_size false hd + ext_size true tl
      else if short_string m then m + 2 + 1 else 5 + (ext_size false hd + ext_size true tl)
  | TUPLE_DEF ts => (if Z.of_nat (length ts) <=? 0xff then 1 + 1 else 1 + 4) + total (fun e => list_extra 0 e + ext_size true e) ts
  | MAP_DEF kvs => 1 + 4 + total (fun kv => (list_extra (is_string (fst kv)) (fst kv) + ext_size true (fst kv)) +
                                            (list_extra (is_string (snd kv)) (snd kv) + ext_size true (snd kv))) kvs
  | FLOAT_DEF _ => if has DFLAG_NEW_FLOATS dflags then 9 else 32
  | BINARY_DEF bytes k => 1 + 4 + (Z.of_nat (length bytes) - (if k =? 0 then 0 else 1)) + 5
  | EXPORT_DEF m f arity => 1 + size_of (atom_enc_size m) + size_of (atom_enc_size f) + small_enc_size arity
  | FUN_DEF fe arity creator env =>
      size_of (fun_size fe creator (Z.of_nat (length env))) +
      match env with
      | [] => 0
      | e :: env => ext_size false e + total (fun e => list_extra (is_string e) e + if is_list e && short_string (is_string e) then 0 else ext_size true e) env
      end
  end.

Lemma enc_size_written a : written (enc_atom a) -> atom_enc_size a = Ok (size_of (atom_enc_size a)).
Proof.
  unfold written, ExtEncode.enc_atom, ExtEncode.atom_enc_size. destruct (has DFLAG_INTERNAL_TAGS dflags); [reflexivity|]. destruct (at_tab a atoms) as [x| |]; cbn [mbind outcome_bind]; try discriminate. intros _. now destruct (_ || _).
Qed.
Lemma size_turn fuel t r s : size_loop (1 + fuel) (mkSize (Some t) r s) = (st ← size_obj t r s; size_loop fuel st).
Proof. reflexivity. Qed.
Lemma size_pop fuel t r s : size_loop (1 + fuel) (mkSize None r (t :: s)) = size_loop fuel (handle_popped_obj t r s).
Proof. reflexivity. Qed.
Definition measures (t : term) (z : Z) (n : nat) : Prop :=
  forall fuel r s, size_loop (n + fuel) (mkSize (Some t) r s) = size_loop fuel (mkSize None (r + z) s).
Definition pops (ts : list term) (z : Z) (n : nat) : Prop :=
  forall fuel r s, size_loop (n + fuel) (mkSize None r (ts ++ s)) = size_loop fuel (mkSize None (r + z) s).
Definition sized (t : term) : Prop :=
  (exists n, measures t (ext_size false t) n /\ (n <= term_size t)%nat) /\ (exists n, pops [t] (ext_size true t) n /\ (n <= 1 + term_size t)%nat).
Lemma pops_nil : pops [] 0 0.
Proof. intros fuel r s. now rewrite Z.add_0_r. Qed.
Lemma pops_app ts ts' z z' n n' : pops ts z n -> pops ts' z' n' -> pops (ts ++ ts') (z + z') (n + n').
Proof. intros P P' fuel r s. now rewrite <- Nat.add_assoc, <- app_assoc, P, P', Z.add_assoc. Qed.
Lemma pops_all ts : Forall sized ts -> exists n, pops ts (total (ext_size true) ts) n /\ (n <= list_sum (map (fun t => Datatypes.S (term_size t)) ts))%nat.
Proof.
  induction 1 as [|t ts [_ (n & P & Hn)] _ (m & Q & Hm)]; [exists 0%nat; split; [apply pops_nil|cbn; lia]|].
  exists (n + m)%nat. cbn [map]. rewrite total_cons, sum_cons. split; [|lia]. now apply (pops_app [t]).
Qed.
Lemma sum_rev l : list_sum (rev l) = list_sum l.
Proof. induction l as [|x l IH]; [reflexivity|]. cbn [rev]. rewrite list_sum_app, IH, !sum_cons. cbn. lia. Qed.
Lemma pops_rev ts : Forall sized ts -> exists n, pops (rev ts) (total (ext_size true) ts) n /\ (n <= list_sum (map (fun t => Datatypes.S (term_size t)) ts))%nat.
Proof. intros F. apply Forall_rev in F. apply pops_all in F as (n & P & Hn). exists n. now rewrite total_rev, map_rev, sum_rev in *. Qed.

Lemma sized_flat t : is_list t = false -> ext_size true t = ext_size false t -> (t = NIL_DEF \/ handle_popped_obj t = fun r s => mkSize (Some t) r s) ->
  (exists n, measures t (ext_size false t) n /\ (n <= term_size t)%nat) -> sized t.
Proof.
  intros L E N (n & M & Hn). split; [eauto|]. destruct N as [->|N].
  - exists 1%nat. split; [|cbn; lia]. intros fuel r s. cbn [app]. now rewrite size_pop.
  - exists (1 + n)%nat. split; [|lia]. intros fuel r s. rewrite <- Nat.add_assoc. cbn [app]. now rewrite size_pop, N, M, E.
Qed.
Lemma sized_leaf t : is_list t = false -> ext_size true t = ext_size false t -> (t = NIL_DEF \/ handle_popped_obj t = fun r s => mkSize (Some t) r s) ->
  (forall r s, size_obj t r s = Ok (mkSize None (r + ext_size false t) s)) -> sized t.
Proof. intros L E N W. apply sized_flat; auto. exists 1%nat. split; [intros fuel r s; now rewrite size_turn, W|destruct t; cbn; lia]. Qed.
Lemma cells_sized hd tl : sized hd -> sized tl -> exists n, (1 + n <= term_size (LIST_DEF hd tl))%nat /\ forall fuel r s,
  size_loop (n + fuel) (mkSize (Some hd) r (tl :: s)) = size_loop fuel (mkSize None (r + (ext_size false hd + ext_size true tl)) s).
Proof.
  intros [(n & M & Hn) _] [_ (m & P & Hm)]. exists (n + m)%nat. cbn [term_size]. split; [lia|]. intros fuel r s.
  rewrite <- Nat.add_assoc, M. change (tl :: s) with ([tl] ++ s). now rewrite P, Z.add_assoc.
Qed.
Lemma sized_list hd tl : sized hd -> sized tl -> sized (LIST_DEF hd tl).
Proof.
  intros H1 H2. destruct (cells_sized hd tl H1 H2) as (n & Hn & E). split.
  - exists (if short_string (is_string (LIST_DEF hd tl)) then 1%nat else (1 + n)%nat). split; [|destruct (short_string _); lia].
    intros fuel r s. cbn [ext_size]. destruct (short_string _) eqn:Es.
    + rewrite size_turn. cbn [ExtEncode.size_obj]. rewrite Es. reflexivity.
    + rewrite <- Nat.add_assoc, size_turn. cbn [ExtEncode.size_obj]. rewrite Es. cbn [handle_popped_obj mbind outcome_bind]. rewrite E. do 2 f_equal. lia.
  - exists (1 + n)%nat. split; [|lia]. intros fuel r s. rewrite <- Nat.add_assoc. cbn [app]. rewrite size_pop. apply E.
Qed.
Lemma sized_tuple ts : Forall sized ts -> sized (TUPLE_DEF ts).
Proof.
  intros F. apply sized_flat; auto. destruct (pops_rev ts F) as (n & P & Hn). exists (1 + n)%nat. cbn [term_size]. split; [|lia].
  intros fuel r s. rewrite <- Nat.add_assoc, size_turn. cbn [ExtEncode.size_obj mbind outcome_bind ext_size]. rewrite P, foldr_total, total_plus.
  replace (is_string (TUPLE_DEF ts)) with 0 by reflexivity. do 2 f_equal. lia.
Qed.
Lemma sized_map kvs : Forall (fun kv => sized (fst kv) /\ sized (snd kv)) kvs -> sized (MAP_DEF kvs).
Proof.
  intros F. apply sized_flat; auto.
  assert (F1 : Forall sized (map fst kvs)) by (apply Forall_map; eapply Forall_impl; [exact F|]; now intros ? []).
  assert (F2 : Forall sized (map snd kvs)) by (apply Forall_map; eapply Forall_impl; [exact F|]; now intros ? []).
  destruct (pops_rev _ F1) as (n & P & Hn). destruct (pops_rev _ F2) as (m & Q & Hm). exists (1 + (n + m))%nat. split.
  - intros fuel r s. rewrite <- Nat.add_assoc, size_turn. cbn [ExtEncode.size_obj mbind outcome_bind ext_size]. rewrite app_assoc, (pops_app _ _ _ _ _ _ P Q), !foldr_total, !total_plus, !total_map.
    do 2 f_equal. lia.
  - cbn [term_size]. rewrite !map_map in *. apply le_n_S. transitivity (list_sum (map (fun x => Datatypes.S (term_size x.1)) kvs) + list_sum (map (fun x => Datatypes.S (term_size x.2)) kvs))%nat; [lia|].
    clear. induction kvs as [|[k v] kvs IH]; [reflexivity|]. cbn [map]. rewrite !sum_cons. cbn [fst snd]. lia.
Qed.
Lemma env_total env : env_extra env + total (ext_size true) (env_pushed env) =
  total (fun e => list_extra (is_string e) e + if is_list e && short_string (is_string e) then 0 else ext_size true e) env.
Proof.
  induction env as [|t env IH]; [reflexivity|]. rewrite total_cons, <- IH. unfold env_extra, env_pushed. cbn [foldr List.filter]. fold (env_extra env) (env_pushed env).
  destruct (is_list t && short_string (is_string t)); cbn [negb]; rewrite ?total_cons; lia.
Qed.
Lemma pushed_sum env : (list_sum (map (fun t => Datatypes.S (term_size t)) (env_pushed env)) <= list_sum (map (fun t => Datatypes.S (term_size t)) env))%nat.
Proof. unfold env_pushed. induction env as [|t env IH]; [reflexivity|]. cbn [List.filter]. destruct (negb _); cbn [map]; rewrite ?sum_cons; lia. Qed.
Context {plain : PlainTags dflags}.
Lemma written_tab a : written (enc_atom a) -> exists x, at_tab a atoms = Ok x.
Proof. unfold written, ExtEncode.enc_atom. rewrite plain. destruct (at_tab a atoms) as [x| |]; cbn [mbind outcome_bind]; try discriminate. eauto. Qed.
Lemma fun_size_written fe creator n : written (enc_atom (fe_module fe)) -> written (enc_atom (if has DFLAG_NEW_FUN_TAGS dflags then node_name this_node (fst creator) else at_fun atoms)) -> fun_size fe creator n = Ok (size_of (fun_size fe creator n)).
Proof.
  intros W1 W2. unfold fun_size. destruct (has DFLAG_NEW_FUN_TAGS dflags).
  - apply enc_size_written in W1, W2. unfold ExtEncode.pid_enc_size. rewrite W1, W2. reflexivity.
  - apply written_tab in W1 as (x & ->), W2 as (y & ->). reflexivity.
Qed.
Lemma sized_fun fe arity creator env : written (enc_atom (fe_module fe)) -> written (enc_atom (if has DFLAG_NEW_FUN_TAGS dflags then node_name this_node (fst creator) else at_fun atoms)) -> Forall sized env ->
  sized (FUN_DEF fe arity creator env).
Proof.
  intros W1 W2 F. apply sized_flat; auto. pose proof (fun_size_written fe creator (Z.of_nat (length env)) W1 W2) as W.
  assert (G : forall r s, size_obj (FUN_DEF fe arity creator env) r s = Ok (let result := r + size_of (fun_size fe creator (Z.of_nat (length env))) in
          match env with
          | [] => mkSize None result s
          | t :: env => mkSize (Some t) (result + env_extra env) (rev (env_pushed env) ++ s)
          end)).
  { intros r s. cbn [ExtEncode.size_obj]. change (if has DFLAG_NEW_FUN_TAGS dflags then _ else _) with (fun_size fe creator (Z.of_nat (length env))). rewrite W. reflexivity. }
  cbn [term_size]. destruct env as [|e env].
  - exists 1%nat. split; [|lia]. intros fuel r s. rewrite size_turn, G. cbn [mbind outcome_bind ext_size]. do 2 f_equal. lia.
  - inversion F as [|? ? [(n & M & Hn) _] F']; subst. assert (F2 : Forall sized (env_pushed env)).
    { rewrite Forall_forall in *. intros t Ht. apply list_elem_of_In, filter_In in Ht. apply F'. now apply list_elem_of_In. }
    destruct (pops_rev _ F2) as (m & P & Hm). pose proof (pushed_sum env). exists (1 + (n + m))%nat. cbn [map]. rewrite sum_cons. split; [|lia].
    intros fuel r s. rewrite <- Nat.add_assoc, size_turn, G. cbv zeta. cbn [mbind outcome_bind]. rewrite <- Nat.add_assoc, M, P. do 2 f_equal. cbn [ext_size].
    rewrite <- env_total. lia.
Qed.
Ltac leaf_size := apply sized_leaf; [reflexivity|reflexivity|right; reflexivity|intros r s; cbn [ExtEncode.size_obj ext_size]].
Lemma sized_all t : atoms_known this_node atoms dflags t -> sized t.
Proof.
  induction t as [i|b|f|a| |hd tl IH1 IH2|ts IH|kvs IH|bytes k|n data|n num|n nums|m f arity|fe arity creator env IH] using term_ind; intros K; cbn [atoms_known] in K.
  - now leaf_size.
  - now leaf_size.
  - now leaf_size.
  - leaf_size. now rewrite (enc_size_written _ K).
  - apply sized_leaf; auto.
  - destruct K. apply sized_list; auto.
  - apply sized_tuple. apply all_of_Forall in K. rewrite Forall_forall in *. auto.
  - apply sized_map. apply all_of_Forall in K. rewrite Forall_forall in *. intros kv Hk. destruct (IH kv Hk), (K kv Hk). auto.
  - leaf_size. unfold by_reference. now rewrite plain.
  - leaf_size. unfold ExtEncode.pid_enc_size. now rewrite (enc_size_written _ K).
  - leaf_size. now rewrite (enc_size_written _ K).
  - leaf_size. now rewrite (enc_size_written _ K).
  - destruct K as [K1 K2]. leaf_size. now rewrite (enc_size_written _ K1), (enc_size_written _ K2).
  - destruct K as (K1 & K2 & K3). apply sized_fun; auto. apply all_of_Forall in K3. rewrite Forall_forall in *. auto.
Qed.
Lemma size_loop_done n z : size_loop n (mkSize None z []) = Ok z.
Proof. now destruct n. Qed.
Lemma encode_size_spec t : atoms_known this_node atoms dflags t -> encode_size_struct2 this_node atoms dflags t = Ok (ext_size false t).
Proof.
  intros K. destruct (sized_all t K) as [(n & M & Hn) _]. unfold encode_size_struct2. replace (term_size t) with (n + (term_size t - n))%nat by lia.
  rewrite M. apply size_loop_done.
Qed.
End Size.

(** ** The size is enough *)
Section Bound.
Context {S : Type} `{AtomLaws S}.
#[local] Set Default Proof Using "Type".
Variable this_node : Z * Z.
Variable sys_double_to_chars : Z * Z -> list Z.
Variable atoms : S.
Variable dflags : Z.
Context {plain : PlainTags dflags}.
Hypothesis text_fits : has DFLAG_NEW_FLOATS dflags = false -> forall f, (length (sys_double_to_chars f) <= 31)%nat.
Hypothesis fun_known : has DFLAG_NEW_FUN_TAGS dflags = false -> is_atom atoms (at_fun atoms).
Notation enc_atom := (enc_atom atoms dflags).
Notation ext := (ext this_node sys_double_to_chars atoms dflags).
Notation ext_size := (ext_size this_node atoms dflags).
Notation len bs := (Z.of_nat (length bs)).

Definition atom_bytes (x : Atom) : list Z :=
  if has DFLAG_UTF8_ATOMS dflags || (latin1_chars x <? 0) then
    (if len (a_name x) >? 255 then ATOM_UTF8_EXT :: put_int16 (len (a_name x)) else SMALL_ATOM_UTF8_EXT :: put_int8 (len (a_name x))) ++ a_name x
  else (if has DFLAG_SMALL_ATOM_TAGS dflags then SMALL_ATOM_EXT :: put_int8 (latin1_chars x) else ATOM_EXT :: put_int16 (latin1_chars x)) ++ latin1_text x.
Lemma enc_atom_known a x : known atoms a x -> enc_atom a = Ok (atom_bytes x).
Proof using Type plain.
  intros K. unfold ExtEncode.enc_atom. rewrite plain, (known_tab _ _ _ K). cbn [mbind outcome_bind]. unfold atom_bytes. destruct (has DFLAG_UTF8_ATOMS dflags) eqn:Eu; [reflexivity|].
  cbn [orb]. destruct (Z.ltb_spec (latin1_chars x) 0) as [|Hx]; [reflexivity|]. destruct (known_latin1 _ _ _ K Hx) as (_ & El & Hl).
  fold (latin1_text x). rewrite El, (proj2 (Z.leb_le _ _)) by auto. reflexivity.
Qed.
Lemma atom_written a : is_atom atoms a -> written (enc_atom a).
Proof using Type plain. intros [x K]. unfold written. now rewrite (enc_atom_known _ _ K). Qed.
Lemma atom_bound a : is_atom atoms a -> len (atom_ext atoms dflags a) <= size_of (atom_enc_size atoms dflags a).
Proof using Type plain.
  intros [x K]. unfold atom_ext. rewrite (enc_atom_known _ _ K). unfold atom_enc_size. rewrite plain, (known_tab _ _ _ K). cbn [mbind outcome_bind bytes_of]. unfold atom_bytes.
  destruct (has DFLAG_UTF8_ATOMS dflags || (latin1_chars x <? 0)) eqn:E; cbn [size_of].
  - destruct (_ >? 255); cbn [app length put_int16 put_int8]; lia.
  - apply orb_false_iff in E as [_ E%Z.ltb_ge]. destruct (known_latin1 _ _ _ K E) as (_ & El & Hl). rewrite Z.gtb_ltb, (proj2 (Z.ltb_ge 255 _)) by auto. cbn [orb].
    destruct (has DFLAG_SMALL_ATOM_TAGS dflags); cbn [app length put_int16 put_int8 negb]; lia.
Qed.
Lemma node_atom n : node_ok this_node atoms n -> is_atom atoms (node_name this_node n). Proof. now intros [A _]. Qed.
Lemma pid_bound n data : node_ok this_node atoms n -> len (pid_ext this_node atoms dflags n data) <= size_of (pid_enc_size this_node atoms dflags n).
Proof using Type plain.
  intros N%node_atom. pose proof (atom_bound _ N) as B. pose proof (atom_written _ N) as W. pose proof (enc_size_written _ _ _ W) as E. unfold pid_ext, pid_enc_size in *.
  rewrite E in *. cbn [mbind outcome_bind size_of] in *. rewrite ?length_app; cbn [length]; rewrite !length_app; cbn [put_int32 put_int8 length]. lia.
Qed.
Lemma small_bound i : IS_SSMALL i = true -> len (enc_small i) <= small_enc_size i.
Proof.
  intros Hi. unfold enc_small, small_enc_size. destruct (Z.ltb_spec (w64 i) 256); [cbn; lia|]. destruct (IS_SSMALL32 i); [cbn; lia|].
  assert (i <> 0) by (intros ->; unfold w64 in *; lia). destruct (small_bytes i (proj1 (ssmall_range i) Hi) ltac:(auto)) as [-> _]. cbn [length put_int8 app]. lia.
Qed.
Lemma int_bound i : - 2 ^ 31 <= i < 2 ^ 31 -> len (enc_small i) <= 5.
Proof.
  intros Hi. unfold enc_small. destruct (w64 i <? 256); [cbn; lia|]. replace (IS_SSMALL32 i) with true; [cbn; lia|]. symmetry. unfold IS_SSMALL32.
  rewrite Z.shiftr_div_pow2 by lia. apply Z.ltb_lt. assert (- 1 <= i / 2 ^ 31 <= 0) by lia. unfold w64. lia.
Qed.
Lemma big_bound b : canonical b -> len (enc_big b) <= big_enc_size b.
Proof.
  intros C. unfold enc_big, big_enc_size. rewrite (big_bytes_spec b C). cbv zeta. destruct (_ <? 256); cbn [length put_int8 put_int32 app]; rewrite ?length_app; cbn [length]; lia.
Qed.
Lemma ints_length nums : len (flat_map put_int32 nums) = 4 * len nums.
Proof. induction nums as [|w nums IH]; [reflexivity|]. cbn [flat_map app put_int32 length] in *. lia. Qed.

(** *** Lists and strings *)
Lemma string_prefix_nil t : is_list t = false -> string_prefix t = ([], t). Proof. now destruct t. Qed.
Lemma ext_string t : is_nil (snd (string_prefix t)) = true -> len (fst (string_prefix t)) <= len (ext true t) /\ (1 <= len (ext true t)).
Proof.
  induction t as [| | | | |hd tl _ IH| | | | | | | |] using term_ind; cbn [string_prefix snd is_nil]; try discriminate; try (cbn; lia).
  destruct hd as [i| | | | | | | | | | | | |]; cbn [snd is_nil]; try discriminate. destruct (is_byte (SMALL_DEF i)) eqn:Eb; cbn [snd is_nil]; try discriminate.
  rewrite ext_cells. destruct (string_prefix tl) as [bs r] eqn:Ep. cbn [fst snd] in *. intros Hn. destruct (IH Hn) as [L1 L2].
  assert (1 <= len (ext false (SMALL_DEF i))) by (cbn [ExtSpec.ext]; unfold enc_small; destruct (_ <? 256); [cbn; lia|]; destruct (IS_SSMALL32 i); [cbn; lia|]; cbn [app put_int8 length]; lia).
  rewrite length_app. cbn [length]. lia.
Qed.
Lemma is_string_list hd tl : snd (is_external_string (LIST_DEF hd tl)) = short_string (is_string (LIST_DEF hd tl)).
Proof.
  unfold is_external_string, is_string, short_string. destruct (string_prefix (LIST_DEF hd tl)) as [bs r] eqn:E. cbn [snd].
  destruct (is_nil r) eqn:N; [|reflexivity]. assert (1 <= len bs); [|destruct (Z.eqb_spec (len bs) 0); [lia|reflexivity]].
  destruct bs; [|cbn [length]; lia]. exfalso. cbn [string_prefix] in E. destruct hd; try (injection E as <-; discriminate N). destruct (is_byte _); [|injection E as <-; discriminate N].
  destruct (string_prefix tl); discriminate.
Qed.
Lemma is_string_length t : is_string t <> 0 -> is_string t = len (fst (string_prefix t)) /\ is_nil (snd (string_prefix t)) = true.
Proof. unfold is_string. destruct (string_prefix t) as [bs r]. destruct (is_nil r) eqn:E; auto. congruence. Qed.
Lemma short_length t : short_string (is_string t) = true -> is_string t = len (fst (string_prefix t)) /\ is_nil (snd (string_prefix t)) = true.
Proof. intros E. apply is_string_length. unfold short_string in E. destruct (Z.eqb_spec (is_string t) 0); [discriminate|auto]. Qed.

Definition bounded (t : term) : Prop := len (ext false t) <= ext_size false t /\ len (ext true t) <= ext_size true t.
Lemma bounded_flat t : ext true t = ext false t -> ext_size true t = ext_size false t -> len (ext false t) <= ext_size false t -> bounded t.
Proof. intros E1 E2 L. split; [exact L|now rewrite E1, E2]. Qed.
Lemma bounded_list hd tl : bounded hd -> bounded tl -> bounded (LIST_DEF hd tl).
Proof.
  intros [A1 A2] [B1 B2]. assert (T : len (ext true (LIST_DEF hd tl)) <= ext_size false hd + ext_size true tl) by (rewrite ext_cells, length_app; lia). split; [|exact T].
  pose proof (is_string_list hd tl) as Es. cbn [ExtSpec.ext ExtSize.ext_size]. destruct (is_external_string (LIST_DEF hd tl)) as [i b]. cbn [snd] in Es. subst b.
  destruct (short_string (is_string (LIST_DEF hd tl))) eqn:E.
  - destruct (short_length _ E) as [-> _]. cbn [app put_int16 length]. lia.
  - rewrite ext_cells, length_app in T. cbn [app put_int32 length]. rewrite length_app. lia.
Qed.
(** An element of an array: a list adds its header. *)
Lemma element_bound m t : m = 0 \/ m = is_string t -> bounded t -> len (ext false t) <= list_extra m t + ext_size true t.
Proof.
  intros Hm [A B]. unfold list_extra. destruct (is_list t) eqn:L.
  2:{ destruct t; try discriminate L; exact A. }
  destruct t as [| | | | |hd tl| | | | | | | |]; try discriminate L. rewrite ext_cells, length_app in B. pose proof (is_string_list hd tl) as Es. cbn [ExtSpec.ext].
  destruct (is_external_string (LIST_DEF hd tl)) as [i b]. cbn [snd] in Es. subst b.
  pose proof (ext_string (LIST_DEF hd tl)) as X. rewrite ext_cells, length_app in X.
  destruct (short_string (is_string (LIST_DEF hd tl))) eqn:E.
  - destruct (short_length _ E) as [Em En]. specialize (X En). cbn [app put_int16 length]. destruct Hm as [-> | ->]; [|rewrite E, Em]; [cbn [short_string Z.eqb negb andb]|]; lia.
  - destruct Hm as [-> | ->]; [|rewrite E]; cbn [short_string Z.eqb negb andb app put_int32 length]; rewrite length_app; lia.
Qed.
Lemma flat_bound {A} (f : A -> list Z) (g : A -> Z) l : (forall x, x ∈ l -> len (f x) <= g x) -> len (flat_map f l) <= total g l.
Proof. intros B. rewrite length_flat_map. apply total_le, Forall_forall, B. Qed.
Lemma bounded_tuple ts : Forall bounded ts -> bounded (TUPLE_DEF ts).
Proof.
  intros F. apply bounded_flat; auto. cbn [ExtSpec.ext ExtSize.ext_size]. rewrite length_app. unfold tuple_header.
  assert (B : len (flat_map (ext false) ts) <= total (fun e => list_extra 0 e + ext_size true e) ts).
  { apply flat_bound. intros t Ht. rewrite Forall_forall in F. apply element_bound; auto. }
  destruct (_ <=? 255); cbn [length put_int8 put_int32]; lia.
Qed.
Lemma bounded_map kvs : Forall (fun kv => bounded (fst kv) /\ bounded (snd kv)) kvs -> bounded (MAP_DEF kvs).
Proof.
  intros F. apply bounded_flat; auto. cbn [ExtSpec.ext ExtSize.ext_size]. rewrite length_app.
  match goal with |- context [flat_map ?f kvs] => assert (B : len (flat_map f kvs) <= total (fun kv => (list_extra (is_string (fst kv)) (fst kv) + ext_size true (fst kv)) + (list_extra (is_string (snd kv)) (snd kv) + ext_size true (snd kv))) kvs) end.
  { apply flat_bound. intros [k v] Hk. rewrite Forall_forall in F. destruct (F _ Hk) as [Bk Bv]. cbn [fst snd] in *. rewrite length_app.
    pose proof (element_bound (is_string k) k (or_intror eq_refl) Bk). pose proof (element_bound (is_string v) v (or_intror eq_refl) Bv). lia. }
  cbn [length put_int32]. lia.
Qed.
Lemma env_bound t : bounded t -> len (ext false t) <= list_extra (is_string t) t + (if is_list t && short_string (is_string t) then 0 else ext_size true t).
Proof.
  intros B. pose proof (element_bound (is_string t) t (or_intror eq_refl) B) as E. destruct (is_list t) eqn:L; cbn [andb]; [|exact E].
  destruct (short_string (is_string t)) eqn:Sh; [|exact E]. unfold list_extra. rewrite L, Sh. destruct t as [| | | | |hd tl| | | | | | | |]; try discriminate L.
  pose proof (is_string_list hd tl) as Es. cbn [ExtSpec.ext]. destruct (is_external_string (LIST_DEF hd tl)) as [i b]. cbn [snd] in Es. subst b. rewrite Sh.
  destruct (short_length _ Sh) as [-> _]. cbn [app put_int16 length]. lia.
Qed.
Lemma env_bytes env : Forall bounded env -> len (flat_map (ext false) env) <= match env with [] => 0 | e :: env => ext_size false e + total (fun e => list_extra (is_string e) e + if is_list e && short_string (is_string e) then 0 else ext_size true e) env end.
Proof.
  intros F. destruct F as [|e env [Be _] F]; [reflexivity|]. cbn [flat_map]. rewrite length_app.
  assert (B : len (flat_map (ext false) env) <= total (fun e => list_extra (is_string e) e + if is_list e && short_string (is_string e) then 0 else ext_size true e) env); [|lia].
  apply flat_bound. intros t Ht. rewrite Forall_forall in F. apply env_bound. auto.
Qed.
Lemma latin1_length n : forall l, (length (erts_utf8_to_latin1 n l) <= n)%nat.
Proof. induction n as [|n IH]; intros l; [now destruct l|]. cbn [erts_utf8_to_latin1]. repeat case_match; cbn [length]; try lia; apply le_n_S, IH. Qed.
Lemma name_bound a : is_atom atoms a -> exists x, at_tab a atoms = Ok x /\ len (atom_ext atoms dflags a) <= 3 + len (a_name x).
Proof using Type plain.
  intros [x K]. exists x. split; [exact (known_tab _ _ _ K)|]. unfold atom_ext. rewrite (enc_atom_known _ _ K). cbn [bytes_of]. unfold atom_bytes.
  assert (L : (length (latin1_text x) <= length (a_name x))%nat) by (unfold latin1_text; destruct (_ =? _); [lia|apply latin1_length]).
  destruct (_ || _); [destruct (_ >? _)|destruct (has DFLAG_SMALL_ATOM_TAGS dflags)]; cbn [app length put_int16 put_int8]; lia.
Qed.
Lemma fun_bytes fe arity creator n : fun_ok atoms fe arity n -> pid_ok this_node atoms (fst creator) (snd creator) ->
  len (if has DFLAG_NEW_FUN_TAGS dflags then NEW_FUN_EXT :: put_int32 0 ++ bytes_of (fun_header this_node atoms dflags fe arity creator n) else bytes_of (fun_tuple atoms dflags fe n)) <=
  size_of (fun_size this_node atoms dflags fe creator n).
Proof using Type plain fun_known.
  intros (Hm & Hu & _ & _ & Ho & Hi & _) [Hn _]. unfold fun_size. destruct (has DFLAG_NEW_FUN_TAGS dflags) eqn:En.
  - pose proof (atom_bound _ Hm) as Bm. pose proof (pid_bound _ (snd creator) Hn) as Bp. pose proof (int_bound _ Ho) as Bu. pose proof (int_bound _ Hi) as Bi.
    unfold fun_header. rewrite (atom_written _ Hm), (enc_pid_plain _ _ _ _ _ (atom_written _ (node_atom _ Hn))). unfold pid_enc_size in *. rewrite (enc_size_written _ _ _ (atom_written _ Hm)) in *. rewrite (enc_size_written _ _ _ (atom_written _ (node_atom _ Hn))) in *.
    unfold atom_ext in Bm. cbn [mbind outcome_bind bytes_of size_of] in *. cbn [app length put_int32]. rewrite !length_app. cbn [length]. rewrite !length_app, Hu. lia.
  - destruct (name_bound _ Hm) as (x & Ex & Bx), (name_bound _ (fun_known eq_refl)) as (y & Ey & By). unfold fun_tuple. rewrite (atom_written _ Hm), (atom_written _ (fun_known eq_refl)), Ex, Ey. unfold atom_ext in *. cbn [mbind outcome_bind bytes_of size_of] in *.
    cbn [app length put_int8]. rewrite !length_app. cbn [length app put_int32 put_int8]. destruct (n <? 256); lia.
Qed.
Lemma bounded_fun fe arity creator env : fun_ok atoms fe arity (len env) -> pid_ok this_node atoms (fst creator) (snd creator) -> Forall bounded env -> bounded (FUN_DEF fe arity creator env).
Proof using Type plain fun_known.
  intros Hf Hp F. apply bounded_flat; auto. cbn [ExtSpec.ext ExtSize.ext_size]. pose proof (fun_bytes fe arity creator (len env) Hf Hp) as B. pose proof (env_bytes env F) as Be.
  destruct (has DFLAG_NEW_FUN_TAGS dflags); cbn [app length put_int32] in *; rewrite !length_app in *; lia.
Qed.
Lemma bounded_all t : wf_term this_node atoms t -> bounded t.
Proof using Type plain text_fits fun_known.
  induction t as [i|b|f|a| |hd tl IH1 IH2|ts IH|kvs IH|bytes k|n data|n num|n nums|m f arity|fe arity creator env IH] using term_ind; intros K; cbn [wf_term] in K.
  - apply bounded_flat; auto. now apply small_bound.
  - apply bounded_flat; auto. now apply big_bound.
  - apply bounded_flat; auto. cbn [ExtSpec.ext ExtSize.ext_size]. unfold enc_float. destruct (has DFLAG_NEW_FLOATS dflags) eqn:E; [cbn; lia|].
    pose proof (text_fits eq_refl f). cbn [length]. rewrite length_app, length_replicate. lia.
  - apply bounded_flat; auto. now apply atom_bound.
  - split; cbn; lia.
  - destruct K. apply bounded_list; auto.
  - apply bounded_tuple. apply all_of_Forall in K. rewrite Forall_forall in *. auto.
  - apply bounded_map. apply all_of_Forall in K. rewrite Forall_forall in *. intros kv Hk. destruct (IH kv Hk), (K kv Hk). auto.
  - apply bounded_flat; auto. cbn [ExtSpec.ext ExtSize.ext_size]. unfold enc_binary. destruct (k =? 0); [cbn [length put_int32 app]; lia|].
    destruct (has DFLAG_BIT_BINARIES dflags); cbn [length put_int32 app]; rewrite ?length_app; cbn [length]; lia.
  - apply bounded_flat; auto. destruct K as [K _]. now apply pid_bound.
  - apply bounded_flat; auto. destruct K as [K _]. pose proof (atom_bound _ (node_atom _ K)). cbn [ExtSpec.ext ExtSize.ext_size length]. rewrite !length_app. cbn [length put_int32 put_int8]. lia.
  - apply bounded_flat; auto. destruct K as [K _]. pose proof (atom_bound _ (node_atom _ K)). cbn [ExtSpec.ext ExtSize.ext_size length put_int16 app]. rewrite !length_app. cbn [length put_int8].
    pose proof (ints_length nums). lia.
  - apply bounded_flat; auto. destruct K as (K1 & K2 & K3). pose proof (atom_bound _ K1). pose proof (atom_bound _ K2). cbn [ExtSpec.ext ExtSize.ext_size].
    assert (A : len (enc_small arity) <= small_enc_size arity /\ 2 <= small_enc_size arity).
    { unfold MAX_ARG in K3. split; [apply small_bound, ssmall_range; lia|]. unfold small_enc_size. rewrite w64_id, (proj2 (Z.ltb_lt _ _)) by lia. lia. }
    destruct (has DFLAG_EXPORT_PTR_TAG dflags); cbn [length put_int8 app]; rewrite !length_app; lia.
  - destruct K as (K1 & K2 & K3). apply bounded_fun; auto. apply all_of_Forall in K3. rewrite Forall_forall in *. auto.
Qed.
Lemma wf_known t : wf_term this_node atoms t -> atoms_known this_node atoms dflags t.
Proof using Type plain fun_known.
  induction t as [i|b|f|a| |hd tl IH1 IH2|ts IH|kvs IH|bytes k|n data|n num|n nums|m f arity|fe arity creator env IH] using term_ind; intros K; cbn [wf_term atoms_known] in *; auto;
    try (destruct K as [K _]; try destruct K as [K _]; now apply atom_written).
  - now apply atom_written.
  - destruct K. auto.
  - apply all_of_Forall. apply all_of_Forall in K. rewrite Forall_forall in *. auto.
  - apply all_of_Forall. apply all_of_Forall in K. rewrite Forall_forall in *. intros kv Hk. destruct (IH kv Hk), (K kv Hk). auto.
  - destruct K as (K1 & K2 & _). split; now apply atom_written.
  - destruct K as ((K1 & _) & (K2 & _) & K3). splits; [now apply atom_written|destruct (has DFLAG_NEW_FUN_TAGS dflags) eqn:En; [now apply atom_written, node_atom|now apply atom_written, fun_known]|].
    apply all_of_Forall. apply all_of_Forall in K3. rewrite Forall_forall in *. auto.
Qed.
Lemma term_to_binary_spec t : wf_term this_node atoms t ->
  erts_encode_ext_size_2 this_node atoms dflags t = Ok (ext_size false t + 1) /\ len (ext false t) <= ext_size false t /\
  erts_term_to_binary this_node sys_double_to_chars atoms dflags t = Ok (VERSION_MAGIC :: ext false t).
Proof using Type plain text_fits fun_known.
  intros W. pose proof (wf_known _ W) as K. destruct (bounded_all _ W) as [B _].
  assert (E : erts_encode_ext_size_2 this_node atoms dflags t = Ok (ext_size false t + 1)).
  { unfold erts_encode_ext_size_2. now rewrite encode_size_spec. }
  splits; auto. unfold erts_term_to_binary. rewrite E. cbn [mbind outcome_bind]. rewrite enc_term_ext by auto. cbn [mbind outcome_bind length].
  now rewrite Z.gtb_ltb, (proj2 (Z.ltb_ge _ _)) by lia.
Qed.
End Bound.
