(* ===== verification/ExtSizer.v ===== *)
(** The computation of the heap words that a decoded term needs (decoded_size, external.c), and
    decoding as a whole. *)

From S2P Require Import Prelude.
From stdpp Require Import base option list gmap.
From S2P Require Import BigNum BigConv Memory Atoms ExtTerm ExtDecode.
Local Open Scope Z_scope.

(** ** The words a term needs, before it is decoded *)
Record sizing := mkSizing { z_ep : list Z; terms : Z; heap_size : Z; atom_extra_skip : Z }.
Notation left p := (Z.of_nat (length p)).
Definition SKIP (sz : Z) (p : list Z) : decoded (list Z) := if sz <=? left p then advance sz p else Malformed.
Definition SKIP2 (sz1 sz2 : Z) (p : list Z) : decoded (list Z) :=
  let sz := w64 (sz1 + sz2) in if (sz1 <? sz) && (sz <=? left p) then advance sz p else Malformed.
Definition CHKSIZE (sz : Z) (p : list Z) : decoded unit := check (negb (sz >? left p)).
Definition ADDTERMS (n terms : Z) : decoded Z := let t := s32 (terms + n) in if t <? terms then Malformed else Got t.
(** The size is an int. *)
Definition add_heap (n : Z) (heap_size : Z) : Z := s32 (heap_size + n).
Definition MAX_BIG_BYTES : Z := BIG_ARITY_MAX * 8.
Definition sizeof_ProcBin : Z := 8 * PROC_BIN_SIZE.

(** Atoms, whose size may be checked together with what follows them. *)
Definition size_atom (tag : Z) (s : sizing) : option (decoded sizing) :=
  let p := z_ep s in
  let extra := atom_extra_skip s in
  let go (p : decoded (list Z)) := p ← p; Got (mkSizing p (terms s) (heap_size s) 0) in
  if tag =? ATOM_EXT then Some (_ ← CHKSIZE 2 p; n ← get_int16 p; _ ← check (negb (n >? MAX_ATOM_CHARACTERS)); go (SKIP (n + 2 + extra) p))
  else if tag =? ATOM_UTF8_EXT then
    Some (_ ← CHKSIZE 2 p; n ← get_int16 p; p ← advance 2 p; _ ← check (negb (n >? MAX_ATOM_SZ_LIMIT)); go (SKIP (n + extra) p))
  else if tag =? SMALL_ATOM_EXT then Some (_ ← CHKSIZE 1 p; n ← get_int8 p; _ ← check (negb (n >? MAX_ATOM_CHARACTERS)); go (SKIP (n + 1 + extra) p))
  else if tag =? SMALL_ATOM_UTF8_EXT then
    Some (_ ← CHKSIZE 1 p; n ← get_int8 p; p ← advance 1 p; _ ← check (negb (n >? MAX_ATOM_SZ_LIMIT)); go (SKIP (n + extra) p))
  else if tag =? ATOM_CACHE_REF then Some (go (SKIP (1 + extra) p))
  else if tag =? ATOM_INTERNAL_REF2 then Some (go (SKIP (2 + extra) p))
  else if tag =? ATOM_INTERNAL_REF3 then Some (go (SKIP (3 + extra) p))
  else None.
(** Numbers, strings and binaries. *)
Definition size_block (internal_tags : bool) (tag : Z) (s : sizing) : option (decoded sizing) :=
  let p := z_ep s in
  let go (p : decoded (list Z)) (n : Z) := p ← p; Got (mkSizing p (terms s) (add_heap n (heap_size s)) (atom_extra_skip s)) in
  if tag =? INTEGER_EXT then Some (go (SKIP 4 p) 0)
  else if tag =? SMALL_INTEGER_EXT then Some (go (SKIP 1 p) 0)
  else if tag =? SMALL_BIG_EXT then Some (_ ← CHKSIZE 1 p; n ← get_int8 p; go (SKIP2 n (1 + 1) p) (1 + w64 (n + 8 - 1) / 8))
  else if tag =? LARGE_BIG_EXT then
    Some (_ ← CHKSIZE 4 p; n ← get_int32 p; let n := w64 n in _ ← check (negb (n >? MAX_BIG_BYTES)); go (SKIP2 n (4 + 1) p) (1 + 1 + w64 (n + 8 - 1) / 8))
  else if tag =? NIL_EXT then Some (go (Got p) 0)
  else if tag =? STRING_EXT then Some (_ ← CHKSIZE 2 p; n ← get_int16 p; go (SKIP (n + 2) p) (2 * n))
  else if tag =? FLOAT_EXT then Some (go (SKIP 31 p) FLOAT_SIZE_OBJECT)
  else if tag =? NEW_FLOAT_EXT then Some (go (SKIP 8 p) FLOAT_SIZE_OBJECT)
  else if tag =? BINARY_EXT then
    Some (_ ← CHKSIZE 4 p; n ← get_int32 p; let n := w64 n in go (SKIP2 n 4 p) (if n <=? ERL_ONHEAP_BIN_LIMIT then heap_bin_size n else PROC_BIN_SIZE))
  else if tag =? BIT_BINARY_EXT then
    Some (_ ← CHKSIZE 5 p; n ← get_int32 p; let n := w64 n in
          go (SKIP2 n 5 p) (if n <=? ERL_ONHEAP_BIN_LIMIT then heap_bin_size n + ERL_SUB_BIN_SIZE else PROC_BIN_SIZE + ERL_SUB_BIN_SIZE))
  else if tag =? BINARY_INTERNAL_REF then Some (_ ← check internal_tags; go (SKIP sizeof_ProcBin p) PROC_BIN_SIZE)
  else if tag =? BIT_BINARY_INTERNAL_REF then Some (_ ← check internal_tags; go (SKIP (2 + sizeof_ProcBin) p) (PROC_BIN_SIZE + ERL_SUB_BIN_SIZE))
  else None.
(** Objects of which more terms follow: an atom and perhaps some bytes, elements
    or the parts of a fun. *)
Definition size_compound (tag : Z) (s : sizing) : option (decoded sizing) :=
  let p := z_ep s in
  let go (p : list Z) (terms n skip : Z) := Got (mkSizing p (s32 terms) (add_heap n (heap_size s)) skip) in
  let skip := atom_extra_skip s in
  let fun_ext p := _ ← CHKSIZE 4 p; num_free ← get_int32 p; let num_free := u32 num_free in p ← advance 4 p; _ ← check (negb (num_free >? MAX_ARG));
    go p (terms s + (4 + num_free)) (ERL_FUN_SIZE + num_free) skip in
  if tag =? PID_EXT then Some (go p (terms s + 1) (EXTERNAL_THING_HEAD_SIZE + 1) 9)
  else if tag =? PORT_EXT then Some (go p (terms s + 1) (EXTERNAL_THING_HEAD_SIZE + 1) 5)
  else if tag =? NEW_REFERENCE_EXT then
    Some (_ ← CHKSIZE 2 p; id_words ← get_int16 p; _ ← check (negb (id_words >? ERTS_MAX_REF_NUMBERS)); p ← advance 2 p;
          go p (terms s + 1) (EXTERNAL_THING_HEAD_SIZE + id_words / 2 + 1) (1 + 4 * id_words))
  else if tag =? REFERENCE_EXT then Some (go p (terms s + 1) (EXTERNAL_THING_HEAD_SIZE + 1) 5)
  else if tag =? LIST_EXT then
    Some (_ ← CHKSIZE 4 p; n ← get_int32 p; let n := w64 n in p ← advance 4 p; t ← ADDTERMS n (terms s); go p (t + 1) (w64 (2 * n)) skip)
  else if tag =? SMALL_TUPLE_EXT then Some (_ ← CHKSIZE 1 p; n ← get_int8 p; p ← advance 1 p; go p (terms s + n) (n + 1) skip)
  else if tag =? LARGE_TUPLE_EXT then
    Some (_ ← CHKSIZE 4 p; n ← get_int32 p; let n := w64 n in p ← advance 4 p; t ← ADDTERMS n (terms s); go p t (w64 (n + 1)) skip)
  else if tag =? MAP_EXT then
    Some (_ ← CHKSIZE 4 p; n ← get_int32 p; let n := w64 n in p ← advance 4 p; t ← ADDTERMS (w64 (2 * n)) (terms s); go p t (w64 (3 + n + 1 + n)) skip)
  else if tag =? EXPORT_EXT then Some (go p (terms s + 3) 2 skip)
  else if tag =? NEW_FUN_EXT then
    Some (_ ← CHKSIZE (1 + 16 + 4 + 4) p; total_size ← get_int32 p; _ ← CHKSIZE (w64 total_size) p; p ← advance (1 + 16 + 4 + 4) p; fun_ext p)
  else if tag =? FUN_EXT then Some (fun_ext p)
  else None.
(** One turn. *)
Definition size_term (internal_tags : bool) (s : sizing) : decoded sizing :=
  _ ← CHKSIZE 1 (z_ep s);
  tag ← get_int8 (z_ep s);
  p ← advance 1 (z_ep s);
  let s := mkSizing p (terms s) (heap_size s) (atom_extra_skip s) in
  match size_atom tag s with
  | Some r => r
  | None => match size_block internal_tags tag s with Some r => r | None => match size_compound tag s with Some r => r | None => Malformed end end
  end.
(** Each turn reads a byte. *)
Fixpoint size_terms (fuel : nat) (internal_tags : bool) (s : sizing) : decoded Z :=
  match fuel with
  | O => Overrun
  | Datatypes.S fuel =>
      s ← size_term internal_tags s;
      let t := s32 (terms s - 1) in
      if t >? 0 then size_terms fuel internal_tags (mkSizing (z_ep s) t (heap_size s) (atom_extra_skip s))
      else if t =? 0 then Got (heap_size s)
      else Malformed
  end.
(** [decoded_size], without a context to trap. *)
Definition decoded_size (ep : list Z) (internal_tags : bool) : decoded Z := size_terms (Datatypes.S (length ep)) internal_tags (mkSizing ep 1 0 0).
(** [erts_decode_ext_size]. *)
Definition erts_decode_ext_size (ext : list Z) : decoded Z :=
  match ext with magic :: ep => if magic =? VERSION_MAGIC then decoded_size ep false else Malformed | [] => Malformed end.

(** ** Decoding *)
Section Decoding.
Context {S : Type} `{AtomOps S}.
Variable this_node : Z * Z.
Variable safe : bool.
Variable strtod : list Z -> option (Z * Z).
Variable erts_active_export_entry : Z -> Z -> Z -> bool.
Variable old_fun_arity : Z -> Z -> Z -> Z.
Variable CMP_TERM : S -> heap -> word -> word -> decoded Z.
Notation dec_term := (dec_term this_node safe strtod erts_active_export_entry old_fun_arity CMP_TERM).
(** The address of the variable for the term. *)
Definition OBJ : Z := -1.
(** [erts_decode_ext]. *)
Definition erts_decode_ext (ext : list Z) (size : Z) (st : S) : decoded (word * dec_state S) :=
  magic ← get_int8 ext;
  ep ← advance 1 ext;
  _ ← check (magic =? VERSION_MAGIC);
  dec_term (length ext) OBJ (mkDec ep 0 ∅ size None None st).
(** The size is computed, that many words are allocated, and the term is put
    there: its first word and the state. *)
Definition binary_to_term (ext : list Z) (st : S) : decoded (word * dec_state S) :=
  size ← erts_decode_ext_size ext;
  erts_decode_ext ext size st.
End Decoding.
