(* ===== verification/ExtBytes.v ===== *)
(** Reading back the integers that were written. *)

From S2P Require Import Prelude.
From stdpp Require Import base option list gmap.
From S2P Require Import Memory Utf8 ExtTerm ExtDecode ExtSizer.
Local Open Scope Z_scope.

(** ** Integers as bytes *)
Notation len bs := (Z.of_nat (length bs)).
Lemma land_255 z : Z.land z 255 = z mod 256.
Proof. change 255 with (2 ^ 8 - 1). now rewrite mask_low. Qed.
Lemma put_int16_eq i : put_int16 i = [i / 2 ^ 8 mod 256; i mod 256].
Proof. unfold put_int16. now rewrite !land_255, Z.shiftr_div_pow2 by lia. Qed.
Lemma put_int32_eq i : put_int32 i = [i / 2 ^ 24 mod 256; i / 2 ^ 16 mod 256; i / 2 ^ 8 mod 256; i mod 256].
Proof. unfold put_int32. now rewrite !land_255, !Z.shiftr_div_pow2 by lia. Qed.
Lemma be16 b1 b0 : 0 <= b1 -> byte b0 -> Z.lor (Z.shiftl b1 8) b0 = b1 * 256 + b0.
Proof. intros H1 H0. change 256 with (2 ^ 8). apply lor_low; unfold byte in *; lia. Qed.
Lemma be24 b2 b1 b0 : 0 <= b2 -> byte b1 -> byte b0 -> Z.lor (Z.lor (Z.shiftl b2 16) (Z.shiftl b1 8)) b0 = b2 * 2 ^ 16 + b1 * 2 ^ 8 + b0.
Proof.
  intros H2 H1 H0. replace (Z.shiftl b2 16) with (Z.shiftl (Z.shiftl b2 8) 8) by (now rewrite Z.shiftl_shiftl by lia).
  rewrite <- Z.shiftl_lor, (be16 b2 b1) by auto. unfold byte in *. rewrite be16; unfold byte; lia.
Qed.
Lemma be32 b3 b2 b1 b0 : 0 <= b3 -> byte b2 -> byte b1 -> byte b0 ->
  Z.lor (Z.lor (Z.lor (Z.shiftl b3 24) (Z.shiftl b2 16)) (Z.shiftl b1 8)) b0 = b3 * 2 ^ 24 + b2 * 2 ^ 16 + b1 * 2 ^ 8 + b0.
Proof.
  intros H3 H2 H1 H0. replace (Z.shiftl b3 24) with (Z.shiftl (Z.shiftl b3 16) 8) by (now rewrite Z.shiftl_shiftl by lia).
  replace (Z.shiftl b2 16) with (Z.shiftl (Z.shiftl b2 8) 8) by (now rewrite Z.shiftl_shiftl by lia).
  rewrite <- !Z.shiftl_lor, (be24 b3 b2 b1) by auto. unfold byte in *. rewrite be16; unfold byte; lia.
Qed.
Lemma get_put8 i p : 0 <= i < 256 -> get_int8 (put_int8 i ++ p) = Got i.
Proof. intros Hi. cbn. f_equal. rewrite land_255. lia. Qed.
Lemma get_put16 i p : 0 <= i < 2 ^ 16 -> get_int16 (put_int16 i ++ p) = Got i.
Proof. intros Hi. rewrite put_int16_eq. cbn [app get_int16]. rewrite be16 by (unfold byte; lia). f_equal. lia. Qed.
Lemma get_put32 i p : get_int32 (put_int32 i ++ p) = Got (s32 i).
Proof.
  rewrite put_int32_eq. cbn [app get_int32]. rewrite be32 by (unfold byte; lia). f_equal.
  match goal with |- s32 ?a = _ => assert (E : a mod 2 ^ 32 = i mod 2 ^ 32) by lia end. unfold s32, u32. now rewrite E.
Qed.
Lemma u32_s32 i : u32 (s32 i) = u32 i.
Proof. unfold s32, u32. destruct (_ <? _); lia. Qed.
Lemma put32_u32 i : 0 <= i < 2 ^ 32 -> u32 (s32 i) = i.
Proof. intros Hi. rewrite u32_s32. unfold u32. lia. Qed.
Lemma advance_app bs p : advance (len bs) (bs ++ p) = Got p.
Proof.
  unfold advance. rewrite length_app, (proj2 (Z.leb_le 0 _)), (proj2 (Z.leb_le _ _)) by lia. cbn [andb]. now rewrite Nat2Z.id, drop_app_length.
Qed.
Lemma advance_app' n bs p : n = len bs -> advance n (bs ++ p) = Got p. Proof. intros ->. apply advance_app. Qed.
Lemma block_app bs p : block (len bs) (bs ++ p) = Got (bs, p).
Proof. unfold block. rewrite advance_app. cbn. now rewrite Nat2Z.id, take_app_length. Qed.
Lemma block_app' n bs p : n = len bs -> block n (bs ++ p) = Got (bs, p). Proof. intros ->. apply block_app. Qed.
Lemma SKIP_app n bs p : n = len bs -> SKIP n (bs ++ p) = Got p.
Proof. intros ->. unfold SKIP. rewrite length_app, (proj2 (Z.leb_le _ _)) by lia. apply advance_app. Qed.
Lemma SKIP2_app n k bs p : 0 <= n < 2 ^ 32 -> 0 < k < 2 ^ 32 -> n + k = len bs -> SKIP2 n k (bs ++ p) = Got p.
Proof.
  intros Hn Hk E. unfold SKIP2. rewrite w64_id by lia. rewrite length_app, (proj2 (Z.ltb_lt _ _)), (proj2 (Z.leb_le _ _)) by lia. cbn [andb]. now apply advance_app'.
Qed.
Lemma CHKSIZE_app n bs p : n <= len bs -> CHKSIZE n (bs ++ p) = Got tt.
Proof. intros Hn. unfold CHKSIZE. rewrite length_app, Z.gtb_ltb, (proj2 (Z.ltb_ge _ _)) by lia. reflexivity. Qed.
Lemma length_int32 i : length (put_int32 i) = 4%nat. Proof. reflexivity. Qed.
Lemma length_int16 i : length (put_int16 i) = 2%nat. Proof. reflexivity. Qed.
Lemma length_int8 i : length (put_int8 i) = 1%nat. Proof. reflexivity. Qed.
Lemma check_true b : b = true -> check b = Got tt. Proof. now intros ->. Qed.
Lemma SKIP_bytes n bs q p : q = bs ++ p -> n = len bs -> SKIP n q = Got p.
Proof. intros ->. apply SKIP_app. Qed.
Lemma SKIP2_bytes n k bs q p : q = bs ++ p -> 0 <= n < 2 ^ 32 -> 0 < k < 2 ^ 32 -> n + k = len bs -> SKIP2 n k q = Got p.
Proof. intros ->. apply SKIP2_app. Qed.
