(* ===== verification/ExtSized.v ===== *)
(** That decoded_size accepts what the encoder writes and computes the words of the term. *)

From S2P Require Import Prelude.
From stdpp Require Import base option list gmap.
From S2P Require Import BigNum BigConv Memory Utf8 Atoms ExtTerm ExtEncode ExtDecode ExtSpec ExtSize ExtSizer ExtBytes.
Local Open Scope Z_scope.

Ltac eval_tags :=
  repeat match goal with
  | |- context [Z.eqb ?a ?b] =>
      let r := eval vm_compute in (Z.eqb a b) in
      match r with true => change (Z.eqb a b) with true | false => change (Z.eqb a b) with false end
  end; cbn [orb andb negb].

(** ** The words that are counted for a term *)
Definition big_words (n : Z) : Z := (if n <? 256 then 1 else 2) + (n + 7) / 8.
Definition small_words (i : Z) : Z := if (w64 i <? 256) || IS_SSMALL32 i then 0 else big_words (big_bytes (small_to_big i)).
Definition binary_words (n k : Z) : Z := (if n <=? ERL_ONHEAP_BIN_LIMIT then heap_bin_size n else PROC_BIN_SIZE) + (if k =? 0 then 0 else ERL_SUB_BIN_SIZE).
Fixpoint term_words (t : term) : Z :=
  match t with
  | SMALL_DEF i => small_words i
  | BIG_DEF b => big_words (big_bytes b)
  | FLOAT_DEF _ => FLOAT_SIZE_OBJECT
  | ATOM_DEF _ | NIL_DEF => 0
  | LIST_DEF hd tl => 2 + term_words hd + term_words tl
  | TUPLE_DEF ts => Z.of_nat (length ts) + 1 + total term_words ts
  | MAP_DEF kvs => 4 + 2 * Z.of_nat (length kvs) + total (fun kv => term_words (fst kv) + term_words (snd kv)) kvs
  | BINARY_DEF bytes k => binary_words (Z.of_nat (length bytes)) k
  | PID_DEF _ _ | PORT_DEF _ _ => EXTERNAL_THING_HEAD_SIZE + 1
  | REF_DEF _ nums => EXTERNAL_THING_HEAD_SIZE + Z.of_nat (length nums) / 2 + 1
  | EXPORT_DEF _ _ _ => 2
  | FUN_DEF _ _ _ env => ERL_FUN_SIZE + Z.of_nat (length env) + (EXTERNAL_THING_HEAD_SIZE + 1) + total term_words env
  end.
Lemma total_nonneg {A} (f : A -> Z) l : (forall x, x ∈ l -> 0 <= f x) -> 0 <= total f l.
Proof.
  induction l as [|x l IH]; intros F; [reflexivity|]. rewrite total_cons. pose proof (F x ltac:(left)). assert (0 <= total f l) by (apply IH; intros y Hy; apply F; now right). lia.
Qed.

(** The elements of a list, and what is behind them. *)
Fixpoint elems (t : term) : list term := match t with LIST_DEF hd tl => hd :: elems tl | _ => [] end.
Fixpoint tail_of (t : term) : term := match t with LIST_DEF hd tl => tail_of tl | _ => t end.
Definition bytes_as_terms (bs : list Z) : list term := map SMALL_DEF bs.
Lemma elems_length t : list_cells t = Z.of_nat (length (elems t)).
Proof. induction t as [| | | | |hd tl _ IH| | | | | | | |] using term_ind; cbn [list_cells elems length]; try reflexivity. rewrite IH. lia. Qed.
Lemma words_elems t : term_words t = 2 * Z.of_nat (length (elems t)) + total term_words (elems t) + term_words (tail_of t).
Proof.
  induction t as [| | | | |hd tl _ IH| | | | | | | |] using term_ind; try (cbn [elems tail_of length total foldr]; lia).
  cbn [term_words elems tail_of length]. rewrite total_cons, IH. lia.
Qed.
Lemma tail_not_list t : is_list (tail_of t) = false.
Proof. induction t as [| | | | |hd tl _ IH| | | | | | | |] using term_ind; auto. Qed.
Lemma string_elems t : is_nil (snd (string_prefix t)) = true -> elems t = bytes_as_terms (fst (string_prefix t)) /\ tail_of t = NIL_DEF /\ Forall byte (fst (string_prefix t)).
Proof.
  induction t as [| | | | |hd tl _ IH| | | | | | | |] using term_ind; cbn [string_prefix snd is_nil]; try discriminate; auto.
  destruct hd as [i| | | | | | | | | | | | |]; cbn [snd is_nil]; try discriminate. destruct (is_byte (SMALL_DEF i)) eqn:Eb; cbn [snd is_nil]; try discriminate.
  destruct (string_prefix tl) as [bs r]. cbn [fst snd elems tail_of bytes_as_terms map] in *. intros Hn. destruct (IH Hn) as (-> & -> & F). splits; auto. constructor; auto.
  cbn in Eb. apply andb_true_iff in Eb as [E1%Z.leb_le E2%Z.ltb_lt]. split; lia.
Qed.

(** ** Turns of the size loop *)
Definition after (fuel : nat) (s : sizing) : decoded Z := if terms s =? 0 then Got (heap_size s) else size_terms fuel false s.
Definition run (n : nat) (s s' : sizing) : Prop := forall fuel, after (n + fuel) s = after fuel s'.
Lemma run_refl s : run 0 s s. Proof. intros fuel. reflexivity. Qed.
Lemma run_trans n m s s' s2 : run n s s' -> run m s' s2 -> run (n + m) s s2.
Proof. intros A B fuel. now rewrite <- Nat.add_assoc, A, B. Qed.
Definition down (s : sizing) : sizing := mkSizing (z_ep s) (terms s - 1) (heap_size s) (atom_extra_skip s).
Lemma run_turn s s' : size_term false s = Got s' -> 1 <= terms s -> 1 <= terms s' <= 2 ^ 31 -> run 1 s (down s').
Proof.
  intros E Hs Ht fuel. unfold after. rewrite (proj2 (Z.eqb_neq _ _)) by lia. cbn [Nat.add size_terms]. rewrite E. cbn [mbind decoded_bind].
  rewrite s32_id by lia. cbn [down terms heap_size]. destruct (Z.eqb_spec (terms s' - 1) 0) as [->|]; [reflexivity|].
  rewrite Z.gtb_ltb, (proj2 (Z.ltb_lt _ _)) by lia. reflexivity.
Qed.
(** The first byte is a tag. *)
Lemma size_tag tag p k hs sk : size_term false (mkSizing (tag :: p) k hs sk) =
  match size_atom tag (mkSizing p k hs sk) with
  | Some r => r
  | None => match size_block false tag (mkSizing p k hs sk) with Some r => r | None => match size_compound tag (mkSizing p k hs sk) with Some r => r | None => Malformed end end
  end.
Proof.
  unfold size_term. cbn [z_ep terms heap_size atom_extra_skip]. rewrite (CHKSIZE_app 1 [tag] p ltac:(reflexivity) : CHKSIZE 1 (tag :: p) = _). cbn [mbind decoded_bind get_int8].
  now rewrite (advance_app [tag] p : advance 1 (tag :: p) = _).
Qed.
Ltac tagged := rewrite size_tag; unfold size_atom, size_block, size_compound; eval_tags; cbn [z_ep terms heap_size atom_extra_skip].
Ltac sized_by q := eapply (run_turn _ (mkSizing _ _ _ _)); [tagged; q|cbn [terms]; lia|cbn [terms]; lia].
Lemma add_heap_id n hs : 0 <= hs + n < 2 ^ 31 -> add_heap n hs = hs + n.
Proof. intros H. unfold add_heap. now rewrite s32_id by lia. Qed.

Lemma small_words_nonneg i : IS_SSMALL i = true -> 0 <= small_words i.
Proof.
  intros Hi%ssmall_range. unfold small_words. destruct (w64 i <? 256) eqn:E; cbn [orb]; [lia|]. destruct (IS_SSMALL32 i); [lia|]. unfold big_words.
  assert (i <> 0) by (intros ->; discriminate E). destruct (small_bytes i Hi ltac:(auto)) as [-> _].
  match goal with |- context [?a / 8] => assert (0 <= a / 8) by (apply Z.div_pos; lia) end. clear E. destruct (_ <? 256); lia.
Qed.
Lemma enc_small_pos i : 1 <= len (enc_small i).
Proof. unfold enc_small. destruct (_ <? _); [cbn; lia|]. destruct (IS_SSMALL32 i); [cbn; lia|]. cbv zeta. cbn [app put_int8 length]. lia. Qed.
Lemma int_words i : - 2 ^ 31 <= i < 2 ^ 31 -> small_words i = 0.
Proof.
  intros Hi. unfold small_words. replace (IS_SSMALL32 i) with true; [now rewrite orb_true_r|]. symmetry. unfold IS_SSMALL32.
  rewrite Z.shiftr_div_pow2 by lia. apply Z.ltb_lt. assert (- 1 <= i / 2 ^ 31 <= 0) by lia. unfold w64. lia.
Qed.

(** ** What is counted for bytes *)
Definition sizes_as (bs : list Z) (w : Z) : Prop := forall p k hs, 1 <= k -> k + len bs <= 2 ^ 31 -> 0 <= hs -> 0 <= w -> hs + w < 2 ^ 31 ->
  exists n, (n <= length bs)%nat /\ run n (mkSizing (bs ++ p) k hs 0) (mkSizing p (k - 1) (hs + w) 0).
(** One turn. *)
Lemma sizes_turn tag bs w : (forall p k hs, 1 <= k < 2 ^ 31 -> 0 <= hs -> 0 <= w -> hs + w < 2 ^ 31 -> 
    size_term false (mkSizing (tag :: bs ++ p) k hs 0) = Got (mkSizing p k (hs + w) 0)) -> sizes_as (tag :: bs) w.
Proof.
  intros E p k hs Hk Hl Hh Hw Hs. cbn [length] in *. exists 1%nat. split; [lia|]. apply (run_turn _ (mkSizing p k (hs + w) 0)); cbn [terms]; try lia. apply E; lia.
Qed.
Ltac one_turn := apply sizes_turn; intros p k hs Hk Hh Hw Hs; tagged; rewrite <- ?app_assoc.
Lemma sizes_big n sign bs w : 0 <= n <= MAX_BIG_BYTES -> n = len bs -> w = big_words n ->
  sizes_as ((if n <? 256 then SMALL_BIG_EXT :: put_int8 n else LARGE_BIG_EXT :: put_int32 n) ++ [sign] ++ bs) w.
Proof.
  unfold MAX_BIG_BYTES, BIG_ARITY_MAX. intros Hn El ->. unfold big_words. destruct (Z.ltb_spec n 256); cbn [app]; one_turn.
  - rewrite CHKSIZE_app by reflexivity. cbn [mbind decoded_bind]. rewrite get_put8 by lia. cbn [mbind decoded_bind].
    rewrite (SKIP2_bytes n (1 + 1) (put_int8 n ++ sign :: bs) _ p) by (rewrite <- ?app_assoc; cbn [length app put_int8]; lia || reflexivity). cbn [mbind decoded_bind]. rewrite w64_id by lia.
    rewrite add_heap_id by lia. do 3 f_equal. lia.
  - rewrite CHKSIZE_app by reflexivity. cbn [mbind decoded_bind]. rewrite get_put32, s32_id by lia. cbn [mbind decoded_bind]. rewrite (w64_id n) by lia.
    unfold MAX_BIG_BYTES, BIG_ARITY_MAX. rewrite Z.gtb_ltb, (proj2 (Z.ltb_ge _ _)) by lia. cbn [negb check mbind decoded_bind].
    rewrite (SKIP2_bytes n (4 + 1) (put_int32 n ++ sign :: bs) _ p) by (rewrite <- ?app_assoc; cbn [length app put_int32]; lia || reflexivity). cbn [mbind decoded_bind]. rewrite w64_id by lia.
    rewrite add_heap_id by lia. do 3 f_equal. lia.
Qed.
Lemma sizes_small i : IS_SSMALL i = true -> sizes_as (enc_small i) (small_words i).
Proof.
  intros Hi%ssmall_range. unfold enc_small, small_words. destruct (w64 i <? 256) eqn:E1; cbn [orb].
  - one_turn. rewrite (SKIP_app 1) by reflexivity. cbn [mbind decoded_bind]. now rewrite add_heap_id by lia.
  - destruct (IS_SSMALL32 i) eqn:E2.
    + one_turn. rewrite (SKIP_app 4) by reflexivity. cbn [mbind decoded_bind]. now rewrite add_heap_id by lia.
    + assert (i <> 0) by (intros ->; discriminate E1). destruct (small_bytes i Hi ltac:(auto)) as [Eb Hb]. cbv zeta. rewrite Eb.
      pose proof (sizes_big (len (big_to_bytes (small_to_big i))) (b2z (BIG_SIGN (small_to_big i))) (big_to_bytes (small_to_big i)) (big_words (len (big_to_bytes (small_to_big i)))))
        as B. rewrite (proj2 (Z.ltb_lt _ 256)) in B by lia. apply B; auto. unfold MAX_BIG_BYTES, BIG_ARITY_MAX. lia.
Qed.
Lemma sizes_string t : is_nil (snd (string_prefix t)) = true -> len (fst (string_prefix t)) < MAX_STRING_LEN ->
  sizes_as (STRING_EXT :: put_int16 (len (fst (string_prefix t))) ++ fst (string_prefix t)) (2 * len (fst (string_prefix t))).
Proof.
  intros Hn Hl. unfold MAX_STRING_LEN in Hl. one_turn. rewrite CHKSIZE_app by reflexivity. cbn [mbind decoded_bind]. rewrite get_put16 by lia. cbn [mbind decoded_bind].
  rewrite app_assoc, SKIP_app by (rewrite length_app, length_int16; lia). cbn [mbind decoded_bind]. now rewrite add_heap_id by lia.
Qed.


Section OfAtoms.
Context {S : Type} `{AtomLaws S}.
Variable atoms : S.
Variable dflags : Z.
Context {plain : PlainTags dflags}.
Notation atom_ext := (atom_ext atoms dflags).
Notation atom_bytes := (atom_bytes dflags).
Lemma atom_ext_known a x : known atoms a x -> atom_ext a = atom_bytes x.
Proof. intros K. unfold ExtSpec.atom_ext. now rewrite (enc_atom_known _ _ _ _ K). Qed.
Lemma size_atom_bytes x a q e p k hs : known atoms a x -> q = e ++ p -> 1 <= k < 2 ^ 31 ->
  run 1 (mkSizing (atom_bytes x ++ q) k hs (len e)) (mkSizing p (k - 1) hs 0).
Proof.
  intros K -> Hk. destruct (known_name _ _ _ K) as [_ Hn]. unfold ExtSize.atom_bytes. destruct (has DFLAG_UTF8_ATOMS dflags || (latin1_chars x <? 0)) eqn:E.
  - destruct (Z.of_nat (length (a_name x)) >? 255) eqn:El; cbn [app].
    + apply (run_turn _ (mkSizing p k hs 0)); cbn [terms]; try lia. tagged. rewrite <- app_assoc, CHKSIZE_app by reflexivity. cbn [mbind decoded_bind].
      rewrite get_put16 by lia. cbn [mbind decoded_bind]. rewrite (advance_app' 2) by reflexivity. cbn [mbind decoded_bind].
      unfold MAX_ATOM_SZ_LIMIT, MAX_ATOM_CHARACTERS. rewrite Z.gtb_ltb, (proj2 (Z.ltb_ge _ _)) by lia. cbn [negb check mbind decoded_bind].
      rewrite app_assoc, SKIP_app by (rewrite length_app; lia). reflexivity.
    + rewrite Z.gtb_ltb in El. apply Z.ltb_ge in El.
      apply (run_turn _ (mkSizing p k hs 0)); cbn [terms]; try lia. tagged. rewrite <- app_assoc, CHKSIZE_app by reflexivity. cbn [mbind decoded_bind].
      rewrite get_put8 by lia. cbn [mbind decoded_bind]. rewrite (advance_app' 1) by reflexivity. cbn [mbind decoded_bind].
      unfold MAX_ATOM_SZ_LIMIT, MAX_ATOM_CHARACTERS. rewrite Z.gtb_ltb, (proj2 (Z.ltb_ge _ _)) by lia. cbn [negb check mbind decoded_bind].
      rewrite app_assoc, SKIP_app by (rewrite length_app; lia). reflexivity.
  - apply orb_false_iff in E as [_ E%Z.ltb_ge]. destruct (known_latin1 _ _ _ K E) as (_ & El & Hl). destruct (has DFLAG_SMALL_ATOM_TAGS dflags); cbn [app].
    + apply (run_turn _ (mkSizing p k hs 0)); cbn [terms]; try lia. tagged. rewrite <- app_assoc, CHKSIZE_app by reflexivity. cbn [mbind decoded_bind].
      rewrite get_put8 by lia. cbn [mbind decoded_bind]. unfold MAX_ATOM_CHARACTERS. rewrite Z.gtb_ltb, (proj2 (Z.ltb_ge _ _)) by lia. cbn [negb check mbind decoded_bind].
      rewrite !app_assoc, SKIP_app by (rewrite !length_app, length_int8; lia). reflexivity.
    + apply (run_turn _ (mkSizing p k hs 0)); cbn [terms]; try lia. tagged. rewrite <- app_assoc, CHKSIZE_app by reflexivity. cbn [mbind decoded_bind].
      rewrite get_put16 by lia. cbn [mbind decoded_bind]. unfold MAX_ATOM_CHARACTERS. rewrite Z.gtb_ltb, (proj2 (Z.ltb_ge _ _)) by lia. cbn [negb check mbind decoded_bind].
      rewrite !app_assoc, SKIP_app by (rewrite !length_app, length_int16; lia). reflexivity.
Qed.
Lemma size_atom_ext a p k hs : is_atom atoms a -> 1 <= k < 2 ^ 31 -> run 1 (mkSizing (atom_ext a ++ p) k hs 0) (mkSizing p (k - 1) hs 0).
Proof. intros [x K] Hk. rewrite (atom_ext_known _ _ K). now apply (size_atom_bytes x a p [] p k hs K). Qed.
Lemma size_atom_extra a e p k hs : is_atom atoms a -> 1 <= k < 2 ^ 31 -> run 1 (mkSizing (atom_ext a ++ e ++ p) k hs (len e)) (mkSizing p (k - 1) hs 0).
Proof. intros [x K] Hk. rewrite (atom_ext_known _ _ K). now apply (size_atom_bytes x a (e ++ p) e p k hs K). Qed.

End OfAtoms.

(** The keys and values of a map, in the order they are written. *)
Definition pairs (kvs : list (term * term)) : list term := flat_map (fun kv => [fst kv; snd kv]) kvs.
Lemma pairs_length kvs : len (pairs kvs) = 2 * len kvs.
Proof. induction kvs as [|kv kvs IH]; [reflexivity|]. unfold pairs in *. cbn [flat_map app length] in *. lia. Qed.
Lemma pairs_total f kvs : total f (pairs kvs) = total (fun kv => f (fst kv) + f (snd kv)) kvs.
Proof. induction kvs as [|kv kvs IH]; [reflexivity|]. unfold pairs in *. cbn [flat_map app]. rewrite !total_cons, IH. lia. Qed.
Lemma pairs_Forall P kvs : Forall P (pairs kvs) <-> Forall (fun kv => P (fst kv) /\ P (snd kv)) kvs.
Proof. unfold pairs. induction kvs as [|kv kvs IH]; cbn [flat_map app]; [split; constructor|]. rewrite !Forall_cons, IH. tauto. Qed.

Section Sized.
Context {S : Type} `{AtomLaws S}.
Variable this_node : Z * Z.
Variable sys_double_to_chars : Z * Z -> list Z.
Variable atoms : S.
Variable dflags : Z.
Context {plain : PlainTags dflags}.
Hypothesis new_funs : has DFLAG_NEW_FUN_TAGS dflags = true.
Hypothesis new_floats : has DFLAG_NEW_FLOATS dflags = true.
Hypothesis bit_binaries : has DFLAG_BIT_BINARIES dflags = true.
Hypothesis export_tag : has DFLAG_EXPORT_PTR_TAG dflags = true.
Notation ext := (ext this_node sys_double_to_chars atoms dflags).
Notation atom_ext := (atom_ext atoms dflags).
Notation atom_bytes := (atom_bytes dflags).

(** *** One term *)
Definition sizes (t : term) : Prop := sizes_as (ext false t) (term_words t).
Lemma sizes_atom a : is_atom atoms a -> sizes (ATOM_DEF a).
Proof.
  intros K p k hs Hk Hl Hh Hw Hs. exists 1%nat. cbn [ExtSpec.ext term_words] in *. pose proof K as [x Kx]. rewrite (atom_ext_known _ _ _ _ Kx) in *.
  assert (1 <= len (atom_bytes x)) by (unfold ExtSize.atom_bytes; destruct (_ || _); [destruct (_ >? 255)|destruct (has DFLAG_SMALL_ATOM_TAGS dflags)]; cbn [app length]; lia).
  split; [lia|]. rewrite Z.add_0_r, <- (atom_ext_known _ _ _ _ Kx). apply size_atom_ext; auto. lia.
Qed.
Lemma sizes_nil : sizes NIL_DEF.
Proof. unfold sizes. cbn [ExtSpec.ext term_words]. one_turn. cbn [mbind decoded_bind app]. now rewrite add_heap_id by lia. Qed.
Lemma sizes_float f : sizes (FLOAT_DEF f).
Proof.
  unfold sizes, ExtSpec.ext, enc_float. rewrite new_floats. one_turn. rewrite app_assoc, (SKIP_app 8) by reflexivity. cbn [mbind decoded_bind]. now rewrite add_heap_id by (cbn [term_words] in *; lia).
Qed.
Lemma sizes_binary bytes u : bits_ok bytes u -> len (enc_binary dflags bytes u) <= 2 ^ 31 -> sizes (BINARY_DEF bytes u).
Proof.
  intros [Hu0 Hu] Hlen. unfold sizes. cbn [ExtSpec.ext term_words]. unfold enc_binary in *. rewrite bit_binaries in *. unfold binary_words, ERL_ONHEAP_BIN_LIMIT.
  destruct (Z.eqb_spec u 0) as [->|]; cbn [length put_int32 app] in Hlen; one_turn.
  - rewrite CHKSIZE_app by reflexivity. cbn [mbind decoded_bind]. rewrite get_put32, s32_id by lia. cbn [mbind decoded_bind]. rewrite w64_id by lia.
    rewrite (SKIP2_bytes (len bytes) 4 (put_int32 (len bytes) ++ bytes) _ p) by (rewrite <- ?app_assoc; cbn [length app put_int32]; lia || reflexivity). cbn [mbind decoded_bind].
    rewrite add_heap_id by (unfold ERL_ONHEAP_BIN_LIMIT; lia). unfold ERL_ONHEAP_BIN_LIMIT. now rewrite Z.add_0_r.
  - rewrite (CHKSIZE_app 5 (put_int32 (len bytes) ++ [u]) (bytes ++ p) ltac:(reflexivity) : CHKSIZE 5 (put_int32 (len bytes) ++ [u] ++ bytes ++ p) = _).
    cbn [mbind decoded_bind]. rewrite get_put32, s32_id by lia. cbn [mbind decoded_bind]. rewrite w64_id by lia.
    rewrite (SKIP2_bytes (len bytes) 5 (put_int32 (len bytes) ++ u :: bytes) _ p) by (rewrite <- ?app_assoc; cbn [length app put_int32]; lia || reflexivity). cbn [mbind decoded_bind].
    unfold ERL_ONHEAP_BIN_LIMIT. destruct (len bytes <=? 64); rewrite add_heap_id by lia; do 3 f_equal; lia.
Qed.
(** Atoms with bytes behind them, after a tag that counts one more term. *)
Lemma sizes_node tag head n e w : is_atom atoms (node_name this_node n) -> 
  (forall p k hs, 1 <= k < 2 ^ 31 -> 0 <= hs -> 0 <= w -> hs + w < 2 ^ 31 -> size_term false (mkSizing (tag :: head ++ p) k hs 0) = Got (mkSizing p (s32 (k + 1)) (hs + w) (len e))) ->
  sizes_as (tag :: head ++ atom_ext (node_name this_node n) ++ e) w.
Proof.
  intros K E p k hs Hk Hl Hh Hw Hs. pose proof K as [x Kx].
  assert (1 <= len (atom_ext (node_name this_node n))).
  { rewrite (atom_ext_known _ _ _ _ Kx). unfold ExtSize.atom_bytes; destruct (_ || _); [destruct (_ >? 255)|destruct (has DFLAG_SMALL_ATOM_TAGS dflags)]; cbn [app length]; lia. }
  cbn [length] in Hl. rewrite !length_app in Hl. exists (1 + 1)%nat. split; [cbn [length]; rewrite !length_app; lia|].
  replace (k - 1) with (k + 1 - 1 - 1) by lia. eapply run_trans.
  - cbn [app]. rewrite <- !app_assoc. apply (run_turn _ (mkSizing (atom_ext (node_name this_node n) ++ e ++ p) (s32 (k + 1)) (hs + w) (len e))); cbn [terms]; [apply E; lia|lia|rewrite s32_id by lia; lia].
  - unfold down. cbn [z_ep terms heap_size atom_extra_skip]. rewrite s32_id by lia. apply size_atom_extra; auto. lia.
Qed.
Lemma sizes_pid n data : is_atom atoms (node_name this_node n) -> sizes (PID_DEF n data).
Proof.
  intros K. unfold sizes. cbn [ExtSpec.ext term_words]. unfold ExtSpec.pid_ext.
  apply (sizes_node PID_EXT [] n); auto. intros p k hs Hk Hh Hw Hs. cbn [app]. tagged. now rewrite add_heap_id by lia.
Qed.
Lemma sizes_port n num : is_atom atoms (node_name this_node n) -> sizes (PORT_DEF n num).
Proof.
  intros K. apply (sizes_node PORT_EXT [] n (put_int32 num ++ put_int8 (creation this_node n))); auto. intros p k hs Hk Hh Hw Hs. cbn [app term_words] in *. tagged. now rewrite add_heap_id by lia.
Qed.
Lemma sizes_ref n nums : is_atom atoms (node_name this_node n) -> (1 <= length nums <= 3)%nat -> sizes (REF_DEF n nums).
Proof.
  intros K Hn. apply (sizes_node NEW_REFERENCE_EXT (put_int16 (len nums)) n (put_int8 (creation this_node n) ++ flat_map put_int32 nums)); auto.
  intros p k hs Hk Hh Hw Hs. cbn [term_words] in *. tagged. rewrite CHKSIZE_app by reflexivity. cbn [mbind decoded_bind]. rewrite get_put16 by lia. cbn [mbind decoded_bind].
  unfold ERTS_MAX_REF_NUMBERS. rewrite Z.gtb_ltb, (proj2 (Z.ltb_ge _ _)) by lia. cbn [negb check mbind decoded_bind]. rewrite (advance_app' 2) by reflexivity. cbn [mbind decoded_bind].
  rewrite add_heap_id by lia. do 3 f_equal. rewrite length_app, Nat2Z.inj_add, ints_length. cbn [length put_int8]. lia.
Qed.
(** *** Several terms *)
Definition all_ext (ts : list term) : list Z := flat_map (ext false) ts.
Definition pos (t : term) : Prop := 1 <= len (ext false t) /\ 0 <= term_words t.
Lemma all_ext_length ts : Forall pos ts -> len ts <= len (all_ext ts).
Proof. induction 1 as [|t ts [P _] _ IH]; [reflexivity|]. unfold all_ext in *. cbn [flat_map length]. rewrite length_app. lia. Qed.
Lemma total_words_nonneg ts : Forall pos ts -> 0 <= total term_words ts.
Proof. intros F. apply total_nonneg. intros t Ht. rewrite Forall_forall in F. now apply F. Qed.
Lemma sizes_all ts : Forall pos ts -> Forall sizes ts -> forall p k hs, len ts <= k -> k - len ts + len (all_ext ts) < 2 ^ 31 -> 0 <= hs -> hs + total term_words ts < 2 ^ 31 ->
  exists n, (n <= length (all_ext ts))%nat /\ run n (mkSizing (all_ext ts ++ p) k hs 0) (mkSizing p (k - len ts) (hs + total term_words ts) 0).
Proof.
  intros P F. induction F as [|t ts Ft _ IH]; intros p k hs Hk Hl Hh Hs.
  - exists 0%nat. split; [cbn; lia|]. cbn [all_ext flat_map app length total foldr]. rewrite Z.sub_0_r, Z.add_0_r. apply run_refl.
  - inversion P as [|? ? [P1 P2] P']; subst. rewrite total_cons in *. pose proof (total_words_nonneg ts P'). pose proof (all_ext_length ts P').
    unfold all_ext in *. cbn [flat_map length] in *. rewrite length_app in *. 
    destruct (Ft (flat_map (ext false) ts ++ p) k hs ltac:(lia) ltac:(lia) Hh P2 ltac:(lia)) as (n & Hn & R).
    destruct (IH P' p (k - 1) (hs + term_words t) ltac:(lia) ltac:(lia) ltac:(lia) ltac:(lia)) as (m & Hm & R').
    exists (n + m)%nat. split; [lia|]. rewrite <- app_assoc. eapply run_trans; [exact R|].
    replace (k - Z.of_nat (Datatypes.S (length ts))) with (k - 1 - len ts) by lia. rewrite Z.add_assoc. exact R'.
Qed.
(** A tag, a header and terms. *)
Lemma sizes_parts tag head ts w : Forall pos ts -> Forall sizes ts ->
  (forall p k hs, 1 <= k -> k + len ts + len head < 2 ^ 31 -> 0 <= hs -> hs + w < 2 ^ 31 -> 
    size_term false (mkSizing (tag :: head ++ all_ext ts ++ p) k hs 0) = Got (mkSizing (all_ext ts ++ p) (k + len ts) (hs + w) 0)) ->
  0 <= w -> sizes_as (tag :: head ++ all_ext ts) (w + total term_words ts).
Proof.
  intros P F E W p k hs Hk Hl Hh _ Hs. cbn [length] in Hl. rewrite length_app in Hl. pose proof (all_ext_length ts P). pose proof (total_words_nonneg ts P).
  destruct (sizes_all ts P F p (k + len ts - 1) (hs + w) ltac:(lia) ltac:(lia) ltac:(lia) ltac:(lia)) as (n & Hn & R).
  exists (1 + n)%nat. split; [cbn [length]; rewrite length_app; lia|]. eapply run_trans.
  - cbn [app]. rewrite <- app_assoc. apply (run_turn _ (mkSizing (all_ext ts ++ p) (k + len ts) (hs + w) 0)); cbn [terms]; try lia. apply E; lia.
  - unfold down. cbn [z_ep terms heap_size atom_extra_skip]. replace (k - 1) with (k + len ts - 1 - len ts) by lia. rewrite Z.add_assoc. exact R.
Qed.

(** *** Every term *)
Lemma ext_elems t : ext true t = all_ext (elems t) ++ ext true (tail_of t).
Proof.
  unfold all_ext. induction t as [| | | | |hd tl _ IH| | | | | | | |] using term_ind; try reflexivity. rewrite ext_cells, IH. cbn [elems tail_of flat_map]. now rewrite app_assoc.
Qed.
Lemma ext_flat t : is_list t = false -> ext true t = ext false t. Proof. now destruct t. Qed.
Lemma ext_list hd tl : ext false (LIST_DEF hd tl) =
  (let t := LIST_DEF hd tl in if snd (is_external_string t) then STRING_EXT :: put_int16 (len (fst (string_prefix t))) ++ fst (string_prefix t)
   else LIST_EXT :: put_int32 (len (elems t)) ++ all_ext (elems t ++ [tail_of t])).
Proof.
  cbv zeta. unfold all_ext. rewrite flat_map_app. cbn [flat_map]. rewrite app_nil_r, <- (ext_flat _ (tail_not_list _)). fold (all_ext (elems (LIST_DEF hd tl))). rewrite <- ext_elems, ext_cells.
  rewrite <- elems_length. cbn [ExtSpec.ext]. unfold is_external_string. destruct (string_prefix (LIST_DEF hd tl)) as [bs r] eqn:E. cbn [snd fst].
  destruct (is_nil r && (len bs <? MAX_STRING_LEN)) eqn:Es.
  - apply andb_true_iff in Es as [Hn _]. replace (list_cells r) with 0 by (now destruct r). now rewrite Z.add_0_r.
  - replace (len bs + list_cells r) with (list_cells (LIST_DEF hd tl)); [reflexivity|]. clear Es. revert E. generalize (LIST_DEF hd tl). clear. intros t. revert bs r.
    induction t as [| | | | |hd tl _ IH| | | | | | | |] using term_ind; cbn [string_prefix]; intros bs r E; try (injection E as <- <-; reflexivity).
    destruct hd; try (injection E as <- <-; reflexivity). destruct (is_byte _); [|injection E as <- <-; reflexivity]. destruct (string_prefix tl) as [bs' r']. injection E as <- <-.
    cbn [list_cells length]. rewrite (IH bs' r' eq_refl). lia.
Qed.
Lemma pos_all t : wf_term this_node atoms t -> pos t.
Proof.
  unfold pos. induction t as [i|b|f|a| |hd tl IH1 IH2|ts IH|kvs IH|bytes k|n data|n num|n nums|m f arity|fe arity creator env IH] using term_ind; intros K; cbn [wf_term] in K.
  - split; [apply enc_small_pos|now apply small_words_nonneg].
  - split; [cbn [ExtSpec.ext]; unfold enc_big; cbv zeta; destruct (_ <? _); cbn [app length]; lia|]. cbn [term_words]. unfold big_words. rewrite (big_bytes_spec b K). destruct (_ <? 256); lia.
  - split; [unfold ExtSpec.ext, enc_float; rewrite new_floats; cbn; lia|cbn [term_words]; unfold FLOAT_SIZE_OBJECT; lia].
  - destruct K as [x Kx]. cbn [ExtSpec.ext]. rewrite (atom_ext_known _ _ _ _ Kx). split; [|cbn; lia]. unfold ExtSize.atom_bytes; destruct (_ || _); [destruct (_ >? 255)|destruct (has DFLAG_SMALL_ATOM_TAGS dflags)]; cbn [app length]; lia.
  - cbn. lia.
  - destruct K as [K1 K2]. destruct (IH1 K1), (IH2 K2). split; [|cbn [term_words]; lia]. rewrite ext_list. cbv zeta. destruct (snd _); cbn [length]; lia.
  - split; [cbn [ExtSpec.ext]; unfold tuple_header; destruct (_ <=? _); cbn [app length]; lia|]. cbn [term_words]. apply all_of_Forall in K.
    assert (0 <= total term_words ts); [|lia]. apply total_nonneg. intros t Ht. rewrite Forall_forall in *. apply IH; auto.
  - split; [cbn [ExtSpec.ext app length]; lia|]. cbn [term_words]. apply all_of_Forall in K.
    match goal with |- context [total ?f kvs] => assert (0 <= total f kvs); [|lia] end. apply total_nonneg. intros kv Hk. rewrite Forall_forall in *. destruct (IH kv Hk) as [A B], (K kv Hk) as [Ka Kb].
    destruct (A Ka), (B Kb). lia.
  - split; [cbn [ExtSpec.ext]; unfold enc_binary; rewrite bit_binaries; destruct (_ =? 0); cbn [app length]; lia|]. cbn [term_words]. unfold binary_words, heap_bin_size, PROC_BIN_SIZE, ERL_SUB_BIN_SIZE.
    destruct (_ <=? _), (k =? 0); lia.
  - destruct K as [K%node_atom _]. cbn [ExtSpec.ext term_words]. unfold ExtSpec.pid_ext. cbn [length]. unfold EXTERNAL_THING_HEAD_SIZE. lia.
  - cbn [ExtSpec.ext term_words length]. unfold EXTERNAL_THING_HEAD_SIZE. lia.
  - cbn [ExtSpec.ext term_words length]. unfold EXTERNAL_THING_HEAD_SIZE. lia.
  - cbn [ExtSpec.ext term_words]. rewrite export_tag. cbn [length]. lia.
  - destruct K as (_ & _ & K). apply all_of_Forall in K. cbn [ExtSpec.ext term_words]. rewrite new_funs. cbn [length]. split; [lia|]. unfold ERL_FUN_SIZE, EXTERNAL_THING_HEAD_SIZE.
    assert (0 <= total term_words env); [|lia]. apply total_nonneg. intros t Ht. rewrite Forall_forall in *. apply IH; auto.
Qed.
Lemma sizes_tuple ts : Forall pos ts -> Forall sizes ts -> len (ext false (TUPLE_DEF ts)) <= 2 ^ 31 -> sizes (TUPLE_DEF ts).
Proof.
  intros P F Hlen. pose proof (all_ext_length ts P) as La. unfold sizes. cbn [ExtSpec.ext term_words] in *. fold (all_ext ts) in *. unfold tuple_header in *. rewrite length_app in Hlen.
  destruct (Z.leb_spec (len ts) 255); cbn [app length] in *; apply sizes_parts; auto; try lia; intros p k hs Hk Hl Hh Hs; tagged.
  - rewrite CHKSIZE_app by reflexivity. cbn [mbind decoded_bind]. rewrite get_put8 by lia. cbn [mbind decoded_bind]. rewrite (advance_app' 1) by reflexivity. cbn [mbind decoded_bind].
    cbn [length put_int8] in Hl. now rewrite s32_id, add_heap_id by lia.
  - rewrite CHKSIZE_app by reflexivity. cbn [mbind decoded_bind]. cbn [length put_int32] in *. rewrite get_put32, s32_id by lia. cbn [mbind decoded_bind]. rewrite (advance_app' 4) by reflexivity. cbn [mbind decoded_bind].
    unfold ADDTERMS. rewrite (w64_id (len ts)), (s32_id (k + len ts)), (proj2 (Z.ltb_ge _ _)) by lia. cbn [mbind decoded_bind]. rewrite w64_id, s32_id, add_heap_id by lia. reflexivity.
Qed.
Lemma ext_is_list t : is_list t = true -> ext false t =
  if snd (is_external_string t) then STRING_EXT :: put_int16 (len (fst (string_prefix t))) ++ fst (string_prefix t)
  else LIST_EXT :: put_int32 (len (elems t)) ++ all_ext (elems t ++ [tail_of t]).
Proof. destruct t; try discriminate. intros _. apply ext_list. Qed.
Lemma sizes_list t : is_list t = true -> Forall pos (elems t ++ [tail_of t]) -> (snd (is_external_string t) = false -> Forall sizes (elems t ++ [tail_of t])) -> len (ext false t) <= 2 ^ 31 -> sizes t.
Proof.
  intros L P F Hlen. unfold sizes. rewrite (words_elems t), (ext_is_list t L) in *.
  destruct (snd (is_external_string t)) eqn:Es.
  - unfold is_external_string in Es. destruct (string_prefix t) as [bs r] eqn:Ep. cbn [snd] in Es. apply andb_true_iff in Es as [Hn Hl%Z.ltb_lt].
    destruct (string_elems t) as (E1 & E2 & Fb); [now rewrite Ep|]. rewrite Ep in *. cbn [fst] in *.
    replace (2 * len (elems t) + total term_words (elems t) + term_words (tail_of t)) with (2 * len bs).
    + pose proof (sizes_string t ltac:(now rewrite Ep)) as X. rewrite Ep in X. cbn [fst] in X. auto.
    + rewrite E1, E2. unfold bytes_as_terms. rewrite length_map, total_map. cbn [term_words]. assert (total (fun i => small_words i) bs = 0); [|lia].
      clear - Fb. induction Fb as [|b bs Hb _ IH]; [reflexivity|]. rewrite total_cons, IH. unfold small_words, byte in *. rewrite w64_id, (proj2 (Z.ltb_lt _ _)) by lia. reflexivity.
  - pose proof (all_ext_length _ P) as La. rewrite length_app in La. cbn [length] in La, Hlen. rewrite length_app in Hlen.
    replace (2 * len (elems t) + total term_words (elems t) + term_words (tail_of t)) with (2 * len (elems t) + total term_words (elems t ++ [tail_of t])) by (rewrite total_app; cbn [total foldr]; lia).
    apply sizes_parts; auto; [|lia]. intros p k hs Hk Hl Hh Hs. rewrite length_app in Hl. cbn [length put_int32] in *. tagged.
    rewrite CHKSIZE_app by reflexivity. cbn [mbind decoded_bind]. rewrite get_put32, s32_id by lia. cbn [mbind decoded_bind]. rewrite (advance_app' 4) by reflexivity. cbn [mbind decoded_bind].
    unfold ADDTERMS. rewrite (w64_id (len (elems t))), (s32_id (k + len (elems t))), (proj2 (Z.ltb_ge _ _)) by lia. cbn [mbind decoded_bind].
    rewrite w64_id, s32_id, add_heap_id by lia. replace (k + len (elems t ++ [tail_of t])) with (k + len (elems t) + 1) by (rewrite length_app; cbn [length]; lia). reflexivity.
Qed.
Lemma pairs_ext kvs : all_ext (pairs kvs) = flat_map (fun kv => ext false (fst kv) ++ ext false (snd kv)) kvs.
Proof. induction kvs as [|kv kvs IH]; [reflexivity|]. unfold all_ext, pairs in *. cbn [flat_map app]. rewrite IH. now rewrite app_assoc. Qed.
Lemma sizes_map kvs : Forall pos (pairs kvs) -> Forall sizes (pairs kvs) -> len (ext false (MAP_DEF kvs)) <= 2 ^ 31 -> sizes (MAP_DEF kvs).
Proof.
  intros P F Hlen. pose proof (all_ext_length _ P) as La. pose proof (pairs_length kvs) as Lp. unfold sizes. cbn [ExtSpec.ext term_words] in *.
  rewrite <- pairs_ext in *. rewrite <- pairs_total. cbn [length app] in *. rewrite length_app in Hlen. cbn [length put_int32] in Hlen.
  apply (sizes_parts MAP_EXT (put_int32 (len kvs)) (pairs kvs)); auto; [|lia]. intros p k hs Hk Hl Hh Hs. cbn [length put_int32] in Hl. tagged.
  rewrite CHKSIZE_app by reflexivity. cbn [mbind decoded_bind]. rewrite get_put32, s32_id by lia. cbn [mbind decoded_bind]. rewrite (advance_app' 4) by reflexivity. cbn [mbind decoded_bind].
  unfold ADDTERMS. rewrite (w64_id (len kvs)), (w64_id (2 * len kvs)), (s32_id (k + 2 * len kvs)), (proj2 (Z.ltb_ge _ _)) by lia. cbn [mbind decoded_bind].
  rewrite w64_id, s32_id, add_heap_id by lia. do 3 f_equal; lia.
Qed.
Lemma sizes_export m f arity : is_atom atoms m -> is_atom atoms f -> 0 <= arity <= MAX_ARG -> sizes (EXPORT_DEF m f arity).
Proof.
  unfold MAX_ARG. intros Km Kf Ha p k hs Hk Hl Hh Hw Hs. cbn [ExtSpec.ext term_words] in *. rewrite export_tag in *. cbn [length] in Hl. rewrite !length_app in Hl.
  pose proof (enc_small_pos arity). assert (Pm : 1 <= len (atom_ext m)) by apply (pos_all (ATOM_DEF m) Km). assert (Pf : 1 <= len (atom_ext f)) by apply (pos_all (ATOM_DEF f) Kf).
  assert (Wa : small_words arity = 0) by (unfold small_words; rewrite w64_id, (proj2 (Z.ltb_lt _ _)) by lia; reflexivity).
  destruct (sizes_small arity (proj2 (ssmall_range arity) ltac:(lia)) p k (hs + 2) Hk ltac:(lia) ltac:(lia) ltac:(lia) ltac:(lia)) as (n & Hn & R). rewrite Wa, Z.add_0_r in R.
  exists (1 + (1 + (1 + n)))%nat. split; [cbn [length]; rewrite !length_app; lia|]. eapply run_trans; [|eapply run_trans; [|eapply run_trans; [|exact R]]].
  - cbn [app]. apply (run_turn _ (mkSizing (atom_ext m ++ atom_ext f ++ enc_small arity ++ p) (k + 3) (hs + 2) 0)); cbn [terms]; try lia. tagged. rewrite <- !app_assoc, s32_id, add_heap_id by lia. reflexivity.
  - unfold down. cbn [z_ep terms heap_size atom_extra_skip]. apply size_atom_ext; auto. lia.
  - replace k with (k + 3 - 1 - 1 - 1) at 2 by lia. apply size_atom_ext; auto. lia.
Qed.
(** A fun, as the terms that are counted for it. *)
Definition fun_parts (fe : fun_entry) (creator : node * Z) (env : list term) : list term :=
  ATOM_DEF (fe_module fe) :: SMALL_DEF (fe_old_index fe) :: SMALL_DEF (fe_old_uniq fe) :: PID_DEF (fst creator) (snd creator) :: env.
Definition fun_head (fe : fun_entry) (arity num_free : Z) : list Z := [Z.land arity 0xff] ++ fe_uniq fe ++ put_int32 (fe_index fe) ++ put_int32 num_free.
Lemma fun_body fe arity creator env : is_atom atoms (fe_module fe) -> is_atom atoms (node_name this_node (fst creator)) ->
  bytes_of (fun_header this_node atoms dflags fe arity creator (len env)) ++ flat_map (ext false) env = fun_head fe arity (len env) ++ all_ext (fun_parts fe creator env).
Proof.
  intros Km Kn. unfold fun_header, fun_head, all_ext, fun_parts. cbn [flat_map ExtSpec.ext]. rewrite (atom_written _ _ _ Km), (enc_pid_plain _ _ _ _ _ (atom_written _ _ _ Kn)). cbn [mbind outcome_bind bytes_of]. now rewrite <- !app_assoc.
Qed.
Lemma sizes_fun fe arity creator env : fun_ok atoms fe arity (len env) -> pid_ok this_node atoms (fst creator) (snd creator) ->
  Forall pos (fun_parts fe creator env) -> Forall sizes (fun_parts fe creator env) -> len (ext false (FUN_DEF fe arity creator env)) <= 2 ^ 31 -> sizes (FUN_DEF fe arity creator env).
Proof.
  intros (Km & Hu & _ & _ & Ho & Hi & Har & Hnf) [Kn%node_atom _] P F Hlen. unfold MAX_ARG in Hnf. unfold sizes. cbn [ExtSpec.ext term_words] in *. rewrite new_funs in *. cbv zeta in *. rewrite fun_body in * by auto.
  cbn [length] in Hlen. rewrite length_app in Hlen.
  set (body := fun_head fe arity (len env) ++ all_ext (fun_parts fe creator env)) in *.
  pose proof (all_ext_length _ P) as La. assert (Lb : len body = 25 + len (all_ext (fun_parts fe creator env))).
  { subst body. unfold fun_head. rewrite !length_app, Hu. cbn [length put_int32]. lia. }
  assert (Lp : len (fun_parts fe creator env) = 4 + len env) by (cbn [fun_parts length]; lia).
  replace (ERL_FUN_SIZE + len env + (EXTERNAL_THING_HEAD_SIZE + 1) + total term_words env) with ((ERL_FUN_SIZE + len env) + total term_words (fun_parts fe creator env))
    by (unfold fun_parts; rewrite !total_cons; cbn [term_words]; rewrite !int_words by lia; lia).
  replace (NEW_FUN_EXT :: put_int32 (len body + 4) ++ body) with (NEW_FUN_EXT :: (put_int32 (len body + 4) ++ fun_head fe arity (len env)) ++ all_ext (fun_parts fe creator env))
    by (subst body; now rewrite <- !app_assoc).
  apply sizes_parts; auto; [|unfold ERL_FUN_SIZE; lia]. intros p k hs Hk Hl Hh Hs. tagged. rewrite <- !app_assoc. cbn [length put_int32] in Hlen.
  assert (Eb : put_int32 (len body + 4) ++ fun_head fe arity (len env) ++ all_ext (fun_parts fe creator env) ++ p = (put_int32 (len body + 4) ++ body) ++ p) by (subst body; now rewrite <- !app_assoc).
  rewrite Eb. rewrite (CHKSIZE_app (1 + 16 + 4 + 4)) by (rewrite length_app, length_int32; lia). cbn [mbind decoded_bind]. rewrite <- (app_assoc (put_int32 _)), get_put32, s32_id by lia. cbn [mbind decoded_bind].
  rewrite w64_id by lia. rewrite app_assoc, CHKSIZE_app by (rewrite length_app, length_int32; lia). cbn [mbind decoded_bind]. rewrite <- Eb. unfold fun_head. rewrite <- !app_assoc.
  rewrite (app_assoc (fe_uniq fe)), (app_assoc [_]), (app_assoc (put_int32 (len body + 4))). rewrite (advance_app' (1 + 16 + 4 + 4)) by (rewrite !length_app, Hu; cbn [length put_int32]; lia). cbn [mbind decoded_bind].
  rewrite CHKSIZE_app by reflexivity. cbn [mbind decoded_bind]. rewrite get_put32. cbn [mbind decoded_bind]. rewrite put32_u32 by lia. rewrite (advance_app' 4) by reflexivity. cbn [mbind decoded_bind].
  unfold MAX_ARG. rewrite Z.gtb_ltb, (proj2 (Z.ltb_ge _ _)) by lia. cbn [negb check mbind decoded_bind]. rewrite length_app in Hl. unfold ERL_FUN_SIZE in *. rewrite s32_id, add_heap_id by lia. now rewrite Lp.
Qed.
Lemma part_length ts t : t ∈ ts -> len (ext false t) <= len (all_ext ts).
Proof. induction 1 as [ts|t t' ts _ IH]; unfold all_ext in *; cbn [flat_map]; rewrite length_app; lia. Qed.
(** What is shown for each term, and for the parts of a list. *)
Definition sizable (t : term) : Prop := pos t /\ (len (ext false t) <= 2 ^ 31 -> sizes t).
Definition sizable_parts (t : term) : Prop := sizable t /\ Forall sizable (elems t ++ [tail_of t]).
Lemma sizable_flat t : is_list t = false -> wf_term this_node atoms t -> (len (ext false t) <= 2 ^ 31 -> sizes t) -> sizable_parts t.
Proof.
  intros L W H1. assert (G : sizable t) by (split; auto; now apply pos_all). split; auto. replace (elems t ++ [tail_of t]) with [t] by (now destruct t). auto.
Qed.
Lemma sizable_all ts : Forall sizable ts -> len (all_ext ts) <= 2 ^ 31 -> Forall pos ts /\ Forall sizes ts.
Proof.
  intros F Hl. rewrite !Forall_forall in *. split; intros t Ht; destruct (F t Ht) as [A B]; auto. apply B. pose proof (part_length ts t Ht). lia.
Qed.
Lemma sizable_list hd tl : wf_term this_node atoms (LIST_DEF hd tl) -> sizable_parts hd -> sizable_parts tl -> sizable_parts (LIST_DEF hd tl).
Proof.
  intros W [A _] [_ B]. assert (F : Forall sizable (elems (LIST_DEF hd tl) ++ [tail_of (LIST_DEF hd tl)])) by (constructor; auto).
  split; auto. split; [now apply pos_all|]. intros Hl. apply sizes_list; auto.
  - eapply Forall_impl; [exact F|]. now intros ? [].
  - intros Es. rewrite (ext_is_list (LIST_DEF hd tl) eq_refl), Es in Hl. cbn [length] in Hl. rewrite length_app in Hl. apply (sizable_all _ F). lia.
Qed.
Lemma sizable_term t : wf_term this_node atoms t -> sizable_parts t.
Proof.
  induction t as [i|b|f|a| |hd tl IH1 IH2|ts IH|kvs IH|bytes u|n data|n num|n nums|m f arity|fe arity creator env IH] using term_ind; intros W; pose proof W as K; cbn [wf_term] in K;
    try (apply sizable_flat; auto; intros Hl).
  - now apply sizes_small.
  - unfold sizes. cbn [ExtSpec.ext term_words]. unfold enc_big. cbv zeta. apply sizes_big; auto; [|now apply big_bytes_spec].
    rewrite (big_bytes_spec b K). destruct K as ((Dg & [Hne _] & _) & _ & Ha). destruct (digits_to_bytes_spec _ Dg Hne) as (_ & _ & Lb & _). unfold MAX_BIG_BYTES, big_to_bytes. unfold BIG_SIZE in Ha. lia.
  - apply sizes_float.
  - now apply sizes_atom.
  - apply sizes_nil.
  - destruct K. apply sizable_list; auto.
  - assert (F : Forall sizable ts) by (apply all_of_Forall in K; rewrite Forall_forall in *; intros t Ht; apply IH; auto).
    destruct (sizable_all ts F); [|now apply sizes_tuple]. cbn [ExtSpec.ext] in Hl. rewrite length_app in Hl. unfold all_ext. lia.
  - assert (F : Forall sizable (pairs kvs)).
    { apply pairs_Forall. apply all_of_Forall in K. rewrite Forall_forall in *. intros kv Hk. destruct (IH kv Hk) as [A B], (K kv Hk) as [Ka Kb]. split; [now apply A|now apply B]. }
    destruct (sizable_all _ F); [|now apply sizes_map]. cbn [ExtSpec.ext app length] in Hl. rewrite pairs_ext. rewrite length_app in Hl. lia.
  - apply sizes_binary; [apply K|exact Hl].
  - apply sizes_pid. now destruct K as [[K _] _].
  - apply sizes_port. now destruct K as [[K _] _].
  - apply sizes_ref; [now destruct K as [[K _] _]|apply K].
  - destruct K as (K1 & K2 & K3). now apply sizes_export.
  - destruct K as (K1 & K2 & K3). assert (F : Forall sizable (fun_parts fe creator env)).
    { pose proof K1 as (Km & _ & _ & _ & Hu & Ho & _). pose proof K2 as [Kn _]. unfold fun_parts. repeat (constructor; [split; [apply pos_all|intros _]|]).
      - exact Km.
      - now apply sizes_atom.
      - apply ssmall_range. lia.
      - apply sizes_small, ssmall_range. lia.
      - apply ssmall_range. lia.
      - apply sizes_small, ssmall_range. lia.
      - exact K2.
      - apply sizes_pid. now apply node_atom.
      - apply all_of_Forall in K3. rewrite Forall_forall in *. intros t Ht. now apply IH; auto. }
    destruct (sizable_all _ F) as [P Z]; [|now apply sizes_fun]. pose proof K1 as (Km & _). pose proof K2 as [Kn _]. cbn [ExtSpec.ext] in Hl. rewrite new_funs in Hl. cbv zeta in Hl. rewrite fun_body in Hl by (auto; now apply node_atom).
    cbn [length] in Hl. rewrite !length_app in Hl. lia.
Qed.
(** What decoded_size returns for an encoded term. *)
Lemma decoded_size_ext t : wf_term this_node atoms t -> len (ext false t) < 2 ^ 31 -> term_words t < 2 ^ 31 -> decoded_size (ext false t) false = Got (term_words t).
Proof.
  intros W Hl Hw. destruct (sizable_term t W) as [[[P Wn] Z] _]. destruct (Z ltac:(lia) [] 1 0 ltac:(lia) ltac:(lia) ltac:(lia) Wn ltac:(lia)) as (n & Hn & R).
  rewrite app_nil_r in R. specialize (R (Datatypes.S (length (ext false t)) - n)%nat). replace (n + (Datatypes.S (length (ext false t)) - n))%nat with (Datatypes.S (length (ext false t))) in R by lia.
  exact R.
Qed.
End Sized.
