(* ===== verification/ExtRep.v ===== *)
(** [rep]: which words on the heap represent a term, and lemmas about parts of the heap that do
    not change. *)

From S2P Require Import Prelude.
From stdpp Require Import base option list gmap sorting.
From S2P Require Import BigNum BigConv Memory Atoms ExtTerm ExtDecode ExtSpec.
Local Open Scope Z_scope.

(** ** Terms on the heap *)
(** A word between two addresses. *)
Definition at_word (lo hi : Z) (h : heap) (a : Z) (v : word) : Prop := lo <= a < hi /\ h !! a = Some v.
(** Consecutive words from the address [a] on, within bounds. *)
Definition slots {A} (lo hi : Z) (h : heap) (f : A -> word -> Prop) : Z -> list A -> Prop :=
  fix go (a : Z) (l : list A) := match l with [] => True | x :: l => (exists w, at_word lo hi h a w /\ f x w) /\ go (a + 1) l end.
(** The header of a map, of those in [X] before their keys are validated. *)
Definition header (X : list Z) (h : heap) (m : Z) : Prop := exists w, h !! m = Some w /\ if decide (m ∈ X) then exists n, w = MAP_LINK n else w = MAP_HEADER.
Definition pid_word (lo hi : Z) (h : heap) (n : node) (data : Z) (w : word) : Prop :=
  match n with None => w = make_internal_pid data | Some nd => exists p, w = make_boxed p /\ at_word lo hi h p (THING (T_pid nd data)) end.
(** The word [w] is the term [t], whose objects are between [lo] and [hi]. *)
Fixpoint rep (X : list Z) (lo hi : Z) (h : heap) (t : term) (w : word) : Prop :=
  let at_ := at_word lo hi h in
  let box x := exists p, w = make_boxed p /\ at_ p (THING x) in
  match t with
  | SMALL_DEF i => w = make_small i
  | BIG_DEF b => box (T_big b)
  | FLOAT_DEF f => box (T_float f)
  | ATOM_DEF a => w = make_atom a
  | NIL_DEF => w = NIL
  | LIST_DEF hd tl => exists p wh wt, w = make_list p /\ at_ p wh /\ at_ (p + 1) wt /\ rep X lo hi h hd wh /\ rep X lo hi h tl wt
  | TUPLE_DEF ts => exists p, w = make_boxed p /\ at_ p (make_arityval (Z.of_nat (length ts))) /\ slots lo hi h (rep X lo hi h) (p + 1) ts
  | MAP_DEF kvs =>
      exists m k, w = make_boxed m /\ (lo <= m < hi /\ header X h m) /\ at_ (m + 1) (RAW (Z.of_nat (length kvs))) /\ at_ (m + 2) (make_boxed k) /\
        at_ k (make_arityval (Z.of_nat (length kvs))) /\ slots lo hi h (fun kv => rep X lo hi h (fst kv)) (k + 1) kvs /\
        slots lo hi h (fun kv => rep X lo hi h (snd kv)) (m + 3) kvs
  | BINARY_DEF bytes k =>
      if k =? 0 then box (T_bin bytes)
      else exists p q, w = make_boxed q /\ at_ q (THING (T_sub_bin p (Z.of_nat (length bytes) - 1) k)) /\ at_ p (THING (T_bin bytes))
  | PID_DEF n data => pid_word lo hi h n data w
  | PORT_DEF n num => match n with None => w = make_internal_port num | Some nd => box (T_port nd num) end
  | REF_DEF n nums => box (T_ref n (Z.of_nat (length nums)) nums)
  | EXPORT_DEF m f arity => box (T_export m f arity)
  | FUN_DEF fe arity creator env =>
      exists p wc, w = make_boxed p /\ at_ p (THING (T_fun fe arity (Z.of_nat (length env)))) /\ at_ (p + ERL_FUN_SIZE - 1) wc /\
        pid_word lo hi h (fst creator) (snd creator) wc /\ slots lo hi h (rep X lo hi h) (p + ERL_FUN_SIZE) env
  end.

(** A word of a term, not a hole or a header. *)
Definition settled (w : word) : Prop := match w with LINK _ | MAP_LINK _ | MAP_HEADER => False | _ => True end.
Lemma pid_settled lo hi h n data w : pid_word lo hi h n data w -> settled w.
Proof. destruct n as [nd|]; cbn; [intros (p & -> & _)|intros ->]; exact I. Qed.
Lemma rep_settled X lo hi h t w : rep X lo hi h t w -> settled w.
Proof.
  destruct t as [i|b|f|a| |hd tl|ts|kvs|bytes k|n data|n num|n nums|m f arity|fe arity creator env]; cbn [rep]; try (intros ->; exact I); try (intros (p & -> & _); exact I).
  - intros (p & wh & wt & -> & _). exact I.
  - intros (m & k & -> & _). exact I.
  - destruct (k =? 0); [intros (p & -> & _)|intros (p & q & -> & _)]; exact I.
  - apply pid_settled.
  - destruct n as [nd|]; [intros (p & -> & _)|intros ->]; exact I.
  - intros (p & wc & -> & _). exact I.
Qed.
(** A representation depends only on settled words and on the headers of maps. *)
Definition extends (X X' : list Z) (lo hi : Z) (h h' : heap) : Prop :=
  (forall a w, lo <= a < hi -> h !! a = Some w -> settled w -> h' !! a = Some w) /\ (forall m, lo <= m < hi -> header X h m -> header X' h' m).
Lemma slots_mono {A} (lo hi lo' hi' : Z) h h' (f g : A -> word -> Prop) l : lo' <= lo -> hi <= hi' ->
  (forall a w, lo <= a < hi -> h !! a = Some w -> settled w -> h' !! a = Some w) -> (forall x w, f x w -> settled w) -> Forall (fun x => forall w, f x w -> g x w) l ->
  forall a, slots lo hi h f a l -> slots lo' hi' h' g a l.
Proof.
  intros Hl Hh E St F. induction F as [|x l Fx _ IH]; intros a; cbn [slots]; auto. intros [(w & [Ha Hw] & Hf) S]. split; auto. exists w. split; auto. split; [lia|]. apply E; eauto.
Qed.
Lemma rep_mono X X' lo hi lo' hi' h h' t : lo' <= lo -> hi <= hi' -> extends X X' lo hi h h' -> forall w, rep X lo hi h t w -> rep X' lo' hi' h' t w.
Proof.
  intros Hl Hh [E M]. assert (B : forall p x, at_word lo hi h p x -> settled x -> at_word lo' hi' h' p x) by (intros p x [Hp Hx] Sx; split; [lia|auto]).
  assert (PW : forall n data w, pid_word lo hi h n data w -> pid_word lo' hi' h' n data w).
  { intros [nd|] data w; cbn; auto. intros (p & -> & Hp). exists p. split; auto. apply B; auto. exact I. }
  assert (Box : forall x w, (exists p, w = make_boxed p /\ at_word lo hi h p (THING x)) -> exists p, w = make_boxed p /\ at_word lo' hi' h' p (THING x)).
  { intros x w (p & -> & Hp). exists p. split; auto. apply B; auto. exact I. }
  assert (Sl : forall {A} (f : A -> term) l a, Forall (fun x => forall w, rep X lo hi h (f x) w -> rep X' lo' hi' h' (f x) w) l ->
     slots lo hi h (fun x => rep X lo hi h (f x)) a l -> slots lo' hi' h' (fun x => rep X' lo' hi' h' (f x)) a l).
  { intros A f l a F. apply slots_mono; auto. intros x w. apply rep_settled. }
  induction t as [i|b|f|a| |hd tl IH1 IH2|ts IH|kvs IH|bytes k|n data|n num|n nums|m f arity|fe arity creator env IH] using term_ind; intros w; cbn [rep]; auto; try apply Box.
  - intros (p & wh & wt & -> & Hp & Hq & R1 & R2). exists p, wh, wt. splits; auto; apply B; auto; eapply rep_settled; eauto.
  - intros (p & -> & Hp & S). exists p. splits; [reflexivity|now apply B|now apply (Sl term (fun t => t))].
  - intros (m & k & -> & [Hm Hd] & H1 & H2 & Hk & S1 & S2). exists m, k. splits; try (now apply B); [reflexivity|lia|lia|now apply M| |].
    + apply (Sl _ fst); auto. eapply Forall_impl; [exact IH|]. now intros ? [].
    + apply (Sl _ snd); auto. eapply Forall_impl; [exact IH|]. now intros ? [].
  - destruct (k =? 0); [apply Box|]. intros (p & q & -> & Hq & Hp). exists p, q. splits; auto; apply B; auto; exact I.
  - destruct n; auto; try apply Box.
  - intros (p & wc & -> & Hp & Hc & Pc & S). exists p, wc. splits; [reflexivity|now apply B|apply B; auto; eapply pid_settled; eauto|now apply PW|now apply (Sl term (fun t => t))].
Qed.

(** A map whose keys are above it in memory, in order. *)
Definition in_order {A} (R : A -> A -> Prop) (l : list A) : Prop := forall i x y, l !! i = Some x -> l !! Datatypes.S i = Some y -> R x y.
Definition map_ok (R : term -> term -> Prop) (X : list Z) (lo hi : Z) (h : heap) (m : Z) : Prop :=
  exists (ks : list term) (k : Z), in_order R ks /\ at_word lo hi h (m + 1) (RAW (Z.of_nat (length ks))) /\ at_word lo hi h (m + 2) (make_boxed k) /\
    slots lo hi h (rep X (m + 1) hi h) (k + 1) ks.
Lemma map_ok_mono R X X' lo hi lo' hi' h h' m : lo' <= lo -> hi <= hi' -> lo <= m -> extends X X' lo hi h h' -> map_ok R X lo hi h m -> map_ok R X' lo' hi' h' m.
Proof.
  intros Hl Hh Hm [E M] (ks & k & Ho & [Ha Hr] & [Hb Hk] & Sl). exists ks, k. split; auto. split; [split; [lia|apply E; auto; exact I]|]. split; [split; [lia|apply E; auto; exact I]|].
  revert Sl. apply slots_mono; auto.
  - intros kv w. apply rep_settled.
  - apply Forall_forall. intros kv _ w. apply rep_mono; [lia|auto|]. split; intros; [apply E|apply M]; auto; lia.
Qed.

(** ** Chains of holes and of maps *)
Fixpoint chain (link : option Z -> word) (h : heap) (from : option Z) (l : list Z) (to : option Z) : Prop :=
  match l with [] => from = to | a :: l => from = Some a /\ exists nx, h !! a = Some (link nx) /\ chain link h nx l to end.
Lemma chain_frame link h h' l : forall from to, (forall a, a ∈ l -> h' !! a = h !! a) -> chain link h from l to -> chain link h' from l to.
Proof.
  induction l as [|a l IH]; intros from to E; cbn [chain]; auto. intros (-> & nx & Ha & C). split; auto. exists nx. split; [rewrite E by left; auto|].
  apply IH; auto. intros b Hb. apply E. now right.
Qed.
Lemma chain_app link h l l' : forall from to, chain link h from (l ++ l') to <-> exists mid, chain link h from l mid /\ chain link h mid l' to.
Proof.
  induction l as [|a l IH]; intros from to; cbn [app chain].
  - split; [intros C; exists from; auto|intros (mid & -> & C); auto].
  - split.
    + intros (-> & nx & Ha & C). apply IH in C as (mid & C1 & C2). exists mid. split; auto. split; auto. exists nx. auto.
    + intros (mid & (-> & nx & Ha & C1) & C2). split; auto. exists nx. split; auto. apply IH. eauto.
Qed.
Fixpoint zseq (a : Z) (n : nat) : list Z := match n with O => [] | Datatypes.S n => a :: zseq (a + 1) n end.
Lemma zseq_elem b : forall n a, b ∈ zseq a n <-> a <= b < a + Z.of_nat n.
Proof.
  induction n as [|n IH]; intros a; cbn [zseq]; [rewrite elem_of_nil; lia|]. rewrite elem_of_cons, IH. lia.
Qed.
Lemma zseq_length n : forall a, length (zseq a n) = n.
Proof. induction n as [|n IH]; intros a; cbn [zseq length]; auto. Qed.
Lemma zseq_NoDup n : forall a, NoDup (zseq a n).
Proof. induction n as [|n IH]; intros a; cbn [zseq]; constructor; auto. rewrite zseq_elem. lia. Qed.

(** ** Holes that were filled with terms *)
Definition filled (X : list Z) (lo hi : Z) (h : heap) : list Z -> list term -> Prop := Forall2 (fun a t => exists w, h !! a = Some w /\ rep X lo hi h t w).
(** Filled holes side by side are an array. *)
Lemma slots_filled X lo hi h ts : forall a, lo <= a -> a + Z.of_nat (length ts) <= hi -> filled X lo hi h (zseq a (length ts)) ts -> slots lo hi h (rep X lo hi h) a ts.
Proof.
  induction ts as [|t ts IH]; intros a Hlo Hhi Fi; cbn [slots zseq length] in *; auto. inversion Fi as [|? ? ? ? (w & Hw & R) Fi']; subst. split; [|apply IH; auto; lia].
  exists w. split; auto. split; auto. lia.
Qed.
