(* ===== verification/BitCompare.v ===== *)
(** The comparison of strings of bits (erts_cmp_bits, erl_bits.c) and its specification by lists
    of bits. *)

From S2P Require Import Prelude.
From stdpp Require Import base option list.
From S2P Require Import TermOrder Utf8 ExtTerm.
Local Open Scope Z_scope.

(** ** Comparing strings of bits *)
(** C only says what the sign of memcmp is. *)
Definition sys_memcmp (a b : list Z) (n : Z) : decoded Z := '(x, _) ← block n a; '(y, _) ← block n b; Got (lex x y).
(** [get_bit]. *)
Definition get_bit (b offs : Z) : Z := Z.land (Z.shiftr b (7 - offs)) 1.
Definition next_byte (p : list Z) : decoded (Z * list Z) := b ← get_int8 p; p ← advance 1 p; Got (b, p).
(** The byte that is compared, the offset in it and the bytes behind it. *)
Record bit_ptr := mkBits { cur : Z; offs : Z; rest : list Z }.
Definition step_bit (p : bit_ptr) : decoded bit_ptr :=
  if offs p + 1 =? 8 then '(c, r) ← next_byte (rest p); Got (mkBits c 0 r) else Got (mkBits (cur p) (offs p + 1) (rest p)).
(** [n] bits, one by one; the result, when there is one. *)
Fixpoint cmp_each_bit (n : nat) (a b : bit_ptr) (size : Z) : decoded (Z + bit_ptr * bit_ptr * Z) :=
  match n with
  | O => Got (inr (a, b, size))
  | S n =>
      let cmp := get_bit (cur a) (offs a) - get_bit (cur b) (offs b) in
      if negb (cmp =? 0) then Got (inl cmp)
      else if size - 1 =? 0 then Got (inl 0)
      else b ← step_bit b; a ← step_bit a; cmp_each_bit n a b (size - 1)
  end.
(** The bytes of [a], which are whole, with those of [b]. *)
Fixpoint cmp_each_byte (n : nat) (lshift : Z) (a b : bit_ptr) (size : Z) : decoded (Z + bit_ptr * bit_ptr * Z) :=
  match n with
  | O => Got (inr (a, b, size))
  | S n =>
      '(c, r) ← next_byte (rest b);
      let b_cmp := Z.lor (Z.land (Z.shiftl (cur b) lshift) 0xff) (Z.shiftr c (8 - lshift)) in
      let cmp := cur a - b_cmp in
      if negb (cmp =? 0) then Got (inl cmp)
      else if size - 8 =? 0 then Got (inl 0)
      else '(d, q) ← next_byte (rest a); cmp_each_byte n lshift (mkBits d (offs a) q) (mkBits c (offs b) r) (size - 8)
  end.
(** [erts_cmp_bits]. *)
Definition erts_cmp_bits (a_ptr : list Z) (a_offs : Z) (b_ptr : list Z) (b_offs : Z) (size : Z) : decoded Z :=
  if size =? 0 then Got 0
  else if Z.land (Z.lor (Z.lor a_offs b_offs) size) 7 =? 0 then sys_memcmp a_ptr b_ptr (Z.shiftr size 3)
  else
    '(a, a_ptr) ← next_byte a_ptr;
    '(b, b_ptr) ← next_byte b_ptr;
    x ← (let p := mkBits a a_offs a_ptr in let q := mkBits b b_offs b_ptr in
         if negb (a_offs =? 0) then cmp_each_bit (Z.to_nat (8 - a_offs)) p q size else Got (inr (p, q, size)));
    match x with
    | inl cmp => Got cmp
    | inr (p, q, size) =>
        x ← cmp_each_byte (Z.to_nat (size / 8)) (offs q) p q size;
        match x with
        | inl cmp => Got cmp
        | inr (p, q, size) =>
            x ← cmp_each_bit (Z.to_nat size) p q size;
            match x with inl cmp => Got cmp | inr _ => Got 0 end
        end
    end.

(** ** The bits of bytes, and their order *)
Definition bits8 (b : Z) : list Z := map (get_bit b) [0; 1; 2; 3; 4; 5; 6; 7].
Definition bits (bs : list Z) : list Z := flat_map bits8 bs.
Lemma get_bit_testbit b i : 0 <= i <= 7 -> get_bit b i = Z.b2z (Z.testbit b (7 - i)).
Proof.
  intros Hi. unfold get_bit. change 1 with (Z.ones 1). rewrite Z.land_ones by lia. rewrite Z.pow_1_r, <- Z.bit0_mod. f_equal. now rewrite Z.shiftr_spec, Z.add_0_l by lia.
Qed.
Lemma bits8_spec b : bits8 b = map (fun i => Z.b2z (Z.testbit b i)) [7; 6; 5; 4; 3; 2; 1; 0].
Proof. unfold bits8. cbn [map]. now rewrite !get_bit_testbit by lia. Qed.
Lemma bits_length bs : length (bits bs) = (8 * length bs)%nat.
Proof. induction bs as [|b bs IH]; [reflexivity|]. unfold bits in *. cbn [flat_map length]. rewrite length_app, IH. cbn [bits8 map length]. lia. Qed.
Lemma lex_same x y u v : length x = length y -> lex (x ++ u) (y ++ v) = if lex x y =? 0 then lex u v else lex x y.
Proof.
  revert y. induction x as [|a x IH]; intros [|b y] Hl; try discriminate; [reflexivity|]. injection Hl as Hl. cbn [app lex]. rewrite IH by auto.
  destruct (a <? b); [reflexivity|]. destruct (a >? b); reflexivity.
Qed.
Lemma byte_bits x : byte x -> x = fold_left (fun v d => 2 * v + d) (bits8 x) 0.
Proof.
  intros Hx. unfold byte in Hx. assert (F : forallb (fun x => x =? fold_left (fun v d => 2 * v + d) (bits8 x) 0) (map Z.of_nat (seq 0 256)) = true) by (vm_compute; reflexivity).
  rewrite forallb_forall in F. apply Z.eqb_eq, F, in_map_iff. exists (Z.to_nat x). split; [lia|]. apply in_seq. lia.
Qed.
Lemma bits_value u : forall n, Forall (fun d => d = 0 \/ d = 1) u -> fold_left (fun v d => 2 * v + d) u n = n * 2 ^ Z.of_nat (length u) + fold_left (fun v d => 2 * v + d) u 0 /\ 0 <= fold_left (fun v d => 2 * v + d) u 0 < 2 ^ Z.of_nat (length u).
Proof.
  induction u as [|d u IH]; intros n F; [cbn; lia|]. apply Forall_cons in F as [Hd F]. cbn [fold_left length]. destruct (IH (2 * n + d) F) as (E1 & B). destruct (IH (2 * 0 + d) F) as (E2 & _).
  rewrite Nat2Z.inj_succ, Z.pow_succ_r by lia. nia.
Qed.
Lemma lex_value x : forall y, length x = length y -> Forall (fun d => d = 0 \/ d = 1) x -> Forall (fun d => d = 0 \/ d = 1) y ->
  lex x y = Z.sgn (fold_left (fun v d => 2 * v + d) x 0 - fold_left (fun v d => 2 * v + d) y 0).
Proof.
  induction x as [|a x IH]; intros [|b y] Hl Fx Fy; try discriminate; [reflexivity|]. injection Hl as Hl. apply Forall_cons in Fx as [Ha Fx]. apply Forall_cons in Fy as [Hb Fy].
  cbn [lex fold_left]. destruct (bits_value x (2 * 0 + a) Fx) as (-> & Bx), (bits_value y (2 * 0 + b) Fy) as (-> & By). rewrite Hl in *. rewrite (IH y) by auto. rewrite Z.gtb_ltb.
  destruct (Z.ltb_spec a b), (Z.ltb_spec b a); [lia|rewrite Z.sgn_neg; nia|rewrite Z.sgn_pos; nia|f_equal; nia].
Qed.
Lemma bits8_bits b : Forall (fun d => d = 0 \/ d = 1) (bits8 b).
Proof. rewrite bits8_spec. apply Forall_map, Forall_forall. intros i _. cbn. destruct (Z.testbit b i); auto. Qed.
Lemma lex_byte x y : byte x -> byte y -> lex (bits8 x) (bits8 y) = Z.sgn (x - y).
Proof. intros Hx Hy. rewrite lex_value by (auto using bits8_bits). now rewrite <- !byte_bits. Qed.
Lemma lex_bytes xs : forall ys, length xs = length ys -> Forall byte xs -> Forall byte ys -> lex (bits xs) (bits ys) = lex xs ys.
Proof.
  induction xs as [|x xs IH]; intros [|y ys] Hl Fx Fy; try discriminate; [reflexivity|]. injection Hl as Hl. apply Forall_cons in Fx as [Hx Fx]. apply Forall_cons in Fy as [Hy Fy].
  unfold bits in *. cbn [flat_map lex]. rewrite lex_same by reflexivity. rewrite lex_byte, IH by auto. rewrite Z.gtb_ltb. destruct (Z.ltb_spec x y); [now rewrite Z.sgn_neg by lia|].
  destruct (Z.ltb_spec y x); [now rewrite Z.sgn_pos by lia|]. replace (x - y) with 0 by lia. reflexivity.
Qed.

(** ** Bits from a position on *)
Definition view (p : bit_ptr) : list Z := drop (Z.to_nat (offs p)) (bits8 (cur p)) ++ bits (rest p).
Definition pos_ok (p : bit_ptr) : Prop := byte (cur p) /\ 0 <= offs p < 8 /\ Forall byte (rest p).
Definition lex_bits (n : Z) (u v : list Z) : Z := lex (take (Z.to_nat n) u) (take (Z.to_nat n) v).
Lemma lex_bits_cons n x y u v : 0 < n -> lex_bits n (x :: u) (y :: v) = if x <? y then -1 else if x >? y then 1 else lex_bits (n - 1) u v.
Proof. intros Hn. unfold lex_bits. replace (Z.to_nat n) with (Datatypes.S (Z.to_nat (n - 1))) by lia. reflexivity. Qed.
Lemma lex_bits_0 u v : lex_bits 0 u v = 0. Proof. reflexivity. Qed.
Lemma lex_bits_app n x y u v : length x = length y -> Z.of_nat (length x) <= n -> lex_bits n (x ++ u) (y ++ v) = if lex x y =? 0 then lex_bits (n - Z.of_nat (length x)) u v else lex x y.
Proof.
  intros Hl Hn. unfold lex_bits. rewrite !take_app_ge by lia. rewrite lex_same by auto. rewrite <- Hl. replace (Z.to_nat n - length x)%nat with (Z.to_nat (n - Z.of_nat (length x))) by lia. reflexivity.
Qed.
Lemma view_length p : pos_ok p -> Z.of_nat (length (view p)) = 8 - offs p + 8 * Z.of_nat (length (rest p)).
Proof. intros (_ & Ho & _). unfold view. rewrite length_app, length_drop, bits_length. change (length (bits8 (cur p))) with 8%nat. lia. Qed.
Lemma next_byte_cons c r : next_byte (c :: r) = Got (c, r).
Proof. unfold next_byte, advance. cbn [get_int8 mbind decoded_bind length]. rewrite (proj2 (Z.leb_le 1 _)) by lia. reflexivity. Qed.
Lemma view_cons p : pos_ok p -> exists u, view p = get_bit (cur p) (offs p) :: u /\ (u <> [] -> exists p', step_bit p = Got p' /\ pos_ok p' /\ view p' = u /\ offs p' = (offs p + 1) mod 8).
Proof.
  intros P. pose proof P as (Hc & Ho & F). unfold view, step_bit. destruct (Z.eqb_spec (offs p + 1) 8) as [E|N].
  - replace (offs p) with 7 by lia. exists (bits (rest p)). split; [reflexivity|]. intros Hu. destruct (rest p) as [|c r] eqn:Er; [now destruct Hu|].
    apply Forall_cons in F as [Hb Fr]. exists (mkBits c 0 r). split; [now rewrite next_byte_cons|]. split; [split; [auto|]; cbn; split; [lia|auto]|]. split; reflexivity.
  - exists (drop (Z.to_nat (offs p + 1)) (bits8 (cur p)) ++ bits (rest p)). split.
    + assert (C : offs p = 0 \/ offs p = 1 \/ offs p = 2 \/ offs p = 3 \/ offs p = 4 \/ offs p = 5 \/ offs p = 6) by lia.
      destruct C as [->|[->|[->|[->|[->|[->| ->]]]]]]; reflexivity.
    + intros _. exists (mkBits (cur p) (offs p + 1) (rest p)). split; [reflexivity|]. split; [split; [auto|]; cbn; split; [lia|auto]|]. split; [reflexivity|]. cbn. lia.
Qed.
(** What a loop over the bits gives: the result, or what is left to compare. *)
Definition narrows (r : Z + bit_ptr * bit_ptr * Z) (a b : bit_ptr) (size n : Z) : Prop :=
  match r with
  | inl c => Z.sgn c = lex_bits size (view a) (view b)
  | inr (a', b', size') => size' = size - n /\ 0 < size' /\ pos_ok a' /\ pos_ok b' /\ Z.of_nat (length (view a')) = Z.of_nat (length (view a)) - n /\ Z.of_nat (length (view b')) = Z.of_nat (length (view b)) - n /\
      offs a' = (offs a + n) mod 8 /\ offs b' = (offs b + n) mod 8 /\ lex_bits size (view a) (view b) = lex_bits size' (view a') (view b')
  end.
Lemma get_bit_01 b i : get_bit b i = 0 \/ get_bit b i = 1.
Proof. unfold get_bit. set (x := Z.shiftr b (7 - i)). assert (E : Z.land x 1 = x mod 2) by (apply (Z.land_ones x 1); lia). lia. Qed.
Lemma cmp_each_bit_spec n : forall a b size, pos_ok a -> pos_ok b -> 0 < size -> size <= Z.of_nat (length (view a)) -> size <= Z.of_nat (length (view b)) ->
  exists r, cmp_each_bit n a b size = Got r /\ narrows r a b size (Z.of_nat n).
Proof.
  induction n as [|n IH]; intros a b size Pa Pb Hs Ha Hb; cbn [cmp_each_bit].
  - exists (inr (a, b, size)). split; auto. cbn. pose proof Pa as (_ & Oa & _). pose proof Pb as (_ & Ob & _). rewrite !Z.add_0_r, !Z.mod_small by lia. repeat (split; auto; try lia).
  - destruct (view_cons a Pa) as (u & Eu & Su), (view_cons b Pb) as (v & Ev & Sv). pose proof (get_bit_01 (cur a) (offs a)). pose proof (get_bit_01 (cur b) (offs b)).
    destruct (Z.eqb_spec (get_bit (cur a) (offs a) - get_bit (cur b) (offs b)) 0) as [E|N]; cbn [negb].
    + assert (L : lex_bits size (view a) (view b) = lex_bits (size - 1) u v).
      { rewrite Eu, Ev, lex_bits_cons by lia. replace (get_bit (cur a) (offs a)) with (get_bit (cur b) (offs b)) by lia. now rewrite Z.gtb_ltb, Z.ltb_irrefl. }
      destruct (Z.eqb_spec (size - 1) 0) as [E1|N1]; [exists (inl 0); split; auto; cbn [narrows]; rewrite L, E1; reflexivity|].
      rewrite Eu in Ha. rewrite Ev in Hb. cbn [length] in *. destruct Sv as (b' & -> & Pb' & Vb & Ob); [intros ->; cbn in *; lia|]. destruct Su as (a' & -> & Pa' & Va & Oa); [intros ->; cbn in *; lia|].
      cbn [mbind decoded_bind]. destruct (IH a' b' (size - 1)) as (r & -> & Nr); auto; rewrite ?Va, ?Vb; try lia. exists r. split; auto. unfold narrows in *. rewrite L, <- Va, <- Vb.
      destruct r as [c|[[p q] z]]; auto. destruct Nr as (-> & N1' & N2 & N3 & N4 & N5 & N6 & N7 & N8). repeat (split; auto; try (rewrite ?Eu, ?Ev, ?Va, ?Vb in *; cbn [length] in *; lia)).
    + exists (inl (get_bit (cur a) (offs a) - get_bit (cur b) (offs b))). split; auto. cbn [narrows]. rewrite Eu, Ev, lex_bits_cons by lia. rewrite Z.gtb_ltb.
      destruct (Z.ltb_spec (get_bit (cur a) (offs a)) (get_bit (cur b) (offs b))); [now rewrite Z.sgn_neg by lia|]. rewrite (proj2 (Z.ltb_lt _ _)) by lia. now rewrite Z.sgn_pos by lia.
Qed.
(** A byte across two. *)
Definition across (l b c : Z) : Z := Z.lor (Z.land (Z.shiftl b l) 0xff) (Z.shiftr c (8 - l)).
Lemma byte_testbit c i : byte c -> 8 <= i -> Z.testbit c i = false.
Proof.
  unfold byte. intros Hc Hi. assert (2 ^ 8 <= 2 ^ i) by (apply Z.pow_le_mono_r; lia). rewrite Z.testbit_eqb, Z.div_small by lia. reflexivity.
Qed.
Lemma across_testbit l b c i : 0 <= l < 8 -> byte c -> 0 <= i < 8 -> Z.testbit (across l b c) i = if i <? l then Z.testbit c (i + 8 - l) else Z.testbit b (i - l).
Proof.
  intros Hl Hc Hi. unfold across. rewrite Z.lor_spec, Z.land_spec, Z.shiftl_spec, Z.shiftr_spec by lia. change 0xff with (Z.ones 8). rewrite Z.ones_spec_low, andb_true_r by lia.
  replace (i + (8 - l)) with (i + 8 - l) by lia. destruct (Z.ltb_spec i l); [rewrite (Z.testbit_neg_r b) by lia; reflexivity|].
  rewrite (byte_testbit c) by (auto; lia). now rewrite orb_false_r.
Qed.
Lemma across_byte l b c : 0 <= l < 8 -> byte b -> byte c -> byte (across l b c).
Proof.
  unfold byte, across. intros Hl Hb Hc. change 0xff with (Z.ones 8). rewrite Z.land_ones, Z.shiftr_div_pow2 by lia. assert (0 <= c / 2 ^ (8 - l) < 2 ^ 8).
  { split; [apply Z.div_pos; lia|]. apply Z.div_lt_upper_bound; [lia|]. assert (1 <= 2 ^ (8 - l)) by (change 1 with (2 ^ 0); apply Z.pow_le_mono_r; lia). nia. }
  set (x := _ mod _). assert (0 <= x < 2 ^ 8) by (subst x; apply Z.mod_pos_bound; lia). split; [apply Z.lor_nonneg; lia|]. change 256 with (2 ^ 8).
  destruct (Z.eq_dec (Z.lor x (c / 2 ^ (8 - l))) 0) as [->|N]; [lia|]. apply Z.log2_lt_pow2; [assert (0 <= Z.lor x (c / 2 ^ (8 - l))) by (apply Z.lor_nonneg; lia); lia|].
  rewrite Z.log2_lor by lia. apply Z.max_lub_lt; (match goal with |- Z.log2 ?y < 8 => destruct (Z.eq_dec y 0) as [->|]; [reflexivity|apply Z.log2_lt_pow2; lia] end).
Qed.
Lemma across_bits l b c : 0 <= l < 8 -> byte c -> drop (Z.to_nat l) (bits8 b) ++ bits8 c = bits8 (across l b c) ++ drop (Z.to_nat l) (bits8 c).
Proof.
  intros Hl Hc. rewrite !bits8_spec. cbn [map]. rewrite !across_testbit by (auto; lia).
  assert (C : l = 0 \/ l = 1 \/ l = 2 \/ l = 3 \/ l = 4 \/ l = 5 \/ l = 6 \/ l = 7) by lia. destruct C as [->|[->|[->|[->|[->|[->|[->| ->]]]]]]]; reflexivity.
Qed.
Lemma view_byte b c r : pos_ok b -> rest b = c :: r -> let b' := mkBits c (offs b) r in view b = bits8 (across (offs b) (cur b) c) ++ view b' /\ pos_ok b' /\ byte (across (offs b) (cur b) c).
Proof.
  intros (Hc & Ho & F) E b'. rewrite E in *. apply Forall_cons in F as [Hb Fr]. subst b'. split; [|split].
  - unfold view. cbn [cur offs rest]. rewrite E. unfold bits. cbn [flat_map]. now rewrite !app_assoc, across_bits.
  - split; [auto|]. cbn. auto.
  - now apply across_byte.
Qed.
(** A byte of [b] beyond the last one is read when the bits end with it. *)
Definition one_more (b : bit_ptr) (size : Z) : Prop := offs b <> 0 \/ size mod 8 <> 0 \/ size < Z.of_nat (length (view b)).
Lemma cmp_each_byte_spec n : forall a b size, pos_ok a -> pos_ok b -> offs a = 0 -> 0 < size -> size <= Z.of_nat (length (view a)) -> size <= Z.of_nat (length (view b)) -> one_more b size ->
  8 * Z.of_nat n <= size -> exists r, cmp_each_byte n (offs b) a b size = Got r /\ narrows r a b size (8 * Z.of_nat n).
Proof.
  induction n as [|n IH]; intros a b size Pa Pb Oa Hs Ha Hb Om Hn; cbn [cmp_each_byte].
  - exists (inr (a, b, size)). split; auto. cbn. pose proof Pb as (_ & Ob & _). rewrite !Z.add_0_r, !Z.mod_small by lia. repeat (split; auto; try lia).
  - rewrite (view_length a Pa) in Ha. rewrite (view_length b Pb) in Hb. unfold one_more in Om. rewrite (view_length b Pb) in Om. pose proof Pb as (_ & Ob & _).
    destruct (rest b) as [|c r] eqn:Er; [exfalso; cbn [length] in *; lia|]. destruct (view_byte b c r Pb Er) as (Vb & Pb' & Hx). set (b' := mkBits c (offs b) r) in *.
    rewrite next_byte_cons. cbn [mbind decoded_bind]. fold (across (offs b) (cur b) c). set (x := across (offs b) (cur b) c) in *. pose proof Pa as (Hca & _ & Fa).
    assert (Va : view a = bits8 (cur a) ++ bits (rest a)) by (unfold view; rewrite Oa; reflexivity).
    assert (L : lex_bits size (view a) (view b) = if cur a =? x then lex_bits (size - 8) (bits (rest a)) (view b') else Z.sgn (cur a - x)).
    { rewrite Va, Vb, lex_bits_app by (cbn; lia || reflexivity). rewrite lex_byte by auto. destruct (Z.eqb_spec (cur a) x) as [->|]; [rewrite Z.sub_diag; reflexivity|]. rewrite (proj2 (Z.eqb_neq _ 0)) by lia. reflexivity. }
    destruct (Z.eqb_spec (cur a - x) 0) as [E|N]; cbn [negb].
    + rewrite (proj2 (Z.eqb_eq (cur a) x)) in L by lia. destruct (Z.eqb_spec (size - 8) 0) as [E1|N1]; [exists (inl 0); split; auto; cbn [narrows]; rewrite L, E1; reflexivity|].
      destruct (rest a) as [|d q] eqn:Ea; [exfalso; cbn [length] in *; lia|]. rewrite next_byte_cons. cbn [mbind decoded_bind]. fold b'. apply Forall_cons in Fa as [Hd Fq]. set (a' := mkBits d (offs a) q) in *.
      assert (Va' : view a' = bits (d :: q)) by (unfold view; subst a'; cbn [offs cur rest]; rewrite Oa; reflexivity).
      assert (Pa' : pos_ok a') by (subst a'; split; [auto|]; cbn; split; [lia|auto]). cbn [length] in *.
      destruct (IH a' b' (size - 8)) as (z & Ez & Nz); auto; try lia.
      * rewrite (view_length a' Pa'). subst a'. cbn [offs rest]. lia.
      * rewrite (view_length b' Pb'). subst b'. cbn [offs rest]. lia.
      * unfold one_more. rewrite (view_length b' Pb'). subst b'. cbn [offs rest]. lia.
      * change (offs b') with (offs b) in Ez. rewrite Ez. exists z. split; auto. unfold narrows in *. rewrite L, <- Va'. destruct z as [c'|[[p p'] z]]; auto.
        destruct Nz as (-> & N1' & N2 & N3 & N4 & N5 & N6 & N7 & N8). change (offs b') with (offs b) in *. change (offs a') with (offs a) in *. rewrite Vb, Va, !length_app, bits_length. rewrite Va', bits_length in N4. change (length (bits8 x)) with 8%nat. change (length (bits8 (cur a))) with 8%nat. cbn [length] in *. repeat (split; auto; try lia).
    + exists (inl (cur a - x)). split; auto. cbn [narrows]. now rewrite L, (proj2 (Z.eqb_neq (cur a) x)) by lia.
Qed.

Lemma take_bits n : forall bs, take (8 * n) (bits bs) = bits (take n bs).
Proof.
  induction n as [|n IH]; intros [|b bs]; [reflexivity|reflexivity|apply take_nil|]. unfold bits in *. cbn [take flat_map]. rewrite <- IH.
  replace (8 * Datatypes.S n)%nat with (length (bits8 b) + 8 * n)%nat by (change (length (bits8 b)) with 8%nat; lia). now rewrite take_app_add.
Qed.
Lemma land_7 x : Z.land x 7 = x mod 8. Proof. apply (Z.land_ones x 3). lia. Qed.
Lemma no_offsets a b size : 0 <= a < 8 -> 0 <= b < 8 -> Z.land (Z.lor (Z.lor a b) size) 7 = 0 <-> a = 0 /\ b = 0 /\ size mod 8 = 0.
Proof. intros Ha Hb. rewrite !Z.land_lor_distr_l, !land_7, !Z.lor_eq_0_iff, !(Z.mod_small _ 8) by lia. tauto. Qed.
Lemma sys_memcmp_spec a b n : Forall byte a -> Forall byte b -> 0 <= n <= Z.of_nat (length a) -> n <= Z.of_nat (length b) -> sys_memcmp a b n = Got (lex_bits (8 * n) (bits a) (bits b)).
Proof.
  intros Fa Fb Ha Hb. unfold sys_memcmp, block, advance. rewrite !(proj2 (Z.leb_le _ _)) by lia. cbn [andb mbind decoded_bind]. unfold lex_bits. replace (Z.to_nat (8 * n)) with (8 * Z.to_nat n)%nat by lia.
  rewrite !take_bits, lex_bytes; auto; [rewrite !length_take; lia|now apply Forall_take|now apply Forall_take].
Qed.
Lemma view_start c r k : 0 <= k < 8 -> view (mkBits c k r) = drop (Z.to_nat k) (bits (c :: r)).
Proof. intros Hk. unfold view, bits. cbn [offs cur rest flat_map]. rewrite drop_app_le by (change (length (bits8 c)) with 8%nat; lia). reflexivity. Qed.
Lemma erts_cmp_bits_spec a a_offs b b_offs size : Forall byte a -> Forall byte b -> 0 <= a_offs < 8 -> 0 <= b_offs < 8 -> 0 <= size ->
  a_offs + size <= 8 * Z.of_nat (length a) -> b_offs + size <= 8 * Z.of_nat (length b) ->
  (a_offs = b_offs -> a_offs <> 0 -> (a_offs + size) mod 8 = 0 -> 8 < a_offs + size -> b_offs + size < 8 * Z.of_nat (length b)) ->
  exists c, erts_cmp_bits a a_offs b b_offs size = Got c /\ Z.sgn c = lex_bits size (drop (Z.to_nat a_offs) (bits a)) (drop (Z.to_nat b_offs) (bits b)).
Proof.
  intros Fa Fb Oa Ob Hs La Lb More. unfold erts_cmp_bits. destruct (Z.eqb_spec size 0) as [->|Ns]; [exists 0; split; reflexivity|].
  destruct (Z.eqb_spec (Z.land (Z.lor (Z.lor a_offs b_offs) size) 7) 0) as [E|N].
  - apply no_offsets in E as (-> & -> & E); auto. rewrite Z.shiftr_div_pow2 by lia. change (2 ^ 3) with 8. rewrite sys_memcmp_spec by (auto; lia). replace (8 * (size / 8)) with size by lia.
    eexists. split; [reflexivity|]. change (Z.to_nat 0) with 0%nat. unfold lex_bits. rewrite !drop_0. destruct (lex_range (take (Z.to_nat size) (bits a)) (take (Z.to_nat size) (bits b))) as [->|[->| ->]]; reflexivity.
  - rewrite no_offsets in N by auto. destruct a as [|a a_ptr]; [cbn [length] in La; lia|]. destruct b as [|b b_ptr]; [cbn [length] in Lb; lia|]. rewrite !next_byte_cons. cbn [mbind decoded_bind]. cbv zeta.
    set (p := mkBits a a_offs a_ptr). set (q := mkBits b b_offs b_ptr). rewrite <- (view_start a a_ptr a_offs), <- (view_start b b_ptr b_offs) by lia. fold p q. apply Forall_cons in Fa as [Ha Fa]. apply Forall_cons in Fb as [Hb Fb].
    assert (Pp : pos_ok p) by (split; [auto|split; auto]). assert (Pq : pos_ok q) by (split; [auto|split; auto]). pose proof (view_length p Pp) as Vp. pose proof (view_length q Pq) as Vq. cbn [p q offs rest] in Vp, Vq. cbn [length] in *.
    assert (X : exists r, (if negb (a_offs =? 0) then cmp_each_bit (Z.to_nat (8 - a_offs)) p q size else Got (inr (p, q, size))) = Got r /\ narrows r p q size ((8 - a_offs) mod 8)).
    { destruct (Z.eqb_spec a_offs 0) as [E0|N0]; cbn [negb].
      - exists (inr (p, q, size)). split; auto. replace ((8 - a_offs) mod 8) with 0 by (now rewrite E0). unfold narrows. rewrite !Z.add_0_r, !Z.sub_0_r. subst p q. cbn [offs]. rewrite !Z.mod_small by lia. repeat (split; auto; try lia).
      - rewrite Z.mod_small by lia. pose proof (cmp_each_bit_spec (Z.to_nat (8 - a_offs)) p q size Pp Pq ltac:(lia) ltac:(lia) ltac:(lia)) as B. now rewrite Z2Nat.id in B by lia. }
    destruct X as (r & -> & Nr). cbn [mbind decoded_bind]. destruct r as [c|[[p' q'] size']]; [exists c; auto|]. destruct Nr as (E' & Ps & Pp' & Pq' & Vp' & Vq' & Op' & Oq' & L'). cbn [p q offs] in Op', Oq'. 
    destruct (cmp_each_byte_spec (Z.to_nat (size' / 8)) p' q' size') as (r & -> & Nr); auto; try lia.
    { unfold one_more. rewrite Vq', Vq. destruct (Z.eq_dec a_offs b_offs); lia. }
    cbn [mbind decoded_bind]. rewrite L'. destruct r as [c|[[p2 q2] size2]]; [exists c; auto|]. destruct Nr as (E2 & Ps2 & Pp2 & Pq2 & Vp2 & Vq2 & _ & _ & ->).
    destruct (cmp_each_bit_spec (Z.to_nat size2) p2 q2 size2) as (r & -> & Nr); auto; try lia. cbn [mbind decoded_bind]. destruct r as [c|[[p3 q3] size3]]; [exists c; auto|]. cbn [narrows] in Nr. lia.
Qed.
