(* ===== verification/TermCompare.v ===== *)
(** The exact comparison of two terms by their words (erts_cmp, utils.c), as jumps between
    labels with a stack. *)

From S2P Require Import Prelude.
From stdpp Require Import base option list gmap.
From S2P Require Import BigNum BigConv TermOrder Memory Utf8 Atoms ExtTerm ExtEncode ExtDecode BitCompare.
Local Open Scope Z_scope.

Definition BINARY_TAG : Z := 0.
Definition LIST_TAG : Z := 1.
Definition NIL_TAG : Z := 2.
Definition MAP_TAG : Z := 3.
Definition TUPLE_TAG : Z := 4.
Definition PID_TAG : Z := 5.
Definition EXTERNAL_PID_TAG : Z := 6.
Definition PORT_TAG : Z := 7.
Definition EXTERNAL_PORT_TAG : Z := 8.
Definition EXPORT_TAG : Z := 9.
Definition FUN_TAG : Z := 10.
Definition REF_TAG : Z := 11.
Definition EXTERNAL_REF_TAG : Z := 12.
Definition ATOM_TAG : Z := 13.
Definition FLOAT_TAG : Z := 14.
Definition BIG_TAG : Z := 15.
Definition SMALL_TAG : Z := 16.
(** A word of the heap. *)
Definition get_at (h : heap) (a : Z) : decoded word := access (h !! a).
(** The first word of the object behind a pointer. *)
Definition boxed_val (h : heap) (w : word) : decoded word := match w with make_boxed p => access (h !! p) | _ => Overrun end.
Definition thing_tag (t : thing) : Z :=
  match t with
  | T_big _ => BIG_TAG
  | T_float _ => FLOAT_TAG
  | T_bin _ | T_sub_bin _ _ _ => BINARY_TAG
  | T_pid _ _ => EXTERNAL_PID_TAG
  | T_port _ _ => EXTERNAL_PORT_TAG
  | T_ref None _ _ => REF_TAG
  | T_ref (Some _) _ _ => EXTERNAL_REF_TAG
  | T_export _ _ _ => EXPORT_TAG
  | T_fun _ _ _ => FUN_TAG
  end.
(** [tag_val_def]. *)
Definition tag_val_def (h : heap) (x : word) : decoded Z :=
  match x with
  | make_list _ => Got LIST_TAG
  | make_boxed _ =>
      hdr ← boxed_val h x;
      match hdr with make_arityval _ => Got TUPLE_TAG | MAP_HEADER => Got MAP_TAG | THING t => Got (thing_tag t) | _ => Overrun end
  | make_internal_pid _ => Got PID_TAG
  | make_internal_port _ => Got PORT_TAG
  | make_atom _ => Got ATOM_TAG
  | NIL => Got NIL_TAG
  | make_small _ => Got SMALL_TAG
  | _ => Overrun
  end.
(** Equal values or pointers? *)
Definition is_same (a b : word) : bool :=
  match a, b with
  | make_small i, make_small j => i =? j
  | make_atom i, make_atom j => i =? j
  | NIL, NIL => true
  | make_list p, make_list q => p =? q
  | make_boxed p, make_boxed q => p =? q
  | make_internal_pid d, make_internal_pid e => d =? e
  | make_internal_port d, make_internal_port e => d =? e
  | _, _ => false
  end.
(** The order of the double with these halves, which is finite: its sign and
    its other bits as a number. *)
Definition float_order (f : Z * Z) : Z :=
  let m := Z.land (snd f) 0x7fffffff * 2 ^ 32 + fst f in if Z.testbit (snd f) 31 then - m else m.
(** The comparison of finite doubles. *)
Definition float_comp (x y : Z * Z) : Z := if float_order x <? float_order y then -1 else if float_order x =? float_order y then 0 else 1.

Section Compare.
Context {S : Type} `{AtomOps S}.
Variable this_node : Z * Z.
Variable atoms : S.
(** [cmp_atoms]. *)
Definition cmp_atoms (a b : Z) : decoded Z :=
  aa ← lift (at_tab a atoms);
  bb ← lift (at_tab b atoms);
  let diff := a_ord0 aa - a_ord0 bb in
  if negb (diff =? 0) then Got diff
  else Got (cmpbytes (drop 3 (a_name aa)) (Z.of_nat (length (a_name aa)) - 3) (drop 3 (a_name bb)) (Z.of_nat (length (a_name bb)) - 3)).
(** Is it the same entry of the node table? *)
Definition same_node (a b : node) : bool :=
  match a, b with None, None => true | Some x, Some y => (fst x =? fst y) && (snd x =? snd y) | _, _ => false end.
(** 0 when the nodes are the same. *)
Definition CMP_NODES (an bn : node) : decoded Z :=
  if same_node an bn then Got 0
  else if negb (node_name this_node an =? node_name this_node bn) then cmp_atoms (node_name this_node an) (node_name this_node bn)
  else Got (if creation this_node an <? creation this_node bn then -1 else 1).
Definition pid_common (an : node) (adata : Z) (bn : node) (bdata : Z) : decoded Z :=
  if negb (adata =? bdata) then Got (if adata <? bdata then -1 else 1) else CMP_NODES an bn.
Definition port_common (an : node) (adata : Z) (bn : node) (bdata : Z) : decoded Z :=
  j ← CMP_NODES an bn; Got (if negb (j =? 0) then j else s64 (adata - bdata)).
Definition ref_common (an : node) (anum : list Z) (bn : node) (bnum : list Z) : decoded Z :=
  j ← CMP_NODES an bn; Got (if negb (j =? 0) then j else ref_numbers anum bnum).

(** What is compared next: two terms, two terms that are not the same word, the
    cells of two lists, two arrays, or what is on the stack; or the result. *)
Inductive cmp_label :=
| tailrecur (a b : word)
| tailrecur_ne (a b : word)
| cells (aa bb : Z)
| term_array (aa bb i : Z)
| pop_next
| not_equal (j : Z).
(** What is left to compare on the stack: two terms or two arrays. *)
Inductive cmp_frame :=
| CMP_TERMS (a b : word)
| CMP_ARRAY (aa bb i : Z).
Notation stack := (list cmp_frame).
Definition ON_CMP_GOTO (j : Z) : cmp_label := if j =? 0 then pop_next else not_equal j.
Definition on_cmp (x : decoded Z) : decoded cmp_label := j ← x; Got (ON_CMP_GOTO j).

(** The node and the data, when it is a pid (a port, a reference). *)
Definition pid_of (h : heap) (b : word) : decoded (option (node * Z)) :=
  match b with
  | make_internal_pid d => Got (Some (None, d))
  | make_boxed _ => hdr ← boxed_val h b; Got (match hdr with THING (T_pid n d) => Some (Some n, d) | _ => None end)
  | _ => Got None
  end.
Definition port_of (h : heap) (b : word) : decoded (option (node * Z)) :=
  match b with
  | make_internal_port d => Got (Some (None, d))
  | make_boxed _ => hdr ← boxed_val h b; Got (match hdr with THING (T_port n d) => Some (Some n, d) | _ => None end)
  | _ => Got None
  end.
(** The first word of a boxed object, when it is one. *)
Definition header_of (h : heap) (b : word) : decoded (option word) := match b with make_boxed _ => hdr ← boxed_val h b; Got (Some hdr) | _ => Got None end.
(** The bytes of a binary, its size in bytes and the bits behind them. *)
Definition binary_bytes (h : heap) (t : thing) : decoded (option (list Z * Z * Z)) :=
  match t with
  | T_bin bytes => Got (Some (bytes, Z.of_nat (length bytes), 0))
  | T_sub_bin orig size bitsize => w ← access (h !! orig); match w with THING (T_bin bytes) => Got (Some (bytes, size, bitsize)) | _ => Overrun end
  | _ => Got None
  end.
Definition cmp_binaries (a b : list Z * Z * Z) : decoded Z :=
  let '(a_ptr, a_size, a_bitsize) := a in
  let '(b_ptr, b_size, b_bitsize) := b in
  if Z.lor a_bitsize b_bitsize =? 0 then
    cmp ← sys_memcmp a_ptr b_ptr (Z.min a_size b_size);
    Got (if negb (cmp =? 0) then cmp else s64 (a_size - b_size))
  else
    let a_size := Z.shiftl a_size 3 + a_bitsize in
    let b_size := Z.shiftl b_size 3 + b_bitsize in
    cmp ← erts_cmp_bits a_ptr 0 b_ptr 0 (Z.min a_size b_size);
    Got (if negb (cmp =? 0) then cmp else s64 (a_size - b_size)).
Definition cmp_exports (m1 f1 a1 m2 f2 a2 : Z) : decoded Z :=
  j ← cmp_atoms m1 m2;
  if negb (j =? 0) then Got j
  else
    j ← cmp_atoms f1 f2;
    if negb (j =? 0) then Got j else Got (s64 (a1 - a2)).
Definition cmp_funs (fe1 : fun_entry) (num1 : Z) (fe2 : fun_entry) (num2 : Z) : decoded Z :=
  m1 ← lift (at_tab (fe_module fe1) atoms);
  m2 ← lift (at_tab (fe_module fe2) atoms);
  let diff := cmpbytes (a_name m1) (Z.of_nat (length (a_name m1))) (a_name m2) (Z.of_nat (length (a_name m2))) in
  if negb (diff =? 0) then Got diff
  else if negb (fe_old_index fe1 =? fe_old_index fe2) then Got (s32 (fe_old_index fe1 - fe_old_index fe2))
  else if negb (fe_old_uniq fe1 =? fe_old_uniq fe2) then Got (s32 (fe_old_uniq fe1 - fe_old_uniq fe2))
  else Got (s64 (num1 - num2)).

(** The types differ; integers and floats are not converted. *)
Definition mixed_types (h : heap) (a : word) (a_tag : Z) (b : word) : decoded cmp_label :=
  b_tag ← tag_val_def h b;
  if (a_tag =? SMALL_TAG) && (b_tag =? BIG_TAG) then hdr ← boxed_val h b; match hdr with THING (T_big y) => Got (not_equal (if BIG_SIGN y then 1 else -1)) | _ => Overrun end
  else if (a_tag =? BIG_TAG) && (b_tag =? SMALL_TAG) then hdr ← boxed_val h a; match hdr with THING (T_big x) => Got (not_equal (if BIG_SIGN x then -1 else 1)) | _ => Overrun end
  else Got (ON_CMP_GOTO (b_tag - a_tag)).
Definition cmp_thing (h : heap) (a : word) (p : Z) (t : thing) (b : word) : decoded cmp_label :=
  hdr ← header_of h b;
  match t with
  | T_float af => match hdr with Some (THING (T_float bf)) => Got (ON_CMP_GOTO (float_comp af bf)) | _ => mixed_types h a FLOAT_TAG b end
  | T_big x => match hdr with Some (THING (T_big y)) => Got (ON_CMP_GOTO (big_comp x y)) | _ => mixed_types h a BIG_TAG b end
  | T_export m1 f1 a1 => match hdr with Some (THING (T_export m2 f2 a2)) => on_cmp (cmp_exports m1 f1 a1 m2 f2 a2) | _ => mixed_types h a EXPORT_TAG b end
  | T_fun fe1 _ num1 =>
      match b, hdr with
      | make_boxed q, Some (THING (T_fun fe2 _ num2)) =>
          j ← cmp_funs fe1 num1 fe2 num2;
          if negb (j =? 0) then Got (not_equal j)
          else if num1 =? 0 then Got pop_next
          else Got (term_array (p + ERL_FUN_SIZE) (q + ERL_FUN_SIZE) num1)
      | _, _ => mixed_types h a FUN_TAG b
      end
  | T_pid an adata => o ← pid_of h b; match o with Some (bn, bdata) => on_cmp (pid_common (Some an) adata bn bdata) | None => mixed_types h a EXTERNAL_PID_TAG b end
  | T_port an adata => o ← port_of h b; match o with Some (bn, bdata) => on_cmp (port_common (Some an) adata bn bdata) | None => mixed_types h a EXTERNAL_PORT_TAG b end
  | T_ref an _ anum => match hdr with Some (THING (T_ref bn _ bnum)) => on_cmp (ref_common an anum bn bnum) | _ => mixed_types h a (thing_tag t) b end
  | T_bin _ | T_sub_bin _ _ _ =>
      x ← binary_bytes h t;
      y ← (match hdr with Some (THING u) => binary_bytes h u | _ => Got None end);
      match x, y with Some x, Some y => on_cmp (cmp_binaries x y) | _, _ => mixed_types h a BINARY_TAG b end
  end.
Definition cmp_boxed (h : heap) (p : Z) (b : word) : decoded cmp_label :=
  ahdr ← access (h !! p);
  match ahdr with
  | make_arityval n =>
      hdr ← header_of h b;
      match b, hdr with
      | make_boxed q, Some (make_arityval m) =>
          if negb (n =? m) then Got (not_equal (s32 (n - m))) else if n =? 0 then Got pop_next else Got (term_array (p + 1) (q + 1) n)
      | _, _ => mixed_types h (make_boxed p) TUPLE_TAG b
      end
  | MAP_HEADER =>
      hdr ← header_of h b;
      match b, hdr with
      | make_boxed q, Some MAP_HEADER =>
          n ← access (h !! (p + 1));
          m ← access (h !! (q + 1));
          match n, m with
          | RAW n, RAW m => if negb (n =? m) then Got (not_equal (s32 (n - m))) else if n =? 0 then Got pop_next else Got (term_array (p + 2) (q + 2) (n + 1))
          | _, _ => Overrun
          end
      | _, _ => mixed_types h (make_boxed p) MAP_TAG b
      end
  | THING t => cmp_thing h (make_boxed p) p t b
  | _ => Overrun
  end.
Definition cmp_words (h : heap) (a b : word) : decoded cmp_label :=
  match a, b with
  | make_atom x, make_atom y => on_cmp (cmp_atoms x y)
  | make_small i, make_small j => Got (ON_CMP_GOTO (i - j))
  | make_internal_port adata, _ => o ← port_of h b; match o with Some (bn, bdata) => on_cmp (port_common None adata bn bdata) | None => mixed_types h a PORT_TAG b end
  | make_internal_pid adata, _ => o ← pid_of h b; match o with Some (bn, bdata) => on_cmp (pid_common None adata bn bdata) | None => mixed_types h a PID_TAG b end
  | make_small _, _ => mixed_types h a SMALL_TAG b
  | make_atom _, _ => mixed_types h a ATOM_TAG b
  | NIL, _ => mixed_types h a NIL_TAG b
  | make_list aa, make_list bb => Got (cells aa bb)
  | make_list _, _ => mixed_types h a LIST_TAG b
  | make_boxed p, _ => cmp_boxed h p b
  | _, _ => Overrun
  end.
(** One turn: a jump to the next label, with the stack. *)
Definition cmp_turn (h : heap) (l : cmp_label) (s : stack) : decoded (cmp_label * stack) :=
  match l with
  | tailrecur a b => Got (if is_same a b then (pop_next, s) else (tailrecur_ne a b, s))
  | tailrecur_ne a b => l ← cmp_words h a b; Got (l, s)
  | cells aa bb =>
      a ← get_at h aa;
      b ← get_at h bb;
      if negb (is_same a b) then
        ta ← get_at h (aa + 1);
        tb ← get_at h (bb + 1);
        Got (tailrecur_ne a b, CMP_TERMS ta tb :: s)
      else
        a ← get_at h (aa + 1);
        b ← get_at h (bb + 1);
        if is_same a b then Got (pop_next, s)
        else match a, b with make_list aa, make_list bb => Got (cells aa bb, s) | _, _ => Got (tailrecur_ne a b, s) end
  | term_array aa bb i =>
      a ← get_at h aa;
      b ← get_at h bb;
      if i - 1 =? 0 then Got (tailrecur a b, s)
      else
        let next := term_array (aa + 1) (bb + 1) (i - 1) in
        if is_same a b then Got (next, s)
        else
          match a, b with
          | make_atom x, make_atom y => j ← cmp_atoms x y; Got (if negb (j =? 0) then (not_equal j, s) else (next, s))
          | make_small x, make_small y => Got (if negb (x - y =? 0) then (not_equal (x - y), s) else (next, s))
          | _, _ => Got (tailrecur_ne a b, CMP_ARRAY (aa + 1) (bb + 1) (i - 1) :: s)
          end
  | pop_next =>
      match s with
      | [] => Got (not_equal 0, [])
      | CMP_TERMS a b :: s => Got (tailrecur a b, s)
      | CMP_ARRAY aa bb i :: s => Got (term_array aa bb i, s)
      end
  | not_equal j => Got (not_equal j, s)
  end.
(** The jumps, with fuel. *)
Fixpoint cmp_loop (fuel : nat) (h : heap) (l : cmp_label) (s : stack) : decoded Z :=
  match l with
  | not_equal j => Got j
  | _ => match fuel with O => Overrun | Datatypes.S fuel => '(l, s) ← cmp_turn h l s; cmp_loop fuel h l s end
  end.
(** erts_cmp with exact = 1. [fuel] bounds the turns. *)
Definition CMP_TERM (fuel : nat) (h : heap) (a b : word) : decoded Z := cmp_loop fuel h (tailrecur a b) [].
End Compare.
