(* ===== verification/TermKey.v ===== *)
(** The key of a term: a list of numbers, whose lexicographic order is that of terms; no key is
    a proper prefix of another. What the comparison sees of a represented term, and the comparison
    of atoms and nodes by their keys. *)

From S2P Require Import Prelude.
From stdpp Require Import base option list gmap.
From S2P Require Import BigNum BigConv TermOrder Memory Utf8 Atoms ExtTerm ExtEncode ExtDecode ExtSpec ExtRep BitCompare TermCompare.
Local Open Scope Z_scope.

(** ** Words none of which is the start of another *)
Definition delimited (x y : list Z) : Prop := forall u v, lex (x ++ u) (y ++ v) = if lex x y =? 0 then lex u v else lex x y.
Lemma delimited_nil : delimited [] []. Proof. intros u v. reflexivity. Qed.
Lemma delimited_cons a b x y : (a = b -> delimited x y) -> delimited (a :: x) (b :: y).
Proof.
  intros D u v. cbn [app lex]. rewrite Z.gtb_ltb. destruct (Z.ltb_spec a b); [reflexivity|]. destruct (Z.ltb_spec b a); [reflexivity|]. apply D. lia.
Qed.
Lemma lex_app2 x y x' y' : delimited x y -> lex (x ++ x') (y ++ y') = if lex x y =? 0 then lex x' y' else lex x y.
Proof. intros D. apply D. Qed.
Lemma delimited_app x y x' y' : delimited x y -> (lex x y = 0 -> delimited x' y') -> delimited (x ++ x') (y ++ y').
Proof.
  intros D D' u v. rewrite <- !app_assoc, !D. destruct (Z.eqb_spec (lex x y) 0) as [E|N]; [now rewrite D'|]. now rewrite (proj2 (Z.eqb_neq _ 0)).
Qed.
Lemma delimited_length x y : length x = length y -> delimited x y.
Proof. intros Hl u v. now apply lex_same. Qed.
(** Bytes with an end. *)
Definition closed (bs : list Z) : list Z := map Z.succ bs ++ [0].
Lemma closed_lex a b u v : Forall byte a -> Forall byte b -> lex (closed a ++ u) (closed b ++ v) = if same_atom a b then lex u v else lex a b.
Proof. intros Ha Hb. unfold closed. rewrite <- !app_assoc. now apply lex_map_succ. Qed.
Lemma same_atom_lex a b : same_atom a b = (lex a b =? 0).
Proof.
  destruct (same_atom a b) eqn:E; symmetry; [apply same_atom_spec in E as ->; now rewrite lex_refl|]. apply Z.eqb_neq. intros L. apply lex_eq, same_atom_spec in L. congruence.
Qed.
Lemma lex_closed a b : Forall byte a -> Forall byte b -> lex (closed a) (closed b) = lex a b.
Proof.
  intros Ha Hb. rewrite <- (app_nil_r (closed a)), <- (app_nil_r (closed b)), closed_lex by auto. rewrite same_atom_lex. destruct (Z.eqb_spec (lex a b) 0); auto.
Qed.
Lemma delimited_closed a b : Forall byte a -> Forall byte b -> delimited (closed a) (closed b).
Proof. intros Ha Hb u v. rewrite closed_lex, lex_closed, same_atom_lex by auto. reflexivity. Qed.
Lemma node_word_closed n : node_word n = closed (sysname n) ++ [TermOrder.creation n].
Proof. unfold node_word, closed. now rewrite <- app_assoc. Qed.
Lemma delimited_node n m : TermOrder.node_ok n -> TermOrder.node_ok m -> delimited (node_word n) (node_word m).
Proof. intros Hn Hm. rewrite !node_word_closed. apply delimited_app; [now apply delimited_closed|]. intros _. now apply delimited_length. Qed.
Lemma all_delimited {A} (f : A -> list Z) l l' : length l = length l' -> Forall (fun x => forall y, y ∈ l' -> delimited (f x) (f y)) l -> delimited (flat_map f l) (flat_map f l').
Proof.
  revert l'. induction l as [|x l IH]; intros [|y l'] Hl F; try discriminate; [apply delimited_nil|]. injection Hl as Hl. apply Forall_cons in F as [Fx F]. cbn [flat_map].
  apply delimited_app; [apply Fx; left|]. intros _. apply IH; auto. eapply Forall_impl; [exact F|]. cbn. intros z Hz w Hw. apply Hz. now right.
Qed.

(** ** The word of a term *)
Section Key.
Context {S : Type} `{AtomLaws S}.
Variable this_node : Z * Z.
Variable atoms : S.
Definition name_of (a : Z) : list Z := match at_tab a atoms with Ok x => a_name x | _ => [] end.
Definition node_of (n : node) : ErlNode := mkErlNode (name_of (node_name this_node n)) (creation this_node n).
(** The bits of a binary, of whose last byte [k] are used. *)
Definition binary_bits (bytes : list Z) (k : Z) : list Z :=
  if k =? 0 then bits bytes else take (8 * (length bytes - 1) + Z.to_nat k) (bits bytes).
(** A list of numbers for each term, in the order of the terms: the kind of the
    term first, and what its kind is ordered by. *)
Fixpoint term_key (t : term) : list Z :=
  match t with
  | SMALL_DEF i => [- SMALL_TAG; i]
  | BIG_DEF b => [- SMALL_TAG; bval b]
  | FLOAT_DEF f => [- FLOAT_TAG; float_order f]
  | ATOM_DEF a => - ATOM_TAG :: closed (name_of a)
  | REF_DEF n nums => - REF_TAG :: node_word (node_of n) ++ [nums_val nums]
  | FUN_DEF fe arity creator env => - FUN_TAG :: closed (name_of (fe_module fe)) ++ fe_old_index fe :: fe_old_uniq fe :: Z.of_nat (length env) :: flat_map term_key env
  | EXPORT_DEF m f arity => - EXPORT_TAG :: closed (name_of m) ++ closed (name_of f) ++ [arity]
  | PORT_DEF n num => - PORT_TAG :: node_word (node_of n) ++ [num]
  | PID_DEF n data => - PID_TAG :: data :: node_word (node_of n)
  | TUPLE_DEF ts => - TUPLE_TAG :: Z.of_nat (length ts) :: flat_map term_key ts
  | MAP_DEF kvs => - MAP_TAG :: Z.of_nat (length kvs) :: flat_map (fun kv => term_key (fst kv)) kvs ++ flat_map (fun kv => term_key (snd kv)) kvs
  | NIL_DEF => [- NIL_TAG]
  | LIST_DEF hd tl => - LIST_TAG :: term_key hd ++ term_key tl
  | BINARY_DEF bytes k => - BINARY_TAG :: closed (binary_bits bytes k)
  end.
(** The terms on which the comparison is an order: differences of numbers fit
    their types. *)
Fixpoint comparable (t : term) : Prop :=
  match t with
  | REF_DEF _ nums => small_nums nums
  | FUN_DEF fe _ _ env => - 2 ^ 30 <= fe_old_index fe < 2 ^ 30 /\ - 2 ^ 30 <= fe_old_uniq fe < 2 ^ 30 /\ all_of comparable env
  | LIST_DEF hd tl => comparable hd /\ comparable tl
  | TUPLE_DEF ts => Z.of_nat (length ts) < 2 ^ 31 /\ all_of comparable ts
  | BINARY_DEF bytes _ => Z.of_nat (length bytes) < 2 ^ 31
  | MAP_DEF kvs => Z.of_nat (length kvs) < 2 ^ 31 /\ all_of (fun kv => comparable (fst kv) /\ comparable (snd kv)) kvs
  | _ => True
  end.
Lemma name_known a x : known atoms a x -> name_of a = a_name x /\ is_name (a_name x).
Proof. intros K. unfold name_of. rewrite (known_tab _ _ _ K). split; auto. apply (known_name _ _ _ K). Qed.
Lemma name_bytes a : is_atom atoms a -> Forall byte (name_of a).
Proof. intros [x K]. destruct (name_known a x K) as [-> F]. exact F. Qed.
Lemma node_bytes n : ExtSpec.node_ok this_node atoms n -> TermOrder.node_ok (node_of n).
Proof. intros (A & _). apply (name_bytes _ A). Qed.
Lemma bits_bytes bytes k : Forall byte (binary_bits bytes k).
Proof.
  assert (F : Forall byte (bits bytes)).
  { unfold bits. induction bytes as [|b bs IH]; cbn [flat_map]; [constructor|]. apply Forall_app. split; auto. eapply Forall_impl; [apply bits8_bits|]. cbn. unfold byte. lia. }
  unfold binary_bits. destruct (k =? 0); [exact F|]. now apply Forall_take.
Qed.
(** Keys are delimited. *)
Lemma key_delimited a : wf_term this_node atoms a -> forall b, wf_term this_node atoms b -> delimited (term_key a) (term_key b).
Proof.
  induction a as [i|x|f|a| |hd tl IH1 IH2|ts IH|kvs IH|bytes k|n d|n d|n nums|m f ar|fe ar cr env IH] using term_ind; intros Wa b Wb;
    destruct b as [i'|x'|f'|a'| |hd' tl'|ts'|kvs'|bytes' k'|n' d'|n' d'|n' nums'|m' f' ar'|fe' ar' cr' env']; cbn [term_key]; apply delimited_cons; intros E; try discriminate E; clear E;
    cbn [wf_term] in Wa, Wb; try (apply delimited_length; reflexivity).
  - apply delimited_closed; now apply name_bytes.
  - destruct Wa, Wb. apply delimited_app; auto.
  - apply delimited_cons. intros E. apply all_of_Forall in Wa, Wb. apply all_delimited; [lia|]. rewrite Forall_forall in *. intros x Hx y Hy. apply IH; auto.
  - apply delimited_cons. intros E. apply all_of_Forall in Wa, Wb. rewrite Forall_forall in *.
    apply delimited_app; [|intros _]; (apply all_delimited; [lia|]); apply Forall_forall; intros x Hx y Hy; destruct (IH x Hx) as [I1 I2], (Wa x Hx), (Wb y Hy); [apply I1|apply I2]; auto.
  - apply delimited_closed; apply bits_bytes.
  - apply delimited_cons. intros _. destruct Wa as [Wa _], Wb as [Wb _]. apply delimited_node; now apply node_bytes.
  - destruct Wa as [Wa _], Wb as [Wb _]. apply delimited_app; [apply delimited_node; now apply node_bytes|]. intros _. now apply delimited_length.
  - destruct Wa as [Wa _], Wb as [Wb _]. apply delimited_app; [apply delimited_node; now apply node_bytes|]. intros _. now apply delimited_length.
  - destruct Wa as (A1 & A2 & _), Wb as (B1 & B2 & _). apply delimited_app; [apply delimited_closed; now apply name_bytes|]. intros _.
    apply delimited_app; [apply delimited_closed; now apply name_bytes|]. intros _. now apply delimited_length.
  - destruct Wa as ((A1 & _) & _ & Wa), Wb as ((B1 & _) & _ & Wb). apply delimited_app; [apply delimited_closed; now apply name_bytes|]. intros _.
    apply delimited_cons. intros _. apply delimited_cons. intros _. apply delimited_cons. intros E. apply all_of_Forall in Wa, Wb. apply all_delimited; [lia|]. rewrite Forall_forall in *. intros x Hx y Hy. apply IH; auto.
Qed.
End Key.

(** ** A word is one term *)
Lemma slots_unique {A} (f f' : A -> word -> Prop) lo hi lo' hi' h l : Forall (fun x => forall y w, f x w -> f' y w -> x = y) l ->
  forall l' a, length l = length l' -> slots lo hi h f a l -> slots lo' hi' h f' a l' -> l = l'.
Proof.
  induction 1 as [|x l Hx F IH]; intros [|y l'] a Hl S1 S2; try discriminate; auto. injection Hl as Hl. destruct S1 as [(w & [_ E] & R) S1], S2 as [(w' & [_ E'] & R') S2].
  rewrite E in E'. injection E' as <-. f_equal; [eapply Hx; eauto|eapply IH; eauto].
Qed.
Lemma at_word_eq lo hi lo' hi' h p v w : at_word lo hi h p v -> at_word lo' hi' h p w -> v = w.
Proof. intros [_ E] [_ E']. congruence. Qed.
Ltac same_words :=
  repeat match goal with
  | H : make_boxed _ = make_boxed _ |- _ => injection H as H; subst
  | H : make_list _ = make_list _ |- _ => injection H as H; subst
  | A : at_word _ _ ?h ?p ?v, B : at_word _ _ ?h ?p ?w |- _ => pose proof (at_word_eq _ _ _ _ _ _ _ _ A B); clear B
  end.
Lemma pid_word_unique lo hi lo' hi' h n d n' d' w : pid_word lo hi h n d w -> pid_word lo' hi' h n' d' w -> n = n' /\ d = d'.
Proof.
  destruct n as [n|], n' as [n'|]; cbn; [|intros (p & -> & _) ?; discriminate|intros -> (p & ? & _); discriminate|intros -> [= <-]; auto].
  intros (p & -> & A) (q & E & B). same_words. now injection H as -> ->.
Qed.
Lemma slots_pairs {A B} (f : A -> word -> Prop) (g : A -> B) (r : B -> word -> Prop) lo hi h l : (forall x w, f x w <-> r (g x) w) -> forall a, slots lo hi h f a l <-> slots lo hi h r a (map g l).
Proof. intros E. induction l as [|x l IH]; intros a; cbn [slots map]; [tauto|]. rewrite IH. setoid_rewrite E. tauto. Qed.
Lemma map_pair_eq {A B} (l : list (A * B)) : forall l', map fst l = map fst l' -> map snd l = map snd l' -> l = l'.
Proof. induction l as [|[a b] l IH]; intros [|[a' b'] l']; cbn; try discriminate; auto. intros [= -> E1] [= -> E2]. f_equal. auto. Qed.
(** The tag of a term. *)
Definition tag_of (t : term) : Z :=
  match t with
  | SMALL_DEF _ => SMALL_TAG | BIG_DEF _ => BIG_TAG | FLOAT_DEF _ => FLOAT_TAG | ATOM_DEF _ => ATOM_TAG | NIL_DEF => NIL_TAG | LIST_DEF _ _ => LIST_TAG
  | TUPLE_DEF _ => TUPLE_TAG | MAP_DEF _ => MAP_TAG | BINARY_DEF _ _ => BINARY_TAG
  | PID_DEF None _ => PID_TAG | PID_DEF _ _ => EXTERNAL_PID_TAG | PORT_DEF None _ => PORT_TAG | PORT_DEF _ _ => EXTERNAL_PORT_TAG
  | REF_DEF None _ => REF_TAG | REF_DEF _ _ => EXTERNAL_REF_TAG | EXPORT_DEF _ _ _ => EXPORT_TAG | FUN_DEF _ _ _ _ => FUN_TAG
  end.
Lemma rep_tag lo hi h t w : rep [] lo hi h t w -> tag_val_def h w = Got (tag_of t).
Proof.
  assert (B : forall p v, at_word lo hi h p v -> boxed_val h (make_boxed p) = Got v) by (intros p v [_ E]; cbn; now rewrite E).
  destruct t as [i|x|f|a| |hd tl|ts|kvs|bytes k|n d|n d|n nums|m f ar|fe ar cr env]; cbn [rep tag_of].
  all: try (intros (p & -> & A); cbn [tag_val_def]; rewrite (B _ _ A); reflexivity).
  all: try (intros ->; reflexivity).
  - intros (p & wh & wt & -> & _). reflexivity.
  - intros (p & -> & A & _). cbn [tag_val_def]. rewrite (B _ _ A). reflexivity.
  - intros (m & k & -> & (_ & v & Hv & D) & _). rewrite decide_False in D by apply not_elem_of_nil. subst v. cbn. now rewrite Hv.
  - destruct (k =? 0); [intros (p & -> & A)|intros (p & q & -> & A & _)]; cbn [tag_val_def]; rewrite (B _ _ A); reflexivity.
  - destruct n as [n|]; cbn; [|intros ->; reflexivity]. intros (p & -> & A). cbn [tag_val_def]. rewrite (B _ _ A). reflexivity.
  - destruct n as [n|]; cbn; [|intros ->; reflexivity]. intros (p & -> & A). cbn [tag_val_def]. rewrite (B _ _ A). reflexivity.
  - intros (p & wc & -> & A & _). cbn [tag_val_def]. rewrite (B _ _ A). reflexivity.
Qed.
Lemma len_inj {A} (l l' : list A) : RAW (Z.of_nat (length l)) = RAW (Z.of_nat (length l')) \/ make_arityval (Z.of_nat (length l)) = make_arityval (Z.of_nat (length l')) -> length l = length l'.
Proof. intros [E|E]; injection E; lia. Qed.
Lemma rep_unique lo hi lo' hi' h a : forall b w, rep [] lo hi h a w -> rep [] lo' hi' h b w -> a = b.
Proof.
  induction a as [i|x|f|a| |hd tl IH1 IH2|ts IH|kvs IH|bytes k|n d|n d|n nums|m f ar|fe ar cr env IH] using term_ind; intros b w Ra Rb; pose proof (rep_tag _ _ _ _ _ Ra) as Ta; rewrite (rep_tag _ _ _ _ _ Rb) in Ta; injection Ta as Ta;
    destruct b as [i'|x'|f'|a'| |hd' tl'|ts'|kvs'|bytes' k'|n' d'|n' d'|n' nums'|m' f' ar'|fe' ar' cr' env']; try destruct n; try destruct n'; try discriminate Ta; clear Ta; cbn [rep] in Ra, Rb; auto; try congruence.
  all: try (destruct Ra as (ad & -> & A), Rb as (ad' & E & B); same_words; congruence).
  - destruct Ra as (p & wh & wt & -> & A1 & A2 & R1 & R2), Rb as (q & wh' & wt' & E & B1 & B2 & Q1 & Q2). same_words. subst. f_equal; eauto.
  - destruct Ra as (p & -> & A & Sl), Rb as (q & E & B & Sl'). same_words. f_equal. apply (slots_unique (rep [] lo hi h) (rep [] lo' hi' h) lo hi lo' hi' h ts) with (a := q + 1); auto. apply len_inj. auto.
  - destruct Ra as (m & k & -> & _ & A1 & A2 & A3 & Sk & Sv), Rb as (m' & k' & E & _ & B1 & B2 & B3 & Qk & Qv). same_words.
    assert (Hl : length kvs = length kvs') by (apply len_inj; auto). f_equal.
    rewrite (slots_pairs _ fst (rep [] lo hi h)) in Sk by reflexivity. rewrite (slots_pairs _ snd (rep [] lo hi h)) in Sv by reflexivity.
    rewrite (slots_pairs _ fst (rep [] lo' hi' h)) in Qk by reflexivity. rewrite (slots_pairs _ snd (rep [] lo' hi' h)) in Qv by reflexivity.
    apply map_pair_eq; [refine (slots_unique _ _ _ _ _ _ _ _ _ _ _ _ Sk Qk)|refine (slots_unique _ _ _ _ _ _ _ _ _ _ _ _ Sv Qv)]; rewrite ?length_map; auto;
      apply Forall_map; (eapply Forall_impl; [exact IH|]); cbn; intros kv [Hk Hv] y v R1 R2; [exact (Hk y v R1 R2)|exact (Hv y v R1 R2)].
  - destruct (Z.eqb_spec k 0) as [->|Nk], (Z.eqb_spec k' 0) as [->|Nk'].
    + destruct Ra as (p & -> & A), Rb as (q & E & B). same_words. congruence.
    + destruct Ra as (p & -> & A), Rb as (p' & q & E & B & _). same_words. congruence.
    + destruct Ra as (p' & p & -> & A & _), Rb as (q & E & B). same_words. congruence.
    + destruct Ra as (p & q & -> & A & A'), Rb as (p' & q' & E & B & B'). same_words. 
      match goal with H : THING (T_sub_bin _ _ _) = _ |- _ => injection H as -> H2 -> end. same_words. congruence.
  - destruct Ra as (p & wc & -> & A & Ac & Pc & Sl), Rb as (q & wc' & E & B & Bc & Pc' & Sl'). same_words. subst. match goal with H : THING _ = THING _ |- _ => injection H as -> -> Hl end.
    destruct (pid_word_unique _ _ _ _ _ _ _ _ _ _ Pc Pc') as [E1 E2]. f_equal; [destruct cr, cr'; cbn in *; congruence|].
    apply (slots_unique (rep [] lo hi h) (rep [] lo' hi' h) lo hi lo' hi' h env) with (a := q + ERL_FUN_SIZE); auto. lia.
Qed.

Section Refine.
Context {S : Type} `{AtomLaws S}.
Variable this_node : Z * Z.
Variable atoms : S.
Notation wf := (wf_term this_node atoms).
Notation key := (term_key this_node atoms).
Notation node_of := (node_of this_node atoms).
Notation name_of := (name_of atoms).
Notation node_ok := (ExtSpec.node_ok this_node atoms).
Notation cmp_atoms := (cmp_atoms atoms).
Notation CMP_NODES := (CMP_NODES this_node atoms).
Notation cmp_words := (cmp_words this_node atoms).
Notation cmp_turn := (cmp_turn this_node atoms).
Notation cmp_loop := (cmp_loop this_node atoms).

(** ** Atoms and nodes *)
Lemma cmp_atoms_known a b : is_atom atoms a -> is_atom atoms b -> exists j, cmp_atoms a b = Got j /\ Z.sgn j = lex (name_of a) (name_of b).
Proof.
  intros [x Ka] [y Kb]. destruct (name_known _ _ _ Ka) as [-> Na], (name_known _ _ _ Kb) as [-> Nb]. exists (TermOrder.cmp_atoms (a_name x) (a_name y)). split; [|now apply cmp_atoms_lex].
  unfold TermCompare.cmp_atoms. rewrite (known_tab _ _ _ Ka), (known_tab _ _ _ Kb). cbn [lift mbind decoded_bind]. rewrite (known_ord0 _ _ _ Ka), (known_ord0 _ _ _ Kb). unfold TermOrder.cmp_atoms. cbv zeta. now destruct (negb _).
Qed.
Lemma name_inj a b : is_atom atoms a -> is_atom atoms b -> name_of a = name_of b -> a = b.
Proof. intros [x Ka] [y Kb]. destruct (name_known _ _ _ Ka) as [-> _], (name_known _ _ _ Kb) as [-> _]. now apply (known_inj _ _ _ _ _ Ka Kb). Qed.
Lemma known_node_spec a b : node_ok a -> node_ok b -> same_node a b = true <-> node_of a = node_of b.
Proof.
  intros (Aa & _ & Ka) (Ab & _ & Kb). unfold TermKey.node_of. destruct a as [[a c]|], b as [[b d]|]; cbn [same_node fst snd node_name creation] in *.
  - rewrite andb_true_iff, !Z.eqb_eq. split; [intros [-> ->]; reflexivity|]. intros [= E ->]. split; auto. now apply name_inj.
  - split; [discriminate|]. intros [= E ->]. apply name_inj in E as ->; auto. destruct Ka as [Ka _]. destruct this_node. cbn in *. congruence.
  - split; [discriminate|]. intros [= E <-]. apply name_inj in E as <-; auto. destruct Kb as [Kb _]. destruct this_node. cbn in *. congruence.
  - tauto.
Qed.
Lemma CMP_NODES_known a b : node_ok a -> node_ok b -> exists j, CMP_NODES a b = Got j /\ Z.sgn j = lex (node_word (node_of a)) (node_word (node_of b)).
Proof.
  intros Ha Hb. pose proof (node_bytes _ _ _ Ha) as Na. pose proof (node_bytes _ _ _ Hb) as Nb. pose proof (node_word_app _ _ [] [] Na Nb) as W. rewrite !app_nil_r in W.
  pose proof (known_node_spec a b Ha Hb) as Sn. unfold TermCompare.CMP_NODES. destruct (same_node a b).
  - exists 0. split; auto. rewrite (proj1 Sn eq_refl), lex_refl. reflexivity.
  - assert (E : TermOrder.same_node (node_of a) (node_of b) = false). { destruct (TermOrder.same_node _ _) eqn:E; auto. apply TermOrder.same_node_spec, Sn in E. discriminate. }
    rewrite E in W. rewrite W. unfold TermOrder.CMP_NODES. rewrite E. destruct Ha as (Aa & _), Hb as (Ab & _). destruct (Z.eqb_spec (node_name this_node a) (node_name this_node b)) as [En|Nn]; cbn [negb].
    + eexists. split; [reflexivity|]. unfold TermKey.node_of. cbn [sysname TermOrder.creation]. rewrite En. rewrite (proj2 (same_atom_spec _ _) eq_refl). cbn [negb]. now destruct (_ <? _).
    + destruct (cmp_atoms_known _ _ Aa Ab) as (j & -> & Ej). exists j. split; auto. unfold TermKey.node_of. cbn [sysname TermOrder.creation]. destruct (same_atom _ _) eqn:Es; cbn [negb].
      * apply same_atom_spec, name_inj in Es; auto. contradiction.
      * rewrite Ej, cmp_atoms_lex by (now apply name_bytes). reflexivity.
Qed.
Lemma delimited_nodes a b : node_ok a -> node_ok b -> delimited (node_word (node_of a)) (node_word (node_of b)).
Proof. intros Ha Hb. apply delimited_node; now apply (node_bytes this_node atoms). Qed.
(** Numbers, as words of one. *)
Lemma lex_num a b u v : lex (a :: u) (b :: v) = if a =? b then lex u v else Z.sgn (a - b).
Proof.
  cbn [lex]. rewrite Z.gtb_ltb. destruct (Z.eqb_spec a b) as [->|N]; [now rewrite Z.ltb_irrefl|]. destruct (Z.ltb_spec a b); [now rewrite Z.sgn_neg by lia|]. rewrite (proj2 (Z.ltb_lt _ _)) by lia. now rewrite Z.sgn_pos by lia.
Qed.
Lemma lex_one a b : lex [a] [b] = Z.sgn (a - b).
Proof. rewrite lex_num. destruct (Z.eqb_spec a b) as [->|]; [now rewrite Z.sub_diag|reflexivity]. Qed.
(** Two comparisons, the second when the first gives 0. *)
Lemma then_lex j k x y x' y' : Z.sgn j = lex x y -> delimited x y -> Z.sgn k = lex x' y' -> Z.sgn (if negb (j =? 0) then j else k) = lex (x ++ x') (y ++ y').
Proof.
  intros E D E'. rewrite (lex_app2 _ _ _ _ D), <- E, <- E'. destruct (Z.eqb_spec j 0) as [->|N]; cbn [negb]; [reflexivity|]. rewrite (proj2 (Z.eqb_neq (Z.sgn j) 0)) by lia. reflexivity.
Qed.
Lemma s64_id x : - 2 ^ 63 <= x < 2 ^ 63 -> s64 x = x.
Proof. intros Hx. unfold s64, w64. cbv zeta. destruct (Z.ltb_spec (x mod β) (2 ^ 63)); lia. Qed.
Lemma pid_common_known a d b e : node_ok a -> node_ok b -> exists j, pid_common this_node atoms a d b e = Got j /\ Z.sgn j = lex (d :: node_word (node_of a)) (e :: node_word (node_of b)).
Proof.
  intros Ha Hb. unfold TermCompare.pid_common. rewrite lex_num. destruct (Z.eqb_spec d e) as [->|N]; cbn [negb]; [now apply CMP_NODES_known|].
  eexists. split; [reflexivity|]. destruct (Z.ltb_spec d e); [now rewrite (Z.sgn_neg (d - e)) by lia|now rewrite (Z.sgn_pos (d - e)) by lia].
Qed.
Lemma port_common_known a d b e : node_ok a -> node_ok b -> 0 <= d < 2 ^ 32 -> 0 <= e < 2 ^ 32 ->
  exists j, port_common this_node atoms a d b e = Got j /\ Z.sgn j = lex (node_word (node_of a) ++ [d]) (node_word (node_of b) ++ [e]).
Proof.
  intros Ha Hb Hd He. unfold TermCompare.port_common. destruct (CMP_NODES_known a b Ha Hb) as (j & -> & Ej). cbn [mbind decoded_bind]. eexists. split; [reflexivity|].
  apply then_lex; auto; [now apply delimited_nodes|]. rewrite lex_one, s64_id by lia. reflexivity.
Qed.
Lemma ref_common_known a l b r : node_ok a -> node_ok b -> small_nums l -> small_nums r ->
  exists j, ref_common this_node atoms a l b r = Got j /\ Z.sgn j = lex (node_word (node_of a) ++ [nums_val l]) (node_word (node_of b) ++ [nums_val r]).
Proof.
  intros Ha Hb Hl Hr. unfold TermCompare.ref_common. destruct (CMP_NODES_known a b Ha Hb) as (j & -> & Ej). cbn [mbind decoded_bind]. eexists. split; [reflexivity|].
  apply then_lex; auto; [now apply delimited_nodes|]. now rewrite lex_one, ref_numbers_spec.
Qed.
Lemma cmp_exports_known m f a m' f' a' : is_atom atoms m -> is_atom atoms f -> 0 <= a <= MAX_ARG -> is_atom atoms m' -> is_atom atoms f' -> 0 <= a' <= MAX_ARG ->
  exists j, cmp_exports atoms m f a m' f' a' = Got j /\ Z.sgn j = lex (closed (name_of m) ++ closed (name_of f) ++ [a]) (closed (name_of m') ++ closed (name_of f') ++ [a']).
Proof.
  unfold MAX_ARG. intros Hm Hf Ha Hm' Hf' Ha'. unfold cmp_exports. destruct (cmp_atoms_known _ _ Hm Hm') as (j & -> & Ej), (cmp_atoms_known _ _ Hf Hf') as (k & -> & Ek). cbn [mbind decoded_bind].
  exists (if negb (j =? 0) then j else if negb (k =? 0) then k else s64 (a - a')). split; [now destruct (negb (j =? 0)), (negb (k =? 0))|].
  pose proof (name_bytes _ _ Hm). pose proof (name_bytes _ _ Hm'). pose proof (name_bytes _ _ Hf). pose proof (name_bytes _ _ Hf').
  apply then_lex; [now rewrite lex_closed|now apply delimited_closed|]. apply then_lex; [now rewrite lex_closed|now apply delimited_closed|]. now rewrite lex_one, s64_id by lia.
Qed.
End Refine.
