(* ===== verification/TermCmpProof.v ===== *)
(** That the comparison agrees with the keys, by induction on the first term, with lemmas on the
    jumps of the comparison: what decides it, and what is put on the stack. *)

From S2P Require Import Prelude.
From stdpp Require Import base option list gmap.
From S2P Require Import Digits BigNat BigBits BigNum BigConv TermOrder Memory Utf8 Atoms ExtTerm ExtEncode ExtDecode ExtSpec ExtRep BitCompare TermCompare TermKey.
Local Open Scope Z_scope.

(** ** Numbers and binaries *)
Lemma cmpz_sgn x y : cmpz x y = Z.sgn (x - y).
Proof. unfold cmpz. destruct (Z.compare_spec x y); [subst; now rewrite Z.sub_diag|now rewrite Z.sgn_neg by lia|now rewrite Z.sgn_pos by lia]. Qed.
Lemma float_comp_sgn x y : float_comp x y = Z.sgn (float_order x - float_order y).
Proof.
  unfold float_comp. destruct (Z.ltb_spec (float_order x) (float_order y)); [now rewrite Z.sgn_neg by lia|]. destruct (Z.eqb_spec (float_order x) (float_order y)) as [->|]; [now rewrite Z.sub_diag|]. now rewrite Z.sgn_pos by lia.
Qed.
Lemma big_outside b : canonical b -> (BIG_SIGN b = true /\ bval b < - 2 ^ 59) \/ (BIG_SIGN b = false /\ 2 ^ 59 <= bval b).
Proof.
  intros ((Dg & Nm & Ps) & Hs & _). assert (N : ~ - 2 ^ 59 <= bval b < 2 ^ 59) by (rewrite <- ssmall_range, Hs; discriminate). unfold bval, sv in *. pose proof (val_bound _ Dg). destruct (BIG_SIGN b); [left|right]; split; auto; lia.
Qed.
Lemma lex_prefix x : forall y, lex x y = let m := Z.of_nat (Nat.min (length x) (length y)) in if lex_bits m x y =? 0 then Z.sgn (Z.of_nat (length x) - Z.of_nat (length y)) else lex_bits m x y.
Proof.
  unfold lex_bits. cbv zeta. induction x as [|a x IH]; intros [|b y]; cbn [length].
  - reflexivity.
  - cbn. now rewrite Z.sgn_neg by lia.
  - cbn. now rewrite Z.sgn_pos by lia.
  - rewrite !Nat2Z.id in *. cbn [Nat.min take lex]. destruct (a <? b); [reflexivity|]. destruct (a >? b); [reflexivity|]. rewrite IH, Nat2Z.id. 
    replace (Z.of_nat (Datatypes.S (length x)) - Z.of_nat (Datatypes.S (length y))) with (Z.of_nat (length x) - Z.of_nat (length y)) by lia. reflexivity.
Qed.
Definition bin_of (bytes : list Z) (k : Z) : list Z * Z * Z := if k =? 0 then (bytes, Z.of_nat (length bytes), 0) else (bytes, Z.of_nat (length bytes) - 1, k).
Definition bit_count (bytes : list Z) (k : Z) : Z := 8 * snd (fst (bin_of bytes k)) + snd (bin_of bytes k).
Lemma binary_take bytes k : bits_ok bytes k -> 0 <= bit_count bytes k <= 8 * Z.of_nat (length bytes) /\ binary_bits bytes k = take (Z.to_nat (bit_count bytes k)) (bits bytes).
Proof.
  intros [Hk Hne]. unfold bit_count, binary_bits, bin_of. destruct (Z.eqb_spec k 0) as [->|N]; cbn [fst snd].
  - split; [lia|]. rewrite take_ge; [reflexivity|]. rewrite bits_length. lia.
  - assert (0 < length bytes)%nat by (destruct bytes; [now destruct Hne|cbn; lia]). split; [lia|]. f_equal. lia.
Qed.
Lemma cmp_binaries_known a k b l : Forall byte a -> bits_ok a k -> Z.of_nat (length a) < 2 ^ 31 -> Forall byte b -> bits_ok b l -> Z.of_nat (length b) < 2 ^ 31 ->
  exists j, cmp_binaries (bin_of a k) (bin_of b l) = Got j /\ Z.sgn j = lex (binary_bits a k) (binary_bits b l).
Proof.
  intros Fa Ba La Fb Bb Lb. destruct (binary_take a k Ba) as [Ca ->], (binary_take b l Bb) as [Cb ->]. set (x := take _ (bits a)). set (y := take _ (bits b)).
  assert (Lx : Z.of_nat (length x) = bit_count a k) by (subst x; rewrite length_take, bits_length; lia). assert (Ly : Z.of_nat (length y) = bit_count b l) by (subst y; rewrite length_take, bits_length; lia).
  assert (Lm : forall m, m = Z.min (bit_count a k) (bit_count b l) -> lex_bits m x y = lex_bits m (bits a) (bits b)).
  { intros m ->. unfold lex_bits. subst x y. rewrite !take_take. f_equal; f_equal; lia. }
  rewrite lex_prefix, Lx, Ly. cbv zeta. replace (Z.of_nat (Nat.min (length x) (length y))) with (Z.min (bit_count a k) (bit_count b l)) by lia. rewrite Lm by reflexivity. clear Lm.
  assert (G : forall c j sa sb, Z.sgn c = lex_bits (Z.min (bit_count a k) (bit_count b l)) (bits a) (bits b) -> Z.sgn (sa - sb) = Z.sgn (bit_count a k - bit_count b l) -> - 2 ^ 63 <= sa - sb < 2 ^ 63 ->
    j = (if negb (c =? 0) then c else s64 (sa - sb)) ->
    Z.sgn j = if lex_bits (Z.min (bit_count a k) (bit_count b l)) (bits a) (bits b) =? 0 then Z.sgn (bit_count a k - bit_count b l) else lex_bits (Z.min (bit_count a k) (bit_count b l)) (bits a) (bits b)).
  { intros c j sa sb <- E Hs ->. destruct (Z.eqb_spec c 0) as [->|N]; cbn [negb]; [now rewrite s64_id|]. now rewrite (proj2 (Z.eqb_neq (Z.sgn c) 0)) by lia. }
  unfold cmp_binaries. unfold bit_count in *. destruct (bin_of a k) as [[ap sa] ka] eqn:Ea, (bin_of b l) as [[bp sb] kb] eqn:Eb. cbn [fst snd] in *.
  assert (Pa : ap = a /\ 0 <= ka < 8 /\ -1 <= sa < 2 ^ 31) by (destruct Ba; unfold bin_of in Ea; destruct (k =? 0); injection Ea as <- <- <-; splits; auto; lia).
  assert (Pb : bp = b /\ 0 <= kb < 8 /\ -1 <= sb < 2 ^ 31) by (destruct Bb; unfold bin_of in Eb; destruct (l =? 0); injection Eb as <- <- <-; splits; auto; lia).
  destruct Pa as (-> & Ka & Sa), Pb as (-> & Kb & Sb). destruct (Z.eqb_spec (Z.lor ka kb) 0) as [E|N].
  - apply Z.lor_eq_0_iff in E as [-> ->]. rewrite sys_memcmp_spec by (auto; lia). cbn [mbind decoded_bind]. eexists. split; [reflexivity|]. eapply (G _ _ sa sb); [|lia|lia|reflexivity].
    replace (8 * Z.min sa sb) with (Z.min (8 * sa + 0) (8 * sb + 0)) by lia.
    destruct (lex_range (take (Z.to_nat (Z.min (8 * sa + 0) (8 * sb + 0))) (bits a)) (take (Z.to_nat (Z.min (8 * sa + 0) (8 * sb + 0))) (bits b))) as [Ex|[Ex|Ex]]; unfold lex_bits; rewrite Ex; reflexivity.
  - rewrite !Z.shiftl_mul_pow2 by lia. replace (sa * 2 ^ 3 + ka) with (8 * sa + ka) by lia. replace (sb * 2 ^ 3 + kb) with (8 * sb + kb) by lia.
    destruct (erts_cmp_bits_spec a 0 b 0 (Z.min (8 * sa + ka) (8 * sb + kb))) as (c & -> & Ec); auto; try lia. rewrite !drop_0 in Ec. cbn [mbind decoded_bind]. eexists. split; [reflexivity|].
    eapply (G c _ (8 * sa + ka) (8 * sb + kb)); auto. lia.
Qed.

Section Loop.
Context {S : Type} `{AtomLaws S}.
Variable this_node : Z * Z.
Variable atoms : S.
Notation wf := (wf_term this_node atoms).
Notation key := (term_key this_node atoms).
Notation cmp_words := (cmp_words this_node atoms).
Notation cmp_turn := (cmp_turn this_node atoms).
Notation cmp_loop := (cmp_loop this_node atoms).

(** ** What a label compares *)
(** In [n] turns the comparison of two words is made: the next frame is taken
    when they are equal, or the loop ends. *)
Definition decides (h : heap) (l : cmp_label) (x y : list Z) (n : nat) : Prop :=
  forall fuel s, exists j, Z.sgn j = lex x y /\ cmp_loop (n + fuel) h l s = if lex x y =? 0 then cmp_loop fuel h pop_next s else Got j.
Lemma cmp_loop_turn fuel h l s : (forall j, l <> not_equal j) -> cmp_loop (1 + fuel) h l s = '(l', s') ← cmp_turn h l s; cmp_loop fuel h l' s'.
Proof. intros N. destruct l; try reflexivity. exfalso. eapply N. reflexivity. Qed.
Lemma decides_goto h j x y : Z.sgn j = lex x y -> decides h (ON_CMP_GOTO j) x y 0.
Proof.
  intros E fuel s. exists j. split; auto. rewrite <- E. unfold ON_CMP_GOTO. destruct (Z.eqb_spec j 0) as [->|N]; [reflexivity|]. rewrite (proj2 (Z.eqb_neq (Z.sgn j) 0)) by lia. now destruct fuel.
Qed.
Lemma decides_not_equal h j x y : j <> 0 -> Z.sgn j = lex x y -> decides h (not_equal j) x y 0.
Proof. intros N E. pose proof (decides_goto h j x y E) as D. unfold ON_CMP_GOTO in D. now rewrite (proj2 (Z.eqb_neq j 0)) in D. Qed.
Lemma decides_pop h x y : lex x y = 0 -> decides h pop_next x y 0.
Proof. intros E. apply (decides_goto h 0). now rewrite E. Qed.
Lemma decides_turn h l l' x y n : (forall j, l <> not_equal j) -> (forall s, cmp_turn h l s = Got (l', s)) -> decides h l' x y n -> decides h l x y (1 + n).
Proof. intros N E D fuel s. rewrite <- Nat.add_assoc, cmp_loop_turn, E by auto. cbn [mbind decoded_bind]. apply D. Qed.
(** A frame is pushed and taken again when the first words are equal. *)
Lemma decides_push h l l1 l2 f x y x' y' n m : (forall j, l <> not_equal j) -> (forall s, cmp_turn h l s = Got (l1, f :: s)) -> (forall s, cmp_turn h pop_next (f :: s) = Got (l2, s)) ->
  delimited x y -> decides h l1 x y n -> decides h l2 x' y' m -> decides h l (x ++ x') (y ++ y') (1 + (n + (1 + m))).
Proof.
  intros N E Ep Dl D1 D2 fuel s. rewrite <- Nat.add_assoc, cmp_loop_turn, E by auto. cbn [mbind decoded_bind]. rewrite <- Nat.add_assoc. destruct (D1 (1 + m + fuel)%nat (f :: s)) as (j & Ej & ->). rewrite (lex_app2 _ _ _ _ Dl).
  destruct (Z.eqb_spec (lex x y) 0) as [E0|N0].
  - rewrite <- Nat.add_assoc, cmp_loop_turn, Ep by discriminate. cbn [mbind decoded_bind]. apply D2.
  - exists j. split; auto. rewrite (proj2 (Z.eqb_neq _ _) N0). reflexivity.
Qed.
Lemma decides_same h l l' x y x' y' n : (forall j, l <> not_equal j) -> (forall s, cmp_turn h l s = Got (l', s)) -> lex x y = 0 -> delimited x y -> decides h l' x' y' n -> decides h l (x ++ x') (y ++ y') (1 + n).
Proof.
  intros N E E0 Dl D fuel s. rewrite <- Nat.add_assoc, cmp_loop_turn, E by auto. cbn [mbind decoded_bind]. rewrite (lex_app2 _ _ _ _ Dl), E0. apply D.
Qed.
Lemma decides_head h l x y a n : decides h l x y n -> decides h l (a :: x) (a :: y) n.
Proof. intros D fuel s. destruct (D fuel s) as (j & E & Ej). exists j. rewrite lex_num, Z.eqb_refl. auto. Qed.

(** ** Terms of different types *)
Definition kind (t : term) : Z :=
  match t with
  | SMALL_DEF _ | BIG_DEF _ => SMALL_TAG | FLOAT_DEF _ => FLOAT_TAG | ATOM_DEF _ => ATOM_TAG | NIL_DEF => NIL_TAG | LIST_DEF _ _ => LIST_TAG | TUPLE_DEF _ => TUPLE_TAG
  | MAP_DEF _ => MAP_TAG | BINARY_DEF _ _ => BINARY_TAG | PID_DEF _ _ => PID_TAG | PORT_DEF _ _ => PORT_TAG | REF_DEF _ _ => REF_TAG | EXPORT_DEF _ _ _ => EXPORT_TAG | FUN_DEF _ _ _ _ => FUN_TAG
  end.
Lemma key_head t : exists u, key t = - kind t :: u.
Proof. destruct t; cbn [term_key kind]; eauto. Qed.
Definition internal (tag : Z) : Z := if (tag =? EXTERNAL_PID_TAG) || (tag =? EXTERNAL_PORT_TAG) || (tag =? EXTERNAL_REF_TAG) then tag - 1 else if tag =? BIG_TAG then SMALL_TAG else tag.
Lemma kind_tag t : kind t = internal (tag_of t).
Proof. destruct t as [i|x|f|a| |hd tl|ts|kvs|bytes k|[n|] d|[n|] d|[n|] nums|m f ar|fe ar cr env]; reflexivity. Qed.
Definition tags : list Z := [0; 1; 2; 3; 4; 5; 6; 7; 8; 9; 10; 11; 12; 13; 14; 15; 16].
Lemma tag_range t : In (tag_of t) tags.
Proof. destruct t as [i|x|f|a| |hd tl|ts|kvs|bytes k|[n|] d|[n|] d|[n|] nums|m f ar|fe ar cr env]; cbn; tauto. Qed.
Lemma tag_order x y : In x tags -> In y tags -> internal x <> internal y ->
  (x =? SMALL_TAG) && (y =? BIG_TAG) = false /\ (x =? BIG_TAG) && (y =? SMALL_TAG) = false /\ Z.sgn (y - x) = Z.sgn (- internal x - - internal y).
Proof.
  intros Hx Hy N. assert (F : forallb (fun x => forallb (fun y => (internal x =? internal y) || negb ((x =? SMALL_TAG) && (y =? BIG_TAG)) && negb ((x =? BIG_TAG) && (y =? SMALL_TAG)) &&
    (Z.sgn (y - x) =? Z.sgn (- internal x - - internal y))) tags) tags = true) by reflexivity.
  rewrite forallb_forall in F. specialize (F x Hx). rewrite forallb_forall in F. specialize (F y Hy). rewrite orb_true_iff, !andb_true_iff, !negb_true_iff, !Z.eqb_eq in F. tauto.
Qed.
Lemma mixed_kinds lo hi h a b wa wb : rep [] lo hi h b wb -> kind a <> kind b -> exists l, mixed_types h wa (tag_of a) wb = Got l /\ decides h l (key a) (key b) 0.
Proof.
  intros R N. unfold mixed_types. rewrite (rep_tag _ _ _ _ _ R). cbn [mbind decoded_bind]. rewrite (kind_tag a), (kind_tag b) in N.
  destruct (tag_order (tag_of a) (tag_of b) (tag_range a) (tag_range b) N) as (-> & -> & E).
  eexists. split; [reflexivity|]. apply decides_goto. destruct (key_head a) as [u ->], (key_head b) as [v ->]. rewrite lex_num, E, (kind_tag a), (kind_tag b).
  rewrite (proj2 (Z.eqb_neq _ _)); [reflexivity|lia].
Qed.
Lemma words_mixed h wa wb ta tb : tag_val_def h wa = Got ta -> tag_val_def h wb = Got tb -> internal ta <> internal tb ->
  (forall p t, wa = make_boxed p -> h !! p = Some (THING t) -> exists o, binary_bytes h t = Got o /\ (ta = BINARY_TAG -> o <> None)) -> cmp_words h wa wb = mixed_types h wa ta wb.
Proof.
  intros Ta Tb N Bin. destruct wa as [i|x| |p|p|d|d|nx|n|nx'| |n'|t]; cbn [tag_val_def] in Ta; try discriminate Ta.
  5: cbn [boxed_val] in Ta; destruct (h !! p) as [hdr|] eqn:Hp; [|discriminate Ta]; cbn [access mbind decoded_bind] in Ta; destruct hdr as [| | | | | | | |n2| | | |t]; try discriminate Ta;
     [| |destruct (Bin p t eq_refl Hp) as (o & Eo & No); destruct t as [| | | | | |an ? ?| |]; [| | | | | |destruct an| |]]; cbn [thing_tag] in Ta.
  all: injection Ta as <-.
  all: destruct wb as [j|y| |q|q|e|e|ny|m0|ny| |m1|u]; cbn [tag_val_def] in Tb; try discriminate Tb.
  all: try (cbn [boxed_val] in Tb; destruct (h !! q) as [hdr|] eqn:Hq; [|discriminate Tb]; cbn [access mbind decoded_bind] in Tb; destruct hdr as [| | | | | | | |m2| | | |u]; try discriminate Tb;
     [| |destruct u as [| | | | | |bn ? ?| |]; [| | | | | |destruct bn| |]]; cbn [thing_tag] in Tb).
  all: injection Tb as <-; try (exfalso; apply N; reflexivity).
  all: unfold TermCompare.cmp_words, cmp_boxed, pid_of, port_of, boxed_val, header_of, boxed_val; rewrite ?Hp, ?Hq; cbn [access mbind decoded_bind]; unfold cmp_thing, header_of, boxed_val, pid_of, port_of, boxed_val; rewrite ?Hq; cbn [access mbind decoded_bind].
  all: try reflexivity.
  all: rewrite ?Eo; cbn [mbind decoded_bind]; destruct o; try reflexivity; exfalso; now apply No.
Qed.
Lemma rep_binary lo hi h a p t : rep [] lo hi h a (make_boxed p) -> h !! p = Some (THING t) ->
  exists o, binary_bytes h t = Got o /\ (tag_of a = BINARY_TAG -> o <> None).
Proof.
  intros R Hp. pose proof (rep_tag _ _ _ _ _ R) as T. cbn in T. rewrite Hp in T. cbn in T. destruct t; cbn [binary_bytes thing_tag] in *; try (eexists; split; [reflexivity|]); try discriminate; try (injection T as <-; discriminate); try (destruct n; injection T as <-; discriminate).
  destruct a; cbn [tag_of] in T; try discriminate T; try (destruct n; discriminate T). cbn [rep] in R. destruct (k =? 0).
  - destruct R as (q & E & [_ A]). injection E as <-. congruence.
  - destruct R as (q & q' & E & [_ A] & [_ A']). injection E as <-. rewrite Hp in A. injection A as -> -> ->. rewrite A'. cbn [access mbind decoded_bind]. eexists. split; [reflexivity|discriminate].
Qed.

(** ** Terms of the same type *)
Definition jumps (h : heap) (a b : term) (wa wb : word) : Prop := exists l, cmp_words h wa wb = Got l /\ decides h l (key a) (key b) 0.
Lemma jumps_kinds lo hi lo' hi' h a b wa wb : rep [] lo hi h a wa -> rep [] lo' hi' h b wb -> kind a <> kind b -> jumps h a b wa wb.
Proof.
  intros Ra Rb N. destruct (mixed_kinds lo' hi' h a b wa wb Rb N) as (l & El & D). exists l. split; auto. rewrite <- El. apply (words_mixed h wa wb _ (tag_of b)); eauto using rep_tag.
  - now rewrite <- !kind_tag.
  - intros p t -> Hp. eapply rep_binary; eauto.
Qed.
Lemma jumps_on h a b wa wb x : cmp_words h wa wb = on_cmp x -> (exists j, x = Got j /\ Z.sgn j = lex (key a) (key b)) -> jumps h a b wa wb.
Proof. intros E (j & -> & Ej). exists (ON_CMP_GOTO j). split; [exact E|now apply decides_goto]. Qed.
Lemma jumps_goto h a b wa wb j : cmp_words h wa wb = Got (ON_CMP_GOTO j) -> Z.sgn j = lex (key a) (key b) -> jumps h a b wa wb.
Proof. intros E Ej. apply (jumps_on h a b wa wb (Got j)); eauto. Qed.
(** The first word of the object. *)
Ltac at_header H := destruct H as [_ H].
Ltac object Ra Rb :=
  cbn [rep] in Ra, Rb; destruct Ra as (ad & -> & Ra), Rb as (bd & -> & Rb); at_header Ra; at_header Rb;
  unfold TermCompare.cmp_words, cmp_boxed, boxed_val; rewrite ?Ra, ?Rb; cbn [access mbind decoded_bind]; unfold cmp_thing, header_of, boxed_val; rewrite ?Rb; cbn [access mbind decoded_bind].
Lemma jumps_integers lo hi lo' hi' h a b wa wb : wf a -> wf b -> rep [] lo hi h a wa -> rep [] lo' hi' h b wb -> kind a = SMALL_TAG -> kind b = SMALL_TAG -> jumps h a b wa wb.
Proof.
  intros Wa Wb Ra Rb Ka Kb. destruct a as [i|x| | | | | | | | | | | |]; try discriminate Ka; destruct b as [j|y| | | | | | | | | | | |]; try discriminate Kb; cbn [wf_term] in Wa, Wb.
  - cbn in Ra, Rb. subst. eapply (jumps_goto h _ _ _ _ (i - j)); [reflexivity|]. cbn [term_key]. now rewrite lex_num, Z.eqb_refl, lex_one.
  - cbn in Ra. destruct Rb as (q & -> & [_ Rb]). subst. exists (not_equal (if BIG_SIGN y then 1 else -1)). split.
    + cbn. now rewrite Rb.
    + apply ssmall_range in Wa. cbn [term_key]. apply decides_not_equal; [now destruct (BIG_SIGN y)|]. rewrite lex_num, Z.eqb_refl, lex_one.
      destruct (big_outside y Wb) as [[-> Hb]|[-> Hb]]; [now rewrite (Z.sgn_pos (_ - _)) by lia|now rewrite (Z.sgn_neg (_ - _)) by lia].
  - cbn in Rb. destruct Ra as (q & -> & [_ Ra]). subst. exists (not_equal (if BIG_SIGN x then -1 else 1)). split.
    + unfold TermCompare.cmp_words, cmp_boxed. rewrite Ra. cbn. now rewrite Ra.
    + apply ssmall_range in Wb. cbn [term_key]. apply decides_not_equal; [now destruct (BIG_SIGN x)|]. rewrite lex_num, Z.eqb_refl, lex_one.
      destruct (big_outside x Wa) as [[-> Hb]|[-> Hb]]; [now rewrite (Z.sgn_neg (_ - _)) by lia|now rewrite (Z.sgn_pos (_ - _)) by lia].
  - eapply (jumps_goto h _ _ _ _ (big_comp x y)); [object Ra Rb; reflexivity|]. cbn [term_key]. rewrite lex_num, Z.eqb_refl, lex_one. rewrite big_comp_cmp by (apply Wa || apply Wb). rewrite cmpz_sgn. apply Z.sgn_sgn.
Qed.
Lemma binary_header lo hi h bytes k w : rep [] lo hi h (BINARY_DEF bytes k) w -> exists p t, w = make_boxed p /\ h !! p = Some (THING t) /\ binary_bytes h t = Got (Some (bin_of bytes k)) /\ thing_tag t = BINARY_TAG.
Proof.
  cbn [rep]. unfold bin_of. destruct (k =? 0).
  - intros (p & -> & [_ Hp]). exists p, (T_bin bytes). auto.
  - intros (p & q & -> & [_ Hq] & [_ Hp]). exists q, (T_sub_bin p (Z.of_nat (length bytes) - 1) k). splits; auto. cbn. now rewrite Hp.
Qed.
Lemma jumps_binary lo hi lo' hi' h bytes k bytes' k' wa wb : wf (BINARY_DEF bytes k) -> wf (BINARY_DEF bytes' k') -> Z.of_nat (length bytes) < 2 ^ 31 -> Z.of_nat (length bytes') < 2 ^ 31 ->
  rep [] lo hi h (BINARY_DEF bytes k) wa -> rep [] lo' hi' h (BINARY_DEF bytes' k') wb -> jumps h (BINARY_DEF bytes k) (BINARY_DEF bytes' k') wa wb.
Proof.
  intros [Fa Ba] [Fb Bb] La Lb Ra Rb. destruct (binary_header _ _ _ _ _ _ Ra) as (p & t & -> & Hp & Et & Tt), (binary_header _ _ _ _ _ _ Rb) as (q & u & -> & Hq & Eu & _).
  eapply (jumps_on h _ _ _ _ (cmp_binaries (bin_of bytes k) (bin_of bytes' k'))).
  - unfold TermCompare.cmp_words, cmp_boxed. rewrite Hp. cbn [access mbind decoded_bind]. unfold cmp_thing, header_of, boxed_val. rewrite Hq. cbn [access mbind decoded_bind].
    destruct t as [| | | | | |n ? ?| |]; try discriminate Tt; [| |destruct n; discriminate Tt]; rewrite Et, Eu; reflexivity.
  - destruct (cmp_binaries_known bytes k bytes' k') as (j & E & Ej); auto. exists j. split; auto. cbn [term_key]. rewrite lex_num, Z.eqb_refl, lex_closed by apply bits_bytes. exact Ej.
Qed.
Lemma jumps_nodes lo hi lo' hi' h a b wa wb : kind a = PID_TAG \/ kind a = PORT_TAG \/ kind a = REF_TAG -> kind a = kind b -> wf a -> comparable a -> wf b -> comparable b ->
  rep [] lo hi h a wa -> rep [] lo' hi' h b wb -> jumps h a b wa wb.
Proof.
  intros K E Wa Ca Wb Cb Ra Rb. destruct a as [| | | | | | | | |n d|n d|n nums| |]; try (destruct K as [K|[K|K]]; discriminate K); destruct b as [| | | | | | | | |n' d'|n' d'|n' nums'| |]; try discriminate E; cbn [wf_term comparable] in *; clear K E.
  - destruct Wa as [Na _], Wb as [Nb _]. apply (jumps_on h _ _ _ _ (pid_common this_node atoms n d n' d')).
    + destruct n as [n|], n' as [n'|]; cbn [rep pid_word] in Ra, Rb.
      * destruct Ra as (p & -> & [_ Hp]), Rb as (q & -> & [_ Hq]). unfold TermCompare.cmp_words, cmp_boxed. rewrite Hp. cbn. rewrite Hq. reflexivity.
      * destruct Ra as (p & -> & [_ Hp]). subst wb. unfold TermCompare.cmp_words, cmp_boxed. rewrite Hp. reflexivity.
      * destruct Rb as (q & -> & [_ Hq]). subst wa. cbn. rewrite Hq. reflexivity.
      * subst. reflexivity.
    + cbn [term_key]. rewrite lex_num, Z.eqb_refl. now apply pid_common_known.
  - destruct Wa as [Na Da], Wb as [Nb Db]. unfold ERTS_MAX_PORT_NUMBER in *. apply (jumps_on h _ _ _ _ (port_common this_node atoms n d n' d')).
    + destruct n as [n|], n' as [n'|]; cbn [rep] in Ra, Rb.
      * destruct Ra as (p & -> & [_ Hp]), Rb as (q & -> & [_ Hq]). unfold TermCompare.cmp_words, cmp_boxed. rewrite Hp. cbn. rewrite Hq. reflexivity.
      * destruct Ra as (p & -> & [_ Hp]). subst wb. unfold TermCompare.cmp_words, cmp_boxed. rewrite Hp. reflexivity.
      * destruct Rb as (q & -> & [_ Hq]). subst wa. cbn. rewrite Hq. reflexivity.
      * subst. reflexivity.
    + cbn [term_key]. rewrite lex_num, Z.eqb_refl. apply port_common_known; auto; lia.
  - destruct Wa as [Na _], Wb as [Nb _]. apply (jumps_on h _ _ _ _ (ref_common this_node atoms n nums n' nums')).
    + destruct Ra as (p & -> & [_ Hp]), Rb as (q & -> & [_ Hq]). unfold TermCompare.cmp_words, cmp_boxed. rewrite Hp. cbn. rewrite Hq. reflexivity.
    + cbn [term_key]. rewrite lex_num, Z.eqb_refl. now apply ref_common_known.
Qed.
Definition leaf (t : term) : Prop := match t with LIST_DEF _ _ | TUPLE_DEF _ | MAP_DEF _ | FUN_DEF _ _ _ _ => False | _ => True end.
Lemma jumps_leaf lo hi lo' hi' h a b wa wb : leaf a -> wf a -> comparable a -> wf b -> comparable b -> rep [] lo hi h a wa -> rep [] lo' hi' h b wb -> jumps h a b wa wb.
Proof.
  intros L Wa Ca Wb Cb Ra Rb. destruct (decide (kind a = kind b)) as [E|N]; [|eapply jumps_kinds; eauto].
  destruct a as [i|x|f|a| |hd tl|ts|kvs|bytes k|n d|n d|n nums|m f ar|fe ar cr env]; try destruct L;
    try (eapply jumps_integers; eauto; fail); try (eapply jumps_nodes; eauto; cbn; auto; fail);
    destruct b as [i'|x'|f'|b| |hd' tl'|ts'|kvs'|bytes' k'|n' d'|n' d'|n' nums'|m' f' ar'|fe' ar' cr' env']; try discriminate E; clear E; cbn [wf_term comparable] in *.
  - eapply (jumps_goto h _ _ _ _ (float_comp f f')); [object Ra Rb; reflexivity|]. cbn [term_key]. rewrite lex_num, Z.eqb_refl, lex_one, float_comp_sgn. apply Z.sgn_sgn.
  - cbn in Ra, Rb. subst. apply (jumps_on h _ _ _ _ (cmp_atoms atoms a b)); [reflexivity|]. destruct (cmp_atoms_known atoms a b Wa Wb) as (j & -> & Ej). exists j. split; auto.
    cbn [term_key]. rewrite lex_num, Z.eqb_refl, lex_closed by (now apply name_bytes). exact Ej.
  - cbn in Ra, Rb. subst. apply (jumps_goto h _ _ _ _ 0); reflexivity.
  - eapply jumps_binary; eauto.
  - destruct Wa as (A1 & A2 & A3), Wb as (B1 & B2 & B3). apply (jumps_on h _ _ _ _ (cmp_exports atoms m f ar m' f' ar')); [object Ra Rb; reflexivity|].
    cbn [term_key]. rewrite lex_num, Z.eqb_refl. now apply cmp_exports_known.
Qed.
End Loop.

Section Proof.
Context {S : Type} `{AtomLaws S}.
Variable this_node : Z * Z.
Variable atoms : S.
Variable h : heap.
Notation wf := (wf_term this_node atoms).
Notation key := (term_key this_node atoms).
Notation cmp_words := (cmp_words this_node atoms).
Notation cmp_turn := (cmp_turn this_node atoms).
Notation cmp_loop := (cmp_loop this_node atoms).
Notation decides := (decides this_node atoms h).
Notation jumps := (jumps this_node atoms h).
Notation terms ts := (flat_map key ts).
Definition fit (t : term) : Prop := wf t /\ comparable t.

(** ** Terms, one after the other *)
Definition ne_decided (a : term) : Prop :=
  forall b wa wb lo hi lo' hi', fit b -> rep [] lo hi h a wa -> rep [] lo' hi' h b wb -> is_same wa wb = false ->
    exists n, (n <= 5 * term_size a)%nat /\ decides (tailrecur_ne wa wb) (key a) (key b) n.
Definition cells_decided (a : term) : Prop :=
  forall b p q lo hi lo' hi', fit b -> rep [] lo hi h a (make_list p) -> rep [] lo' hi' h b (make_list q) ->
    exists n, (1 + n <= 5 * term_size a)%nat /\ decides (cells p q) (key a) (key b) n.
Lemma is_same_eq a b : is_same a b = true -> a = b.
Proof. destruct a, b; cbn; try discriminate; auto; rewrite Z.eqb_eq; intros ->; reflexivity. Qed.
Lemma same_terms lo hi lo' hi' a b wa wb : rep [] lo hi h a wa -> rep [] lo' hi' h b wb -> is_same wa wb = true -> lex (key a) (key b) = 0.
Proof. intros Ra Rb ->%is_same_eq. rewrite (rep_unique _ _ _ _ _ _ _ _ Ra Rb). apply lex_refl. Qed.
Lemma turn_decided a b wa wb lo hi lo' hi' : ne_decided a -> fit b -> rep [] lo hi h a wa -> rep [] lo' hi' h b wb -> exists n, (n <= 1 + 5 * term_size a)%nat /\ decides (tailrecur wa wb) (key a) (key b) n.
Proof.
  intros D F Ra Rb. destruct (is_same wa wb) eqn:E.
  - exists 1%nat. split; [lia|]. apply (decides_turn _ _ _ _ pop_next _ _ 0); [discriminate|intros s; cbn; now rewrite E|]. apply decides_pop. eapply same_terms; eauto.
  - destruct (D b wa wb lo hi lo' hi' F Ra Rb E) as (n & Hn & Dn). exists (1 + n)%nat. split; [lia|]. apply (decides_turn _ _ _ _ (tailrecur_ne wa wb)); [discriminate| |exact Dn]. intros s. cbn. now rewrite E.
Qed.
Lemma key_delim a b : fit a -> fit b -> delimited (key a) (key b).
Proof. intros [Wa _] [Wb _]. now apply key_delimited. Qed.
(** Numbers that are compared in the array itself. *)
Lemma decides_inline l l' j x y x' y' n : (forall j, l <> not_equal j) -> (forall s, cmp_turn h l s = Got (if negb (j =? 0) then (not_equal j, s) else (l', s))) -> Z.sgn j = lex x y -> delimited x y ->
  decides l' x' y' n -> decides l (x ++ x') (y ++ y') (1 + n).
Proof.
  intros N E Ej Dl D fuel s. rewrite <- Nat.add_assoc, cmp_loop_turn, E by auto. cbn [mbind decoded_bind]. rewrite (lex_app2 _ _ _ _ Dl), <- Ej. destruct (Z.eqb_spec j 0) as [->|Nj]; cbn [negb]; [apply D|].
  rewrite (proj2 (Z.eqb_neq (Z.sgn j) 0)) by lia. exists j. split; [reflexivity|]. rewrite (proj2 (Z.eqb_neq (Z.sgn j) 0)) by lia. now destruct (n + fuel)%nat.
Qed.
Lemma array_words aa bb i a b : h !! aa = Some a -> h !! bb = Some b -> i <> 1 -> is_same a b = false -> forall s, cmp_turn h (term_array aa bb i) s =
  match a, b with
  | make_atom x, make_atom y => j ← cmp_atoms atoms x y; Got (if negb (j =? 0) then (not_equal j, s) else (term_array (aa + 1) (bb + 1) (i - 1), s))
  | make_small x, make_small y => Got (if negb (x - y =? 0) then (not_equal (x - y), s) else (term_array (aa + 1) (bb + 1) (i - 1), s))
  | _, _ => Got (tailrecur_ne a b, CMP_ARRAY (aa + 1) (bb + 1) (i - 1) :: s)
  end.
Proof.
  intros Ha Hb Hi E s. cbn [TermCompare.cmp_turn]. unfold get_at. rewrite Ha, Hb. cbn [access mbind decoded_bind]. rewrite (proj2 (Z.eqb_neq _ _)) by lia. cbv zeta. now rewrite E.
Qed.
Lemma array_turn aa bb i a b : h !! aa = Some a -> h !! bb = Some b -> i <> 1 -> is_same a b = false ->
  (exists x y, a = make_atom x /\ b = make_atom y) \/ (exists x y, a = make_small x /\ b = make_small y) \/
    forall s, cmp_turn h (term_array aa bb i) s = Got (tailrecur_ne a b, CMP_ARRAY (aa + 1) (bb + 1) (i - 1) :: s).
Proof. intros Ha Hb Hi E. pose proof (array_words aa bb i a b Ha Hb Hi E) as G. destruct a, b; eauto 6. Qed.
Lemma array_decided ts : Forall ne_decided ts -> forall ts' aa bb lo hi lo' hi', ts <> [] -> length ts = length ts' -> Forall fit ts -> Forall fit ts' ->
  slots lo hi h (rep [] lo hi h) aa ts -> slots lo' hi' h (rep [] lo' hi' h) bb ts' ->
  exists n, (n <= list_sum (map (fun t => 2 + 5 * term_size t) ts))%nat /\ decides (term_array aa bb (Z.of_nat (length ts))) (terms ts) (terms ts') n.
Proof.
  induction 1 as [|t ts Dt F IH]; intros [|t' ts'] aa bb lo hi lo' hi' Ne Hl Ft Ft' Sa Sb; try discriminate; [now destruct Ne|]. injection Hl as Hl. apply Forall_cons in Ft as [Ht Ft]. apply Forall_cons in Ft' as [Ht' Ft'].
  destruct Sa as [(wa & [_ Ha] & Ra) Sa], Sb as [(wb & [_ Hb] & Rb) Sb]. cbn [map flat_map length]. rewrite sum_cons. pose proof (key_delim t t' Ht Ht') as Dl. destruct ts as [|t2 ts].
  - destruct ts' as [|]; [|discriminate]. destruct (turn_decided t t' wa wb lo hi lo' hi') as (n & Hn & Dn); auto. exists (1 + n)%nat. cbn [flat_map length map list_sum foldr]. rewrite !app_nil_r. split; [lia|].
    apply (decides_turn _ _ _ _ (tailrecur wa wb)); [discriminate| |exact Dn]. intros s. cbn [TermCompare.cmp_turn]. unfold get_at. now rewrite Ha, Hb.
  - destruct (IH ts' (aa + 1) (bb + 1) lo hi lo' hi') as (m & Hm & Dm); auto. set (ts2 := t2 :: ts) in *. assert (Hi : Z.of_nat (Datatypes.S (length ts2)) - 1 = Z.of_nat (length ts2)) by lia.
    assert (Hi1 : Z.of_nat (Datatypes.S (length ts2)) <> 1) by (subst ts2; cbn [length]; lia). destruct (is_same wa wb) eqn:Es.
    + exists (1 + m)%nat. split; [lia|]. apply (decides_same _ _ _ _ (term_array (aa + 1) (bb + 1) (Z.of_nat (length ts2)))); [discriminate| |eapply same_terms; eauto|exact Dl|exact Dm].
      intros s. cbn [TermCompare.cmp_turn]. unfold get_at. rewrite Ha, Hb. cbn [access mbind decoded_bind]. rewrite (proj2 (Z.eqb_neq _ _)) by lia. cbv zeta. now rewrite Es, Hi.
    + destruct (array_turn aa bb (Z.of_nat (Datatypes.S (length ts2))) wa wb Ha Hb Hi1 Es) as [(x & y & -> & ->)|[(x & y & -> & ->)|E]].
      * pose proof (rep_tag _ _ _ _ _ Ra) as Ta. pose proof (rep_tag _ _ _ _ _ Rb) as Tb. destruct t as [| | |u| | | | | |[]|[]|[]| |]; try discriminate Ta. destruct t' as [| | |v| | | | | |[]|[]|[]| |]; try discriminate Tb. injection Ra as <-. injection Rb as <-.
        destruct (cmp_atoms_known atoms x y (proj1 Ht) (proj1 Ht')) as (j & Ej & Es'). exists (1 + m)%nat. split; [lia|].
        apply (decides_inline _ (term_array (aa + 1) (bb + 1) (Z.of_nat (length ts2))) j); [discriminate| | |exact Dl|exact Dm].
        -- intros s. rewrite (array_words aa bb _ _ _ Ha Hb Hi1 Es). rewrite Ej, Hi. reflexivity.
        -- rewrite Es'. cbn [term_key]. rewrite lex_num, Z.eqb_refl. symmetry. apply lex_closed; apply name_bytes; [apply Ht|apply Ht'].
      * pose proof (rep_tag _ _ _ _ _ Ra) as Ta. pose proof (rep_tag _ _ _ _ _ Rb) as Tb. destruct t as [u| | | | | | | | |[]|[]|[]| |]; try discriminate Ta. destruct t' as [v| | | | | | | | |[]|[]|[]| |]; try discriminate Tb. injection Ra as <-. injection Rb as <-.
        exists (1 + m)%nat. split; [lia|]. apply (decides_inline _ (term_array (aa + 1) (bb + 1) (Z.of_nat (length ts2))) (x - y)); [discriminate| | |exact Dl|exact Dm].
        -- intros s. rewrite (array_words aa bb _ _ _ Ha Hb Hi1 Es). now rewrite Hi.
        -- cbn [term_key]. now rewrite lex_num, Z.eqb_refl, lex_one.
      * destruct (Dt t' wa wb lo hi lo' hi' Ht' Ra Rb Es) as (n & Hn & Dn). exists (1 + (n + (1 + m)))%nat. split; [lia|].
        apply (decides_push _ _ _ _ (tailrecur_ne wa wb) (term_array (aa + 1) (bb + 1) (Z.of_nat (length ts2))) (CMP_ARRAY (aa + 1) (bb + 1) (Z.of_nat (length ts2)))); [discriminate| |reflexivity|exact Dl|exact Dn|exact Dm]. intros s. now rewrite E, Hi.
Qed.

(** ** Every term *)
Lemma ne_jumps a b wa wb : jumps a b wa wb -> decides (tailrecur_ne wa wb) (key a) (key b) 1.
Proof. intros (l & E & D). apply (decides_turn _ _ _ _ l _ _ 0); [discriminate| |exact D]. intros s. cbn [TermCompare.cmp_turn]. now rewrite E. Qed.
Lemma ne_words wa wb l x y n : cmp_words h wa wb = Got l -> decides l x y n -> decides (tailrecur_ne wa wb) x y (1 + n).
Proof. intros E D. apply (decides_turn _ _ _ _ l); [discriminate| |exact D]. intros s. cbn [TermCompare.cmp_turn]. now rewrite E. Qed.
Lemma not_list_cells a p : (forall hd tl, a <> LIST_DEF hd tl) -> forall lo hi, ~ rep [] lo hi h a (make_list p).
Proof. intros N lo hi R. pose proof (rep_tag _ _ _ _ _ R) as T. destruct a as [| | | | | | | | |[]|[]|[]| |]; try discriminate T. eapply N. reflexivity. Qed.
Lemma leaf_decided a : leaf a -> fit a -> ne_decided a /\ cells_decided a.
Proof.
  intros L [W C]. split.
  - intros b wa wb lo hi lo' hi' [Wb Cb] Ra Rb E. exists 1%nat. split; [destruct a; cbn; lia|]. apply ne_jumps. eapply jumps_leaf; eauto.
  - intros b p q lo hi lo' hi' _ Ra. exfalso. eapply not_list_cells; [|exact Ra]. intros hd tl ->. destruct L.
Qed.
(** An object with an array, and another kind of term. *)
Lemma compound_decided a : (forall hd tl, a <> LIST_DEF hd tl) -> (forall b wa wb lo hi lo' hi', fit b -> kind a = kind b -> rep [] lo hi h a wa -> rep [] lo' hi' h b wb ->
    exists n, (n <= 5 * term_size a)%nat /\ decides (tailrecur_ne wa wb) (key a) (key b) n) -> ne_decided a /\ cells_decided a.
Proof.
  intros N D. split.
  - intros b wa wb lo hi lo' hi' F Ra Rb E. destruct (decide (kind a = kind b)) as [K|K]; [eapply D; eauto|]. exists 1%nat. split; [destruct a; cbn; lia|]. apply ne_jumps. eapply jumps_kinds; eauto.
  - intros b p q lo hi lo' hi' _ Ra. exfalso. eapply not_list_cells; [exact N|exact Ra].
Qed.
Lemma sum_bound {A} (f : A -> nat) l : (list_sum (map (fun t => 2 + 5 * f t) l) <= 5 * list_sum (map (fun t => Datatypes.S (f t)) l))%nat.
Proof. induction l as [|x l IH]; cbn [map]; rewrite ?sum_cons; [cbn; lia|lia]. Qed.
(** Sizes are compared, then the elements. *)
Lemma sized_decided n m (x y : list Z) l k : - 2 ^ 31 <= n - m < 2 ^ 31 -> (n = m -> exists k', (k' <= k)%nat /\ decides l x y k') ->
  exists k', (k' <= k)%nat /\ decides (if negb (n =? m) then not_equal (s32 (n - m)) else l) (n :: x) (m :: y) k'.
Proof.
  intros Hr D. destruct (Z.eqb_spec n m) as [->|N]; cbn [negb].
  - destruct (D eq_refl) as (k' & Hk & Dk). exists k'. split; auto. now apply decides_head.
  - exists 0%nat. split; [lia|]. assert (E : s32 (n - m) = n - m) by (unfold s32, u32; cbv zeta; destruct (Z.ltb_spec ((n - m) mod 2 ^ 32) (2 ^ 31)); lia).
    rewrite E. apply decides_not_equal; [lia|]. rewrite lex_num, (proj2 (Z.eqb_neq n m)) by auto. reflexivity.
Qed.
Lemma elements_decided ts : Forall ne_decided ts -> forall ts' aa bb lo hi lo' hi', length ts = length ts' -> Forall fit ts -> Forall fit ts' ->
  slots lo hi h (rep [] lo hi h) aa ts -> slots lo' hi' h (rep [] lo' hi' h) bb ts' ->
  exists n, (n <= list_sum (map (fun t => 2 + 5 * term_size t) ts))%nat /\ decides (if Z.of_nat (length ts) =? 0 then pop_next else term_array aa bb (Z.of_nat (length ts))) (terms ts) (terms ts') n.
Proof.
  intros D ts' aa bb lo hi lo' hi' Hl F F' Sa Sb. destruct ts as [|t ts].
  - destruct ts'; [|discriminate]. exists 0%nat. split; [lia|]. now apply decides_pop.
  - change (Z.of_nat (length (t :: ts)) =? 0) with false. cbv iota. eapply array_decided; eauto.
Qed.
Lemma all_fit ts : all_of wf ts -> all_of comparable ts -> Forall fit ts.
Proof. rewrite !all_of_Forall, !Forall_forall. unfold fit. auto. Qed.
Lemma tuple_decided ts : Forall ne_decided ts -> fit (TUPLE_DEF ts) -> forall b wa wb lo hi lo' hi', fit b -> kind (TUPLE_DEF ts) = kind b -> rep [] lo hi h (TUPLE_DEF ts) wa -> rep [] lo' hi' h b wb ->
    exists n, (n <= 1 + list_sum (map (fun t => 2 + 5 * term_size t) ts))%nat /\ decides (tailrecur_ne wa wb) (key (TUPLE_DEF ts)) (key b) n.
Proof.
  intros D [W [Lt C]] b wa wb lo hi lo' hi' [Wb Cb] K Ra Rb. destruct b as [| | | | | |ts'| | | | | | |]; try discriminate K. destruct Cb as [Lt' Cb]. destruct Ra as (p & -> & [_ Hp] & Sa), Rb as (q & -> & [_ Hq] & Sb).
  destruct (sized_decided (Z.of_nat (length ts)) (Z.of_nat (length ts')) (terms ts) (terms ts') (if Z.of_nat (length ts) =? 0 then pop_next else term_array (p + 1) (q + 1) (Z.of_nat (length ts)))
    (list_sum (map (fun t => 2 + 5 * term_size t)%nat ts)) ltac:(lia)) as (k & Hk & Dk).
  - intros E. eapply elements_decided; eauto using all_fit. lia.
  - exists (1 + k)%nat. split; [lia|]. cbn [term_key]. apply (decides_head _ _ _ _ _ _ (- TUPLE_TAG)) in Dk. revert Dk. apply ne_words. unfold TermCompare.cmp_words, cmp_boxed. rewrite Hp. cbn [access mbind decoded_bind].
    unfold header_of, boxed_val. rewrite Hq. cbn [access mbind decoded_bind]. destruct (negb _); [reflexivity|]. destruct (_ =? 0); reflexivity.
Qed.
(** The keys of a map are the elements of a tuple, before the values in the array. *)
Lemma pairs_fit kvs : fit (MAP_DEF kvs) -> fit (TUPLE_DEF (map fst kvs)) /\ Forall fit (map snd kvs).
Proof.
  intros [W [L C]]. cbn [wf_term] in W. rewrite all_of_Forall, Forall_forall in W, C. split.
  - split; [|split; [rewrite length_map; exact L|]]; apply all_of_Forall, Forall_forall; intros x (kv & -> & Hx)%list_elem_of_fmap; [apply W|apply C]; exact Hx.
  - apply Forall_forall. intros x (kv & -> & Hx)%list_elem_of_fmap. split; [apply W|apply C]; exact Hx.
Qed.
Lemma decides_tail l a x y n : decides l (a :: x) (a :: y) n -> decides l x y n.
Proof. intros D fuel s. destruct (D fuel s) as (j & E & Ej). rewrite lex_num, Z.eqb_refl in *. exists j. auto. Qed.
Lemma keys_slots lo hi m k n ks vs : n = Z.of_nat (length ks) -> at_word lo hi h (m + 2) (make_boxed k) -> at_word lo hi h k (make_arityval n) -> slots lo hi h (rep [] lo hi h) (k + 1) ks ->
  slots lo hi h (rep [] lo hi h) (m + 3) vs -> slots lo hi h (rep [] lo hi h) (m + 2) (TUPLE_DEF ks :: vs).
Proof.
  intros -> Bk Bz Sk Sv. cbn [slots]. split; [exists (make_boxed k); split; auto; cbn [rep]; eauto|]. now replace (m + 2 + 1) with (m + 3) by lia.
Qed.
Lemma flat_map_map_key {A} (f : A -> term) l : terms (map f l) = flat_map (fun x => key (f x)) l.
Proof. induction l as [|x l IH]; [reflexivity|]. cbn [map flat_map]. now rewrite IH. Qed.
Lemma map_turns kv kvs : (list_sum (map (fun t => 2 + 5 * term_size t) (TUPLE_DEF (map fst (kv :: kvs)) :: map snd (kv :: kvs))) <= 5 * term_size (MAP_DEF (kv :: kvs)) - 1)%nat.
Proof.
  cbn [map term_size fst snd]. rewrite !sum_cons. assert (G : (list_sum (map (fun t => 2 + 5 * term_size t) (map snd kvs)) + 5 * list_sum (map (fun t => Datatypes.S (term_size t)) (map fst kvs)) <=
    5 * list_sum (map (fun kv => Datatypes.S (Datatypes.S (term_size (fst kv) + term_size (snd kv)))) kvs))%nat); [|lia].
  induction kvs as [|[x y] kvs IH]; [cbn; lia|]. cbn [map fst snd]. rewrite !sum_cons. lia.
Qed.
Lemma map_decided kvs : Forall (fun kv => ne_decided (fst kv) /\ ne_decided (snd kv)) kvs -> fit (MAP_DEF kvs) -> forall b wa wb lo hi lo' hi', fit b -> kind (MAP_DEF kvs) = kind b ->
  rep [] lo hi h (MAP_DEF kvs) wa -> rep [] lo' hi' h b wb -> exists n, (n <= 5 * term_size (MAP_DEF kvs))%nat /\ decides (tailrecur_ne wa wb) (key (MAP_DEF kvs)) (key b) n.
Proof.
  intros D Fa b wa wb lo hi lo' hi' Fb K Ra Rb. destruct b as [| | | | | | |kvs'| | | | | |]; try discriminate K. destruct (pairs_fit kvs Fa) as [Fk Fv], (pairs_fit kvs' Fb) as [Fk' Fv']. destruct Fa as [_ [Lt _]], Fb as [_ [Lt' _]].
  destruct Ra as (m & k & -> & (_ & v & Hv & Ev) & [_ Hn] & Bk & Bz & Sk & Sv), Rb as (m' & k' & -> & (_ & v' & Hv' & Ev') & [_ Hn'] & Bk' & Bz' & Sk' & Sv').
  rewrite decide_False in Ev by apply not_elem_of_nil. rewrite decide_False in Ev' by apply not_elem_of_nil. subst v v'.
  rewrite (slots_pairs _ fst (rep [] lo hi h)) in Sk by reflexivity. rewrite (slots_pairs _ snd (rep [] lo hi h)) in Sv by reflexivity.
  rewrite (slots_pairs _ fst (rep [] lo' hi' h)) in Sk' by reflexivity. rewrite (slots_pairs _ snd (rep [] lo' hi' h)) in Sv' by reflexivity.
  pose proof (keys_slots lo hi m k _ _ _ ltac:(now rewrite length_map) Bk Bz Sk Sv) as Sa. pose proof (keys_slots lo' hi' m' k' _ _ _ ltac:(now rewrite length_map) Bk' Bz' Sk' Sv') as Sb.
  clear Bk Bz Sk Sv Bk' Bz' Sk' Sv'.
  assert (Dk : Forall ne_decided (TUPLE_DEF (map fst kvs) :: map snd kvs)).
  { constructor; [|apply Forall_map; eapply Forall_impl; [exact D|]; now intros ? []]. apply compound_decided; [discriminate|]. intros b wa wb lo1 hi1 lo2 hi2 F Kb R1 R2.
    destruct (tuple_decided (map fst kvs)) with (b := b) (wa := wa) (wb := wb) (lo := lo1) (hi := hi1) (lo' := lo2) (hi' := hi2) as (n & Hn1 & Dn); auto.
    - apply Forall_map. eapply Forall_impl; [exact D|]. now intros ? [].
    - exists n. split; auto. cbn [term_size]. pose proof (sum_bound term_size (map fst kvs)). lia. }
  destruct (sized_decided (Z.of_nat (length kvs)) (Z.of_nat (length kvs')) (terms (map fst kvs) ++ terms (map snd kvs)) (terms (map fst kvs') ++ terms (map snd kvs'))
    (if Z.of_nat (length kvs) =? 0 then pop_next else term_array (m + 2) (m' + 2) (Z.of_nat (length kvs) + 1)) (5 * term_size (MAP_DEF kvs) - 1) ltac:(lia)) as (n & Hn1 & Dn).
  - intros E. destruct kvs as [|kv kvs]; [destruct kvs'; [|discriminate E]; exists 0%nat; split; [lia|]; now apply decides_pop|].
    rewrite (proj2 (Z.eqb_neq _ 0)) by (cbn; lia). destruct (array_decided _ Dk (TUPLE_DEF (map fst kvs') :: map snd kvs') (m + 2) (m' + 2) lo hi lo' hi') as (n & Hn1 & Dn); auto.
    + cbn [length]. rewrite !length_map. cbn [length] in *. lia.
    + exists n. split; [pose proof (map_turns kv kvs); lia|]. cbn [length] in Dn. rewrite !length_map in Dn. replace (Z.of_nat (Datatypes.S (length (kv :: kvs)))) with (Z.of_nat (length (kv :: kvs)) + 1) in Dn by lia.
      cbn [flat_map term_key] in Dn. rewrite !length_map, <- E in Dn. exact (decides_tail _ _ _ _ _ (decides_tail _ _ _ _ _ Dn)).
  - exists (1 + n)%nat. split; [cbn [term_size] in *; lia|]. cbn [term_key]. rewrite !(flat_map_map_key fst), !(flat_map_map_key snd) in Dn. apply (decides_head _ _ _ _ _ _ (- MAP_TAG)) in Dn. revert Dn. apply ne_words.
    unfold TermCompare.cmp_words, cmp_boxed. rewrite Hv. cbn [access mbind decoded_bind]. unfold header_of, boxed_val. rewrite Hv'. cbn [access mbind decoded_bind]. rewrite Hn, Hn'. cbn [access mbind decoded_bind].
    destruct (negb _); [reflexivity|]. destruct (_ =? 0); reflexivity.
Qed.

Lemma cmp_funs_known fe n fe' n' : is_atom atoms (fe_module fe) -> is_atom atoms (fe_module fe') -> - 2 ^ 30 <= fe_old_index fe < 2 ^ 30 -> - 2 ^ 30 <= fe_old_index fe' < 2 ^ 30 ->
  - 2 ^ 30 <= fe_old_uniq fe < 2 ^ 30 -> - 2 ^ 30 <= fe_old_uniq fe' < 2 ^ 30 -> 0 <= n <= MAX_ARG -> 0 <= n' <= MAX_ARG ->
  exists j, cmp_funs atoms fe n fe' n' = Got j /\ Z.sgn j = lex (closed (name_of atoms (fe_module fe)) ++ [fe_old_index fe; fe_old_uniq fe; n]) (closed (name_of atoms (fe_module fe')) ++ [fe_old_index fe'; fe_old_uniq fe'; n']).
Proof.
  unfold MAX_ARG. intros [x Kx] [y Ky] Hi Hi' Hu Hu' Hn Hn'. destruct (name_known _ _ _ Kx) as [-> Nx], (name_known _ _ _ Ky) as [-> Ny]. unfold cmp_funs. rewrite (known_tab _ _ _ Kx), (known_tab _ _ _ Ky). cbn [lift mbind decoded_bind].
  rewrite !cmpbytes_lex. cbv zeta. rewrite (lex_app2 _ _ _ _ (delimited_closed _ _ Nx Ny)), lex_closed by auto. destruct (Z.eqb_spec (lex (a_name x) (a_name y)) 0) as [E|E]; cbn [negb].
  - rewrite !lex_num. destruct (Z.eqb_spec (fe_old_index fe) (fe_old_index fe')); cbn [negb]; [|eexists; split; [reflexivity|]; now rewrite s32_id by lia].
    destruct (Z.eqb_spec (fe_old_uniq fe) (fe_old_uniq fe')); cbn [negb]; [|eexists; split; [reflexivity|]; now rewrite s32_id by lia].
    eexists. split; [reflexivity|]. rewrite s64_id by lia. destruct (Z.eqb_spec n n') as [->|]; [now rewrite Z.sub_diag|reflexivity].
  - eexists. split; [reflexivity|]. destruct (lex_range (a_name x) (a_name y)) as [->|[->| ->]]; reflexivity.
Qed.
Lemma fun_decided fe ar cr env : Forall ne_decided env -> fit (FUN_DEF fe ar cr env) -> forall b wa wb lo hi lo' hi', fit b -> kind (FUN_DEF fe ar cr env) = kind b ->
  rep [] lo hi h (FUN_DEF fe ar cr env) wa -> rep [] lo' hi' h b wb -> exists n, (n <= 5 * term_size (FUN_DEF fe ar cr env))%nat /\ decides (tailrecur_ne wa wb) (key (FUN_DEF fe ar cr env)) (key b) n.
Proof.
  intros D [W [Ci [Cu C]]] b wa wb lo hi lo' hi' [Wb Cb] K Ra Rb. destruct b as [| | | | | | | | | | | | |fe' ar' cr' env']; try discriminate K. destruct Cb as (Ci' & Cu' & Cb). cbn [wf_term] in W, Wb.
  destruct W as ((Am & _ & _ & _ & _ & _ & _ & Nf) & _ & W), Wb as ((Am' & _ & _ & _ & _ & _ & _ & Nf') & _ & Wb). destruct Ra as (p & wc & -> & [_ Hp] & _ & _ & Sa), Rb as (q & wc' & -> & [_ Hq] & _ & _ & Sb).
  destruct (cmp_funs_known fe (Z.of_nat (length env)) fe' (Z.of_nat (length env'))) as (j & Ej & Es); auto; try lia. set (x := closed _ ++ _) in Es. set (y := closed _ ++ _) in Es.
  assert (Dl : delimited x y) by (apply delimited_app; [apply delimited_closed; now apply name_bytes|]; intros _; now apply delimited_length).
  assert (Kx : key (FUN_DEF fe ar cr env) = - FUN_TAG :: x ++ terms env) by (subst x; cbn [term_key]; now rewrite <- app_assoc). assert (Ky : key (FUN_DEF fe' ar' cr' env') = - FUN_TAG :: y ++ terms env') by (subst y; cbn [term_key]; now rewrite <- app_assoc).
  rewrite Kx, Ky. set (l := if Z.of_nat (length env) =? 0 then pop_next else term_array (p + ERL_FUN_SIZE) (q + ERL_FUN_SIZE) (Z.of_nat (length env))).
  assert (Ew : cmp_words h (make_boxed p) (make_boxed q) = Got (if negb (j =? 0) then not_equal j else l)).
  { unfold TermCompare.cmp_words, cmp_boxed. rewrite Hp. cbn [access mbind decoded_bind]. unfold cmp_thing, header_of, boxed_val. rewrite Hq. cbn [access mbind decoded_bind]. rewrite Ej. cbn [mbind decoded_bind]. destruct (negb _); [reflexivity|]. subst l. destruct (_ =? 0); reflexivity. }
  destruct (Z.eqb_spec j 0) as [->|Nj]; cbn [negb] in Ew.
  - symmetry in Es. change (Z.sgn 0) with 0 in Es. assert (Hl : length env = length env').
    { apply lex_eq in Es. subst x y.  change [fe_old_index fe; fe_old_uniq fe; Z.of_nat (length env)] with ([fe_old_index fe; fe_old_uniq fe] ++ [Z.of_nat (length env)]) in Es.
      change [fe_old_index fe'; fe_old_uniq fe'; Z.of_nat (length env')] with ([fe_old_index fe'; fe_old_uniq fe'] ++ [Z.of_nat (length env')]) in Es. rewrite !app_assoc in Es. apply app_inj_tail in Es as [_ Es]. lia. }
    destruct (elements_decided env D env' (p + ERL_FUN_SIZE) (q + ERL_FUN_SIZE) lo hi lo' hi') as (n & Hn & Dn); auto using all_fit. exists (1 + n)%nat. split; [cbn [term_size]; pose proof (sum_bound term_size env); lia|].
    apply (ne_words _ _ l); auto. apply decides_head. intros fuel s. rewrite (lex_app2 _ _ _ _ Dl), Es. apply Dn.
  - exists 1%nat. split; [cbn [term_size]; lia|]. apply (ne_words _ _ (not_equal j)); auto. apply decides_not_equal; auto. rewrite lex_num, Z.eqb_refl, (lex_app2 _ _ _ _ Dl), <- Es. now rewrite (proj2 (Z.eqb_neq (Z.sgn j) 0)) by lia.
Qed.
Lemma list_decided hd tl : ne_decided hd -> ne_decided tl -> cells_decided tl -> fit (LIST_DEF hd tl) -> ne_decided (LIST_DEF hd tl) /\ cells_decided (LIST_DEF hd tl).
Proof.
  intros Dh Dt Ct [[Wh Wt] [Ch Ct']]. assert (Fh : fit hd) by (split; auto). assert (Ft : fit tl) by (split; auto).
  assert (G : cells_decided (LIST_DEF hd tl)).
  { intros b p q lo hi lo' hi' [Wb Cb] Ra Rb. pose proof (rep_tag _ _ _ _ _ Rb) as T. destruct b as [| | | | |hd' tl'| | | |[]|[]|[]| |]; try discriminate T. destruct Wb as [Wh' Wt'], Cb as [Ch' Ct2].
    assert (Fh' : fit hd') by (split; auto). assert (Ft' : fit tl') by (split; auto). destruct Ra as (p' & wh & wt & Ep & [_ Hh] & [_ Ht] & Rh & Rt), Rb as (q' & wh' & wt' & Eq & [_ Hh'] & [_ Ht'] & Rh' & Rt').
    injection Ep as <-. injection Eq as <-. pose proof (key_delim hd hd' Fh Fh') as Dl. cbn [term_key term_size].
    assert (Turn : forall s, cmp_turn h (cells p q) s = Got (if negb (is_same wh wh') then (tailrecur_ne wh wh', CMP_TERMS wt wt' :: s) else if is_same wt wt' then (pop_next, s)
      else match wt, wt' with make_list aa, make_list bb => (cells aa bb, s) | _, _ => (tailrecur_ne wt wt', s) end)).
    { intros s. cbn [TermCompare.cmp_turn]. unfold get_at. rewrite Hh, Hh', Ht, Ht'. cbn [access mbind decoded_bind]. destruct (is_same wh wh'); [|reflexivity]. cbn [negb]. destruct (is_same wt wt'); [reflexivity|]. now destruct wt, wt'. }
    destruct (is_same wh wh') eqn:Es; cbn [negb] in Turn.
    - assert (E0 : lex (key hd) (key hd') = 0) by (eapply same_terms; eauto). destruct (is_same wt wt') eqn:Et.
      + exists 1%nat. split; [lia|]. apply decides_head. apply (decides_turn _ _ _ _ pop_next _ _ 0); [discriminate|exact Turn|]. apply decides_pop. rewrite (lex_app2 _ _ _ _ Dl), E0. eapply same_terms; eauto.
      + destruct (Dt tl' wt wt' lo hi lo' hi') as (n & Hn & Dn); auto. 
        assert (X : (exists a b, wt = make_list a /\ wt' = make_list b) \/ forall s, cmp_turn h (cells p q) s = Got (tailrecur_ne wt wt', s)) by (destruct wt, wt'; eauto). destruct X as [(a & b & -> & ->)|X].
        * destruct (Ct tl' a b lo hi lo' hi') as (m & Hm & Dm); auto. exists (1 + m)%nat. split; [lia|]. apply decides_head. apply (decides_same _ _ _ _ (cells a b)); [discriminate|exact Turn|exact E0|exact Dl|exact Dm].
        * exists (1 + n)%nat. split; [lia|]. apply decides_head. apply (decides_same _ _ _ _ (tailrecur_ne wt wt')); [discriminate|exact X|exact E0|exact Dl|exact Dn].
    - destruct (Dh hd' wh wh' lo hi lo' hi') as (n & Hn & Dn); auto. destruct (turn_decided tl tl' wt wt' lo hi lo' hi') as (m & Hm & Dm); auto. exists (1 + (n + (1 + m)))%nat. split; [lia|]. apply decides_head.
      apply (decides_push _ _ _ _ (tailrecur_ne wh wh') (tailrecur wt wt') (CMP_TERMS wt wt')); [discriminate|exact Turn|reflexivity|exact Dl|exact Dn|exact Dm]. }
  split; auto. intros b wa wb lo hi lo' hi' F Ra Rb E. destruct (decide (kind (LIST_DEF hd tl) = kind b)) as [K|K].
  - destruct b as [| | | | |hd' tl'| | | | | | | |]; try discriminate K. pose proof Ra as (p & _ & _ & -> & _). pose proof Rb as (q & _ & _ & -> & _). destruct (G _ p q lo hi lo' hi' F Ra Rb) as (n & Hn & Dn).
    exists (1 + n)%nat. split; [lia|]. apply (ne_words _ _ (cells p q)); auto.
  - exists 1%nat. split; [cbn; lia|]. apply ne_jumps. eapply jumps_kinds; eauto.
Qed.
Lemma all_decided a : fit a -> ne_decided a /\ cells_decided a.
Proof.
  induction a as [i|x|f|a| |hd tl IH1 IH2|ts IH|kvs IH|bytes k|n d|n d|n nums|m f ar|fe ar cr env IH] using term_ind; intros F; try (apply leaf_decided; auto; exact I).
  - pose proof F as [[Wh Wt] [Ch Ct]]. destruct IH1 as [A1 _]; [split; auto|]. destruct IH2 as [A2 A3]; [split; auto|]. apply list_decided; auto.
  - assert (D : Forall ne_decided ts).
    { destruct F as [W [_ C]]. pose proof (all_fit ts W C) as Ff. rewrite Forall_forall in *. intros t Ht. now apply IH, Ff. }
    apply compound_decided; [discriminate|]. intros b wa wb lo hi lo' hi' Fb K Ra Rb. destruct (tuple_decided ts D F b wa wb lo hi lo' hi' Fb K Ra Rb) as (n & Hn & Dn). exists n. split; auto. cbn [term_size]. pose proof (sum_bound term_size ts). lia.
  - assert (D : Forall (fun kv => ne_decided (fst kv) /\ ne_decided (snd kv)) kvs).
    { destruct F as [W [_ C]]. cbn [wf_term] in W. apply all_of_Forall in W, C. rewrite Forall_forall in *. intros kv Hk. destruct (IH kv Hk) as [I1 I2], (W kv Hk), (C kv Hk). split; [apply I1|apply I2]; split; auto. }
    apply compound_decided; [discriminate|]. intros. eapply map_decided; eauto.
  - assert (D : Forall ne_decided env).
    { destruct F as [(_ & _ & W) (_ & _ & C)]. pose proof (all_fit env W C) as Ff. rewrite Forall_forall in *. intros t Ht. now apply IH, Ff. }
    apply compound_decided; [discriminate|]. intros. eapply fun_decided; eauto.
Qed.
(** The comparison of two terms on the heap. *)
Lemma CMP_TERM_spec a b wa wb lo hi lo' hi' fuel : fit a -> fit b -> rep [] lo hi h a wa -> rep [] lo' hi' h b wb -> (2 + 5 * term_size a <= fuel)%nat ->
  exists j, CMP_TERM this_node atoms fuel h wa wb = Got j /\ Z.sgn j = lex (key a) (key b).
Proof.
  intros Fa Fb Ra Rb Hf. destruct (all_decided a Fa) as [D _]. destruct (turn_decided a b wa wb lo hi lo' hi' D Fb Ra Rb) as (n & Hn & Dn). destruct (Dn (fuel - n)%nat []) as (j & Ej & E).
  unfold CMP_TERM. replace (n + (fuel - n))%nat with fuel in E by lia. rewrite E. destruct (Z.eqb_spec (lex (key a) (key b)) 0) as [E0|N0]; [|eauto].
  exists 0. split; [|now rewrite E0]. destruct (fuel - n)%nat as [|[|k]] eqn:Ek; [lia| |]; cbn; reflexivity.
Qed.
End Proof.
