(* ===== verification/ExtFill.v ===== *)
(** The invariant of the chain of holes: what the rest of the input fills. Decoding of the
    objects that are complete when they are read. *)

From S2P Require Import Prelude.
From stdpp Require Import base option list gmap sorting.
From S2P Require Import BigNum BigConv Memory Utf8 Atoms ExtTerm ExtEncode ExtDecode ExtSpec ExtSize ExtSizer ExtBytes ExtSized ExtRep.
Local Open Scope Z_scope.

(** ** Reading from a state *)
Section Read.
Context {S : Type} `{AtomOps S}.
Notation state := (dec_state S).
Lemma take8_cons b p (s : state) : ep s = b :: p -> take8 s = Got (b, at_ep p s).
Proof. intros E. unfold take8, take_int. rewrite E. cbn [get_int8 mbind decoded_bind]. now rewrite (advance_app [b] p : advance 1 (b :: p) = _). Qed.
Lemma take8_put i p (s : state) : ep s = put_int8 i ++ p -> 0 <= i < 256 -> take8 s = Got (i, at_ep p s).
Proof. intros E Hi. rewrite (take8_cons (Z.land i 255) p) by auto. rewrite land_255. do 3 f_equal. lia. Qed.
Lemma take16_put i p (s : state) : ep s = put_int16 i ++ p -> 0 <= i < 2 ^ 16 -> take16 s = Got (i, at_ep p s).
Proof. intros E Hi. unfold take16, take_int. rewrite E, get_put16 by auto. cbn [mbind decoded_bind]. now rewrite (advance_app' 2) by reflexivity. Qed.
Lemma take32_put i p (s : state) : ep s = put_int32 i ++ p -> take32 s = Got (s32 i, at_ep p s).
Proof. intros E. unfold take32, take_int. rewrite E, get_put32. cbn [mbind decoded_bind]. now rewrite (advance_app' 4) by reflexivity. Qed.
Lemma take_block_app n bs p (s : state) : ep s = bs ++ p -> n = len bs -> take_block n s = Got (bs, at_ep p s).
Proof. intros E En. unfold take_block. rewrite E, (block_app' n) by auto. reflexivity. Qed.
Lemma advance_at n bs p (s : state) : ep s = bs ++ p -> n = len bs -> advance n (ep s) = Got p.
Proof. intros -> ->. apply advance_app. Qed.
Lemma put_ok a w (s : state) : a < limit s -> put a w s = Got (mkDec (ep s) (hp s) (<[a := w]> (words s)) (limit s) (next s) (maps_head s) (table s)).
Proof. intros Ha. unfold put. now rewrite (proj2 (Z.ltb_lt _ _)). Qed.
Lemma boxed_ok t n (s : state) : hp s < limit s ->
  boxed t n s = Got (make_boxed (hp s), mkDec (ep s) (hp s + n) (<[hp s := THING t]> (words s)) (limit s) (next s) (maps_head s) (table s)).
Proof. intros Hl. unfold boxed. rewrite put_ok by auto. reflexivity. Qed.
End Read.

Section DecAtoms.
Context {S : Type} `{AtomLaws S}.
Variable safe : bool.
Variable atoms : S.
Variable dflags : Z.
Context {plain : PlainTags dflags}.
Notation state := (dec_state S).
Notation atom_ext := (atom_ext atoms dflags).

(** ** Atoms and nodes *)
Lemma common_latin1 a x p (s : state) : known atoms a x -> 0 <= latin1_chars x -> table s = atoms -> ep s = latin1_text x ++ p ->
  dec_atom_common safe (latin1_chars x) ERTS_ATOM_ENC_LATIN1 s = Got (a, at_ep p s).
Proof.
  intros K Hx Ht He. unfold dec_atom_common. rewrite Ht, He. destruct (known_latin1 _ _ _ K Hx) as (_ & El & _).
  assert (A : advance (latin1_chars x) (latin1_text x ++ p) = Got p) by (now apply advance_app').
  destruct safe.
  - rewrite (get_latin1_known _ _ _ _ K Hx). cbn [lift mbind decoded_bind valid]. rewrite He, A. reflexivity.
  - rewrite (put_latin1_known _ _ _ _ K Hx). cbn [lift mbind decoded_bind valid]. cbn [with_atoms ep]. rewrite He, A. cbn [mbind decoded_bind]. unfold at_ep, with_atoms. cbn. now rewrite <- Ht.
Qed.
Lemma common_utf8 a x p (s : state) : known atoms a x -> table s = atoms -> ep s = a_name x ++ p ->
  dec_atom_common safe (len (a_name x)) ERTS_ATOM_ENC_UTF8 s = Got (a, at_ep p s).
Proof.
  intros K Ht He. unfold dec_atom_common. rewrite Ht, He. assert (A : advance (len (a_name x)) (a_name x ++ p) = Got p) by apply advance_app.
  destruct safe.
  - rewrite (get_utf8_known _ _ _ _ K). cbn [lift mbind decoded_bind valid]. rewrite He, A. reflexivity.
  - rewrite (put_utf8_known _ _ _ _ K). cbn [lift mbind decoded_bind valid]. cbn [with_atoms ep]. rewrite He, A. cbn [mbind decoded_bind]. unfold at_ep, with_atoms. cbn. now rewrite <- Ht.
Qed.
Lemma dec_atom_bytes a x : known atoms a x -> exists tag rest f, atom_ext a = tag :: rest /\ (tag = 100 \/ tag = 115 \/ tag = 118 \/ tag = 119) /\ dec_atom_tag safe tag = Some f /\
  forall p (s : state), table s = atoms -> ep s = rest ++ p -> f s = Got (a, at_ep p s).
Proof.
  intros K. rewrite (atom_ext_known _ _ _ _ K). unfold atom_bytes. destruct (known_name _ _ _ K) as [_ Hn]. destruct (has DFLAG_UTF8_ATOMS dflags || (latin1_chars x <? 0)) eqn:E.
  - destruct (len (a_name x) >? 255) eqn:El; cbn [app]; eexists _, _, _; splits; try reflexivity; auto; intros p s Ht He; rewrite <- app_assoc in He; cbv beta.
    + rewrite (take16_put _ _ _ He) by lia. cbn [mbind decoded_bind]. now rewrite (common_utf8 a x p).
    + rewrite Z.gtb_ltb in El. apply Z.ltb_ge in El. rewrite (take8_put _ _ _ He) by lia. cbn [mbind decoded_bind]. now rewrite (common_utf8 a x p).
  - apply orb_false_iff in E as [_ E%Z.ltb_ge]. destruct (known_latin1 _ _ _ K E) as (_ & _ & Hl).
    destruct (has DFLAG_SMALL_ATOM_TAGS dflags); cbn [app]; eexists _, _, _; splits; try reflexivity; auto; intros p s Ht He; rewrite <- app_assoc in He; cbv beta.
    + rewrite (take8_put _ _ _ He) by lia. cbn [mbind decoded_bind]. now rewrite (common_latin1 a x p).
    + rewrite (take16_put _ _ _ He) by lia. cbn [mbind decoded_bind]. now rewrite (common_latin1 a x p).
Qed.
Lemma dec_atom_ext a p (s : state) : is_atom atoms a -> table s = atoms -> ep s = atom_ext a ++ p -> dec_atom safe s = Got (a, at_ep p s).
Proof.
  intros [x K] Ht He. destruct (dec_atom_bytes a x K) as (tag & rest & f & E & _ & Ef & Hf). rewrite E in He. unfold dec_atom. rewrite (take8_cons tag (rest ++ p)) by auto.
  cbn [mbind decoded_bind]. rewrite Ef. cbn [valid mbind decoded_bind]. now rewrite (Hf p) by auto.
Qed.
End DecAtoms.

Section Reading.
Context {S : Type} `{AtomOps S}.
Variable atoms : S.
Notation state := (dec_state S).

(** ** Objects that are read at once *)
(** The bytes up to [p] were read, and the word and the new objects are the term;
    below, only the variable [r] may have changed. *)
Definition read_as (r : Z) (s : state) (p : list Z) (t : term) (x : decoded (word * state)) : Prop :=
  exists w k h, x = Got (w, mkDec p (hp s + k) h (limit s) (next s) (maps_head s) (table s)) /\ 0 <= k <= term_words t /\
    (forall b, b < hp s -> b <> r -> h !! b = words s !! b) /\ rep [] (hp s) (hp s + k) h t w.
Definition reads (r : Z) (f : state -> decoded (word * state)) (bs : list Z) (t : term) : Prop :=
  forall s p, table s = atoms -> ep s = bs ++ p -> r < hp s -> 0 <= hp s -> hp s + term_words t <= limit s -> read_as r s p t (f s).
Lemma read_word r s p t w s' : s' = at_ep p s -> 0 <= term_words t -> (forall lo hi h, rep [] lo hi h t w) -> read_as r s p t (Got (w, s')).
Proof. intros -> Hw R. exists w, 0, (words s). splits; auto; try lia. now rewrite Z.add_0_r. Qed.
Lemma read_boxed r s s' p t th n : s' = at_ep p s -> hp s < limit s -> 1 <= n <= term_words t ->
  (forall lo hi h w, (exists p, w = make_boxed p /\ at_word lo hi h p (THING th)) -> rep [] lo hi h t w) -> read_as r s p t (boxed th n s').
Proof.
  intros -> Hl Hn R. rewrite boxed_ok by auto. cbn [at_ep hp words limit next maps_head table ep]. eexists _, n, _. splits; [reflexivity|lia|lia| |].
  - intros b Hb _. now rewrite lookup_insert_ne by lia.
  - apply R. exists (hp s). split; auto. split; [lia|]. now rewrite lookup_insert_eq.
Qed.

End Reading.

Ltac words :=
  repeat match goal with H : context [term_words _] |- _ => progress cbn [term_words length] in H end; cbn [term_words length];
  repeat match goal with H : context [EXTERNAL_THING_HEAD_SIZE] |- _ => unfold EXTERNAL_THING_HEAD_SIZE in H end;
  repeat match goal with H : context [FLOAT_SIZE_OBJECT] |- _ => unfold FLOAT_SIZE_OBJECT in H end;
  unfold EXTERNAL_THING_HEAD_SIZE, FLOAT_SIZE_OBJECT, REF_THING_HEAD_SIZE; lia.
Ltac word_read := apply read_word; [reflexivity|words|intros; reflexivity].
Ltac box_read := apply read_boxed; [reflexivity|words|words|intros lo hi h w B; exact B].

Section DecNumbers.
Context {S : Type} `{AtomOps S}.
Variable atoms : S.
Notation state := (dec_state S).
Notation reads := (reads atoms).

Lemma take_words_put ws : forall p (s : state), Forall (fun w => 0 <= w < 2 ^ 32) ws -> ep s = flat_map put_int32 ws ++ p -> take_words (length ws) s = Got (ws, at_ep p s).
Proof.
  induction ws as [|w ws IH]; intros p s F He; cbn [length take_words flat_map] in He |- *.
  - cbn [app] in He. subst p. now destruct s.
  - inversion F; subst. rewrite <- app_assoc in He. rewrite (take32_put _ _ _ He). cbn [mbind decoded_bind]. rewrite (IH p) by auto. cbn [mbind decoded_bind]. now rewrite put32_u32 by lia.
Qed.
Lemma strip_rev_last bs : bs <> [] -> List.last bs 0 <> 0 -> rev (strip_zeroes (rev bs)) = bs.
Proof.
  intros Hne Hl. rewrite (app_removelast_last 0 Hne) at 1 2. rewrite rev_app_distr. cbn [rev app]. destruct (List.last bs 0) eqn:E; [congruence| |]; cbn [strip_zeroes rev]; now rewrite rev_involutive.
Qed.
Lemma dec_big_bytes r n sign bs w th t : n = len bs -> bs <> [] -> List.last bs 0 <> 0 ->
  match bytes_to_big bs sign with BigNum.make_small i => w = make_small i /\ t = SMALL_DEF i | BigNum.make_big b => th = T_big b /\ t = BIG_DEF b /\ Z.of_nat (BIG_SIZE b) + 1 <= term_words t | BigNum.NIL => False end ->
  0 <= term_words t -> reads r (dec_big n) ([b2z sign] ++ bs) t.
Proof.
  intros En Hne Hl E Hw s p Ht He Hr Hp Hlim. unfold dec_big. rewrite <- app_assoc in He. rewrite (take8_cons (b2z sign) (bs ++ p)) by auto. cbn [mbind decoded_bind].
  rewrite (take_block_app n bs p) by auto. cbn [mbind decoded_bind]. rewrite strip_rev_last by auto. replace (negb (b2z sign =? 0)) with sign by (now destruct sign).
  destruct bs as [|b0 bs]; [congruence|]. destruct (bytes_to_big (b0 :: bs) sign) as [i|b|]; [| |contradiction].
  - destruct E as [_ ->]. word_read.
  - destruct E as (_ & -> & Hb). apply read_boxed; [reflexivity|lia|lia|intros lo hi h x B; exact B].
Qed.
Lemma reads_big r b : canonical b -> reads r (dec_big (big_bytes b)) ([b2z (BIG_SIGN b)] ++ big_to_bytes b) (BIG_DEF b).
Proof.
  intros C. destruct (big_decode b C) as (Hne & Hl & E & Es). eapply (dec_big_bytes r _ _ _ (make_small 0) (T_big b)); auto; [now apply big_bytes_spec| |].
  - rewrite E. splits; auto. cbn [term_words]. unfold big_words. rewrite (big_bytes_spec b C). destruct (_ <? 256); lia.
  - cbn [term_words]. unfold big_words. rewrite (big_bytes_spec b C). destruct (_ <? 256); lia.
Qed.
Lemma reads_small_big r i : - 2 ^ 59 <= i < 2 ^ 59 -> i <> 0 -> 
  reads r (dec_big (big_bytes (small_to_big i))) ([b2z (BIG_SIGN (small_to_big i))] ++ big_to_bytes (small_to_big i)) (SMALL_DEF i).
Proof.
  intros Hi Hz. destruct (small_decode i Hi Hz) as (Hne & Hl & E). eapply (dec_big_bytes r _ _ _ (make_small i) (T_float (0, 0))); auto.
  - now apply small_bytes.
  - replace (BIG_SIGN (small_to_big i)) with (i <? 0) by (now rewrite small_digit). now rewrite E.
  - apply small_words_nonneg. now apply ssmall_range.
Qed.
Lemma reads_float r f : 0 <= fst f < 2 ^ 32 -> 0 <= snd f < 2 ^ 32 -> is_finite f = true -> reads r dec_new_float (put_int32 (snd f) ++ put_int32 (fst f)) (FLOAT_DEF f).
Proof.
  intros Hf0 Hf1 Hf s p Ht He Hr Hp Hl. rewrite <- app_assoc in He. unfold dec_new_float. rewrite (take32_put _ _ _ He). cbn [mbind decoded_bind]. erewrite take32_put by reflexivity. cbn [mbind decoded_bind].
  rewrite !put32_u32 by lia. rewrite <- surjective_pairing, Hf. cbn [check mbind decoded_bind]. box_read.
Qed.
Lemma bin_words_spec n : 0 <= n < 2 ^ 31 -> bin_words (s32 n) = binary_words n 0 /\ 1 <= binary_words n 0.
Proof.
  intros Hn. unfold bin_words, binary_words, heap_bin_size, ERL_ONHEAP_BIN_LIMIT, PROC_BIN_SIZE. rewrite put32_u32 by lia. rewrite s32_id by lia. cbn [Z.eqb]. destruct (n <=? 64); lia.
Qed.
Lemma reads_binary r bytes : len bytes < 2 ^ 31 -> reads r dec_binary (put_int32 (len bytes) ++ bytes) (BINARY_DEF bytes 0).
Proof.
  intros Hb s p Ht He Hr Hp Hl. rewrite <- app_assoc in He. destruct (bin_words_spec (len bytes) ltac:(lia)) as [E1 E2]. unfold dec_binary. rewrite (take32_put _ _ _ He). cbn [mbind decoded_bind].
  rewrite (take_block_app _ bytes p) by (rewrite ?s32_id; reflexivity || lia). cbn [mbind decoded_bind]. rewrite E1. box_read.
Qed.
Lemma reads_bit_binary r bytes u : len bytes < 2 ^ 31 -> bits_ok bytes u -> u <> 0 -> reads r dec_bit_binary (put_int32 (len bytes) ++ [u] ++ bytes) (BINARY_DEF bytes u).
Proof.
  intros Hb [Hu Hne] Hz s p Ht He Hr Hp Hl. rewrite <- !app_assoc in He. destruct (bin_words_spec (len bytes) ltac:(lia)) as [E1 E2]. unfold dec_bit_binary. rewrite (take32_put _ _ _ He). cbn [mbind decoded_bind].
  erewrite (take8_cons u) by reflexivity. cbn [mbind decoded_bind]. rewrite s32_id in E1 |- * by lia. assert (Hlb : 1 <= len bytes) by (destruct bytes; [now destruct (Hne Hz)|cbn [length]; lia]).
  rewrite (proj2 (Z.eqb_neq u 0)), (proj2 (Z.eqb_neq (len bytes) 0)), (proj2 (Z.leb_le u 8)) by lia. cbn [Bool.eqb andb check mbind decoded_bind].
  rewrite (take_block_app _ bytes p) by reflexivity. cbn [mbind decoded_bind]. rewrite E1.
  assert (Ew : term_words (BINARY_DEF bytes u) = binary_words (len bytes) 0 + 5).
  { cbn [term_words]. unfold binary_words, ERL_SUB_BIN_SIZE. rewrite (proj2 (Z.eqb_neq u 0)) by auto. cbn [Z.eqb]. lia. }
  rewrite boxed_ok by (cbn [at_ep hp limit]; lia). cbn [mbind decoded_bind at_ep hp words limit next maps_head table ep]. rewrite (proj2 (Z.eqb_neq u 8)) by lia. cbn [orb].
  rewrite boxed_ok by (cbn [hp limit]; lia). cbn [hp words limit next maps_head table ep]. eexists _, (binary_words (len bytes) 0 + 5), _. splits; [do 3 f_equal; unfold ERL_SUB_BIN_SIZE; lia|lia|lia| |].
  - intros b Hb' _. now rewrite !lookup_insert_ne by lia.
  - cbn [rep]. rewrite (proj2 (Z.eqb_neq u 0)) by auto. exists (hp s), (hp s + binary_words (len bytes) 0). splits; auto; (split; [lia|]); [now rewrite lookup_insert_eq|rewrite lookup_insert_ne, lookup_insert_eq by lia; auto].
Qed.
End DecNumbers.

Section Holes.
Context {S : Type} `{AtomOps S}.
Notation state := (dec_state S).
(** ** Holes side by side *)
Lemma link_down_spec n : forall a (s : state), a < limit s -> exists s1, link_down n a s = Got s1 /\
  ep s1 = ep s /\ hp s1 = hp s /\ limit s1 = limit s /\ maps_head s1 = maps_head s /\ table s1 = table s /\
  (forall b, ~ a - Z.of_nat n < b <= a -> words s1 !! b = words s !! b) /\ chain LINK (words s1) (next s1) (zseq (a - Z.of_nat n + 1) n) (next s).
Proof.
  induction n as [|n IH]; intros a s Ha; cbn [link_down].
  - exists s. splits; auto. reflexivity.
  - rewrite put_ok by auto. cbn [mbind decoded_bind]. set (s0 := at_next (Some a) _). destruct (IH (a - 1) s0 ltac:(subst s0; cbn; lia)) as (s1 & E & E1 & E2 & E3 & E4 & E5 & Fr & C).
    exists s1. rewrite E. subst s0. cbn [at_next ep hp limit maps_head table words next] in *. splits; auto.
    + intros b Hb. rewrite Fr, lookup_insert_ne by lia. reflexivity.
    + replace (a - Z.of_nat (Datatypes.S n) + 1) with (a - 1 - Z.of_nat n + 1) by lia. 
      replace (zseq (a - 1 - Z.of_nat n + 1) (Datatypes.S n)) with (zseq (a - 1 - Z.of_nat n + 1) n ++ [a]).
      * apply chain_app. exists (Some a). split; auto. cbn. split; auto. exists (next s). split; auto. rewrite Fr, lookup_insert_eq by lia. auto.
      * clear. revert a. induction n as [|n IH]; intros a; cbn [zseq app]; [f_equal; lia|]. f_equal. specialize (IH a).
        replace (a - 1 - Z.of_nat (Datatypes.S n) + 1 + 1) with (a - 1 - Z.of_nat n + 1) by lia. exact IH.
Qed.
End Holes.

Section DecNodes.
Context {S : Type} `{AtomLaws S}.
Variable this_node : Z * Z.
Variable safe : bool.
Variable atoms : S.
Variable dflags : Z.
Context {plain : PlainTags dflags}.
Notation state := (dec_state S).
Notation atom_ext := (atom_ext atoms dflags).
Notation reads := (reads atoms).

Lemma dec_node n : node_ok this_node atoms n -> dec_get_node this_node (node_name this_node n) (creation this_node n) = n.
Proof.
  intros (_ & Hc & Hn). unfold dec_get_node, erts_find_or_insert_node, INTERNAL_CREATION. unfold MAX_CREATION in Hc. destruct n as [[name c]|]; cbn [node_name creation fst snd] in Hc, Hn |- *.
  - destruct Hn as [Hn Ho]. rewrite (proj2 (Z.eqb_neq c 255)) by lia.
    assert (E : (c =? ORIG_CREATION) && (name =? fst this_node) = false).
    { destruct (Z.eqb_spec c ORIG_CREATION), (Z.eqb_spec name (fst this_node)); auto. now destruct (Ho e). }
    rewrite E. destruct (Z.eqb_spec name (fst this_node)), (Z.eqb_spec c (snd this_node)); auto. exfalso. apply Hn. rewrite (surjective_pairing this_node). congruence.
  - rewrite (proj2 (Z.eqb_neq (snd this_node) 255)) by lia. rewrite !Z.eqb_refl. now destruct (_ && _).
Qed.

Lemma pid_data data : 0 <= data < 2 ^ 28 -> 0 <= pid_number data < 2 ^ 15 /\ 0 <= pid_serial data < 2 ^ 13 /\ make_pid_data (pid_serial data) (pid_number data) = data.
Proof.
  intros Hd. unfold pid_number, pid_serial, make_pid_data. rewrite !mask_low, Z.shiftr_div_pow2 by lia. splits; try lia. rewrite lor_low by lia. lia.
Qed.
Lemma reads_pid r n data bs : pid_ok this_node atoms n data -> pid_ext this_node atoms dflags n data = PID_EXT :: bs -> reads r (dec_pid this_node safe) bs (PID_DEF n data).
Proof.
  intros [Hn Hd] E s p Ht He Hr Hp Hl. pose proof (node_atom _ _ _ Hn) as Ka. unfold pid_ext in E.
  injection E as <-. rewrite <- !app_assoc in He. destruct (pid_data data Hd) as (Hnum & Hser & Hmk).
  unfold dec_pid. rewrite (dec_atom_ext safe atoms dflags _ _ _ Ka Ht He). cbn [mbind decoded_bind]. erewrite take32_put by reflexivity. cbn [mbind decoded_bind]. rewrite s32_id, w64_id by lia.
  unfold ERTS_MAX_PID_NUMBER. rewrite (proj2 (Z.leb_le (pid_number data) _)) by lia. cbn [check mbind decoded_bind]. erewrite take32_put by reflexivity. cbn [mbind decoded_bind]. rewrite s32_id, w64_id by lia.
  unfold ERTS_MAX_PID_SERIAL. rewrite (proj2 (Z.leb_le (pid_serial data) _)) by lia. cbn [check mbind decoded_bind].
  pose proof Hn as (_ & Hc & _). unfold MAX_CREATION in Hc. erewrite take8_put by (reflexivity || lia). cbn [mbind decoded_bind].
  unfold is_valid_creation, MAX_CREATION. rewrite (proj2 (Z.ltb_lt _ _)) by lia. cbn [orb check mbind decoded_bind]. rewrite (dec_node n Hn), Hmk.
  destruct n as [nd|]; [box_read|word_read].
Qed.
Lemma reads_port r n num : node_ok this_node atoms n -> 0 <= num <= ERTS_MAX_PORT_NUMBER ->
  reads r (dec_port this_node safe) (atom_ext (node_name this_node n) ++ put_int32 num ++ put_int8 (creation this_node n)) (PORT_DEF n num).
Proof.
  unfold ERTS_MAX_PORT_NUMBER. intros Hn Hnum s p Ht He Hr Hp Hl. pose proof (node_atom _ _ _ Hn) as Ka. rewrite <- !app_assoc in He.
  unfold dec_port. rewrite (dec_atom_ext safe atoms dflags _ _ _ Ka Ht He). cbn [mbind decoded_bind]. erewrite take32_put by reflexivity. cbn [mbind decoded_bind]. rewrite s32_id, w64_id by lia.
  unfold ERTS_MAX_PORT_NUMBER. rewrite (proj2 (Z.leb_le num _)) by lia. cbn [check mbind decoded_bind].
  pose proof Hn as (_ & Hc & _). unfold MAX_CREATION in Hc. erewrite take8_put by (reflexivity || lia). cbn [mbind decoded_bind].
  unfold is_valid_creation, MAX_CREATION. rewrite (proj2 (Z.ltb_lt _ _)) by lia. cbn [orb check mbind decoded_bind]. rewrite (dec_node n Hn).
  destruct n as [nd|]; [box_read|word_read].
Qed.
Lemma reads_ref r n nums : node_ok this_node atoms n -> (1 <= length nums <= 3)%nat -> Forall (fun w => 0 <= w < 2 ^ 32) nums -> List.hd 0 nums < MAX_REFERENCE ->
  reads r (dec_new_reference this_node safe) (put_int16 (len nums) ++ atom_ext (node_name this_node n) ++ put_int8 (creation this_node n) ++ flat_map put_int32 nums) (REF_DEF n nums).
Proof.
  unfold MAX_REFERENCE. intros Hn Hlen F Hh s p Ht He Hr Hp Hl. pose proof (node_atom _ _ _ Hn) as Ka. rewrite <- !app_assoc in He.
  unfold dec_new_reference. rewrite (take16_put _ _ _ He) by lia. cbn [mbind decoded_bind]. unfold ERTS_MAX_REF_NUMBERS. rewrite (proj2 (Z.leb_le (len nums) _)) by lia. cbn [check mbind decoded_bind].
  erewrite (dec_atom_ext safe atoms dflags _ _ _ Ka) by (exact Ht || reflexivity). cbn [mbind decoded_bind]. pose proof Hn as (_ & Hc & _). unfold MAX_CREATION in Hc. erewrite take8_put by (reflexivity || lia). cbn [mbind decoded_bind].
  unfold is_valid_creation, MAX_CREATION. rewrite (proj2 (Z.ltb_lt (creation _ _) _)) by lia. cbn [orb check mbind decoded_bind].
  destruct nums as [|r0 nums]; [cbn in Hlen; lia|]. pose proof F as [Hr0 F']%Forall_cons. cbn [flat_map List.hd] in Hh |- *. rewrite <- app_assoc. erewrite take32_put by reflexivity. cbn [mbind decoded_bind].
  rewrite put32_u32 by lia. unfold MAX_REFERENCE. rewrite (proj2 (Z.ltb_lt r0 _)) by lia. cbn [check mbind decoded_bind]. unfold ref_ext_common. rewrite (dec_node n Hn).
  cbn [length] in Hlen |- *. replace (Z.to_nat (Z.of_nat (Datatypes.S (length nums)) - 1)) with (length nums) by lia. erewrite take_words_put by (auto; reflexivity). cbn [mbind decoded_bind].
  destruct n as [nd|]; box_read.
Qed.
End DecNodes.

Section Fill.
Context {S : Type} `{AtomLaws S}.
Variable this_node : Z * Z.
Variable safe : bool.
Variable strtod : list Z -> option (Z * Z).
Variable erts_active_export_entry : Z -> Z -> Z -> bool.
Variable old_fun_arity : Z -> Z -> Z -> Z.
Variable CMP_TERM : S -> heap -> word -> word -> decoded Z.
Variable sys_double_to_chars : Z * Z -> list Z.
(** The order of the keys of maps. *)
Variable key_lt : term -> term -> Prop.
Variable atoms : S.
Variable dflags : Z.
Context {plain : PlainTags dflags}.
Hypothesis new_funs : has DFLAG_NEW_FUN_TAGS dflags = true.
Hypothesis new_floats : has DFLAG_NEW_FLOATS dflags = true.
Hypothesis bit_binaries : has DFLAG_BIT_BINARIES dflags = true.
Hypothesis export_tag : has DFLAG_EXPORT_PTR_TAG dflags = true.
Hypothesis exports_active : forall m f arity, negb safe || erts_active_export_entry m f arity = true.
Notation state := (dec_state S).
Notation ext := (ext this_node sys_double_to_chars atoms dflags).
Notation all_ext := (all_ext this_node sys_double_to_chars atoms dflags).
Notation atom_ext := (atom_ext atoms dflags).
Notation dec_loop := (dec_loop this_node safe strtod erts_active_export_entry old_fun_arity CMP_TERM).
Notation dec_term := (dec_term this_node safe strtod erts_active_export_entry old_fun_arity CMP_TERM).
Notation dec_leaf nested := (dec_leaf this_node safe strtod nested erts_active_export_entry).
Notation dec_compound nested := (dec_compound this_node safe nested old_fun_arity).
Notation dec_step nested := (dec_step this_node safe strtod nested erts_active_export_entry old_fun_arity).
Notation reads := (reads atoms).

(** ** Turns of the loop *)
Lemma step_tag nested root a nx tag q (s : state) : words s !! a = Some (LINK nx) -> ep s = tag :: q ->
  dec_step nested root a s =
  match dec_leaf nested root tag with
  | Some f => '(w, s) ← f (at_ep q (at_next nx s)); put a w s
  | None => match dec_compound nested root tag with Some f => f a (at_ep q (at_next nx s)) | None => Malformed end
  end.
Proof.
  intros Ha He. unfold ExtDecode.dec_step, get. rewrite Ha. cbn [access mbind decoded_bind]. rewrite (take8_cons tag q) by auto. reflexivity.
Qed.
Lemma loop_turn fuel root a (s : state) : next s = Some a ->
  dec_loop (1 + fuel) root s = (s' ← dec_step (dec_term fuel) root a s; dec_loop fuel root s').
Proof. intros Hn. cbn [Nat.add ExtDecode.dec_loop]. rewrite Hn. reflexivity. Qed.
Lemma loop_done fuel root (s : state) : next s = None -> dec_loop fuel root s = Got s.
Proof. intros Hn. destruct fuel; cbn [ExtDecode.dec_loop]; now rewrite Hn. Qed.

(** The integers inside exports and funs. *)
Definition small_reader (nested : Z -> state -> decoded (word * state)) : Prop :=
  forall r s i p, - 2 ^ 31 <= i < 2 ^ 31 -> ep s = enc_small i ++ p -> r < limit s ->
    nested r s = Got (make_small i, mkDec p (hp s) (<[r := make_small i]> (words s)) (limit s) (next s) (maps_head s) (table s)).
Lemma small_int_tag i p : - 2 ^ 31 <= i < 2 ^ 31 -> exists tag bs, enc_small i = tag :: bs /\ forall nested root, exists f, dec_leaf nested root tag = Some f /\
  forall (s : state), ep s = bs ++ p -> f s = Got (make_small i, at_ep p s).
Proof.
  intros Hi. unfold enc_small. destruct (Z.ltb_spec (w64 i) 256) as [Hb|Hb].
  - exists SMALL_INTEGER_EXT, (put_int8 i). split; auto. intros nested root. eexists. split; [reflexivity|]. intros s He. cbv beta.
    assert (0 <= i < 256) by (unfold w64 in Hb; lia). rewrite (take8_put i p) by auto. reflexivity.
  - replace (IS_SSMALL32 i) with true.
    2:{ symmetry. unfold IS_SSMALL32. rewrite Z.shiftr_div_pow2 by lia. apply Z.ltb_lt. assert (- 1 <= i / 2 ^ 31 <= 0) by lia. unfold w64. lia. }
    exists INTEGER_EXT, (put_int32 i). split; auto. intros nested root. eexists. split; [reflexivity|]. intros s He. cbv beta. rewrite (take32_put i p) by auto. cbn [mbind decoded_bind]. now rewrite s32_id.
Qed.
Lemma nested_reader fuel : small_reader (dec_term (Datatypes.S fuel)).
Proof.
  intros r s i p Hi He Hr. destruct (small_int_tag i p Hi) as (tag & bs & E & T). rewrite E in He. unfold ExtDecode.dec_term. rewrite put_ok by auto. cbn [mbind decoded_bind maps_head].
  rewrite (loop_turn fuel r r) by reflexivity. destruct (T (dec_term fuel) r) as (f & Ef & Hf).
  rewrite (step_tag _ _ _ None tag (bs ++ p)) by (cbn; rewrite ?lookup_insert_eq; auto). rewrite Ef, Hf by reflexivity. cbn [mbind decoded_bind].
  rewrite put_ok by exact Hr. cbn [mbind decoded_bind]. rewrite loop_done by reflexivity. cbn [mbind decoded_bind validate_maps maps_head at_ep at_next with_maps].
  unfold get. cbn [words]. rewrite lookup_insert_eq. cbn [access mbind decoded_bind]. unfold at_next, with_maps. cbn. now rewrite insert_insert_eq.
Qed.

(** ** Decoding a term *)
Record decoded_to (root : Z) (holes : list Z) (s s' : state) (p : list Z) (nx : option Z) (W : Z) (X : list Z) : Prop := {
  to_next : next s' = nx;
  to_ep : ep s' = p;
  to_hp : hp s <= hp s' <= hp s + W;
  to_limit : limit s' = limit s;
  to_table : table s' = atoms;
  to_frame b : b ∉ holes -> b <> root - 1 -> b < hp s -> words s' !! b = words s !! b;
  to_maps : chain MAP_LINK (words s') (maps_head s') X (maps_head s);
  to_range : Forall (fun m => hp s <= m < hp s') X;
  to_sorted : StronglySorted Z.gt X;
  to_ok m : m ∈ X -> map_ok key_lt X (hp s) (hp s') (words s') m }.
Definition reaches (root : Z) (n : nat) (s s' : state) : Prop := forall fuel, dec_loop (n + Datatypes.S fuel) root s = dec_loop (Datatypes.S fuel) root s'.
Definition ready (root : Z) (s : state) (W : Z) : Prop := root < 0 /\ 0 <= hp s /\ table s = atoms /\ hp s + W <= limit s.
Definition decodes (t : term) : Prop :=
  forall root s a nx p, ready root s (term_words t) -> next s = Some a -> words s !! a = Some (LINK nx) -> a < hp s -> a <> root - 1 ->
    ep s = ext false t ++ p -> len (ext false t) <= 2 ^ 31 ->
    exists n s' X w, (length X <= n <= length (ext false t))%nat /\ reaches root n s s' /\ decoded_to root [a] s s' p nx (term_words t) X /\
      words s' !! a = Some w /\ rep X (hp s) (hp s') (words s') t w.
Lemma reaches_trans root n m s s' s2 : reaches root n s s' -> reaches root m s' s2 -> reaches root (n + m) s s2.
Proof. intros A B fuel. rewrite <- Nat.add_assoc. replace (m + Datatypes.S fuel)%nat with (Datatypes.S (m + fuel)) by lia. rewrite A. rewrite <- B. f_equal. lia. Qed.
(** Objects that are read at once. *)
Lemma decodes_leaf t tag bs : ext false t = tag :: bs ->
  (forall root s p, table s = atoms -> ep s = bs ++ p -> root - 1 < hp s -> 0 <= hp s -> hp s + term_words t <= limit s ->
    exists x, read_as (root - 1) s p t x /\ forall nested, small_reader nested -> exists f, dec_leaf nested root tag = Some f /\ f s = x) -> decodes t.
Proof.
  intros E L root s a nx p (Hroot & Hp & Ht & Hl) Hn Ha Hah Har He _. rewrite E in *. set (s0 := at_ep (bs ++ p) (at_next nx s)).
  destruct (L root s0 p Ht eq_refl ltac:(cbn; lia) Hp Hl) as (x & (w & k & h & -> & Hk & Fr & R) & Hx). 
  change (hp s0) with (hp s) in *. change (limit s0) with (limit s) in *. change (words s0) with (words s) in *. change (next s0) with nx in *. change (maps_head s0) with (maps_head s) in *. change (table s0) with (table s) in *.
  exists 1%nat, (mkDec p (hp s + k) (<[a := w]> h) (limit s) nx (maps_head s) (table s)), [], w. splits; cbn [words hp]; [cbn; lia|cbn; lia| | |apply lookup_insert_eq|].
  - intros fuel. rewrite (loop_turn _ root a) by auto. rewrite (step_tag _ _ _ nx tag (bs ++ p)) by auto. fold s0. destruct (Hx _ (nested_reader fuel)) as (f & -> & ->). cbn [mbind decoded_bind].
    rewrite put_ok by (cbn [limit]; lia). reflexivity.
  - split; cbn [words hp next ep limit table maps_head chain]; auto; try lia; try constructor.
    + intros b Hb Hbr Hbh. rewrite lookup_insert_ne by (rewrite list_elem_of_singleton in Hb; auto). apply Fr; auto.
    + intros m Hm. now apply elem_of_nil in Hm.
  - apply (rep_mono [] [] (hp s) (hp s + k) (hp s) (hp s + k) h); [lia|lia| |exact R]. split; [intros b v Hb Hv _; rewrite lookup_insert_ne by lia; auto|]. intros m Hm (v & Hv & D). exists v. split; auto. rewrite lookup_insert_ne by lia. auto.
Qed.
Lemma decodes_read t tag bs f : ext false t = tag :: bs -> (forall nested root, dec_leaf nested root tag = Some f) -> (forall r, reads r f bs t) -> decodes t.
Proof. intros E D R. apply (decodes_leaf t tag bs E). intros root s p Ht He Hr Hp Hl. exists (f s). split; [now apply R|]. intros nested _. exists f. auto. Qed.
Lemma decodes_small i : IS_SSMALL i = true -> decodes (SMALL_DEF i).
Proof.
  intros Hi. pose proof (proj1 (ssmall_range i) Hi) as Hr. pose proof (small_words_nonneg i Hi) as Hw. destruct (decide (- 2 ^ 31 <= i < 2 ^ 31)) as [Hs|Hs].
  - destruct (small_int_tag i [] Hs) as (tag & bs & E & _). apply (decodes_leaf (SMALL_DEF i) tag bs E). intros root s p Ht He Hrt Hp Hl. exists (Got (make_small i, at_ep p s)). split; [apply read_word; [reflexivity|exact Hw|reflexivity]|].
    intros nested _. destruct (small_int_tag i p Hs) as (tag' & bs' & E' & T). rewrite E in E'. injection E' as <- <-. destruct (T nested root) as (f & Ef & Hf). exists f. auto.
  - assert (Hz : i <> 0) by lia. destruct (small_bytes i Hr Hz) as [Eb Hb]. eapply (decodes_read (SMALL_DEF i) SMALL_BIG_EXT _ (fun s => '(n, s) ← take8 s; dec_big n s)).
    + cbn [ExtSpec.ext]. unfold enc_small. rewrite (proj2 (Z.ltb_ge (w64 i) 256)) by (unfold w64; lia). replace (IS_SSMALL32 i) with false; [reflexivity|].
      symmetry. unfold IS_SSMALL32. rewrite Z.shiftr_div_pow2 by lia. apply Z.ltb_ge. assert (i / 2 ^ 31 < - 1 \/ 0 < i / 2 ^ 31) by lia. assert (- 2 ^ 59 <= i / 2 ^ 31 < 2 ^ 59) by lia. unfold w64. lia.
    + reflexivity.
    + intros r s p Ht He Hrp Hp Hl. rewrite <- !app_assoc in He. rewrite (take8_put _ _ _ He) by lia. cbn [mbind decoded_bind].
      apply (reads_small_big atoms r i Hr Hz (at_ep _ s) p); auto.
Qed.
Lemma decodes_big b : canonical b -> decodes (BIG_DEF b).
Proof.
  intros C. pose proof (big_bytes_spec b C) as Eb. assert (Hn : len (big_to_bytes b) <= 8 * BIG_ARITY_MAX).
  { destruct C as ((Dg & [Hne _] & _) & _ & Ha). destruct (digits_to_bytes_spec _ Dg Hne) as (_ & _ & Lb & _). unfold big_to_bytes, BIG_SIZE in *. lia. }
  unfold BIG_ARITY_MAX in Hn. destruct (Z.ltb_spec (big_bytes b) 256) as [Hb|Hb].
  - eapply (decodes_read (BIG_DEF b) SMALL_BIG_EXT _ (fun s => '(n, s) ← take8 s; dec_big n s)); [cbn [ExtSpec.ext]; unfold enc_big; rewrite (proj2 (Z.ltb_lt _ _) Hb); reflexivity|reflexivity|].
    intros r s p Ht He Hrp Hp Hl. rewrite <- !app_assoc in He. rewrite (take8_put _ _ _ He) by lia. cbn [mbind decoded_bind].
    apply (reads_big atoms r b C (at_ep _ s) p); auto.
  - eapply (decodes_read (BIG_DEF b) LARGE_BIG_EXT _ (fun s => '(n, s) ← take32 s; dec_big n s)); [cbn [ExtSpec.ext]; unfold enc_big; rewrite (proj2 (Z.ltb_ge _ _) Hb); reflexivity|reflexivity|].
    intros r s p Ht He Hrp Hp Hl. rewrite <- !app_assoc in He. rewrite (take32_put _ _ _ He), s32_id by lia. cbn [mbind decoded_bind].
    apply (reads_big atoms r b C (at_ep _ s) p); auto.
Qed.
Lemma decodes_float f : 0 <= fst f < 2 ^ 32 -> 0 <= snd f < 2 ^ 32 -> is_finite f = true -> decodes (FLOAT_DEF f).
Proof.
  intros Hf0 Hf1 Hf. eapply (decodes_read (FLOAT_DEF f)); [cbn [ExtSpec.ext]; unfold enc_float; rewrite new_floats; reflexivity|reflexivity|]. intros r. now apply reads_float.
Qed.
Lemma decodes_nil : decodes NIL_DEF.
Proof.
  apply (decodes_read NIL_DEF NIL_EXT [] (fun s => Got (NIL, s))); [reflexivity|reflexivity|]. intros r s p Ht He Hr Hp Hl. cbn [app] in He. apply read_word; [destruct s; cbn in *; now subst|cbn; lia|reflexivity].
Qed.
Lemma decodes_atom a : is_atom atoms a -> decodes (ATOM_DEF a).
Proof.
  intros [x K]. destruct (dec_atom_bytes safe atoms dflags a x K) as (tag & rest & f & E & Tg & Ef & Hf). eapply (decodes_read (ATOM_DEF a) tag rest (fun s => '(a, s) ← f s; Got (make_atom a, s)) E).
  - intros nested root. unfold ExtDecode.dec_leaf. destruct Tg as [->|[->|[->| ->]]]; eval_tags; now rewrite Ef.
  - intros r s p Ht He Hr Hp Hl. rewrite (Hf p) by auto. cbn [mbind decoded_bind]. apply read_word; [reflexivity|cbn; lia|reflexivity].
Qed.
Lemma decodes_binary bytes u : bits_ok bytes u -> len bytes < 2 ^ 31 -> decodes (BINARY_DEF bytes u).
Proof.
  intros Hb Hl. destruct (decide (u = 0)) as [->|Hu].
  - eapply (decodes_read (BINARY_DEF bytes 0)); [reflexivity|reflexivity|]. intros r. now apply reads_binary.
  - eapply (decodes_read (BINARY_DEF bytes u)); [cbn [ExtSpec.ext]; unfold enc_binary; rewrite (proj2 (Z.eqb_neq u 0)), bit_binaries by auto; reflexivity|reflexivity|]. intros r. now apply reads_bit_binary.
Qed.
Lemma decodes_pid n data : pid_ok this_node atoms n data -> decodes (PID_DEF n data).
Proof.
  intros Hn. assert (E : exists bs, pid_ext this_node atoms dflags n data = PID_EXT :: bs).
  { unfold pid_ext. eauto. }
  destruct E as [bs E]. eapply (decodes_read (PID_DEF n data) _ bs _ E); [reflexivity|]. intros r. now apply (reads_pid this_node safe atoms dflags r n data bs).
Qed.
Lemma decodes_port n num : node_ok this_node atoms n -> 0 <= num <= ERTS_MAX_PORT_NUMBER -> decodes (PORT_DEF n num).
Proof. intros Hn Hnum. eapply (decodes_read (PORT_DEF n num)); [reflexivity|reflexivity|]. intros r. now apply reads_port. Qed.
Lemma decodes_ref n nums : node_ok this_node atoms n -> (1 <= length nums <= 3)%nat -> Forall (fun w => 0 <= w < 2 ^ 32) nums -> List.hd 0 nums < MAX_REFERENCE -> decodes (REF_DEF n nums).
Proof. intros. eapply (decodes_read (REF_DEF n nums)); [reflexivity|reflexivity|]. intros r. now apply reads_ref. Qed.
Lemma decodes_export m f arity : is_atom atoms m -> is_atom atoms f -> 0 <= arity <= MAX_ARG -> decodes (EXPORT_DEF m f arity).
Proof.
  unfold MAX_ARG. intros Km Kf Ha. eapply (decodes_leaf (EXPORT_DEF m f arity)); [cbn [ExtSpec.ext]; rewrite export_tag; reflexivity|]. intros root s p Ht He Hr Hp Hl. cbn [term_words] in Hl.
  rewrite <- !app_assoc in He. eexists. split; cycle 1.
  - intros nested N. eexists. split; [reflexivity|]. unfold dec_export. rewrite (dec_atom_ext safe atoms dflags m (atom_ext f ++ enc_small arity ++ p) s Km Ht He). cbn [mbind decoded_bind].
    erewrite (dec_atom_ext safe atoms dflags f (enc_small arity ++ p)) by (auto; reflexivity). cbn [mbind decoded_bind]. unfold dec_small. 
    rewrite (N (root - 1) _ arity p) by (cbn [at_ep limit ep]; lia || reflexivity). cbn [mbind decoded_bind is_small valid]. rewrite (proj2 (Z.leb_le 0 arity)) by lia. cbn [check mbind decoded_bind].
    rewrite exports_active. cbn [check mbind decoded_bind]. rewrite boxed_ok by (cbn [at_ep hp limit]; lia). cbn [at_ep ep hp words limit next maps_head table]. reflexivity.
  - eexists _, 2, _. splits; [reflexivity|lia|cbn [term_words]; lia| |].
    + intros b Hb Hbr. now rewrite !lookup_insert_ne by lia.
    + cbn [rep]. exists (hp s). split; auto. split; [lia|]. now rewrite lookup_insert_eq.
Qed.

(** ** One term after the other *)
Lemma decoded_refl root s p : ep s = p -> table s = atoms -> decoded_to root [] s s p (next s) 0 [].
Proof. intros He Ht. split; auto; try lia; try constructor. intros m Hm. now apply elem_of_nil in Hm. Qed.
(** What was decoded stays when more is decoded above it. *)
Lemma later_extends root h2 lo s1 s2 p2 nx2 W2 X1 X2 : root < 0 -> 0 <= lo -> Forall (fun a => a < lo) h2 ->
  decoded_to root h2 s1 s2 p2 nx2 W2 X2 -> extends X1 (X2 ++ X1) lo (hp s1) (words s1) (words s2).
Proof.
  intros Hr Hlo F2 [_ _ P2 _ _ Fr2 _ R2 _ _]. rewrite Forall_forall in F2, R2.
  assert (E : forall b, lo <= b < hp s1 -> words s2 !! b = words s1 !! b) by (intros b Hb; apply Fr2; [intros Hb2; pose proof (F2 b Hb2)| |]; lia).
  split; [intros b v Hb Hv _; now rewrite E|]. intros m Hm (v & Hv & D). exists v. split; [now rewrite E|].
  destruct (decide (m ∈ X2 ++ X1)) as [Hx|Hx], (decide (m ∈ X1)) as [Hx1|Hx1]; auto; exfalso; rewrite elem_of_app in Hx; [|tauto]. destruct Hx as [Hx|]; [|auto]. pose proof (R2 m Hx). lia.
Qed.
(** And what is above does not depend on the maps below. *)
Lemma above_extends X1 X2 lo hi h : Forall (fun m => m < lo) X1 -> extends X2 (X2 ++ X1) lo hi h h.
Proof.
  intros F. split; auto. intros k Hk (y & Hy & Dy). exists y. split; auto. destruct (decide (k ∈ X2 ++ X1)) as [Hx|Hx], (decide (k ∈ X2)) as [Hx1|Hx1]; auto; exfalso; rewrite elem_of_app in Hx; [|tauto].
  destruct Hx as [|Hx]; auto. rewrite Forall_forall in F. pose proof (F k Hx). lia.
Qed.
Lemma decoded_trans root h1 h2 s s1 s2 p1 p2 nx1 nx2 W1 W2 X1 X2 : root < 0 -> 0 <= hp s -> Forall (fun a => a < hp s) h2 ->
  decoded_to root h1 s s1 p1 nx1 W1 X1 -> decoded_to root h2 s1 s2 p2 nx2 W2 X2 -> decoded_to root (h1 ++ h2) s s2 p2 nx2 (W1 + W2) (X2 ++ X1).
Proof.
  intros Hr Hp F2 [N1 E1 P1 L1 T1 Fr1 M1 R1 S1 K1] D2. pose proof D2 as [N2 E2 P2 L2 T2 Fr2 M2 R2 S2 K2]. split; auto; try lia; try congruence.
  - intros b Hb Hbr Hbh. rewrite elem_of_app in Hb. rewrite Fr2, Fr1; auto. lia.
  - apply chain_app. exists (maps_head s1). split; auto. eapply chain_frame; [|exact M1]. intros m Hm. rewrite Forall_forall in R1, F2. pose proof (R1 m Hm). apply Fr2; [intros Hm2; pose proof (F2 m Hm2)| |]; lia.
  - apply Forall_app. split; (eapply Forall_impl; [eassumption|]); cbn; intros m Hm; lia.
  - apply StronglySorted_app. splits; auto. intros m m' Hm Hm'. rewrite Forall_forall in R1, R2. pose proof (R2 m Hm). pose proof (R1 m' Hm'). lia.
  - intros m Hm. apply elem_of_app in Hm as [Hm|Hm].
    + rewrite Forall_forall in R2. pose proof (R2 m Hm). apply (map_ok_mono key_lt X2 (X2 ++ X1) (hp s1) (hp s2) (hp s) (hp s2) (words s2)); auto; try lia.
      apply above_extends. eapply Forall_impl; [exact R1|]. cbn. intros; lia.
    + rewrite Forall_forall in R1. pose proof (R1 m Hm). apply (map_ok_mono key_lt X1 (X2 ++ X1) (hp s) (hp s1) (hp s) (hp s2) (words s1)); auto; try lia.
      eapply later_extends; eauto.
Qed.
Definition decodable (t : term) : Prop := decodes t /\ 0 <= term_words t /\ len (ext false t) <= 2 ^ 31.
Lemma fill ts : Forall decodable ts -> forall root s holes nx p, ready root s (total term_words ts) -> chain LINK (words s) (next s) holes nx -> NoDup holes ->
  Forall (fun a => a < hp s /\ a <> root - 1) holes -> length holes = length ts -> ep s = all_ext ts ++ p ->
  exists n s' X, (length X <= n <= length (all_ext ts))%nat /\ reaches root n s s' /\ decoded_to root holes s s' p nx (total term_words ts) X /\ filled X (hp s) (hp s') (words s') holes ts.
Proof.
  induction 1 as [|t ts (D & Wt & Lt) F IH]; intros root s holes nx p (Hr & Hp & Ht & Hl) C Nd Fh Hlen He.
  - destruct holes; [|discriminate]. cbn in C, He. subst nx. exists 0%nat, s, []. splits; [cbn; lia|cbn; lia|intros fuel; reflexivity|now apply decoded_refl|constructor].
  - destruct holes as [|a holes]; [discriminate|]. destruct C as (Hn & nx1 & Ha & C). apply NoDup_cons in Nd as [Na Nd]. apply Forall_cons in Fh as [[Ha1 Ha2] Fh]. injection Hlen as Hlen.
    rewrite total_cons in *. unfold ExtSized.all_ext in He. cbn [flat_map] in He. fold (all_ext ts) in He. rewrite <- app_assoc in He.
    assert (0 <= total term_words ts) by (apply total_nonneg; intros x Hx; rewrite Forall_forall in F; now apply F).
    assert (Fh' : Forall (fun b => b < hp s) holes) by (eapply Forall_impl; [exact Fh|]; cbn; tauto).
    destruct (D root s a nx1 (all_ext ts ++ p)) as (n & s1 & X1 & w & Hn1 & R1 & D1 & Hw & Rep); auto; [split; auto; split; auto; split; auto; lia|].
    pose proof D1 as [N1 E1 P1 L1 T1 Fr1 M1 Rg1 S1 K1].
    destruct (IH root s1 holes nx p) as (m & s2 & X2 & Hm & R2 & D2 & Fi); auto.
    + split; auto. split; [lia|]. split; auto. lia.
    + rewrite N1. eapply chain_frame; [|exact C]. intros b Hb. rewrite Forall_forall in Fh. destruct (Fh b Hb). apply Fr1; auto. rewrite list_elem_of_singleton. congruence.
    + eapply Forall_impl; [exact Fh|]. cbn. intros b [Hb Hb']. split; auto. lia.
    + exists (n + m)%nat, s2, (X2 ++ X1). splits.
      * rewrite length_app. lia.
      * unfold ExtSized.all_ext. cbn [flat_map]. rewrite length_app. fold (all_ext ts). lia.
      * now apply (reaches_trans root n m s s1).
      * apply (decoded_trans root [a] holes s s1 s2 (all_ext ts ++ p) p nx1 nx); auto.
      * pose proof D2 as [_ _ P2 _ _ Fr2 _ _ _ _]. constructor.
        -- exists w. split; [rewrite Fr2; auto; lia|]. revert Rep. apply rep_mono; [lia|lia|]. eapply (later_extends root holes (hp s) s1 s2); eauto.
        -- eapply Forall2_impl; [exact Fi|]. cbn. intros b x (v & Hv & Rv). exists v. split; auto. revert Rv. apply rep_mono; [lia|lia|].
           apply above_extends. eapply Forall_impl; [exact Rg1|]. cbn. intros; lia.
Qed.

(** ** Objects with holes *)
(** What the first turn does: the objects are allocated, with holes for the parts. *)
Record opened (root a : Z) (s s1 : state) (q : list Z) (nx : option Z) (t : term) (ts : list term) (holes Xm : list Z) (w : word) : Prop := {
  op_ep : ep s1 = q;
  op_hp : hp s <= hp s1;
  op_words : hp s1 - hp s + total term_words ts <= term_words t;
  op_limit : limit s1 = limit s;
  op_table : table s1 = atoms;
  op_chain : chain LINK (words s1) (next s1) holes nx;
  op_nodup : NoDup holes;
  op_holes : Forall (fun b => hp s <= b < hp s1) holes;
  op_length : length holes = length ts;
  op_frame b : b <> a -> b <> root - 1 -> b < hp s -> words s1 !! b = words s !! b;
  op_maps : chain MAP_LINK (words s1) (maps_head s1) Xm (maps_head s);
  op_range : Forall (fun m => hp s <= m < hp s1 /\ m ∉ holes) Xm;
  op_count : (length Xm <= 1)%nat;
  op_sorted : StronglySorted Z.gt Xm;
  op_word : words s1 !! a = Some w;
  op_ok X hi h : hp s1 <= hi -> (forall b, b ∉ holes -> hp s <= b < hp s1 -> h !! b = words s1 !! b) -> filled X (hp s1) hi h holes ts -> forall m, m ∈ Xm -> map_ok key_lt X (hp s) hi h m;
  op_rep X hi h : hp s1 <= hi -> (forall b, b ∉ holes -> hp s <= b < hp s1 -> h !! b = words s1 !! b) -> (forall m, m ∈ Xm -> m ∈ X) ->
    filled X (hp s) hi h holes ts -> rep X (hp s) hi h t w }.
Lemma decodes_opened t tag bs ts : ext false t = tag :: bs ++ all_ext ts -> Forall decodable ts ->
  (forall root s a nx q, ready root s (term_words t) -> a < hp s -> a <> root - 1 -> next s = nx -> ep s = bs ++ q -> exists s1 holes Xm w, opened root a s s1 q nx t ts holes Xm w /\
     forall nested, small_reader nested -> dec_leaf nested root tag = None /\ exists f, dec_compound nested root tag = Some f /\ f a s = Got s1) -> decodes t.
Proof.
  intros E F Op root s a nx p (Hr & Hp & Ht & Hl) Hn Ha Hah Har He _. rewrite E in *. cbn [app] in He. rewrite <- app_assoc in He. set (s0 := at_ep (bs ++ all_ext ts ++ p) (at_next nx s)).
  destruct (Op root s0 a nx (all_ext ts ++ p)) as (s1 & holes & Xm & w & O & Run); auto; [split; auto|].
  pose proof O as [E1 P1 W1 L1 T1 C1 Nd1 H1 Len1 Fr1 M1 R1 Cn S1 Hw Ok Rep].
  change (hp s0) with (hp s) in *. change (limit s0) with (limit s) in *. change (words s0) with (words s) in *. change (maps_head s0) with (maps_head s) in *.
  destruct (fill ts F root s1 holes nx p) as (n & s2 & X2 & Hn2 & R2 & D2 & Fi); auto.
  { split; auto. split; [lia|]. split; auto. lia. }
  { eapply Forall_impl; [exact H1|]. cbn. intros b Hb. lia. }
  pose proof D2 as [N2 E2 P2 L2 T2 Fr2 M2 Rg2 S2 K2]. rewrite Forall_forall in H1, R1, Rg2.
  exists (1 + n)%nat, s2, (X2 ++ Xm), w. splits.
  - rewrite length_app. lia.
  - cbn [length]. rewrite length_app. lia.
  - intros fuel. rewrite <- Nat.add_assoc, (loop_turn _ root a) by auto. rewrite (step_tag _ _ _ nx tag (bs ++ all_ext ts ++ p)) by auto. fold s0.
    replace (n + Datatypes.S fuel)%nat with (Datatypes.S (n + fuel)) by lia. destruct (Run _ (nested_reader (n + fuel))) as (-> & f & -> & ->). cbn [mbind decoded_bind].
    replace (Datatypes.S (n + fuel)) with (n + Datatypes.S fuel)%nat by lia. apply R2.
  - split; auto; try lia; try congruence.
    + intros b Hb Hbr Hbh. rewrite list_elem_of_singleton in Hb. rewrite Fr2, Fr1; auto; [intros Hb2; pose proof (H1 b Hb2)|]; lia.
    + apply chain_app. exists (maps_head s1). split; auto. eapply chain_frame; [|exact M1]. intros m Hm. destruct (R1 m Hm). apply Fr2; auto; lia.
    + apply Forall_app. split; apply Forall_forall; intros m Hm; [pose proof (Rg2 m Hm); lia|destruct (R1 m Hm); lia].
    + apply StronglySorted_app. splits; auto. intros m m' Hm Hm'. pose proof (Rg2 m Hm). destruct (R1 m' Hm'). lia.
    + assert (Ab : extends X2 (X2 ++ Xm) (hp s1) (hp s2) (words s2) (words s2)) by (apply above_extends, Forall_forall; intros m Hm; destruct (R1 m Hm); lia).
      intros m Hm. apply elem_of_app in Hm as [Hm|Hm].
      * pose proof (Rg2 m Hm). apply (map_ok_mono key_lt X2 (X2 ++ Xm) (hp s1) (hp s2) (hp s) (hp s2) (words s2)); auto; lia.
      * apply Ok; auto; [lia|intros b Hb Hbr; apply Fr2; auto; lia|]. eapply Forall2_impl; [exact Fi|]. cbn. intros b x (v & Hv & Rv). exists v. split; auto. revert Rv. apply rep_mono; auto; lia.
  - rewrite Fr2; auto; [intros Hb2; pose proof (H1 a Hb2); lia|lia].
  - apply Rep; [lia| | |].
    + intros b Hb Hbr. apply Fr2; auto; lia.
    + intros m Hm. apply elem_of_app. auto.
    + eapply Forall2_impl; [exact Fi|]. cbn. intros b x (v & Hv & Rv). exists v. split; auto. revert Rv. apply rep_mono; [lia|lia|].
      apply above_extends. apply Forall_forall. intros m Hm. destruct (R1 m Hm). lia.
Qed.

End Fill.
