(* ===== verification/ExtObjects.v ===== *)
(** Decoding of lists, tuples, maps, exports and funs, in terms of the chain. *)

From S2P Require Import Prelude.
From stdpp Require Import base option list gmap sorting.
From S2P Require Import BigNum BigConv Memory Utf8 Atoms ExtTerm ExtEncode ExtDecode ExtSpec ExtSize ExtSizer ExtBytes ExtSized ExtRep ExtFill.
Local Open Scope Z_scope.

(** ** Cells side by side *)
Fixpoint zseq2 (p : Z) (n : nat) : list Z := match n with O => [] | Datatypes.S n => p :: zseq2 (p + 2) n end.
Lemma zseq2_elem b : forall n p, b ∈ zseq2 p n <-> exists i, 0 <= i < Z.of_nat n /\ b = p + 2 * i.
Proof.
  induction n as [|n IH]; intros p; cbn [zseq2]; [rewrite elem_of_nil; split; [tauto|intros (i & Hi & _); lia]|]. rewrite elem_of_cons, IH. split.
  - intros [->|(i & Hi & ->)]; [exists 0|exists (i + 1)]; lia.
  - intros (i & Hi & ->). destruct (decide (i = 0)) as [->|]; [left; lia|right; exists (i - 1); lia].
Qed.
Lemma zseq2_length n : forall p, length (zseq2 p n) = n.
Proof. induction n as [|n IH]; intros p; cbn [zseq2 length]; auto. Qed.
Lemma zseq2_NoDup n : forall p, NoDup (zseq2 p n).
Proof. induction n as [|n IH]; intros p; cbn [zseq2]; constructor; auto. rewrite zseq2_elem. intros (i & Hi & E). lia. Qed.
Lemma zseq2_snoc n : forall p, zseq2 p (Datatypes.S n) = zseq2 p n ++ [p + 2 * Z.of_nat n].
Proof. induction n as [|n IH]; intros p; [cbn; f_equal; lia|]. cbn [zseq2 app] in *. f_equal. rewrite IH. f_equal. f_equal. lia. Qed.
(** The holes of a list of [n] cells: its elements and, last, its tail. *)
Definition list_holes (p : Z) (n : nat) : list Z := zseq2 p n ++ [p + 2 * Z.of_nat n - 1].
Lemma list_holes_elem b p n : b ∈ list_holes p n <-> (exists i, 0 <= i < Z.of_nat n /\ b = p + 2 * i) \/ b = p + 2 * Z.of_nat n - 1.
Proof. unfold list_holes. rewrite elem_of_app, list_elem_of_singleton, zseq2_elem. reflexivity. Qed.
Lemma list_holes_NoDup p n : (0 < n)%nat -> NoDup (list_holes p n).
Proof.
  intros Hn. apply NoDup_app. splits; [apply zseq2_NoDup| |apply NoDup_singleton]. intros b Hb Hs. rewrite zseq2_elem in Hb. rewrite list_elem_of_singleton in Hs. destruct Hb as (i & Hi & ->). lia.
Qed.
(** A cell leads to the one behind it. *)
Definition linked (h : heap) (lo hi : Z) : Prop := forall i, 0 <= i -> lo + 2 * i + 1 < hi -> h !! (lo + 2 * i + 1) = Some (make_list (lo + 2 * i + 2)).
Lemma rep_cells X lo hi h t : is_list t = true -> forall p, lo <= p -> p + 2 * len (elems t) <= hi ->
  filled X lo hi h (list_holes p (length (elems t))) (elems t ++ [tail_of t]) -> linked h p (p + 2 * len (elems t) - 2) -> rep X lo hi h t (make_list p).
Proof.
  induction t as [| | | | |hd tl _ IH| | | | | | | |] using term_ind; try discriminate. intros _ p Hlo Hhi Fi Lk. cbn [elems tail_of length list_holes zseq2 app] in *. unfold list_holes in Fi. cbn [zseq2 app] in Fi.
  inversion Fi as [|? ? ? ? (w & Hw & R) Fi']; subst. clear Fi. cbn [rep]. destruct (is_list tl) eqn:L.
  - assert (Hn : (0 < length (elems tl))%nat) by (destruct tl; try discriminate; cbn; lia). exists p, w, (make_list (p + 2)). splits; auto; [split; [lia|auto]|split; [lia|]|].
    + specialize (Lk 0 ltac:(lia) ltac:(lia)). replace (p + 2 * 0 + 1) with (p + 1) in Lk by lia. replace (p + 2 * 0 + 2) with (p + 2) in Lk by lia. exact Lk.
    + apply IH; auto; try lia.
      * unfold list_holes. replace (p + 2 + 2 * len (elems tl) - 1) with (p + 2 * Z.of_nat (Datatypes.S (length (elems tl))) - 1) by lia. exact Fi'.
      * intros i Hi Hb. specialize (Lk (i + 1) ltac:(lia) ltac:(lia)). replace (p + 2 + 2 * i + 1) with (p + 2 * (i + 1) + 1) by lia. replace (p + 2 + 2 * i + 2) with (p + 2 * (i + 1) + 2) by lia. exact Lk.
  - assert (E : elems tl = [] /\ tail_of tl = tl) by (destruct tl; auto; discriminate). destruct E as [E1 E2]. rewrite E1, E2 in *. cbn [length zseq2 app] in *.
    inversion Fi' as [|? ? ? ? (w2 & Hw2 & R2) _]; subst. replace (p + 2 * Z.of_nat 1 - 1) with (p + 1) in Hw2 by lia. exists p, w, w2. splits; auto; split; auto; lia.
Qed.

Section Cells.
Context {S : Type} `{AtomOps S}.
Notation state := (dec_state S).
Lemma link_cells_spec n : forall a (s : state), a + 1 < limit s -> next s = Some (a + 2) -> exists s1, link_cells n a s = Got s1 /\
  ep s1 = ep s /\ hp s1 = hp s /\ limit s1 = limit s /\ maps_head s1 = maps_head s /\ table s1 = table s /\
  (forall b, ~ a - 2 * Z.of_nat n + 2 <= b <= a + 1 -> words s1 !! b = words s !! b) /\
  chain LINK (words s1) (next s1) (zseq2 (a - 2 * Z.of_nat n + 2) n) (next s) /\ linked (words s1) (a - 2 * Z.of_nat n + 2) (a + 2).
Proof.
  induction n as [|n IH]; intros a s Ha Hn; cbn [link_cells].
  - exists s. splits; auto; [reflexivity|]. intros i Hi Hb. lia.
  - rewrite Hn. cbn [access mbind decoded_bind]. rewrite put_ok by lia. cbn [mbind decoded_bind]. rewrite put_ok by (cbn [limit]; lia). cbn [mbind decoded_bind]. set (s0 := at_next (Some a) _).
    destruct (IH (a - 2) s0 ltac:(subst s0; cbn; lia) ltac:(subst s0; cbn; f_equal; lia)) as (s1 & E & E1 & E2 & E3 & E4 & E5 & Fr & C & Lk).
    exists s1. rewrite E. subst s0. cbn [at_next ep hp limit maps_head table words next] in *. splits; auto.
    + intros b Hb. rewrite Fr, !lookup_insert_ne by lia. reflexivity.
    + rewrite zseq2_snoc. replace (a - 2 * Z.of_nat (Datatypes.S n) + 2) with (a - 2 - 2 * Z.of_nat n + 2) by lia. apply chain_app. exists (Some a). split; auto.
      replace (a - 2 - 2 * Z.of_nat n + 2 + 2 * Z.of_nat n) with a by lia. cbn [chain]. split; auto. exists (Some (a + 2)). split; auto. rewrite Fr, lookup_insert_ne, lookup_insert_eq by lia. auto.
    + intros i Hi Hb. replace (a - 2 * Z.of_nat (Datatypes.S n) + 2) with (a - 2 - 2 * Z.of_nat n + 2) in * by lia. destruct (decide (i = Z.of_nat n)) as [->|].
      * replace (a - 2 - 2 * Z.of_nat n + 2 + 2 * Z.of_nat n + 1) with (a + 1) by lia. replace (a - 2 - 2 * Z.of_nat n + 2 + 2 * Z.of_nat n + 2) with (a + 2) by lia.
        rewrite Fr, lookup_insert_eq by lia. auto.
      * apply Lk; lia.
Qed.
(** The cells of a string. *)
Lemma string_cells_spec bs : forall (s : state), hp s + 2 * len bs <= limit s -> exists s1, string_cells bs s = Got s1 /\
  ep s1 = ep s /\ hp s1 = hp s + 2 * len bs /\ limit s1 = limit s /\ maps_head s1 = maps_head s /\ table s1 = table s /\ next s1 = next s /\
  (forall b, ~ hp s <= b < hp s + 2 * len bs -> words s1 !! b = words s !! b) /\
  (forall i b, bs !! i = Some b -> words s1 !! (hp s + 2 * Z.of_nat i) = Some (make_small b)) /\ linked (words s1) (hp s) (hp s + 2 * len bs).
Proof.
  induction bs as [|b0 bs IH]; intros s Hl; cbn [string_cells length] in *.
  - exists s. splits; auto; try lia; [discriminate|]. intros i Hi Hb. lia.
  - rewrite put_ok by lia. cbn [mbind decoded_bind]. rewrite put_ok by (cbn [hp limit]; lia). cbn [mbind decoded_bind]. set (s0 := grow 2 _).
    destruct (IH s0 ltac:(subst s0; cbn; lia)) as (s1 & E & E1 & E2 & E3 & E4 & E5 & E6 & Fr & Fb & Lk).
    exists s1. rewrite E. subst s0. unfold grow in *. cbn [ep hp limit maps_head table words next] in *. splits; auto; try lia.
    + intros b Hb. rewrite Fr, !lookup_insert_ne by lia. reflexivity.
    + intros i b Hi. destruct i as [|i]; cbn in Hi.
      * injection Hi as ->. replace (hp s + 2 * Z.of_nat 0) with (hp s) by lia. rewrite Fr, lookup_insert_ne, lookup_insert_eq by lia. auto.
      * replace (hp s + 2 * Z.of_nat (Datatypes.S i)) with (hp s + 2 + 2 * Z.of_nat i) by lia. now apply Fb.
    + intros i Hi Hb. destruct (decide (i = 0)) as [->|].
      * replace (hp s + 2 * 0 + 1) with (hp s + 1) by lia. replace (hp s + 2 * 0 + 2) with (hp s + 2) by lia. rewrite Fr, lookup_insert_eq by lia. auto.
      * specialize (Lk (i - 1) ltac:(lia) ltac:(lia)). replace (hp s + 2 * i + 1) with (hp s + 2 + 2 * (i - 1) + 1) by lia. replace (hp s + 2 * i + 2) with (hp s + 2 + 2 * (i - 1) + 2) by lia. exact Lk.
Qed.
(** The holes of a map: a key and its value, one after the other. *)
Fixpoint zpairs (k v : Z) (n : nat) : list Z := match n with O => [] | Datatypes.S n => k :: v :: zpairs (k + 1) (v + 1) n end.
Lemma zpairs_snoc n : forall k v, zpairs k v (Datatypes.S n) = zpairs k v n ++ [k + Z.of_nat n; v + Z.of_nat n].
Proof. induction n as [|n IH]; intros k v; [cbn; f_equal; [lia|f_equal; lia]|]. cbn [zpairs app] in *. do 2 f_equal. rewrite IH. f_equal. f_equal; [lia|f_equal; lia]. Qed.
Lemma zpairs_elem b : forall n k v, b ∈ zpairs k v n <-> k <= b < k + Z.of_nat n \/ v <= b < v + Z.of_nat n.
Proof. induction n as [|n IH]; intros k v; cbn [zpairs]; [rewrite elem_of_nil; lia|]. rewrite !elem_of_cons, IH. lia. Qed.
Lemma zpairs_length n : forall k v, length (zpairs k v n) = (2 * n)%nat.
Proof. induction n as [|n IH]; intros k v; cbn [zpairs length]; auto. rewrite IH. lia. Qed.
Lemma zpairs_NoDup n : forall k v, k + Z.of_nat n <= v -> NoDup (zpairs k v n).
Proof.
  induction n as [|n IH]; intros k v Hkv; cbn [zpairs]; constructor; [|constructor; [|apply IH; lia]].
  - rewrite elem_of_cons, zpairs_elem. lia.
  - rewrite zpairs_elem. lia.
Qed.
Lemma link_pairs_spec n : forall k v (s : state), v < limit s -> k + Z.of_nat n <= v -> exists s1, link_pairs n k v s = Got s1 /\
  ep s1 = ep s /\ hp s1 = hp s /\ limit s1 = limit s /\ maps_head s1 = maps_head s /\ table s1 = table s /\
  (forall b, ~ k - Z.of_nat n < b <= k -> ~ v - Z.of_nat n < b <= v -> words s1 !! b = words s !! b) /\
  chain LINK (words s1) (next s1) (zpairs (k - Z.of_nat n + 1) (v - Z.of_nat n + 1) n) (next s).
Proof.
  induction n as [|n IH]; intros k v s Hv Hkv; cbn [link_pairs].
  - exists s. splits; auto. reflexivity.
  - rewrite put_ok by lia. cbn [mbind decoded_bind]. rewrite put_ok by (cbn [limit]; lia). cbn [mbind decoded_bind]. set (s0 := at_next (Some k) _).
    destruct (IH (k - 1) (v - 1) s0 ltac:(subst s0; cbn; lia) ltac:(lia)) as (s1 & E & E1 & E2 & E3 & E4 & E5 & Fr & C).
    exists s1. rewrite E. subst s0. cbn [at_next ep hp limit maps_head table words next] in *. splits; auto.
    + intros b Hb Hb'. rewrite Fr, !lookup_insert_ne by lia. reflexivity.
    + rewrite zpairs_snoc. replace (k - Z.of_nat (Datatypes.S n) + 1) with (k - 1 - Z.of_nat n + 1) by lia. replace (v - Z.of_nat (Datatypes.S n) + 1) with (v - 1 - Z.of_nat n + 1) by lia.
      apply chain_app. exists (Some k). split; auto. replace (k - 1 - Z.of_nat n + 1 + Z.of_nat n) with k by lia. replace (v - 1 - Z.of_nat n + 1 + Z.of_nat n) with v by lia.
      cbn [chain]. split; auto. exists (Some v). split; [rewrite Fr, lookup_insert_eq by lia; auto|]. split; auto. exists (next s). split; auto. rewrite Fr, lookup_insert_ne, lookup_insert_eq by lia. auto.
Qed.
End Cells.

Section Objects.
Context {S : Type} `{AtomLaws S}.
Variable this_node : Z * Z.
Variable safe : bool.
Variable strtod : list Z -> option (Z * Z).
Variable erts_active_export_entry : Z -> Z -> Z -> bool.
Variable old_fun_arity : Z -> Z -> Z -> Z.
Variable CMP_TERM : S -> heap -> word -> word -> decoded Z.
Variable sys_double_to_chars : Z * Z -> list Z.
Variable key_lt : term -> term -> Prop.
Variable atoms : S.
Variable dflags : Z.
Context {plain : PlainTags dflags}.
Hypothesis new_funs : has DFLAG_NEW_FUN_TAGS dflags = true.
Hypothesis new_floats : has DFLAG_NEW_FLOATS dflags = true.
Hypothesis bit_binaries : has DFLAG_BIT_BINARIES dflags = true.
Hypothesis export_tag : has DFLAG_EXPORT_PTR_TAG dflags = true.
Hypothesis exports_active : forall m f arity, negb safe || erts_active_export_entry m f arity = true.
Notation state := (dec_state S).
Notation ext := (ext this_node sys_double_to_chars atoms dflags).
Notation all_ext := (all_ext this_node sys_double_to_chars atoms dflags).
Notation atom_ext := (atom_ext atoms dflags).
Notation dec_loop := (dec_loop this_node safe strtod erts_active_export_entry old_fun_arity CMP_TERM).
Notation dec_term := (dec_term this_node safe strtod erts_active_export_entry old_fun_arity CMP_TERM).
Notation dec_leaf nested := (dec_leaf this_node safe strtod nested erts_active_export_entry).
Notation dec_compound nested := (dec_compound this_node safe nested old_fun_arity).
Notation dec_step nested := (dec_step this_node safe strtod nested erts_active_export_entry old_fun_arity).
Notation reads := (reads atoms).

Notation small_reader := (small_reader (S := S)).
Notation decodes := (decodes this_node safe strtod erts_active_export_entry old_fun_arity CMP_TERM sys_double_to_chars key_lt atoms dflags).
Notation decodable := (decodable this_node safe strtod erts_active_export_entry old_fun_arity CMP_TERM sys_double_to_chars key_lt atoms dflags).
Notation ready := (ready atoms).

(** ** Tuples *)
Lemma dec_tuple_opened root s a nx q ts n : n = len ts -> ready root s (term_words (TUPLE_DEF ts)) -> 0 <= total term_words ts -> a < hp s -> a <> root - 1 -> next s = nx -> ep s = q ->
  exists s1 w, dec_tuple a n s = Got s1 /\ opened key_lt atoms root a s s1 q nx (TUPLE_DEF ts) ts (zseq (hp s + 1) (length ts)) [] w.
Proof.
  intros -> (Hr & Hp & Ht & Hl) Hw Ha Har Hn He. cbn [term_words] in Hl. unfold dec_tuple, nonneg. rewrite (proj2 (Z.ltb_ge (len ts) 0)) by lia. cbn [mbind decoded_bind].
  rewrite put_ok by lia. cbn [mbind decoded_bind ep hp words limit next maps_head table]. rewrite put_ok by (cbn [limit]; lia). cbn [mbind decoded_bind ep hp words limit next maps_head table]. unfold grow. cbn [ep hp words limit next maps_head table].
  set (s0 := mkDec _ _ _ _ _ _ _). destruct (link_down_spec (Z.to_nat (len ts)) (hp s + (1 + len ts) - 1) s0 ltac:(subst s0; cbn; lia)) as (s1 & -> & E1 & E2 & E3 & E4 & E5 & Fr & C).
  subst s0. cbn [ep hp words limit next maps_head table] in *. rewrite Nat2Z.id in *. replace (hp s + (1 + len ts) - 1 - len ts + 1) with (hp s + 1) in C by lia.
  exists s1, (make_boxed (hp s)). split; auto. split; auto; try congruence; try lia.
  - cbn [term_words]. lia.
  - apply zseq_NoDup.
  - apply Forall_forall. intros b Hb. apply zseq_elem in Hb. lia.
  - apply zseq_length.
  - intros b Hb Hbr Hbh. rewrite Fr, !lookup_insert_ne by lia. auto.
  - constructor.
  - rewrite Fr, lookup_insert_ne, lookup_insert_eq by lia. auto.
  - intros X hi h _ _ _ m Hm. now apply elem_of_nil in Hm.
  - intros X hi h Hhi Fh _ Fi. cbn [rep]. exists (hp s). splits; auto.
    + split; [lia|]. rewrite Fh, Fr, lookup_insert_eq by (rewrite ?zseq_elem; lia). auto.
    + apply slots_filled; auto; lia.
Qed.
Lemma decodable_total ts : Forall decodable ts -> 0 <= total term_words ts.
Proof. intros F. apply total_nonneg. intros t Ht. rewrite Forall_forall in F. now apply F. Qed.
Lemma decodes_tuple ts : Forall decodable ts -> len ts < 2 ^ 31 -> decodes (TUPLE_DEF ts).
Proof.
  intros F Hlen. pose proof (decodable_total ts F) as Hw. destruct (Z.leb_spec (len ts) 255) as [Hb|Hb].
  - eapply (decodes_opened _ _ _ _ _ _ _ _ _ _ (TUPLE_DEF ts) SMALL_TUPLE_EXT (put_int8 (len ts)) ts); auto; [cbn [ExtSpec.ext]; unfold tuple_header; rewrite (proj2 (Z.leb_le _ _) Hb); reflexivity|].
    intros root s a nx q R Ha Har Hn He. destruct (dec_tuple_opened root (at_ep q s) a nx q ts (len ts)) as (s1 & w & E & O); auto. exists s1, (zseq (hp s + 1) (length ts)), [], w. split; [destruct O; split; auto|].
    intros nested _. split; [reflexivity|]. eexists. split; [reflexivity|]. cbv beta. rewrite (take8_put _ _ _ He) by lia. exact E.
  - eapply (decodes_opened _ _ _ _ _ _ _ _ _ _ (TUPLE_DEF ts) LARGE_TUPLE_EXT (put_int32 (len ts)) ts); auto; [cbn [ExtSpec.ext]; unfold tuple_header; rewrite (proj2 (Z.leb_gt _ _) Hb); reflexivity|].
    intros root s a nx q R Ha Har Hn He. destruct (dec_tuple_opened root (at_ep q s) a nx q ts (len ts)) as (s1 & w & E & O); auto. exists s1, (zseq (hp s + 1) (length ts)), [], w. split; [destruct O; split; auto|].
    intros nested _. split; [reflexivity|]. eexists. split; [reflexivity|]. cbv beta. rewrite (take32_put _ _ _ He), s32_id by lia. exact E.
Qed.

(** ** Lists *)
Lemma dec_list_opened root s a nx q t : is_list t = true -> ready root s (term_words t) -> 0 <= total term_words (elems t ++ [tail_of t]) -> a < hp s -> a <> root - 1 -> next s = nx -> ep s = q ->
  exists s1 w, dec_list a (len (elems t)) s = Got s1 /\ opened key_lt atoms root a s s1 q nx t (elems t ++ [tail_of t]) (list_holes (hp s) (length (elems t))) [] w.
Proof.
  intros L (Hr & Hp & Ht & Hl) Hw Ha Har Hn He. rewrite words_elems in Hl. rewrite total_app in Hw. cbn [total foldr] in Hw.
  assert (Hlen : exists n, length (elems t) = Datatypes.S n) by (destruct t; try discriminate; cbn; eauto). destruct Hlen as [n En].
  unfold dec_list, nonneg. rewrite En in *. rewrite (proj2 (Z.ltb_ge (Z.of_nat (Datatypes.S n)) 0)), (proj2 (Z.eqb_neq _ _)) by lia. cbn [mbind decoded_bind].
  rewrite put_ok by lia. cbn [mbind decoded_bind]. unfold grow. cbn [ep hp words limit next maps_head table]. rewrite put_ok by (cbn [limit]; lia). cbn [mbind decoded_bind ep hp words limit next maps_head table].
  rewrite put_ok by (cbn [limit]; lia). cbn [mbind decoded_bind ep hp words limit next maps_head table]. set (cell := hp s + 2 * Z.of_nat (Datatypes.S n) - 2). set (s0 := at_next _ _).
  replace (Z.to_nat (Z.of_nat (Datatypes.S n) - 1)) with n by lia.
  destruct (link_cells_spec n (cell - 2) s0 ltac:(subst s0 cell; cbn [at_next limit]; lia) ltac:(subst s0 cell; cbn [at_next next]; f_equal; lia)) as (s1 & -> & E1 & E2 & E3 & E4 & E5 & Fr & C & Lk).
  subst s0. cbn [at_next ep hp words limit next maps_head table] in *. subst cell.
  replace (hp s + 2 * Z.of_nat (Datatypes.S n) - 2 - 2 - 2 * Z.of_nat n + 2) with (hp s) in * by lia. replace (hp s + 2 * Z.of_nat (Datatypes.S n) - 2 - 2 + 2) with (hp s + 2 * Z.of_nat (Datatypes.S n) - 2) in * by lia.
  exists s1, (make_list (hp s)). split; auto. split; auto; try congruence; try lia.
  - rewrite words_elems, En, total_app. cbn [total foldr]. lia.
  - unfold list_holes. rewrite zseq2_snoc, <- app_assoc. apply chain_app. exists (Some (hp s + 2 * Z.of_nat (Datatypes.S n) - 2)). split; auto. replace (hp s + 2 * Z.of_nat n) with (hp s + 2 * Z.of_nat (Datatypes.S n) - 2) by lia.
    cbn [app chain]. split; auto. exists (Some (hp s + 2 * Z.of_nat (Datatypes.S n) - 2 + 1)). split; [rewrite Fr, lookup_insert_ne, lookup_insert_eq by lia; auto|]. split; [f_equal; lia|].
    exists nx. split; [|reflexivity]. replace (hp s + 2 * Z.of_nat (Datatypes.S n) - 1) with (hp s + 2 * Z.of_nat (Datatypes.S n) - 2 + 1) by lia. rewrite Fr, lookup_insert_eq by lia. now rewrite Hn.
  - apply list_holes_NoDup. lia.
  - apply Forall_forall. intros b Hb. apply list_holes_elem in Hb as [(i & Hi & ->)| ->]; lia.
  - unfold list_holes. rewrite !length_app, zseq2_length, En. reflexivity.
  - intros b Hb Hbr Hbh. rewrite Fr, !lookup_insert_ne by lia. auto.
  - constructor.
  - rewrite Fr, !lookup_insert_ne, lookup_insert_eq by lia. auto.
  - intros X hi h _ _ _ m Hm. now apply elem_of_nil in Hm.
  - intros X hi h Hhi Fh _ Fi. rewrite <- En in Fi. apply rep_cells; auto; [lia|lia|]. rewrite En in *. intros i Hi Hb. rewrite Fh; [apply Lk; lia| |lia].
    rewrite list_holes_elem. intros [(j & Hj & Ej)|Ej]; lia.
Qed.
Lemma string_filled X lo hi h bs : forall p, (forall i b, bs !! i = Some b -> h !! (p + 2 * Z.of_nat i) = Some (make_small b)) ->
  filled X lo hi h (zseq2 p (length bs)) (bytes_as_terms bs).
Proof.
  induction bs as [|b bs IH]; intros p Hb; cbn [length zseq2 bytes_as_terms map]; constructor.
  - exists (make_small b). split; [|reflexivity]. specialize (Hb 0%nat b eq_refl). replace (p + 2 * Z.of_nat 0) with p in Hb by lia. exact Hb.
  - apply IH. intros i c Hc. specialize (Hb (Datatypes.S i) c Hc). replace (p + 2 + 2 * Z.of_nat i) with (p + 2 * Z.of_nat (Datatypes.S i)) by lia. exact Hb.
Qed.
Lemma dec_string_opened root s a nx q t bs : is_list t = true -> elems t = bytes_as_terms bs -> tail_of t = NIL_DEF -> 2 * len bs <= term_words t ->
  ready root s (term_words t) -> a < hp s -> a <> root - 1 -> next s = nx -> ep s = bs ++ q ->
  exists s1 w, dec_string a (len bs) s = Got s1 /\ opened key_lt atoms root a s s1 q nx t [] [] [] w.
Proof.
  intros L Ee Et Hw (Hr & Hp & Ht & Hl) Ha Har Hn He.
  assert (Hlen : exists n, length bs = Datatypes.S n) by (destruct bs; [destruct t; discriminate|cbn; eauto]). destruct Hlen as [n En].
  unfold dec_string. rewrite (proj2 (Z.eqb_neq _ _)) by lia. rewrite put_ok by lia. cbn [mbind decoded_bind ep hp words limit next maps_head table].
  rewrite (take_block_app _ bs q) by auto. cbn [mbind decoded_bind]. set (s0 := at_ep q _).
  destruct (string_cells_spec bs s0 ltac:(subst s0; cbn [at_ep hp limit]; lia)) as (s1 & -> & E1 & E2 & E3 & E4 & E5 & E6 & Fr & Fb & Lk). cbn [mbind decoded_bind].
  subst s0. cbn [at_ep ep hp words limit next maps_head table] in *. rewrite put_ok by lia. eexists _, (make_list (hp s)). split; [reflexivity|].
  split; cbn [ep hp words limit next maps_head table]; auto; try congruence; try lia; try constructor.
  - cbn [total foldr]. lia.
  - intros b Hb Hbr Hbh. rewrite lookup_insert_ne, Fr, lookup_insert_ne by lia. auto.
  - rewrite lookup_insert_ne, Fr, lookup_insert_eq by lia. auto.
  - intros X hi h _ _ _ m Hm. now apply elem_of_nil in Hm.
  - intros X hi h Hhi Fh _ _. assert (Eh : forall b, hp s <= b < hp s1 -> b <> hp s1 - 1 -> h !! b = words s1 !! b).
    { intros b Hb Hb'. rewrite Fh by (auto; rewrite elem_of_nil; tauto). now rewrite lookup_insert_ne by lia. }
    assert (Le : length (elems t) = length bs) by (rewrite Ee; unfold bytes_as_terms; now rewrite length_map).
    apply rep_cells; rewrite ?Le; auto; try lia.
    + rewrite Et, Ee. unfold list_holes. apply Forall2_app.
      * apply string_filled. intros i b Hb. rewrite Eh; [now apply Fb| |]; apply lookup_lt_Some in Hb; lia.
      * constructor; [|constructor]. exists NIL. split; [|reflexivity]. rewrite Fh by (rewrite ?elem_of_nil; auto; lia). replace (hp s + 2 * len bs - 1) with (hp s1 - 1) by lia. apply lookup_insert_eq.
    + intros i Hi Hb. rewrite Eh by lia. apply Lk; lia.
Qed.
Lemma decodes_list t : is_list t = true -> (snd (is_external_string t) = false -> Forall decodable (elems t ++ [tail_of t])) -> len (elems t) < 2 ^ 31 -> decodes t.
Proof.
  intros L F Hlen. pose proof (ext_is_list this_node sys_double_to_chars atoms dflags t L) as E. destruct (snd (is_external_string t)) eqn:Es.
  - unfold is_external_string in Es. destruct (string_prefix t) as [bs r] eqn:Ep. cbn [snd fst] in *. apply andb_true_iff in Es as [Hn Hl%Z.ltb_lt]. unfold MAX_STRING_LEN in Hl.
    destruct (string_elems t) as (E1 & E2 & Fb); [now rewrite Ep|]. rewrite Ep in E1, Fb. cbn [fst] in E1, Fb.
    assert (Hw : 2 * len bs <= term_words t).
    { rewrite words_elems, E1, E2. unfold bytes_as_terms. rewrite length_map, total_map. cbn [term_words]. enough (0 <= total (fun x => small_words x) bs) by lia.
      apply total_nonneg. intros b Hb. apply small_words_nonneg, ssmall_range. rewrite Forall_forall in Fb. pose proof (Fb b Hb) as Hb'. unfold byte in Hb'. lia. }
    eapply (decodes_opened _ _ _ _ _ _ _ _ _ _ t STRING_EXT (put_int16 (len bs) ++ bs) []); [now rewrite E, app_nil_r|constructor|].
    intros root s a nx q R Ha Har Hnx He. rewrite <- app_assoc in He. destruct (dec_string_opened root (at_ep (bs ++ q) s) a nx q t bs) as (s1 & w & Ed & O); auto.
    exists s1, [], [], w. split; [destruct O; split; auto|]. intros nested _. split; [reflexivity|]. eexists. split; [reflexivity|]. cbv beta. rewrite (take16_put _ _ _ He) by lia. exact Ed.
  - pose proof (decodable_total _ (F eq_refl)) as Hw.
    eapply (decodes_opened _ _ _ _ _ _ _ _ _ _ t LIST_EXT (put_int32 (len (elems t))) (elems t ++ [tail_of t])); [exact E|auto|].
    intros root s a nx q R Ha Har Hnx He. destruct (dec_list_opened root (at_ep q s) a nx q t) as (s1 & w & Ed & O); auto.
    exists s1, (list_holes (hp s) (length (elems t))), [], w. split; [destruct O; split; auto|]. intros nested _. split; [reflexivity|]. eexists. split; [reflexivity|]. cbv beta.
    rewrite (take32_put _ _ _ He), s32_id by lia. exact Ed.
Qed.

(** ** Maps *)
Lemma filled_pairs X lo hi h kvs : forall k v, filled X lo hi h (zpairs k v (length kvs)) (pairs kvs) -> lo <= k -> k + len kvs <= hi -> lo <= v -> v + len kvs <= hi ->
  slots lo hi h (fun kv => rep X lo hi h (fst kv)) k kvs /\ slots lo hi h (fun kv => rep X lo hi h (snd kv)) v kvs.
Proof.
  induction kvs as [|[x y] kvs IH]; intros k v Fi Hk Hk' Hv Hv'; cbn [slots length pairs] in *; auto. unfold pairs in Fi. cbn [flat_map app zpairs fst snd] in Fi.
  inversion Fi as [|? ? ? ? (w & Hw & R) Fi']; subst. inversion Fi' as [|? ? ? ? (w' & Hw' & R') Fi2]; subst. destruct (IH (k + 1) (v + 1) Fi2) as [A B]; try lia.
  split; (split; [|auto]); [exists w|exists w']; (split; [split; [lia|auto]|auto]).
Qed.
Lemma slots_keys X lo hi h lo' kvs : forall k v, filled X lo' hi h (zpairs k v (length kvs)) (pairs kvs) -> lo <= k -> k + len kvs <= hi -> forall l, l <= lo' ->
  slots lo hi h (rep X l hi h) k (map fst kvs).
Proof.
  induction kvs as [|[x y] kvs IH]; intros k v Fi Hk Hk' l Hl; cbn [slots length map] in *; auto. unfold pairs in Fi. cbn [flat_map app zpairs fst snd] in Fi.
  inversion Fi as [|? ? ? ? (w & Hw & R) Fi']; subst. inversion Fi' as [|? ? ? ? _ Fi2]; subst. split; [|apply (IH (k + 1) (v + 1) Fi2); lia].
  exists w. split; [split; [lia|auto]|]. revert R. apply rep_mono; [lia|lia|]. split; auto.
Qed.
Lemma decodes_map kvs : in_order key_lt (map fst kvs) -> Forall decodable (pairs kvs) -> len kvs < 2 ^ 31 -> decodes (MAP_DEF kvs).
Proof.
  intros Ho F Hlen. pose proof (decodable_total _ F) as Hw. eapply (decodes_opened _ _ _ _ _ _ _ _ _ _ (MAP_DEF kvs) MAP_EXT (put_int32 (len kvs)) (pairs kvs)); auto.
  { cbn [ExtSpec.ext]. now rewrite pairs_ext. }
  intros root s a nx q (Hr & Hp & Ht & Hl) Ha Har <- He. cbn [term_words] in Hl. rewrite <- pairs_total in Hl.
  assert (E : exists s1, dec_map a s = Got s1 /\ opened key_lt atoms root a s s1 q (next s) (MAP_DEF kvs) (pairs kvs) (zpairs (hp s + 1) (hp s + 1 + len kvs + 3) (length kvs)) [hp s + 1 + len kvs] (make_boxed (hp s + 1 + len kvs))).
  { unfold dec_map. rewrite (take32_put _ _ _ He). cbn [mbind decoded_bind]. rewrite put32_u32 by lia. cbv zeta. unfold at_ep, with_maps, grow.
    do 5 (rewrite put_ok by (cbn [hp limit]; lia); cbn [mbind decoded_bind ep hp words limit next maps_head table]). set (s0 := mkDec _ _ _ _ _ _ _).
    destruct (link_pairs_spec (Z.to_nat (len kvs)) (hp s + 1 + len kvs - 1) (hp s + (1 + len kvs + MAP_HEADER_SIZE + len kvs) - 1) s0 ltac:(subst s0; unfold MAP_HEADER_SIZE; cbn [limit]; lia) ltac:(unfold MAP_HEADER_SIZE; lia))
      as (s1 & -> & E1 & E2 & E3 & E4 & E5 & Fr & C).
    subst s0. unfold MAP_HEADER_SIZE in *. cbn [ep hp words limit next maps_head table] in *. rewrite Nat2Z.id in *.
    replace (hp s + 1 + len kvs - 1 - len kvs + 1) with (hp s + 1) in C by lia. replace (hp s + (1 + len kvs + 3 + len kvs) - 1 - len kvs + 1) with (hp s + 1 + len kvs + 3) in C by lia.
    assert (Fr' : forall b, ~ hp s + 1 <= b < hp s + 1 + len kvs -> ~ hp s + 1 + len kvs + 3 <= b < hp s + 1 + len kvs + 3 + len kvs ->
      words s1 !! b = (<[a:=make_boxed (hp s + 1 + len kvs)]> (<[hp s + 1 + len kvs + 2:=make_boxed (hp s)]> (<[hp s + 1 + len kvs + 1:=RAW (len kvs)]> (<[hp s + 1 + len kvs:=MAP_LINK (maps_head s)]> (<[hp s:=make_arityval (len kvs)]> (words s)))))) !! b).
    { intros b Hb Hb'. apply Fr; lia. }
    clear Fr. exists s1. split; auto. split; auto; try congruence; try lia.
    - cbn [term_words]. rewrite <- pairs_total. lia.
    - apply zpairs_NoDup. lia.
    - apply Forall_forall. intros b Hb. apply zpairs_elem in Hb. lia.
    - rewrite zpairs_length. pose proof (pairs_length kvs). lia.
    - intros b Hb Hbr Hbh. rewrite Fr', !lookup_insert_ne by lia. auto.
    - cbn [chain]. split; auto. exists (maps_head s). split; auto. rewrite Fr', !lookup_insert_ne, lookup_insert_eq by lia. auto.
    - constructor; [|constructor]. rewrite zpairs_elem. lia.
    - repeat constructor.
    - rewrite Fr', lookup_insert_eq by lia. auto.
    - intros X hi h Hhi Fh Fi m Hm. apply list_elem_of_singleton in Hm as ->.
      assert (Eh : forall b, hp s + 1 + len kvs <= b < hp s + 1 + len kvs + 3 -> h !! b = words s1 !! b) by (intros b Hb; apply Fh; [rewrite zpairs_elem|]; lia).
      exists (map fst kvs), (hp s). split; auto. rewrite length_map. split; [split; [lia|]; rewrite Eh, Fr', !lookup_insert_ne, lookup_insert_eq by lia; auto|].
      split; [split; [lia|]; rewrite Eh, Fr', lookup_insert_ne, lookup_insert_eq by lia; auto|].
      apply (slots_keys X (hp s) hi h (hp s1) kvs (hp s + 1) (hp s + 1 + len kvs + 3)); auto; lia.
    - intros X hi h Hhi Fh Xm Fi. assert (Eh : forall b, hp s <= b < hp s1 -> ~ hp s + 1 <= b < hp s + 1 + len kvs -> ~ hp s + 1 + len kvs + 3 <= b < hp s + 1 + len kvs + 3 + len kvs -> h !! b = words s1 !! b).
      { intros b Hb Hb1 Hb2. apply Fh; auto. rewrite zpairs_elem. lia. }
      destruct (filled_pairs X (hp s) hi h kvs (hp s + 1) (hp s + 1 + len kvs + 3) Fi) as [Sk Sv]; try lia. cbn [rep]. exists (hp s + 1 + len kvs), (hp s).
      split; [reflexivity|]. split; [split; [lia|]|].
      { exists (MAP_LINK (maps_head s)). split; [rewrite Eh, Fr', !lookup_insert_ne, lookup_insert_eq by lia; auto|]. rewrite decide_True by (apply Xm; left). eauto. }
      splits; auto; (split; [lia|]); rewrite Eh, Fr' by lia; repeat (rewrite lookup_insert_ne by lia); now rewrite lookup_insert_eq. }
  destruct E as (s1 & Ed & O). exists s1, (zpairs (hp s + 1) (hp s + 1 + len kvs + 3) (length kvs)), [hp s + 1 + len kvs], (make_boxed (hp s + 1 + len kvs)). split; auto.
  intros nested _. split; [reflexivity|]. eexists. split; [reflexivity|]. exact Ed.
Qed.

(** ** Funs *)
Lemma dec_small_read nested root s i p : small_reader nested -> - 2 ^ 31 <= i < 2 ^ 31 -> ep s = enc_small i ++ p -> root - 1 < limit s ->
  dec_small nested root s = Got (i, mkDec p (hp s) (<[root - 1 := make_small i]> (words s)) (limit s) (next s) (maps_head s) (table s)).
Proof. intros N Hi He Hr. unfold dec_small. rewrite (N (root - 1) s i p) by auto. reflexivity. Qed.
Lemma fun_entry_eta fe : mkFunEntry (fe_module fe) (fe_uniq fe) (fe_index fe) (fe_old_uniq fe) (fe_old_index fe) = fe. Proof. now destruct fe. Qed.
Lemma decodes_fun fe arity creator env : fun_ok atoms fe arity (len env) -> pid_ok this_node atoms (fst creator) (snd creator) -> Forall decodable env -> decodable (PID_DEF (fst creator) (snd creator)) ->
  decodes (FUN_DEF fe arity creator env).
Proof.
  intros (Km & Hu & _ & Hix & Ho & Hi & Har & Hnf) Kc F Fp. unfold MAX_ARG in Hnf. pose proof Kc as [Kn%node_atom _].
  set (ts := PID_DEF (fst creator) (snd creator) :: env). assert (Fts : Forall decodable ts) by (constructor; auto). pose proof (decodable_total _ F) as Hw.
  set (size := len (bytes_of (fun_header this_node atoms dflags fe arity creator (len env)) ++ flat_map (ext false) env) + 4).
  eapply (decodes_opened _ _ _ _ _ _ _ _ _ _ (FUN_DEF fe arity creator env) NEW_FUN_EXT (put_int32 size ++ fun_head fe arity (len env) ++ atom_ext (fe_module fe) ++ enc_small (fe_old_index fe) ++ enc_small (fe_old_uniq fe)) ts); auto.
  { cbn [ExtSpec.ext]. rewrite new_funs. cbv zeta. fold size. f_equal. rewrite <- !app_assoc. f_equal. rewrite fun_body by auto. f_equal. }
  intros root s a nx q (Hr & Hp & Ht & Hl) Ha Hra Hn He. cbn [term_words] in Hl. unfold ERL_FUN_SIZE, EXTERNAL_THING_HEAD_SIZE in Hl. unfold fun_head in He. rewrite <- !app_assoc in He.
  set (w0 := <[hp s := THING (T_fun fe arity (len env))]> (<[root - 1 := make_small (fe_old_uniq fe)]> (<[root - 1 := make_small (fe_old_index fe)]> (<[a := make_boxed (hp s)]> (words s))))).
  set (s0 := mkDec q (hp s + (ERL_FUN_SIZE + len env)) w0 (limit s) nx (maps_head s) (table s)).
  destruct (link_down_spec (length env) (hp s + ERL_FUN_SIZE + len env - 1) s0 ltac:(subst s0; unfold ERL_FUN_SIZE; cbn [limit]; lia)) as (s1 & Ed1 & E1 & E2 & E3 & E4 & E5 & Fr1 & C1).
  destruct (link_down_spec 1 (hp s + ERL_FUN_SIZE - 1) s1 ltac:(rewrite E3; subst s0; unfold ERL_FUN_SIZE; cbn [limit]; lia)) as (s2 & Ed2 & E6 & E7 & E8 & E9 & E10 & Fr2 & C2).
  exists s2, (zseq (hp s + 5) (Datatypes.S (length env))), [], (make_boxed (hp s)). split.
  - replace (hp s + ERL_FUN_SIZE + len env - 1 - len env + 1) with (hp s + 6) in * by (unfold ERL_FUN_SIZE; lia). unfold ERL_FUN_SIZE in *. replace (hp s + 6 - 1 - Z.of_nat 1 + 1) with (hp s + 5) in C2 by lia.
    replace (hp s + 6 - 1) with (hp s + 5) in * by lia. subst s0. cbn [ep hp words limit next maps_head table] in *.
    assert (Fr : forall b, ~ hp s + 5 <= b < hp s + 6 + len env -> words s2 !! b = w0 !! b) by (intros b Hb; rewrite Fr2, Fr1 by lia; auto). subst w0.
    split; auto; try congruence; try lia.
    + subst ts. cbn [term_words]. rewrite total_cons. cbn [term_words]. unfold ERL_FUN_SIZE. lia.
    + cbn [zseq chain] in *. destruct C2 as (C2a & nx2 & C2b & ->). split; auto. exists (next s1). split; auto. replace (hp s + 5 + 1) with (hp s + 6) by lia.
      eapply chain_frame; [|exact C1]. intros b Hb. apply zseq_elem in Hb. apply Fr2. lia.
    + apply zseq_NoDup.
    + apply Forall_forall. intros b Hb. apply zseq_elem in Hb. lia.
    + rewrite zseq_length. reflexivity.
    + intros b Hb Hbr Hbh. rewrite Fr, !lookup_insert_ne by lia. auto.
    + constructor.
    + rewrite Fr, !lookup_insert_ne, lookup_insert_eq by lia. auto.
    + intros X hi h _ _ _ m Hm. now apply elem_of_nil in Hm.
    + intros X hi h Hhi Fh _ Fi. unfold ts in Fi. cbn [zseq] in Fi. inversion Fi as [|? ? ? ? (wc & Hwc & Rc) Fi']; subst. cbn [rep] in Rc |- *. exists (hp s), wc. unfold ERL_FUN_SIZE. splits; auto.
      * split; [lia|]. rewrite Fh, Fr, lookup_insert_eq by (rewrite ?zseq_elem; lia). auto.
      * split; [lia|]. replace (hp s + 6 - 1) with (hp s + 5) by lia. auto.
      * apply slots_filled; try lia. replace (hp s + 5 + 1) with (hp s + 6) in Fi' by lia. exact Fi'.
  - intros nested N. split; [reflexivity|]. eexists. split; [reflexivity|]. unfold dec_new_fun. rewrite (advance_at 4 (put_int32 size) _ _ He) by reflexivity. cbn [mbind decoded_bind].
    erewrite take8_cons by reflexivity. cbn [mbind decoded_bind]. erewrite (take_block_app 16 (fe_uniq fe)) by (reflexivity || lia). cbn [mbind decoded_bind].
    erewrite take32_put by reflexivity. cbn [mbind decoded_bind]. erewrite take32_put by reflexivity. cbn [mbind decoded_bind]. rewrite put32_u32 by lia. rewrite (s32_id (fe_index fe)) by lia. cbv zeta.
    unfold grow, at_ep. cbn [ep hp words limit next maps_head table]. unfold ERL_FUN_SIZE in *. rewrite put_ok by (cbn [limit]; lia). cbn [mbind decoded_bind ep hp words limit next maps_head table].
    erewrite (dec_atom_ext safe atoms dflags _ _ _ Km) by (exact Ht || reflexivity). cbn [mbind decoded_bind]. erewrite (dec_small_read nested root _ (fe_old_index fe)) by (auto; try reflexivity; cbn [at_ep limit]; lia).
    cbn [mbind decoded_bind at_ep ep hp words limit next maps_head table]. erewrite (dec_small_read nested root _ (fe_old_uniq fe)) by (auto; try reflexivity; cbn [at_ep limit]; lia).
    cbn [mbind decoded_bind at_ep ep hp words limit next maps_head table]. rewrite put_ok by (cbn [limit]; lia). cbn [mbind decoded_bind ep hp words limit next maps_head table].
    rewrite !s32_id, fun_entry_eta, Nat2Z.id by lia. rewrite land_255, Z.mod_small by lia. fold w0. rewrite Hn. 
    unfold ERL_FUN_SIZE in s0. fold s0. rewrite Ed1. cbn [mbind decoded_bind]. exact Ed2.
Qed.
End Objects.
