(* ===== verification/ExtTrip.v ===== *)
(** The decoder on the bytes of a term, by induction on the term, and the validation of its maps
    with the comparison of [TermCompare]. *)

From S2P Require Import Prelude.
From stdpp Require Import base option list gmap sorting.
From stdpp Require Import base option list gmap.
From S2P Require Import BigNum BigConv TermOrder Memory Utf8 Atoms ExtTerm ExtEncode ExtDecode ExtSpec ExtSize ExtSizer ExtBytes ExtSized ExtRep TermCompare TermKey TermCmpProof ExtFill ExtObjects.
Local Open Scope Z_scope.

(** The keys of every map inside a term are in order. *)
Fixpoint maps_sorted (key_lt : term -> term -> Prop) (t : term) : Prop :=
  match t with
  | LIST_DEF hd tl => maps_sorted key_lt hd /\ maps_sorted key_lt tl
  | TUPLE_DEF ts => all_of (maps_sorted key_lt) ts
  | MAP_DEF kvs => in_order key_lt (map fst kvs) /\ all_of (fun kv => maps_sorted key_lt (fst kv) /\ maps_sorted key_lt (snd kv)) kvs
  | FUN_DEF _ _ _ env => all_of (maps_sorted key_lt) env
  | _ => True
  end.

Section Trip.
Context {S : Type} `{AtomLaws S}.
Variable this_node : Z * Z.
Variable safe : bool.
Variable strtod : list Z -> option (Z * Z).
Variable erts_active_export_entry : Z -> Z -> Z -> bool.
Variable old_fun_arity : Z -> Z -> Z -> Z.
Variable CMP_TERM : S -> heap -> word -> word -> decoded Z.
Variable sys_double_to_chars : Z * Z -> list Z.
Variable key_lt : term -> term -> Prop.
Variable atoms : S.
Variable dflags : Z.
Context {plain : PlainTags dflags}.
Hypothesis new_funs : has DFLAG_NEW_FUN_TAGS dflags = true.
Hypothesis new_floats : has DFLAG_NEW_FLOATS dflags = true.
Hypothesis bit_binaries : has DFLAG_BIT_BINARIES dflags = true.
Hypothesis export_tag : has DFLAG_EXPORT_PTR_TAG dflags = true.
Hypothesis exports_active : forall m f arity, negb safe || erts_active_export_entry m f arity = true.
(** The comparison of terms gives the order of the keys. *)
Hypothesis cmp_keys : forall lo hi h k0 k1 w0 w1, rep [] lo hi h k0 w0 -> rep [] lo hi h k1 w1 -> key_lt k0 k1 -> exists c, CMP_TERM atoms h w1 w0 = Got c /\ 0 < c.
Notation state := (dec_state S).
Notation ext := (ext this_node sys_double_to_chars atoms dflags).
Notation all_ext := (all_ext this_node sys_double_to_chars atoms dflags).
Notation dec_loop := (dec_loop this_node safe strtod erts_active_export_entry old_fun_arity CMP_TERM).
Notation dec_term := (dec_term this_node safe strtod erts_active_export_entry old_fun_arity CMP_TERM).
Notation decodes := (decodes this_node safe strtod erts_active_export_entry old_fun_arity CMP_TERM sys_double_to_chars key_lt atoms dflags).
Notation decodable := (decodable this_node safe strtod erts_active_export_entry old_fun_arity CMP_TERM sys_double_to_chars key_lt atoms dflags).

(** ** Every term is decoded *)
Definition short (t : term) : Prop := len (ext false t) <= 2 ^ 31.
Lemma all_decodable ts : Forall (fun t => short t -> decodable t) ts -> Forall (wf_term this_node atoms) ts -> len (all_ext ts) <= 2 ^ 31 -> Forall decodable ts /\ len ts <= len (all_ext ts).
Proof.
  intros F W Hl. split.
  - rewrite Forall_forall in *. intros t Ht. apply F; auto. pose proof (part_length this_node sys_double_to_chars atoms dflags ts t Ht). unfold short. lia.
  - apply all_ext_length. eapply Forall_impl; [exact W|]. cbn. intros t. now apply pos_all.
Qed.
Lemma wf_elems t : wf_term this_node atoms t -> Forall (wf_term this_node atoms) (elems t ++ [tail_of t]).
Proof.
  induction t as [| | | | |hd tl _ IH| | | | | | | |] using term_ind; cbn [elems tail_of app]; auto. cbn [wf_term]. intros [A B]. constructor; auto.
Qed.
(** What is shown for each term, and for the parts of a list. *)
Definition decodable_parts (t : term) : Prop := (short t -> decodable t) /\ Forall (fun t => short t -> decodable t) (elems t ++ [tail_of t]).
Lemma decodable_flat t : is_list t = false -> wf_term this_node atoms t -> (short t -> decodes t) -> decodable_parts t.
Proof.
  intros L W D. assert (G : short t -> decodable t).
  { intros Hs. split; auto. split; auto. now apply (pos_all this_node sys_double_to_chars atoms dflags new_funs new_floats bit_binaries export_tag t). }
  split; auto. replace (elems t ++ [tail_of t]) with [t] by (now destruct t). auto.
Qed.
Lemma decodable_list hd tl : wf_term this_node atoms (LIST_DEF hd tl) -> decodable_parts hd -> decodable_parts tl -> decodable_parts (LIST_DEF hd tl).
Proof.
  intros W [A _] [_ B]. set (t := LIST_DEF hd tl) in *. assert (F : Forall (fun t => short t -> decodable t) (elems t ++ [tail_of t])) by (constructor; auto).
  split; auto. intros Hs. split; [|split; auto]; [|now apply (pos_all this_node sys_double_to_chars atoms dflags new_funs new_floats bit_binaries export_tag t)].
  pose proof (ext_is_list this_node sys_double_to_chars atoms dflags t eq_refl) as E. unfold short in Hs. rewrite E in Hs. destruct (snd (is_external_string t)) eqn:Es.
  - apply decodes_list; auto; [congruence|]. unfold is_external_string in Es. destruct (string_prefix t) as [bs r] eqn:Ep. cbn [snd] in Es. apply andb_true_iff in Es as [Hn Hl%Z.ltb_lt].
    destruct (string_elems t) as (-> & _); [now rewrite Ep|]. rewrite Ep. unfold bytes_as_terms. rewrite length_map. cbn [fst]. unfold MAX_STRING_LEN in Hl. lia.
  - cbn [length put_int32] in Hs. rewrite length_app in Hs. destruct (all_decodable _ F (wf_elems t W)) as [D L]; [cbn [length put_int32] in Hs; lia|].
    rewrite length_app in L. cbn [length] in L. apply decodes_list; auto. cbn [length put_int32] in Hs. lia.
Qed.
Lemma decodable_term t : wf_term this_node atoms t -> maps_sorted key_lt t -> decodable_parts t.
Proof.
  induction t as [i|b|f|a| |hd tl IH1 IH2|ts IH|kvs IH|bytes u|n data|n num|n nums|m f arity|fe arity creator env IH] using term_ind; intros W M; pose proof W as K; cbn [wf_term] in K; cbn [maps_sorted] in M;
    try (apply decodable_flat; auto; unfold short; intros Hl).
  - now apply decodes_small.
  - now apply decodes_big.
  - destruct K as (K1 & K2 & K3). now apply decodes_float.
  - now apply decodes_atom.
  - apply decodes_nil.
  - destruct K, M. apply decodable_list; auto.
  - apply all_of_Forall in K, M. destruct (all_decodable ts) as [D L]; auto.
    + rewrite Forall_forall in *. intros t Ht. apply IH; auto.
    + cbn [ExtSpec.ext] in Hl. rewrite length_app in Hl. unfold ExtSized.all_ext. lia.
    + apply decodes_tuple; auto. cbn [ExtSpec.ext] in Hl. rewrite length_app in Hl. unfold ExtSized.all_ext in L. unfold tuple_header in Hl. destruct (_ <=? _); cbn [length] in Hl; lia.
  - destruct M as [Mo M]. apply all_of_Forall in K, M. cbn [ExtSpec.ext app length] in Hl. rewrite <- pairs_ext, length_app in Hl. destruct (all_decodable (pairs kvs)) as [D L].
    + apply pairs_Forall. rewrite Forall_forall in *. intros kv Hk. destruct (IH kv Hk) as [A B], (K kv Hk) as [Ka Kb], (M kv Hk) as [Ma Mb]. split; [now apply A|now apply B].
    + now apply pairs_Forall.
    + cbn [length put_int32] in Hl. lia.
    + pose proof (pairs_length kvs). apply decodes_map; auto. cbn [length put_int32] in Hl. lia.
  - apply decodes_binary; auto; [apply K|]. cbn [ExtSpec.ext] in Hl. unfold enc_binary in Hl. rewrite bit_binaries in Hl. destruct (u =? 0); cbn [length app put_int32] in Hl; lia.
  - now apply decodes_pid.
  - destruct K. now apply decodes_port.
  - destruct K as (K1 & K2 & K3 & K4). now apply decodes_ref.
  - destruct K as (K1 & K2 & K3). now apply decodes_export.
  - destruct K as (K1 & K2 & K3). pose proof K1 as (Km & _). pose proof K2 as [Kn _]. cbn [ExtSpec.ext] in Hl. rewrite new_funs in Hl. cbv zeta in Hl. rewrite fun_body in Hl by (auto; now apply node_atom).
    apply all_of_Forall in K3, M. unfold fun_parts, ExtSized.all_ext in Hl. cbn [flat_map length] in Hl. rewrite !length_app in Hl. destruct (all_decodable env) as [D L]; auto.
    + rewrite Forall_forall in *. intros t Ht. apply IH; auto.
    + unfold ExtSized.all_ext. lia.
    + apply decodes_fun; auto. split; [now apply decodes_pid|]. split; [cbn; unfold EXTERNAL_THING_HEAD_SIZE; lia|]. lia.
Qed.

(** ** Maps are validated *)
(** Nothing is swapped when the keys are in order. *)
Lemma slots_lookup {A} lo hi h (f : A -> word -> Prop) l : forall a i x, slots lo hi h f a l -> l !! i = Some x -> exists w, h !! (a + Z.of_nat i) = Some w /\ f x w.
Proof.
  induction l as [|y l IH]; intros a i x Sl Hi; [discriminate|]. destruct Sl as [(w & [_ Hw] & Hf) Sl]. destruct i as [|i]; cbn [lookup list_lookup] in Hi.
  - injection Hi as <-. exists w. replace (a + Z.of_nat 0) with a by lia. auto.
  - destruct (IH (a + 1) i x Sl Hi) as (v & Hv & Hx). exists v. replace (a + Z.of_nat (Datatypes.S i)) with (a + 1 + Z.of_nat i) by lia. auto.
Qed.
Lemma sort_keys_id ks k vs lo' lo hi (s : state) : table s = atoms -> in_order key_lt ks -> slots lo' hi (words s) (rep [] lo hi (words s)) k ks ->
  forall n ix, (0 < ix)%nat -> (n = 0 \/ ix + n <= length ks)%nat -> sort_keys CMP_TERM n ix k vs s = Got s.
Proof.
  intros Ht Ho Sl. induction n as [|n IH]; intros ix Hix Hn; [reflexivity|]. cbn [sort_keys]. destruct ix as [|i]; [lia|].
  destruct (lookup_lt_is_Some_2 ks (Datatypes.S i)) as [x1 E1]; [lia|]. destruct (lookup_lt_is_Some_2 ks i) as [x0 E0]; [lia|].
  destruct (slots_lookup _ _ _ _ _ _ _ _ Sl E1) as (w1 & H1 & R1), (slots_lookup _ _ _ _ _ _ _ _ Sl E0) as (w0 & H0' & R0). cbn [sort_key]. unfold get. rewrite H1, H0'. cbn [access mbind decoded_bind].
  rewrite Ht. destruct (cmp_keys _ _ _ _ _ _ _ R0 R1 (Ho i x0 x1 E0 E1)) as (c & -> & Hc). cbn [mbind decoded_bind]. rewrite (proj2 (Z.leb_gt _ _)) by lia. cbn [mbind decoded_bind]. apply IH; lia.
Qed.
(** The header of the first map is set. *)
Lemma head_extends X m lo hi h nx : m ∉ X -> h !! m = Some (MAP_LINK nx) -> extends (m :: X) X lo hi h (<[m := MAP_HEADER]> h).
Proof.
  intros Hm Hh. split.
  - intros a w _ Ha Hs. rewrite lookup_insert_ne; auto. intros ->. rewrite Hh in Ha. injection Ha as <-. destruct Hs.
  - intros k _ (v & Hv & D). destruct (decide (k = m)) as [->|Hk].
    + exists MAP_HEADER. rewrite lookup_insert_eq, decide_False by auto. auto.
    + exists v. rewrite lookup_insert_ne by auto. split; auto. destruct (decide (k ∈ X)) as [Hx|Hx].
      * rewrite decide_True in D by now right. auto.
      * rewrite decide_False in D; auto. rewrite elem_of_cons. tauto.
Qed.
Lemma above_keys X lo hi h : Forall (fun k => k < lo) X -> extends X [] lo hi h h.
Proof.
  intros F. split; auto. intros k Hk (v & Hv & D). exists v. split; auto. rewrite decide_False by apply not_elem_of_nil. rewrite decide_False in D; auto.
  intros Hx. rewrite Forall_forall in F. pose proof (F k Hx). lia.
Qed.
Lemma validate_spec lo hi X : forall (s : state) fuel, table s = atoms -> chain MAP_LINK (words s) (maps_head s) X None -> StronglySorted Z.gt X -> Forall (fun m => lo <= m < hi /\ m < limit s) X ->
  (forall m, m ∈ X -> map_ok key_lt X lo hi (words s) m) -> (length X <= fuel)%nat ->
  exists s', validate_maps CMP_TERM fuel s = Got s' /\ ep s' = ep s /\ hp s' = hp s /\ limit s' = limit s /\ table s' = table s /\
    (forall b, b ∉ X -> words s' !! b = words s !! b) /\ (forall t w, rep X lo hi (words s) t w -> rep [] lo hi (words s') t w).
Proof.
  induction X as [|m X IH]; intros s fuel Ht C So F Ok Hf.
  - cbn in C. exists s. destruct fuel; cbn [validate_maps]; rewrite C; splits; auto.
  - destruct C as (Em & nx & Hm & C). apply Forall_cons in F as [[Hml Hmh] F]. apply StronglySorted_inv in So as [So Gt]. cbn [length] in Hf. destruct fuel as [|fuel]; [lia|].
    assert (Nm : m ∉ X) by (intros Hx; rewrite Forall_forall in Gt; pose proof (Gt m Hx); lia).
    pose proof (head_extends X m lo hi (words s) nx Nm Hm) as E. set (s1 := mkDec (ep s) (hp s) (<[m := MAP_HEADER]> (words s)) (limit s) (next s) nx (table s)).
    assert (Ok1 : forall k, k ∈ m :: X -> map_ok key_lt X lo hi (words s1) k).
    { intros k Hk. apply (map_ok_mono key_lt (m :: X) X lo hi lo hi (words s)); auto; try lia. apply elem_of_cons in Hk as [->|Hk]; [lia|]. rewrite Forall_forall in F. destruct (F k Hk). lia. }
    destruct (IH s1 fuel) as (s' & E' & E1 & E2 & E3 & E4 & Fr & Rp); auto; try lia.
    + subst s1. cbn [words maps_head]. eapply chain_frame; [|exact C]. intros a Ha. rewrite lookup_insert_ne; auto. congruence.
    + intros k Hk. apply Ok1. now right.
    + exists s'. splits; auto.
      * cbn [validate_maps]. rewrite Em. unfold get. rewrite Hm. cbn [access mbind decoded_bind]. rewrite put_ok by auto. cbn [mbind decoded_bind].
        destruct (Ok1 m) as (ks & k & Ho & [_ Hr] & [_ Hk] & Sl); [left|]. unfold erts_validate_and_sort_map, get. subst s1. cbn [words] in *. rewrite Hr, Hk. cbn [access mbind decoded_bind].
        rewrite (sort_keys_id ks (k + 1) (m + 3) lo (m + 1) hi); [exact E'|exact Ht|exact Ho| |lia|lia]. cbn [words]. revert Sl. apply slots_mono; auto; try lia; [intros x w; apply rep_settled|].
        apply Forall_forall. intros x _ w. apply rep_mono; try lia. apply above_keys, Forall_forall. rewrite Forall_forall in Gt. intros y Hy. pose proof (Gt y Hy). lia.
      * intros b Hb. rewrite elem_of_cons in Hb. rewrite Fr by tauto. subst s1. cbn [words]. rewrite lookup_insert_ne; auto.
      * intros t w R. apply Rp. revert R. now apply rep_mono.
Qed.

(** ** Decoding an encoded term *)
Lemma decode_ext_spec t : wf_term this_node atoms t -> maps_sorted key_lt t -> len (ext false t) <= 2 ^ 31 ->
  exists w s', erts_decode_ext this_node safe strtod erts_active_export_entry old_fun_arity CMP_TERM (VERSION_MAGIC :: ext false t) (term_words t) atoms = Got (w, s') /\
    rep [] 0 (hp s') (words s') t w /\ ep s' = [] /\ 0 <= hp s' <= term_words t /\ table s' = atoms.
Proof.
  intros W M Hs. destruct (decodable_term t W M) as [D _]. destruct (D Hs) as (Dt & Hw & _). unfold erts_decode_ext. cbn [get_int8 mbind decoded_bind]. rewrite (advance_app [VERSION_MAGIC] (ext false t) : advance 1 (VERSION_MAGIC :: ext false t) = _).
  cbn [check mbind decoded_bind]. rewrite Z.eqb_refl. cbn [check mbind decoded_bind]. unfold ExtDecode.dec_term, OBJ. rewrite put_ok by (cbn [limit]; lia). cbn [mbind decoded_bind]. set (s1 := at_next _ _).
  destruct (Dt (-1) s1 (-1) None []) as (n & s2 & X & w & Hn & R & To & Hr & Rep); subst s1; cbn [at_next with_maps next hp words ep limit table] in *.
  - unfold ready. cbn. splits; auto; lia.
  - reflexivity.
  - apply lookup_insert_eq.
  - lia.
  - lia.
  - now rewrite app_nil_r.
  - exact Hs.
  - pose proof To as [T1 T2 T3 T4 T5 T6 T7 T8 T9 T10]. cbn [hp limit words maps_head at_next with_maps] in *.
    specialize (R (length (ext false t) - n)%nat). replace (n + Datatypes.S (length (ext false t) - n))%nat with (length (VERSION_MAGIC :: ext false t)) in R by (cbn [length]; lia).
    rewrite R, loop_done by auto. cbn [mbind decoded_bind].
    destruct (validate_spec 0 (hp s2) X s2 (length (VERSION_MAGIC :: ext false t))) as (s3 & E & E1 & E2 & E3 & E4 & Fr & Rp); auto.
    + eapply Forall_impl; [exact T8|]. cbn. intros m Hm. lia.
    + cbn [length]. lia.
    + rewrite E. cbn [mbind decoded_bind]. unfold get. rewrite Fr, Hr. 
      * cbn [access mbind decoded_bind]. eexists w, _. split; [reflexivity|]. cbn [at_next with_maps words hp ep limit table]. splits; try congruence; try lia. rewrite E2. now apply Rp.
      * intros Hx. rewrite Forall_forall in T8. pose proof (T8 _ Hx). lia.
Qed.
End Trip.

Section Order.
Context {S : Type} `{AtomLaws S}.
Variable this_node : Z * Z.
Variable atoms : S.
Notation key := (term_key this_node atoms).
Notation fit := (fit this_node atoms).
(** The keys of a map are in the order of terms. *)
Definition key_before (a b : term) : Prop := lex (key a) (key b) = -1.
(** What the comparison needs of two keys. *)
Definition key_pair (fuel : nat) (a b : term) : Prop := fit a /\ fit b /\ (2 + 5 * term_size b <= fuel)%nat /\ key_before a b.
Lemma key_pair_cmp fuel lo hi h k0 k1 w0 w1 : rep [] lo hi h k0 w0 -> rep [] lo hi h k1 w1 -> key_pair fuel k0 k1 -> exists c, CMP_TERM this_node atoms fuel h w1 w0 = Got c /\ 0 < c.
Proof.
  intros R0 R1 (F0 & F1 & Hf & L). destruct (CMP_TERM_spec this_node atoms h k1 k0 w1 w0 lo hi lo hi fuel) as (c & -> & Ec); auto. exists c. split; auto.
  unfold key_before in L. rewrite (lex_antisym (key k0)), L in Ec. lia.
Qed.
Lemma in_order_impl {A} (R R' : A -> A -> Prop) l : (forall x y, x ∈ l -> y ∈ l -> R x y -> R' x y) -> in_order R l -> in_order R' l.
Proof. intros I O i x y Hx Hy. apply I; eauto using list_elem_of_lookup_2. Qed.
Lemma sum_elem {A} (f : A -> nat) l x : x ∈ l -> (f x <= list_sum (map f l))%nat.
Proof. induction 1 as [l|x y l _ IH]; cbn [map]; rewrite sum_cons; lia. Qed.
Lemma maps_sorted_pair fuel t : fit t -> (2 + 5 * term_size t <= fuel)%nat -> maps_sorted key_before t -> maps_sorted (key_pair fuel) t.
Proof.
  induction t as [i|x|f|a| |hd tl IH1 IH2|ts IH|kvs IH|bytes k|n d|n d|n nums|m f ar|fe ar cr env IH] using term_ind; intros [W C] Hf M; cbn [wf_term comparable maps_sorted term_size] in *; auto.
  - destruct W, C, M. split; [apply IH1|apply IH2]; auto; try (split; auto); lia.
  - destruct C as [_ C]. apply all_of_Forall in W, C, M. apply all_of_Forall. rewrite Forall_forall in *. intros t Ht. pose proof (sum_elem (fun t => Datatypes.S (term_size t)) ts t Ht). cbn in *. apply IH; auto; [split; auto|lia].
  - destruct C as [_ C], M as [O M]. apply all_of_Forall in W, C, M. rewrite Forall_forall in *.
    assert (B : forall kv, kv ∈ kvs -> (2 + 5 * term_size (fst kv) <= fuel)%nat /\ (2 + 5 * term_size (snd kv) <= fuel)%nat).
    { intros kv Hkv. pose proof (sum_elem (fun kv => Datatypes.S (Datatypes.S (term_size (fst kv) + term_size (snd kv)))) kvs kv Hkv). cbn in *. lia. }
    split.
    + revert O. apply in_order_impl. intros x y (kx & -> & Hx)%list_elem_of_fmap (ky & -> & Hy)%list_elem_of_fmap L. destruct (W kx Hx), (W ky Hy), (C kx Hx), (C ky Hy). split; [split; auto|]. split; [split; auto|]. split; auto. now apply B.
    + apply all_of_Forall, Forall_forall. intros kv Hkv. destruct (IH kv Hkv) as [I1 I2], (W kv Hkv), (C kv Hkv), (M kv Hkv), (B kv Hkv). split; [apply I1|apply I2]; auto; split; auto.
  - destruct C as (_ & _ & C), W as (_ & _ & W). apply all_of_Forall in W, C, M. apply all_of_Forall. rewrite Forall_forall in *. intros t Ht. pose proof (sum_elem (fun t => Datatypes.S (term_size t)) env t Ht). cbn in *. apply IH; auto; [split; auto|lia].
Qed.
End Order.
