(* ===== verification/ExtProps.v ===== *)
(** The properties of the external term format and of the comparison of terms, with concrete
    instances. *)

From S2P Require Import Prelude.
From stdpp Require Import base option list gmap.
From S2P Require Import BigNum BigConv TermOrder Memory HashTable HashSpec IndexTable Utf8 Atoms AtomSpec AtomProps ExtTerm ExtEncode ExtDecode ExtSpec ExtSize ExtSizer ExtSized ExtRep BitCompare TermCompare TermKey TermCmpProof ExtTrip.
Local Open Scope Z_scope.

Notation FLAGS := TERM_TO_BINARY_DFLAGS.
Section Props.
Context {S : Type} `{AtomLaws S}.
Variable this_node : Z * Z.
Variable sys_double_to_chars : Z * Z -> list Z.
Variable atoms : S.
Notation wf := (wf_term this_node atoms).
Notation key := (term_key this_node atoms).
Notation fit := (fit this_node atoms).


(** C25. Encoding a term, computing the size of the result and decoding it gives the term back:
    the decoder builds it on the heap, in exactly the words that were computed, reads all bytes, and
    leaves the atom table as it was. The term has valid parts and the keys of its maps are in order.
    *)
Theorem ext_round_trip safe strtod erts_active_export_entry old_fun_arity fuel t :
  (forall m f arity, negb safe || erts_active_export_entry m f arity = true) ->
  wf t -> comparable t -> maps_sorted (key_before this_node atoms) t -> ext_size this_node atoms FLAGS false t < 2 ^ 31 -> term_words t < 2 ^ 31 -> (2 + 5 * term_size t <= fuel)%nat ->
  exists bytes w s, erts_term_to_binary this_node sys_double_to_chars atoms FLAGS t = Ok bytes /\
    erts_decode_ext_size bytes = Got (term_words t) /\
    binary_to_term this_node safe strtod erts_active_export_entry old_fun_arity (fun st => CMP_TERM this_node st fuel) bytes atoms = Got (w, s) /\
    rep [] 0 (term_words t) (words s) t w /\ ep s = [] /\ table s = atoms.
Proof.
  intros He W C M Hs Hw Hf. destruct (term_to_binary_spec this_node sys_double_to_chars atoms FLAGS ltac:(discriminate) ltac:(discriminate) t W) as (_ & Hl & E). set (bs := ext this_node sys_double_to_chars atoms FLAGS false t) in *.
  pose proof (decoded_size_ext this_node sys_double_to_chars atoms FLAGS eq_refl eq_refl eq_refl eq_refl t W ltac:(fold bs; lia) Hw) as Ez. fold bs in Ez.
  destruct (decode_ext_spec this_node safe strtod erts_active_export_entry old_fun_arity (fun st => CMP_TERM this_node st fuel) sys_double_to_chars (key_pair this_node atoms fuel) atoms FLAGS eq_refl eq_refl eq_refl eq_refl He
    (key_pair_cmp this_node atoms fuel) t W) as (w & s & Ed & R & E1 & E2 & E3); [now apply maps_sorted_pair|fold bs; lia|]. fold bs in Ed.
  assert (Es : erts_decode_ext_size (VERSION_MAGIC :: bs) = Got (term_words t)) by (cbn [erts_decode_ext_size]; rewrite Z.eqb_refl; exact Ez).
  exists (VERSION_MAGIC :: bs), w, s. splits; auto.
  - unfold binary_to_term. rewrite Es. cbn [mbind decoded_bind]. exact Ed.
  - revert R. apply rep_mono; [lia|lia|]. split; auto.
Qed.

End Props.
Section Compared.
Context {S : Type} `{AtomLaws S}.
Variable this_node : Z * Z.
Variable atoms : S.
Notation key := (term_key this_node atoms).
Notation fit := (fit this_node atoms).

(** C26. The exact comparison, a work-list over the words of two heap objects, returns a number
    with the sign of the lexicographic order of the keys of the two terms: their kind and then their
    contents. The terms are well-formed and comparable: the numbers of a reference are below 2^31,
    the old index and uniq of a fun within 2^30 of 0, and binaries, tuples and maps have fewer than
    2^31 elements; beyond that the differences the code computes overflow. *)
Theorem terms_compared fuel h lo hi lo' hi' a b wa wb :
  wf_term this_node atoms a -> comparable a -> wf_term this_node atoms b -> comparable b ->
  rep [] lo hi h a wa -> rep [] lo' hi' h b wb -> (2 + 5 * term_size a <= fuel)%nat ->
  exists j, CMP_TERM this_node atoms fuel h wa wb = Got j /\ Z.sgn j = lex (key a) (key b).
Proof. intros Wa Ca Wb Cb Ra Rb. eapply CMP_TERM_spec; eauto; split; auto. Qed.

(** The exact comparison of terms is a total order up to equal keys: it is antisymmetric and
    transitive, and terms of different kinds are in the order of the tags, numbers first and
    binaries last. *)
Theorem terms_in_order fuel h lo hi a b c wa wb wc : fit a -> fit b -> fit c -> rep [] lo hi h a wa -> rep [] lo hi h b wb -> rep [] lo hi h c wc ->
  (2 + 5 * (term_size a + term_size b) <= fuel)%nat ->
  let cmp x y := match CMP_TERM this_node atoms fuel h x y with Got j => Some j | _ => None end in
  exists ab ba bc ac, cmp wa wb = Some ab /\ cmp wb wa = Some ba /\ cmp wb wc = Some bc /\ cmp wa wc = Some ac /\
    (ab = 0 <-> key a = key b) /\ (ab < 0 <-> 0 < ba) /\ (ab < 0 -> bc < 0 -> ac < 0) /\ (kind a <> kind b -> ab < 0 <-> kind b < kind a).
Proof.
  intros Fa Fb Fc Ra Rb Rc Hf cmp. assert (G : forall x y wx wy, fit x -> fit y -> rep [] lo hi h x wx -> rep [] lo hi h y wy -> (2 + 5 * term_size x <= fuel)%nat -> exists j, cmp wx wy = Some j /\ Z.sgn j = lex (key x) (key y)).
  { intros x y wx wy Fx Fy Rx Ry Hx. destruct (CMP_TERM_spec this_node atoms h x y wx wy lo hi lo hi fuel Fx Fy Rx Ry Hx) as (j & E & Ej). exists j. unfold cmp. now rewrite E. }
  destruct (G a b wa wb) as (ab & E1 & L1); auto; [lia|]. destruct (G b a wb wa) as (ba & E2 & L2); auto; [lia|]. destruct (G b c wb wc) as (bc & E3 & L3); auto; [lia|]. destruct (G a c wa wc) as (ac & E4 & L4); auto; [lia|].
  exists ab, ba, bc, ac. pose proof (lex_antisym (key a) (key b)) as An. splits; auto; try lia.
  - split; intros E0; [apply lex_eq; lia|]. rewrite E0, lex_refl in L1. lia.
  - intros A B. pose proof (lex_trans (key a) (key b) (key c)). lia.
  - intros K. destruct (key_head this_node atoms a) as [u Eu], (key_head this_node atoms b) as [v Ev]. rewrite Eu, Ev, lex_num in L1. rewrite (proj2 (Z.eqb_neq _ _)) in L1 by lia. lia.
Qed.
End Compared.

(** Comparing two strings of bits at any offsets gives the lexicographic order of the bits,
    provided there is a byte behind the second string in the one case where the loop reads ahead. *)
Theorem bits_compared a a_offs b b_offs size : Forall byte a -> Forall byte b -> 0 <= a_offs < 8 -> 0 <= b_offs < 8 -> 0 <= size ->
  a_offs + size <= 8 * Z.of_nat (length a) -> b_offs + size <= 8 * Z.of_nat (length b) ->
  (a_offs = b_offs -> a_offs <> 0 -> (a_offs + size) mod 8 = 0 -> 8 < a_offs + size -> b_offs + size < 8 * Z.of_nat (length b)) ->
  exists c, erts_cmp_bits a a_offs b b_offs size = Got c /\ Z.sgn c = lex_bits size (drop (Z.to_nat a_offs) (bits a)) (drop (Z.to_nat b_offs) (bits b)).
Proof. exact (erts_cmp_bits_spec a a_offs b b_offs size). Qed.
Lemma bits_compared_witness : (4 = 4 /\ (4 + 9) mod 8 <> 0 /\ 4 + 9 <= 8 * Z.of_nat (length [0x1f; 0xf0])) /\
  exists c, erts_cmp_bits [0x1f; 0xf0] 4 [0x2f; 0xe8] 4 9 = Got c /\ Z.sgn c = lex_bits 9 (drop (Z.to_nat 4) (bits [0x1f; 0xf0])) (drop (Z.to_nat 4) (bits [0x2f; 0xe8])).
Proof.
  split; [split; [reflexivity|split; [discriminate|cbn; lia]]|]. assert (Fa : Forall byte [0x1f; 0xf0]) by (repeat constructor; unfold byte; lia). assert (Fb : Forall byte [0x2f; 0xe8]) by (repeat constructor; unfold byte; lia).
  apply (bits_compared [0x1f; 0xf0] 4 [0x2f; 0xe8] 4 9 Fa Fb); cbn; lia.
Defined.

(** A decoder that does nothing but read and write its memory. *)
Definition decode_bytes (bs : list Z) (st : atom_table) : decoded (word * dec_state atom_table) :=
  binary_to_term (0, 0) false (fun _ => None) (fun _ _ _ => true) (fun _ _ _ => 0) (fun st => CMP_TERM (0, 0) st 100) bs st.
(** Four inputs that the size computation accepts and on which the decoder reads or writes
    outside its memory: a map whose size has the top bit set, a reference with no words, the text of
    a float that does not end, and an atom that ends in the middle of a character. *)
Theorem decoder_overruns :
  (* A map whose size has the top bit: four words for 2^31 keys and values. *)
  (erts_decode_ext_size [131; 116; 128; 0; 0; 0] = Got 4 /\ decode_bytes [131; 116; 128; 0; 0; 0] ex_atoms = Overrun) /\
  (* A reference with no words, of which the first is read. *)
  (erts_decode_ext_size [131; 114; 0; 0; 100; 0; 2; 111; 107; 0] = Got 4 /\ decode_bytes [131; 114; 0; 0; 100; 0; 2; 111; 107; 0] ex_atoms = Overrun) /\
  (* A float in text that does not end. *)
  (let float := [131; 99; 49; 46] ++ repeat 48 29 in erts_decode_ext_size float = Got 2 /\ decode_bytes float ex_atoms = Overrun) /\
  (* An atom that ends with the first byte of a character of two. *)
  (erts_decode_ext_size [131; 118; 0; 2; 97; 195] = Got 0 /\ decode_bytes [131; 118; 0; 2; 97; 195] ex_atoms = Overrun).
Proof. vm_compute. auto 10. Qed.

(** ** Witnesses *)
Definition ex_term : term :=
  TUPLE_DEF [ATOM_DEF 1; LIST_DEF (SMALL_DEF 300) NIL_DEF; MAP_DEF [(SMALL_DEF 1, ATOM_DEF 2); (ATOM_DEF 1, BINARY_DEF [128] 1)]; PID_DEF (Some (2, 1)) 5; FLOAT_DEF (0, 0x3ff00000); BIG_DEF (MkBig true [0; 64])].
Lemma ex_is_atom i : 0 <= i < 4 -> is_atom ex_atoms i.
Proof.
  intros Hi. destruct ex_atoms_ok as (l & A & E). assert (Hl : length l = 4%nat) by (rewrite <- (length_map (fun x => a_name x.2)), E; reflexivity).
  destruct (lookup_lt_is_Some_2 l (Z.to_nat i)) as [[p x] Ex]; [lia|]. exists x, l, (Z.to_nat i), p. splits; auto. lia.
Qed.
Lemma ex_canonical : canonical (MkBig true [0; 64]).
Proof.
  split; [|split; [reflexivity|unfold BIG_ARITY_MAX; cbn; lia]]. split; [|split].
  - cbn [BIG_V]. constructor; [cbv; split; [discriminate|reflexivity]|]. constructor; [cbv; split; [discriminate|reflexivity]|constructor].
  - split; [discriminate|]. cbn. lia.
  - intros _. vm_compute. discriminate.
Qed.
Lemma ex_fit : fit (0, 0) ex_atoms ex_term.
Proof.
  split.
  - cbn. pose proof (ex_is_atom 1 ltac:(lia)). pose proof (ex_is_atom 2 ltac:(lia)). pose proof ex_canonical. splits; auto; try reflexivity; try lia; try discriminate.
    + repeat constructor; lia.
    + split; [lia|discriminate].
    + split; [|lia]. split; [exact (ex_is_atom 2 ltac:(lia))|]. split; [cbn; unfold MAX_CREATION; lia|]. split; discriminate.
  - cbn. splits; auto; lia.
Qed.
Lemma ex_sorted : maps_sorted (key_before (0, 0) ex_atoms) ex_term.
Proof.
  cbn. splits; auto. intros [|[|i]] x y; cbn; try discriminate. intros [= <-] [= <-]. vm_compute. reflexivity.
Qed.
Lemma ext_round_trip_witness : (wf_term (0, 0) ex_atoms ex_term /\ comparable ex_term /\ maps_sorted (key_before (0, 0) ex_atoms) ex_term) /\
  exists bytes w s, erts_term_to_binary (0, 0) (fun _ => []) ex_atoms FLAGS ex_term = Ok bytes /\ erts_decode_ext_size bytes = Got (term_words ex_term) /\
    binary_to_term (0, 0) false (fun _ => None) (fun _ _ _ => true) (fun _ _ _ => 0) (fun st => CMP_TERM (0, 0) st 200) bytes ex_atoms = Got (w, s) /\
    rep [] 0 (term_words ex_term) (words s) ex_term w /\ ep s = [] /\ table s = ex_atoms.
Proof.
  destruct ex_fit as [W C]. pose proof ex_sorted as M. split; [exact (conj W (conj C M))|].
  assert (Hs : ext_size (0, 0) ex_atoms FLAGS false ex_term < 2 ^ 31) by (vm_compute; reflexivity). assert (Hw : term_words ex_term < 2 ^ 31) by (vm_compute; reflexivity).
  assert (Hf : (2 + 5 * term_size ex_term <= 200)%nat) by (apply Nat.leb_le; vm_compute; reflexivity).
  exact (ext_round_trip (0, 0) (fun _ => []) ex_atoms false (fun _ => None) (fun _ _ _ => true) (fun _ _ _ => 0) 200 ex_term (fun _ _ _ => eq_refl) W C M Hs Hw Hf).
Defined.
(** A list of one element, on the heap. *)
Definition ex_heap : heap := <[0 := make_small 1]> (<[1 := NIL]> ∅).
Definition ex_list : term := LIST_DEF (SMALL_DEF 1) NIL_DEF.
Lemma ex_list_rep : rep [] 0 2 ex_heap ex_list (make_list 0).
Proof. exists 0, (make_small 1), NIL. splits; auto; split; auto; lia. Qed.
Lemma ex_fits : fit (0, 0) ex_atoms (SMALL_DEF 5) /\ fit (0, 0) ex_atoms (ATOM_DEF 1) /\ fit (0, 0) ex_atoms ex_list.
Proof. splits; (split; [|cbn; auto]); cbn; auto. exact (ex_is_atom 1 ltac:(lia)). Qed.
Lemma terms_compared_witness : (fit (0, 0) ex_atoms ex_list /\ rep [] 0 2 ex_heap ex_list (make_list 0)) /\
  exists j, CMP_TERM (0, 0) ex_atoms 50 ex_heap (make_list 0) (make_small 5) = Got j /\ Z.sgn j = lex (term_key (0, 0) ex_atoms ex_list) (term_key (0, 0) ex_atoms (SMALL_DEF 5)).
Proof.
  destruct ex_fits as (F1 & F2 & F3). pose proof ex_list_rep as R. split; [exact (conj F3 R)|]. assert (Hf : (2 + 5 * term_size ex_list <= 50)%nat) by (apply Nat.leb_le; vm_compute; reflexivity).
  exact (terms_compared (0, 0) ex_atoms 50 ex_heap 0 2 0 2 ex_list (SMALL_DEF 5) (make_list 0) (make_small 5) (proj1 F3) (proj2 F3) (proj1 F1) (proj2 F1) R eq_refl Hf).
Defined.
Lemma terms_in_order_witness : (fit (0, 0) ex_atoms (SMALL_DEF 5) /\ fit (0, 0) ex_atoms (ATOM_DEF 1) /\ fit (0, 0) ex_atoms ex_list /\ rep [] 0 2 ex_heap ex_list (make_list 0)) /\
  (let cmp x y := match CMP_TERM (0, 0) ex_atoms 50 ex_heap x y with Got j => Some j | _ => None end in
   exists ab ba bc ac, cmp (make_small 5) (make_atom 1) = Some ab /\ cmp (make_atom 1) (make_small 5) = Some ba /\ cmp (make_atom 1) (make_list 0) = Some bc /\ cmp (make_small 5) (make_list 0) = Some ac /\
    (ab = 0 <-> term_key (0, 0) ex_atoms (SMALL_DEF 5) = term_key (0, 0) ex_atoms (ATOM_DEF 1)) /\ (ab < 0 <-> 0 < ba) /\ (ab < 0 -> bc < 0 -> ac < 0) /\
    (kind (SMALL_DEF 5) <> kind (ATOM_DEF 1) -> ab < 0 <-> kind (ATOM_DEF 1) < kind (SMALL_DEF 5))).
Proof.
  destruct ex_fits as (F1 & F2 & F3). pose proof ex_list_rep as R. split; [exact (conj F1 (conj F2 (conj F3 R)))|].
  assert (Hf : (2 + 5 * (term_size (SMALL_DEF 5) + term_size (ATOM_DEF 1)) <= 50)%nat) by (apply Nat.leb_le; vm_compute; reflexivity).
  exact (terms_in_order (0, 0) ex_atoms 50 ex_heap 0 2 (SMALL_DEF 5) (ATOM_DEF 1) ex_list (make_small 5) (make_atom 1) (make_list 0) F1 F2 F3 eq_refl eq_refl R Hf).
Defined.
