(* ===== verification/BoyerMoore.v ===== *)
(** What a search is to find ([matches], the [first_match] and [all_matches]), and Boyer-Moore
    (erl_bif_binary.c): the two tables of shifts, and the searches for the first and for all
    matches, which can be stopped and continued. *)

From S2P Require Import Prelude.
From stdpp Require Import base option list.
From S2P Require Import Memory.
Local Open Scope Z_scope.

(** ** What a search is to find *)
Notation len l := (Z.of_nat (length l)).
(** The element at an index, or 0. *)
Definition elt (l : list Z) (i : Z) : Z := default 0 (l !! Z.to_nat i).
Definition occurs (x hay : list Z) (j : Z) : Prop := 0 <= j /\ j + len x <= len hay /\ take (length x) (drop (Z.to_nat j) hay) = x.
(** A match of one of the patterns between two positions: where it starts, and
    its length. *)
Definition matches (pats : list (list Z)) (hay : list Z) (start stop : Z) (p : Z * Z) : Prop :=
  start <= fst p /\ fst p + snd p <= stop /\ exists x, x ∈ pats /\ snd p = len x /\ occurs x hay (fst p).
(** [p] is before [q]: it starts first, or at the same place and is longer. *)
Definition before (p q : Z * Z) : Prop := fst p < fst q \/ fst p = fst q /\ snd q <= snd p.
Definition first_match (pats : list (list Z)) (hay : list Z) (start stop : Z) (p : Z * Z) : Prop :=
  matches pats hay start stop p /\ forall q, matches pats hay start stop q -> before p q.
(** All matches that do not overlap, each one the first behind the one before. *)
Inductive all_matches (M : Z * Z -> Prop) : Z -> list (Z * Z) -> Prop :=
| no_more c : (forall p, M p -> fst p < c) -> all_matches M c []
| one_more_match c p l : M p -> c <= fst p -> (forall q, M q -> c <= fst q -> before p q) -> all_matches M (fst p + snd p) l -> all_matches M c (p :: l).

(** ** Lemmas *)
Lemma peek_elt l i : 0 <= i < len l -> peek l i = Ok (elt l i).
Proof.
  intros Hi. unfold peek, elt. rewrite (proj2 (Z.ltb_ge i 0)) by lia. destruct (lookup_lt_is_Some_2 l (Z.to_nat i)) as [v ->]; [lia|]. reflexivity.
Qed.
Lemma elt_insert l i j v : 0 <= i < len l -> 0 <= j -> elt (<[Z.to_nat i := v]> l) j = if i =? j then v else elt l j.
Proof.
  intros Hi Hj. unfold elt. destruct (Z.eqb_spec i j) as [<-|N]; [rewrite list_lookup_insert_eq by lia; reflexivity|]. now rewrite list_lookup_insert_ne by lia.
Qed.
Lemma elt_replicate n v i : 0 <= i < Z.of_nat n -> elt (replicate n v) i = v.
Proof. intros Hi. unfold elt. now rewrite lookup_replicate_2 by lia. Qed.
Lemma elt_in l i : 0 <= i < len l -> elt l i ∈ l.
Proof. intros Hi. unfold elt. destruct (lookup_lt_is_Some_2 l (Z.to_nat i)) as [v E]; [lia|]. rewrite E. apply list_elem_of_lookup. eauto. Qed.
Lemma occurs_elt x hay j : occurs x hay j <-> 0 <= j /\ j + len x <= len hay /\ forall k, 0 <= k < len x -> elt x k = elt hay (j + k).
Proof.
  unfold occurs. split; intros (H1 & H2 & H3); splits; auto.
  - intros k Hk. unfold elt. f_equal. rewrite <- H3 at 1. rewrite lookup_take_lt by lia. rewrite lookup_drop. f_equal. lia.
  - apply list_eq. intros i. destruct (decide (i < length x)%nat) as [Hi|Hi].
    + rewrite lookup_take_lt, lookup_drop by lia. specialize (H3 (Z.of_nat i) ltac:(lia)). unfold elt in H3. rewrite Nat2Z.id in H3. replace (Z.to_nat (j + Z.of_nat i)) with (Z.to_nat j + i)%nat in H3 by lia.
      destruct (lookup_lt_is_Some_2 x i Hi) as [a Ea], (lookup_lt_is_Some_2 hay (Z.to_nat j + i)) as [b Eb]; [lia|]. rewrite Ea, Eb in *. cbn in H3. now subst.
    + rewrite lookup_take_ge, (lookup_ge_None_2 x) by lia. reflexivity.
Qed.
Lemma before_trans p q r : before p q -> before q r -> before p r.
Proof. unfold before. lia. Qed.

Definition ALPHABET_SIZE : Z := 256.
(** The pattern, its length and the two tables. *)
Record BMData := mkBM { bm_x : list Z; bm_len : Z; goodshift : list Z; badshift : list Z }.

(** ** The two tables of shifts *)
Fixpoint badshift_loop (n : nat) (i m : Z) (x badshift : list Z) : outcome (list Z) :=
  match n with O => Ok badshift | S n => c ← peek x i; badshift ← poke c (m - i - 1) badshift; badshift_loop n (i + 1) m x badshift end.
(** [compute_badshifts]. *)
Definition compute_badshifts (x : list Z) (m : Z) : outcome (list Z) :=
  badshift_loop (Z.to_nat (m - 1)) 0 m x (replicate (Z.to_nat ALPHABET_SIZE) m).

(** While x[g] = x[g + m - 1 - f], with g = n - 1. *)
Fixpoint match_down (n : nat) (x : list Z) (m f : Z) : outcome Z :=
  match n with
  | O => Ok (-1)
  | S k =>
      let g := Z.of_nat k in
      a ← peek x g;
      b ← peek x (g + m - 1 - f);
      if a =? b then match_down k x m f else Ok g
  end.
(** Memory that is not initialised has no value. *)
Definition peek_init (l : list (option Z)) (i : Z) : outcome Z := v ← peek l i; require v.
(** The indices i < n, from the highest one on. *)
Fixpoint suffixes_loop (n : nat) (x : list Z) (m f g : Z) (suffixes : list (option Z)) : outcome (list (option Z)) :=
  match n with
  | O => Ok suffixes
  | S k =>
      let i := Z.of_nat k in
      known ← (if i >? g then s ← peek_init suffixes (i + m - 1 - f); Ok (if s <? i - g then Some s else None) else Ok None);
      match known with
      | Some s => suffixes ← poke i (Some s) suffixes; suffixes_loop k x m f g suffixes
      | None =>
          let g := if i <? g then i else g in
          let f := i in
          g ← match_down (Z.to_nat (g + 1)) x m f;
          suffixes ← poke i (Some (f - g)) suffixes;
          suffixes_loop k x m f g suffixes
      end
  end.
(** The indices are ints. *)
Definition compute_suffixes (x : list Z) (m : Z) : outcome (list (option Z)) :=
  suffixes ← poke (m - 1) (Some m) (replicate (Z.to_nat m) None);
  suffixes_loop (Z.to_nat (s32 (m - 2) + 1)) x m 0 (s32 (m - 1)) suffixes.

(** While j < m - 1 - i, in n rounds. *)
Fixpoint fill_shifts (n : nat) (j i m : Z) (gs : list Z) : outcome (Z * list Z) :=
  match n with
  | O => Ok (j, gs)
  | S n =>
      v ← peek gs j;
      gs ← (if v =? m then poke j (m - 1 - i) gs else Ok gs);
      fill_shifts n (j + 1) i m gs
  end.
(** From i = n - 2 down to -1. *)
Fixpoint prefix_shifts (n : nat) (m j : Z) (suffixes : list (option Z)) (gs : list Z) : outcome (list Z) :=
  match n with
  | O => Ok gs
  | S k =>
      let i := Z.of_nat k - 1 in
      is_prefix ← (if i =? -1 then Ok true else s ← peek_init suffixes i; Ok (s =? i + 1));
      '(j, gs) ← (if is_prefix : bool then fill_shifts (Z.to_nat (m - 1 - i - j)) j i m gs else Ok (j, gs));
      prefix_shifts k m j suffixes gs
  end.
Fixpoint suffix_shifts (n : nat) (i m : Z) (suffixes : list (option Z)) (gs : list Z) : outcome (list Z) :=
  match n with
  | O => Ok gs
  | S n => s ← peek_init suffixes i; gs ← poke (m - 1 - s) (m - 1 - i) gs; suffix_shifts n (i + 1) m suffixes gs
  end.
(** [compute_goodshifts]. *)
Definition compute_goodshifts (x : list Z) (m : Z) : outcome (list Z) :=
  suffixes ← compute_suffixes x m;
  gs ← prefix_shifts (Z.to_nat (m + 1)) m 0 suffixes (replicate (Z.to_nat m) m);
  suffix_shifts (Z.to_nat (m - 1)) 0 m suffixes gs.
(** create_bmdata and both tables. *)
Definition bm_compile (x : list Z) : outcome BMData :=
  let m := len x in
  bs ← compute_badshifts x m;
  gs ← compute_goodshifts x m;
  Ok (mkBM x m gs bs).

(** ** Searching *)
(** From i = n - 1 down, as long as the bytes are equal. *)
Fixpoint bm_compare (n : nat) (needle hay : list Z) (j : Z) : outcome Z :=
  match n with
  | O => Ok (-1)
  | S k =>
      let i := Z.of_nat k in
      a ← peek needle i;
      b ← peek hay (i + j);
      if a =? b then bm_compare k needle hay j else Ok i
  end.
(** The larger of both shifts. *)
Definition bm_shift (bmd : BMData) (hay : list Z) (i j : Z) : outcome Z :=
  g ← peek (goodshift bmd) i;
  c ← peek hay (i + j);
  b ← peek (badshift bmd) c;
  Ok (Z.max g (b - bm_len bmd + 1 + i)).
(** Where the search is, and where it ends. *)
Record BMFindFirstState := mkBMFirst { bf_pos : Z; bf_len : Z }.
(** A position, or the result that stands for none; when the search is to be continued its state
    is kept. *)
Inductive bm_result := BM_FOUND (pos : Z) | BM_NOT_FOUND | BM_RESTART (state : BMFindFirstState).
(** [bm_init_find_first_match]. *)
Definition bm_init_find_first_match (startpos n : Z) : BMFindFirstState := mkBMFirst startpos n.
(** [fuel] bounds the turns: each one moves on. *)
Fixpoint bm_first_loop (fuel : nat) (bmd : BMData) (hay : list Z) (n j reds : Z) : outcome bm_result :=
  if j <=? n - bm_len bmd then
    match fuel with
    | O => Undef
    | S fuel =>
        let reds := w64 (reds - 1) in
        if reds =? 0 then Ok (BM_RESTART (mkBMFirst j n))
        else
          i ← bm_compare (Z.to_nat (bm_len bmd)) (bm_x bmd) hay j;
          if i <? 0 then Ok (BM_FOUND j)
          else s ← bm_shift bmd hay i j; bm_first_loop fuel bmd hay n (j + s) reds
    end
  else Ok BM_NOT_FOUND.
(** [bm_find_first_match]. *)
Definition bm_find_first_match (state : BMFindFirstState) (bmd : BMData) (hay : list Z) (reds : Z) : outcome bm_result :=
  bm_first_loop (Z.to_nat (bf_len state - bf_pos state + 1)) bmd hay (bf_len state) (bf_pos state) reds.

(** ** All matches *)
(** The matches that were found: the first [m] elements of an array. *)
Record find_all := mkAll { fa_m : Z; fa_out : list (option (Z * Z)) }.
Notation allocated l := (Z.of_nat (length l)).
(** Twice as long, 10 elements at first; they have no value yet. *)
Definition grow_out (m : Z) (out : list (option (Z * Z))) : list (option (Z * Z)) :=
  if m >=? allocated out then if allocated out =? 0 then replicate 10 None else out ++ replicate (length out) None else out.
(** A match is added. *)
Definition push_out (p : Z * Z) (a : find_all) : outcome find_all :=
  out ← poke (fa_m a) (Some p) (grow_out (fa_m a) (fa_out a)); Ok (mkAll (fa_m a + 1) out).
Record BMFindAllState := mkBMAll { ba_pos : Z; ba_len : Z; ba_found : find_all }.
(** [bm_init_find_all]. *)
Definition bm_init_find_all (startpos n : Z) : BMFindAllState := mkBMAll startpos n (mkAll 0 []).
Inductive bm_all_result := BM_OK (found : find_all) | BM_NONE_FOUND | BM_ALL_RESTART (state : BMFindAllState).
(** [fuel] bounds the turns: each one moves on. *)
Fixpoint bm_all_loop (fuel : nat) (bmd : BMData) (hay : list Z) (n j reds : Z) (a : find_all) : outcome bm_all_result :=
  if j <=? n - bm_len bmd then
    match fuel with
    | O => Undef
    | S fuel =>
        let reds := w64 (reds - 1) in
        if reds =? 0 then Ok (BM_ALL_RESTART (mkBMAll j n a))
        else
          i ← bm_compare (Z.to_nat (bm_len bmd)) (bm_x bmd) hay j;
          if i <? 0 then a ← push_out (j, bm_len bmd) a; bm_all_loop fuel bmd hay n (j + bm_len bmd) reds a
          else s ← bm_shift bmd hay i j; bm_all_loop fuel bmd hay n (j + s) reds a
    end
  else Ok (if fa_m a =? 0 then BM_NONE_FOUND else BM_OK a).
(** [bm_find_all_non_overlapping]. *)
Definition bm_find_all_non_overlapping (state : BMFindAllState) (bmd : BMData) (hay : list Z) (reds : Z) : outcome bm_all_result :=
  bm_all_loop (Z.to_nat (ba_len state - ba_pos state + 1)) bmd hay (ba_len state) (ba_pos state) reds (ba_found state).
(** The state is copied to a term and back when the process traps: only the
    first [m] elements are kept. *)
Definition restore_out (a : find_all) : find_all := mkAll (fa_m a) (take (Z.to_nat (fa_m a)) (fa_out a) ++ replicate (length (fa_out a) - Z.to_nat (fa_m a)) None).
(** Both copies, out and back. *)
Definition bm_restore_find_all (s : BMFindAllState) : BMFindAllState := mkBMAll (ba_pos s) (ba_len s) (restore_out (ba_found s)).
