(* ===== verification/BmSearch.v ===== *)
(** What the tables of Boyer-Moore contain ([bad_ok] and [good_ok]), that the shifts skip no
    match, and that both searches find what they are to find. *)

From S2P Require Import Prelude.
From stdpp Require Import base option list.
From S2P Require Import Memory BoyerMoore.
Local Open Scope Z_scope.

Section Tables.
Variable x : list Z.
Notation m := (len x).
Notation X := (elt x).

(** ** The table of bad characters *)
Definition bad_ok (bs : list Z) : Prop :=
  len bs = 256 /\ forall c, 0 <= c < 256 -> 1 <= elt bs c <= m /\ forall k, 0 <= k < m - 1 -> X k = c -> elt bs c <= m - 1 - k.
Lemma badshift_loop_spec n : forall i bs, Forall (fun c => 0 <= c < 256) x -> 0 <= i -> i + Z.of_nat n = m - 1 ->
  len bs = 256 -> (forall c, 0 <= c < 256 -> 1 <= elt bs c <= m /\ forall k, 0 <= k < i -> X k = c -> elt bs c <= m - 1 - k) ->
  exists bs', badshift_loop n i m x bs = Ok bs' /\ bad_ok bs'.
Proof.
  induction n as [|n IH]; intros i bs Fx Hi Hn Hl Hb; cbn [badshift_loop].
  - exists bs. split; auto. split; auto. intros c Hc. destruct (Hb c Hc) as [B1 B2]. split; auto. intros k Hk. apply B2. lia.
  - rewrite peek_elt by lia. cbn [mbind outcome_bind]. assert (Hc : 0 <= X i < 256) by (rewrite Forall_forall in Fx; apply Fx, elt_in; lia). rewrite poke_ok by lia. cbn [mbind outcome_bind].
    apply IH; auto; [lia|lia|now rewrite length_insert|]. intros c Hc'. rewrite elt_insert by lia. destruct (Hb c Hc') as [B1 B2]. destruct (Z.eqb_spec (X i) c) as [E|N].
    + split; [lia|]. intros k Hk _. lia.
    + split; [lia|]. intros k Hk Ek. destruct (Z.eq_dec k i) as [->|]; [congruence|]. apply B2; auto. lia.
Qed.
Lemma compute_badshifts_spec : Forall (fun c => 0 <= c < 256) x -> 1 <= m -> exists bs, compute_badshifts x m = Ok bs /\ bad_ok bs.
Proof.
  intros Fx Hm. apply badshift_loop_spec; auto; try lia. intros c Hc. rewrite elt_replicate by (unfold ALPHABET_SIZE; lia). split; lia.
Qed.

(** ** The longest common suffixes *)
(** [s] is the length of the longest common suffix of [x] and its first [i + 1] bytes. *)
Definition suffix_at (i s : Z) : Prop :=
  0 <= s <= i + 1 /\ (forall k, 0 <= k < s -> X (i - k) = X (m - 1 - k)) /\ (s <= i -> X (i - s) <> X (m - 1 - s)).
Lemma suffix_unique i s s' : suffix_at i s -> suffix_at i s' -> s = s'.
Proof.
  intros (H1 & H2 & H3) (H1' & H2' & H3'). destruct (Z.lt_trichotomy s s') as [L|[E|L]]; auto; exfalso.
  - apply H3; [lia|]. apply H2'. lia.
  - apply H3'; [lia|]. apply H2. lia.
Qed.
Definition init_at (l : list (option Z)) (i s : Z) : Prop := l !! Z.to_nat i = Some (Some s).
Lemma peek_init_ok l i s : 0 <= i -> init_at l i s -> peek_init l i = Ok s.
Proof. intros Hi E. unfold peek_init. now rewrite (peek_Some _ _ _ Hi E). Qed.
Definition known_from (n : Z) (suf : list (option Z)) : Prop := len suf = m /\ forall i, n <= i < m -> exists s, init_at suf i s /\ suffix_at i s.
Lemma known_next i s suf : 0 <= i < m -> known_from (i + 1) suf -> suffix_at i s -> poke i (Some s) suf = Ok (<[Z.to_nat i := Some s]> suf) /\ known_from i (<[Z.to_nat i := Some s]> suf).
Proof.
  intros Hi [Hl K] Hs. split; [apply poke_ok; lia|]. split; [now rewrite length_insert|]. intros k Hk. unfold init_at. destruct (Z.eq_dec k i) as [->|N].
  - exists s. rewrite list_lookup_insert_eq by lia. auto.
  - rewrite list_lookup_insert_ne by lia. apply K. lia.
Qed.
Lemma match_down_spec n f : 0 <= f < m -> Z.of_nat n <= f + 1 -> exists g, match_down n x m f = Ok g /\ -1 <= g < Z.of_nat n /\
  (forall k, g < k < Z.of_nat n -> X k = X (k + m - 1 - f)) /\ (0 <= g -> X g <> X (g + m - 1 - f)).
Proof.
  intros Hf. induction n as [|n IH]; intros Hn; cbn [match_down]; [exists (-1); splits; auto; lia|]. rewrite !peek_elt by lia. cbn [mbind outcome_bind].
  destruct (Z.eqb_spec (X (Z.of_nat n)) (X (Z.of_nat n + m - 1 - f))) as [E|N].
  - destruct IH as (g & -> & G1 & G2 & G3); [lia|]. exists g. splits; auto; [lia|lia|]. intros k Hk. destruct (Z.eq_dec k (Z.of_nat n)) as [->|]; auto. apply G2. lia.
  - exists (Z.of_nat n). splits; auto; lia.
Qed.
(** The last common suffix that was compared, from [f] down to [g]. *)
Definition window (n f g : Z) : Prop :=
  g = m - 1 /\ n = m - 1 \/ n <= f < m - 1 /\ -1 <= g <= f /\ forall k, g < k <= f -> X k = X (k + m - 1 - f).
Lemma suffixes_loop_spec n : forall f g suf, Z.of_nat n <= m - 1 -> window (Z.of_nat n) f g -> known_from (Z.of_nat n) suf ->
  exists suf', suffixes_loop n x m f g suf = Ok suf' /\ known_from 0 suf'.
Proof.
  induction n as [|n IH]; intros f g suf Hn W K; [exists suf; auto|]. cbn [suffixes_loop]. set (i := Z.of_nat n) in *. assert (Ei : Z.of_nat (S n) = i + 1) by lia. rewrite Ei in *. rewrite Z.gtb_ltb.
  assert (E : forall g0, -1 <= g0 <= i -> (forall k, g0 < k <= i -> X k = X (k + m - 1 - i)) -> exists suf',
    (g ← match_down (Z.to_nat (g0 + 1)) x m i; suffixes ← poke i (Some (i - g)) suf; suffixes_loop n x m i g suffixes) = Ok suf' /\ known_from 0 suf').
  { intros g0 Hg0 M. destruct (match_down_spec (Z.to_nat (g0 + 1)) i) as (g1 & -> & G1 & G2 & G3); [lia|lia|]. cbn [mbind outcome_bind].
    assert (M1 : forall k, g1 < k <= i -> X k = X (k + m - 1 - i)) by (intros k Hk; destruct (Z_le_gt_dec k g0); [apply G2|apply M]; lia).
    assert (Hs : suffix_at i (i - g1)).
    { split; [lia|]. split; [intros k Hk; rewrite M1 by lia; f_equal; lia|]. intros Hg1. replace (i - (i - g1)) with g1 by lia. replace (m - 1 - (i - g1)) with (g1 + m - 1 - i) by lia. apply G3. lia. }
    destruct (known_next i (i - g1) suf ltac:(lia) K Hs) as [-> K']. cbn [mbind outcome_bind]. apply IH; auto; [lia|]. right. splits; auto; lia. }
  destruct (Z.ltb_spec g i) as [Hg|Hg]; [|cbn [mbind outcome_bind]; destruct (Z.ltb_spec i g) as [Hg'|Hg']; apply E; try lia; replace g with i by lia; lia].
  destruct W as [[-> W]|(Hf & Hg' & M)]; [lia|]. destruct K as [Kl K]. destruct (K (i + m - 1 - f) ltac:(lia)) as (s & Es & Hs). rewrite (peek_init_ok _ _ s) by (auto; lia). cbn [mbind outcome_bind].
  destruct (Z.ltb_spec s (i - g)) as [L|L]; cbn [mbind outcome_bind].
  - assert (Hs' : suffix_at i s).
    { destruct Hs as (S1 & S2 & S3). split; [lia|]. split; [intros k Hk; rewrite M by lia; rewrite <- S2 by lia; f_equal; lia|]. intros Hi. rewrite M by lia. replace (i - s + m - 1 - f) with (i + m - 1 - f - s) by lia. apply S3. lia. }
    destruct (known_next i s suf ltac:(lia) (conj Kl K) Hs') as [-> K']. cbn [mbind outcome_bind]. apply IH; auto; [lia|]. right. splits; auto; lia.
  - rewrite (proj2 (Z.ltb_ge i g)) by lia. apply E; [lia|]. intros k Hk. destruct Hs as (S1 & S2 & _). rewrite M by lia. replace (k + m - 1 - f) with (i + m - 1 - f - (i - k)) by lia. rewrite S2 by lia. f_equal. lia.
Qed.
Lemma compute_suffixes_spec : 1 <= m < 2 ^ 31 -> exists suf, compute_suffixes x m = Ok suf /\ known_from 0 suf.
Proof.
  intros Hm. unfold compute_suffixes. rewrite !s32_id by lia. rewrite poke_ok by (rewrite length_replicate; lia). cbn [mbind outcome_bind]. apply suffixes_loop_spec; [lia|left; lia|].
  replace (Z.of_nat (Z.to_nat (m - 2 + 1))) with (m - 1) by lia. split; [now rewrite length_insert, length_replicate, Nat2Z.id|]. intros i Hi. exists m. assert (i = m - 1) as -> by lia.
  split; [unfold init_at; rewrite list_lookup_insert_eq by (rewrite length_replicate; lia); reflexivity|]. split; [lia|]. split; [auto|lia].
Qed.

(** ** The table of good suffixes *)
(** [x] agrees with itself, [s] bytes further on. *)
Definition prefix_of (s : Z) : Prop := suffix_at (m - 1 - s) (m - s).
Variable suf : list (option Z).
Hypothesis Hsuf : known_from 0 suf.
Lemma peek_suf i : 0 <= i < m -> exists s, peek_init suf i = Ok s /\ suffix_at i s.
Proof. intros Hi. destruct Hsuf as [_ K]. destruct (K i Hi) as (s & E & Hs). exists s. split; auto. apply peek_init_ok; auto; lia. Qed.
(** The shifts up to [j] are the least ones to a prefix; the prefixes of shifts below [s] were
    seen. *)
Definition prefixes_to (j s : Z) (gs : list Z) : Prop :=
  len gs = m /\ 0 <= j <= m /\ (forall p, 0 <= p < j -> p < elt gs p <= m /\ forall t, p < t < m -> prefix_of t -> elt gs p <= t) /\
  (forall p, j <= p < m -> elt gs p = m) /\ forall t, 0 <= t < s -> prefix_of t -> t <= j.
Lemma fill_shifts_spec n : forall j i gs, Z.of_nat n = m - 1 - i - j -> -1 <= i -> prefixes_to j (m - 1 - i) gs ->
  (forall t, j < t < m - 1 - i -> ~ prefix_of t) -> exists gs', fill_shifts n j i m gs = Ok (m - 1 - i, gs') /\ prefixes_to (m - 1 - i) (m - 1 - i) gs'.
Proof.
  induction n as [|n IH]; intros j i gs Hn Hi P Hno; cbn [fill_shifts].
  - replace (m - 1 - i) with j in * by lia. exists gs. auto.
  - destruct P as (Pl & Pj & P1 & P2 & P3). rewrite peek_elt by lia. cbn [mbind outcome_bind]. rewrite P2, Z.eqb_refl, poke_ok by lia. cbn [mbind outcome_bind]. apply IH; [lia|auto| |intros t Ht; apply Hno; lia].
    split; [now rewrite length_insert|]. split; [lia|]. split; [|split].
    + intros p Hp. rewrite elt_insert by lia. destruct (Z.eqb_spec j p) as [<-|N]; [|apply P1; lia]. split; [lia|]. intros t Ht Pt. destruct (Z_lt_le_dec t (m - 1 - i)); auto. destruct (Hno t); auto. lia.
    + intros p Hp. rewrite elt_insert by lia. destruct (Z.eqb_spec j p); [lia|]. apply P2. lia.
    + intros t Ht Pt. specialize (P3 t Ht Pt). lia.
Qed.
Lemma prefix_shifts_spec n : forall j gs, Z.of_nat n <= m + 1 -> j <= m + 1 - Z.of_nat n -> prefixes_to j (m + 1 - Z.of_nat n) gs -> (n = O -> j = m) ->
  exists gs', prefix_shifts n m j suf gs = Ok gs' /\ exists j', prefixes_to j' (m + 1) gs' /\ j' = m.
Proof.
  induction n as [|k IH]; intros j gs Hn Hj P Z0; cbn [prefix_shifts].
  - exists gs. split; auto. exists j. split; auto. now replace (m + 1) with (m + 1 - Z.of_nat 0) by lia.
  - set (i := Z.of_nat k - 1) in *. set (s := m - 1 - i) in *. replace (m + 1 - Z.of_nat (S k)) with s in * by lia.
    assert (B : exists b : bool, (if i =? -1 then Ok true else s ← peek_init suf i; Ok (s =? i + 1)) = Ok b /\ (b = true \/ i <> -1 /\ ~ prefix_of s)).
    { destruct (Z.eqb_spec i (-1)) as [E|N]; [eauto|]. destruct (Z_lt_le_dec i m) as [L|]; [|lia]. destruct (peek_suf i ltac:(lia)) as (t & -> & Ht). cbn [mbind outcome_bind]. eexists. split; [reflexivity|].
      destruct (Z.eqb_spec t (i + 1)) as [->|Nt]; auto. right. split; auto. intros Pt. apply Nt. unfold prefix_of in Pt. replace (m - 1 - s) with i in Pt by lia. rewrite (suffix_unique _ _ _ Ht Pt). lia. }
    destruct B as (b & -> & Hb). cbn [mbind outcome_bind]. destruct b.
    + destruct (fill_shifts_spec (Z.to_nat (m - 1 - i - j)) j i gs) as (gs' & Eg & P'); [lia|lia|exact P| |].
      { intros t Ht Pt. destruct P as (_ & Pj & _ & _ & P3). specialize (P3 t ltac:(lia) Pt). lia. }
      fold s in Eg, P'. rewrite Eg. cbn [mbind outcome_bind]. apply IH; [lia|lia| |intros ->; lia]. destruct P' as (Q1 & Q2 & Q3 & Q4 & Q5). unfold prefixes_to. splits; auto; lia.
    + destruct Hb as [|[Ni Np]]; [discriminate|]. cbn [mbind outcome_bind]. apply IH; [lia|lia| |intros ->; lia]. destruct P as (Q1 & Q2 & Q3 & Q4 & Q5). unfold prefixes_to. splits; auto; try lia.
      intros t Ht Pt. destruct (Z.eq_dec t s) as [->|]; [now destruct Np|]. apply Q5; auto. lia.
Qed.
(** Shifts of [s0] and more to a suffix were seen. *)
Definition shifts_from (s0 : Z) (gs : list Z) : Prop :=
  len gs = m /\ forall p, 0 <= p < m -> 1 <= elt gs p <= m /\ (forall t, p < t < m -> prefix_of t -> elt gs p <= t) /\
    forall t, s0 <= t < m -> suffix_at (m - 1 - t) (m - 1 - p) -> elt gs p <= t.
Lemma suffix_shifts_spec n : forall i gs, Z.of_nat n = m - 1 - i -> 0 <= i -> shifts_from (m - i) gs -> exists gs', suffix_shifts n i m suf gs = Ok gs' /\ shifts_from 1 gs'.
Proof.
  induction n as [|n IH]; intros i gs Hn Hi P; cbn [suffix_shifts].
  - exists gs. split; auto. now replace 1 with (m - i) by lia.
  - destruct (peek_suf i ltac:(lia)) as (s & -> & Hs). cbn [mbind outcome_bind]. pose proof Hs as (S1 & _). destruct P as [Pl P]. rewrite poke_ok by lia. cbn [mbind outcome_bind]. apply IH; [lia|lia|].
    split; [now rewrite length_insert|]. intros p Hp. rewrite elt_insert by lia. destruct (P p Hp) as (P1 & P2 & P3). destruct (Z.eqb_spec (m - 1 - s) p) as [E|N].
    + split; [lia|]. split; intros t Ht; lia.
    + split; [lia|]. split; [auto|]. intros t Ht Pt. destruct (Z.eq_dec t (m - 1 - i)) as [->|]; [|apply P3; auto; lia]. replace (m - 1 - (m - 1 - i)) with i in Pt by lia. pose proof (suffix_unique _ _ _ Hs Pt). lia.
Qed.
End Tables.
Definition good_ok (x gs : list Z) : Prop := shifts_from x 1 gs.
Lemma compute_goodshifts_spec x : 1 <= len x < 2 ^ 31 -> exists gs, compute_goodshifts x (len x) = Ok gs /\ good_ok x gs.
Proof.
  intros Hm. unfold compute_goodshifts. destruct (compute_suffixes_spec x Hm) as (suf & -> & K). cbn [mbind outcome_bind].
  destruct (prefix_shifts_spec x suf K (Z.to_nat (len x + 1)) 0 (replicate (Z.to_nat (len x)) (len x))) as (gs & -> & j & P & ->); [lia|lia| |lia|].
  { unfold prefixes_to. splits; [rewrite length_replicate; lia|lia|lia|lia| |]; [intros p Hp; apply elt_replicate; lia|intros t Ht; lia]. }
  cbn [mbind outcome_bind]. apply suffix_shifts_spec; auto; [lia|lia|]. destruct P as (Pl & _ & P1 & _ & P3). split; [auto|]. intros p Hp. destruct (P1 p Hp) as [Q1 Q2]. split; [lia|]. split; [auto|]. intros t Ht. lia.
Qed.

Notation bytes l := (Forall (fun c => 0 <= c < 256) l).
(** What is compiled for the string [x]. *)
Definition bm_for (x : list Z) (bmd : BMData) : Prop := bmd = mkBM x (len x) (goodshift bmd) (badshift bmd) /\ 1 <= len x /\ good_ok x (goodshift bmd) /\ bad_ok x (badshift bmd).
Lemma bm_compile_spec x : bytes x -> 1 <= len x < 2 ^ 31 -> exists bmd, bm_compile x = Ok bmd /\ bm_for x bmd.
Proof.
  intros Fx Hm. unfold bm_compile. destruct (compute_badshifts_spec x Fx ltac:(lia)) as (bs & -> & Hb). cbn [mbind outcome_bind]. destruct (compute_goodshifts_spec x Hm) as (gs & -> & Hg). cbn [mbind outcome_bind].
  eexists. split; [reflexivity|]. unfold bm_for. cbn [goodshift badshift]. splits; auto. lia.
Qed.

(** ** The array of matches *)
Lemma grow_out_spec k out : 0 <= k <= allocated out -> k < allocated (grow_out k out) /\ take (Z.to_nat k) (grow_out k out) = take (Z.to_nat k) out.
Proof.
  intros Hk. unfold grow_out. rewrite Z.geb_leb. destruct (Z.leb_spec (allocated out) k); [|split; auto; lia]. assert (k = allocated out) as -> by lia. destruct (Z.eqb_spec (allocated out) 0) as [E|N].
  - destruct out; [|cbn [length] in E; lia]. cbn. split; [lia|reflexivity].
  - rewrite length_app, length_replicate. split; [lia|]. rewrite Nat2Z.id, take_app_length. now rewrite take_ge by lia.
Qed.
Lemma push_out_spec p a : 0 <= fa_m a <= allocated (fa_out a) -> exists a', push_out p a = Ok a' /\ fa_m a' = fa_m a + 1 /\ fa_m a' <= allocated (fa_out a') /\ take (Z.to_nat (fa_m a')) (fa_out a') = take (Z.to_nat (fa_m a)) (fa_out a) ++ [Some p].
Proof.
  intros Ha. unfold push_out. destruct (grow_out_spec (fa_m a) (fa_out a) Ha) as [G1 G2]. rewrite poke_ok by lia. cbn [mbind outcome_bind]. eexists. split; [reflexivity|]. cbn [fa_m fa_out]. rewrite length_insert. splits; auto; [lia|].
  rewrite <- G2. replace (Z.to_nat (fa_m a + 1)) with (S (Z.to_nat (fa_m a))) by lia. rewrite (take_S_r _ _ (Some p)) by (apply list_lookup_insert_eq; lia). f_equal. now rewrite take_insert_ge by lia.
Qed.

Section Search.
Variables (x hay : list Z) (bmd : BMData) (n : Z).
Hypothesis Hb : bm_for x bmd.
Hypothesis Hhay : bytes hay.
Hypothesis Hn : n <= len hay.
Notation m := (len x).
Notation X := (elt x).
Notation H := (elt hay).
(** No occurrence from [a] on, before [b], that ends before [n]. *)
Definition none (a b : Z) : Prop := forall p, a <= p < b -> p + m <= n -> ~ occurs x hay p.
Lemma none_trans a b c : none a b -> none b c -> none a c.
Proof. intros N1 N2 p Hp. destruct (Z_lt_le_dec p b); [apply N1|apply N2]; lia. Qed.
Lemma none_one a b : none a b -> ~ occurs x hay b -> none a (b + 1).
Proof. intros N O p Hp Hm. destruct (Z.eq_dec p b) as [->|]; [auto|apply N; lia]. Qed.

Lemma bm_compare_spec j k : 0 <= j -> j + m <= len hay -> Z.of_nat k <= m -> exists i, bm_compare k x hay j = Ok i /\ -1 <= i < Z.of_nat k /\ (forall t, i < t < Z.of_nat k -> X t = H (j + t)) /\ (0 <= i -> X i <> H (j + i)).
Proof.
  intros Hj Hl. induction k as [|k IH]; intros Hk; cbn [bm_compare]; [exists (-1); splits; auto; lia|]. rewrite !peek_elt by lia. cbn [mbind outcome_bind]. rewrite (Z.add_comm _ j).
  destruct (Z.eqb_spec (X (Z.of_nat k)) (H (j + Z.of_nat k))) as [E|N].
  - destruct IH as (i & -> & I1 & I2 & I3); [lia|]. exists i. splits; auto; try lia. intros t Ht. destruct (Z.eq_dec t (Z.of_nat k)) as [->|]; auto. apply I2. lia.
  - exists (Z.of_nat k). splits; auto; lia.
Qed.
Lemma bm_shift_spec j i : 0 <= j -> j + m <= len hay -> 0 <= i < m -> (forall t, i < t < m -> X t = H (j + t)) -> X i <> H (j + i) ->
  exists s, bm_shift bmd hay i j = Ok s /\ 1 <= s /\ none (j + 1) (j + s).
Proof.
  destruct Hb as (-> & Hm & [Gl G] & [Bl B]). cbn [goodshift badshift] in *. intros Hj Hl Hi Ht Ne. unfold bm_shift. cbn [goodshift badshift bm_len].
  rewrite (peek_elt (goodshift bmd)) by lia. cbn [mbind outcome_bind]. rewrite (peek_elt hay) by lia. cbn [mbind outcome_bind]. rewrite (Z.add_comm i j).
  assert (Hc : 0 <= H (j + i) < 256) by (rewrite Forall_forall in Hhay; apply Hhay, elt_in; lia). rewrite (peek_elt (badshift bmd)) by lia. cbn [mbind outcome_bind]. eexists. split; [reflexivity|].
  destruct (G i Hi) as (G1 & G2 & G3). destruct (B _ Hc) as [B1 B2]. split; [lia|]. intros p Hp Hpm (O1 & O2 & O3)%occurs_elt.
  set (s := p - j). assert (Hs : 1 <= s < Z.max (elt (goodshift bmd) i) (elt (badshift bmd) (H (j + i)) - m + 1 + i)) by lia. assert (Es : forall k, 0 <= k < m - s -> X k = H (j + (k + s))) by (intros k Hk; rewrite O3 by lia; f_equal; lia).
  assert (s < elt (goodshift bmd) i \/ s < elt (badshift bmd) (H (j + i)) - m + 1 + i) as [L|L] by lia.
  - assert (M : forall t, 0 <= t < m - 1 - i -> t < m - s -> X (m - 1 - s - t) = X (m - 1 - t)).
    { intros t Ht1 Ht2. rewrite Es by lia. rewrite Ht by lia. f_equal. lia. }
    destruct (Z_le_gt_dec s i) as [Le|Gt].
    + specialize (G3 s ltac:(lia)). enough (suffix_at x (m - 1 - s) (m - 1 - i)) by (specialize (G3 ltac:(auto)); lia). split; [lia|]. split; [intros k Hk; apply M; lia|]. intros _.
      replace (m - 1 - s - (m - 1 - i)) with (i - s) by lia. replace (m - 1 - (m - 1 - i)) with i by lia. rewrite Es by lia. replace (i - s + s) with i by lia. auto.
    + specialize (G2 s ltac:(lia)). enough (prefix_of x s) by (specialize (G2 ltac:(auto)); lia). split; [lia|]. split; [intros k Hk; apply M; lia|lia].
  - specialize (B2 (i - s) ltac:(lia)). enough (X (i - s) = H (j + i)) by (specialize (B2 ltac:(auto)); lia). rewrite Es by lia. f_equal. lia.
Qed.
(** One turn of a search: a match at [j], or a shift over positions without one. *)
Lemma bm_turn j : 0 <= j -> j <= n - m -> exists i, bm_compare (Z.to_nat (bm_len bmd)) (bm_x bmd) hay j = Ok i /\
  (i < 0 /\ occurs x hay j \/ 0 <= i /\ exists s, bm_shift bmd hay i j = Ok s /\ 1 <= s /\ none j (j + s)).
Proof.
  intros Hj Hl. pose proof Hb as (E & Hm & _). assert (El : bm_len bmd = m) by (now rewrite E). assert (Ex : bm_x bmd = x) by (now rewrite E). rewrite El, Ex. destruct (bm_compare_spec j (Z.to_nat m)) as (i & -> & I1 & I2 & I3); [lia|lia|lia|]. exists i. split; auto.
  rewrite Z2Nat.id in I1, I2 by lia. destruct (Z_lt_le_dec i 0) as [L|L]; [left|right]; split; auto.
  - apply occurs_elt. split; [lia|]. split; [lia|]. intros k Hk. apply I2. lia.
  - destruct (bm_shift_spec j i) as (s & -> & S1 & S2); auto; try lia. exists s. splits; auto. apply (none_trans _ (j + 1)); auto. intros p Hp Hpm O%occurs_elt. replace p with j in O by lia. apply I3; [lia|]. apply O. lia.
Qed.
Lemma bm_first_spec fuel : forall j reds, n - j + 1 <= Z.of_nat fuel -> 0 <= j -> 1 <= reds < 2 ^ 64 ->
  exists r, bm_first_loop fuel bmd hay n j reds = Ok r /\
    match r with
    | BM_FOUND p => j <= p /\ p + m <= n /\ occurs x hay p /\ none j p
    | BM_NOT_FOUND => none j n
    | BM_RESTART s => bf_len s = n /\ none j (bf_pos s) /\ j <= bf_pos s <= n - m /\ (2 <= reds -> j < bf_pos s)
    end.
Proof.
  pose proof Hb as (E & Hm & _). assert (El : bm_len bmd = m) by (now rewrite E). induction fuel as [|fuel IH]; intros j reds Hf Hj Hr; cbn [bm_first_loop]; rewrite El.
  - rewrite (proj2 (Z.leb_gt j (n - m))) by lia. exists BM_NOT_FOUND. split; auto. intros p Hp Hpm. lia.
  - destruct (Z.leb_spec j (n - m)) as [L|L]; [|exists BM_NOT_FOUND; split; auto; intros p Hp Hpm; lia]. rewrite (w64_id (reds - 1)) by lia. destruct (Z.eqb_spec (reds - 1) 0) as [R|R].
    + eexists. split; [reflexivity|]. cbn. splits; auto; try lia. intros p Hp. lia.
    + destruct (bm_turn j Hj L) as (i & Ei & D). rewrite El in Ei. rewrite Ei. cbn [mbind outcome_bind]. destruct D as [[Li O]|(Li & s & Es & S1 & S2)].
      * rewrite (proj2 (Z.ltb_lt i 0)) by lia. eexists. split; [reflexivity|]. cbn. splits; auto; try lia. intros p Hp. lia.
      * rewrite (proj2 (Z.ltb_ge i 0)), Es by lia. cbn [mbind outcome_bind]. destruct (IH (j + s) (reds - 1)) as (r & -> & P); [lia|lia|lia|]. eexists. split; [reflexivity|]. destruct r as [p| |st].
        -- destruct P as (P1 & P2 & P3 & P4). splits; auto; [lia|]. eapply none_trans; eauto.
        -- eapply none_trans; eauto.
        -- destruct P as (P1 & P2 & P3 & P4). splits; auto; try lia. eapply none_trans; eauto.
Qed.

(** ** All matches *)
(** The matches found so far: they are in order, each one the first behind the one before. *)
Definition found (start c : Z) (a : find_all) : Prop :=
  exists l, 0 <= fa_m a <= allocated (fa_out a) /\ take (Z.to_nat (fa_m a)) (fa_out a) = map Some l /\ fa_m a = len l /\
    forall rest, all_matches (matches [x] hay start n) c rest -> all_matches (matches [x] hay start n) start (l ++ rest).
Lemma restore_found start c a : found start c a -> found start c (restore_out a).
Proof.
  intros (l & Ha & Ht & Hm & R). exists l. unfold restore_out. cbn [fa_m fa_out]. rewrite length_app, length_take, length_replicate. splits; auto; try lia. rewrite take_app_le by (rewrite length_take; lia). rewrite take_take. now rewrite Nat.min_id.
Qed.
Lemma found_match start j a : start <= j -> j + m <= n -> occurs x hay j -> found start j a -> exists a', push_out (j, m) a = Ok a' /\ found start (j + m) a'.
Proof.
  intros Hs Hj O (l & Ha & Ht & Hm & R). destruct (push_out_spec (j, m) a Ha) as (a' & E & A1 & A2 & A3). exists a'. split; auto. exists (l ++ [(j, m)]). rewrite A3, Ht, map_app, length_app. splits; auto; try (cbn; lia).
  intros rest Hr. rewrite <- app_assoc. apply R. cbn [app]. apply one_more_match; cbn [fst snd]; auto; [|lia|].
  - split; [cbn; lia|]. split; [cbn; lia|]. exists x. split; [apply list_elem_of_singleton; auto|]. auto.
  - intros q (Q1 & Q2 & y & Q3 & Q4 & _) Hq. apply list_elem_of_singleton in Q3 as ->. unfold before. cbn [fst snd]. lia.
Qed.
Lemma found_none start j c a : j <= c -> none j c -> found start j a -> found start c a.
Proof.
  intros Hc N (l & Ha & Ht & Hm & R). exists l. splits; auto; try lia. intros rest Hr. apply R. assert (F : forall p, matches [x] hay start n p -> j <= fst p -> c <= fst p).
  { intros p (Q1 & Q2 & y & Q3 & Q4 & Q5) Hp. apply list_elem_of_singleton in Q3 as ->. destruct (Z_lt_le_dec (fst p) c) as [L|L]; auto. destruct (N (fst p)); auto; lia. }
  destruct Hr as [c Hr|c p rest P1 P2 P3 P4].
  - apply no_more. intros p Hp. destruct (Z_lt_le_dec (fst p) j) as [L|L]; auto. specialize (F p Hp L). specialize (Hr p Hp). lia.
  - apply one_more_match; auto. lia.
Qed.
(** What the search returns. *)
Definition all_found (start : Z) (r : bm_all_result) : Prop :=
  match r with
  | BM_OK a => exists l, l <> [] /\ take (Z.to_nat (fa_m a)) (fa_out a) = map Some l /\ fa_m a = len l /\ all_matches (matches [x] hay start n) start l
  | BM_NONE_FOUND => all_matches (matches [x] hay start n) start []
  | BM_ALL_RESTART s => False
  end.
Lemma bm_all_spec start fuel : forall j reds a, n - j + 1 <= Z.of_nat fuel -> 0 <= start <= j -> 1 <= reds < 2 ^ 64 -> found start j a ->
  exists r, bm_all_loop fuel bmd hay n j reds a = Ok r /\
    match r with
    | BM_ALL_RESTART s => ba_len s = n /\ found start (ba_pos s) (ba_found s) /\ j <= ba_pos s <= n - m /\ (2 <= reds -> j < ba_pos s)
    | _ => all_found start r
    end.
Proof.
  pose proof Hb as (E & Hm & _). assert (El : bm_len bmd = m) by (now rewrite E).
  assert (Done : forall j a, start <= j -> n - m < j -> found start j a -> all_found start (if fa_m a =? 0 then BM_NONE_FOUND else BM_OK a)).
  { intros j a Hs Hj (l & Ha & Ht & Hl & R). specialize (R []). rewrite app_nil_r in R. assert (A : all_matches (matches [x] hay start n) start l).
    { apply R. apply no_more. intros p (Q1 & Q2 & y & Q3 & Q4 & Q5). apply list_elem_of_singleton in Q3 as ->. lia. }
    destruct (Z.eqb_spec (fa_m a) 0) as [Z0|N0]; cbn.
    - destruct l; [auto|cbn [length] in Hl; lia].
    - exists l. splits; auto. intros ->. cbn in Hl. lia. }
  induction fuel as [|fuel IH]; intros j reds a Hf Hj Hr F; cbn [bm_all_loop]; rewrite El.
  - rewrite (proj2 (Z.leb_gt j (n - m))) by lia. eexists. split; [reflexivity|]. assert (D := Done j a ltac:(lia) ltac:(lia) F). destruct (fa_m a =? 0); exact D.
  - destruct (Z.leb_spec j (n - m)) as [L|L].
    2: { eexists. split; [reflexivity|]. assert (D := Done j a ltac:(lia) ltac:(lia) F). destruct (fa_m a =? 0); exact D. }
    rewrite (w64_id (reds - 1)) by lia. destruct (Z.eqb_spec (reds - 1) 0) as [R|R].
    + eexists. split; [reflexivity|]. cbn. splits; auto; lia.
    + destruct (bm_turn j ltac:(lia) L) as (i & Ei & D). rewrite El in Ei. rewrite Ei. cbn [mbind outcome_bind]. destruct D as [[Li O]|(Li & s & Es & S1 & S2)].
      * rewrite (proj2 (Z.ltb_lt i 0)) by lia. destruct (found_match start j a) as (a' & -> & F'); auto; [lia|lia|]. cbn [mbind outcome_bind]. destruct (IH (j + m) (reds - 1) a') as (r & -> & P); [lia|lia|lia|auto|]. eexists. split; [reflexivity|].
        destruct r; auto. destruct P as (P1 & P2 & P3 & P4). splits; auto; lia.
      * rewrite (proj2 (Z.ltb_ge i 0)), Es by lia. cbn [mbind outcome_bind]. destruct (IH (j + s) (reds - 1) a) as (r & -> & P); [lia|lia|lia|apply (found_none _ j); auto; lia|]. eexists. split; [reflexivity|].
        destruct r; auto. destruct P as (P1 & P2 & P3 & P4). splits; auto; lia.
Qed.
End Search.
