(* ===== verification/AhoCorasick.v ===== *)
(** Aho-Corasick (erl_bif_binary.c): the trie of the patterns, its failure nodes, computed
    breadth first with a queue, and the searches for the first and for all matches. The memory for
    nodes and queue is as large as the code allocates it. *)

From S2P Require Import Prelude.
From stdpp Require Import base option list gmap.
From S2P Require Import Memory BoyerMoore.
Local Open Scope Z_scope.

(** A node, with its depth, its number in the set of patterns, the failure node
    and its children; nodes are in the order of their allocation, the root first. *)
Record ACNode := mkAC { ac_d : Z; final : Z; ac_h : option nat; ac_g : gmap Z nat }.
(** The number of patterns, and all nodes. *)
Record ACTrie := mkTrie { counter : Z; nodes : list ACNode }.
(** The first node. *)
Definition root : nat := 0.
Definition node_at (ns : list ACNode) (p : nat) : outcome ACNode := require (ns !! p).
Definition set_node (p : nat) (n : ACNode) (ns : list ACNode) : outcome (list ACNode) := _ ← node_at ns p; Ok (<[p := n]> ns).
Definition set_h (p : nat) (h : option nat) (ns : list ACNode) : outcome (list ACNode) := n ← node_at ns p; set_node p (mkAC (ac_d n) (final n) h (ac_g n)) ns.
Definition set_final (p : nat) (f : Z) (ns : list ACNode) : outcome (list ACNode) := n ← node_at ns p; set_node p (mkAC (ac_d n) f (ac_h n) (ac_g n)) ns.
Definition set_g (p : nat) (c : Z) (q : nat) (ns : list ACNode) : outcome (list ACNode) := n ← node_at ns p; set_node p (mkAC (ac_d n) (final n) (ac_h n) (<[c := q]> (ac_g n))) ns.
(** There is memory for the root and [chars] nodes. *)
Definition my_alloc (chars : Z) (n : ACNode) (ns : list ACNode) : outcome (nat * list ACNode) :=
  if len ns <? chars + 1 then Ok (length ns, ns ++ [n]) else Undef.
(** A trie with a root. *)
Definition create_acdata : ACTrie := mkTrie 0 [mkAC 0 0 None ∅].

(** ** The trie *)
(** The first [n] bytes from [i] on; the node they lead to. *)
Fixpoint ac_add_loop (chars : Z) (n : nat) (i : Z) (x : list Z) (acn : nat) (ns : list ACNode) : outcome (nat * list ACNode) :=
  match n with
  | O => Ok (acn, ns)
  | S n =>
      c ← peek x i;
      nd ← node_at ns acn;
      match ac_g nd !! c with
      | Some q => ac_add_loop chars n (i + 1) x q ns
      | None =>
          '(nn, ns) ← my_alloc chars (mkAC (u32 (i + 1)) 0 (Some root) ∅) ns;
          ns ← set_g acn c nn ns;
          ac_add_loop chars n (i + 1) x nn ns
      end
  end.
(** [ac_add_one_pattern]. *)
Definition ac_add_one_pattern (chars : Z) (x : list Z) (act : ACTrie) : outcome ACTrie :=
  let n := u32 (counter act + 1) in
  '(acn, ns) ← ac_add_loop chars (length x) 0 x root (nodes act);
  nd ← node_at ns acn;
  ns ← (if final nd =? 0 then set_final acn (s32 n) ns else Ok ns);
  Ok (mkTrie n ns).
Fixpoint ac_add_patterns (chars : Z) (xs : list (list Z)) (act : ACTrie) : outcome ACTrie :=
  match xs with [] => Ok act | x :: xs => act ← ac_add_one_pattern chars x act; ac_add_patterns chars xs act end.

(** ** The failure functions *)
(** The queue has room for [chars] nodes. *)
Definition enqueue (chars : Z) (p : nat) (q : list nat) : outcome (list nat) := if len q <? chars then Ok (q ++ [p]) else Undef.
(** The characters from [i] on. *)
Fixpoint root_children (chars : Z) (n : nat) (i : Z) (ns : list ACNode) (q : list nat) : outcome (list ACNode * list nat) :=
  match n with
  | O => Ok (ns, q)
  | S n =>
      nd ← node_at ns root;
      match ac_g nd !! i with
      | Some p => ns ← set_h p (Some root) ns; q ← enqueue chars p q; root_children chars n (i + 1) ns q
      | None => root_children chars n (i + 1) ns q
      end
  end.
(** While r <> NULL and r has no child for [c]; the nodes are fuel. *)
Fixpoint failure_loop (fuel : nat) (ns : list ACNode) (r : option nat) (c : Z) : outcome (option nat) :=
  match r with
  | None => Ok None
  | Some p =>
      nd ← node_at ns p;
      match ac_g nd !! c with
      | Some _ => Ok r
      | None => match fuel with O => Undef | S fuel => failure_loop fuel ns (ac_h nd) c end
      end
  end.
(** The failure node of a child of [parent], and the mark if a pattern ends there. *)
Definition set_failure (parent child : nat) (c : Z) (ns : list ACNode) : outcome (list ACNode) :=
  p ← node_at ns parent;
  r ← failure_loop (length ns) ns (ac_h p) c;
  match r with
  | None =>
      rt ← node_at ns root;
      set_h child (Some (match ac_g rt !! c with None => root | Some q => q end)) ns
  | Some r =>
      rn ← node_at ns r;
      ns ← set_h child (ac_g rn !! c) ns;
      cn ← node_at ns child;
      h ← require (ac_h cn);
      hn ← node_at ns h;
      if (final cn =? 0) && negb (final hn =? 0) then set_final child (-1) ns else Ok ns
  end.
(** The characters from [i] on. *)
Fixpoint children_loop (chars : Z) (n : nat) (i : Z) (parent : nat) (ns : list ACNode) (q : list nat) : outcome (list ACNode * list nat) :=
  match n with
  | O => Ok (ns, q)
  | S n =>
      p ← node_at ns parent;
      match ac_g p !! i with
      | Some child => q ← enqueue chars child q; ns ← set_failure parent child i ns; children_loop chars n (i + 1) parent ns q
      | None => children_loop chars n (i + 1) parent ns q
      end
  end.
(** Each node is taken from the queue once. *)
Fixpoint queue_loop (fuel : nat) (chars : Z) (qh : nat) (ns : list ACNode) (q : list nat) : outcome (list ACNode) :=
  match q !! qh with
  | None => Ok ns
  | Some parent =>
      match fuel with
      | O => Undef
      | S fuel => '(ns, q) ← children_loop chars (Z.to_nat ALPHABET_SIZE) 0 parent ns q; queue_loop fuel chars (S qh) ns q
      end
  end.
(** [ac_compute_failure_functions]. *)
Definition ac_compute_failure_functions (chars : Z) (ns : list ACNode) : outcome (list ACNode) :=
  '(ns, q) ← root_children chars (Z.to_nat ALPHABET_SIZE) 0 ns [];
  ns ← queue_loop (length ns) chars 0 ns q;
  set_h root (Some root) ns.
(** The trie of the patterns, [chars] bytes in all. *)
Definition ac_compile (chars : Z) (xs : list (list Z)) : outcome ACTrie :=
  act ← ac_add_patterns chars xs create_acdata;
  ns ← ac_compute_failure_functions chars (nodes act);
  Ok (mkTrie (counter act) ns).

(** ** The first match *)
(** The next node after a byte; the nodes are fuel. *)
Fixpoint ac_goto (fuel : nat) (ns : list ACNode) (q : nat) (c : Z) : outcome nat :=
  nd ← node_at ns q;
  match ac_g nd !! c with
  | Some p => Ok p
  | None =>
      h ← require (ac_h nd);
      if Nat.eqb h q then Ok q else match fuel with O => Undef | S fuel => ac_goto fuel ns h c end
  end.
(** The node of the pattern, while the number is negative. *)
Fixpoint ac_real (fuel : nat) (ns : list ACNode) (r : nat) : outcome nat :=
  nd ← node_at ns r;
  if final nd <? 0 then match fuel with O => Undef | S fuel => h ← require (ac_h nd); ac_real fuel ns h end else Ok r.
Record ACFindFirstState := mkACFirst { af_q : nat; af_pos : Z; af_len : Z; candidate : option nat; candidate_start : Z }.
Inductive ac_result := AC_FOUND (mpos mlen : Z) | AC_NOT_FOUND | AC_RESTART (state : ACFindFirstState).
(** [ac_init_find_first_match]. *)
Definition ac_init_find_first_match (startpos n : Z) : ACFindFirstState := mkACFirst root startpos n None 0.
(** A match that ends at [i], at the node [q]: the candidate after it. *)
Definition ac_candidate (ns : list ACNode) (i : Z) (q : nat) (cand : option nat) (start : Z) : outcome (option nat * Z) :=
  qn ← node_at ns q;
  if final qn =? 0 then Ok (cand, start)
  else
    r ← ac_real (length ns) ns q;
    rn ← node_at ns r;
    let rstart := w64 (i - ac_d rn) in
    match cand with
    | None => Ok (Some r, rstart)
    | Some c =>
        cn ← node_at ns c;
        Ok (if (rstart <? start) || (rstart =? start) && (ac_d cn <? ac_d qn) then (Some r, rstart) else (cand, start))
    end.
(** The candidate is the match. *)
Definition ac_first_done (ns : list ACNode) (cand : option nat) (start : Z) : outcome ac_result :=
  match cand with None => Ok AC_NOT_FOUND | Some c => cn ← node_at ns c; Ok (AC_FOUND start (ac_d cn)) end.
(** The next [n] bytes. *)
Fixpoint ac_first_loop (n : nat) (ns : list ACNode) (hay : list Z) (stop i : Z) (q : nat) (cand : option nat) (start reds : Z) : outcome ac_result :=
  match n with
  | O => ac_first_done ns cand start
  | S n =>
      let reds := w64 (reds - 1) in
      if reds =? 0 then Ok (AC_RESTART (mkACFirst q i stop cand start))
      else
        c ← peek hay i;
        q ← ac_goto (length ns) ns q c;
        qn ← node_at ns q;
        let i := i + 1 in
        if bool_decide (is_Some cand) && (w64 (i - ac_d qn) >? start) then ac_first_done ns cand start
        else
          '(cand, start) ← ac_candidate ns i q cand start;
          ac_first_loop n ns hay stop i q cand start reds
  end.
(** [ac_find_first_match]. *)
Definition ac_find_first_match (state : ACFindFirstState) (act : ACTrie) (hay : list Z) (reds : Z) : outcome ac_result :=
  ac_first_loop (Z.to_nat (af_len state - af_pos state)) (nodes act) hay (af_len state) (af_pos state) (af_q state) (candidate state) (candidate_start state) reds.

(** ** All matches *)
Record ACFindAllState := mkACAll { aa_q : nat; aa_pos : Z; aa_len : Z; aa_found : find_all }.
Inductive ac_all_result := AC_OK (found : find_all) | AC_NONE_FOUND | AC_ALL_RESTART (state : ACFindAllState).
(** [ac_init_find_all]. *)
Definition ac_init_find_all (startpos n : Z) : ACFindAllState := mkACAll root startpos n (mkAll 0 []).
(** The matches that are taken off the array: those that start behind [rstart],
    or there and are shorter. *)
Fixpoint ac_pop (m : nat) (out : list (option (Z * Z))) (rstart d : Z) : outcome nat :=
  match m with
  | O => Ok O
  | S k =>
      o ← peek out (Z.of_nat k);
      p ← require o;
      if (fst p >? rstart) || (fst p =? rstart) && (snd p <? d) then ac_pop k out rstart d else Ok m
  end.
(** A match is added, unless it overlaps one that starts before it. *)
Definition ac_add_match (rstart d : Z) (a : find_all) : outcome find_all :=
  m ← ac_pop (Z.to_nat (fa_m a)) (fa_out a) rstart d;
  free ← (match m with O => Ok true | S k => o ← peek (fa_out a) (Z.of_nat k); p ← require o; Ok (w64 (fst p + snd p) <=? rstart) end);
  if free : bool then push_out (rstart, d) (mkAll (Z.of_nat m) (fa_out a)) else Ok a.
(** The matches that end at [i], along the chain of failure nodes. *)
Fixpoint ac_add_all (fuel : nat) (ns : list ACNode) (i : Z) (r : nat) (a : find_all) : outcome find_all :=
  rn ← node_at ns r;
  if final rn =? 0 then Ok a
  else
    match fuel with
    | O => Undef
    | S fuel =>
        r ← ac_real (length ns) ns r;
        rn ← node_at ns r;
        a ← ac_add_match (w64 (i - ac_d rn)) (ac_d rn) a;
        h ← require (ac_h rn);
        ac_add_all fuel ns i h a
    end.
(** The next [n] bytes. *)
Fixpoint ac_all_loop (n : nat) (ns : list ACNode) (hay : list Z) (stop i : Z) (q : nat) (reds : Z) (a : find_all) : outcome ac_all_result :=
  match n with
  | O => Ok (if fa_m a =? 0 then AC_NONE_FOUND else AC_OK a)
  | S n =>
      let reds := w64 (reds - 1) in
      if reds =? 0 then Ok (AC_ALL_RESTART (mkACAll q i stop a))
      else
        c ← peek hay i;
        q ← ac_goto (length ns) ns q c;
        a ← ac_add_all (length ns) ns (i + 1) q a;
        ac_all_loop n ns hay stop (i + 1) q reds a
  end.
(** [ac_find_all_non_overlapping]. *)
Definition ac_find_all_non_overlapping (state : ACFindAllState) (act : ACTrie) (hay : list Z) (reds : Z) : outcome ac_all_result :=
  ac_all_loop (Z.to_nat (aa_len state - aa_pos state)) (nodes act) hay (aa_len state) (aa_pos state) (aa_q state) reds (aa_found state).
(** Both copies, out and back. *)
Definition ac_restore_find_all (s : ACFindAllState) : ACFindAllState := mkACAll (aa_q s) (aa_pos s) (aa_len s) (restore_out (aa_found s)).
