(* ===== verification/AcTrie.v ===== *)
(** The words of the nodes: [trie_ok], the longest suffix that is such a word, and that adding
    patterns keeps the trie. The failure node of a word has its longest proper suffix, and a node is
    marked when a pattern ends in it: the invariant of the queue, [bfs]. *)

From S2P Require Import Prelude.
From stdpp Require Import base option list gmap.
From Stdlib Require Import Sorted.
From stdpp Require Import base option list gmap sorting.
From S2P Require Import Memory BoyerMoore BmSearch AhoCorasick.
Local Open Scope Z_scope.

Notation word := (list Z).
(** ** The longest suffix in a set of words that has all their prefixes *)
Fixpoint lsuf (ws : list word) (w : word) : word := if decide (w ∈ ws) then w else match w with [] => [] | _ :: w => lsuf ws w end.
Definition closed (ws : list word) : Prop := [] ∈ ws /\ forall w c, w ++ [c] ∈ ws -> w ∈ ws.
Lemma lsuf_id ws w : w ∈ ws -> lsuf ws w = w.
Proof. intros H. destruct w; cbn [lsuf]; now rewrite decide_True. Qed.
Lemma lsuf_cons ws a w : a :: w ∉ ws -> lsuf ws (a :: w) = lsuf ws w.
Proof. intros H. cbn [lsuf]. now rewrite decide_False. Qed.
Lemma lsuf_in ws w : closed ws -> lsuf ws w ∈ ws.
Proof. intros [H _]. induction w as [|a w IH]; [now rewrite lsuf_id|]. destruct (decide (a :: w ∈ ws)); [now rewrite lsuf_id|]. now rewrite lsuf_cons. Qed.
Lemma lsuf_suffix ws w : lsuf ws w `suffix_of` w.
Proof.
  induction w as [|a w IH]; [cbn; destruct (decide _); reflexivity|]. destruct (decide (a :: w ∈ ws)); [now rewrite lsuf_id|]. rewrite lsuf_cons by auto. now apply suffix_cons_r.
Qed.
Lemma lsuf_length ws w : (length (lsuf ws w) <= length w)%nat.
Proof. apply suffix_length, lsuf_suffix. Qed.
(** The suffixes that are in the set are those of the longest one. *)
Lemma lsuf_max ws w v : v ∈ ws -> v `suffix_of` w -> v `suffix_of` lsuf ws w.
Proof.
  intros Hv. induction w as [|a w IH]; intros S; [apply suffix_nil_inv in S as ->; now rewrite lsuf_id|]. destruct (decide (a :: w ∈ ws)); [now rewrite lsuf_id|]. rewrite lsuf_cons by auto.
  destruct v as [|b v]; [apply suffix_nil|]. apply suffix_cons_inv in S as [[= -> ->]|S]; [contradiction|auto].
Qed.
Lemma lsuf_snoc ws w c : closed ws -> lsuf ws (w ++ [c]) = lsuf ws (lsuf ws w ++ [c]).
Proof.
  intros [H0 Hc]. induction w as [|a w IH]; [now rewrite (lsuf_id ws []) by auto|]. destruct (decide (a :: w ∈ ws)) as [|N]; [now rewrite (lsuf_id ws (a :: w))|].
  cbn [app]. rewrite !lsuf_cons; auto. intros E. apply N. now apply (Hc (a :: w) c).
Qed.
Lemma lsuf_tail ws w : w ≠ [] -> (length (lsuf ws (tail w)) < length w)%nat.
Proof. intros N. pose proof (lsuf_length ws (tail w)). destruct w; [done|]. cbn in *. lia. Qed.

(** ** The nodes stand for words *)
Definition node_ok (ws : list word) (nd : ACNode) (w : word) : Prop :=
  ac_d nd = len w /\ forall c q, ac_g nd !! c = Some q <-> ws !! q = Some (w ++ [c]).
Record trie_ok (ns : list ACNode) (ws : list word) : Prop := {
  trie_closed : closed ws;
  trie_NoDup : NoDup ws;
  trie_root : ws !! root = Some [];
  trie_nodes : Forall2 (node_ok ws) ns ws }.
(** The words that end a pattern have a number, and the root has no failure node. *)
Definition finals_ok (pats : list word) (nd : ACNode) (w : word) : Prop := 0 <= final nd /\ (final nd <> 0 <-> w ∈ pats) /\ (w = [] -> ac_h nd = None).
Lemma node_at_ok {A} (l : list A) (ns : list ACNode) (P : ACNode -> A -> Prop) p w : Forall2 P ns l -> l !! p = Some w -> exists nd, node_at ns p = Ok nd /\ ns !! p = Some nd /\ P nd w.
Proof. intros F E. destruct (Forall2_lookup_r _ _ _ _ _ F E) as (nd & En & H). exists nd. unfold node_at. now rewrite En. Qed.
Lemma index_eq (ws : list word) p q w : NoDup ws -> ws !! p = Some w -> ws !! q = Some w -> p = q.
Proof. intros N. apply NoDup_lookup, N. Qed.
Lemma trie_len ns ws : trie_ok ns ws -> length ns = length ws.
Proof. intros T. apply (Forall2_length _ _ _ (trie_nodes _ _ T)). Qed.

(** ** Adding a pattern *)
Lemma Forall2_index {A B} (P : A -> B -> Prop) l k : length l = length k -> (forall i a b, l !! i = Some a -> k !! i = Some b -> P a b) -> Forall2 P l k.
Proof. intros. apply Forall2_same_length_lookup. auto. Qed.
Lemma word_snoc (ws : list word) v q u : (ws ++ [v]) !! q = Some u <-> ws !! q = Some u \/ q = length ws /\ u = v.
Proof.
  rewrite lookup_app_Some, list_lookup_singleton_Some. split; [intros [?|(H1 & H2 & <-)]; [auto|right; split; auto; lia]|intros [?|[-> ->]]; [auto|right; splits; auto; lia]].
Qed.
(** A new child. *)
Section Child.
Variables (ns : list ACNode) (ws : list word) (acn : nat) (nd : ACNode) (w : word) (c : Z).
Hypothesis (T : trie_ok ns ws) (Ew : ws !! acn = Some w) (En : ns !! acn = Some nd) (Nw : w ++ [c] ∉ ws).
Definition with_child : list ACNode := <[acn := mkAC (ac_d nd) (final nd) (ac_h nd) (<[c := length ns]> (ac_g nd))]> (ns ++ [mkAC (len (w ++ [c])) 0 (Some root) ∅]).
Lemma set_child : set_g acn c (length ns) (ns ++ [mkAC (len (w ++ [c])) 0 (Some root) ∅]) = Ok with_child.
Proof. unfold set_g, set_node, node_at. rewrite lookup_app_l by (now apply lookup_lt_Some in En). now rewrite En. Qed.
Lemma child_lookup i : with_child !! i = if decide (i = acn) then Some (mkAC (ac_d nd) (final nd) (ac_h nd) (<[c := length ns]> (ac_g nd)))
  else if decide (i = length ns) then Some (mkAC (len (w ++ [c])) 0 (Some root) ∅) else ns !! i.
Proof.
  pose proof (lookup_lt_Some _ _ _ En) as Hl. unfold with_child. destruct (decide (i = acn)) as [->|Ni]; [apply list_lookup_insert_eq; rewrite length_app; lia|]. rewrite list_lookup_insert_ne by auto.
  destruct (decide (i = length ns)) as [->|Nl]; [rewrite lookup_app_r, Nat.sub_diag by lia; reflexivity|]. destruct (decide (i < length ns)%nat); [now apply lookup_app_l|].
  rewrite !lookup_ge_None_2; auto; rewrite ?length_app; cbn; lia.
Qed.
Lemma child_length : length with_child = length (ws ++ [w ++ [c]]).
Proof. unfold with_child. rewrite length_insert, !length_app, (trie_len _ _ T). reflexivity. Qed.
Lemma child_trie : trie_ok with_child (ws ++ [w ++ [c]]).
Proof.
  pose proof (trie_len _ _ T) as L. destruct T as [[C0 C1] N R F]. constructor.
  - split; [apply elem_of_app; auto|]. intros v d. rewrite !elem_of_app, !list_elem_of_singleton. intros [H|H]; [left; eauto|]. apply app_inj_tail in H as [-> ->]. left. apply list_elem_of_lookup. eauto.
  - apply NoDup_app. splits; auto; [intros v Hv ->%list_elem_of_singleton; auto|apply NoDup_singleton].
  - apply word_snoc. auto.
  - apply Forall2_index; [apply child_length|]. intros i nd0 w0. rewrite child_lookup. intros E0 [Ei|[-> ->]]%word_snoc.
    + destruct (decide (i = acn)) as [->|Ni]; [|destruct (decide (i = length ns)) as [->|Nl]; [apply lookup_lt_Some in Ei; lia|]].
      * injection E0 as <-. assert (w0 = w) as -> by congruence. destruct (Forall2_lookup_lr _ _ _ _ _ _ F En Ew) as [D G]. split; [exact D|]. intros d q. cbn [ac_g]. rewrite word_snoc. destruct (decide (d = c)) as [->|Nd].
        -- rewrite lookup_insert_eq, L. split; [intros [= <-]; auto|]. intros [E|[-> _]]; [|auto]. destruct Nw. apply list_elem_of_lookup. eauto.
        -- rewrite lookup_insert_ne by auto. rewrite G. split; auto. intros [?|[_ E]]; auto. now apply app_inj_tail in E as [_ ?].
      * destruct (Forall2_lookup_lr _ _ _ _ _ _ F E0 Ei) as [D G]. split; auto. intros d q. rewrite word_snoc, G. split; auto. intros [?|[_ E]]; auto. apply app_inj_tail in E as [-> ->]. destruct Ni. eapply index_eq; eauto.
    + rewrite decide_False in E0 by (apply lookup_lt_Some in En; lia). rewrite decide_True in E0 by lia. injection E0 as <-. split; [reflexivity|]. intros d q. cbn [ac_g]. rewrite lookup_empty, word_snoc. split; [discriminate|].
      intros [E|[_ E]]; [|apply (f_equal length) in E; rewrite !length_app in E; cbn in E; lia]. destruct Nw. apply (C1 _ d), list_elem_of_lookup. eauto.
Qed.
Lemma child_finals pats : (forall x, x ∈ pats -> x ∈ ws) -> Forall2 (finals_ok pats) ns ws -> Forall2 (finals_ok pats) with_child (ws ++ [w ++ [c]]).
Proof.
  pose proof (trie_len _ _ T) as L. intros P F. apply Forall2_index; [apply child_length|]. intros i nd0 w0. rewrite child_lookup. intros E0 [Ei|[-> ->]]%word_snoc.
  - destruct (decide (i = acn)) as [->|Ni]; [|destruct (decide (i = length ns)) as [->|Nl]; [apply lookup_lt_Some in Ei; lia|]]; [|eapply Forall2_lookup_lr; eauto].
    injection E0 as <-. assert (w0 = w) as -> by congruence. exact (Forall2_lookup_lr _ _ _ _ _ _ F En Ew).
  - rewrite decide_False in E0 by (apply lookup_lt_Some in En; lia). rewrite decide_True in E0 by lia. injection E0 as <-. unfold finals_ok; cbn [final ac_h]; splits; [lia|split; [lia|]; intros H; destruct Nw; auto|]. intros E. now apply app_nil in E as [_ ?].
Qed.
End Child.

(** The set of words grows by prefixes of the pattern. *)
Lemma ac_add_loop_spec chars n : forall i x acn ns ws w, trie_ok ns ws -> ws !! acn = Some w -> w = take (length x - n) x -> (n <= length x)%nat -> i = Z.of_nat (length x - n) -> Z.of_nat (length ws + n) <= chars + 1 -> len x < 2 ^ 32 ->
  exists acn' ns' ws', ac_add_loop chars n i x acn ns = Ok (acn', ns') /\ trie_ok ns' ws' /\ ws' !! acn' = Some x /\ (length ws' <= length ws + n)%nat /\ (forall v, v ∈ ws -> v ∈ ws') /\ (forall v, v ∈ ws' -> v ∈ ws \/ v `prefix_of` x) /\
    forall pats, (forall y, y ∈ pats -> y ∈ ws) -> Forall2 (finals_ok pats) ns ws -> Forall2 (finals_ok pats) ns' ws'.
Proof.
  induction n as [|n IH]; intros i x acn ns ws w T Ew Hw Hn Hi Hc Hx; cbn [ac_add_loop].
  - exists acn, ns, ws. rewrite Nat.sub_0_r, firstn_all in Hw. subst w. splits; auto. lia.
  - rewrite peek_elt by lia. cbn [mbind outcome_bind]. destruct (node_at_ok _ _ _ _ _ (trie_nodes _ _ T) Ew) as (nd & -> & En & D & G). cbn [mbind outcome_bind]. set (c := elt x i) in *.
    assert (Hc' : w ++ [c] = take (length x - n) x).
    { replace (length x - n)%nat with (S (length x - S n)) by lia. subst w. symmetry. apply take_S_r. subst c i. unfold elt. rewrite Nat2Z.id. destruct (lookup_lt_is_Some_2 x (length x - S n)) as [v ->]; [lia|reflexivity]. }
    destruct (ac_g nd !! c) as [q|] eqn:Eg.
    + apply G in Eg. destruct (IH (i + 1) x q ns ws (w ++ [c]) T Eg) as (acn' & ns' & ws' & E & T' & E' & L' & P); auto; try lia. exists acn', ns', ws'. splits; auto; try apply P. lia.
    + assert (Nw : w ++ [c] ∉ ws) by (intros [q Eq]%list_elem_of_lookup; apply G in Eq; congruence). pose proof (trie_len _ _ T) as L.
      assert (Hl : len (w ++ [c]) = i + 1) by (rewrite Hc', length_take; lia). unfold my_alloc. rewrite (proj2 (Z.ltb_lt (len ns) _)) by lia. cbn [mbind outcome_bind].
      rewrite (u32_id (i + 1)), <- Hl by lia. rewrite (set_child _ _ _ _ _ En). cbn [mbind outcome_bind].
      destruct (IH (len (w ++ [c])) x (length ns) _ _ (w ++ [c]) (child_trie _ _ _ _ _ _ T Ew En Nw)) as (acn' & ns' & ws' & -> & T' & E' & L' & Hs & Hp & Hf); auto; try lia; [apply word_snoc; auto|rewrite length_app; cbn; lia|].
      rewrite length_app in L'. cbn in L'. exists acn', ns', ws'. splits; auto; [lia| | |].
      { intros v Hv; apply Hs, elem_of_app; auto. }
      { intros v Hv. apply Hp in Hv as [[Hv| ->%list_elem_of_singleton]%elem_of_app|Hv]; auto. right. rewrite Hc'. apply prefix_take. }
      intros pats Hpp F. apply Hf; [intros y Hy; apply elem_of_app; auto|]. apply child_finals; auto.
Qed.
Lemma set_final_ok ns ws p f w : trie_ok ns ws -> ws !! p = Some w -> exists nd ns', node_at ns p = Ok nd /\ ns !! p = Some nd /\ set_final p f ns = Ok ns' /\ ns' = <[p := mkAC (ac_d nd) f (ac_h nd) (ac_g nd)]> ns /\ trie_ok ns' ws.
Proof.
  intros T Ew. pose proof (trie_len _ _ T) as L. destruct (node_at_ok _ _ _ _ _ (trie_nodes _ _ T) Ew) as (nd & E & En & O). exists nd. exists (<[p := mkAC (ac_d nd) f (ac_h nd) (ac_g nd)]> ns). splits; eauto; [unfold set_final, set_node; now rewrite !E; cbn [mbind outcome_bind]; rewrite ?E|].
  destruct T as [C N R F]. constructor; auto. apply Forall2_index; [now rewrite length_insert|]. intros i nd0 w0 E0 Ei. destruct (decide (i = p)) as [->|Ni].
  - rewrite list_lookup_insert_eq in E0 by (now apply lookup_lt_Some in En). injection E0 as <-. assert (w0 = w) as -> by congruence. exact O.
  - rewrite list_lookup_insert_ne in E0 by auto. eapply Forall2_lookup_lr; eauto.
Qed.
(** The trie of some patterns. *)
Record built (pats : list word) (ns : list ACNode) (ws : list word) : Prop := {
  built_trie : trie_ok ns ws;
  built_pats : forall x, x ∈ pats -> x ∈ ws;
  built_from : forall v, v ∈ ws -> v = [] \/ exists x, x ∈ pats /\ v `prefix_of` x;
  built_finals : Forall2 (finals_ok pats) ns ws }.
Lemma ac_add_one_pattern_spec chars x act pats ws : built pats (nodes act) ws -> Z.of_nat (length ws + length x) <= chars + 1 -> len x < 2 ^ 32 -> 0 <= counter act < 2 ^ 31 - 1 ->
  exists act' ws', ac_add_one_pattern chars x act = Ok act' /\ built (pats ++ [x]) (nodes act') ws' /\ (length ws' <= length ws + length x)%nat /\ counter act' = counter act + 1.
Proof.
  intros [T P Pre F] Hc Hx Hn. unfold ac_add_one_pattern. rewrite (u32_id (counter act + 1)) by lia.
  destruct (ac_add_loop_spec chars (length x) 0 x root (nodes act) ws []) as (acn & ns & ws' & -> & T' & E & L & Hs & Hp & Hf); auto; try lia; [apply (trie_root _ _ T)|now rewrite Nat.sub_diag|]. cbn [mbind outcome_bind].
  specialize (Hf pats P F). destruct (set_final_ok ns ws' acn (s32 (counter act + 1)) x T' E) as (nd & ns2 & -> & En & Ef & E2 & T2). cbn [mbind outcome_bind]. rewrite s32_id in E2 by lia.
  assert (W : forall v, v ∈ pats ++ [x] -> v ∈ ws') by (intros v [Hv| ->%list_elem_of_singleton]%elem_of_app; [auto|apply list_elem_of_lookup; eauto]).
  assert (W' : forall v, v ∈ ws' -> v = [] \/ exists y, y ∈ pats ++ [x] /\ v `prefix_of` y).
  { intros v Hv. setoid_rewrite elem_of_app. setoid_rewrite list_elem_of_singleton. apply Hp in Hv as [[?|(y & Hy & S)]%Pre|S]; eauto. }
  destruct (Z.eqb_spec (final nd) 0) as [Z0|Nz].
  - rewrite Ef. cbn [mbind outcome_bind]. eexists _, ws'. split; [reflexivity|]. cbn [nodes counter]. splits; auto. split; auto. subst ns2. apply Forall2_index; [rewrite length_insert; apply (trie_len _ _ T')|]. intros i nd0 w0 E0 Ei. destruct (decide (i = acn)) as [->|Ni].
    + rewrite list_lookup_insert_eq in E0 by (now apply lookup_lt_Some in En). injection E0 as <-. assert (w0 = x) as -> by congruence. destruct (Forall2_lookup_lr _ _ _ _ _ _ Hf En E) as (_ & _ & F3). unfold finals_ok; cbn [final ac_h]; splits; [lia| |exact F3]. rewrite elem_of_app, list_elem_of_singleton. split; auto. lia.
    + rewrite list_lookup_insert_ne in E0 by auto. destruct (Forall2_lookup_lr _ _ _ _ _ _ Hf E0 Ei) as (F1 & F2 & F3). unfold finals_ok; splits; auto. rewrite F2, elem_of_app, list_elem_of_singleton. split; auto. intros [?| ->]; auto. destruct Ni. eapply index_eq; eauto. apply (trie_NoDup _ _ T').
  - cbn [mbind outcome_bind]. eexists _, ws'. split; [reflexivity|]. cbn [nodes counter]. splits; auto. split; auto. apply Forall2_index; [apply (trie_len _ _ T')|]. intros i nd0 w0 E0 Ei. destruct (Forall2_lookup_lr _ _ _ _ _ _ Hf E0 Ei) as (F1 & F2 & F3).
    unfold finals_ok; splits; auto. rewrite F2, elem_of_app, list_elem_of_singleton. split; auto. intros [?| ->]; auto. assert (i = acn) as -> by (eapply index_eq; eauto; apply (trie_NoDup _ _ T')). assert (nd0 = nd) as -> by congruence. now apply F2.
Qed.
Lemma built_empty : built [] (nodes create_acdata) [[]].
Proof.
  split; [constructor|intros x []%elem_of_nil|intros v ->%list_elem_of_singleton; auto|].
  - split; [apply list_elem_of_singleton; auto|]. intros w c E%list_elem_of_singleton. now destruct w.
  - apply NoDup_singleton.
  - reflexivity.
  - constructor; [|constructor]. split; [reflexivity|]. intros c q. cbn [ac_g]. rewrite lookup_empty. split; [discriminate|]. intros [_ E]%list_lookup_singleton_Some. discriminate E.
  - constructor; [|constructor]. unfold finals_ok; cbn [final ac_h]; splits; [lia| |auto]. split; [lia|]. intros []%elem_of_nil.
Qed.
Lemma ac_add_patterns_spec chars xs : forall act pats ws, built pats (nodes act) ws -> Z.of_nat (length ws + length (concat xs)) <= chars + 1 -> chars < 2 ^ 32 - 1 -> 0 <= counter act -> counter act + len xs < 2 ^ 31 ->
  exists act' ws', ac_add_patterns chars xs act = Ok act' /\ built (pats ++ xs) (nodes act') ws' /\ (length ws' <= length ws + length (concat xs))%nat.
Proof.
  induction xs as [|x xs IH]; intros act pats ws B Hc Hx H0 Hn; cbn [ac_add_patterns].
  - exists act, ws. rewrite app_nil_r. splits; auto. lia.
  - cbn [concat length] in *. rewrite length_app in Hc. destruct (ac_add_one_pattern_spec chars x act pats ws B) as (act' & ws' & -> & B' & L & C); [lia|lia|lia|]. cbn [mbind outcome_bind].
    destruct (IH act' _ ws' B') as (act2 & ws2 & -> & B2 & L2); [lia|lia|lia|lia|]. exists act2, ws2. rewrite <- app_assoc in B2. rewrite length_app. splits; auto. lia.
Qed.

(** ** The labels *)
(** Some pattern ends a word. *)
Definition ends (pats : list word) (w : word) : Prop := exists v, v ∈ pats /\ v `suffix_of` w.
(** The failure node of a word, and its number: positive for a pattern, and not
    0 when some pattern ends the word. *)
Definition labelled (ws pats : list word) (nd : ACNode) (w : word) : Prop :=
  (exists h, ac_h nd = Some h /\ ws !! h = Some (lsuf ws (tail w))) /\ (0 < final nd <-> w ∈ pats) /\ (final nd <> 0 <-> ends pats w).
(** The nodes of the words [l] have their labels, the root excepted. *)
Definition partly (ws pats l : list word) (nd : ACNode) (w : word) : Prop :=
  if decide (w <> [] /\ w ∈ l) then labelled ws pats nd w else finals_ok pats nd w.
Lemma ends_tail ws pats w : (forall x, x ∈ pats -> x ∈ ws) -> closed ws -> w <> [] -> ends pats w <-> w ∈ pats \/ ends pats (lsuf ws (tail w)).
Proof.
  intros P C N. destruct w as [|a w]; [done|]. cbn [tail]. split.
  - intros ([|b v] & Hv & S); [right; exists []; split; auto; apply suffix_nil|]. apply suffix_cons_inv in S as [[= -> ->]|S]; [auto|]. right. exists (b :: v). split; auto. apply lsuf_max; auto.
  - intros [H|(v & Hv & S)]; [exists (a :: w); auto|]. exists v. split; auto. apply suffix_cons_r. etrans; [exact S|apply lsuf_suffix].
Qed.
Lemma ends_nil pats : [] ∉ pats -> ~ ends pats [].
Proof. intros N (v & Hv & S). apply suffix_nil_inv in S as ->. auto. Qed.
(** A label that is set from that of the failure node. *)
Lemma label_ok ws pats w nd h f hend : (forall x, x ∈ pats -> x ∈ ws) -> closed ws -> w <> [] -> finals_ok pats nd w -> ws !! h = Some (lsuf ws (tail w)) ->
  (hend <> 0 <-> ends pats (lsuf ws (tail w))) -> f = (if (final nd =? 0) && negb (hend =? 0) then -1 else final nd) -> labelled ws pats (mkAC (ac_d nd) f (Some h) (ac_g nd)) w.
Proof.
  intros P C N (F0 & F1 & _) Eh He ->. pose proof (ends_tail ws pats w P C N) as Q. unfold labelled. cbn [ac_h final]. splits; [eauto| |]; rewrite ?Q, <- ?F1, <- ?He;
    destruct (Z.eqb_spec (final nd) 0), (Z.eqb_spec hend 0); cbn [andb negb]; lia.
Qed.
(** Changing the labels of a node does not change the trie. *)
Lemma relabel_ok ns ws p nd w f h (P Q : ACNode -> word -> Prop) : trie_ok ns ws -> ns !! p = Some nd -> ws !! p = Some w -> Forall2 P ns ws -> (forall nd v, v <> w -> v ∈ ws -> P nd v -> Q nd v) -> Q (mkAC (ac_d nd) f h (ac_g nd)) w ->
  trie_ok (<[p := mkAC (ac_d nd) f h (ac_g nd)]> ns) ws /\ Forall2 Q (<[p := mkAC (ac_d nd) f h (ac_g nd)]> ns) ws.
Proof.
  intros T En Ew FP PQ Hq. pose proof (trie_len _ _ T) as L. destruct T as [C N R F].
  assert (G : forall (A B : ACNode -> word -> Prop), Forall2 A ns ws -> (forall nd v, v <> w -> v ∈ ws -> A nd v -> B nd v) -> B (mkAC (ac_d nd) f h (ac_g nd)) w -> Forall2 B (<[p := mkAC (ac_d nd) f h (ac_g nd)]> ns) ws).
  { intros A B FA AB Hb. apply Forall2_index; [now rewrite length_insert|]. intros i nd0 w0 E0 Ei. destruct (decide (i = p)) as [->|Ni].
    - rewrite list_lookup_insert_eq in E0 by (now apply lookup_lt_Some in En). injection E0 as <-. assert (w0 = w) as -> by congruence. exact Hb.
    - rewrite list_lookup_insert_ne in E0 by auto. apply AB; [|apply list_elem_of_lookup; eauto|eapply Forall2_lookup_lr; eauto]. intros ->. apply Ni. eapply index_eq; eauto. }
  split; [constructor; auto|now apply (G P Q)]. apply (G (node_ok ws) (node_ok ws)); auto. exact (Forall2_lookup_lr _ _ _ _ _ _ F En Ew).
Qed.

(** The depth of a word is bounded by the number of its prefixes. *)
Lemma trie_depth ns ws : trie_ok ns ws -> forall w, w ∈ ws -> (length w < length ws)%nat.
Proof.
  intros T w Hw. pose proof (trie_closed _ _ T) as [C0 C]. assert (Pr : forall n, take n w ∈ ws).
  { intros n. assert (K : forall u v, u ++ v ∈ ws -> u ∈ ws) by (intros u v; induction v as [|c v IH] using rev_ind; [now rewrite app_nil_r|rewrite app_assoc; intros H; eauto]). apply (K _ (drop n w)). now rewrite take_drop. }
  assert (S : (fun n => take n w) <$> seq 0 (S (length w)) ⊆+ ws).
  { apply NoDup_submseteq; [|intros x (n & -> & _)%list_elem_of_fmap; auto]. apply NoDup_fmap_2_strong; [|apply NoDup_seq]. intros i j Hi%elem_of_seq Hj%elem_of_seq E. apply (f_equal length) in E. rewrite !length_take in E. lia. }
  apply submseteq_length in S. rewrite length_fmap, length_seq in S. lia.
Qed.
Lemma node_at_Some ns p nd : ns !! p = Some nd -> node_at ns p = Ok nd.
Proof. intros E. unfold node_at. now rewrite E. Qed.
Lemma set_h_at ns p nd h : ns !! p = Some nd -> set_h p h ns = Ok (<[p := mkAC (ac_d nd) (final nd) h (ac_g nd)]> ns).
Proof. intros E. unfold set_h, set_node. now rewrite !(node_at_Some _ _ _ E). Qed.
Lemma set_final_at ns p nd f : ns !! p = Some nd -> set_final p f ns = Ok (<[p := mkAC (ac_d nd) f (ac_h nd) (ac_g nd)]> ns).
Proof. intros E. unfold set_final, set_node. now rewrite !(node_at_Some _ _ _ E). Qed.
(** ** The failure node of a child *)
Section Child.
Variables (ns : list ACNode) (ws pats l : list word) (w : word).
Hypotheses (T : trie_ok ns ws) (P : forall x, x ∈ pats -> x ∈ ws) (N0 : [] ∉ pats) (Fl : Forall2 (partly ws pats l) ns ws).
Hypothesis (short : forall v, v ∈ ws -> len v <= len w -> v ∈ l).
Lemma child_index p nd u c : ns !! p = Some nd -> ws !! p = Some u -> ac_g nd !! c = None <-> u ++ [c] ∉ ws.
Proof.
  intros En Eu. destruct (Forall2_lookup_lr _ _ _ _ _ _ (trie_nodes _ _ T) En Eu) as [_ G]. destruct (ac_g nd !! c) as [q|] eqn:E.
  - split; [discriminate|]. intros H. destruct H. apply list_elem_of_lookup. exists q. now apply G.
  - split; auto. intros _ [q Hq]%list_elem_of_lookup. apply G in Hq. congruence.
Qed.
Lemma failure_loop_spec c : forall fuel r u, ws !! r = Some u -> len u <= len w -> (length u < fuel)%nat ->
  (exists r' u', failure_loop fuel ns (Some r) c = Ok (Some r') /\ ws !! r' = Some u' /\ lsuf ws (u ++ [c]) = u' ++ [c] /\ u' ++ [c] ∈ ws /\ len u' <= len u) \/
  failure_loop fuel ns (Some r) c = Ok None /\ lsuf ws (u ++ [c]) = [] /\ [c] ∉ ws.
Proof.
  pose proof (trie_closed _ _ T) as C. induction fuel as [|fuel IH]; intros r u Eu Hu Hf; [lia|]. destruct (node_at_ok _ _ _ _ _ Fl Eu) as (nd & En & Er & Hl). pose proof (child_index r nd u c Er Eu) as G. cbn [failure_loop]. rewrite En. cbn [mbind outcome_bind].
  destruct (ac_g nd !! c) as [q|] eqn:Eg; [|pose proof (proj1 G eq_refl) as Nc].
  - left. assert (H : u ++ [c] ∈ ws) by (destruct (decide (u ++ [c] ∈ ws)); auto; exfalso; assert (Some q = None) by (now apply G); discriminate). exists r, u. splits; auto; [now apply lsuf_id|lia].
  - unfold partly in Hl. destruct u as [|a u].
    + rewrite decide_False in Hl by tauto. destruct Hl as (_ & _ & ->); [|done]. right. splits; auto; [destruct fuel; reflexivity|]. cbn [app] in *. rewrite lsuf_cons by auto. apply lsuf_id. apply C.
    + rewrite decide_True in Hl by (split; [done|apply short; auto; apply list_elem_of_lookup; eauto]). destruct Hl as ((h & -> & Eh) & _). cbn [tail] in Eh.
      cbn [app] in *. rewrite lsuf_cons, lsuf_snoc by auto. pose proof (lsuf_length ws u) as L. cbn [length] in *.
      destruct (IH h (lsuf ws u)) as [(r' & u' & H1 & H2 & H3 & H4 & H5)|H]; auto; [lia|lia|]. left. exists r', u'. splits; auto. lia.
Qed.
Lemma set_failure_spec parent child c : ws !! parent = Some w -> w <> [] -> ws !! child = Some (w ++ [c]) -> w ++ [c] ∉ l ->
  exists ns', set_failure parent child c ns = Ok ns' /\ trie_ok ns' ws /\ Forall2 (partly ws pats (l ++ [w ++ [c]])) ns' ws.
Proof.
  intros Ew Nw Ec Nl. pose proof (trie_closed _ _ T) as C. pose proof (trie_len _ _ T) as L. unfold set_failure.
  destruct (node_at_ok _ _ _ _ _ Fl Ew) as (p & -> & Ep & Hp). cbn [mbind outcome_bind]. unfold partly in Hp. rewrite decide_True in Hp by (split; auto; apply short; [apply list_elem_of_lookup; eauto|lia]). destruct Hp as ((h & -> & Eh) & _).
  pose proof (lsuf_tail ws w Nw) as Lt. pose proof (trie_depth ns ws T w ltac:(apply list_elem_of_lookup; eauto)) as D.
  assert (Et : lsuf ws (tail (w ++ [c])) = lsuf ws (lsuf ws (tail w) ++ [c])) by (destruct w; [done|]; cbn [app tail]; now apply lsuf_snoc).
  destruct (node_at_ok _ _ _ _ _ Fl Ec) as (cn & Ecn & Ecn' & Hc). unfold partly in Hc. rewrite decide_False in Hc by tauto.
  assert (Nwc : w ++ [c] <> []) by (intros E; now apply app_nil in E as [_ ?]).
  assert (K : forall f h hend, ws !! h = Some (lsuf ws (tail (w ++ [c]))) -> (hend <> 0 <-> ends pats (lsuf ws (tail (w ++ [c])))) -> f = (if (final cn =? 0) && negb (hend =? 0) then -1 else final cn) ->
    trie_ok (<[child := mkAC (ac_d cn) f (Some h) (ac_g cn)]> ns) ws /\ Forall2 (partly ws pats (l ++ [w ++ [c]])) (<[child := mkAC (ac_d cn) f (Some h) (ac_g cn)]> ns) ws).
  { intros f h' hend Eh' He Ef. eapply relabel_ok; eauto.
    - intros nd v Nv Hv. unfold partly. destruct (decide (v <> [] /\ v ∈ l)) as [D1|D1], (decide (v <> [] /\ v ∈ l ++ [w ++ [c]])) as [D2|D2]; rewrite ?elem_of_app, ?list_elem_of_singleton in *; tauto.
    - unfold partly. rewrite decide_True by (rewrite elem_of_app, list_elem_of_singleton; auto). eapply label_ok; eauto. }
  destruct (failure_loop_spec c (length ns) h (lsuf ws (tail w)) Eh) as [(r & u & -> & Er & Eu & Hu & Lu)|(-> & E0 & Nc)]; [lia|lia| |]; cbn [mbind outcome_bind].
  - destruct (node_at_ok _ _ _ _ _ (trie_nodes _ _ T) Er) as (rn & -> & Ern & _ & G). cbn [mbind outcome_bind]. apply list_elem_of_lookup in Hu as Hq. destruct Hq as [q Hq]. apply G in Hq as Gq. rewrite Gq.
    rewrite (set_h_at _ _ _ _ Ecn'). cbn [mbind outcome_bind]. pose proof (list_lookup_insert_eq ns child (mkAC (ac_d cn) (final cn) (Some q) (ac_g cn)) (lookup_lt_Some _ _ _ Ecn')) as Ei.
    rewrite (node_at_Some _ _ _ Ei). cbn [require mbind outcome_bind ac_h final].
    destruct (node_at_ok _ _ _ _ _ Fl Hq) as (hn & Ehn & Ehn' & Hh). assert (Nq : q <> child). { intros ->. rewrite Ec in Hq. injection Hq as Hq. apply (f_equal length) in Hq. rewrite !length_app in Hq. lia. }
    rewrite (node_at_Some _ q hn) by (now rewrite list_lookup_insert_ne). cbn [mbind outcome_bind].
    unfold partly in Hh. rewrite decide_True in Hh; [|split; [intros E; now apply app_nil in E as [_ ?]|apply short; auto; rewrite length_app; cbn; lia]]. destruct Hh as (_ & _ & He). rewrite Et, Eu in K.
    destruct ((final cn =? 0) && negb (final hn =? 0)) eqn:Ef.
    + rewrite (set_final_at _ _ _ _ Ei), list_insert_insert_eq.
      eexists. split; [reflexivity|]. apply (K (-1) q (final hn)); auto. now rewrite Ef.
    + eexists. split; [reflexivity|]. apply (K _ q (final hn)); auto. now rewrite Ef.
  - destruct (node_at_ok _ _ _ _ _ Fl (trie_root _ _ T)) as (rt & -> & Ert & _). cbn [mbind outcome_bind]. rewrite (proj2 (child_index _ _ _ c Ert (trie_root _ _ T)) Nc).
    rewrite (set_h_at _ _ _ _ Ecn'). eexists. split; [reflexivity|]. rewrite Et, E0 in K. apply (K _ root 0); [apply (trie_root _ _ T)| |now rewrite andb_comm].
    split; [lia|]. intros E. now apply ends_nil in E.
Qed.
End Child.

(** ** The queue *)
(** The nodes [P] have left the queue, the children of [w] before the byte [i]
    are in it, and it ends with [R]. The root counts as the first one. *)
Record bfs (ws P : list word) (w : word) (R : list word) (i : Z) : Prop := {
  bfs_NoDup : NoDup (P ++ w :: R);
  bfs_root : [] ∈ P ++ w :: R;
  bfs_in : forall v, v ∈ P ++ w :: R -> v ∈ ws;
  bfs_sorted : StronglySorted (fun u v => (length u <= length v)%nat) (P ++ w :: R);
  bfs_near : forall v, v ∈ R -> (length v <= S (length w))%nat;
  bfs_mem : forall u c, u ++ [c] ∈ P ++ w :: R <-> u ++ [c] ∈ ws /\ (u ∈ P \/ u = w /\ c < i) }.
Lemma bfs_length ws P w R i : bfs ws P w R i -> (length (P ++ w :: R) <= length ws)%nat.
Proof. intros B. apply submseteq_length, NoDup_submseteq; [apply (bfs_NoDup _ _ _ _ _ B)|]. intros v. apply (bfs_in _ _ _ _ _ B). Qed.
Lemma bfs_short ws P w R i : closed ws -> bfs ws P w R i -> forall v, v ∈ ws -> len v <= len w -> v ∈ P ++ w :: R.
Proof.
  intros [_ C] B. induction v as [|c v IH] using rev_ind; intros Hv Hl; [apply (bfs_root _ _ _ _ _ B)|]. rewrite length_app in Hl. cbn in Hl. apply (bfs_mem _ _ _ _ _ B). split; auto. left.
  assert (Hi : v ∈ P ++ w :: R) by (apply IH; [eauto|lia]). apply elem_of_app in Hi as [?|[->|Hi]%elem_of_cons]; auto; [lia|].
  pose proof (bfs_sorted _ _ _ _ _ B) as S. apply StronglySorted_app in S as (_ & _ & S). inversion S as [|? ? _ F]; subst. rewrite Forall_forall in F. specialize (F v Hi). cbn in F. lia.
Qed.
Lemma bfs_add ws P w R i : bfs ws P w R i -> w ++ [i] ∈ ws -> w ++ [i] ∉ P ++ w :: R /\ bfs ws P w (R ++ [w ++ [i]]) (i + 1).
Proof.
  intros B Hc. assert (Nc : w ++ [i] ∉ P ++ w :: R).
  { intros H. apply (bfs_mem _ _ _ _ _ B) in H as (_ & [H|[_ H]]); [|lia]. pose proof (bfs_NoDup _ _ _ _ _ B) as N. apply NoDup_app in N as (_ & N & _). apply (N w H). left. }
  split; auto. destruct B as [N Ro I S Ne M]. replace (P ++ w :: R ++ [w ++ [i]]) with ((P ++ w :: R) ++ [w ++ [i]]) by (now rewrite <- app_assoc). constructor.
  all: replace (P ++ w :: R ++ [w ++ [i]]) with ((P ++ w :: R) ++ [w ++ [i]]) by (now rewrite <- app_assoc).
  - apply NoDup_app. splits; auto; [intros v Hv ->%list_elem_of_singleton; auto|apply NoDup_singleton].
  - apply elem_of_app; auto.
  - intros v [Hv| ->%list_elem_of_singleton]%elem_of_app; auto.
  - apply StronglySorted_app. splits; auto; [|repeat constructor]. intros x y Hx ->%list_elem_of_singleton. rewrite length_app. cbn. apply StronglySorted_app in S as (S1 & _ & S2). inversion S2; subst.
    apply elem_of_app in Hx as [Hx|[->|Hx]%elem_of_cons]; [|lia|specialize (Ne x Hx); lia]. specialize (S1 x w Hx ltac:(left)). lia.
  - intros v [Hv| ->%list_elem_of_singleton]%elem_of_app; [auto|]. rewrite length_app. cbn. lia.
  - intros u c. rewrite elem_of_app, list_elem_of_singleton, M. split.
    + intros [(H1 & [H2|[H2 H3]])|[-> ->]%app_inj_tail]; [auto|split; auto; right; split; auto; lia|split; auto; right; split; auto; lia].
    + intros (H1 & [H2|[-> H3]]); [auto|]. destruct (decide (c = i)) as [->|Nci]; [auto|]. left. split; auto. right. split; auto. lia.
Qed.
Lemma bfs_skip ws P w R i : bfs ws P w R i -> w ++ [i] ∉ ws -> bfs ws P w R (i + 1).
Proof.
  intros [N Ro I S Ne M] Hc. constructor; auto. intros u c. rewrite M. split; intros (H1 & [H2|[-> H2]]); split; auto; right; split; auto; [lia|]. destruct (decide (c = i)) as [->|?]; [contradiction|lia].
Qed.
Lemma bfs_next ws P w v R : (forall u c, u ++ [c] ∈ ws -> 0 <= c < ALPHABET_SIZE) -> bfs ws P w (v :: R) ALPHABET_SIZE -> bfs ws (P ++ [w]) v R 0.
Proof.
  intros Y [N Ro I S Ne M]. assert (Q : (P ++ [w]) ++ v :: R = P ++ w :: v :: R) by (now rewrite <- app_assoc). constructor; rewrite ?Q; auto.
  - intros x Hx. apply StronglySorted_app in S as (_ & _ & S). inversion S as [|? ? S2 F]; subst. inversion F; subst. specialize (Ne x ltac:(right; auto)). lia.
  - intros u c. rewrite M, elem_of_app, list_elem_of_singleton. split; intros (H1 & H2); split; auto; specialize (Y _ _ H1); [tauto|]. destruct H2 as [[?| ->]|[-> ?]]; auto; [right; split; auto; lia|lia].
Qed.
Lemma bfs_done ws P w : closed ws -> (forall u c, u ++ [c] ∈ ws -> 0 <= c < ALPHABET_SIZE) -> bfs ws P w [] ALPHABET_SIZE -> forall v, v ∈ ws -> v ∈ P ++ [w].
Proof.
  intros [_ C] Y B. induction v as [|c v IH] using rev_ind; intros Hv; [apply (bfs_root _ _ _ _ _ B)|]. apply (bfs_mem _ _ _ _ _ B). split; auto. specialize (Y _ _ Hv).
  apply C in Hv. specialize (IH Hv). apply elem_of_app in IH as [?|IH]; auto. apply list_elem_of_singleton in IH. right. split; auto. lia.
Qed.

(** ** The loops *)
Definition indexed (ws : list word) (q : list nat) (l : list word) : Prop := Forall2 (fun p w => ws !! p = Some w) q l.
Lemma partly_same ws pats l k nd w : (w ∈ l <-> w ∈ k) -> partly ws pats l nd w -> partly ws pats k nd w.
Proof. intros E. unfold partly. destruct (decide (w <> [] /\ w ∈ l)), (decide (w <> [] /\ w ∈ k)); tauto. Qed.
Section Loops.
Variables (chars : Z) (ws pats : list word).
Hypotheses (P0 : forall x, x ∈ pats -> x ∈ ws) (N0 : [] ∉ pats) (Hc : len ws <= chars + 1) (Y : forall u c, u ++ [c] ∈ ws -> 0 <= c < ALPHABET_SIZE).
Lemma enqueue_ok P w R i q c p : bfs ws ([] :: P) w R i -> indexed ws q (P ++ w :: R) -> w ++ [i] ∈ ws -> ws !! p = Some (w ++ [i]) -> c = chars ->
  enqueue c p q = Ok (q ++ [p]) /\ indexed ws (q ++ [p]) (P ++ w :: R ++ [w ++ [i]]).
Proof.
  intros B Q Hw Ep ->. destruct (bfs_add _ _ _ _ _ B Hw) as [_ B']. pose proof (bfs_length _ _ _ _ _ B') as L. pose proof (Forall2_length _ _ _ Q) as Lq. cbn [app length] in L. rewrite !length_app in *. cbn [length] in *. rewrite length_app in L. cbn in L.
  split; [unfold enqueue; rewrite (proj2 (Z.ltb_lt _ _)); [auto|lia]|]. replace (P ++ w :: R ++ [w ++ [i]]) with ((P ++ w :: R) ++ [w ++ [i]]) by (now rewrite <- app_assoc). apply Forall2_app; auto.
Qed.
Lemma children_loop_spec P w parent n : w <> [] -> ws !! parent = Some w -> forall i ns q R, trie_ok ns ws -> Forall2 (partly ws pats ([] :: P ++ w :: R)) ns ws -> bfs ws ([] :: P) w R i -> indexed ws q (P ++ w :: R) -> i + Z.of_nat n = ALPHABET_SIZE ->
  exists ns' q' R', children_loop chars n i parent ns q = Ok (ns', q') /\ trie_ok ns' ws /\ Forall2 (partly ws pats ([] :: P ++ w :: R')) ns' ws /\ bfs ws ([] :: P) w R' ALPHABET_SIZE /\ indexed ws q' (P ++ w :: R').
Proof.
  intros Nw Ew. induction n as [|n IH]; intros i ns q R T F B Q Hi; cbn [children_loop]; [replace i with ALPHABET_SIZE in B by lia; eauto 10|].
  destruct (node_at_ok _ _ _ _ _ (trie_nodes _ _ T) Ew) as (nd & -> & En & _ & G). cbn [mbind outcome_bind]. destruct (ac_g nd !! i) as [child|] eqn:Eg.
  - apply G in Eg. assert (Hw : w ++ [i] ∈ ws) by (apply list_elem_of_lookup; eauto). destruct (bfs_add _ _ _ _ _ B Hw) as [Nc B']. destruct (enqueue_ok _ _ _ _ _ chars _ B Q Hw Eg eq_refl) as [-> Q']. cbn [mbind outcome_bind].
    destruct (set_failure_spec ns ws pats ([] :: P ++ w :: R) w T P0 N0 F (bfs_short _ _ _ _ _ (trie_closed _ _ T) B) parent child i) as (ns' & -> & T' & F'); auto. cbn [mbind outcome_bind].
    apply (IH (i + 1) _ _ (R ++ [w ++ [i]])); auto; [|lia]. eapply Forall2_impl; [exact F'|]. intros x v. apply partly_same. cbn [app]. rewrite <- app_assoc. reflexivity.
  - apply (IH (i + 1) _ _ R); auto; [|lia]. apply bfs_skip; auto. intros [p Ep]%list_elem_of_lookup. apply G in Ep. congruence.
Qed.
Lemma root_children_spec n : forall i ns q R, trie_ok ns ws -> Forall2 (partly ws pats ([] :: R)) ns ws -> bfs ws [] [] R i -> indexed ws q R -> i + Z.of_nat n = ALPHABET_SIZE ->
  exists ns' q' R', root_children chars n i ns q = Ok (ns', q') /\ trie_ok ns' ws /\ Forall2 (partly ws pats ([] :: R')) ns' ws /\ bfs ws [] [] R' ALPHABET_SIZE /\ indexed ws q' R'.
Proof.
  induction n as [|n IH]; intros i ns q R T F B Q Hi; cbn [root_children]; [replace i with ALPHABET_SIZE in B by lia; eauto 10|].
  destruct (node_at_ok _ _ _ _ _ (trie_nodes _ _ T) (trie_root _ _ T)) as (nd & -> & En & _ & G). cbn [mbind outcome_bind]. destruct (ac_g nd !! i) as [p|] eqn:Eg.
  - apply G in Eg. cbn [app] in Eg. assert (Hw : [i] ∈ ws) by (apply list_elem_of_lookup; eauto). destruct (bfs_add _ _ _ _ _ B Hw) as [Nc B']. cbn [app] in *.
    destruct (node_at_ok _ _ _ _ _ F Eg) as (cn & Ecn & Ecn' & Hcn). rewrite (set_h_at _ _ _ _ Ecn'). cbn [mbind outcome_bind]. pose proof (bfs_length _ _ _ _ _ B') as L. pose proof (Forall2_length _ _ _ Q) as Lq. cbn [app length] in L. rewrite length_app in L. cbn in L.
    unfold enqueue. rewrite (proj2 (Z.ltb_lt _ _)) by lia. cbn [mbind outcome_bind]. unfold partly in Hcn. rewrite decide_False in Hcn by tauto.
    destruct (relabel_ok ns ws p cn [i] (final cn) (Some root) _ (partly ws pats ([] :: R ++ [[i]])) T Ecn' Eg F) as [T' F'].
    + intros x v Nv Hv. apply partly_same. rewrite !elem_of_cons, elem_of_app, list_elem_of_singleton. tauto.
    + unfold partly. rewrite decide_True by (split; [done|]; right; apply elem_of_app; right; apply list_elem_of_singleton; auto). apply (label_ok ws pats [i] cn root (final cn) 0); [exact P0|apply (trie_closed _ _ T)|done|exact Hcn| | |].
      * cbn [tail]. rewrite lsuf_id by apply (trie_closed _ _ T). apply (trie_root _ _ T).
      * cbn [tail]. rewrite lsuf_id by apply (trie_closed _ _ T). split; [lia|]. intros E. now apply ends_nil in E.
      * now rewrite andb_comm.
    + apply (IH (i + 1) _ _ (R ++ [[i]])); auto; [|lia]. apply Forall2_app; auto.
  - apply (IH (i + 1) _ _ R); auto; [|lia]. apply bfs_skip; auto. intros [p Ep]%list_elem_of_lookup. apply G in Ep. congruence.
Qed.
Lemma queue_loop_spec fuel : forall D P w R qh ns q, P ++ [w] = [] :: D -> bfs ws P w R ALPHABET_SIZE -> indexed ws q (D ++ R) -> qh = length D -> trie_ok ns ws -> Forall2 (partly ws pats ([] :: D ++ R)) ns ws -> (length ws <= fuel + length D)%nat ->
  exists ns', queue_loop fuel chars qh ns q = Ok ns' /\ trie_ok ns' ws /\ Forall2 (partly ws pats ws) ns' ws.
Proof.
  induction fuel as [|fuel IH]; intros D P w R qh ns q E B Q -> T F Hf; pose proof (bfs_length _ _ _ _ _ B) as L; assert (EL : P ++ w :: R = [] :: D ++ R) by (change (w :: R) with ([w] ++ R); now rewrite app_assoc, E); rewrite EL in L; cbn [length] in L; rewrite length_app in L; [lia|].
  pose proof (Forall2_length _ _ _ Q) as Lq. rewrite length_app in Lq. cbn [queue_loop]. destruct R as [|v R].
  - rewrite lookup_ge_None_2 by (cbn in Lq; lia). exists ns. splits; auto. eapply Forall2_impl; [exact F|]. intros x u. apply partly_same. rewrite <- EL. split; [apply (bfs_in _ _ _ _ _ B)|]. apply (bfs_done _ _ _ (trie_closed _ _ T) Y B).
  - destruct (Forall2_lookup_r _ _ _ (length D) v Q) as (parent & -> & Ev); [rewrite lookup_app_r, Nat.sub_diag by lia; reflexivity|]. pose proof (bfs_next _ _ _ _ _ Y B) as B'. rewrite E in B'.
    destruct (children_loop_spec D v parent (Z.to_nat ALPHABET_SIZE)) with (i := 0) (ns := ns) (q := q) (R := R) as (ns' & q' & R' & -> & T' & F' & B2 & Q'); auto.
    { intros ->. pose proof (bfs_NoDup _ _ _ _ _ B') as N. cbn [app] in N. apply NoDup_cons in N as [N _]. apply N, elem_of_app. right. left. }
    cbn [mbind outcome_bind]. replace (D ++ v :: R') with ((D ++ [v]) ++ R') in * by (now rewrite <- app_assoc). apply (IH (D ++ [v]) ([] :: D) v R'); auto; rewrite length_app; cbn; lia.
Qed.
Lemma ac_compute_failure_functions_spec ns : trie_ok ns ws -> Forall2 (finals_ok pats) ns ws -> exists ns', ac_compute_failure_functions chars ns = Ok ns' /\ trie_ok ns' ws /\ Forall2 (labelled ws pats) ns' ws.
Proof.
  intros T F. pose proof (trie_closed _ _ T) as C. unfold ac_compute_failure_functions.
  assert (B : bfs ws [] [] [] 0).
  { constructor; cbn [app]; [apply NoDup_singleton|apply list_elem_of_singleton; auto|intros v ->%list_elem_of_singleton; apply C|repeat constructor|intros v []%elem_of_nil|].
    intros u c. rewrite list_elem_of_singleton. split; [intros H; now apply app_nil in H as [_ ?]|]. intros (H & [H1|[_ H1]]); [now apply elem_of_nil in H1|]. apply Y in H. lia. }
  destruct (root_children_spec (Z.to_nat ALPHABET_SIZE) 0 ns [] []) as (ns1 & q1 & R1 & -> & T1 & F1 & B1 & Q1); auto; [|constructor|].
  { eapply Forall2_impl; [exact F|]. intros x u H. unfold partly. rewrite decide_False; auto. rewrite list_elem_of_singleton. tauto. }
  cbn [mbind outcome_bind]. destruct (queue_loop_spec (length ns1) [] [] [] R1 0 ns1 q1) as (ns2 & -> & T2 & F2); auto; [rewrite (trie_len _ _ T1); cbn; lia|]. cbn [mbind outcome_bind].
  destruct (node_at_ok _ _ _ _ _ F2 (trie_root _ _ T2)) as (rt & _ & Er & Hr). rewrite (set_h_at _ _ _ _ Er). eexists. split; [reflexivity|]. unfold partly in Hr. rewrite decide_False in Hr by tauto. destruct Hr as (Hr0 & Hr1 & _).
  eapply relabel_ok; eauto; [apply (trie_root _ _ T2)| |].
  - intros nd v Nv Hv. unfold partly. now rewrite decide_True.
  - unfold labelled. cbn [ac_h final tail]. assert (final rt = 0) as -> by (destruct (Z.eq_dec (final rt) 0); auto; tauto). splits; [|split; [lia|contradiction]|split; [lia|intros H; now apply ends_nil in H]]. exists root. split; auto. rewrite lsuf_id by apply C. apply (trie_root _ _ T).
Qed.
End Loops.
(** The compiled patterns. *)
Record compiled (pats : list word) (ns : list ACNode) (ws : list word) : Prop := {
  compiled_trie : trie_ok ns ws;
  compiled_pats : forall x, x ∈ pats -> x ∈ ws;
  compiled_labels : Forall2 (labelled ws pats) ns ws }.
Lemma bind_Ok2 {A B C} (m : outcome A) (f : A -> outcome B) (g : A -> B -> C) a b : m = Ok a -> f a = Ok b -> (x ← m; y ← f x; Ok (g x y)) = Ok (g a b).
Proof. intros -> E. cbn [mbind outcome_bind]. now rewrite E. Qed.
Lemma ac_compile_steps chars xs act ns : ac_add_patterns chars xs create_acdata = Ok act -> ac_compute_failure_functions chars (nodes act) = Ok ns -> ac_compile chars xs = Ok (mkTrie (counter act) ns).
Proof. apply (bind_Ok2 _ (fun act => ac_compute_failure_functions chars (nodes act)) (fun act ns => mkTrie (counter act) ns)). Qed.
Lemma ac_compile_spec xs : Forall (fun x => x <> [] /\ bytes x) xs -> len (concat xs) < 2 ^ 31 -> exists act ws, ac_compile (len (concat xs)) xs = Ok act /\ compiled xs (nodes act) ws.
Proof.
  intros Hx Hl. assert (Ln : len xs <= len (concat xs)).
  { clear Hl. induction Hx as [|x xs [N _] _ IH]; cbn [concat length]; [lia|]. rewrite length_app. destruct x; [done|]. cbn [length]. lia. }
  destruct (ac_add_patterns_spec (len (concat xs)) xs create_acdata [] [[]] built_empty) as (act & ws & Ea & B & L); [cbn [length]; lia|lia|reflexivity|cbn [counter create_acdata]; lia|].
  destruct B as [T Pa Pre F]. cbn [app length] in *. rewrite Forall_forall in Hx. destruct (ac_compute_failure_functions_spec (len (concat xs)) ws xs Pa) with (ns := nodes act) as (ns' & En & T' & F'); auto.
  - intros H. now apply Hx in H as [? _].
  - lia.
  - intros u c Hu. apply Pre in Hu as [E|(x & Hxs & k & ->)]; [now apply app_nil in E as [_ ?]|]. apply Hx in Hxs as [_ B]. rewrite !Forall_app, Forall_singleton in B. unfold ALPHABET_SIZE. lia.
  - exists (mkTrie (counter act) ns'), ws. split; [now apply ac_compile_steps|]. split; auto.
Qed.
