(* ===== verification/AcSearch.v ===== *)
(** The invariant of the search for the first match: the node has the longest suffix of the
    text, the candidate is the best match so far. That of the search for all matches: the array,
    from which matches are taken off, is what a search from the left finds in the matches so far. *)

From S2P Require Import Prelude.
From stdpp Require Import base option list gmap.
From Stdlib Require Import Sorted.
From stdpp Require Import base option list gmap sorting.
From S2P Require Import Memory BoyerMoore BmSearch AhoCorasick AcTrie.
Local Open Scope Z_scope.

(** The bytes between two positions. *)
Definition text (hay : list Z) (start i : Z) : word := drop (Z.to_nat start) (take (Z.to_nat i) hay).
Lemma text_length hay start i : 0 <= start <= i -> i <= len hay -> len (text hay start i) = i - start.
Proof. intros. unfold text. rewrite length_drop, length_take. lia. Qed.
Lemma text_snoc hay start i : 0 <= start <= i -> i < len hay -> text hay start (i + 1) = text hay start i ++ [elt hay i].
Proof.
  intros H1 H2. unfold text. replace (Z.to_nat (i + 1)) with (S (Z.to_nat i)) by lia. unfold elt. destruct (lookup_lt_is_Some_2 hay (Z.to_nat i)) as [v E]; [lia|]. rewrite E. cbn. rewrite (take_S_r _ _ _ E).
  apply drop_app_le. rewrite length_take. lia.
Qed.
(** The suffixes of the bytes up to [i] are the words that occur and end there. *)
Lemma text_suffix hay start i x : 0 <= start <= i -> i <= len hay -> x `suffix_of` text hay start i <-> start <= i - len x /\ occurs x hay (i - len x).
Proof.
  intros H1 H2. pose proof (text_length hay start i H1 H2) as L. split.
  - intros [k E]. assert (Lx : len k + len x = i - start) by (rewrite <- L; rewrite E; rewrite length_app; lia). split; [lia|]. unfold occurs. splits; [lia|lia|].
    apply (f_equal (drop (length k))) in E. rewrite drop_app_length in E. etrans; [|exact E]. unfold text. rewrite drop_drop.
    replace (Z.to_nat (i - len x)) with (Z.to_nat start + length k)%nat by lia. rewrite take_drop_commute. f_equal. f_equal. lia.
  - intros [H3 (O1 & O2 & O3)]. exists (text hay start (i - len x)). unfold text. rewrite <- O3 at 2. rewrite take_drop_commute. replace (Z.to_nat (i - len x) + length x)%nat with (Z.to_nat i) by lia.
    rewrite <- (take_drop (Z.to_nat (i - len x)) (take (Z.to_nat i) hay)) at 1. rewrite take_take, Nat.min_l by lia. apply drop_app_le. rewrite length_take. lia.
Qed.
Lemma text_occurs hay start i x s : 0 <= start <= s -> occurs x hay s -> s <= i <= s + len x -> take (Z.to_nat (i - s)) x `suffix_of` text hay start i.
Proof.
  intros H1 (O1 & O2 & O3) H2. assert (Lt : len (take (Z.to_nat (i - s)) x) = i - s) by (rewrite length_take; lia). apply text_suffix; [lia|lia|]. rewrite Lt. replace (i - (i - s)) with s by lia. split; [lia|]. unfold occurs. rewrite Lt. splits; [lia|lia|].
  replace (length (take (Z.to_nat (i - s)) x)) with (Z.to_nat (i - s)) by lia. rewrite <- O3. rewrite take_take. f_equal. lia.
Qed.

Section Search.
Variables (pats ws : list word) (ns : list ACNode) (hay : list Z) (start n : Z).
Hypotheses (K : compiled pats ns ws) (N0 : [] ∉ pats) (Hs : 0 <= start) (Hn : n <= len hay) (Hl : len hay < 2 ^ 64).
Notation M := (matches pats hay start n).
Notation txt := (text hay start).
Lemma K_node p u : ws !! p = Some u -> exists nd, node_at ns p = Ok nd /\ node_ok ws nd u /\ labelled ws pats nd u.
Proof.
  intros E. destruct K as [T _ F]. destruct (node_at_ok _ _ _ _ _ F E) as (nd & En & Er & H). exists nd. splits; auto. exact (Forall2_lookup_lr _ _ _ _ _ _ (trie_nodes _ _ T) Er E).
Qed.
Lemma K_closed : closed ws.
Proof. apply (trie_closed _ _ (compiled_trie _ _ _ K)). Qed.
(** The node of the text, after one more byte. *)
Lemma ac_goto_spec c : forall fuel q u, ws !! q = Some u -> (length u <= fuel)%nat -> exists p, ac_goto fuel ns q c = Ok p /\ ws !! p = Some (lsuf ws (u ++ [c])).
Proof.
  pose proof K_closed as C. pose proof (compiled_trie _ _ _ K) as T. induction fuel as [|fuel IH]; intros q u Eq Hf; destruct (K_node q u Eq) as (nd & En & [_ G] & ((h & Eh & Ew) & _)); cbn [ac_goto]; rewrite En; cbn [mbind outcome_bind]; rewrite Eh.
  all: destruct (ac_g nd !! c) as [p|] eqn:Eg; [exists p; split; auto; apply G in Eg; rewrite lsuf_id; auto; apply list_elem_of_lookup; eauto|].
  all: assert (Nc : u ++ [c] ∉ ws) by (intros [p Ep]%list_elem_of_lookup; apply G in Ep; congruence); cbn [require mbind outcome_bind].
  all: destruct u as [|a u]; [cbn [tail app] in *; assert (h = q) as -> by (rewrite lsuf_id in Ew by apply C; eapply index_eq; eauto; apply (trie_NoDup _ _ T)); rewrite Nat.eqb_refl; exists q; split; auto; rewrite lsuf_cons by auto; now rewrite lsuf_id by apply C|].
  - cbn [length] in Hf. lia.
  - cbn [tail] in Ew. pose proof (lsuf_length ws u) as L. destruct (Nat.eqb_spec h q) as [->|N]; [rewrite Eq in Ew; injection Ew as Ew; apply (f_equal length) in Ew; cbn in Ew; lia|].
    cbn [app] in *. rewrite lsuf_cons, lsuf_snoc by auto. apply IH; auto. cbn in Hf. lia.
Qed.
Lemma text_step q i : ws !! q = Some (lsuf ws (txt i)) -> start <= i < n -> exists p, ac_goto (length ns) ns q (elt hay i) = Ok p /\ ws !! p = Some (lsuf ws (txt (i + 1))).
Proof.
  intros E Hi. pose proof (compiled_trie _ _ _ K) as T. rewrite text_snoc, lsuf_snoc by (apply K_closed || lia). apply ac_goto_spec; auto. rewrite (trie_len _ _ T). apply list_elem_of_lookup_2, (trie_depth _ _ T) in E. lia.
Qed.
(** The longest pattern that ends a word. *)
Definition longest (u v : word) : Prop := v ∈ pats /\ v `suffix_of` u /\ forall y, y ∈ pats -> y `suffix_of` u -> y `suffix_of` v.
Lemma ac_real_spec : forall fuel r u, ws !! r = Some u -> ends pats u -> (length u <= fuel)%nat -> exists r' v, ac_real fuel ns r = Ok r' /\ ws !! r' = Some v /\ longest u v.
Proof.
  pose proof K_closed as C. induction fuel as [|fuel IH]; intros r u Er He Hf; destruct (K_node r u Er) as (nd & En & _ & ((h & Eh & Ew) & Hp & Hz)); cbn [ac_real]; rewrite En; cbn [mbind outcome_bind].
  all: pose proof (proj2 Hz He) as Nz; destruct (Z.ltb_spec (final nd) 0) as [L|L]; [|exists r, u; split; auto; split; auto; split; [apply Hp; lia|auto]].
  1: { exfalso. destruct u; [|cbn in Hf; lia]. now apply ends_nil in He. }
  rewrite Eh. cbn [require mbind outcome_bind]. assert (Nu : u <> []) by (intros ->; now apply ends_nil in He). assert (Np : u ∉ pats) by (intros H; apply Hp in H; lia). pose proof (lsuf_tail ws u Nu).
  pose proof (ends_tail ws pats u (compiled_pats _ _ _ K) C Nu) as Q. destruct (IH h _ Ew) as (r' & v & -> & Ev & (V1 & V2 & V3)); [tauto|lia|]. exists r', v. split; auto. split; auto. destruct u as [|a u]; [done|]. cbn [tail] in *. split; [auto|split].
  - apply suffix_cons_r. etrans; [exact V2|apply lsuf_suffix].
  - intros y Y1 Y2. destruct y as [|b y]; [apply suffix_nil|]. apply suffix_cons_inv in Y2 as [[= -> ->]|Y2]; [contradiction|]. apply V3; auto. apply lsuf_max; auto. now apply (compiled_pats _ _ _ K).
Qed.
Lemma suffix_lsuf i x : x ∈ ws -> x `suffix_of` lsuf ws (txt i) <-> x `suffix_of` txt i.
Proof. intros H. split; [intros S; etrans; [exact S|apply lsuf_suffix]|now apply lsuf_max]. Qed.
(** A match that ends at [i]. *)
Lemma match_ends i p : start <= i <= n -> M p /\ fst p + snd p = i <-> exists x, x ∈ pats /\ snd p = len x /\ x `suffix_of` lsuf ws (txt i) /\ fst p = i - len x.
Proof.
  intros Hi. split.
  - intros ((P1 & P2 & x & P3 & P4 & P5) & E). exists x. splits; auto; [|lia]. apply suffix_lsuf; [now apply (compiled_pats _ _ _ K)|]. apply text_suffix; [lia|lia|]. replace (i - len x) with (fst p) by lia. auto.
  - intros (x & P1 & P2 & P3 & P4). apply suffix_lsuf in P3; [|now apply (compiled_pats _ _ _ K)]. apply text_suffix in P3 as [P5 P6]; [|lia|lia]. split; [|lia]. split; [lia|]. split; [lia|]. exists x. rewrite P4. auto.
Qed.
Lemma len_lsuf i : start <= i <= n -> len (lsuf ws (txt i)) <= i - start.
Proof. intros Hi. pose proof (lsuf_length ws (txt i)). pose proof (text_length hay start i). lia. Qed.

(** ** The first match *)
(** The candidate is the first of the matches that end by [i]. *)
Definition cand_ok (i : Z) (cand : option nat) (cs : Z) : Prop :=
  match cand with
  | None => forall p, M p -> i < fst p + snd p
  | Some c => exists x, ws !! c = Some x /\ M (cs, len x) /\ cs + len x <= i /\ forall p, M p -> fst p + snd p <= i -> before (cs, len x) p
  end.
Definition first_inv (s : ACFindFirstState) : Prop :=
  af_len s = n /\ start <= af_pos s <= n /\ ws !! af_q s = Some (lsuf ws (txt (af_pos s))) /\ cand_ok (af_pos s) (candidate s) (candidate_start s).
Definition first_result (r : ac_result) : Prop :=
  match r with AC_FOUND p l => first_match pats hay start n (p, l) | AC_NOT_FOUND => forall p, ~ M p | AC_RESTART s => first_inv s end.
Lemma match_pos p : M p -> start <= fst p /\ 0 < snd p /\ fst p + snd p <= n.
Proof. intros (P1 & P2 & x & P3 & P4 & P5). destruct x; [contradiction|]. cbn [length] in P4. lia. Qed.
(** A match that ends behind [i] and starts by [i]: the bytes between are a suffix in the trie. *)
Lemma match_later i p : start <= i <= n -> M p -> fst p <= i <= fst p + snd p -> i - fst p <= len (lsuf ws (txt i)).
Proof.
  intros Hi (P1 & P2 & x & P3 & P4 & P5) Hp. assert (W : take (Z.to_nat (i - fst p)) x ∈ ws).
  { assert (Kp : forall u v, u ++ v ∈ ws -> u ∈ ws) by (intros u v; induction v as [|c v IH] using rev_ind; [now rewrite app_nil_r|rewrite app_assoc; intros H; apply IH; now apply K_closed in H]).
    apply (Kp _ (drop (Z.to_nat (i - fst p)) x)). rewrite take_drop. now apply (compiled_pats _ _ _ K). }
  assert (S : take (Z.to_nat (i - fst p)) x `suffix_of` txt i) by (apply text_occurs; auto; lia). apply (lsuf_max ws _ _ W), suffix_length in S. rewrite length_take in S. lia.
Qed.
Lemma ac_candidate_spec i q cand cs : start <= i < n -> ws !! q = Some (lsuf ws (txt (i + 1))) -> cand_ok i cand cs ->
  exists cand' cs', ac_candidate ns (i + 1) q cand cs = Ok (cand', cs') /\ cand_ok (i + 1) cand' cs'.
Proof.
  intros Hi Eq Hc. pose proof (compiled_trie _ _ _ K) as T. unfold ac_candidate. destruct (K_node _ _ Eq) as (qn & -> & [Dq _] & (_ & _ & Hz)). cbn [mbind outcome_bind]. destruct (Z.eqb_spec (final qn) 0) as [Z0|Nz].
  - exists cand, cs. split; auto. assert (No : forall p, M p -> fst p + snd p <> i + 1).
    { intros p Hp E. destruct (proj1 (match_ends (i + 1) p ltac:(lia)) (conj Hp E)) as (x & X1 & _ & X3 & _). apply Hz; auto. exists x. auto. }
    destruct cand as [c|]; cbn [cand_ok] in *.
    + destruct Hc as (x & H1 & H2 & H3 & H4). exists x. splits; auto; [lia|]. intros p Hp Hpe. apply H4; auto. specialize (No p Hp). lia.
    + intros p Hp. specialize (Hc p Hp). specialize (No p Hp). lia.
  - apply Hz in Nz as He. assert (Lq : (length (lsuf ws (txt (i + 1))) <= length ns)%nat) by (rewrite (trie_len _ _ T); apply list_elem_of_lookup_2, (trie_depth _ _ T) in Eq; lia).
    destruct (ac_real_spec (length ns) q _ Eq He Lq) as (r & v & -> & Er & (V1 & V2 & V3)). cbn [mbind outcome_bind]. destruct (K_node _ _ Er) as (rn & -> & [Dr _] & _). cbn [mbind outcome_bind]. rewrite Dr.
    assert (Mv : M (i + 1 - len v, len v) /\ i + 1 - len v + len v = i + 1) by (apply (match_ends (i + 1) (i + 1 - len v, len v)); [lia|]; exists v; auto). destruct Mv as [Mv _].
    pose proof (match_pos _ Mv) as Pv. cbn [fst snd] in Pv. rewrite (w64_id (i + 1 - len v)) by lia.
    assert (Best : forall p, M p -> fst p + snd p = i + 1 -> before (i + 1 - len v, len v) p).
    { intros p Hp E. destruct (proj1 (match_ends (i + 1) p ltac:(lia)) (conj Hp E)) as (y & Y1 & Y2 & Y3 & Y4). specialize (V3 y Y1 Y3). apply suffix_length in V3. unfold before. cbn [fst snd]. lia. }
    assert (New : (forall p, M p -> fst p + snd p <= i -> before (i + 1 - len v, len v) p) -> cand_ok (i + 1) (Some r) (i + 1 - len v)).
    { intros H. exists v. splits; auto; [lia|]. intros p Hp Hpe. destruct (Z.eq_dec (fst p + snd p) (i + 1)); [now apply Best|apply H; auto; lia]. }
    destruct cand as [c|]; cbn [cand_ok] in Hc.
    + destruct Hc as (x & H1 & H2 & H3 & H4). destruct (K_node _ _ H1) as (cn & -> & [Dc _] & _). cbn [mbind outcome_bind]. rewrite Dc, Dq. pose proof (suffix_length _ _ V2) as Lv.
      destruct ((i + 1 - len v <? cs) || (i + 1 - len v =? cs) && (len x <? len (lsuf ws (txt (i + 1))))) eqn:Ec.
      * eexists _, _. split; [reflexivity|]. apply New. intros p Hp Hpe. specialize (H4 p Hp Hpe). eapply before_trans; [|exact H4]. unfold before. cbn [fst snd]. lia.
      * eexists _, _. split; [reflexivity|]. exists x. splits; auto; [lia|]. intros p Hp Hpe. destruct (Z.eq_dec (fst p + snd p) (i + 1)) as [E|N]; [|apply H4; auto; lia]. specialize (Best p Hp E). eapply before_trans; [|exact Best]. unfold before. cbn [fst snd]. lia.
    + eexists _, _. split; [reflexivity|]. apply New. intros p Hp Hpe. specialize (Hc p Hp). lia.
Qed.
(** No match that is still to end would be before the candidate. *)
Lemma first_done i cand cs : start <= i <= n -> cand_ok i cand cs -> (i = n \/ exists c, cand = Some c /\ i < n /\ i + 1 - len (lsuf ws (txt (i + 1))) > cs) -> exists r, ac_first_done ns cand cs = Ok r /\ first_result r /\ forall s, r <> AC_RESTART s.
Proof.
  intros Hi Hc Hd. destruct cand as [c|]; cbn [cand_ok ac_first_done] in *.
  - destruct Hc as (x & H1 & H2 & H3 & H4). destruct (K_node _ _ H1) as (cn & -> & [Dc _] & _). cbn [mbind outcome_bind]. rewrite Dc. eexists. split; [reflexivity|]. split; [|discriminate]. split; auto. intros p Hp. destruct (Z_le_gt_dec (fst p + snd p) i) as [L|G]; [auto|].
    pose proof (match_pos _ Hp) as Pp. destruct Hd as [->|(_ & _ & Hin & Hd)]; [lia|]. left. cbn [fst]. destruct (Z_lt_le_dec cs (fst p)) as [|L]; auto. pose proof (match_pos _ H2) as Pc. cbn [fst snd] in Pc. pose proof (match_later (i + 1) p ltac:(lia) Hp ltac:(lia)). lia.
  - exists AC_NOT_FOUND. split; auto. split; [|discriminate]. intros p Hp. specialize (Hc p Hp). pose proof (match_pos _ Hp). destruct Hd as [->|(c & [=] & _)]. lia.
Qed.
Lemma ac_first_spec k : forall i q cand cs reds, k = Z.to_nat (n - i) -> start <= i <= n -> ws !! q = Some (lsuf ws (txt i)) -> cand_ok i cand cs -> 1 <= reds < 2 ^ 64 ->
  exists r, ac_first_loop k ns hay n i q cand cs reds = Ok r /\ first_result r /\ match r with AC_RESTART s => i <= af_pos s < n /\ (2 <= reds -> i < af_pos s) | _ => True end.
Proof.
  induction k as [|k IH]; intros i q cand cs reds Hk Hi Eq Hc Hr; cbn [ac_first_loop].
  - destruct (first_done i cand cs) as (r & -> & H & Nr); auto; [lia|]. exists r. splits; auto. destruct r; auto. now destruct (Nr state).
  - rewrite (w64_id (reds - 1)) by lia. destruct (Z.eqb_spec (reds - 1) 0) as [R|R].
    + eexists. split; [reflexivity|]. cbn. unfold first_inv. cbn. splits; auto; lia.
    + rewrite peek_elt by lia. cbn [mbind outcome_bind]. destruct (text_step q i Eq ltac:(lia)) as (p & -> & Ep). cbn [mbind outcome_bind]. destruct (K_node _ _ Ep) as (pn & -> & [Dp _] & _). cbn [mbind outcome_bind]. rewrite Dp.
      pose proof (len_lsuf (i + 1) ltac:(lia)) as Ll. rewrite (w64_id (i + 1 - _)) by lia. destruct (bool_decide (is_Some cand) && (i + 1 - len (lsuf ws (txt (i + 1))) >? cs)) eqn:Eb.
      * apply andb_true_iff in Eb as [[c ->]%bool_decide_eq_true Eb]. destruct (first_done i (Some c) cs) as (r & -> & H & Nr); auto; [right; exists c; splits; auto; lia|]. exists r. splits; auto. destruct r; auto. now destruct (Nr state).
      * destruct (ac_candidate_spec i p cand cs) as (cand' & cs' & -> & Hc'); auto; [lia|]. cbn [mbind outcome_bind]. destruct (IH (i + 1) p cand' cs' (reds - 1)) as (r & -> & H & H'); auto; [lia|lia|lia|]. exists r. splits; auto. destruct r; auto. lia.
Qed.
End Search.

(** ** One more match *)
#[export] Instance all_matches_proper : Proper (pointwise_relation _ iff ==> eq ==> eq ==> iff) all_matches.
Proof.
  assert (G : forall A B : Z * Z -> Prop, (forall q, A q <-> B q) -> forall c l, all_matches A c l -> all_matches B c l).
  { intros A B E c l H. induction H as [c H|c p l H1 H2 H3 _ IH]; [apply no_more; intros p Hp; apply H, E, Hp|]. apply one_more_match; auto; [now apply E|]. intros q Hq. apply H3. now apply E. }
  intros A B E c ? <- l ? <-. split; apply G; intros q; [|symmetry]; apply E.
Qed.
(** [q] is behind [p]. *)
Definition after (p q : Z * Z) : Prop := fst q > fst p \/ fst q = fst p /\ snd q < snd p.
#[export] Instance after_dec p q : Decision (after p q).
Proof. unfold after. apply _. Defined.
Lemma not_after p q : ~ after p q <-> before q p.
Proof. unfold after, before. lia. Qed.
Section Insert.
Variables (A A' : Z * Z -> Prop) (p : Z * Z).
Hypotheses (Ap : forall q, A' q <-> A q \/ q = p) (Pos : forall q, A' q -> 0 < snd q) (Last : forall q, A q -> fst q + snd q <= fst p + snd p).
Lemma blocked c l : fst p < c -> all_matches A c l -> all_matches A' c l.
Proof.
  intros Hp H. induction H as [c H|c q l H1 H2 H3 _ IH]; [apply no_more; intros q [Hq| ->]%Ap; auto|]. apply one_more_match; auto; [apply Ap; auto| |apply IH; specialize (Pos q); rewrite Ap in Pos; specialize (Pos (or_introl H1)); lia].
  intros r [Hr| ->]%Ap Hc; [auto|lia].
Qed.
Definition last_end (c : Z) (l : list (Z * Z)) : Z := match last l with Some q => fst q + snd q | None => c end.
Lemma last_end_cons c q l : last_end c (q :: l) = last_end (fst q + snd q) l.
Proof. unfold last_end. rewrite last_cons. now destruct (last l). Qed.
Lemma greedy_insert popped kept : Forall (after p) popped -> Forall (fun q => before q p) kept -> forall c, all_matches A c (kept ++ popped) -> all_matches A' c (if last_end c kept <=? fst p then kept ++ [p] else kept ++ popped).
Proof.
  intros Fp Fk. assert (Pp : 0 < snd p) by (apply Pos, Ap; auto). induction Fk as [|k kept Hk Fk IH]; intros c H.
  - cbn [app last_end last] in *. unfold last_end. cbn [last]. destruct (Z.leb_spec c (fst p)) as [L|L]; [|now apply blocked]. apply one_more_match; [apply Ap; auto|auto| |].
    + intros q [Hq| ->]%Ap Hc; [|unfold before; lia]. inversion H as [? H0|? q0 l H1 H2 H3 H4]; subst; [specialize (H0 q Hq); lia|]. inversion Fp as [|? ? Hq0]; subst. apply (before_trans _ q0); [unfold after, before in *; lia|auto].
    + apply no_more. intros q [Hq| ->]%Ap; [specialize (Last q Hq); specialize (Pos q ltac:(apply Ap; auto)); lia|lia].
  - cbn [app] in *. inversion H as [|? ? ? H1 H2 H3 H4]; subst. rewrite last_end_cons. specialize (IH _ H4). destruct (last_end (fst k + snd k) kept <=? fst p); apply one_more_match; auto; try (apply Ap; auto); intros q [Hq| ->]%Ap Hc; auto.
Qed.
End Insert.
(** The matches are in the order of their starts. *)
Lemma all_matches_sorted (A : Z * Z -> Prop) c l : (forall q, A q -> 0 < snd q) -> all_matches A c l -> StronglySorted (fun q r => fst q + snd q <= fst r) l /\ Forall A l /\ Forall (fun q => c <= fst q) l.
Proof.
  intros Pos H. induction H as [c H|c p l H1 H2 H3 _ (S & F & G)]; [repeat constructor|]. splits; constructor; auto. specialize (Pos p H1). eapply Forall_impl; [exact G|]. cbn. lia.
Qed.

(** ** The array *)
Definition array_of (a : find_all) (l : list (Z * Z)) : Prop := 0 <= fa_m a <= allocated (fa_out a) /\ take (Z.to_nat (fa_m a)) (fa_out a) = map Some l /\ fa_m a = len l.
Lemma array_at a l k : array_of a l -> (k < length l)%nat -> exists q, l !! k = Some q /\ peek (fa_out a) (Z.of_nat k) = Ok (Some q).
Proof.
  intros (H1 & H2 & H3) Hk. destruct (lookup_lt_is_Some_2 l k Hk) as [q Eq]. exists q. split; auto. apply peek_Some; [lia|]. rewrite Nat2Z.id. rewrite <- (lookup_take_lt _ (Z.to_nat (fa_m a))) by lia. rewrite H2. change (map Some l) with (Some <$> l). rewrite list_lookup_fmap, Eq. reflexivity.
Qed.
Lemma array_restore a l : array_of a l -> array_of (restore_out a) l.
Proof.
  intros (Ha & Ht & Hm). unfold array_of, restore_out. cbn [fa_m fa_out]. rewrite length_app, length_take, length_replicate. splits; auto; try lia. rewrite take_app_le by (rewrite length_take; lia). rewrite take_take. now rewrite Nat.min_id.
Qed.
Lemma ac_pop_spec a l s d : array_of a l -> forall m, (m <= length l)%nat -> exists m', ac_pop m (fa_out a) s d = Ok m' /\ (m' <= m)%nat /\ Forall (after (s, d)) (drop m' (take m l)) /\ forall q, last (take m' l) = Some q -> before q (s, d).
Proof.
  intros Ha. induction m as [|m IH]; intros Hm; cbn [ac_pop]; [exists O; splits; auto; try (now constructor); discriminate|].
  destruct (array_at a l m Ha Hm) as (q & Eq & ->). cbn [mbind outcome_bind require]. destruct ((fst q >? s) || (fst q =? s) && (snd q <? d)) eqn:Eb.
  - destruct IH as (m' & -> & L & F & H); [lia|]. exists m'. splits; auto. rewrite (take_S_r _ _ _ Eq), drop_app_le by (rewrite length_take; lia). apply Forall_app. split; auto. apply Forall_singleton. unfold after. cbn. lia.
  - exists (S m). splits; auto; [rewrite drop_ge by (rewrite length_take; lia); constructor|]. intros r. rewrite (take_S_r _ _ _ Eq), last_snoc. intros [= <-]. unfold before. cbn. lia.
Qed.
Lemma ac_add_match_spec (A A' : Z * Z -> Prop) start s d a l : array_of a l -> all_matches A start l -> (forall q, A' q <-> A q \/ q = (s, d)) -> (forall q, A' q -> 0 < snd q) -> (forall q, A q -> 0 <= fst q /\ fst q + snd q <= s + d) -> start <= s -> 0 <= s + d < 2 ^ 64 ->
  exists a' l', ac_add_match s d a = Ok a' /\ array_of a' l' /\ all_matches A' start l'.
Proof.
  intros Ha H Ap Pos Last Hs Hd. pose proof Ha as (H1 & H2 & H3). unfold ac_add_match. destruct (ac_pop_spec a l s d Ha (Z.to_nat (fa_m a))) as (m & -> & Lm & Fp & Hq); [lia|]. cbn [mbind outcome_bind].
  rewrite take_ge in Fp by lia. destruct (all_matches_sorted A start l) as (S & FA & _); auto; [intros q Hq'; apply Pos, Ap; auto|].
  assert (Fk : Forall (fun q => before q (s, d)) (take m l)).
  { destruct (last (take m l)) as [z|] eqn:El; [|apply last_None in El as ->; constructor]. specialize (Hq z eq_refl). apply last_Some in El as [l1 El]. rewrite El. apply Forall_app. split; [|now apply Forall_singleton]. rewrite <- (take_drop m l), El in S, FA.
    apply StronglySorted_app in S as (_ & S & _). apply StronglySorted_app in S as (S & _). apply Forall_app in FA as [FA _]. apply Forall_app in FA as [FA _]. rewrite Forall_forall in FA |- *. intros k Hk. specialize (S k z Hk ltac:(apply list_elem_of_singleton; auto)). specialize (FA k Hk). assert (0 < snd k) by (apply Pos, Ap; auto). unfold before in *. cbn [fst snd] in *. lia. }
  assert (G : all_matches A' start (if last_end start (take m l) <=? s then take m l ++ [(s, d)] else l)).
  { rewrite <- (take_drop m l) at 3. apply (greedy_insert A A' (s, d) Ap Pos); auto; [intros q Hq'; apply Last; auto|]. now rewrite take_drop. }
  assert (E : forall b : bool, (match m with O => Ok true | S k => o ← peek (fa_out a) (Z.of_nat k); p ← require o; Ok (w64 (fst p + snd p) <=? s) end) = Ok (last_end start (take m l) <=? s)).
  { intros _. destruct m as [|k]; [change (last_end start (take 0 l)) with start; now rewrite (proj2 (Z.leb_le _ _) Hs)|]. destruct (array_at a l k Ha) as (z & Ez & ->); [lia|]. cbn [mbind outcome_bind require]. unfold last_end. rewrite (take_S_r _ _ _ Ez), last_snoc.
    rewrite Forall_forall in FA. apply list_elem_of_lookup_2, FA in Ez as Az. pose proof (Last z Az). assert (0 < snd z) by (apply Pos, Ap; auto). now rewrite w64_id by lia. }
  rewrite (E true). cbn [mbind outcome_bind]. destruct (last_end start (take m l) <=? s).
  - destruct (push_out_spec (s, d) (mkAll (Z.of_nat m) (fa_out a))) as (a' & -> & B1 & B2 & B3); [cbn; lia|]. cbn [fa_m fa_out] in *. exists a', (take m l ++ [(s, d)]). split; auto. split; auto. unfold array_of. rewrite B3, length_app, length_take, map_app, <- firstn_map. splits; [lia|lia| |cbn; lia].
    f_equal. rewrite <- H2, take_take. f_equal. lia.
  - exists a, l. auto.
Qed.

(** ** The search *)
Lemma suffix_shorter (x u w : word) : x `suffix_of` w -> u `suffix_of` w -> len x <= len u -> x `suffix_of` u.
Proof.
  intros Sx Su L. destruct (suffix_weak_total x u w Sx Su) as [S|S]; auto. destruct S as [k ->]. rewrite length_app in L. destruct k; [reflexivity|cbn in L; lia].
Qed.
Section Search.
Variables (pats ws : list word) (ns : list ACNode) (hay : list Z) (start n : Z).
Hypotheses (K : compiled pats ns ws) (N0 : [] ∉ pats) (Hs : 0 <= start) (Hn : n <= len hay) (Hl : len hay < 2 ^ 64).
Notation M := (matches pats hay start n).
Notation txt := (text hay start).
(** The matches that end by [i], or behind it and are longer than [k]. *)
Definition upto (i k : Z) (p : Z * Z) : Prop := M p /\ (fst p + snd p <= i \/ fst p + snd p = i + 1 /\ k < snd p).
Lemma ac_add_all_spec i : start <= i < n -> forall fuel r u a l, ws !! r = Some u -> u `suffix_of` lsuf ws (txt (i + 1)) -> (length u <= fuel)%nat -> array_of a l -> all_matches (upto i (len u)) start l ->
  exists a' l', ac_add_all fuel ns (i + 1) r a = Ok a' /\ array_of a' l' /\ all_matches (upto (i + 1) (n + 1)) start l'.
Proof.
  intros Hi. pose proof (K_closed _ _ _ K) as C. pose proof (compiled_trie _ _ _ K) as T. assert (P : forall x, x ∈ pats -> x ∈ ws) by apply (compiled_pats _ _ _ K).
  pose proof (fun p => match_ends pats ws ns hay start n K Hs Hn (i + 1) p ltac:(lia)) as E. pose proof (match_pos pats hay start n N0) as MP. pose proof (len_lsuf ws hay start n Hs Hn (i + 1) ltac:(lia)) as Ll.
  assert (Done : forall u l, ~ ends pats u -> u `suffix_of` lsuf ws (txt (i + 1)) -> all_matches (upto i (len u)) start l -> all_matches (upto (i + 1) (n + 1)) start l).
  { intros u l Ne Su H. eapply all_matches_proper; [|reflexivity|reflexivity|exact H]. intros p. unfold upto. split; intros [Mp D]; split; auto; specialize (MP p Mp); [|left; lia]. destruct D as [D|D]; [|lia]. destruct (Z.eq_dec (fst p + snd p) (i + 1)) as [Ei|]; [right; split; auto|left; lia].
    destruct (proj1 (E p) (conj Mp Ei)) as (x & X1 & X2 & X3 & X4). destruct (Z_lt_le_dec (len u) (snd p)); auto. destruct Ne. exists x. split; auto. apply (suffix_shorter x u _ X3 Su). lia. }
  induction fuel as [|fuel IH]; intros r u a l Er Su Hf Ha H; destruct (K_node _ _ _ K r u Er) as (rn & En & [Dr _] & (_ & _ & Hz)); cbn [ac_add_all]; rewrite En; cbn [mbind outcome_bind]; destruct (Z.eqb_spec (final rn) 0) as [Z0|Nz].
  1,3: exists a, l; splits; auto; apply (Done u); auto; intros He; now apply Hz in He.
  - exfalso. apply Hz in Nz. destruct u; [now apply ends_nil in Nz|cbn in Hf; lia].
  - apply Hz in Nz as He. assert (Lu : (length u <= length ns)%nat) by (rewrite (trie_len _ _ T); apply list_elem_of_lookup_2, (trie_depth _ _ T) in Er; lia).
    destruct (ac_real_spec pats ws ns hay K N0 (length ns) r u Er He Lu) as (r' & v & -> & Ev & (V1 & V2 & V3)). cbn [mbind outcome_bind]. destruct (K_node _ _ _ K r' v Ev) as (rn' & -> & [Dv _] & ((h & Eh & Ew) & _)). cbn [mbind outcome_bind]. rewrite Dv, Eh. cbn [require].
    assert (Mv : M (i + 1 - len v, len v) /\ i + 1 - len v + len v = i + 1) by (apply (E (i + 1 - len v, len v)); exists v; splits; auto; etrans; [exact V2|exact Su]). destruct Mv as [Mv _]. pose proof (MP _ Mv) as Pv. cbn [fst snd] in Pv. rewrite (w64_id (i + 1 - len v)) by lia.
    pose proof (suffix_length _ _ V2) as Lv. assert (Nv : v <> []) by (intros ->; contradiction). pose proof (lsuf_tail ws v Nv) as Lt.
    destruct (ac_add_match_spec (upto i (len u)) (upto i (len (lsuf ws (tail v)))) start (i + 1 - len v) (len v) a l) as (a' & l' & -> & Ha' & H'); auto; try lia.
    + intros q. unfold upto. split; [intros [Mq D]|intros [[Mq D]| ->]].
      * destruct (Z_le_gt_dec (fst q + snd q) i) as [L|G]; [auto|]. destruct D as [D|[Dq D]]; [lia|]. destruct (proj1 (E q) (conj Mq Dq)) as (y & Y1 & Y2 & Y3 & Y4).
        destruct (Z_lt_le_dec (len u) (snd q)) as [|Ly]; [auto|]. right. assert (Yu : y `suffix_of` u) by (apply (suffix_shorter y u _ Y3 Su); lia). specialize (V3 y Y1 Yu).
        destruct (decide (len y = len v)) as [El|Nl]; [destruct q; cbn [fst snd] in *; f_equal; lia|]. exfalso. assert (Yt : y `suffix_of` tail v).
        { destruct v as [|b v]; [done|]. destruct y as [|b' y]; [apply suffix_nil|]. apply suffix_cons_inv in V3 as [[= -> ->]|V3]; [done|exact V3]. }
        apply (lsuf_max ws) in Yt; auto. apply suffix_length in Yt. lia.
      * split; auto. destruct D as [D|[D1 D2]]; [auto|right; split; auto; lia].
      * split; auto. right. cbn. split; lia.
    + intros q [Mq _]. now apply MP in Mq.
    + intros q [Mq D]. specialize (MP q Mq). lia.
    + cbn [mbind outcome_bind]. apply (IH h (lsuf ws (tail v)) a' l'); auto; [|lia]. etrans; [apply lsuf_suffix|]. etrans; [|exact Su]. etrans; [|exact V2]. destruct v as [|b v]; [done|]. now apply suffix_cons_r.
Qed.
Definition all_inv (s : ACFindAllState) : Prop :=
  aa_len s = n /\ start <= aa_pos s <= n /\ ws !! aa_q s = Some (lsuf ws (txt (aa_pos s))) /\ exists l, array_of (aa_found s) l /\ all_matches (upto (aa_pos s) (n + 1)) start l.
Definition all_result (r : ac_all_result) : Prop :=
  match r with
  | AC_OK a => exists l, l <> [] /\ array_of a l /\ all_matches M start l
  | AC_NONE_FOUND => all_matches M start []
  | AC_ALL_RESTART s => all_inv s
  end.
Lemma restore_inv s : all_inv s -> all_inv (ac_restore_find_all s).
Proof. intros (H1 & H2 & H3 & l & H4 & H5). unfold all_inv, ac_restore_find_all. cbn. splits; auto; try lia. exists l. split; auto. now apply array_restore. Qed.
Lemma ac_all_spec k : forall i q reds a l, k = Z.to_nat (n - i) -> start <= i <= n -> ws !! q = Some (lsuf ws (txt i)) -> array_of a l -> all_matches (upto i (n + 1)) start l -> 1 <= reds < 2 ^ 64 ->
  exists r, ac_all_loop k ns hay n i q reds a = Ok r /\ all_result r /\ match r with AC_ALL_RESTART s => i <= aa_pos s < n /\ (2 <= reds -> i < aa_pos s) | _ => True end.
Proof.
  pose proof (match_pos pats hay start n N0) as MP. induction k as [|k IH]; intros i q reds a l Hk Hi Eq Ha H Hr; cbn [ac_all_loop].
  - assert (A : all_matches M start l) by (eapply all_matches_proper; [|reflexivity|reflexivity|exact H]; intros p; unfold upto; split; [intros Mp; specialize (MP p Mp); split; auto; left; lia|tauto]). pose proof Ha as (_ & _ & Hm).
    eexists. split; [reflexivity|]. destruct (Z.eqb_spec (fa_m a) 0) as [Z0|N]; cbn; [|split; auto; exists l; splits; auto; intros ->; cbn in Hm; lia]. destruct l; [auto|cbn in Hm; lia].
  - rewrite (w64_id (reds - 1)) by lia. destruct (Z.eqb_spec (reds - 1) 0) as [R|R].
    + eexists. split; [reflexivity|]. cbn. unfold all_inv. cbn. splits; eauto; lia.
    + rewrite peek_elt by lia. cbn [mbind outcome_bind]. destruct (text_step pats ws ns hay start n K Hs Hn q i Eq ltac:(lia)) as (p & -> & Ep). cbn [mbind outcome_bind].
      assert (Lp : (length (lsuf ws (txt (i + 1))) <= length ns)%nat) by (pose proof (compiled_trie _ _ _ K) as T; rewrite (trie_len _ _ T); apply list_elem_of_lookup_2, (trie_depth _ _ T) in Ep; lia).
      destruct (ac_add_all_spec i ltac:(lia) (length ns) p _ a l Ep ltac:(reflexivity) Lp Ha) as (a' & l' & -> & Ha' & H').
      { eapply all_matches_proper; [|reflexivity|reflexivity|exact H]. intros r. unfold upto. split; intros [Mr D]; split; auto; specialize (MP r Mr); [|lia]. destruct D as [D|[D1 D2]]; [auto|]. right. pose proof (match_ends pats ws ns hay start n K Hs Hn (i + 1) r ltac:(lia)) as E. destruct (proj1 E (conj Mr D1)) as (x & X1 & X2 & X3 & X4). apply suffix_length in X3. lia. }
      cbn [mbind outcome_bind]. destruct (IH (i + 1) p (reds - 1) a' l') as (r & -> & P1 & P2); auto; [lia|lia|lia|]. exists r. splits; auto. destruct r; auto. lia.
Qed.
End Search.
