(* ===== verification/CopyBits.v ===== *)
(** Copying bits (erts_copy_bits, erl_bits.c), and which bits are copied, for equal and for
    different offsets. *)

From S2P Require Import Prelude.
From stdpp Require Import base option list.
From S2P Require Import Memory BoyerMoore BmSearch.
Local Open Scope Z_scope.

(** ** Copying bits *)
Definition BYTE_OFFSET (ofs : Z) : Z := Z.shiftr ofs 3.
Definition BIT_OFFSET (ofs : Z) : Z := Z.land ofs 7.
Definition MAKE_MASK (n : Z) : Z := w64 (Z.shiftl 1 n) - 1.
Definition MASK_BITS (src dst mask : Z) : Z := Z.lor (Z.land src mask) (Z.land dst (Z.lnot mask)).
(** A byte of memory is set to the low bits of a word. *)
Definition put (d v : Z) (dst : list Z) : outcome (list Z) := poke d (Z.land v 0xff) dst.
(** The bits outside the mask are kept. *)
Definition put_masked (d v mask : Z) (dst : list Z) : outcome (list Z) := old ← peek dst d; put d (MASK_BITS v old mask) dst.

(** All bits are in one byte. *)
Definition copy_in_byte (src : list Z) (s soffs sdir : Z) (dst : list Z) (d doffs n mask : Z) : outcome (list Z) :=
  b ← peek src s;
  if soffs =? doffs then put_masked d b mask dst
  else if soffs >? doffs then
    let bits := Z.shiftl b (soffs - doffs) in
    bits ← (if soffs + n >? 8 then c ← peek src (s + sdir); Ok (Z.lor bits (Z.shiftr c (8 - (soffs - doffs)))) else Ok bits);
    put_masked d bits mask dst
  else put_masked d (Z.shiftr b (doffs - soffs)) mask dst.
Fixpoint copy_bytes (count : nat) (src : list Z) (s sdir : Z) (dst : list Z) (d ddir : Z) : outcome (list Z * Z * Z) :=
  match count with
  | O => Ok (dst, s, d)
  | S count => b ← peek src s; dst ← put d b dst; copy_bytes count src (s + sdir) sdir dst (d + ddir) ddir
  end.
Definition copy_same_offset (count : nat) (src : list Z) (s sdir : Z) (dst : list Z) (d ddir lmask rmask : Z) : outcome (list Z) :=
  '(dst, s, d) ← (if lmask =? 0 then Ok (dst, s, d) else b ← peek src s; dst ← put_masked d b lmask dst; Ok (dst, s + sdir, d + ddir));
  '(dst, s, d) ← copy_bytes count src s sdir dst d ddir;
  if rmask =? 0 then Ok dst else b ← peek src s; put_masked d b rmask dst.
Fixpoint copy_shifted (count : nat) (src : list Z) (s sdir bits lshift : Z) (dst : list Z) (d ddir : Z) : outcome (list Z * Z * Z * Z) :=
  match count with
  | O => Ok (dst, s, d, bits)
  | S count =>
      let bits1 := Z.shiftl bits lshift in
      bits ← peek src s;
      dst ← put d (Z.lor bits1 (Z.shiftr bits (8 - lshift))) dst;
      copy_shifted count src (s + sdir) sdir bits lshift dst (d + ddir) ddir
  end.
Definition copy_other_offset (count : nat) (src : list Z) (s soffs sdir : Z) (dst : list Z) (d doffs ddir n lmask rmask : Z) : outcome (list Z) :=
  '(lshift, bits, s) ← (if soffs >? doffs then b ← peek src s; Ok (soffs - doffs, b, if soffs + n >? 8 then s + sdir else s) else Ok (8 - (doffs - soffs), 0, s));
  let rshift := 8 - lshift in
  '(dst, s, d, bits) ← (if lmask =? 0 then Ok (dst, s, d, bits)
    else
      let bits1 := Z.shiftl bits lshift in
      bits ← peek src s;
      dst ← put_masked d (Z.lor bits1 (Z.shiftr bits rshift)) lmask dst;
      Ok (dst, s + sdir, d + ddir, bits));
  '(dst, s, d, bits) ← copy_shifted count src s sdir bits lshift dst d ddir;
  if rmask =? 0 then Ok dst
  else
    let bits1 := Z.shiftl bits lshift in
    bits1 ← (if Z.land (Z.shiftl rmask rshift) 0xff =? 0 then Ok bits1 else bits ← peek src s; Ok (Z.lor bits1 (Z.shiftr bits rshift)));
    put_masked d bits1 rmask dst.
(** [n] bits are copied from an offset at the byte [sp] of [src] to one at the byte [dp] of
    [dst]. *)
Definition erts_copy_bits (src : list Z) (sp soffs sdir : Z) (dst : list Z) (dp doffs ddir n : Z) : outcome (list Z) :=
  if n =? 0 then Ok dst
  else
    let s := sp + sdir * BYTE_OFFSET soffs in
    let d := dp + ddir * BYTE_OFFSET doffs in
    let soffs := BIT_OFFSET soffs in
    let doffs := BIT_OFFSET doffs in
    let deoffs := BIT_OFFSET (doffs + n) in
    let lmask := if doffs =? 0 then 0 else MAKE_MASK (8 - doffs) in
    let rmask := if deoffs =? 0 then 0 else Z.shiftl (MAKE_MASK deoffs) (8 - deoffs) in
    if doffs + n <? 8 then copy_in_byte src s soffs sdir dst d doffs n (if Z.land lmask rmask =? 0 then Z.lor lmask rmask else Z.land lmask rmask)
    else
      let count := Z.to_nat (Z.shiftr (if lmask =? 0 then n else n - (8 - doffs)) 3) in
      if soffs =? doffs then copy_same_offset count src s sdir dst d ddir lmask rmask
      else copy_other_offset count src s soffs sdir dst d doffs ddir n lmask rmask.

(** The bits of bytes, the most significant one of a byte first. *)
Definition bit (l : list Z) (k : Z) : bool := Z.testbit (elt l (k / 8)) (7 - k mod 8).
Lemma elt_byte l i : bytes l -> 0 <= elt l i < 256.
Proof.
  intros F. unfold elt. destruct (l !! Z.to_nat i) as [v|] eqn:E; cbn; [|lia]. rewrite Forall_forall in F. apply F, list_elem_of_lookup. eauto.
Qed.
Lemma byte_high b i : 0 <= b < 256 -> 8 <= i -> Z.testbit b i = false.
Proof. intros Hb Hi. destruct (Z.eq_dec b 0) as [->|N]; [apply Z.testbit_0_l|]. apply Z.bits_above_log2; [lia|]. apply Z.log2_lt_pow2; [lia|]. apply (Z.lt_le_trans _ (2 ^ 8)); [lia|]. apply Z.pow_le_mono_r; lia. Qed.
Lemma put_byte_spec d v dst : 0 <= d < len dst -> bytes dst -> exists dst', put d v dst = Ok dst' /\ length dst' = length dst /\ bytes dst' /\ forall k, 0 <= k -> bit dst' k = if k / 8 =? d then Z.testbit v (7 - k mod 8) else bit dst k.
Proof.
  intros Hd F. unfold put. rewrite poke_ok by auto. eexists. split; [reflexivity|]. change 0xff with (Z.ones 8). split; [apply length_insert|]. split.
  - apply Forall_insert; auto. rewrite Z.land_ones by lia. apply Z.mod_pos_bound. lia.
  - intros k Hk. unfold bit. rewrite elt_insert by lia. rewrite Z.eqb_sym. destruct (Z.eqb_spec (k / 8) d); [|auto]. rewrite Z.land_spec, Z.ones_spec_low, andb_true_r by lia. reflexivity.
Qed.
Lemma put_masked_spec d v mask dst : 0 <= d < len dst -> bytes dst -> exists dst', put_masked d v mask dst = Ok dst' /\ length dst' = length dst /\ bytes dst' /\
  forall k, 0 <= k -> bit dst' k = if (k / 8 =? d) && Z.testbit mask (7 - k mod 8) then Z.testbit v (7 - k mod 8) else bit dst k.
Proof.
  intros Hd F. unfold put_masked. rewrite peek_elt by auto. cbn [mbind outcome_bind]. destruct (put_byte_spec d (MASK_BITS v (elt dst d) mask) dst Hd F) as (dst' & -> & L & B & H). exists dst'. splits; auto.
  intros k Hk. rewrite H by auto. destruct (Z.eqb_spec (k / 8) d) as [<-|N]; [|auto]. cbn [andb]. unfold MASK_BITS. rewrite Z.lor_spec, !Z.land_spec, Z.lnot_spec by lia. unfold bit. destruct (Z.testbit mask (7 - k mod 8)); cbn [negb]; rewrite ?andb_true_r, ?andb_false_r, ?orb_false_r; auto.
Qed.
Lemma lmask_spec doffs j : 0 <= doffs < 8 -> 0 <= j < 8 -> Z.testbit (MAKE_MASK (8 - doffs)) (7 - j) = (doffs <=? j).
Proof.
  intros Hd Hj. unfold MAKE_MASK. rewrite Z.shiftl_1_l, w64_id by (split; [lia|apply (Z.le_lt_trans _ (2 ^ 8)); [apply Z.pow_le_mono_r; lia|reflexivity]]).
  replace (2 ^ (8 - doffs) - 1) with (Z.ones (8 - doffs)) by (rewrite Z.ones_equiv; lia). destruct (Z.leb_spec doffs j); [apply Z.ones_spec_low|apply Z.ones_spec_high]; lia.
Qed.
Lemma rmask_spec deoffs j : 0 <= deoffs < 8 -> 0 <= j < 8 -> Z.testbit (Z.shiftl (MAKE_MASK deoffs) (8 - deoffs)) (7 - j) = (j <? deoffs).
Proof.
  intros Hd Hj. rewrite Z.shiftl_spec by lia. destruct (Z.ltb_spec j deoffs).
  - replace (7 - j - (8 - deoffs)) with (7 - (8 - deoffs + j)) by lia. replace deoffs with (8 - (8 - deoffs)) at 1 by lia. rewrite lmask_spec by lia. lia.
  - apply Z.testbit_neg_r. lia.
Qed.
Lemma lmask_0 doffs : 0 <= doffs < 8 -> (MAKE_MASK (8 - doffs) =? 0) = false.
Proof. intros H. apply Z.eqb_neq. intros E. pose proof (lmask_spec doffs 7 H ltac:(lia)) as B. rewrite E, Z.testbit_0_l in B. lia. Qed.
Lemma rmask_0 deoffs : 0 < deoffs < 8 -> (Z.shiftl (MAKE_MASK deoffs) (8 - deoffs) =? 0) = false.
Proof. intros H. apply Z.eqb_neq. intros E. pose proof (rmask_spec deoffs 0 ltac:(lia) ltac:(lia)) as B. rewrite E, Z.testbit_0_l in B. lia. Qed.

Section Copy.
Variables (src dst : list Z) (delta lo : Z).
Hypotheses (Fs : bytes src) (Hlo : 0 <= lo).
(** The bits from [lo] to [hi] are those of the source, the others as they were. *)
Definition copied (hi : Z) (dst' : list Z) : Prop :=
  length dst' = length dst /\ bytes dst' /\ forall k, 0 <= k -> bit dst' k = if (lo <=? k) && (k <? hi) then bit src (k + delta) else bit dst k.
(** The bits of a byte that is put together from two. *)
Lemma shifted_byte s lshift j : 0 <= s -> 0 < lshift < 8 -> 0 <= j < 8 -> Z.testbit (Z.lor (Z.shiftl (elt src s) lshift) (Z.shiftr (elt src (s + 1)) (8 - lshift))) (7 - j) = bit src (8 * s + lshift + j).
Proof.
  intros Hs Hl Hj. rewrite Z.lor_spec, Z.shiftl_spec, Z.shiftr_spec by lia. unfold bit. destruct (Z_lt_le_dec (lshift + j) 8) as [L|L].
  - replace ((8 * s + lshift + j) / 8) with s by (apply (Z.div_unique _ _ _ (lshift + j)); lia). replace ((8 * s + lshift + j) mod 8) with (lshift + j) by (apply (Z.mod_unique _ _ s); lia).
    rewrite (byte_high (elt src (s + 1))), orb_false_r by (try apply elt_byte; auto; lia). f_equal. lia.
  - replace ((8 * s + lshift + j) / 8) with (s + 1) by (apply (Z.div_unique _ _ _ (lshift + j - 8)); lia). replace ((8 * s + lshift + j) mod 8) with (lshift + j - 8) by (apply (Z.mod_unique _ _ (s + 1)); lia).
    rewrite (Z.testbit_neg_r (elt src s)) by lia. cbn [orb]. f_equal. lia.
Qed.
Lemma copied_more hi hi' dst1 dst2 d (P : Z -> bool) (v : Z) : copied hi dst1 -> 0 <= d -> length dst2 = length dst1 -> bytes dst2 ->
  (forall k, 0 <= k -> bit dst2 k = if (k / 8 =? d) && P (k mod 8) then Z.testbit v (7 - k mod 8) else bit dst1 k) ->
  (forall j, 0 <= j < 8 -> P j = (hi <=? 8 * d + j) && (8 * d + j <? hi')) -> (forall j, 0 <= j < 8 -> P j = true -> Z.testbit v (7 - j) = bit src (8 * d + j + delta)) ->
  lo <= hi <= hi' -> 8 * d <= hi -> hi' <= 8 * d + 8 -> copied hi' dst2.
Proof.
  intros (L & B & H) Hd L2 B2 H2 HP Hv Hhi Hd1 Hd2. split; [congruence|]. split; [auto|]. intros k Hk. rewrite H2 by auto. pose proof (Z.div_mod k 8 ltac:(lia)) as E. pose proof (Z.mod_pos_bound k 8 ltac:(lia)) as Hm.
  destruct (Z.eqb_spec (k / 8) d) as [<-|N]; cbn [andb].
  - rewrite HP by auto. rewrite <- E. destruct ((hi <=? k) && (k <? hi')) eqn:C.
    + rewrite Hv by (auto; rewrite HP, <- E; auto). rewrite <- E. destruct ((lo <=? k) && (k <? hi')) eqn:C2; [reflexivity|lia].
    + rewrite H by auto. destruct ((lo <=? k) && (k <? hi)) eqn:C1, ((lo <=? k) && (k <? hi')) eqn:C2; auto; lia.
  - rewrite H by auto. destruct ((lo <=? k) && (k <? hi)) eqn:C1, ((lo <=? k) && (k <? hi')) eqn:C2; auto; lia.
Qed.
Lemma copied_byte hi dst1 d v : copied hi dst1 -> hi = 8 * d -> lo <= hi -> 0 <= d < len dst -> (forall j, 0 <= j < 8 -> Z.testbit v (7 - j) = bit src (8 * d + j + delta)) ->
  exists dst2, put d v dst1 = Ok dst2 /\ copied (8 * d + 8) dst2.
Proof.
  intros C -> Hl Hd Hv. pose proof C as (L & B & _). destruct (put_byte_spec d v dst1) as (dst2 & E & L2 & B2 & H2); [lia|auto|]. exists dst2. split; auto. apply (copied_more (8 * d) _ dst1 dst2 d (fun _ => true) v C); auto; try lia.
  intros k Hk. now rewrite andb_true_r, H2.
Qed.
Lemma copied_masked hi hi' dst1 d v mask : copied hi dst1 -> lo <= hi <= hi' -> 8 * d <= hi -> hi' <= 8 * d + 8 -> 0 <= d < len dst -> (forall j, 0 <= j < 8 -> Z.testbit mask (7 - j) = (hi <=? 8 * d + j) && (8 * d + j <? hi')) ->
  (forall j, hi <= 8 * d + j < hi' -> 0 <= j < 8 -> Z.testbit v (7 - j) = bit src (8 * d + j + delta)) -> exists dst2, put_masked d v mask dst1 = Ok dst2 /\ copied hi' dst2.
Proof.
  intros C Hh H1 H2 Hd Hm Hv. pose proof C as (L & B & _). destruct (put_masked_spec d v mask dst1) as (dst2 & E & L2 & B2 & Hb); [lia|auto|]. exists dst2. split; auto. apply (copied_more hi _ dst1 dst2 d (fun j => Z.testbit mask (7 - j)) v C); auto; try lia.
  intros j Hj Hmj. apply Hv; auto. rewrite Hm in Hmj by auto. lia.
Qed.
Lemma copy_bytes_spec count : forall s dst1 d, copied (8 * d) dst1 -> lo <= 8 * d -> 0 <= d -> d + Z.of_nat count <= len dst -> 0 <= s -> s + Z.of_nat count <= len src -> delta = 8 * (s - d) ->
  exists dst2, copy_bytes count src s 1 dst1 d 1 = Ok (dst2, s + Z.of_nat count, d + Z.of_nat count) /\ copied (8 * (d + Z.of_nat count)) dst2.
Proof.
  induction count as [|count IH]; intros s dst1 d C Hl Hd Hd2 Hs Hs2 E; cbn [copy_bytes]; [exists dst1; rewrite !Z.add_0_r; auto|]. rewrite peek_elt by lia. cbn [mbind outcome_bind].
  destruct (copied_byte (8 * d) dst1 d (elt src s) C) as (dst2 & -> & C2); auto; [lia| |].
  { intros j Hj. unfold bit. replace ((8 * d + j + delta) / 8) with s by (apply (Z.div_unique _ _ _ j); lia). now replace ((8 * d + j + delta) mod 8) with j by (apply (Z.mod_unique _ _ s); lia). }
  cbn [mbind outcome_bind]. replace (8 * d + 8) with (8 * (d + 1)) in C2 by lia. destruct (IH (s + 1) dst2 (d + 1) C2) as (dst3 & -> & C3); try lia. exists dst3. replace (s + 1 + Z.of_nat count) with (s + Z.of_nat (S count)) by lia. replace (d + 1 + Z.of_nat count) with (d + Z.of_nat (S count)) in * by lia. auto.
Qed.
Lemma copy_shifted_spec lshift count : 0 < lshift < 8 -> forall s dst1 d, copied (8 * d) dst1 -> lo <= 8 * d -> 0 <= d -> d + Z.of_nat count <= len dst -> 1 <= s -> s + Z.of_nat count <= len src -> delta = 8 * (s - 1 - d) + lshift ->
  exists dst2, copy_shifted count src s 1 (elt src (s - 1)) lshift dst1 d 1 = Ok (dst2, s + Z.of_nat count, d + Z.of_nat count, elt src (s + Z.of_nat count - 1)) /\ copied (8 * (d + Z.of_nat count)) dst2.
Proof.
  intros Hls. induction count as [|count IH]; intros s dst1 d C Hl Hd Hd2 Hs Hs2 E; cbn [copy_shifted]; [exists dst1; rewrite !Z.add_0_r; auto|]. rewrite peek_elt by lia. cbn [mbind outcome_bind].
  destruct (copied_byte (8 * d) dst1 d (Z.lor (Z.shiftl (elt src (s - 1)) lshift) (Z.shiftr (elt src s) (8 - lshift))) C) as (dst2 & -> & C2); auto; [lia| |].
  { intros j Hj. replace (elt src s) with (elt src (s - 1 + 1)) by (f_equal; lia). rewrite shifted_byte by lia. f_equal. lia. }
  cbn [mbind outcome_bind]. replace (8 * d + 8) with (8 * (d + 1)) in C2 by lia. specialize (IH (s + 1) dst2 (d + 1) C2). replace (s + 1 - 1) with s in IH by lia. destruct IH as (dst3 & -> & C3); try lia. exists dst3.
  replace (s + 1 + Z.of_nat count) with (s + Z.of_nat (S count)) by lia. replace (d + 1 + Z.of_nat count) with (d + Z.of_nat (S count)) in * by lia. auto.
Qed.
(** The last byte needs a byte of the source that is not yet read. *)
Lemma rmask_needs deoffs lshift : 0 < deoffs < 8 -> 0 < lshift < 8 -> (Z.land (Z.shiftl (Z.shiftl (MAKE_MASK deoffs) (8 - deoffs)) (8 - lshift)) 0xff =? 0) = (deoffs + lshift <=? 8).
Proof.
  intros Hd Hl. change 0xff with (Z.ones 8). destruct (Z.leb_spec (deoffs + lshift) 8) as [L|L].
  - apply Z.eqb_eq, Z.bits_inj'. intros i Hi. rewrite Z.testbit_0_l, Z.land_spec. destruct (Z_lt_le_dec i 8) as [Li|Gi]; [|now rewrite Z.ones_spec_high, andb_false_r by lia]. rewrite (Z.shiftl_spec _ (8 - lshift)) by lia. destruct (Z_lt_le_dec i (8 - lshift)); [now rewrite Z.testbit_neg_r by lia|].
    replace (i - (8 - lshift)) with (7 - (7 - i + (8 - lshift))) by lia. destruct (Z_lt_le_dec (7 - i + (8 - lshift)) 8); [rewrite rmask_spec by lia; lia|now rewrite Z.testbit_neg_r by lia].
  - apply Z.eqb_neq. intros E. apply (f_equal (fun x => Z.testbit x 7)) in E. rewrite Z.testbit_0_l, Z.land_spec, (Z.shiftl_spec _ (8 - lshift)), Z.ones_spec_low, andb_true_r in E by lia. replace (7 - (8 - lshift)) with (7 - (8 - lshift)) in E by lia. rewrite rmask_spec in E by lia. lia.
Qed.
End Copy.
Lemma BIT_OFFSET_mod x : BIT_OFFSET x = x mod 8.
Proof. unfold BIT_OFFSET. change 7 with (Z.ones 3). now rewrite Z.land_ones by lia. Qed.

Section Bits.
Variables (src dst : list Z) (s so d do n : Z).
Hypotheses (Fs : bytes src) (Fd : bytes dst) (Hs : 0 <= s) (Hd : 0 <= d) (Hso : 0 <= so < 8) (Hdo : 0 <= do < 8) (Hn : 0 < n) (Es : 8 * s + so + n <= 8 * len src) (Ed : 8 * d + do + n <= 8 * len dst).
Notation delta := (8 * s + so - (8 * d + do)).
Notation lo := (8 * d + do).
Notation lmask := (if do =? 0 then 0 else MAKE_MASK (8 - do)).
Notation deoffs := (BIT_OFFSET (do + n)).
Notation rmask := (if deoffs =? 0 then 0 else Z.shiftl (MAKE_MASK deoffs) (8 - deoffs)).
Notation count := (Z.to_nat (Z.shiftr (if lmask =? 0 then n else n - (8 - do)) 3)).
Notation cp := (copied src dst delta lo).
Lemma deoffs_eq : 0 <= deoffs < 8 /\ exists q, do + n = 8 * q + deoffs.
Proof. rewrite BIT_OFFSET_mod. pose proof (Z.mod_pos_bound (do + n) 8). split; [lia|]. exists ((do + n) / 8). pose proof (Z.div_mod (do + n) 8). lia. Qed.
Lemma lmask_eq j : 0 <= j < 8 -> do <> 0 -> Z.testbit lmask (7 - j) = (do <=? j).
Proof. intros Hj N. rewrite (proj2 (Z.eqb_neq do 0) N). now apply lmask_spec. Qed.
Lemma rmask_eq j : 0 <= j < 8 -> deoffs <> 0 -> Z.testbit rmask (7 - j) = (j <? deoffs).
Proof. intros Hj N. rewrite (proj2 (Z.eqb_neq deoffs 0) N). apply rmask_spec; auto. apply deoffs_eq. Qed.
Lemma lmask_zero : (lmask =? 0) = (do =? 0).
Proof. destruct (Z.eqb_spec do 0); [reflexivity|]. now apply lmask_0. Qed.
Lemma rmask_zero : (rmask =? 0) = (deoffs =? 0).
Proof. destruct (Z.eqb_spec deoffs 0); [reflexivity|]. apply rmask_0. pose proof deoffs_eq. lia. Qed.
Lemma copied_start h : h = lo -> cp h dst.
Proof. intros ->. split; [auto|]. split; [auto|]. intros k Hk. destruct ((lo <=? k) && (k <? lo)) eqn:E; [lia|auto]. Qed.
Lemma copied_final hi dst' : hi = lo + n -> cp hi dst' -> cp (lo + n) dst'.
Proof. now intros ->. Qed.
(** The number of whole bytes. *)
Lemma count_eq : 8 <= do + n -> (if do =? 0 then 0 else 8 - do) + 8 * Z.of_nat count + deoffs = n.
Proof.
  intros H. destruct deoffs_eq as (Hde & q & E). rewrite lmask_zero. rewrite Z.shiftr_div_pow2 by lia. change (2 ^ 3) with 8. destruct (Z.eqb_spec do 0).
  - replace (n / 8) with q by (apply (Z.div_unique _ _ _ deoffs); lia). lia.
  - replace ((n - (8 - do)) / 8) with (q - 1) by (apply (Z.div_unique _ _ _ deoffs); lia). lia.
Qed.
Lemma src_bit k i : 0 <= i < 8 -> k = 8 * (k / 8) + i -> bit src k = Z.testbit (elt src (k / 8)) (7 - i).
Proof. intros Hi E. unfold bit. do 2 f_equal. rewrite Z.mod_eq by lia. lia. Qed.
Lemma bit_at x i : 0 <= i < 8 -> bit src (8 * x + i) = Z.testbit (elt src x) (7 - i).
Proof. intros Hi. unfold bit. replace ((8 * x + i) / 8) with x by (apply (Z.div_unique _ _ _ i); lia). now replace ((8 * x + i) mod 8) with i by (apply (Z.mod_unique _ _ x); lia). Qed.
Lemma copy_same_offset_spec : so = do -> 8 <= do + n -> exists dst', copy_same_offset count src s 1 dst d 1 lmask rmask = Ok dst' /\ cp (lo + n) dst'.
Proof.
  intros Eo H8. pose proof (count_eq H8) as Ec. destruct deoffs_eq as (Hde & _). unfold copy_same_offset. set (k := count) in *. rewrite lmask_zero, rmask_zero.
  assert (L : exists dst1 s1 d1, (if do =? 0 then Ok (dst, s, d) else b ← peek src s; dst ← put_masked d b lmask dst; Ok (dst, s + 1, d + 1)) = Ok (dst1, s1, d1) /\ cp (8 * d1) dst1 /\ s1 - s = d1 - d /\ 8 * d1 = 8 * d + do + (if do =? 0 then 0 else 8 - do)).
  { destruct (Z.eqb_spec do 0) as [E0|N0]; [exists dst, s, d; splits; auto; try lia; apply copied_start; lia|]. rewrite peek_elt by lia. cbn [mbind outcome_bind].
    destruct (copied_masked src dst delta lo lo (8 * d + 8) dst d (elt src s) (MAKE_MASK (8 - do))) as (dst1 & -> & C1); try lia; [now apply copied_start| | |].
    - intros j Hj. rewrite lmask_spec by lia. lia.
    - intros j Hj Hj8. rewrite <- (bit_at s j) by lia. f_equal. lia.
    - cbn [mbind outcome_bind]. exists dst1, (s + 1), (d + 1). replace (8 * (d + 1)) with (8 * d + 8) by lia. splits; auto; lia. }
  destruct L as (dst1 & s1 & d1 & -> & C1 & E1 & E2). cbn [mbind outcome_bind]. destruct (copy_bytes_spec src dst delta lo k s1 dst1 d1 C1) as (dst2 & -> & C2); try (destruct (Z.eqb_spec do 0); lia). cbn [mbind outcome_bind].
  destruct (Z.eqb_spec deoffs 0) as [E0|N0]; [exists dst2; split; auto; revert C2; apply copied_final; lia|]. rewrite peek_elt by (destruct (Z.eqb_spec do 0); lia). cbn [mbind outcome_bind].
  destruct (copied_masked src dst delta lo (8 * (d1 + Z.of_nat k)) (lo + n) dst2 (d1 + Z.of_nat k) (elt src (s1 + Z.of_nat k)) (Z.shiftl (MAKE_MASK deoffs) (8 - deoffs))) as (dst3 & -> & C3); auto; try (destruct (Z.eqb_spec do 0); lia).
  - intros j Hj. rewrite rmask_spec by lia. lia.
  - intros j Hj Hj8. rewrite <- (bit_at _ j) by lia. f_equal. lia.
  - eauto.
Qed.
(** The bits of a byte of the destination that come from the source byte [x] and the one before
    it. *)
Lemma shifted_from x b lshift j : 0 < lshift < 8 -> 8 - lshift <= j < 8 -> Z.testbit (Z.lor (Z.shiftl b lshift) (Z.shiftr (elt src x) (8 - lshift))) (7 - j) = bit src (8 * x + (j - (8 - lshift))).
Proof. intros Hl Hj. rewrite bit_at by lia. rewrite Z.lor_spec, Z.shiftl_spec, Z.shiftr_spec by lia. rewrite (Z.testbit_neg_r b) by lia. cbn [orb]. f_equal. lia. Qed.
Lemma copy_other_offset_spec : so <> do -> 8 <= do + n -> exists dst', copy_other_offset count src s so 1 dst d do 1 n lmask rmask = Ok dst' /\ cp (lo + n) dst'.
Proof.
  intros No H8. pose proof (count_eq H8) as Ec. destruct deoffs_eq as (Hde & _). unfold copy_other_offset. set (k := count) in *. rewrite lmask_zero, rmask_zero.
  assert (L : exists lshift bits s1, (if so >? do then b ← peek src s; Ok (so - do, b, if so + n >? 8 then s + 1 else s) else Ok (8 - (do - so), 0, s)) = Ok (lshift, bits, s1) /\ 0 < lshift < 8 /\ 8 * (s1 - 1) + lshift = 8 * d + delta /\ s <= s1 /\ (do = 0 \/ s < s1 -> 1 <= s1 /\ bits = elt src (s1 - 1)) /\ (s1 = s -> 8 - lshift <= do)).
  { rewrite Z.gtb_ltb. destruct (Z.ltb_spec do so).
    - rewrite peek_elt by lia. cbn [mbind outcome_bind]. rewrite (proj2 (Z.gtb_lt (so + n) 8)) by lia. eexists _, _, _. split; [reflexivity|]. splits; try lia. replace (s + 1 - 1) with s by lia. split; [lia|auto].
    - eexists _, _, _. split; [reflexivity|]. splits; lia. }
  destruct L as (lshift & bits & s1 & -> & Hl & Eq & Hs1 & Hb & Hb0). cbn [mbind outcome_bind]. cbv zeta.
  assert (L : exists dst1 s2 d1 bits1, (if do =? 0 then Ok (dst, s1, d, bits) else b ← peek src s1; dst ← put_masked d (Z.lor (Z.shiftl bits lshift) (Z.shiftr b (8 - lshift))) lmask dst; Ok (dst, s1 + 1, d + 1, b)) = Ok (dst1, s2, d1, bits1) /\
    cp (8 * d1) dst1 /\ 1 <= s2 /\ bits1 = elt src (s2 - 1) /\ 8 * (s2 - 1) + lshift = 8 * d1 + delta /\ 8 * d1 = 8 * d + do + (if do =? 0 then 0 else 8 - do)).
  { destruct (Z.eqb_spec do 0) as [E0|N0]; [destruct Hb; [auto|]; exists dst, s1, d, bits; splits; auto; try lia; apply copied_start; lia|]. rewrite peek_elt by lia. cbn [mbind outcome_bind].
    destruct (copied_masked src dst delta lo lo (8 * d + 8) dst d (Z.lor (Z.shiftl bits lshift) (Z.shiftr (elt src s1) (8 - lshift))) (MAKE_MASK (8 - do))) as (dst1 & -> & C1); try lia; [now apply copied_start| | |].
    - intros j Hj. rewrite lmask_spec by lia. lia.
    - intros j Hj Hj8. destruct (Z.eq_dec s1 s) as [->|N]; [rewrite shifted_from by lia; f_equal; lia|]. destruct Hb as [Hb1 ->]; [lia|]. replace (elt src s1) with (elt src (s1 - 1 + 1)) by (f_equal; lia). rewrite shifted_byte by (auto; lia). f_equal. lia.
    - cbn [mbind outcome_bind]. exists dst1, (s1 + 1), (d + 1), (elt src s1). replace (8 * (d + 1)) with (8 * d + 8) by lia. replace (s1 + 1 - 1) with s1 by lia. splits; auto; lia. }
  destruct L as (dst1 & s2 & d1 & bits1 & -> & C1 & Hs2 & -> & E1 & E2). cbn [mbind outcome_bind]. destruct (copy_shifted_spec src dst delta lo Fs lshift k Hl s2 dst1 d1 C1) as (dst2 & -> & C2); try (destruct (Z.eqb_spec do 0); lia). cbn [mbind outcome_bind].
  destruct (Z.eqb_spec deoffs 0) as [E0|N0]; [exists dst2; split; auto; revert C2; apply copied_final; lia|]. cbv zeta. rewrite rmask_needs by lia.
  set (x := s2 + Z.of_nat k) in *. set (v := if deoffs + lshift <=? 8 then Z.shiftl (elt src (x - 1)) lshift else Z.lor (Z.shiftl (elt src (x - 1)) lshift) (Z.shiftr (elt src x) (8 - lshift))).
  replace (if deoffs + lshift <=? 8 then Ok (Z.shiftl (elt src (x - 1)) lshift) else _) with (Ok v).
  2: { unfold v. destruct (Z.leb_spec (deoffs + lshift) 8); [reflexivity|]. rewrite peek_elt by (destruct (Z.eqb_spec do 0); lia). reflexivity. }
  cbn [mbind outcome_bind].
  destruct (copied_masked src dst delta lo (8 * (d1 + Z.of_nat k)) (lo + n) dst2 (d1 + Z.of_nat k) v (Z.shiftl (MAKE_MASK deoffs) (8 - deoffs))) as (dst3 & -> & C3); auto; try (destruct (Z.eqb_spec do 0); lia).
  - intros j Hj. rewrite rmask_spec by lia. lia.
  - intros j Hj Hj8. unfold v. destruct (Z.leb_spec (deoffs + lshift) 8).
    + rewrite Z.shiftl_spec by lia. replace (7 - j - lshift) with (7 - (j + lshift)) by lia. rewrite <- bit_at by lia. f_equal. lia.
    + replace (elt src x) with (elt src (x - 1 + 1)) by (f_equal; lia). rewrite shifted_byte by (auto; lia). f_equal. lia.
  - eauto.
Qed.
Lemma copy_in_byte_spec : do + n < 8 -> exists dst', copy_in_byte src s so 1 dst d do n (if Z.land lmask rmask =? 0 then Z.lor lmask rmask else Z.land lmask rmask) = Ok dst' /\ cp (lo + n) dst'.
Proof.
  intros H8. assert (Ede : deoffs = do + n) by (rewrite BIT_OFFSET_mod; apply Z.mod_small; lia).
  set (mask := if Z.land lmask rmask =? 0 then _ else _). assert (Hm : forall j, 0 <= j < 8 -> Z.testbit mask (7 - j) = (do <=? j) && (j <? do + n)).
  { intros j Hj. pose proof (rmask_eq j Hj ltac:(lia)) as Rm. unfold mask. destruct (Z.eq_dec do 0) as [E0|N0].
    - replace (do =? 0) with true by lia. rewrite Z.land_0_l, Z.eqb_refl, Z.lor_0_l, Rm, Ede. lia.
    - pose proof (lmask_eq j Hj N0) as Lm. destruct (Z.eqb_spec (Z.land lmask rmask) 0) as [E|_].
      + exfalso. apply (f_equal (fun x => Z.testbit x (7 - do))) in E. rewrite Z.testbit_0_l, Z.land_spec, lmask_eq, rmask_eq in E by lia. lia.
      + rewrite Z.land_spec, Rm, Lm, Ede. reflexivity. }
  clearbody mask. assert (G : forall v, (forall j, do <= j < do + n -> Z.testbit v (7 - j) = bit src (8 * s + so + (j - do))) -> exists dst', put_masked d v mask dst = Ok dst' /\ cp (lo + n) dst').
  { intros v Hv. apply (copied_masked src dst delta lo lo (lo + n) dst d v mask); try lia; [now apply copied_start| |].
    - intros j Hj. rewrite Hm by auto. lia.
    - intros j Hj Hj8. rewrite Hv by lia. f_equal. lia. }
  unfold copy_in_byte. rewrite (peek_elt src s) by lia. cbn [mbind outcome_bind]. destruct (Z.eqb_spec so do) as [E|N].
  - apply G. intros j Hj. assert (0 <= j < 8) by lia. rewrite <- bit_at by assumption. f_equal. lia.
  - rewrite !Z.gtb_ltb. destruct (Z.ltb_spec do so); [destruct (Z.ltb_spec 8 (so + n))|].
    + rewrite peek_elt by lia. cbn [mbind outcome_bind]. apply G. intros j Hj. rewrite shifted_byte by (auto; lia). f_equal. lia.
    + cbn [mbind outcome_bind]. apply G. intros j Hj. rewrite Z.shiftl_spec by lia. replace (7 - j - (so - do)) with (7 - (j + (so - do))) by lia. rewrite <- bit_at by lia. f_equal. lia.
    + apply G. intros j Hj. rewrite Z.shiftr_spec by lia. replace (7 - j + (do - so)) with (7 - (j - (do - so))) by lia. rewrite <- bit_at by lia. f_equal. lia.
Qed.
End Bits.
(** The bits that are copied, and no others. *)
Lemma erts_copy_bits_spec src sp soffs dst dp doffs n : bytes src -> bytes dst -> 0 <= sp -> 0 <= soffs -> 0 <= dp -> 0 <= doffs -> 0 <= n -> 8 * sp + soffs + n <= 8 * len src -> 8 * dp + doffs + n <= 8 * len dst ->
  exists dst', erts_copy_bits src sp soffs 1 dst dp doffs 1 n = Ok dst' /\ copied src dst (8 * sp + soffs - (8 * dp + doffs)) (8 * dp + doffs) (8 * dp + doffs + n) dst'.
Proof.
  intros Fs Fd H1 H2 H3 H4 H5 H6 H7. unfold erts_copy_bits. destruct (Z.eqb_spec n 0) as [->|N].
  - exists dst. split; auto. split; [auto|]. split; [auto|]. intros k Hk. destruct ((8 * dp + doffs <=? k) && (k <? 8 * dp + doffs + 0)) eqn:E; [lia|auto].
  - assert (B : forall x, 0 <= x -> BYTE_OFFSET x = x / 8) by (intros x Hx; unfold BYTE_OFFSET; now rewrite Z.shiftr_div_pow2 by lia). rewrite !B, !Z.mul_1_l, (BIT_OFFSET_mod soffs), (BIT_OFFSET_mod doffs) by auto.
    pose proof (Z.mod_pos_bound soffs 8 ltac:(lia)). pose proof (Z.mod_pos_bound doffs 8 ltac:(lia)). pose proof (Z.div_mod soffs 8 ltac:(lia)). pose proof (Z.div_mod doffs 8 ltac:(lia)). pose proof (Z.div_pos soffs 8). pose proof (Z.div_pos doffs 8).
    replace (8 * sp + soffs) with (8 * (sp + soffs / 8) + soffs mod 8) in * by lia. replace (8 * dp + doffs) with (8 * (dp + doffs / 8) + doffs mod 8) in * by lia.
    destruct (Z.ltb_spec (doffs mod 8 + n) 8); [apply copy_in_byte_spec; auto; lia|]. destruct (Z.eqb_spec (soffs mod 8) (doffs mod 8)); [apply copy_same_offset_spec|apply copy_other_offset_spec]; auto; lia.
Qed.
