(* ===== verification/BinTerm.v ===== *)
(** Binaries with their offsets, the terms the functions get and return, the reductions they may
    use, and the bytes of a binary, [contents]. *)

From S2P Require Import Prelude.
From stdpp Require Import base option list.
From S2P Require Import Digits BigNum BigConv Memory BoyerMoore BmSearch AhoCorasick CopyBits.
Local Open Scope Z_scope.

(** ** Binaries *)
(** The bytes of the heap or reference-counted binary, the offsets of the sub
    binary in bytes and bits, its size in bytes, and the bits behind them. *)
Record binary := mkBinary { orig : list Z; b_offs : Z; bitoffs : Z; binary_size : Z; binary_bitsize : Z }.
Definition real_binary (bytes : list Z) : binary := mkBinary bytes 0 0 (len bytes) 0.
(** The byte at an index, put together from two when the binary has an offset in bits. *)
Definition get_byte (b : binary) (i : Z) : outcome Z :=
  if bitoffs b =? 0 then peek (orig b) (b_offs b + i)
  else
    c ← peek (orig b) (b_offs b + i);
    d ← peek (orig b) (b_offs b + i + 1);
    Ok (Z.land (Z.lor (Z.shiftl c (bitoffs b)) (Z.shiftr d (8 - bitoffs b))) 0xff).
(** The bytes that a loop may read: those of the binary itself, or a copy of them. *)
Definition erts_get_aligned_binary_bytes (b : binary) : outcome (option (list Z)) :=
  if negb (binary_bitsize b =? 0) then Ok None
  else if bitoffs b =? 0 then Ok (Some (take (Z.to_nat (binary_size b)) (drop (Z.to_nat (b_offs b)) (orig b))))
  else buf ← erts_copy_bits (orig b) (b_offs b) (bitoffs b) 1 (replicate (Z.to_nat (binary_size b)) 0) 0 0 1 (binary_size b * 8); Ok (Some buf).

(** ** Terms *)
(** What compiled patterns are kept in. *)
Inductive magic := BM_DATA (bm : BMData) | AC_DATA (act : ACTrie).
(** The atoms that are compared with; [am_other] is any other. *)
Inductive atom := am_scope | am_bm | am_ac | am_big | am_little | am_nomatch | am_other (index : Z).
#[export] Instance atom_eq_dec : EqDecision atom.
Proof. solve_decision. Defined.
Unset Elimination Schemes.
Inductive term := T_INT (t : eterm) | T_ATOM (a : atom) | T_NIL | T_LIST (hd tl : term) | T_TUPLE (ts : list term) | T_BINARY (b : binary) | T_MAGIC (m : magic) | T_OTHER.
Set Elimination Schemes.
(** A magic binary is one of size 0. *)
Definition binary_of (t : term) : option binary := match t with T_BINARY b => Some b | T_MAGIC _ => Some (real_binary []) | _ => None end.
Definition integer_of (t : term) : eterm := match t with T_INT t => t | _ => NIL end.
Definition is_list (t : term) : bool := match t with T_LIST _ _ => true | _ => false end.
Lemma list_term_ind (P : term -> Prop) : (forall t, is_list t = false -> P t) -> (forall hd tl, P tl -> P (T_LIST hd tl)) -> forall t, P t.
Proof. intros H1 H2. fix IH 1. intros [ | | |hd tl| | | | ]; try (now apply H1). apply H2, IH. Qed.
Definition Uint_of (t : term) : option Z := match term_to_Uint (integer_of t) with inl z => Some z | inr _ => None end.
Definition Sint_of (t : term) : option Z := term_to_Sint (integer_of t).
Definition T_INTEGER (z : Z) : term := T_INT (erts_make_integer z).
Inductive bif_return (A : Type) := BIF_RET (a : A) | BADARG.
Arguments BIF_RET {A} a. Arguments BADARG {A}.

(** ** Reductions *)
(** What a call may do, from the reductions that are left; [max_loop_limit] is for tests. *)
Definition get_reds (max_loop_limit left loop_factor : Z) : Z :=
  let reds := w64 (left * loop_factor) in
  if negb (max_loop_limit =? 0) && (max_loop_limit <? reds) then max_loop_limit else if reds =? 0 then 1 else reds.
(** The process is scheduled with some reductions each time it calls a function. *)
Definition scheduled (max_loop_limit : Z) (left : nat -> Z) : Prop :=
  (max_loop_limit = 0 \/ 2 <= max_loop_limit < 2 ^ 64) /\ (forall k, 0 <= left k < 2 ^ 31) /\ forall k, (0 < k)%nat -> 1 <= left k.
Lemma get_reds_spec m left k f : scheduled m left -> 2 <= f <= 2 ^ 16 -> 1 <= get_reds m (left k) f < 2 ^ 64 /\ ((0 < k)%nat -> 2 <= get_reds m (left k) f).
Proof.
  intros (Hm & Hl & H1) Hf. specialize (Hl k). unfold get_reds. rewrite w64_id by (split; nia). assert (0 <= left k * f < 2 ^ 64) by nia. specialize (H1 k). destruct (negb (m =? 0) && (m <? left k * f)) eqn:E.
  - apply andb_true_iff in E as [E1 E2]. destruct (Z.eqb_spec m 0); [discriminate|]. lia.
  - destruct (Z.eqb_spec (left k * f) 0); split; try lia; intros Hk; specialize (H1 Hk); nia.
Qed.

Lemma get_reds_small m left k f : scheduled m left -> 2 <= f <= 2 ^ 16 -> get_reds m (left k) f < 2 ^ 48.
Proof.
  intros (Hm & Hl & _) Hf. specialize (Hl k). unfold get_reds. rewrite w64_id by (split; nia). assert (0 <= left k * f < 2 ^ 48) by nia. destruct (negb (m =? 0) && (m <? left k * f)) eqn:E; [lia|]. destruct (left k * f =? 0); lia.
Qed.

(** ** The bytes of a binary *)
Definition bin_ok (b : binary) : Prop := bytes (orig b) /\ 0 <= b_offs b /\ 0 <= bitoffs b < 8 /\ 0 <= binary_size b /\ 0 <= binary_bitsize b < 8 /\ 8 * b_offs b + bitoffs b + 8 * binary_size b + binary_bitsize b <= 8 * len (orig b).
Definition byte_of (b : binary) (i : Z) : Z :=
  if bitoffs b =? 0 then elt (orig b) (b_offs b + i)
  else Z.land (Z.lor (Z.shiftl (elt (orig b) (b_offs b + i)) (bitoffs b)) (Z.shiftr (elt (orig b) (b_offs b + i + 1)) (8 - bitoffs b))) 0xff.
Definition contents (b : binary) : list Z := map (fun i => byte_of b (Z.of_nat i)) (seq 0 (Z.to_nat (binary_size b))).
Lemma contents_length b : bin_ok b -> len (contents b) = binary_size b.
Proof. intros (_ & _ & _ & H & _). unfold contents. rewrite length_map, length_seq. lia. Qed.
Lemma contents_lookup b i : (i < Z.to_nat (binary_size b))%nat -> contents b !! i = Some (byte_of b (Z.of_nat i)).
Proof. intros H. unfold contents. change (map (fun i => byte_of b (Z.of_nat i)) (seq 0 (Z.to_nat (binary_size b)))) with ((fun i => byte_of b (Z.of_nat i)) <$> seq 0 (Z.to_nat (binary_size b))). rewrite list_lookup_fmap, lookup_seq_lt by auto. reflexivity. Qed.
Lemma contents_elt b i : 0 <= i < binary_size b -> elt (contents b) i = byte_of b i.
Proof. intros H. unfold elt. rewrite contents_lookup by lia. cbn. f_equal. lia. Qed.
Lemma byte_of_bit b i j : bin_ok b -> 0 <= i -> 0 <= j < 8 -> Z.testbit (byte_of b i) (7 - j) = bit (orig b) (8 * b_offs b + bitoffs b + 8 * i + j).
Proof.
  intros (F & Ho & Hb & _) Hi Hj. unfold byte_of. destruct (Z.eqb_spec (bitoffs b) 0) as [E|N].
  - rewrite E. unfold bit. replace ((8 * b_offs b + 0 + 8 * i + j) / 8) with (b_offs b + i) by (apply (Z.div_unique _ _ _ j); lia). now replace ((8 * b_offs b + 0 + 8 * i + j) mod 8) with j by (apply (Z.mod_unique _ _ (b_offs b + i)); lia).
  - change 0xff with (Z.ones 8). rewrite Z.land_spec, Z.ones_spec_low, andb_true_r by lia. rewrite (shifted_byte (orig b)) by (auto; lia). f_equal. lia.
Qed.
Lemma byte_of_range b i : bin_ok b -> 0 <= byte_of b i < 256.
Proof.
  intros (F & _). unfold byte_of. destruct (bitoffs b =? 0); [now apply elt_byte|]. change 0xff with (Z.ones 8). rewrite Z.land_ones by lia. apply Z.mod_pos_bound. lia.
Qed.
Lemma contents_bytes b : bin_ok b -> bytes (contents b).
Proof. intros H. apply Forall_forall. intros c Hc%list_elem_of_In. apply in_map_iff in Hc as (i & <- & _). now apply byte_of_range. Qed.
Lemma get_byte_spec b i : bin_ok b -> 0 <= i < binary_size b -> get_byte b i = Ok (elt (contents b) i).
Proof.
  intros B Hi. rewrite contents_elt by auto. destruct B as (_ & Ho & Hb & _ & Hz & Hl). unfold get_byte, byte_of. destruct (Z.eqb_spec (bitoffs b) 0); [apply peek_elt; lia|]. rewrite !peek_elt by lia. reflexivity.
Qed.
(** Bytes with the same bits. *)
Lemma bytes_eq k l : length k = length l -> bytes k -> bytes l -> (forall i j, 0 <= i < len k -> 0 <= j < 8 -> Z.testbit (elt k i) (7 - j) = Z.testbit (elt l i) (7 - j)) -> k = l.
Proof.
  intros L Fk Fl H. apply list_eq_same_length with (n := length k); auto. intros i x y Hi Ex Ey. specialize (H (Z.of_nat i)). pose proof (elt_byte k (Z.of_nat i) Fk) as Bk. pose proof (elt_byte l (Z.of_nat i) Fl) as Bl. unfold elt in *. rewrite Nat2Z.id, Ex, Ey in *. cbn in *.
  apply Z.bits_inj'. intros n Hn. destruct (Z_lt_le_dec n 8); [replace n with (7 - (7 - n)) by lia; apply H; lia|]. now rewrite !byte_high.
Qed.
Lemma aligned_spec b : bin_ok b -> binary_bitsize b = 0 -> erts_get_aligned_binary_bytes b = Ok (Some (contents b)).
Proof.
  intros B E0. pose proof (contents_length b B) as L. pose proof (contents_bytes b B) as Fc. pose proof B as (F & Ho & Hb & Hs & Hz & Hl). unfold erts_get_aligned_binary_bytes. rewrite E0. cbn [Z.eqb negb]. destruct (Z.eqb_spec (bitoffs b) 0) as [E|N].
  - do 2 f_equal. apply list_eq_same_length with (n := Z.to_nat (binary_size b)); [lia|rewrite length_take, length_drop; lia|]. intros i x y Hi Ex Ey. rewrite lookup_take_lt, lookup_drop in Ex by lia. rewrite contents_lookup in Ey by lia. injection Ey as <-. unfold byte_of. rewrite E. cbn [Z.eqb].
    unfold elt. replace (Z.to_nat (b_offs b + Z.of_nat i)) with (Z.to_nat (b_offs b) + i)%nat by lia. now rewrite Ex.
  - set (z := replicate _ 0). assert (Lz : len z = binary_size b) by (unfold z; rewrite length_replicate; lia). assert (Fz : bytes z) by (apply Forall_replicate; lia).
    destruct (erts_copy_bits_spec (orig b) (b_offs b) (bitoffs b) z 0 0 (binary_size b * 8)) as (buf & -> & Lb & Fb & Hbits); auto; try lia. cbn [mbind outcome_bind]. do 2 f_equal. apply bytes_eq; auto; [lia|]. intros i j Hi Hj. rewrite contents_elt by lia. rewrite byte_of_bit by (auto; lia).
    specialize (Hbits (8 * i + j) ltac:(lia)). replace ((8 * 0 + 0 <=? 8 * i + j) && (8 * i + j <? 8 * 0 + 0 + binary_size b * 8)) with true in Hbits by lia. transitivity (bit buf (8 * i + j)); [|rewrite Hbits; f_equal; lia].
    unfold bit. replace ((8 * i + j) / 8) with i by (apply (Z.div_unique _ _ _ j); lia). now replace ((8 * i + j) mod 8) with j by (apply (Z.mod_unique _ _ i); lia).
Qed.
