(* ===== verification/BinaryMatch.v ===== *)
(** The functions [binary:compile_pattern], [binary:match] and [binary:matches]
    (erl_bif_binary.c) with their options. *)

From S2P Require Import Prelude.
From stdpp Require Import base option list gmap.
From S2P Require Import BigNum BigConv Memory BoyerMoore BmSearch AhoCorasick CopyBits BinTerm.
Local Open Scope Z_scope.

(** ** Compiling patterns *)
(** The first pass over a list: the number of binaries and that of bytes. *)
Fixpoint check_patterns (t : term) (words characters : Z) : option (Z * Z) :=
  match t with
  | T_LIST b t =>
      b ← binary_of b;
      if negb (binary_bitsize b =? 0) then None
      else if binary_size b =? 0 then None
      else check_patterns t (w64 (words + 1)) (w64 (characters + binary_size b))
  | T_NIL => Some (words, characters)
  | _ => None
  end.
Definition CAR (t : term) : term := match t with T_LIST hd _ => hd | _ => T_NIL end.
(** The bytes of a binary, aligned. *)
Definition bytes_of (t : term) : outcome (list Z) := b ← require (binary_of t); x ← erts_get_aligned_binary_bytes b; require x.
(** The second pass. *)
Fixpoint pattern_bytes (t : term) : outcome (list (list Z)) :=
  match t with T_LIST b t => x ← bytes_of b; xs ← pattern_bytes t; Ok (x :: xs) | _ => Ok [] end.
(** [do_binary_match_compile]. *)
Definition do_binary_match_compile (argument : term) : outcome (option (atom * magic)) :=
  match (if is_list argument then
           '(words, characters) ← check_patterns argument 0 0;
           Some (words, characters, if words >? 1 then argument else CAR argument)
         else
           match binary_of argument with
           | Some b => if negb (binary_bitsize b =? 0) then None else Some (1, binary_size b, argument)
           | None => Some (0, 0, T_NIL)
           end) with
  | None => Ok None
  | Some (words, characters, comp_term) =>
      if characters =? 0 then Ok None
      else if words =? 1 then x ← bytes_of comp_term; bmd ← bm_compile x; Ok (Some (am_bm, BM_DATA bmd))
      else xs ← pattern_bytes comp_term; act ← ac_compile characters xs; Ok (Some (am_ac, AC_DATA act))
  end.
(** [binary:compile_pattern/1]. *)
Definition binary_compile_pattern (arg : term) : outcome (bif_return term) :=
  c ← do_binary_match_compile arg;
  Ok (match c with None => BADARG | Some (tag, bin) => BIF_RET (T_TUPLE [T_ATOM tag; T_MAGIC bin]) end).

(** ** The part of the subject *)
(** A length that is negative means the bytes before the position. *)
Definition before_pos (pos len : Z) : option (Z * Z) :=
  if len <? 0 then
    let lentmp := w64 (- w64 len) in
    if s64 lentmp <? 0 then None else Some (w64 (pos - lentmp), lentmp)
  else Some (pos, len).
(** The end is not behind the position. *)
Definition overflows (pos len : Z) : bool := (w64 (pos + len) <? pos) || (len >? 0) && (w64 (pos + len) =? pos).
(** One option: the position and the end. *)
Definition scope_of (t : term) (orig_size : Z) : option (Z * Z) :=
  match t with
  | T_TUPLE [T_ATOM am_scope; T_TUPLE [p; n]] =>
      pos ← Uint_of p;
      len ← Sint_of n;
      '(pos, len) ← before_pos pos len;
      if overflows pos len then None
      else
        let endp := w64 (len + pos) in
        if (orig_size <? pos) || (orig_size <? endp) then None else Some (pos, endp)
  | _ => None
  end.
(** The last option counts; the end of the list is not looked at. *)
Fixpoint scopes_loop (l : term) (orig_size : Z) (part : Z * Z) : option (Z * Z) :=
  match l with
  | T_LIST t l => part ← scope_of t orig_size; scopes_loop l orig_size part
  | _ => Some part
  end.
(** Without options ([None]) the whole subject is searched. *)
Definition parse_match_opts_list (l : option term) (bin : binary) : option (Z * Z) :=
  match l with
  | None | Some T_NIL => Some (0, binary_size bin)
  | Some (T_LIST t l) => scopes_loop (T_LIST t l) (binary_size bin) (0, 0)
  | Some _ => None
  end.

(** ** Searching *)
Definition BM_LOOP_FACTOR : Z := 10.
Definition AC_LOOP_FACTOR : Z := 10.
(** The state of a search that is stopped, with its type. *)
Inductive match_state := BM_FIRST (s : BMFindFirstState) | AC_FIRST (s : ACFindFirstState).
Inductive matches_state := BM_ALL (s : BMFindAllState) | AC_ALL (s : ACFindAllState).
Inductive run_result (S : Type) := DO_BIN_MATCH_OK (res : term) | DO_BIN_MATCH_BADARG | DO_BIN_MATCH_RESTART (state : S).
Arguments DO_BIN_MATCH_OK {S} res. Arguments DO_BIN_MATCH_BADARG {S}. Arguments DO_BIN_MATCH_RESTART {S} state.
(** A position and a length. *)
Definition match_tuple (p : Z * Z) : term := T_TUPLE [T_INTEGER (fst p); T_INTEGER (snd p)].
Definition state_type (state : option match_state) (type : atom) : atom := match state with None => type | Some (BM_FIRST _) => am_bm | Some (AC_FIRST _) => am_ac end.
Definition all_type (state : option matches_state) (type : atom) : atom := match state with None => type | Some (BM_ALL _) => am_bm | Some (AC_ALL _) => am_ac end.

Section Reductions.
(** The limit for debugging and the reductions the process has left at each call. *)
Variables (max_loop_limit : Z) (left : nat -> Z).

(** [do_binary_match], in the call [k]. *)
Definition do_binary_match (k : nat) (subject : binary) (hsstart hsend : Z) (type : atom) (bin : magic) (state : option match_state) : outcome (run_result match_state) :=
  bytes ← erts_get_aligned_binary_bytes subject;
  match bytes, state_type state type with
  | None, _ => Ok DO_BIN_MATCH_BADARG
  | Some bytes, am_bm =>
      match bin, state with
      | BM_DATA bm, None | BM_DATA bm, Some (BM_FIRST _) =>
          let st := match state with Some (BM_FIRST s) => s | _ => bm_init_find_first_match hsstart hsend end in
          r ← bm_find_first_match st bm bytes (get_reds max_loop_limit (left k) BM_LOOP_FACTOR);
          Ok (match r with
              | BM_NOT_FOUND => DO_BIN_MATCH_OK (T_ATOM am_nomatch)
              | BM_RESTART s => DO_BIN_MATCH_RESTART (BM_FIRST s)
              | BM_FOUND pos => DO_BIN_MATCH_OK (match_tuple (pos, bm_len bm))
              end)
      | _, _ => Undef
      end
  | Some bytes, am_ac =>
      match bin, state with
      | AC_DATA act, None | AC_DATA act, Some (AC_FIRST _) =>
          let st := match state with Some (AC_FIRST s) => s | _ => ac_init_find_first_match hsstart hsend end in
          r ← ac_find_first_match st act bytes (get_reds max_loop_limit (left k) AC_LOOP_FACTOR);
          Ok (match r with
              | AC_NOT_FOUND => DO_BIN_MATCH_OK (T_ATOM am_nomatch)
              | AC_RESTART s => DO_BIN_MATCH_RESTART (AC_FIRST s)
              | AC_FOUND pos rlen => DO_BIN_MATCH_OK (match_tuple (pos, rlen))
              end)
      | _, _ => Undef
      end
  | Some _, _ => Ok DO_BIN_MATCH_BADARG
  end.
(** The list of the matches, built from the last one on. *)
Fixpoint matches_list (m : nat) (out : list (option (Z * Z))) (ret : term) : outcome term :=
  match m with
  | O => Ok ret
  | S i => o ← peek out (Z.of_nat i); p ← require o; matches_list i out (T_LIST (match_tuple p) ret)
  end.
(** [do_binary_matches], in the call [k]. *)
Definition do_binary_matches (k : nat) (subject : binary) (hsstart hsend : Z) (type : atom) (bin : magic) (state : option matches_state) : outcome (run_result matches_state) :=
  bytes ← erts_get_aligned_binary_bytes subject;
  match bytes, all_type state type with
  | None, _ => Ok DO_BIN_MATCH_BADARG
  | Some bytes, am_bm =>
      match bin, state with
      | BM_DATA bm, None | BM_DATA bm, Some (BM_ALL _) =>
          let st := match state with Some (BM_ALL s) => bm_restore_find_all s | _ => bm_init_find_all hsstart hsend end in
          r ← bm_find_all_non_overlapping st bm bytes (get_reds max_loop_limit (left k) BM_LOOP_FACTOR);
          match r with
          | BM_NONE_FOUND => Ok (DO_BIN_MATCH_OK T_NIL)
          | BM_ALL_RESTART s => Ok (DO_BIN_MATCH_RESTART (BM_ALL s))
          | BM_OK a => ret ← matches_list (Z.to_nat (fa_m a)) (fa_out a) T_NIL; Ok (DO_BIN_MATCH_OK ret)
          end
      | _, _ => Undef
      end
  | Some bytes, am_ac =>
      match bin, state with
      | AC_DATA act, None | AC_DATA act, Some (AC_ALL _) =>
          let st := match state with Some (AC_ALL s) => ac_restore_find_all s | _ => ac_init_find_all hsstart hsend end in
          r ← ac_find_all_non_overlapping st act bytes (get_reds max_loop_limit (left k) AC_LOOP_FACTOR);
          match r with
          | AC_NONE_FOUND => Ok (DO_BIN_MATCH_OK T_NIL)
          | AC_ALL_RESTART s => Ok (DO_BIN_MATCH_RESTART (AC_ALL s))
          | AC_OK a => ret ← matches_list (Z.to_nat (fa_m a)) (fa_out a) T_NIL; Ok (DO_BIN_MATCH_OK ret)
          end
      | _, _ => Undef
      end
  | Some _, _ => Ok DO_BIN_MATCH_BADARG
  end.

(** ** The built-in functions *)
(** Called again with the state, as often as it takes; [fuel] bounds the calls. *)
Fixpoint binary_match_trap (fuel k : nat) (subject : binary) (state : match_state) (bin : magic) : outcome (bif_return term) :=
  match fuel with
  | O => Undef
  | S fuel =>
      runres ← do_binary_match k subject 0 0 (am_other 0) bin (Some state);
      match runres with
      | DO_BIN_MATCH_OK result => Ok (BIF_RET result)
      | DO_BIN_MATCH_RESTART state => binary_match_trap fuel (S k) subject state bin
      | DO_BIN_MATCH_BADARG => Undef
      end
  end.
Fixpoint binary_matches_trap (fuel k : nat) (subject : binary) (state : matches_state) (bin : magic) : outcome (bif_return term) :=
  match fuel with
  | O => Undef
  | S fuel =>
      runres ← do_binary_matches k subject 0 0 (am_other 0) bin (Some state);
      match runres with
      | DO_BIN_MATCH_OK result => Ok (BIF_RET result)
      | DO_BIN_MATCH_RESTART state => binary_matches_trap fuel (S k) subject state bin
      | DO_BIN_MATCH_BADARG => Undef
      end
  end.
(** A pattern: a tuple with a compiled one, or one that is compiled now. *)
Definition pattern_of (arg2 : term) : outcome (option (atom * magic)) :=
  match arg2 with
  | T_TUPLE [T_ATOM type; T_MAGIC bin] =>
      Ok (match type, bin with am_bm, BM_DATA _ | am_ac, AC_DATA _ => Some (type, bin) | _, _ => None end)
  | T_TUPLE _ => Ok None
  | _ => do_binary_match_compile arg2
  end.
(** [binary:match/2] and [/3]. *)
Definition binary_match (fuel : nat) (arg1 arg2 : term) (arg3 : option term) : outcome (bif_return term) :=
  match binary_of arg1 with
  | None => Ok BADARG
  | Some subject =>
      match parse_match_opts_list arg3 subject with
      | None => Ok BADARG
      | Some (hsstart, hsend) =>
          if hsend =? 0 then Ok (BIF_RET (T_ATOM am_nomatch))
          else
            pattern ← pattern_of arg2;
            match pattern with
            | None => Ok BADARG
            | Some (type, bin) =>
                runres ← do_binary_match 0 subject hsstart hsend type bin None;
                match runres with
                | DO_BIN_MATCH_OK result => Ok (BIF_RET result)
                | DO_BIN_MATCH_RESTART state => binary_match_trap fuel 1 subject state bin
                | DO_BIN_MATCH_BADARG => Ok BADARG
                end
            end
      end
  end.
(** [binary:matches/2] and [/3]. *)
Definition binary_matches (fuel : nat) (arg1 arg2 : term) (arg3 : option term) : outcome (bif_return term) :=
  match binary_of arg1 with
  | None => Ok BADARG
  | Some subject =>
      match parse_match_opts_list arg3 subject with
      | None => Ok BADARG
      | Some (hsstart, hsend) =>
          if hsend =? 0 then Ok (BIF_RET T_NIL)
          else
            pattern ← pattern_of arg2;
            match pattern with
            | None => Ok BADARG
            | Some (type, bin) =>
                runres ← do_binary_matches 0 subject hsstart hsend type bin None;
                match runres with
                | DO_BIN_MATCH_OK result => Ok (BIF_RET result)
                | DO_BIN_MATCH_RESTART state => binary_matches_trap fuel 1 subject state bin
                | DO_BIN_MATCH_BADARG => Ok BADARG
                end
            end
      end
  end.
End Reductions.
