(* ===== verification/MatchSpec.v ===== *)
(** Which patterns a term has, what they are compiled to, and which part of the subject the
    options give; a search over any number of calls, each of which keeps the invariant and gets on.
    *)

From S2P Require Import Prelude.
From stdpp Require Import base option list gmap.
From S2P Require Import Digits BigNum ErlArith BigConv Memory BoyerMoore BmSearch AhoCorasick AcTrie AcSearch CopyBits BinTerm BinaryMatch.
Local Open Scope Z_scope.

(** ** Patterns *)
(** The patterns that a term stands for: a binary, or a list of them, none empty. *)
Definition one_pattern (t : term) : option (list Z) :=
  b ← binary_of t; if (binary_bitsize b =? 0) && negb (binary_size b =? 0) then Some (contents b) else None.
Fixpoint list_patterns (t : term) : option (list (list Z)) :=
  match t with T_NIL => Some [] | T_LIST b t => x ← one_pattern b; xs ← list_patterns t; Some (x :: xs) | _ => None end.
Definition patterns_of (t : term) : option (list (list Z)) :=
  match t with T_LIST _ _ => list_patterns t | T_TUPLE _ => None | _ => x ← one_pattern t; Some [x] end.
Definition binary_ok (t : term) : Prop := match binary_of t with Some b => bin_ok b | None => True end.
Fixpoint patterns_ok (t : term) : Prop := match t with T_LIST b t => binary_ok b /\ patterns_ok t | _ => binary_ok t end.
(** What is compiled for some patterns. *)
Definition magic_for (pats : list (list Z)) (type : atom) (bin : magic) : Prop :=
  match bin with
  | BM_DATA bmd => type = am_bm /\ exists x, pats = [x] /\ bm_for x bmd
  | AC_DATA act => type = am_ac /\ [] ∉ pats /\ exists ws, compiled pats (nodes act) ws
  end.
Lemma one_pattern_Some t x : binary_ok t -> one_pattern t = Some x -> exists b, binary_of t = Some b /\ bin_ok b /\ binary_bitsize b = 0 /\ 1 <= binary_size b /\ x = contents b /\ len x = binary_size b /\ bytes x /\ bytes_of t = Ok x.
Proof.
  unfold one_pattern, binary_ok, bytes_of. destruct (binary_of t) as [b|]; [|discriminate]. cbn [mbind option_bind require outcome_bind]. intros B. destruct ((binary_bitsize b =? 0) && negb (binary_size b =? 0)) eqn:E; [|discriminate]. intros [= <-].
  pose proof B as (_ & _ & _ & Hs & _). exists b. rewrite contents_length, aligned_spec by (auto; lia). pose proof (contents_bytes b B). splits; auto; lia.
Qed.
Lemma check_patterns_spec t : patterns_ok t -> forall words characters, 0 <= words -> 0 <= characters ->
  match list_patterns t with
  | None => check_patterns t words characters = None
  | Some xs => words + len xs < 2 ^ 64 -> characters + len (concat xs) < 2 ^ 64 -> check_patterns t words characters = Some (words + len xs, characters + len (concat xs)) /\ pattern_bytes t = Ok xs /\ Forall (fun x => x <> [] /\ bytes x) xs
  end.
Proof.
  induction t as [t L|b t IH] using list_term_ind; cbn [list_patterns check_patterns pattern_bytes patterns_ok]; [intros _ words characters _ _; destruct t; try discriminate; cbn; auto; rewrite !Z.add_0_r; auto|]. intros [B P] words characters H1 H2.
  destruct (one_pattern b) as [x|] eqn:E1; cbn [mbind option_bind].
  - destruct (one_pattern_Some b x B E1) as (bin & Eb & Bb & E0 & Hs & Ex & Lx & Fx & Ey). rewrite Eb. cbn [mbind option_bind]. rewrite E0. cbn [Z.eqb negb]. rewrite (proj2 (Z.eqb_neq (binary_size bin) 0)) by lia.
    specialize (IH P (w64 (words + 1)) (w64 (characters + binary_size bin)) ltac:(apply w64_range) ltac:(apply w64_range)). destruct (list_patterns t) as [xs|]; cbn [mbind option_bind]; [|auto]. cbn [length concat]. rewrite length_app. intros H3 H4.
    rewrite (w64_id (words + 1)), (w64_id (characters + binary_size bin)) in * by lia. destruct IH as (-> & -> & F); [lia|lia|]. rewrite Ey. cbn [mbind outcome_bind]. splits; auto; [do 2 f_equal; lia|]. constructor; auto. split; auto. intros ->. cbn in Lx. lia.
  - unfold one_pattern in E1. destruct (binary_of b) as [bin|]; [|reflexivity]. cbn [mbind option_bind] in *. destruct (binary_bitsize bin =? 0), (binary_size bin =? 0); cbn in *; auto; discriminate.
Qed.
Lemma compile_one x : x <> [] -> bytes x -> len x < 2 ^ 31 -> exists bmd, bm_compile x = Ok bmd /\ magic_for [x] am_bm (BM_DATA bmd).
Proof. intros N F L. destruct (bm_compile_spec x F) as (bmd & E & B); [destruct x; [done|cbn [length] in *; lia]|]. exists bmd. split; auto. split; eauto. Qed.
Lemma compile_list xs : Forall (fun x => x <> [] /\ bytes x) xs -> len (concat xs) < 2 ^ 31 -> exists act, ac_compile (len (concat xs)) xs = Ok act /\ magic_for xs am_ac (AC_DATA act).
Proof.
  intros F L. destruct (ac_compile_spec xs F L) as (act & ws & E & K). exists act. split; auto. split; auto. split; eauto. intros H. rewrite Forall_forall in F. now apply F in H as [? _].
Qed.
Lemma concat_pos xs : Forall (fun x : list Z => x <> [] /\ bytes x) xs -> xs <> [] -> 0 < len (concat xs).
Proof. intros F N. destruct F as [|x xs [Nx _] _]; [done|]. cbn. rewrite length_app. destruct x; [done|cbn; lia]. Qed.
(** Compiling gives what the patterns ask for, and fails when the term is none. *)
Lemma do_binary_match_compile_spec t : patterns_ok t ->
  match patterns_of t with
  | None => do_binary_match_compile t = Ok None
  | Some pats => len pats < 2 ^ 64 -> len (concat pats) < 2 ^ 31 -> pats <> [] /\ exists type bin, do_binary_match_compile t = Ok (Some (type, bin)) /\ magic_for pats type bin /\ type = (if len pats =? 1 then am_bm else am_ac)
  end.
Proof.
  intros P. destruct (is_list t) eqn:L.
  - destruct t as [ | | |b t| | | | ]; try discriminate. pose proof (check_patterns_spec _ P 0 0 ltac:(lia) ltac:(lia)) as C. unfold do_binary_match_compile. cbn [patterns_of is_list]. destruct (list_patterns (T_LIST b t)) as [pats|] eqn:Ep; [|rewrite C; reflexivity].
    intros H1 H2. destruct C as (-> & Eb & F); [lia|lia|]. cbn [mbind option_bind]. rewrite !Z.add_0_l. assert (N : pats <> []) by (cbn [list_patterns] in Ep; destruct (one_pattern b); [|discriminate]; cbn [mbind option_bind] in Ep; destruct (list_patterns t); [|discriminate]; now injection Ep as <-).
    split; auto. pose proof (concat_pos pats F N) as Hp. rewrite (proj2 (Z.eqb_neq (len (concat pats)) 0)) by lia. rewrite Z.gtb_ltb. destruct (Z.eqb_spec (len pats) 1) as [E1|N1].
    + rewrite E1. change (1 <? 1) with false. cbn [CAR]. destruct pats as [|x [|? ?]]; try (cbn [length] in E1; lia). inversion F as [|? ? [Nx Bx] _]; subst. cbn [concat] in H2. rewrite app_nil_r in H2. destruct (compile_one x Nx Bx H2) as (bmd & E & M).
      cbn [pattern_bytes] in Eb. destruct (bytes_of b) as [y| |]; try discriminate. cbn [mbind outcome_bind] in Eb. destruct (pattern_bytes t); try discriminate. injection Eb as -> _. cbn [mbind outcome_bind]. rewrite E. cbn [mbind outcome_bind]. eauto.
    + destruct (Z.ltb_spec 1 (len pats)) as [_|Lt]; [|destruct pats; [done|cbn [length] in *; lia]]. rewrite Eb. cbn [mbind outcome_bind]. destruct (compile_list pats F H2) as (act & -> & M). cbn [mbind outcome_bind]. eauto.
  - unfold do_binary_match_compile. rewrite L. assert (Eq : patterns_of t = (x ← one_pattern t; Some [x])) by (destruct t; try reflexivity; discriminate). rewrite Eq. clear Eq. assert (B : binary_ok t) by (destruct t; auto; discriminate).
    destruct (one_pattern t) as [x|] eqn:E1; cbn [mbind option_bind].
    + destruct (one_pattern_Some t x B E1) as (bin & -> & Bb & -> & Hs & Ex & Lx & Fx & Ey). cbn [Z.eqb negb]. intros _ H2. cbn [concat] in H2. rewrite app_nil_r in H2. rewrite (proj2 (Z.eqb_neq (binary_size bin) 0)), Ey by lia. cbn [mbind outcome_bind Z.eqb Pos.eqb]. split; [done|].
      assert (Nx : x <> []) by (intros ->; cbn in Lx; lia). destruct (compile_one x Nx Fx H2) as (bmd & -> & M). cbn [mbind outcome_bind]. exists am_bm, (BM_DATA bmd). auto.
    + unfold one_pattern in E1. destruct (binary_of t) as [bin|]; [|reflexivity]. cbn [mbind option_bind] in E1. destruct (binary_bitsize bin =? 0); [|reflexivity]. cbn [negb]. destruct (binary_size bin =? 0); [reflexivity|discriminate].
Qed.

(** ** Parts *)
(** A part from its position and length, when it is inside [size] bytes. *)
Definition part_of (size pos len : Z) : option (Z * Z) :=
  let s := if len <? 0 then pos + len else pos in
  let e := if len <? 0 then pos else pos + len in
  if (0 <=? s) && (e <=? size) then Some (s, e) else None.
(** A term for an integer. *)
Definition int_at (t : term) (z : Z) : Prop := int_term (integer_of t) z.
Lemma Uint_of_spec t z : int_at t z -> Uint_of t = if (0 <=? z) && (z <? 2 ^ 64) then Some z else None.
Proof. intros H. unfold Uint_of. rewrite (term_to_Uint_spec _ _ H). change β with (2 ^ 64). destruct (Z.ltb_spec z 0), (Z.leb_spec 0 z), (Z.ltb_spec z (2 ^ 64)); auto; lia. Qed.
Lemma Sint_of_spec t z : int_at t z -> Sint_of t = if (- 2 ^ 63 <=? z) && (z <? 2 ^ 63) then Some z else None.
Proof. intros H. apply (term_to_Sint_spec _ _ H). Qed.
Lemma w64_wrap z k : 0 <= z + k * 2 ^ 64 < 2 ^ 64 -> w64 z = z + k * 2 ^ 64.
Proof. intros H. unfold w64. symmetry. apply (Z.mod_unique _ _ (- k)); change β with (2 ^ 64); lia. Qed.
(** The negative length, made positive. *)
Lemma before_pos_spec pos len : 0 <= pos < 2 ^ 64 -> - 2 ^ 63 <= len < 2 ^ 63 ->
  before_pos pos len = if len <? 0 then if len =? - 2 ^ 63 then None else Some (w64 (pos + len), - len) else Some (pos, len).
Proof.
  intros Hp Hl. unfold before_pos. destruct (Z.ltb_spec len 0) as [L|L]; [|reflexivity]. cbv zeta. rewrite (w64_wrap len 1) by lia. rewrite (w64_wrap (- (len + 1 * 2 ^ 64)) 1) by lia. replace (- (len + 1 * 2 ^ 64) + 1 * 2 ^ 64) with (- len) by lia.
  unfold s64. cbv zeta. rewrite (w64_id (- len)) by (split; lia). change β with (2 ^ 64). destruct (Z.ltb_spec (- len) (2 ^ 63)) as [L2|L2].
  - rewrite (proj2 (Z.ltb_ge (- len) 0)), (proj2 (Z.eqb_neq len _)) by lia. repeat f_equal. lia.
  - rewrite (proj2 (Z.ltb_lt _ 0)), (proj2 (Z.eqb_eq len _)) by lia. reflexivity.
Qed.
(** The checks of a part refuse those that are outside or wrap around. *)
Lemma part_checks size pos len : 0 <= size < 2 ^ 63 -> 0 <= pos < 2 ^ 64 -> - 2 ^ 63 <= len < 2 ^ 63 ->
  ('(p, l) ← before_pos pos len; if overflows p l then None else let endp := w64 (l + p) in if (size <? p) || (size <? endp) then None else Some (p, endp)) = part_of size pos len.
Proof.
  intros Hs Hp Hl. rewrite before_pos_spec by auto. unfold part_of, overflows. destruct (Z.ltb_spec len 0) as [L|L].
  - destruct (Z.eqb_spec len (- 2 ^ 63)) as [->|N]; cbn [mbind option_bind]; [destruct (Z.leb_spec 0 (pos + - 2 ^ 63)), (Z.leb_spec pos size); cbn [andb]; auto; lia|].
    destruct (Z.leb_spec 0 (pos + len)) as [P|P].
    + rewrite (w64_id (pos + len)) by (split; lia). cbv zeta. rewrite (w64_id (pos + len + - len)), (w64_id (- len + (pos + len))) by (split; lia). rewrite (proj2 (Z.ltb_ge (pos + len + - len) (pos + len))), (proj2 (Z.eqb_neq (pos + len + - len) (pos + len))) by lia. rewrite andb_false_r. cbn [orb andb].
      replace (- len + (pos + len)) with pos by lia. destruct (Z.ltb_spec size (pos + len)), (Z.ltb_spec size pos), (Z.leb_spec pos size); cbn [orb]; auto; lia.
    + cbv zeta. rewrite (w64_wrap (pos + len) 1) by lia. rewrite (w64_wrap (pos + len + 1 * 2 ^ 64 + - len) (-1)) by lia. rewrite (proj2 (Z.ltb_lt _ (pos + len + 1 * 2 ^ 64))) by lia. reflexivity.
  - cbn [mbind option_bind]. cbv zeta. rewrite (Z.add_comm len pos), (proj2 (Z.leb_le 0 pos)) by lia. cbn [andb]. destruct (Z_lt_le_dec (pos + len) (2 ^ 64)) as [W|W].
    + rewrite (w64_id (pos + len)) by (split; lia). rewrite (proj2 (Z.ltb_ge (pos + len) pos)) by lia. replace ((len >? 0) && (pos + len =? pos)) with false by lia. cbn [orb]. destruct (Z.ltb_spec size pos), (Z.ltb_spec size (pos + len)), (Z.leb_spec (pos + len) size); cbn [orb]; auto; lia.
    + rewrite (w64_wrap (pos + len) (-1)) by lia. rewrite (proj2 (Z.ltb_lt _ pos)) by lia. cbn [orb]. destruct (Z.leb_spec (pos + len) size); auto. lia.
Qed.
(** The option [{scope, {Pos, Len}}]. *)
Lemma scope_of_spec size p n pos len : 0 <= size < 2 ^ 63 -> int_at p pos -> int_at n len -> scope_of (T_TUPLE [T_ATOM am_scope; T_TUPLE [p; n]]) size = part_of size pos len.
Proof.
  intros Hs Hp Hn. unfold scope_of. rewrite (Uint_of_spec _ _ Hp), (Sint_of_spec _ _ Hn). destruct ((0 <=? pos) && (pos <? 2 ^ 64)) eqn:Ep; cbn [mbind option_bind].
  - destruct ((- 2 ^ 63 <=? len) && (len <? 2 ^ 63)) eqn:El; cbn [mbind option_bind]; [apply part_checks; lia|]. unfold part_of. destruct (Z.ltb_spec len 0), (Z.leb_spec 0 (pos + len)), (Z.leb_spec pos size), (Z.leb_spec 0 pos), (Z.leb_spec (pos + len) size); cbn [andb]; auto; lia.
  - unfold part_of. destruct (Z.ltb_spec len 0), (Z.leb_spec 0 (pos + len)), (Z.leb_spec pos size), (Z.leb_spec 0 pos), (Z.leb_spec (pos + len) size); cbn [andb]; auto; lia.
Qed.
(** The integers in a term are as they are built. *)
Fixpoint ints_ok (t : term) : Prop :=
  match t with
  | T_INT i => exists z, int_term i z
  | T_LIST hd tl => ints_ok hd /\ ints_ok tl
  | T_TUPLE ts => (fix all l := match l with [] => True | t :: l => ints_ok t /\ all l end) ts
  | _ => True
  end.
Lemma Uint_int t z : ints_ok t -> Uint_of t = Some z -> exists x, int_at t x.
Proof. destruct t; try discriminate. intros H _. exact H. Qed.
Lemma Sint_int t z : ints_ok t -> Sint_of t = Some z -> exists x, int_at t x.
Proof. destruct t; try discriminate. intros H _. exact H. Qed.
Lemma part_inside size pos len s e : part_of size pos len = Some (s, e) -> 0 <= s <= e /\ e <= size.
Proof. unfold part_of. destruct (Z.ltb_spec len 0); cbn [andb]; intros Hq; [destruct ((0 <=? pos + len) && (pos <=? size)) eqn:E|destruct ((0 <=? pos) && (pos + len <=? size)) eqn:E]; try discriminate; injection Hq as <- <-; lia. Qed.
Lemma scope_inside t size s e : 0 <= size < 2 ^ 63 -> ints_ok t -> scope_of t size = Some (s, e) -> 0 <= s <= e /\ e <= size.
Proof.
  intros Hs Ho E. pose proof E as E0. unfold scope_of in E. destruct t as [ | | | |ts| | | ]; try discriminate. destruct ts as [|[ |a| | | | | | ] ts]; try discriminate. destruct a; try discriminate. destruct ts as [|[ | | | |[|p [|n [|? ?]]]| | | ] [|? ?]]; try discriminate.
  destruct Ho as (_ & (Hp & Hn & _) & _). destruct (Uint_of p) as [pos|] eqn:Ep; [|discriminate]. destruct (Sint_of n) as [len|] eqn:El; [|cbn [mbind option_bind] in E; discriminate]. clear E.
  destruct (Uint_int _ _ Hp Ep) as [x Hx], (Sint_int _ _ Hn El) as [y Hy]. rewrite (scope_of_spec size p n x y Hs Hx Hy) in E0. eapply part_inside; eauto.
Qed.
Lemma parse_inside l b s e : bin_ok b -> binary_size b < 2 ^ 63 -> match l with Some t => ints_ok t | None => True end -> parse_match_opts_list l b = Some (s, e) -> 0 <= s <= e /\ e <= binary_size b.
Proof.
  intros (_ & _ & _ & Hs & _) Hb Ho E. destruct l as [t|]; [|injection E as <- <-; lia]. cbn [parse_match_opts_list] in E. assert (G : forall t part, 0 <= fst part <= snd part /\ snd part <= binary_size b -> ints_ok t -> scopes_loop t (binary_size b) part = Some (s, e) -> 0 <= s <= e /\ e <= binary_size b).
  { clear E Ho. intros t0 part Hp. revert part Hp. induction t0 as [t0 L|hd t0 IH] using list_term_ind; intros part Hp Ho E; [destruct t0; try discriminate; cbn in E; injection E as ->; exact Hp|]. destruct Ho as [Hh Ht]. cbn [scopes_loop] in E. destruct (scope_of hd (binary_size b)) as [[s' e']|] eqn:E1; [|discriminate].
    apply (IH (s', e')); auto. apply (scope_inside hd); auto. }
  destruct t; try discriminate; [injection E as <- <-; lia|]. apply (G _ (0, 0)) in E; auto. cbn. lia.
Qed.

(** ** One pattern *)
Lemma matches_one x hay s e p : matches [x] hay s e p <-> s <= fst p /\ fst p + len x <= e /\ snd p = len x /\ occurs x hay (fst p).
Proof.
  split; [intros (H1 & H2 & y & ->%list_elem_of_singleton & H4 & H5); splits; auto; lia|]. intros (H1 & H2 & H3 & H4). split; [auto|]. split; [lia|]. exists x. split; [apply list_elem_of_singleton; auto|auto].
Qed.
Lemma first_match_one x hay s e p : s <= p -> p + len x <= e -> occurs x hay p -> none x hay e s p -> first_match [x] hay s e (p, len x).
Proof.
  intros H1 H2 O N. split; [apply matches_one; auto|]. intros q (Q1 & Q2 & Q3 & Q4)%matches_one. unfold before. cbn [fst snd]. destruct (Z_lt_le_dec (fst q) p) as [L|L]; [|lia]. exfalso. apply (N (fst q)); auto; lia.
Qed.

Section Run.
Variables (max_loop_limit : Z) (left : nat -> Z) (subject : binary) (s e : Z) (pats : list (list Z)) (type : atom) (bin : magic).
Hypotheses (Hl : scheduled max_loop_limit left) (B : bin_ok subject) (E0 : binary_bitsize subject = 0) (Hz : binary_size subject < 2 ^ 63) (Hs : 0 <= s <= e) (He : e <= binary_size subject) (Mg : magic_for pats type bin).
Notation hay := (contents subject).
Notation M := (matches pats hay s e).
(** What a search returns: the first match, if there is one. *)
Definition match_result (t : term) : Prop := t = T_ATOM am_nomatch /\ (forall p, ~ M p) \/ exists p, t = match_tuple p /\ first_match pats hay s e p.
Definition matches_result (t : term) : Prop := exists l, t = foldr T_LIST T_NIL (map match_tuple l) /\ all_matches M s l.
(** The states in which a search is stopped. *)
Definition match_ok (st : match_state) : Prop :=
  match st, bin with
  | BM_FIRST st, BM_DATA bmd => exists x, pats = [x] /\ bf_len st = e /\ s <= bf_pos st <= e - len x /\ none x hay e s (bf_pos st)
  | AC_FIRST st, AC_DATA act => exists ws, compiled pats (nodes act) ws /\ first_inv pats ws hay s e st
  | _, _ => False
  end.
Definition match_pos (st : match_state) : Z := match st with BM_FIRST st => bf_pos st | AC_FIRST st => af_pos st end.
Definition matches_ok (st : matches_state) : Prop :=
  match st, bin with
  | BM_ALL st, BM_DATA bmd => exists x, pats = [x] /\ ba_len st = e /\ s <= ba_pos st <= e - len x /\ found x hay e s (ba_pos st) (ba_found st)
  | AC_ALL st, AC_DATA act => exists ws, compiled pats (nodes act) ws /\ all_inv pats ws hay s e st
  | _, _ => False
  end.
Definition matches_pos (st : matches_state) : Z := match st with BM_ALL st => ba_pos st | AC_ALL st => aa_pos st end.
Lemma len_hay : len hay = binary_size subject.
Proof. now apply contents_length. Qed.
Lemma factors k : (1 <= get_reds max_loop_limit (left k) BM_LOOP_FACTOR < 2 ^ 64 /\ ((0 < k)%nat -> 2 <= get_reds max_loop_limit (left k) BM_LOOP_FACTOR)) /\ (1 <= get_reds max_loop_limit (left k) AC_LOOP_FACTOR < 2 ^ 64 /\ ((0 < k)%nat -> 2 <= get_reds max_loop_limit (left k) AC_LOOP_FACTOR)).
Proof. split; apply get_reds_spec; auto; cbv; split; discriminate. Qed.
Definition after_call (k : nat) (pos : Z) (r : run_result match_state) : Prop :=
  match r with DO_BIN_MATCH_OK t => match_result t | DO_BIN_MATCH_RESTART st => match_ok st /\ pos <= match_pos st < e /\ ((0 < k)%nat -> pos < match_pos st) | DO_BIN_MATCH_BADARG => False end.
Definition after_calls (k : nat) (pos : Z) (r : run_result matches_state) : Prop :=
  match r with DO_BIN_MATCH_OK t => matches_result t | DO_BIN_MATCH_RESTART st => matches_ok st /\ pos <= matches_pos st < e /\ ((0 < k)%nat -> pos < matches_pos st) | DO_BIN_MATCH_BADARG => False end.

(** Boyer-Moore. *)
Lemma bm_call k x bmd st : pats = [x] -> bin = BM_DATA bmd -> bm_for x bmd -> bf_len st = e -> s <= bf_pos st -> none x hay e s (bf_pos st) ->
  exists r, bm_find_first_match st bmd hay (get_reds max_loop_limit (left k) BM_LOOP_FACTOR) = Ok r /\
    after_call k (bf_pos st) (match r with BM_NOT_FOUND => DO_BIN_MATCH_OK (T_ATOM am_nomatch) | BM_RESTART s => DO_BIN_MATCH_RESTART (BM_FIRST s) | BM_FOUND pos => DO_BIN_MATCH_OK (match_tuple (pos, bm_len bmd)) end).
Proof.
  intros Ep Eb Hb Hle Hp N. pose proof Hb as (El & Hx & _). destruct (factors k) as [[R1 R2] _]. unfold bm_find_first_match. rewrite Hle. destruct (bm_first_spec x hay bmd e Hb (contents_bytes _ B) ltac:(rewrite len_hay; lia) (Z.to_nat (e - bf_pos st + 1)) (bf_pos st) _ ltac:(lia) ltac:(lia) R1) as (r & -> & P).
  exists r. split; auto. destruct r as [p| |st']; cbn [after_call]; unfold match_result; rewrite ?Ep.
  - destruct P as (P1 & P2 & P3 & P4). right. exists (p, len x). split; [f_equal; f_equal; now rewrite El|]. apply first_match_one; auto; [lia|]. eapply none_trans; eauto.
  - left. split; auto. intros p (Q1 & Q2 & Q3 & Q4)%matches_one. destruct (Z_lt_le_dec (fst p) (bf_pos st)); [apply (N (fst p))|apply (P (fst p))]; auto; lia.
  - destruct P as (P1 & P2 & P3 & P4). cbn [match_pos match_ok]. rewrite Eb. split; [|lia]. exists x. splits; auto; try lia. eapply none_trans; eauto.
Qed.
Lemma ac_call k act ws st : bin = AC_DATA act -> [] ∉ pats -> compiled pats (nodes act) ws -> first_inv pats ws hay s e st ->
  exists r, ac_find_first_match st act hay (get_reds max_loop_limit (left k) AC_LOOP_FACTOR) = Ok r /\
    after_call k (af_pos st) (match r with AC_NOT_FOUND => DO_BIN_MATCH_OK (T_ATOM am_nomatch) | AC_RESTART s => DO_BIN_MATCH_RESTART (AC_FIRST s) | AC_FOUND pos rlen => DO_BIN_MATCH_OK (match_tuple (pos, rlen)) end).
Proof.
  intros Eb N0 K (I1 & I2 & I3 & I4). destruct (factors k) as [_ [R1 R2]]. unfold ac_find_first_match. rewrite I1.
  destruct (ac_first_spec pats ws (nodes act) hay s e K N0 ltac:(lia) ltac:(rewrite len_hay; lia) ltac:(rewrite len_hay; lia) (Z.to_nat (e - af_pos st)) (af_pos st) (af_q st) (candidate st) (candidate_start st) _ eq_refl I2 I3 I4 R1) as (r & -> & P1 & P2).
  exists r. split; auto. destruct r as [p l| |st']; cbn [after_call first_result] in *; [right; eauto|left; auto|]. cbn [match_pos match_ok]. rewrite Eb. splits; eauto; lia.
Qed.
Lemma do_binary_match_first : exists r, do_binary_match max_loop_limit left 0 subject s e type bin None = Ok r /\ after_call 0 s r.
Proof.
  unfold do_binary_match. rewrite (aligned_spec _ B E0). cbn [mbind outcome_bind state_type]. destruct bin as [bmd|act] eqn:Eb; destruct Mg as (-> & Mg').
  - destruct Mg' as (x & Ep & Hb). destruct (bm_call 0 x bmd (bm_init_find_first_match s e)) as (r & -> & P); auto; [cbn; lia|intros p Hp; cbn in Hp; lia|]. cbn [mbind outcome_bind]. eauto.
  - destruct Mg' as (N0 & ws & K). destruct (ac_call 0 act ws (ac_init_find_first_match s e)) as (r & -> & P); auto.
    { unfold first_inv. cbn. splits; auto; try lia; [|intros p Hp; pose proof (AcSearch.match_pos _ _ _ _ N0 p Hp); lia]. unfold text. rewrite drop_ge by (rewrite length_take; lia). rewrite lsuf_id by apply (K_closed _ _ _ K). apply (trie_root _ _ (compiled_trie _ _ _ K)). }
    cbn [mbind outcome_bind]. eauto.
Qed.
Lemma do_binary_match_again k st : match_ok st -> exists r, do_binary_match max_loop_limit left k subject 0 0 (am_other 0) bin (Some st) = Ok r /\ after_call k (match_pos st) r.
Proof.
  intros Ho. unfold do_binary_match. rewrite (aligned_spec _ B E0). cbn [mbind outcome_bind]. unfold match_ok in Ho. destruct st as [st|st], bin as [bmd|act] eqn:Eb; try contradiction; cbn [state_type match_pos]; destruct Mg as (-> & Mg').
  - destruct Mg' as (x & Ep & Hb). destruct Ho as (y & Ey & O1 & O2 & O3). assert (y = x) as -> by congruence. destruct (bm_call k x bmd st) as (r & -> & P); auto; [lia|]. cbn [mbind outcome_bind]. eauto.
  - destruct Mg' as (N0 & _). destruct Ho as (ws & K & O). destruct (ac_call k act ws st) as (r & -> & P); auto. cbn [mbind outcome_bind]. eauto.
Qed.
Lemma binary_match_trap_spec fuel : forall k st, (0 < k)%nat -> match_ok st -> s <= match_pos st < e -> e - match_pos st <= Z.of_nat fuel -> exists t, binary_match_trap max_loop_limit left fuel k subject st bin = Ok (BIF_RET t) /\ match_result t.
Proof.
  induction fuel as [|fuel IH]; intros k st Hk Ho Hp Hf; [lia|]. cbn [binary_match_trap]. destruct (do_binary_match_again k st Ho) as (r & -> & P). cbn [mbind outcome_bind]. destruct r as [t| |st']; [eauto|contradiction|]. destruct P as (P1 & P2 & P3). specialize (P3 Hk). apply IH; auto; lia.
Qed.

(** All matches. *)
Lemma matches_list_spec out : forall l ret, take (length l) out = map Some l -> matches_list (length l) out ret = Ok (foldr T_LIST ret (map match_tuple l)).
Proof.
  induction l as [|p l IH] using rev_ind; intros ret E; [reflexivity|]. rewrite length_app in *. cbn [length] in *. rewrite Nat.add_1_r in *. cbn [matches_list]. assert (L : length (take (S (length l)) out) = S (length l)) by (rewrite E, length_map, length_app; cbn; lia). rewrite length_take in L.
  destruct (lookup_lt_is_Some_2 out (length l)) as [q Eq]; [lia|]. rewrite (take_S_r _ _ _ Eq), map_app in E. apply app_inj_tail in E as [E ->]. rewrite (peek_Some out (Z.of_nat (length l)) (Some p)) by (rewrite ?Nat2Z.id; auto; lia). cbn [mbind outcome_bind require]. rewrite IH by auto. rewrite map_app, foldr_app. reflexivity.
Qed.
Lemma matches_found a l : fa_m a = len l -> take (Z.to_nat (fa_m a)) (fa_out a) = map Some l -> all_matches M s l -> exists t, matches_list (Z.to_nat (fa_m a)) (fa_out a) T_NIL = Ok t /\ matches_result t.
Proof. intros Em Et A. rewrite Em, Nat2Z.id in *. rewrite (matches_list_spec _ l) by auto. eexists. split; [reflexivity|]. exists l. auto. Qed.
Lemma bm_calls k x bmd st : pats = [x] -> bin = BM_DATA bmd -> bm_for x bmd -> ba_len st = e -> s <= ba_pos st -> found x hay e s (ba_pos st) (ba_found st) ->
  exists r, bm_find_all_non_overlapping st bmd hay (get_reds max_loop_limit (left k) BM_LOOP_FACTOR) = Ok r /\
    exists r', match r with BM_NONE_FOUND => Ok (DO_BIN_MATCH_OK T_NIL) | BM_ALL_RESTART s => Ok (DO_BIN_MATCH_RESTART (BM_ALL s)) | BM_OK a => ret ← matches_list (Z.to_nat (fa_m a)) (fa_out a) T_NIL; Ok (DO_BIN_MATCH_OK ret) end = Ok r' /\ after_calls k (ba_pos st) r'.
Proof.
  intros Ep Eb Hb Hle Hp F. pose proof Hb as (El & Hx & _). destruct (factors k) as [[R1 R2] _]. unfold bm_find_all_non_overlapping. rewrite Hle.
  destruct (bm_all_spec x hay bmd e Hb (contents_bytes _ B) ltac:(rewrite len_hay; lia) s (Z.to_nat (e - ba_pos st + 1)) (ba_pos st) _ (ba_found st) ltac:(lia) ltac:(lia) R1 F) as (r & -> & P). exists r. split; auto. destruct r as [a| |st'].
  - destruct P as (l & Nl & Et & Em & A). destruct (matches_found a l Em Et) as (t & -> & Ht); [now rewrite Ep|]. cbn [mbind outcome_bind]. eauto.
  - eexists. split; [reflexivity|]. exists []. split; auto. now rewrite Ep.
  - eexists. split; [reflexivity|]. destruct P as (P1 & P2 & P3 & P4). cbn [after_calls matches_pos matches_ok]. rewrite Eb. split; [|lia]. exists x. splits; auto; lia.
Qed.
Lemma ac_calls k act ws st : bin = AC_DATA act -> [] ∉ pats -> compiled pats (nodes act) ws -> all_inv pats ws hay s e st ->
  exists r, ac_find_all_non_overlapping st act hay (get_reds max_loop_limit (left k) AC_LOOP_FACTOR) = Ok r /\
    exists r', match r with AC_NONE_FOUND => Ok (DO_BIN_MATCH_OK T_NIL) | AC_ALL_RESTART s => Ok (DO_BIN_MATCH_RESTART (AC_ALL s)) | AC_OK a => ret ← matches_list (Z.to_nat (fa_m a)) (fa_out a) T_NIL; Ok (DO_BIN_MATCH_OK ret) end = Ok r' /\ after_calls k (aa_pos st) r'.
Proof.
  intros Eb N0 K (I1 & I2 & I3 & l & I4 & I5). destruct (factors k) as [_ [R1 R2]]. unfold ac_find_all_non_overlapping. rewrite I1.
  destruct (ac_all_spec pats ws (nodes act) hay s e K N0 ltac:(lia) ltac:(rewrite len_hay; lia) ltac:(rewrite len_hay; lia) (Z.to_nat (e - aa_pos st)) (aa_pos st) (aa_q st) _ (aa_found st) l eq_refl I2 I3 I4 I5 R1) as (r & -> & P1 & P2).
  exists r. split; auto. destruct r as [a| |st']; cbn [all_result] in *.
  - destruct P1 as (l' & Nl & (_ & Et & Em) & A). destruct (matches_found a l' Em Et A) as (t & -> & Ht). cbn [mbind outcome_bind]. eauto.
  - eexists. split; [reflexivity|]. exists []. auto.
  - eexists. split; [reflexivity|]. cbn [after_calls matches_pos matches_ok]. rewrite Eb. splits; eauto; lia.
Qed.
Lemma do_binary_matches_first : exists r, do_binary_matches max_loop_limit left 0 subject s e type bin None = Ok r /\ after_calls 0 s r.
Proof.
  unfold do_binary_matches. rewrite (aligned_spec _ B E0). cbn [mbind outcome_bind all_type]. destruct bin as [bmd|act] eqn:Eb; destruct Mg as (-> & Mg').
  - destruct Mg' as (x & Ep & Hb). destruct (bm_calls 0 x bmd (bm_init_find_all s e)) as (r & -> & P); auto; [cbn; lia|]. exists []. cbn. splits; auto; lia.
  - destruct Mg' as (N0 & ws & K). destruct (ac_calls 0 act ws (ac_init_find_all s e)) as (r & -> & P); auto.
    unfold all_inv. cbn. splits; auto; try lia; [unfold text; rewrite drop_ge by (rewrite length_take; lia); rewrite lsuf_id by apply (K_closed _ _ _ K); apply (trie_root _ _ (compiled_trie _ _ _ K))|].
    exists []. split; [unfold array_of; cbn; splits; auto; lia|]. apply no_more. intros p [Mp D]. pose proof (AcSearch.match_pos _ _ _ _ N0 p Mp). lia.
Qed.
Lemma do_binary_matches_again k st : matches_ok st -> exists r, do_binary_matches max_loop_limit left k subject 0 0 (am_other 0) bin (Some st) = Ok r /\ after_calls k (matches_pos st) r.
Proof.
  intros Ho. unfold do_binary_matches. rewrite (aligned_spec _ B E0). cbn [mbind outcome_bind]. unfold matches_ok in Ho. destruct st as [st|st], bin as [bmd|act] eqn:Eb; try contradiction; cbn [all_type matches_pos]; destruct Mg as (-> & Mg').
  - destruct Mg' as (x & Ep & Hb). destruct Ho as (y & Ey & O1 & O2 & O3). assert (y = x) as -> by congruence. destruct (bm_calls k x bmd (bm_restore_find_all st)) as (r & -> & P); auto; [cbn; lia|]. now apply restore_found.
  - destruct Mg' as (N0 & _). destruct Ho as (ws & K & O). destruct (ac_calls k act ws (ac_restore_find_all st)) as (r & -> & P); auto. now apply restore_inv.
Qed.
Lemma binary_matches_trap_spec fuel : forall k st, (0 < k)%nat -> matches_ok st -> s <= matches_pos st < e -> e - matches_pos st <= Z.of_nat fuel -> exists t, binary_matches_trap max_loop_limit left fuel k subject st bin = Ok (BIF_RET t) /\ matches_result t.
Proof.
  induction fuel as [|fuel IH]; intros k st Hk Ho Hp Hf; [lia|]. cbn [binary_matches_trap]. destruct (do_binary_matches_again k st Ho) as (r & -> & P). cbn [mbind outcome_bind]. destruct r as [t| |st']; [eauto|contradiction|]. destruct P as (P1 & P2 & P3). specialize (P3 Hk). apply IH; auto; lia.
Qed.
End Run.

(** ** The pattern argument *)
(** A compiled pattern, or what is compiled now. *)
Definition stands_for (t : term) (pats : list (list Z)) : Prop :=
  match t with
  | T_TUPLE ts => exists type bin, ts = [T_ATOM type; T_MAGIC bin] /\ magic_for pats type bin
  | _ => patterns_ok t /\ patterns_of t = Some pats /\ len (concat pats) < 2 ^ 31
  end.
Lemma list_patterns_length t : forall pats, list_patterns t = Some pats -> patterns_ok t -> len pats <= len (concat pats).
Proof.
  induction t as [t L|b t IH] using list_term_ind; intros pats E P; [destruct t; try discriminate; injection E as <-; cbn; lia|]. cbn [list_patterns] in E. destruct (one_pattern b) as [x|] eqn:E1; [|discriminate]. cbn [mbind option_bind] in E. destruct (list_patterns t) as [xs|]; [|discriminate]. injection E as <-.
  destruct P as [Pb Pt]. destruct (one_pattern_Some b x Pb E1) as (bin & _ & _ & _ & Hs & _ & Lx & _). specialize (IH xs eq_refl Pt). cbn [length concat]. rewrite length_app. lia.
Qed.
Lemma patterns_of_length t pats : patterns_of t = Some pats -> patterns_ok t -> len pats <= len (concat pats).
Proof.
  intros E P. destruct (is_list t) eqn:L; [destruct t; try discriminate; apply (list_patterns_length _ _ E P)|]. assert (E1 : exists x, one_pattern t = Some x /\ pats = [x]).
  { destruct t; try discriminate; cbn [patterns_of] in E; (destruct (one_pattern _) as [x|]; [|discriminate]; injection E as <-; eauto). }
  destruct E1 as (x & E1 & ->). assert (B : binary_ok t) by (destruct t; auto; discriminate). destruct (one_pattern_Some t x B E1) as (bin & _ & _ & _ & Hs & _ & Lx & _). cbn [concat length]. rewrite app_nil_r. lia.
Qed.
Lemma pattern_of_spec t pats : stands_for t pats -> exists type bin, pattern_of t = Ok (Some (type, bin)) /\ magic_for pats type bin.
Proof.
  intros H. assert (G : patterns_ok t /\ patterns_of t = Some pats /\ len (concat pats) < 2 ^ 31 -> exists type bin, do_binary_match_compile t = Ok (Some (type, bin)) /\ magic_for pats type bin).
  { intros (P & E & L). pose proof (patterns_of_length t pats E P) as Lp. pose proof (do_binary_match_compile_spec t P) as C. rewrite E in C. destruct C as (_ & type & bin & C & M & _); [lia|lia|]. eauto. }
  destruct t; try (apply G; exact H). destruct H as (type & bin & -> & M). exists type, bin. split; auto. cbn [pattern_of]. unfold magic_for in M. destruct bin; destruct M as [-> _]; reflexivity.
Qed.
