(* ===== verification/BinaryParts.v ===== *)
(** Parts of binaries, single bytes, lists of bytes and copies (erl_bif_binary.c), the bounds
    and bytes of parts, and the progress of lists and copies over any number of calls. *)

From S2P Require Import Prelude.
From stdpp Require Import base option list.
From S2P Require Import Digits BigNum ErlArith BigConv Memory BoyerMoore BmSearch AhoCorasick CopyBits BinTerm BinaryMatch MatchSpec.
Local Open Scope Z_scope.

(** ** Parts *)
(** A length that is negative means the bytes before the position; there must be that many. *)
Definition bytes_before (pos len : Z) : option (Z * Z) :=
  if len <? 0 then
    let lentmp := w64 (- w64 len) in
    if s64 lentmp <? 0 then None else if lentmp >? pos then None else Some (w64 (pos - lentmp), lentmp)
  else Some (pos, len).
(** [erts_binary_part]. *)
Definition erts_binary_part (binary_ epos elen : term) : bif_return binary :=
  match
    b ← binary_of binary_;
    pos ← Uint_of epos;
    len ← Sint_of elen;
    '(pos, len) ← bytes_before pos len;
    if overflows pos len then None
    else if (binary_size b <? pos) || (binary_size b <? w64 (pos + len)) then None
    else Some (mkBinary (orig b) (b_offs b + pos) (bitoffs b) len 0)
  with None => BADARG | Some sb => BIF_RET sb end.
(** The guard: its arguments are in registers, or in a tuple in the last one. *)
Definition erts_gc_binary_part (reg : list term) (live : nat) (range_is_tuple : bool) : outcome (bif_return binary) :=
  if range_is_tuple then
    tpl ← require (reg !! live);
    match tpl with
    | T_TUPLE [epos; elen] => b ← require (reg !! (live - 1)%nat); Ok (erts_binary_part b epos elen)
    | _ => Ok BADARG
    end
  else
    epos ← require (reg !! (live - 1)%nat);
    elen ← require (reg !! live);
    b ← require (reg !! (live - 2)%nat);
    Ok (erts_binary_part b epos elen).
(** [binary:part/2]. *)
Definition binary_binary_part_2 (arg1 arg2 : term) : bif_return binary :=
  match arg2 with T_TUPLE [epos; elen] => erts_binary_part arg1 epos elen | _ => BADARG end.

(** ** Bytes *)
(** A byte, unless there are bits behind the bytes. *)
Definition byte_at (b : binary) (index : Z) : outcome (bif_return term) :=
  if negb (binary_bitsize b =? 0) then Ok BADARG else res ← get_byte b index; Ok (BIF_RET (T_INT (make_small res))).
(** [binary:first/1]. *)
Definition binary_first (arg1 : term) : outcome (bif_return term) :=
  match binary_of arg1 with None => Ok BADARG | Some b => if binary_size b =? 0 then Ok BADARG else byte_at b 0 end.
(** [binary:last/1]. *)
Definition binary_last (arg1 : term) : outcome (bif_return term) :=
  match binary_of arg1 with None => Ok BADARG | Some b => if binary_size b =? 0 then Ok BADARG else byte_at b (binary_size b - 1) end.
(** [binary:at/2]. *)
Definition binary_at (arg1 arg2 : term) : outcome (bif_return term) :=
  match binary_of arg1 with
  | None => Ok BADARG
  | Some b =>
      if binary_size b =? 0 then Ok BADARG
      else match Uint_of arg2 with None => Ok BADARG | Some index => if index >=? binary_size b then Ok BADARG else byte_at b index end
  end.

Definition BIN_TO_LIST_LOOP_FACTOR : Z := 10.
Definition BINARY_COPY_LOOP_FACTOR : Z := 100.
Definition COMMON_LOOP_FACTOR : Z := 10.
(** [loops] bytes, from the last one on. *)
Fixpoint bytes_to_list (loops : nat) (b : binary) (start len : Z) (term_ : term) : outcome (term * Z) :=
  match loops with
  | O => Ok (term_, len)
  | S loops => let len := len - 1 in n ← get_byte b (start + len); bytes_to_list loops b start len (T_LIST (T_INT (make_small n)) term_)
  end.
(** ** Copies *)
Definition memcpy (dst : list Z) (pos : Z) (src : list Z) : outcome (list Z) :=
  if (0 <=? pos) && (pos + len src <=? len dst) then Ok (take (Z.to_nat pos) dst ++ src ++ drop (Z.to_nat pos + length src) dst) else Undef.
(** While fewer than [n] bytes are copied; the number of copies. *)
Fixpoint copy_loop (fuel : nat) (t : list Z) (opos pos n : Z) (source : list Z) (i : Z) : outcome (list Z * Z * Z) :=
  if pos - opos <? n then
    match fuel with
    | O => Undef
    | S fuel => t ← memcpy t pos source; copy_loop fuel t opos (pos + len source) n source (i + 1)
    end
  else Ok (t, pos, i).
(** The copies that are left, the bytes that are copied, how far they are written, and the
    result. *)
Record CopyBinState := mkCopy { times_left : Z; source : list Z; result_pos : Z; copied_to : list Z }.
(** The whole result, or a state to go on with. *)
Inductive copy_result := COPY_DONE (bytes : list Z) | COPY_TRAP (cbs : CopyBinState).

Section Reductions.
Variables (max_loop_limit : Z) (left : nat -> Z).
(** Called again with the bytes that are left; [fuel] bounds the calls. *)
Fixpoint do_bin_to_list (fuel k : nat) (b : binary) (start len : Z) (term_ : term) : outcome (bif_return term) :=
  match fuel with
  | O => Undef
  | S fuel =>
      let reds := get_reds max_loop_limit (left k) BIN_TO_LIST_LOOP_FACTOR in
      '(term_, len) ← bytes_to_list (Z.to_nat (Z.min reds len)) b start len term_;
      if len =? 0 then Ok (BIF_RET term_) else do_bin_to_list fuel (S k) b start len term_
  end.
(** [binary:bin_to_list/3]. *)
Definition binary_bin_to_list_common (fuel : nat) (bin epos elen : term) : outcome (bif_return term) :=
  match
    b ← binary_of bin;
    pos ← Uint_of epos;
    len ← Sint_of elen;
    '(pos, len) ← bytes_before pos len;
    if overflows pos len then None
    else if w64 (pos + len) >? binary_size b then None
    else if negb (binary_bitsize b =? 0) then None
    else Some (b, pos, len)
  with
  | None => Ok BADARG
  | Some (b, pos, len) => do_bin_to_list fuel 0 b pos len T_NIL
  end.
(** [binary:bin_to_list/2]. *)
Definition binary_bin_to_list_2 (fuel : nat) (arg1 arg2 : term) : outcome (bif_return term) :=
  match arg2 with T_TUPLE [epos; elen] => binary_bin_to_list_common fuel arg1 epos elen | _ => Ok BADARG end.
(** [binary:bin_to_list/1]. *)
Definition binary_bin_to_list_1 (fuel : nat) (arg1 : term) : outcome (bif_return term) :=
  match binary_of arg1 with
  | None => Ok BADARG
  | Some b => if negb (binary_bitsize b =? 0) then Ok BADARG else do_bin_to_list fuel 0 b 0 (binary_size b) T_NIL
  end.

(** [do_binary_copy]: the copies that fit in the first call. *)
Definition do_binary_copy (bin en : term) : outcome (bif_return copy_result) :=
  match binary_of bin, Uint_of en with
  | Some b, Some n =>
      if n =? 0 then Ok (BIF_RET (COPY_DONE []))
      else
        bytes ← erts_get_aligned_binary_bytes b;
        match bytes with
        | None => Ok BADARG
        | Some source =>
            let reds := get_reds max_loop_limit (left 0%nat) BINARY_COPY_LOOP_FACTOR in
            let size := binary_size b in
            let target_size := w64 (size * n) in
            let t := replicate (Z.to_nat target_size) 0 in
            if w64 (target_size - size) >=? reds then
              '(t, pos, i) ← copy_loop (Z.to_nat reds) t 0 0 reds source 0;
              Ok (BIF_RET (COPY_TRAP (mkCopy (w64 (n - i)) source pos t)))
            else
              '(t, _, _) ← copy_loop (Z.to_nat target_size) t 0 0 target_size source 0;
              Ok (BIF_RET (COPY_DONE t))
        end
  | _, _ => Ok BADARG
  end.
(** [binary_copy_trap], in the call [k]. *)
Definition binary_copy_trap (k : nat) (cbs : CopyBinState) : outcome copy_result :=
  let reds := get_reds max_loop_limit (left k) BINARY_COPY_LOOP_FACTOR in
  let size := len (source cbs) in
  if w64 ((times_left cbs - 1) * size) >=? reds then
    '(t, pos, i) ← copy_loop (Z.to_nat reds) (copied_to cbs) (result_pos cbs) (result_pos cbs) reds (source cbs) 0;
    Ok (COPY_TRAP (mkCopy (w64 (times_left cbs - i)) (source cbs) pos t))
  else
    let target_size := len (copied_to cbs) in
    '(t, _, _) ← copy_loop (Z.to_nat target_size) (copied_to cbs) 0 (result_pos cbs) target_size (source cbs) 0;
    Ok (COPY_DONE t).
(** As many calls as it takes. *)
Fixpoint copy_traps (fuel k : nat) (cbs : CopyBinState) : outcome (list Z) :=
  match fuel with
  | O => Undef
  | S fuel => r ← binary_copy_trap k cbs; match r with COPY_DONE t => Ok t | COPY_TRAP cbs => copy_traps fuel (S k) cbs end
  end.
(** [binary:copy/2]. *)
Definition binary_copy (fuel : nat) (bin en : term) : outcome (bif_return term) :=
  r ← do_binary_copy bin en;
  match r with
  | BADARG => Ok BADARG
  | BIF_RET (COPY_DONE t) => Ok (BIF_RET (T_BINARY (real_binary t)))
  | BIF_RET (COPY_TRAP cbs) => t ← copy_traps fuel 1 cbs; Ok (BIF_RET (T_BINARY (real_binary t)))
  end.
End Reductions.

(** ** Parts *)
Definition sub_list {A} (s e : Z) (l : list A) : list A := take (Z.to_nat (e - s)) (drop (Z.to_nat s) l).
Lemma bytes_before_spec pos len : 0 <= pos < 2 ^ 64 -> - 2 ^ 63 <= len < 2 ^ 63 ->
  bytes_before pos len = if len <? 0 then if (pos + len <? 0) || (len =? - 2 ^ 63) then None else Some (pos + len, - len) else Some (pos, len).
Proof.
  intros Hp Hl. pose proof (before_pos_spec pos len Hp Hl) as E. unfold before_pos, bytes_before in *. destruct (Z.ltb_spec len 0) as [L|L]; [|reflexivity]. cbv zeta in *. rewrite (w64_wrap len 1) in * by lia. rewrite (w64_wrap (- (len + 1 * 2 ^ 64)) 1) in * by lia.
  replace (- (len + 1 * 2 ^ 64) + 1 * 2 ^ 64) with (- len) in * by lia. destruct (s64 (- len) <? 0), (Z.eqb_spec len (- 2 ^ 63)); try discriminate; rewrite ?orb_true_r, ?orb_false_r; auto. rewrite Z.gtb_ltb. destruct (Z.ltb_spec pos (- len)), (Z.ltb_spec (pos + len) 0); auto; try lia. rewrite w64_id by (split; lia). do 2 f_equal. lia.
Qed.
(** The checks accept the parts that are inside, and no others. *)
Lemma part_checks2 size pos len : 0 <= size < 2 ^ 63 -> 0 <= pos < 2 ^ 64 -> - 2 ^ 63 <= len < 2 ^ 63 -> forall (check : Z -> Z -> bool),
  (forall p l, 0 <= p < 2 ^ 64 -> 0 <= l < 2 ^ 63 -> p + l < 2 ^ 64 -> check p l = (size <? p + l)) ->
  ('(p, l) ← bytes_before pos len; if overflows p l then None else if check p l then None else Some (p, l)) = '(s, e) ← part_of size pos len; Some (s, e - s).
Proof.
  intros Hs Hp Hl check Hc. rewrite bytes_before_spec by auto. unfold part_of, overflows. destruct (Z.ltb_spec len 0) as [L|L].
  - destruct (Z.ltb_spec (pos + len) 0) as [P|P]; cbn [orb]; [rewrite (proj2 (Z.leb_gt 0 _)) by lia; reflexivity|]. rewrite (proj2 (Z.leb_le 0 _)) by lia. cbn [andb]. destruct (Z.eqb_spec len (- 2 ^ 63)) as [E|N]; [destruct (Z.leb_spec pos size); [lia|reflexivity]|]. cbn [mbind option_bind].
    rewrite (w64_id (pos + len + - len)) by (split; lia). replace (pos + len + - len) with pos by lia. rewrite (proj2 (Z.ltb_ge pos (pos + len))), (proj2 (Z.eqb_neq pos (pos + len))), andb_false_r by lia. cbn [orb]. rewrite Hc by lia. replace (pos + len + - len) with pos by lia.
    destruct (Z.ltb_spec size pos), (Z.leb_spec pos size); cbn [mbind option_bind]; auto; try lia. do 2 f_equal. lia.
  - cbn [mbind option_bind]. rewrite (proj2 (Z.leb_le 0 pos)) by lia. cbn [andb]. destruct (Z_lt_le_dec (pos + len) (2 ^ 64)) as [W|W].
    + rewrite (w64_id (pos + len)) by (split; lia). rewrite (proj2 (Z.ltb_ge (pos + len) pos)) by lia. replace ((len >? 0) && (pos + len =? pos)) with false by lia. cbn [orb]. rewrite Hc by lia. destruct (Z.ltb_spec size (pos + len)), (Z.leb_spec (pos + len) size); cbn [mbind option_bind]; auto; try lia. do 2 f_equal. lia.
    + rewrite (w64_wrap (pos + len) (-1)) by lia. rewrite (proj2 (Z.ltb_lt _ pos)) by lia. cbn [orb]. rewrite (proj2 (Z.leb_gt _ size)) by lia. reflexivity.
Qed.
Lemma part_args {A} size epos elen pos len (f : Z -> Z -> option A) : 0 <= size < 2 ^ 63 -> int_at epos pos -> int_at elen len ->
  (forall pos len, 0 <= pos < 2 ^ 64 -> - 2 ^ 63 <= len < 2 ^ 63 -> part_of size pos len = None -> f pos len = None) ->
  (pos ← Uint_of epos; len ← Sint_of elen; f pos len) = if bool_decide (is_Some (part_of size pos len)) then f pos len else None.
Proof.
  intros Hs Hp Hn Hf. rewrite (Uint_of_spec _ _ Hp), (Sint_of_spec _ _ Hn). destruct ((0 <=? pos) && (pos <? 2 ^ 64)) eqn:Ep; cbn [mbind option_bind].
  - destruct ((- 2 ^ 63 <=? len) && (len <? 2 ^ 63)) eqn:El; cbn [mbind option_bind].
    + destruct (part_of size pos len) eqn:E; [rewrite bool_decide_true by eauto; reflexivity|rewrite bool_decide_false by (now intros [? [=]]); apply Hf; auto; lia].
    + rewrite bool_decide_false; [reflexivity|]. unfold part_of. intros [? H]. revert H. destruct (Z.ltb_spec len 0), (Z.leb_spec 0 (pos + len)), (Z.leb_spec pos size), (Z.leb_spec 0 pos), (Z.leb_spec (pos + len) size); cbn [andb]; try discriminate; lia.
  - rewrite bool_decide_false; [reflexivity|]. unfold part_of. intros [? H]. revert H. destruct (Z.ltb_spec len 0), (Z.leb_spec 0 (pos + len)), (Z.leb_spec pos size), (Z.leb_spec 0 pos), (Z.leb_spec (pos + len) size); cbn [andb]; try discriminate; lia.
Qed.
Lemma part_range size pos len s e : 0 <= size < 2 ^ 63 -> part_of size pos len = Some (s, e) -> 0 <= pos < 2 ^ 64 /\ - 2 ^ 63 <= len < 2 ^ 63.
Proof. intros Hs. unfold part_of. destruct (Z.ltb_spec len 0), (Z.leb_spec 0 (pos + len)), (Z.leb_spec pos size), (Z.leb_spec 0 pos), (Z.leb_spec (pos + len) size); cbn [andb]; intros [=]; lia. Qed.
(** The part is found, or refused. *)
Lemma find_part {A} size epos elen pos len (check : Z -> Z -> bool) (g : Z -> Z -> option A) : 0 <= size < 2 ^ 63 -> int_at epos pos -> int_at elen len ->
  (forall p l, 0 <= p < 2 ^ 64 -> 0 <= l < 2 ^ 63 -> p + l < 2 ^ 64 -> check p l = (size <? p + l)) ->
  (pos ← Uint_of epos; len ← Sint_of elen; '(p, l) ← bytes_before pos len; if overflows p l then None else if check p l then None else g p l) = '(s, e) ← part_of size pos len; g s (e - s).
Proof.
  intros Hs Hp Hn Hc. assert (E : forall pos len, 0 <= pos < 2 ^ 64 -> - 2 ^ 63 <= len < 2 ^ 63 -> ('(p, l) ← bytes_before pos len; if overflows p l then None else if check p l then None else g p l) = '(s, e) ← part_of size pos len; g s (e - s)).
  { intros p l Hp1 Hl1. pose proof (part_checks2 size p l Hs Hp1 Hl1 check Hc) as E. destruct (bytes_before p l) as [[p' l']|]; cbn [mbind option_bind] in *; [destruct (overflows p' l'); [|destruct (check p' l')]|]; (destruct (part_of size p l) as [[s e]|]; cbn [mbind option_bind] in *; try discriminate; auto). now injection E as -> ->. }
  rewrite (part_args size epos elen pos len) by (auto; intros p l Hp1 Hl1 E0; rewrite E, E0 by auto; reflexivity). destruct (part_of size pos len) as [[s e]|] eqn:Ep.
  - rewrite bool_decide_true by eauto. destruct (part_range _ _ _ _ _ Hs Ep) as [R1 R2]. now rewrite E, Ep.
  - now rewrite bool_decide_false by (now intros [? [=]]).
Qed.
Lemma sub_binary b s e : bin_ok b -> 0 <= s <= e -> e <= binary_size b -> let sb := mkBinary (orig b) (b_offs b + s) (bitoffs b) (e - s) 0 in bin_ok sb /\ contents sb = sub_list s e (contents b).
Proof.
  intros B Hs He sb. pose proof (contents_length b B) as L. pose proof B as (F & Ho & Hb & Hz & Hbs & Hl). assert (Bs : bin_ok sb) by (unfold bin_ok; cbn; splits; auto; lia). split; auto. pose proof (contents_length sb Bs) as Ls. assert (Es : binary_size sb = e - s) by reflexivity.
  apply list_eq_same_length with (n := Z.to_nat (e - s)); [unfold sub_list; rewrite length_take, length_drop; lia|lia|]. intros i x y Hi Ex Ey. rewrite contents_lookup in Ex by lia. unfold sub_list in Ey. rewrite lookup_take_lt, lookup_drop, contents_lookup in Ey by lia. injection Ex as <-. injection Ey as <-.
  unfold byte_of, sb. cbn [bitoffs orig b_offs]. replace (b_offs b + s + Z.of_nat i) with (b_offs b + Z.of_nat (Z.to_nat s + i)) by lia. reflexivity.
Qed.
Lemma erts_binary_part_spec t b epos elen pos len : binary_of t = Some b -> bin_ok b -> binary_size b < 2 ^ 63 -> int_at epos pos -> int_at elen len ->
  match part_of (binary_size b) pos len with
  | None => erts_binary_part t epos elen = BADARG
  | Some (s, e) => exists sb, erts_binary_part t epos elen = BIF_RET sb /\ bin_ok sb /\ binary_bitsize sb = 0 /\ contents sb = sub_list s e (contents b)
  end.
Proof.
  intros Eb B Hz Hp Hl. pose proof B as (_ & _ & _ & Hs & _). unfold erts_binary_part. rewrite Eb. cbn [mbind option_bind].
  pose proof (find_part (binary_size b) epos elen pos len (fun p l => (binary_size b <? p) || (binary_size b <? w64 (p + l))) (fun p l => Some (mkBinary (orig b) (b_offs b + p) (bitoffs b) l 0)) ltac:(lia) Hp Hl) as E. rewrite E.
  - destruct (part_of (binary_size b) pos len) as [[s e]|] eqn:Ep; [|reflexivity]. cbn [mbind option_bind]. apply part_inside in Ep as [P1 P2]. destruct (sub_binary b s e B P1 P2) as [Bs Ec]. eexists. split; [reflexivity|]. splits; auto.
  - intros p l H1 H2 H3. rewrite w64_id by (split; lia). destruct (Z.ltb_spec (binary_size b) p), (Z.ltb_spec (binary_size b) (p + l)); auto; lia.
Qed.

(** ** Bytes *)
Definition T_BYTE (c : Z) : term := T_INT (make_small c).
Lemma byte_at_spec b i : bin_ok b -> 0 <= i < binary_size b -> byte_at b i = Ok (if binary_bitsize b =? 0 then BIF_RET (T_BYTE (elt (contents b) i)) else BADARG).
Proof. intros B Hi. unfold byte_at. destruct (binary_bitsize b =? 0); [|reflexivity]. cbn [negb]. now rewrite get_byte_spec. Qed.
Lemma sub_list_snoc l s e : 0 <= s <= e -> e < len l -> sub_list s (e + 1) l = sub_list s e l ++ [elt l e].
Proof.
  intros H1 H2. unfold sub_list. replace (Z.to_nat (e + 1 - s)) with (S (Z.to_nat (e - s))) by lia. destruct (lookup_lt_is_Some_2 l (Z.to_nat e)) as [v E]; [lia|]. unfold elt. rewrite E. cbn. apply take_S_r. rewrite lookup_drop. etrans; [|exact E]. f_equal. lia.
Qed.
Lemma sub_list_app {A} (l : list A) s m e : 0 <= s <= m -> m <= e -> sub_list s e l = sub_list s m l ++ sub_list m e l.
Proof.
  intros H1 H2. unfold sub_list. rewrite <- (take_drop (Z.to_nat (m - s)) (drop (Z.to_nat s) l)) at 1. rewrite drop_drop. replace (Z.to_nat s + Z.to_nat (m - s))%nat with (Z.to_nat m) by lia.
  destruct (decide (m - s <= len l - s)) as [L|G].
  - rewrite take_app. rewrite take_take, length_take, length_drop. f_equal; [f_equal; lia|f_equal; lia].
  - rewrite (drop_ge l (Z.to_nat m)) by lia. rewrite !take_nil, !app_nil_r. rewrite take_take. f_equal. lia.
Qed.
(** The bytes of a part as a list, before another one. *)
Definition byte_list (l : list Z) (tl : term) : term := foldr T_LIST tl (map T_BYTE l).
Lemma bytes_to_list_spec b start : bin_ok b -> 0 <= start -> forall loops n tl, 0 <= n - Z.of_nat loops -> start + n <= binary_size b ->
  bytes_to_list loops b start n tl = Ok (byte_list (sub_list (start + n - Z.of_nat loops) (start + n) (contents b)) tl, n - Z.of_nat loops).
Proof.
  intros B Hst. pose proof (contents_length b B) as L. induction loops as [|loops IH]; intros n tl Hn He; cbn [bytes_to_list].
  - unfold sub_list. change (Z.of_nat 0) with 0. rewrite !Z.sub_0_r, Z.sub_diag. reflexivity.
  - rewrite get_byte_spec by (auto; lia). cbn [mbind outcome_bind]. rewrite IH by lia. f_equal. f_equal; [|lia]. replace (start + n - Z.of_nat (S loops)) with (start + (n - 1) - Z.of_nat loops) by lia. replace (start + n) with (start + (n - 1) + 1) by lia. rewrite sub_list_snoc by lia.
    unfold byte_list. rewrite map_app, foldr_app. reflexivity.
Qed.
Section Reductions.
Variables (max_loop_limit : Z) (left : nat -> Z).
Hypothesis Hl : scheduled max_loop_limit left.
(** The list is the same, however often the process is stopped. *)
Lemma do_bin_to_list_spec b start : bin_ok b -> 0 <= start -> forall fuel k n tl, 0 <= n -> start + n <= binary_size b -> n < Z.of_nat fuel -> do_bin_to_list max_loop_limit left fuel k b start n tl = Ok (BIF_RET (byte_list (sub_list start (start + n) (contents b)) tl)).
Proof.
  intros B Hs. induction fuel as [|fuel IH]; intros k n tl Hn He Hf; [lia|]. cbn [do_bin_to_list]. destruct (get_reds_spec max_loop_limit left k BIN_TO_LIST_LOOP_FACTOR Hl ltac:(cbv; split; discriminate)) as [R _]. set (reds := get_reds _ _ _) in *. cbv zeta.
  rewrite bytes_to_list_spec by (auto; lia). cbn [mbind outcome_bind]. rewrite Z2Nat.id by lia. destruct (Z.eqb_spec (n - Z.min reds n) 0) as [E|N].
  - do 3 f_equal. f_equal. lia.
  - rewrite IH by lia. do 2 f_equal. unfold byte_list at 1 2 3. rewrite <- foldr_app, <- map_app. replace (start + (n - Z.min reds n)) with (start + n - Z.min reds n) by lia. rewrite <- sub_list_app by lia. reflexivity.
Qed.
(** ** Copies *)
Lemma memcpy_spec dst pos src : 0 <= pos -> pos + len src <= len dst -> memcpy dst pos src = Ok (take (Z.to_nat pos) dst ++ src ++ drop (Z.to_nat pos + length src) dst).
Proof. intros H1 H2. unfold memcpy. now rewrite (proj2 (Z.leb_le 0 pos)), (proj2 (Z.leb_le _ _)) by lia. Qed.
(** [m] copies are made at the start of [t]. *)
Definition filled (src t : list Z) (m : nat) : Prop := (m * length src <= length t)%nat /\ take (m * length src) t = concat (replicate m src).
Lemma filled_more src t m : filled src t m -> (S m * length src <= length t)%nat -> exists t', memcpy t (Z.of_nat m * len src) src = Ok t' /\ length t' = length t /\ filled src t' (S m).
Proof.
  intros [F1 F2] H. rewrite memcpy_spec by nia. replace (Z.to_nat (Z.of_nat m * len src)) with (m * length src)%nat by nia. eexists. split; [reflexivity|]. rewrite F2. assert (Lc : length (concat (replicate m src)) = (m * length src)%nat) by (rewrite <- F2, length_take; lia).
  split; [rewrite !length_app, Lc, length_drop; lia|]. unfold filled. rewrite !length_app, Lc, length_drop. split; [lia|]. rewrite app_assoc. rewrite take_app_le by (rewrite length_app, Lc; lia). rewrite take_ge by (rewrite length_app, Lc; lia). rewrite replicate_S_end, concat_app. cbn. now rewrite app_nil_r.
Qed.
Lemma copy_loop_spec src n m0 N : 0 < len src -> n <= (Z.of_nat N - Z.of_nat m0) * len src -> forall fuel t i m, (m0 <= m <= N)%nat -> filled src t m -> length t = (N * length src)%nat -> n - (Z.of_nat m - Z.of_nat m0) * len src <= Z.of_nat fuel ->
  exists t' m', copy_loop fuel t (Z.of_nat m0 * len src) (Z.of_nat m * len src) n src i = Ok (t', Z.of_nat m' * len src, i + (Z.of_nat m' - Z.of_nat m)) /\ (m <= m' <= N)%nat /\ length t' = length t /\ filled src t' m' /\
    n <= (Z.of_nat m' - Z.of_nat m0) * len src /\ (m' = m \/ (Z.of_nat m' - 1 - Z.of_nat m0) * len src < n).
Proof.
  intros Hs Hn. induction fuel as [|fuel IH]; intros t i m Hm F Lt Hf; cbn [copy_loop]; (destruct (Z.ltb_spec (Z.of_nat m * len src - Z.of_nat m0 * len src) n) as [L|L]; [|exists t, m; rewrite Z.sub_diag, Z.add_0_r; splits; auto; lia]); [nia|].
  assert (m < N)%nat by nia. destruct (filled_more src t m F) as (t1 & -> & L1 & F1); [nia|]. cbn [mbind outcome_bind]. replace (Z.of_nat m * len src + len src) with (Z.of_nat (S m) * len src) by lia.
  destruct (IH t1 (i + 1) (S m)) as (t' & m' & -> & M & L2 & F2 & B1 & B2); auto; [lia|lia|nia|]. exists t', m'. replace (i + 1 + (Z.of_nat m' - Z.of_nat (S m))) with (i + (Z.of_nat m' - Z.of_nat m)) by lia. splits; auto; lia.
Qed.
Definition copying (src : list Z) (N m : nat) (cbs : CopyBinState) : Prop :=
  source cbs = src /\ times_left cbs = Z.of_nat N - Z.of_nat m /\ result_pos cbs = Z.of_nat m * len src /\ length (copied_to cbs) = (N * length src)%nat /\ filled src (copied_to cbs) m /\ (m < N)%nat.
Lemma copied_all src N t : filled src t N -> length t = (N * length src)%nat -> t = concat (replicate N src).
Proof. intros [_ F] L. rewrite <- F. symmetry. apply take_ge. lia. Qed.
Lemma binary_copy_trap_spec src N m k cbs : 0 < len src -> Z.of_nat N * len src < 2 ^ 64 -> copying src N m cbs ->
  exists r, binary_copy_trap max_loop_limit left k cbs = Ok r /\ match r with COPY_DONE t => t = concat (replicate N src) | COPY_TRAP cbs => exists m', copying src N m' cbs /\ (m < m')%nat end.
Proof.
  intros Hs HN (Es & Et & Ep & El & F & Hm). unfold binary_copy_trap. cbv zeta. destruct (get_reds_spec max_loop_limit left k BINARY_COPY_LOOP_FACTOR Hl ltac:(cbv; split; discriminate)) as [R _]. set (reds := get_reds _ _ _) in *. rewrite Es, Et, Ep, El. rewrite (w64_id ((Z.of_nat N - Z.of_nat m - 1) * len src)) by (split; nia).
  rewrite Z.geb_leb. destruct (Z.leb_spec reds ((Z.of_nat N - Z.of_nat m - 1) * len src)) as [L|L].
  - destruct (copy_loop_spec src reds m N Hs ltac:(nia) (Z.to_nat reds) (copied_to cbs) 0 m) as (t' & m' & -> & M & L2 & F2 & B1 & B2); auto; try lia. cbn [mbind outcome_bind]. eexists. split; [reflexivity|]. assert (m < m' < N)%nat by nia. exists m'. split; [|lia]. unfold copying. cbn. rewrite w64_id by (split; nia). splits; auto; try lia.
  - pose proof (copy_loop_spec src (Z.of_nat (N * length src)) 0 N Hs ltac:(nia) (Z.to_nat (Z.of_nat (N * length src))) (copied_to cbs) 0 m) as C. rewrite Z.mul_0_l in C. destruct C as (t' & m' & -> & M & L2 & F2 & B1 & B2); auto; try nia. cbn [mbind outcome_bind]. eexists. split; [reflexivity|]. assert (m' = N) as -> by nia. apply copied_all; auto. lia.
Qed.
Lemma copy_traps_spec src N : 0 < len src -> Z.of_nat N * len src < 2 ^ 64 -> forall fuel k m cbs, copying src N m cbs -> (N - m <= fuel)%nat -> copy_traps max_loop_limit left fuel k cbs = Ok (concat (replicate N src)).
Proof.
  intros Hs HN. induction fuel as [|fuel IH]; intros k m cbs C Hf; [destruct C as (_ & _ & _ & _ & _ & ?); lia|]. cbn [copy_traps]. destruct (binary_copy_trap_spec src N m k cbs Hs HN C) as (r & -> & P). cbn [mbind outcome_bind]. destruct r as [t|cbs']; [now rewrite P|]. destruct P as (m' & C' & Hm). apply (IH _ m'); auto. destruct C as (_ & _ & _ & _ & _ & ?). lia.
Qed.
Lemma binary_copy_spec fuel t en b n : binary_of t = Some b -> bin_ok b -> binary_bitsize b = 0 -> int_at en n -> 0 <= n -> binary_size b * n < 2 ^ 64 -> n < 2 ^ 64 -> n <= Z.of_nat fuel ->
  binary_copy max_loop_limit left fuel t en = Ok (BIF_RET (T_BINARY (real_binary (concat (replicate (Z.to_nat n) (contents b)))))).
Proof.
  intros Eb B E0 Hn Hn0 HN Hn64 Hf. unfold binary_copy, do_binary_copy. rewrite Eb, (Uint_of_spec _ _ Hn). replace ((0 <=? n) && (n <? 2 ^ 64)) with true by lia. destruct (Z.eqb_spec n 0) as [->|N0]; [reflexivity|]. rewrite (aligned_spec b B E0). cbn [mbind outcome_bind]. cbv zeta.
  destruct (get_reds_spec max_loop_limit left 0 BINARY_COPY_LOOP_FACTOR Hl ltac:(cbv; split; discriminate)) as [R _]. set (reds := get_reds _ _ _) in *. pose proof (contents_length b B) as L. pose proof B as (_ & _ & _ & Hs & _). rewrite (w64_id (binary_size b * n)) by (split; nia). rewrite (w64_id (binary_size b * n - binary_size b)) by (split; nia).
  set (N := Z.to_nat n). set (src := contents b) in *. assert (En : n = Z.of_nat N) by lia. rewrite Z.geb_leb. destruct (Z.eq_dec (binary_size b) 0) as [Z0|NZ].
  - rewrite Z0. rewrite Z.mul_0_l, Z.sub_0_r. rewrite (proj2 (Z.leb_gt reds 0)) by lia. cbn [Z.to_nat replicate copy_loop Z.sub Z.ltb Z.compare mbind outcome_bind]. do 4 f_equal. assert (src = []) as -> by (destruct src; [auto|cbn [length] in L; lia]). clear. induction N; cbn; auto.
  - assert (Lt : length (replicate (Z.to_nat (binary_size b * n)) 0) = (N * length src)%nat) by (rewrite length_replicate; nia). assert (F0 : filled src (replicate (Z.to_nat (binary_size b * n)) 0) 0) by (split; [lia|reflexivity]).
    destruct (Z.leb_spec reds (binary_size b * n - binary_size b)) as [G|G].
    + pose proof (copy_loop_spec src reds 0 N ltac:(lia) ltac:(nia) (Z.to_nat reds) _ 0 0 ltac:(lia) F0 Lt ltac:(lia)) as C. rewrite Z.mul_0_l in C. destruct C as (t' & m' & -> & M & L2 & F2 & B1 & B2). cbn [mbind outcome_bind]. rewrite (copy_traps_spec src N ltac:(lia) ltac:(nia) fuel 1 m'); [reflexivity| |lia].
      assert (m' < N)%nat by nia. unfold copying. cbn. rewrite w64_id by (split; nia). splits; auto; lia.
    + pose proof (copy_loop_spec src (binary_size b * n) 0 N ltac:(lia) ltac:(nia) (Z.to_nat (binary_size b * n)) _ 0 0 ltac:(lia) F0 Lt ltac:(lia)) as C. rewrite Z.mul_0_l in C. destruct C as (t' & m' & -> & M & L2 & F2 & B1 & B2). cbn [mbind outcome_bind]. do 4 f_equal. assert (m' = N) as -> by nia. apply copied_all; auto. lia.
Qed.
(** When the size of the result is computed modulo 2^64 and comes out smaller than
    one copy, the first copy is written behind the result. *)
Lemma binary_copy_overrun fuel t en b n : binary_of t = Some b -> bin_ok b -> binary_bitsize b = 0 -> int_at en n -> 0 < n < 2 ^ 64 -> binary_size b < 2 ^ 63 -> w64 (binary_size b * n) < binary_size b ->
  binary_copy max_loop_limit left fuel t en = Undef.
Proof.
  intros Eb B E0 Hn Hn0 Hz Hw. unfold binary_copy, do_binary_copy. rewrite Eb, (Uint_of_spec _ _ Hn). replace ((0 <=? n) && (n <? 2 ^ 64)) with true by lia. rewrite (proj2 (Z.eqb_neq n 0)), (aligned_spec b B E0) by lia. cbn [mbind outcome_bind]. cbv zeta.
  pose proof (contents_length b B) as L. pose proof (w64_range (binary_size b * n)) as Rw. set (target := w64 (binary_size b * n)) in *. rewrite (w64_wrap (target - binary_size b) 1) by (destruct Rw; lia).
  destruct (get_reds_spec max_loop_limit left 0 BINARY_COPY_LOOP_FACTOR Hl ltac:(cbv; split; discriminate)) as [R _]. pose proof (get_reds_small max_loop_limit left 0 BINARY_COPY_LOOP_FACTOR Hl ltac:(cbv; split; discriminate)) as R2. set (reds := get_reds _ _ _) in *.
  rewrite Z.geb_leb, (proj2 (Z.leb_le reds _)) by (destruct Rw; lia). destruct (Z.to_nat reds) as [|f] eqn:Ef; [lia|]. cbn [copy_loop]. rewrite Z.sub_diag, (proj2 (Z.ltb_lt 0 reds)) by lia. unfold memcpy at 1. rewrite length_replicate. rewrite (proj2 (Z.leb_gt (0 + len (contents b)) _)) by (destruct Rw; lia). reflexivity.
Qed.
End Reductions.
