(* ===== verification/BinaryCommon.v ===== *)
(** Common prefixes and suffixes, and unsigned integers in binaries (erl_bif_binary.c); that the
    search ends at the longest common prefix. *)

From S2P Require Import Prelude.
From stdpp Require Import base option list.
From S2P Require Import Digits BigNum ErlArith BigConv Memory BoyerMoore BmSearch AhoCorasick CopyBits BinTerm BinaryMatch MatchSpec BinaryParts.
Local Open Scope Z_scope.

(** ** Common prefixes and suffixes *)
Inductive cl_direction := DIRECTION_PREFIX | DIRECTION_SUFFIX.
Inductive cl_result := CL_OK (pos : Z) | CL_RESTART (pos : Z).
(** The byte at a position from the start or from the end. *)
Definition common_byte (dir : cl_direction) (buff : list Z) (pos : Z) : outcome Z :=
  match dir with DIRECTION_PREFIX => peek buff pos | DIRECTION_SUFFIX => peek buff (len buff - 1 - pos) end.
(** One turn over the buffers; the byte of the first one is compared with the
    others. [None]: the search is over. *)
Fixpoint search_row (dir : cl_direction) (cd : list (list Z)) (pos : Z) (current : option Z) (reds : Z) : outcome (option Z) :=
  match cd with
  | [] => Ok (Some reds)
  | buff :: cd =>
      if pos >=? len buff then Ok None
      else
        b ← common_byte dir buff pos;
        match current with
        | None => search_row dir cd pos (Some b) (reds - 1)
        | Some c => if negb (b =? c) then Ok None else search_row dir cd pos current (reds - 1)
        end
  end.
(** The turns; [fuel] bounds the positions. *)
Fixpoint search_loop (fuel : nat) (dir : cl_direction) (cd : list (list Z)) (pos reds : Z) : outcome cl_result :=
  match fuel with
  | O => Undef
  | S fuel =>
      row ← search_row dir cd pos None reds;
      match row with
      | None => Ok (CL_OK pos)
      | Some reds => if reds <=? 0 then Ok (CL_RESTART (pos + 1)) else search_loop fuel dir cd (pos + 1) reds
      end
  end.
(** [do_search_forward]. *)
Definition do_search_forward (cd : list (list Z)) (pos reds : Z) : outcome cl_result := search_loop (S (length (concat cd))) DIRECTION_PREFIX cd pos (s64 reds).
(** [do_search_backward]. *)
Definition do_search_backward (cd : list (list Z)) (pos reds : Z) : outcome cl_result := search_loop (S (length (concat cd))) DIRECTION_SUFFIX cd pos (s64 reds).
Definition do_search (dir : cl_direction) (cd : list (list Z)) (pos reds : Z) : outcome cl_result :=
  match dir with DIRECTION_PREFIX => do_search_forward cd pos reds | DIRECTION_SUFFIX => do_search_backward cd pos reds end.
(** The elements of a list of binaries. *)
Fixpoint count_binaries (l : term) (n : Z) : option Z :=
  match l with T_LIST b l => _ ← binary_of b; count_binaries l (n + 1) | T_NIL => Some n | _ => None end.
(** The bytes of each, aligned or copied. *)
Fixpoint common_data (l : term) : outcome (option (list (list Z))) :=
  match l with
  | T_LIST b l =>
      b ← require (binary_of b);
      buff ← erts_get_aligned_binary_bytes b;
      match buff with None => Ok None | Some buff => cd ← common_data l; Ok (cd ← cd; Some (buff :: cd)) end
  | _ => Ok (Some [])
  end.
Section Reductions.
Variables (max_loop_limit : Z) (left : nat -> Z).
(** [do_longest_common_trap], as often as it takes. *)
Fixpoint do_longest_common_trap (fuel k : nat) (cd : list (list Z)) (pos : Z) (dir : cl_direction) : outcome (bif_return term) :=
  match fuel with
  | O => Undef
  | S fuel =>
      res ← do_search dir cd pos (get_reds max_loop_limit (left k) COMMON_LOOP_FACTOR);
      match res with
      | CL_OK pos => Ok (BIF_RET (T_INTEGER pos))
      | CL_RESTART pos => do_longest_common_trap fuel (S k) cd pos dir
      end
  end.
(** [binary:longest_common_prefix/1] and [binary:longest_common_suffix/1]. *)
Definition do_longest_common (fuel : nat) (list_ : term) (dir : cl_direction) : outcome (bif_return term) :=
  match count_binaries list_ 0 with
  | None => Ok BADARG
  | Some n =>
      if n =? 0 then Ok BADARG
      else
        cd ← common_data list_;
        match cd with
        | None => Ok BADARG
        | Some cd =>
            res ← do_search dir cd 0 (get_reds max_loop_limit (left 0%nat) COMMON_LOOP_FACTOR);
            match res with
            | CL_OK pos => Ok (BIF_RET (T_INTEGER pos))
            | CL_RESTART pos => do_longest_common_trap fuel 1 cd pos dir
            end
        end
  end.
End Reductions.

(** ** Unsigned integers *)
(** The bytes a word needs. *)
Definition get_need (u : Z) : Z :=
  if u >? 0xFFFFFFFF then
    if u >? 0xFFFFFFFFFFFF then if u >? 0xFFFFFFFFFFFFFF then 8 else 7
    else if u >? 0xFFFFFFFFFF then 6 else 5
  else if u >? 0xFFFF then if u >? 0xFFFFFF then 4 else 3
  else if u >? 0xFF then 2 else 1.
(** The bytes of a word, the least significant one first. *)
Fixpoint small_bytes (n : nat) (u : Z) : list Z := match n with O => [] | S n => Z.land u 0xFF :: small_bytes n (wshr u 8) end.
(** Those of digits: [j] bytes are written; behind the digits is whatever the heap
    holds. *)
Fixpoint digits_bytes (n : nat) (ds : list Z) (beyond j d : Z) : list Z :=
  match n with
  | O => []
  | S n => Z.land d 0xFF :: digits_bytes n ds beyond (j + 1) (if (j + 1) mod 8 =? 0 then default beyond (ds !! Z.to_nat ((j + 1) / 8)) else wshr d 8)
  end.
(** [binary:encode_unsigned/2]. *)
Definition do_encode_unsigned (beyond : Z) (uns : term) (endianess : atom) : bif_return term :=
  if negb (bool_decide (endianess = am_big)) && negb (bool_decide (endianess = am_little)) then BADARG
  else
    match uns with
    | T_INT (make_small x) =>
        if x <? 0 then BADARG
        else
          let b := small_bytes (Z.to_nat (get_need x)) x in
          BIF_RET (T_BINARY (real_binary (if bool_decide (endianess = am_big) then rev b else b)))
    | T_INT (make_big bigp) =>
        if BIG_SIGN bigp then BADARG
        else
          let num_parts := len (BIG_V bigp) in
          let n := (num_parts - 1) * 8 + get_need (elt (BIG_V bigp) (num_parts - 1)) in
          let b := digits_bytes (Z.to_nat n) (BIG_V bigp) beyond 0 (elt (BIG_V bigp) 0) in
          BIF_RET (T_BINARY (real_binary (if bool_decide (endianess = am_big) then rev b else b)))
    | _ => BADARG
    end.
(** The zeros that are skipped: at the start, or at the end. *)
Fixpoint skip_leading (n : nat) (b : binary) (start size : Z) : outcome (Z * Z) :=
  match n with O => Ok (start, size) | S n => c ← get_byte b start; if c =? 0 then skip_leading n b (start + 1) (size - 1) else Ok (start, size) end.
Fixpoint skip_trailing (n : nat) (b : binary) (size : Z) : outcome Z :=
  match n with O => Ok size | S n => c ← get_byte b (size - 1); if c =? 0 then skip_trailing n b (size - 1) else Ok size end.
(** A word from bytes at [i], [i + step] and so on. *)
Fixpoint word_loop (n : nat) (b : binary) (i step u : Z) : outcome Z :=
  match n with O => Ok u | S n => c ← get_byte b i; word_loop n b (i + step) step (Z.lor (wshl u 8) c) end.
(** The digits, the most significant one first; [ds] are those that are done. *)
Fixpoint digits_loop (n : nat) (b : binary) (i step j d : Z) (ds : list Z) : outcome (list Z) :=
  match n with
  | O => Undef
  | S n =>
      c ← get_byte b i;
      let d := Z.lor (wshl d 8) c in
      match n with
      | O => Ok (d :: ds)
      | S _ => if (j - 1) mod 8 =? 0 then digits_loop n b (i + step) step (j - 1) 0 (d :: ds) else digits_loop n b (i + step) step (j - 1) d ds
      end
  end.
(** [binary:decode_unsigned/2]. *)
Definition do_decode_unsigned (uns : term) (endianess : atom) : outcome (bif_return term) :=
  match binary_of uns with
  | None => Ok BADARG
  | Some b =>
      if negb (bool_decide (endianess = am_big)) && negb (bool_decide (endianess = am_little)) then Ok BADARG
      else if negb (binary_bitsize b =? 0) then Ok BADARG
      else
        let big := bool_decide (endianess = am_big) in
        let n := Z.to_nat (binary_size b) in
        '(start, size) ← (if big then skip_leading n b 0 (binary_size b) else size ← skip_trailing n b (binary_size b); Ok (0, size));
        let first := if big then start else size - 1 in
        let step := if big then 1 else -1 in
        if size =? 0 then Ok (BIF_RET (T_INT (make_small 0)))
        else if size <=? 8 then u ← word_loop (Z.to_nat size) b first step 0; Ok (BIF_RET (T_INTEGER u))
        else ds ← digits_loop (Z.to_nat size) b first step size 0 []; Ok (BIF_RET (T_INT (make_big (MkBig false ds))))
  end.

(** ** Common prefixes and suffixes *)
(** The bytes in the order in which they are compared. *)
Definition ordered (dir : cl_direction) (l : list Z) : list Z := match dir with DIRECTION_PREFIX => l | DIRECTION_SUFFIX => rev l end.
Lemma ordered_length dir l : length (ordered dir l) = length l.
Proof. destruct dir; [reflexivity|apply length_rev]. Qed.
Lemma common_byte_spec dir l p : 0 <= p < len l -> common_byte dir l p = Ok (elt (ordered dir l) p).
Proof.
  intros Hp. destruct dir; cbn [common_byte ordered]; [now apply peek_elt|]. rewrite peek_elt by lia. f_equal. unfold elt. f_equal. replace (Z.to_nat (len l - 1 - p)) with (length l - S (Z.to_nat p))%nat by lia. rewrite rev_alt. symmetry. apply (reverse_lookup l). lia.
Qed.
(** All have a byte at [p], the same. *)
Definition agree (dir : cl_direction) (cd : list (list Z)) (p : Z) : Prop := exists c, Forall (fun b => p < len b /\ elt (ordered dir b) p = c) cd.
Lemma search_row_rest dir pos c : 0 <= pos -> forall cd reds, exists r, search_row dir cd pos (Some c) reds = Ok r /\
  match r with Some reds' => Forall (fun b => pos < len b /\ elt (ordered dir b) pos = c) cd /\ reds' = reds - len cd | None => ~ Forall (fun b => pos < len b /\ elt (ordered dir b) pos = c) cd end.
Proof.
  intros Hp. induction cd as [|b cd IH]; intros reds; cbn [search_row]; [eexists; split; [reflexivity|]; split; [constructor|cbn; lia]|]. rewrite Z.geb_leb. destruct (Z.leb_spec (len b) pos) as [L|L]; [eexists; split; [reflexivity|]; intros F; inversion F; lia|].
  rewrite common_byte_spec by lia. cbn [mbind outcome_bind]. destruct (Z.eqb_spec (elt (ordered dir b) pos) c) as [E|N]; cbn [negb]; [|eexists; split; [reflexivity|]; intros F; inversion F; tauto].
  destruct (IH (reds - 1)) as (r & -> & P). exists r. split; auto. destruct r; [destruct P as [P1 P2]; split; [constructor; auto|cbn [length]; lia]|]. intros F. inversion F; auto.
Qed.
Lemma search_row_spec dir pos cd reds : 0 <= pos -> cd <> [] -> exists r, search_row dir cd pos None reds = Ok r /\ match r with Some reds' => agree dir cd pos /\ reds' = reds - len cd | None => ~ agree dir cd pos end.
Proof.
  intros Hp N. destruct cd as [|b cd]; [done|]. cbn [search_row]. rewrite Z.geb_leb. destruct (Z.leb_spec (len b) pos) as [L|L]; [eexists; split; [reflexivity|]; intros [c F]; inversion F; lia|].
  rewrite common_byte_spec by lia. cbn [mbind outcome_bind]. destruct (search_row_rest dir pos (elt (ordered dir b) pos) Hp cd (reds - 1)) as (r & -> & P). exists r. split; auto. destruct r.
  - destruct P as [P1 P2]. split; [exists (elt (ordered dir b) pos); constructor; auto|cbn [length]; lia].
  - intros [c F]. inversion F as [|? ? [_ E] F']; subst. auto.
Qed.
(** The length of what all have in common. *)
Definition common_length (dir : cl_direction) (cd : list (list Z)) (n : Z) : Prop := (forall p, 0 <= p < n -> agree dir cd p) /\ ~ agree dir cd n.
Lemma agree_first dir b cd p : agree dir (b :: cd) p -> p < len b.
Proof. intros [c F]. inversion F; lia. Qed.
Lemma search_loop_spec dir b cd fuel : forall pos reds, 0 <= pos -> (forall p, 0 <= p < pos -> agree dir (b :: cd) p) -> len b - pos < Z.of_nat fuel -> exists r, search_loop fuel dir (b :: cd) pos reds = Ok r /\
  match r with CL_OK n => 0 <= n /\ common_length dir (b :: cd) n | CL_RESTART n => pos < n /\ forall p, 0 <= p < n -> agree dir (b :: cd) p end.
Proof.
  induction fuel as [|fuel IH]; intros pos reds Hp A Hf.
  - exfalso. destruct (Z.eq_dec pos 0); [lia|]. specialize (A (pos - 1) ltac:(lia)). apply agree_first in A. lia.
  - cbn [search_loop]. destruct (search_row_spec dir pos (b :: cd) reds Hp ltac:(done)) as (r & -> & P). cbn [mbind outcome_bind]. destruct r as [reds'|]; [|eexists; split; [reflexivity|]; split; [lia|]; split; auto]. destruct P as [P ->].
    assert (A' : forall p, 0 <= p < pos + 1 -> agree dir (b :: cd) p) by (intros p Hp'; destruct (Z.eq_dec p pos) as [->|]; [auto|apply A; lia]). destruct (_ <=? 0); [eexists; split; [reflexivity|]; split; [lia|auto]|].
    destruct (IH (pos + 1) (reds - len (b :: cd))) as (r & -> & Q); [lia|auto|lia|]. exists r. split; auto. destruct r; auto. destruct Q. split; auto. lia.
Qed.
Lemma do_search_spec dir b cd pos reds : 0 <= pos -> (forall p, 0 <= p < pos -> agree dir (b :: cd) p) -> exists r, do_search dir (b :: cd) pos reds = Ok r /\
  match r with CL_OK n => 0 <= n /\ common_length dir (b :: cd) n | CL_RESTART n => pos < n /\ forall p, 0 <= p < n -> agree dir (b :: cd) p end.
Proof. intros Hp A. destruct dir; apply search_loop_spec; auto; cbn [concat]; rewrite length_app; lia. Qed.
(** The binaries of a list. *)
Fixpoint list_binaries (t : term) : option (list binary) :=
  match t with T_NIL => Some [] | T_LIST b t => b ← binary_of b; bs ← list_binaries t; Some (b :: bs) | _ => None end.
Lemma count_binaries_spec t : forall n, count_binaries t n = (bs ← list_binaries t; Some (n + len bs)).
Proof.
  induction t as [t L|b t IH] using list_term_ind; intros n; [destruct t; try discriminate; try reflexivity; cbn; f_equal; lia|]. cbn [count_binaries list_binaries]. destruct (binary_of b); [|reflexivity]. cbn [mbind option_bind]. rewrite IH. destruct (list_binaries t); [|reflexivity]. cbn [mbind option_bind length]. f_equal. lia.
Qed.
Lemma common_data_spec t : forall bs, list_binaries t = Some bs -> Forall bin_ok bs -> common_data t = Ok (if forallb (fun b => binary_bitsize b =? 0) bs then Some (map contents bs) else None).
Proof.
  induction t as [t L|b t IH] using list_term_ind; intros bs E F; [destruct t; try discriminate; injection E as <-; reflexivity|]. cbn [list_binaries] in E. cbn [common_data]. destruct (binary_of b) as [c|]; [|discriminate]. cbn [mbind option_bind require outcome_bind] in *. destruct (list_binaries t) as [cs|]; [|discriminate]. injection E as <-.
  inversion F as [|? ? Bc Fc]; subst. cbn [forallb]. destruct (Z.eqb_spec (binary_bitsize c) 0) as [E0|N0]; cbn [andb].
  - rewrite (aligned_spec c Bc E0). cbn [mbind outcome_bind]. rewrite (IH cs eq_refl Fc). cbn [mbind outcome_bind]. destruct (forallb _ cs); reflexivity.
  - unfold erts_get_aligned_binary_bytes. rewrite (proj2 (Z.eqb_neq _ 0) N0). reflexivity.
Qed.
Section Reductions.
Variables (max_loop_limit : Z) (left : nat -> Z).
Lemma common_trap_spec dir b cd fuel : forall k pos, 0 <= pos -> (forall p, 0 <= p < pos -> agree dir (b :: cd) p) -> len b - pos < Z.of_nat fuel ->
  exists n, do_longest_common_trap max_loop_limit left fuel k (b :: cd) pos dir = Ok (BIF_RET (T_INTEGER n)) /\ 0 <= n /\ common_length dir (b :: cd) n.
Proof.
  induction fuel as [|fuel IH]; intros k pos Hp A Hf; [exfalso; destruct (Z.eq_dec pos 0); [lia|]; specialize (A (pos - 1) ltac:(lia)); apply agree_first in A; lia|].
  cbn [do_longest_common_trap]. destruct (do_search_spec dir b cd pos (get_reds max_loop_limit (left k) COMMON_LOOP_FACTOR) Hp A) as (r & -> & P). cbn [mbind outcome_bind]. destruct r as [n|n]; [exists n; split; auto|]. destruct P as [P1 P2]. apply IH; auto; lia.
Qed.
Lemma do_longest_common_spec fuel t dir b bs : list_binaries t = Some (b :: bs) -> Forall bin_ok (b :: bs) -> Forall (fun b => binary_bitsize b = 0) (b :: bs) -> binary_size b < Z.of_nat fuel ->
  exists n, do_longest_common max_loop_limit left fuel t dir = Ok (BIF_RET (T_INTEGER n)) /\ 0 <= n /\ common_length dir (map contents (b :: bs)) n.
Proof.
  intros E F Z0 Hf. inversion F as [|? ? Bb _]; subst. pose proof (contents_length b Bb) as L. unfold do_longest_common. rewrite count_binaries_spec, E. cbn [mbind option_bind]. rewrite (proj2 (Z.eqb_neq (0 + len (b :: bs)) 0)) by (cbn [length]; lia).
  rewrite (common_data_spec t _ E F). replace (forallb _ (b :: bs)) with true by (symmetry; apply forallb_forall; intros x Hx; rewrite Forall_forall in Z0; apply Z.eqb_eq, Z0; now apply list_elem_of_In). cbn [mbind outcome_bind map].
  destruct (do_search_spec dir (contents b) (map contents bs) 0 (get_reds max_loop_limit (left 0%nat) COMMON_LOOP_FACTOR) ltac:(lia) ltac:(lia)) as (r & -> & P). cbn [mbind outcome_bind]. destruct r as [n|n]; [exists n; split; auto|]. destruct P as [P1 P2]. apply common_trap_spec; auto; lia.
Qed.
End Reductions.
(** It is the length of the longest common prefix. *)
Definition common_prefix (cd : list (list Z)) (w : list Z) : Prop := forall b, b ∈ cd -> w `prefix_of` b.
Lemma prefix_elt (w b : list Z) : w `prefix_of` b <-> len w <= len b /\ forall p, 0 <= p < len w -> elt b p = elt w p.
Proof.
  split.
  - intros [k ->]. rewrite length_app. split; [lia|]. intros p Hp. unfold elt. now rewrite lookup_app_l by lia.
  - intros [L H]. exists (drop (length w) b). rewrite <- (take_drop (length w) b) at 1. f_equal. apply list_eq_same_length with (n := length w); [lia|rewrite length_take; lia|]. intros i x y Hi Ex Ey. rewrite lookup_take_lt in Ex by auto. specialize (H (Z.of_nat i) ltac:(lia)). unfold elt in H. rewrite Nat2Z.id, Ex, Ey in H. exact H.
Qed.
Lemma common_length_prefix dir b cd n : 0 <= n -> common_length dir (b :: cd) n -> (exists w, len w = n /\ common_prefix (map (ordered dir) (b :: cd)) w) /\ forall w, common_prefix (map (ordered dir) (b :: cd)) w -> len w <= n.
Proof.
  intros Hn [A N]. split.
  - assert (Ln : n <= len b) by (destruct (Z.eq_dec n 0); [lia|]; specialize (A (n - 1) ltac:(lia)); apply agree_first in A; lia). exists (take (Z.to_nat n) (ordered dir b)). assert (Lt : len (take (Z.to_nat n) (ordered dir b)) = n) by (rewrite length_take, ordered_length; lia). split; auto.
    intros x Hx. apply list_elem_of_In, in_map_iff in Hx as (y & <- & Hy%list_elem_of_In). apply prefix_elt. rewrite Lt, ordered_length. assert (P : forall p, 0 <= p < n -> p < len y /\ elt (ordered dir y) p = elt (ordered dir b) p).
    { intros p Hp. destruct (A p Hp) as [c F]. rewrite Forall_forall in F. destruct (F y Hy) as [P1 P2], (F b ltac:(left)) as [_ P3]. split; [auto|congruence]. }
    split; [destruct (Z.eq_dec n 0); [lia|]; destruct (P (n - 1)); lia|]. intros p Hp. destruct (P p Hp) as [_ ->]. unfold elt. now rewrite lookup_take_lt by lia.
  - intros w Hw. destruct (Z_le_gt_dec (len w) n) as [|G]; auto. exfalso. apply N. exists (elt w n). apply Forall_forall. intros y Hy. assert (P : w `prefix_of` ordered dir y) by (apply Hw, list_elem_of_In, in_map, list_elem_of_In, Hy). apply prefix_elt in P as [P1 P2]. rewrite ordered_length in P1. split; [lia|]. apply P2. lia.
Qed.
