(* ===== verification/UnsignedSpec.v ===== *)
(** The value of bytes, and that the digits encode and decode it. *)

From S2P Require Import Prelude.
From stdpp Require Import base option list.
From S2P Require Import Digits DigitDiv BigNat BigBits BigNum ErlArith BigConv Memory BoyerMoore BmSearch AhoCorasick CopyBits BinTerm BinaryMatch MatchSpec BinaryParts BinaryCommon.
Local Open Scope Z_scope.

(** ** The value of bytes *)
(** With the least significant one first. *)
Fixpoint le_value (l : list Z) : Z := match l with [] => 0 | c :: l => c + 256 * le_value l end.
Definition be_value (l : list Z) : Z := fold_left (fun v c => v * 256 + c) l 0.
Lemma fold_value l : forall v, fold_left (fun v c => v * 256 + c) l v = v * 256 ^ len l + be_value l.
Proof.
  unfold be_value. induction l as [|c l IH]; intros v; [cbn; lia|]. cbn [fold_left length]. rewrite IH, (IH (0 * 256 + c)). rewrite Nat2Z.inj_succ, Z.pow_succ_r by lia. lia.
Qed.
Lemma be_value_app k l : be_value (k ++ l) = be_value k * 256 ^ len l + be_value l.
Proof. unfold be_value at 1. rewrite fold_left_app. apply fold_value. Qed.
Lemma be_value_rev l : be_value (rev l) = le_value l.
Proof. induction l as [|c l IH]; [reflexivity|]. cbn [rev le_value]. rewrite be_value_app, IH. unfold be_value. cbn. lia. Qed.
Lemma le_value_rev l : le_value (rev l) = be_value l.
Proof. now rewrite <- be_value_rev, rev_involutive. Qed.
Lemma be_value_range l : bytes l -> 0 <= be_value l < 256 ^ len l.
Proof.
  intros F. induction l as [|c l IH] using rev_ind; [cbn; lia|]. apply Forall_app in F as [F Fc]. rewrite Forall_singleton in Fc. specialize (IH F). rewrite be_value_app, length_app. cbn [length]. replace (Z.of_nat (length l + 1)) with (Z.succ (len l)) by lia. rewrite Z.pow_succ_r by lia. change (be_value [c]) with c. change (256 ^ Z.of_nat 1) with 256. lia.
Qed.
(** The value in the order of an atom. *)
Definition value_of (endianess : atom) (l : list Z) : Z := if bool_decide (endianess = am_big) then be_value l else le_value l.

(** ** Encoding *)
Lemma land_FF d : Z.land d 0xFF = d mod 256.
Proof. change 0xFF with (Z.ones 8). now rewrite Z.land_ones by lia. Qed.
Lemma wshr_8 d : wshr d 8 = d / 256.
Proof. unfold wshr. now rewrite Z.shiftr_div_pow2 by lia. Qed.
Lemma small_bytes_spec n : forall u, 0 <= u -> le_value (small_bytes n u) = u mod 256 ^ Z.of_nat n /\ bytes (small_bytes n u) /\ length (small_bytes n u) = n.
Proof.
  induction n as [|n IH]; intros u Hu; cbn [small_bytes le_value length]; [rewrite Z.mod_1_r; auto|]. rewrite land_FF, wshr_8. destruct (IH (u / 256) ltac:(apply Z.div_pos; lia)) as (-> & F & ->). splits; auto.
  - rewrite Nat2Z.inj_succ, Z.pow_succ_r by lia. rewrite Z.rem_mul_r by lia. lia.
  - constructor; auto. apply Z.mod_pos_bound. lia.
Qed.
Lemma get_need_spec u : 0 <= u < 2 ^ 64 -> 1 <= get_need u <= 8 /\ u < 256 ^ get_need u /\ (get_need u = 1 \/ 256 ^ (get_need u - 1) <= u).
Proof.
  intros Hu. unfold get_need. rewrite !Z.gtb_ltb.
  destruct (Z.ltb_spec 0xFFFFFFFF u), (Z.ltb_spec 0xFFFFFFFFFFFF u), (Z.ltb_spec 0xFFFFFFFFFFFFFF u), (Z.ltb_spec 0xFFFFFFFFFF u), (Z.ltb_spec 0xFFFF u), (Z.ltb_spec 0xFFFFFF u), (Z.ltb_spec 0xFF u); cbn [Z.sub Z.opp Z.add Z.pos_sub Pos.pred_double]; lia.
Qed.
(** The digit with an index is a part of the value. *)
Lemma digit_value ds q d : digits ds -> ds !! q = Some d -> d = (val ds / 2 ^ (64 * Z.of_nat q)) mod 2 ^ 64.
Proof.
  revert q. induction ds as [|e ds IH]; intros q D E; [discriminate|]. inversion D as [|? ? De D']; subst. cbn [val]. destruct q as [|q].
  - injection E as ->. rewrite Z.mul_0_r, Z.div_1_r. change β with (2 ^ 64). rewrite (Z.mul_comm (2 ^ 64)), Z.mod_add by lia. symmetry. apply Z.mod_small. exact De.
  - cbn in E. rewrite (IH q D' E). f_equal. rewrite Nat2Z.inj_succ. replace (64 * Z.succ (Z.of_nat q)) with (64 + 64 * Z.of_nat q) by lia. rewrite Z.pow_add_r by lia. rewrite <- Z.div_div by lia. f_equal. change β with (2 ^ 64). rewrite (Z.mul_comm (2 ^ 64)), Z.div_add by lia. rewrite Z.div_small by exact De. lia.
Qed.
Lemma digits_bytes_spec ds beyond : digits ds -> forall n j d, 0 <= j -> j + Z.of_nat n <= 8 * len ds -> d = (val ds / 256 ^ j) mod 256 ^ (8 - j mod 8) ->
  le_value (digits_bytes n ds beyond j d) = (val ds / 256 ^ j) mod 256 ^ Z.of_nat n /\ bytes (digits_bytes n ds beyond j d) /\ length (digits_bytes n ds beyond j d) = n.
Proof.
  intros D. induction n as [|n IH]; intros j d Hj Hn Hd; cbn [digits_bytes le_value length]; [rewrite Z.mod_1_r; auto|]. rewrite land_FF. pose proof (Z.mod_pos_bound j 8 ltac:(lia)) as Hm.
  assert (Ed : d mod 256 = (val ds / 256 ^ j) mod 256).
  { rewrite Hd. replace (8 - j mod 8) with (Z.succ (7 - j mod 8)) by lia. rewrite Z.pow_succ_r by lia. rewrite Z.rem_mul_r by lia. rewrite Z.mul_comm, Z.mod_add by lia. apply Z.mod_mod. lia. }
  assert (Eq : val ds / 256 ^ (j + 1) = val ds / 256 ^ j / 256) by (rewrite Z.pow_add_r, <- Z.div_div by lia; reflexivity).
  destruct n as [|n].
  - cbn [digits_bytes le_value length]. rewrite Ed. splits; auto; [change (256 ^ Z.of_nat 1) with 256; lia|]. constructor; [apply Z.mod_pos_bound; lia|constructor].
  - destruct (IH (j + 1) (if (j + 1) mod 8 =? 0 then default beyond (ds !! Z.to_nat ((j + 1) / 8)) else wshr d 8)) as (-> & F & ->); [lia|lia| |].
    + destruct (Z.eqb_spec ((j + 1) mod 8) 0) as [E0|N0].
      * rewrite E0, Z.sub_0_r. assert (Hq : 0 <= (j + 1) / 8 < len ds) by (pose proof (Z.div_mod (j + 1) 8); lia). destruct (lookup_lt_is_Some_2 ds (Z.to_nat ((j + 1) / 8))) as [e Ee]; [lia|]. rewrite Ee. cbn. rewrite (digit_value ds _ e D Ee). rewrite Z2Nat.id by lia.
        change 256 with (2 ^ 8). rewrite <- !Z.pow_mul_r by lia. do 3 f_equal. pose proof (Z.div_mod (j + 1) 8). lia.
      * rewrite wshr_8, Hd, Eq. assert (Em : (j + 1) mod 8 = j mod 8 + 1) by (pose proof (Z.div_mod j 8); pose proof (Z.div_mod (j + 1) 8); pose proof (Z.mod_pos_bound (j + 1) 8); lia). rewrite Em. replace (8 - j mod 8) with (Z.succ (8 - (j mod 8 + 1))) by lia. rewrite Z.pow_succ_r by lia.
        rewrite Z.rem_mul_r by (try apply Z.pow_pos_nonneg; lia). rewrite Z.add_comm, (Z.mul_comm 256), Z.div_add_l by lia. rewrite (Z.div_small (_ mod 256)) by (apply Z.mod_pos_bound; lia). lia.
    + rewrite Ed. splits; auto; [|constructor; auto; apply Z.mod_pos_bound; lia]. rewrite (Nat2Z.inj_succ (S n)), Z.pow_succ_r by lia. rewrite Z.rem_mul_r by (try apply Z.pow_pos_nonneg; lia). now rewrite Eq.
Qed.

Lemma real_binary_ok l : bytes l -> bin_ok (real_binary l).
Proof. intros F. unfold bin_ok. cbn. splits; auto; lia. Qed.
Lemma real_binary_contents l : contents (real_binary l) = l.
Proof.
  apply list_eq_same_length with (n := length l); auto; [unfold contents; cbn; rewrite length_map, length_seq; lia|]. intros i x y Hi Ex Ey. rewrite contents_lookup in Ex by (cbn; lia). injection Ex as <-. change (byte_of (real_binary l) (Z.of_nat i)) with (elt l (0 + Z.of_nat i)). unfold elt. rewrite Z.add_0_l, Nat2Z.id, Ey. reflexivity.
Qed.
(** Of the value there are no more bytes than needed. *)
Definition minimal (l : list Z) (z : Z) : Prop := len l = 1 \/ 256 ^ (len l - 1) <= z.
Lemma encoded e l z : e = am_big \/ e = am_little -> bytes l -> le_value l = z -> minimal l z -> let k := if bool_decide (e = am_big) then rev l else l in bytes k /\ value_of e k = z /\ minimal k z.
Proof.
  intros He F V Mn. unfold value_of, minimal in *. destruct He as [-> | ->].
  - rewrite bool_decide_true by auto. cbv zeta. rewrite be_value_rev, length_rev. splits; auto. apply Forall_forall. intros x Hx%list_elem_of_In%in_rev. rewrite Forall_forall in F. now apply F, list_elem_of_In.
  - rewrite bool_decide_false by discriminate. auto.
Qed.
Lemma do_encode_unsigned_spec beyond t z e : (exists i, t = T_INT i /\ int_term i z) -> e = am_big \/ e = am_little ->
  if z <? 0 then do_encode_unsigned beyond t e = BADARG
  else exists l, do_encode_unsigned beyond t e = BIF_RET (T_BINARY (real_binary l)) /\ bytes l /\ value_of e l = z /\ minimal l z.
Proof.
  intros (i & -> & Hi) He. unfold do_encode_unsigned. replace (negb (bool_decide (e = am_big)) && negb (bool_decide (e = am_little))) with false by (destruct He as [-> | ->]; reflexivity). destruct i as [x|b|]; [| |contradiction].
  - destruct Hi as [-> R%small_range]. destruct (Z.ltb_spec z 0); [reflexivity|]. cbv zeta. destruct (get_need_spec z ltac:(lia)) as (N1 & N2 & N3). destruct (small_bytes_spec (Z.to_nat (get_need z)) z ltac:(lia)) as (V & F & L). rewrite Z2Nat.id, Z.mod_small in V by lia.
    eexists. split; [reflexivity|]. apply encoded; auto. unfold minimal. rewrite L, Z2Nat.id by lia. destruct N3; auto.
  - destruct Hi as [((D & N & _) & Hsm & Hl) Hv]. unfold bval in *. destruct (BIG_SIGN b) eqn:Es; cbn [sv] in *.
    + rewrite (proj2 (Z.ltb_lt z 0)); [reflexivity|]. pose proof (proj1 (val_bound _ D)). apply small_range_false in Hsm. lia.
    + pose proof (proj1 (val_bound _ D)) as V0. rewrite (proj2 (Z.ltb_ge z 0)) by lia. cbv zeta. set (ds := BIG_V b) in *. apply small_range_false in Hsm.
      assert (T : exists low top, ds = low ++ [top]) by (destruct N as [N _]; destruct (exists_last N) as (low & top & ->); eauto). destruct T as (low & top & Eds). assert (Et : elt ds (len ds - 1) = top) by (rewrite Eds; unfold elt; rewrite length_app; cbn; rewrite lookup_app_r by lia; replace (Z.to_nat (Z.of_nat (length low + 1) - 1) - length low)%nat with 0%nat by lia; reflexivity).
      rewrite Et. assert (D' : digits low /\ is_digit top) by (rewrite Eds in D; apply Forall_app in D as [D1 D2]; inversion D2; auto). destruct D' as [Dl Dt]. assert (Ev : val ds = val low + β ^ len low * top) by (rewrite Eds, val_app; cbn; lia). pose proof (val_bound _ Dl) as Vl.
      assert (Ll : len ds = len low + 1) by (rewrite Eds, length_app; cbn; lia). destruct (get_need_spec top Dt) as (N1 & N2 & N3).
      assert (Pw : forall k, 0 <= k -> 256 ^ ((len ds - 1) * 8 + k) = β ^ len low * 256 ^ k) by (intros k Hk; rewrite Z.pow_add_r by lia; f_equal; change β with (256 ^ 8); rewrite <- Z.pow_mul_r by lia; f_equal; lia).
      set (n := (len ds - 1) * 8 + get_need top) in *. destruct (digits_bytes_spec ds beyond D (Z.to_nat n) 0 (elt ds 0)) as (V & F & L); [lia|lia| |].
      { destruct ds as [|d0 ds0] eqn:E0; [destruct low; discriminate|]. unfold elt. cbn [lookup list_lookup Z.to_nat default]. rewrite (digit_value (d0 :: ds0) 0 d0 D eq_refl) at 1. reflexivity. }
      rewrite Z.div_1_r, Z2Nat.id in V by lia. rewrite Z.mod_small in V.
      * eexists. split; [reflexivity|]. apply encoded; auto; [lia|]. unfold minimal. rewrite L, Z2Nat.id by lia. right. replace (n - 1) with ((len ds - 1) * 8 + (get_need top - 1)) by lia. rewrite Pw by lia. destruct N3 as [N3|N3]; [|nia].
        rewrite N3 in *. change (256 ^ (1 - 1)) with 1. assert (1 <= top); [|nia]. destruct N as [_ [N|N]]; [|rewrite Eds, last_last in N; destruct Dt; lia]. rewrite Eds, length_app in N. cbn in N. assert (low = []) as -> by (destruct low; [auto|cbn in N; lia]). cbn in Ev. lia.
      * split; [lia|]. unfold n. rewrite Pw by lia. nia.
Qed.

(** ** Decoding *)
Fixpoint takes (n : nat) (i step : Z) (l : list Z) : list Z := match n with O => [] | S n => elt l i :: takes n (i + step) step l end.
Lemma takes_length n i step l : length (takes n i step l) = n.
Proof. revert i. induction n as [|n IH]; intros i; cbn; auto. Qed.
Lemma takes_bytes n l step : bytes l -> forall i, bytes (takes n i step l).
Proof. intros F. induction n as [|n IH]; intros i; constructor; auto. now apply elt_byte. Qed.
Lemma takes_forward l n : forall i, 0 <= i -> i + Z.of_nat n <= len l -> takes n i 1 l = sub_list i (i + Z.of_nat n) l.
Proof.
  induction n as [|n IH]; intros i Hi Hn; cbn [takes]; [unfold sub_list; change (Z.of_nat 0) with 0; rewrite Z.add_0_r, Z.sub_diag; reflexivity|]. rewrite IH by lia. rewrite (sub_list_app l i (i + 1)) by lia. replace (i + Z.of_nat (S n)) with (i + 1 + Z.of_nat n) by lia. rewrite (sub_list_snoc l i i) by lia. unfold sub_list at 2. rewrite Z.sub_diag. reflexivity.
Qed.
Lemma takes_backward l n : Z.of_nat n <= len l -> takes n (Z.of_nat n - 1) (-1) l = rev (take n l).
Proof.
  induction n as [|n IH]; intros Hn; cbn [takes]; [reflexivity|]. replace (Z.of_nat (S n) - 1 + -1) with (Z.of_nat n - 1) by lia. rewrite IH by lia. destruct (lookup_lt_is_Some_2 l n) as [v E]; [lia|]. rewrite (take_S_r _ _ _ E), rev_app_distr. cbn. f_equal. unfold elt. replace (Z.to_nat (Z.of_nat (S n) - 1)) with n by lia. now rewrite E.
Qed.
Lemma lor_byte u c : 0 <= u < 2 ^ 56 -> 0 <= c < 256 -> Z.lor (wshl u 8) c = u * 256 + c.
Proof.
  intros Hu Hc. unfold wshl. rewrite Z.shiftl_mul_pow2 by lia. change (2 ^ 8) with 256. rewrite w64_id by (split; lia). apply (lor_disjoint 8); lia.
Qed.
Section Loops.
Variable b : binary.
Hypothesis B : bin_ok b.
Notation l := (contents b).
Lemma in_range i : 0 <= i < len l -> get_byte b i = Ok (elt l i) /\ 0 <= elt l i < 256.
Proof. intros Hi. pose proof (contents_length b B). split; [apply get_byte_spec; auto; lia|]. apply elt_byte, contents_bytes, B. Qed.
Lemma word_loop_spec step n : forall i u, (forall k, 0 <= k < Z.of_nat n -> 0 <= i + k * step < len l) -> Z.of_nat n <= 8 -> 0 <= u < 256 ^ (8 - Z.of_nat n) -> word_loop n b i step u = Ok (fold_left (fun v c => v * 256 + c) (takes n i step l) u).
Proof.
  induction n as [|n IH]; intros i u Hi Hn Hu; cbn [word_loop takes fold_left]; [reflexivity|]. destruct (in_range i) as [-> R]; [specialize (Hi 0); lia|]. cbn [mbind outcome_bind]. assert (E : 8 - Z.of_nat n = Z.succ (8 - Z.of_nat (S n))) by lia.
  rewrite lor_byte; [|split; [lia|]; apply (Z.lt_le_trans _ _ _ (proj2 Hu)); change (2 ^ 56) with (256 ^ 7); apply Z.pow_le_mono_r; lia|auto]. apply IH; [|lia|rewrite E, Z.pow_succ_r by lia; nia]. intros k Hk. specialize (Hi (k + 1)). lia.
Qed.
(** The digits of a number of bytes. *)
Lemma digits_loop_spec step n : forall i j d ds c, (forall k, 0 <= k < Z.of_nat n -> 0 <= i + k * step < len l) -> j = Z.of_nat n -> 0 < j -> 0 <= c -> 0 <= d < 256 ^ c -> c + ((j - 1) mod 8 + 1) <= 8 -> (ds = [] \/ c + ((j - 1) mod 8 + 1) = 8) -> digits ds ->
  exists ds', digits_loop n b i step j d ds = Ok ds' /\ digits ds' /\ val ds' = fold_left (fun v c => v * 256 + c) (takes n i step l) (d + val ds * 256 ^ c) /\ len ds' = len ds + (j + 7) / 8.
Proof.
  induction n as [|n IH]; intros i j d ds c Hi Hj Hj0 Hc Hd Hc8 Hds D; [lia|]. cbn [digits_loop takes fold_left]. destruct (in_range i) as [-> R]; [specialize (Hi 0); lia|]. cbn [mbind outcome_bind]. pose proof (Z.mod_pos_bound (j - 1) 8 ltac:(lia)) as Hm.
  rewrite lor_byte; [|split; [lia|]; apply (Z.lt_le_trans _ _ _ (proj2 Hd)); change (2 ^ 56) with (256 ^ 7); apply Z.pow_le_mono_r; lia|auto]. set (x := elt l i) in *.
  assert (Hd' : 0 <= d * 256 + x < 256 ^ (c + 1)) by (rewrite Z.pow_add_r by lia; change (256 ^ 1) with 256; nia). assert (Hd64 : is_digit (d * 256 + x)) by (split; [lia|]; apply (Z.lt_le_trans _ _ _ (proj2 Hd')); change β with (256 ^ 8); apply Z.pow_le_mono_r; lia).
  assert (Full : (j - 1) mod 8 = 0 -> val ((d * 256 + x) :: ds) = (d + val ds * 256 ^ c) * 256 + x).
  { intros E. cbn [val]. destruct Hds as [->|E8]; [cbn; lia|]. change β with (256 ^ 8). replace 8 with (c + 1) at 1 by lia. rewrite Z.pow_add_r by lia. change (256 ^ 1) with 256. lia. }
  destruct n as [|n].
  - eexists. split; [reflexivity|]. subst j. cbn [takes fold_left]. split; [constructor; auto|]. split; [apply Full; reflexivity|]. cbn [length]. change ((Z.of_nat 1 + 7) / 8) with 1. lia.
  - assert (Hi' : forall k, 0 <= k < Z.of_nat (S n) -> 0 <= i + step + k * step < len l) by (intros k Hk; specialize (Hi (k + 1)); lia). destruct (Z.eqb_spec ((j - 1) mod 8) 0) as [E|N].
    + assert (E2 : (j - 1 - 1) mod 8 = 7) by (pose proof (Z.div_mod (j - 1) 8); pose proof (Z.div_mod (j - 1 - 1) 8); pose proof (Z.mod_pos_bound (j - 1 - 1) 8); lia).
      destruct (IH (i + step) (j - 1) 0 ((d * 256 + x) :: ds) 0) as (ds' & -> & D' & V & L); auto; try lia; [constructor; auto|]. exists ds'. splits; auto.
      * rewrite V, Full by auto. f_equal. lia.
      * rewrite L. cbn [length]. pose proof (Z.div_mod (j - 1) 8). replace ((j + 7) / 8) with ((j - 1 + 7) / 8 + 1); [lia|]. pose proof (Z.div_mod (j + 7) 8). pose proof (Z.div_mod (j - 1 + 7) 8). pose proof (Z.mod_pos_bound (j + 7) 8). pose proof (Z.mod_pos_bound (j - 1 + 7) 8). lia.
    + assert (E2 : (j - 1 - 1) mod 8 = (j - 1) mod 8 - 1) by (pose proof (Z.div_mod (j - 1) 8); pose proof (Z.div_mod (j - 1 - 1) 8); pose proof (Z.mod_pos_bound (j - 1 - 1) 8); lia).
      destruct (IH (i + step) (j - 1) (d * 256 + x) ds (c + 1)) as (ds' & -> & D' & V & L); auto; try lia; [destruct Hds; [auto|right; lia]|]. exists ds'. splits; auto.
      * rewrite V. f_equal. rewrite Z.pow_add_r by lia. change (256 ^ 1) with 256. lia.
      * rewrite L. f_equal. pose proof (Z.div_mod (j - 1) 8). pose proof (Z.div_mod (j + 7) 8). pose proof (Z.div_mod (j - 1 + 7) 8). pose proof (Z.mod_pos_bound (j + 7) 8). pose proof (Z.mod_pos_bound (j - 1 + 7) 8). lia.
Qed.
Lemma skip_leading_spec n : forall start size, 0 <= start -> start + size = len l -> size = Z.of_nat n -> exists start' size', skip_leading n b start size = Ok (start', size') /\ 0 <= start' /\ 0 <= size' /\ start' + size' = len l /\
  be_value (sub_list start' (len l) l) = be_value (sub_list start (len l) l) /\ (size' = 0 \/ elt l start' <> 0).
Proof.
  induction n as [|n IH]; intros start size Hs He Hn; cbn [skip_leading]; [exists start, size; splits; auto; lia|]. destruct (in_range start) as [-> R]; [lia|]. cbn [mbind outcome_bind]. destruct (Z.eqb_spec (elt l start) 0) as [E|N]; [|exists start, size; splits; auto; lia].
  destruct (IH (start + 1) (size - 1)) as (start' & size' & -> & H1 & H2 & H3 & H4 & H5); [lia|lia|lia|]. exists start', size'. splits; auto. rewrite H4. rewrite (sub_list_app l start (start + 1)) by lia. rewrite sub_list_snoc by lia. replace (sub_list start start l) with (@nil Z) by (unfold sub_list; now rewrite Z.sub_diag). rewrite app_nil_l, be_value_app. change (be_value [elt l start]) with (elt l start). rewrite E. lia.
Qed.
Lemma skip_trailing_spec n : forall size, size = Z.of_nat n -> size <= len l -> exists size', skip_trailing n b size = Ok size' /\ 0 <= size' <= size /\ le_value (take (Z.to_nat size') l) = le_value (take (Z.to_nat size) l) /\ (size' = 0 \/ elt l (size' - 1) <> 0).
Proof.
  induction n as [|n IH]; intros size Hn Hs; cbn [skip_trailing]; [exists size; splits; auto; lia|]. destruct (in_range (size - 1)) as [-> R]; [lia|]. cbn [mbind outcome_bind]. destruct (Z.eqb_spec (elt l (size - 1)) 0) as [E|N]; [|exists size; splits; auto; lia].
  destruct (IH (size - 1)) as (size' & -> & H1 & H2 & H3); [lia|lia|]. exists size'. splits; auto; try lia. rewrite H2. destruct (lookup_lt_is_Some_2 l (Z.to_nat (size - 1))) as [v Ev]; [lia|]. replace (Z.to_nat size) with (S (Z.to_nat (size - 1))) by lia. rewrite (take_S_r _ _ _ Ev). rewrite <- !be_value_rev, rev_app_distr. cbn [rev app]. rewrite be_value_rev.
  assert (v = 0) as -> by (unfold elt in E; rewrite Ev in E; exact E). change (be_value (0 :: rev (take (Z.to_nat (size - 1)) l))) with (be_value (rev (take (Z.to_nat (size - 1)) l))). now rewrite be_value_rev.
Qed.
(** The bytes that are read, without the zeros of the high end. *)
Lemma be_value_low x k : bytes (x :: k) -> x <> 0 -> 256 ^ len k <= be_value (x :: k).
Proof.
  intros F N. inversion F as [|? ? Hx Fk]; subst. change (x :: k) with ([x] ++ k). rewrite be_value_app. change (be_value [x]) with x. pose proof (be_value_range k Fk). assert (0 < 256 ^ len k) by (apply Z.pow_pos_nonneg; lia). nia.
Qed.
Definition stripped (e : atom) (first step size : Z) : Prop :=
  0 <= size <= len l /\ be_value (takes (Z.to_nat size) first step l) = value_of e l /\ (size = 0 \/ elt l first <> 0) /\ forall k, 0 <= k < size -> 0 <= first + k * step < len l.
Lemma read_small e first step size : stripped e first step size -> size <> 0 -> size <= 8 -> word_loop (Z.to_nat size) b first step 0 = Ok (value_of e l) /\ is_digit (value_of e l).
Proof.
  intros (S1 & S2 & S3 & S4) N L. rewrite <- S2. pose proof (be_value_range _ (takes_bytes (Z.to_nat size) l step (contents_bytes b B) first)) as R. rewrite takes_length, Z2Nat.id in R by lia. split.
  - apply word_loop_spec; [intros k Hk; apply S4; lia|lia|]. split; [lia|]. apply Z.pow_pos_nonneg; lia.
  - split; [lia|]. apply (Z.lt_le_trans _ _ _ (proj2 R)). change β with (256 ^ 8). apply Z.pow_le_mono_r; lia.
Qed.
Lemma read_big e first step size : stripped e first step size -> 8 < size -> size <= 8 * BIG_ARITY_MAX -> exists ds, digits_loop (Z.to_nat size) b first step size 0 [] = Ok ds /\ int_term (make_big (MkBig false ds)) (value_of e l).
Proof.
  intros (S1 & S2 & S3 & S4) N8 Hmax. pose proof (Z.mod_pos_bound (size - 1) 8 ltac:(lia)) as Hm. destruct (digits_loop_spec step (Z.to_nat size) first size 0 [] 0) as (ds & -> & D & V & L); auto; try lia; try (now constructor); [intros k Hk; apply S4; lia|].
  cbn [val length] in V, L. rewrite Z.mul_0_l, Z.add_0_r in V. fold (be_value (takes (Z.to_nat size) first step l)) in V. exists ds. split; auto. rewrite <- S2. rewrite S2 in *. pose proof (Z.div_mod (size + 7) 8). pose proof (Z.mod_pos_bound (size + 7) 8).
  assert (Low : 256 ^ (size - 1) <= value_of e l).
  { rewrite <- S2. replace (Z.to_nat size) with (S (Z.to_nat (size - 1))) by lia. cbn [takes]. pose proof (be_value_low (elt l first) (takes (Z.to_nat (size - 1)) (first + step) step l)) as Lw. rewrite takes_length, Z2Nat.id in Lw by lia. apply Lw; [|lia]. change (bytes (takes (S (Z.to_nat (size - 1))) first step l)). apply takes_bytes, contents_bytes, B. }
  assert (P8 : 2 ^ 64 <= value_of e l) by (apply (Z.le_trans _ (256 ^ (size - 1))); auto; change (2 ^ 64) with (256 ^ 8); apply Z.pow_le_mono_r; lia).
  cbn [int_term]. unfold canonical, bval, wf_big. cbn [BIG_SIGN BIG_V sv]. rewrite V. splits; auto; try discriminate.
  - split; [intros ->; cbn in L; lia|]. right. intros E0. destruct (exists_last (l := ds)) as (low & top & Eds); [intros ->; cbn in L; lia|]. rewrite Eds, last_last in E0. subst top. assert (Dl : digits low) by (rewrite Eds in D; apply Forall_app in D as [D _]; exact D). pose proof (val_bound _ Dl) as Bl.
    assert (Ev : val ds = val low) by (rewrite Eds, val_app; cbn; lia). assert (Le : len ds = len low + 1) by (rewrite Eds, length_app; cbn; lia). assert (β ^ len low <= 256 ^ (size - 1)); [|lia]. change β with (256 ^ 8). rewrite <- Z.pow_mul_r by lia. apply Z.pow_le_mono_r; lia.
  - apply small_range_false. lia.
  - unfold BIG_SIZE. cbn [BIG_V]. lia.
Qed.
Lemma do_decode_unsigned_spec t e : binary_of t = Some b -> binary_bitsize b = 0 -> e = am_big \/ e = am_little -> binary_size b <= 8 * BIG_ARITY_MAX ->
  do_decode_unsigned t e = Ok (BIF_RET (T_INT (mk_integer (value_of e l)))).
Proof.
  intros Eb E0 He Hmax. pose proof (contents_length b B) as L. unfold do_decode_unsigned. rewrite Eb, E0. replace (negb (bool_decide (e = am_big)) && negb (bool_decide (e = am_little))) with false by (destruct He as [-> | ->]; reflexivity). cbn [Z.eqb negb]. cbv zeta.
  set (n := Z.to_nat (binary_size b)). assert (S : exists start size, (if bool_decide (e = am_big) then skip_leading n b 0 (binary_size b) else size ← skip_trailing n b (binary_size b); Ok (0, size)) = Ok (start, size) /\ stripped e (if bool_decide (e = am_big) then start else size - 1) (if bool_decide (e = am_big) then 1 else -1) size).
  { unfold stripped, value_of. destruct (bool_decide (e = am_big)).
    - destruct (skip_leading_spec n 0 (binary_size b)) as (start & size & -> & H1 & H2 & H3 & H4 & H5); [lia|lia|lia|]. exists start, size. splits; auto; try lia. rewrite takes_forward by lia. replace (start + Z.of_nat (Z.to_nat size)) with (len l) by lia. rewrite H4. f_equal. unfold sub_list. rewrite Z.sub_0_r, Nat2Z.id. apply take_ge. change (drop (Z.to_nat 0) l) with l. lia.
    - destruct (skip_trailing_spec n (binary_size b)) as (size & -> & H1 & H2 & H3); [lia|lia|]. exists 0, size. splits; auto; try lia. pose proof (takes_backward l (Z.to_nat size) ltac:(lia)) as T. rewrite Z2Nat.id in T by lia. rewrite T, be_value_rev, H2, take_ge by lia. reflexivity. }
  destruct S as (start & size & -> & S). cbn [mbind outcome_bind]. destruct (Z.eqb_spec size 0) as [->|N0].
  - destruct S as (_ & S2 & _). rewrite <- S2. reflexivity.
  - destruct (Z.leb_spec size 8) as [L8|L8].
    + destruct (read_small e _ _ size S N0 L8) as [-> R]. cbn [mbind outcome_bind]. unfold T_INTEGER. now rewrite erts_make_integer_mk.
    + destruct (read_big e _ _ size S L8) as (ds & -> & I); [destruct S; lia|]. cbn [mbind outcome_bind]. now rewrite (int_term_mk _ _ I).
Qed.
End Loops.
