(* ===== verification/BinaryProps.v ===== *)
(** The properties of binaries, with concrete instances. *)

From S2P Require Import Prelude.
From stdpp Require Import base option list gmap.
From S2P Require Import Digits BigNat BigBits BigNum ErlArith BigConv Memory BoyerMoore BmSearch AhoCorasick AcTrie AcSearch CopyBits BinTerm BinaryMatch MatchSpec BinaryParts BinaryCommon UnsignedSpec.
Local Open Scope Z_scope.

(** ** Searching *)
Lemma stands_for_nonempty t pats x : stands_for t pats -> x ∈ pats -> x <> [].
Proof.
  intros H Hx ->. destruct (pattern_of_spec t pats H) as (type & bin & _ & M). destruct bin as [bmd|act]; destruct M as (_ & M).
  - destruct M as (y & -> & _ & Hy & _). apply list_elem_of_singleton in Hx as <-. cbn in Hy. lia.
  - now destruct M as (N & _).
Qed.
(** The part that is searched. *)
Definition options_ok (l : option term) : Prop := match l with Some t => ints_ok t | None => True end.
Section Run.
Variables (max_loop_limit : Z) (left : nat -> Z) (fuel : nat) (arg1 arg2 : term) (arg3 : option term) (subject : binary) (pats : list (list Z)) (s e : Z).
Hypotheses (Hl : scheduled max_loop_limit left) (Es : binary_of arg1 = Some subject) (B : bin_ok subject) (E0 : binary_bitsize subject = 0) (Hz : binary_size subject < 2 ^ 63) (Ho : options_ok arg3) (Ep : parse_match_opts_list arg3 subject = Some (s, e)) (Hp : stands_for arg2 pats) (Hf : binary_size subject <= Z.of_nat fuel).
Lemma nothing_at_0 : e = 0 -> forall p, ~ matches pats (contents subject) s e p.
Proof.
  intros -> p (P1 & P2 & x & P3 & P4 & P5). destruct (parse_inside arg3 subject s 0 B Hz Ho Ep) as [R1 R2]. apply (stands_for_nonempty arg2 pats x Hp P3). destruct x; [reflexivity|cbn [length] in P4; lia].
Qed.
Lemma binary_match_run : exists t, binary_match max_loop_limit left fuel arg1 arg2 arg3 = Ok (BIF_RET t) /\ match_result subject s e pats t.
Proof.
  destruct (parse_inside arg3 subject s e B Hz Ho Ep) as [R1 R2]. unfold binary_match. rewrite Es, Ep. destruct (Z.eqb_spec e 0) as [Z0|N0]; [eexists; split; [reflexivity|]; left; split; auto; now apply nothing_at_0|].
  destruct (pattern_of_spec arg2 pats Hp) as (type & bin & -> & M). cbn [mbind outcome_bind]. destruct (do_binary_match_first max_loop_limit left subject s e pats type bin Hl B E0 Hz R1 R2 M) as (r & -> & P). cbn [mbind outcome_bind].
  destruct r as [t| |st]; [eauto|contradiction|]. destruct P as (P1 & P2 & _). apply (binary_match_trap_spec max_loop_limit left subject s e pats type bin Hl B E0 Hz R1 R2 M); auto; lia.
Qed.
Lemma binary_matches_run : exists t, binary_matches max_loop_limit left fuel arg1 arg2 arg3 = Ok (BIF_RET t) /\ matches_result subject s e pats t.
Proof.
  destruct (parse_inside arg3 subject s e B Hz Ho Ep) as [R1 R2]. unfold binary_matches. rewrite Es, Ep. destruct (Z.eqb_spec e 0) as [Z0|N0]; [eexists; split; [reflexivity|]; exists []; split; auto; apply no_more; intros p Hp'; now apply nothing_at_0 in Hp'|].
  destruct (pattern_of_spec arg2 pats Hp) as (type & bin & -> & M). cbn [mbind outcome_bind]. destruct (do_binary_matches_first max_loop_limit left subject s e pats type bin Hl B E0 Hz R1 R2 M) as (r & -> & P). cbn [mbind outcome_bind].
  destruct r as [t| |st]; [eauto|contradiction|]. destruct P as (P1 & P2 & _). apply (binary_matches_trap_spec max_loop_limit left subject s e pats type bin Hl B E0 Hz R1 R2 M); auto; lia.
Qed.
End Run.
(** C28. binary:match returns the match in the given part of the subject that starts first, and
    of those the longest one, or nomatch when there is none, for one pattern (Boyer-Moore) and for
    many (Aho-Corasick), compiled before or not, with offsets in bits, and however often the search
    is stopped and continued; it touches no memory that is not its own and ends. *)
Theorem binary_match_correct max_loop_limit left fuel arg1 arg2 arg3 subject pats s e : scheduled max_loop_limit left -> binary_of arg1 = Some subject -> bin_ok subject -> binary_bitsize subject = 0 -> binary_size subject < 2 ^ 63 -> options_ok arg3 ->
  parse_match_opts_list arg3 subject = Some (s, e) -> stands_for arg2 pats -> binary_size subject <= Z.of_nat fuel ->
  exists t, binary_match max_loop_limit left fuel arg1 arg2 arg3 = Ok (BIF_RET t) /\
    (t = T_ATOM am_nomatch /\ (forall p, ~ matches pats (contents subject) s e p) \/ exists p, t = match_tuple p /\ first_match pats (contents subject) s e p).
Proof. apply binary_match_run. Qed.
(** C29. binary:matches returns what the repeated search for the first and longest match behind
    the last one returns: the array from which later matches are taken off again refines that
    specification, in any number of calls. *)
Theorem binary_matches_correct max_loop_limit left fuel arg1 arg2 arg3 subject pats s e : scheduled max_loop_limit left -> binary_of arg1 = Some subject -> bin_ok subject -> binary_bitsize subject = 0 -> binary_size subject < 2 ^ 63 -> options_ok arg3 ->
  parse_match_opts_list arg3 subject = Some (s, e) -> stands_for arg2 pats -> binary_size subject <= Z.of_nat fuel ->
  exists l, binary_matches max_loop_limit left fuel arg1 arg2 arg3 = Ok (BIF_RET (foldr T_LIST T_NIL (map match_tuple l))) /\ all_matches (matches pats (contents subject) s e) s l.
Proof. intros H1 H2 H3 H4 H5 H6 H7 H8 H9. destruct (binary_matches_run max_loop_limit left fuel arg1 arg2 arg3 subject pats s e) as (t & E & l & -> & A); eauto. Qed.
(** What the patterns are compiled to. *)
(** C30. For a binary or a proper list of binaries without empty ones, of less than 2^31 bytes
    in all, binary:compile_pattern returns a tuple of a tag and a structure that stands for exactly
    these patterns: bm with Boyer-Moore tables if there is one pattern, and ac with a complete trie
    if there are two or more. Any other term is refused. *)
Theorem compile_pattern_typed t : patterns_ok t ->
  match patterns_of t with
  | None => binary_compile_pattern t = Ok BADARG
  | Some pats => len (concat pats) < 2 ^ 31 -> exists type bin, binary_compile_pattern t = Ok (BIF_RET (T_TUPLE [T_ATOM type; T_MAGIC bin])) /\ stands_for (T_TUPLE [T_ATOM type; T_MAGIC bin]) pats /\
      match bin with BM_DATA _ => type = am_bm /\ len pats = 1 | AC_DATA _ => type = am_ac /\ 2 <= len pats end
  end.
Proof.
  intros P. pose proof (do_binary_match_compile_spec t P) as C. unfold binary_compile_pattern. destruct (patterns_of t) as [pats|] eqn:E; [|now rewrite C]. intros L. pose proof (patterns_of_length t pats E P) as Lp. destruct C as (N & type & bin & -> & M & T); [lia|lia|]. exists type, bin. cbn [mbind outcome_bind]. split; auto. split; [exists type, bin; auto|].
  destruct bin; destruct M as (Et & M); split; auto; [destruct M as (x & -> & _); auto|]. subst type. destruct (Z.eqb_spec (len pats) 1) as [|N1]; [discriminate|].
  destruct pats as [|? [|? ?]]; [done|cbn [length] in N1; lia|cbn [length]; lia].
Qed.
(** When the part ends at 0 the pattern is not looked at. *)
Theorem empty_scope_ignores_pattern max_loop_limit left fuel arg1 arg2 arg3 subject s : binary_of arg1 = Some subject -> parse_match_opts_list arg3 subject = Some (s, 0) ->
  binary_match max_loop_limit left fuel arg1 arg2 arg3 = Ok (BIF_RET (T_ATOM am_nomatch)) /\ binary_matches max_loop_limit left fuel arg1 arg2 arg3 = Ok (BIF_RET T_NIL).
Proof. intros Es Ep. unfold binary_match, binary_matches. rewrite Es, Ep. auto. Qed.
(** The end of a list of options is not looked at. *)
Theorem options_end_ignored t tl b : is_list tl = false -> parse_match_opts_list (Some (T_LIST t tl)) b = parse_match_opts_list (Some (T_LIST t T_NIL)) b.
Proof. intros H. cbn. destruct (scope_of t (binary_size b)); [|reflexivity]. cbn [mbind option_bind]. destruct tl; try discriminate; reflexivity. Qed.

(** ** Parts and bytes *)
(** C31. For every position and length, of any size and sign, the part of a binary is inside of
    it or refused, although the sums are computed in words that wrap around; binary:part,
    bin_to_list and the scope of a search agree on it, and the part has the bytes between its
    bounds. *)
Theorem parts_in_bounds t b epos elen pos len : binary_of t = Some b -> bin_ok b -> binary_size b < 2 ^ 63 -> int_at epos pos -> int_at elen len ->
  match part_of (binary_size b) pos len with
  | None => scope_of (T_TUPLE [T_ATOM am_scope; T_TUPLE [epos; elen]]) (binary_size b) = None /\ erts_binary_part t epos elen = BADARG /\ forall max_loop_limit left fuel, binary_bin_to_list_common max_loop_limit left fuel t epos elen = Ok BADARG
  | Some (s, e) =>
      (0 <= s <= e /\ e <= binary_size b) /\ scope_of (T_TUPLE [T_ATOM am_scope; T_TUPLE [epos; elen]]) (binary_size b) = Some (s, e) /\
      (exists sb, erts_binary_part t epos elen = BIF_RET sb /\ bin_ok sb /\ binary_bitsize sb = 0 /\ contents sb = sub_list s e (contents b)) /\
      forall max_loop_limit left fuel, scheduled max_loop_limit left -> e - s < Z.of_nat fuel -> binary_bin_to_list_common max_loop_limit left fuel t epos elen = Ok (if binary_bitsize b =? 0 then BIF_RET (byte_list (sub_list s e (contents b)) T_NIL) else BADARG)
  end.
Proof.
  intros Eb B Hz Hp Hn. pose proof B as (_ & _ & _ & Hs & _). pose proof (scope_of_spec (binary_size b) epos elen pos len ltac:(lia) Hp Hn) as Es. pose proof (erts_binary_part_spec t b epos elen pos len Eb B Hz Hp Hn) as Eq.
  pose proof (find_part (binary_size b) epos elen pos len (fun p l => w64 (p + l) >? binary_size b) (fun p l => if negb (binary_bitsize b =? 0) then None else Some (b, p, l)) ltac:(lia) Hp Hn) as F.
  assert (L : forall max_loop_limit left fuel, binary_bin_to_list_common max_loop_limit left fuel t epos elen = match part_of (binary_size b) pos len with Some (s, e) => if binary_bitsize b =? 0 then do_bin_to_list max_loop_limit left fuel 0 b s (e - s) T_NIL else Ok BADARG | None => Ok BADARG end).
  { intros m left fuel. unfold binary_bin_to_list_common. rewrite Eb. cbn [mbind option_bind] in *. rewrite F by (intros p l H1 H2 H3; rewrite w64_id by (split; lia); apply Z.gtb_ltb). destruct (part_of (binary_size b) pos len) as [[s e]|]; [|reflexivity]. cbn [mbind option_bind]. now destruct (binary_bitsize b =? 0). }
  destruct (part_of (binary_size b) pos len) as [[s e]|] eqn:Ep; [|splits; auto]. apply part_inside in Ep as [P1 P2]. splits; auto; try lia. intros m left fuel Hl Hf. rewrite L. destruct (binary_bitsize b =? 0); [|reflexivity]. rewrite (do_bin_to_list_spec m left Hl b s B) by lia. do 4 f_equal. lia.
Qed.
(** The byte at an index, and the first and the last one. *)
Theorem bytes_at_correct t b n i : binary_of t = Some b -> bin_ok b -> binary_bitsize b = 0 -> int_at n i -> binary_size b < 2 ^ 63 ->
  binary_at t n = Ok (if (0 <=? i) && (i <? binary_size b) then BIF_RET (T_BYTE (elt (contents b) i)) else BADARG) /\
  binary_first t = Ok (if 0 <? binary_size b then BIF_RET (T_BYTE (elt (contents b) 0)) else BADARG) /\
  binary_last t = Ok (if 0 <? binary_size b then BIF_RET (T_BYTE (elt (contents b) (binary_size b - 1))) else BADARG).
Proof.
  intros Eb B E0 Hn Hz. pose proof B as (_ & _ & _ & Hs & _). unfold binary_at, binary_first, binary_last. rewrite Eb, (Uint_of_spec _ _ Hn). destruct (Z.eqb_spec (binary_size b) 0) as [Z0|N0].
  - rewrite Z0. splits; auto. destruct (Z.leb_spec 0 i), (Z.ltb_spec i 0); auto; lia.
  - rewrite (proj2 (Z.ltb_lt 0 (binary_size b))) by lia. rewrite !byte_at_spec, E0 by (auto; lia). splits; auto. destruct (Z.leb_spec 0 i), (Z.ltb_spec i (2 ^ 64)), (Z.ltb_spec i (binary_size b)); cbn [andb]; auto; try lia; rewrite Z.geb_leb; destruct (Z.leb_spec (binary_size b) i); auto; try lia. rewrite byte_at_spec, E0 by (auto; lia). reflexivity.
Qed.
(** C32. Copying bits at any two offsets writes exactly those bits: all others of the
    destination are kept, and nothing outside of both buffers is read or written. *)
Theorem copy_bits_exact src sp soffs dst dp doffs n : bytes src -> bytes dst -> 0 <= sp -> 0 <= soffs -> 0 <= dp -> 0 <= doffs -> 0 <= n -> 8 * sp + soffs + n <= 8 * len src -> 8 * dp + doffs + n <= 8 * len dst ->
  exists dst', erts_copy_bits src sp soffs 1 dst dp doffs 1 n = Ok dst' /\ length dst' = length dst /\ bytes dst' /\
    forall k, 0 <= k -> bit dst' k = if (8 * dp + doffs <=? k) && (k <? 8 * dp + doffs + n) then bit src (8 * sp + soffs + (k - (8 * dp + doffs))) else bit dst k.
Proof.
  intros H1 H2 H3 H4 H5 H6 H7 H8 H9. destruct (erts_copy_bits_spec src sp soffs dst dp doffs n) as (dst' & E & L & F & C); auto. exists dst'. splits; auto. intros k Hk. rewrite C by auto. destruct (_ && _); [f_equal; lia|auto].
Qed.
(** C33. binary:copy returns the bytes repeated n times, in as many calls as the reductions make
    necessary, when the size of the result fits in a word. *)
Theorem binary_copy_correct max_loop_limit left fuel t en b n : scheduled max_loop_limit left -> binary_of t = Some b -> bin_ok b -> binary_bitsize b = 0 -> int_at en n -> 0 <= n < 2 ^ 64 -> binary_size b * n < 2 ^ 64 -> n <= Z.of_nat fuel ->
  binary_copy max_loop_limit left fuel t en = Ok (BIF_RET (T_BINARY (real_binary (concat (replicate (Z.to_nat n) (contents b)))))).
Proof. intros Hl Eb B E0 Hn Hn0 HN Hf. apply binary_copy_spec; auto; lia. Qed.
(** When the product of size and number wraps around to less than one copy, binary:copy writes
    behind the result it has allocated. *)
Theorem binary_copy_overruns max_loop_limit left fuel t en b n : scheduled max_loop_limit left -> binary_of t = Some b -> bin_ok b -> binary_bitsize b = 0 -> int_at en n -> 0 < n < 2 ^ 64 -> binary_size b < 2 ^ 63 ->
  (binary_size b * n) mod 2 ^ 64 < binary_size b -> binary_copy max_loop_limit left fuel t en = Undef.
Proof. intros Hl Eb B E0 Hn Hn0 Hz Hw. eapply binary_copy_overrun; eauto. Qed.
(** C34. The search for the longest common prefix or suffix of a list of binaries ends, in any
    number of calls, with the length of a common one, and no common one is longer. *)
Theorem longest_common_correct max_loop_limit left fuel t dir b bs : list_binaries t = Some (b :: bs) -> Forall bin_ok (b :: bs) -> Forall (fun b => binary_bitsize b = 0) (b :: bs) -> binary_size b < Z.of_nat fuel ->
  exists n, do_longest_common max_loop_limit left fuel t dir = Ok (BIF_RET (T_INTEGER n)) /\
    (exists w, len w = n /\ common_prefix (map (ordered dir) (map contents (b :: bs))) w) /\ forall w, common_prefix (map (ordered dir) (map contents (b :: bs))) w -> len w <= n.
Proof.
  intros E F Z0 Hf. destruct (do_longest_common_spec max_loop_limit left fuel t dir b bs E F Z0 Hf) as (n & En & Hn & C). exists n. split; auto. cbn [map] in C |- *. exact (common_length_prefix dir _ _ n Hn C).
Qed.
Lemma big_value_bound i z : int_term i z -> 0 <= z -> z < β ^ BIG_ARITY_MAX.
Proof.
  intros H Hz. destruct (big_of_spec i z H) as ((D & _) & V & L). revert L. generalize BIG_ARITY_MAX. intros a L. apply (Z.lt_le_trans _ (β ^ Z.of_nat (BIG_SIZE (big_of i)))); [|apply Z.pow_le_mono_r; auto; reflexivity]. pose proof (val_bound _ D) as Bd. unfold bval, sv in V. unfold BIG_SIZE. destruct (BIG_SIGN (big_of i)); lia.
Qed.
Lemma few_bytes (l : list Z) z a : 1 <= a -> z < β ^ a -> len l = 1 \/ 256 ^ (len l - 1) <= z -> len l <= 8 * a.
Proof.
  intros Ha Bd [->|Mn]; [lia|]. change β with (256 ^ 8) in Bd. rewrite <- Z.pow_mul_r in Bd by lia. assert (len l - 1 < 8 * a); [|lia]. apply (Z.pow_lt_mono_r_iff 256); lia.
Qed.
(** C35. Encoding an unsigned integer of any size gives its bytes, big or little endian and
    without zeros in front, whatever lies behind the digits; decoding them gives the term back.
    Negative integers are refused. *)
Theorem unsigned_roundtrip beyond t z endianess : (exists i, t = T_INT i /\ int_term i z) -> endianess = am_big \/ endianess = am_little ->
  if z <? 0 then do_encode_unsigned beyond t endianess = BADARG
  else exists l, do_encode_unsigned beyond t endianess = BIF_RET (T_BINARY (real_binary l)) /\ bytes l /\ value_of endianess l = z /\ (len l = 1 \/ 256 ^ (len l - 1) <= z) /\
    do_decode_unsigned (T_BINARY (real_binary l)) endianess = Ok (BIF_RET t).
Proof.
  intros Ht He. pose proof (do_encode_unsigned_spec beyond t z endianess Ht He) as C. destruct (Z.ltb_spec z 0) as [|Hz]; [exact C|]. destruct C as (l & E & F & V & Mn). exists l. splits; auto. destruct Ht as (i & -> & Hi). pose proof (big_value_bound i z Hi Hz) as Bd.
  rewrite (do_decode_unsigned_spec (real_binary l) (real_binary_ok l F) (T_BINARY (real_binary l)) endianess); auto.
  - rewrite real_binary_contents, V. now rewrite (int_term_mk _ _ Hi).
  - cbn [binary_size real_binary]. assert (Ha : 1 <= BIG_ARITY_MAX) by (unfold BIG_ARITY_MAX; clear; lia). revert Ha Bd. generalize BIG_ARITY_MAX. intros a Ha Bd. apply (few_bytes l z a); auto.
Qed.

(** ** Witnesses *)
(** "ushershis", and "he", "she", "his" and "hers". *)
Definition ushershis : binary := real_binary [117; 115; 104; 101; 114; 115; 104; 105; 115].
Definition w_patterns : term := foldr T_LIST T_NIL (map (fun l => T_BINARY (real_binary l)) [[104; 101]; [115; 104; 101]; [104; 105; 115]; [104; 101; 114; 115]]).
(** The bytes from 9 back to 1. *)
Definition w_scope : option term := Some (T_LIST (T_TUPLE [T_ATOM am_scope; T_TUPLE [T_INT (make_small 9); T_INT (make_small (-8))]]) T_NIL).
Ltac ok_bytes := repeat (apply Forall_cons; split; [lia|]); try apply Forall_nil; auto.
Ltac ok_binary := unfold bin_ok; cbn; splits; try lia; ok_bytes.
Lemma w_scheduled : scheduled 3 (fun _ => 1).
Proof. unfold scheduled. splits; intros; lia. Defined.
Lemma w_subject_ok : bin_ok ushershis.
Proof. ok_binary. Defined.
Lemma w_scope_ok : options_ok w_scope.
Proof. cbn. splits; auto; eexists; split; reflexivity. Defined.
Lemma w_patterns_stand : stands_for w_patterns [[104; 101]; [115; 104; 101]; [104; 105; 115]; [104; 101; 114; 115]].
Proof. split; [|split; [reflexivity|cbn; lia]]. cbn. splits; auto; unfold binary_ok; cbn; ok_binary. Defined.
Lemma binary_match_witness : binary_match 3 (fun _ => 1) 20 (T_BINARY ushershis) w_patterns w_scope = Ok (BIF_RET (match_tuple (1, 3))) /\
  exists t, binary_match 3 (fun _ => 1) 20 (T_BINARY ushershis) w_patterns w_scope = Ok (BIF_RET t) /\
    (t = T_ATOM am_nomatch /\ (forall p, ~ matches [[104; 101]; [115; 104; 101]; [104; 105; 115]; [104; 101; 114; 115]] (contents ushershis) 1 9 p) \/
     exists p, t = match_tuple p /\ first_match [[104; 101]; [115; 104; 101]; [104; 105; 115]; [104; 101; 114; 115]] (contents ushershis) 1 9 p).
Proof.
  split; [vm_compute; reflexivity|]. apply (binary_match_correct 3 (fun _ => 1) 20 (T_BINARY ushershis) w_patterns w_scope ushershis); [exact w_scheduled|reflexivity|exact w_subject_ok|reflexivity|cbn; lia|exact w_scope_ok|vm_compute; reflexivity|exact w_patterns_stand|cbn; lia].
Defined.
Lemma binary_matches_witness : binary_matches 3 (fun _ => 1) 20 (T_BINARY ushershis) w_patterns w_scope = Ok (BIF_RET (foldr T_LIST T_NIL (map match_tuple [(1, 3); (6, 3)]))) /\
  exists l, binary_matches 3 (fun _ => 1) 20 (T_BINARY ushershis) w_patterns w_scope = Ok (BIF_RET (foldr T_LIST T_NIL (map match_tuple l))) /\
    all_matches (matches [[104; 101]; [115; 104; 101]; [104; 105; 115]; [104; 101; 114; 115]] (contents ushershis) 1 9) 1 l.
Proof.
  split; [vm_compute; reflexivity|]. apply (binary_matches_correct 3 (fun _ => 1) 20 (T_BINARY ushershis) w_patterns w_scope ushershis); [exact w_scheduled|reflexivity|exact w_subject_ok|reflexivity|cbn; lia|exact w_scope_ok|vm_compute; reflexivity|exact w_patterns_stand|cbn; lia].
Defined.
Lemma compile_pattern_witness : exists pats, patterns_of w_patterns = Some pats /\ exists type bin, binary_compile_pattern w_patterns = Ok (BIF_RET (T_TUPLE [T_ATOM type; T_MAGIC bin])) /\ stands_for (T_TUPLE [T_ATOM type; T_MAGIC bin]) pats /\
      match bin with BM_DATA _ => type = am_bm /\ len pats = 1 | AC_DATA _ => type = am_ac /\ 2 <= len pats end.
Proof. eexists. split; [reflexivity|]. exact (compile_pattern_typed w_patterns (proj1 w_patterns_stand) ltac:(vm_compute; reflexivity)). Defined.
(** A sub binary with an offset of 3 bits: the 2 bytes of which one is taken. *)
Definition w_sub : binary := mkBinary [0xE1; 0x82; 0x43] 0 3 2 0.
Lemma w_sub_ok : bin_ok w_sub.
Proof. ok_binary. Defined.
Lemma parts_in_bounds_witness : contents w_sub = [12; 18] /\ exists sb, erts_binary_part (T_BINARY w_sub) (T_INT (make_small 2)) (T_INT (make_small (-1))) = BIF_RET sb /\ contents sb = [18] /\
  binary_bin_to_list_common 3 (fun _ => 1) 9 (T_BINARY w_sub) (T_INT (make_small 2)) (T_INT (make_small (-1))) = Ok (BIF_RET (byte_list [18] T_NIL)).
Proof.
  split; [reflexivity|]. assert (H := parts_in_bounds (T_BINARY w_sub) w_sub (T_INT (make_small 2)) (T_INT (make_small (-1))) 2 (-1) eq_refl w_sub_ok ltac:(cbn; lia) (conj eq_refl eq_refl) (conj eq_refl eq_refl)).
  destruct H as (_ & _ & (sb & H1 & _ & _ & H2) & H3). exists sb. split; [exact H1|]. split; [exact H2|]. exact (H3 3 (fun _ => 1) 9%nat w_scheduled ltac:(vm_compute; reflexivity)).
Defined.
Lemma copy_bits_witness : erts_copy_bits [0xAB; 0xCD] 0 3 1 [0; 0xFF; 0xFF] 0 6 1 9 = Ok [1; 0x79; 0xFF] /\ exists dst', erts_copy_bits [0xAB; 0xCD] 0 3 1 [0; 0xFF; 0xFF] 0 6 1 9 = Ok dst' /\
  forall k, 0 <= k -> bit dst' k = if (6 <=? k) && (k <? 15) then bit [0xAB; 0xCD] (3 + (k - 6)) else bit [0; 0xFF; 0xFF] k.
Proof.
  split; [vm_compute; reflexivity|]. destruct (copy_bits_exact [0xAB; 0xCD] 0 3 [0; 0xFF; 0xFF] 0 6 9) as (dst' & E & _ & _ & H); [ok_bytes|ok_bytes|lia|lia|lia|lia|lia|cbn; lia|cbn; lia|]. exists dst'. split; [exact E|exact H].
Defined.
Lemma binary_copy_witness : binary_copy 3 (fun _ => 1) 9 (T_BINARY w_sub) (T_INT (make_small 5)) = Ok (BIF_RET (T_BINARY (real_binary [12; 18; 12; 18; 12; 18; 12; 18; 12; 18]))).
Proof. exact (binary_copy_correct 3 (fun _ => 1) 9 (T_BINARY w_sub) (T_INT (make_small 5)) w_sub 5 w_scheduled eq_refl w_sub_ok eq_refl (conj eq_refl eq_refl) ltac:(lia) ltac:(cbn; lia) ltac:(lia)). Defined.
Lemma binary_copy_overruns_witness : binary_copy 3 (fun _ => 1) 9 (T_BINARY w_sub) (T_INT (make_big (MkBig false [2 ^ 63]))) = Undef.
Proof.
  apply (binary_copy_overruns 3 (fun _ => 1) 9 (T_BINARY w_sub) _ w_sub (2 ^ 63) w_scheduled eq_refl w_sub_ok eq_refl); [|lia|cbn; lia|vm_compute; reflexivity].
  cbn. unfold canonical, wf_big, normal, bval, BIG_SIZE, BIG_ARITY_MAX. cbn. splits; auto; try lia; try discriminate. constructor; [split; lia|constructor].
Defined.
Definition w_list : term := foldr T_LIST T_NIL (map (fun l => T_BINARY (real_binary l)) [[1; 2; 3; 9]; [1; 2; 4; 9]; [1; 2; 9]]).
Lemma longest_common_witness : do_longest_common 3 (fun _ => 1) 9 w_list DIRECTION_PREFIX = Ok (BIF_RET (T_INTEGER 2)) /\ exists n, do_longest_common 3 (fun _ => 1) 9 w_list DIRECTION_PREFIX = Ok (BIF_RET (T_INTEGER n)) /\
  exists w, len w = n /\ common_prefix [[1; 2; 3; 9]; [1; 2; 4; 9]; [1; 2; 9]] w.
Proof.
  split; [vm_compute; reflexivity|]. destruct (longest_common_correct 3 (fun _ => 1) 9 w_list DIRECTION_PREFIX (real_binary [1; 2; 3; 9]) [real_binary [1; 2; 4; 9]; real_binary [1; 2; 9]] eq_refl) as (n & E & W & _); [repeat (apply Forall_cons; split; [ok_binary|]); auto|repeat (apply Forall_cons; split; [reflexivity|]); auto|cbn; lia|].
  exists n. split; [exact E|exact W].
Defined.
Lemma unsigned_roundtrip_witness : exists l, do_encode_unsigned 7 (T_INT (make_small 258)) am_little = BIF_RET (T_BINARY (real_binary l)) /\ l = [2; 1] /\ do_decode_unsigned (T_BINARY (real_binary l)) am_little = Ok (BIF_RET (T_INT (make_small 258))).
Proof.
  destruct (unsigned_roundtrip 7 (T_INT (make_small 258)) 258 am_little (ex_intro _ _ (conj eq_refl (conj eq_refl eq_refl))) (or_intror eq_refl)) as (l & E & _ & _ & _ & D). exists l. split; [exact E|]. split; [|exact D]. symmetry. exact (f_equal (fun r => match r with BIF_RET (T_BINARY b) => orig b | _ => [] end) E).
Defined.
